(* ===== verification/_CoqProject ===== *)
-Q . S2P
Prelude.v
Io.v
Glib.v
Protocol.v
Pam.v
Policy.v
Bridge.v
BridgeInv.v
TreeDiff.v
Launch.v
Agent.v
Portal.v
Effects.v
Process.v
Supervise.v
SuperviseInv.v
MonitorInv.v
AgentRefines.v
LaunchExamples.v
Desktop.v
Host.v
Requests.v
RequestsInv.v
Sample.v
Methods.v
MethodsInv.v
Confined.v
OpenPath.v
Examples.v
Session.v
SecretHelper.v
SecretEnds.v
WalletBackup.v
SecretTrace.v
SecretGuard.v
SecretKey.v
SecretExamples.v
SpacesOpen.v
GuestOpen.v
Frontend.v
FrontendCalls.v
FrontendNative.v
Mirrors.v
FrontendMain.v
FrontendSteps.v
FrontendInv.v
FrontendSafe.v
FrontendWhole.v
FrontendConfined.v
FrontendNames.v
FrontendProps.v
FrontendExamples.v
Json.v
Catalog.v
CatalogProps.v
Results.v
Mcp.v
McpProps.v
McpReader.v
Scu.v
ScuProps.v
ScuSafe.v
ScuCancel.v
ScuEnds.v
ScuExamples.v
ComputerState.v
ComputerDesktop.v
ComputerService.v
ComputerMain.v
ComputerInput.v
ComputerTools.v
ComputerInv.v
ComputerKept.v
ComputerActions.v
ComputerTyping.v
ComputerSafe.v
ComputerProps.v
ComputerExamples.v
