(* ===== verification/Prelude.v ===== *)
(** * Spaces: a verification library for the native programs

    A space is a container in which a user runs applications of another
    system.  The C programs under [native/] connect it to the host: they let a
    guest use the host's system services, portals, PAM stack and desktop, and
    keep it to what it is meant to reach.  This library models most of the
    programs that stand on that boundary and proves what they promise.

    ** The parts and their files

    - The system bus bridge, [native/spaces_system_broker.c].  A relay in the
      space owns the names of the resolver, NetworkManager and UPower; a broker
      on the host forwards the calls it is sent.  [Policy] is the policy both
      apply ([system_bus_policy.h], [dbus_message.h]), [Bridge] the state of
      [struct App] with every entry point GLib calls and the step relation
      that interleaves them, [BridgeInv] the invariant of its reachable states
      and what follows from it.
    - PAM, [native/protocol.h], [pam_spaces.c], [spaces_pam.c].  A module in
      the guest and a worker on the host hold one PAM conversation in frames
      over a socket.  [Io] is a descriptor with an arbitrary kernel behind it,
      [Protocol] the frames, [Pam] the two programs.
    - The launcher, [native/spaces.c].  [Launch] has its parsers, formats and
      merges; [Process] what it asks of the kernel and [Supervise] every
      function that asks, with both sides of each [fork].  [SuperviseInv] and
      [MonitorInv] have the theorems on the processes it starts.  [Agent] is
      the polkit agent that the launches of a session share, as a step relation
      over launches, and [AgentRefines] shows that the programs do what it
      says; [LaunchExamples] runs them.
    - The host broker, [native/spaces_broker.c], answers the integration
      interface.  [Portal] is its registration with the host's portal, a state
      machine; [Host] what it asks of its kernel and bus; [Requests] and
      [Methods] every handler, as programs; [RequestsInv], [MethodsInv],
      [Confined] and [OpenPath] the theorems; [Sample] and [Examples] a host on
      which they run.
    - The guest's programs.  [Session] is what they ask of the system around
      them.  [SecretHelper] is [native/spaces_secret_helper.c], which starts
      the guest's secret service: [SecretEnds], [WalletBackup], [SecretTrace],
      [SecretGuard] and [SecretKey] hold its theorems, [SecretExamples] a
      session on which it runs.  [SpacesOpen] is [native/spaces_open.c], which
      sends files to the host broker: [GuestOpen] composes it with the broker's
      checks and runs it.
    - The guest's portal frontend, [native/spaces_portal.c], which owns the
      desktop portal's name in the space and sends what applications ask to the
      host.  [Frontend] has [struct Portal] and the operations on its tables,
      [FrontendCalls] the handlers of portal calls and their replies,
      [FrontendNative] notifications, the screen saver and the file manager,
      [Mirrors] the players and tray icons shown on the host, [FrontendMain]
      the signals, the start-up and [dispatch], which runs the handler of an
      input.  [FrontendSteps], [FrontendInv], [FrontendSafe] and
      [FrontendWhole] prove the invariant of the tables, [FrontendConfined] what
      needs less than it and holds of every run; [FrontendNames] and
      [FrontendProps] have the runs and the theorems, [FrontendExamples] a system
      on which it runs, and what happens outside of the invariant.
    - The computer-use server of a space, [native/scu_mcp.h] and
      [native/scu.c], which lets an agent see and use the space's desktop: a
      reader thread frames the agent's lines, a server answers them, and what a
      tool asks goes over a socket to the program of the host's session.
      [Json] has the values of yyjson, [Catalog] the tools with their schemas
      and the check of arguments, [Results] the texts of answers, [Mcp] the
      server with its reader thread and [Scu] the space's program.
      [CatalogProps], [McpProps], [McpReader], [ScuProps], [ScuSafe],
      [ScuEnds] and [ScuCancel] have the theorems, [ScuExamples] a reader of JSON,
      a system on which the program runs, and its runs.
      [Mcp] looks at the program that executes the tools only through the class
      [Program], of which [scu_program] is an instance.  The reader thread runs
      where the server's own thread pauses ([pause]): any lines may have arrived
      there, and a cancellation among them takes effect.
    - The computer-use program of the host's session, [native/scu_host.c] with
      [scu_service.h] and [scu_desktop.h], which serves the servers of all spaces
      and acts on the desktop.  It is one thread whose callbacks run wherever a
      tool waits.  [ComputerState] has the clients, leases, desktop and devices,
      and what the program asks of the system; [ComputerDesktop] the input
      devices and the desktop session's callbacks, [ComputerService] the callbacks
      on sockets and the queue of events, [ComputerMain] the waits and the main
      loop, [ComputerInput] pointer buttons, keys and text, [ComputerTools] the
      tools and the check of the element that text goes to.  [ComputerInv] has
      the rules to reason about its programs and the invariant of the service;
      [ComputerKept], [ComputerActions], [ComputerTyping] and [ComputerSafe] show
      that every wait, action and event keeps it, and what the catalog promises
      the tools; [ComputerProps] has the theorems, [ComputerExamples] a system on
      which it runs, and its runs.  The program is another instance of [Program],
      so [Mcp] serves both.
    - Tree differences, [native/scu_diff.h], in [TreeDiff].

    [Prelude] holds texts, machine integers, decimal numbers and tactics; [Glib]
    messages and GLib's string functions; [Effects] programs over a changing
    state with a trace of events; [Desktop] the other GLib functions that only
    compute.

    ** How code becomes definitions

    A C function is a definition of its name; loops and blocks of long
    functions are definitions of their own, which the function composes.  A
    byte buffer, string or path is a list of bytes, an integer a [Z] with its
    wrap-around written out, a struct a record, a hash table a [gmap].
    Programs that call the system are one of three kinds: [Io] over a stream
    whose kernel transfers, interrupts or fails as it likes; a step relation
    where GLib's main loop decides the order ([Bridge], [Portal], [Agent]); and
    the programs of [Effects], whose every request may be answered in any way
    and is an event of a trace.  Pointers matter in the bridge and in the portal
    frontend: their objects live in a heap, and reading a freed one makes an
    operation fail.

    What is not under [src/] is a parameter: Linux-PAM, the kernel, the buses
    and GLib's nontrivial functions are classes ([GLib], [Kernel], [Desktop],
    [Session], [Processes], [Guest], [Json_text], [Surroundings]), whose laws
    state documented behaviour, each with an instance that shows the laws can
    hold ([glib_reference], [sample_desktop], [sample_kernel],
    [sample_session], [sample_processes], [sample_guest], [sample_json],
    the two [sample_surroundings]).  [Calm], [Steady], [Ticking] and [WalletFiles] are
    the further laws single theorems need: interruptions end, sleeping takes
    time, the clock advances, and nobody else changes the wallet's directory.

    ** What the theorems show

    - Confinement: the bridge puts nothing on the host's bus but calls its
      policy allows, signals of the services, and callbacks with the grant; the
      host broker makes a fixed list of calls, wraps the command lines it
      forwards, opens guest paths only as proved, and gives real-time priority
      only to checked threads; of the secret and its key, nothing leaves the secret
      helper but the key, into the provider's pipe; it moves a wallet only when it is closed, and leaves a
      provider alone it did not start; the portal frontend, in every run, makes
      calls of a fixed list on the host's bus, and tells each client only of its own
      requests and sessions; the computer-use server speaks to the host
      only over the user's own private socket, to a peer that is the same user;
      the host's computer-use program presses keys and buttons only where the
      screen is not locked, except that a lock seen while the element that text
      goes to is verified comes too late; it gives no image of a locked one, runs tools for
      connected clients alone, answers each client its own requests, and does
      nothing for a space once its controller was told that it is released.
    - Exactness: frames, staged files, secrets, the agent's readiness, the
      launcher's options, the lines of an agent, the arguments that a tool
      takes, a forwarded request with its answer, and the tree differences equal
      their specifications, whatever the chunking of reads and writes.
    - Safety of state: the bridge's reference counts and limits, the portal's
      registration, the shared agent's lifetime, the files of a backup, the portal
      frontend's requests and sessions, whose names are valid and apart, the
      clients, leases, devices and buffers of the host's computer-use program,
      none of which grows beyond its limit or is used after it was freed, but for
      an input device that goes while the element that text goes to is verified.
    - Completion: calls and method calls are answered exactly once (four methods
      of the host broker leave a call unanswered whose message lacks the
      descriptor that it names), descriptors are closed, processes of a failed
      start are ended, and loops end; a request to the computer-use server is
      answered once, one whose cancellation arrived in time is not, and each is
      done a few waits of the server after its deadline, unless its own client
      does not read the answer.
    - Composition: for stacks that take an empty answer as they take none, which
      the worker cannot tell apart, the PAM module with the worker behaves as a
      direct conversation; the guest's open command meets the broker's checks; the
      launcher leaves with the status that its monitor saw; the launcher's
      programs refine the model of the shared agent for all answers of the kernel
      that agree with those that a run got.

    ** Fuel

    Loops that are not structural take fuel, and running out is a result of its
    own, different from every result of the code.  [fuel_of] is one more than
    the answers a stream's kernel has left, so a run that needs more is blocked
    in a system call.  [RequestsInv.enough] counts the bytes of the largest
    staged file and the calls that may still be interrupted;
    [SecretEnds.enough] the numbers of a backup, the iterations to the longest
    deadline, the bytes of a transfer and the signals to come.  A request to the
    computer-use server needs as much as the clock can be read before its
    deadline; the laws of [Ticking] are that requests to the kernel take at most
    a [latency], [Poll] the time it is told besides, and handing the client its
    answer as long as the client likes.  With so much fuel the programs return ([open_method_complete],
    [helper_terminates], [request_ends]);
    [tree_diff_returns] needs none.

    ** What is not modelled

    Of [spaces_broker.c], the connection set-up, the main loop and the removal of
    staged files at the end.  Of [spaces_portal.c], the choice of the file
    chooser's backend, the changes of the accessibility status after the start
    with the file that they write, and the handlers that only quit the main loop.
    The invariant of the portal frontend is for runs in which no forwarded call is
    answered after its client has gone ([timely]), and says nothing of inputs on
    which a handler reads a freed object: [FrontendExamples] has four such runs.
    Confinement of its calls is for every run.  The start-up wrappers for older C
    libraries.  Of [scu_host.c], the accessibility worker and the bytes exchanged
    with it, the geometry of displays and windows with the positions and samples
    of pointer motion, captures and their encoding, and the order in which an
    element is selected, typed into and read back, with the clipboard; and
    [scu_applications.h]: AT-SPI, PipeWire, image libraries and GIO do most of
    that work.  These parts are the class [Tools], each any program of the steps
    that they take, so the theorems hold whatever they decide.  Chords and text
    for an element are among the steps, and verify the element after they have
    looked at the lock and the device, as the code does; [ComputerExamples] has a
    run of the service that then uses a freed device, and one that presses a key
    while the screen is locked.  Of [scu_service.h], the socket of the tests.  In [Mcp]
    and [Scu] the reader and writer of yyjson are parameters, its numbers are
    finite, and [errno] is taken to survive the [stat] that follows a failed
    [recv].  The space manager is written in Python.  Memory allocation by GLib aborts on failure and is
    taken to succeed; so is what GLib frees at the end of a function. *)

From stdpp Require Export prelude gmap strings list fin_maps numbers relations.
From Stdlib Require Export Ascii ZArith Lia.
From Stdlib Require String.
#[global] Open Scope Z_scope.

(** ** Text

    Buffers, C strings and GLib strings are lists of bytes; a C string is the
    bytes before its terminating NUL. *)

Abbreviation text := (list ascii).

Definition str (s : string) : text := String.list_ascii_of_string s.
Arguments str : simpl never.

Definition code (c : ascii) : Z := Z.of_N (N_of_ascii c).
Definition char (z : Z) : ascii := ascii_of_N (Z.to_N (z mod 256)).

Definition text_eqb (a b : text) : bool := bool_decide (a = b).

Lemma text_eqb_spec a b : text_eqb a b = true ↔ a = b.
Proof. unfold text_eqb. apply bool_decide_eq_true. Qed.

Lemma text_eqb_refl a : text_eqb a a = true.
Proof. by apply text_eqb_spec. Qed.

Lemma text_eqb_neq a b : text_eqb a b = false ↔ a ≠ b.
Proof. unfold text_eqb. apply bool_decide_eq_false. Qed.

Lemma code_range c : 0 ≤ code c < 256.
Proof.
  unfold code. pose proof (N_ascii_bounded c). lia.
Qed.

Lemma char_code c : char (code c) = c.
Proof.
  unfold char. rewrite Z.mod_small by apply code_range.
  unfold code. rewrite N2Z.id. apply ascii_N_embedding.
Qed.

Lemma code_char z : code (char z) = z mod 256.
Proof.
  unfold code, char.
  pose proof (Z.mod_pos_bound z 256 ltac:(lia)) as H.
  rewrite N_ascii_embedding; lia.
Qed.

Lemma char_eq z c : z mod 256 = code c → char z = c.
Proof.
  intros Hz. rewrite <- (char_code c), <- Hz. unfold char.
  by rewrite Z.mod_mod.
Qed.

(** ** Machine integers *)

Definition u8 (z : Z) : Z := z mod 2 ^ 8.
Definition u32 (z : Z) : Z := z mod 2 ^ 32.
Definition u64 (z : Z) : Z := z mod 2 ^ 64.

(** [(int)x] for a 32-bit unsigned [x], two's complement. *)
Definition int_of_u32 (z : Z) : Z := if decide (z < 2 ^ 31) then z else z - 2 ^ 32.

Definition INT_MAX : Z := 2 ^ 31 - 1.
Definition UINT_MAX : Z := 2 ^ 32 - 1.
Definition ULLONG_MAX : Z := 2 ^ 64 - 1.

Lemma u32_small z : 0 ≤ z < 2 ^ 32 → u32 z = z.
Proof. unfold u32. apply Z.mod_small. Qed.

Lemma int_of_u32_u32 z : - 2 ^ 31 ≤ z < 2 ^ 31 → int_of_u32 (u32 z) = z.
Proof.
  intros H. unfold int_of_u32, u32.
  destruct (decide (0 ≤ z)).
  - rewrite Z.mod_small by lia. case_decide; lia.
  - replace (z mod 2 ^ 32) with (z + 2 ^ 32)
      by (apply Z.mod_unique with (-1); lia).
    case_decide; lia.
Qed.

(** ** C strings and decimal numbers *)

(** The C string at the start of a buffer: the bytes before the first NUL. *)
Fixpoint cstring (b : text) : text :=
  match b with
  | [] => []
  | c :: b => if decide (c = zero) then [] else c :: cstring b
  end.

Definition is_digit (c : ascii) : bool := (48 <=? code c) && (code c <=? 57).
Definition digit_value (c : ascii) : Z := code c - 48.
Definition digit_char (d : Z) : ascii := char (48 + d).

(** [printf]'s [%lu]: the decimal digits of a non-negative number. *)
Fixpoint decimal_loop (fuel : nat) (n : Z) (acc : text) : text :=
  match fuel with
  | O => acc
  | S fuel =>
      let acc := digit_char (n mod 10) :: acc in
      if decide (n < 10) then acc else decimal_loop fuel (n / 10) acc
  end.

(** A number of [b] bits has at most [b] digits. *)
Definition decimal (n : Z) : text := decimal_loop (S (Z.to_nat (Z.log2 n))) n [].

(** [printf]'s [%d] and [%ld]. *)
Definition signed_decimal (n : Z) : text :=
  if n <? 0 then str "-" ++ decimal (- n) else decimal n.

(** The value of a run of digits, most significant first. *)
Definition digits_value (ds : text) : Z :=
  foldl (λ v c, v * 10 + digit_value c) 0 ds.

(** [atoi]: [strtol] in base ten, clamped to [long], truncated to [int]. *)
Definition is_space (c : ascii) : bool :=
  (code c =? 32) || ((9 <=? code c) && (code c <=? 13)).

Fixpoint skip_while (p : ascii → bool) (s : text) : text :=
  match s with
  | [] => []
  | c :: rest => if p c then skip_while p rest else s
  end.

Fixpoint take_while (p : ascii → bool) (s : text) : text :=
  match s with
  | [] => []
  | c :: rest => if p c then c :: take_while p rest else []
  end.

Definition strtol_value (s : text) : Z :=
  let s := skip_while is_space s in
  let magnitude s := digits_value (take_while is_digit s) in
  let v :=
    match s with
    | c :: rest =>
        if decide (c = "-"%char) then - magnitude rest
        else if decide (c = "+"%char) then magnitude rest
        else magnitude s
    | [] => 0
    end in
  Z.max (- 2 ^ 63) (Z.min (2 ^ 63 - 1) v).

Definition atoi (s : text) : Z := int_of_u32 (u32 (strtol_value s)).

Lemma cstring_id b : zero ∉ b → cstring b = b.
Proof.
  induction b as [|c b IH]; [done|]. intros H.
  apply not_elem_of_cons in H as [Hc Hb]. simpl.
  rewrite decide_False by done. by rewrite IH.
Qed.

Lemma cstring_no_nul b : zero ∉ cstring b.
Proof.
  induction b as [|c b IH]; simpl; [set_solver|].
  case_decide; [set_solver|]. apply not_elem_of_cons. by split.
Qed.

Lemma cstring_idemp b : cstring (cstring b) = cstring b.
Proof. apply cstring_id, cstring_no_nul. Qed.

Lemma length_cstring b : (length (cstring b) ≤ length b)%nat.
Proof. induction b as [|c b IH]; simpl; [done|]. case_decide; simpl; lia. Qed.

Lemma code_digit_char d : 0 ≤ d < 10 → code (digit_char d) = 48 + d.
Proof. intros. unfold digit_char. rewrite code_char. apply Z.mod_small. lia. Qed.

Lemma is_digit_digit_char d : 0 ≤ d < 10 → is_digit (digit_char d) = true.
Proof. intros. unfold is_digit. rewrite code_digit_char by done. lia. Qed.

Lemma digit_value_digit_char d : 0 ≤ d < 10 → digit_value (digit_char d) = d.
Proof. intros. unfold digit_value. rewrite code_digit_char by done. lia. Qed.

Lemma digit_value_range c : is_digit c = true → 0 ≤ digit_value c < 10.
Proof. unfold is_digit, digit_value. lia. Qed.

Lemma decimal_loop_app fuel n acc :
  decimal_loop fuel n acc = decimal_loop fuel n [] ++ acc.
Proof.
  revert n acc. induction fuel as [|fuel IH]; intros n acc; simpl; [done|].
  case_decide; [done|]. rewrite IH, (IH _ [_]). by rewrite <- app_assoc.
Qed.

Lemma digits_value_snoc ds c : digits_value (ds ++ [c]) = digits_value ds * 10 + digit_value c.
Proof. unfold digits_value. by rewrite foldl_snoc. Qed.

Lemma decimal_loop_value fuel n :
  0 ≤ n < 10 ^ Z.of_nat fuel →
  digits_value (decimal_loop fuel n []) = n ∧
  Forall (λ c, is_digit c = true) (decimal_loop fuel n []).
Proof.
  revert n. induction fuel as [|fuel IH]; intros n Hn.
  { simpl in *. assert (n = 0) as -> by lia. by split. }
  simpl. pose proof (Z.mod_pos_bound n 10 ltac:(lia)) as Hm.
  case_decide as Hlt.
  - rewrite Z.mod_small by lia. split.
    + unfold digits_value. simpl. rewrite digit_value_digit_char; lia.
    + constructor; [apply is_digit_digit_char; lia|done].
  - rewrite decimal_loop_app. destruct (IH (n / 10)) as [Hv Hd].
    { rewrite Nat2Z.inj_succ, Z.pow_succ_r in Hn by lia.
      split; [apply Z.div_pos; lia|]. apply Z.div_lt_upper_bound; lia. }
    split.
    + rewrite digits_value_snoc, Hv, digit_value_digit_char by done.
      pose proof (Z.div_mod n 10). lia.
    + apply Forall_app. split; [done|].
      constructor; [by apply is_digit_digit_char|done].
Qed.

Lemma decimal_value n :
  0 ≤ n → digits_value (decimal n) = n ∧ Forall (λ c, is_digit c = true) (decimal n).
Proof.
  intros Hn. apply decimal_loop_value. split; [done|].
  rewrite Nat2Z.inj_succ, Z2Nat.id by apply Z.log2_nonneg.
  destruct (decide (n = 0)) as [->|Hn0]; [done|].
  apply Z.lt_le_trans with (2 ^ Z.succ (Z.log2 n)).
  - apply Z.log2_spec. lia.
  - apply Z.pow_le_mono_l. lia.
Qed.

Lemma decimal_nonempty n : decimal n ≠ [].
Proof.
  unfold decimal. simpl. case_decide; [done|].
  rewrite decimal_loop_app. by destruct (decimal_loop _ _ _).
Qed.

Lemma length_decimal_loop fuel n k :
  0 ≤ n < 10 ^ Z.of_nat k → (0 < k)%nat →
  (length (decimal_loop fuel n []) ≤ k)%nat.
Proof.
  revert n k. induction fuel as [|fuel IH]; intros n k Hn Hk; simpl; [lia|].
  case_decide as Hlt; simpl; [lia|].
  rewrite decimal_loop_app, length_app. simpl.
  destruct k as [|k]; [lia|].
  rewrite Nat2Z.inj_succ, Z.pow_succ_r in Hn by lia.
  destruct k as [|k]; [simpl in Hn; lia|].
  enough (length (decimal_loop fuel (n / 10) []) ≤ S k)%nat by lia.
  apply IH; [|lia]. split; [apply Z.div_pos; lia|].
  apply Z.div_lt_upper_bound; lia.
Qed.

Lemma length_decimal n k :
  0 ≤ n < 10 ^ Z.of_nat k → (0 < k)%nat → (length (decimal n) ≤ k)%nat.
Proof. apply length_decimal_loop. Qed.

(** ** Tactics *)

(** Case analysis on every test of a goal or hypothesis that runs a model. *)
Ltac run_cases :=
  repeat (case_match || case_decide); simplify_eq/=.

Create HintDb model.
Create Rewrite HintDb model.
#[export] Hint Rewrite @length_app @length_cons @length_nil @app_nil_r : model.
#[export] Hint Resolve code_range : model.
