(* ===== verification/Io.v ===== *)
(** * Descriptor input and output

    The programs read and write descriptors with [read] and [write], which
    may transfer fewer bytes than asked, be interrupted, or fail.  A [stream]
    is one descriptor: the bytes the peer has still to deliver, the bytes the
    program has written, and the kernel's answers to the next system calls.
    A computation [Io A] runs against a stream; [None] means that the program
    is still blocked in a system call when the recorded answers run out. *)

From S2P Require Import Prelude.

(** One answer of the kernel: it transfers at most this many bytes, it was
    interrupted by a signal ([EINTR]), or it fails with another errno. *)
Inductive answer :=
  | Count (n : nat)
  | Eintr
  | Errno (e : Z).

#[export] Instance answer_eq_dec : EqDecision answer.
Proof. solve_decision. Defined.

Record stream := Stream {
  inp : text;               (** bytes the peer has still to deliver *)
  out : text;               (** bytes written so far *)
  script : list answer;     (** answers to the next system calls *)
  heap : list bool;         (** whether the next allocations succeed; once
                                the list is used up, they all do *)
}.

(** The return value of a system call: a value, or [-1] with [errno]. *)
Inductive sysret (A : Type) :=
  | Done (x : A)
  | Interrupted
  | Failed (e : Z).
Arguments Done {_} _.
Arguments Interrupted {_}.
Arguments Failed {_} _.

Definition Io (A : Type) : Type := stream → option (A * stream).

#[export] Instance Io_ret : MRet Io := λ A x st, Some (x, st).
#[export] Instance Io_bind : MBind Io := λ A B f m st,
  match m st with
  | Some (x, st') => f x st'
  | None => None
  end.

(** [read(fd, buffer, size)]: the bytes read, none at end of file. *)
Definition sys_read (size : nat) : Io (sysret text) := λ st,
  match st.(script) with
  | [] => None
  | Eintr :: k => Some (Interrupted, Stream st.(inp) st.(out) k st.(heap))
  | Errno e :: k => Some (Failed e, Stream st.(inp) st.(out) k st.(heap))
  | Count n :: k =>
      let n := Nat.min n size in
      Some (Done (take n st.(inp)),
            Stream (drop n st.(inp)) st.(out) k st.(heap))
  end.

(** [write(fd, data, size)]: how many bytes were taken. *)
Definition sys_write (data : text) : Io (sysret nat) := λ st,
  match st.(script) with
  | [] => None
  | Eintr :: k => Some (Interrupted, Stream st.(inp) st.(out) k st.(heap))
  | Errno e :: k => Some (Failed e, Stream st.(inp) st.(out) k st.(heap))
  | Count n :: k =>
      let n := Nat.min n (length data) in
      Some (Done n, Stream st.(inp) (st.(out) ++ take n data) k st.(heap))
  end.

(** [malloc] or [calloc]: whether it returned memory. *)
Definition sys_alloc : Io bool := λ st,
  match st.(heap) with
  | [] => Some (true, st)
  | b :: h => Some (b, Stream st.(inp) st.(out) st.(script) h)
  end.

(** Every loop below makes one system call per iteration, so the number of
    recorded answers bounds its iterations. *)
Definition fuel_of (st : stream) : nat := S (length st.(script)).

(** An answer that lets a loop make progress on a descriptor with data. *)
Definition productive (a : answer) : Prop :=
  match a with
  | Count n => (0 < n)%nat
  | Eintr => True
  | Errno _ => False
  end.

#[export] Instance productive_dec (a : answer) : Decision (productive a).
Proof. destruct a; simpl; apply _. Defined.

Definition is_count (a : answer) : bool :=
  match a with Count _ => true | _ => false end.

(** The number of transfers, as opposed to interruptions, in a script. *)
Definition transfers (k : list answer) : nat :=
  length (filter is_count k).

(** Enough productive answers to move [n] bytes. *)
Definition serves (n : nat) (st : stream) : Prop :=
  Forall productive st.(script) ∧ (n ≤ transfers st.(script))%nat.

(** ** Facts shared by the loops *)

Lemma transfers_cons a k :
  transfers (a :: k) =
    ((match a with Count _ => 1 | _ => 0 end) + transfers k)%nat.
Proof. unfold transfers. rewrite filter_cons. by destruct a. Qed.

Lemma Io_bind_Some {A B} (m : Io A) (f : A → Io B) st r :
  (m ≫= f) st = Some r ↔ ∃ x st', m st = Some (x, st') ∧ f x st' = Some r.
Proof.
  unfold mbind, Io_bind. destruct (m st) as [[x st']|] eqn:E.
  - split; [by eauto|]. intros (? & ? & ? & ?). by simplify_eq.
  - split; [done|]. intros (? & ? & ? & ?). by simplify_eq.
Qed.

Lemma Io_bind_eq {A B} (m : Io A) (f : A → Io B) st x st' :
  m st = Some (x, st') → (m ≫= f) st = f x st'.
Proof. intros H. unfold mbind, Io_bind. by rewrite H. Qed.

Lemma Io_ret_Some {A} (x : A) st r :
  (mret x : Io A) st = Some r ↔ r = (x, st).
Proof. unfold mret, Io_ret. naive_solver. Qed.

(** Unfolds one successful run of a computation into its steps. *)
Ltac io_inv :=
  repeat match goal with
  | H : (_ ≫= _) _ = Some _ |- _ =>
      apply Io_bind_Some in H as (? & ? & ? & ?)
  | H : mret _ _ = Some _ |- _ => apply Io_ret_Some in H
  end; simplify_eq.

Lemma serves_mono n m st : serves (n + m) st → serves n st.
Proof. unfold serves. intuition lia. Qed.

(** A served [read] delivers some of the bytes that are waiting. *)
Lemma sys_read_serves size n st :
  serves (S n) st → size ≠ O → st.(inp) ≠ [] →
  ∃ st', length st.(script) = S (length st'.(script)) ∧
    st'.(out) = st.(out) ∧ st'.(heap) = st.(heap) ∧
    ((sys_read size st = Some (Interrupted, st') ∧
        st'.(inp) = st.(inp) ∧ serves (S n) st') ∨
     (∃ k, sys_read size st = Some (Done (take k st.(inp)), st') ∧
        st'.(inp) = drop k st.(inp) ∧ (0 < k ≤ size)%nat ∧ serves n st')).
Proof.
  intros [Hp Ht] Hsize Hinp. destruct st as [i o [|a k] h]; [cbn in Ht; lia|].
  apply Forall_cons in Hp as [Ha Hk].
  simpl in *. rewrite transfers_cons in Ht. unfold sys_read.
  exists (Stream (match a with Count c => drop (Nat.min c size) i | _ => i end) o k h).
  destruct a as [c| |e]; [..|done]; simpl in *.
  all: split; [done|]; split; [done|]; split; [done|].
  - right. exists (Nat.min c size). split; [done|].
    split; [done|]. split; [lia|]. split; simpl; [done|lia].
  - left. split; [done|]. split; [done|]. split; simpl; [done|lia].
Qed.

(** A served [write] takes some of the bytes. *)
Lemma sys_write_serves data n st :
  serves (S n) st → data ≠ [] →
  ∃ st', length st.(script) = S (length st'.(script)) ∧
    st'.(inp) = st.(inp) ∧ st'.(heap) = st.(heap) ∧
    ((sys_write data st = Some (Interrupted, st') ∧
        st'.(out) = st.(out) ∧ serves (S n) st') ∨
     (∃ k, sys_write data st = Some (Done k, st') ∧
        st'.(out) = st.(out) ++ take k data ∧
        (0 < k ≤ length data)%nat ∧ serves n st')).
Proof.
  intros [Hp Ht] Hdata. destruct st as [i o [|a k] h]; [cbn in Ht; lia|].
  apply Forall_cons in Hp as [Ha Hk].
  simpl in *. rewrite transfers_cons in Ht. unfold sys_write.
  exists (Stream i (match a with Count c => o ++ take (Nat.min c (length data)) data
                               | _ => o end) k h).
  destruct a as [c| |e]; [..|done]; simpl in *.
  all: split; [done|]; split; [done|]; split; [done|].
  - right. exists (Nat.min c (length data)). split; [done|].
    split; [done|]. destruct data; [done|]. split; [simpl; lia|].
    split; simpl; [done|lia].
  - left. split; [done|]. split; [done|]. split; simpl; [done|lia].
Qed.

(** ** Runs

    [runs m i r i' sent cost]: whenever the peer's pending bytes are [i],
    allocations succeed and the kernel's answers are productive and serve at
    least [cost] transfers, [m] returns [r], leaves [i'] pending, has
    written [sent], and any transfers beyond [cost] are still available. *)

Definition runs {A} (m : Io A) (i : text) (r : A) (i' : text) (sent : text)
    (cost : nat) : Prop :=
  ∀ st k, st.(heap) = [] → st.(inp) = i → serves (cost + k) st →
  ∃ st', m st = Some (r, st') ∧ st'.(inp) = i' ∧
    st'.(out) = st.(out) ++ sent ∧ st'.(heap) = [] ∧ serves k st'.

Lemma serves_le n m st : (m ≤ n)%nat → serves n st → serves m st.
Proof. unfold serves. intros ? []. split; [done|lia]. Qed.

Lemma runs_ret {A} (x : A) i : runs (mret x) i x i [] 0.
Proof. intros st k Hh Hi Hs. exists st. by rewrite app_nil_r. Qed.

Lemma runs_bind {A B} (m : Io A) (f : A → Io B) i x i1 s1 c1 r i2 s2 c2 :
  runs m i x i1 s1 c1 → runs (f x) i1 r i2 s2 c2 →
  runs (m ≫= f) i r i2 (s1 ++ s2) (c1 + c2).
Proof.
  intros Hm Hf st k Hh Hi Hs.
  destruct (Hm st (c2 + k)%nat Hh Hi) as (st1 & He1 & Hi1 & Ho1 & Hh1 & Hs1).
  { by rewrite Nat.add_assoc. }
  destruct (Hf st1 k Hh1 Hi1 Hs1) as (st2 & He2 & Hi2 & Ho2 & Hh2 & Hs2).
  exists st2. rewrite (Io_bind_eq _ _ _ _ _ He1). split; [done|]. split; [done|].
  split; [|done]. by rewrite Ho2, Ho1, <- app_assoc.
Qed.

Lemma runs_le {A} (m : Io A) i r i' sent c c' :
  (c ≤ c')%nat → runs m i r i' sent c → runs m i r i' sent c'.
Proof.
  intros Hc Hm st k Hh Hi Hs.
  apply Hm; [done|done|]. eapply serves_le; [|done]. lia.
Qed.

Lemma runs_then {A B} (m : Io A) (f : A → Io B) i x i1 s1 c1 r i2 s2 c2 sent cost :
  runs m i x i1 s1 c1 → runs (f x) i1 r i2 s2 c2 →
  sent = s1 ++ s2 → (c1 + c2 ≤ cost)%nat → runs (m ≫= f) i r i2 sent cost.
Proof. intros Hm Hf -> Hc. eapply runs_le; [done|]. by eapply runs_bind. Qed.

Lemma runs_map {A B} (m : Io A) (g : A → B) i x i1 sent cost r :
  runs m i x i1 sent cost → g x = r →
  runs (y ← m; mret (g y)) i r i1 sent cost.
Proof.
  intros Hm <-. eapply runs_then; [done|apply runs_ret|by rewrite app_nil_r|lia].
Qed.

Lemma runs_done {A} (x : A) i cost : runs (mret x) i x i [] cost.
Proof. eapply runs_le; [|apply runs_ret]. lia. Qed.

Lemma runs_alloc i : runs sys_alloc i true i [] 0.
Proof.
  intros st k Hh Hi Hs. exists st. unfold sys_alloc. rewrite Hh, app_nil_r. done.
Qed.

Lemma runs_alloc_then {B} (f : bool → Io B) i r i' sent cost :
  runs (f true) i r i' sent cost → runs (sys_alloc ≫= f) i r i' sent cost.
Proof. intros Hf. eapply runs_then; [apply runs_alloc|done|done|lia]. Qed.

(** Enough answers are enough fuel. *)
Lemma serves_fuel n st : serves n st → (n < fuel_of st)%nat.
Proof.
  unfold serves, fuel_of, transfers. intros [_ H].
  pose proof (length_filter is_count st.(script)). lia.
Qed.
