(* ===== verification/Glib.v ===== *)
(** * What the programs use of GLib and GIO

    GLib's string equality and prefix tests, hash tables and pointer arrays
    are used at their plain meaning (equality of texts, [gmap], [list]).
    The library functions whose result is more than that are an interface:
    the components are defined over any implementation of [GLib], and their
    theorems use only the documented laws.  [glib_reference] implements it.

    D-Bus messages and the variants in their bodies are the data below. *)

From S2P Require Import Prelude.

(** ** Variants and messages *)

(** The values the programs look into; anything else is opaque to them and is
    named by its type string and contents. *)
Inductive gvariant :=
  | VString (s : text)
  | VUint32 (n : Z)
  | VBoolean (b : bool)
  | VStringMap (entries : list (text * text))    (** [a{ss}] *)
  | VOther (type contents : text).

#[export] Instance gvariant_eq_dec : EqDecision gvariant.
Proof. solve_decision. Defined.

Inductive message_type := METHOD_CALL | METHOD_RETURN | ERROR | SIGNAL.

#[export] Instance message_type_eq_dec : EqDecision message_type.
Proof. solve_decision. Defined.

(** The body is the tuple of its children; [m_fds] is the length of the
    descriptor list. *)
Record message := Message {
  m_type : message_type;
  m_flags : Z;
  m_serial : Z;
  m_reply_serial : Z;
  m_sender : option text;
  m_destination : option text;
  m_path : option text;
  m_interface : option text;
  m_member : option text;
  m_body : option (list gvariant);
  m_fds : option Z;
}.

Definition set_sender (m : message) (x : option text) : message :=
  Message m.(m_type) m.(m_flags) m.(m_serial) m.(m_reply_serial) x
    m.(m_destination) m.(m_path) m.(m_interface) m.(m_member) m.(m_body) m.(m_fds).
Definition set_destination (m : message) (x : option text) : message :=
  Message m.(m_type) m.(m_flags) m.(m_serial) m.(m_reply_serial) m.(m_sender)
    x m.(m_path) m.(m_interface) m.(m_member) m.(m_body) m.(m_fds).
Definition set_flags (m : message) (x : Z) : message :=
  Message m.(m_type) x m.(m_serial) m.(m_reply_serial) m.(m_sender)
    m.(m_destination) m.(m_path) m.(m_interface) m.(m_member) m.(m_body) m.(m_fds).
Definition set_reply_serial (m : message) (x : Z) : message :=
  Message m.(m_type) m.(m_flags) m.(m_serial) x m.(m_sender)
    m.(m_destination) m.(m_path) m.(m_interface) m.(m_member) m.(m_body) m.(m_fds).
Definition set_body (m : message) (x : option (list gvariant)) : message :=
  Message m.(m_type) m.(m_flags) m.(m_serial) m.(m_reply_serial) m.(m_sender)
    m.(m_destination) m.(m_path) m.(m_interface) m.(m_member) x m.(m_fds).

(** [G_DBUS_MESSAGE_FLAGS_NO_REPLY_EXPECTED] *)
Definition NO_REPLY_EXPECTED : Z := 1.

(** [g_strcmp0(value, name) == 0] for a name that is not [NULL]. *)
Definition str_is (value : option text) (name : text) : bool :=
  bool_decide (value = Some name).

(** [g_str_has_prefix(value, prefix)]. *)
Definition has_prefix (value prefix : text) : bool :=
  bool_decide (take (length prefix) value = prefix).

(** [g_str_has_suffix(value, suffix)]. *)
Definition has_suffix (value suffix : text) : bool :=
  bool_decide (length suffix ≤ length value)%nat
    && bool_decide (drop (length value - length suffix) value = suffix).

(** [g_list_remove(list, x)]: the first element equal to [x]. *)
Fixpoint g_list_remove (x : nat) (l : list nat) : list nat :=
  match l with
  | [] => []
  | y :: l => if decide (x = y) then l else y :: g_list_remove x l
  end.

(** Pieces separated by a delimiter. *)
Fixpoint join (d : ascii) (pieces : list text) : text :=
  match pieces with
  | [] => []
  | [p] => p
  | p :: pieces => p ++ d :: join d pieces
  end.

(** ** The interface *)

Class GLib := {
  (** [g_strsplit(s, d, -1)] for a one-character delimiter. *)
  g_strsplit : text → ascii → list text;
  (** [g_utf8_strlen(s, -1)] *)
  g_utf8_strlen : text → Z;
  (** [g_variant_get_size] of a message body. *)
  g_variant_get_size : list gvariant → Z;
  g_strsplit_empty d : g_strsplit [] d = [];
  g_strsplit_join s d : s ≠ [] → join d (g_strsplit s d) = s;
  g_strsplit_pieces s d : Forall (λ p, d ∉ p) (g_strsplit s d);
  g_strsplit_nonempty s d : s ≠ [] → g_strsplit s d ≠ [];
}.

(** ** A reference implementation *)

Fixpoint split_at (d : ascii) (s : text) : text * list text :=
  match s with
  | [] => ([], [])
  | c :: s =>
      let '(p, ps) := split_at d s in
      if decide (c = d) then ([], p :: ps) else (c :: p, ps)
  end.

Definition split_text (s : text) (d : ascii) : list text :=
  match s with [] => [] | _ => let '(p, ps) := split_at d s in p :: ps end.

(** UTF-8 continuation bytes do not start a character. *)
Definition utf8_length (s : text) : Z :=
  Z.of_nat (length (filter (λ c, code c / 64 ≠ 2) s)).

Definition variant_size (v : gvariant) : Z :=
  match v with
  | VString s => Z.of_nat (length s) + 1
  | VUint32 _ => 4
  | VBoolean _ => 1
  | VStringMap es =>
      foldr (λ e n, Z.of_nat (length e.1) + Z.of_nat (length e.2) + 4 + n) 0 es
  | VOther _ c => Z.of_nat (length c)
  end.

Lemma join_cons d p ps : ps ≠ [] → join d (p :: ps) = p ++ d :: join d ps.
Proof. by destruct ps. Qed.

Lemma join_split_at d s :
  join d ((split_at d s).1 :: (split_at d s).2) = s.
Proof.
  induction s as [|c s IH]; [done|]. cbn [split_at].
  destruct (split_at d s) as [p ps]; cbn [fst snd] in IH.
  case_decide as Hc; cbn [fst snd].
  - rewrite join_cons by done. by rewrite IH, Hc.
  - destruct ps as [|q ps]; simpl in *; by rewrite <- IH.
Qed.

Lemma split_at_pieces d s :
  Forall (λ p, d ∉ p) ((split_at d s).1 :: (split_at d s).2).
Proof.
  induction s as [|c s IH]; simpl; [by repeat constructor; set_solver|].
  destruct (split_at d s) as [p ps]; simpl in *.
  apply Forall_cons in IH as [Hp Hps].
  case_decide; constructor; simpl; auto; set_solver.
Qed.

#[export] Program Instance glib_reference : GLib := {|
  g_strsplit := split_text;
  g_utf8_strlen := utf8_length;
  g_variant_get_size body := foldr (λ v n, variant_size v + n) 0 body;
|}.
Next Obligation. done. Qed.
Next Obligation.
  intros [|c s] d; [done|]. intros _. unfold split_text.
  pose proof (join_split_at d (c :: s)) as H. by destruct (split_at d (c :: s)).
Qed.
Next Obligation.
  intros [|c s] d; [constructor|]. unfold split_text.
  pose proof (split_at_pieces d (c :: s)) as H. by destruct (split_at d (c :: s)).
Qed.
Next Obligation.
  intros [|c s] d; [done|]. intros _. unfold split_text. by destruct (split_at d (c :: s)).
Qed.

(** ** Consequences of the laws *)

(** The pieces of a text are determined by the laws. *)
Lemma join_inj d ps qs :
  ps ≠ [] → qs ≠ [] → Forall (λ p, d ∉ p) ps → Forall (λ p, d ∉ p) qs →
  join d ps = join d qs → ps = qs.
Proof.
  assert (∀ (p q s t : text), d ∉ p → d ∉ q →
    p ++ d :: s = q ++ d :: t → p = q ∧ s = t) as Happ.
  { induction p as [|c p IH]; intros [|c' q] s t Hp Hq H; simplify_eq/=; try set_solver.
    apply not_elem_of_cons in Hp as [? ?], Hq as [? ?].
    destruct (IH q s t) as [-> ->]; done. }
  assert (∀ (p q s : text), d ∉ p → p ≠ q ++ d :: s) as Hne.
  { intros p q s Hp ->. set_solver. }
  revert qs. induction ps as [|p ps IH]; intros qs Hps Hqs Fp Fq H; [done|].
  destruct qs as [|q qs]; [done|].
  apply Forall_cons in Fp as [Hp Fp], Fq as [Hq Fq].
  destruct (decide (ps = [])) as [->|Hps'], (decide (qs = [])) as [->|Hqs'].
  - simpl in H. by subst.
  - rewrite (join_cons d q qs) in H by done. by apply Hne in H.
  - rewrite (join_cons d p ps) in H by done. symmetry in H. by apply Hne in H.
  - rewrite !join_cons in H by done. apply Happ in H as [-> H]; [|done..].
    f_equal. by apply IH.
Qed.

Lemma g_strsplit_unique `{GLib} s d :
  g_strsplit s d = g_strsplit (GLib := glib_reference) s d.
Proof.
  destruct (decide (s = [])) as [->|Hs]; [by rewrite !g_strsplit_empty|].
  apply (join_inj d); try apply g_strsplit_pieces; try by apply g_strsplit_nonempty.
  by rewrite !g_strsplit_join.
Qed.

Lemma has_prefix_spec value prefix :
  has_prefix value prefix = true ↔ ∃ rest, value = prefix ++ rest.
Proof.
  unfold has_prefix. rewrite bool_decide_eq_true. split.
  - intros H. exists (drop (length prefix) value). by rewrite <- H at 1; rewrite take_drop.
  - intros [rest ->]. apply take_app_length.
Qed.

Lemma str_is_spec value name : str_is value name = true ↔ value = Some name.
Proof. unfold str_is. apply bool_decide_eq_true. Qed.

(** ** Components of a path *)

(** The pieces of a text that may be empty. *)
Definition pieces (d : ascii) (s : text) : list text := (split_at d s).1 :: (split_at d s).2.

Lemma pieces_app d a b : pieces d (a ++ d :: b) = pieces d a ++ pieces d b.
Proof.
  unfold pieces. induction a as [|c a IH]; cbn [app split_at].
  - destruct (split_at d b) as [p ps]. by rewrite decide_True.
  - destruct (split_at d (a ++ d :: b)) as [p ps], (split_at d a) as [q qs]; simpl in *.
    injection IH as -> ->. by case_decide.
Qed.

Lemma split_text_pieces d s : s ≠ [] → split_text s d = pieces d s.
Proof. unfold split_text, pieces. destruct s; [done|]. by destruct (split_at d _). Qed.

(** [name] is one of the components of [path]. *)
Definition component (d : ascii) (name path : text) : Prop :=
  ∃ a b, path = a ++ name ++ b ∧ (a = [] ∨ ∃ a', a = a' ++ [d]) ∧ (b = [] ∨ ∃ b', b = d :: b').

Lemma pieces_single d name : d ∉ name → pieces d name = [name].
Proof.
  unfold pieces. induction name as [|c s IH]; intros Hd; cbn [split_at]; [done|].
  apply not_elem_of_cons in Hd as [Hc Hs]. specialize (IH Hs).
  destruct (split_at d s) as [p ps]; simpl in IH. injection IH as -> ->.
  by rewrite decide_False.
Qed.

Lemma component_split `{GLib} d name path :
  d ∉ name → name ≠ [] → component d name path → name ∈ g_strsplit path d.
Proof.
  intros Hd Hne (a & b & -> & Ha & Hb). rewrite g_strsplit_unique.
  cbn [g_strsplit glib_reference]. rewrite split_text_pieces by (destruct a, name; done).
  assert (name ∈ pieces d (name ++ b)) as Hin.
  { destruct Hb as [-> |[b' ->]].
    - rewrite app_nil_r, pieces_single by done. by left.
    - rewrite pieces_app, pieces_single by done. by left. }
  destruct Ha as [-> |[a' ->]]; [done|].
  rewrite <- app_assoc. cbn [app]. rewrite pieces_app. apply elem_of_app. by right.
Qed.

Lemma component_app d name a path :
  (a = [] ∨ ∃ a', a = a' ++ [d]) → component d name path → component d name (a ++ path).
Proof.
  intros Ha (x & y & -> & Hx & Hy). exists (a ++ x), y. rewrite <- app_assoc.
  split_and!; [done| |done]. destruct Hx as [-> |[x' ->]]; [by rewrite app_nil_r|].
  right. exists (a ++ x'). by rewrite <- app_assoc.
Qed.
