(* ===== verification/Protocol.v ===== *)
(** * The framed PAM protocol ([native/protocol.h])

    Frames carried between the guest PAM module, the host broker and the host
    PAM worker: a packed ten-byte header in network byte order and at most
    16 KiB of payload.  The read and write loops run against an arbitrary
    kernel ([Io]): partial transfers, interruptions and failures.

    The theorems: whatever the chunking, a frame that is sent is received
    unchanged and nothing beyond it is consumed; what is received is exactly
    an encoded frame; a failed send leaves a prefix of the encoding. *)

From S2P Require Import Prelude Io.

(** ** Constants and header *)

Definition SPACES_MAGIC : Z := 0x53504155.
Definition SPACES_VERSION : Z := 2.
Definition SPACES_MAX_PAYLOAD : Z := 16 * 1024.

Definition SPACES_AUTHENTICATE : Z := 2.
Definition SPACES_READY : Z := 4.
Definition SPACES_ERROR : Z := 5.
Definition SPACES_RESULT : Z := 6.
Definition SPACES_PAM_MESSAGE : Z := 7.
Definition SPACES_PAM_RESPONSE : Z := 8.
Definition SPACES_CANCEL : Z := 9.

(** The bytes of [htonl(z)] in memory, and [ntohl] of four bytes. *)
Definition htonl (z : Z) : text :=
  [char (z / 2 ^ 24); char (z / 2 ^ 16); char (z / 2 ^ 8); char z].

Definition ntohl (b : text) : Z :=
  match b with
  | [a; b; c; d] =>
      code a * 2 ^ 24 + code b * 2 ^ 16 + code c * 2 ^ 8 + code d
  | _ => 0
  end.

Record spaces_header := Header {
  h_magic : Z;
  h_version : Z;
  h_type : Z;
  h_size : Z;
}.

(** [sizeof(struct spaces_header)], which is packed. *)
Definition header_size : nat := 10.

Definition header_bytes (h : spaces_header) : text :=
  htonl h.(h_magic) ++ [char h.(h_version); char h.(h_type)] ++ htonl h.(h_size).

Definition header_of_bytes (b : text) : spaces_header := {|
  h_magic := ntohl (take 4 b);
  h_version := code (nth 4 b zero);
  h_type := code (nth 5 b zero);
  h_size := ntohl (take 4 (drop 6 b));
|}.

(** ** Transfer loops *)

Fixpoint write_all_loop (fuel : nat) (data : text) : Io Z :=
  match fuel with
  | O => λ _, None
  | S fuel =>
      match data with
      | [] => mret 0
      | _ =>
          written ← sys_write data;
          match written with
          | Interrupted => write_all_loop fuel data
          | Failed _ => mret (-1)
          | Done n => write_all_loop fuel (drop n data)
          end
      end
  end.

Definition spaces_write_all (data : text) : Io Z := λ st,
  write_all_loop (fuel_of st) data st.

(** The buffer is returned on success; [None] is the [-1] return. *)
Fixpoint read_all_loop (fuel : nat) (size : nat) (buffer : text) : Io (option text) :=
  match fuel with
  | O => λ _, None
  | S fuel =>
      match size with
      | O => mret (Some buffer)
      | _ =>
          count ← sys_read size;
          match count with
          | Done [] => mret None
          | Interrupted => read_all_loop fuel size buffer
          | Failed _ => mret None
          | Done data =>
              read_all_loop fuel (size - length data) (buffer ++ data)
          end
      end
  end.

Definition spaces_read_all (size : nat) : Io (option text) := λ st,
  read_all_loop (fuel_of st) size [] st.

(** ** Frames *)

Definition spaces_send_frame (type : Z) (payload : text) : Io Z :=
  let size := Z.of_nat (length payload) in
  if decide (SPACES_MAX_PAYLOAD < size) then mret (-1) else
  let header := Header SPACES_MAGIC SPACES_VERSION type size in
  r ← spaces_write_all (header_bytes header);
  if decide (r < 0) then mret (-1) else
  if decide (0 < size) then
    (r ← spaces_write_all payload;
     if decide (r < 0) then mret (-1) else mret 0)
  else mret 0.

(** The frame's type and payload; [None] is the [-1] return. *)
Definition spaces_recv_frame : Io (option (Z * text)) :=
  r ← spaces_read_all header_size;
  match r with
  | None => mret None
  | Some bytes =>
      let header := header_of_bytes bytes in
      let decoded_size := header.(h_size) in
      if decide (header.(h_magic) ≠ SPACES_MAGIC
                 ∨ header.(h_version) ≠ SPACES_VERSION
                 ∨ SPACES_MAX_PAYLOAD < decoded_size)
      then mret None
      else if decide (0 < decoded_size) then
        allocated ← sys_alloc;
        if negb allocated then mret None else
        value ← spaces_read_all (Z.to_nat decoded_size);
        match value with
        | None => mret None
        | Some value => mret (Some (header.(h_type), value))
        end
      else mret (Some (header.(h_type), []))
  end.

(** [spaces_erase(value, size)] overwrites the first [size] bytes. *)
Fixpoint spaces_erase (value : text) (size : nat) : text :=
  match size, value with
  | S size, _ :: rest => zero :: spaces_erase rest size
  | _, _ => value
  end.

(** The bytes of a frame on the wire. *)
Definition encode_frame (type : Z) (payload : text) : text :=
  header_bytes (Header SPACES_MAGIC SPACES_VERSION type (Z.of_nat (length payload)))
    ++ payload.

Abbreviation frame := (Z * text)%type.

(** The types and payloads that fit a frame. *)
Definition frame_ok (f : frame) : Prop :=
  0 ≤ f.1 < 256 ∧ Z.of_nat (length f.2) ≤ SPACES_MAX_PAYLOAD.

Definition wire (frames : list frame) : text :=
  concat (map (λ f, encode_frame f.1 f.2) frames).

Arguments wire : simpl never.
Arguments encode_frame : simpl never.
Arguments header_bytes : simpl never.
Arguments header_of_bytes : simpl never.

(** ** Byte order *)

Lemma length_htonl z : length (htonl z) = 4%nat.
Proof. done. Qed.

Lemma length_header_bytes h : length (header_bytes h) = header_size.
Proof. done. Qed.

Lemma length_encode_frame type payload :
  length (encode_frame type payload) = (header_size + length payload)%nat.
Proof. unfold encode_frame. by rewrite length_app, length_header_bytes. Qed.

Lemma ntohl_htonl z : 0 ≤ z < 2 ^ 32 → ntohl (htonl z) = z.
Proof.
  intros Hz. unfold ntohl, htonl. rewrite !code_char.
  Z.to_euclidean_division_equations. lia.
Qed.

Lemma htonl_ntohl b : length b = 4%nat → htonl (ntohl b) = b.
Proof.
  destruct b as [|a [|b [|c [|d []]]]]; intros H; simplify_eq/=.
  unfold htonl, ntohl.
  pose proof (code_range a). pose proof (code_range b).
  pose proof (code_range c). pose proof (code_range d).
  rewrite (char_eq _ a), (char_eq _ b), (char_eq _ c), (char_eq _ d); [done|..].
  all: Z.div_mod_to_equations; lia.
Qed.

Lemma ntohl_range b : length b = 4%nat → 0 ≤ ntohl b < 2 ^ 32.
Proof.
  destruct b as [|a [|b [|c [|d []]]]]; intros H; simplify_eq/=.
  pose proof (code_range a). pose proof (code_range b).
  pose proof (code_range c). pose proof (code_range d). lia.
Qed.

(** ** The transfer loops *)

Lemma write_all_loop_spec fuel data st r st' :
  write_all_loop fuel data st = Some (r, st') →
  st'.(inp) = st.(inp) ∧
  (r = 0 ∧ st'.(out) = st.(out) ++ data ∨
   r = -1 ∧ ∃ k, (k < length data)%nat ∧ st'.(out) = st.(out) ++ take k data).
Proof.
  revert data st. induction fuel as [|fuel IH]; intros data st H; [done|].
  destruct data as [|c data]; simpl in H.
  { io_inv. rewrite app_nil_r. auto. }
  apply Io_bind_Some in H as (w & st1 & Hw & H). unfold sys_write in Hw.
  destruct st as [i o [|[n| |e] k] h]; simplify_eq/=.
  - apply IH in H as [Hi Ho]; simpl in *. split; [done|].
    destruct Ho as [[-> Ho]|(-> & m & Hm & Ho)]; [left|right]; split; try done.
    + rewrite Ho, <- app_assoc. f_equal. apply take_drop with (i := S _) || apply (take_drop _ (c :: data)).
    + exists (Nat.min n (S (length data)) + m)%nat.
      rewrite length_drop in Hm. simpl in Hm. split; [lia|].
      rewrite Ho, <- app_assoc. f_equal. by rewrite take_take_drop.
  - by apply IH in H.
  - io_inv. split; [done|]. right. split; [done|]. exists O. simpl.
    rewrite app_nil_r. split; [lia|done].
Qed.

Lemma write_all_loop_serves fuel data m st :
  serves (length data + m) st → (length st.(script) < fuel)%nat →
  ∃ st', write_all_loop fuel data st = Some (0, st') ∧
    st'.(out) = st.(out) ++ data ∧ st'.(inp) = st.(inp) ∧
    st'.(heap) = st.(heap) ∧ serves m st'.
Proof.
  revert data st. induction fuel as [|fuel IH]; intros data st Hs Hf; [lia|].
  destruct data as [|c data]; simpl.
  { exists st. by rewrite app_nil_r. }
  destruct (sys_write_serves (c :: data) (length data + m) st)
    as (st1 & Hk & Hi & Hh & [(He & Ho & Hs1)|(k & He & Ho & Hk' & Hs1)]);
    [done|done| |]; unfold mbind, Io_bind; rewrite He.
  - destruct (IH (c :: data) st1) as (st2 & -> & ? & ? & ? & ?); [done|lia|].
    exists st2. split_and!; congruence || done.
  - destruct (IH (drop k (c :: data)) st1) as (st2 & -> & Ho2 & ? & ? & ?); [|lia|].
    { rewrite length_drop. eapply serves_mono with (m := (k - 1)%nat).
      simpl in *. by replace (S (length data) - k + m + (k - 1))%nat
        with (length data + m)%nat by lia. }
    exists st2. split_and!; try congruence.
    by rewrite Ho2, Ho, <- app_assoc, take_drop.
Qed.

Lemma read_all_loop_spec fuel size buffer st r st' :
  read_all_loop fuel size buffer st = Some (r, st') →
  st'.(out) = st.(out) ∧
  match r with
  | Some b => (size ≤ length st.(inp))%nat ∧
      b = buffer ++ take size st.(inp) ∧ st'.(inp) = drop size st.(inp)
  | None => True
  end.
Proof.
  revert size buffer st. induction fuel as [|fuel IH]; intros size buffer st H; [done|].
  destruct size as [|size]; simpl in H.
  { io_inv. rewrite app_nil_r. auto with lia. }
  apply Io_bind_Some in H as (w & st1 & Hw & H). unfold sys_read in Hw.
  destruct st as [i o [|[n| |e] k] h]; simplify_eq/=.
  - pose proof (length_take i (Nat.min n (S size))) as Hl.
    destruct (take (Nat.min n (S size)) i) as [|c t] eqn:Ht; [by io_inv|].
    apply IH in H as [Ho Hr]; simpl in *. split; [done|].
    destruct r as [b|]; [|done]. destruct Hr as (Hle & -> & Hin).
    rewrite length_drop in Hle.
    assert (S (length t) = Nat.min n (S size)) as Hk by lia.
    split; [lia|]. rewrite Hin, drop_drop, <- app_assoc, <- Hk in *.
    split; [|f_equal; lia]. f_equal. rewrite <- Ht, take_take_drop.
    f_equal. lia.
  - by apply IH in H.
  - by io_inv.
Qed.

Lemma read_all_loop_serves fuel size buffer m st :
  serves (size + m) st → (length st.(script) < fuel)%nat →
  (size ≤ length st.(inp))%nat →
  ∃ st', read_all_loop fuel size buffer st =
      Some (Some (buffer ++ take size st.(inp)), st') ∧
    st'.(inp) = drop size st.(inp) ∧ st'.(out) = st.(out) ∧
    st'.(heap) = st.(heap) ∧ serves m st'.
Proof.
  revert size buffer st. induction fuel as [|fuel IH]; intros size buffer st Hs Hf Hi; [lia|].
  destruct size as [|size]; simpl.
  { exists st. rewrite app_nil_r. done. }
  destruct (sys_read_serves (S size) (size + m) st)
    as (st1 & Hk & Ho & Hh & [(He & Hi1 & Hs1)|(k & He & Hi1 & Hk' & Hs1)]);
    [done|done|intros E; rewrite E in Hi; simpl in Hi; lia| |]; unfold mbind, Io_bind; rewrite He.
  - destruct (IH (S size) buffer st1) as (st2 & -> & ? & ? & ? & ?);
      [done|lia|by rewrite Hi1|].
    exists st2. split_and!; congruence || done.
  - pose proof (length_take st.(inp) k) as Hl.
    destruct (take k st.(inp)) as [|c t] eqn:Ht; [simpl in Hl; lia|].
    destruct (IH (S size - length (c :: t))%nat (buffer ++ c :: t) st1)
      as (st2 & -> & Hi2 & ? & ? & ?).
    + eapply serves_mono with (m := length t). simpl in *.
      by replace (size - length t + m + length t)%nat with (size + m)%nat by lia.
    + lia.
    + rewrite Hi1, length_drop. simpl in *. lia.
    + exists st2. split_and!; try congruence.
      * rewrite Hi1, <- app_assoc, <- Ht. do 4 f_equal. simpl in Hl.
        replace (length (take k st.(inp))) with k by (rewrite Ht; simpl; lia).
        rewrite take_take_drop. f_equal. lia.
      * rewrite Hi2, Hi1, drop_drop. f_equal. simpl in *. lia.
Qed.

Lemma spaces_write_all_serves data m st :
  serves (length data + m) st →
  ∃ st', spaces_write_all data st = Some (0, st') ∧
    st'.(out) = st.(out) ++ data ∧ st'.(inp) = st.(inp) ∧
    st'.(heap) = st.(heap) ∧ serves m st'.
Proof. intros Hs. apply write_all_loop_serves; [done|unfold fuel_of; lia]. Qed.

Lemma spaces_read_all_serves size m st :
  serves (size + m) st → (size ≤ length st.(inp))%nat →
  ∃ st', spaces_read_all size st = Some (Some (take size st.(inp)), st') ∧
    st'.(inp) = drop size st.(inp) ∧ st'.(out) = st.(out) ∧
    st'.(heap) = st.(heap) ∧ serves m st'.
Proof.
  intros Hs Hi. apply (read_all_loop_serves _ _ []); [done|unfold fuel_of; lia|done].
Qed.

(** ** Headers *)

Definition header_ok (h : spaces_header) : Prop :=
  0 ≤ h.(h_magic) < 2 ^ 32 ∧ 0 ≤ h.(h_version) < 256 ∧
  0 ≤ h.(h_type) < 256 ∧ 0 ≤ h.(h_size) < 2 ^ 32.

Lemma header_of_header_bytes h : header_ok h → header_of_bytes (header_bytes h) = h.
Proof.
  intros (Hm & Hv & Ht & Hs). destruct h as [m v t s]; simpl in *.
  unfold header_of_bytes. simpl take. simpl drop. simpl nth.
  rewrite !code_char, !Z.mod_small by done.
  f_equal; by apply ntohl_htonl.
Qed.

Lemma header_bytes_of_bytes b :
  length b = header_size → header_bytes (header_of_bytes b) = b.
Proof.
  intros Hb. unfold header_bytes, header_of_bytes; cbn [h_magic h_version h_type h_size].
  rewrite !char_code, !htonl_ntohl
    by (rewrite length_take, ?length_drop, Hb; done).
  do 10 (destruct b as [|? b]; [done|]). by destruct b.
Qed.

Lemma header_of_bytes_ok b : length b = header_size → header_ok (header_of_bytes b).
Proof.
  intros Hb. unfold header_ok, header_of_bytes; simpl.
  split_and!; try apply code_range; apply ntohl_range;
    rewrite length_take, ?length_drop, Hb; done.
Qed.

(** ** Sending *)

Lemma spaces_send_frame_spec type payload st r st' :
  spaces_send_frame type payload st = Some (r, st') →
  st'.(inp) = st.(inp) ∧
  (r = 0 ∧ Z.of_nat (length payload) ≤ SPACES_MAX_PAYLOAD ∧
     st'.(out) = st.(out) ++ encode_frame type payload ∨
   r = -1 ∧ ∃ k, (k < length (encode_frame type payload))%nat ∧
     st'.(out) = st.(out) ++ take k (encode_frame type payload)).
Proof.
  unfold spaces_send_frame. intros H.
  case_decide as Hmax.
  { io_inv. split; [done|]. right. split; [done|]. exists O.
    rewrite take_0, app_nil_r. split; [rewrite length_encode_frame; unfold header_size; lia|done]. }
  apply Io_bind_Some in H as (r1 & st1 & Hw & H).
  apply write_all_loop_spec in Hw as [Hi1 [[-> Ho1]|(-> & k & Hk & Ho1)]]; simpl in H.
  2: { io_inv. split; [done|]. right. split; [done|]. exists k.
       rewrite length_header_bytes in Hk. rewrite length_encode_frame.
       split; [lia|]. rewrite Ho1. unfold encode_frame.
       by rewrite take_app_le by (rewrite length_header_bytes; lia). }
  case_decide as Hsz.
  - apply Io_bind_Some in H as (r2 & st2 & Hw & H).
    apply write_all_loop_spec in Hw as [Hi2 [[-> Ho2]|(-> & k & Hk & Ho2)]]; simpl in H; io_inv.
    + split; [congruence|]. left. split_and!; [done|lia|].
      by rewrite Ho2, Ho1, <- app_assoc.
    + split; [congruence|]. right. split; [done|].
      exists (header_size + k)%nat. split; [rewrite length_encode_frame; lia|].
      rewrite Ho2, Ho1, <- app_assoc. unfold encode_frame.
      by rewrite take_app_add'.
  - io_inv. split; [done|]. left. destruct payload; [|simpl in Hsz; lia].
    split_and!; [done|lia|]. unfold encode_frame. by rewrite app_nil_r.
Qed.

Lemma spaces_send_frame_serves type payload m st :
  Z.of_nat (length payload) ≤ SPACES_MAX_PAYLOAD →
  serves (header_size + length payload + m) st →
  ∃ st', spaces_send_frame type payload st = Some (0, st') ∧
    st'.(out) = st.(out) ++ encode_frame type payload ∧
    st'.(inp) = st.(inp) ∧ st'.(heap) = st.(heap) ∧ serves m st'.
Proof.
  intros Hmax Hs. unfold spaces_send_frame. rewrite decide_False by lia.
  set (h := Header _ _ _ _).
  destruct (spaces_write_all_serves (header_bytes h)
    (length payload + m) st) as (st1 & He1 & Ho1 & Hi1 & Hh1 & Hs1).
  { by rewrite length_header_bytes, Nat.add_assoc. }
  rewrite (Io_bind_eq _ _ _ _ _ He1). rewrite decide_False by done.
  case_decide as Hsz.
  - destruct (spaces_write_all_serves payload m st1)
      as (st2 & He2 & Ho2 & Hi2 & Hh2 & Hs2); [done|].
    rewrite (Io_bind_eq _ _ _ _ _ He2). rewrite decide_False by done.
    exists st2. split_and!; [done| |congruence..|done].
    by rewrite Ho2, Ho1, <- app_assoc.
  - exists st1. destruct payload; [|simpl in Hsz; lia].
    split_and!; [done| |done..]. rewrite Ho1. unfold encode_frame. by rewrite app_nil_r.
Qed.

(** ** Receiving *)

Lemma spaces_recv_frame_spec st r st' :
  spaces_recv_frame st = Some (r, st') →
  st'.(out) = st.(out) ∧
  match r with
  | Some (type, payload) =>
      0 ≤ type < 256 ∧ Z.of_nat (length payload) ≤ SPACES_MAX_PAYLOAD ∧
      st.(inp) = encode_frame type payload ++ st'.(inp)
  | None => True
  end.
Proof.
  unfold spaces_recv_frame. intros H.
  apply Io_bind_Some in H as (b & st1 & Hr & H).
  apply read_all_loop_spec in Hr as [Ho1 Hb]. simpl in Hb.
  destruct b as [b|]; [|by io_inv]. destruct Hb as (Hl & -> & Hi1).
  set (b := take header_size st.(inp)) in *.
  assert (length b = header_size) as Hb by (unfold b; rewrite length_take; lia).
  destruct (header_of_bytes_ok b Hb) as (? & ? & Ht & Hs).
  pose proof (header_bytes_of_bytes b Hb) as Hhb.
  destruct (header_of_bytes b) as [m v t s].
  cbn [h_magic h_version h_type h_size] in *.
  case_decide as Hbad; [by io_inv|].
  assert (m = SPACES_MAGIC ∧ v = SPACES_VERSION ∧ s ≤ SPACES_MAX_PAYLOAD)
    as (-> & -> & Hmax) by (destruct (decide (m = SPACES_MAGIC)),
      (decide (v = SPACES_VERSION)); intuition lia).
  assert (st.(inp) = b ++ drop header_size st.(inp)) as Hsplit
    by (unfold b; by rewrite take_drop).
  case_decide as Hpos.
  - apply Io_bind_Some in H as (a & st2 & Ha & H).
    assert (st2.(inp) = st1.(inp) ∧ st2.(out) = st1.(out)) as [Hi2 Ho2].
    { unfold sys_alloc in Ha. destruct st1 as [? ? ? [|]]; by simplify_eq/=. }
    destruct a; cbn [negb] in H; [|io_inv; split; [congruence|done]].
    apply Io_bind_Some in H as (v & st3 & Hv & H).
    apply read_all_loop_spec in Hv as [Ho3 Hv].
    destruct v as [v|]; [|io_inv; split; [congruence|done]].
    destruct Hv as (Hle & -> & Hi3). io_inv. rewrite app_nil_l.
    split; [congruence|]. rewrite Hi2 in *.
    assert (length (take (Z.to_nat s) st1.(inp)) = Z.to_nat s) as Hlen
      by (rewrite length_take; lia).
    split_and!; [lia..|]. unfold encode_frame.
    rewrite Hlen, Z2Nat.id, Hhb, Hi3, <- app_assoc, take_drop by lia.
    by rewrite Hi1.
  - io_inv. split; [done|].
    split_and!; [lia..|unfold SPACES_MAX_PAYLOAD; simpl; lia|].
    unfold encode_frame. assert (s = 0) as -> by lia.
    rewrite app_nil_r. change (Z.of_nat (length [])) with 0. by rewrite Hhb, Hi1.
Qed.

Lemma encode_frame_split type payload rest :
  encode_frame type payload ++ rest =
    header_bytes (Header SPACES_MAGIC SPACES_VERSION type (Z.of_nat (length payload)))
      ++ payload ++ rest.
Proof. unfold encode_frame. by rewrite <- app_assoc. Qed.

Lemma spaces_recv_frame_serves type payload rest m st :
  0 ≤ type < 256 → Z.of_nat (length payload) ≤ SPACES_MAX_PAYLOAD →
  st.(heap) = [] → st.(inp) = encode_frame type payload ++ rest →
  serves (header_size + length payload + m) st →
  ∃ st', spaces_recv_frame st = Some (Some (type, payload), st') ∧
    st'.(inp) = rest ∧ st'.(out) = st.(out) ∧ st'.(heap) = [] ∧ serves m st'.
Proof.
  intros Ht Hmax Hh Hi Hs. rewrite encode_frame_split in Hi.
  set (h := Header _ _ _ _) in *. unfold spaces_recv_frame.
  destruct (spaces_read_all_serves header_size (length payload + m) st)
    as (st1 & He1 & Hi1 & Ho1 & Hh1 & Hs1).
  { by rewrite Nat.add_assoc. }
  { rewrite Hi, length_app, length_header_bytes. lia. }
  rewrite Hi, take_app_length', drop_app_length' in * by done.
  rewrite (Io_bind_eq _ _ _ _ _ He1). cbv beta iota zeta.
  rewrite header_of_header_bytes
    by (unfold header_ok, h, SPACES_MAGIC, SPACES_VERSION, SPACES_MAX_PAYLOAD in *; simpl; lia).
  cbn [h_magic h_version h_type h_size h]. rewrite decide_False by (intuition lia).
  case_decide as Hpos.
  - rewrite (Io_bind_eq sys_alloc _ st1 true st1)
      by (unfold sys_alloc; by rewrite Hh1, Hh).
    destruct (spaces_read_all_serves (length payload) m st1)
      as (st2 & He2 & Hi2 & Ho2 & Hh2 & Hs2);
      [done|rewrite Hi1, length_app; lia|].
    rewrite Hi1, take_app_length, drop_app_length in *.
    cbn [negb]. rewrite Nat2Z.id.
    rewrite (Io_bind_eq _ _ _ _ _ He2).
    exists st2. split; [done|]. split; [done|].
    by split; [congruence|split; [congruence|]].
  - destruct payload; [|simpl in Hpos; lia]. exists st1.
    split; [done|]. split; [done|]. by split; [congruence|split; [congruence|]].
Qed.

(** ** System calls made *)

Definition calls_left (st : stream) : nat := length st.(script).

Lemma write_all_loop_calls fuel data st r st' :
  write_all_loop fuel data st = Some (r, st') → (calls_left st' ≤ calls_left st)%nat.
Proof.
  revert data st. induction fuel as [|fuel IH]; intros data st H; [done|].
  destruct data as [|c data]; simpl in H; [by io_inv|].
  apply Io_bind_Some in H as (w & st1 & Hw & H). unfold sys_write, calls_left in *.
  destruct st as [i o [|[n| |e] k] h]; simplify_eq/=; [apply IH in H..|io_inv];
    simpl in *; lia.
Qed.

Lemma read_all_loop_calls fuel size buffer st r st' :
  read_all_loop fuel size buffer st = Some (r, st') →
  (calls_left st' + Nat.min size 1 ≤ calls_left st)%nat.
Proof.
  revert size buffer st. induction fuel as [|fuel IH]; intros size buffer st H; [done|].
  destruct size as [|size]; simpl in H; [io_inv; lia|].
  apply Io_bind_Some in H as (w & st1 & Hw & H). unfold sys_read, calls_left in *.
  destruct st as [i o [|[n| |e] k] h]; simplify_eq/=.
  - destruct (take _ i); [io_inv; simpl; lia|]. apply IH in H. simpl in *. lia.
  - apply IH in H. simpl in *. lia.
  - io_inv. simpl. lia.
Qed.

Lemma spaces_send_frame_calls type payload st r st' :
  spaces_send_frame type payload st = Some (r, st') →
  (calls_left st' ≤ calls_left st)%nat.
Proof.
  unfold spaces_send_frame. case_decide as Hmax; intros H; [by io_inv|].
  apply Io_bind_Some in H as (w & st1 & Hw & H). apply write_all_loop_calls in Hw.
  revert H. case_decide as Hr; [|case_decide as Hpos]; intros H; [by io_inv| |by io_inv].
  apply Io_bind_Some in H as (w' & st2 & Hw' & H). apply write_all_loop_calls in Hw'.
  revert H. case_decide as Hr'; intros H; io_inv; lia.
Qed.

Lemma sys_alloc_calls st b st' : sys_alloc st = Some (b, st') → calls_left st' = calls_left st.
Proof. unfold sys_alloc. destruct st as [? ? ? [|]]; intros; by simplify_eq/=. Qed.

Lemma spaces_recv_frame_calls st r st' :
  spaces_recv_frame st = Some (r, st') → (calls_left st' < calls_left st)%nat.
Proof.
  unfold spaces_recv_frame. intros H.
  apply Io_bind_Some in H as (b & st1 & Hb & H). apply read_all_loop_calls in Hb.
  simpl in Hb. destruct b as [b|]; [|io_inv; lia].
  revert H. case_decide as Hbad; [|case_decide as Hpos]; intros H;
    [io_inv; lia| |io_inv; lia].
  apply Io_bind_Some in H as (a & st2 & Ha & H). apply sys_alloc_calls in Ha.
  destruct a; cbn [negb] in H; [|io_inv; lia].
  apply Io_bind_Some in H as (v & st3 & Hv & H). apply read_all_loop_calls in Hv.
  destruct v; io_inv; lia.
Qed.

(** ** Sequences of frames *)

Lemma wire_cons type payload frames :
  wire ((type, payload) :: frames) = encode_frame type payload ++ wire frames.
Proof. done. Qed.

Lemma wire_singleton type payload : wire [(type, payload)] = encode_frame type payload.
Proof. apply app_nil_r. Qed.

Lemma wire_app frames frames' : wire (frames ++ frames') = wire frames ++ wire frames'.
Proof. unfold wire. by rewrite map_app, concat_app. Qed.

Lemma length_wire frames : (length frames ≤ length (wire frames))%nat.
Proof.
  induction frames as [|[type payload] frames IH]; [simpl; lia|].
  cbn [length]. rewrite wire_cons, length_app, length_encode_frame. unfold header_size. lia.
Qed.

(** At the end of the peer's bytes a served receive reports the failure. *)
Lemma spaces_recv_frame_eof m st :
  st.(inp) = [] → serves (S m) st →
  ∃ st', spaces_recv_frame st = Some (None, st') ∧
    st'.(inp) = [] ∧ st'.(out) = st.(out) ∧ st'.(heap) = st.(heap) ∧ serves m st'.
Proof.
  intros Hi Hs.
  assert (∀ fuel st, st.(inp) = [] → serves (S m) st → (length st.(script) < fuel)%nat →
    ∃ st', read_all_loop fuel header_size [] st = Some (None, st') ∧
    st'.(inp) = [] ∧ st'.(out) = st.(out) ∧ st'.(heap) = st.(heap) ∧ serves m st') as Hloop.
  { clear. induction fuel as [|fuel IH]; intros st Hi Hs Hf; [lia|].
    destruct st as [i o [|[n| |e] k] h]; simpl in *; subst;
      destruct Hs as [Hp Ht]; try (by cbn in Ht; lia);
      cbn [script] in Hp, Ht; apply Forall_cons in Hp as [Ha Hp];
      rewrite transfers_cons in Ht; [..|done].
    - exists (Stream [] o k h). unfold mbind, Io_bind, sys_read; simpl.
      rewrite take_nil, drop_nil. split; [done|].
      split; [done|]. split; [done|]. split; [done|]. split; simpl; [done|lia].
    - apply (IH (Stream [] o k h)); simpl; [done| |lia]. split; simpl; [done|lia]. }
  destruct (Hloop (fuel_of st) st Hi Hs) as (st1 & He & ?); [unfold fuel_of; lia|].
  exists st1. split; [|done]. unfold spaces_recv_frame.
  change (spaces_read_all header_size st = Some (None, st1)) in He.
  by rewrite (Io_bind_eq _ _ _ _ _ He).
Qed.

Lemma runs_send type payload i :
  Z.of_nat (length payload) ≤ SPACES_MAX_PAYLOAD →
  runs (spaces_send_frame type payload) i 0 i (encode_frame type payload)
    (length (encode_frame type payload)).
Proof.
  intros Hmax st k Hh Hi Hs. rewrite length_encode_frame in Hs.
  destruct (spaces_send_frame_serves type payload k st Hmax Hs)
    as (st' & He & Ho & Hi' & Hh' & Hs').
  exists st'. split; [done|]. by split; [congruence|split; [|split; [congruence|]]].
Qed.

Lemma runs_recv type payload frames :
  frame_ok (type, payload) →
  runs spaces_recv_frame (wire ((type, payload) :: frames)) (Some (type, payload))
    (wire frames) [] (length (encode_frame type payload)).
Proof.
  intros [Ht Hl] st k Hh Hi Hs. rewrite length_encode_frame in Hs.
  destruct (spaces_recv_frame_serves type payload (wire frames) k st)
    as (st' & He & Hi' & Ho & Hh' & Hs'); [done..|].
  exists st'. rewrite app_nil_r. done.
Qed.

Lemma runs_recv_eof : runs spaces_recv_frame [] None [] [] 1.
Proof.
  intros st k Hh Hi Hs.
  destruct (spaces_recv_frame_eof k st Hi Hs) as (st' & He & Hi' & Ho & Hh' & Hs').
  exists st'. rewrite app_nil_r. split; [done|]. split; [done|]. split; [done|].
  split; [congruence|done].
Qed.

(** ** Properties *)

(** C38: round trip across the socket.  Once [spaces_send_frame] has reported
    success, whatever chunks the kernel cut the bytes into while they were
    written and however it cuts them while they are read,
    [spaces_recv_frame] returns the same type and payload and leaves the bytes
    that follow the frame unread.  The receiver terminates as soon as the
    kernel has answered as many transfers as the frame has bytes. *)
Theorem frame_round_trip type payload w w' r rest :
  0 ≤ type < 256 →
  spaces_send_frame type payload w = Some (0, w') →
  w.(out) = [] → r.(inp) = w'.(out) ++ rest → r.(heap) = [] →
  serves (header_size + length payload) r →
  ∃ r', spaces_recv_frame r = Some (Some (type, payload), r') ∧ r'.(inp) = rest.
Proof.
  intros Ht Hw Ho Hi Hh Hs.
  apply spaces_send_frame_spec in Hw as [_ [(_ & Hmax & Hout)|(? & _)]]; [|done].
  rewrite Ho in Hout. simpl in Hout. rewrite Hout in Hi.
  destruct (spaces_recv_frame_serves type payload rest 0 r) as (r' & ? & ? & _);
    [done..| |by eauto]. by rewrite Nat.add_0_r.
Qed.

(** a received frame is authentic framing.  Whenever [spaces_recv_frame]
    returns a frame, the bytes it consumed are exactly the encoding of that
    frame (right magic and version), the payload is at most 16 KiB, and
    nothing was written. *)
Theorem recv_frame_sound st type payload st' :
  spaces_recv_frame st = Some (Some (type, payload), st') →
  st.(inp) = encode_frame type payload ++ st'.(inp) ∧
  Z.of_nat (length payload) ≤ SPACES_MAX_PAYLOAD ∧
  0 ≤ type < 256 ∧ st'.(out) = st.(out).
Proof.
  intros H. apply spaces_recv_frame_spec in H as (Ho & Ht & Hl & Hi). auto.
Qed.

(** a frame is sent whole or the failure is reported.  A send that returns
    has either returned 0 after appending the whole encoding, or returned -1
    after appending a proper prefix of it; the payload of a frame reported as
    sent is within the limit; and when the kernel serves as many transfers as
    the frame has bytes, the send returns 0. *)
Theorem send_frame_all_or_error type payload st :
  (∀ r st', spaces_send_frame type payload st = Some (r, st') →
    r = 0 ∧ st'.(out) = st.(out) ++ encode_frame type payload ∧
      Z.of_nat (length payload) ≤ SPACES_MAX_PAYLOAD ∨
    r = -1 ∧ ∃ k, (k < length (encode_frame type payload))%nat ∧
      st'.(out) = st.(out) ++ take k (encode_frame type payload)) ∧
  (Z.of_nat (length payload) ≤ SPACES_MAX_PAYLOAD →
    serves (header_size + length payload) st →
    ∃ st', spaces_send_frame type payload st = Some (0, st')).
Proof.
  split.
  - intros r st' H. apply spaces_send_frame_spec in H as [_ H]. naive_solver.
  - intros Hmax Hs. destruct (spaces_send_frame_serves type payload 0 st)
      as (st' & ? & _); [done|by rewrite Nat.add_0_r|eauto].
Qed.

(** Clients reason about frames through the lemmas above. *)
#[global] Opaque encode_frame wire.

(** ** Witnesses *)

Definition demo_writer : stream :=
  Stream [] [] [Count 3; Eintr; Count 100; Count 1; Count 9] [].
Definition demo_sent : stream :=
  Stream [] (encode_frame SPACES_PAM_MESSAGE (str "hi")) [] [].
Definition demo_reader : stream :=
  Stream (encode_frame SPACES_PAM_MESSAGE (str "hi") ++ str "next") []
    (Eintr :: replicate 12 (Count 1)) [].

Lemma frame_round_trip_witness :
  spaces_send_frame SPACES_PAM_MESSAGE (str "hi") demo_writer = Some (0, demo_sent) ∧
  ∃ r', spaces_recv_frame demo_reader = Some (Some (SPACES_PAM_MESSAGE, str "hi"), r')
    ∧ r'.(inp) = str "next".
Proof.
  split; [vm_compute; reflexivity|].
  apply (frame_round_trip SPACES_PAM_MESSAGE (str "hi") demo_writer demo_sent
           demo_reader (str "next")).
  - done.
  - vm_compute. reflexivity.
  - reflexivity.
  - reflexivity.
  - reflexivity.
  - split; [repeat constructor|vm_compute; lia].
Defined.

Lemma recv_frame_sound_witness :
  ∃ st', spaces_recv_frame demo_reader = Some (Some (SPACES_PAM_MESSAGE, str "hi"), st') ∧
    demo_reader.(inp) = encode_frame SPACES_PAM_MESSAGE (str "hi") ++ st'.(inp) ∧
    Z.of_nat (length (str "hi")) ≤ SPACES_MAX_PAYLOAD ∧
    0 ≤ SPACES_PAM_MESSAGE < 256 ∧ st'.(out) = demo_reader.(out).
Proof.
  exists (Stream (str "next") [] [] []).
  split; [vm_compute; reflexivity|].
  apply recv_frame_sound. vm_compute. reflexivity.
Defined.

Lemma send_frame_all_or_error_witness :
  ∃ st', spaces_send_frame SPACES_PAM_MESSAGE (str "hi")
    (Stream [] [] (replicate 12 (Count 4)) []) = Some (0, st').
Proof.
  apply (proj2 (send_frame_all_or_error SPACES_PAM_MESSAGE (str "hi")
    (Stream [] [] (replicate 12 (Count 4)) []))).
  - vm_compute. discriminate.
  - split; [repeat constructor|vm_compute; lia].
Defined.
