(* ===== verification/Pam.v ===== *)
(** * Guest PAM module and host PAM worker

    [native/pam_spaces.c] is the PAM module loaded inside a space;
    [native/spaces_pam.c] is the worker that runs the host's PAM stack.  The
    host broker passes their frames to each other.  Both are modelled down to
    the bytes on their descriptor.

    Linux-PAM, the user database and the socket calls are arguments: a PAM
    conversation is any state-passing function, and the host's PAM stack is
    any program that holds conversations and finishes with a result. *)

From S2P Require Import Prelude Io Protocol.

(** ** Linux-PAM's return values (its ABI) *)

Definition PAM_SUCCESS : Z := 0.
Definition PAM_SYSTEM_ERR : Z := 4.
Definition PAM_BUF_ERR : Z := 5.
Definition PAM_PERM_DENIED : Z := 6.
Definition PAM_AUTHINFO_UNAVAIL : Z := 9.
Definition PAM_USER_UNKNOWN : Z := 10.
Definition PAM_MAXTRIES : Z := 11.
Definition PAM_CONV_ERR : Z := 19.

(** ** The guest module *)

(** What the module asks of the system around it. *)
Record guest_system := {
  pam_get_user : option text;        (** the user name, if PAM has one *)
  pam_conv_item : bool;              (** [pam_get_item(PAM_CONV)] gave one *)
  getpwnam : text → option Z;        (** the account's uid *)
  socket_opened : bool;
  socket_connected : bool;
}.

Definition SPACES_SOCKET : text := str "/run/spaces-host/auth.sock".
Definition sizeof_sun_path : Z := 108.

(** Whether a connected descriptor is returned. *)
Definition connect_broker (sys : guest_system) : bool :=
  if negb sys.(socket_opened) then false
  else if decide (sizeof_sun_path ≤ Z.of_nat (length SPACES_SOCKET)) then false
  else if negb sys.(socket_connected) then false
  else true.

(** [printf] of the request: an object whose only member is the uid. *)
Definition quote : text := [char 34].
Definition uid_request (uid : Z) : text :=
  str "{" ++ quote ++ str "uid" ++ quote ++ str ":" ++ decimal uid ++ str "}".
Definition sizeof_request : Z := 64.

Section Module.
Context {U : Type}.

(** The application's conversation function: for a message style and text it
    returns a result and a response, which may be [NULL] or hold a [NULL]
    string. *)
Variable conv : U → Z → text → (Z * option (option text)) * U.
Variable sys : guest_system.

(** The application's state, and the answer buffers freed so far with the
    bytes they held when they were freed. *)
Record module_state := ModuleState {
  app_state : U;
  released : list text;
}.

Definition relay_message (ms : module_state) (payload : text) : Io (Z * module_state) :=
  if decide (length payload < 4)%nat then mret (PAM_CONV_ERR, ms) else
  let style := int_of_u32 (ntohl (take 4 payload)) in
  let message_text := drop 4 payload in
  allocated ← sys_alloc;
  if negb allocated then mret (PAM_BUF_ERR, ms) else
  if negb sys.(pam_conv_item) then mret (PAM_CONV_ERR, ms) else
  let '(result, response, u) := conv ms.(app_state) style (cstring message_text) in
  let ms := ModuleState u ms.(released) in
  if decide (result ≠ PAM_SUCCESS) then mret (result, ms) else
  let answer :=
    match response with Some (Some resp) => cstring resp | _ => [] end in
  result ←
    (if decide (SPACES_MAX_PAYLOAD < Z.of_nat (length answer))
     then mret PAM_MAXTRIES
     else sent ← spaces_send_frame SPACES_PAM_RESPONSE answer;
          mret (if decide (sent < 0) then PAM_SYSTEM_ERR else result));
  let ms :=
    match response with
    | Some (Some resp) =>
        ModuleState u (spaces_erase (cstring resp) (length (cstring resp)) :: ms.(released))
    | _ => ms
    end in
  mret (result, ms).

(** The receive loop.  Each iteration reads at least one header, hence makes
    at least one system call. *)
Fixpoint authenticate_loop (fuel : nat) (ms : module_state) : Io (Z * module_state) :=
  match fuel with
  | O => λ _, None
  | S fuel =>
      frame ← spaces_recv_frame;
      match frame with
      | None => mret (PAM_AUTHINFO_UNAVAIL, ms)
      | Some (type, payload) =>
          if decide (type = SPACES_READY) then authenticate_loop fuel ms
          else if decide (type = SPACES_PAM_MESSAGE) then
            '(result, ms) ← relay_message ms payload;
            if decide (result ≠ PAM_SUCCESS) then
              _ ← spaces_send_frame SPACES_CANCEL [];
              mret (result, ms)
            else authenticate_loop fuel ms
          else if decide (type = SPACES_RESULT ∧ length payload = 4%nat) then
            mret (int_of_u32 (ntohl payload), ms)
          else mret (if decide (type = SPACES_ERROR)
                     then PAM_AUTHINFO_UNAVAIL else PAM_SYSTEM_ERR, ms)
      end
  end.

Definition pam_sm_authenticate (ms : module_state) : Io (Z * module_state) :=
  match sys.(pam_get_user) with
  | None => mret (PAM_AUTHINFO_UNAVAIL, ms)
  | Some user =>
      match sys.(getpwnam) user with
      | None => mret (PAM_USER_UNKNOWN, ms)
      | Some uid =>
          let request := uid_request uid in
          if decide (sizeof_request ≤ Z.of_nat (length request))
          then mret (PAM_SYSTEM_ERR, ms)
          else if negb (connect_broker sys) then mret (PAM_AUTHINFO_UNAVAIL, ms)
          else
            send_result ← spaces_send_frame SPACES_AUTHENTICATE request;
            if decide (send_result < 0) then mret (PAM_AUTHINFO_UNAVAIL, ms)
            else λ st, authenticate_loop (fuel_of st) ms st
      end
  end.

End Module.
Arguments ModuleState {_} _ _.
Arguments app_state {_} _.
Arguments released {_} _.

(** The other entry points. *)
Definition pam_sm_setcred : Z := PAM_SUCCESS.
Definition pam_sm_acct_mgmt : Z := PAM_SUCCESS.
Definition pam_sm_open_session : Z := PAM_SUCCESS.
Definition pam_sm_close_session : Z := PAM_SUCCESS.
Definition pam_sm_chauthtok : Z := PAM_PERM_DENIED.

(** ** The host worker *)

(** One message of a conversation: its style and C string. *)
Abbreviation pam_message := (Z * text)%type.

(** The responses of a conversation: [NULL] or a C string each; and the
    buffers freed on failure with their contents at that moment. *)
Record conversation_end := ConversationEnd {
  conv_result : Z;
  conv_responses : list (option text);
  conv_released : list text;
}.

Definition worker_fail (values : list (option text)) : conversation_end :=
  ConversationEnd PAM_CONV_ERR []
    (omap (λ v, v' ← v; Some (spaces_erase v' (length (cstring v')))) values).

(** [resp] points at the received payload, [NULL] for an empty one. *)
Definition response_pointer (payload : text) : option text :=
  match payload with [] => None | _ => Some payload end.

Fixpoint worker_loop (messages : list pam_message) (values : list (option text)) :
    Io conversation_end :=
  match messages with
  | [] => mret (ConversationEnd PAM_SUCCESS values [])
  | (style, msg) :: rest =>
      if decide (SPACES_MAX_PAYLOAD < Z.of_nat (length msg) + 4)
      then mret (worker_fail values) else
      allocated ← sys_alloc;
      if negb allocated then mret (worker_fail values) else
      sent ← spaces_send_frame SPACES_PAM_MESSAGE (htonl (u32 style) ++ msg);
      if decide (sent < 0) then mret (worker_fail values) else
      frame ← spaces_recv_frame;
      match frame with
      | Some (type, response) =>
          if decide (type = SPACES_PAM_RESPONSE)
          then worker_loop rest (values ++ [response_pointer response])
          else mret (worker_fail values)
      | None => mret (worker_fail values)
      end
  end.

Definition worker_conversation (messages : list pam_message) : Io conversation_end :=
  let count := Z.of_nat (length messages) in
  if decide (count ≤ 0 ∨ 32 < count) then mret (ConversationEnd PAM_CONV_ERR [] [])
  else
    allocated ← sys_alloc;
    if negb allocated then mret (ConversationEnd PAM_BUF_ERR [] [])
    else worker_loop messages [].

(** The host's PAM stack: it holds conversations and finishes. *)
Inductive pam_stack :=
  | Finish (result : Z)
  | Converse (messages : list pam_message)
             (k : Z → list (option text) → pam_stack).

Fixpoint run_pam_stack (p : pam_stack) : Io Z :=
  match p with
  | Finish result => mret result
  | Converse messages k =>
      r ← worker_conversation messages;
      run_pam_stack (k r.(conv_result) r.(conv_responses))
  end.

(** The process attributes [harden] sets. *)
Record process := Process {
  core_limited : bool;              (** [RLIMIT_CORE] is zero *)
  dumpable : bool;
  umask : Z;                        (** octal 077 is 63 *)
  sigpipe_ignored : bool;
  environment : gmap text text;
}.

(** What the worker asks of the system around it: the outcome of the calls of
    [main] and [harden], and the PAM stacks behind [pam_authenticate] and
    [pam_acct_mgmt]. *)
Record worker_system := {
  fcntl_ok : bool;
  setrlimit_ok : bool;
  prctl_ok : bool;
  clearenv_ok : bool;
  setenv_lang_ok : bool;
  setenv_path_ok : bool;
  pam_start : Z;
  pam_authenticate : pam_stack;
  pam_acct_mgmt : pam_stack;
}.

Section Worker.
Variable sys : worker_system.

Definition harden (p : process) : Z * process :=
  if negb sys.(setrlimit_ok) then (-1, p) else
  let p := Process true p.(dumpable) p.(umask) p.(sigpipe_ignored) p.(environment) in
  if negb sys.(prctl_ok) then (-1, p) else
  let p := Process true false 63 true p.(environment) in
  if negb sys.(clearenv_ok) then (-1, p) else
  let p := Process true false 63 true ∅ in
  if negb sys.(setenv_lang_ok) then (-1, p) else
  let p := Process true false 63 true {[str "LANG" := str "C.UTF-8"]} in
  if negb sys.(setenv_path_ok) then (-1, p) else
  (0, Process true false 63 true
        (<[str "PATH" := str "/usr/bin"]> p.(environment))).

(** The option loop over [argv[1..]]; [None] is the [return 2]. *)
Fixpoint worker_arguments (argv : list text) (fd : Z) (user : option text) :
    option (Z * option text) :=
  match argv with
  | [] => Some (fd, user)
  | option_ :: rest =>
      match rest with
      | value :: rest =>
          if text_eqb option_ (str "--fd") then worker_arguments rest (atoi value) user
          else if text_eqb option_ (str "--user") then worker_arguments rest fd (Some value)
          else None
      | [] => None
      end
  end.

(** From [pam_start] to the result frame, on the descriptor of [--fd]. *)
Definition worker_authenticate : Io Z :=
  let result := sys.(pam_start) in
  result ←
    (if decide (result = PAM_SUCCESS)
     then _ ← spaces_send_frame SPACES_READY [];
          run_pam_stack sys.(pam_authenticate)
     else mret result);
  result ←
    (if decide (result = PAM_SUCCESS)
     then run_pam_stack sys.(pam_acct_mgmt) else mret result);
  _ ← spaces_send_frame SPACES_RESULT (htonl (u32 result));
  mret result.

(** The exit status and the process attributes at the end. *)
Definition worker_main (argv : list text) (p : process) : Io (Z * process) :=
  match worker_arguments (tail argv) (-1) None with
  | None => mret (2, p)
  | Some (fd, user) =>
      match user with
      | None => mret (2, p)
      | Some user =>
          if decide (fd < 0 ∨ user = []) then mret (2, p)
          else if negb sys.(fcntl_ok) then mret (1, p)
          else
            let '(hardened, p) := harden p in
            if decide (hardened ≠ 0) then mret (1, p) else
            result ← worker_authenticate;
            mret (if decide (result = PAM_SUCCESS) then 0 else 1, p)
      end
  end.

End Worker.

(** ** Abstract specification: the dialogue frame by frame *)

Section ModuleSpec.
Context {U : Type}.
Variable conv : U → Z → text → (Z * option (option text)) * U.
Variable sys : guest_system.

(** The frames a message makes the module send, the result and the state. *)
Definition relay_spec (ms : module_state) (payload : text) :
    list frame * Z * module_state (U := U) :=
  if decide (length payload < 4)%nat then ([], PAM_CONV_ERR, ms) else
  if negb sys.(pam_conv_item) then ([], PAM_CONV_ERR, ms) else
  let '(result, response, u) :=
    conv ms.(app_state) (int_of_u32 (ntohl (take 4 payload))) (cstring (drop 4 payload)) in
  if decide (result ≠ PAM_SUCCESS) then ([], result, ModuleState u ms.(released)) else
  let answer :=
    match response with Some (Some resp) => cstring resp | _ => [] end in
  let ms :=
    ModuleState u
      (match response with
       | Some (Some _) => [replicate (length answer) zero]
       | _ => []
       end ++ ms.(released)) in
  if decide (SPACES_MAX_PAYLOAD < Z.of_nat (length answer))
  then ([], PAM_MAXTRIES, ms)
  else ([(SPACES_PAM_RESPONSE, answer)], PAM_SUCCESS, ms).

Fixpoint authenticate_spec (ms : module_state) (frames : list frame) :
    list frame * Z * module_state (U := U) :=
  match frames with
  | [] => ([], PAM_AUTHINFO_UNAVAIL, ms)
  | (type, payload) :: frames =>
      if decide (type = SPACES_READY) then authenticate_spec ms frames
      else if decide (type = SPACES_PAM_MESSAGE) then
        let '(sent, result, ms) := relay_spec ms payload in
        if decide (result ≠ PAM_SUCCESS)
        then (sent ++ [(SPACES_CANCEL, [])], result, ms)
        else
          let '(sent', result, ms) := authenticate_spec ms frames in
          (sent ++ sent', result, ms)
      else if decide (type = SPACES_RESULT ∧ length payload = 4%nat) then
        ([], int_of_u32 (ntohl payload), ms)
      else ([], if decide (type = SPACES_ERROR)
                then PAM_AUTHINFO_UNAVAIL else PAM_SYSTEM_ERR, ms)
  end.

End ModuleSpec.

(** The worker's half: the frames it sends, how the conversation ends, and
    the received frames it has not looked at. *)
Definition message_frame (m : pam_message) : frame :=
  (SPACES_PAM_MESSAGE, htonl (u32 m.1) ++ m.2).

Fixpoint worker_spec (messages : list pam_message) (values : list (option text))
    (frames : list frame) : list frame * conversation_end * list frame :=
  match messages with
  | [] => ([], ConversationEnd PAM_SUCCESS values [], frames)
  | m :: messages =>
      if decide (SPACES_MAX_PAYLOAD < Z.of_nat (length m.2) + 4)
      then ([], worker_fail values, frames) else
      match frames with
      | [] => ([message_frame m], worker_fail values, [])
      | (type, response) :: frames =>
          if decide (type = SPACES_PAM_RESPONSE) then
            let '(sent, e, frames) :=
              worker_spec messages (values ++ [response_pointer response]) frames in
            (message_frame m :: sent, e, frames)
          else ([message_frame m], worker_fail values, frames)
      end
  end.

Definition conversation_spec (messages : list pam_message) (frames : list frame) :
    list frame * conversation_end * list frame :=
  let count := Z.of_nat (length messages) in
  if decide (count ≤ 0 ∨ 32 < count)
  then ([], ConversationEnd PAM_CONV_ERR [] [], frames)
  else worker_spec messages [] frames.

Fixpoint stack_spec (p : pam_stack) (frames : list frame) : list frame * Z * list frame :=
  match p with
  | Finish result => ([], result, frames)
  | Converse messages k =>
      let '(sent, e, frames) := conversation_spec messages frames in
      let '(sent', result, frames) :=
        stack_spec (k e.(conv_result) e.(conv_responses)) frames in
      (sent ++ sent', result, frames)
  end.

Definition worker_authenticate_spec (sys : worker_system) (frames : list frame) :
    list frame * Z :=
  let '(sent, result, frames) :=
    if decide (sys.(pam_start) = PAM_SUCCESS) then
      let '(sent, result, frames) := stack_spec sys.(pam_authenticate) frames in
      ((SPACES_READY, []) :: sent, result, frames)
    else ([], sys.(pam_start), frames) in
  let '(sent', result, _) :=
    if decide (result = PAM_SUCCESS)
    then stack_spec sys.(pam_acct_mgmt) frames else ([], result, frames) in
  (sent ++ sent' ++ [(SPACES_RESULT, htonl (u32 result))], result).

(** The host's PAM stack talking to the guest application directly, as it
    would without the relay: one conversation call per message, whose answers
    the stack gets as the application gave them; [None] when a message or answer
    does not fit a frame or the application refuses. *)
Section Direct.
Context {U : Type}.
Variable conv : U → Z → text → (Z * option (option text)) * U.

(** What a stack gets of a response: no string, or a C string. *)
Definition answer_of (response : option (option text)) : option text :=
  match response with Some (Some resp) => Some (cstring resp) | _ => None end.

(** What a frame carries of an answer. *)
Definition answer_text (answer : option text) : text := default [] answer.

Fixpoint direct_messages (u : U) (messages : list pam_message) : option (list (option text) * U) :=
  match messages with
  | [] => Some ([], u)
  | (style, msg) :: messages =>
      if decide (SPACES_MAX_PAYLOAD < Z.of_nat (length msg) + 4) then None else
      let '(result, response, u) := conv u style msg in
      if decide (result ≠ PAM_SUCCESS
                 ∨ SPACES_MAX_PAYLOAD < Z.of_nat (length (answer_text (answer_of response))))
      then None else
      '(answers, u) ← direct_messages u messages;
      Some (answer_of response :: answers, u)
  end.

(** The result, the application's state, the messages and the answers. *)
Fixpoint direct_stack (u : U) (p : pam_stack) :
    option (Z * U * list pam_message * list (option text)) :=
  match p with
  | Finish result => Some (result, u, [], [])
  | Converse messages k =>
      if decide (0 < length messages ≤ 32)%nat then
        '(answers, u) ← direct_messages u messages;
        '(result, u, messages', answers') ←
          direct_stack u (k PAM_SUCCESS answers);
        Some (result, u, messages ++ messages', answers ++ answers')
      else None
  end.

(** A whole login: [pam_start], authentication, account management. *)
Definition direct_login (u : U) (sys : worker_system) :
    option (Z * U * list pam_message * list (option text)) :=
  if decide (sys.(pam_start) ≠ PAM_SUCCESS) then Some (sys.(pam_start), u, [], []) else
  '(r, u, messages, answers) ← direct_stack u sys.(pam_authenticate);
  if decide (r ≠ PAM_SUCCESS) then Some (r, u, messages, answers) else
  '(r, u, messages', answers') ← direct_stack u sys.(pam_acct_mgmt);
  Some (r, u, messages ++ messages', answers ++ answers').

End Direct.

(** A message as Linux-PAM passes it: an [int] style and a C string. *)
Definition message_wf (m : pam_message) : Prop :=
  - 2 ^ 31 ≤ m.1 < 2 ^ 31 ∧ zero ∉ m.2.

Definition answer_frame (a : option text) : frame := (SPACES_PAM_RESPONSE, answer_text a).

(** A frame cannot tell no string from the empty one.  [same_stack p q] says that
    two stacks do the same on answers that only differ in this, so a stack that is
    the same as itself does not tell the two apart either. *)
Definition same_answers (l l' : list (option text)) : Prop :=
  Forall2 (λ a b, answer_text a = answer_text b) l l'.

Fixpoint same_stack (p q : pam_stack) : Prop :=
  match p, q with
  | Finish r, Finish r' => r = r'
  | Converse messages k, Converse messages' k' =>
      messages = messages' ∧ ∀ r l l', same_answers l l' → same_stack (k r l) (k' r l')
  | _, _ => False
  end.

(** The frames a worker sends in a successful dialogue. *)
Definition login_frames (sys : worker_system) (messages : list pam_message) (r : Z) :
    list frame :=
  (if decide (sys.(pam_start) = PAM_SUCCESS) then [(SPACES_READY, [])] else [])
    ++ map message_frame messages ++ [(SPACES_RESULT, htonl (u32 r))].

(** ** Refinement of the dialogue *)

Lemma spaces_erase_all b : spaces_erase b (length b) = replicate (length b) zero.
Proof. induction b as [|c b IH]; simpl; [done|]. by rewrite IH. Qed.

Section ModuleRefinement.
Context {U : Type}.
Variable conv : U → Z → text → (Z * option (option text)) * U.
Variable sys : guest_system.
Implicit Types ms : module_state (U := U).

Lemma relay_message_runs ms payload i sent r ms' :
  relay_spec conv sys ms payload = (sent, r, ms') →
  runs (relay_message conv sys ms payload) i (r, ms') i (wire sent) (length (wire sent)).
Proof.
  unfold relay_spec, relay_message. intros H.
  case_decide; [simplify_eq; apply runs_ret|].
  apply runs_alloc_then. cbn [negb].
  destruct (pam_conv_item sys); cbn [negb] in *; [|simplify_eq; apply runs_ret].
  destruct (conv _ _ _) as [[result response] u].
  case_decide as Hres; [simplify_eq; apply runs_ret|].
  set (answer := match response with Some (Some _) => _ | _ => _ end) in *.
  eapply (runs_map _ _ i r).
  - case_decide; simplify_eq; [apply runs_ret|].
    rewrite wire_singleton. eapply runs_map; [apply runs_send; lia|].
    by rewrite decide_False by lia.
  - assert (ms' = match response with
      | Some (Some resp) =>
          ModuleState u (spaces_erase (cstring resp) (length (cstring resp)) :: ms.(released))
      | _ => ModuleState u ms.(released)
      end) as ->; [|done].
    destruct response as [[resp|]|]; case_decide; simplify_eq/=;
      by rewrite ?spaces_erase_all.
Qed.

Lemma authenticate_loop_runs frames ms sent r ms' :
  Forall frame_ok frames →
  authenticate_spec conv sys ms frames = (sent, r, ms') →
  ∃ rest, ∀ fuel, (length frames < fuel)%nat →
    runs (authenticate_loop conv sys fuel ms) (wire frames) (r, ms') rest
      (wire sent) (length (wire frames) + length (wire sent) + 1).
Proof.
  revert ms sent. induction frames as [|[type payload] frames IH];
    intros ms sent Hok H; simpl in H.
  { simplify_eq. exists []. intros [|fuel] Hf; [simpl in Hf; lia|].
    eapply runs_then; [apply runs_recv_eof|apply runs_ret|done|simpl; lia]. }
  apply Forall_cons in Hok as [Hok1 Hok2].
  case_decide as Hready; [|case_decide as Hmsg; [|case_decide as Hres]].
  - destruct (IH ms sent Hok2 H) as [rest Hrun].
    exists rest. intros [|fuel] Hf; [lia|]. simpl in Hf.
    eapply runs_then; [by apply runs_recv| |done|].
    + cbv beta iota. rewrite decide_True by done. apply Hrun. lia.
    + rewrite wire_cons, length_app. lia.
  - destruct (relay_spec conv sys ms payload) as [[s1 r1] ms1] eqn:Hrelay.
    pose proof (relay_message_runs ms payload (wire frames) _ _ _ Hrelay) as Hrun1.
    case_decide as Hfail.
    + simplify_eq. exists (wire frames). intros [|fuel] Hf; [lia|].
      eapply runs_then; [by apply runs_recv| |done|].
      * cbv beta iota. rewrite decide_False, decide_True by done.
        eapply runs_then; [exact Hrun1| |apply wire_app|apply Nat.le_refl].
        cbv beta iota. rewrite decide_True by done. rewrite wire_singleton.
        eapply runs_map; [by apply runs_send|done].
      * rewrite wire_cons, wire_app, !length_app, wire_singleton. lia.
    + destruct (authenticate_spec conv sys ms1 frames) as [[s2 r2] ms2] eqn:Hspec.
      simplify_eq. destruct (IH ms1 s2 Hok2 Hspec) as [rest Hrun].
      exists rest. intros [|fuel] Hf; [lia|]. simpl in Hf.
      eapply runs_then; [by apply runs_recv| |done|].
      * cbv beta iota. rewrite decide_False, decide_True by done.
        eapply runs_then; [exact Hrun1| |apply wire_app|apply Nat.le_refl].
        cbv beta iota. rewrite decide_False by (intros []; done). apply Hrun. lia.
      * rewrite wire_cons, wire_app, !length_app. lia.
  - simplify_eq. exists (wire frames). intros [|fuel] Hf; [lia|].
    eapply runs_then; [by apply runs_recv| |done|].
    + cbv beta iota. rewrite !decide_False, decide_True by done. apply runs_ret.
    + rewrite wire_cons, length_app. lia.
  - simplify_eq. exists (wire frames). intros [|fuel] Hf; [lia|].
    eapply runs_then; [by apply runs_recv| |done|].
    + cbv beta iota. rewrite !decide_False by done. apply runs_ret.
    + rewrite wire_cons, length_app. lia.
Qed.

Lemma authenticate_fueled_runs ms frames sent r ms' :
  Forall frame_ok frames →
  authenticate_spec conv sys ms frames = (sent, r, ms') →
  ∃ rest cost, runs (λ st, authenticate_loop conv sys (fuel_of st) ms st)
    (wire frames) (r, ms') rest (wire sent) cost.
Proof.
  intros Hok Hspec.
  destruct (authenticate_loop_runs frames ms sent r ms' Hok Hspec) as [rest Hrun].
  exists rest. eexists. intros st k Hh Hi Hs. apply Hrun; [|done..].
  pose proof (length_wire frames). apply serves_fuel in Hs. lia.
Qed.

End ModuleRefinement.

(** The worker half.  The cost is the number of transfers the run needs. *)

Lemma message_frame_ok m :
  ¬ SPACES_MAX_PAYLOAD < Z.of_nat (length m.2) + 4 → frame_ok (message_frame m).
Proof.
  intros H. split; [done|]. simpl. unfold htonl in *. simpl.
  rewrite !Nat2Z.inj_succ. lia.
Qed.

Lemma worker_loop_runs messages values frames sent e rest :
  Forall frame_ok frames →
  worker_spec messages values frames = (sent, e, rest) →
  Forall frame_ok rest ∧
  ∃ cost, runs (worker_loop messages values) (wire frames) e (wire rest) (wire sent) cost.
Proof.
  revert values frames sent. induction messages as [|[style msg] messages IH];
    intros values frames sent Hok H; simpl in H |- *.
  { simplify_eq. split; [done|]. exists O. apply runs_ret. }
  case_decide as Hbig; [simplify_eq; split; [done|]; exists O; apply runs_ret|].
  pose proof (message_frame_ok (style, msg) Hbig) as [_ Hm].
  assert (∀ i x i' s c,
    runs (spaces_recv_frame ≫= x) (wire frames) e i' (wire s) c →
    i = wire frames → sent = message_frame (style, msg) :: s →
    ∃ cost, runs
      (allocated ← sys_alloc;
       if negb allocated then mret (worker_fail values) else
       sent ← spaces_send_frame SPACES_PAM_MESSAGE (htonl (u32 style) ++ msg);
       if decide (sent < 0) then mret (worker_fail values) else
       spaces_recv_frame ≫= x) i e i' (wire sent) cost) as Hsend.
  { intros i x i' s c Hx -> ->. eexists. apply runs_alloc_then. cbn [negb].
    eapply runs_then; [by apply runs_send| |apply (wire_cons SPACES_PAM_MESSAGE)|apply Nat.le_refl].
    cbv beta. rewrite decide_False by lia. exact Hx. }
  destruct frames as [|[type response] frames].
  { simplify_eq. split; [done|].
    eapply (Hsend _ _ _ []); [|done|done].
    eapply runs_then; [apply runs_recv_eof|apply runs_ret|done|apply Nat.le_refl]. }
  apply Forall_cons in Hok as [Hf Hok].
  case_decide as Htype.
  - destruct (worker_spec messages _ frames) as [[s e'] rest'] eqn:Hspec. simplify_eq.
    destruct (IH _ _ _ Hok Hspec) as (Hrest & c & Hrun). split; [done|].
    eapply (Hsend _ _ _ s); [|done|done].
    eapply runs_then; [by apply runs_recv| |done|apply Nat.le_refl].
    cbv beta iota. rewrite decide_True by done. exact Hrun.
  - simplify_eq. split; [done|].
    eapply (Hsend _ _ _ []); [|done|done].
    eapply runs_then; [by apply runs_recv| |done|apply Nat.le_refl].
    cbv beta iota. rewrite decide_False by done. apply runs_ret.
Qed.

Lemma worker_conversation_runs messages frames sent e rest :
  Forall frame_ok frames →
  conversation_spec messages frames = (sent, e, rest) →
  Forall frame_ok rest ∧
  ∃ cost, runs (worker_conversation messages) (wire frames) e (wire rest) (wire sent) cost.
Proof.
  unfold conversation_spec, worker_conversation. intros Hok H.
  case_decide; [simplify_eq; split; [done|]; exists O; apply runs_ret|].
  destruct (worker_loop_runs _ _ _ _ _ _ Hok H) as (Hrest & c & Hrun).
  split; [done|]. exists c. by apply runs_alloc_then.
Qed.

Lemma run_pam_stack_runs p frames sent result rest :
  Forall frame_ok frames →
  stack_spec p frames = (sent, result, rest) →
  Forall frame_ok rest ∧
  ∃ cost, runs (run_pam_stack p) (wire frames) result (wire rest) (wire sent) cost.
Proof.
  revert frames sent. induction p as [r|messages k IH]; intros frames sent Hok H;
    simpl in H |- *.
  { simplify_eq. split; [done|]. exists O. apply runs_ret. }
  destruct (conversation_spec messages frames) as [[s1 e] f1] eqn:Hc.
  destruct (stack_spec _ f1) as [[s2 r2] f2] eqn:Hk. simplify_eq.
  destruct (worker_conversation_runs _ _ _ _ _ Hok Hc) as (Hok1 & c1 & Hrun1).
  destruct (IH _ _ _ _ Hok1 Hk) as (Hok2 & c2 & Hrun2).
  split; [done|]. exists (c1 + c2)%nat. rewrite wire_app. by eapply runs_bind.
Qed.

Lemma worker_authenticate_runs sys frames sent result :
  Forall frame_ok frames →
  worker_authenticate_spec sys frames = (sent, result) →
  ∃ rest cost,
    runs (worker_authenticate sys) (wire frames) result rest (wire sent) cost.
Proof.
  unfold worker_authenticate_spec, worker_authenticate. intros Hok H.
  destruct (if decide (pam_start sys = PAM_SUCCESS) then _ else _)
    as [[s1 r1] f1] eqn:H1.
  destruct (if decide (r1 = PAM_SUCCESS) then _ else _) as [[s2 r2] f2] eqn:H2.
  simplify_eq.
  assert (Forall frame_ok f1 ∧ ∃ c, runs
    (if decide (pam_start sys = PAM_SUCCESS)
     then _ ← spaces_send_frame SPACES_READY []; run_pam_stack (pam_authenticate sys)
     else mret (pam_start sys)) (wire frames) r1 (wire f1) (wire s1) c)
    as (Hok1 & c1 & Hrun1).
  { clear H2. case_decide; [|simplify_eq; split; [done|]; exists O; apply runs_ret].
    destruct (stack_spec _ frames) as [[s r] f] eqn:Hs. simplify_eq.
    destruct (run_pam_stack_runs _ _ _ _ _ Hok Hs) as (Hf & c & Hrun).
    split; [done|]. eexists. rewrite wire_cons.
    eapply runs_bind; [by apply runs_send|exact Hrun]. }
  assert (∃ c, runs
    (if decide (r1 = PAM_SUCCESS) then run_pam_stack (pam_acct_mgmt sys) else mret r1)
    (wire f1) result (wire f2) (wire s2) c) as (c2 & Hrun2).
  { clear H1 Hrun1. case_decide; [|simplify_eq; exists O; apply runs_ret].
    destruct (run_pam_stack_runs _ _ _ _ _ Hok1 H2) as (_ & c & Hrun). eauto. }
  exists (wire f2). eexists. rewrite !wire_app.
  eapply runs_bind; [exact Hrun1|]. eapply runs_bind; [exact Hrun2|].
  rewrite wire_singleton. eapply runs_map; [by apply runs_send|done].
Qed.

(** ** Transparency of the relay *)

Section Transparency.
Context {U : Type}.
Variable conv : U → Z → text → (Z * option (option text)) * U.

Lemma direct_messages_worker messages u answers u' values rest :
  direct_messages conv u messages = Some (answers, u') →
  worker_spec messages values (map answer_frame answers ++ rest) =
    (map message_frame messages,
     ConversationEnd PAM_SUCCESS (values ++ map (response_pointer ∘ answer_text) answers) [], rest) ∧
  Forall frame_ok (map answer_frame answers) ∧
  Forall frame_ok (map message_frame messages).
Proof.
  revert u answers values. induction messages as [|[style msg] messages IH];
    intros u answers values H; simpl in H.
  { simplify_eq/=. by rewrite app_nil_r. }
  case_decide as Hbig; [done|].
  destruct (conv u style msg) as [[result response] u1].
  case_decide as Hok; [done|].
  destruct (direct_messages conv u1 messages) as [[answers' u2]|] eqn:Hd; [|done].
  simplify_eq/=.
  destruct (IH u1 answers' (values ++ [response_pointer (answer_text (answer_of response))]) Hd)
    as (Hw & Hfa & Hfm).
  rewrite decide_False, Hw by done.
  split; [by rewrite <- app_assoc|]. split; constructor; [|done| |done].
  - split; [done|]. simpl. lia.
  - by apply message_frame_ok.
Qed.

Lemma same_answers_framed answers :
  same_answers answers (map (response_pointer ∘ answer_text) answers).
Proof.
  unfold same_answers. induction answers as [|a answers IH]; constructor; [|done].
  by destruct a as [[|c a]|].
Qed.

Lemma direct_stack_worker p q u r u' messages answers rest :
  same_stack p q → direct_stack conv u p = Some (r, u', messages, answers) →
  stack_spec q (map answer_frame answers ++ rest) = (map message_frame messages, r, rest) ∧
  Forall frame_ok (map answer_frame answers) ∧
  Forall frame_ok (map message_frame messages).
Proof.
  revert q u messages answers.
  induction p as [r0|ms k IH]; intros [r0'|ms' k'] u messages answers Hq H; simpl in Hq, H; try done.
  { by simplify_eq/=. }
  destruct Hq as [<- Hq]. case_decide as Hcount; [|done].
  destruct (direct_messages conv u ms) as [[a1 u1]|] eqn:Hd; [|done]. simpl in H.
  destruct (direct_stack conv u1 _) as [[[[r2 u2] m2] a2]|] eqn:Hk; [|done].
  simplify_eq/=. rewrite !map_app, <- app_assoc.
  destruct (IH _ _ _ u1 _ _ (Hq PAM_SUCCESS a1 _ (same_answers_framed a1)) Hk) as (Hw2 & Hfa2 & Hfm2).
  destruct (direct_messages_worker ms u a1 u1 [] (map answer_frame a2 ++ rest) Hd)
    as (Hw1 & Hfa1 & Hfm1).
  unfold conversation_spec. rewrite decide_False by lia. rewrite Hw1. simpl.
  rewrite Hw2. split; [done|]. by rewrite !Forall_app.
Qed.

Variable sys : guest_system.
Hypothesis have_conv : sys.(pam_conv_item) = true.

Lemma relay_spec_message ms m result response u :
  message_wf m → conv ms.(app_state) m.1 m.2 = (PAM_SUCCESS, response, u) → result = PAM_SUCCESS →
  ¬ SPACES_MAX_PAYLOAD < Z.of_nat (length (answer_text (answer_of response))) →
  ∃ ms', relay_spec conv sys ms (message_frame m).2 =
      ([answer_frame (answer_of response)], result, ms') ∧ ms'.(app_state) = u.
Proof.
  intros [Hs Hz] Hc -> Ha. unfold relay_spec, message_frame. cbn [snd].
  rewrite length_app, length_htonl, decide_False, have_conv by lia. cbn [negb].
  rewrite take_app_length', drop_app_length' by done.
  rewrite ntohl_htonl, int_of_u32_u32, cstring_id, Hc by
    (done || (unfold u32; apply Z.mod_pos_bound; lia)).
  rewrite decide_False by (intros []; done).
  assert (match response with Some (Some resp) => cstring resp | _ => [] end = answer_text (answer_of response))
    as -> by (by destruct response as [[]|]).
  rewrite decide_False by done.
  eexists. split; [reflexivity|done].
Qed.

Lemma direct_messages_guest messages ms answers u' rest :
  Forall message_wf messages →
  direct_messages conv ms.(app_state) messages = Some (answers, u') →
  ∃ ms', ms'.(app_state) = u' ∧
    authenticate_spec conv sys ms (map message_frame messages ++ rest) =
    (let '(sent, r, ms'') := authenticate_spec conv sys ms' rest in
     (map answer_frame answers ++ sent, r, ms'')).
Proof.
  revert ms answers. induction messages as [|[style msg] messages IH];
    intros ms answers Hwf H; simpl in H.
  { simplify_eq. exists ms. split; [done|]. simpl.
    by destruct (authenticate_spec _ _ _ _) as [[? ?] ?]. }
  apply Forall_cons in Hwf as [Hm Hwf]. case_decide as Hbig; [done|].
  destruct (conv _ style msg) as [[result response] u1] eqn:Hconv.
  case_decide as Hok; [done|].
  destruct (direct_messages conv u1 messages) as [[answers' u2]|] eqn:Hd; [|done].
  simplify_eq/=.
  assert (result = PAM_SUCCESS) as -> by (destruct (decide (result = PAM_SUCCESS)); tauto).
  destruct (relay_spec_message ms (style, msg) PAM_SUCCESS response u1)
    as (ms1 & Hrelay & Happ); [done|done|done|tauto|].
  simpl in Hrelay. rewrite Hrelay.
  rewrite decide_False by (intros []; done). subst u1.
  destruct (IH ms1 answers' Hwf Hd) as (ms2 & Happ2 & Hspec). exists ms2. split; [done|].
  rewrite Hspec. by destruct (authenticate_spec conv sys ms2 rest) as [[? ?] ?].
Qed.

Lemma direct_stack_guest p ms r u' messages answers rest :
  Forall message_wf messages →
  direct_stack conv ms.(app_state) p = Some (r, u', messages, answers) →
  ∃ ms', ms'.(app_state) = u' ∧
    authenticate_spec conv sys ms (map message_frame messages ++ rest) =
    (let '(sent, r, ms'') := authenticate_spec conv sys ms' rest in
     (map answer_frame answers ++ sent, r, ms'')).
Proof.
  revert ms messages answers. induction p as [r0|messages0 k IH];
    intros ms messages answers Hwf H; simpl in H.
  { simplify_eq. exists ms. split; [done|]. simpl.
    by destruct (authenticate_spec _ _ _ _) as [[? ?] ?]. }
  case_decide as Hcount; [|done].
  destruct (direct_messages conv _ messages0) as [[a1 u1]|] eqn:Hd; [|done]. simpl in H.
  destruct (direct_stack conv u1 _) as [[[[r2 u2] m2] a2]|] eqn:Hk; [|done].
  simplify_eq/=. apply Forall_app in Hwf as [Hwf1 Hwf2]. rewrite !map_app, <- app_assoc.
  destruct (direct_messages_guest messages0 ms a1 u1 (map message_frame m2 ++ rest) Hwf1 Hd)
    as (ms1 & <- & Hspec1).
  destruct (IH _ _ ms1 m2 a2 Hwf2 Hk) as (ms2 & Happ & Hspec2).
  exists ms2. split; [done|]. rewrite Hspec1, Hspec2.
  destruct (authenticate_spec conv sys ms2 rest) as [[? ?] ?]. by rewrite app_assoc.
Qed.

Lemma uid_request_fits uid :
  0 ≤ uid < 2 ^ 64 → Z.of_nat (length (uid_request uid)) < sizeof_request.
Proof.
  intros Hu. unfold uid_request, sizeof_request, quote.
  pose proof (length_decimal uid 20 ltac:(lia) ltac:(lia)) as Hd.
  rewrite !length_app. unfold str. simpl. lia.
Qed.

(** The dialogue of a whole login, at both ends. *)
Lemma direct_login_worker u wsys r u' messages answers :
  same_stack wsys.(pam_authenticate) wsys.(pam_authenticate) →
  same_stack wsys.(pam_acct_mgmt) wsys.(pam_acct_mgmt) →
  direct_login conv u wsys = Some (r, u', messages, answers) →
  worker_authenticate_spec wsys (map answer_frame answers) =
    (login_frames wsys messages r, r) ∧
  Forall frame_ok (map answer_frame answers) ∧
  Forall frame_ok (login_frames wsys messages r).
Proof.
  unfold direct_login, worker_authenticate_spec, login_frames. intros Sa Sm H.
  assert (frame_ok (SPACES_RESULT, htonl (u32 r))) as Hresult by done.
  assert (frame_ok (SPACES_READY, [])) as Hready by done.
  destruct (decide (pam_start wsys = PAM_SUCCESS)) as [Hst|Hst].
  2: { rewrite decide_True in H by done. simplify_eq.
       rewrite !decide_False by done. split; [done|]. split; [done|].
       by repeat constructor. }
  rewrite decide_False in H by (intros []; done).
  destruct (direct_stack conv u _) as [[[[r1 u1] m1] a1]|] eqn:H1; [|done]. simpl in H.
  destruct (decide (r1 = PAM_SUCCESS)) as [->|Hr1].
  - rewrite decide_False in H by (intros []; done).
    destruct (direct_stack conv u1 _) as [[[[r2 u2] m2] a2]|] eqn:H2; [|done].
    simplify_eq/=. rewrite !map_app.
    destruct (direct_stack_worker _ _ _ _ _ _ _ (map answer_frame a2) Sa H1) as (Hw1 & ? & ?).
    destruct (direct_stack_worker _ _ _ _ _ _ _ [] Sm H2) as (Hw2 & ? & ?).
    rewrite app_nil_r in Hw2. rewrite Hw1. simpl. rewrite Hw2.
    split; [by rewrite <- !app_assoc|].
    rewrite Forall_cons, !Forall_app, Forall_singleton. done.
  - rewrite decide_True in H by done. simplify_eq.
    destruct (direct_stack_worker _ _ _ _ _ _ _ [] Sa H1) as (Hw1 & ? & ?).
    rewrite app_nil_r in Hw1. rewrite Hw1, decide_False by done.
    split; [done|]. split; [done|].
    simpl. rewrite Forall_cons, Forall_app, Forall_singleton. done.
Qed.

Lemma direct_login_guest ms wsys r u' messages answers :
  Forall message_wf messages → - 2 ^ 31 ≤ r < 2 ^ 31 →
  direct_login conv ms.(app_state) wsys = Some (r, u', messages, answers) →
  ∃ ms', ms'.(app_state) = u' ∧
    authenticate_spec conv sys ms (login_frames wsys messages r) =
      (map answer_frame answers, r, ms').
Proof.
  unfold direct_login, login_frames. intros Hwf Hr H.
  assert (∀ ms0, authenticate_spec conv sys ms0 [(SPACES_RESULT, htonl (u32 r))] =
    ([], r, ms0)) as Hlast.
  { intros ms0. cbn [authenticate_spec].
    rewrite (decide_False (P := SPACES_RESULT = SPACES_READY)),
      (decide_False (P := SPACES_RESULT = SPACES_PAM_MESSAGE)), decide_True by done.
    do 2 f_equal.
    rewrite ntohl_htonl by (unfold u32; apply Z.mod_pos_bound; lia).
    by apply int_of_u32_u32. }
  destruct (decide (pam_start wsys = PAM_SUCCESS)) as [Hst|Hst].
  2: { rewrite decide_True in H by done. simplify_eq. exists ms. by rewrite Hlast. }
  rewrite decide_False in H by (intros []; done).
  destruct (direct_stack conv _ (pam_authenticate wsys)) as [[[[r1 u1] m1] a1]|] eqn:H1;
    [|done]. simpl in H. cbn [app].
  assert (∀ fs, authenticate_spec conv sys ms ((SPACES_READY, []) :: fs) =
    authenticate_spec conv sys ms fs) as Hready by done. rewrite Hready.
  destruct (decide (r1 = PAM_SUCCESS)) as [->|Hr1].
  - rewrite decide_False in H by (intros []; done).
    destruct (direct_stack conv u1 _) as [[[[r2 u2] m2] a2]|] eqn:H2; [|done].
    simpl in H. simplify_eq. apply Forall_app in Hwf as [Hwf1 Hwf2]. rewrite !map_app, <- app_assoc.
    destruct (direct_stack_guest _ ms _ _ _ _
      (map message_frame m2 ++ [(SPACES_RESULT, htonl (u32 r))]) Hwf1 H1)
      as (ms1 & <- & Hs1).
    destruct (direct_stack_guest _ ms1 _ _ _ _ [(SPACES_RESULT, htonl (u32 r))] Hwf2 H2)
      as (ms2 & Happ & Hs2).
    exists ms2. split; [done|]. rewrite Hs1, Hs2, Hlast. by rewrite app_nil_r.
  - rewrite decide_True in H by done. simplify_eq.
    destruct (direct_stack_guest _ ms _ _ _ _ [(SPACES_RESULT, htonl (u32 r))] Hwf H1)
      as (ms1 & Happ & Hs1).
    exists ms1. split; [done|]. rewrite Hs1, Hlast. by rewrite app_nil_r.
Qed.

End Transparency.

(** ** Soundness on an arbitrary kernel *)

Section ModuleSafety.
Context {U : Type}.
Variable conv : U → Z → text → (Z * option (option text)) * U.
Variable sys : guest_system.

Definition all_erased (ms : module_state (U := U)) : Prop :=
  Forall (Forall (λ c, c = zero)) ms.(released).

Lemma relay_message_sound ms payload st r ms' st' :
  relay_message conv sys ms payload st = Some ((r, ms'), st') →
  st'.(inp) = st.(inp) ∧ (∃ sent, st'.(out) = st.(out) ++ sent) ∧
  (all_erased ms → all_erased ms').
Proof.
  unfold relay_message, all_erased. intros H.
  assert (∃ sent, st.(out) = st.(out) ++ sent) as Hout by (exists []; by rewrite app_nil_r).
  case_decide; [by io_inv|].
  apply Io_bind_Some in H as (a & st1 & Ha & H).
  assert (st1.(inp) = st.(inp) ∧ st1.(out) = st.(out)) as [Hi1 Ho1].
  { unfold sys_alloc in Ha. destruct st as [? ? ? [|]]; by simplify_eq/=. }
  rewrite <- Hi1, <- Ho1 in *. clear Ha Hi1 Ho1.
  destruct a; cbn [negb] in H; [|by io_inv].
  destruct (pam_conv_item sys); cbn [negb] in H; [|by io_inv].
  destruct (conv _ _ _) as [[result response] u].
  case_decide; [by io_inv|].
  apply Io_bind_Some in H as (r1 & st2 & Hs & H). apply Io_ret_Some in H. simplify_eq.
  split_and!.
  - revert Hs. case_decide as Hbig; intros Hs; [by io_inv|].
    apply Io_bind_Some in Hs as (s & st3 & Hs & Hr). io_inv.
    by apply spaces_send_frame_spec in Hs as [-> _].
  - revert Hs. case_decide as Hbig; intros Hs; [by io_inv|].
    apply Io_bind_Some in Hs as (s & st3 & Hs & Hr). io_inv.
    apply spaces_send_frame_spec in Hs as [_ [(_ & _ & ->)|(_ & k & _ & ->)]]; eauto.
  - intros He. destruct response as [[resp|]|]; try done. simpl.
    constructor; [|done]. rewrite spaces_erase_all. by apply Forall_replicate.
Qed.

(** Every run of the receive loop: the frames it skipped or answered, then the
    frame that decided the result. *)
Lemma authenticate_loop_sound fuel ms st r ms' st' :
  authenticate_loop conv sys fuel ms st = Some ((r, ms'), st') →
  (∃ sent, st'.(out) = st.(out) ++ sent) ∧ (all_erased ms → all_erased ms') ∧
  (r = PAM_SUCCESS → ∃ frames,
     st.(inp) = wire frames ++ encode_frame SPACES_RESULT (htonl 0) ++ st'.(inp) ∧
     Forall (λ f, f.1 = SPACES_READY ∨ f.1 = SPACES_PAM_MESSAGE) frames).
Proof.
  revert ms st. induction fuel as [|fuel IH]; intros ms st H; [done|]. simpl in H.
  apply Io_bind_Some in H as (f & st1 & Hf & H).
  apply spaces_recv_frame_spec in Hf as [Ho1 Hf].
  assert (∃ sent, st.(out) = st.(out) ++ sent) as Hout by (exists []; by rewrite app_nil_r).
  destruct f as [[type payload]|]; [|io_inv; by rewrite Ho1].
  destruct Hf as (_ & _ & Hi).
  assert (∀ st2, st2.(inp) = st1.(inp) → type = SPACES_READY ∨ type = SPACES_PAM_MESSAGE →
    (∃ frames,
      st2.(inp) = wire frames ++ encode_frame SPACES_RESULT (htonl 0) ++ st'.(inp) ∧
      Forall (λ f, f.1 = SPACES_READY ∨ f.1 = SPACES_PAM_MESSAGE) frames) →
    ∃ frames,
      st.(inp) = wire frames ++ encode_frame SPACES_RESULT (htonl 0) ++ st'.(inp) ∧
      Forall (λ f, f.1 = SPACES_READY ∨ f.1 = SPACES_PAM_MESSAGE) frames) as Hextend.
  { intros st2 Hi2 Ht (frames & Hw & Hall). exists ((type, payload) :: frames).
    rewrite wire_cons, <- app_assoc, <- Hw, Hi2. split; [done|]. by constructor. }
  case_decide as Hready; [|case_decide as Hmsg; [|case_decide as Hres]].
  - apply IH in H as (Hs & He & Hr). rewrite <- Ho1. split_and!; [done..|].
    intros Hok. apply (Hextend st1); auto.
  - apply Io_bind_Some in H as ([r1 ms1] & st2 & Hrel & H).
    apply relay_message_sound in Hrel as (Hi2 & [s2 Ho2] & He2).
    revert H. case_decide as Hfail; intros H.
    + apply Io_bind_Some in H as (s & st3 & Hs & H). io_inv.
      split_and!; [|done|done].
      apply spaces_send_frame_spec in Hs as [_ [(_ & _ & Ho3)|(_ & k & _ & Ho3)]];
        rewrite Ho3, Ho2, Ho1, <- app_assoc; eauto.
    + apply IH in H as ([s3 Ho3] & He & Hr). split_and!; [|auto|].
      * rewrite Ho3, Ho2, Ho1, <- app_assoc; eauto.
      * intros Hok. apply (Hextend st2); auto.
  - io_inv. rewrite Ho1. split_and!; [done..|]. intros Hr. exists [].
    destruct Hres as [-> Hlen]. split; [|done].
    rewrite Hi. replace payload with (htonl 0); [done|].
    rewrite <- (htonl_ntohl payload) by done. f_equal.
    pose proof (ntohl_range payload Hlen). unfold int_of_u32, PAM_SUCCESS in Hr.
    case_decide; lia.
  - io_inv. rewrite Ho1. split_and!; [done..|]. by case_decide.
Qed.

Lemma relay_message_calls ms payload st r st' :
  relay_message conv sys ms payload st = Some (r, st') →
  (calls_left st' ≤ calls_left st)%nat.
Proof.
  unfold relay_message. case_decide as Hsmall; intros H; [by io_inv|].
  apply Io_bind_Some in H as (a & st1 & Ha & H). apply sys_alloc_calls in Ha.
  destruct a; cbn [negb] in H; [|io_inv; lia].
  destruct (pam_conv_item sys); cbn [negb] in H; [|io_inv; lia].
  destruct (conv _ _ _) as [[result response] u].
  revert H. case_decide as Hd; intros H; [io_inv; lia|].
  apply Io_bind_Some in H as (r1 & st2 & Hs & H). apply Io_ret_Some in H. simplify_eq.
  revert Hs. case_decide as Hbig; intros Hs; [io_inv; lia|].
  apply Io_bind_Some in Hs as (s & st3 & Hs & Hr). io_inv.
  apply spaces_send_frame_calls in Hs. lia.
Qed.

(** Fuel beyond the number of recorded answers changes nothing. *)
Lemma authenticate_loop_fuel fuel1 fuel2 ms st :
  (calls_left st < fuel1)%nat → (calls_left st < fuel2)%nat →
  authenticate_loop conv sys fuel1 ms st = authenticate_loop conv sys fuel2 ms st.
Proof.
  revert fuel2 ms st. induction fuel1 as [|fuel1 IH]; intros fuel2 ms st H1 H2; [lia|].
  destruct fuel2 as [|fuel2]; [lia|]. simpl. unfold mbind, Io_bind.
  destruct (spaces_recv_frame st) as [[f st1]|] eqn:Hf; [|done].
  apply spaces_recv_frame_calls in Hf.
  destruct f as [[type payload]|]; [|done].
  case_decide; [apply IH; lia|]. case_decide; [|done].
  destruct (relay_message conv sys ms payload st1) as [[[r ms1] st2]|] eqn:Hr; [|done].
  apply relay_message_calls in Hr. case_decide; [done|]. apply IH; lia.
Qed.

End ModuleSafety.

(** ** Properties *)

(** C16: the guest is authenticated only by the host.  On every kernel and for
    every conversation function, [pam_sm_authenticate] returns [PAM_SUCCESS]
    only for a known account, after sending the uid request on a connected
    broker socket, and after consuming frames of which all but the last are
    READY or PAM_MESSAGE and the last is a RESULT frame holding
    [PAM_SUCCESS]. *)
Theorem pam_success_needs_host {U} (conv : U → Z → text → (Z * option (option text)) * U)
    sys ms st ms' st' :
  pam_sm_authenticate conv sys ms st = Some ((PAM_SUCCESS, ms'), st') →
  ∃ user uid frames,
    sys.(pam_get_user) = Some user ∧ sys.(getpwnam) user = Some uid ∧
    connect_broker sys = true ∧
    (∃ sent, st'.(out) =
       st.(out) ++ encode_frame SPACES_AUTHENTICATE (uid_request uid) ++ sent) ∧
    st.(inp) = wire frames ++ encode_frame SPACES_RESULT (htonl 0) ++ st'.(inp) ∧
    Forall (λ f, f.1 = SPACES_READY ∨ f.1 = SPACES_PAM_MESSAGE) frames.
Proof.
  unfold pam_sm_authenticate. intros H.
  destruct (pam_get_user sys) as [user|]; [|by io_inv].
  destruct (getpwnam sys user) as [uid|] eqn:Huid; [|by io_inv].
  revert H. case_decide as Hd; intros H; [by io_inv|].
  destruct (connect_broker sys) eqn:Hconn; cbn [negb] in H; [|by io_inv].
  apply Io_bind_Some in H as (s & st1 & Hs & H).
  apply spaces_send_frame_spec in Hs as [Hi [(-> & _ & Ho)|(-> & _)]]; [|by io_inv].
  rewrite decide_False in H by done.
  apply authenticate_loop_sound in H as ([sent Hsent] & _ & Hr).
  destruct (Hr eq_refl) as (frames & Hw & Hall).
  exists user, uid, frames. rewrite <- Hi. split_and!; try done.
  exists sent. by rewrite Hsent, Ho, <- app_assoc.
Qed.

(** C3: the relay is transparent, but for no answer and the empty one, which a
    frame cannot tell apart.  When the host's PAM stacks, which do not tell them
    apart either, would finish with result [r] if they talked directly to the
    guest application's conversation function, leaving the application in state
    [u] after exchanging [messages] and [answers], then through the relay: the
    worker, fed the answers as RESPONSE frames, sends READY, exactly these
    messages and the result; the module, fed those frames, sends exactly these
    answers, returns the same result and leaves the application in the same
    state; and both terminate once the kernel serves enough transfers. *)
Theorem relay_transparent {U} (conv : U → Z → text → (Z * option (option text)) * U)
    gsys wsys ms r u messages answers user uid :
  gsys.(pam_conv_item) = true →
  gsys.(pam_get_user) = Some user → gsys.(getpwnam) user = Some uid →
  0 ≤ uid < 2 ^ 64 → connect_broker gsys = true →
  same_stack wsys.(pam_authenticate) wsys.(pam_authenticate) →
  same_stack wsys.(pam_acct_mgmt) wsys.(pam_acct_mgmt) →
  direct_login conv ms.(app_state) wsys = Some (r, u, messages, answers) →
  Forall message_wf messages → - 2 ^ 31 ≤ r < 2 ^ 31 →
  let to_guest := login_frames wsys messages r in
  let to_worker := map answer_frame answers in
  (∃ rest cost,
     runs (worker_authenticate wsys) (wire to_worker) r rest (wire to_guest) cost) ∧
  (∃ ms' rest cost, ms'.(app_state) = u ∧
     runs (pam_sm_authenticate conv gsys ms) (wire to_guest) (r, ms') rest
       (wire ((SPACES_AUTHENTICATE, uid_request uid) :: to_worker)) cost).
Proof.
  intros Hitem Huser Hpw Huid Hconn Sa Sm Hdirect Hwf Hr to_guest to_worker.
  destruct (direct_login_worker _ _ _ _ _ _ _ Sa Sm Hdirect) as (Hw & Hoka & Hokm).
  destruct (direct_login_guest conv gsys Hitem ms wsys r u messages answers Hwf Hr Hdirect)
    as (ms' & Happ & Hg).
  split; [by apply worker_authenticate_runs|].
  destruct (authenticate_fueled_runs conv gsys ms to_guest to_worker r ms' Hokm Hg)
    as (rest & cost & Hrun).
  pose proof (uid_request_fits uid Huid) as Hfits.
  exists ms', rest. eexists. split; [done|].
  unfold pam_sm_authenticate. rewrite Huser, Hpw, decide_False, Hconn
    by (unfold sizeof_request in *; lia). cbn [negb].
  rewrite wire_cons. eapply runs_bind.
  - apply runs_send. unfold sizeof_request, SPACES_MAX_PAYLOAD in *. lia.
  - rewrite decide_False by lia. exact Hrun.
Qed.

(** secrets do not survive in freed memory.  On every kernel and for every
    conversation function, the answer buffers that the module has freed hold
    only zero bytes at the moment they are freed. *)
Theorem module_answers_erased {U} (conv : U → Z → text → (Z * option (option text)) * U)
    sys ms st r ms' st' :
  pam_sm_authenticate conv sys ms st = Some ((r, ms'), st') →
  all_erased ms → all_erased ms'.
Proof.
  unfold pam_sm_authenticate. intros H Hms.
  destruct (pam_get_user sys) as [user|]; [|by io_inv].
  destruct (getpwnam sys user) as [uid|] eqn:Huid; [|by io_inv].
  revert H. case_decide as Hsize; intros H; [by io_inv|].
  destruct (connect_broker sys); cbn [negb] in H; [|by io_inv].
  apply Io_bind_Some in H as (s & st1 & Hs & H).
  revert H. case_decide as Hsent; intros H; [by io_inv|].
  apply authenticate_loop_sound in H as (_ & He & _). auto.
Qed.

(** the receive loop spends its iterations on system calls.  On every
    kernel, allowing it more iterations than there are answers never changes
    its outcome: it returns, or it is blocked in a system call that the kernel
    has not answered. *)
Theorem authenticate_loop_complete {U}
    (conv : U → Z → text → (Z * option (option text)) * U) sys ms st extra :
  authenticate_loop conv sys (fuel_of st + extra) ms st =
    authenticate_loop conv sys (fuel_of st) ms st.
Proof. apply authenticate_loop_fuel; unfold fuel_of, calls_left; lia. Qed.

(** the worker succeeds only on the host's word and only hardened.  Its
    exit status is 0 exactly when [pam_start], the authentication stack and
    the account stack, run in this order on the descriptor, all returned
    [PAM_SUCCESS]; by then core dumps and tracing were off, and the
    environment held nothing but [LANG] and [PATH]. *)
Theorem worker_success_gate sys argv p st p' st' :
  worker_main sys argv p st = Some ((0, p'), st') →
  p' = Process true false 63 true
         (<[str "PATH" := str "/usr/bin"]> {[str "LANG" := str "C.UTF-8"]}) ∧
  sys.(pam_start) = PAM_SUCCESS ∧
  ∃ st0 st1 st2,
    run_pam_stack sys.(pam_authenticate) st0 = Some (PAM_SUCCESS, st1) ∧
    run_pam_stack sys.(pam_acct_mgmt) st1 = Some (PAM_SUCCESS, st2) ∧
    (∃ s, spaces_send_frame SPACES_RESULT (htonl 0) st2 = Some (s, st')).
Proof.
  unfold worker_main. intros H.
  destruct (worker_arguments _ _ _) as [[fd user]|]; [|by io_inv].
  destruct user as [user|]; [|by io_inv].
  revert H. case_decide as Hargs; intros H; [by io_inv|].
  destruct (fcntl_ok sys); cbn [negb] in H; [|by io_inv].
  destruct (harden sys p) as [h p1] eqn:Hh.
  revert H. case_decide as Hhard; intros H; [by io_inv|].
  apply Io_bind_Some in H as (r & st1 & Hw & H). apply Io_ret_Some in H.
  revert H. case_decide as Hr; intros H; simplify_eq.
  unfold harden in Hh.
  destruct (setrlimit_ok sys), (prctl_ok sys), (clearenv_ok sys),
    (setenv_lang_ok sys), (setenv_path_ok sys); simplify_eq/=.
  split; [done|]. unfold worker_authenticate in Hw.
  apply Io_bind_Some in Hw as (r1 & st2 & H1 & Hw).
  apply Io_bind_Some in Hw as (r2 & st3 & H2 & Hw).
  apply Io_bind_Some in Hw as (s & st4 & H3 & Hw). apply Io_ret_Some in Hw.
  simplify_eq.
  destruct (decide (r1 = PAM_SUCCESS)) as [->|Hr1]; [|by io_inv].
  destruct (decide (pam_start sys = PAM_SUCCESS)) as [Hst|Hst]; [|by io_inv].
  apply Io_bind_Some in H1 as (s' & st0 & _ & H1).
  split; [done|]. exists st0, st2, st3. eauto.
Qed.

(** ** Witnesses *)

Definition demo_conv (n : nat) (style : Z) (msg : text) :
    (Z * option (option text)) * nat :=
  ((PAM_SUCCESS, Some (Some (str "pw"))), S n).

Definition demo_guest : guest_system := {|
  pam_get_user := Some (str "ann");
  pam_conv_item := true;
  getpwnam := λ u, if text_eqb u (str "ann") then Some 1000 else None;
  socket_opened := true;
  socket_connected := true;
|}.

Definition demo_worker : worker_system := {|
  fcntl_ok := true; setrlimit_ok := true; prctl_ok := true; clearenv_ok := true;
  setenv_lang_ok := true; setenv_path_ok := true; pam_start := PAM_SUCCESS;
  pam_authenticate := Converse [(1, str "Password: ")] (λ r responses,
    Finish (if decide (r = PAM_SUCCESS ∧ responses = [Some (str "pw")])
            then PAM_SUCCESS else 7));
  pam_acct_mgmt := Finish PAM_SUCCESS;
|}.

Definition demo_module : module_state := ModuleState O [].

Definition demo_socket : stream :=
  Stream (wire (login_frames demo_worker [(1, str "Password: ")] PAM_SUCCESS)) []
    (replicate 60 (Count 7)) [].

Definition demo_module_end : module_state * stream :=
  Eval vm_compute in
    match pam_sm_authenticate demo_conv demo_guest demo_module demo_socket with
    | Some (_, ms, st) => (ms, st)
    | None => (demo_module, demo_socket)
    end.

Lemma demo_module_run :
  pam_sm_authenticate demo_conv demo_guest demo_module demo_socket =
    Some ((PAM_SUCCESS, demo_module_end.1), demo_module_end.2).
Proof. vm_compute. reflexivity. Qed.

Lemma demo_worker_same :
  same_stack demo_worker.(pam_authenticate) demo_worker.(pam_authenticate).
Proof.
  split; [done|]. intros r l l' H. cbn. f_equal.
  assert (l = [Some (str "pw")] ↔ l' = [Some (str "pw")]) as E.
  { split; intros ->; inversion H as [|a b ? ? E1 E2]; subst; inversion E2; subst.
    - destruct b as [b|]; [change (str "pw" = b) in E1; by subst|discriminate E1].
    - destruct a as [a|]; [change (a = str "pw") in E1; by subst|discriminate E1]. }
  by repeat case_decide; tauto.
Qed.

(** What the frames cannot carry: an empty answer reaches the host's stack as no
    answer at all. *)
Definition telling_worker : worker_system := {|
  fcntl_ok := true; setrlimit_ok := true; prctl_ok := true; clearenv_ok := true;
  setenv_lang_ok := true; setenv_path_ok := true; pam_start := PAM_SUCCESS;
  pam_authenticate := Converse [(1, str "Password: ")] (λ r responses,
    Finish (if decide (responses = [Some []]) then PAM_SUCCESS else PAM_CONV_ERR));
  pam_acct_mgmt := Finish PAM_SUCCESS;
|}.

Example empty_answer_lost :
  direct_login (λ n style msg, ((PAM_SUCCESS, Some (Some [])), S n)) O telling_worker =
    Some (PAM_SUCCESS, 1%nat, [(1, str "Password: ")], [Some []]) ∧
  worker_authenticate_spec telling_worker [answer_frame (Some [])] =
    (login_frames telling_worker [(1, str "Password: ")] PAM_CONV_ERR, PAM_CONV_ERR).
Proof. split; vm_compute; reflexivity. Qed.

Lemma pam_success_needs_host_witness :
  ∃ user uid frames,
    demo_guest.(pam_get_user) = Some user ∧ demo_guest.(getpwnam) user = Some uid ∧
    connect_broker demo_guest = true ∧
    (∃ sent, demo_module_end.2.(out) =
       demo_socket.(out) ++ encode_frame SPACES_AUTHENTICATE (uid_request uid) ++ sent) ∧
    demo_socket.(inp) =
      wire frames ++ encode_frame SPACES_RESULT (htonl 0) ++ demo_module_end.2.(inp) ∧
    Forall (λ f, f.1 = SPACES_READY ∨ f.1 = SPACES_PAM_MESSAGE) frames.
Proof.
  apply (pam_success_needs_host demo_conv demo_guest demo_module demo_socket
           demo_module_end.1 demo_module_end.2).
  exact demo_module_run.
Defined.

Lemma relay_transparent_witness :
  let to_guest := login_frames demo_worker [(1, str "Password: ")] PAM_SUCCESS in
  let to_worker := map answer_frame [Some (str "pw")] in
  (∃ rest cost, runs (worker_authenticate demo_worker) (wire to_worker) PAM_SUCCESS
     rest (wire to_guest) cost) ∧
  (∃ ms' rest cost, ms'.(app_state) = 1%nat ∧
     runs (pam_sm_authenticate demo_conv demo_guest demo_module) (wire to_guest)
       (PAM_SUCCESS, ms') rest
       (wire ((SPACES_AUTHENTICATE, uid_request 1000) :: to_worker)) cost).
Proof.
  apply (relay_transparent demo_conv demo_guest demo_worker demo_module
           PAM_SUCCESS 1%nat [(1, str "Password: ")] [Some (str "pw")] (str "ann") 1000).
  - reflexivity.
  - reflexivity.
  - vm_compute. reflexivity.
  - lia.
  - vm_compute. reflexivity.
  - exact demo_worker_same.
  - reflexivity.
  - vm_compute. reflexivity.
  - repeat constructor; vm_compute; try discriminate.
    intros H. by repeat (apply elem_of_cons in H as [H|H]; [discriminate|]); inversion H.
  - unfold PAM_SUCCESS. lia.
Defined.

Lemma module_answers_erased_witness : all_erased demo_module_end.1.
Proof.
  apply (module_answers_erased demo_conv demo_guest demo_module demo_socket
           PAM_SUCCESS demo_module_end.1 demo_module_end.2).
  - exact demo_module_run.
  - constructor.
Defined.

Definition demo_argv : list text := map str ["spaces-pam"; "--fd"; "3"; "--user"; "ann"]%string.
Definition demo_process : process := Process false true 18 false {[str "HOME" := str "/root"]}.
Definition demo_pipe : stream :=
  Stream (wire [answer_frame (Some (str "pw"))]) [] (replicate 60 (Count 7)) [].

Definition demo_worker_end : process * stream :=
  Eval vm_compute in
    match worker_main demo_worker demo_argv demo_process demo_pipe with
    | Some (_, p, st) => (p, st)
    | None => (demo_process, demo_pipe)
    end.

Lemma worker_success_gate_witness :
  demo_worker_end.1 = Process true false 63 true
    (<[str "PATH" := str "/usr/bin"]> {[str "LANG" := str "C.UTF-8"]}) ∧
  demo_worker.(pam_start) = PAM_SUCCESS ∧
  ∃ st0 st1 st2,
    run_pam_stack demo_worker.(pam_authenticate) st0 = Some (PAM_SUCCESS, st1) ∧
    run_pam_stack demo_worker.(pam_acct_mgmt) st1 = Some (PAM_SUCCESS, st2) ∧
    (∃ s, spaces_send_frame SPACES_RESULT (htonl 0) st2 = Some (s, demo_worker_end.2)).
Proof.
  apply (worker_success_gate demo_worker demo_argv demo_process demo_pipe).
  vm_compute. reflexivity.
Defined.
