(* ===== verification/Policy.v ===== *)
(** * The system bus policy ([native/system_bus_policy.h], [native/dbus_message.h])

    Which D-Bus calls a space may make to the host's resolver, NetworkManager
    and UPower, with and without the network-administration grant.  The same
    policy is applied by the unprivileged relay and by the privileged broker.

    The theorems give the policy's declarative meaning, that the grant only
    adds calls and never any to UPower, that without it only the tabled
    read-only calls pass, and that an object path belongs to one service. *)

From S2P Require Import Prelude Glib.

(** ** Names *)

Definition CONTROL : text := str "org.anatase.Spaces.SystemBridge1".
Definition CONTROL_PATH : text := str "/org/anatase/Spaces/SystemBridge".
Definition PROPERTIES : text := str "org.freedesktop.DBus.Properties".
Definition NM : text := str "org.freedesktop.NetworkManager".
Definition RESOLVE : text := str "org.freedesktop.resolve1".
Definition UPOWER : text := str "org.freedesktop.UPower".

Definition services : list text := [RESOLVE; NM; UPOWER].
Definition roots : list text :=
  [str "/org/freedesktop/resolve1"; str "/org/freedesktop/NetworkManager";
   str "/org/freedesktop/UPower"].

(** Array accesses are at indexes below 3. *)
Definition service_name (service : nat) : text := nth service services [].
Definition service_root (service : nat) : text := nth service roots [].

(** ** The policy *)

(** [None] is the [-1] return. *)
Fixpoint service_index_from (index : nat) (names : list text) (name : option text) :
    option nat :=
  match names with
  | [] => None
  | s :: names => if str_is name s then Some index
                  else service_index_from (S index) names name
  end.
Definition service_index (name : option text) : option nat :=
  service_index_from 0 services name.

Definition path_has_prefix (value : option text) (prefix : text) (separator : ascii) : bool :=
  match value with
  | None => false
  | Some value =>
      has_prefix value prefix &&
      match drop (length prefix) value with
      | [] => true
      | c :: _ => bool_decide (c = separator)
      end
  end.

Definition service_path (service : nat) (path : option text) : bool :=
  path_has_prefix path (service_root service) "/"
  || (bool_decide (service = 1%nat) && str_is path (str "/org/freedesktop")).

Section Policy.
Context {G : GLib}.

Definition method_is_listed (value : option text) (list : text) : bool :=
  match value with
  | None => false
  | Some value => bool_decide (value ∈ g_strsplit list " ")
  end.

Definition service_interface (service : nat) (interface : option text) : bool :=
  match interface with
  | None => false
  | Some _ => path_has_prefix interface (service_name service) "."
  end.

Definition read_method (service : nat) (interface method : text) : bool :=
  let interface_is := text_eqb interface in
  if bool_decide (service = 0%nat) then
    if interface_is (RESOLVE ++ str ".Manager") then
      method_is_listed (Some method)
        (str "GetLink ResolveHostname ResolveAddress ResolveRecord ResolveService")
    else false
  else if bool_decide (service = 1%nat) then
    if interface_is NM then
      method_is_listed (Some method)
        (str "GetDevices GetAllDevices GetDeviceByIpIface GetPermissions GetLogging state")
    else if interface_is (NM ++ str ".Settings") then
      method_is_listed (Some method) (str "ListConnections GetConnectionByUuid")
    else if interface_is (NM ++ str ".Settings.Connection") then text_eqb method (str "GetSettings")
    else if interface_is (NM ++ str ".Device.Wireless") then
      method_is_listed (Some method) (str "GetAccessPoints GetAllAccessPoints")
    else if interface_is (NM ++ str ".Device.WifiP2P") then text_eqb method (str "GetPeers")
    else if interface_is (NM ++ str ".Device") then text_eqb method (str "GetAppliedConnection")
    else false
  else
    if interface_is UPOWER then
      method_is_listed (Some method)
        (str "EnumerateDevices EnumerateKbdBacklights GetDisplayDevice GetCriticalAction")
    else if interface_is (UPOWER ++ str ".Device") then
      method_is_listed (Some method) (str "GetHistory GetStatistics Refresh")
    else if interface_is (UPOWER ++ str ".KbdBacklight") then
      method_is_listed (Some method) (str "GetBrightness GetMaxBrightness")
    else false.

Definition system_call_allowed (m : message) (admin : bool) : bool :=
  match service_index m.(m_destination) with
  | None => false
  | Some service =>
      if negb (service_path service m.(m_path)) then false else
      match m.(m_interface), m.(m_member) with
      | Some interface, Some method =>
          let interface_is := text_eqb interface in
          if interface_is (str "org.freedesktop.DBus.Introspectable") then
            text_eqb method (str "Introspect")
          else if interface_is (str "org.freedesktop.DBus.Peer") then
            method_is_listed (Some method) (str "Ping GetMachineId")
          else if interface_is (str "org.freedesktop.DBus.ObjectManager") then
            text_eqb method (str "GetManagedObjects")
          else if interface_is PROPERTIES then
            match m.(m_body) with
            | None | Some [] => false
            | Some (first :: _) =>
                match first with
                | VString target =>
                    (service_interface service (Some target)
                     || (bool_decide (target = []) && text_eqb method (str "GetAll")))
                    && (method_is_listed (Some method) (str "Get GetAll")
                        || (admin && bool_decide (service ≠ 2%nat)
                            && text_eqb method (str "Set")))
                | _ => false
                end
            end
          else
            service_interface service (Some interface)
            && (read_method service interface method
                || (bool_decide (service ≠ 2%nat) && admin))
      | _, _ => false
      end
  end.

(** ** Bounds on a message, and the copy that crosses the boundary *)

Definition spaces_message_copy (source : message) (destination : option text) : message :=
  set_destination (set_sender source None) destination.

Definition spaces_message_bounded (m : message) : bool :=
  match m.(m_body) with
  | None => true
  | Some body => bool_decide (g_variant_get_size body ≤ 8 * 1024 * 1024)
  end &&
  match m.(m_fds) with
  | None => true
  | Some n => bool_decide (n ≤ 64)
  end.

End Policy.

(** ** Declarative meaning *)

(** A name or path equal to [prefix] or below it. *)
Definition within (prefix : text) (separator : ascii) (value : text) : Prop :=
  value = prefix ∨ ∃ rest, value = prefix ++ separator :: rest.

(** The calls that need no grant, by service and interface. *)
Definition read_only_calls : list (nat * text * list text) :=
  [(0%nat, RESOLVE ++ str ".Manager",
      map str ["GetLink"; "ResolveHostname"; "ResolveAddress"; "ResolveRecord";
               "ResolveService"]%string);
   (1%nat, NM, map str ["GetDevices"; "GetAllDevices"; "GetDeviceByIpIface";
               "GetPermissions"; "GetLogging"; "state"]%string);
   (1%nat, NM ++ str ".Settings", map str ["ListConnections"; "GetConnectionByUuid"]%string);
   (1%nat, NM ++ str ".Settings.Connection", map str ["GetSettings"]%string);
   (1%nat, NM ++ str ".Device.Wireless", map str ["GetAccessPoints"; "GetAllAccessPoints"]%string);
   (1%nat, NM ++ str ".Device.WifiP2P", map str ["GetPeers"]%string);
   (1%nat, NM ++ str ".Device", map str ["GetAppliedConnection"]%string);
   (2%nat, UPOWER, map str ["EnumerateDevices"; "EnumerateKbdBacklights";
               "GetDisplayDevice"; "GetCriticalAction"]%string);
   (2%nat, UPOWER ++ str ".Device", map str ["GetHistory"; "GetStatistics"; "Refresh"]%string);
   (2%nat, UPOWER ++ str ".KbdBacklight", map str ["GetBrightness"; "GetMaxBrightness"]%string)].

(** Calls of the standard D-Bus interfaces that any object answers. *)
Definition standard_calls : list (text * list text) :=
  [(str "org.freedesktop.DBus.Introspectable", map str ["Introspect"]%string);
   (str "org.freedesktop.DBus.Peer", map str ["Ping"; "GetMachineId"]%string);
   (str "org.freedesktop.DBus.ObjectManager", map str ["GetManagedObjects"]%string)].

Definition in_table {K} `{EqDecision K} (k : K) (method : text) (t : list (K * list text)) : Prop :=
  ∃ methods, (k, methods) ∈ t ∧ method ∈ methods.

Fixpoint table_lookup {K} `{EqDecision K} (k : K) (t : list (K * list text)) : list text :=
  match t with
  | [] => []
  | (k', methods) :: t => if decide (k = k') then methods else table_lookup k t
  end.

(** What the policy promises: the call addresses one of the services, on an
    object of that service, and either reads or is covered by the grant. *)
Definition permitted (m : message) (admin : bool) : Prop :=
  ∃ service path interface method,
    (service < 3)%nat ∧
    m.(m_destination) = Some (service_name service) ∧
    m.(m_path) = Some path ∧
    (within (service_root service) "/" path ∨
     service = 1%nat ∧ path = str "/org/freedesktop") ∧
    m.(m_interface) = Some interface ∧ m.(m_member) = Some method ∧
    (in_table interface method standard_calls ∨
     interface = PROPERTIES ∧
       (∃ target rest, m.(m_body) = Some (VString target :: rest) ∧
          (within (service_name service) "." target ∨
           target = [] ∧ method = str "GetAll")) ∧
       (method = str "Get" ∨ method = str "GetAll" ∨
        admin = true ∧ service ≠ 2%nat ∧ method = str "Set") ∨
     within (service_name service) "." interface ∧
       (in_table (service, interface) method read_only_calls ∨
        admin = true ∧ service ≠ 2%nat)).

(** ** Reflection of the tests *)

Lemma path_has_prefix_spec value prefix sep :
  path_has_prefix (Some value) prefix sep = true ↔ within prefix sep value.
Proof.
  unfold path_has_prefix, within. rewrite andb_true_iff, has_prefix_spec. split.
  - intros [[rest ->] H]. rewrite drop_app_length in H.
    destruct rest as [|c rest]; [left; by rewrite app_nil_r|].
    apply bool_decide_eq_true in H as ->. right. by exists rest.
  - intros [->|[rest ->]].
    + split; [exists []; by rewrite app_nil_r|]. by rewrite drop_ge by done.
    + split; [by eexists|]. rewrite drop_app_length. by apply bool_decide_eq_true.
Qed.

Lemma service_path_spec service path :
  service_path service path = true ↔
  ∃ p, path = Some p ∧
    (within (service_root service) "/" p ∨ service = 1%nat ∧ p = str "/org/freedesktop").
Proof.
  unfold service_path. rewrite orb_true_iff, andb_true_iff, bool_decide_eq_true, str_is_spec.
  split.
  - intros [H|[-> ->]]; [|by eauto].
    destruct path as [p|]; [|done]. apply path_has_prefix_spec in H. eauto.
  - intros (p & -> & [H|[-> ->]]); [left; by apply path_has_prefix_spec|by right].
Qed.

Lemma service_index_spec name service :
  service_index name = Some service ↔
  (service < 3)%nat ∧ name = Some (service_name service).
Proof.
  unfold service_index, service_index_from, services. split.
  - intros H. repeat case_match; simplify_eq;
      match goal with H : str_is _ _ = true |- _ => apply str_is_spec in H as -> end;
      (split; [lia|done]).
  - intros [Hs ->].
    destruct service as [|[|[|]]]; [vm_compute; reflexivity..|lia].
Qed.

Section PolicyFacts.
Context {G : GLib}.

Lemma method_is_listed_spec method list words :
  split_text list " " = words →
  method_is_listed (Some method) list = true ↔ method ∈ words.
Proof.
  intros <-. unfold method_is_listed. rewrite bool_decide_eq_true.
  by rewrite g_strsplit_unique.
Qed.

Lemma service_interface_spec service interface :
  service_interface service (Some interface) = true ↔
  within (service_name service) "." interface.
Proof. unfold service_interface. apply path_has_prefix_spec. Qed.

Lemma in_table_cons {K} `{EqDecision K} (k : K) method k' methods t :
  in_table k method ((k', methods) :: t) ↔
  (k = k' ∧ method ∈ methods) ∨ in_table k method t.
Proof.
  unfold in_table. split.
  - intros (ms & [?|?]%elem_of_cons & Hm); simplify_eq; eauto.
  - intros [[-> ?]|(ms & ? & ?)]; [exists methods|exists ms]; split; auto;
      apply elem_of_cons; auto.
Qed.

Lemma in_table_nil {K} `{EqDecision K} (k : K) method : ¬ in_table k method [].
Proof. intros (? & ?%not_elem_of_nil & _). done. Qed.

(** Tables with distinct keys are looked up by key. *)
Lemma in_table_lookup {K} `{EqDecision K} (k : K) method t :
  NoDup (map fst t) →
  in_table k method t ↔ method ∈ table_lookup k t.
Proof.
  induction t as [|[k' ms] t IH]; intros Hnd; simpl.
  { split; [intros []%in_table_nil|intros []%not_elem_of_nil]. }
  simpl in Hnd. apply NoDup_cons in Hnd as [Hk Hnd].
  rewrite in_table_cons, IH by done. case_decide as Heq.
  - split; [|by auto]. intros [[_ ?]|Hin]; [done|]. exfalso. subst.
    apply Hk. apply IH in Hin as (ms' & Hin & _); [|done].
    apply list_elem_of_In, in_map_iff. exists (k', ms').
    split; [done|]. by apply list_elem_of_In.
  - split; [intros [[? _]|Hin]; [done|exact Hin]|by right].
Qed.

(** Evaluates the tests between closed names. *)
Ltac eval_names :=
  repeat match goal with
  | |- context [text_eqb ?a ?b] =>
      let v := eval vm_compute in (text_eqb a b) in
      (constr_eq v true || constr_eq v false); change (text_eqb a b) with v
  | |- context [table_lookup ?k ?t] =>
      let v := eval vm_compute in (table_lookup k t) in
      change (table_lookup k t) with v
  end; cbv iota.

(** The name is a given constant: both sides are the same list of methods. *)
Ltac known_name :=
  eval_names; rewrite ?text_eqb_refl;
  first
    [ apply method_is_listed_spec; vm_compute; reflexivity
    | rewrite text_eqb_spec, list_elem_of_singleton; reflexivity ].

(** No entry of a table has the key. *)
Ltac absent_key :=
  repeat first [apply Forall_nil_2|apply Forall_cons_2]; cbn [fst];
  let Heq := fresh in intros Heq;
  first [discriminate Heq | injection Heq; contradiction].

Lemma read_only_calls_NoDup : NoDup (map fst read_only_calls).
Proof. apply (bool_decide_unpack _). vm_compute. exact I. Qed.

Lemma standard_calls_NoDup : NoDup (map fst standard_calls).
Proof. apply (bool_decide_unpack _). vm_compute. exact I. Qed.

Lemma table_lookup_None {K} `{EqDecision K} (k : K) t :
  Forall (λ e, k ≠ e.1) t → table_lookup k t = [].
Proof. induction 1 as [|[k' ms] t Hk Ht IH]; simpl; [done|]. by rewrite decide_False. Qed.

Lemma read_method_spec service interface method :
  (service < 3)%nat →
  read_method service interface method = true ↔
  in_table (service, interface) method read_only_calls.
Proof.
  intros Hs. rewrite in_table_lookup by apply read_only_calls_NoDup.
  unfold read_method.
  destruct service as [|[|[|]]]; [..|lia];
    repeat match goal with
    | |- context [bool_decide (?n = ?m)] =>
        let v := eval vm_compute in (bool_decide (n = m)) in
        change (bool_decide (n = m)) with v
    end; cbv iota.
  - destruct (decide (interface = RESOLVE ++ str ".Manager")) as [->|?]; [known_name|].
    rewrite (proj2 (text_eqb_neq _ _)) by done. rewrite table_lookup_None; [set_solver|].
    absent_key.
  - destruct (decide (interface = NM)) as [->|?]; [known_name|].
    destruct (decide (interface = NM ++ str ".Settings")) as [->|?]; [known_name|].
    destruct (decide (interface = NM ++ str ".Settings.Connection")) as [->|?]; [known_name|].
    destruct (decide (interface = NM ++ str ".Device.Wireless")) as [->|?]; [known_name|].
    destruct (decide (interface = NM ++ str ".Device.WifiP2P")) as [->|?]; [known_name|].
    destruct (decide (interface = NM ++ str ".Device")) as [->|?]; [known_name|].
    do 6 rewrite (proj2 (text_eqb_neq _ _)) by done.
    rewrite table_lookup_None; [set_solver|]. absent_key.
  - destruct (decide (interface = UPOWER)) as [->|?]; [known_name|].
    destruct (decide (interface = UPOWER ++ str ".Device")) as [->|?]; [known_name|].
    destruct (decide (interface = UPOWER ++ str ".KbdBacklight")) as [->|?]; [known_name|].
    do 3 rewrite (proj2 (text_eqb_neq _ _)) by done.
    rewrite table_lookup_None; [set_solver|]. absent_key.
Qed.

Definition INTROSPECTABLE : text := str "org.freedesktop.DBus.Introspectable".
Definition PEER : text := str "org.freedesktop.DBus.Peer".
Definition OBJECT_MANAGER : text := str "org.freedesktop.DBus.ObjectManager".

(** The interfaces of D-Bus itself lie outside the services' namespaces. *)
Lemma bus_interfaces_outside service interface :
  (service < 3)%nat →
  interface ∈ [INTROSPECTABLE; PEER; OBJECT_MANAGER; PROPERTIES] →
  ¬ within (service_name service) "." interface.
Proof.
  intros Hs Hi. rewrite <- path_has_prefix_spec, not_true_iff_false.
  rewrite !elem_of_cons, elem_of_nil in Hi.
  destruct service as [|[|[|]]]; [..|lia];
    destruct Hi as [-> |[-> |[-> |[-> |[]]]]]; vm_compute; reflexivity.
Qed.

Lemma properties_test body service method admin :
  (service < 3)%nat →
  match body with
  | None | Some [] => false
  | Some (first :: _) =>
      match first with
      | VString target =>
          (service_interface service (Some target)
           || (bool_decide (target = []) && text_eqb method (str "GetAll")))
          && (method_is_listed (Some method) (str "Get GetAll")
              || (admin && bool_decide (service ≠ 2%nat)
                  && text_eqb method (str "Set")))
      | _ => false
      end
  end = true ↔
  (∃ target rest, body = Some (VString target :: rest) ∧
     (within (service_name service) "." target ∨
      target = [] ∧ method = str "GetAll")) ∧
  (method = str "Get" ∨ method = str "GetAll" ∨
   admin = true ∧ service ≠ 2%nat ∧ method = str "Set").
Proof.
  intros Hs.
  destruct body as [[|first rest]|];
    [split; [done|by intros [(? & ? & ? & _) _]]| |split; [done|by intros [(? & ? & ? & _) _]]].
  destruct first as [target| | | |];
    try (split; [done|by intros [(? & ? & ? & _) _]]).
  rewrite andb_true_iff, !orb_true_iff, !andb_true_iff, service_interface_spec,
    !text_eqb_spec, !bool_decide_eq_true,
    (method_is_listed_spec _ _ [str "Get"; str "GetAll"]) by (vm_compute; reflexivity).
  rewrite !elem_of_cons, elem_of_nil.
  generalize (str "Get"), (str "GetAll"), (str "Set"); intros get getall set'.
  split.
  - intros [Ht Hm]. split; [exists target, rest; tauto|tauto].
  - intros [(t & r & [= <- <-] & Ht) Hm]. tauto.
Qed.

Lemma allowed_in_service m admin service path interface method :
  (service < 3)%nat →
  m.(m_destination) = Some (service_name service) → m.(m_path) = Some path →
  service_path service (Some path) = true →
  m.(m_interface) = Some interface → m.(m_member) = Some method →
  system_call_allowed m admin = true ↔
    (in_table interface method standard_calls ∨
     interface = PROPERTIES ∧
       (∃ target rest, m.(m_body) = Some (VString target :: rest) ∧
          (within (service_name service) "." target ∨
           target = [] ∧ method = str "GetAll")) ∧
       (method = str "Get" ∨ method = str "GetAll" ∨
        admin = true ∧ service ≠ 2%nat ∧ method = str "Set") ∨
     within (service_name service) "." interface ∧
       (in_table (service, interface) method read_only_calls ∨
        admin = true ∧ service ≠ 2%nat)).
Proof.
  intros Hs Hd Hp Hsp Hi Hm. unfold system_call_allowed.
  rewrite Hd, (proj2 (service_index_spec _ service) (conj Hs eq_refl)), Hp, Hsp, Hi, Hm.
  cbn [negb]. fold INTROSPECTABLE PEER OBJECT_MANAGER.
  rewrite (in_table_lookup interface) by apply standard_calls_NoDup.
  assert (∀ i, i ∈ [INTROSPECTABLE; PEER; OBJECT_MANAGER] → interface = i →
    interface ≠ PROPERTIES ∧ ¬ within (service_name service) "." interface) as Hout.
  { intros i Hin ->. split.
    - intros ->. rewrite !elem_of_cons, elem_of_nil in Hin.
      destruct Hin as [H|[H|[H|[]]]]; vm_compute in H; discriminate.
    - apply bus_interfaces_outside; [done|]. set_solver. }
  destruct (decide (interface ∈ [INTROSPECTABLE; PEER; OBJECT_MANAGER])) as [Hin|Hnin].
  { destruct (Hout interface) as [Hnp Hnw]; [done..|].
    transitivity (method ∈ table_lookup interface standard_calls); [|tauto].
    clear Hnp Hnw Hout Hi. rewrite !elem_of_cons, elem_of_nil in Hin.
    destruct Hin as [-> |[-> |[-> |[]]]]; known_name. }
  rewrite !not_elem_of_cons in Hnin. destruct Hnin as (H1 & H2 & H3 & _).
  do 3 rewrite (proj2 (text_eqb_neq interface _)) by done.
  rewrite table_lookup_None; [rewrite elem_of_nil|].
  2: { repeat first [apply Forall_nil_2|apply Forall_cons_2]; cbn [fst]; done. }
  destruct (decide (interface = PROPERTIES)) as [->|H4].
  { rewrite text_eqb_refl, properties_test by done.
    assert (¬ within (service_name service) "." PROPERTIES)
      by (apply bus_interfaces_outside; [done|set_solver]).
    tauto. }
  rewrite (proj2 (text_eqb_neq interface _)) by done.
  rewrite andb_true_iff, orb_true_iff, andb_true_iff, bool_decide_eq_true,
    service_interface_spec, read_method_spec by done.
  tauto.
Qed.

Lemma allowed_iff_permitted m admin :
  system_call_allowed m admin = true ↔ permitted m admin.
Proof.
  split.
  - intros H. unfold system_call_allowed in H.
    destruct (service_index (m_destination m)) as [service|] eqn:Hd; [|done].
    apply service_index_spec in Hd as [Hs Hd].
    destruct (service_path service (m_path m)) eqn:Hsp; [|done]. cbn [negb] in H.
    destruct (m_interface m) as [interface|] eqn:Hi; [|done].
    destruct (m_member m) as [method|] eqn:Hm; [|done].
    pose proof Hsp as (path & Hp & Hw)%service_path_spec.
    exists service, path, interface, method. split_and!; try done.
    rewrite Hp in Hsp.
    apply (allowed_in_service m admin service path interface method); try done.
    unfold system_call_allowed.
    by rewrite Hd, (proj2 (service_index_spec _ service) (conj Hs eq_refl)), Hp, Hsp, Hi, Hm.
  - intros (service & path & interface & method & Hs & Hd & Hp & Hw & Hi & Hm & H).
    eapply (allowed_in_service m admin service path interface method); try done.
    apply service_path_spec. eauto.
Qed.

Lemma allowed_monotone m a b :
  (a = true → b = true) → system_call_allowed m a = true → system_call_allowed m b = true.
Proof.
  intros Hab. rewrite !allowed_iff_permitted.
  intros (service & path & interface & method & H).
  exists service, path, interface, method. tauto.
Qed.

(** The policy reads nothing that the transport changes. *)
Lemma allowed_copy m flags admin :
  system_call_allowed (set_flags (spaces_message_copy m m.(m_destination)) flags) admin
  = system_call_allowed m admin.
Proof. done. Qed.

(** NetworkManager's agent registration needs the grant. *)
Lemma allowed_agent_manager m admin :
  m.(m_interface) = Some (NM ++ str ".AgentManager") →
  system_call_allowed m admin = true → admin = true.
Proof.
  intros Hi. rewrite allowed_iff_permitted.
  intros (service & path & interface & method & Hs & _ & _ & _ & Hi' & _ & H).
  rewrite Hi in Hi'. simplify_eq. destruct H as [H|[[H _]|[_ [H|[? _]]]]]; [| | |done].
  - rewrite in_table_lookup in H by apply standard_calls_NoDup.
    rewrite table_lookup_None in H; [by apply elem_of_nil in H|].
    repeat first [apply Forall_nil_2|apply Forall_cons_2]; vm_compute; discriminate.
  - vm_compute in H. discriminate.
  - rewrite in_table_lookup in H by apply read_only_calls_NoDup.
    rewrite table_lookup_None in H; [by apply elem_of_nil in H|].
    destruct service as [|[|[|]]]; [..|lia];
      repeat first [apply Forall_nil_2|apply Forall_cons_2]; vm_compute; discriminate.
Qed.

End PolicyFacts.

(** ** Properties *)

(** the policy test decides exactly the declared policy: the destination
    is one of the three services, the object path lies at or below that
    service's root (or is NetworkManager's object manager), and the call is a
    standard read of any object, a property read, a tabled read-only call of
    the service, or, with the grant and not for UPower, a property write or
    any call within the service's interfaces. *)
Theorem system_call_allowed_spec {G : GLib} m admin :
  system_call_allowed m admin = true ↔ permitted m admin.
Proof. apply allowed_iff_permitted. Qed.

(** the administration grant only adds calls, and adds none for UPower:
    what is allowed without it is allowed with it, and a call addressed to
    UPower is allowed with it only if it is allowed without it. *)
Theorem admin_grant_monotone {G : GLib} m :
  (system_call_allowed m false = true → system_call_allowed m true = true) ∧
  (m.(m_destination) = Some UPOWER →
   system_call_allowed m true = system_call_allowed m false).
Proof.
  split.
  - by apply allowed_monotone.
  - intros Hd. apply eq_iff_eq_true. rewrite !allowed_iff_permitted. unfold permitted.
    assert (∀ service, (service < 3)%nat → Some (service_name service) = Some UPOWER →
      service = 2%nat) as Hup.
    { intros [|[|[|]]] ? H; [..|done|lia]; vm_compute in H; discriminate. }
    rewrite Hd. split; intros (s & p & i & me & Hs & Hd' & H);
      pose proof (Hup s Hs (eq_sym Hd')); subst s;
      exists 2%nat, p, i, me; naive_solver.
Qed.

(** object paths do not overlap: an object path belongs to at most one
    service, so choosing the service by path (as the relay does for callers
    that address its unique name) is unambiguous. *)
Theorem service_path_unique path s1 s2 :
  (s1 < 3)%nat → (s2 < 3)%nat →
  service_path s1 path = true → service_path s2 path = true → s1 = s2.
Proof.
  intros H1 H2 (p & -> & Hp1)%service_path_spec (p' & [= <-] & Hp2)%service_path_spec.
  destruct (decide (s1 = s2)) as [|Hne]; [done|exfalso].
  assert (∀ s, (s < 3)%nat →
    (within (service_root s) "/" p ∨ s = 1%nat ∧ p = str "/org/freedesktop") →
    take 22 p = take 22 (service_root s) ∨ s = 1%nat ∧ p = str "/org/freedesktop") as Htake.
  { intros s Hs [[->|[rest ->]]|?]; [by left| |by right].
    left. destruct s as [|[|[|]]]; [reflexivity..|lia]. }
  apply Htake in Hp1; [|done]. apply Htake in Hp2; [|done]. clear Htake.
  destruct Hp1 as [Hp1|[-> ->]], Hp2 as [Hp2|[-> Hp2]]; try done.
  - rewrite Hp1 in Hp2. clear Hp1.
    destruct s1 as [|[|[|]]], s2 as [|[|[|]]]; try lia; vm_compute in Hp2; discriminate.
  - rewrite Hp2 in Hp1. clear Hp2.
    destruct s1 as [|[|[|]]]; try lia; vm_compute in Hp1; discriminate.
  - destruct s2 as [|[|[|]]]; try lia; vm_compute in Hp2; discriminate.
Qed.

(** ** Witnesses *)

Definition sample_call (service path interface method : string) (body : option (list gvariant)) :
    message :=
  {| m_type := METHOD_CALL; m_flags := 0; m_serial := 7; m_reply_serial := 0;
     m_sender := None; m_destination := Some (str service); m_path := Some (str path);
     m_interface := Some (str interface); m_member := Some (str method);
     m_body := body; m_fds := None |}.

Example read_allowed :
  system_call_allowed
    (sample_call "org.freedesktop.NetworkManager" "/org/freedesktop/NetworkManager/Devices/2"
       "org.freedesktop.NetworkManager.Device.Wireless" "GetAccessPoints" None) false = true.
Proof. vm_compute. reflexivity. Qed.

Example write_needs_grant :
  map (system_call_allowed
    (sample_call "org.freedesktop.NetworkManager" "/org/freedesktop/NetworkManager"
       "org.freedesktop.DBus.Properties" "Set"
       (Some [VString (str "org.freedesktop.NetworkManager")])))
    [false; true] = [false; true].
Proof. vm_compute. reflexivity. Qed.

Example neighbour_denied :
  system_call_allowed
    (sample_call "org.freedesktop.NetworkManager" "/org/freedesktop/NetworkManagerX"
       "org.freedesktop.NetworkManager" "GetDevices" None) true = false.
Proof. vm_compute. reflexivity. Qed.

Lemma admin_grant_monotone_witness :
  let m := sample_call "org.freedesktop.UPower" "/org/freedesktop/UPower/devices/battery"
       "org.freedesktop.UPower.Device" "Refresh" None in
  system_call_allowed m true = true ∧
  system_call_allowed m true = system_call_allowed m false.
Proof.
  intros m. destruct (admin_grant_monotone m) as [Hup Hsame]. split.
  - apply Hup. vm_compute. reflexivity.
  - apply Hsame. vm_compute. reflexivity.
Defined.

Lemma service_path_unique_witness :
  service_path 1 (Some (str "/org/freedesktop/NetworkManager/Settings")) = true ∧
  (1 = 1)%nat.
Proof.
  split; [vm_compute; reflexivity|].
  apply (service_path_unique (Some (str "/org/freedesktop/NetworkManager/Settings")));
    [lia|lia|vm_compute; reflexivity..].
Defined.
