(* ===== verification/Bridge.v ===== *)
(** * The system bus bridge ([native/spaces_system_broker.c])

    One program with two roles.  The relay runs in the space, owns the names of
    the three services on the guest's system bus and opens one connection to
    the broker per guest caller; the broker runs on the host, opens one host
    bus connection per relay connection and applies the policy again.

    The state is [struct App] with the objects it points to: a heap of
    clients, the calls in flight and the queue of idle sources.  Reading a
    client or call that is not in its heap is a use after free and makes an
    operation [None].  Operations read results of GIO calls from an
    [environment]; what they send is appended to the trace, newest first.
    [step] interleaves the entry points GLib calls. *)

From S2P Require Import Prelude Glib Policy.

(** ** Data *)

(** [app->bus], and the two connections of a client. *)
Inductive connection := Bus | Peer (c : nat) | Host (c : nat).

#[export] Instance connection_eq_dec : EqDecision connection.
Proof. solve_decision. Defined.

#[export] Program Instance connection_countable : Countable connection :=
  inj_countable'
    (λ b, match b with Bus => None | Peer c => Some (inl c) | Host c => Some (inr c) end)
    (λ o, match o with None => Bus | Some (inl c) => Peer c | Some (inr c) => Host c end) _.
Next Obligation. by intros []. Qed.

(** A filter registration: active, or removed while the worker thread may
    still run it; GDBus releases its reference when that is over. *)
Inductive filter := Installed | Removed.

#[export] Instance filter_eq_dec : EqDecision filter.
Proof. solve_decision. Defined.

(** [struct Client].  [c_has_host] is [client->host != NULL]; the peer connection
    always exists.  [c_filters] are the filter ids that are not 0, and [c_watches]
    that the ids in [watches] and [subscriptions], set together, are not. *)
Record client := Client {
  c_refs : Z;
  c_name : text;
  c_has_host : bool;
  c_opened : bool;
  c_admin : bool;
  c_observer : bool;
  c_closed : bool;
  c_agent : bool;
  c_filters : list bool;
  c_watches : bool;
  c_owners : list (option text);
  c_outstanding : Z;
  c_pending_calls : list nat;
}.

Definition set_c_refs (x : Z) (r : client) : client :=
  Client x r.(c_name) r.(c_has_host) r.(c_opened) r.(c_admin) r.(c_observer) r.(c_closed)
    r.(c_agent) r.(c_filters) r.(c_watches) r.(c_owners) r.(c_outstanding) r.(c_pending_calls).
Definition set_c_has_host (x : bool) (r : client) : client :=
  Client r.(c_refs) r.(c_name) x r.(c_opened) r.(c_admin) r.(c_observer) r.(c_closed)
    r.(c_agent) r.(c_filters) r.(c_watches) r.(c_owners) r.(c_outstanding) r.(c_pending_calls).
Definition set_c_opened (x : bool) (r : client) : client :=
  Client r.(c_refs) r.(c_name) r.(c_has_host) x r.(c_admin) r.(c_observer) r.(c_closed)
    r.(c_agent) r.(c_filters) r.(c_watches) r.(c_owners) r.(c_outstanding) r.(c_pending_calls).
Definition set_c_admin (x : bool) (r : client) : client :=
  Client r.(c_refs) r.(c_name) r.(c_has_host) r.(c_opened) x r.(c_observer) r.(c_closed)
    r.(c_agent) r.(c_filters) r.(c_watches) r.(c_owners) r.(c_outstanding) r.(c_pending_calls).
Definition set_c_observer (x : bool) (r : client) : client :=
  Client r.(c_refs) r.(c_name) r.(c_has_host) r.(c_opened) r.(c_admin) x r.(c_closed)
    r.(c_agent) r.(c_filters) r.(c_watches) r.(c_owners) r.(c_outstanding) r.(c_pending_calls).
Definition set_c_closed (x : bool) (r : client) : client :=
  Client r.(c_refs) r.(c_name) r.(c_has_host) r.(c_opened) r.(c_admin) r.(c_observer) x
    r.(c_agent) r.(c_filters) r.(c_watches) r.(c_owners) r.(c_outstanding) r.(c_pending_calls).
Definition set_c_agent (x : bool) (r : client) : client :=
  Client r.(c_refs) r.(c_name) r.(c_has_host) r.(c_opened) r.(c_admin) r.(c_observer)
    r.(c_closed) x r.(c_filters) r.(c_watches) r.(c_owners) r.(c_outstanding)
    r.(c_pending_calls).
Definition set_c_filters (x : list bool) (r : client) : client :=
  Client r.(c_refs) r.(c_name) r.(c_has_host) r.(c_opened) r.(c_admin) r.(c_observer)
    r.(c_closed) r.(c_agent) x r.(c_watches) r.(c_owners) r.(c_outstanding) r.(c_pending_calls).
Definition set_c_watches (x : bool) (r : client) : client :=
  Client r.(c_refs) r.(c_name) r.(c_has_host) r.(c_opened) r.(c_admin) r.(c_observer)
    r.(c_closed) r.(c_agent) r.(c_filters) x r.(c_owners) r.(c_outstanding) r.(c_pending_calls).
Definition set_c_owners (x : list (option text)) (r : client) : client :=
  Client r.(c_refs) r.(c_name) r.(c_has_host) r.(c_opened) r.(c_admin) r.(c_observer)
    r.(c_closed) r.(c_agent) r.(c_filters) r.(c_watches) x r.(c_outstanding)
    r.(c_pending_calls).
Definition set_c_outstanding (x : Z) (r : client) : client :=
  Client r.(c_refs) r.(c_name) r.(c_has_host) r.(c_opened) r.(c_admin) r.(c_observer)
    r.(c_closed) r.(c_agent) r.(c_filters) r.(c_watches) r.(c_owners) x r.(c_pending_calls).
Definition set_c_pending_calls (x : list nat) (r : client) : client :=
  Client r.(c_refs) r.(c_name) r.(c_has_host) r.(c_opened) r.(c_admin) r.(c_observer)
    r.(c_closed) r.(c_agent) r.(c_filters) r.(c_watches) r.(c_owners) r.(c_outstanding) x.

(** [struct Call]. *)
Record call := Call {
  k_client : nat;
  k_origin : connection;
  k_request : message;
  k_permissions : bool;
  k_register_agent : bool;
  k_unregister_agent : bool;
  k_delivered : bool;
  k_target : connection;
  k_serial : Z;
}.

Definition set_k_delivered (x : bool) (r : call) : call :=
  Call r.(k_client) r.(k_origin) r.(k_request) r.(k_permissions) r.(k_register_agent)
    r.(k_unregister_agent) x r.(k_target) r.(k_serial).

(** [struct Event]. *)
Record event := Event {
  e_client : option nat;
  e_bus : connection;
  e_message : message;
}.

(** What reaches a connection or the bus.  Calls and their answers are
    named after the [Call] they belong to and tell the request they carry out. *)
Inductive effect :=
  | SendMessage (bus : connection) (m : message)
  | SendError (bus : connection) (request : message) (name text : string)
  | SendReply (bus : connection) (request : message) (body : list gvariant)
  | SendCall (id : nat) (origin : connection) (request : message)
      (target : connection) (m : message)
  | Answer (id : nat) (bus : connection) (request : message) (m : message)
  | AnswerError (id : nat) (bus : connection) (request : message) (name text : string)
  | EmitChanged (c : nat) (name : text)
  | OpenCall (c : nat) (uid : Z) (observer : bool)
  | UnownName (service : nat)
  | OwnName (service : nat)
  | Close (bus : connection)
  | Freed (c : nat).

(** [struct App] and the objects its pointers reach; then what GLib keeps: the
    idle sources, filters, "closed" handlers and name watches it will call. *)
Record app_state := App {
  a_clients : gmap text nat;
  a_guest_names : gset text;
  a_names : list bool;
  a_queued : Z;
  a_heap : gmap nat client;
  a_calls : gmap nat call;
  a_queue : list event;
  a_filters : gmap connection filter;
  a_handlers : gset connection;
  a_watches : gset nat;
  a_next : nat;
  a_trace : list effect;
}.

Definition set_a_clients (x : gmap text nat) (r : app_state) : app_state :=
  App x r.(a_guest_names) r.(a_names) r.(a_queued) r.(a_heap) r.(a_calls) r.(a_queue)
    r.(a_filters) r.(a_handlers) r.(a_watches) r.(a_next) r.(a_trace).
Definition set_a_guest_names (x : gset text) (r : app_state) : app_state :=
  App r.(a_clients) x r.(a_names) r.(a_queued) r.(a_heap) r.(a_calls) r.(a_queue) r.(a_filters)
    r.(a_handlers) r.(a_watches) r.(a_next) r.(a_trace).
Definition set_a_names (x : list bool) (r : app_state) : app_state :=
  App r.(a_clients) r.(a_guest_names) x r.(a_queued) r.(a_heap) r.(a_calls) r.(a_queue)
    r.(a_filters) r.(a_handlers) r.(a_watches) r.(a_next) r.(a_trace).
Definition set_a_queued (x : Z) (r : app_state) : app_state :=
  App r.(a_clients) r.(a_guest_names) r.(a_names) x r.(a_heap) r.(a_calls) r.(a_queue)
    r.(a_filters) r.(a_handlers) r.(a_watches) r.(a_next) r.(a_trace).
Definition set_a_heap (x : gmap nat client) (r : app_state) : app_state :=
  App r.(a_clients) r.(a_guest_names) r.(a_names) r.(a_queued) x r.(a_calls) r.(a_queue)
    r.(a_filters) r.(a_handlers) r.(a_watches) r.(a_next) r.(a_trace).
Definition set_a_calls (x : gmap nat call) (r : app_state) : app_state :=
  App r.(a_clients) r.(a_guest_names) r.(a_names) r.(a_queued) r.(a_heap) x r.(a_queue)
    r.(a_filters) r.(a_handlers) r.(a_watches) r.(a_next) r.(a_trace).
Definition set_a_queue (x : list event) (r : app_state) : app_state :=
  App r.(a_clients) r.(a_guest_names) r.(a_names) r.(a_queued) r.(a_heap) r.(a_calls) x
    r.(a_filters) r.(a_handlers) r.(a_watches) r.(a_next) r.(a_trace).
Definition set_a_filters (x : gmap connection filter) (r : app_state) : app_state :=
  App r.(a_clients) r.(a_guest_names) r.(a_names) r.(a_queued) r.(a_heap) r.(a_calls)
    r.(a_queue) x r.(a_handlers) r.(a_watches) r.(a_next) r.(a_trace).
Definition set_a_handlers (x : gset connection) (r : app_state) : app_state :=
  App r.(a_clients) r.(a_guest_names) r.(a_names) r.(a_queued) r.(a_heap) r.(a_calls)
    r.(a_queue) r.(a_filters) x r.(a_watches) r.(a_next) r.(a_trace).
Definition set_a_watches (x : gset nat) (r : app_state) : app_state :=
  App r.(a_clients) r.(a_guest_names) r.(a_names) r.(a_queued) r.(a_heap) r.(a_calls)
    r.(a_queue) r.(a_filters) r.(a_handlers) x r.(a_next) r.(a_trace).
Definition set_a_next (x : nat) (r : app_state) : app_state :=
  App r.(a_clients) r.(a_guest_names) r.(a_names) r.(a_queued) r.(a_heap) r.(a_calls)
    r.(a_queue) r.(a_filters) r.(a_handlers) r.(a_watches) x r.(a_trace).
Definition set_a_trace (x : list effect) (r : app_state) : app_state :=
  App r.(a_clients) r.(a_guest_names) r.(a_names) r.(a_queued) r.(a_heap) r.(a_calls)
    r.(a_queue) r.(a_filters) r.(a_handlers) r.(a_watches) r.(a_next) x.

(** [app->broker], [app->admin] and the unique name of [app->bus], fixed when
    [main] enters the loop. *)
Record config := Config { broker : bool; admin : bool; unique_name : text }.

(** Results of the blocking calls a handler makes, and the serial GDBus gives
    to the next call sent. *)
Record environment := Environment {
  uid_reply : option Z;        (** [GetConnectionUnixUser] *)
  peer_connects : bool;        (** connecting to the broker's socket *)
  open_reply : option bool;    (** [Open] *)
  host_connects : bool;        (** connecting to the host bus *)
  next_serial : Z;
}.

Definition emit (e : effect) (s : app_state) : app_state :=
  set_a_trace (e :: s.(a_trace)) s.

(** Writes through a [Client] and a [Call] pointer. *)
Definition update_client (c : nat) (f : client → client) (s : app_state) : option app_state :=
  cl ← s.(a_heap) !! c; Some (set_a_heap (<[c := f cl]> s.(a_heap)) s).
Definition update_call (id : nat) (f : call → call) (s : app_state) : option app_state :=
  k ← s.(a_calls) !! id; Some (set_a_calls (<[id := f k]> s.(a_calls)) s).

(** ** Client lifetime *)

Definition client_ref (c : nat) (s : app_state) : option app_state :=
  update_client c (λ cl, set_c_refs (cl.(c_refs) + 1) cl) s.

Definition client_unref (c : nat) (s : app_state) : option app_state :=
  cl ← s.(a_heap) !! c;
  if decide (cl.(c_refs) - 1 = 0) then
    Some (emit (Freed c) (set_a_heap (delete c s.(a_heap)) s))
  else update_client c (set_c_refs (cl.(c_refs) - 1)) s.

(** [g_dbus_connection_remove_filter]: the reference the filter holds is
    released later, by [filter_released]. *)
Definition remove_filter (bus : connection) (s : app_state) : app_state :=
  set_a_filters (alter (λ _, Removed) bus s.(a_filters)) s.

(** [g_dbus_connection_add_filter(bus, client_filter, client_ref(client),
    client_unref)]. *)
Definition add_filter (c index : nat) (bus : connection) (s : app_state) : option app_state :=
  s ← client_ref c s;
  update_client c (λ cl, set_c_filters (<[index := true]> cl.(c_filters)) cl)
    (set_a_filters (<[bus := Installed]> s.(a_filters)) s).

(** The worker thread is done with a removed filter. *)
Definition filter_released (bus : connection) (c : nat) (s : app_state) : option app_state :=
  client_unref c (set_a_filters (delete bus s.(a_filters)) s).

(** Disconnects the "closed" handler and closes. *)
Definition close_connection (bus : connection) (s : app_state) : app_state :=
  emit (Close bus) (set_a_handlers (s.(a_handlers) ∖ {[bus]}) s).

Definition client_close (c : nat) (s : app_state) : option app_state :=
  cl ← s.(a_heap) !! c;
  if cl.(c_closed) then Some s else
  s ← update_client c (set_c_closed true) s;
  let s := if cl.(c_watches) then set_a_watches (s.(a_watches) ∖ {[c]}) s else s in
  let s := if nth 0 cl.(c_filters) false then remove_filter (Peer c) s else s in
  let s := if nth 1 cl.(c_filters) false then remove_filter (Host c) s else s in
  let s := close_connection (Peer c) s in
  Some (if cl.(c_has_host) then close_connection (Host c) s else s).

Definition remove_client (c : nat) (s : app_state) : option app_state :=
  client_close c s ≫= client_unref c.

(** [g_hash_table_remove(app->clients, name)] with [remove_client] as the
    table's value destructor. *)
Definition clients_remove (name : text) (s : app_state) : option app_state :=
  match s.(a_clients) !! name with
  | None => Some s
  | Some c => remove_client c (set_a_clients (delete name s.(a_clients)) s)
  end.

Definition connection_closed (c : nat) (s : app_state) : option app_state :=
  s ← client_ref c s;
  cl ← s.(a_heap) !! c;
  s ← clients_remove cl.(c_name) s;
  client_unref c s.

(** ** Message forwarding *)

Definition AccessDenied : string := "org.freedesktop.DBus.Error.AccessDenied".
Definition LimitsExceeded : string := "org.freedesktop.DBus.Error.LimitsExceeded".
Definition NoReply : string := "org.freedesktop.DBus.Error.NoReply".
Definition NoServer : string := "org.freedesktop.DBus.Error.NoServer".
Definition InvalidArgs : string := "org.freedesktop.DBus.Error.InvalidArgs".

Definition send_message (bus : connection) (m : message) : app_state → app_state :=
  emit (SendMessage bus m).
Definition reply_error (bus : connection) (request : message) (name text : string) :
    app_state → app_state :=
  emit (SendError bus request name text).
Definition reply_success (bus : connection) (request : message) (body : list gvariant) :
    app_state → app_state :=
  emit (SendReply bus request body).

Section Bridge.
Context {G : GLib} (conf : config).

(** The reply a caller without the grant sees: every permission is [no]. *)
Definition hide_permissions (body : option (list gvariant)) (copy : message) : message :=
  match body with
  | Some [VStringMap entries] =>
      set_body copy (Some [VStringMap ((λ e, (e.1, str "no")) <$> entries)])
  | _ => copy
  end.

Definition deliver_reply (id : nat) (reply : option message) (s : app_state) :
    option app_state :=
  k ← s.(a_calls) !! id;
  client ← s.(a_heap) !! k.(k_client);
  s ← update_call id (set_k_delivered true) s;
  let failed := Some (emit (AnswerError id k.(k_origin) k.(k_request) NoReply
    "System service unavailable or reply limit exceeded") s) in
  match reply with
  | None => failed
  | Some reply =>
      if negb (spaces_message_bounded reply) then failed else
      let copy := set_reply_serial
        (spaces_message_copy reply k.(k_request).(m_sender)) k.(k_request).(m_serial) in
      if decide (reply.(m_type) = METHOD_RETURN) then
        s ← (if k.(k_register_agent) then update_client k.(k_client) (set_c_agent true) s
             else Some s);
        s ← (if k.(k_unregister_agent) then update_client k.(k_client) (set_c_agent false) s
             else Some s);
        let copy := if k.(k_permissions) && negb client.(c_admin)
                    then hide_permissions reply.(m_body) copy else copy in
        Some (emit (Answer id k.(k_origin) k.(k_request) copy) s)
      else Some (emit (Answer id k.(k_origin) k.(k_request) copy) s)
  end.

Definition forward_finished (id : nat) (reply : option message) (s : app_state) :
    option app_state :=
  k ← s.(a_calls) !! id;
  s ← (if k.(k_delivered) then Some s else deliver_reply id reply s);
  s ← update_client k.(k_client)
        (λ cl, set_c_outstanding (cl.(c_outstanding) - 1)
                 (set_c_pending_calls (g_list_remove id cl.(c_pending_calls)) cl)) s;
  client_unref k.(k_client) (set_a_calls (delete id s.(a_calls)) s).

Definition clear_no_reply (flags : Z) : Z := Z.land flags (Z.lnot NO_REPLY_EXPECTED).

Definition forward (env : environment) (c : nat) (origin target : connection)
    (request : message) (destination : option text) (s : app_state) : option app_state :=
  client ← s.(a_heap) !! c;
  if decide (64 ≤ client.(c_outstanding)) then
    Some (reply_error origin request LimitsExceeded "Too many outstanding calls" s)
  else
    let id := s.(a_next) in
    s ← client_ref c s;
    let agent := conf.(broker) && bool_decide (origin = Peer c)
      && str_is request.(m_interface) (NM ++ str ".AgentManager") in
    let k := {|
      k_client := c; k_origin := origin; k_request := request; k_target := target;
      k_permissions := str_is request.(m_interface) NM
        && str_is request.(m_member) (str "GetPermissions");
      k_register_agent := agent
        && method_is_listed request.(m_member) (str "Register RegisterWithCapabilities");
      k_unregister_agent := agent && str_is request.(m_member) (str "Unregister");
      k_delivered := false; k_serial := env.(next_serial) |} in
    let copy := spaces_message_copy request destination in
    let copy := set_flags copy (clear_no_reply copy.(m_flags)) in
    s ← update_client c
          (λ cl, set_c_outstanding (cl.(c_outstanding) + 1)
                   (set_c_pending_calls (id :: cl.(c_pending_calls)) cl)) s;
    Some (emit (SendCall id origin request target copy)
            (set_a_next (S id) (set_a_calls (<[id := k]> s.(a_calls)) s))).

(** ** Host service discovery *)

Definition appeared (c service : nat) (owner : text) (s : app_state) : option app_state :=
  s ← update_client c
        (λ cl, set_c_owners (<[service := Some owner]> cl.(c_owners)) cl) s;
  cl ← s.(a_heap) !! c;
  Some (if cl.(c_observer) then emit (EmitChanged c (service_name service)) s else s).

Definition vanished (c service : nat) (s : app_state) : option app_state :=
  s ← update_client c (λ cl, set_c_owners (<[service := None]> cl.(c_owners)) cl) s;
  s ← (if decide (service = 1%nat) then update_client c (set_c_agent false) s else Some s);
  cl ← s.(a_heap) !! c;
  Some (if cl.(c_observer) then emit (EmitChanged c (service_name service)) s else s).

(** The filter on the host connection holds a reference; the "closed" handler
    and the watches do not. *)
Definition initialize_host (c : nat) (s : app_state) : option app_state :=
  s ← add_filter c 1 (Host c) s;
  let s := set_a_handlers ({[Host c]} ∪ s.(a_handlers)) s in
  let s := set_a_watches ({[c]} ∪ s.(a_watches)) s in
  update_client c (set_c_watches true) s.

Definition open_client (env : environment) (c : nat) (request : message) (s : app_state) :
    option app_state :=
  client ← s.(a_heap) !! c;
  match (if client.(c_opened) then None else request.(m_body)) with
  | Some [VUint32 uid; VBoolean observer] =>
      s ← update_client c (set_c_observer observer) s;
      if negb env.(host_connects) then
        Some (reply_error (Peer c) request NoServer "Host system bus unavailable" s)
      else
        s ← update_client c
              (λ cl, set_c_opened true
                       (set_c_admin (conf.(admin) && negb cl.(c_observer))
                          (set_c_has_host true cl))) s;
        s ← initialize_host c s;
        cl ← s.(a_heap) !! c;
        Some (reply_success (Peer c) request [VBoolean cl.(c_admin)] s)
  | _ => Some (reply_error (Peer c) request InvalidArgs "Invalid client handshake" s)
  end.

(** ** Guest callers and broker connections *)

Definition new_client (name : text) (opened admin observer : bool) : client := {|
  c_refs := 1; c_name := name; c_has_host := false; c_opened := opened; c_admin := admin;
  c_observer := observer; c_closed := false; c_agent := false;
  c_filters := [false; false]; c_watches := false; c_owners := [None; None; None];
  c_outstanding := 0; c_pending_calls := [] |}.

(** Allocates a client, with its peer's filter and "closed" handler, and enters
    it in [app->clients]. *)
Definition add_client (c : nat) (cl : client) (s : app_state) : option app_state :=
  s ← add_filter c 0 (Peer c) (set_a_heap (<[c := cl]> s.(a_heap)) s);
  let s := set_a_handlers ({[Peer c]} ∪ s.(a_handlers)) s in
  Some (set_a_clients (<[cl.(c_name) := c]> s.(a_clients)) s).

(** The second component is [NULL] when the client cannot be connected. *)
Definition relay_client (env : environment) (sender : text) (observer : bool)
    (s : app_state) : option (app_state * option nat) :=
  match s.(a_clients) !! sender with
  | Some c => Some (s, Some c)
  | None =>
      if decide (128 ≤ size s.(a_clients))%nat then Some (s, None) else
      match (if observer then Some 0 else env.(uid_reply)) with
      | None => Some (s, None)
      | Some uid =>
          if negb env.(peer_connects) then Some (s, None) else
          let c := s.(a_next) in
          let s := emit (OpenCall c uid observer) (set_a_next (S c) s) in
          match env.(open_reply) with
          | None => Some (emit (Close (Peer c)) s, None)
          | Some admin =>
              s ← add_client c (new_client sender true admin observer) s;
              Some (s, Some c)
          end
      end
  end.

(** ** Routing across the system bus boundary *)

(** The first service, in order, whose objects include the path. *)
Definition path_service (path : option text) : option nat :=
  if service_path 0 path then Some 0%nat
  else if service_path 1 path then Some 1%nat
  else if service_path 2 path then Some 2%nat
  else None.

(** A call to the bus's own unique name is for the service whose path it has. *)
Definition resolve_destination (m : message) : message :=
  if str_is m.(m_destination) conf.(unique_name) then
    match path_service m.(m_path) with
    | Some service => set_destination m (Some (service_name service))
    | None => m
    end
  else m.

Definition handle_guest_call (env : environment) (ev : event) (s : app_state) :
    option app_state :=
  sender ← ev.(e_message).(m_sender);
  '(s, c) ← relay_client env sender false s;
  match c with
  | None => Some (reply_error ev.(e_bus) ev.(e_message) NoServer "System bridge unavailable" s)
  | Some c =>
      client ← s.(a_heap) !! c;
      let message := resolve_destination ev.(e_message) in
      if negb (system_call_allowed message client.(c_admin)) then
        Some (reply_error ev.(e_bus) message AccessDenied
                "Spaces system service permission denied" s)
      else forward env c ev.(e_bus) (Peer c) message message.(m_destination) s
  end.

Definition handle_broker_call (env : environment) (c : nat) (ev : event) (s : app_state) :
    option app_state :=
  client ← s.(a_heap) !! c;
  let message := ev.(e_message) in
  if str_is message.(m_interface) CONTROL && str_is message.(m_member) (str "Open")
     && str_is message.(m_path) CONTROL_PATH then open_client env c message s
  else if negb client.(c_opened) || client.(c_observer)
          || negb (system_call_allowed message client.(c_admin)) then
    Some (reply_error ev.(e_bus) message AccessDenied
            "Spaces system service permission denied" s)
  else if negb client.(c_has_host) then None
  else forward env c (Peer c) (Host c) message message.(m_destination) s.

(** The service whose current owner sent the signal about one of its objects. *)
Definition signal_service (client : client) (m : message) : option nat :=
  let from service :=
    bool_decide (is_Some (m.(m_sender)) ∧ mjoin (client.(c_owners) !! service) = m.(m_sender))
    && service_path service m.(m_path) in
  if from 0%nat then Some 0%nat else if from 1%nat then Some 1%nat
  else if from 2%nat then Some 2%nat else None.

Definition forward_host_signal (c : nat) (ev : event) (s : app_state) : option app_state :=
  client ← s.(a_heap) !! c;
  let message := ev.(e_message) in
  match signal_service client message with
  | None => Some s
  | Some service =>
      if bool_decide (is_Some message.(m_destination)) && client.(c_observer) then Some s
      else
        let copy := set_sender (spaces_message_copy message None)
                      (Some (service_name service)) in
        Some (send_message (Peer c) copy s)
  end.

(** Releasing and owning a name again makes guest libraries rediscover it. *)
Definition rediscover (service : nat) (s : app_state) : app_state :=
  let s := if nth service s.(a_names) false then emit (UnownName service) s else s in
  emit (OwnName service) (set_a_names (<[service := true]> s.(a_names)) s).

(** Every guest connection without a client of its own. *)
Definition observed_names (s : app_state) : list text :=
  base.filter (λ name, s.(a_clients) !! name = None) (elements s.(a_guest_names)).

Definition forward_peer_signal (c : nat) (ev : event) (s : app_state) : option app_state :=
  client ← s.(a_heap) !! c;
  let message := ev.(e_message) in
  if str_is message.(m_interface) CONTROL && str_is message.(m_member) (str "Changed") then
    match message.(m_body) with
    | Some [VString name] =>
        if negb client.(c_observer) then Some s else
        match service_index (Some name) with
        | Some service => Some (rediscover service s)
        | None => Some s
        end
    | _ => Some s
    end
  else
    match service_index message.(m_sender) with
    | Some service =>
        if service_path service message.(m_path) then
          if client.(c_observer) then
            Some (foldl (λ s name, send_message Bus (spaces_message_copy message (Some name)) s)
                    s (observed_names s))
          else Some (send_message Bus (spaces_message_copy message (Some client.(c_name))) s)
        else Some s
    | None => Some s
    end.

(** A secret agent callback, by interface, path and member. *)
Definition is_agent_callback (m : message) : bool :=
  str_is m.(m_interface) (NM ++ str ".SecretAgent")
  && str_is m.(m_path) (str "/org/freedesktop/NetworkManager/SecretAgent")
  && method_is_listed m.(m_member) (str "GetSecrets CancelGetSecrets SaveSecrets DeleteSecrets").

Definition callback_permitted (client : client) (m : message) : bool :=
  is_agent_callback m &&
  if conf.(broker) then
    client.(c_agent) && bool_decide (is_Some (m.(m_sender)) ∧
                                     mjoin (client.(c_owners) !! 1%nat) = m.(m_sender))
  else client.(c_admin) && negb client.(c_observer).

Definition handle_agent_callback (env : environment) (c : nat) (ev : event) (s : app_state) :
    option app_state :=
  client ← s.(a_heap) !! c;
  let message := ev.(e_message) in
  if negb (callback_permitted client message) then
    Some (reply_error ev.(e_bus) message AccessDenied "Callback not permitted" s)
  else forward env c ev.(e_bus) (if conf.(broker) then Peer c else Bus) message
         (if conf.(broker) then None else Some client.(c_name)) s.

(** The first call in [pending_calls] that the reply answers, if any. *)
Fixpoint pending_call (s : app_state) (bus : connection) (reply_serial : Z)
    (pending : list nat) : option (option nat) :=
  match pending with
  | [] => Some None
  | id :: pending =>
      k ← s.(a_calls) !! id;
      if negb k.(k_delivered) && bool_decide (k.(k_target) = bus)
         && bool_decide (k.(k_serial) = reply_serial) then Some (Some id)
      else pending_call s bus reply_serial pending
  end.

Definition is_reply (m : message) : bool :=
  bool_decide (m.(m_type) = METHOD_RETURN) || bool_decide (m.(m_type) = ERROR).

(** [process_event] for an event of a client that is not closed, after its
    reply branch. *)
Definition route_event (env : environment) (ev : event) (s : app_state) : option app_state :=
  let message := ev.(e_message) in
  if negb (spaces_message_bounded message) then
    Some (if decide (message.(m_type) = METHOD_CALL) then
            reply_error ev.(e_bus) message LimitsExceeded "Message limit exceeded" s
          else s)
  else
    match ev.(e_client) with
    | None => if conf.(broker) then None else handle_guest_call env ev s
    | Some c =>
        if conf.(broker) && bool_decide (ev.(e_bus) = Peer c) then
          handle_broker_call env c ev s
        else match message.(m_type) with
             | SIGNAL =>
                 if conf.(broker) then forward_host_signal c ev s
                 else forward_peer_signal c ev s
             | METHOD_CALL => handle_agent_callback env c ev s
             | _ => Some s
             end
    end.

Definition dispatch_event (env : environment) (ev : event) (s : app_state) : option app_state :=
  match ev.(e_client) with
  | None => route_event env ev s
  | Some c =>
      client ← s.(a_heap) !! c;
      if client.(c_closed) then Some s
      else if is_reply ev.(e_message) then
        id ← pending_call s ev.(e_bus) ev.(e_message).(m_reply_serial)
               client.(c_pending_calls);
        match id with
        | Some id => deliver_reply id (Some ev.(e_message)) s
        | None => Some s
        end
      else route_event env ev s
  end.

(** The head of the idle queue runs; it is the source GLib added first. *)
Definition process_event (env : environment) (s : app_state) : option app_state :=
  match s.(a_queue) with
  | [] => None
  | ev :: queue =>
      s ← dispatch_event env ev (set_a_queue queue s);
      let s := set_a_queued (s.(a_queued) - 1) s in
      match ev.(e_client) with
      | Some c => client_unref c s
      | None => Some s
      end
  end.

Definition queue_message (client : option nat) (bus : connection) (m : message)
    (s : app_state) : option app_state :=
  let old := s.(a_queued) in
  let s := set_a_queued (old + 1) s in
  if decide (1024 ≤ old) then
    let s := set_a_queued (s.(a_queued) - 1) s in
    Some (if decide (m.(m_type) = METHOD_CALL) then
            reply_error bus m LimitsExceeded "System bridge queue full" s
          else s)
  else
    s ← (match client with Some c => client_ref c s | None => Some s end);
    Some (set_a_queue (s.(a_queue) ++ [Event client bus m]) s).

(** Filters return whether GDBus still delivers the message itself. *)
Definition client_filter (c : nat) (bus : connection) (m : message) (incoming : bool)
    (s : app_state) : option (app_state * bool) :=
  if incoming && bool_decide (m.(m_type) = METHOD_CALL) then
    s ← queue_message (Some c) bus m s; Some (s, false)
  else if incoming && (bool_decide (m.(m_type) = SIGNAL) || is_reply m) then
    s ← queue_message (Some c) bus m s; Some (s, true)
  else Some (s, true).

Definition guest_filter (m : message) (incoming : bool) (s : app_state) :
    option (app_state * bool) :=
  if incoming && bool_decide (m.(m_type) = METHOD_CALL) then
    s ← queue_message None Bus m s; Some (s, false)
  else Some (s, true).

Definition is_unique (name : text) : bool := has_prefix name (str ":").

(** [NameOwnerChanged(name, old, now)]. *)
Definition guest_names (name now : text) (s : app_state) : option app_state :=
  if is_unique name then
    if decide (now = []) then
      clients_remove name (set_a_guest_names (s.(a_guest_names) ∖ {[name]}) s)
    else if text_eqb name conf.(unique_name) then Some s
    else Some (set_a_guest_names ({[name]} ∪ s.(a_guest_names)) s)
  else Some s.

(** ** Broker authentication and startup *)

(** [uid] is the peer's user when it has credentials. *)
Definition auth_peer (uid : option Z) : bool := bool_decide (uid = Some 0).
Definition auth_mechanism (mechanism : text) : bool := text_eqb mechanism (str "EXTERNAL").

Definition new_peer (name : text) (s : app_state) : option (app_state * bool) :=
  if decide (129 ≤ size s.(a_clients))%nat then Some (s, false) else
  let c := s.(a_next) in
  s ← add_client c (new_client name false false false) (set_a_next (S c) s);
  Some (s, true).

Definition observer_tick (env : environment) (s : app_state) : option app_state :=
  fst <$> relay_client env (str "observer") true s.

Definition empty_app : app_state :=
  App ∅ ∅ [false; false; false] 0 ∅ ∅ [] ∅ ∅ ∅ 0 [].

(** The relay's start: the guests already on the bus, the observer and the
    services' names. *)
Definition relay_start (env : environment) (names : list text) : option app_state :=
  let guests := list_to_set
    (base.filter (λ name, is_unique name && negb (text_eqb name conf.(unique_name)) = true)
       names) in
  s ← observer_tick env (set_a_guest_names guests empty_app);
  Some (emit (OwnName 2) (emit (OwnName 1) (emit (OwnName 0)
    (set_a_names [true; true; true] s)))).

End Bridge.

(** [main]'s arguments: the role, the socket and the grant; [None] is the usage
    error. *)
Definition bridge_arguments (argv : list text) (euid : Z) : option (bool * bool * text) :=
  match argv with
  | _ :: role :: socket :: rest =>
      let is_broker := text_eqb role (str "--broker") in
      let is_relay := text_eqb role (str "--relay") in
      if (1 <? length rest)%nat || negb (is_broker || is_relay)
         || match rest with
            | [flag] => negb is_broker || negb (text_eqb flag (str "--admin"))
            | _ => false
            end
         || negb (euid =? 0) then None
      else Some (is_broker, (length rest =? 1)%nat, socket)
  | _ => None
  end.

(** ** Steps

    GLib's main loop and the GDBus worker thread call the program at these
    points; [enabled] says when, by what GLib itself keeps. *)

Inductive label :=
  | GuestMessage (m : message)                              (** [guest_filter] *)
  | ClientMessage (c : nat) (bus : connection) (m : message)  (** [client_filter] *)
  | FilterReleased (c : nat) (bus : connection)             (** [client_unref] *)
  | ProcessEvent (env : environment)
  | Finished (id : nat) (reply : option message)            (** [forward_finished] *)
  | Appeared (c service : nat) (owner : text)
  | Vanished (c service : nat)
  | Closed (c : nat) (bus : connection)                     (** [connection_closed] *)
  | GuestNames (name now : text)
  | NewPeer (name : text)
  | ObserverTick (env : environment).

(** The client whose connection it is. *)
Definition client_of (bus : connection) : option nat :=
  match bus with Bus => None | Peer c | Host c => Some c end.

Section Steps.
Context {G : GLib} (conf : config).

(** A message from a bus carries its sender.  [new_peer] names the client by
    the address of its connection, which is not that of another live one. *)
Definition enabled (l : label) (s : app_state) : Prop :=
  match l with
  | GuestMessage m => conf.(broker) = false ∧ is_Some m.(m_sender)
  | ClientMessage c bus m => client_of bus = Some c ∧ is_Some (s.(a_filters) !! bus)
  | FilterReleased c bus => client_of bus = Some c ∧ s.(a_filters) !! bus = Some Removed
  | ProcessEvent _ => s.(a_queue) ≠ []
  | Finished id _ => is_Some (s.(a_calls) !! id)
  | Appeared c service _ | Vanished c service => c ∈ s.(a_watches) ∧ (service < 3)%nat
  | Closed c bus => client_of bus = Some c ∧ bus ∈ s.(a_handlers)
  | GuestNames _ _ => conf.(broker) = false
  | NewPeer name => conf.(broker) = true ∧ s.(a_clients) !! name = None
  | ObserverTick _ => conf.(broker) = false
  end.

Definition run (l : label) (s : app_state) : option app_state :=
  match l with
  | GuestMessage m => fst <$> guest_filter m true s
  | ClientMessage c bus m => fst <$> client_filter c bus m true s
  | FilterReleased c bus => filter_released bus c s
  | ProcessEvent env => process_event conf env s
  | Finished id reply => forward_finished id reply s
  | Appeared c service owner => appeared c service owner s
  | Vanished c service => vanished c service s
  | Closed c _ => connection_closed c s
  | GuestNames name now => guest_names conf name now s
  | NewPeer name => fst <$> new_peer name s
  | ObserverTick env => observer_tick env s
  end.

Definition step (s s' : app_state) : Prop := ∃ l, enabled l s ∧ run l s = Some s'.

(** The state in which [main] enters the loop. *)
Definition initial (s : app_state) : Prop :=
  if conf.(broker) then s = empty_app
  else ∃ env names, relay_start conf env names = Some s.

Definition reachable (s : app_state) : Prop := ∃ s0, initial s0 ∧ rtc step s0 s.

End Steps.
