(* ===== verification/BridgeInv.v ===== *)
(** * The bridge's invariant and what it guarantees

    One invariant of [Bridge]'s reachable states relates the client table, the
    heap of clients with its reference counts, the calls in flight, the idle
    queue and everything sent so far.  [ok] is total correctness: an operation
    returns, that is, it reads no freed client or call.  Each lemma shows an
    operation [ok] from the invariant to the invariant; the theorems at the
    end read the guarantees off it. *)

From S2P Require Import Prelude Glib Policy Bridge.

Section Invariant.
Context {G : GLib} (conf : config).

(** ** Invariant *)

(** How many of the pointers are to [c]. *)
Definition occurrences (c : nat) (pointers : list (option nat)) : nat :=
  length (base.filter (λ p, p = Some c) pointers).

Definition count {K A} `{Countable K} (m : gmap K A) (k : K) : nat :=
  match m !! k with Some _ => 1 | None => 0 end.

(** Everything that points to client [c]; [held] are local variables. *)
Definition holders (held : list (option nat)) (s : app_state) (c : nat) (cl : client) : nat :=
  ((if decide (s.(a_clients) !! cl.(c_name) = Some c) then 1 else 0)
   + occurrences c ((e_client <$> s.(a_queue)) ++ held)
   + length cl.(c_pending_calls)
   + count s.(a_filters) (Peer c) + count s.(a_filters) (Host c))%nat.

Record client_ok (cl : client) : Prop := {
  ok_outstanding : cl.(c_outstanding) = Z.of_nat (length cl.(c_pending_calls));
  ok_limit : cl.(c_outstanding) ≤ 64;
  ok_pending : NoDup cl.(c_pending_calls);
  ok_owners : length cl.(c_owners) = 3%nat;
  ok_filters : cl.(c_filters) = [true; cl.(c_has_host)];
  ok_watches : cl.(c_watches) = cl.(c_has_host);
  ok_host : cl.(c_has_host) = true → conf.(broker) = true;
  ok_opened : conf.(broker) = true → cl.(c_opened) = cl.(c_has_host);
  ok_admin : conf.(broker) = true → cl.(c_admin) = true → conf.(admin) = true;
  ok_agent : cl.(c_agent) = true → conf.(broker) = true ∧ conf.(admin) = true;
}.

(** The answer an effect gives to call [id], and to whom. *)
Definition answer_of (id : nat) (e : effect) : option (connection * message) :=
  match e with
  | Answer i bus request _ | AnswerError i bus request _ _ =>
      if decide (i = id) then Some (bus, request) else None
  | _ => None
  end.

Definition answers_to (id : nat) (trace : list effect) : list (connection * message) :=
  omap (answer_of id) trace.

Definition all_no (body : option (list gvariant)) : Prop :=
  match body with
  | Some [VStringMap entries] => Forall (λ e, e.2 = str "no") entries
  | _ => True
  end.

Definition asks_permissions (request : message) : Prop :=
  request.(m_interface) = Some NM ∧ request.(m_member) = Some (str "GetPermissions").

(** What may be sent where. *)
Definition effect_ok (e : effect) : Prop :=
  match e with
  | SendCall _ origin request target m =>
      Z.testbit m.(m_flags) 0 = false ∧
      match target with
      | Host c =>
          conf.(broker) = true ∧ origin = Peer c ∧ system_call_allowed m conf.(admin) = true
      | Peer c =>
          if conf.(broker) then
            conf.(admin) = true ∧ is_agent_callback m = true ∧ m.(m_destination) = None
          else origin = Bus ∧ system_call_allowed m true = true
      | Bus =>
          conf.(broker) = false ∧ is_agent_callback m = true ∧ is_Some m.(m_destination)
      end
  | SendMessage (Peer c) m =>
      conf.(broker) = true ∧ m.(m_destination) = None ∧
      ∃ service, (service < 3)%nat ∧ m.(m_sender) = Some (service_name service) ∧
                 service_path service m.(m_path) = true
  | SendMessage Bus m =>
      conf.(broker) = false ∧ is_Some m.(m_destination) ∧ m.(m_sender) = None
  | SendMessage (Host _) _ => False
  | Answer _ _ request m =>
      conf.(broker) = true → conf.(admin) = false → asks_permissions request →
      m.(m_type) = METHOD_RETURN → all_no m.(m_body)
  | _ => True
  end.

Record Inv (busy : Z) (held : list (option nat)) (s : app_state) : Prop := {
  inv_table name c : s.(a_clients) !! name = Some c →
    ∃ cl, s.(a_heap) !! c = Some cl ∧ cl.(c_name) = name ∧ cl.(c_closed) = false;
  inv_open c cl : s.(a_heap) !! c = Some cl → cl.(c_closed) = false →
    s.(a_clients) !! cl.(c_name) = Some c;
  inv_refs c cl : s.(a_heap) !! c = Some cl →
    cl.(c_refs) = Z.of_nat (holders held s c cl) ∧ 0 < cl.(c_refs);
  inv_pointers c : Some c ∈ (e_client <$> s.(a_queue)) ++ held → is_Some (s.(a_heap) !! c);
  inv_filters bus f : s.(a_filters) !! bus = Some f →
    ∃ c cl, client_of bus = Some c ∧ s.(a_heap) !! c = Some cl ∧
      (bus = Host c → cl.(c_has_host) = true);
  inv_handlers bus : bus ∈ s.(a_handlers) →
    ∃ c cl, client_of bus = Some c ∧ s.(a_heap) !! c = Some cl ∧ cl.(c_closed) = false ∧
      (bus = Host c → cl.(c_has_host) = true);
  inv_watches c : c ∈ s.(a_watches) →
    ∃ cl, s.(a_heap) !! c = Some cl ∧ cl.(c_closed) = false ∧ cl.(c_has_host) = true;
  inv_calls id k : s.(a_calls) !! id = Some k →
    ∃ cl, s.(a_heap) !! k.(k_client) = Some cl ∧ id ∈ cl.(c_pending_calls);
  inv_pending c cl id : s.(a_heap) !! c = Some cl → id ∈ cl.(c_pending_calls) →
    ∃ k, s.(a_calls) !! id = Some k ∧ k.(k_client) = c;
  inv_clients c cl : s.(a_heap) !! c = Some cl → client_ok cl ∧ (c < s.(a_next))%nat;
  inv_events ev : ev ∈ s.(a_queue) →
    client_of ev.(e_bus) = ev.(e_client) ∧
    (ev.(e_client) = None → conf.(broker) = false ∧ is_Some ev.(e_message).(m_sender));
  inv_queued : s.(a_queued) = Z.of_nat (length s.(a_queue)) + busy ∧ s.(a_queued) ≤ 1024;
  inv_size : (size s.(a_clients) ≤ if conf.(broker) then 129 else 128)%nat;
  inv_sent id o r t m : SendCall id o r t m ∈ s.(a_trace) → (id < s.(a_next))%nat ∧
    match s.(a_calls) !! id with
    | Some k => o = k.(k_origin) ∧ r = k.(k_request) ∧
                answers_to id s.(a_trace) = if k.(k_delivered) then [(o, r)] else []
    | None => answers_to id s.(a_trace) = [(o, r)]
    end;
  inv_unsent id : (s.(a_next) ≤ id)%nat → answers_to id s.(a_trace) = [];
  inv_live id k : s.(a_calls) !! id = Some k →
    (∃ m, SendCall id k.(k_origin) k.(k_request) k.(k_target) m ∈ s.(a_trace)) ∧
    (k.(k_register_agent) = true → conf.(broker) = true ∧ conf.(admin) = true) ∧
    (asks_permissions k.(k_request) → k.(k_permissions) = true);
  inv_trace : Forall effect_ok s.(a_trace);
}.


(** ** Total correctness of operations *)

Definition ok (m : option app_state) (Q : app_state → Prop) : Prop :=
  ∃ s, m = Some s ∧ Q s.

Lemma ok_ret s (Q : app_state → Prop) : Q s → ok (Some s) Q.
Proof. intros H. by exists s. Qed.

Lemma ok_bind m (k : app_state → option app_state) Q :
  ok m (λ s, ok (k s) Q) → ok (m ≫= k) Q.
Proof. intros (s & -> & H). exact H. Qed.

Lemma ok_weaken m (P Q : app_state → Prop) : ok m P → (∀ s, P s → Q s) → ok m Q.
Proof. intros (s & Hm & HP) HPQ. exists s. auto. Qed.

(** ** Counting *)

Lemma occurrences_app c l k :
  occurrences c (l ++ k) = (occurrences c l + occurrences c k)%nat.
Proof. unfold occurrences. by rewrite filter_app, length_app. Qed.

Lemma occurrences_cons c p l :
  occurrences c (p :: l) = ((if decide (p = Some c) then 1 else 0) + occurrences c l)%nat.
Proof. unfold occurrences. rewrite filter_cons. by case_decide. Qed.

Lemma occurrences_nil c : occurrences c [] = 0%nat.
Proof. done. Qed.

Lemma occurrences_pos c l : Some c ∈ l → (0 < occurrences c l)%nat.
Proof.
  induction l as [|p l IH]; [intros []%elem_of_nil|].
  rewrite occurrences_cons. intros [<-|?%IH]%elem_of_cons; [|lia].
  rewrite decide_True by done. lia.
Qed.

Lemma g_list_remove_elem id i l : NoDup l → i ∈ g_list_remove id l ↔ i ∈ l ∧ i ≠ id.
Proof.
  induction 1 as [|j l Hj Hl IH]; cbn [g_list_remove]; [set_solver|].
  case_decide; subst; set_solver.
Qed.

Lemma g_list_remove_NoDup id l : NoDup l → NoDup (g_list_remove id l).
Proof.
  induction 1 as [|j l Hj Hl IH]; cbn [g_list_remove]; [constructor|].
  case_decide; [done|]. constructor; [|done]. rewrite g_list_remove_elem by done. tauto.
Qed.

Lemma g_list_remove_length id l :
  id ∈ l → length l = S (length (g_list_remove id l)).
Proof.
  induction l as [|j l IH]; [intros []%elem_of_nil|]. cbn [g_list_remove length].
  intros [<-|Hin]%elem_of_cons; [by rewrite decide_True|].
  case_decide; [done|]. cbn [length]. by rewrite <- IH.
Qed.

(** ** Reading fields of an updated state *)

Ltac fields :=
  cbn [a_clients a_guest_names a_names a_queued a_heap a_calls a_queue a_filters a_handlers
       a_watches a_next a_trace set_a_clients set_a_guest_names set_a_names set_a_queued
       set_a_heap set_a_calls set_a_queue set_a_filters set_a_handlers set_a_watches
       set_a_next set_a_trace emit reply_error reply_success send_message
       c_refs c_name c_has_host c_opened c_admin c_observer c_closed c_agent c_filters
       c_watches c_owners c_outstanding c_pending_calls set_c_refs set_c_has_host
       set_c_opened set_c_admin set_c_observer set_c_closed set_c_agent set_c_filters
       set_c_watches set_c_owners set_c_outstanding set_c_pending_calls
       k_client k_origin k_request k_permissions k_register_agent k_unregister_agent
       k_delivered k_target k_serial set_k_delivered e_client e_bus e_message] in *.

(** Splits on the key of a lookup in an updated map. *)
Ltac split_lookup :=
  repeat match goal with
  | H : <[_:=_]> _ !! _ = Some _ |- _ =>
      apply lookup_insert_Some in H as [[? ?]|[? H]]; simplify_eq
  | H : delete _ _ !! _ = Some _ |- _ => apply lookup_delete_Some in H as [? H]
  end.

Lemma update_client_Some c f s cl :
  s.(a_heap) !! c = Some cl →
  update_client c f s = Some (set_a_heap (<[c := f cl]> s.(a_heap)) s).
Proof. intros H. unfold update_client. by rewrite H. Qed.

(** ** The invariant under writes *)

Lemma holders_same held held' s s' c cl cl' :
  s'.(a_clients) !! cl'.(c_name) = Some c ↔ s.(a_clients) !! cl.(c_name) = Some c →
  occurrences c ((e_client <$> s'.(a_queue)) ++ held')
    = occurrences c ((e_client <$> s.(a_queue)) ++ held) →
  cl'.(c_pending_calls) = cl.(c_pending_calls) →
  s'.(a_filters) = s.(a_filters) →
  holders held' s' c cl' = holders held s c cl.
Proof.
  intros Ht Hq Hp Hf. unfold holders. rewrite Hq, Hp, Hf.
  by rewrite (decide_ext _ _ _ _ Ht).
Qed.

(** Rewriting one client, with local variables gained or lost. *)
Lemma Inv_write busy held held' s c cl cl' :
  Inv busy held s → s.(a_heap) !! c = Some cl →
  cl'.(c_name) = cl.(c_name) → cl'.(c_closed) = cl.(c_closed) →
  cl'.(c_pending_calls) = cl.(c_pending_calls) →
  (cl.(c_has_host) = true → cl'.(c_has_host) = true) →
  (client_ok cl → client_ok cl') →
  (∀ d, Some d ∈ held' → d = c ∨ Some d ∈ held) →
  (∀ d, d ≠ c → occurrences d held' = occurrences d held) →
  cl'.(c_refs) - cl.(c_refs) =
    Z.of_nat (occurrences c held') - Z.of_nat (occurrences c held) →
  0 < cl'.(c_refs) →
  Inv busy held' (set_a_heap (<[c := cl']> s.(a_heap)) s).
Proof.
  intros I Hc Hname Hclosed Hpend Hhost Hok Hheld Hother Hrefs Hpos. destruct I. constructor; fields.
  - intros name d Hd. destruct (inv_table0 name d Hd) as (dl & Hdl & Hn & Hcl).
    destruct (decide (d = c)) as [->|Hne].
    + simplify_eq. exists cl'. rewrite lookup_insert_eq. by rewrite Hclosed.
    + exists dl. by rewrite lookup_insert_ne by done.
  - intros d dl Hd Hcl. split_lookup; [|by eauto].
    rewrite Hname. apply inv_open0; [done|]. by rewrite <- Hclosed.
  - intros d dl Hd. split_lookup.
    + split; [|done]. destruct (inv_refs0 _ _ Hc) as [Hr _].
      unfold holders in *. fields. rewrite Hname, Hpend. rewrite !occurrences_app in *. lia.
    + destruct (inv_refs0 _ _ Hd) as [Hr ?]. split; [|done]. rewrite Hr. f_equal.
      apply holders_same; [done| |done|done]. fields. rewrite !occurrences_app.
      by rewrite Hother.
  - intros d Hd. destruct (decide (d = c)) as [->|Hne]; [by rewrite lookup_insert_eq|].
    rewrite lookup_insert_ne by done. apply inv_pointers0.
    apply elem_of_app in Hd as [?|Hd]; apply elem_of_app; [by left|right].
    by destruct (Hheld d Hd).
  - intros bus f Hf. destruct (inv_filters0 bus f Hf) as (d & dl & Hd & Hl & Hh).
    exists d. destruct (decide (d = c)) as [->|Hne].
    + simplify_eq. exists cl'. rewrite lookup_insert_eq. by split_and!; auto.
    + exists dl. by rewrite lookup_insert_ne by done.
  - intros bus Hb. destruct (inv_handlers0 bus Hb) as (d & dl & Hd & Hl & Hcl & Hh).
    exists d. destruct (decide (d = c)) as [->|Hne].
    + simplify_eq. exists cl'. rewrite lookup_insert_eq, Hclosed. by split_and!; auto.
    + exists dl. by rewrite lookup_insert_ne by done.
  - intros d Hd. destruct (inv_watches0 d Hd) as (dl & Hl & Hcl & Hh).
    destruct (decide (d = c)) as [->|Hne].
    + simplify_eq. exists cl'. rewrite lookup_insert_eq, Hclosed. by split_and!; auto.
    + exists dl. by rewrite lookup_insert_ne by done.
  - intros id k Hk. destruct (inv_calls0 id k Hk) as (dl & Hl & Hin).
    destruct (decide (k_client k = c)) as [Heq|Hne].
    + rewrite Heq in *. simplify_eq. exists cl'. rewrite lookup_insert_eq. by rewrite Hpend.
    + exists dl. by rewrite lookup_insert_ne by done.
  - intros d dl id Hd Hin. split_lookup; [|by eauto].
    rewrite Hpend in Hin. eauto.
  - intros d dl Hd. split_lookup; [|by eauto].
    destruct (inv_clients0 _ _ Hc). auto.
  - done.
  - done.
  - done.
  - done.
  - done.
  - done.
  - done.
Qed.

Lemma Inv_client_ref busy held s c cl :
  Inv busy held s → s.(a_heap) !! c = Some cl →
  ok (client_ref c s) (λ s', Inv busy (Some c :: held) s' ∧
    s' = set_a_heap (<[c := set_c_refs (cl.(c_refs) + 1) cl]> s.(a_heap)) s).
Proof.
  intros I Hc. unfold client_ref. rewrite (update_client_Some _ _ _ _ Hc). apply ok_ret.
  split; [|done]. apply (Inv_write busy held _ s c cl); try done.
  - intros []. by constructor.
  - intros d [?|?]%elem_of_cons; simplify_eq; auto.
  - intros d Hd. rewrite occurrences_cons, decide_False by congruence. done.
  - rewrite occurrences_cons, decide_True by done. fields. lia.
  - fields. destruct (inv_refs _ _ _ I _ _ Hc). lia.
Qed.

(** Appending to the trace. *)
Lemma Inv_emit busy held s e :
  Inv busy held s → effect_ok e →
  (∀ id, answer_of id e = None) → (∀ id o r t m, e ≠ SendCall id o r t m) →
  Inv busy held (emit e s).
Proof.
  intros [] He Ha Hs. constructor; fields; try done.
  - intros id o r t m [Heq|Hin]%elem_of_cons; [by destruct (Hs id o r t m)|].
    destruct (inv_sent0 id o r t m Hin) as [? Hans]. split; [done|].
    unfold answers_to in *. cbn [omap list_omap]. by rewrite Ha.
  - intros id Hid. unfold answers_to in *. cbn [omap list_omap]. rewrite Ha. auto.
  - intros id k Hk. destruct (inv_live0 id k Hk) as [[m Hm] ?].
    split; [|done]. exists m. by apply elem_of_cons; right.
  - by constructor.
Qed.

(** ** Client lifetime *)

(** The last reference: nothing else points to the client. *)
Lemma Inv_free busy held s c cl :
  Inv busy (Some c :: held) s → s.(a_heap) !! c = Some cl → cl.(c_refs) = 1 →
  Inv busy held (emit (Freed c) (set_a_heap (delete c s.(a_heap)) s)).
Proof.
  intros I Hc Hone. apply Inv_emit; [|done..].
  destruct (inv_refs _ _ _ I _ _ Hc) as [Hr _]. unfold holders in Hr.
  rewrite occurrences_app, occurrences_cons, (decide_True (P := Some c = Some c)) in Hr by done.
  case_decide as Ht; [lia|].
  assert (occurrences c ((e_client <$> s.(a_queue)) ++ held) = 0%nat) as Hocc
    by (rewrite occurrences_app; lia).
  assert (cl.(c_pending_calls) = []) as Hp by (apply length_zero_iff_nil; lia).
  assert (s.(a_filters) !! Peer c = None) as HfP
    by (unfold count in Hr; destruct (s.(a_filters) !! Peer c); [lia|done]).
  assert (s.(a_filters) !! Host c = None) as HfH
    by (unfold count in Hr; destruct (s.(a_filters) !! Host c); [lia|done]).
  assert (cl.(c_closed) = true) as Hcl.
  { apply not_false_is_true. intros Hf. by apply Ht, (inv_open _ _ _ I). }
  destruct I. constructor; fields; try done.
  - intros name d Hd. destruct (inv_table0 _ _ Hd) as (dl & Hdl & ? & ?).
    exists dl. rewrite lookup_delete_ne; [done|]. intros <-. congruence.
  - intros d dl Hd. split_lookup. eauto.
  - intros d dl Hd. split_lookup. destruct (inv_refs0 _ _ Hd) as [Hrd ?]. split; [|done].
    rewrite Hrd. f_equal. apply holders_same; [done| |done..]. fields.
    rewrite !occurrences_app, occurrences_cons, decide_False by congruence. done.
  - intros d Hd. rewrite lookup_delete_ne.
    + apply inv_pointers0. rewrite elem_of_app, elem_of_cons in *. tauto.
    + intros <-. apply occurrences_pos in Hd. lia.
  - intros bus f Hf. destruct (inv_filters0 _ _ Hf) as (d & dl & Hd & ? & ?). exists d, dl.
    split; [done|]. rewrite lookup_delete_ne; [done|]. intros <-.
    destruct bus; simpl in Hd; congruence.
  - intros bus Hb. destruct (inv_handlers0 _ Hb) as (d & dl & ? & ? & ? & ?).
    exists d, dl. rewrite lookup_delete_ne; [done|]. intros <-. congruence.
  - intros d Hd. destruct (inv_watches0 _ Hd) as (dl & ? & ? & ?).
    exists dl. rewrite lookup_delete_ne; [done|]. intros <-. congruence.
  - intros id k Hk. destruct (inv_calls0 _ _ Hk) as (dl & Hdl & Hin). exists dl.
    rewrite lookup_delete_ne; [done|]. intros Heq. rewrite <- Heq in Hdl.
    simplify_eq. rewrite Hp in Hin. by apply elem_of_nil in Hin.
  - intros d dl id Hd. split_lookup. eauto.
  - intros d dl Hd. split_lookup. eauto.
Qed.

Lemma Inv_client_unref busy held s c :
  Inv busy (Some c :: held) s → ok (client_unref c s) (Inv busy held).
Proof.
  intros I. assert (is_Some (s.(a_heap) !! c)) as [cl Hc].
  { apply (inv_pointers _ _ _ I). set_solver. }
  unfold client_unref. rewrite Hc. cbn [mbind option_bind].
  destruct (inv_refs _ _ _ I _ _ Hc) as [Hr Hpos].
  case_decide as Hone; [apply ok_ret, (Inv_free _ _ _ _ cl); [done..|lia]|].
  rewrite (update_client_Some _ _ _ _ Hc). apply ok_ret.
  apply (Inv_write busy (Some c :: held) _ s c cl); try done.
  - intros []. by constructor.
  - intros d Hd. right. by apply elem_of_cons; right.
  - intros d Hd. by rewrite occurrences_cons, decide_False by congruence.
  - rewrite occurrences_cons, decide_True by done. fields. lia.
  - fields. lia.
Qed.

(** The table's reference becomes [remove_client]'s, and the client closes. *)
Lemma Inv_closed busy held s s' c cl es :
  Inv busy held s → s.(a_heap) !! c = Some cl → cl.(c_closed) = false →
  s'.(a_clients) = delete cl.(c_name) s.(a_clients) →
  s'.(a_heap) = <[c := set_c_closed true cl]> s.(a_heap) →
  (∀ bus, is_Some (s'.(a_filters) !! bus) ↔ is_Some (s.(a_filters) !! bus)) →
  s'.(a_handlers) ⊆ s.(a_handlers) →
  (∀ bus, client_of bus = Some c → bus ∉ s'.(a_handlers)) →
  s'.(a_watches) ⊆ s.(a_watches) → c ∉ s'.(a_watches) →
  s'.(a_trace) = es ++ s.(a_trace) → Forall (λ e, ∃ bus, e = Close bus) es →
  s'.(a_calls) = s.(a_calls) → s'.(a_queue) = s.(a_queue) →
  s'.(a_queued) = s.(a_queued) → s'.(a_next) = s.(a_next) →
  Inv busy (Some c :: held) s'.
Proof.
  intros I Hc Hopen Et Eh Ef Hh Hhc Hw Hwc Etr Hes Ec Eq Eqd En.
  assert (∀ bus, count s'.(a_filters) bus = count s.(a_filters) bus) as Hcount.
  { intros bus. specialize (Ef bus). unfold count.
    destruct (s'.(a_filters) !! bus), (s.(a_filters) !! bus); try done.
    - destruct Ef as [[? [=]] _]; eauto.
    - destruct Ef as [_ [? [=]]]; eauto. }
  assert (∀ id, answers_to id (es ++ s.(a_trace)) = answers_to id s.(a_trace)) as Hans.
  { intros id. unfold answers_to. clear Etr. induction Hes as [|e es [bus ->] _ IH]; [done|].
    exact IH. }
  assert (∀ id o r t m, SendCall id o r t m ∈ es ++ s.(a_trace) →
    SendCall id o r t m ∈ s.(a_trace)) as Hsent.
  { intros id o r t m [Hin|?]%elem_of_app; [|done].
    rewrite Forall_forall in Hes. by destruct (Hes _ Hin). }
  assert (∀ e, e ∈ s.(a_trace) → e ∈ es ++ s.(a_trace)) as Hkeep
    by (intros; apply elem_of_app; by right).
  pose proof (inv_open _ _ _ I _ _ Hc Hopen) as Ht.
  destruct I. constructor; rewrite ?Et, ?Eh, ?Etr, ?Ec, ?Eq, ?Eqd, ?En; try done.
  - intros name d Hd. split_lookup. destruct (inv_table0 _ _ Hd) as (dl & Hdl & Hn & ?).
    exists dl. rewrite lookup_insert_ne; [done|]. intros <-. congruence.
  - intros d dl Hd Hcl. split_lookup; fields; try done.
    rewrite lookup_delete_ne; [by apply inv_open0|].
    intros Heq. apply inv_open0 in Hd; [|done]. congruence.
  - intros d dl Hd. apply lookup_insert_Some in Hd as [[<- <-]|[Hne Hd]].
    + destruct (inv_refs0 _ _ Hc) as [Hr ?]. fields. split; [|done]. rewrite Hr. f_equal.
      unfold holders. rewrite !Hcount, Et, Eq. fields.
      rewrite lookup_delete_eq, !occurrences_app, occurrences_cons, Ht.
      rewrite (decide_False (P := None = _)) by done. rewrite !decide_True by done. lia.
    + destruct (inv_refs0 _ _ Hd) as [Hr ?]. split; [|done]. rewrite Hr. f_equal.
      unfold holders. rewrite !Hcount, Et, Eq, !occurrences_app, occurrences_cons.
      rewrite (decide_False (P := Some c = Some d)) by congruence.
      assert (delete cl.(c_name) s.(a_clients) !! dl.(c_name) = Some d ↔
        s.(a_clients) !! dl.(c_name) = Some d) as Hiff.
      { rewrite lookup_delete_Some. split; [tauto|]. intros Hdt. split; [|done].
        intros Heq. congruence. }
      do 2 case_decide; tauto || lia.
  - intros d Hd. destruct (decide (d = c)) as [->|Hne]; [by rewrite lookup_insert_eq|].
    rewrite lookup_insert_ne by done. apply inv_pointers0.
    rewrite elem_of_app, elem_of_cons in *. destruct Hd as [?|[?|?]]; [by left|congruence|by right].
  - intros bus f Hf. destruct (proj1 (Ef bus)) as [f' Hf']; [by rewrite Hf|].
    destruct (inv_filters0 _ _ Hf') as (d & dl & ? & ? & ?).
    exists d. destruct (decide (d = c)) as [->|Hne].
    + simplify_eq. eexists. by rewrite lookup_insert_eq.
    + exists dl. by rewrite lookup_insert_ne by done.
  - intros bus Hb. destruct (inv_handlers0 bus) as (d & dl & ? & ? & ? & ?); [by apply Hh|].
    exists d, dl. rewrite lookup_insert_ne; [done|]. intros <-. by apply (Hhc bus).
  - intros d Hd. destruct (inv_watches0 d) as (dl & ? & ? & ?); [by apply Hw|].
    exists dl. rewrite lookup_insert_ne; [done|]. congruence.
  - intros id k Hk. destruct (inv_calls0 _ _ Hk) as (dl & Hdl & ?).
    destruct (decide (k_client k = c)) as [Heq|Hne].
    + rewrite Heq in *. simplify_eq. eexists. by rewrite lookup_insert_eq.
    + exists dl. by rewrite lookup_insert_ne by done.
  - intros d dl id Hd Hin. split_lookup; fields; eauto.
  - intros d dl Hd. split_lookup; [|eauto].
    destruct (inv_clients0 _ _ Hc) as [[] ?]. split; [by constructor|done].
  - etransitivity; [|exact inv_size0]. rewrite map_size_delete_Some by eauto. lia.
  - intros id o r t m Hin%Hsent. rewrite Hans. eauto.
  - intros id Hid. rewrite Hans. eauto.
  - intros id k Hk. destruct (inv_live0 _ _ Hk) as [[m Hm] ?]. split; [|done]. eauto.
  - apply Forall_app. split; [|done]. eapply Forall_impl; [exact Hes|]. by intros e [? ->].
Qed.

Lemma filters_alter (m : gmap connection filter) f bus k :
  is_Some (alter f bus m !! k) ↔ is_Some (m !! k).
Proof.
  destruct (decide (bus = k)) as [->|Hne].
  - rewrite lookup_alter_eq. apply fmap_is_Some.
  - by rewrite lookup_alter_ne.
Qed.

Lemma Inv_clients_remove busy held s name :
  Inv busy held s → ok (clients_remove name s) (Inv busy held).
Proof.
  intros I. unfold clients_remove.
  destruct (s.(a_clients) !! name) as [c|] eqn:Ht; [|by apply ok_ret].
  destruct (inv_table _ _ _ I _ _ Ht) as (cl & Hc & <- & Hopen).
  destruct (inv_clients _ _ _ I _ _ Hc) as [Hcl _].
  unfold remove_client. apply ok_bind.
  eapply ok_weaken; [|intros s' I'; apply Inv_client_unref, I'].
  unfold client_close. fields. rewrite Hc. cbn [mbind option_bind]. rewrite Hopen.
  rewrite (update_client_Some _ _ _ cl) by done. cbn [mbind option_bind].
  rewrite (ok_filters _ Hcl), (ok_watches _ Hcl). cbn [nth]. apply ok_ret.
  unfold close_connection, remove_filter.
  destruct (cl.(c_has_host)) eqn:Hhost.
  - eapply (Inv_closed busy held s _ c cl [_; _] I Hc Hopen); fields; try done.
    + intros bus. by rewrite !filters_alter.
    + set_solver.
    + intros [|d|d] [= ->]; set_solver.
    + set_solver.
    + set_solver.
    + by repeat (constructor; [eauto|]).
  - eapply (Inv_closed busy held s _ c cl [_] I Hc Hopen); fields; try done.
    + intros bus. by rewrite !filters_alter.
    + set_solver.
    + intros [|d|d] [= ->]; [set_solver|]. intros Hb.
      assert (Host c ∈ s.(a_handlers)) as Hb' by set_solver.
      destruct (inv_handlers _ _ _ I _ Hb') as (d & dl & [= <-] & Hd & _ & Hh).
      simplify_eq. by rewrite Hh in Hhost.
    + intros Hb. destruct (inv_watches _ _ _ I _ Hb) as (dl & ? & _ & Hh).
      simplify_eq. congruence.
    + by repeat (constructor; [eauto|]).
Qed.

Lemma Inv_connection_closed busy held s c bus :
  Inv busy held s → client_of bus = Some c → bus ∈ s.(a_handlers) →
  ok (connection_closed c s) (Inv busy held).
Proof.
  intros I Hbus Hb. destruct (inv_handlers _ _ _ I _ Hb) as (d & cl & Hd & Hc & _).
  assert (d = c) as -> by congruence. unfold connection_closed. apply ok_bind.
  eapply ok_weaken; [exact (Inv_client_ref _ _ _ _ _ I Hc)|].
  intros s' [I' ->]. fields. rewrite lookup_insert_eq. cbn [mbind option_bind]. fields.
  apply ok_bind. eapply ok_weaken; [apply Inv_clients_remove, I'|].
  intros s'' I''. by apply Inv_client_unref.
Qed.

Lemma Inv_filter_released busy held s c bus f :
  Inv busy held s → client_of bus = Some c → s.(a_filters) !! bus = Some f →
  ok (filter_released bus c s) (Inv busy held).
Proof.
  intros I Hbus Hf. unfold filter_released. apply Inv_client_unref.
  destruct (inv_filters _ _ _ I _ _ Hf) as (d & dl0 & Hd & Hlive & _).
  assert (d = c) as -> by congruence.
  assert (∀ k, count s.(a_filters) k =
    ((if decide (k = bus) then 1 else 0) + count (delete bus s.(a_filters)) k)%nat) as Hcount.
  { intros k. unfold count. case_decide as Hk.
    - subst. by rewrite Hf, lookup_delete_eq.
    - by rewrite lookup_delete_ne. }
  assert (∀ d, ((if decide (Peer d = bus) then 1 else 0) + (if decide (Host d = bus) then 1 else 0)
    = if decide (Some c = Some d) then 1 else 0)%nat) as Hone.
  { intros e. destruct bus; simplify_eq/=; repeat case_decide; simplify_eq; lia. }
  destruct I. constructor; fields; try done.
  - intros d dl Hdl. destruct (inv_refs0 _ _ Hdl) as [Hr ?]. split; [|done]. rewrite Hr.
    unfold holders. fields. rewrite (Hcount (Peer d)), (Hcount (Host d)), !occurrences_app,
      occurrences_cons, <- Hone. lia.
  - intros d [?|[?|?]%elem_of_cons]%elem_of_app; [|simplify_eq; by eexists|];
      apply inv_pointers0; set_solver.
  - intros b g Hb. split_lookup. eauto.
Qed.

(** ** Calls *)

Lemma answers_to_sent id i o r t m trace :
  answers_to id (SendCall i o r t m :: trace) = answers_to id trace.
Proof. done. Qed.

Lemma Inv_new_call busy held s c cl k m :
  Inv busy held s → s.(a_heap) !! c = Some cl → cl.(c_outstanding) < 64 →
  k.(k_client) = c → k.(k_delivered) = false →
  (k.(k_register_agent) = true → conf.(broker) = true ∧ conf.(admin) = true) →
  (asks_permissions k.(k_request) → k.(k_permissions) = true) →
  effect_ok (SendCall s.(a_next) k.(k_origin) k.(k_request) k.(k_target) m) →
  Inv busy held
    (emit (SendCall s.(a_next) k.(k_origin) k.(k_request) k.(k_target) m)
      (set_a_next (S s.(a_next)) (set_a_calls (<[s.(a_next) := k]> s.(a_calls))
        (set_a_heap (<[c := set_c_outstanding (cl.(c_outstanding) + 1)
                              (set_c_pending_calls (s.(a_next) :: cl.(c_pending_calls))
                                (set_c_refs (cl.(c_refs) + 1) cl))]> s.(a_heap)) s)))).
Proof.
  intros I Hc Hlim Hkc Hkd Hreg Hperm He.
  assert (s.(a_calls) !! s.(a_next) = None) as Hnew.
  { apply eq_None_not_Some. intros [k' Hk].
    destruct (inv_live _ _ _ I _ _ Hk) as [[m' Hm] _].
    apply (inv_sent _ _ _ I) in Hm as [? _]. lia. }
  destruct (inv_clients _ _ _ I _ _ Hc) as [Hcl Hcn].
  assert (s.(a_next) ∉ cl.(c_pending_calls)) as Hnp.
  { intros Hin. destruct (inv_pending _ _ _ I _ _ _ Hc Hin) as (k' & ? & _). congruence. }
  set (cl' := set_c_outstanding _ _).
  assert (client_ok cl') as Hcl'.
  { destruct Hcl. subst cl'. constructor; fields; try done; cbn [length]; try lia.
    by constructor. }
  destruct I. constructor; fields.
  - intros name d Hd. destruct (inv_table0 _ _ Hd) as (dl & Hdl & ? & ?).
    destruct (decide (d = c)) as [->|?].
    + simplify_eq. exists cl'. by rewrite lookup_insert_eq.
    + exists dl. by rewrite lookup_insert_ne by done.
  - intros d dl Hd Hopen. split_lookup; [|by eauto]. by apply (inv_open0 _ cl).
  - intros d dl Hd. apply lookup_insert_Some in Hd as [[<- <-]|[Hne Hd]].
    + destruct (inv_refs0 _ _ Hc) as [Hr ?]. unfold holders in *. subst cl'. fields.
      cbn [length]. split; lia.
    + destruct (inv_refs0 _ _ Hd) as [Hr ?]. split; [|done]. rewrite Hr. f_equal.
  - intros d Hd. by apply lookup_insert_is_Some'; right; apply inv_pointers0.
  - intros bus f Hf. destruct (inv_filters0 _ _ Hf) as (d & dl & ? & ? & ?).
    exists d. destruct (decide (d = c)) as [->|?].
    + simplify_eq. exists cl'. by rewrite lookup_insert_eq.
    + exists dl. by rewrite lookup_insert_ne by done.
  - intros bus Hb. destruct (inv_handlers0 _ Hb) as (d & dl & Hd & Hl & ? & ?).
    exists d. destruct (decide (d = c)) as [->|?].
    + simplify_eq. exists cl'. by rewrite lookup_insert_eq.
    + exists dl. by rewrite lookup_insert_ne by done.
  - intros d Hd. destruct (inv_watches0 _ Hd) as (dl & ? & ? & ?).
    destruct (decide (d = c)) as [->|?].
    + simplify_eq. exists cl'. by rewrite lookup_insert_eq.
    + exists dl. by rewrite lookup_insert_ne by done.
  - intros id k' Hk. split_lookup.
    + exists cl'. rewrite lookup_insert_eq. split; [done|]. subst cl'. fields. set_solver.
    + destruct (inv_calls0 _ _ Hk) as (dl & Hdl & Hin).
      destruct (decide (k'.(k_client) = k.(k_client))) as [Heq|?].
      * rewrite Heq in *. simplify_eq. exists cl'. rewrite lookup_insert_eq.
        split; [done|]. subst cl'. fields. set_solver.
      * exists dl. by rewrite lookup_insert_ne by done.
  - intros d dl id Hd Hin. apply lookup_insert_Some in Hd as [[<- <-]|[Hne Hd]].
    + subst cl'. fields. apply elem_of_cons in Hin as [->|Hin].
      * exists k. by rewrite lookup_insert_eq.
      * destruct (inv_pending0 _ _ _ Hc Hin) as (k' & ? & ?). exists k'.
        rewrite lookup_insert_ne; [done|]. congruence.
    + destruct (inv_pending0 _ _ _ Hd Hin) as (k' & ? & ?). exists k'.
      rewrite lookup_insert_ne; [done|]. congruence.
  - intros d dl Hd. split_lookup; [split; [done|lia]|].
    destruct (inv_clients0 _ _ Hd). split; [done|lia].
  - done.
  - done.
  - done.
  - intros id o r t m' [Heq|Hin]%elem_of_cons; rewrite answers_to_sent.
    + simplify_eq. rewrite lookup_insert_eq, Hkd. split_and!; [lia|done..|]. by apply inv_unsent0.
    + destruct (inv_sent0 _ _ _ _ _ Hin) as [? Hans]. split; [lia|].
      rewrite lookup_insert_ne by lia. exact Hans.
  - intros id Hid. rewrite answers_to_sent. apply inv_unsent0. lia.
  - intros id k' Hk. apply lookup_insert_Some in Hk as [[<- <-]|[Hne Hk]].
    + split; [|done]. exists m. by apply elem_of_cons; left.
    + destruct (inv_live0 _ _ Hk) as [[m' Hm] ?]. split; [|done]. exists m'.
      by apply elem_of_cons; right.
  - by constructor.
Qed.

Lemma asks_permissions_flag request :
  asks_permissions request →
  str_is request.(m_interface) NM && str_is request.(m_member) (str "GetPermissions") = true.
Proof. intros [? ?]. by rewrite andb_true_iff, !str_is_spec. Qed.

Lemma clear_no_reply_spec flags : Z.testbit (clear_no_reply flags) 0 = false.
Proof. unfold clear_no_reply, NO_REPLY_EXPECTED. by rewrite Z.land_spec, andb_false_r. Qed.

Lemma Inv_forward busy held s env c cl origin target request destination :
  Inv busy held s → s.(a_heap) !! c = Some cl →
  (conf.(broker) = true → origin = Peer c →
   request.(m_interface) = Some (NM ++ str ".AgentManager") → conf.(admin) = true) →
  (∀ id, effect_ok (SendCall id origin request target
    (set_flags (spaces_message_copy request destination)
       (clear_no_reply (spaces_message_copy request destination).(m_flags))))) →
  ok (forward conf env c origin target request destination s) (Inv busy held).
Proof.
  intros I Hc Hagent He. unfold forward. rewrite Hc. cbn [mbind option_bind].
  case_decide as Hlim; [by apply ok_ret, Inv_emit|].
  unfold client_ref. rewrite (update_client_Some _ _ _ _ Hc). cbn [mbind option_bind].
  erewrite update_client_Some by (fields; apply lookup_insert_eq).
  cbn [mbind option_bind]. apply ok_ret. fields. rewrite insert_insert_eq.
  match goal with |- context [<[a_next s := ?k]> (a_calls s)] =>
    apply (Inv_new_call busy held s c cl k) end; fields; try done; try lia.
  - intros [Hag _]%andb_true_iff. rewrite !andb_true_iff, bool_decide_eq_true in Hag.
    destruct Hag as [[Hb Ho] Hi]. apply str_is_spec in Hi. auto.
  - apply asks_permissions_flag.
Qed.

(** ** Answers *)

Lemma Inv_answer busy held s id k e :
  Inv busy held s → s.(a_calls) !! id = Some k → k.(k_delivered) = false →
  (∀ i, answer_of i e = if decide (id = i) then Some (k.(k_origin), k.(k_request)) else None) →
  (∀ i o r t m, e ≠ SendCall i o r t m) → effect_ok e →
  Inv busy held (emit e (set_a_calls (<[id := set_k_delivered true k]> s.(a_calls)) s)).
Proof.
  intros I Hk Hd Hans Hne He. destruct I. constructor; fields; try done.
  - intros i k' Hk'. split_lookup; fields; eauto.
  - intros c cl i Hc Hin. destruct (inv_pending0 _ _ _ Hc Hin) as (k' & Hk' & ?).
    destruct (decide (i = id)) as [->|?].
    + simplify_eq. eexists. by rewrite lookup_insert_eq.
    + exists k'. by rewrite lookup_insert_ne by done.
  - intros i o r t m [Heq|Hin]%elem_of_cons; [by destruct (Hne i o r t m)|].
    destruct (inv_sent0 _ _ _ _ _ Hin) as [? Ha]. split; [done|].
    unfold answers_to in *. cbn [omap list_omap]. rewrite Hans. case_decide as Hi.
    + subst i. rewrite lookup_insert_eq. fields. rewrite Hk, Hd in Ha.
      destruct Ha as (-> & -> & ->). done.
    + by rewrite lookup_insert_ne by done.
  - intros i Hi. unfold answers_to in *. cbn [omap list_omap]. rewrite Hans.
    destruct (inv_live0 _ _ Hk) as [[m' Hm] _]. apply inv_sent0 in Hm as [? _].
    rewrite decide_False by lia. by apply inv_unsent0.
  - intros i k' Hk'. apply lookup_insert_Some in Hk' as [[<- <-]|[Hni Hk']]; fields.
    + destruct (inv_live0 _ _ Hk) as [[m' Hm] ?]. split; [|done]. exists m'.
      by apply elem_of_cons; right.
    + destruct (inv_live0 _ _ Hk') as [[m' Hm] ?]. split; [|done]. exists m'.
      by apply elem_of_cons; right.
  - by constructor.
Qed.


(** Rewriting fields that no reference depends on. *)
Lemma Inv_modify busy held s c cl cl' :
  Inv busy held s → s.(a_heap) !! c = Some cl →
  cl'.(c_name) = cl.(c_name) → cl'.(c_closed) = cl.(c_closed) →
  cl'.(c_pending_calls) = cl.(c_pending_calls) → cl'.(c_refs) = cl.(c_refs) →
  cl'.(c_has_host) = cl.(c_has_host) → (client_ok cl → client_ok cl') →
  Inv busy held (set_a_heap (<[c := cl']> s.(a_heap)) s).
Proof.
  intros I Hc Hn Hcl Hp Hr Hh Hok.
  apply (Inv_write busy held held s c cl); try done.
  - by rewrite Hh.
  - auto.
  - lia.
  - rewrite Hr. apply (inv_refs _ _ _ I _ _ Hc).
Qed.

Lemma Inv_agent busy held s c cl b :
  Inv busy held s → s.(a_heap) !! c = Some cl →
  (b = true → conf.(broker) = true ∧ conf.(admin) = true) →
  Inv busy held (set_a_heap (<[c := set_c_agent b cl]> s.(a_heap)) s).
Proof.
  intros I Hc Hb. apply (Inv_modify busy held s c cl); try done.
  intros []. by constructor.
Qed.

Lemma hide_permissions_no body copy :
  copy.(m_body) = body → all_no (hide_permissions body copy).(m_body).
Proof.
  intros Heq. unfold hide_permissions.
  destruct body as [[|[| | |es|] [|]]|]; try (rewrite Heq; done).
  apply Forall_fmap. by apply Forall_true.
Qed.

Lemma answer_visible busy held s id k cl reply :
  Inv busy held s → s.(a_calls) !! id = Some k → s.(a_heap) !! k.(k_client) = Some cl →
  effect_ok (Answer id k.(k_origin) k.(k_request)
    (let copy := set_reply_serial (spaces_message_copy reply k.(k_request).(m_sender))
                   k.(k_request).(m_serial) in
     if k.(k_permissions) && negb cl.(c_admin) then hide_permissions reply.(m_body) copy
     else copy)).
Proof.
  intros I Hk Hc. simpl. intros Hb Ha Hp Ht.
  destruct (inv_live _ _ _ I _ _ Hk) as (_ & _ & ->); [|done].
  destruct (inv_clients _ _ _ I _ _ Hc) as [Hok _].
  destruct (cl.(c_admin)) eqn:Had; [by rewrite (ok_admin _ Hok) in Ha|].
  by apply hide_permissions_no.
Qed.

Lemma Inv_deliver_reply busy held s id k reply :
  Inv busy held s → s.(a_calls) !! id = Some k → k.(k_delivered) = false →
  ok (deliver_reply id reply s) (λ s', Inv busy held s' ∧
    s'.(a_calls) !! id = Some (set_k_delivered true k)).
Proof.
  intros I Hk Hd. destruct (inv_calls _ _ _ I _ _ Hk) as (cl & Hc & _).
  destruct (inv_live _ _ _ I _ _ Hk) as (_ & Hreg & _).
  unfold deliver_reply, update_call. rewrite Hk. cbn [mbind option_bind].
  rewrite Hc. cbn [mbind option_bind].
  assert (∀ s' e, Inv busy held s' → s'.(a_calls) = s.(a_calls) →
    (∀ i, answer_of i e = if decide (id = i) then Some (k.(k_origin), k.(k_request)) else None) →
    (∀ i o r t m, e ≠ SendCall i o r t m) → effect_ok e →
    Inv busy held (emit e (set_a_calls (<[id := set_k_delivered true k]> s.(a_calls)) s')) ∧
    <[id := set_k_delivered true k]> s.(a_calls) !! id = Some (set_k_delivered true k)) as Hans.
  { intros s' e I' Hcalls. rewrite <- Hcalls in *. rewrite lookup_insert_eq.
    split; [|done]. by apply Inv_answer. }
  destruct reply as [reply|]; [|by apply ok_ret; fields; apply Hans].
  destruct (spaces_message_bounded reply); cbn [negb]; [|by apply ok_ret; fields; apply Hans].
  case_decide as Ht.
  2: { apply ok_ret. fields. apply Hans; try done.
       intros _ _ _ Hmr. destruct (Ht Hmr). }
  assert (∀ b, update_client k.(k_client) (set_c_agent b)
      (set_a_calls (<[id:=set_k_delivered true k]> s.(a_calls)) s)
    = Some (set_a_calls (<[id:=set_k_delivered true k]> s.(a_calls))
        (set_a_heap (<[k.(k_client) := set_c_agent b cl]> s.(a_heap)) s))) as Hup.
  { intros b. unfold update_client. fields. by rewrite Hc. }
  pose proof (answer_visible _ _ _ _ _ _ reply I Hk Hc) as Hvis.
  destruct k.(k_register_agent).
  - rewrite Hup. cbn [mbind option_bind].
    pose proof (Inv_agent _ _ _ _ _ true I Hc Hreg) as I1.
    destruct k.(k_unregister_agent).
    + erewrite update_client_Some by (fields; apply lookup_insert_eq).
      cbn [mbind option_bind]. apply ok_ret. fields.
      pose proof (Inv_agent _ _ _ k.(k_client) (set_c_agent true cl) false I1
        (lookup_insert_eq _ _ _) ltac:(done)) as I2.
      by apply (Hans _ _ I2).
    + apply ok_ret. fields. by apply (Hans _ _ I1).
  - cbn [mbind option_bind]. destruct k.(k_unregister_agent).
    + rewrite Hup. cbn [mbind option_bind]. apply ok_ret. fields.
      apply (Hans (set_a_heap (<[k.(k_client) := set_c_agent false cl]> s.(a_heap)) s)); try done.
      by apply (Inv_agent _ _ _ _ _ false I Hc).
    + apply ok_ret. fields. by apply Hans.
Qed.

(** The call is freed: its reference becomes a local one. *)
Lemma Inv_end_call busy held s id k cl :
  Inv busy held s → s.(a_calls) !! id = Some k → k.(k_delivered) = true →
  s.(a_heap) !! k.(k_client) = Some cl →
  Inv busy (Some k.(k_client) :: held)
    (set_a_calls (delete id s.(a_calls))
      (set_a_heap (<[k.(k_client) :=
        set_c_outstanding (cl.(c_outstanding) - 1)
          (set_c_pending_calls (g_list_remove id cl.(c_pending_calls)) cl)]> s.(a_heap)) s)).
Proof.
  intros I Hk Hd Hc. destruct (inv_calls _ _ _ I _ _ Hk) as (cl0 & Hc0 & Hin).
  assert (cl0 = cl) as -> by congruence.
  destruct (inv_clients _ _ _ I _ _ Hc) as [Hcl Hcn].
  pose proof (g_list_remove_length _ _ Hin) as Hlen.
  pose proof (λ i, g_list_remove_elem id i _ (ok_pending _ Hcl)) as Hrem.
  set (cl' := set_c_outstanding _ _).
  assert (client_ok cl') as Hcl'.
  { destruct Hcl. subst cl'. constructor; fields; try done; try lia.
    by apply g_list_remove_NoDup. }
  destruct I. constructor; fields; try done.
  - intros name d Hd'. destruct (inv_table0 _ _ Hd') as (dl & Hdl & ? & ?).
    destruct (decide (d = k.(k_client))) as [->|?].
    + simplify_eq. exists cl'. by rewrite lookup_insert_eq.
    + exists dl. by rewrite lookup_insert_ne by done.
  - intros d dl Hd' Hopen. apply lookup_insert_Some in Hd' as [[<- <-]|[Hne Hd']]; [|by eauto].
    by apply (inv_open0 _ cl).
  - intros d dl Hd'. apply lookup_insert_Some in Hd' as [[<- <-]|[Hne Hd']].
    + destruct (inv_refs0 _ _ Hc) as [Hr ?]. unfold holders in *. subst cl'. fields.
      rewrite !occurrences_app, occurrences_cons, (decide_True (P := Some _ = Some _)) in * by done.
      split; lia.
    + destruct (inv_refs0 _ _ Hd') as [Hr ?]. split; [|done]. rewrite Hr. f_equal.
      unfold holders. fields.
      by rewrite !occurrences_app, occurrences_cons, (decide_False (P := Some _ = Some _)) by congruence.
  - intros d Hd'. destruct (decide (d = k.(k_client))) as [->|Hne]; [by rewrite lookup_insert_eq|].
    rewrite lookup_insert_ne by done. apply inv_pointers0.
    rewrite elem_of_app, elem_of_cons in *. destruct Hd' as [?|[?|?]]; [by left|congruence|by right].
  - intros bus f Hf. destruct (inv_filters0 _ _ Hf) as (d & dl & ? & ? & ?).
    exists d. destruct (decide (d = k.(k_client))) as [->|?].
    + simplify_eq. exists cl'. by rewrite lookup_insert_eq.
    + exists dl. by rewrite lookup_insert_ne by done.
  - intros bus Hb. destruct (inv_handlers0 _ Hb) as (d & dl & Hd' & Hl & ? & ?).
    exists d. destruct (decide (d = k.(k_client))) as [->|?].
    + simplify_eq. exists cl'. by rewrite lookup_insert_eq.
    + exists dl. by rewrite lookup_insert_ne by done.
  - intros d Hd'. destruct (inv_watches0 _ Hd') as (dl & ? & ? & ?).
    destruct (decide (d = k.(k_client))) as [->|?].
    + simplify_eq. exists cl'. by rewrite lookup_insert_eq.
    + exists dl. by rewrite lookup_insert_ne by done.
  - intros i k' Hk'. apply lookup_delete_Some in Hk' as [Hne Hk'].
    destruct (inv_calls0 _ _ Hk') as (dl & Hdl & Hi).
    destruct (decide (k'.(k_client) = k.(k_client))) as [Heq|?].
    + rewrite Heq in *. simplify_eq. exists cl'. rewrite lookup_insert_eq.
      split; [done|]. subst cl'. fields. by rewrite Hrem.
    + exists dl. by rewrite lookup_insert_ne by done.
  - intros d dl i Hd' Hi. apply lookup_insert_Some in Hd' as [[<- <-]|[Hne Hd']].
    + subst cl'. fields. apply Hrem in Hi as [Hi Hne].
      destruct (inv_pending0 _ _ _ Hc Hi) as (k' & ? & ?). exists k'.
      by rewrite lookup_delete_ne.
    + destruct (inv_pending0 _ _ _ Hd' Hi) as (k' & ? & ?). exists k'.
      rewrite lookup_delete_ne; [done|]. intros ->. congruence.
  - intros d dl Hd'. apply lookup_insert_Some in Hd' as [[<- <-]|[Hne Hd']]; [done|]. eauto.
  - intros i o r t m Hin'. destruct (inv_sent0 _ _ _ _ _ Hin') as [? Ha]. split; [done|].
    destruct (decide (i = id)) as [->|?].
    + rewrite lookup_delete_eq. rewrite Hk, Hd in Ha. tauto.
    + by rewrite lookup_delete_ne by done.
  - intros i k' Hk'. apply lookup_delete_Some in Hk' as [Hne Hk']. eauto.
Qed.

Lemma Inv_forward_finished busy held s id k reply :
  Inv busy held s → s.(a_calls) !! id = Some k →
  ok (forward_finished id reply s) (Inv busy held).
Proof.
  intros I Hk. unfold forward_finished. rewrite Hk. cbn [mbind option_bind].
  apply ok_bind.
  assert (ok (if k.(k_delivered) then Some s else deliver_reply id reply s)
    (λ s', Inv busy held s' ∧ ∃ k', s'.(a_calls) !! id = Some k' ∧
       k'.(k_client) = k.(k_client) ∧ k'.(k_delivered) = true)) as Hdel.
  { destruct k.(k_delivered) eqn:Hd; [by apply ok_ret; eauto|].
    eapply ok_weaken; [by apply Inv_deliver_reply|]. intros s' [I' Hk'].
    split; [done|]. by eexists. }
  eapply ok_weaken; [exact Hdel|]. clear Hdel. intros s' (I' & k' & Hk' & Hkc & Hd).
  destruct (inv_calls _ _ _ I' _ _ Hk') as (cl & Hc & _). rewrite <- Hkc.
  rewrite (update_client_Some _ _ _ _ Hc). cbn [mbind option_bind]. fields.
  apply Inv_client_unref. by apply Inv_end_call.
Qed.

(** ** Allocation and the queue *)

(** Fields the invariant does not read, or reads monotonically. *)
Lemma Inv_next busy held s n :
  Inv busy held s → (s.(a_next) ≤ n)%nat → Inv busy held (set_a_next n s).
Proof.
  intros [] Hn. constructor; fields; try done.
  - intros c cl Hc. destruct (inv_clients0 _ _ Hc). split; [done|lia].
  - intros id o r t m Hin. destruct (inv_sent0 _ _ _ _ _ Hin). split; [lia|done].
  - intros id Hid. apply inv_unsent0. lia.
Qed.

Lemma Inv_set_names busy held s names :
  Inv busy held s → Inv busy held (set_a_names names s).
Proof. intros []. by constructor. Qed.

Lemma Inv_set_guest_names busy held s names :
  Inv busy held s → Inv busy held (set_a_guest_names names s).
Proof. intros []. by constructor. Qed.

Lemma Inv_set_queued busy busy' held s queued :
  Inv busy held s → queued = s.(a_queued) + (busy' - busy) → queued ≤ 1024 →
  Inv busy' held (set_a_queued queued s).
Proof.
  intros [] Hq Hle. constructor; fields; try done. destruct inv_queued0. split; lia.
Qed.

(** A pointer moves between the queue and local variables. *)
Lemma Inv_set_queue busy busy' held held' s queue :
  Inv busy held s →
  (∀ p, p ∈ (e_client <$> queue) ++ held' → p = None ∨ p ∈ (e_client <$> s.(a_queue)) ++ held) →
  (∀ c, occurrences c ((e_client <$> queue) ++ held')
        = occurrences c ((e_client <$> s.(a_queue)) ++ held)) →
  (∀ ev, ev ∈ queue → client_of ev.(e_bus) = ev.(e_client) ∧
    (ev.(e_client) = None → conf.(broker) = false ∧ is_Some ev.(e_message).(m_sender))) →
  Z.of_nat (length queue) + busy' = Z.of_nat (length s.(a_queue)) + busy →
  Inv busy' held' (set_a_queue queue s).
Proof.
  intros [] Hin Hocc Hev Hlen. constructor; fields; try done.
  - intros c cl Hc. destruct (inv_refs0 _ _ Hc) as [Hr ?]. split; [|done]. rewrite Hr.
    f_equal. apply holders_same; [done| |done..]. fields. by rewrite Hocc.
  - intros c Hc. apply inv_pointers0. by destruct (Hin _ Hc).
  - destruct inv_queued0. split; lia.
Qed.

Lemma Inv_pop busy held s ev queue :
  Inv busy held s → s.(a_queue) = ev :: queue →
  Inv (busy + 1) (ev.(e_client) :: held) (set_a_queue queue s).
Proof.
  intros I Hq. apply (Inv_set_queue busy _ held); rewrite ?Hq; cbn [fmap list_fmap app length];
    try done.
  - set_solver.
  - intros c. rewrite occurrences_cons, !occurrences_app, occurrences_cons. lia.
  - intros ev' Hev. apply (inv_events _ _ _ I). rewrite Hq. by apply elem_of_cons; right.
  - lia.
Qed.

Lemma Inv_push busy held s ec bus m :
  Inv (busy + 1) (ec :: held) s → client_of bus = ec →
  (ec = None → conf.(broker) = false ∧ is_Some m.(m_sender)) →
  Inv busy held (set_a_queue (s.(a_queue) ++ [Event ec bus m]) s).
Proof.
  intros I Hb Hm. apply (Inv_set_queue (busy + 1) _ (ec :: held)); [done|..];
    rewrite ?fmap_app, ?length_app; cbn [fmap list_fmap e_client length].
  - set_solver.
  - intros c. rewrite !occurrences_app, !occurrences_cons, occurrences_nil. lia.
  - intros ev [Hev|Hev%list_elem_of_singleton]%elem_of_app; [by apply (inv_events _ _ _ I)|].
    by subst ev.
  - lia.
Qed.

Lemma Inv_none busy held s : Inv busy (None :: held) s ↔ Inv busy held s.
Proof.
  split.
  - intros []. constructor; try done.
    + intros c cl Hc. destruct (inv_refs0 _ _ Hc) as [Hr ?]. split; [|done]. rewrite Hr.
      f_equal. apply holders_same; [done| |done..].
      by rewrite !occurrences_app, occurrences_cons.
    + intros c Hc. apply inv_pointers0. set_solver.
  - intros []. constructor; try done.
    + intros c cl Hc. destruct (inv_refs0 _ _ Hc) as [Hr ?]. split; [|done]. rewrite Hr.
      f_equal. apply holders_same; [done| |done..].
      by rewrite !occurrences_app, occurrences_cons.
    + intros c Hc. apply inv_pointers0. set_solver.
Qed.

(** A client at a fresh address enters the table. *)
Lemma Inv_add_client busy held s c name opened admin observer :
  Inv busy held s → s.(a_heap) !! c = None → (c < s.(a_next))%nat →
  s.(a_clients) !! name = None →
  (size s.(a_clients) < if conf.(broker) then 129 else 128)%nat →
  (conf.(broker) = true → opened = false ∧ admin = false) →
  ok (add_client c (new_client name opened admin observer) s) (λ s', Inv busy held s' ∧
    s'.(a_clients) !! name = Some c).
Proof.
  intros I Hc Hlt Hname Hsize Hb. unfold add_client, add_filter, client_ref, new_client.
  erewrite update_client_Some by (fields; apply lookup_insert_eq).
  cbn [mbind option_bind]. fields. rewrite insert_insert_eq.
  erewrite update_client_Some by (fields; apply lookup_insert_eq).
  cbn [mbind option_bind]. fields. rewrite insert_insert_eq.
  apply ok_ret. fields. split; [|apply lookup_insert_eq].
  match goal with |- context [<[c := ?x]> (a_heap s)] => set (cl := x) end.
  assert (client_ok cl) as Hcl.
  { subst cl. constructor; fields; try done; try lia; try (intros Hbr; by destruct (Hb Hbr) as [-> ->]).
    constructor. }
  destruct I.
  assert (∀ p, Some p ∈ (e_client <$> s.(a_queue)) ++ held → p ≠ c) as Hptr.
  { intros p Hp ->. apply inv_pointers0 in Hp. rewrite Hc in Hp. by destruct Hp. }
  assert (occurrences c ((e_client <$> s.(a_queue)) ++ held) = 0%nat) as Hocc.
  { unfold occurrences. destruct (base.filter _ _) as [|p l] eqn:Hf; [done|exfalso].
    assert (p ∈ base.filter (λ p, p = Some c) ((e_client <$> s.(a_queue)) ++ held)) as Hp
      by (rewrite Hf; by left).
    apply list_elem_of_filter in Hp as [-> Hp]. by apply (Hptr c). }
  assert (∀ bus, client_of bus = Some c → s.(a_filters) !! bus = None) as Hnf.
  { intros bus Hbus. apply eq_None_not_Some. intros [f Hf].
    destruct (inv_filters0 _ _ Hf) as (d & dl & ? & ? & ?). congruence. }
  constructor; fields.
  - intros n d Hd. apply lookup_insert_Some in Hd as [[<- <-]|[Hne Hd]].
    + exists cl. by rewrite lookup_insert_eq.
    + destruct (inv_table0 _ _ Hd) as (dl & Hdl & ? & ?). exists dl.
      rewrite lookup_insert_ne; [done|]. congruence.
  - intros d dl Hd Hopen. apply lookup_insert_Some in Hd as [[<- <-]|[Hne Hd]].
    + subst cl. fields. apply lookup_insert_eq.
    + pose proof (inv_open0 _ _ Hd Hopen). rewrite lookup_insert_ne; [done|]. congruence.
  - intros d dl Hd. apply lookup_insert_Some in Hd as [[<- <-]|[Hne Hd]].
    + subst cl. unfold holders. fields. rewrite lookup_insert_eq, decide_True by done.
      rewrite Hocc. unfold count. rewrite lookup_insert_eq, lookup_insert_ne by done.
      rewrite Hnf by done. cbn [length]. split; lia.
    + destruct (inv_refs0 _ _ Hd) as [Hr ?]. split; [|done]. rewrite Hr. f_equal.
      unfold holders. fields. unfold count.
      rewrite (lookup_insert_ne _ (Peer c) (Peer d)), (lookup_insert_ne _ (Peer c) (Host d))
        by congruence.
      assert (<[name:=c]> s.(a_clients) !! dl.(c_name) = Some d ↔
        s.(a_clients) !! dl.(c_name) = Some d) as Hiff.
      { destruct (decide (name = dl.(c_name))) as [->|]; [|by rewrite lookup_insert_ne].
        rewrite lookup_insert_eq, Hname. split; congruence. }
      do 2 case_decide; tauto || lia.
  - intros d Hd. rewrite lookup_insert_ne; [by apply inv_pointers0|].
    intros <-. by apply (Hptr c).
  - intros bus f Hf. apply lookup_insert_Some in Hf as [[<- <-]|[Hne Hf]].
    + exists c, cl. by rewrite lookup_insert_eq.
    + destruct (inv_filters0 _ _ Hf) as (d & dl & ? & ? & ?). exists d, dl.
      rewrite lookup_insert_ne; [done|]. congruence.
  - intros bus [->%elem_of_singleton|Hb']%elem_of_union.
    + exists c, cl. by rewrite lookup_insert_eq.
    + destruct (inv_handlers0 _ Hb') as (d & dl & ? & ? & ? & ?). exists d, dl.
      rewrite lookup_insert_ne; [done|]. congruence.
  - intros d Hd. destruct (inv_watches0 _ Hd) as (dl & ? & ? & ?). exists dl.
    rewrite lookup_insert_ne; [done|]. congruence.
  - intros id k Hk. destruct (inv_calls0 _ _ Hk) as (dl & ? & ?). exists dl.
    rewrite lookup_insert_ne; [done|]. congruence.
  - intros d dl id Hd Hin. apply lookup_insert_Some in Hd as [[<- <-]|[Hne Hd]]; [|by eauto].
    subst cl. fields. by apply elem_of_nil in Hin.
  - intros d dl Hd. apply lookup_insert_Some in Hd as [[<- <-]|[Hne Hd]]; [done|]. eauto.
  - done.
  - done.
  - rewrite map_size_insert_None by done. lia.
  - done.
  - done.
  - done.
  - done.
Qed.

Lemma Inv_fresh busy held s : Inv busy held s → s.(a_heap) !! s.(a_next) = None.
Proof.
  intros I. apply eq_None_not_Some. intros [cl Hc].
  apply (inv_clients _ _ _ I) in Hc as [_ ?]. lia.
Qed.


(** The host connection of a client that has just opened. *)
Lemma Inv_open_host busy held s c cl cl' :
  Inv busy held s → s.(a_heap) !! c = Some cl → cl.(c_closed) = false →
  cl.(c_has_host) = false → conf.(broker) = true →
  cl'.(c_has_host) = true → cl'.(c_refs) = cl.(c_refs) + 1 →
  cl'.(c_name) = cl.(c_name) → cl'.(c_closed) = false →
  cl'.(c_pending_calls) = cl.(c_pending_calls) → client_ok cl' →
  Inv busy held
    (set_a_heap (<[c := cl']> s.(a_heap))
      (set_a_watches ({[c]} ∪ s.(a_watches))
        (set_a_handlers ({[Host c]} ∪ s.(a_handlers))
          (set_a_filters (<[Host c := Installed]> s.(a_filters)) s)))).
Proof.
  intros I Hc Hopen Hhost Hb Hhost' Hrefs Hname Hopen' Hpend Hcl'.
  destruct (inv_clients _ _ _ I _ _ Hc) as [_ Hcn].
  assert (s.(a_filters) !! Host c = None) as Hnf.
  { apply eq_None_not_Some. intros [f Hf].
    destruct (inv_filters _ _ _ I _ _ Hf) as (d & dl & [= <-] & ? & Hh). simplify_eq.
    rewrite Hh in Hhost; done. }
  destruct I. constructor; fields; try done.
  - intros n d Hd. destruct (inv_table0 _ _ Hd) as (dl & Hdl & ? & ?).
    destruct (decide (d = c)) as [->|?].
    + simplify_eq. exists cl'. by rewrite lookup_insert_eq.
    + exists dl. by rewrite lookup_insert_ne by done.
  - intros d dl Hd Ho. apply lookup_insert_Some in Hd as [[<- <-]|[Hne Hd]]; [|by eauto].
    rewrite Hname. by apply inv_open0.
  - intros d dl Hd. apply lookup_insert_Some in Hd as [[<- <-]|[Hne Hd]].
    + destruct (inv_refs0 _ _ Hc) as [Hr ?]. unfold holders, count in *. fields.
      rewrite Hname, Hpend, lookup_insert_eq, lookup_insert_ne by done.
      rewrite Hnf in Hr. split; lia.
    + destruct (inv_refs0 _ _ Hd) as [Hr ?]. split; [|done]. rewrite Hr. f_equal.
      unfold holders, count. fields. by rewrite !lookup_insert_ne by congruence.
  - intros d Hd. by apply lookup_insert_is_Some'; right; apply inv_pointers0.
  - intros bus f Hf. destruct (decide (client_of bus = Some c)) as [Hbc|Hbc].
    + exists c, cl'. by rewrite lookup_insert_eq.
    + rewrite lookup_insert_ne in Hf by (intros <-; by destruct Hbc).
      destruct (inv_filters0 _ _ Hf) as (d & dl & ? & ? & ?). exists d, dl.
      rewrite lookup_insert_ne; [done|]. congruence.
  - intros bus Hbus. destruct (decide (client_of bus = Some c)) as [Hbc|Hbc].
    + exists c, cl'. by rewrite lookup_insert_eq.
    + apply elem_of_union in Hbus as [->%elem_of_singleton|Hbus]; [by destruct Hbc|].
      destruct (inv_handlers0 _ Hbus) as (d & dl & ? & ? & ? & ?). exists d, dl.
      rewrite lookup_insert_ne; [done|]. congruence.
  - intros d Hd. destruct (decide (d = c)) as [->|?].
    + exists cl'. by rewrite lookup_insert_eq.
    + destruct (inv_watches0 d) as (dl & ? & ? & ?); [set_solver|]. exists dl.
      by rewrite lookup_insert_ne by done.
  - intros id k Hk. destruct (inv_calls0 _ _ Hk) as (dl & Hdl & Hin).
    destruct (decide (k.(k_client) = c)) as [Heq|?].
    + rewrite Heq in *. simplify_eq. exists cl'. by rewrite lookup_insert_eq, Hpend.
    + exists dl. by rewrite lookup_insert_ne by done.
  - intros d dl id Hd Hin. apply lookup_insert_Some in Hd as [[<- <-]|[Hne Hd]]; [|by eauto].
    rewrite Hpend in Hin. eauto.
  - intros d dl Hd. apply lookup_insert_Some in Hd as [[<- <-]|[Hne Hd]]; [done|]. eauto.
Qed.

Lemma Inv_open_client busy held s env c cl request :
  Inv busy held s → s.(a_heap) !! c = Some cl → cl.(c_closed) = false →
  conf.(broker) = true → ok (open_client conf env c request s) (Inv busy held).
Proof.
  intros I Hc Hopen Hb. unfold open_client. rewrite Hc. cbn [mbind option_bind].
  destruct (inv_clients _ _ _ I _ _ Hc) as [Hcl _].
  destruct (cl.(c_opened)) eqn:Hopened; [by apply ok_ret, Inv_emit|].
  assert (cl.(c_has_host) = false) as Hhost by (by rewrite <- (ok_opened _ Hcl)).
  destruct request.(m_body) as [[|[| uid | | |] [|[| | observer | |] [|]]]|];
    try by apply ok_ret, Inv_emit.
  rewrite (update_client_Some _ _ _ _ Hc). cbn [mbind option_bind].
  assert (Inv busy held
    (set_a_heap (<[c := set_c_observer observer cl]> s.(a_heap)) s)) as I1.
  { apply (Inv_modify busy held s c cl); try done. intros []. by constructor. }
  destruct (host_connects env); cbn [negb]; [|by apply ok_ret, Inv_emit].
  unfold initialize_host, add_filter, client_ref.
  repeat (erewrite update_client_Some by (fields; apply lookup_insert_eq);
          cbn [mbind option_bind]; fields; rewrite ?insert_insert_eq).
  rewrite lookup_insert_eq. cbn [mbind option_bind]. apply ok_ret.
  apply Inv_emit; [|done..].
  eapply (Inv_open_host busy held s c cl); try done. fields.
  destruct Hcl. constructor; fields; try done.
  - by rewrite ok_filters0.
  - intros _ [? _]%andb_true_iff. done.
Qed.

Lemma Inv_relay_client busy held s env sender observer :
  Inv busy held s → conf.(broker) = false →
  ∃ s' o, relay_client env sender observer s = Some (s', o) ∧ Inv busy held s' ∧
    ∀ c, o = Some c → s'.(a_clients) !! sender = Some c.
Proof.
  intros I Hb. unfold relay_client.
  destruct (s.(a_clients) !! sender) as [c|] eqn:Ht.
  { exists s, (Some c). split_and!; [done..|]. by intros ? [= <-]. }
  case_decide as Hsize; [by exists s, None|].
  destruct (if observer then Some 0 else uid_reply env) as [uid|]; [|by exists s, None].
  destruct (peer_connects env); cbn [negb]; [|by exists s, None].
  assert (Inv busy held (emit (OpenCall s.(a_next) uid observer)
    (set_a_next (S s.(a_next)) s))) as I1.
  { apply Inv_emit; [|done..]. apply Inv_next; [done|lia]. }
  destruct (open_reply env) as [adm|].
  2: { eexists _, None. split; [done|]. split; [by apply Inv_emit|done]. }
  destruct (Inv_add_client busy held _ s.(a_next) sender true adm observer I1)
    as (s' & -> & I' & Hin); fields; try done.
  - by apply Inv_fresh with busy held.
  - lia.
  - rewrite Hb. lia.
  - by rewrite Hb.
  - eexists s', _. split; [done|]. split; [done|]. by intros c [= <-].
Qed.

(** ** Routing *)

Lemma Inv_handle_guest_call busy held s env ev :
  Inv busy held s → conf.(broker) = false → is_Some ev.(e_message).(m_sender) →
  ev.(e_bus) = Bus → ok (handle_guest_call conf env ev s) (Inv busy held).
Proof.
  intros I Hb [sender Hs] Hbus. unfold handle_guest_call. rewrite Hs.
  cbn [mbind option_bind].
  destruct (Inv_relay_client busy held s env sender false I Hb) as (s' & o & -> & I' & Ho).
  cbn [mbind option_bind].
  destruct o as [c|]; [|by apply ok_ret, Inv_emit].
  destruct (inv_table _ _ _ I' _ _ (Ho c eq_refl)) as (cl & Hc & _).
  rewrite Hc. cbn [mbind option_bind].
  destruct (system_call_allowed _ _) eqn:Hal; cbn [negb]; [|by apply ok_ret, Inv_emit].
  apply Inv_forward with cl; [done..|by rewrite Hb|].
  intros id. simpl effect_ok. rewrite Hb. split; [apply clear_no_reply_spec|].
  split; [done|]. rewrite allowed_copy.
  revert Hal. by apply allowed_monotone.
Qed.

Lemma Inv_handle_broker_call busy held s env c cl ev :
  Inv busy held s → s.(a_heap) !! c = Some cl → cl.(c_closed) = false →
  conf.(broker) = true → ok (handle_broker_call conf env c ev s) (Inv busy held).
Proof.
  intros I Hc Hopen Hb. unfold handle_broker_call. rewrite Hc. cbn [mbind option_bind].
  destruct (str_is _ _ && _ && _); [by eapply Inv_open_client|].
  destruct (cl.(c_opened)) eqn:Hopened; cbn [negb orb]; [|by apply ok_ret, Inv_emit].
  destruct (cl.(c_observer)); cbn [orb]; [by apply ok_ret, Inv_emit|].
  destruct (system_call_allowed _ _) eqn:Hal; cbn [negb]; [|by apply ok_ret, Inv_emit].
  destruct (inv_clients _ _ _ I _ _ Hc) as [Hcl _].
  rewrite <- (ok_opened _ Hcl Hb), Hopened. cbn [negb].
  assert (system_call_allowed ev.(e_message) conf.(admin) = true) as Hal'.
  { revert Hal. apply allowed_monotone. by apply (ok_admin _ Hcl). }
  apply Inv_forward with cl; [done..| |].
  - intros _ _ Hi. by apply (allowed_agent_manager _ _ Hi).
  - intros id. simpl effect_ok. split; [apply clear_no_reply_spec|].
    split; [done|]. split; [done|]. by rewrite allowed_copy.
Qed.

Lemma signal_service_spec cl m service :
  signal_service cl m = Some service →
  (service < 3)%nat ∧ service_path service m.(m_path) = true.
Proof.
  unfold signal_service. intros H.
  repeat case_match; simplify_eq;
    match goal with H : _ && _ = true |- _ => apply andb_true_iff in H as [_ ?] end;
    (split; [lia|done]).
Qed.

Lemma Inv_forward_host_signal busy held s c cl ev :
  Inv busy held s → s.(a_heap) !! c = Some cl → conf.(broker) = true →
  ok (forward_host_signal c ev s) (Inv busy held).
Proof.
  intros I Hc Hb. unfold forward_host_signal. rewrite Hc. cbn [mbind option_bind].
  destruct (signal_service _ _) as [service|] eqn:Hs; [|by apply ok_ret].
  destruct (_ && _); [by apply ok_ret|]. apply ok_ret, Inv_emit; [done| |done..].
  apply signal_service_spec in Hs as [??]. simpl. split_and!; try done. by exists service.
Qed.

Lemma Inv_forward_peer_signal busy held s c cl ev :
  Inv busy held s → s.(a_heap) !! c = Some cl → conf.(broker) = false →
  ok (forward_peer_signal c ev s) (Inv busy held).
Proof.
  intros I Hc Hb. unfold forward_peer_signal. rewrite Hc. cbn [mbind option_bind].
  assert (∀ name s', Inv busy held s' →
    Inv busy held (send_message Bus (spaces_message_copy ev.(e_message) (Some name)) s'))
    as Hsend.
  { intros name s' I'. by apply Inv_emit. }
  destruct (str_is _ _ && _).
  - destruct ev.(e_message).(m_body) as [[|[name| | | |] [|]]|]; try by apply ok_ret.
    destruct (negb _); [by apply ok_ret|].
    destruct (service_index _) as [service|]; [|by apply ok_ret].
    apply ok_ret. unfold rediscover. apply Inv_emit; [|done..]. apply Inv_set_names.
    destruct (nth _ _ _); [by apply Inv_emit|done].
  - destruct (service_index _) as [service|]; [|by apply ok_ret].
    destruct (service_path _ _); [|by apply ok_ret].
    destruct (cl.(c_observer)); [|by apply ok_ret, Hsend].
    apply ok_ret. generalize (observed_names s). intros names. revert s I Hc.
    induction names as [|name names IH]; intros s I Hc; [done|].
    cbn [foldl]. apply IH; [by apply Hsend|done].
Qed.

Lemma Inv_handle_agent_callback busy held s env c cl ev :
  Inv busy held s → s.(a_heap) !! c = Some cl →
  (conf.(broker) = true → ev.(e_bus) ≠ Peer c) →
  ok (handle_agent_callback conf env c ev s) (Inv busy held).
Proof.
  intros I Hc Hbus. unfold handle_agent_callback. rewrite Hc. cbn [mbind option_bind].
  destruct (callback_permitted _ _ _) eqn:Hp; cbn [negb]; [|by apply ok_ret, Inv_emit].
  apply andb_true_iff in Hp as [Hcb Hp].
  destruct (inv_clients _ _ _ I _ _ Hc) as [Hcl _].
  apply Inv_forward with cl; [done..| |].
  - intros Hb Ho. by destruct (Hbus Hb).
  - intros id. destruct (conf.(broker)) eqn:Hb; simpl effect_ok; rewrite Hb;
      (split; [apply clear_no_reply_spec|]).
    + apply andb_true_iff in Hp as [Ha _]. destruct (ok_agent _ Hcl Ha). by split_and!.
    + by split_and!.
Qed.

(** ** Entry points *)

Lemma pending_call_Some busy held s bus serial pending :
  (∀ id, id ∈ pending → is_Some (s.(a_calls) !! id)) → Inv busy held s →
  ∃ o, pending_call s bus serial pending = Some o ∧
    ∀ id, o = Some id → ∃ k, s.(a_calls) !! id = Some k ∧ k.(k_delivered) = false.
Proof.
  intros Hlive I. induction pending as [|id pending IH]; cbn [pending_call].
  { by exists None. }
  destruct (Hlive id) as [k Hk]; [by left|]. rewrite Hk. cbn [mbind option_bind].
  destruct (k.(k_delivered)) eqn:Hd; cbn [negb andb].
  - apply IH. intros i Hi. apply Hlive. by right.
  - destruct (_ && _).
    + exists (Some id). split; [done|]. intros ? [= <-]. eauto.
    + apply IH. intros i Hi. apply Hlive. by right.
Qed.

Lemma Inv_dispatch_event busy held s env ev :
  Inv busy held s → client_of ev.(e_bus) = ev.(e_client) →
  (ev.(e_client) = None → conf.(broker) = false ∧ is_Some ev.(e_message).(m_sender)) →
  (∀ c, ev.(e_client) = Some c → is_Some (s.(a_heap) !! c)) →
  ok (dispatch_event conf env ev s) (Inv busy held).
Proof.
  intros I Hbus Hnone Hlive. unfold dispatch_event.
  destruct ev.(e_client) as [c|] eqn:Hec.
  - destruct (Hlive c eq_refl) as [cl Hc]. rewrite Hc. cbn [mbind option_bind].
    destruct (cl.(c_closed)) eqn:Hopen; [by apply ok_ret|].
    destruct (is_reply _).
    + destruct (pending_call_Some busy held s ev.(e_bus) ev.(e_message).(m_reply_serial)
        cl.(c_pending_calls)) as (o & -> & Ho); [|done|].
      { intros id Hin. destruct (inv_pending _ _ _ I _ _ _ Hc Hin) as (k & ? & _). eauto. }
      cbn [mbind option_bind]. destruct o as [id|]; [|by apply ok_ret].
      destruct (Ho id eq_refl) as (k & Hk & Hd).
      eapply ok_weaken; [exact (Inv_deliver_reply _ _ _ _ k _ I Hk Hd)|].
      by intros s' [? _].
    + unfold route_event. rewrite Hec.
      destruct (spaces_message_bounded _); cbn [negb].
      2: { apply ok_ret. case_decide; [by apply Inv_emit|done]. }
      destruct (conf.(broker)) eqn:Hb; cbn [andb].
      * case_bool_decide as Hp; [by eapply Inv_handle_broker_call|].
        destruct (m_type _); try by apply ok_ret.
        -- by eapply Inv_handle_agent_callback.
        -- by eapply Inv_forward_host_signal.
      * destruct (m_type _); try by apply ok_ret.
        -- eapply Inv_handle_agent_callback; [done..|]. by rewrite Hb.
        -- by eapply Inv_forward_peer_signal.
  - unfold route_event. rewrite Hec. destruct (Hnone eq_refl) as [Hb Hs].
    destruct (spaces_message_bounded _); cbn [negb].
    2: { apply ok_ret. case_decide; [by apply Inv_emit|done]. }
    rewrite Hb. apply Inv_handle_guest_call; try done. by destruct (e_bus ev).
Qed.

Lemma Inv_process_event s env :
  Inv 0 [] s → s.(a_queue) ≠ [] → ok (process_event conf env s) (Inv 0 []).
Proof.
  intros I Hne. unfold process_event. destruct s.(a_queue) as [|ev queue] eqn:Hq; [done|].
  destruct (inv_events _ _ _ I ev) as [Hbus Hnone]; [rewrite Hq; by left|].
  pose proof (Inv_pop _ _ _ _ _ I Hq) as I1. apply ok_bind.
  eapply ok_weaken; [apply Inv_dispatch_event; try done|].
  { intros c Hc. apply (inv_pointers _ _ _ I1). rewrite Hc. set_solver. }
  cbv beta. intros s' I'. pose proof (inv_queued _ _ _ I') as [Hqd Hle].
  assert (Inv 0 [ev.(e_client)] (set_a_queued (s'.(a_queued) - 1) s')) as I2.
  { apply (Inv_set_queued _ _ _ _ _ I'); lia. }
  destruct ev.(e_client) as [c|]; [by apply Inv_client_unref|].
  apply ok_ret. by apply Inv_none.
Qed.

Lemma Inv_queue_message s client bus m :
  Inv 0 [] s → client_of bus = client →
  (client = None → conf.(broker) = false ∧ is_Some m.(m_sender)) →
  (∀ c, client = Some c → is_Some (s.(a_heap) !! c)) →
  ok (queue_message client bus m s) (Inv 0 []).
Proof.
  intros I Hbus Hnone Hlive. unfold queue_message. fields.
  destruct (inv_queued _ _ _ I) as [Hqd Hle]. case_decide as Hfull.
  - apply ok_ret.
    assert (Inv 0 [] (set_a_queued (s.(a_queued) + 1 - 1) s)) as I1.
    { apply (Inv_set_queued _ _ _ _ _ I); lia. }
    case_decide; [by apply Inv_emit|done].
  - assert (Inv 1 [] (set_a_queued (s.(a_queued) + 1) s)) as I1.
    { apply (Inv_set_queued _ _ _ _ _ I); lia. }
    apply ok_bind. apply ok_weaken with (Inv 1 [client]).
    + destruct client as [c|].
      * destruct (Hlive c eq_refl) as [cl Hc].
        eapply ok_weaken; [exact (Inv_client_ref _ _ _ c cl I1 Hc)|]. by intros s' [? _].
      * apply ok_ret. by apply Inv_none.
    + intros s' I'. apply ok_ret. by apply Inv_push.
Qed.

Lemma Inv_owners busy held s c cl owners :
  Inv busy held s → s.(a_heap) !! c = Some cl → length owners = 3%nat →
  Inv busy held (set_a_heap (<[c := set_c_owners owners cl]> s.(a_heap)) s).
Proof.
  intros I Hc Hlen. apply (Inv_modify busy held s c cl); try done.
  intros []. by constructor.
Qed.

Lemma Inv_appeared busy held s c service owner :
  Inv busy held s → c ∈ s.(a_watches) → ok (appeared c service owner s) (Inv busy held).
Proof.
  intros I Hw. destruct (inv_watches _ _ _ I _ Hw) as (cl & Hc & _).
  destruct (inv_clients _ _ _ I _ _ Hc) as [Hcl _].
  unfold appeared. rewrite (update_client_Some _ _ _ _ Hc). cbn [mbind option_bind]. fields.
  rewrite lookup_insert_eq. cbn [mbind option_bind]. fields. apply ok_ret.
  assert (Inv busy held (set_a_heap (<[c :=
    set_c_owners (<[service := Some owner]> cl.(c_owners)) cl]> s.(a_heap)) s)) as I1.
  { apply Inv_owners; [done..|]. rewrite length_insert. apply Hcl. }
  destruct (cl.(c_observer)); [by apply Inv_emit|done].
Qed.

Lemma Inv_vanished busy held s c service :
  Inv busy held s → c ∈ s.(a_watches) → ok (vanished c service s) (Inv busy held).
Proof.
  intros I Hw. destruct (inv_watches _ _ _ I _ Hw) as (cl & Hc & _).
  destruct (inv_clients _ _ _ I _ _ Hc) as [Hcl _].
  unfold vanished. rewrite (update_client_Some _ _ _ _ Hc). cbn [mbind option_bind]. fields.
  set (cl1 := set_c_owners _ cl).
  assert (Inv busy held (set_a_heap (<[c := cl1]> s.(a_heap)) s)) as I1.
  { apply Inv_owners; [done..|]. rewrite length_insert. apply Hcl. }
  apply ok_bind. apply ok_weaken with (λ s', Inv busy held s' ∧ is_Some (s'.(a_heap) !! c)).
  - case_decide.
    + erewrite update_client_Some by (fields; apply lookup_insert_eq). apply ok_ret.
      split; [|fields; by rewrite lookup_insert_eq].
      apply (Inv_agent _ _ _ c cl1 false I1); [fields; apply lookup_insert_eq|done].
    + apply ok_ret. split; [done|]. fields. by rewrite lookup_insert_eq.
  - intros s' [I' [cl' Hc']]. rewrite Hc'. cbn [mbind option_bind]. apply ok_ret.
    destruct (cl'.(c_observer)); [by apply Inv_emit|done].
Qed.

(** Every entry point, when GLib may call it, reads only live clients and
    calls and keeps the invariant. *)
Lemma Inv_run l s : Inv 0 [] s → enabled conf l s → ok (run conf l s) (Inv 0 []).
Proof.
  intros I. destruct l as [m|c bus m|c bus|env|id reply|c service owner|c service|c bus
    |name now|name|env]; simpl.
  - intros [Hb Hs]. unfold guest_filter. cbn [andb]. case_bool_decide; [|by apply ok_ret].
    destruct (Inv_queue_message s None Bus m I) as (s' & -> & I'); [done..|]. by exists s'.
  - intros [Hc [f Hf]]. destruct (inv_filters _ _ _ I _ _ Hf) as (d & cl & Hd & Hcl & _).
    assert (d = c) as -> by congruence.
    destruct (Inv_queue_message s (Some c) bus m I) as (s' & Hq & I'); try done.
    { intros d [= <-]. by exists cl. }
    unfold client_filter. cbn [andb]. rewrite Hq. cbn [mbind option_bind].
    case_bool_decide; [by exists s'|]. destruct (_ || _); [by exists s'|by exists s].
  - intros [Hc Hf]. by eapply Inv_filter_released.
  - apply Inv_process_event, I.
  - intros [k Hk]. by apply (Inv_forward_finished _ _ _ _ k).
  - intros [Hw _]. by apply Inv_appeared.
  - intros [Hw _]. by apply Inv_vanished.
  - intros [Hc Hb]. by eapply Inv_connection_closed.
  - intros Hb. unfold guest_names. destruct (is_unique name); [|by apply ok_ret].
    case_decide; [by apply Inv_clients_remove, Inv_set_guest_names|].
    destruct (text_eqb _ _); apply ok_ret; [done|]. by apply Inv_set_guest_names.
  - intros [Hb Hn]. unfold new_peer. case_decide as Hsize; [by apply ok_ret|].
    assert (Inv 0 [] (set_a_next (S s.(a_next)) s)) as I1 by (apply Inv_next; [done|lia]).
    destruct (Inv_add_client 0 [] _ s.(a_next) name false false false I1)
      as (s' & -> & I' & _); fields; try done.
    + by apply Inv_fresh with 0 [].
    + lia.
    + rewrite Hb. lia.
    + by exists s'.
  - intros Hb. unfold observer_tick.
    destruct (Inv_relay_client 0 [] s env (str "observer") true I Hb) as (s' & o & -> & I' & _).
    by exists s'.
Qed.

Lemma Inv_empty : Inv 0 [] empty_app.
Proof.
  constructor; try (intros *; cbn [a_clients a_heap a_filters a_calls a_queue a_handlers
    a_watches a_trace empty_app fmap list_fmap app]; rewrite ?lookup_empty; set_solver).
  { done. }
  cbn [a_clients empty_app]. rewrite map_size_empty. destruct (broker conf); lia.
Qed.

Lemma Inv_initial s : initial conf s → Inv 0 [] s.
Proof.
  unfold initial. destruct (conf.(broker)) eqn:Hb; [intros ->; apply Inv_empty|].
  intros (env & names & Hs). unfold relay_start, observer_tick in Hs.
  match type of Hs with context [relay_client env _ _ ?s0] =>
    destruct (Inv_relay_client 0 [] s0 env (str "observer") true) as (s1 & o & Hr & I & _);
    [apply Inv_set_guest_names, Inv_empty|done|rewrite Hr in Hs] end.
  cbn [fmap option_fmap option_map fst mbind option_bind] in Hs. injection Hs as <-.
  do 3 (apply Inv_emit; [|done..]). by apply Inv_set_names.
Qed.

Lemma Inv_reachable s : reachable conf s → Inv 0 [] s.
Proof.
  intros (s0 & Hs0 & Hsteps). apply Inv_initial in Hs0. revert Hs0.
  induction Hsteps as [s|s s' s'' (l & Hen & Hrun) _ IH]; [done|].
  intros I. apply IH. destruct (Inv_run l s I Hen) as (t & Ht & I').
  rewrite Hrun in Ht. by injection Ht as <-.
Qed.


(** ** The end of a call *)

Lemma client_unref_frame c s s' :
  client_unref c s = Some s' → s'.(a_calls) = s.(a_calls) ∧
  ∀ id, answers_to id s'.(a_trace) = answers_to id s.(a_trace).
Proof.
  unfold client_unref. intros Hs. apply bind_Some in Hs as (cl & Hc & Hs).
  case_decide; [by injection Hs as <-|].
  rewrite (update_client_Some _ _ _ _ Hc) in Hs. by injection Hs as <-.
Qed.

Lemma finished_deletes id reply s s' :
  forward_finished id reply s = Some s' → s'.(a_calls) !! id = None.
Proof.
  unfold forward_finished. intros Hs.
  apply bind_Some in Hs as (k & Hk & Hs). apply bind_Some in Hs as (s1 & _ & Hs).
  apply bind_Some in Hs as (s2 & Hs2 & Hs).
  apply client_unref_frame in Hs as [-> _]. fields. apply lookup_delete_eq.
Qed.

Lemma deliver_reply_trace id reply s s' :
  deliver_reply id reply s = Some s' → ∀ e, e ∈ s.(a_trace) → e ∈ s'.(a_trace).
Proof.
  intros Hs. assert (∃ e, s'.(a_trace) = e :: s.(a_trace)) as [e ->].
  2: { intros e' ?. by apply elem_of_cons; right. }
  assert (∀ c f s1 s2, update_client c f s1 = Some s2 → s2.(a_trace) = s1.(a_trace)) as Hup.
  { unfold update_client. intros c f s1 s2 Hu. apply bind_Some in Hu as (? & _ & Hu).
    by injection Hu as <-. }
  unfold deliver_reply in Hs. apply bind_Some in Hs as (k & Hk & Hs).
  apply bind_Some in Hs as (cl & Hc & Hs). apply bind_Some in Hs as (s1 & Hs1 & Hs).
  unfold update_call in Hs1. rewrite Hk in Hs1. injection Hs1 as <-.
  destruct reply as [reply|]; [|injection Hs as <-; by eexists].
  destruct (negb _); [injection Hs as <-; by eexists|].
  case_decide; [|injection Hs as <-; by eexists].
  apply bind_Some in Hs as (s2 & Hs2 & Hs). apply bind_Some in Hs as (s3 & Hs3 & Hs).
  assert (s2.(a_trace) = s.(a_trace)) as H2.
  { destruct (k_register_agent k); [by apply Hup in Hs2|by injection Hs2 as <-]. }
  assert (s3.(a_trace) = s.(a_trace)) as H3.
  { rewrite <- H2. destruct (k_unregister_agent k); [by apply Hup in Hs3|by injection Hs3 as <-]. }
  injection Hs as <-. fields. rewrite H3. by eexists.
Qed.

Lemma finished_trace id reply s s' :
  forward_finished id reply s = Some s' → ∀ e, e ∈ s.(a_trace) → e ∈ s'.(a_trace).
Proof.
  unfold forward_finished. intros Hs e He.
  apply bind_Some in Hs as (k & Hk & Hs). apply bind_Some in Hs as (s1 & Hs1 & Hs).
  apply bind_Some in Hs as (s2 & Hs2 & Hs).
  assert (e ∈ s1.(a_trace)) as He1.
  { destruct (k_delivered k); [by injection Hs1 as <-|]. by eapply deliver_reply_trace. }
  assert (s2.(a_trace) = s1.(a_trace)) as Ht.
  { unfold update_client in Hs2. apply bind_Some in Hs2 as (? & _ & Hs2).
    by injection Hs2 as <-. }
  unfold client_unref in Hs. apply bind_Some in Hs as (cl & Hc & Hs).
  case_decide.
  - injection Hs as <-. fields. rewrite Ht. by apply elem_of_cons; right.
  - rewrite (update_client_Some _ _ _ _ Hc) in Hs. injection Hs as <-. fields. by rewrite Ht.
Qed.

End Invariant.

(** ** Guarantees *)

Section Guarantees.
Context {G : GLib} (conf : config).

(** C13: whatever the peers send, in whatever order GLib runs the entry points,
    the program never reads a freed client or call: every entry point that may
    run returns.  A client's reference count is the number of pointers to it
    (the table's, the queued events', the calls' and the filters'), so a client
    is freed exactly when the last one goes and none is leaked. *)
Theorem bridge_memory_safe s :
  reachable conf s →
  (∀ l, enabled conf l s → ∃ s', run conf l s = Some s') ∧
  (∀ c cl, s.(a_heap) !! c = Some cl →
     cl.(c_refs) = Z.of_nat (holders [] s c cl) ∧ (0 < holders [] s c cl)%nat).
Proof.
  intros I%Inv_reachable. split.
  - intros l Hl. destruct (Inv_run conf l s I Hl) as (s' & ? & _). eauto.
  - intros c cl Hc. destruct (inv_refs _ _ _ _ I _ _ Hc). split; [done|lia].
Qed.

(** C1: every call the broker puts on a client's host connection came from that
    client's peer, keeps a reply expected, and is one the policy permits with
    the grant the broker was started with. *)
Theorem bridge_confinement s id origin request c m :
  reachable conf s → SendCall id origin request (Host c) m ∈ s.(a_trace) →
  conf.(broker) = true ∧ origin = Peer c ∧ permitted m conf.(admin) ∧
  Z.testbit m.(m_flags) 0 = false.
Proof.
  intros I%Inv_reachable Hin.
  pose proof (inv_trace _ _ _ _ I) as Ht. rewrite Forall_forall in Ht.
  destruct (Ht _ Hin) as (? & ? & ? & Hal). by rewrite allowed_iff_permitted in Hal.
Qed.

(** C29: each forwarded call is answered to its caller at most once while it is
    in flight and exactly once when its completion has run, whether the reply
    came in the event queue, through the completion, or not at all. *)
Theorem bridge_answers_once s id origin request target m :
  reachable conf s → SendCall id origin request target m ∈ s.(a_trace) →
  match s.(a_calls) !! id with
  | None => answers_to id s.(a_trace) = [(origin, request)]
  | Some k =>
      (answers_to id s.(a_trace) = [] ∨ answers_to id s.(a_trace) = [(origin, request)]) ∧
      ∀ reply, ∃ s', run conf (Finished id reply) s = Some s' ∧
        s'.(a_calls) !! id = None ∧ answers_to id s'.(a_trace) = [(origin, request)]
  end.
Proof.
  intros I%Inv_reachable Hin. destruct (inv_sent _ _ _ _ I _ _ _ _ _ Hin) as [_ Ha].
  destruct (s.(a_calls) !! id) as [k|] eqn:Hk; [|done].
  destruct Ha as (-> & -> & Ha). split; [destruct (k_delivered k); tauto|].
  intros reply. destruct (Inv_forward_finished conf _ _ _ _ _ reply I Hk) as (s' & Hs' & I').
  exists s'. pose proof (finished_deletes _ _ _ _ Hs') as Hdel. split_and!; [done..|].
  pose proof (finished_trace _ _ _ _ Hs' _ Hin) as Hin'.
  apply (inv_sent _ _ _ _ I') in Hin' as [_ Ha']. by rewrite Hdel in Ha'.
Qed.

(** the bounds hold in every state: at most 1024 queued events, counted
    exactly, at most 128 guest clients in the relay and 129 connections in the
    broker, and at most 64 calls in flight per client, counted exactly. *)
Theorem bridge_limits s :
  reachable conf s →
  s.(a_queued) = Z.of_nat (length s.(a_queue)) ∧ s.(a_queued) ≤ 1024 ∧
  (size s.(a_clients) ≤ if conf.(broker) then 129 else 128)%nat ∧
  ∀ c cl, s.(a_heap) !! c = Some cl → cl.(c_outstanding) ≤ 64 ∧
    ∃ ids, NoDup ids ∧ cl.(c_outstanding) = Z.of_nat (length ids) ∧
      ∀ id, id ∈ ids ↔ ∃ k, s.(a_calls) !! id = Some k ∧ k.(k_client) = c.
Proof.
  intros I%Inv_reachable. destruct (inv_queued _ _ _ _ I) as [Hq Hle].
  split; [lia|]. split; [done|]. split; [apply I|].
  intros c cl Hc. destruct (inv_clients _ _ _ _ I _ _ Hc) as [[] _].
  split; [done|]. exists cl.(c_pending_calls). split_and!; [done..|].
  intros id. split; [by apply (inv_pending _ _ _ _ I)|].
  intros (k & Hk & <-). destruct (inv_calls _ _ _ _ I _ _ Hk) as (cl' & ? & ?). by simplify_eq.
Qed.

(** without the grant a guest never learns that NetworkManager would let it
    change something: every permission in the replies to [GetPermissions] that
    the broker delivers is [no]. *)
Theorem bridge_permissions_hidden s id bus request m entries :
  reachable conf s → conf.(broker) = true → conf.(admin) = false →
  Answer id bus request m ∈ s.(a_trace) → asks_permissions request →
  m.(m_type) = METHOD_RETURN → m.(m_body) = Some [VStringMap entries] →
  Forall (λ e, e.2 = str "no") entries.
Proof.
  intros I%Inv_reachable Hb Ha Hin Hp Ht Hbody.
  pose proof (inv_trace _ _ _ _ I) as Htr. rewrite Forall_forall in Htr.
  specialize (Htr _ Hin Hb Ha Hp Ht). by rewrite Hbody in Htr.
Qed.

(** the broker calls back into a space only as a NetworkManager secret agent,
    with the four agent methods on the agent's path, and only when it was
    started with the grant; no client without it is ever marked an agent. *)
Theorem bridge_agent_needs_grant s :
  reachable conf s → conf.(broker) = true →
  (∀ c cl, s.(a_heap) !! c = Some cl → cl.(c_agent) = true → conf.(admin) = true) ∧
  (∀ id origin request c m, SendCall id origin request (Peer c) m ∈ s.(a_trace) →
     conf.(admin) = true ∧ is_agent_callback m = true ∧ m.(m_destination) = None).
Proof.
  intros I%Inv_reachable Hb. split.
  - intros c cl Hc Ha. destruct (inv_clients _ _ _ _ I _ _ Hc) as [Hcl _].
    by destruct (ok_agent _ _ Hcl Ha).
  - intros id origin request c m Hin. pose proof (inv_trace _ _ _ _ I) as Ht.
    rewrite Forall_forall in Ht. destruct (Ht _ Hin) as [_ Hok].
    by rewrite Hb in Hok.
Qed.

(** signals cross the boundary only under the services' names: what the
    broker sends a relay besides replies and callbacks comes from an object of
    the service it names and has no destination; what the relay sends the
    guest bus is addressed to one guest. *)
Theorem bridge_signals s bus m :
  reachable conf s → SendMessage bus m ∈ s.(a_trace) →
  match bus with
  | Host _ => False
  | Bus => conf.(broker) = false ∧ is_Some m.(m_destination) ∧ m.(m_sender) = None
  | Peer _ => conf.(broker) = true ∧ m.(m_destination) = None ∧
      ∃ service, (service < 3)%nat ∧ m.(m_sender) = Some (service_name service) ∧
        service_path service m.(m_path) = true
  end.
Proof.
  intros I%Inv_reachable Hin. pose proof (inv_trace _ _ _ _ I) as Ht.
  rewrite Forall_forall in Ht. specialize (Ht _ Hin). by destruct bus.
Qed.

End Guarantees.

(** ** Witnesses *)

#[export] Instance enabled_dec `{GLib} conf l s : Decision (enabled conf l s).
Proof. destruct l; simpl; apply _. Defined.

(** Runs entry points in turn, each when it may run. *)
Fixpoint run_all `{GLib} (conf : config) (ls : list label) (s : app_state) : option app_state :=
  match ls with
  | [] => Some s
  | l :: ls => if decide (enabled conf l s) then s ← run conf l s; run_all conf ls s else None
  end.

Lemma run_all_reachable `{GLib} conf ls s s' :
  reachable conf s → run_all conf ls s = Some s' → reachable conf s'.
Proof.
  revert s. induction ls as [|l ls IH]; intros s Hs; cbn [run_all].
  - by intros [= <-].
  - case_decide as Hl; [|done]. intros (s1 & Hrun & Hs')%bind_Some.
    apply IH in Hs'; [done|]. destruct Hs as (s0 & Hs0 & Hsteps). exists s0. split; [done|].
    eapply rtc_r; [done|]. by exists l.
Qed.

Definition sample_environment : environment := Environment (Some 1000) true (Some true) true 9.

Definition open_message : message :=
  {| m_type := METHOD_CALL; m_flags := 0; m_serial := 1; m_reply_serial := 0;
     m_sender := None; m_destination := None; m_path := Some CONTROL_PATH;
     m_interface := Some CONTROL; m_member := Some (str "Open");
     m_body := Some [VUint32 1000; VBoolean false]; m_fds := None |}.

Definition permissions_call : message :=
  sample_call "org.freedesktop.NetworkManager" "/org/freedesktop/NetworkManager"
    "org.freedesktop.NetworkManager" "GetPermissions" None.

Definition permissions_reply : message :=
  {| m_type := METHOD_RETURN; m_flags := 1; m_serial := 40; m_reply_serial := 9;
     m_sender := Some (str ":1.4"); m_destination := None; m_path := None;
     m_interface := None; m_member := None;
     m_body := Some [VStringMap [(str "network-control", str "yes")]]; m_fds := None |}.

Definition device_signal : message :=
  {| m_type := SIGNAL; m_flags := 1; m_serial := 41; m_reply_serial := 0;
     m_sender := Some (str ":1.4"); m_destination := None;
     m_path := Some (str "/org/freedesktop/NetworkManager/Devices/2");
     m_interface := Some PROPERTIES; m_member := Some (str "PropertiesChanged");
     m_body := None; m_fds := None |}.

(** A relay connects, opens and asks for the permissions; the reply and a
    signal arrive, the connection closes and its call completes. *)
Definition sample_run : list label :=
  [NewPeer (str "0x55d0");
   ClientMessage 0 (Peer 0) open_message; ProcessEvent sample_environment;
   Appeared 0 1 (str ":1.4");
   ClientMessage 0 (Peer 0) permissions_call; ProcessEvent sample_environment;
   ClientMessage 0 (Host 0) permissions_reply; ProcessEvent sample_environment;
   ClientMessage 0 (Host 0) device_signal; ProcessEvent sample_environment].

Definition sample_broker : config := Config true false [].

Definition sample_state : app_state := default empty_app (run_all sample_broker sample_run empty_app).

Lemma sample_reachable : reachable sample_broker sample_state.
Proof.
  apply (run_all_reachable sample_broker sample_run empty_app).
  - exists empty_app. split; [done|]. apply rtc_refl.
  - vm_compute. reflexivity.
Qed.

Definition sample_forwarded : message :=
  set_flags (spaces_message_copy permissions_call permissions_call.(m_destination)) 0.

Example sample_answers :
  answers_to 1 sample_state.(a_trace) = [(Peer 0, permissions_call)].
Proof. vm_compute. reflexivity. Qed.

Example sample_freed :
  match run_all sample_broker
    [Closed 0 (Host 0); FilterReleased 0 (Peer 0); Finished 1 None; FilterReleased 0 (Host 0)]
    sample_state with
  | Some s => s.(a_heap) = ∅ ∧ head s.(a_trace) = Some (Freed 0)
  | None => False
  end.
Proof. vm_compute. split; reflexivity. Qed.


(** An element of a list, by evaluation. *)
Ltac listed i := apply (list_elem_of_lookup_2 _ i); vm_compute; reflexivity.

Lemma bridge_memory_safe_witness :
  reachable sample_broker sample_state ∧
  is_Some (sample_state.(a_heap) !! 0%nat) ∧
  (∃ s', run sample_broker (Finished 1 None) sample_state = Some s').
Proof.
  split; [apply sample_reachable|]. split; [vm_compute; eauto|].
  destruct (bridge_memory_safe sample_broker sample_state sample_reachable) as [Hrun _].
  apply Hrun. vm_compute. eauto.
Defined.

Lemma bridge_confinement_witness :
  permitted sample_forwarded false.
Proof.
  destruct (bridge_confinement sample_broker sample_state 1 (Peer 0) permissions_call 0
    sample_forwarded sample_reachable) as (_ & _ & Hp & _); [listed 2%nat|exact Hp].
Defined.

Lemma bridge_answers_once_witness :
  ∃ s', run sample_broker (Finished 1 None) sample_state = Some s' ∧
    answers_to 1 s'.(a_trace) = [(Peer 0, permissions_call)].
Proof.
  pose proof (bridge_answers_once sample_broker sample_state 1 (Peer 0) permissions_call (Host 0)
    sample_forwarded sample_reachable ltac:(listed 2%nat)) as Hans.
  assert (∃ k, sample_state.(a_calls) !! 1%nat = Some k) as [k Hk] by (vm_compute; eauto).
  rewrite Hk in Hans. destruct Hans as [_ Hfin].
  destruct (Hfin None) as (s' & ? & _ & ?). exists s'. split; assumption.
Defined.

Lemma bridge_limits_witness :
  size sample_state.(a_clients) = 1%nat ∧ sample_state.(a_queued) ≤ 1024.
Proof.
  split; [vm_compute; reflexivity|].
  destruct (bridge_limits sample_broker sample_state sample_reachable) as (_ & Hle & _).
  exact Hle.
Defined.

Lemma bridge_permissions_hidden_witness :
  Forall (λ e : text * text, e.2 = str "no") [(str "network-control", str "no")].
Proof.
  apply (bridge_permissions_hidden sample_broker sample_state 1 (Peer 0) permissions_call
    (set_body (set_reply_serial (spaces_message_copy permissions_reply None) 7)
      (Some [VStringMap [(str "network-control", str "no")]]))
    [(str "network-control", str "no")] sample_reachable);
    [reflexivity|reflexivity|listed 1%nat|split; reflexivity|reflexivity|reflexivity].
Defined.

(** With the grant: the client registers as a secret agent and is called back. *)
Definition register_call : message :=
  sample_call "org.freedesktop.NetworkManager" "/org/freedesktop/NetworkManager/AgentManager"
    "org.freedesktop.NetworkManager.AgentManager" "Register" None.

Definition register_reply : message :=
  {| m_type := METHOD_RETURN; m_flags := 1; m_serial := 50; m_reply_serial := 9;
     m_sender := Some (str ":1.4"); m_destination := None; m_path := None;
     m_interface := None; m_member := None; m_body := None; m_fds := None |}.

Definition secrets_call : message :=
  set_sender
    (sample_call ":1.9" "/org/freedesktop/NetworkManager/SecretAgent"
       "org.freedesktop.NetworkManager.SecretAgent" "GetSecrets" None) (Some (str ":1.4")).

Definition agent_run : list label :=
  [NewPeer (str "0x55d0");
   ClientMessage 0 (Peer 0) open_message; ProcessEvent sample_environment;
   Appeared 0 1 (str ":1.4");
   ClientMessage 0 (Peer 0) register_call; ProcessEvent sample_environment;
   ClientMessage 0 (Host 0) register_reply; ProcessEvent sample_environment;
   ClientMessage 0 (Host 0) secrets_call; ProcessEvent sample_environment].

Definition agent_broker : config := Config true true [].

Definition agent_state : app_state := default empty_app (run_all agent_broker agent_run empty_app).

Lemma agent_reachable : reachable agent_broker agent_state.
Proof.
  apply (run_all_reachable agent_broker agent_run empty_app).
  - exists empty_app. split; [done|]. apply rtc_refl.
  - vm_compute. reflexivity.
Qed.

Lemma bridge_agent_needs_grant_witness :
  is_agent_callback (set_flags (spaces_message_copy secrets_call None) 0) = true.
Proof.
  destruct (bridge_agent_needs_grant agent_broker agent_state agent_reachable eq_refl)
    as [_ Hcall].
  destruct (Hcall 2%nat (Host 0) secrets_call 0%nat
    (set_flags (spaces_message_copy secrets_call None) 0)) as (_ & Hcb & _);
    [listed 0%nat|exact Hcb].
Defined.

Lemma bridge_signals_witness :
  ∃ service, (service < 3)%nat ∧
    service_path service device_signal.(m_path) = true.
Proof.
  destruct (bridge_signals sample_broker sample_state (Peer 0)
    (set_sender (spaces_message_copy device_signal None) (Some NM)) sample_reachable)
    as (_ & _ & service & ? & _ & ?); [listed 0%nat|].
  exists service. split; assumption.
Defined.

