(* ===== verification/TreeDiff.v ===== *)
(** * Tree differences ([native/scu_diff.h])

    Zero-context unified hunks between two renderings of the accessibility
    tree, from a table of longest common subsequences.  The table is the
    code's flat [guint32] array, filled by the code's two downward loops.

    The theorems: the hunks turn the old rows into the new ones, no set of
    hunks that does so changes fewer rows, and exactly when a full read is
    requested instead. *)

From S2P Require Import Prelude Glib.

(** ** The code *)

Section TreeDiff.
Context {G : GLib}.

(** One hunk: where it starts in both trees (0-based), and its rows. *)
Record hunk := Hunk {
  h_old : nat;
  h_removed : list text;
  h_new : nat;
  h_added : list text;
}.

Definition newline : text := [ascii_of_nat 10].

(** [tree_diff_range]: line numbers are 1-based, but an empty range names the
    line before it; a count of 1 is left out. *)
Definition tree_diff_range (start count : nat) : text :=
  decimal (Z.of_nat (start + (if decide (count = 0%nat) then 0 else 1)))
  ++ (if decide (count = 1%nat) then [] else str "," ++ decimal (Z.of_nat count)).

Definition print_hunk (h : hunk) : text :=
  str "@@ -" ++ tree_diff_range h.(h_old) (length h.(h_removed))
  ++ str " +" ++ tree_diff_range h.(h_new) (length h.(h_added))
  ++ str " @@" ++ newline
  ++ concat (map (λ row, str "-" ++ row ++ newline) h.(h_removed))
  ++ concat (map (λ row, str "+" ++ row ++ newline) h.(h_added)).

(** [g_strsplit] at newlines, without the empty row after the last one. *)
Definition tree_rows (tree : text) : list text :=
  let rows := g_strsplit tree (ascii_of_nat 10) in
  match last rows with
  | Some [] => take (length rows - 1) rows
  | _ => rows
  end.

(** The two trimming loops: equal rows from the front, and from the back of
    what is left. *)
Fixpoint common_prefix (old now : list text) : nat :=
  match old, now with
  | o :: old, w :: now => if text_eqb o w then S (common_prefix old now) else 0
  | _, _ => 0
  end.

(** The rows between [prefix] and [suffix]: [old[prefix + i]] for [i < n]. *)
Definition middle (prefix suffix : nat) (rows : list text) : list text :=
  take (length rows - prefix - suffix) (drop prefix rows).

Section Walk.
Variables old now : list text.

Definition row_equal (i j : nat) : bool := text_eqb (nth i old []) (nth j now []).

Definition width : nat := (length now + 1)%nat.

(** [lcs[i * width + j]] *)
Definition at_table (table : list Z) (i j : nat) : Z := nth (i * width + j) table 0.

(** [for (j = m; j-- > 0;)]; the array holds [guint32]. *)
Fixpoint fill_row (i j : nat) (table : list Z) : list Z :=
  match j with
  | O => table
  | S j =>
      let value :=
        if row_equal i j then u32 (1 + at_table table (i + 1) (j + 1))
        else Z.max (at_table table (i + 1) j) (at_table table i (j + 1)) in
      fill_row i j (<[(i * width + j)%nat := value]> table)
  end.

(** [for (i = n; i-- > 0;)] *)
Fixpoint fill_table (i : nat) (table : list Z) : list Z :=
  match i with
  | O => table
  | S i => fill_table i (fill_row i (length now) table)
  end.

Definition lcs_table : list Z :=
  fill_table (length old) (replicate ((length old + 1) * width) 0).

Section Hunks.
Variable table : list Z.

(** The inner loop: rows removed and added up to the next common row. *)
Fixpoint hunk_rows (fuel i j : nat) (removed added : list text) :
    option (nat * nat * list text * list text) :=
  match fuel with
  | O => None
  | S fuel =>
      if (i <? length old)%nat || (j <? length now)%nat then
        if (i <? length old)%nat && (j <? length now)%nat && row_equal i j then
          Some (i, j, removed, added)
        else if (i <? length old)%nat
                && ((j =? length now)%nat
                    || (at_table table i (j + 1) <=? at_table table (i + 1) j)) then
          hunk_rows fuel (i + 1) j (removed ++ [nth i old []]) added
        else hunk_rows fuel i (j + 1) removed (added ++ [nth j now []])
      else Some (i, j, removed, added)
  end.

(** The outer loop. *)
Fixpoint walk (prefix fuel i j : nat) : option (list hunk) :=
  match fuel with
  | O => None
  | S fuel =>
      if (i <? length old)%nat || (j <? length now)%nat then
        if (i <? length old)%nat && (j <? length now)%nat && row_equal i j then
          walk prefix fuel (i + 1) (j + 1)
        else
          '(i', j', removed, added) ← hunk_rows (S (length old + length now)) i j [] [];
          hunks ← walk prefix fuel i' j';
          Some (Hunk (prefix + i) removed (prefix + j) added :: hunks)
      else Some []
  end.

End Hunks.

Definition tree_hunks (prefix : nat) : option (list hunk) :=
  walk lcs_table prefix (S (length old + length now)) 0 0.

End Walk.

(** [n && m > 6000000 / n] *)
Definition table_too_large (n m : nat) : bool :=
  negb (n =? 0)%nat && (6000000 / Z.of_nat n <? Z.of_nat m).

(** [None] is [NULL], a request for a full read; the inner [None] would be a
    loop that does not end.  [allocates] tells whether [g_try_new0] succeeds. *)
Definition tree_diff (allocates : bool) (previous current unchanged_text : text) :
    option (option text) :=
  if text_eqb previous current then Some (Some unchanged_text) else
  let old := tree_rows previous in
  let now := tree_rows current in
  let prefix := common_prefix old now in
  let suffix := common_prefix (rev (drop prefix old)) (rev (drop prefix now)) in
  let old := middle prefix suffix old in
  let now := middle prefix suffix now in
  if table_too_large (length old) (length now) || negb allocates then Some None else
  hunks ← tree_hunks old now prefix;
  let out := concat (map print_hunk hunks) in
  Some (if 5 * g_utf8_strlen out <=? 3 * g_utf8_strlen current then Some out else None).

End TreeDiff.

(** ** Reference definitions *)

(** The length of a longest common subsequence. *)
Fixpoint lcs (a : list text) : list text → nat :=
  match a with
  | [] => λ _, 0%nat
  | x :: a' =>
      fix inner b :=
        match b with
        | [] => 0%nat
        | y :: b' => if text_eqb x y then S (lcs a' b') else Nat.max (lcs a' b) (inner b')
        end
  end.

(** Applying hunks to the rows that start at line [p] of the old tree and make
    the new tree from its line [q] on; [None] when a hunk does not fit. *)
Fixpoint patch (p q : nat) (hunks : list hunk) (rows : list text) : option (list text) :=
  match hunks with
  | [] => Some rows
  | h :: hunks =>
      let skip := (h.(h_old) - p)%nat in
      let rest := drop skip rows in
      if decide (p ≤ h.(h_old) ∧ h.(h_new) = q + skip ∧ skip ≤ length rows ∧
                 take (length h.(h_removed)) rest = h.(h_removed))%nat
      then new ← patch (h.(h_old) + length h.(h_removed)) (h.(h_new) + length h.(h_added))
                   hunks (drop (length h.(h_removed)) rest);
           Some (take skip rows ++ h.(h_added) ++ new)
      else None
  end.

Definition cost (hunks : list hunk) : nat :=
  list_sum (map (λ h, length h.(h_removed) + length h.(h_added))%nat hunks).

(** ** Longest common subsequences *)

(** No common subsequence of the two lists is longer than [bound]. *)
Definition common_bound (a b : list text) (bound : nat) : Prop :=
  ∀ k, k `sublist_of` a → k `sublist_of` b → (length k ≤ bound)%nat.

Lemma lcs_nil_r a : lcs a [] = 0%nat.
Proof. by destruct a. Qed.

Lemma lcs_cons x a y b :
  lcs (x :: a) (y :: b) =
    if text_eqb x y then S (lcs a b) else Nat.max (lcs a (y :: b)) (lcs (x :: a) b).
Proof. done. Qed.

Lemma lcs_le_r a b : (lcs a b ≤ length b)%nat.
Proof.
  revert b. induction a as [|x a IHa]; intros b; [simpl; lia|].
  induction b as [|y b IHb]; [simpl; lia|].
  rewrite lcs_cons. destruct (text_eqb x y).
  - specialize (IHa b). simpl. lia.
  - specialize (IHa (y :: b)). simpl in *. lia.
Qed.

Lemma sublist_tail (k : list text) x a : k `sublist_of` x :: a → tail k `sublist_of` a.
Proof.
  intros H. apply sublist_cons_r in H as [H|(k' & -> & H)]; [|done].
  destruct k as [|z k]; [apply sublist_nil_l|]. simpl.
  etransitivity; [|exact H]. by apply sublist_cons.
Qed.

Lemma lcs_upper a b : common_bound a b (lcs a b).
Proof.
  revert b. induction a as [|x a IHa]; intros b k Ha Hb.
  { apply sublist_nil_r in Ha as ->. simpl. lia. }
  revert k Ha Hb. induction b as [|y b IHb]; intros k Ha Hb.
  { apply sublist_nil_r in Hb as ->. simpl. lia. }
  rewrite lcs_cons. destruct (text_eqb x y) eqn:Hxy.
  - pose proof (IHa b _ (sublist_tail _ _ _ Ha) (sublist_tail _ _ _ Hb)).
    destruct k; simpl in *; lia.
  - apply text_eqb_neq in Hxy.
    apply sublist_cons_r in Ha as [Ha|(k1 & -> & Ha)].
    { specialize (IHa _ _ Ha Hb). lia. }
    apply sublist_cons_r in Hb as [Hb|(k2 & [= -> ->] & Hb)]; [|done].
    assert (length (x :: k1) ≤ lcs (x :: a) b)%nat; [|lia].
    apply IHb; [by apply sublist_skip|done].
Qed.

Lemma sublist_snoc (k : list text) z a x : k ++ [z] `sublist_of` a ++ [x] → k `sublist_of` a.
Proof.
  intros (k1 & k2 & Heq & H1 & H2)%sublist_app_r.
  apply sublist_cons_r in H2 as [H2|(k' & -> & H2)]; apply sublist_nil_r in H2 as ->.
  - rewrite app_nil_r in Heq. subst k1. etransitivity; [|exact H1].
    by apply sublist_inserts_r.
  - apply app_inj_tail in Heq as [-> _]. done.
Qed.

Lemma common_bound_suffix a b s bound :
  common_bound a b bound → common_bound (a ++ s) (b ++ s) (bound + length s)%nat.
Proof.
  intros Hb. induction s as [|x s IH] using rev_ind; [by rewrite !app_nil_r, Nat.add_0_r|].
  intros k Hka Hkb. rewrite !app_assoc in Hka, Hkb. rewrite length_app. simpl.
  destruct k as [|z k _] using rev_ind; [simpl; lia|]. rewrite length_app. simpl.
  specialize (IH k (sublist_snoc _ _ _ _ Hka) (sublist_snoc _ _ _ _ Hkb)). lia.
Qed.

Lemma common_bound_prefix a b s bound :
  common_bound a b bound → common_bound (s ++ a) (s ++ b) (length s + bound)%nat.
Proof.
  intros Hb. induction s as [|x s IH]; [done|]. intros k Hka Hkb. simpl in *.
  specialize (IH _ (sublist_tail _ _ _ Hka) (sublist_tail _ _ _ Hkb)).
  destruct k; simpl in *; lia.
Qed.

(** ** Hunks *)

Lemma patch_common p q hunks rows new :
  patch p q hunks rows = Some new →
  ∃ k, k `sublist_of` rows ∧ k `sublist_of` new ∧
    (length rows + length new = cost hunks + 2 * length k)%nat.
Proof.
  revert p q rows new. induction hunks as [|h hunks IH]; intros p q rows new H; simpl in H.
  { injection H as <-. exists rows. split_and!; [done..|]. unfold cost. simpl. lia. }
  case_decide as Hfit; [|done]. destruct Hfit as (_ & _ & Hskip & Hrem).
  apply bind_Some in H as (new' & H & [= <-]).
  apply IH in H as (k & Hk1 & Hk2 & Hlen).
  set (skip := (h_old h - p)%nat) in *.
  exists (take skip rows ++ k). split_and!.
  - rewrite <- (take_drop skip rows) at 2. apply sublist_app; [done|].
    rewrite <- (take_drop (length (h_removed h)) (drop skip rows)).
    by apply sublist_inserts_l.
  - apply sublist_app; [done|]. by apply sublist_inserts_l.
  - unfold cost in *. cbn [map list_sum foldr]. fold (list_sum (map (λ h, length (h_removed h) + length (h_added h))%nat hunks)).
    apply (f_equal length) in Hrem. rewrite length_take, length_drop in Hrem.
    rewrite !length_app, !length_take, !length_drop in *. lia.
Qed.

Lemma patch_skip p q hunks x rows new :
  patch (S p) (S q) hunks rows = Some new → patch p q hunks (x :: rows) = Some (x :: new).
Proof.
  destruct hunks as [|h hunks]; simpl; [congruence|].
  case_decide as Hfit; [|done]. destruct Hfit as (? & ? & ? & ?).
  intros (new' & Hp & [= <-])%bind_Some.
  replace (h_old h - p)%nat with (S (h_old h - S p)) by lia. cbn [drop take].
  rewrite decide_True by (split_and!; simpl; (lia || done)). by rewrite Hp.
Qed.

Lemma patch_skip_list hunks s rows new p q :
  patch (p + length s) (q + length s) hunks rows = Some new →
  patch p q hunks (s ++ rows) = Some (s ++ new).
Proof.
  revert p q. induction s as [|x s IH]; intros p q H; cbn [app length] in *.
  - by rewrite !Nat.add_0_r in H.
  - apply patch_skip, IH. rewrite !Nat.add_succ_r in H. exact H.
Qed.

(** ** The table *)

Lemma drop_nth (l : list text) i :
  (i < length l)%nat → drop i l = nth i l [] :: drop (S i) l.
Proof.
  revert i. induction l as [|x l IH]; intros [|i] H; simpl in *; try lia; [done|].
  apply IH. lia.
Qed.

Section Table.
Variables old now : list text.
Hypothesis Hsmall : length old = 0%nat ∨ Z.of_nat (length now) ≤ 6000000.

(** What the table's entry at [i], [j] should be. *)
Definition entry (i j : nat) : nat := lcs (drop i old) (drop j now).

Lemma entry_end_l i j : (length old ≤ i)%nat → entry i j = 0%nat.
Proof. intros H. unfold entry. by rewrite drop_ge. Qed.

Lemma entry_end_r i j : (length now ≤ j)%nat → entry i j = 0%nat.
Proof. intros H. unfold entry. rewrite (drop_ge now) by done. apply lcs_nil_r. Qed.

Lemma entry_step i j :
  (i < length old)%nat → (j < length now)%nat →
  entry i j = if row_equal old now i j then S (entry (S i) (S j))
              else Nat.max (entry (S i) j) (entry i (S j)).
Proof.
  intros Hi Hj. unfold entry, row_equal. rewrite (drop_nth old i Hi), (drop_nth now j Hj).
  apply lcs_cons.
Qed.

Lemma index_inj a b i j :
  (b < width now)%nat → (j < width now)%nat →
  (a * width now + b = i * width now + j)%nat → a = i ∧ b = j.
Proof. intros. apply (Nat.div_mod_unique (width now)); [done..|]. lia. Qed.

(** Entries after [i], [j] in the order of filling are final, the others 0. *)
Definition filled (table : list Z) (i j : nat) : Prop :=
  length table = ((length old + 1) * width now)%nat ∧
  ∀ a b, (a ≤ length old)%nat → (b ≤ length now)%nat →
    at_table now table a b =
      if decide (i < a ∨ a = i ∧ j ≤ b)%nat then Z.of_nat (entry a b) else 0.

Lemma fill_row_filled i j table :
  (i < length old)%nat → (j ≤ length now)%nat →
  filled table i j → filled (fill_row old now i j table) i 0.
Proof.
  intros Hi. revert table. induction j as [|j IH]; intros table Hj Hf; [done|].
  cbn [fill_row]. apply IH; [lia|]. destruct Hf as [Hlen Hf].
  assert (Z.of_nat (entry (S i) (S j)) ≤ 6000000) as Hb.
  { pose proof (lcs_le_r (drop (S i) old) (drop (S j) now)) as Hle.
    rewrite length_drop in Hle. unfold entry. destruct Hsmall; lia. }
  assert ((if row_equal old now i j then u32 (1 + at_table now table (i + 1) (j + 1))
           else Z.max (at_table now table (i + 1) j) (at_table now table i (j + 1)))
          = Z.of_nat (entry i j)) as ->.
  { rewrite entry_step by lia. rewrite !Hf by lia. rewrite !decide_True by lia.
    replace (i + 1)%nat with (S i) by lia. replace (j + 1)%nat with (S j) by lia.
    destruct (row_equal _ _ i j); [rewrite u32_small by lia; lia|lia]. }
  split; [by rewrite length_insert|]. intros a b Ha Hb'. unfold at_table.
  assert (j < width now ∧ b < width now ∧ i * width now + j < length table)%nat
    as (Hjw & Hbw & Hin) by (rewrite Hlen; unfold width; nia).
  rewrite nth_lookup. destruct (decide (a = i ∧ b = j)) as [[-> ->]|Hne].
  - rewrite list_lookup_insert_eq by done. simpl. by rewrite decide_True by lia.
  - rewrite list_lookup_insert_ne.
    2: { intros Heq. symmetry in Heq. by apply index_inj in Heq. }
    rewrite <- nth_lookup. change (at_table now table a b = 
      if decide (i < a ∨ a = i ∧ j ≤ b)%nat then Z.of_nat (entry a b) else 0).
    rewrite Hf by done. do 2 case_decide; try done; lia.
Qed.

Lemma fill_table_filled i table :
  (i ≤ length old)%nat → filled table i 0 → filled (fill_table old now i table) 0 0.
Proof.
  revert table. induction i as [|i IH]; intros table Hi Hf; [done|].
  cbn [fill_table]. apply IH; [lia|]. apply fill_row_filled; [lia|lia|].
  destruct Hf as [Hlen Hf]. split; [done|]. intros a b Ha Hb. rewrite Hf by done.
  do 2 case_decide; try done; try lia. by rewrite entry_end_r by lia.
Qed.

Lemma lcs_table_spec a b :
  (a ≤ length old)%nat → (b ≤ length now)%nat →
  at_table now (lcs_table old now) a b = Z.of_nat (entry a b).
Proof.
  intros Ha Hb. unfold lcs_table.
  destruct (fill_table_filled (length old)
    (replicate ((length old + 1) * width now) 0)) as [_ Hf]; [done| |].
  { split; [apply length_replicate|]. intros a' b' Ha' Hb'. unfold at_table.
    rewrite nth_lookup. destruct (replicate _ _ !! _) eqn:Hr.
    - apply lookup_replicate in Hr as [-> _]. simpl.
      case_decide; [|done]. by rewrite entry_end_l by lia.
    - simpl. case_decide; [|done]. by rewrite entry_end_l by lia. }
  rewrite Hf by done. by rewrite decide_True by lia.
Qed.

End Table.

(** ** The walk *)

Section WalkProof.
Variables old now : list text.
Hypothesis Hsmall : length old = 0%nat ∨ Z.of_nat (length now) ≤ 6000000.

Abbreviation table := (lcs_table old now).
Abbreviation L := (entry old now).

(** [old[i]] and [now[j]] are both there and equal. *)
Definition common_row (i j : nat) : bool :=
  (i <? length old)%nat && (j <? length now)%nat && row_equal old now i j.

Definition slice (l : list text) (i i' : nat) : list text := take (i' - i) (drop i l).

Lemma slice_nil l i : slice l i i = [].
Proof. unfold slice. by rewrite Nat.sub_diag. Qed.

Lemma slice_cons l i i' :
  (i < i')%nat → (i' ≤ length l)%nat → slice l i i' = nth i l [] :: slice l (S i) i'.
Proof.
  intros Hi Hi'. unfold slice. rewrite (drop_nth l i) by lia.
  replace (i' - i)%nat with (S (i' - S i)) by lia. done.
Qed.

Lemma length_slice l i i' :
  (i ≤ i' ≤ length l)%nat → length (slice l i i') = (i' - i)%nat.
Proof. intros H. unfold slice. rewrite length_take, length_drop. lia. Qed.

Lemma drop_slice l i i' :
  (i ≤ i')%nat → drop i l = slice l i i' ++ drop i' l.
Proof.
  intros H. unfold slice. rewrite <- (take_drop (i' - i) (drop i l)) at 1.
  rewrite drop_drop. do 2 f_equal. lia.
Qed.

Lemma hunk_rows_spec fuel i j removed added :
  (length old - i + (length now - j) < fuel)%nat →
  (i ≤ length old)%nat → (j ≤ length now)%nat →
  ∃ i' j',
    hunk_rows old now table fuel i j removed added
      = Some (i', j', removed ++ slice old i i', added ++ slice now j j') ∧
    (i ≤ i' ≤ length old)%nat ∧ (j ≤ j' ≤ length now)%nat ∧ L i' j' = L i j ∧
    (i' = length old ∧ j' = length now ∨ common_row i' j' = true).
Proof.
  revert i j removed added. induction fuel as [|fuel IH]; intros i j removed added Hfuel Hi Hj;
    [lia|]. cbn [hunk_rows]. fold (common_row i j).
  destruct ((i <? length old)%nat || (j <? length now)%nat) eqn:Hmore.
  2: { apply orb_false_iff in Hmore as [?%Nat.ltb_ge ?%Nat.ltb_ge].
       exists i, j. rewrite !slice_nil, !app_nil_r. split_and!; try (done || lia). }
  destruct (common_row i j) eqn:Hcommon.
  { exists i, j. rewrite !slice_nil, !app_nil_r. split_and!; (done || lia || auto). }
  apply orb_true_iff in Hmore. rewrite !Nat.ltb_lt in Hmore.
  destruct ((i <? length old)%nat && _) eqn:Hdir.
  - apply andb_true_iff in Hdir as [Hlt%Nat.ltb_lt Hdir].
    destruct (IH (i + 1)%nat j (removed ++ [nth i old []]) added) as (i' & j' & -> & H1 & H2 & HL & Hstop);
      [lia..|].
    exists i', j'. split_and!; try lia; try done.
    + rewrite (slice_cons old i i') by lia. rewrite <- app_assoc. cbn [app].
      replace (i + 1)%nat with (S i) by lia. done.
    + rewrite HL. replace (i + 1)%nat with (S i) in * by lia.
      destruct (decide (j = length now)) as [->|Hj']; [by rewrite !entry_end_r by lia|].
      rewrite (entry_step old now i j) by lia.
      unfold common_row in Hcommon. rewrite (proj2 (Nat.ltb_lt _ _) Hlt),
        (proj2 (Nat.ltb_lt j (length now))) in Hcommon by lia. cbn [andb] in Hcommon.
      rewrite Hcommon. rewrite (proj2 (Nat.eqb_neq _ _) Hj') in Hdir. cbn [orb] in Hdir.
      apply Z.leb_le in Hdir. rewrite !lcs_table_spec in Hdir by (done || lia).
      replace (j + 1)%nat with (S j) in Hdir by lia. lia.
  - assert (j < length now)%nat as Hlt.
    { destruct Hmore as [Hlt|?]; [|done]. rewrite (proj2 (Nat.ltb_lt _ _) Hlt) in Hdir.
      cbn [andb] in Hdir. apply orb_false_iff in Hdir as [?%Nat.eqb_neq _]. lia. }
    destruct (IH i (j + 1)%nat removed (added ++ [nth j now []])) as (i' & j' & -> & H1 & H2 & HL & Hstop);
      [lia..|].
    exists i', j'. split_and!; try lia; try done.
    + rewrite (slice_cons now j j') by lia. rewrite <- app_assoc. cbn [app].
      replace (j + 1)%nat with (S j) by lia. done.
    + rewrite HL. replace (j + 1)%nat with (S j) in * by lia.
      destruct (decide (i < length old)%nat) as [Hi'|]; [|by rewrite !entry_end_l by lia].
      rewrite (entry_step old now i j) by lia.
      unfold common_row in Hcommon. rewrite (proj2 (Nat.ltb_lt i _) Hi'),
        (proj2 (Nat.ltb_lt j _) Hlt) in Hcommon. cbn [andb] in Hcommon. rewrite Hcommon.
      rewrite (proj2 (Nat.ltb_lt i _) Hi') in Hdir. cbn [andb] in Hdir.
      apply orb_false_iff in Hdir as [_ Hdir]. apply Z.leb_gt in Hdir.
      replace (i + 1)%nat with (S i) in Hdir by lia.
      rewrite !lcs_table_spec in Hdir by (done || lia). lia.
Qed.

Lemma walk_spec prefix fuel i j :
  (length old - i + (length now - j) < fuel)%nat →
  (i ≤ length old)%nat → (j ≤ length now)%nat →
  ∃ hunks, walk old now table prefix fuel i j = Some hunks ∧
    (∀ tail, patch (prefix + i) (prefix + j) hunks (drop i old ++ tail)
             = Some (drop j now ++ tail)) ∧
    (cost hunks + 2 * L i j = length old - i + (length now - j))%nat.
Proof.
  revert i j. induction fuel as [|fuel IH]; intros i j Hfuel Hi Hj; [lia|].
  cbn [walk]. fold (common_row i j).
  destruct ((i <? length old)%nat || (j <? length now)%nat) eqn:Hmore.
  2: { apply orb_false_iff in Hmore as [?%Nat.ltb_ge ?%Nat.ltb_ge].
       exists []. split; [done|]. rewrite !drop_ge by lia. split; [done|].
       rewrite entry_end_l by lia. unfold cost. simpl. lia. }
  destruct (common_row i j) eqn:Hcommon.
  - unfold common_row in Hcommon. rewrite !andb_true_iff, !Nat.ltb_lt in Hcommon.
    destruct Hcommon as [[Hi' Hj'] Heq].
    destruct (IH (i + 1)%nat (j + 1)%nat) as (hunks & -> & Hpatch & Hcost); [lia..|].
    exists hunks. split; [done|]. split.
    + intros tail. rewrite (drop_nth old i), (drop_nth now j) by done. cbn [app].
      unfold row_equal in Heq. apply text_eqb_spec in Heq as ->.
      apply patch_skip. specialize (Hpatch tail).
      replace (i + 1)%nat with (S i) in Hpatch by lia.
      replace (j + 1)%nat with (S j) in Hpatch by lia.
      rewrite !Nat.add_succ_r in Hpatch. exact Hpatch.
    + rewrite (entry_step old now i j) by done. rewrite Heq.
      replace (S i) with (i + 1)%nat by lia. replace (S j) with (j + 1)%nat by lia. lia.
  - destruct (hunk_rows_spec (S (length old + length now)) i j [] [])
      as (i' & j' & -> & Hi' & Hj' & HL & Hstop); [lia..|]. cbn [mbind option_bind app].
    assert (i + j < i' + j')%nat as Hprogress.
    { apply orb_true_iff in Hmore. rewrite !Nat.ltb_lt in Hmore.
      destruct (decide (i' = i ∧ j' = j)) as [[-> ->]|]; [|lia].
      destruct Hstop as [?|?]; [lia|congruence]. }
    destruct (IH i' j') as (hunks & -> & Hpatch & Hcost); [lia..|]. cbn [mbind option_bind].
    eexists. split; [done|]. split.
    + intros tail. cbn [patch h_old h_new h_removed h_added].
      rewrite Nat.sub_diag, !length_slice by lia. cbn [drop take].
      rewrite (drop_slice old i i') by lia. rewrite <- app_assoc.
      rewrite decide_True.
      2: { split_and!; try lia. rewrite drop_0, take_app_le by (rewrite length_slice; lia).
           by rewrite take_ge by (rewrite length_slice; lia). }
      rewrite drop_0, drop_app_ge by (rewrite length_slice; lia).
      rewrite length_slice by lia. rewrite Nat.sub_diag. cbn [drop].
      replace (prefix + i + (i' - i))%nat with (prefix + i')%nat by lia.
      replace (prefix + j + (j' - j))%nat with (prefix + j')%nat by lia.
      rewrite drop_0, Hpatch. cbn [mbind option_bind app].
      by rewrite (drop_slice now j j'), <- app_assoc by lia.
    + unfold cost in *. cbn [map list_sum foldr h_removed h_added].
      fold (list_sum (map (λ h, length (h_removed h) + length (h_added h))%nat hunks)).
      rewrite !length_slice by lia. lia.
Qed.

Lemma tree_hunks_spec prefix :
  ∃ hunks, tree_hunks old now prefix = Some hunks ∧
    (∀ tail, patch prefix prefix hunks (old ++ tail) = Some (now ++ tail)) ∧
    (cost hunks + 2 * lcs old now = length old + length now)%nat.
Proof.
  destruct (walk_spec prefix (S (length old + length now)) 0 0) as (hunks & H & Hp & Hc);
    [lia..|]. exists hunks. split; [done|]. rewrite !Nat.add_0_r in Hp.
  split; [exact Hp|]. unfold entry in Hc. rewrite !drop_0 in Hc. lia.
Qed.

End WalkProof.

(** ** Whole trees *)

Lemma common_prefix_spec old now :
  take (common_prefix old now) old = take (common_prefix old now) now ∧
  (common_prefix old now ≤ length old)%nat ∧ (common_prefix old now ≤ length now)%nat.
Proof.
  revert now. induction old as [|o old IH]; intros [|w now]; simpl; try (split_and!; lia || done).
  destruct (text_eqb o w) eqn:Heq; simpl; [|split_and!; lia || done].
  apply text_eqb_spec in Heq as ->. destruct (IH now) as (H1 & H2 & H3).
  rewrite H1. split_and!; [done|lia|lia].
Qed.

(** The rows split into the common prefix, the middle and the common suffix. *)
Lemma trim_spec old now :
  let p := common_prefix old now in
  let q := common_prefix (rev (drop p old)) (rev (drop p now)) in
  ∃ front back, length front = p ∧
    old = front ++ middle p q old ++ back ∧ now = front ++ middle p q now ++ back.
Proof.
  intros p q. destruct (common_prefix_spec old now) as (Hp & Hpo & Hpn).
  destruct (common_prefix_spec (rev (drop p old)) (rev (drop p now))) as (Hq & Hqo & Hqn).
  fold p in Hp, Hpo, Hpn. fold q in Hq, Hqo, Hqn.
  rewrite !length_rev, !length_drop in Hqo, Hqn.
  exists (take p old), (drop (length old - p - q) (drop p old)).
  split; [by rewrite length_take; lia|].
  rewrite !firstn_rev, !length_drop in Hq. apply (f_equal (@rev text)) in Hq.
  rewrite !rev_involutive in Hq. unfold middle. split.
  - by rewrite take_drop, take_drop.
  - by rewrite Hq, take_drop, Hp, take_drop.
Qed.

(** A rendering of the tree: every row ends in a newline. *)
Definition terminated (tree : text) : Prop :=
  tree = [] ∨ ∃ rows, tree = rows ++ newline.

Definition print_rows (rows : list text) : text := concat (map (λ row, row ++ newline) rows).

Lemma join_snoc pieces last_piece :
  join (ascii_of_nat 10) (pieces ++ [last_piece]) = print_rows pieces ++ last_piece.
Proof.
  induction pieces as [|p ps IH]; [done|]. cbn [app].
  rewrite join_cons by (by destruct ps). rewrite IH. unfold print_rows, newline. cbn [map concat].
  by rewrite <- !app_assoc.
Qed.

Lemma tree_rows_terminated `{GLib} tree :
  terminated tree → print_rows (tree_rows tree) = tree.
Proof.
  unfold tree_rows. intros [->|[t ->]]; [by rewrite g_strsplit_empty|].
  set (tree := t ++ newline).
  assert (tree ≠ []) as Hne by (subst tree; by destruct t).
  pose proof (g_strsplit_join tree (ascii_of_nat 10) Hne) as Hjoin.
  pose proof (g_strsplit_pieces tree (ascii_of_nat 10)) as Hpieces.
  pose proof (g_strsplit_nonempty tree (ascii_of_nat 10) Hne) as Hsome.
  destruct (g_strsplit tree (ascii_of_nat 10)) as [|q ps _] eqn:Hs using rev_ind; [done|].
  rewrite join_snoc in Hjoin. apply Forall_app in Hpieces as [_ Hq]. apply Forall_cons in Hq as [Hq _].
  destruct q as [|c q _] using rev_ind.
  - rewrite last_snoc, length_app. cbn [length]. rewrite app_nil_r in Hjoin.
    by rewrite take_app_le, take_ge by lia.
  - exfalso. subst tree. unfold newline in Hjoin. rewrite app_assoc in Hjoin.
    apply app_inj_tail in Hjoin as [_ ->]. apply Hq. set_solver.
Qed.

(** What the middle loop leaves is small enough for the table's numbers. *)
Lemma table_small n m :
  table_too_large n m = false → n = 0%nat ∨ Z.of_nat m ≤ 6000000.
Proof.
  unfold table_too_large. rewrite andb_false_iff, negb_false_iff, Nat.eqb_eq, Z.ltb_ge.
  intros [->|H]; [by left|]. destruct (decide (n = 0%nat)); [by left|right].
  etransitivity; [exact H|]. apply Z.div_le_upper_bound; lia.
Qed.

(** Every tree has a difference to every other: the middle's hunks. *)
Lemma tree_hunks_exist old now :
  let p := common_prefix old now in
  let q := common_prefix (rev (drop p old)) (rev (drop p now)) in
  table_too_large (length (middle p q old)) (length (middle p q now)) = false →
  ∃ hunks, tree_hunks (middle p q old) (middle p q now) p = Some hunks ∧
    patch 0 0 hunks old = Some now ∧
    ∀ hunks', patch 0 0 hunks' old = Some now → (cost hunks ≤ cost hunks')%nat.
Proof.
  intros p q Hsmall%table_small.
  destruct (tree_hunks_spec (middle p q old) (middle p q now) Hsmall p)
    as (hunks & Hh & Hpatch & Hcost).
  exists hunks. split; [done|].
  destruct (trim_spec old now) as (front & back & Hlen & Hold & Hnow).
  fold p q in Hold, Hnow, Hlen. split.
  - rewrite Hold, Hnow. apply patch_skip_list. rewrite Hlen. apply Hpatch.
  - intros hunks' (k & Hk1 & Hk2 & Hlen')%patch_common.
    pose proof (lcs_upper (middle p q old) (middle p q now)) as Hb.
    apply (common_bound_suffix _ _ back), (common_bound_prefix _ _ front) in Hb.
    rewrite <- Hold, <- Hnow in Hb. specialize (Hb k Hk1 Hk2).
    apply (f_equal length) in Hold, Hnow. rewrite !length_app in Hold, Hnow. lia.
Qed.

(** ** Properties *)

(** C25: the text returned for a changed tree is a list of hunks that applies to
    the rows of the previous tree and gives exactly the current tree, with
    correct positions on both sides; no list of hunks that does so removes and
    adds fewer rows; and it is at most three fifths of the current tree's
    length in characters. *)
Theorem tree_diff_correct {G : GLib} allocates previous current unchanged_text diff :
  tree_diff allocates previous current unchanged_text = Some (Some diff) →
  previous ≠ current → terminated current →
  5 * g_utf8_strlen diff ≤ 3 * g_utf8_strlen current ∧
  ∃ hunks rows, diff = concat (map print_hunk hunks) ∧
    patch 0 0 hunks (tree_rows previous) = Some rows ∧ print_rows rows = current ∧
    ∀ hunks', patch 0 0 hunks' (tree_rows previous) = Some rows →
      (cost hunks ≤ cost hunks')%nat.
Proof.
  unfold tree_diff. intros Hdiff Hne Hterm. rewrite (proj2 (text_eqb_neq _ _)) in Hdiff by done.
  destruct (table_too_large _ _) eqn:Hlarge; [done|]. destruct allocates; [|done].
  cbn [negb orb] in Hdiff.
  destruct (tree_hunks_exist _ _ Hlarge) as (hunks & Hh & Hpatch & Hmin).
  rewrite Hh in Hdiff. cbn [mbind option_bind] in Hdiff.
  destruct (Z.leb_spec (5 * g_utf8_strlen (concat (map print_hunk hunks)))
    (3 * g_utf8_strlen current)) as [Hle|]; [|done]. injection Hdiff as <-.
  split; [done|]. exists hunks, (tree_rows current).
  split_and!; [done|done|by apply tree_rows_terminated|done].
Qed.

(** It returns, whatever the size of the trees. *)
Lemma tree_diff_total {G : GLib} allocates previous current unchanged_text :
  is_Some (tree_diff allocates previous current unchanged_text).
Proof.
  unfold tree_diff. destruct (text_eqb _ _); [done|].
  destruct (table_too_large _ _) eqn:Hlarge; [done|]. destruct allocates; [|done]. cbn [negb orb].
  destruct (tree_hunks_exist _ _ Hlarge) as (hunks & Hh & _). by rewrite Hh.
Qed.

(** [tree_diff] always returns: its loops end.  An unchanged tree gives the
    given text; for trees whose row counts multiply to at most 6,000,000, with
    memory for the table, there are hunks that turn the one into the other and
    the result is their text when it fits the budget and [NULL] otherwise. *)
Theorem tree_diff_returns {G : GLib} allocates previous current unchanged_text :
  ∃ result, tree_diff allocates previous current unchanged_text = Some result ∧
    (previous = current → result = Some unchanged_text) ∧
    (previous ≠ current → allocates = true →
     ∀ n m, n = length (tree_rows previous) → m = length (tree_rows current) →
     Z.of_nat (n * m) ≤ 6000000 →
     ∃ hunks, patch 0 0 hunks (tree_rows previous) = Some (tree_rows current) ∧
       let out := concat (map print_hunk hunks) in
       result = if 5 * g_utf8_strlen out <=? 3 * g_utf8_strlen current then Some out else None).
Proof.
  unfold tree_diff. destruct (text_eqb previous current) eqn:Heq.
  { apply text_eqb_spec in Heq. eexists. split; [done|]. by split. }
  apply text_eqb_neq in Heq.
  set (p := common_prefix _ _). set (q := common_prefix (rev _) _).
  destruct (table_too_large _ _) eqn:Hlarge.
  - eexists. split; [done|]. split; [done|]. intros _ _ n m -> -> Hnm. exfalso.
    unfold table_too_large in Hlarge. apply andb_true_iff in Hlarge as [Hn Hm].
    apply negb_true_iff, Nat.eqb_neq in Hn. apply Z.ltb_lt in Hm.
    assert (∀ rows, length (middle p q rows) ≤ length rows)%nat as Hmid.
    { intros rows. unfold middle. rewrite length_take, length_drop. lia. }
    pose proof (Hmid (tree_rows previous)). pose proof (Hmid (tree_rows current)).
    apply Z.div_lt_upper_bound in Hm || (apply Z.lt_nge in Hm; apply Hm).
    apply Z.div_le_lower_bound; [lia|]. nia.
  - destruct allocates; cbn [negb orb].
    + destruct (tree_hunks_exist _ _ Hlarge) as (hunks & Hh & Hpatch & _).
      fold p q in Hh. rewrite Hh. cbn [mbind option_bind]. eexists. split; [done|].
      split; [done|]. intros _ _ n m _ _ _. by exists hunks.
    + eexists. split; [done|]. by split.
Qed.

(** ** Witnesses *)

Definition rows_text (rows : list string) : text := print_rows (map str rows).

Definition sample_before : text :=
  rows_text ["1 window Editor of text"; "2 button Open file"; "3 button Save";
             "4 text report.txt"; "5 label three words long"; "6 label status line"]%string.
Definition sample_after : text :=
  rows_text ["1 window Editor of text"; "2 button Open file"; "3 button Save all";
             "4 text report.txt"; "5 label three words long"; "6 label status line";
             "7 saved"]%string.

Definition sample_diff : text :=
  str "@@ -3 +3 @@" ++ newline ++ str "-3 button Save" ++ newline
  ++ str "+3 button Save all" ++ newline
  ++ str "@@ -6,0 +7 @@" ++ newline ++ str "+7 saved" ++ newline.

Lemma sample_tree_diff :
  tree_diff true sample_before sample_after (str "unchanged") = Some (Some sample_diff).
Proof. vm_compute. reflexivity. Qed.

(** Most of the tree changed: a full read. *)
Example sample_full_read :
  tree_diff true (rows_text ["a"; "b"]%string) (rows_text ["c"; "d"]%string) [] = Some None.
Proof. vm_compute. reflexivity. Qed.

Lemma tree_diff_correct_witness :
  ∃ hunks rows, sample_diff = concat (map print_hunk hunks) ∧
    patch 0 0 hunks (tree_rows sample_before) = Some rows ∧ print_rows rows = sample_after.
Proof.
  destruct (tree_diff_correct true sample_before sample_after (str "unchanged") sample_diff
    sample_tree_diff) as (_ & hunks & rows & H1 & H2 & H3 & _).
  - intros Heq. vm_compute in Heq. discriminate Heq.
  - right. exists (take (length sample_after - 1) sample_after). vm_compute. reflexivity.
  - exists hunks, rows. split; [exact H1|]. split; [exact H2|exact H3].
Defined.

Lemma tree_diff_returns_witness :
  ∃ hunks, patch 0 0 hunks (tree_rows sample_before) = Some (tree_rows sample_after).
Proof.
  destruct (tree_diff_returns true sample_before sample_after (str "unchanged"))
    as (result & _ & _ & Hsmall).
  destruct (Hsmall ltac:(intros Heq; vm_compute in Heq; discriminate Heq) eq_refl 6%nat 7%nat
    ltac:(vm_compute; reflexivity) ltac:(vm_compute; reflexivity) ltac:(lia))
    as (hunks & Hpatch & _).
  exists hunks. exact Hpatch.
Defined.
