(* ===== verification/Launch.v ===== *)
(** * The launcher's parsers and merges ([native/spaces.c])

    [spaces] runs inside a space: it starts one application, shares one polkit
    agent with the other launches of its session, and reports the
    application's status.  This file models what it parses and builds: numbers
    and [/proc] files, the session's state file, the service manager's
    environment and the search paths merged from it, the agent's output, the
    status pipe and the command line.  [Agent] models the shared agent.

    The kernel's answers ([getpgid], file contents) are arguments; [Supervise] has
    the functions that ask for them. *)

From S2P Require Import Prelude Glib.

(** ** Exit statuses *)

Definition WTERMSIG (status : Z) : Z := Z.land status 0x7f.
Definition WIFEXITED (status : Z) : bool := WTERMSIG status =? 0.
Definition WEXITSTATUS (status : Z) : Z := Z.shiftr (Z.land status 0xff00) 8.
(** [((signed char) ((status & 0x7f) + 1) >> 1) > 0] *)
Definition WIFSIGNALED (status : Z) : bool :=
  let c := WTERMSIG status + 1 in
  0 <? Z.shiftr (if c <? 128 then c else c - 256) 1.

Definition status_code (status : Z) : Z :=
  if WIFEXITED status then WEXITSTATUS status
  else if WIFSIGNALED status then 128 + WTERMSIG status
  else 1.

(** ** Numbers *)

Fixpoint parse_digits (maximum value : Z) (s : text) : option Z :=
  match s with
  | [] => Some value
  | c :: s =>
      if negb (is_digit c) then None else
      let digit := digit_value c in
      if u64 (maximum - digit) / 10 <? value then None
      else parse_digits maximum (u64 (value * 10 + digit)) s
  end.

(** The characters from [begin] to [end]. *)
Definition parse_unsigned (s : text) (maximum : Z) : option Z :=
  match s with
  | [] => None
  | _ => parse_digits maximum 0 s
  end.

(** ** [/proc/<pid>/stat] *)

Definition is_blank (c : ascii) : bool := bool_decide (c = " "%char).

(** A token ends at a space or at the end of the string. *)
Definition not_blank (c : ascii) : bool := negb (is_blank c).

(** [strrchr(s, c) + 1]. *)
Fixpoint after_last (c : ascii) (s : text) : option text :=
  match s with
  | [] => None
  | d :: s =>
      match after_last c s with
      | Some rest => Some rest
      | None => if decide (d = c) then Some s else None
      end
  end.

(** The loop over the fields that follow the process name, with [skip] of them
    before the start time. *)
Fixpoint start_time_field (skip : nat) (cursor : text) : option Z :=
  let cursor := skip_while is_blank cursor in
  match cursor with
  | [] => None
  | _ =>
      let token := take_while not_blank cursor in
      match skip with
      | O => parse_unsigned token ULLONG_MAX
      | S skip => start_time_field skip (drop (length token) cursor)
      end
  end.

(** [stat] is what reading [/proc/<process>/stat] returns, [None] when it
    cannot be opened or read. *)
Definition process_start_time (process : Z) (stat : option text) : option Z :=
  if process <=? 1 then None else
  match stat with
  | None | Some [] => None
  | Some data =>
      cursor ← after_last ")" (cstring (take 2047 data));
      start_time_field 19 cursor
  end.

(** ** [terminate_adopted_groups] *)

(** The process groups signalled, in order; the loop runs once per child. *)
Fixpoint adopted_groups (getpgid : Z → Z) (own_group : Z) (fuel : nat) (cursor : text)
    (groups : list Z) : list Z :=
  match fuel with
  | O => groups
  | S fuel =>
      match cursor with
      | [] => groups
      | _ =>
          if (32 <=? length groups)%nat then groups else
          let cursor := skip_while is_blank cursor in
          match cursor with
          | [] => groups
          | _ =>
              let token := take_while not_blank cursor in
              match parse_unsigned token INT_MAX with
              | None => groups
              | Some process =>
                  let group := getpgid process in
                  let groups :=
                    if (1 <? group) && negb (group =? own_group)
                       && bool_decide (group ∉ groups)
                    then groups ++ [group] else groups in
                  adopted_groups getpgid own_group fuel (drop (length token) cursor) groups
              end
          end
      end
  end.

(** [children] is what reading the children file returns. *)
Definition terminate_adopted_groups (getpgid : Z → Z) (own_group : Z)
    (children : option text) : list Z :=
  match children with
  | None => []
  | Some data =>
      let buffer := cstring (take 4095 data) in
      adopted_groups getpgid own_group (S (length buffer)) buffer []
  end.

(** ** The session's state file *)

Definition session_char (c : ascii) : bool :=
  let z := code c in
  ((97 <=? z) && (z <=? 122)) || ((65 <=? z) && (z <=? 90))
  || ((48 <=? z) && (z <=? 57)) || (z =? 95) || (z =? 45).

Definition AGENT_STATE_ROOT : text := str "/run/user".

(** The state file's path from [XDG_SESSION_ID], [getsid(0)] and [getuid()];
    [None] when it does not fit. *)
Definition agent_state_path (session_id : option text) (sid uid : Z) : option text :=
  let session := default [] session_id in
  let session_length := if forallb session_char session then length session else 0%nat in
  let session :=
    if (session_length =? 0)%nat || (64 <? session_length)%nat
    then str "p" ++ signed_decimal sid else session in
  let path := AGENT_STATE_ROOT ++ str "/" ++ decimal uid ++ str "/spaces-polkit-agent."
              ++ session ++ str ".state" in
  if (256 <=? length path)%nat then None else Some path.

Record AgentState := { pid : Z; start_time : Z; references : Z }.

#[export] Instance AgentState_eq_dec : EqDecision AgentState.
Proof. solve_decision. Defined.

Definition newline_char : ascii := ascii_of_nat 10.

Definition field_char (c : ascii) : bool := not_blank c && bool_decide (c ≠ newline_char).

(** One field and the cursor after it. *)
Definition state_field (maximum : Z) (cursor : text) : option (Z * text) :=
  let cursor := skip_while is_blank cursor in
  let token := take_while field_char cursor in
  value ← parse_unsigned token maximum;
  Some (value, drop (length token) cursor).

(** [content] is what [pread] returns, [None] on failure. *)
Definition read_agent_state (content : option text) : AgentState :=
  let none := {| pid := -1; start_time := 0; references := 0 |} in
  match content with
  | None | Some [] => none
  | Some content =>
      match state_field INT_MAX (cstring (take 127 content)) with
      | None => none
      | Some (process, cursor) =>
          match state_field ULLONG_MAX cursor with
          | None => none
          | Some (start, cursor) =>
              match state_field UINT_MAX cursor with
              | None => {| pid := -1; start_time := start; references := 0 |}
              | Some (refs, _) =>
                  {| pid := process; start_time := start; references := refs |}
              end
          end
      end
  end.

Definition print_agent_state (s : AgentState) : text :=
  signed_decimal s.(pid) ++ str " " ++ decimal s.(start_time) ++ str " "
  ++ decimal s.(references) ++ [newline_char].

(** The file's new content and whether all of it was written; [truncates] is
    [ftruncate]'s result and [written] what [pwrite] takes, if it does not fail. *)
Definition write_agent_state (truncates : bool) (written : option nat) (content : text)
    (s : AgentState) : text * bool :=
  let buffer := print_agent_state s in
  if (128 <=? length buffer)%nat then (content, false)
  else if negb truncates then (content, false)
  else match written with
       | None => ([], false)
       | Some n => (take n buffer, (length buffer <=? n)%nat)
       end.

(** ** The service manager's environment *)

(** [strchr(s, d)]: the text before the delimiter, and after it if it occurs. *)
Fixpoint strchr_split (d : ascii) (s : text) : text * option text :=
  match s with
  | [] => ([], None)
  | c :: s =>
      if decide (c = d) then ([], Some s)
      else let '(piece, rest) := strchr_split d s in (c :: piece, rest)
  end.

(** What the loops over lines and path components visit, in order: they stop
    at the end of the string, so nothing follows a last delimiter. *)
Fixpoint components_loop (fuel : nat) (d : ascii) (cursor : text) : list text :=
  match fuel, cursor with
  | O, _ | _, [] => []
  | S fuel, _ =>
      let '(piece, rest) := strchr_split d cursor in
      match rest with
      | None => [piece]
      | Some rest => piece :: components_loop fuel d rest
      end
  end.

Definition components (d : ascii) (s : text) : list text := components_loop (length s) d s.

(** The value of a line [name=value], when it has that form. *)
Definition line_value (name line : text) : option text :=
  if (length name <? length line)%nat
     && bool_decide (nth (length name) line zero = "="%char)
     && text_eqb (take (length name) line) name
  then Some (drop (length name + 1) line)
  else None.

Fixpoint first_value (name : text) (lines : list text) : option text :=
  match lines with
  | [] => None
  | line :: lines =>
      match line_value name line with
      | Some value => Some value
      | None => first_value name lines
      end
  end.

Definition manager_environment_value (environment name : text) : option text :=
  first_value name (components newline_char environment).

(** ** Search paths *)

Definition path_has_component (path component : text) : bool :=
  existsb (text_eqb component) (components ":" path).

(** One component of [preserved]. *)
Definition merge_component (merged component : text) : text :=
  if (0 <? length component)%nat && negb (path_has_component merged component)
  then (if (0 <? length merged)%nat then merged ++ str ":" else merged) ++ component
  else merged.

Definition merge_path_environment (preferred preserved : text) : text :=
  foldl merge_component preferred (components ":" preserved).

(** ** The agent's output *)

Definition ready_message : text := str "Authentication agent result: true".

(** One character: how much of the message is matched, and whether it was
    reported. *)
Definition match_character (state : nat * bool) (c : ascii) : nat * bool :=
  let '(matched, reported) := state in
  if reported then state
  else if decide (c = nth matched ready_message zero) then
    (S matched, bool_decide (S matched = length ready_message))
  else ((if decide (c = nth 0 ready_message zero) then 1 else 0)%nat, false).

(** ** The status pipe *)

(** The bytes of an [int], least significant first. *)
Definition int_bytes (z : Z) : text :=
  map (λ i, char (u32 z / 2 ^ (8 * Z.of_nat i))) (seq 0 4).
Definition int_of_bytes (b : text) : Z :=
  int_of_u32 (foldr (λ c z, code c + 256 * z) 0 b).

(** ** The command line *)

Record options := Options {
  o_agent : option text;
  o_variables : list (text * bool);   (** [--dbus-env], [--dbus-env-path] *)
  o_steam : bool;
  o_command : list text;
}.

(** The options from [index] on; [None] is the usage error. *)
Fixpoint parse_options (args : list text) (agent : option text)
    (variables : list (text * bool)) (steam : bool) : option options :=
  match args with
  | [] => None
  | arg :: args =>
      if text_eqb arg (str "--") then Some (Options agent variables steam args)
      else if text_eqb arg (str "--agent") then
        match args with
        | value :: args => parse_options args (Some value) variables steam
        | [] => None
        end
      else if text_eqb arg (str "--dbus-env") || text_eqb arg (str "--dbus-env-path") then
        match args with
        | value :: args =>
            parse_options args agent
              (variables ++ [(value, text_eqb arg (str "--dbus-env-path"))]) steam
        | [] => None
        end
      else if text_eqb arg (str "--launch-id") then
        match args with
        | _ :: args => parse_options args agent variables steam
        | [] => None
        end
      else if text_eqb arg (str "SteamLaunch") || has_prefix arg (str "AppId=") then
        parse_options args agent variables true
      else None
  end.

(** [argv[0]] is not looked at. *)
Definition launcher_options (argv : list text) : option options :=
  parse_options (drop 1 argv) None [] false.

(** ** Numbers *)

Lemma foldl_digits_ge s value :
  Forall (λ c, is_digit c = true) s → 0 ≤ value →
  value ≤ foldl (λ v c, v * 10 + digit_value c) value s.
Proof.
  intros Hs. revert value. induction Hs as [|c s Hc Hs IH]; intros value Hv; simpl; [lia|].
  apply digit_value_range in Hc. specialize (IH (value * 10 + digit_value c)). lia.
Qed.

Lemma parse_digits_spec maximum value s v :
  9 ≤ maximum ≤ ULLONG_MAX → 0 ≤ value ≤ maximum →
  parse_digits maximum value s = Some v ↔
  Forall (λ c, is_digit c = true) s ∧
  v = foldl (λ v c, v * 10 + digit_value c) value s ∧ v ≤ maximum.
Proof.
  unfold ULLONG_MAX. intros Hmax. revert value. induction s as [|c s IH]; intros value Hv.
  { simpl. split; [intros [= <-]; split_and!; [constructor|done|lia]|by intros (_ & -> & _)]. }
  cbn [parse_digits foldl]. destruct (is_digit c) eqn:Hc; cbn [negb].
  2: { split; [done|]. intros [Hs _]. apply Forall_cons in Hs as [Hs _]. congruence. }
  pose proof (digit_value_range c Hc) as Hd.
  assert (u64 (maximum - digit_value c) = maximum - digit_value c) as ->
    by (unfold u64; apply Z.mod_small; lia).
  destruct (Z.ltb_spec ((maximum - digit_value c) / 10) value) as [Hlt|Hge].
  - split; [done|]. intros (Hs & -> & Hle). apply Forall_cons in Hs as [_ Hs]. exfalso.
    apply (foldl_digits_ge s (value * 10 + digit_value c)) in Hs; [|lia].
    assert (maximum - digit_value c < 10 * value); [|lia].
    pose proof (Z.mul_succ_div_gt (maximum - digit_value c) 10). lia.
  - assert (value * 10 + digit_value c ≤ maximum) as Hle.
    { pose proof (Z.mul_div_le (maximum - digit_value c) 10). lia. }
    assert (u64 (value * 10 + digit_value c) = value * 10 + digit_value c) as ->
      by (unfold u64; apply Z.mod_small; lia).
    rewrite IH by lia. rewrite Forall_cons. tauto.
Qed.

Lemma parse_unsigned_iff maximum s v :
  9 ≤ maximum ≤ ULLONG_MAX →
  parse_unsigned s maximum = Some v ↔
  s ≠ [] ∧ Forall (λ c, is_digit c = true) s ∧ v = digits_value s ∧ v ≤ maximum.
Proof.
  intros Hmax. destruct s as [|c s]; cbn [parse_unsigned]; [naive_solver|].
  rewrite parse_digits_spec by lia. unfold digits_value. naive_solver.
Qed.

Lemma parse_unsigned_decimal maximum n :
  9 ≤ maximum ≤ ULLONG_MAX → 0 ≤ n ≤ maximum → parse_unsigned (decimal n) maximum = Some n.
Proof.
  intros Hmax Hn. apply parse_unsigned_iff; [done|].
  destruct (decimal_value n) as [Hv Hd]; [lia|].
  split_and!; [apply decimal_nonempty|done|done|lia].
Qed.

(** ** Tokens *)

Lemma take_while_app p s t :
  Forall (λ c, p c = true) s → (∀ c, head t = Some c → p c = false) → take_while p (s ++ t) = s.
Proof.
  intros Hs Ht. induction Hs as [|c s Hc Hs IH]; simpl.
  - destruct t as [|c t]; [done|]. simpl. by rewrite (Ht c).
  - by rewrite Hc, IH.
Qed.

Lemma skip_while_none p s : (∀ c, head s = Some c → p c = false) → skip_while p s = s.
Proof. destruct s as [|c s]; [done|]. simpl. intros H. by rewrite (H c). Qed.

Lemma is_blank_spec c : is_blank c = true ↔ c = " "%char.
Proof. unfold is_blank. apply bool_decide_eq_true. Qed.

Lemma not_blank_spec c : not_blank c = true ↔ c ≠ " "%char.
Proof. unfold not_blank. rewrite negb_true_iff, <- not_true_iff_false, is_blank_spec. done. Qed.

(** A token: what the loops read between spaces. *)
Definition token (f : text) : Prop := f ≠ [] ∧ " "%char ∉ f.

Lemma token_not_blank f : " "%char ∉ f → Forall (λ c, not_blank c = true) f.
Proof. intros H. apply Forall_forall. intros c Hc. apply not_blank_spec. congruence. Qed.

Lemma token_head f rest : token f → ∀ c, head (f ++ rest) = Some c → is_blank c = false.
Proof.
  intros [Hne Hf] c Hc. destruct f as [|d f]; [done|]. injection Hc as ->.
  apply not_true_iff_false. rewrite is_blank_spec. set_solver.
Qed.

Lemma spaced_token f rest :
  token f → (∀ c, head rest = Some c → c = " "%char) →
  skip_while is_blank (str " " ++ f ++ rest) = f ++ rest ∧
  take_while not_blank (f ++ rest) = f ∧ drop (length f) (f ++ rest) = rest.
Proof.
  intros Hf Hrest. split_and!.
  - change (str " ") with [" "%char]. cbn [app skip_while].
    rewrite (proj2 (is_blank_spec _)) by done. by apply skip_while_none, token_head.
  - apply take_while_app; [apply token_not_blank, Hf|].
    intros c Hc. apply Hrest in Hc as ->. done.
  - apply drop_app_length.
Qed.

(** Fields, each after a space. *)
Definition spaced (fields : list text) : text := concat (map (λ f, str " " ++ f) fields).

Lemma spaced_head fields c : head (spaced fields) = Some c → c = " "%char.
Proof. destruct fields; [done|]. cbn. by intros [= <-]. Qed.

Lemma start_time_field_spec skip fields f :
  Forall token fields → fields !! skip = Some f →
  start_time_field skip (spaced fields) = parse_unsigned f ULLONG_MAX.
Proof.
  revert fields. induction skip as [|skip IH]; intros [|g fields] Hall Hf; try done;
    apply Forall_cons in Hall as [Hg Hall];
    change (spaced (g :: fields)) with (str " " ++ g ++ spaced fields) || 
      (unfold spaced; cbn [map concat]; rewrite <- app_assoc; fold (spaced fields));
    destruct (spaced_token g (spaced fields) Hg (spaced_head fields)) as (H1 & H2 & H3);
    cbn [start_time_field]; rewrite H1, H2;
    (destruct (g ++ spaced fields) as [|c s] eqn:Heq;
      [destruct g; [by destruct Hg|done]|rewrite <- Heq in *; clear Heq]).
  - simpl in Hf. congruence.
  - rewrite H3. by apply IH.
Qed.

Lemma after_last_none c s : c ∉ s → after_last c s = None.
Proof.
  induction s as [|d s IH]; [done|]. intros [? ?]%not_elem_of_cons. simpl.
  rewrite IH by done. by rewrite decide_False.
Qed.

Lemma after_last_app c s t : c ∉ t → after_last c (s ++ c :: t) = Some t.
Proof.
  intros Ht. induction s as [|d s IH]; simpl; [|by rewrite IH].
  by rewrite after_last_none, decide_True.
Qed.

(** ** Components *)

Lemma strchr_split_spec d s :
  d ∉ (strchr_split d s).1 ∧
  s = (strchr_split d s).1 ++ match (strchr_split d s).2 with Some r => d :: r | None => [] end.
Proof.
  induction s as [|c s [IH1 IH2]]; simpl; [set_solver|]. case_decide as Hc; simpl; [set_solver|].
  destruct (strchr_split d s) as [p r]; simpl in *. split; [set_solver|]. by rewrite <- IH2.
Qed.

Lemma strchr_split_app d p r : d ∉ p → strchr_split d (p ++ d :: r) = (p, Some r).
Proof.
  induction p as [|c p IH]; simpl; intros Hp; [by rewrite decide_True|].
  apply not_elem_of_cons in Hp as [? ?]. rewrite decide_False by done. by rewrite IH.
Qed.

Lemma strchr_split_none d p : d ∉ p → strchr_split d p = (p, None).
Proof.
  induction p as [|c p IH]; simpl; intros Hp; [done|].
  apply not_elem_of_cons in Hp as [? ?]. rewrite decide_False by done. by rewrite IH.
Qed.

Lemma components_loop_fuel d fuel s :
  (length s ≤ fuel)%nat → components_loop fuel d s = components d s.
Proof.
  unfold components. revert s. induction fuel as [fuel IH] using lt_wf_ind. intros s Hs.
  destruct s as [|c s]; [by destruct fuel|]. destruct fuel as [|fuel]; [simpl in Hs; lia|].
  cbn [length components_loop].
  destruct (strchr_split d (c :: s)) as [piece [rest|]] eqn:Hsplit; [|done].
  pose proof (strchr_split_spec d (c :: s)) as [_ Heq]. rewrite Hsplit in Heq. cbn [fst snd] in Heq.
  apply (f_equal length) in Heq. rewrite length_app in Heq. simpl in Heq, Hs.
  rewrite (IH fuel), (IH (length s)) by lia || lia. f_equal.
Qed.

Lemma components_app d p s : d ∉ p → components d (p ++ d :: s) = p :: components d s.
Proof.
  intros Hp. unfold components at 1.
  destruct (p ++ d :: s) as [|c t] eqn:Heq; [by destruct p|].
  cbn [length components_loop]. rewrite <- Heq, strchr_split_app by done. f_equal.
  apply components_loop_fuel. apply (f_equal length) in Heq.
  rewrite length_app in Heq. simpl in Heq. lia.
Qed.

Lemma components_single d p : d ∉ p → p ≠ [] → components d p = [p].
Proof.
  intros Hp Hne. unfold components. destruct p as [|c p]; [done|].
  cbn [length components_loop]. by rewrite strchr_split_none.
Qed.

(** Every text is its components, by the loop's own splits. *)
Lemma components_ind d (P : text → Prop) :
  P [] → (∀ p, d ∉ p → p ≠ [] → P p) → (∀ p s, d ∉ p → P s → P (p ++ d :: s)) → ∀ s, P s.
Proof.
  intros Hnil Hlast Hcons s. remember (length s) as n eqn:Hn.
  revert s Hn. induction n as [n IH] using lt_wf_ind. intros s ->.
  destruct (strchr_split d s) as [p [r|]] eqn:Hs;
    pose proof (strchr_split_spec d s) as [Hp Heq]; rewrite Hs in Hp, Heq; simpl in Hp, Heq.
  - rewrite Heq. apply Hcons; [done|]. eapply IH; [|done].
    rewrite Heq, length_app. simpl. lia.
  - rewrite app_nil_r in Heq. subst p. destruct s; [done|]. by apply Hlast.
Qed.

Lemma components_no_delimiter d s : Forall (λ p, d ∉ p) (components d s).
Proof.
  induction s as [|p Hp Hne|p s Hp IH] using (components_ind d).
  - constructor.
  - rewrite components_single by done. by constructor.
  - rewrite components_app by done. by constructor.
Qed.

(** The components the merge looks at. *)
Definition parts (s : text) : list text := filter (λ p, p ≠ []) (components ":" s).

Lemma parts_extend s p : ":"%char ∉ p → p ≠ [] → parts (s ++ str ":" ++ p) = parts s ++ [p].
Proof.
  intros Hp Hne. unfold parts. change (str ":") with [":"%char]. cbn [app].
  induction s as [|q Hq Hqne|q s Hq IH] using (components_ind ":"%char).
  - cbn [app]. change (":"%char :: p) with ([] ++ ":"%char :: p).
    rewrite components_app by set_solver. rewrite components_single by done.
    rewrite filter_cons_False by (intros []; done). by rewrite filter_cons_True.
  - rewrite components_app by done. rewrite !components_single by done.
    by rewrite !filter_cons_True.
  - rewrite <- app_assoc. cbn [app]. rewrite !(components_app _ q) by done.
    rewrite !filter_cons. case_decide; cbn [app]; by rewrite IH.
Qed.

Lemma parts_single p : ":"%char ∉ p → p ≠ [] → parts p = [p].
Proof. intros. unfold parts. rewrite components_single by done. by rewrite filter_cons_True. Qed.

Lemma path_has_component_spec path p :
  p ≠ [] → path_has_component path p = true ↔ p ∈ parts path.
Proof.
  intros Hp. unfold path_has_component, parts. rewrite existsb_exists, list_elem_of_filter.
  setoid_rewrite text_eqb_spec. setoid_rewrite <- list_elem_of_In.
  split; [by intros (q & ? & <-)|]. intros [_ ?]. eauto.
Qed.

(** What a merge adds: each component that is not there yet. *)
Definition add_missing (acc : list text) (p : text) : list text :=
  if decide (p ∈ acc) then acc else acc ++ [p].

Lemma parts_merge_component merged p :
  ":"%char ∉ p →
  parts (merge_component merged p)
    = if decide (p = []) then parts merged else add_missing (parts merged) p.
Proof.
  intros Hp. unfold merge_component, add_missing. case_decide as Hne; [by subst p|].
  rewrite (proj2 (Nat.ltb_lt _ _)) by (destruct p; [done|simpl; lia]). cbn [andb].
  destruct (path_has_component merged p) eqn:Hhas; cbn [negb].
  - apply path_has_component_spec in Hhas; [|done]. by rewrite decide_True.
  - rewrite decide_False.
    2: { intros Hin. apply path_has_component_spec in Hin; [congruence|done]. }
    destruct merged as [|c m]; [by rewrite parts_single|].
    rewrite (proj2 (Nat.ltb_lt _ _)) by (simpl; lia). rewrite <- app_assoc.
    by apply parts_extend.
Qed.

Lemma parts_merge preferred pieces :
  Forall (λ p, ":"%char ∉ p) pieces →
  parts (foldl merge_component preferred pieces)
    = foldl add_missing (parts preferred) (filter (λ p, p ≠ []) pieces).
Proof.
  intros Hall. revert preferred. induction Hall as [|p pieces Hp _ IH]; intros preferred; [done|].
  cbn [foldl]. rewrite IH, parts_merge_component by done. rewrite filter_cons.
  destruct (decide (p = [])) as [->|Hne].
  - by rewrite decide_False by (intros []; done).
  - by rewrite (decide_True (P := p ≠ [])).
Qed.

Lemma add_missing_foldl acc pieces :
  ∃ added, foldl add_missing acc pieces = acc ++ added ∧ NoDup added ∧
    added `sublist_of` pieces ∧ ∀ p, p ∈ added ↔ p ∈ pieces ∧ p ∉ acc.
Proof.
  revert acc. induction pieces as [|p pieces IH]; intros acc; cbn [foldl].
  { exists []. rewrite app_nil_r. split_and!; [done|constructor|done|set_solver]. }
  unfold add_missing at 2. case_decide as Hin.
  - destruct (IH acc) as (added & -> & Hnd & Hsub & Hspec). exists added.
    split_and!; [done|done|by apply sublist_cons|]. intros q.
    rewrite Hspec, elem_of_cons. destruct (decide (q = p)) as [->|]; tauto.
  - destruct (IH (acc ++ [p])) as (added & -> & Hnd & Hsub & Hspec). exists (p :: added).
    rewrite <- app_assoc. split_and!; [done| |by apply sublist_skip|].
    + constructor; [|done]. rewrite Hspec, not_elem_of_app, list_elem_of_singleton. tauto.
    + intros q. rewrite !elem_of_cons, Hspec, not_elem_of_app, list_elem_of_singleton.
      destruct (decide (q = p)) as [->|]; tauto.
Qed.

Lemma merge_component_length merged p :
  (length (merge_component merged p) ≤ length merged + S (length p))%nat ∧
  ∃ rest, merge_component merged p = merged ++ rest.
Proof.
  unfold merge_component. destruct (_ && _).
  - destruct (0 <? length merged)%nat; rewrite ?length_app; simpl.
    + split; [lia|]. exists (str ":" ++ p). by rewrite app_assoc.
    + split; [lia|]. by exists p.
  - split; [lia|]. exists []. by rewrite app_nil_r.
Qed.

Lemma components_length d s :
  (list_sum (map (λ p, S (length p)) (components d s)) ≤ S (length s))%nat.
Proof.
  induction s as [|p Hp Hne|p s Hp IH] using (components_ind d).
  - simpl. lia.
  - rewrite components_single by done. simpl. lia.
  - rewrite components_app by done. cbn [map list_sum foldr].
    fold (list_sum (map (λ p, S (length p)) (components d s))).
    rewrite length_app. simpl. lia.
Qed.

Lemma merge_length preferred pieces :
  (length (foldl merge_component preferred pieces)
    ≤ length preferred + list_sum (map (λ p, S (length p)) pieces))%nat ∧
  ∃ rest, foldl merge_component preferred pieces = preferred ++ rest.
Proof.
  revert preferred. induction pieces as [|p pieces IH]; intros preferred; cbn [foldl].
  { split; [simpl; lia|]. exists []. by rewrite app_nil_r. }
  destruct (IH (merge_component preferred p)) as [Hle [rest Hrest]].
  destruct (merge_component_length preferred p) as [Hlp [rest' Heq]].
  split.
  - change (list_sum (map (λ p, S (length p)) (p :: pieces)))
      with (S (length p) + list_sum (map (λ p, S (length p)) pieces))%nat. lia.
  - exists (rest' ++ rest). by rewrite Hrest, Heq, <- app_assoc.
Qed.

(** ** The state file *)

Lemma digits_field_char s : Forall (λ c, is_digit c = true) s → Forall (λ c, field_char c = true) s.
Proof.
  intros Hs. eapply Forall_impl; [exact Hs|]. intros c Hc. cbv beta in Hc.
  unfold field_char. rewrite andb_true_iff, not_blank_spec, bool_decide_eq_true.
  split; intros ->; vm_compute in Hc; discriminate.
Qed.

Lemma decimal_digits n : 0 ≤ n → Forall (λ c, is_digit c = true) (decimal n).
Proof. intros. by apply decimal_value. Qed.

Lemma decimal_head_not_blank n rest :
  0 ≤ n → ∀ c, head (decimal n ++ rest) = Some c → is_blank c = false.
Proof.
  intros Hn c Hc. pose proof (decimal_digits n Hn) as Hd.
  pose proof (decimal_nonempty n). destruct (decimal n) as [|d s]; [done|].
  injection Hc as ->. apply Forall_cons in Hd as [Hd _].
  apply not_true_iff_false. intros ->%is_blank_spec. vm_compute in Hd. discriminate.
Qed.

Lemma state_field_spec maximum n prefix rest :
  9 ≤ maximum ≤ ULLONG_MAX → 0 ≤ n ≤ maximum → prefix = [] ∨ prefix = str " " →
  (∀ c, head rest = Some c → field_char c = false) →
  state_field maximum (prefix ++ decimal n ++ rest) = Some (n, rest).
Proof.
  intros Hmax Hn Hprefix Hrest. unfold state_field.
  assert (skip_while is_blank (prefix ++ decimal n ++ rest) = decimal n ++ rest) as ->.
  { destruct Hprefix as [->| ->]; [|change (str " ") with [" "%char]]; cbn [app skip_while];
      [|rewrite (proj2 (is_blank_spec _)) by done];
      apply skip_while_none, decimal_head_not_blank; lia. }
  rewrite take_while_app; [|apply digits_field_char, decimal_digits; lia|done].
  rewrite parse_unsigned_decimal by done. cbn [mbind option_bind]. by rewrite drop_app_length.
Qed.

Definition state_ok (s : AgentState) : Prop :=
  0 ≤ s.(pid) ≤ INT_MAX ∧ 0 ≤ s.(start_time) ≤ ULLONG_MAX ∧ 0 ≤ s.(references) ≤ UINT_MAX.

Lemma print_agent_state_length s : state_ok s → (length (print_agent_state s) ≤ 43)%nat.
Proof.
  intros (Hp & Hs & Hr). unfold INT_MAX, ULLONG_MAX, UINT_MAX in *.
  unfold print_agent_state, signed_decimal. rewrite (proj2 (Z.ltb_ge _ _)) by lia.
  rewrite !length_app.
  pose proof (length_decimal (pid s) 10 ltac:(lia) ltac:(lia)).
  pose proof (length_decimal (start_time s) 20 ltac:(lia) ltac:(lia)).
  pose proof (length_decimal (references s) 10 ltac:(lia) ltac:(lia)).
  change (length (str " ")) with 1%nat. cbn [length]. lia.
Qed.

Lemma digits_no_nul s : Forall (λ c, is_digit c = true) s → zero ∉ s.
Proof.
  intros Hs Hin. rewrite Forall_forall in Hs. apply Hs in Hin. vm_compute in Hin. discriminate.
Qed.

Lemma print_agent_state_no_nul s : state_ok s → zero ∉ print_agent_state s.
Proof.
  intros (Hp & Hs & Hr). unfold print_agent_state, signed_decimal.
  rewrite (proj2 (Z.ltb_ge _ _)) by lia. rewrite !not_elem_of_app.
  split_and!; try (apply digits_no_nul, decimal_digits; lia);
    change (str " ") with [" "%char]; set_solver.
Qed.

Lemma read_print_agent_state s : state_ok s → read_agent_state (Some (print_agent_state s)) = s.
Proof.
  intros Hok. unfold read_agent_state.
  destruct (print_agent_state s) as [|c0 t0] eqn:Heq.
  { exfalso. unfold print_agent_state in Heq. apply app_nil in Heq as [Heq _].
    unfold signed_decimal in Heq. destruct (_ <? _); [done|]. by apply decimal_nonempty in Heq. }
  rewrite <- Heq. clear Heq c0 t0.
  pose proof (print_agent_state_length s Hok).
  rewrite take_ge by lia. rewrite cstring_id by (by apply print_agent_state_no_nul).
  destruct Hok as (Hp & Hs & Hr).
  unfold print_agent_state, signed_decimal. rewrite (proj2 (Z.ltb_ge _ _)) by lia.
  rewrite <- (app_nil_l (decimal (pid s) ++ _)).
  rewrite (state_field_spec INT_MAX (pid s)); [| |done|by left|].
  2: { unfold INT_MAX, ULLONG_MAX. lia. }
  2: { intros c. change (str " ") with [" "%char]. by intros [= <-]. }
  rewrite (state_field_spec ULLONG_MAX (start_time s)); [| |done|by right|].
  2: { unfold ULLONG_MAX. lia. }
  2: { intros c. change (str " ") with [" "%char]. by intros [= <-]. }
  rewrite (state_field_spec UINT_MAX (references s)); [| |done|by right|].
  2: { unfold UINT_MAX, ULLONG_MAX. lia. }
  2: { by intros c [= <-]. }
  by destruct s.
Qed.

(** ** Adopted groups *)

Definition group_ok (own_group group : Z) : Prop := 1 < group ∧ group ≠ own_group.

(** The children file: each process followed by a space. *)
Definition children_text (pids : list Z) : text := concat (map (λ p, decimal p ++ str " ") pids).

Section Groups.
Variables (getpgid : Z → Z) (own : Z).

(** What the loop has signalled after the processes [pids]. *)
Definition covers (groups : list Z) (pids : list Z) : Prop :=
  NoDup groups ∧ Forall (group_ok own) groups ∧
  (∀ p, p ∈ pids → group_ok own (getpgid p) → getpgid p ∈ groups).

Lemma covers_add groups pids p :
  covers groups pids →
  covers (if (1 <? getpgid p) && negb (getpgid p =? own) && bool_decide (getpgid p ∉ groups)
          then groups ++ [getpgid p] else groups) (pids ++ [p]).
Proof.
  intros (Hnd & Hok & Hall).
  destruct (_ && _) eqn:Htest.
  - rewrite !andb_true_iff, negb_true_iff, Z.ltb_lt, Z.eqb_neq, bool_decide_eq_true in Htest.
    destruct Htest as [[H1 H2] Hnew]. split_and!.
    + apply NoDup_app. split; [done|]. split; [set_solver|apply NoDup_singleton].
    + apply Forall_app. split; [done|]. by apply Forall_singleton.
    + intros q [Hq| ->%list_elem_of_singleton]%elem_of_app Hqok; apply elem_of_app; [left|right].
      * auto.
      * by apply list_elem_of_singleton.
  - split_and!; [done|done|]. intros q [Hq| ->%list_elem_of_singleton]%elem_of_app Hqok; [auto|].
    destruct Hqok as [H1 H2]. apply andb_false_iff in Htest as [Htest|Htest].
    + rewrite andb_false_iff, negb_false_iff, Z.ltb_ge, Z.eqb_eq in Htest. lia.
    + apply bool_decide_eq_false in Htest. by apply dec_stable.
Qed.

Lemma children_cons p pids rest :
  rest = [] ∨ rest = str " " →
  0 ≤ p →
  skip_while is_blank (rest ++ children_text (p :: pids)) = decimal p ++ str " " ++ children_text pids.
Proof.
  intros Hrest Hp. unfold children_text. cbn [map concat]. rewrite <- app_assoc.
  destruct Hrest as [->| ->]; [|change (str " " ++ ?x) with (" "%char :: x)]; cbn [app skip_while];
    [|rewrite (proj2 (is_blank_spec _)) by done];
    apply skip_while_none, decimal_head_not_blank; lia.
Qed.

Lemma adopted_groups_spec fuel pids done_pids rest groups :
  (S (length pids) < fuel)%nat → Forall (λ p, 0 ≤ p ≤ INT_MAX) pids →
  rest = [] ∨ rest = str " " → covers groups done_pids → (length groups ≤ 32)%nat →
  let r := adopted_groups getpgid own fuel (rest ++ children_text pids) groups in
  NoDup r ∧ Forall (group_ok own) r ∧ (length r ≤ 32)%nat ∧ groups `prefix_of` r ∧
  (length r = 32%nat ∨ covers r (done_pids ++ pids)).
Proof.
  revert pids done_pids rest groups.
  induction fuel as [|fuel IH]; intros pids done_pids rest groups Hfuel Hpids Hrest Hcov Hlen r; [lia|].
  pose proof Hcov as (Hnd & Hok & Hall).
  assert (pids = [] → NoDup groups ∧ Forall (group_ok own) groups ∧ (length groups ≤ 32)%nat ∧
    groups `prefix_of` groups ∧ (length groups = 32%nat ∨ covers groups (done_pids ++ pids))) as Hend.
  { intros ->. rewrite app_nil_r. split_and!; try done. by right. }
  subst r. destruct pids as [|p pids].
  { cbn [adopted_groups]. destruct Hrest as [->| ->]; [by apply Hend|].
    change (str " " ++ children_text []) with [" "%char]. cbn [app].
    destruct (_ <=? _)%nat; [by apply Hend|]. apply Hend. done. }
  apply Forall_cons in Hpids as [Hp Hpids]. cbn [length] in Hfuel.
  cbn [adopted_groups].
  destruct (rest ++ children_text (p :: pids)) as [|c t] eqn:Heq.
  { exfalso. apply (f_equal (skip_while is_blank)) in Heq.
    rewrite children_cons in Heq by (done || lia). simpl in Heq.
    apply app_nil in Heq as [Heq _]. by apply decimal_nonempty in Heq. }
  rewrite <- Heq. clear c t Heq.
  destruct (Nat.leb_spec 32 (length groups)) as [Hfull|Hroom].
  { split_and!; try done. left. lia. }
  rewrite children_cons by (done || lia).
  destruct (decimal p ++ str " " ++ children_text pids) as [|c t] eqn:Heq.
  { apply app_nil in Heq as [Heq _]. by apply decimal_nonempty in Heq. }
  rewrite <- Heq. clear c t Heq.
  rewrite (take_while_app not_blank (decimal p)).
  2: { eapply Forall_impl; [apply digits_field_char, decimal_digits; lia|].
       intros c [? _]%andb_true_iff. done. }
  2: { intros c. change (str " ") with [" "%char]. by intros [= <-]. }
  rewrite parse_unsigned_decimal, drop_app_length by (unfold INT_MAX, ULLONG_MAX in *; lia).
  match goal with |- context [adopted_groups _ _ fuel _ ?g] => set (groups' := g) end.
  assert (covers groups' (done_pids ++ [p])) as Hcov2 by (by apply covers_add).
  assert (groups `prefix_of` groups' ∧ (length groups' ≤ 32)%nat) as [Hpre Hlen'].
  { subst groups'. destruct (_ && _); [|done]. split; [by apply prefix_app_r|].
    rewrite length_app. simpl. lia. }
  destruct (IH pids (done_pids ++ [p]) (str " ") groups') as (R1 & R2 & R3 & R4 & R5);
    try done; [lia|by right|].
  split_and!; [done|done|done|by etransitivity|].
  rewrite <- app_assoc in R5. exact R5.
Qed.

End Groups.

Lemma children_text_length pids :
  Forall (λ p, 0 ≤ p) pids → (2 * length pids ≤ length (children_text pids))%nat.
Proof.
  induction 1 as [|p pids Hp _ IH]; [simpl; lia|].
  unfold children_text in *. cbn [map concat]. rewrite !length_app.
  change (length (str " ")) with 1%nat.
  pose proof (decimal_nonempty p). destruct (decimal p); [done|]. cbn [length]. lia.
Qed.

Lemma children_text_no_nul pids : Forall (λ p, 0 ≤ p) pids → zero ∉ children_text pids.
Proof.
  induction 1 as [|p pids Hp _ IH]; [set_solver|].
  unfold children_text in *. cbn [map concat]. rewrite !not_elem_of_app. split_and!; [|set_solver|done].
  by apply digits_no_nul, decimal_digits.
Qed.

(** ** The agent's output *)

(** [matched] is the longest end of [seen] that starts the message. *)
Definition longest (matched : nat) (seen : text) : Prop :=
  (matched < length ready_message)%nat ∧
  take matched ready_message `suffix_of` seen ∧
  ∀ l, (l ≤ length ready_message)%nat → take l ready_message `suffix_of` seen → (l ≤ matched)%nat.

(** The first character of the message occurs nowhere else in it. *)
Lemma ready_message_first i :
  (0 < i < length ready_message)%nat →
  nth i ready_message zero ≠ nth 0 ready_message zero.
Proof.
  assert (forallb (λ i, negb (bool_decide (nth i ready_message zero = nth 0 ready_message zero)))
    (seq 1 (length ready_message - 1)) = true) as Hall by (vm_compute; reflexivity).
  rewrite forallb_forall in Hall. intros Hi.
  specialize (Hall i ltac:(apply in_seq; lia)). by apply negb_true_iff, bool_decide_eq_false in Hall.
Qed.

Lemma take_S_nth (l : text) i : (i < length l)%nat → take (S i) l = take i l ++ [nth i l zero].
Proof.
  revert i. induction l as [|c l IH]; intros [|i] Hi; simpl in *; try lia; [done|].
  f_equal. apply IH. lia.
Qed.

Lemma suffix_snoc (p s : text) c d : p ++ [c] `suffix_of` s ++ [d] ↔ c = d ∧ p `suffix_of` s.
Proof.
  split.
  - intros [k Hk]. rewrite app_assoc in Hk. apply app_inj_tail in Hk as [-> ->].
    split; [done|]. by exists k.
  - intros [-> [k ->]]. exists k. by rewrite app_assoc.
Qed.

Lemma ready_message_suffix l seen c :
  (0 < l ≤ length ready_message)%nat →
  take l ready_message `suffix_of` seen ++ [c] ↔
  c = nth (l - 1) ready_message zero ∧ take (l - 1) ready_message `suffix_of` seen.
Proof.
  intros Hl. destruct l as [|l]; [lia|]. rewrite take_S_nth by lia.
  rewrite suffix_snoc. replace (S l - 1)%nat with l by lia. naive_solver.
Qed.

(** Two starts of the message that both end [seen] have the same first
    character inside the longer one. *)
Lemma longest_unique k l seen :
  (l < k < length ready_message)%nat → (0 < l)%nat →
  take k ready_message `suffix_of` seen → take l ready_message `suffix_of` seen → False.
Proof.
  intros Hk Hl [x Hx] [y Hy].
  assert (length x + k = length y + l)%nat as Hlen.
  { apply (f_equal length) in Hx, Hy. rewrite length_app, length_take in Hx, Hy. lia. }
  assert (nth (length y) seen zero = nth 0 ready_message zero) as H1.
  { rewrite Hy, app_nth2 by lia. rewrite Nat.sub_diag.
    destruct l; [lia|]. by destruct ready_message eqn:E. }
  assert (nth (length y) seen zero = nth (k - l) ready_message zero) as H2.
  { rewrite Hx, app_nth2 by lia. replace (length y - length x)%nat with (k - l)%nat by lia.
    rewrite <- (firstn_skipn k ready_message) at 2. rewrite app_nth1; [done|].
    rewrite length_take. lia. }
  apply (ready_message_first (k - l)); [lia|]. congruence.
Qed.

Definition occurs (seen : text) : Prop := ∃ before after, seen = before ++ ready_message ++ after.

Definition match_state (state : nat * bool) (seen : text) : Prop :=
  if state.2 then occurs seen else longest state.1 seen ∧ ¬ occurs seen.

Lemma occurs_snoc seen c :
  occurs (seen ++ [c]) ↔ occurs seen ∨ ready_message `suffix_of` seen ++ [c].
Proof.
  split.
  - intros (before & after & Heq). destruct after as [|d after _] using rev_ind.
    + right. exists before. by rewrite app_nil_r in Heq.
    + left. rewrite !app_assoc in Heq. apply app_inj_tail in Heq as [-> _].
      exists before, after. by rewrite app_assoc.
  - intros [(before & after & ->)|[k ->]].
    + exists before, (after ++ [c]). by rewrite <- !app_assoc.
    + exists k, []. by rewrite app_nil_r.
Qed.

Lemma match_character_spec state seen c :
  match_state state seen → match_state (match_character state c) (seen ++ [c]).
Proof.
  destruct state as [matched reported]. unfold match_state, match_character. simpl.
  destruct reported; [intros H; apply occurs_snoc; by left|].
  intros [(Hlt & Hsuf & Hmax) Hno]. assert (take (length ready_message) ready_message = ready_message)
    as Hfull by (by rewrite take_ge).
  assert (length ready_message = 33%nat) as Hlen33 by reflexivity.
  case_decide as Hc.
  - assert (take (S matched) ready_message `suffix_of` seen ++ [c]) as Hsuf'.
    { apply ready_message_suffix; [lia|]. replace (S matched - 1)%nat with matched by lia. done. }
    case_bool_decide as Hlen; simpl.
    + apply occurs_snoc. right. rewrite take_ge in Hsuf' by lia. exact Hsuf'.
    + split; [split_and!; [lia|done|]|].
      * intros l Hl Hls. destruct (decide (l = 0%nat)); [lia|].
        apply ready_message_suffix in Hls as [_ Hls]; [|lia]. apply Hmax in Hls; lia.
      * rewrite occurs_snoc. intros [?|Hr]; [done|]. rewrite <- Hfull in Hr.
        apply ready_message_suffix in Hr as [_ Hr]; [|lia]. apply Hmax in Hr; lia.
  - assert (∀ l, (l ≤ length ready_message)%nat → take l ready_message `suffix_of` seen ++ [c] →
      l = 0%nat ∨ l = 1%nat ∧ c = nth 0 ready_message zero) as Hsmall.
    { intros l Hl Hls. destruct (decide (l = 0%nat)); [by left|right].
      apply ready_message_suffix in Hls as [Hcl Hls]; [|lia].
      assert (l - 1 ≤ matched)%nat as Hle by (apply Hmax; [lia|done]).
      destruct (decide (l - 1 = matched)%nat) as [Heq|]; [by rewrite Heq in Hcl|].
      destruct (decide (l = 1%nat)) as [->|]; [by split|].
      exfalso. apply (longest_unique matched (l - 1) seen); (lia || done). }
    simpl. split.
    + split_and!.
      * case_decide; lia.
      * case_decide as Hfirst; [|apply suffix_nil].
        apply ready_message_suffix; [lia|]. split; [done|]. apply suffix_nil.
      * intros l Hl Hls. destruct (Hsmall l Hl Hls) as [->|[-> ?]]; [lia|]. by rewrite decide_True.
    + rewrite occurs_snoc. intros [?|Hr]; [done|]. rewrite <- Hfull in Hr.
      destruct (Hsmall (length ready_message) ltac:(lia) Hr) as [?|[? _]]; lia.
Qed.

Lemma match_buffer state seen data :
  match_state state seen → match_state (foldl match_character state data) (seen ++ data).
Proof.
  revert state seen. induction data as [|c data IH]; intros state seen Hs; simpl.
  - by rewrite app_nil_r.
  - replace (seen ++ c :: data) with ((seen ++ [c]) ++ data) by (by rewrite <- app_assoc).
    apply IH. by apply match_character_spec.
Qed.

Lemma match_start : match_state (0%nat, false) [].
Proof.
  split.
  - split_and!; [vm_compute; lia|apply suffix_nil|].
    intros l Hl [k Hk]. symmetry in Hk. apply app_nil in Hk as [_ Hk].
    apply (f_equal length) in Hk. rewrite length_take in Hk. simpl in Hk |- *. lia.
  - intros (before & after & Heq). symmetry in Heq. apply app_nil in Heq as [_ Heq].
    by apply app_nil in Heq as [Heq _].
Qed.

(** ** The status pipe *)

Lemma length_int_bytes z : length (int_bytes z) = 4%nat.
Proof. done. Qed.

Lemma int_of_bytes_int z : int_of_bytes (int_bytes z) = int_of_u32 (u32 z).
Proof.
  unfold int_of_bytes. f_equal.
  unfold int_bytes. cbn [seq map foldr]. rewrite !code_char.
  assert (0 ≤ u32 z < 2 ^ 32) as Hu by (unfold u32; apply Z.mod_pos_bound; lia).
  change (2 ^ (8 * Z.of_nat 0)) with 1. change (2 ^ (8 * Z.of_nat 1)) with 256.
  change (2 ^ (8 * Z.of_nat 2)) with 65536. change (2 ^ (8 * Z.of_nat 3)) with 16777216.
  generalize (u32 z) Hu. intros u Hu'. Z.div_mod_to_equations. lia.
Qed.

Lemma int_of_int_bytes z : - 2 ^ 31 ≤ z < 2 ^ 31 → int_of_bytes (int_bytes z) = z.
Proof. intros Hz. rewrite int_of_bytes_int. by apply int_of_u32_u32. Qed.

(** ** The command line *)

(** One option as the host writes it. *)
Inductive argument :=
  | AgentArgument (path : text)
  | VariableArgument (name : text) (merge : bool)
  | LaunchIdArgument (id : text)
  | SteamArgument (word : text).

Definition argument_ok (a : argument) : Prop :=
  match a with
  | SteamArgument word => word = str "SteamLaunch" ∨ has_prefix word (str "AppId=") = true
  | _ => True
  end.

Definition print_argument (a : argument) : list text :=
  match a with
  | AgentArgument path => [str "--agent"; path]
  | VariableArgument name merge =>
      [if merge then str "--dbus-env-path" else str "--dbus-env"; name]
  | LaunchIdArgument id => [str "--launch-id"; id]
  | SteamArgument word => [word]
  end.

(** What the options mean, given what came before. *)
Definition apply_argument (o : options) (a : argument) : options :=
  match a with
  | AgentArgument path => Options (Some path) o.(o_variables) o.(o_steam) o.(o_command)
  | VariableArgument name merge =>
      Options o.(o_agent) (o.(o_variables) ++ [(name, merge)]) o.(o_steam) o.(o_command)
  | LaunchIdArgument _ => o
  | SteamArgument _ => Options o.(o_agent) o.(o_variables) true o.(o_command)
  end.

Lemma steam_word_distinct word :
  word = str "SteamLaunch" ∨ has_prefix word (str "AppId=") = true →
  Forall (λ o, text_eqb word o = false)
    (map str ["--"; "--agent"; "--dbus-env"; "--dbus-env-path"; "--launch-id"]%string).
Proof.
  intros [->|[rest ->]%has_prefix_spec];
    repeat (apply Forall_cons; split); try apply Forall_nil; try done;
    apply text_eqb_neq; intros Heq; vm_compute in Heq; discriminate.
Qed.

Ltac option_tests :=
  repeat match goal with
  | |- context [text_eqb ?a ?b] =>
      let v := eval vm_compute in (text_eqb a b) in
      (constr_eq v true || constr_eq v false); change (text_eqb a b) with v
  end; cbn [orb andb].

Lemma parse_options_print arguments command agent variables steam :
  Forall argument_ok arguments →
  parse_options (concat (map print_argument arguments) ++ str "--" :: command)
    agent variables steam
  = Some (foldl apply_argument (Options agent variables steam command) arguments).
Proof.
  intros Hok. revert agent variables steam.
  induction Hok as [|a arguments Ha _ IH]; intros agent variables steam.
  { cbn [map concat app parse_options foldl]. by option_tests. }
  cbn [map concat foldl]. rewrite <- app_assoc.
  destruct a as [path|name merge|id|word]; cbn [print_argument app parse_options].
  - option_tests. apply IH.
  - destruct merge; option_tests; apply IH.
  - option_tests. apply IH.
  - pose proof (steam_word_distinct word Ha) as Hd.
    repeat match goal with H : Forall _ (map _ _) |- _ => cbn [map] in H end.
    repeat (apply Forall_cons in Hd as [? Hd]).
    repeat match goal with H : text_eqb word _ = false |- _ => rewrite H; clear H end.
    cbn [orb]. simpl in Ha. rewrite <- text_eqb_spec, <- orb_true_iff in Ha. rewrite Ha. apply IH.
Qed.

Lemma parse_options_sound args agent variables steam o :
  parse_options args agent variables steam = Some o →
  ∃ arguments, Forall argument_ok arguments ∧
    args = concat (map print_argument arguments) ++ str "--" :: o.(o_command) ∧
    o = foldl apply_argument (Options agent variables steam o.(o_command)) arguments.
Proof.
  remember (length args) as n eqn:Hn. revert args Hn agent variables steam.
  induction n as [n IH] using lt_wf_ind. intros args -> agent variables steam.
  assert (∀ args' agent' variables' steam' a,
    argument_ok a → args = print_argument a ++ args' → (length args' < length args)%nat →
    (∀ command, apply_argument (Options agent variables steam command) a
                = Options agent' variables' steam' command) →
    parse_options args' agent' variables' steam' = Some o →
    ∃ arguments, Forall argument_ok arguments ∧
      args = concat (map print_argument arguments) ++ str "--" :: o.(o_command) ∧
      o = foldl apply_argument (Options agent variables steam o.(o_command)) arguments) as Hstep.
  { intros args' agent' variables' steam' a Ha -> Hlen Happ Hp.
    destruct (IH _ Hlen args' eq_refl _ _ _ Hp) as (arguments & Hok & -> & Ho).
    exists (a :: arguments). cbn [map concat foldl]. rewrite <- app_assoc, Happ.
    split; [by constructor|]. by split. }
  destruct args as [|arg args]; [done|]. cbn [parse_options].
  destruct (text_eqb arg (str "--")) eqn:H1.
  { apply text_eqb_spec in H1 as ->. intros [= <-]. exists []. by split. }
  destruct (text_eqb arg (str "--agent")) eqn:H2.
  { apply text_eqb_spec in H2 as ->. destruct args as [|value args]; [done|].
    apply (Hstep args _ _ _ (AgentArgument value)); try done. simpl. lia. }
  destruct (text_eqb arg (str "--dbus-env") || text_eqb arg (str "--dbus-env-path")) eqn:H3.
  { destruct args as [|value args]; [done|].
    apply (Hstep args _ _ _ (VariableArgument value (text_eqb arg (str "--dbus-env-path"))));
      try done; [|simpl; lia].
    apply orb_true_iff in H3 as [H3|H3]; apply text_eqb_spec in H3 as ->; reflexivity. }
  destruct (text_eqb arg (str "--launch-id")) eqn:H4.
  { apply text_eqb_spec in H4 as ->. destruct args as [|value args]; [done|].
    apply (Hstep args _ _ _ (LaunchIdArgument value)); try done. simpl. lia. }
  destruct (text_eqb arg (str "SteamLaunch") || has_prefix arg (str "AppId=")) eqn:H5; [|done].
  apply (Hstep args _ _ _ (SteamArgument arg)); try done; [|simpl; lia].
  simpl. by rewrite <- text_eqb_spec, <- orb_true_iff.
Qed.

(** ** Properties *)

(** [parse_unsigned] accepts exactly the non-empty runs of decimal digits whose
    value is at most the maximum, without wrapping, and gives that value. *)
Theorem parse_unsigned_exact maximum s v :
  9 ≤ maximum ≤ ULLONG_MAX →
  parse_unsigned s maximum = Some v ↔
  s ≠ [] ∧ Forall (λ c, is_digit c = true) s ∧ v = digits_value s ∧ v ≤ maximum.
Proof. apply parse_unsigned_iff. Qed.

(** the start time is the 20th field after the process name, whatever the name
    contains: a process cannot forge its start time, on which the shared agent's
    identity rests, by spaces or parentheses in its name. *)
Theorem process_start_time_robust process before name fields f :
  1 < process → zero ∉ before → zero ∉ name →
  Forall (λ f, token f ∧ ")"%char ∉ f ∧ zero ∉ f) fields → fields !! 19%nat = Some f →
  let stat := before ++ str "(" ++ name ++ str ")" ++ spaced fields in
  (length stat ≤ 2047)%nat →
  process_start_time process (Some stat) = parse_unsigned f ULLONG_MAX.
Proof.
  intros Hp Hb Hn Hfields Hf stat Hlen. unfold process_start_time.
  rewrite (proj2 (Z.leb_gt _ _)) by done.
  destruct stat as [|c t] eqn:Hstat; [subst stat; by destruct before|].
  rewrite <- Hstat in *. clear c t Hstat.
  assert (")"%char ∉ spaced fields ∧ zero ∉ spaced fields) as [Hparen Hnul].
  { clear Hf Hlen stat. induction Hfields as [|g fields (_ & ? & ?) _ [IH1 IH2]]; [set_solver|].
    change (spaced (g :: fields)) with ((str " " ++ g) ++ spaced fields).
    rewrite !not_elem_of_app. split_and!; try done; change (str " ") with [" "%char]; set_solver. }
  rewrite take_ge by done. rewrite cstring_id.
  2: { subst stat. change (str "(") with ["("%char]. change (str ")") with [")"%char].
       rewrite !not_elem_of_app. split_and!; try done; set_solver. }
  subst stat. change (str ")") with [")"%char].
  rewrite (app_assoc (str "(")), (app_assoc before). cbn [app].
  rewrite after_last_app by done. cbn [mbind option_bind].
  apply start_time_field_spec; [|done]. eapply Forall_impl; [exact Hfields|]. by intros g [].
Qed.

(** a state written whole is read back unchanged, and never exceeds either
    function's buffer. *)
Theorem agent_state_round_trip content s n :
  state_ok s → (length (print_agent_state s) ≤ n)%nat →
  ∃ content', write_agent_state true (Some n) content s = (content', true) ∧
    (length content' < 127)%nat ∧ read_agent_state (Some content') = s.
Proof.
  intros Hok Hn. pose proof (print_agent_state_length s Hok). exists (print_agent_state s).
  unfold write_agent_state. rewrite (proj2 (Nat.leb_gt _ _)) by lia. cbn [negb].
  rewrite take_ge by done. rewrite (proj2 (Nat.leb_le _ _)) by done.
  split_and!; [done|lia|by apply read_print_agent_state].
Qed.

Lemma session_char_path c : session_char c = true → c ≠ "/"%char ∧ c ≠ "."%char.
Proof. intros H. split; intros ->; vm_compute in H; discriminate. Qed.

Lemma signed_decimal_chars n c :
  c ∈ signed_decimal n → c = "-"%char ∨ is_digit c = true.
Proof.
  unfold signed_decimal. destruct (Z.ltb_spec n 0).
  - intros [Hc|Hc]%elem_of_app.
    + left. change (str "-") with ["-"%char] in Hc. set_solver.
    + right. pose proof (decimal_digits (- n) ltac:(lia)) as Hd.
      rewrite Forall_forall in Hd. auto.
  - intros Hc. right. pose proof (decimal_digits n ltac:(lia)) as Hd.
    rewrite Forall_forall in Hd. auto.
Qed.

(** whatever [XDG_SESSION_ID] holds, the state file is a file of the user's
    runtime directory: the session part of its name has neither a slash nor a
    dot, and a well-formed identifier of at most 64 characters is used as it is. *)
Theorem agent_state_path_confined session sid uid path :
  agent_state_path session sid uid = Some path →
  (length path < 256)%nat ∧
  ∃ part, path = AGENT_STATE_ROOT ++ str "/" ++ decimal uid ++ str "/spaces-polkit-agent."
                 ++ part ++ str ".state" ∧
    "/"%char ∉ part ∧ "."%char ∉ part ∧
    (∀ id, session = Some id → id ≠ [] → (length id ≤ 64)%nat →
       forallb session_char id = true → part = id).
Proof.
  unfold agent_state_path.
  set (id := default [] session). set (len := if forallb _ _ then _ else _).
  set (part := if (_ || _) then _ else id).
  destruct (Nat.leb_spec 256 (length (AGENT_STATE_ROOT ++ str "/" ++ decimal uid
    ++ str "/spaces-polkit-agent." ++ part ++ str ".state"))) as [|Hlen]; [done|].
  intros [= <-]. split; [done|]. exists part. split; [done|].
  assert (∀ c, c ∈ part → c ≠ "/"%char ∧ c ≠ "."%char) as Hpart.
  { intros c Hc. subst part. destruct (_ || _) eqn:Htest.
    - apply elem_of_app in Hc as [Hc|Hc].
      + change (str "p") with ["p"%char] in Hc. apply list_elem_of_singleton in Hc as ->. done.
      + apply signed_decimal_chars in Hc as [->|Hc]; [done|].
        split; intros ->; vm_compute in Hc; discriminate.
    - apply orb_false_iff in Htest as [Hz%Nat.eqb_neq _]. subst len.
      destruct (forallb session_char id) eqn:Hall; [|done].
      rewrite forallb_forall in Hall. apply session_char_path, Hall. by apply list_elem_of_In. }
  split_and!.
  - intros Hin. by apply Hpart in Hin as [].
  - intros Hin. by apply Hpart in Hin as [].
  - intros id' -> Hne Hle Hall. subst part len id. simpl in *. rewrite Hall.
    rewrite (proj2 (Nat.eqb_neq _ _)) by (destruct id'; [done|simpl; lia]).
    by rewrite (proj2 (Nat.ltb_ge _ _)) by done.
Qed.

(** the groups signalled when the launcher is terminated: each at most once,
    never its own group or an invalid one, only groups of its children, and
    all of them unless 32 have been signalled. *)
Theorem terminate_adopted_groups_spec getpgid own pids :
  Forall (λ p, 0 ≤ p ≤ INT_MAX) pids → (length (children_text pids) ≤ 4095)%nat →
  let groups := terminate_adopted_groups getpgid own (Some (children_text pids)) in
  NoDup groups ∧ (∀ g, g ∈ groups → 1 < g ∧ g ≠ own) ∧ (length groups ≤ 32)%nat ∧
  (length groups = 32%nat ∨
   ∀ p, p ∈ pids → 1 < getpgid p → getpgid p ≠ own → getpgid p ∈ groups).
Proof.
  intros Hpids Hlen groups.
  assert (Forall (λ p, 0 ≤ p) pids) as Hpos
    by (eapply Forall_impl; [exact Hpids|]; simpl; lia).
  assert (groups = adopted_groups getpgid own (S (length (children_text pids)))
    ([] ++ children_text pids) []) as Heq.
  { subst groups. unfold terminate_adopted_groups. rewrite take_ge by done.
    by rewrite cstring_id by (by apply children_text_no_nul). }
  pose proof (children_text_length pids Hpos).
  assert (covers getpgid own [] []) as Hcov.
  { split_and!; [constructor|constructor|]. intros p Hp. by apply elem_of_nil in Hp. }
  destruct pids as [|p pids].
  { rewrite Heq. simpl. split_and!; [constructor|set_solver|lia|right; set_solver]. }
  destruct (adopted_groups_spec getpgid own (S (length (children_text (p :: pids))))
    (p :: pids) [] [] []) as (H1 & H2 & H3 & _ & H5);
    [simpl length in *; lia|done|by left|done|simpl; lia|].
  rewrite <- Heq in *. split_and!; [done| |done|].
  - rewrite Forall_forall in H2. exact H2.
  - destruct H5 as [?|(_ & _ & Hall)]; [by left|right]. intros q Hq ? ?. apply Hall; [done|].
    by split.
Qed.

Lemma take_nth_drop (l : text) i :
  (i < length l)%nat → l = take i l ++ nth i l zero :: drop (S i) l.
Proof.
  revert i. induction l as [|c l IH]; intros [|i] Hi; simpl in *; try lia; [done|].
  f_equal. apply IH. lia.
Qed.

(** the value of a variable is that of the first line that assigns it. *)
Theorem manager_environment_value_first lines name value :
  Forall (λ l, newline_char ∉ l) lines →
  manager_environment_value (concat (map (λ l, l ++ [newline_char]) lines)) name = Some value ↔
  ∃ before after, lines = before ++ (name ++ str "=" ++ value) :: after ∧
    Forall (λ l, ¬ name ++ str "=" `prefix_of` l) before.
Proof.
  intros Hlines. unfold manager_environment_value.
  assert (components newline_char (concat (map (λ l, l ++ [newline_char]) lines)) = lines) as ->.
  { induction Hlines as [|l lines Hl _ IH]; [done|]. cbn [map concat].
    rewrite <- app_assoc. cbn [app]. by rewrite components_app, IH. }
  clear Hlines.
  assert (∀ l v, line_value name l = Some v ↔ l = name ++ str "=" ++ v) as Hline.
  { intros l v. unfold line_value. change (str "=") with ["="%char]. split.
    - destruct (_ && _) eqn:Htest; [|done]. intros [= <-].
      rewrite !andb_true_iff, Nat.ltb_lt, bool_decide_eq_true, text_eqb_spec in Htest.
      destruct Htest as [[Hlt Hc] Hname].
      rewrite (take_nth_drop l (length name)) at 1 by done. rewrite Hname, Hc.
      by replace (length name + 1)%nat with (S (length name)) by lia.
    - intros ->. rewrite length_app. cbn [app length].
      rewrite (proj2 (Nat.ltb_lt _ _)) by lia. rewrite app_nth2, Nat.sub_diag by lia. cbn [nth].
      rewrite bool_decide_eq_true_2 by done. rewrite take_app_length, text_eqb_refl.
      cbn [andb]. rewrite drop_app_ge by lia. do 2 f_equal.
      replace (length name + 1 - length name)%nat with 1%nat by lia. done. }
  induction lines as [|l lines IH]; cbn [first_value].
  { split; [done|]. intros (before & after & Heq & _). by destruct before. }
  destruct (line_value name l) as [v|] eqn:Hl.
  - pose proof (proj1 (Hline _ _) Hl) as Hl'. split.
    + intros [= <-]. exists [], lines. by rewrite Hl'.
    + intros (before & after & Heq & Hb). destruct before as [|l' before].
      * injection Heq as Heq _. apply Hline in Heq. congruence.
      * injection Heq as <- _. apply Forall_cons in Hb as [Hb _]. exfalso. apply Hb.
        exists v. by rewrite Hl', <- app_assoc.
  - rewrite IH. split.
    + intros (before & after & -> & Hb). exists (l :: before), after. split; [done|].
      constructor; [|done]. intros [v Hv]. rewrite <- app_assoc in Hv.
      apply Hline in Hv. congruence.
    + intros (before & after & Heq & Hb). destruct before as [|l' before].
      * injection Heq as Heq _. apply Hline in Heq. congruence.
      * injection Heq as <- ->. apply Forall_cons in Hb as [_ Hb]. eauto.
Qed.

(** a merged search path keeps the preferred path in front, unchanged, and
    appends exactly the preserved path's components that it lacks, once each
    and in their order; the buffer allocated for it is large enough. *)
Theorem merge_path_environment_spec preferred preserved :
  let merged := merge_path_environment preferred preserved in
  (length merged < length preferred + length preserved + 2)%nat ∧
  preferred `prefix_of` merged ∧
  ∃ added, parts merged = parts preferred ++ added ∧ NoDup added ∧
    added `sublist_of` parts preserved ∧
    ∀ p, p ∈ added ↔ p ∈ parts preserved ∧ p ∉ parts preferred.
Proof.
  intros merged. unfold merged, merge_path_environment.
  destruct (merge_length preferred (components ":" preserved)) as [Hlen [rest Hrest]].
  pose proof (components_length ":" preserved). split_and!; [lia|by exists rest|].
  rewrite parts_merge by apply components_no_delimiter. apply add_missing_foldl.
Qed.

(** A wait status gives the exit code, or 128 plus the signal that killed the
    application. *)
Theorem status_code_exact :
  (∀ code, 0 ≤ code < 256 → status_code (code * 256) = code) ∧
  (∀ signal core, 0 < signal < 127 → core = 0 ∨ core = 128 →
     status_code (signal + core) = 128 + signal).
Proof.
  split.
  - intros c Hc. unfold status_code, WIFEXITED, WTERMSIG, WEXITSTATUS.
    change 0x7f with (Z.ones 7). rewrite Z.land_ones by lia.
    replace (c * 256) with (c * 2 * 2 ^ 7) at 1 by lia. rewrite Z.mod_mul by lia. cbn [Z.eqb].
    rewrite Z.shiftr_land. change (Z.shiftr 0xff00 8) with (Z.ones 8).
    rewrite Z.land_ones, Z.shiftr_div_pow2 by lia. change (2 ^ 8) with 256.
    rewrite Z.div_mul by lia. apply Z.mod_small. lia.
  - intros signal core Hsig Hcore. unfold status_code, WIFEXITED, WIFSIGNALED, WTERMSIG.
    change 0x7f with (Z.ones 7). rewrite Z.land_ones by lia.
    assert ((signal + core) mod 2 ^ 7 = signal) as ->.
    { destruct Hcore as [->| ->]; [rewrite Z.add_0_r; apply Z.mod_small; lia|].
      change 128 with (1 * 2 ^ 7). rewrite Z.mod_add by lia. apply Z.mod_small. lia. }
    rewrite (proj2 (Z.eqb_neq _ _)) by lia. rewrite (proj2 (Z.ltb_lt (signal + 1) 128)) by lia.
    rewrite Z.shiftr_div_pow2 by lia. rewrite (proj2 (Z.ltb_lt 0 _)); [done|].
    apply Z.div_str_pos. lia.
Qed.

(** C39: the command line is accepted exactly when it is a list of well-formed
    options, then [--], then the command; the options mean what they say in
    order, and the command is passed on untouched. *)
Theorem launcher_options_exact argv0 args o :
  launcher_options (argv0 :: args) = Some o ↔
  ∃ arguments, Forall argument_ok arguments ∧
    args = concat (map print_argument arguments) ++ str "--" :: o.(o_command) ∧
    o = foldl apply_argument (Options None [] false o.(o_command)) arguments.
Proof.
  unfold launcher_options. change (drop 1 (argv0 :: args)) with args. split.
  - apply parse_options_sound.
  - intros (arguments & Hok & -> & Ho). rewrite Ho at 2.
    by apply parse_options_print.
Qed.

(** ** Witnesses *)

Lemma parse_unsigned_exact_witness :
  parse_unsigned (str "4294967295") UINT_MAX = Some UINT_MAX ∧
  parse_unsigned (str "4294967296") UINT_MAX = None.
Proof.
  split; [|vm_compute; reflexivity].
  apply parse_unsigned_exact; [unfold UINT_MAX, ULLONG_MAX; lia|].
  split; [discriminate|]. split; [|split; [vm_compute; reflexivity|reflexivity]].
  apply (bool_decide_unpack _). vm_compute. exact I.
Defined.

(** A process that calls itself [x) S 0 0 (y]. *)
Definition sample_fields : list text :=
  map str ["S"; "1"; "77"; "77"; "0"; "-1"; "4194304"; "10"; "0"; "0"; "0"; "1"; "2"; "0"; "0";
           "20"; "0"; "1"; "0"; "918273"; "4096"; "0"]%string.

Lemma process_start_time_robust_witness :
  process_start_time 77 (Some (str "77 " ++ str "(" ++ str "x) S 0 0 (y" ++ str ")"
    ++ spaced sample_fields)) = Some 918273.
Proof.
  rewrite (process_start_time_robust 77 (str "77 ") (str "x) S 0 0 (y") sample_fields (str "918273"));
    [vm_compute; reflexivity|lia| | | |vm_compute; reflexivity|vm_compute; lia];
    apply (bool_decide_unpack _); vm_compute; exact I.
Defined.

Definition sample_agent : AgentState := {| pid := 4242; start_time := 918273; references := 2 |}.

Lemma agent_state_round_trip_witness :
  ∃ content, write_agent_state true (Some 15%nat) [] sample_agent = (content, true) ∧
    read_agent_state (Some content) = sample_agent.
Proof.
  destruct (agent_state_round_trip [] sample_agent 15) as (content & H1 & _ & H2).
  - unfold state_ok, sample_agent, INT_MAX, ULLONG_MAX, UINT_MAX. simpl. lia.
  - vm_compute. lia.
  - exists content. split; [exact H1|exact H2].
Defined.

Lemma agent_state_path_confined_witness :
  agent_state_path (Some (str "../../tmp/x")) 40 1000
    = Some (str "/run/user/1000/spaces-polkit-agent.p40.state") ∧
  ∃ part, str "/run/user/1000/spaces-polkit-agent.p40.state"
    = AGENT_STATE_ROOT ++ str "/" ++ decimal 1000 ++ str "/spaces-polkit-agent."
      ++ part ++ str ".state" ∧ "/"%char ∉ part.
Proof.
  split; [vm_compute; reflexivity|].
  destruct (agent_state_path_confined (Some (str "../../tmp/x")) 40 1000
    (str "/run/user/1000/spaces-polkit-agent.p40.state")) as (_ & part & H1 & H2 & _);
    [vm_compute; reflexivity|].
  exists part. split; [exact H1|exact H2].
Defined.

Lemma terminate_adopted_groups_spec_witness :
  terminate_adopted_groups (λ p, if p =? 12 then 11 else p) 20 (Some (children_text [11; 12; 20; 30]))
    = [11; 30] ∧
  NoDup (terminate_adopted_groups (λ p, if p =? 12 then 11 else p) 20
           (Some (children_text [11; 12; 20; 30]))).
Proof.
  split; [vm_compute; reflexivity|].
  destruct (terminate_adopted_groups_spec (λ p, if p =? 12 then 11 else p) 20 [11; 12; 20; 30])
    as [Hnd _]; [|vm_compute; lia|exact Hnd].
  repeat (apply Forall_cons; split; [unfold INT_MAX; lia|]). apply Forall_nil. exact I.
Defined.

Lemma manager_environment_value_first_witness :
  manager_environment_value
    (concat (map (λ l, l ++ [newline_char]) (map str ["PATHS=/x"; "PATH=/usr/bin"; "PATH=/bin"]%string)))
    (str "PATH") = Some (str "/usr/bin").
Proof.
  apply manager_environment_value_first.
  - apply (bool_decide_unpack _). vm_compute. exact I.
  - exists [str "PATHS=/x"], [str "PATH=/bin"]. split; [vm_compute; reflexivity|].
    apply Forall_singleton. intros [k Hk]. vm_compute in Hk. discriminate Hk.
Defined.

Example merge_paths :
  merge_path_environment (str "/opt/spaces/bin:/usr/bin") (str "/usr/bin::/usr/local/bin:/usr/bin")
    = str "/opt/spaces/bin:/usr/bin:/usr/local/bin".
Proof. vm_compute. reflexivity. Qed.

Example launcher_command :
  launcher_options (map str ["spaces"; "--agent"; "/usr/bin/agent"; "--dbus-env-path"; "PATH";
                             "AppId=7"; "--"; "app"; "--agent"]%string)
    = Some (Options (Some (str "/usr/bin/agent")) [(str "PATH", true)] true
              [str "app"; str "--agent"]).
Proof. vm_compute. reflexivity. Qed.
