(* ===== verification/Agent.v ===== *)
(** * The shared polkit agent ([native/spaces.c])

    The launches of one session share one agent process.  Its process id,
    start time and number of users are kept in a state file that a launch
    reads and writes only under an exclusive lock; the launch that starts the
    agent keeps the lock until the agent is ready.  [Launch] models the file's
    format; this file models the three operations on it and the interleavings
    of launches, with the kernel's answers as arguments.

    The theorems: an agent is never terminated while a launch still uses it,
    none stays behind when its users are gone, there is never more than one,
    and what happens when the new agent's start time cannot be read. *)

From S2P Require Import Prelude Launch.

(** ** The operations *)

(** The kernel's answers about a process: [getpgid], [process_start_time] and
    whether [kill(-pid, 0)] succeeds or fails with [EPERM]. *)
Record kernel := Kernel {
  getpgid : Z → Z;
  start_time_of : Z → option Z;
  signals : Z → bool;
}.

Definition agent_state_is_live (k : kernel) (s : AgentState) : bool :=
  (1 <? s.(pid)) && (0 <? s.(references)) && (k.(getpgid) s.(pid) =? s.(pid))
  && bool_decide (k.(start_time_of) s.(pid) = Some s.(start_time)) && k.(signals) s.(pid).

(** [AgentReference]; [state_descriptor] is open, and the lock held, exactly
    while [r_starting]. *)
Record AgentReference := Reference {
  r_pid : Z;
  r_start_time : Z;
  r_held : bool;
  r_starting : bool;
}.

#[export] Instance AgentReference_eq_dec : EqDecision AgentReference.
Proof. solve_decision. Defined.

Definition no_reference : AgentReference := Reference (-1) 0 false false.

Definition no_agent : AgentState := {| pid := 0; start_time := 0; references := 0 |}.

(** How a write of the state goes: [ftruncate]'s and [pwrite]'s results. *)
Abbreviation io := (bool * option nat)%type.

Definition write_state (w : io) (s : AgentState) (file : text) : text * bool :=
  write_agent_state w.1 w.2 file s.

(** [acquire_agent_reference] with the lock taken and an agent to start;
    [started] is the process [start_agent] returns, if it does. *)
Definition acquire_agent_reference (k : kernel) (w : io) (started : option Z) (file : text) :
    text * AgentReference :=
  let state := read_agent_state (Some file) in
  if agent_state_is_live k state && (state.(references) <? UINT_MAX) then
    let '(file, written) := write_state w
      {| pid := state.(pid); start_time := state.(start_time);
         references := u32 (state.(references) + 1) |} file in
    (file, if written then Reference state.(pid) state.(start_time) true false
           else no_reference)
  else
    let '(file, _) := write_state w no_agent file in
    match started with
    | Some process => (file, Reference process 0 true true)
    | None => (file, no_reference)
    end.

(** [finish_agent_reference]; [exited] tells that [waitpid] collected the agent.
    The last component is the process given to [stop_agent]. *)
Definition finish_agent_reference (k : kernel) (w w' : io) (exited : bool)
    (r : AgentReference) (file : text) : text * AgentReference * option Z :=
  if negb r.(r_starting) then (file, r, None) else
  let '(file, r, failed) :=
    if exited then (file, r, true) else
    match k.(start_time_of) r.(r_pid) with
    | None => (file, r, false)
    | Some start =>
        let r := Reference r.(r_pid) start r.(r_held) r.(r_starting) in
        let '(file, written) := write_state w
          {| pid := r.(r_pid); start_time := start; references := 1 |} file in
        if written then (file, Reference r.(r_pid) start r.(r_held) false, false)
        else (file, r, true)
    end in
  if failed then
    let '(file, _) := write_state w' no_agent file in (file, no_reference, Some r.(r_pid))
  else (file, r, None).

(** [release_agent_reference] with the lock taken.  The last component is the
    process given to [terminate_agent]. *)
Definition release_agent_reference (w : io) (r : AgentReference) (file : text) :
    text * AgentReference * option Z :=
  if negb r.(r_held) || (r.(r_pid) <=? 0) then (file, r, None) else
  let state := read_agent_state (Some file) in
  if (state.(pid) =? r.(r_pid)) && (state.(start_time) =? r.(r_start_time))
     && (0 <? state.(references)) then
    let references := state.(references) - 1 in
    if references =? 0 then
      let '(file, _) := write_state w no_agent file in
      (file, no_reference, Some r.(r_pid))
    else
      let '(file, _) := write_state w
        {| pid := state.(pid); start_time := state.(start_time); references := references |} file in
      (file, no_reference, None)
  else (file, no_reference, None).

(** ** Launches of a session *)

(** [live] maps the agents that run to their start times; [used] remembers
    every process that was ever an agent. *)
Record world := World {
  file : text;
  lock : option nat;
  live : gmap Z Z;
  refs : gmap nat AgentReference;
  used : gset (Z * Z);
}.

Definition kernel_of (live : gmap Z Z) : kernel := {|
  getpgid p := if live !! p then p else -1;
  start_time_of p := live !! p;
  signals p := if live !! p then true else false |}.

(** A write that succeeds: the state fits the buffer and the file system. *)
Definition written : io := (true, Some 128%nat).

Definition stop (process : option Z) (live : gmap Z Z) : gmap Z Z :=
  match process with Some p => delete p live | None => live end.

(** A process the kernel can start: its id is free, and no earlier process with
    that id started at the same time. *)
Definition startable (w : world) (p s : Z) : Prop :=
  1 < p ≤ INT_MAX ∧ 0 ≤ s ≤ ULLONG_MAX ∧ w.(live) !! p = None ∧ (p, s) ∉ w.(used).

(** One launch's critical section, or an agent's death.  Launches are
    processes, so there are fewer of them than [UINT_MAX]. *)
Inductive step : world → world → Prop :=
  | step_share w l file' r :
      w.(lock) = None → w.(refs) !! l = None → Z.of_nat (size w.(refs)) < UINT_MAX →
      acquire_agent_reference (kernel_of w.(live)) written None w.(file) = (file', r) →
      step w (World file' None w.(live) (<[l := r]> w.(refs)) w.(used))
  | step_start w l p s file' r :
      w.(lock) = None → w.(refs) !! l = None → Z.of_nat (size w.(refs)) < UINT_MAX →
      startable w p s →
      acquire_agent_reference (kernel_of w.(live)) written (Some p) w.(file) = (file', r) →
      r.(r_starting) = true →
      step w (World file' (Some l) (<[p := s]> w.(live)) (<[l := r]> w.(refs))
                ({[(p, s)]} ∪ w.(used)))
  | step_finish w l r exited file' r' stopped :
      w.(lock) = Some l → w.(refs) !! l = Some r →
      (exited = true ↔ w.(live) !! r.(r_pid) = None) →
      finish_agent_reference (kernel_of w.(live)) written written exited r w.(file)
        = (file', r', stopped) →
      step w (World file' None (stop stopped w.(live)) (<[l := r']> w.(refs)) w.(used))
  | step_release w l r file' r' terminated :
      w.(lock) = None → w.(refs) !! l = Some r →
      release_agent_reference written r w.(file) = (file', r', terminated) →
      step w (World file' None (stop terminated w.(live)) (delete l w.(refs)) w.(used))
  | step_die w p :
      step w (World w.(file) w.(lock) (delete p w.(live)) w.(refs) w.(used)).

(** The session's first launch creates the state file empty. *)
Definition initial : world := World [] None ∅ ∅ ∅.

Definition reachable (w : world) : Prop := rtc step initial w.

(** Launch [l] uses the agent [p] that started at [s]. *)
Definition uses (w : world) (l : nat) (p s : Z) : Prop :=
  ∃ r, w.(refs) !! l = Some r ∧ r.(r_held) = true ∧ r.(r_starting) = false ∧
       r.(r_pid) = p ∧ r.(r_start_time) = s.

(** Launch [l] waits for the agent [p] it has started. *)
Definition starts (w : world) (l : nat) (p : Z) : Prop :=
  ∃ r, w.(refs) !! l = Some r ∧ r.(r_held) = true ∧ r.(r_starting) = true ∧ r.(r_pid) = p.

(** ** Invariant *)

Record Inv (w : world) : Prop := {
  (** The file is empty, or holds a state; whoever waits has cleared it. *)
  inv_file : (w.(file) = [] ∧ w.(lock) = None ∧ ∀ l p s, ¬ uses w l p s) ∨
    ∃ st, w.(file) = print_agent_state st ∧ state_ok st ∧
      (st.(references) = 0 → st = no_agent) ∧
      (w.(lock) ≠ None → st = no_agent) ∧
      (0 < st.(references) →
        1 < st.(pid) ∧ (st.(pid), st.(start_time)) ∈ w.(used) ∧
        ∃ users : gset nat, Z.of_nat (size users) = st.(references) ∧
          ∀ l, l ∈ users ↔ uses w l st.(pid) st.(start_time)) ∧
      (∀ l p s, uses w l p s → w.(live) !! p = Some s →
        0 < st.(references) ∧ st.(pid) = p ∧ st.(start_time) = s);
  inv_lock l p : starts w l p → w.(lock) = Some l;
  inv_waiting l : w.(lock) = Some l → ∃ p, starts w l p;
  inv_refs l r : w.(refs) !! l = Some r →
    (r = no_reference ∨ r.(r_held) = true ∧ 1 < r.(r_pid) ≤ INT_MAX);
  inv_used l p s : uses w l p s → (p, s) ∈ w.(used);
  (** Every agent that runs is used or waited for. *)
  inv_live p s : w.(live) !! p = Some s →
    1 < p ≤ INT_MAX ∧ 0 ≤ s ≤ ULLONG_MAX ∧ (p, s) ∈ w.(used) ∧
    ((∃ l, uses w l p s) ∨ (∃ l, starts w l p ∧ ∀ q t, w.(live) !! q = Some t → q = p));
}.

(** ** Facts about the operations *)

Lemma state_ok_no_agent : state_ok no_agent.
Proof. unfold state_ok, no_agent, INT_MAX, ULLONG_MAX, UINT_MAX. simpl. lia. Qed.

Lemma write_written s content : state_ok s → write_state written s content = (print_agent_state s, true).
Proof.
  intros Hok. pose proof (print_agent_state_length s Hok).
  unfold write_state, write_agent_state, written. cbn [fst snd negb].
  rewrite (proj2 (Nat.leb_gt _ _)) by lia. rewrite take_ge by lia.
  by rewrite (proj2 (Nat.leb_le _ _)) by lia.
Qed.

Lemma live_iff live s :
  agent_state_is_live (kernel_of live) s = true ↔
  1 < s.(pid) ∧ 0 < s.(references) ∧ live !! s.(pid) = Some s.(start_time).
Proof.
  unfold agent_state_is_live, kernel_of. simpl.
  rewrite !andb_true_iff, !Z.ltb_lt, Z.eqb_eq, bool_decide_eq_true.
  destruct (live !! pid s) as [t|] eqn:Hl; [tauto|]. split; [intros [? ?]; done|by intros (_ & _ & ?)].
Qed.

Lemma uses_insert f lk lv m u l r l' p s :
  uses (World f lk lv (<[l := r]> m) u) l' p s ↔
  (l' = l ∧ r.(r_held) = true ∧ r.(r_starting) = false ∧ r.(r_pid) = p ∧ r.(r_start_time) = s) ∨
  (l' ≠ l ∧ ∃ r', m !! l' = Some r' ∧ r'.(r_held) = true ∧ r'.(r_starting) = false ∧
     r'.(r_pid) = p ∧ r'.(r_start_time) = s).
Proof.
  unfold uses. simpl. setoid_rewrite lookup_insert_Some. naive_solver.
Qed.

Lemma starts_insert f lk lv m u l r l' p :
  starts (World f lk lv (<[l := r]> m) u) l' p ↔
  (l' = l ∧ r.(r_held) = true ∧ r.(r_starting) = true ∧ r.(r_pid) = p) ∨
  (l' ≠ l ∧ ∃ r', m !! l' = Some r' ∧ r'.(r_held) = true ∧ r'.(r_starting) = true ∧
     r'.(r_pid) = p).
Proof.
  unfold starts. simpl. setoid_rewrite lookup_insert_Some. naive_solver.
Qed.

Lemma uses_delete f lk lv m u l l' p s :
  uses (World f lk lv (delete l m) u) l' p s ↔
  l' ≠ l ∧ ∃ r', m !! l' = Some r' ∧ r'.(r_held) = true ∧ r'.(r_starting) = false ∧
     r'.(r_pid) = p ∧ r'.(r_start_time) = s.
Proof. unfold uses. simpl. setoid_rewrite lookup_delete_Some. naive_solver. Qed.

Lemma starts_delete f lk lv m u l l' p :
  starts (World f lk lv (delete l m) u) l' p ↔
  l' ≠ l ∧ ∃ r', m !! l' = Some r' ∧ r'.(r_held) = true ∧ r'.(r_starting) = true ∧
     r'.(r_pid) = p.
Proof. unfold starts. simpl. setoid_rewrite lookup_delete_Some. naive_solver. Qed.

Lemma users_bound w (users : gset nat) p s :
  (∀ l, l ∈ users ↔ uses w l p s) → (size users ≤ size w.(refs))%nat.
Proof.
  intros Hu. rewrite <- (size_dom (D := gset nat)). apply subseteq_size. intros l Hl.
  apply Hu in Hl as (r & Hr & _). by apply elem_of_dom; exists r.
Qed.

(** Whether an arriving launch shares: the file holds the agent that runs, or
    no agent runs. *)
Lemma agent_test w :
  Inv w → w.(lock) = None → Z.of_nat (size w.(refs)) < UINT_MAX →
  let st := read_agent_state (Some w.(file)) in
  (agent_state_is_live (kernel_of w.(live)) st = true ∧ st.(references) < UINT_MAX ∧
     w.(file) = print_agent_state st ∧ state_ok st) ∨
  (agent_state_is_live (kernel_of w.(live)) st && (st.(references) <? UINT_MAX) = false ∧
     w.(live) = ∅).
Proof.
  intros [] Hlock Hsize st.
  assert (∀ p s, w.(live) !! p = Some s → ∃ l, uses w l p s) as Hused.
  { intros p s Hp. destruct (inv_live0 p s Hp) as (_ & _ & _ & [?|(l & Hl & _)]); [done|].
    apply inv_lock0 in Hl. congruence. }
  destruct inv_file0 as [(Hf & _ & Hno)|(st' & Hf & Hok & Hzero & Hwait & Husers & Hcur)].
  - right. subst st. rewrite Hf. split; [done|]. apply map_empty. intros p.
    apply eq_None_not_Some. intros [s Hp]. destruct (Hused p s Hp) as [l Hl]. by apply (Hno l p s).
  - assert (st = st') as -> by (subst st; rewrite Hf; by apply read_print_agent_state).
    destruct (agent_state_is_live (kernel_of w.(live)) st') eqn:Hlive.
    + left. apply live_iff in Hlive as (Hpid & Hrefs & Hl). split_and!; try done.
      destruct (Husers Hrefs) as (_ & _ & users & Hsz & Hu). apply users_bound in Hu. lia.
    + right. split; [done|]. apply map_empty. intros p. apply eq_None_not_Some. intros [s Hp].
      destruct (Hused p s Hp) as [l Hl]. destruct (Hcur l p s Hl Hp) as (Hrefs & <- & <-).
      destruct (Husers Hrefs) as (Hpid & _ & _).
      assert (agent_state_is_live (kernel_of w.(live)) st' = true) by (by apply live_iff).
      congruence.
Qed.

Lemma no_uses_zero w st :
  (∀ l p s, uses w l p s → w.(live) !! p = Some s →
     0 < st.(references) ∧ st.(pid) = p ∧ st.(start_time) = s) → st = no_agent →
  ∀ l p s, uses w l p s → w.(live) !! p = Some s → False.
Proof. intros H -> l p s Hu Hl. destruct (H l p s Hu Hl) as [Hr _]. simpl in Hr. lia. Qed.

Lemma agent_initial : Inv initial.
Proof.
  constructor.
  - left. split_and!; try done. intros l p s (r & Hr & _). simpl in Hr. by rewrite lookup_empty in Hr.
  - intros l p (r & Hr & _). simpl in Hr. by rewrite lookup_empty in Hr.
  - done.
  - intros l r Hr. simpl in Hr. by rewrite lookup_empty in Hr.
  - intros l p s (r & Hr & _). simpl in Hr. by rewrite lookup_empty in Hr.
  - intros p s Hp. simpl in Hp. by rewrite lookup_empty in Hp.
Qed.

(** A launch that shares the agent of the file. *)
Lemma agent_join w l st :
  Inv w → w.(lock) = None → w.(refs) !! l = None →
  w.(file) = print_agent_state st → state_ok st → st.(references) < UINT_MAX →
  agent_state_is_live (kernel_of w.(live)) st = true →
  let st' := {| pid := st.(pid); start_time := st.(start_time);
                references := u32 (st.(references) + 1) |} in
  Inv (World (print_agent_state st') None w.(live)
        (<[l := Reference st.(pid) st.(start_time) true false]> w.(refs)) w.(used)).
Proof.
  intros I Hlock Hl Hf Hok Hmax Hlive st'.
  apply live_iff in Hlive as (Hpid & Hrefs & Hlv).
  assert (u32 (st.(references) + 1) = st.(references) + 1) as Hu32.
  { apply u32_small. destruct Hok as (_ & _ & ?). unfold UINT_MAX in *. lia. }
  destruct I. destruct inv_file0 as [(Hf' & _)|(st0 & Hf' & Hok0 & Hzero & Hwait & Husers & Hcur)].
  { exfalso. rewrite Hf' in Hf. unfold print_agent_state in Hf. symmetry in Hf.
    apply app_nil in Hf as [_ Hf]. done. }
  assert (st0 = st) as ->.
  { rewrite <- (read_print_agent_state st0), <- (read_print_agent_state st) by done. congruence. }
  destruct (Husers Hrefs) as (_ & Hin & users & Hsz & Hu).
  assert (l ∉ users) as Hnew.
  { intros Hlu. apply Hu in Hlu as (r & Hr & _). congruence. }
  assert (state_ok st') as Hok'.
  { destruct Hok as (? & ? & ?). subst st'. unfold state_ok. simpl. rewrite Hu32.
    unfold UINT_MAX in *. lia. }
  constructor; simpl.
  - right. exists st'. split_and!; try done; subst st'; simpl; rewrite Hu32.
    + lia.
    + intros _. split_and!; [done|done|]. exists ({[l]} ∪ users).
      rewrite size_union, size_singleton by set_solver. split; [lia|].
      intros l'. rewrite uses_insert, elem_of_union, elem_of_singleton, Hu. simpl.
      destruct (decide (l' = l)) as [->|]; [|unfold uses; tauto].
      split; [by left|by left].
    + intros l' p s [(_ & _ & _ & <- & <-)|[_ Hu']]%uses_insert Hp; [split; [lia|done]|].
      destruct (Hcur l' p s Hu' Hp) as (_ & ? & ?). split; [lia|done].
  - intros l' p [(_ & _ & [=] & _)|[_ Hs]]%starts_insert.
    rewrite <- Hlock. by apply (inv_lock0 l' p).
  - done.
  - intros l' r [[<- <-]|[_ Hr]]%lookup_insert_Some; [right|by eauto]. simpl.
    destruct Hok as ((? & ?) & _). split; [done|lia].
  - intros l' p s [(_ & _ & _ & <- & <-)|[_ Hu']]%uses_insert; [done|]. by apply (inv_used0 l' p s).
  - intros p s Hp. destruct (inv_live0 p s Hp) as (H1 & H2 & H3 & [[l' Hu']|(l' & Hs & _)]).
    + split_and!; try lia; [done|]. left. exists l'. apply uses_insert. right.
      split; [intros ->; destruct Hu' as (r & Hr & _); congruence|done].
    + apply inv_lock0 in Hs. congruence.
Qed.

(** A state file without an agent, and a launch that has none. *)
Lemma agent_clear w l :
  Inv w → w.(lock) = None → w.(refs) !! l = None → w.(live) = ∅ →
  Inv (World (print_agent_state no_agent) None w.(live) (<[l := no_reference]> w.(refs)) w.(used)).
Proof.
  intros [] Hlock Hl Hlive. constructor; simpl.
  - right. exists no_agent. split_and!; try done.
    intros l' p s _ Hp. rewrite Hlive in Hp. by rewrite lookup_empty in Hp.
  - intros l' p [(_ & [=] & _)|[_ Hs]]%starts_insert. rewrite <- Hlock. by apply (inv_lock0 l' p).
  - done.
  - intros l' r [[<- <-]|[_ Hr]]%lookup_insert_Some; [by left|by eauto].
  - intros l' p s [(_ & [=] & _)|[_ Hu']]%uses_insert. by apply (inv_used0 l' p s).
  - intros p s Hp. rewrite Hlive in Hp. by rewrite lookup_empty in Hp.
Qed.

(** A launch that starts a new agent keeps the lock. *)
Lemma agent_start w l p s :
  Inv w → w.(lock) = None → w.(refs) !! l = None → w.(live) = ∅ → startable w p s →
  Inv (World (print_agent_state no_agent) (Some l) (<[p := s]> w.(live))
        (<[l := Reference p 0 true true]> w.(refs)) ({[(p, s)]} ∪ w.(used))).
Proof.
  intros [] Hlock Hl Hlive (Hp & Hs & _ & Hfresh). constructor; simpl.
  - right. exists no_agent. split_and!; try done.
    intros l' q t [(_ & _ & [=] & _)|[_ Hu]]%uses_insert Hq. exfalso.
    rewrite Hlive in Hq. apply lookup_insert_Some in Hq as [[<- <-]|[_ Hq]];
      [|by rewrite lookup_empty in Hq].
    apply Hfresh. by apply (inv_used0 l' p s).
  - intros l' q [(-> & _)|[_ Hst]]%starts_insert; [done|].
    assert (w.(lock) = Some l') by (by apply (inv_lock0 l' q)). congruence.
  - intros l' [= <-]. exists p. apply starts_insert. by left.
  - intros l' r [[<- <-]|[_ Hr]]%lookup_insert_Some; [right; split; [done|simpl; lia]|by eauto].
  - intros l' q t [(_ & _ & [=] & _)|[_ Hu]]%uses_insert. apply elem_of_union; right.
    by apply (inv_used0 l' q t).
  - intros q t Hq. rewrite Hlive in Hq.
    apply lookup_insert_Some in Hq as [[<- <-]|[_ Hq]]; [|by rewrite lookup_empty in Hq].
    split_and!; try lia; [set_solver|]. right. exists l. split; [apply starts_insert; by left|].
    intros q' t' Hq'. rewrite Hlive in Hq'.
    by apply lookup_insert_Some in Hq' as [[<- _]|[_ Hq']]; [|rewrite lookup_empty in Hq'].
Qed.

Lemma acquire_cases w l started file' r :
  Inv w → w.(lock) = None → w.(refs) !! l = None → Z.of_nat (size w.(refs)) < UINT_MAX →
  acquire_agent_reference (kernel_of w.(live)) written started w.(file) = (file', r) →
  (r.(r_starting) = false ∧
     Inv (World file' None w.(live) (<[l := r]> w.(refs)) w.(used))) ∨
  (∃ p, started = Some p ∧ file' = print_agent_state no_agent ∧ w.(live) = ∅ ∧
     r = Reference p 0 true true).
Proof.
  intros I Hlock Hl Hsize Hacq. unfold acquire_agent_reference in Hacq.
  pose proof (agent_test w I Hlock Hsize) as Hcases. cbv zeta in Hcases.
  set (st := read_agent_state (Some w.(file))) in *. clearbody st.
  destruct Hcases as [(Hlive & Hmax & Hf & Hok)|[Htest Hempty]].
  - rewrite Hlive, (proj2 (Z.ltb_lt _ _) Hmax) in Hacq. cbn [andb] in Hacq.
    rewrite write_written in Hacq.
    2: { destruct Hok as (? & ? & ?). unfold state_ok. simpl.
         rewrite u32_small by (unfold UINT_MAX in *; lia). lia. }
    injection Hacq as <- <-. left. split; [done|]. by apply agent_join.
  - rewrite Htest, write_written in Hacq by apply state_ok_no_agent.
    destruct started as [p|]; injection Hacq as <- <-.
    + right. by exists p.
    + left. split; [done|]. by apply agent_clear.
Qed.

(** ** The agent is ready, or has failed *)

Lemma finish_cases k r exited content file' r' stopped :
  r.(r_starting) = true → (exited = true ↔ k.(start_time_of) r.(r_pid) = None) →
  (∀ s, k.(start_time_of) r.(r_pid) = Some s →
     state_ok {| pid := r.(r_pid); start_time := s; references := 1 |}) →
  finish_agent_reference k written written exited r content = (file', r', stopped) →
  (exited = true ∧ file' = print_agent_state no_agent ∧ r' = no_reference ∧
     stopped = Some r.(r_pid)) ∨
  (∃ s, k.(start_time_of) r.(r_pid) = Some s ∧ stopped = None ∧
     file' = print_agent_state {| pid := r.(r_pid); start_time := s; references := 1 |} ∧
     r' = Reference r.(r_pid) s r.(r_held) false).
Proof.
  intros Hst Hex Hok. unfold finish_agent_reference. rewrite Hst. cbn [negb].
  destruct exited.
  - rewrite write_written by apply state_ok_no_agent. intros [= <- <- <-]. left. by split_and!.
  - destruct (k.(start_time_of) r.(r_pid)) as [s|] eqn:Hs.
    + rewrite write_written by (by apply Hok). intros [= <- <- <-]. right. by exists s.
    + destruct Hex as [_ Hex]. by discriminate Hex.
Qed.

(** While a launch waits for its agent nobody uses a running one. *)
Lemma agent_waiting_alone w l :
  Inv w → w.(lock) = Some l → ∀ l' p s, uses w l' p s → w.(live) !! p = Some s → False.
Proof.
  intros [] Hlock. destruct inv_file0 as [(_ & Hl & _)|(st & _ & _ & _ & Hwait & _ & Hcur)];
    [congruence|].
  apply (no_uses_zero w st Hcur), Hwait. by rewrite Hlock.
Qed.

Lemma agent_finish w l r exited file' r' stopped :
  Inv w → w.(lock) = Some l → w.(refs) !! l = Some r →
  (exited = true ↔ w.(live) !! r.(r_pid) = None) →
  finish_agent_reference (kernel_of w.(live)) written written exited r w.(file)
    = (file', r', stopped) →
  Inv (World file' None (stop stopped w.(live)) (<[l := r']> w.(refs)) w.(used)).
Proof.
  intros I Hlock Hr Hex Hfin. pose proof (agent_waiting_alone w l I Hlock) as Halone.
  destruct I. destruct (inv_waiting0 l Hlock) as (p & r0 & Hr0 & Hheld & Hst & Hpid).
  assert (r0 = r) as -> by congruence. clear Hr0.
  assert (∀ l' q, starts w l' q → l' = l) as Honly.
  { intros l' q Hs. apply inv_lock0 in Hs. congruence. }
  assert (∀ q t, w.(live) !! q = Some t → q = p) as Hone.
  { intros q t Hq. destruct (inv_live0 q t Hq) as (_ & _ & _ & [[l' Hu]|(l' & Hs & _)]).
    - by destruct (Halone l' q t Hu Hq).
    - pose proof (Honly _ _ Hs) as ->. destruct Hs as (r1 & Hr1 & _ & _ & <-). congruence. }
  apply finish_cases in Hfin; [|done|done|].
  2: { intros s Hs. simpl in Hs. destruct (inv_live0 _ _ Hs) as (? & ? & _).
       unfold state_ok. simpl. unfold INT_MAX, UINT_MAX in *. lia. }
  destruct Hfin as [(-> & -> & -> & ->)|(s & Hs & -> & -> & ->)]; simpl stop.
  - assert (w.(live) !! r.(r_pid) = None) as Hdead by (by apply Hex).
    assert (w.(live) = ∅) as Hempty.
    { apply map_empty. intros q. apply eq_None_not_Some. intros [t Hq].
      rewrite (Hone q t Hq), <- Hpid, Hdead in Hq. done. }
    constructor; simpl; rewrite ?Hempty, ?delete_empty.
    + right. by exists no_agent.
    + intros l' q [(_ & [=] & _)|[Hne Hs]]%starts_insert. by destruct Hne; apply (Honly l' q).
    + done.
    + intros l' r1 [[<- <-]|[_ Hr1]]%lookup_insert_Some; [by left|by eauto].
    + intros l' q t [(_ & [=] & _)|[_ Hu]]%uses_insert. by apply (inv_used0 l' q t).
    + intros q t Hq. by rewrite lookup_empty in Hq.
  - simpl in Hs. destruct (inv_live0 _ _ Hs) as (Hp & Hs' & Hin & _).
    constructor; simpl.
    + right. eexists. split; [done|]. split.
      { unfold state_ok. simpl. unfold INT_MAX, UINT_MAX in *. lia. }
      split; [done|]. split; [done|]. simpl. split.
      * intros _. split; [lia|]. split; [done|]. exists {[l]}.
        rewrite size_singleton. split; [done|]. intros l'. rewrite elem_of_singleton, uses_insert.
        simpl. split; [intros ->; by left|]. intros [(? & _)|[_ Hu]]; [done|].
        exfalso. by apply (Halone l' r.(r_pid) s).
      * intros l' q t [(_ & _ & _ & <- & <-)|[_ Hu]]%uses_insert Hq; [by split|].
        exfalso. by apply (Halone l' q t).
    + intros l' q [(_ & _ & [=] & _)|[Hne Hst']]%starts_insert. by destruct Hne; apply (Honly l' q).
    + done.
    + intros l' r1 [[<- <-]|[_ Hr1]]%lookup_insert_Some; [right; split; [done|simpl; lia]|by eauto].
    + intros l' q t [(_ & _ & _ & <- & <-)|[_ Hu]]%uses_insert; [done|]. by apply (inv_used0 l' q t).
    + intros q t Hq. destruct (inv_live0 q t Hq) as (? & ? & ? & _). split_and!; try lia; [done|].
      left. exists l. apply uses_insert. left. simpl.
      assert (q = p) as -> by (by apply (Hone q t)). rewrite Hpid in Hs.
      split_and!; try done. congruence.
Qed.

(** ** Release *)

Lemma release_cases r content file' r' terminated :
  (∀ st, read_agent_state (Some content) = st → 0 < st.(references) → state_ok st) →
  release_agent_reference written r content = (file', r', terminated) →
  let st := read_agent_state (Some content) in
  (terminated = None ∧ file' = content ∧
     (r.(r_held) = false ∨ r.(r_pid) ≤ 0 ∨
      ¬ (0 < st.(references) ∧ st.(pid) = r.(r_pid) ∧ st.(start_time) = r.(r_start_time)))) ∨
  (0 < st.(references) ∧ st.(pid) = r.(r_pid) ∧ st.(start_time) = r.(r_start_time) ∧
   r.(r_held) = true ∧
   ((st.(references) = 1 ∧ terminated = Some r.(r_pid) ∧ file' = print_agent_state no_agent) ∨
    (1 < st.(references) ∧ terminated = None ∧
     file' = print_agent_state {| pid := st.(pid); start_time := st.(start_time);
                                  references := st.(references) - 1 |}))).
Proof.
  intros Hok. unfold release_agent_reference.
  destruct (r.(r_held)); cbn [negb orb]; [|intros [= <- <- <-]; left; tauto].
  destruct (Z.leb_spec r.(r_pid) 0); [intros [= <- <- <-]; left; tauto|].
  set (st := read_agent_state (Some content)).
  destruct (_ && _) eqn:Htest.
  - rewrite !andb_true_iff, !Z.eqb_eq, Z.ltb_lt in Htest. destruct Htest as [[Hp Hs] Hrefs].
    specialize (Hok st eq_refl Hrefs).
    destruct (Z.eqb_spec (st.(references) - 1) 0).
    + rewrite write_written by apply state_ok_no_agent. intros [= <- <- <-]. right.
      split_and!; try done. left. split_and!; [lia|done..].
    + rewrite write_written.
      2: { destruct Hok as (? & ? & ?). unfold state_ok. simpl. lia. }
      intros [= <- <- <-]. right. split_and!; try done. right. split_and!; [lia|done..].
  - intros [= <- <- <-]. left. split_and!; [done..|]. right. right. intros (? & Hp & Hs).
    rewrite Hp, Hs, !Z.eqb_refl, (proj2 (Z.ltb_lt _ _)) in Htest by done. done.
Qed.

Lemma agent_release w l r file' r' terminated :
  Inv w → w.(lock) = None → w.(refs) !! l = Some r →
  release_agent_reference written r w.(file) = (file', r', terminated) →
  Inv (World file' None (stop terminated w.(live)) (delete l w.(refs)) w.(used)) ∧
  (∀ p, terminated = Some p → p = r.(r_pid) ∧ ∀ l', uses w l' p r.(r_start_time) → l' = l).
Proof.
  intros I Hlock Hr Hrel. destruct I.
  assert (∀ l' p, ¬ starts w l' p) as Hnost.
  { intros l' p Hs. apply inv_lock0 in Hs. congruence. }
  assert (r.(r_held) = true → uses w l r.(r_pid) r.(r_start_time)) as Huse.
  { intros Hh. exists r. split_and!; try done. destruct (r.(r_starting)) eqn:Hst; [|done].
    destruct (Hnost l r.(r_pid)). by exists r. }
  destruct inv_file0 as [(Hf & _ & Hno)|(st & Hf & Hok & Hzero & Hwait & Husers & Hcur)].
  { (* no launch has held an agent yet *)
    assert (r.(r_held) = false) as Hh.
    { apply not_true_is_false. intros Hh. by apply (Hno l r.(r_pid) r.(r_start_time)), Huse. }
    unfold release_agent_reference in Hrel. rewrite Hh in Hrel. injection Hrel as <- <- <-.
    simpl stop. split; [|done]. constructor; simpl; try done.
    - left. split_and!; try done. intros l' p s [_ Hu]%uses_delete. by apply (Hno l' p s).
    - intros l' p [_ Hs]%starts_delete. by destruct (Hnost l' p).
    - intros l' r1 [_ Hr1]%lookup_delete_Some. eauto.
    - intros l' p s [_ Hu]%uses_delete. by apply (inv_used0 l' p s).
    - intros p s Hp. destruct (inv_live0 p s Hp) as (_ & _ & _ & [[l' Hu]|(l' & Hs & _)]).
      + by destruct (Hno l' p s).
      + by destruct (Hnost l' p). }
  assert (read_agent_state (Some w.(file)) = st) as Hread
    by (rewrite Hf; by apply read_print_agent_state).
  apply release_cases in Hrel; [|intros st' <- _; by rewrite Hread]. cbv zeta in Hrel.
  rewrite Hread in Hrel.
  destruct Hrel as [(-> & -> & Hwhy)|(Hrefs & Hp & Hs & Hheld & Hrel)].
  - (* the file names another agent *)
    assert (∀ p s, uses w l p s → ¬ (0 < st.(references) ∧ st.(pid) = p ∧ st.(start_time) = s))
      as Hother.
    { intros p s (r1 & Hr1 & Hh & Hst & <- & <-) Hst'. simplify_eq.
      destruct Hwhy as [?|[Hle|Hwhy]]; [congruence| |done].
      destruct (inv_refs0 l r Hr) as [->|[_ ?]]; [done|lia]. }
    simpl stop. split; [|done]. constructor; simpl; try done.
    + right. exists st. split_and!; try done.
      * intros Hrefs. destruct (Husers Hrefs) as (? & ? & users & Hsz & Hu).
        split_and!; try done. exists users. split; [done|]. intros l'. rewrite uses_delete, Hu.
        split; [|by intros [_ ?]]. intros Hu'. split; [|done]. intros ->.
        by destruct (Hother _ _ Hu').
      * intros l' p s [_ Hu]%uses_delete. by apply (Hcur l' p s).
    + intros l' p [_ Hs]%starts_delete. by destruct (Hnost l' p).
    + intros l' r1 [_ Hr1]%lookup_delete_Some. eauto.
    + intros l' p s [_ Hu]%uses_delete. by apply (inv_used0 l' p s).
    + intros p s Hp. destruct (inv_live0 p s Hp) as (? & ? & ? & [[l' Hu]|(l' & Hs & _)]).
      * split_and!; try lia; [done|]. left. exists l'. apply uses_delete. split; [|done].
        intros ->. destruct (Hother p s Hu). by apply (Hcur l p s).
      * by destruct (Hnost l' p).
  - destruct (Husers Hrefs) as (Hpid & Hin & users & Hsz & Hu).
    specialize (Huse Hheld). rewrite Hp, Hs in *.
    assert (l ∈ users) as Hlu by (by apply Hu).
    assert (Z.of_nat (size (users ∖ {[l]})) = st.(references) - 1) as Hsz'.
    { rewrite size_difference by set_solver. rewrite size_singleton.
      assert (0 < size users)%nat; [|lia]. lia. }
    assert (∀ l', l' ∈ users ∖ {[l]} ↔ l' ≠ l ∧ uses w l' r.(r_pid) r.(r_start_time)) as Hu'.
    { intros l'. rewrite elem_of_difference, elem_of_singleton, Hu. tauto. }
    destruct Hrel as [(Hone & -> & ->)|(Hmore & -> & ->)]; simpl stop.
    + assert (users ∖ {[l]} ≡ ∅) as Hempty by (apply size_empty_iff; lia).
      split.
      2: { intros p [= <-]. split; [done|]. intros l' Hl'.
           destruct (decide (l' = l)); [done|]. exfalso.
           assert (l' ∈ users ∖ {[l]}) as Hin' by (by apply Hu'). set_solver. }
      constructor; simpl.
      * right. exists no_agent. split_and!; try done.
        intros l' p s [_ Hul]%uses_delete [Hne Hlv]%lookup_delete_Some.
        destruct (Hcur l' p s Hul Hlv) as (_ & ? & _). congruence.
      * intros l' p [_ Hst]%starts_delete. by destruct (Hnost l' p).
      * done.
      * intros l' r1 [_ Hr1]%lookup_delete_Some. eauto.
      * intros l' p s [_ Hul]%uses_delete. by apply (inv_used0 l' p s).
      * intros p s [Hne Hlv]%lookup_delete_Some. exfalso.
        destruct (inv_live0 p s Hlv) as (_ & _ & _ & [[l' Hul]|(l' & Hst & _)]).
        -- destruct (Hcur l' p s Hul Hlv) as (_ & ? & _). congruence.
        -- by destruct (Hnost l' p).
    + split; [|done]. constructor; simpl.
      * right. eexists. split; [done|]. destruct Hok as (Ho1 & Ho2 & Ho3). split.
        { unfold state_ok. simpl. lia. }
        simpl. split; [lia|]. split; [done|]. split.
        -- intros _. split_and!; [lia|done|]. exists (users ∖ {[l]}). split; [done|].
           intros l'. rewrite uses_delete. apply Hu'.
        -- intros l' p s [_ Hul]%uses_delete Hlv. destruct (Hcur l' p s Hul Hlv) as (_ & ? & ?).
           split; [lia|]. by split.
      * intros l' p [_ Hst]%starts_delete. by destruct (Hnost l' p).
      * done.
      * intros l' r1 [_ Hr1]%lookup_delete_Some. eauto.
      * intros l' p s [_ Hul]%uses_delete. by apply (inv_used0 l' p s).
      * intros p s Hlv. destruct (inv_live0 p s Hlv) as (? & ? & ? & [[l' Hul]|(l' & Hst & _)]).
        -- split_and!; try lia; [done|]. left.
           destruct (Hcur l' p s Hul Hlv) as (_ & <- & <-).
           assert (∃ l2, l2 ∈ users ∖ {[l]}) as [l2 Hl2].
           { apply size_pos_elem_of. lia. }
           exists l2. apply uses_delete. by apply Hu'.
        -- by destruct (Hnost l' p).
Qed.

Lemma agent_die w p :
  Inv w → Inv (World w.(file) w.(lock) (delete p w.(live)) w.(refs) w.(used)).
Proof.
  intros []. constructor; simpl; try done.
  - destruct inv_file0 as [?|(st & Hf & Hok & Hzero & Hwait & Husers & Hcur)]; [by left|right].
    exists st. split_and!; try done. intros l q s Hu [_ Hq]%lookup_delete_Some.
    by apply (Hcur l q s).
  - intros q s [_ Hq]%lookup_delete_Some.
    destruct (inv_live0 q s Hq) as (? & ? & ? & [?|(l & Hs & Hone)]); split_and!; try lia; try done.
    + by left.
    + right. exists l. split; [done|]. intros q' t' [_ Hq']%lookup_delete_Some. by apply (Hone q' t').
Qed.

Lemma agent_step w w' : Inv w → step w w' → Inv w'.
Proof.
  intros I Hstep. destruct Hstep as [w l file' r H1 H2 H3 H4|w l p s file' r H1 H2 H3 Hp H4 H5
    |w l r exited file' r' stopped H1 H2 H3 H4|w l r file' r' terminated H1 H2 H3|w p].
  - destruct (acquire_cases w l None file' r I H1 H2 H3 H4) as [[_ ?]|(p & [=] & _)]. done.
  - destruct (acquire_cases w l (Some p) file' r I H1 H2 H3 H4) as [[? _]|(q & [= <-] & -> & Hlv & ->)];
      [congruence|]. by apply agent_start.
  - by eapply agent_finish.
  - by eapply agent_release.
  - by apply agent_die.
Qed.

Lemma agent_state_reachable w : reachable w → Inv w.
Proof.
  intros Hr. assert (∀ w0, rtc step w0 w → Inv w0 → Inv w) as Hind.
  { induction 1 as [|w0 w1 w2 Hstep _ IH]; [done|]. intros I. by eapply IH, agent_step. }
  by apply (Hind initial), agent_initial.
Qed.

(** ** Properties *)

(** an agent is terminated only by its last user: when a launch's release
    ends a process, no other launch uses that agent, whatever launches shared,
    started, waited, released and however agents died in between. *)
Theorem agent_outlives_users w l r file' r' p :
  reachable w → w.(lock) = None → w.(refs) !! l = Some r →
  release_agent_reference written r w.(file) = (file', r', Some p) →
  p = r.(r_pid) ∧ ∀ l' s, w.(live) !! p = Some s → l' ≠ l → ¬ uses w l' p s.
Proof.
  intros I%agent_state_reachable Hlock Hr Hrel.
  destruct (agent_release w l r file' r' (Some p) I Hlock Hr Hrel) as [_ Hlast].
  destruct (Hlast p eq_refl) as [-> Honly]. split; [done|]. intros l' s Hlive Hne Hu.
  assert (uses w l r.(r_pid) s) as Hul.
  { assert (∀ st, read_agent_state (Some w.(file)) = st → 0 < st.(references) → state_ok st) as Hok.
    { intros st <- Hrefs. destruct (inv_file w I) as [(Hf & _)|(st0 & Hf & Hok0 & _)].
      - rewrite Hf in Hrefs. vm_compute in Hrefs. discriminate.
      - rewrite Hf, read_print_agent_state by done. done. }
    apply release_cases in Hrel; [|done]. cbv zeta in Hrel.
    destruct Hrel as [([=] & _)|(Hrefs & Hp & Hs & Hheld & _)].
    destruct (inv_file w I) as [(Hf & _)|(st & Hf & Hok0 & _ & _ & _ & Hcur)].
    { rewrite Hf in Hrefs. vm_compute in Hrefs. discriminate. }
    rewrite Hf, read_print_agent_state in Hp, Hs by done.
    destruct (Hcur l' _ s Hu Hlive) as (_ & _ & Hst).
    exists r. split_and!; try done; [|congruence].
    destruct (r.(r_starting)) eqn:Hstart; [|done].
    assert (starts w l r.(r_pid)) as Hsw by (by exists r).
    apply (inv_lock w I) in Hsw. congruence. }
  destruct Hul as (r0 & Hr0 & _ & _ & _ & Hs). simplify_eq. by apply Hne, (Honly l').
Qed.

(** no agent is left behind and none is duplicated: every agent that runs is
    used by a launch or awaited by the one that started it, at most one runs,
    and once every launch has released, none does. *)
Theorem agent_never_leaks w :
  reachable w →
  (∀ p s, w.(live) !! p = Some s → ∃ l, uses w l p s ∨ starts w l p) ∧
  (∀ p q s t, w.(live) !! p = Some s → w.(live) !! q = Some t → p = q) ∧
  (w.(refs) = ∅ → w.(live) = ∅).
Proof.
  intros I%agent_state_reachable.
  assert (∀ p s, w.(live) !! p = Some s → ∃ l, uses w l p s ∨ starts w l p) as Hall.
  { intros p s Hp. destruct (inv_live w I p s Hp) as (_ & _ & _ & [[l ?]|(l & ? & _)]); exists l; auto. }
  split_and!; [done| |].
  - intros p q s t Hp Hq.
    destruct (inv_live w I p s Hp) as (_ & _ & _ & [[l Hu]|(l & _ & Hone)]);
      [|symmetry; by apply (Hone q t)].
    destruct (inv_live w I q t Hq) as (_ & _ & _ & [[l' Hu']|(l' & _ & Hone)]);
      [|by apply (Hone p s)].
    destruct (inv_file w I) as [(_ & _ & Hno)|(st & _ & _ & _ & _ & _ & Hcur)].
    + by destruct (Hno l p s).
    + destruct (Hcur l p s Hu Hp) as (_ & <- & _). by destruct (Hcur l' q t Hu' Hq) as (_ & <- & _).
  - intros Hempty. apply map_empty. intros p. apply eq_None_not_Some. intros [s Hp].
    destruct (Hall p s Hp) as [l [(r & Hr & _)|(r & Hr & _)]];
      rewrite Hempty in Hr; by rewrite lookup_empty in Hr.
Qed.

(** when the started agent runs but its start time cannot be read, the launch
    neither records nor stops it: the file still says there is no agent, the
    reference stays marked as starting, and the launch's release terminates
    nothing, so that agent is left running. *)
Theorem unreadable_start_time_strands_agent k w w' r content :
  r.(r_starting) = true → k.(start_time_of) r.(r_pid) = None →
  read_agent_state (Some content) = no_agent →
  finish_agent_reference k w w' false r content = (content, r, None) ∧
  ∀ w'', (release_agent_reference w'' r content).2 = None.
Proof.
  intros Hst Hk Hfile. split.
  - unfold finish_agent_reference. by rewrite Hst, Hk.
  - intros w''. unfold release_agent_reference. rewrite Hfile.
    destruct (_ || _); [done|]. change (references no_agent) with 0.
    change (0 <? 0) with false. by rewrite andb_false_r.
Qed.

(** ** Witnesses *)

(** Two launches share agent 500; the first is about to release. *)
Definition shared_state : AgentState := {| pid := 500; start_time := 77; references := 2 |}.

Definition one_state : AgentState := {| pid := 500; start_time := 77; references := 1 |}.

Definition user : AgentReference := Reference 500 77 true false.

Definition started_world : world :=
  World (print_agent_state no_agent) (Some 0%nat) {[500 := 77]}
    {[0%nat := Reference 500 0 true true]} {[(500, 77)]}.

Definition one_world : world :=
  World (print_agent_state one_state) None {[500 := 77]} {[0%nat := user]} {[(500, 77)]}.

Definition shared_world : world :=
  World (print_agent_state shared_state) None {[500 := 77]}
    (<[1%nat := user]> {[0%nat := user]}) {[(500, 77)]}.

Definition last_world : world :=
  World (print_agent_state one_state) None {[500 := 77]}
    (delete 0%nat (<[1%nat := user]> {[0%nat := user]})) {[(500, 77)]}.

Lemma started_reachable : reachable started_world.
Proof.
  apply rtc_once.
  refine (step_start initial 0 500 77 (print_agent_state no_agent) (Reference 500 0 true true)
    _ _ _ _ _ _); try (vm_compute; reflexivity).
  unfold startable, INT_MAX, ULLONG_MAX. split_and!; try lia; [done|set_solver].
Qed.

Lemma one_reachable : reachable one_world.
Proof.
  eapply rtc_r; [exact started_reachable|].
  refine (step_finish started_world 0 (Reference 500 0 true true) false
    (print_agent_state one_state) user None _ _ _ _); try (vm_compute; reflexivity).
  split; [done|]. intros H. vm_compute in H. discriminate.
Qed.

Lemma shared_reachable : reachable shared_world.
Proof.
  eapply rtc_r; [exact one_reachable|].
  refine (step_share one_world 1 (print_agent_state shared_state) user _ _ _ _);
    vm_compute; reflexivity.
Qed.

Lemma last_reachable : reachable last_world.
Proof.
  eapply rtc_r; [exact shared_reachable|].
  refine (step_release shared_world 0 user (print_agent_state one_state) no_reference None
    _ _ _); vm_compute; reflexivity.
Qed.

Lemma agent_outlives_users_witness :
  (release_agent_reference written user last_world.(file)).2 = Some 500 ∧
  ¬ uses last_world 0 500 77.
Proof.
  split; [vm_compute; reflexivity|].
  destruct (agent_outlives_users last_world 1 user (print_agent_state no_agent) no_reference 500
    last_reachable) as [_ Hno]; [reflexivity|vm_compute; reflexivity..|].
  apply (Hno 0%nat 77); [vm_compute; reflexivity|lia].
Defined.

Lemma agent_never_leaks_witness :
  shared_world.(live) !! 500 = Some 77 ∧
  ∃ l, uses shared_world l 500 77 ∨ starts shared_world l 500.
Proof.
  split; [vm_compute; reflexivity|].
  destruct (agent_never_leaks shared_world shared_reachable) as [Hall _].
  apply Hall. vm_compute. reflexivity.
Defined.

Lemma unreadable_start_time_strands_agent_witness :
  (release_agent_reference written (Reference 500 0 true true) (print_agent_state no_agent)).2 = None.
Proof.
  destruct (unreadable_start_time_strands_agent (Kernel (λ p, p) (λ _, None) (λ _, true))
    written written (Reference 500 0 true true) (print_agent_state no_agent)) as [_ Hrel];
    [reflexivity|reflexivity|vm_compute; reflexivity|].
  apply Hrel.
Defined.
