(* ===== verification/Portal.v ===== *)
(** * The host broker's registration with the portal ([native/spaces_broker.c])

    The broker acts on the host portal under its space's application id, which
    it registers with each process that owns the portal's name.  Ownership can
    change at any time, registration is one-shot per connection, and replies
    to cancelled attempts still arrive.  [portal] is the part of [struct
    Broker] this concerns, with what GDBus keeps (the attempts in flight) and
    a log of what happened, newest first; [step] is any interleaving of the
    name watcher, the retry timer and the completions.

    The theorems: a request goes only to the current owner and only after this
    connection registered with it in its present tenure; and registration never
    stalls while there is an owner. *)

From S2P Require Import Prelude Glib.

(** ** Data *)

(** The reply to [Register]: accepted, refused, or an error after which it is
    unknown whether the portal accepted (timeouts and lost replies). *)
Inductive register_result := Accepted | Refused | Unknown.

Inductive portal_event :=
  | Appeared (owner : text)
  | Vanished
  | Register (id : nat) (owner : text)
  | Replied (id : nat) (owner : text) (result : register_result).

Record portal := Portal {
  portal_owner : option text;
  portal_registered : bool;
  portal_retry : bool;                    (** a retry timer is set *)
  portal_retry_delay : Z;
  portal_registration : option nat;       (** the attempt that counts *)
  exit_status : Z;
  quitting : bool;                        (** [g_main_loop_quit] was called *)
  attempts : gmap nat text;               (** calls in flight and their owners *)
  next_attempt : nat;
  log : list portal_event;
}.

Definition initial : portal := Portal None false false 0 None 0 false ∅ 0 [].

(** ** Operations *)

Definition register_portal_identity (s : portal) : option portal :=
  owner ← s.(portal_owner);
  let id := s.(next_attempt) in
  Some (Portal s.(portal_owner) s.(portal_registered) false s.(portal_retry_delay) (Some id)
    s.(exit_status) s.(quitting) (<[id := owner]> s.(attempts)) (S id)
    (Register id owner :: s.(log))).

Definition portal_registration_done (id : nat) (result : register_result) (s : portal) :
    option portal :=
  owner ← s.(attempts) !! id;
  let attempts := delete id s.(attempts) in
  let log := Replied id owner result :: s.(log) in
  if decide (s.(portal_registration) ≠ Some id) then
    Some (Portal s.(portal_owner) s.(portal_registered) s.(portal_retry) s.(portal_retry_delay)
      s.(portal_registration) s.(exit_status) s.(quitting) attempts s.(next_attempt) log)
  else
    match result with
    | Accepted =>
        Some (Portal s.(portal_owner) true s.(portal_retry) s.(portal_retry_delay)
          None s.(exit_status) s.(quitting) attempts s.(next_attempt) log)
    | Unknown =>
        Some (Portal s.(portal_owner) s.(portal_registered) s.(portal_retry)
          s.(portal_retry_delay) None 1 true attempts s.(next_attempt) log)
    | Refused =>
        Some (Portal s.(portal_owner) s.(portal_registered) true
          (Z.min (u32 (s.(portal_retry_delay) * 2)) 30) None s.(exit_status) s.(quitting)
          attempts s.(next_attempt) log)
    end.

(** Cancelling an attempt does not withdraw it: its reply still comes. *)
Definition clear_portal_identity (s : portal) : portal :=
  Portal None false false 1 None s.(exit_status) s.(quitting) s.(attempts)
    s.(next_attempt) s.(log).

Definition set_owner (owner : text) (s : portal) : portal :=
  Portal (Some owner) s.(portal_registered) s.(portal_retry) s.(portal_retry_delay)
    s.(portal_registration) s.(exit_status) s.(quitting) s.(attempts) s.(next_attempt)
    (Appeared owner :: s.(log)).

Definition portal_appeared (owner : text) (s : portal) : option portal :=
  register_portal_identity (set_owner owner (clear_portal_identity s)).

Definition portal_vanished (s : portal) : portal :=
  let s := clear_portal_identity s in
  Portal s.(portal_owner) s.(portal_registered) s.(portal_retry) s.(portal_retry_delay)
    s.(portal_registration) s.(exit_status) s.(quitting) s.(attempts) s.(next_attempt)
    (Vanished :: s.(log)).

(** [GetNameOwner]'s reply decides: [None] is the error that the identity is
    not registered. *)
Definition portal_destination (name_owner : option text) (s : portal) : option text :=
  match name_owner with
  | Some owner =>
      if s.(portal_registered) && str_is s.(portal_owner) owner then Some owner else None
  | None => None
  end.

(** ** Interleavings *)

Inductive step : portal → portal → Prop :=
  | step_appeared s owner s' : portal_appeared owner s = Some s' → step s s'
  | step_vanished s : step s (portal_vanished s)
  | step_retry s s' :
      s.(portal_retry) = true → register_portal_identity s = Some s' → step s s'
  | step_done s id result s' :
      portal_registration_done id result s = Some s' → step s s'.

Definition reachable (s : portal) : Prop := rtc step initial s.

(** What happened since the portal's owner last changed. *)
Fixpoint tenure (log : list portal_event) : list portal_event :=
  match log with
  | [] | Appeared _ :: _ | Vanished :: _ => []
  | e :: log => e :: tenure log
  end.

Record Inv (s : portal) : Prop := {
  inv_attempts id owner : s.(attempts) !! id = Some owner → (id < s.(next_attempt))%nat;
  inv_pending id : s.(portal_registration) = Some id →
    ∃ owner, s.(portal_owner) = Some owner ∧ s.(attempts) !! id = Some owner ∧
      Register id owner ∈ tenure s.(log) ∧ s.(portal_registered) = false ∧ s.(portal_retry) = false;
  inv_registered : s.(portal_registered) = true →
    ∃ owner id, s.(portal_owner) = Some owner ∧ s.(portal_retry) = false ∧
      Register id owner ∈ tenure s.(log) ∧ Replied id owner Accepted ∈ tenure s.(log);
  inv_retry : s.(portal_retry) = true → is_Some s.(portal_owner);
  inv_delay : is_Some s.(portal_owner) → 1 ≤ s.(portal_retry_delay) ≤ 30;
  inv_progress : is_Some s.(portal_owner) →
    s.(quitting) = true ∨ s.(portal_registered) = true ∨ s.(portal_retry) = true ∨
    is_Some s.(portal_registration);
  inv_exit : s.(quitting) = true → s.(exit_status) = 1;
}.

Lemma registration_initial : Inv initial.
Proof.
  constructor; simpl; try done; try (intros [? ?]; done).
Qed.

(** Starting an attempt needs only that an owner is known and no attempt is
    under way; the watcher and the timer both start one. *)
Lemma registration_register s s' :
  (∀ id owner, s.(attempts) !! id = Some owner → (id < s.(next_attempt))%nat) →
  (s.(quitting) = true → s.(exit_status) = 1) →
  s.(portal_registered) = false → 1 ≤ s.(portal_retry_delay) ≤ 30 →
  register_portal_identity s = Some s' → Inv s'.
Proof.
  intros Hatt Hexit Hnot Hdelay. unfold register_portal_identity.
  destruct s.(portal_owner) as [owner|] eqn:Ho; [|done].
  intros [= <-]. constructor; simpl; rewrite ?Ho; try done.
  - intros id o [[<- <-]|[_ Hid]]%lookup_insert_Some; [lia|].
    apply Hatt in Hid. lia.
  - intros id [= <-]. exists owner. rewrite lookup_insert_eq. split_and!; try done. by left.
  - congruence.
  - intros _. right. right. right. eauto.
Qed.

Lemma registration_done s id result s' : Inv s → portal_registration_done id result s = Some s' → Inv s'.
Proof.
  intros [Hatt Hpend Hreg Hretry Hdelay Hprog Hexit]. unfold portal_registration_done.
  destruct (s.(attempts) !! id) as [owner|] eqn:Hid; [|done].
  assert (∀ x o, delete id s.(attempts) !! x = Some o → (x < s.(next_attempt))%nat) as Hatt'.
  { intros x o [_ Hx]%lookup_delete_Some. by apply Hatt in Hx. }
  assert (∀ e, e ∈ tenure s.(log) → e ∈ Replied id owner result :: tenure s.(log)) as Hin.
  { intros e He. by right. }
  cbn [mbind option_bind]. case_decide as Hcur.
  - (* a cancelled attempt *)
    intros [= <-]. constructor; simpl; try done.
    + intros x Hx. destruct (Hpend x Hx) as (o & ? & ? & ? & ? & ?). exists o.
      rewrite lookup_delete_ne by congruence. split_and!; auto.
    + intros Hx. destruct (Hreg Hx) as (o & x & ? & ? & ? & ?). exists o, x. split_and!; auto.
  - assert (s.(portal_registration) = Some id) as Hcur'.
    { destruct (decide (s.(portal_registration) = Some id)); [done|]. by destruct Hcur. }
    destruct (Hpend id Hcur') as (o & Ho & Hid' & Hlog & Hnot & Hnoretry). simplify_eq.
    destruct result; intros [= <-]; constructor; simpl; rewrite ?Ho; try done; auto.
    + intros _. exists owner, id. split_and!; auto. by left.
    + congruence.
    + destruct (Hdelay ltac:(eauto)). intros _. rewrite u32_small by lia. lia.
    + congruence.
Qed.

Lemma registration_step s s' : Inv s → step s s' → Inv s'.
Proof.
  intros HI Hstep. destruct Hstep as [s owner s' Hs|s|s s' Hretry Hs|s id result s' Hs].
  - destruct HI. unfold portal_appeared in Hs.
    eapply registration_register; [| | | |exact Hs]; cbn; done.
  - destruct HI. constructor; simpl; try done; by intros [? ?].
  - destruct HI as [Hatt Hpend Hreg Howner Hdelay Hprog Hexit].
    eapply registration_register; [..|exact Hs]; auto.
    destruct (portal_registered s); [|done].
    destruct (Hreg eq_refl) as (? & ? & ? & ? & ?). congruence.
  - by eapply registration_done.
Qed.

Lemma registration_reachable s : reachable s → Inv s.
Proof.
  intros Hr. assert (∀ x y, rtc step x y → Inv x → Inv y) as Hind.
  { induction 1; eauto using registration_step. }
  eapply Hind; [exact Hr|apply registration_initial].
Qed.

(** ** Properties *)

(** In every reachable state, [portal_destination] yields nothing but the
    process that owns the portal's name when it is asked, and only if the
    broker's own record agrees and, since that owner appeared, an attempt to
    register with it was made and that same attempt was accepted: a reply to
    an attempt made with a previous owner never certifies its replacement. *)
Theorem portal_destination_registered (s : portal) (now : option text) (destination : text) :
  reachable s → portal_destination now s = Some destination →
  now = Some destination ∧ s.(portal_owner) = Some destination ∧
  ∃ id, Register id destination ∈ tenure s.(log) ∧
    Replied id destination Accepted ∈ tenure s.(log).
Proof.
  intros HI%registration_reachable. unfold portal_destination. destruct now as [owner|]; [|done].
  destruct s.(portal_registered) eqn:Hr; [|done].
  destruct (str_is s.(portal_owner) owner) eqn:Ho; [|done]. apply str_is_spec in Ho.
  intros [= <-]. destruct (inv_registered s HI Hr) as (o & id & Ho' & _ & ? & ?).
  simplify_eq. eauto.
Qed.

(** C40: Registration never stalls.  In every reachable state with a known
    owner, either the broker has given up with exit status 1, or it is
    registered, or a retry is due that will start an attempt, or an attempt
    with this very owner is in flight, whose reply, whatever it is, is handled,
    and whose acceptance registers the broker; the back-off stays between 1
    and 30 seconds; without an owner nothing is registered, due or awaited. *)
Theorem portal_registration_progress (s : portal) :
  reachable s →
  match s.(portal_owner) with
  | Some owner =>
      1 ≤ s.(portal_retry_delay) ≤ 30 ∧
      ((s.(quitting) = true ∧ s.(exit_status) = 1) ∨
       s.(portal_registered) = true ∨
       (s.(portal_retry) = true ∧ s.(portal_registration) = None ∧
         ∃ s', register_portal_identity s = Some s' ∧
           s'.(attempts) !! s.(next_attempt) = Some owner ∧
           s'.(portal_registration) = Some s.(next_attempt)) ∨
       ∃ id, s.(portal_registration) = Some id ∧ s.(attempts) !! id = Some owner ∧
         (∀ result, is_Some (portal_registration_done id result s)) ∧
         ∀ s', portal_registration_done id Accepted s = Some s' →
           s'.(portal_registered) = true ∧ portal_destination (Some owner) s' = Some owner)
  | None => s.(portal_registered) = false ∧ s.(portal_retry) = false ∧
      s.(portal_registration) = None
  end.
Proof.
  intros HI%registration_reachable. destruct HI as [Hatt Hpend Hreg Hretry Hdelay Hprog Hexit].
  destruct s.(portal_owner) as [owner|] eqn:Ho.
  - split; [apply Hdelay; eauto|].
    destruct (Hprog ltac:(eauto)) as [?|[?|[Hr|[id Hid]]]]; auto.
    + right. right. left. split; [done|]. split.
      * destruct s.(portal_registration) as [id|] eqn:Hid; [|done].
        destruct (Hpend id eq_refl) as (? & ? & ? & ? & ? & ?). congruence.
      * unfold register_portal_identity. rewrite Ho. eexists. split; [done|]. simpl.
        by rewrite lookup_insert_eq.
    + right. right. right. exists id.
      destruct (Hpend id Hid) as (o & Ho' & Hlook & _). simplify_eq.
      unfold portal_registration_done. rewrite Hlook. cbn [mbind option_bind].
      split_and!; [done|done| |].
      * intros []; case_decide; eauto.
      * intros s'. rewrite decide_False by (rewrite Hid; naive_solver).
        intros [= <-]. simpl. split; [done|]. rewrite Ho. unfold str_is.
        by rewrite bool_decide_true.
  - split_and!.
    + destruct s.(portal_registered); [|done].
      destruct (Hreg eq_refl) as (? & ? & ? & _). congruence.
    + destruct s.(portal_retry); [|done]. by destruct (Hretry eq_refl).
    + destruct s.(portal_registration) as [id|]; [|done].
      destruct (Hpend id eq_refl) as (? & ? & _). congruence.
Qed.

(** ** Witnesses *)

(** An owner appears and is replaced while its registration is in flight; the
    old reply arrives, then the new owner's. *)
Definition replaced : portal :=
  default initial (s ← portal_appeared (str ":1.5") initial;
    s ← portal_appeared (str ":1.9") s; portal_registration_done 0 Accepted s).

Definition accepted : portal := default initial (portal_registration_done 1 Accepted replaced).

Lemma accepted_reachable : reachable accepted.
Proof.
  eapply rtc_l; [by apply step_appeared with (owner := str ":1.5"); vm_compute|].
  eapply rtc_l; [by apply step_appeared with (owner := str ":1.9"); vm_compute|].
  eapply rtc_l; [by apply step_done with (id := 0%nat) (result := Accepted); vm_compute|].
  eapply rtc_l; [by apply step_done with (id := 1%nat) (result := Accepted); vm_compute|].
  apply rtc_refl.
Qed.

(** Between the two replies there is no destination. *)
Lemma portal_destination_registered_witness :
  portal_destination (Some (str ":1.9")) replaced = None ∧
  portal_destination (Some (str ":1.5")) accepted = None ∧
  accepted.(portal_owner) = Some (str ":1.9").
Proof.
  split; [by vm_compute|]. split; [by vm_compute|].
  destruct (portal_destination_registered accepted (Some (str ":1.9")) (str ":1.9")
    accepted_reachable) as (_ & H & _); [by vm_compute|]. exact H.
Defined.

Lemma portal_registration_progress_witness :
  match accepted.(portal_owner) with
  | Some _ => 1 ≤ accepted.(portal_retry_delay) ≤ 30
  | None => False
  end.
Proof.
  pose proof (portal_registration_progress accepted accepted_reachable) as H.
  destruct (portal_owner accepted) as [owner|] eqn:E; [|by vm_compute in E].
  destruct H as [H _]. exact H.
Defined.
