(* ===== verification/Effects.v ===== *)
(** * Programs that call the system around them

    Much of the code is sequences of system and D-Bus calls whose answers
    decide what comes next.  A [prog S E A] is such a sequence: it runs from a
    state [S] of the system around it, which each call may change, and extends
    a trace of events [E], newest first.  It returns, or it is still in a loop
    when its fuel is used up, or it does something whose behaviour is undefined
    in C, and then what it had done so far is all that is known. *)

From S2P Require Import Prelude.

Record machine (S E : Type) := World { now : S; trace : list E }.
Arguments World {_ _} _ _.
Arguments now {_ _} _.
Arguments trace {_ _} _.

Inductive ending (S E A : Type) :=
  | Returned (x : A) (w : machine S E)
  | OutOfFuel
  | Undefined (w : machine S E).
Arguments Returned {_ _ _} _ _.
Arguments OutOfFuel {_ _ _}.
Arguments Undefined {_ _ _} _.

Definition prog (S E A : Type) : Type := machine S E → ending S E A.

#[export] Instance M_ret {S E} : MRet (prog S E) := λ A x w, Returned x w.
#[export] Instance M_bind {S E} : MBind (prog S E) := λ A B f m w,
  match m w with
  | Returned x w' => f x w'
  | OutOfFuel => OutOfFuel
  | Undefined w' => Undefined w'
  end.

Section programs.
Context {S E : Type}.
Implicit Types w : machine S E.

Definition out_of_fuel {A} : prog S E A := λ _, OutOfFuel.
Definition undefined {A} : prog S E A := λ w, Undefined w.

(** One call: its answer and the state after it, and what the trace records. *)
Definition act {A} (f : S → A * S) (events : A → list E) : prog S E A := λ w,
  let '(x, s) := f w.(now) in Returned x (World s (events x ++ w.(trace))).

Lemma M_bind_returned {A B} (m : prog S E A) (f : A → prog S E B) w y w2 :
  (m ≫= f) w = Returned y w2 ↔ ∃ x w1, m w = Returned x w1 ∧ f x w1 = Returned y w2.
Proof.
  unfold mbind, M_bind. destruct (m w) as [x w1| |]; [|naive_solver..].
  split; [eauto|]. intros (x' & w1' & Hm & Hf). by injection Hm as <- <-.
Qed.

Lemma M_ret_returned {A} (x y : A) w w' :
  (mret x : prog S E A) w = Returned y w' ↔ y = x ∧ w' = w.
Proof. unfold mret, M_ret. naive_solver. Qed.

Lemma act_returned {A} (f : S → A * S) events w x w' :
  act f events w = Returned x w' ↔
  x = (f w.(now)).1 ∧ w' = World (f w.(now)).2 (events x ++ w.(trace)).
Proof. unfold act. destruct (f w.(now)) as [y s]. simpl. naive_solver. Qed.

(** Every run returns. *)
Definition returns {A} (m : prog S E A) : Prop := ∀ w, ∃ x w', m w = Returned x w'.

Lemma returns_bind {A B} (m : prog S E A) (f : A → prog S E B) :
  returns m → (∀ x, returns (f x)) → returns (m ≫= f).
Proof.
  intros Hm Hf w. destruct (Hm w) as (x & w1 & E1). destruct (Hf x w1) as (y & w2 & E2).
  exists y, w2. apply M_bind_returned. eauto.
Qed.

Lemma returns_ret {A} (x : A) : returns (mret x).
Proof. intros w. by exists x, w. Qed.

Lemma returns_act {A} (f : S → A * S) events : returns (act f events).
Proof. intros w. unfold act. destruct (f w.(now)). eauto. Qed.

(** Whatever a run adds to the trace satisfies [P]. *)
Definition emits {A} (P : E → Prop) (m : prog S E A) : Prop :=
  ∀ w x w', m w = Returned x w' → ∃ evs, w'.(trace) = evs ++ w.(trace) ∧ Forall P evs.

Lemma emits_bind {A B} P (m : prog S E A) (f : A → prog S E B) :
  emits P m → (∀ w x w', m w = Returned x w' → emits P (f x)) → emits P (m ≫= f).
Proof.
  intros Hm Hf w y w2 (x & w1 & E1 & E2)%M_bind_returned.
  destruct (Hm _ _ _ E1) as (evs1 & H1 & ?), (Hf _ _ _ E1 _ _ _ E2) as (evs2 & H2 & ?).
  exists (evs2 ++ evs1). rewrite H2, H1, app_assoc. split; [done|]. by apply Forall_app.
Qed.

Lemma emits_ret {A} P (x : A) : emits P (mret x).
Proof. intros w y w' [_ ->]%M_ret_returned. by exists []. Qed.

Lemma emits_act {A} P (f : S → A * S) events :
  (∀ x, Forall P (events x)) → emits P (act f events).
Proof. intros HP w x w' [-> ->]%act_returned. eexists. by split. Qed.

Lemma emits_mono {A} (P Q : E → Prop) (m : prog S E A) :
  (∀ e, P e → Q e) → emits P m → emits Q m.
Proof.
  intros HPQ Hm w x w' E1. destruct (Hm _ _ _ E1) as (evs & H & HP).
  exists evs. split; [done|]. by eapply Forall_impl.
Qed.

Lemma emits_start {A} P (m : prog S E A) s x w' e :
  emits P m → m (World s []) = Returned x w' → e ∈ w'.(trace) → P e.
Proof.
  intros Hm E1 He. destruct (Hm _ _ _ E1) as (evs & H & HP). simpl in H.
  rewrite app_nil_r in H. subst. by eapply Forall_forall.
Qed.
End programs.

(** ** Runs on concrete systems *)

Definition world_after {S E A} (s : S) (o : ending S E A) : machine S E :=
  match o with Returned _ w => w | _ => World s [] end.

(** Only tests are evaluated. *)
Lemma returned_world {S E A} `{EqDecision A} (s : S) (o : ending S E A) x :
  match o with Returned y _ => bool_decide (y = x) | _ => false end = true →
  o = Returned x (world_after s o).
Proof. destruct o as [y w| |]; [|done..]. by intros ->%bool_decide_eq_true. Qed.

(** One request of an interface [R] with its answer. *)
Inductive did (R : Type → Type) := | Did {A : Type} (r : R A) (a : A).
Arguments Did {_ _} _ _.

(** ** Properties of traces *)

Section traces.
Context {S E : Type}.
Implicit Types T : list E.

(** Every event [e] with the events [T] before it satisfies [P e T]. *)
Fixpoint always (P : E → list E → Prop) (T : list E) : Prop :=
  match T with
  | [] => True
  | e :: T => P e T ∧ always P T
  end.

Lemma always_split P later e T : always P (later ++ e :: T) → P e T.
Proof. induction later as [|e' later IH]; simpl; intuition. Qed.

Definition triple {A} (P : list E → Prop) (m : prog S E A) (Q : A → list E → Prop) : Prop :=
  ∀ w x w', P w.(trace) → m w = Returned x w' → Q x w'.(trace).

Lemma triple_bind {A B} P (m : prog S E A) (f : A → prog S E B) Q R :
  triple P m Q → (∀ x, triple (Q x) (f x) R) → triple P (m ≫= f) R.
Proof.
  intros Hm Hf w y w2 HP (x & w1 & E1 & E2)%M_bind_returned.
  eapply Hf; [|exact E2]. by eapply Hm.
Qed.

Lemma triple_ret {A} (x : A) P Q : (∀ T, P T → Q x T) → triple P (mret x) Q.
Proof. intros HQ w y w' HP [-> ->]%M_ret_returned. auto. Qed.

Lemma triple_act {A} (f : S → A * S) (events : A → list E) P Q :
  (∀ a T, P T → Q a (events a ++ T)) → triple P (act f events) Q.
Proof. intros HQ w y w' HP [-> ->]%act_returned. by apply HQ. Qed.

Lemma triple_conseq {A} (m : prog S E A) (P P' : list E → Prop) (Q Q' : A → list E → Prop) :
  (∀ T, P' T → P T) → (∀ x T, Q x T → Q' x T) → triple P m Q → triple P' m Q'.
Proof. intros HP HQ Hm w x w' HT Hr. eapply HQ, Hm; [|exact Hr]. auto. Qed.

Lemma triple_out_of_fuel {A} P Q : triple P (out_of_fuel : prog S E A) Q.
Proof. by intros w x w' _ Hr. Qed.

(** A program whose events keep [I]. *)
Lemma triple_emits {A} (P : E → Prop) (m : prog S E A) (I : list E → Prop) :
  emits P m → (∀ e T, P e → I T → I (e :: T)) → triple I m (λ _, I).
Proof.
  intros Hm HI w x w' HT Hr. destruct (Hm _ _ _ Hr) as (evs & -> & Hevs).
  induction Hevs; simpl; auto.
Qed.
End traces.

(** ** Constants of the system *)

Definition ENOENT : Z := 2.
Definition EINTR : Z := 4.
Definition ECHILD : Z := 10.
Definition EXDEV : Z := 18.
Definition ENAMETOOLONG : Z := 36.
Definition ENOSYS : Z := 38.
Definition O_RDONLY : Z := 0.
Definition O_WRONLY : Z := 1.
Definition O_RDWR : Z := 2.
Definition O_ACCMODE : Z := 3.
Definition O_CREAT : Z := 0x40.
Definition O_EXCL : Z := 0x80.
Definition O_NONBLOCK : Z := 0x800.
Definition O_NOFOLLOW : Z := 0x20000.
Definition O_CLOEXEC : Z := 0x80000.
Definition O_PATH : Z := 0x200000.
Definition RESOLVE_NO_XDEV : Z := 1.
Definition RESOLVE_NO_MAGICLINKS : Z := 2.
Definition RESOLVE_BENEATH : Z := 8.
Definition S_IFMT : Z := 0xF000.
Definition S_ISDIR (mode : Z) : bool := Z.land mode S_IFMT =? 0x4000.
Definition S_ISREG (mode : Z) : bool := Z.land mode S_IFMT =? 0x8000.
