(* ===== verification/Process.v ===== *)
(** * What the launcher asks of the kernel ([native/spaces.c])

    A [call A] is a system call of the launcher, with the type of its answer;
    [Processes] answers them.  [Fork] returns twice: an answer of [inr 0] is the
    run of the child.  A process that leaves the code, by [_exit] or by
    executing a program, ends with a [leaving] in place of a result. *)

From S2P Require Import Prelude.
From S2P Require Export Effects.

(** [sigaction] and [signal]: what a signal does from then on. *)
Inductive disposition := Ignore | Forward_term.

(** [inl] is [-1] with [errno]. *)
Inductive call : Type → Type :=
  | Pipe2 : call (Z + Z * Z)                         (** read end, write end *)
  | Fork : call (Z + Z)
  | Kill (pid signal : Z) : call (Z + unit)          (** signal 0 only asks *)
  | Waitpid (pid : Z) (nohang : bool) : call (Z + Z * Z)   (** process, status *)
  | Usleep (us : Z) : call unit
  | Poll (fd timeout_ms : Z) : call (Z + Z)          (** [revents], 0 on timeout *)
  | Read (fd size : Z) : call (Z + text)
  | Write (fd : Z) (data : text) : call (Z + nat)
  | Close (fd : Z) : call unit
  | Getfl (fd : Z) : call (Z + Z)
  | Setfl (fd flags : Z) : call (Z + unit)
  | Allocate (size : Z) : call bool
  | Open (path : text) (flags : Z) : call (Z + Z)
  | Dup2 (from to : Z) : call (Z + unit)
  | Getenv (name : text) : call (option text)
  | Setenv (name value : text) : call (Z + unit)
  | Exec (path : text) (arguments : list text) : call (option Z)  (** [errno] when it returns *)
  | Setpgid (pid group : Z) : call unit
  | Getpgid (pid : Z) : call Z                       (** [-1] on failure *)
  | Getpgrp : call Z
  | Flock (fd : Z) (exclusive : bool) : call (Z + unit)    (** [LOCK_EX] or [LOCK_UN] *)
  | Pread (fd size : Z) : call (Z + text)            (** from the start *)
  | Ftruncate (fd : Z) : call (Z + unit)             (** to nothing *)
  | Pwrite (fd : Z) (data : text) : call (Z + nat)   (** at the start *)
  | Subreaper : call (Z + unit)
  | SetName (name : text) : call unit
  | Sigaction (signal : Z) (d : disposition) : call (Z + unit)
  | Shell : call (option text)                       (** [getpwuid(getuid())->pw_shell] *)
  (** The two variables that the signal handler shares with the program. *)
  | SetForwarded (pid : Z) : call unit
  | Forwarded : call Z
  | SetTermination (signal : Z) : call unit
  | Termination : call Z
  | Printerr (message : text) : call unit.

Abbreviation event := (did call).

Class Processes := {
  host : Type;
  answer {A} : call A → host → A * host;
  uid : Z;
  sid : Z;
  own_pid : Z;
  answer_read fd size h data : 0 ≤ size →
    (answer (Read fd size) h).1 = inr data → Z.of_nat (length data) ≤ size;
  answer_pwrite fd data h n : (answer (Pwrite fd data) h).1 = inr n → (n ≤ length data)%nat;
  answer_fork h child : (answer Fork h).1 = inr child → 0 ≤ child;
  (** The process waited for, or [0] while it runs. *)
  answer_waitpid pid nohang h p status : 0 < pid →
    (answer (Waitpid pid nohang) h).1 = inr (p, status) → p = pid ∨ nohang = true ∧ p = 0;
}.

Inductive leaving := Exits (code : Z) | Becomes (program : text) (arguments : list text).

#[export] Instance leaving_eq_dec : EqDecision leaving.
Proof. solve_decision. Defined.

Abbreviation M := (prog host event).
Abbreviation world := (machine host event).
Abbreviation triple P m Q := (Effects.triple (S := host) (E := event) P m Q).

Section processes.
Context `{Processes}.

Definition perform {A} (r : call A) : M A := act (answer r) (λ a, [Did r a]).

(** What follows [m] in the process that does not leave. *)
Definition stays {A B} (m : M (leaving + A)) (f : A → M (leaving + B)) : M (leaving + B) :=
  r ← m; match r with inl l => mret (inl l) | inr a => f a end.

Lemma call_returned {A} (r : call A) w x w' :
  perform r w = Returned x w' ↔
  x = (answer r w.(now)).1 ∧ w' = World (answer r w.(now)).2 (Did r x :: w.(trace)).
Proof. unfold perform. rewrite act_returned. naive_solver. Qed.

Lemma triple_call {A} (r : call A) P Q :
  (∀ a T, P T → Q a (Did r a :: T)) → triple P (perform r) Q.
Proof. intros HQ. by apply triple_act. Qed.

(** As [triple_call], for an answer that the kernel can give. *)
Lemma triple_answer {A} (r : call A) P Q :
  (∀ h T, P T → Q (answer r h).1 (Did r (answer r h).1 :: T)) → triple P (perform r) Q.
Proof. intros HQ w x w' HP [-> ->]%call_returned. by apply HQ. Qed.

Lemma emits_call {A} (P : event → Prop) (r : call A) :
  (∀ a, P (Did r a)) → emits P (perform r).
Proof. intros HP. apply emits_act. intros x. by constructor. Qed.

Lemma triple_stays {A B} P (m : M (leaving + A)) (f : A → M (leaving + B)) Q R :
  triple P m Q → (∀ l T, Q (inl l) T → R (inl l) T) → (∀ a, triple (Q (inr a)) (f a) R) →
  triple P (stays m f) R.
Proof.
  intros Hm Hl Hf. eapply triple_bind; [exact Hm|]. intros [l|a]; [|apply Hf].
  apply triple_ret. auto.
Qed.
End processes.

(** Inverts a run into its calls and their answers, as far as they are
    determined. *)
Ltac calls :=
  repeat match goal with
  | H : (_ ≫= _) _ = Returned _ _ |- _ =>
      let E := fresh "E" in apply M_bind_returned in H as (? & ? & E & H)
  | H : mret _ _ = Returned _ _ |- _ => apply M_ret_returned in H as [? ->]
  | H : perform _ _ = Returned _ _ |- _ => apply call_returned in H as [? ->]
  end; cbn [trace] in *; simplify_eq/=.

(** ** Constants of the system *)

Definition EAGAIN : Z := 11.
Definition ESRCH : Z := 3.
Definition EPERM : Z := 1.
Definition POLLIN : Z := 1.
Definition SIGHUP : Z := 1.
Definition SIGINT : Z := 2.
Definition SIGQUIT : Z := 3.
Definition SIGKILL : Z := 9.
Definition SIGPIPE : Z := 13.
Definition SIGTERM : Z := 15.
Definition STDIN_FILENO : Z := 0.
Definition STDOUT_FILENO : Z := 1.
Definition STDERR_FILENO : Z := 2.
