(* ===== verification/Supervise.v ===== *)
(** * The launcher's processes ([native/spaces.c])

    Every function of the launcher that calls the system, as a program of
    [Process]'s calls in the order of the file: the child that prints the
    service manager's environment, the one that updates D-Bus, the agent and
    its supervisor, the monitor that runs the application, and [main].
    [Launch] has what they parse and build.

    A [fuel] bounds every loop that the code does not bound itself: reads and
    writes that are interrupted or partial, and waiting for processes. *)

From S2P Require Import Prelude Glib Launch Agent Process.

Definition DBUS_UPDATE_ACTIVATION_ENVIRONMENT : text :=
  str "/usr/bin/dbus-update-activation-environment".
Definition SYSTEMCTL : text := str "/usr/bin/systemctl".
Definition INITIAL_CAPACITY : Z := 4096.
Definition MAXIMUM_CAPACITY : Z := 1024 * 1024.
Definition POLL_ATTEMPTS : nat := 100.
Definition DEV_NULL : text := str "/dev/null".

Section supervise.
Context `{Processes}.
Variable strerror : Z → text.

Definition say (message : text) : M unit :=
  perform (Printerr (str "spaces: " ++ message ++ [newline_char])).

(** [do ... while (result < 0 && errno == EINTR)] *)
Fixpoint retry {A} (fuel : nat) (r : call (Z + A)) : M (Z + A) :=
  match fuel with
  | O => out_of_fuel
  | S fuel =>
      x ← perform r;
      match x with
      | inl e => if decide (e = EINTR) then retry fuel r else mret (inl e)
      | inr a => mret (inr a)
      end
  end.

(** What was read, if the read did not fail. *)
Definition contents (r : Z + text) : option text :=
  match r with inl _ => None | inr data => Some data end.

(** ** Signals *)

(** The handler; it may run between any two calls. *)
Definition forward_term (signum : Z) : M unit :=
  child ← perform Forwarded;
  if 0 <? child then _ ← perform (Kill child signum); mret tt
  else perform (SetTermination signum).

Fixpoint ignore_signals (signals : list Z) : M bool :=
  match signals with
  | [] => mret true
  | signal :: signals =>
      set ← perform (Sigaction signal Ignore);
      match set with inl _ => mret false | inr _ => ignore_signals signals end
  end.

Definition configure_supervisor_signals : M bool :=
  set ← perform (Sigaction SIGTERM Forward_term);
  match set with
  | inl _ => mret false
  | inr _ => ignore_signals [SIGHUP; SIGINT; SIGQUIT]
  end.

(** ** Stopping the agent *)

(** Whether the agent was collected in time. *)
Fixpoint wait_stopped (attempts : nat) (agent : Z) : M bool :=
  match attempts with
  | O => mret false
  | S attempts =>
      result ← perform (Waitpid agent true);
      match result with
      | inr (p, _) =>
          if p =? agent then mret true
          else _ ← perform (Usleep 100000); wait_stopped attempts agent
      | inl e =>
          if e =? ECHILD then mret true
          else _ ← perform (Usleep 100000); wait_stopped attempts agent
      end
  end.

Definition stop_agent (fuel : nat) (agent : Z) : M unit :=
  if agent <=? 0 then mret tt
  else
    _ ← perform (Kill (- agent) SIGTERM);
    stopped ← wait_stopped 20 agent;
    if stopped : bool then mret tt
    else
      _ ← perform (Kill (- agent) SIGKILL);
      _ ← retry fuel (Waitpid agent false);
      mret tt.

(** Whether the agent's group was seen to be gone. *)
Fixpoint wait_gone (attempts : nat) (agent : Z) : M bool :=
  match attempts with
  | O => mret false
  | S attempts =>
      result ← perform (Kill (- agent) 0);
      if decide (result = inl ESRCH) then mret true
      else _ ← perform (Usleep 100000); wait_gone attempts agent
  end.

Definition terminate_agent (agent : Z) : M unit :=
  if agent <=? 0 then mret tt
  else
    _ ← perform (Kill (- agent) SIGTERM);
    gone ← wait_gone 20 agent;
    if gone : bool then mret tt
    else _ ← perform (Kill (- agent) SIGKILL); mret tt.

(** ** [/proc] *)

Definition process_start_time (fuel : nat) (process : Z) : M (option Z) :=
  if process <=? 1 then mret None
  else
    let path := str "/proc/" ++ signed_decimal process ++ str "/stat" in
    if (64 <=? length path)%nat then mret None
    else
      opened ← perform (Open path (Z.lor O_RDONLY O_CLOEXEC));
      match opened with
      | inl _ => mret None
      | inr descriptor =>
          data ← retry fuel (Read descriptor 2047);
          _ ← perform (Close descriptor);
          mret (Launch.process_start_time process (contents data))
      end.

(** The loop over the children; it runs once per child. *)
Fixpoint signal_groups (fuel : nat) (own_group signum : Z) (cursor : text) (groups : list Z) :
    M unit :=
  match fuel with
  | O => out_of_fuel
  | S fuel =>
      match cursor with
      | [] => mret tt
      | _ =>
          if (32 <=? length groups)%nat then mret tt else
          let cursor := skip_while is_blank cursor in
          match cursor with
          | [] => mret tt
          | _ =>
              let token := take_while not_blank cursor in
              match parse_unsigned token INT_MAX with
              | None => mret tt
              | Some process =>
                  group ← perform (Getpgid process);
                  groups ←
                    (if (1 <? group) && negb (group =? own_group)
                        && bool_decide (group ∉ groups)
                     then _ ← perform (Kill (- group) signum); mret (groups ++ [group])
                     else mret groups);
                  signal_groups fuel own_group signum (drop (length token) cursor) groups
              end
          end
      end
  end.

Definition terminate_adopted_groups (fuel : nat) (signum : Z) : M unit :=
  own_group ← perform Getpgrp;
  let path := str "/proc/self/task/" ++ signed_decimal own_pid ++ str "/children" in
  if (96 <=? length path)%nat then mret tt
  else
    opened ← perform (Open path (Z.lor O_RDONLY O_CLOEXEC));
    match opened with
    | inl _ => mret tt
    | inr descriptor =>
        data ← retry fuel (Read descriptor 4095);
        _ ← perform (Close descriptor);
        match contents data with
        | None | Some [] => mret tt
        | Some data =>
            let buffer := cstring data in
            signal_groups (S (length buffer)) own_group signum buffer []
        end
    end.

(** ** The session's state file *)

Definition lock_agent_state (fuel : nat) : M (option Z) :=
  session ← perform (Getenv (str "XDG_SESSION_ID"));
  match agent_state_path session sid uid with
  | None => mret None
  | Some path =>
      opened ← perform (Open path
        (Z.lor O_RDWR (Z.lor O_CREAT (Z.lor O_CLOEXEC O_NOFOLLOW))));
      match opened with
      | inl _ => mret None
      | inr descriptor =>
          locked ← retry fuel (Flock descriptor true);
          match locked with
          | inl _ => _ ← perform (Close descriptor); mret None
          | inr _ => mret (Some descriptor)
          end
      end
  end.

Definition unlock_agent_state (descriptor : Z) : M unit :=
  _ ← perform (Flock descriptor false);
  perform (Close descriptor).

Definition read_agent_state (fuel : nat) (descriptor : Z) : M AgentState :=
  data ← retry fuel (Pread descriptor 127);
  mret (Launch.read_agent_state (contents data)).

Definition write_agent_state (fuel : nat) (descriptor : Z) (state : AgentState) : M bool :=
  let buffer := print_agent_state state in
  if (128 <=? length buffer)%nat then mret false
  else
    truncated ← perform (Ftruncate descriptor);
    match truncated with
    | inl _ => mret false
    | inr _ =>
        size ← retry fuel (Pwrite descriptor buffer);
        mret (bool_decide (size = inr (length buffer)))
    end.

Definition agent_state_is_live (fuel : nat) (state : AgentState) : M bool :=
  if negb ((1 <? state.(pid)) && (0 <? state.(references))) then mret false
  else
    group ← perform (Getpgid state.(pid));
    if negb (group =? state.(pid)) then mret false
    else
      start ← process_start_time fuel state.(pid);
      if negb (bool_decide (start = Some state.(start_time))) then mret false
      else
        signalled ← perform (Kill (- state.(pid)) 0);
        mret (match signalled with inr _ => true | inl e => e =? EPERM end).

(** ** Children *)

(** A child's standard descriptors; [None] stands for [/dev/null].  [inr] is the
    descriptor of [/dev/null]. *)
Definition redirect (output error : option Z) : M (Z + Z) :=
  opened ← perform (Open DEV_NULL (Z.lor O_RDWR O_CLOEXEC));
  match opened with
  | inl e => mret (inl e)
  | inr null_fd =>
      input ← perform (Dup2 null_fd STDIN_FILENO);
      match input with
      | inl e => mret (inl e)
      | inr _ =>
          out ← perform (Dup2 (default null_fd output) STDOUT_FILENO);
          match out with
          | inl e => mret (inl e)
          | inr _ =>
              err ← perform (Dup2 (default null_fd error) STDERR_FILENO);
              mret (match err with inl e => inl e | inr _ => inr null_fd end)
          end
      end
  end.

Definition close_above (descriptor : Z) : M unit :=
  if STDERR_FILENO <? descriptor then perform (Close descriptor) else mret tt.

(** The error if the program could not be executed. *)
Definition exec (path : text) (arguments : list text) : M (leaving + Z) :=
  failed ← perform (Exec path arguments);
  mret (match failed with None => inl (Becomes path arguments) | Some e => inr e end).

Definition succeeded (status : Z) : bool := WIFEXITED status && (WEXITSTATUS status =? 0).

(** ** The service manager's environment *)

Definition show_environment (output_read output_write : Z) : M leaving :=
  _ ← perform (Close output_read);
  redirected ← redirect (Some output_write) None;
  match redirected with
  | inl _ => mret (Exits 127)
  | inr null_fd =>
      _ ← close_above null_fd;
      _ ← close_above output_write;
      r ← exec SYSTEMCTL [SYSTEMCTL; str "--user"; str "show-environment"];
      mret (match r with inl l => l | inr _ => Exits 127 end)
  end.

(** The capacity for the next read, unless there is no more room. *)
Definition grow (length capacity : Z) : M (option Z) :=
  if negb (length + 1 =? capacity) then mret (Some capacity)
  else if MAXIMUM_CAPACITY <=? capacity then mret None
  else
    let new_capacity := Z.min (capacity * 2) MAXIMUM_CAPACITY in
    larger ← perform (Allocate new_capacity);
    mret (if larger : bool then Some new_capacity else None).

(** Reads what there is: the output, its capacity and whether it ended. *)
Fixpoint drain (fuel : nat) (descriptor : Z) (output : text) (capacity : Z) :
    M (text * Z * bool) :=
  match fuel with
  | O => out_of_fuel
  | S fuel =>
      grown ← grow (Z.of_nat (length output)) capacity;
      match grown with
      | None => mret (output, capacity, false)
      | Some capacity =>
          size ← perform (Read descriptor (capacity - Z.of_nat (length output) - 1));
          match size with
          | inr [] => mret (output, capacity, true)
          | inr data => drain fuel descriptor (output ++ data) capacity
          | inl e => mret (output, capacity, negb ((e =? EAGAIN) || (e =? EINTR)))
          end
      end
  end.

Record reading := Reading {
  output : text;
  capacity : Z;
  end_of_file : bool;
  child_done : bool;
  child_status : option Z;   (** when it is valid *)
}.

(** What [waitpid] said of the child. *)
Definition collect (child : Z) (r : reading) (waited : Z + Z * Z) : reading :=
  match waited with
  | inr (p, status) =>
      if p =? child then Reading r.(output) r.(capacity) r.(end_of_file) true (Some status) else r
  | inl e =>
      if e =? EINTR then r
      else Reading r.(output) r.(capacity) r.(end_of_file) true r.(child_status)
  end.

Fixpoint poll_output (attempts fuel : nat) (descriptor child : Z) (r : reading) : M reading :=
  match attempts with
  | O => mret r
  | S attempts =>
      if r.(child_done) && r.(end_of_file) then mret r
      else
        '(output, capacity, ended) ← drain fuel descriptor r.(output) r.(capacity);
        let r := Reading output capacity (r.(end_of_file) || ended) r.(child_done)
                   r.(child_status) in
        r ← (if r.(child_done) then mret r
             else waited ← perform (Waitpid child true); mret (collect child r waited));
        _ ← (if r.(child_done) && r.(end_of_file) then mret tt
             else _ ← perform (Poll descriptor 10); mret tt);
        poll_output attempts fuel descriptor child r
  end.

Definition abandon (descriptor child : Z) : M (option text) :=
  _ ← perform (Close descriptor);
  _ ← perform (Kill child SIGKILL);
  _ ← perform (Waitpid child false);
  mret None.

(** From the loop on. *)
Definition finish_output (fuel : nat) (descriptor child : Z) : M (option text) :=
  r ← poll_output POLL_ATTEMPTS fuel descriptor child
        (Reading [] INITIAL_CAPACITY false false None);
  _ ← perform (Close descriptor);
  r ← (if r.(child_done) then mret r
       else
         _ ← perform (Kill child SIGKILL);
         waited ← retry fuel (Waitpid child false);
         mret (match waited with
               | inr (p, status) => collect child r (inr (p, status))
               | inl _ => r
               end));
  mret (match r.(child_status) with
        | Some status =>
            if r.(child_done) && r.(end_of_file) && succeeded status then Some r.(output)
            else None
        | None => None
        end).

(** The parent's part. *)
Definition collect_environment (fuel : nat) (child output_read output_write : Z) :
    M (option text) :=
  _ ← perform (Close output_write);
  flags ← perform (Getfl output_read);
  match flags with
  | inl _ => abandon output_read child
  | inr flags =>
      set ← perform (Setfl output_read (Z.lor flags O_NONBLOCK));
      match set with
      | inl _ => abandon output_read child
      | inr _ =>
          allocated ← perform (Allocate INITIAL_CAPACITY);
          if allocated : bool then finish_output fuel output_read child
          else abandon output_read child
      end
  end.

Definition read_manager_environment (fuel : nat) : M (leaving + option text) :=
  piped ← perform Pipe2;
  match piped with
  | inl _ => mret (inr None)
  | inr (output_read, output_write) =>
      forked ← perform Fork;
      match forked with
      | inl _ =>
          _ ← perform (Close output_read);
          _ ← perform (Close output_write);
          mret (inr None)
      | inr child =>
          if child =? 0 then l ← show_environment output_read output_write; mret (inl l)
          else r ← collect_environment fuel child output_read output_write; mret (inr r)
      end
  end.

Fixpoint merge_loop (manager_environment : text) (variables : list (text * bool)) (result : bool) :
    M bool :=
  match variables with
  | [] => mret result
  | (_, false) :: variables => merge_loop manager_environment variables result
  | (name, true) :: variables =>
      preferred ← perform (Getenv name);
      preserved ←
        match manager_environment_value manager_environment name with
        | None => mret None
        | Some value =>
            allocated ← perform (Allocate (Z.of_nat (length value) + 1));
            mret (if allocated : bool then Some value else None)
        end;
      match preferred, preserved with
      | Some preferred, Some preserved =>
          allocated ← perform (Allocate
            (Z.of_nat (length preferred) + Z.of_nat (length preserved) + 2));
          if negb allocated then merge_loop manager_environment variables false
          else
            set ← perform (Setenv name (merge_path_environment preferred preserved));
            merge_loop manager_environment variables
              (match set with inl _ => false | inr _ => result end)
      | _, _ => merge_loop manager_environment variables result
      end
  end.

(** Whether all went well. *)
Definition merge_manager_path_environment (fuel : nat) (variables : list (text * bool)) :
    M (leaving + bool) :=
  if negb (existsb snd variables) then mret (inr true)
  else
    stays (read_manager_environment fuel) (λ manager_environment,
      match manager_environment with
      | None =>
          _ ← say (str "warning: could not read guest service-manager environment");
          mret (inr false)
      | Some manager_environment =>
          result ← merge_loop manager_environment variables true;
          _ ← (if result : bool then mret tt
               else say (str "warning: could not merge guest path environment"));
          mret (inr result)
      end).

(** ** D-Bus's activation environment *)

Definition execute_update (names : list text) : M leaving :=
  redirected ← redirect None None;
  match redirected with
  | inl _ => mret (Exits 127)
  | inr null_fd =>
      _ ← close_above null_fd;
      allocated ← perform (Allocate (8 * (Z.of_nat (length names) + 3)));
      if negb allocated then mret (Exits 127)
      else
        r ← exec DBUS_UPDATE_ACTIVATION_ENVIRONMENT
              (DBUS_UPDATE_ACTIVATION_ENVIRONMENT :: str "--systemd" :: names);
        mret (match r with inl l => l | inr _ => Exits 127 end)
  end.

(** [None] while the child runs. *)
Fixpoint poll_child (attempts : nat) (child : Z) : M (option (Z + Z * Z)) :=
  match attempts with
  | O => mret None
  | S attempts =>
      waited ← perform (Waitpid child true);
      match waited with
      | inl e => if e =? EINTR then poll_child attempts child else mret (Some waited)
      | inr (p, _) =>
          if p =? 0 then _ ← perform (Usleep 10000); poll_child attempts child
          else mret (Some waited)
      end
  end.

Definition await_update (fuel : nat) (child : Z) : M bool :=
  polled ← poll_child 100 child;
  waited ←
    match polled with
    | Some waited => mret waited
    | None => _ ← perform (Kill child SIGKILL); retry fuel (Waitpid child false)
    end;
  let updated :=
    match waited with
    | inr (p, status) => (p =? child) && succeeded status
    | inl _ => false
    end in
  _ ← (if updated then mret tt
       else say (str "warning: could not update guest D-Bus activation environment"));
  mret updated.

Definition update_dbus_environment (fuel : nat) (names : list text) : M (leaving + bool) :=
  if decide (names = []) then mret (inr true)
  else
    forked ← perform Fork;
    match forked with
    | inl e =>
        _ ← say (str "warning: could not update guest D-Bus activation environment: "
                 ++ strerror e);
        mret (inr false)
    | inr child =>
        if child =? 0 then l ← execute_update names; mret (inl l)
        else updated ← await_update fuel child; mret (inr updated)
    end.

(** ** The agent *)

Fixpoint report_loop (fuel : nat) (descriptor : Z) (data : text) : M unit :=
  match fuel with
  | O => out_of_fuel
  | S fuel =>
      match data with
      | [] => mret tt
      | _ =>
          size ← perform (Write descriptor data);
          match size with
          | inl e => if decide (e = EINTR) then report_loop fuel descriptor data else mret tt
          | inr n => report_loop fuel descriptor (drop n data)
          end
      end
  end.

Definition report_status (fuel : nat) (descriptor status : Z) : M unit :=
  report_loop fuel descriptor (int_bytes status).

Definition detach_terminal : M unit :=
  opened ← perform (Open DEV_NULL (Z.lor O_RDWR O_CLOEXEC));
  match opened with
  | inl _ => mret tt
  | inr descriptor =>
      _ ← perform (Dup2 descriptor STDIN_FILENO);
      _ ← perform (Dup2 descriptor STDOUT_FILENO);
      _ ← perform (Dup2 descriptor STDERR_FILENO);
      close_above descriptor
  end.

(** Reports an error and leaves. *)
Definition report_and_leave (fuel : nat) (error_descriptor e : Z) : M leaving :=
  _ ← report_status fuel error_descriptor e;
  mret (Exits 127).

Definition execute_agent (fuel : nat) (agent : text) (error_descriptor output_descriptor : Z) :
    M leaving :=
  redirected ← redirect None (Some output_descriptor);
  match redirected with
  | inl e => report_and_leave fuel error_descriptor e
  | inr null_fd =>
      _ ← close_above null_fd;
      _ ← close_above output_descriptor;
      set ← perform (Setenv (str "QT_LOGGING_RULES") (str "default.debug=true"));
      match set with
      | inl e => report_and_leave fuel error_descriptor e
      | inr _ =>
          r ← exec agent [agent];
          match r with
          | inl l => mret l
          | inr e => report_and_leave fuel error_descriptor e
          end
      end
  end.

Definition write_ready_notification (fuel : nat) (descriptor : Z) : M unit :=
  written ← retry fuel (Write descriptor [char 1]);
  if bool_decide (written = inr 1%nat) then mret tt
  else say (str "warning: could not report polkit agent readiness").

(** Whether readiness was reported, and its descriptor closed. *)
Fixpoint relay_loop (fuel : nat) (descriptor ready_descriptor : Z) (state : nat * bool) : M bool :=
  match fuel with
  | O => out_of_fuel
  | S fuel =>
      size ← perform (Read descriptor 4096);
      match size with
      | inr [] => mret state.2
      | inr data =>
          let state' := foldl match_character state data in
          _ ← (if state'.2 && negb state.2 then
                 _ ← write_ready_notification (S fuel) ready_descriptor;
                 perform (Close ready_descriptor)
               else mret tt);
          relay_loop fuel descriptor ready_descriptor state'
      | inl e =>
          if e =? EINTR then relay_loop fuel descriptor ready_descriptor state
          else mret state.2
      end
  end.

Definition relay_agent_output (fuel : nat) (descriptor ready_descriptor : Z) : M unit :=
  reported ← relay_loop fuel descriptor ready_descriptor (0%nat, false);
  _ ← perform (Close descriptor);
  if negb reported && (0 <=? ready_descriptor) then perform (Close ready_descriptor) else mret tt.

(** The parent's part, to the agent's end. *)
Definition relay_to_end (fuel : nat) (child error_descriptor output_read output_write
    ready_descriptor : Z) : M leaving :=
  _ ← perform (Close error_descriptor);
  _ ← perform (Close output_write);
  _ ← detach_terminal;
  _ ← relay_agent_output fuel output_read ready_descriptor;
  waited ← retry fuel (Waitpid child false);
  mret (Exits (match waited with
               | inr (p, status) => if p =? child then status_code status else 1
               | inl _ => 1
               end)).

Definition supervise_agent (fuel : nat) (agent : text) (error_descriptor ready_descriptor : Z) :
    M leaving :=
  _ ← perform (Sigaction SIGPIPE Ignore);
  piped ← perform Pipe2;
  match piped with
  | inl e => report_and_leave fuel error_descriptor e
  | inr (output_read, output_write) =>
      forked ← perform Fork;
      match forked with
      | inl e =>
          _ ← perform (Close output_read);
          _ ← perform (Close output_write);
          report_and_leave fuel error_descriptor e
      | inr child =>
          if child =? 0 then
            _ ← perform (Close output_read);
            execute_agent fuel agent error_descriptor output_write
          else relay_to_end fuel child error_descriptor output_read output_write ready_descriptor
      end
  end.

Definition wait_for_agent (fuel : nat) (descriptor : Z) : M bool :=
  result ← retry fuel (Poll descriptor 2000);
  match result with
  | inl _ => mret false
  | inr revents =>
      if Z.land revents POLLIN =? 0 then mret false
      else
        ready ← perform (Read descriptor 1);
        mret (bool_decide (ready = inr [char 1]))
  end.

(** Waits for the agent to be executed, or for the error. *)
Definition await_start (fuel : nat) (child error_read error_write ready_read ready_write : Z) :
    M (option (Z * Z)) :=
  _ ← perform (Setpgid child child);
  _ ← perform (Close error_write);
  _ ← perform (Close ready_write);
  size ← retry fuel (Read error_read 4);
  _ ← perform (Close error_read);
  match size with
  | inr ((_ :: _) as data) =>
      _ ← say (str "warning: could not start polkit agent: " ++ strerror (int_of_bytes data));
      _ ← perform (Waitpid child false);
      _ ← perform (Close ready_read);
      mret None
  | _ => mret (Some (child, ready_read))
  end.

(** The supervisor and the descriptor on which it reports readiness. *)
Definition start_agent (fuel : nat) (agent : option text) : M (leaving + option (Z * Z)) :=
  match agent with
  | None => mret (inr None)
  | Some agent =>
      piped ← perform Pipe2;
      match piped with
      | inl _ => mret (inr None)
      | inr (error_read, error_write) =>
          piped ← perform Pipe2;
          match piped with
          | inl _ =>
              _ ← perform (Close error_read);
              _ ← perform (Close error_write);
              mret (inr None)
          | inr (ready_read, ready_write) =>
              forked ← perform Fork;
              match forked with
              | inl _ =>
                  _ ← perform (Close error_read);
                  _ ← perform (Close error_write);
                  _ ← perform (Close ready_read);
                  _ ← perform (Close ready_write);
                  mret (inr None)
              | inr child =>
                  if child =? 0 then
                    _ ← perform (Close error_read);
                    _ ← perform (Close ready_read);
                    _ ← perform (Setpgid 0 0);
                    l ← supervise_agent fuel agent error_write ready_write;
                    mret (inl l)
                  else
                    started ← await_start fuel child error_read error_write ready_read ready_write;
                    mret (inr started)
              end
          end
      end
  end.

(** Whether the agent still runs. *)
Definition finish_agent_start (fuel : nat) (child ready_descriptor : Z) : M bool :=
  ready ← wait_for_agent fuel ready_descriptor;
  _ ← (if ready : bool then mret tt
       else say (str "warning: polkit agent did not become ready"));
  _ ← perform (Close ready_descriptor);
  waited ← perform (Waitpid child true);
  match waited with
  | inr (p, _) =>
      if p =? child then
        _ ← say (str "warning: polkit agent exited during startup");
        mret false
      else mret true
  | inl _ => mret true
  end.

(** ** The reference to the session's agent *)

Definition live_state (fuel : nat) (state : AgentState) : M bool :=
  live ← agent_state_is_live fuel state;
  mret (live && (state.(references) <? UINT_MAX)).

(** The reference, the state's descriptor while it is locked, and the
    descriptor on which the agent reports readiness. *)
Definition acquire_agent_reference (fuel : nat) (agent : option text) :
    M (leaving + AgentReference * option (Z * Z)) :=
  match agent with
  | None => mret (inr (no_reference, None))
  | Some _ =>
      locked ← lock_agent_state fuel;
      match locked with
      | None =>
          _ ← say (str "warning: could not lock shared polkit agent state");
          mret (inr (no_reference, None))
      | Some descriptor =>
          state ← read_agent_state fuel descriptor;
          live ← live_state fuel state;
          if live : bool then
            written ← write_agent_state fuel descriptor
              {| pid := state.(pid); start_time := state.(start_time);
                 references := u32 (state.(references) + 1) |};
            _ ← unlock_agent_state descriptor;
            mret (inr (if written : bool then Reference state.(pid) state.(start_time) true false
                       else no_reference, None))
          else
            _ ← write_agent_state fuel descriptor no_agent;
            stays (start_agent fuel agent) (λ started,
              match started with
              | None =>
                  _ ← unlock_agent_state descriptor;
                  mret (inr (no_reference, None))
              | Some (process, ready) =>
                  mret (inr (Reference process 0 true true, Some (descriptor, ready)))
              end)
      end
  end.

(** Under the lock: the agent's start time goes into the state; whether there is
    an agent after that. *)
Definition record_agent (fuel : nat) (state_descriptor : Z) (reference : AgentReference)
    (started : bool) : M (AgentReference * bool) :=
  start ← (if started then process_start_time fuel reference.(r_pid) else mret None);
  match start with
  | None => mret (reference, started)
  | Some start =>
      written ← write_agent_state fuel state_descriptor
        {| pid := reference.(r_pid); start_time := start; references := 1 |};
      mret (Reference reference.(r_pid) start reference.(r_held) (negb written), written)
  end.

Definition finish_agent_reference (fuel : nat) (reference : AgentReference)
    (state_descriptor ready_descriptor : Z) : M AgentReference :=
  if negb reference.(r_starting) then mret reference
  else
    started ← finish_agent_start fuel reference.(r_pid) ready_descriptor;
    '(finished, started) ← record_agent fuel state_descriptor reference started;
    finished ←
      (if started : bool then mret finished
       else
         _ ← write_agent_state fuel state_descriptor no_agent;
         _ ← stop_agent fuel reference.(r_pid);
         mret no_reference);
    _ ← unlock_agent_state state_descriptor;
    mret finished.

(** Under the lock: one user fewer. *)
Definition drop_reference (fuel : nat) (descriptor : Z) (state : AgentState)
    (reference : AgentReference) : M unit :=
  if (state.(pid) =? reference.(r_pid)) && (state.(start_time) =? reference.(r_start_time))
     && (0 <? state.(references)) then
    let references := state.(references) - 1 in
    if references =? 0 then
      _ ← write_agent_state fuel descriptor no_agent;
      terminate_agent reference.(r_pid)
    else
      _ ← write_agent_state fuel descriptor
        {| pid := state.(pid); start_time := state.(start_time); references := references |};
      mret tt
  else mret tt.

Definition release_agent_reference (fuel : nat) (reference : AgentReference) : M unit :=
  if negb reference.(r_held) || (reference.(r_pid) <=? 0) then mret tt
  else
    locked ← lock_agent_state fuel;
    match locked with
    | None => mret tt
    | Some descriptor =>
        state ← read_agent_state fuel descriptor;
        _ ← drop_reference fuel descriptor state reference;
        unlock_agent_state descriptor
    end.

(** ** The monitor *)

(** What follows the last separator. *)
Definition base_name (path : text) : text := default path (after_last "/" path).

Definition execute_application (command : list text) : M leaving :=
  let failed e :=
    _ ← perform (Printerr (str "spaces: could not start application: " ++ strerror e
                           ++ [newline_char]));
    mret (Exits (if e =? ENOENT then 127 else 126)) in
  let run path arguments :=
    r ← exec path arguments;
    match r with inl l => mret l | inr e => failed e end in
  match command with
  | program :: _ => run program command
  | [] =>
      account ← perform Shell;
      let shell :=
        match account with
        | Some (("/"%char :: _) as shell) => shell
        | _ => str "/bin/sh"
        end in
      allocated ← perform (Allocate (Z.of_nat (length (base_name shell)) + 2));
      if negb allocated then mret (Exits 127)
      else run shell [str "-" ++ base_name shell]
  end.

(** The wait for children; whether the application's status was reported. *)
Fixpoint monitor_loop (fuel : nat) (application status_descriptor : Z) (reported : bool) : M bool :=
  match fuel with
  | O => out_of_fuel
  | S fuel =>
      waited ← perform (Waitpid (-1) false);
      match waited with
      | inl e =>
          if e =? EINTR then
            requested ← perform Termination;
            if requested =? 0 then monitor_loop fuel application status_descriptor reported
            else mret reported
          else mret reported
      | inr (p, status) =>
          reported ←
            (if (p =? application) && negb reported then
               _ ← perform (SetForwarded (-1));
               _ ← report_status (S fuel) status_descriptor status;
               _ ← perform (Close status_descriptor);
               _ ← detach_terminal;
               mret true
             else mret reported);
          requested ← perform Termination;
          if requested =? 0 then monitor_loop fuel application status_descriptor reported
          else mret reported
      end
  end.

(** A failure to start: [1 << 8] is the status of [exit(1)]. *)
Definition report_failure (fuel : nat) (status_descriptor : Z) : M unit :=
  _ ← report_status fuel status_descriptor 256;
  perform (Close status_descriptor).

(** From the loop on. *)
Definition watch_application (fuel : nat) (application status_descriptor : Z)
    (agent : AgentReference) : M leaving :=
  reported ← monitor_loop fuel application status_descriptor false;
  requested ← perform Termination;
  _ ← (if requested =? 0 then mret tt
       else signum ← perform Termination; terminate_adopted_groups fuel signum);
  _ ← (if reported : bool then mret tt else report_failure fuel status_descriptor);
  _ ← release_agent_reference fuel agent;
  mret (Exits 0).

(** The monitor could not start. *)
Definition monitor_failed (fuel : nat) (agent : AgentReference) (status_descriptor : Z) :
    M leaving :=
  _ ← report_failure fuel status_descriptor;
  _ ← release_agent_reference fuel agent;
  mret (Exits 1).

Definition supervise_application (fuel : nat) (application : Z) (agent : AgentReference)
    (status_descriptor : Z) : M leaving :=
  _ ← perform (SetForwarded application);
  configured ← configure_supervisor_signals;
  if negb configured then
    _ ← perform (Kill application SIGTERM);
    monitor_failed fuel agent status_descriptor
  else
    _ ← perform (Sigaction SIGPIPE Ignore);
    watch_application fuel application status_descriptor agent.

Definition monitor_application (fuel : nat) (command : list text) (agent : AgentReference)
    (status_descriptor : Z) : M leaving :=
  subreaper ← perform Subreaper;
  match subreaper with
  | inl _ => monitor_failed fuel agent status_descriptor
  | inr _ =>
      forked ← perform Fork;
      match forked with
      | inl _ => monitor_failed fuel agent status_descriptor
      | inr application =>
          if application =? 0 then execute_application command
          else supervise_application fuel application agent status_descriptor
      end
  end.

(** ** [main] *)

Fixpoint read_status_loop (fuel : nat) (descriptor : Z) (remaining : nat) (data : text) :
    M (option Z) :=
  match fuel with
  | O => out_of_fuel
  | S fuel =>
      match remaining with
      | O => mret (Some (int_of_bytes data))
      | _ =>
          size ← perform (Read descriptor (Z.of_nat remaining));
          match size with
          | inr [] => mret None
          | inr read => read_status_loop fuel descriptor (remaining - length read) (data ++ read)
          | inl e =>
              if e =? EINTR then read_status_loop fuel descriptor remaining data else mret None
          end
      end
  end.

Definition read_status (fuel : nat) (descriptor : Z) : M (option Z) :=
  read_status_loop fuel descriptor 4 [].

(** What [main] says of a command line it refuses. *)
Fixpoint usage_error (arguments : list text) : text :=
  match arguments with
  | [] => str "expected -- before the command"
  | argument :: arguments =>
      if text_eqb argument (str "--agent") then
        match arguments with
        | _ :: arguments => usage_error arguments
        | [] => str "--agent requires a path"
        end
      else if text_eqb argument (str "--dbus-env") || text_eqb argument (str "--dbus-env-path") then
        match arguments with
        | _ :: arguments => usage_error arguments
        | [] => argument ++ str " requires a variable name"
        end
      else if text_eqb argument (str "--launch-id") then
        match arguments with
        | _ :: arguments => usage_error arguments
        | [] => str "--launch-id requires a value"
        end
      else if text_eqb argument (str "SteamLaunch") || has_prefix argument (str "AppId=") then
        usage_error arguments
      else str "unknown option: " ++ argument
  end.

(** The launcher once the monitor runs. *)
Definition await_monitor (fuel : nat) (monitor status_read status_write : Z) : M leaving :=
  let failed :=
    _ ← perform (Kill monitor SIGTERM);
    _ ← perform (Close status_read);
    mret (Exits 1) in
  _ ← perform (Close status_write);
  _ ← perform (SetForwarded monitor);
  configured ← configure_supervisor_signals;
  if negb configured then failed
  else
    status ← read_status fuel status_read;
    match status with
    | None => failed
    | Some status =>
        _ ← perform (Close status_read);
        _ ← perform (SetForwarded (-1));
        _ ← perform (Waitpid monitor true);
        mret (Exits (status_code status))
    end.

(** From the reference on; the monitor is this function's run in the child. *)
Definition launch (fuel : nat) (command : list text) (reference : AgentReference) : M leaving :=
  piped ← perform Pipe2;
  match piped with
  | inl _ => _ ← release_agent_reference fuel reference; mret (Exits 1)
  | inr (status_read, status_write) =>
      forked ← perform Fork;
      match forked with
      | inl _ =>
          _ ← perform (Close status_read);
          _ ← perform (Close status_write);
          _ ← release_agent_reference fuel reference;
          mret (Exits 1)
      | inr monitor =>
          if monitor =? 0 then
            _ ← perform (Close status_read);
            monitor_application fuel command reference status_write
          else await_monitor fuel monitor status_read status_write
      end
  end.

Definition finish_acquired (fuel : nat) (acquired : AgentReference * option (Z * Z)) :
    M AgentReference :=
  match acquired with
  | (reference, Some (state, ready)) => finish_agent_reference fuel reference state ready
  | (reference, None) => mret reference
  end.

Definition main (fuel : nat) (argv : list text) : M leaving :=
  let argc := Z.of_nat (length argv) in
  names ← perform (Allocate (8 * argc));
  merges ← perform (Allocate argc);
  if negb (names && merges) then mret (Exits 1)
  else
    match launcher_options argv with
    | None => _ ← say (usage_error (drop 1 argv)); mret (Exits 2)
    | Some o =>
        _ ← (if o.(o_steam) then perform (SetName (str "reaper")) else mret tt);
        r ← stays (merge_manager_path_environment fuel o.(o_variables)) (λ _,
            stays (acquire_agent_reference fuel o.(o_agent)) (λ acquired,
            stays (update_dbus_environment fuel (map fst o.(o_variables))) (λ _,
            reference ← finish_acquired fuel acquired;
            l ← launch fuel o.(o_command) reference;
            mret (inr l))));
        mret (match r with inl l => l | inr l => l end)
    end.
End supervise.
