(* ===== verification/SuperviseInv.v ===== *)
(** * The launcher's children ([native/spaces.c])

    What the launcher does with the processes it starts, for every answer of
    the kernel: the service manager's environment is used only whole, no
    helper is left running, and the application's status is reported once and
    becomes the launcher's. *)

From S2P Require Import Prelude Glib Launch Agent Process Supervise.

Section traces.
Context `{Processes}.

(** ** What went through a descriptor, oldest byte first *)

Definition read_of (fd : Z) (e : event) : text :=
  match e with
  | Did (Read fd' _) (inr data) => if fd' =? fd then data else []
  | _ => []
  end.

Definition sent_of (fd : Z) (e : event) : text :=
  match e with
  | Did (Write fd' data) (inr n) => if fd' =? fd then take n data else []
  | _ => []
  end.

Fixpoint history (f : event → text) (T : list event) : text :=
  match T with
  | [] => []
  | e :: T => history f T ++ f e
  end.

Definition received (fd : Z) : list event → text := history (read_of fd).
Definition sent (fd : Z) : list event → text := history (sent_of fd).

Lemma history_app f evs T : history f (evs ++ T) = history f T ++ history f evs.
Proof.
  induction evs as [|e evs IH]; simpl; [by rewrite app_nil_r|]. by rewrite IH, app_assoc.
Qed.

Lemma history_nothing f evs : Forall (λ e, f e = []) evs → history f evs = [].
Proof. induction 1 as [|e evs He _ IH]; simpl; [done|]. by rewrite He, IH. Qed.

(** A program that adds nothing to a history. *)
Lemma triple_silent {A} f (m : M A) s :
  emits (λ e, f e = []) m → triple (λ T, history f T = s) m (λ _ T, history f T = s).
Proof.
  intros Hm. eapply triple_emits; [exact Hm|]. intros e T He HT. simpl.
  by rewrite He, app_nil_r.
Qed.

(** ** Repeated calls *)

(** A call that is repeated while it is interrupted. *)
Lemma retry_returned {A} fuel (r : call (Z + A)) w x w' :
  retry fuel r w = Returned x w' →
  x ≠ inl EINTR ∧ ∃ tries, w'.(trace) = Did r x :: tries ++ w.(trace) ∧
    Forall (λ e, e = Did r (inl EINTR)) tries.
Proof.
  revert w. induction fuel as [|fuel IH]; intros w Hr; [done|]. cbn [retry] in Hr.
  apply M_bind_returned in Hr as (y & w1 & [Hy ->]%call_returned & Hr).
  destruct y as [e|a].
  - case_decide as He.
    + apply IH in Hr as (Hx & tries & HT & Htries). split; [done|].
      exists (tries ++ [Did r (inl EINTR)]). rewrite HT, He, <- app_assoc. split; [done|].
      apply Forall_app. by split; [|constructor].
    + apply M_ret_returned in Hr as [-> ->]. split; [congruence|]. by exists [].
  - apply M_ret_returned in Hr as [-> ->]. split; [done|]. by exists [].
Qed.

Lemma retry_answer {A} fuel (r : call (Z + A)) w x w' :
  retry fuel r w = Returned x w' → ∃ h, x = (answer r h).1.
Proof.
  revert w. induction fuel as [|fuel IH]; intros w Hr; [done|]. cbn [retry] in Hr.
  apply M_bind_returned in Hr as (y & w1 & [Hy ->]%call_returned & Hr).
  destruct y as [e|a]; [case_decide; [by eapply IH|]|];
    apply M_ret_returned in Hr as [-> _]; by exists (now w).
Qed.

Lemma emits_retry {A} (P : event → Prop) fuel (r : call (Z + A)) :
  (∀ a, P (Did r a)) → emits P (retry fuel r).
Proof.
  intros HP. induction fuel as [|fuel IH]; [by intros ????|]. cbn [retry].
  apply emits_bind; [by apply emits_call|]. intros _ [e|a] _ _; [|apply emits_ret].
  case_decide; [exact IH|apply emits_ret].
Qed.
End traces.

Create HintDb quiet.

(** Closes a goal whose hypothesis says that a call is among others; [f] tells
    them apart. *)
Ltac absent f := repeat match goal with
  | H : _ ∈ [] |- _ => by apply not_elem_of_nil in H
  | H : _ ∈ _ :: _ |- _ => apply elem_of_cons in H as [H|H]; [by apply (f_equal f) in H; simplify_eq/=|]
  end.

Ltac quiet := repeat (intros; first
  [ apply emits_ret | solve [auto with quiet]
  | apply emits_call; intros; first [done|simpl; repeat case_match; done]
  | apply emits_retry; intros; first [done|simpl; repeat case_match; done]
  | apply emits_bind | case_match | case_decide ]).

(** ** The service manager's environment *)

Section environment.
Context `{Processes}.

(** The child's status was collected. *)
Definition collected (child status : Z) (T : list event) : Prop :=
  ∃ nohang, Did (Waitpid child nohang) (inr (child, status)) ∈ T.

(** There is nothing more to read: end of file, or a failure that does not pass. *)
Definition ended (fd : Z) (T : list event) : Prop :=
  ∃ size a, Did (Read fd size) a ∈ T ∧
    (a = inr [] ∨ ∃ e, a = inl e ∧ e ≠ EAGAIN ∧ e ≠ EINTR).

(** The child was killed or collected, or is not a child any more. *)
Definition settled (child : Z) (T : list event) : Prop :=
  (∃ a, Did (Kill child SIGKILL) a ∈ T) ∨
  ∃ nohang a, Did (Waitpid child nohang) a ∈ T ∧
    ((∃ status, a = inr (child, status)) ∨ ∃ e, a = inl e ∧ e ≠ EINTR).

Lemma collected_cons child status e T : collected child status T → collected child status (e :: T).
Proof. intros [nohang He]. exists nohang. by right. Qed.
Lemma ended_cons fd e T : ended fd T → ended fd (e :: T).
Proof. intros (size & a & He & Ha). exists size, a. split; [by right|done]. Qed.
Lemma settled_cons child e T : settled child T → settled child (e :: T).
Proof.
  intros [[a He]|(nohang & a & He & Ha)]; [left; exists a; by right|].
  right. exists nohang, a. split; [by right|done].
Qed.
Hint Resolve collected_cons ended_cons settled_cons : core.

Record reading_ok (fd child : Z) (r : reading) (T : list event) : Prop := {
  ok_output : received fd T = r.(output);
  ok_room : Z.of_nat (length r.(output)) < r.(capacity) ≤ MAXIMUM_CAPACITY;
  ok_ended : r.(end_of_file) = true → ended fd T;
  ok_status status : r.(child_status) = Some status → collected child status T;
  ok_done : r.(child_done) = true → settled child T;
}.

Lemma reading_ok_cons fd child r e T :
  read_of fd e = [] → reading_ok fd child r T → reading_ok fd child r (e :: T).
Proof.
  intros He [Ho Hr Hf Hs Hd]. split; eauto. unfold received. simpl.
  rewrite He, app_nil_r. exact Ho.
Qed.

Lemma reading_ok_grow fd child r :
  triple (reading_ok fd child r) (grow (Z.of_nat (length r.(output))) r.(capacity))
    (λ grown T, reading_ok fd child r T ∧ ∀ c, grown = Some c →
       Z.of_nat (length r.(output)) + 1 < c ≤ MAXIMUM_CAPACITY).
Proof.
  unfold grow. destruct (negb _) eqn:Efull.
  { apply triple_ret. intros T HT. split; [done|]. intros c [= <-].
    apply negb_true_iff, Z.eqb_neq in Efull. pose proof (ok_room _ _ _ _ HT). lia. }
  apply negb_false_iff, Z.eqb_eq in Efull. destruct (Z.leb_spec MAXIMUM_CAPACITY r.(capacity)).
  { apply triple_ret. intros T HT. by split. }
  eapply (triple_bind _ _ _ (λ _, reading_ok fd child r)).
  { apply triple_call. intros a T HT. by apply reading_ok_cons. }
  intros [|]; apply triple_ret; intros T HT; (split; [done|]); [|done].
  intros c [= <-]. pose proof (ok_room _ _ _ _ HT). unfold MAXIMUM_CAPACITY in *. lia.
Qed.

Lemma reading_ok_drain fuel fd child r :
  triple (reading_ok fd child r) (drain fuel fd r.(output) r.(capacity))
    (λ d T, reading_ok fd child
       (Reading d.1.1 d.1.2 (r.(end_of_file) || d.2) r.(child_done) r.(child_status)) T).
Proof.
  revert r. induction fuel as [|fuel IH]; intros r; [apply triple_out_of_fuel|]. cbn [drain].
  eapply triple_bind; [apply reading_ok_grow|]. intros [c|]; [|apply triple_ret].
  2: { intros T [[] _]. rewrite orb_false_r. by split. }
  eapply (triple_bind _ _ _ (λ size T, ∃ T', T = Did (Read fd (c - Z.of_nat (length (output r)) - 1)) size :: T' ∧
    reading_ok fd child r T' ∧ c ≤ MAXIMUM_CAPACITY ∧
    match size with inr data => Z.of_nat (length (output r) + length data) < c
                  | inl _ => Z.of_nat (length (output r)) < c end)).
  { apply triple_answer. intros h T [HT Hc]. specialize (Hc c eq_refl).
    exists T. split; [done|]. split; [done|]. split; [lia|]. destruct (answer _ h).1 as [e|data] eqn:Ea.
    - lia.
    - apply answer_read in Ea; lia. }
  intros [e|[|b data]].
  - apply triple_ret. intros T (T' & -> & HT & Hc & Hl). destruct HT as [Ho Hr Hf Hs Hd].
    split; simpl; eauto; [unfold received; simpl; by rewrite app_nil_r|]. rewrite orb_true_iff, negb_true_iff, orb_false_iff.
    intros [?|[?%Z.eqb_neq ?%Z.eqb_neq]]; [by eauto|].
    eexists _, _. split; [by left|]. right. by exists e.
  - apply triple_ret. intros T (T' & -> & HT & Hc & Hl). destruct HT as [Ho Hr Hf Hs Hd].
    split; simpl; eauto; [|simpl in Hl; lia|].
    + unfold received. simpl. rewrite Z.eqb_refl. by rewrite app_nil_r.
    + intros _. eexists _, _. split; [by left|]. by left.
  - pose proof (IH (Reading (output r ++ b :: data) c (end_of_file r) (child_done r) (child_status r)))
      as Hdrain. cbn [output capacity end_of_file child_done child_status] in Hdrain.
    eapply triple_conseq; [|intros x T HT; exact HT|exact Hdrain].
    intros T (T' & -> & HT & Hc & Hl). destruct HT as [Ho Hr Hf Hs Hd].
    split; simpl; eauto.
    + unfold received. simpl. rewrite Z.eqb_refl. unfold received in Ho. by rewrite Ho.
    + rewrite length_app. lia.
Qed.

Lemma reading_ok_collect fd child r nohang waited T :
  reading_ok fd child r T →
  reading_ok fd child (collect child r waited) (Did (Waitpid child nohang) waited :: T).
Proof.
  intros HT. apply (reading_ok_cons _ _ _ (Did (Waitpid child nohang) waited)) in HT; [|done].
  destruct HT as [Ho Hr Hf Hs Hd]. unfold collect. destruct waited as [e|[p status]].
  - destruct (Z.eqb_spec e EINTR); [by split|]. split; simpl; auto. intros _. right.
    eexists _, _. split; [by left|]. right. by exists e.
  - destruct (Z.eqb_spec p child) as [->|]; [|by split]. split; simpl; auto.
    + intros s [= ->]. exists nohang. by left.
    + intros _. right. eexists _, _. split; [by left|]. left. by exists status.
Qed.

Lemma reading_ok_poll attempts fuel fd child r :
  triple (reading_ok fd child r) (poll_output attempts fuel fd child r)
    (λ r T, reading_ok fd child r T).
Proof.
  revert r. induction attempts as [|attempts IH]; intros r; cbn [poll_output]; [by apply triple_ret|].
  destruct (child_done r && end_of_file r); [by apply triple_ret|].
  eapply triple_bind; [apply reading_ok_drain|]. intros [[o c] e]. cbn [fst snd].
  set (r' := Reading o c _ _ _).
  eapply (triple_bind _ _ _ (λ r T, reading_ok fd child r T)).
  { destruct (child_done r'); [by apply triple_ret|].
    eapply (triple_bind _ _ _ (λ waited T, reading_ok fd child (collect child r' waited) T));
      [|intros; by apply triple_ret].
    apply triple_call. intros a T HT. by apply reading_ok_collect. }
  intros r2. eapply (triple_bind _ _ _ (λ _ T, reading_ok fd child r2 T)); [|intros; apply IH].
  destruct (child_done r2 && end_of_file r2); [by apply triple_ret|].
  eapply (triple_bind _ _ _ (λ _, reading_ok fd child r2)); [|intros; by apply triple_ret].
  apply triple_call. intros a T HT. by apply reading_ok_cons.
Qed.

(** The output that a run may return. *)
Definition whole_output (fd child : Z) (o : text) (T : list event) : Prop :=
  o = received fd T ∧ ended fd T ∧ Z.of_nat (length o) < MAXIMUM_CAPACITY ∧
  ∃ status, succeeded status = true ∧ collected child status T.

Lemma finish_output_ok fuel fd child :
  triple (λ T, received fd T = []) (finish_output fuel fd child)
    (λ out T, settled child T ∧ ∀ o, out = Some o → whole_output fd child o T).
Proof.
  unfold finish_output. apply (triple_conseq _ (reading_ok fd child
    (Reading [] INITIAL_CAPACITY false false None)) _ (λ out T, settled child T ∧
      ∀ o, out = Some o → whole_output fd child o T)); [by intros T HT; split|done|].
  eapply triple_bind; [apply reading_ok_poll|]. intros r.
  eapply (triple_bind _ _ _ (λ _, reading_ok fd child r)).
  { apply triple_call. intros a T HT. by apply reading_ok_cons. }
  intros _. eapply (triple_bind _ _ _ (λ r T, reading_ok fd child r T ∧ settled child T)).
  - destruct (child_done r) eqn:Ed; [apply triple_ret; intros T HT; split; [done|]; by apply HT|].
    eapply (triple_bind _ _ _ (λ _ T, reading_ok fd child r T ∧ settled child T)).
    { apply triple_call. intros a T HT. split; [by apply reading_ok_cons|]. left. exists a. by left. }
    intros _ w r' w' [HT Hk] (waited & w1 & Hw & [-> ->]%M_ret_returned)%M_bind_returned.
    apply retry_returned in Hw as (_ & tries & HT1 & Htries). rewrite HT1.
    assert (reading_ok fd child r (tries ++ trace w) ∧ settled child (tries ++ trace w)) as [HT2 Hk2].
    { clear HT1. induction Htries as [|e tries -> _ [IH1 IH2]]; [done|].
      split; [by apply reading_ok_cons|by apply settled_cons]. }
    split; [|by apply settled_cons].
    pose proof (reading_ok_collect fd child r false waited _ HT2) as Hc.
    destruct waited as [e|[p status]]; [by apply reading_ok_cons|exact Hc].
  - intros r'. apply triple_ret. intros T [[Ho Hr Hf Hs Hd] Hk]. split; [done|]. intros o.
    destruct (child_status r') as [status|]; [|done]. case_match eqn:Et; [|done]. intros [= <-].
    apply andb_true_iff in Et as [[? ?]%andb_true_iff Hst].
    split; [done|]. split; [auto|]. split; [lia|]. exists status. auto.
Qed.

Lemma collect_environment_ok fuel fd child output_write :
  triple (λ T, received fd T = []) (collect_environment fuel child fd output_write)
    (λ out T, settled child T ∧ ∀ o, out = Some o → whole_output fd child o T).
Proof.
  assert (triple (λ T, received fd T = []) (abandon fd child)
    (λ out T, settled child T ∧ ∀ o, out = Some o → whole_output fd child o T)) as Habandon.
  { intros w out w' _ Hr. unfold abandon in Hr. calls. split; [|done]. left. eexists. right. by left. }
  assert (∀ A (r : call A), (∀ a, read_of fd (Did r a) = []) →
    triple (λ T, received fd T = []) (perform r) (λ _ T, received fd T = [])) as Hquiet.
  { intros A r Hr. apply triple_silent. by apply emits_call. }
  unfold collect_environment.
  eapply triple_bind; [by apply Hquiet|intros ?].
  eapply triple_bind; [by apply Hquiet|intros [e|flags]; [exact Habandon|]].
  eapply triple_bind; [by apply Hquiet|intros [e|[]]; [exact Habandon|]].
  eapply triple_bind; [by apply Hquiet|intros [|]; [apply finish_output_ok|exact Habandon]].
Qed.

(** The child of a successful [fork]. *)
Definition fork_of (e : event) : option Z :=
  match e with Did Fork (inr child) => Some child | _ => None end.

Definition no_fork (e : event) : Prop := match e with Did Fork _ => False | _ => True end.

Lemma no_fork_drain fuel fd o c : emits no_fork (drain fuel fd o c).
Proof.
  revert o c. induction fuel; intros; cbn [drain]; [by intros ????|]. unfold grow. quiet.
Qed.
Hint Resolve no_fork_drain : quiet.

Lemma no_fork_poll attempts fuel fd child r : emits no_fork (poll_output attempts fuel fd child r).
Proof. revert r. induction attempts; intros; cbn [poll_output]; quiet. Qed.
Hint Resolve no_fork_poll : quiet.

Lemma no_fork_collect fuel child fd output_write :
  emits no_fork (collect_environment fuel child fd output_write).
Proof. unfold collect_environment, finish_output, abandon. quiet. Qed.

(** the service manager's environment is used only if [systemctl] exited
    with success, and then it is all that was read from it, to the end and less
    than the bound; and on every path the child is killed or collected. *)
Theorem manager_environment_whole fuel h out w' :
  read_manager_environment fuel (World h []) = Returned (inr out) w' →
  (∀ child, child ≠ 0 → Did Fork (inr child) ∈ w'.(trace) → settled child w'.(trace)) ∧
  ∀ o, out = Some o → ∃ fd write_fd child,
    Did Pipe2 (inr (fd, write_fd)) ∈ w'.(trace) ∧ Did Fork (inr child) ∈ w'.(trace) ∧
    whole_output fd child o w'.(trace).
Proof.
  unfold read_manager_environment. intros (piped & w1 & [Hp ->]%call_returned & Hr)%M_bind_returned.
  destruct piped as [e|[fd write_fd]].
  { calls. split; [|done]. intros c _ Hc. absent fork_of. }
  apply M_bind_returned in Hr as (forked & w2 & [Hf ->]%call_returned & Hr).
  destruct forked as [e|child].
  { calls. split; [|done]. intros c _ Hc. absent fork_of. }
  destruct (Z.eqb_spec child 0).
  { by calls. }
  apply M_bind_returned in Hr as (o & w3 & Hr & [[= ->] ->]%M_ret_returned).
  destruct (λ HT, collect_environment_ok _ _ _ _ _ _ _ HT Hr) as [Hs Ho]; [done|].
  destruct (no_fork_collect _ _ _ _ _ _ _ Hr) as (evs & HT & Hevs). cbn [trace] in HT.
  rewrite HT in *. split.
  - intros c _ [Hc|Hc]%elem_of_app.
    + by apply (proj1 (Forall_forall _ _) Hevs) in Hc.
    + apply elem_of_cons in Hc as [Hc|Hc]; [|absent fork_of].
      apply (f_equal fork_of) in Hc. by injection Hc as ->.
  - intros o' Ho'. exists fd, write_fd, child. rewrite !elem_of_app. split_and!; [|..|by apply Ho].
    + right. right. by left.
    + right. by left.
Qed.
End environment.

(** ** D-Bus's activation environment *)

Section update.
Context `{Processes} (strerror : Z → text).

(** [waitpid]'s answer for a process that it was asked for. *)
Definition waited_for (child : Z) (waited : Z + Z * Z) (T : list event) : Prop :=
  (∃ nohang, Did (Waitpid child nohang) waited ∈ T) ∧ waited ≠ inl EINTR ∧
  ∀ p status, waited = inr (p, status) → p = child.

Lemma waited_for_settled child waited T : waited_for child waited T → settled child T.
Proof.
  intros ([nohang Hw] & He & Hp). right. exists nohang, waited. split; [done|].
  destruct waited as [e|[p status]]; [right|left].
  - exists e. split; [done|]. congruence.
  - exists status. by rewrite (Hp p status).
Qed.

Lemma poll_child_waited attempts child : 0 < child →
  triple (λ _, True) (poll_child attempts child)
    (λ r T, ∀ waited, r = Some waited → waited_for child waited T).
Proof.
  intros Hc. induction attempts as [|attempts IH]; cbn [poll_child]; [by apply triple_ret|].
  apply (triple_bind _ _ _ (λ waited T, Did (Waitpid child true) waited ∈ T ∧
    ∀ p status, waited = inr (p, status) → p = child ∨ p = 0)).
  { apply triple_answer. intros h T _. split; [by left|]. intros p status Ha.
    apply answer_waitpid in Ha; [|done]. naive_solver. }
  intros [e|[p status]].
  - destruct (Z.eqb_spec e EINTR) as [_|He].
    { eapply triple_conseq; [|intros x T HT; exact HT|exact IH]. done. }
    apply triple_ret. intros T [Hw _] waited [= <-]. split; [by exists true|]. split; [congruence|done].
  - destruct (Z.eqb_spec p 0) as [->|Hp].
    { apply (triple_bind _ _ _ (λ _ _, True)); [by apply triple_call|intros ?; exact IH]. }
    apply triple_ret. intros T [Hw Hq] waited [= <-]. split; [by exists true|]. split; [done|].
    intros q s [= <- <-]. by destruct (Hq p status eq_refl).
Qed.

Lemma retry_waited fuel child w x w' : 0 < child →
  retry fuel (Waitpid child false) w = Returned x w' → waited_for child x w'.(trace).
Proof.
  intros Hc Hr. destruct (retry_answer _ _ _ _ _ Hr) as [h Hx].
  apply retry_returned in Hr as (He & tries & -> & _). split; [exists false; by left|].
  split; [done|]. intros p status ->. symmetry in Hx. apply answer_waitpid in Hx; [|done].
  naive_solver.
Qed.

Lemma await_update_ok fuel child : 0 < child →
  triple (λ _, True) (await_update fuel child)
    (λ updated T, settled child T ∧
       (updated = true → ∃ status, succeeded status = true ∧ collected child status T)).
Proof.
  intros Hc. unfold await_update.
  eapply triple_bind; [by apply poll_child_waited|]. intros polled.
  apply (triple_bind _ _ _ (λ waited T, waited_for child waited T)).
  { destruct polled as [waited|]; [apply triple_ret; auto|].
    apply (triple_bind _ _ _ (λ _ _, True)); [by apply triple_call|].
    intros ? w x w' _. by apply retry_waited. }
  intros waited. set (updated := match waited with inr _ => _ | _ => _ end).
  apply (triple_bind _ _ _ (λ _ T, waited_for child waited T)).
  { destruct updated; [by apply triple_ret|]. apply triple_call.
    intros a T ([nohang Hw] & He). split; [|done]. exists nohang. by right. }
  intros _. apply triple_ret. intros T HT. split; [by eapply waited_for_settled|].
  unfold updated. destruct waited as [e|[p status]]; [done|].
  intros [->%Z.eqb_eq Hs]%andb_true_iff. exists status. split; [done|]. apply HT.
Qed.

Lemma no_fork_await_update fuel child : emits no_fork (await_update fuel child).
Proof.
  assert (∀ attempts, emits no_fork (poll_child attempts child)) as Hpoll.
  { intros attempts. induction attempts; cbn [poll_child]; quiet. }
  unfold await_update. quiet.
Qed.

(** D-Bus's environment counts as updated only if the tool exited with
    success, and the tool is killed or collected whatever happens. *)
Theorem update_settled fuel names h updated w' :
  update_dbus_environment strerror fuel names (World h []) = Returned (inr updated) w' →
  (∀ child, child ≠ 0 → Did Fork (inr child) ∈ w'.(trace) → settled child w'.(trace)) ∧
  (updated = true → names ≠ [] → ∃ child status,
     Did Fork (inr child) ∈ w'.(trace) ∧ succeeded status = true ∧
     collected child status w'.(trace)).
Proof.
  unfold update_dbus_environment. case_decide as Hn.
  { intros Hr. calls. split; [|done]. intros c _ Hc. absent fork_of. }
  intros (forked & w1 & [Hf ->]%call_returned & Hr)%M_bind_returned.
  destruct forked as [e|child].
  { unfold say in Hr. calls. split; [|done]. intros c _ Hc. absent fork_of. }
  destruct (Z.eqb_spec child 0); [by calls|].
  assert (0 < child) as Hc by (symmetry in Hf; apply answer_fork in Hf; lia).
  apply M_bind_returned in Hr as (o & w3 & Hr & [[= ->] ->]%M_ret_returned).
  destruct (await_update_ok fuel child Hc _ _ _ I Hr) as [Hs Ho].
  destruct (no_fork_await_update _ _ _ _ _ Hr) as (evs & HT & Hevs). cbn [trace] in HT.
  rewrite HT in *. split.
  - intros c _ [Hin|Hin]%elem_of_app; [by apply (proj1 (Forall_forall _ _) Hevs) in Hin|].
    apply list_elem_of_singleton, (f_equal fork_of) in Hin. by injection Hin as ->.
  - intros Hu _. destruct (Ho Hu) as (status & ? & ?). exists child, status.
    split; [|done]. rewrite elem_of_app. right. by left.
Qed.
End update.
