(* ===== verification/MonitorInv.v ===== *)
(** * The application's status and the agent's readiness ([native/spaces.c])

    The monitor reports the application's status once, whole, and then releases
    the agent; the launcher leaves with that status.  The agent's supervisor
    reports readiness exactly when the agent's output says so. *)

From S2P Require Import Prelude Glib Launch Agent Process Supervise SuperviseInv.

Section monitor.
Context `{Processes} (strerror : Z → text).

(** ** What the monitor learns of the application *)

(** The status that a wait for any child gave for [application]. *)
Definition status_of (application : Z) (e : event) : option Z :=
  match e with
  | Did (Waitpid p _) (inr (q, status)) =>
      if (p =? -1) && (q =? application) then Some status else None
  | _ => None
  end.

(** The oldest. *)
Fixpoint first_status (application : Z) (T : list event) : option Z :=
  match T with
  | [] => None
  | e :: T =>
      match first_status application T with
      | Some status => Some status
      | None => status_of application e
      end
  end.

(** The last process that was forked. *)
Fixpoint started (T : list event) : option Z :=
  match T with
  | [] => None
  | e :: T => match fork_of e with Some child => Some child | None => started T end
  end.

(** The status to report: that of [exit(1)] if there is none. *)
Definition monitor_status (T : list event) : Z :=
  default 256 (started T ≫= λ application, first_status application T).

(** ** Reporting *)

Definition write_failed (fd : Z) (T : list event) : Prop :=
  ∃ data e, Did (Write fd data) (inl e) ∈ T ∧ e ≠ EINTR.

(** [data] was written to [fd], or as much of it as it took. *)
Definition reported (fd : Z) (data : text) (T : list event) : Prop :=
  sent fd T `prefix_of` data ∧ (sent fd T = data ∨ write_failed fd T).

Lemma write_failed_cons fd e T : write_failed fd T → write_failed fd (e :: T).
Proof. intros (data & x & Hx & He). exists data, x. split; [by right|done]. Qed.

Lemma reported_cons fd data e T : sent_of fd e = [] → reported fd data T → reported fd data (e :: T).
Proof.
  intros He [Hp Hs]. unfold reported, sent. simpl. rewrite He, app_nil_r.
  split; [done|]. destruct Hs; [by left|right; by apply write_failed_cons].
Qed.

Lemma report_loop_sent fuel fd data before :
  triple (λ T, sent fd T = before) (report_loop fuel fd data)
    (λ _ T, reported fd (before ++ data) T).
Proof.
  revert data before. induction fuel as [|fuel IH]; intros data before; [apply triple_out_of_fuel|].
  cbn [report_loop]. destruct data as [|c rest].
  { apply triple_ret. intros T <-. rewrite app_nil_r. split; [done|by left]. }
  remember (c :: rest) as data eqn:Hdata. clear c rest Hdata.
  apply (triple_bind _ _ _ (λ size T, ∃ T', T = Did (Write fd data) size :: T' ∧ sent fd T' = before)).
  { apply triple_call. intros a T HT. by exists T. }
  intros [e|n].
  - case_decide as He.
    + eapply triple_conseq; [|intros x T HT; exact HT|apply (IH data before)].
      intros T (T' & -> & HT). unfold sent. simpl. by rewrite app_nil_r.
    + apply triple_ret. intros T (T' & -> & HT). unfold reported, sent. simpl. rewrite app_nil_r.
      unfold sent in HT. rewrite HT. split; [by exists data|]. right. exists data, e. split; [by left|congruence].
  - eapply triple_conseq; [| |apply (IH (drop n data) (before ++ take n data))].
    + intros T (T' & -> & HT). unfold sent. simpl. rewrite Z.eqb_refl. unfold sent in HT. by rewrite HT.
    + intros x T HT. by rewrite <- app_assoc, take_drop in HT.
Qed.

Lemma report_status_sent fuel fd status :
  triple (λ T, sent fd T = []) (report_status fuel fd status)
    (λ _ T, reported fd (int_bytes status) T).
Proof. apply (report_loop_sent fuel fd (int_bytes status) []). Qed.

(** ** Calls that report nothing *)

(** Neither a write to [fd], nor a child, nor a status, nor the agent's state. *)
Definition aside (fd : Z) (e : event) : Prop :=
  sent_of fd e = [] ∧ fork_of e = None ∧ (∀ p, status_of p e = None).

Definition touches_state (e : event) : bool :=
  match e with
  | Did (Flock _ _) _ | Did (Pread _ _) _ | Did (Pwrite _ _) _ | Did (Ftruncate _) _ => true
  | _ => false
  end.

Definition beside (fd : Z) (e : event) : Prop := aside fd e ∧ touches_state e = false.

Lemma aside_reported fd data evs T :
  Forall (aside fd) evs → reported fd data T → reported fd data (evs ++ T).
Proof. induction 1 as [|e evs He _ IH]; [done|]. intros HT. apply reported_cons; [apply He|auto]. Qed.

Lemma aside_status fd application evs T :
  Forall (aside fd) evs → first_status application (evs ++ T) = first_status application T.
Proof.
  induction 1 as [|e evs He _ IH]; [done|]. simpl. rewrite IH.
  destruct He as (_ & _ & He). rewrite He. by destruct (first_status application T).
Qed.

Lemma aside_started fd evs T : Forall (aside fd) evs → started (evs ++ T) = started T.
Proof. induction 1 as [|e evs He _ IH]; [done|]. simpl. destruct He as (_ & -> & _). exact IH. Qed.
End monitor.

Ltac beside_leaf := simpl; repeat split; intros; simpl; repeat case_match; done.

Ltac beside := repeat (intros; first
  [ apply emits_ret | solve [auto with beside]
  | apply emits_call; intros; beside_leaf
  | apply emits_retry; intros; beside_leaf
  | apply emits_bind | case_match | case_decide ]).

Create HintDb beside.

Section monitored.
Context `{Processes} (strerror : Z → text).

(** ** The wait *)

Record watching (application fd : Z) (flag : bool) (T : list event) : Prop := {
  w_started : started T = Some application;
  w_untouched : Forall (λ e, touches_state e = false) T;
  w_status :
    if flag then ∃ status, first_status application T = Some status ∧
      reported fd (int_bytes status) T ∧ Did (Close fd) tt ∈ T
    else first_status application T = None ∧ sent fd T = [];
}.

Lemma watching_beside application fd flag e T :
  beside fd e → watching application fd flag T → watching application fd flag (e :: T).
Proof.
  intros [(Hs & Hf & Hw) Ht] [Hst Hu Hr]. split.
  - simpl. by rewrite Hf.
  - by constructor.
  - simpl. rewrite Hw. destruct flag.
    + destruct Hr as (status & -> & Hr & Hc). exists status.
      split; [done|]. split; [by apply reported_cons|by right].
    + destruct Hr as [-> Hr]. split; [done|]. unfold sent in *. simpl. by rewrite Hs, app_nil_r.
Qed.

Lemma triple_watching {A} application fd flag (m : M A) :
  emits (beside fd) m →
  triple (watching application fd flag) m (λ _, watching application fd flag).
Proof. intros Hm. eapply triple_emits; [exact Hm|]. intros e T. apply watching_beside. Qed.

Lemma beside_say fd message : emits (beside fd) (say message).
Proof. unfold say. beside. Qed.

Lemma beside_detach fd : emits (beside fd) detach_terminal.
Proof. unfold detach_terminal, close_above. beside. Qed.

Lemma beside_groups fd fuel own signum cursor groups :
  emits (beside fd) (signal_groups fuel own signum cursor groups).
Proof.
  revert cursor groups. induction fuel; intros; cbn [signal_groups]; [by intros ????|]. beside.
Qed.
Hint Resolve beside_say beside_detach beside_groups : beside.

Lemma beside_terminate_groups fd fuel signum :
  emits (beside fd) (terminate_adopted_groups fuel signum).
Proof. unfold terminate_adopted_groups. beside. Qed.

Lemma beside_configure fd : emits (beside fd) configure_supervisor_signals.
Proof. unfold configure_supervisor_signals. cbn [ignore_signals]. beside. Qed.
Hint Resolve beside_terminate_groups beside_configure : beside.

(** What reporting leaves alone. *)
Definition reporting (e : event) : Prop :=
  fork_of e = None ∧ (∀ p, status_of p e = None) ∧ touches_state e = false.

Lemma reporting_report fuel fd status : emits reporting (report_status fuel fd status).
Proof.
  unfold report_status. generalize (int_bytes status). induction fuel; intros; cbn [report_loop];
    [by intros ????|]. beside.
Qed.

Abbreviation untouched T := (Forall (λ e, touches_state e = false) T).

Lemma report_and_close fuel fd status w x w' :
  sent fd w.(trace) = [] →
  (_ ← report_status fuel fd status; perform (Close fd)) w = Returned x w' →
  reported fd (int_bytes status) w'.(trace) ∧ Did (Close fd) tt ∈ w'.(trace) ∧
  started w'.(trace) = started w.(trace) ∧
  (∀ a, first_status a w'.(trace) = first_status a w.(trace)) ∧
  (untouched w.(trace) → untouched w'.(trace)).
Proof.
  intros Hs (y & w1 & Hr & [_ ->]%call_returned)%M_bind_returned. destruct x.
  destruct (reporting_report _ _ _ _ _ _ Hr) as (evs & HT & Hevs).
  pose proof (report_status_sent _ _ _ _ _ _ Hs Hr) as Hsent. cbn [trace].
  split; [by apply reported_cons|]. split; [by left|]. rewrite HT. clear Hsent HT Hr. split_and!.
  - simpl. induction Hevs as [|e evs (He & _) _ IH]; [done|]. simpl. by rewrite He.
  - intros a. simpl. enough (first_status a (evs ++ trace w) = first_status a (trace w)) as ->
      by (by destruct (first_status a (trace w))).
    induction Hevs as [|e evs (_ & He & _) _ IH]; [done|]. simpl. rewrite IH, He.
    by destruct (first_status a (trace w)).
  - intros Hu. constructor; [done|]. apply Forall_app. split; [|done].
    eapply Forall_impl; [exact Hevs|]. by intros e (_ & _ & ?).
Qed.

Lemma monitor_loop_watching fuel application fd flag :
  triple (watching application fd flag) (monitor_loop fuel application fd flag)
    (λ flag, watching application fd flag).
Proof.
  revert flag. induction fuel as [|fuel IH]; intros flag; [apply triple_out_of_fuel|].
  cbn [monitor_loop].
  assert (∀ flag, triple (watching application fd flag)
    (requested ← perform Termination;
     if requested =? 0 then monitor_loop fuel application fd flag else mret flag)
    (λ flag, watching application fd flag)) as Hnext.
  { intros f. eapply triple_bind; [apply triple_watching; beside|]. intros requested. cbn beta.
    destruct (requested =? 0); [apply IH|by apply triple_ret]. }
  apply (triple_bind _ _ _ (λ waited T, ∃ T', T = Did (Waitpid (-1) false) waited :: T' ∧
    watching application fd flag T')).
  { apply triple_call. intros a T HT. by exists T. }
  intros [e|[p status]].
  - assert (∀ T, (∃ T', T = Did (Waitpid (-1) false) (inl e) :: T' ∧ watching application fd flag T') →
      watching application fd flag T) as Hstep.
    { intros T (T' & -> & HT). apply watching_beside; [|done]. by repeat split. }
    destruct (e =? EINTR); [|apply triple_ret; exact Hstep].
    eapply triple_conseq; [exact Hstep|intros x T HT; exact HT|apply Hnext].
  - eapply triple_bind; [|intros f; apply Hnext]. destruct ((p =? application) && negb flag) eqn:Et.
    + apply andb_true_iff in Et as [->%Z.eqb_eq ->%negb_true_iff].
      apply (triple_bind _ _ _ (λ _ T, sent fd T = [] ∧ started T = Some application ∧
        Forall (λ e, touches_state e = false) T ∧ first_status application T = Some status)).
      { apply triple_call. intros a T (T' & -> & [Hst Hu [Hf Hs]]).
        split; [|split; [|split; [by repeat constructor|]]]; simpl; [|done|].
        - unfold sent in *. simpl. by rewrite Hs.
        - rewrite Hf. by rewrite Z.eqb_refl. }
      intros _. (* the report, then the terminal *)
      intros w r w' HT (u & w1 & Hr & Hr2)%M_bind_returned.
      apply M_bind_returned in Hr2 as (v & w2 & Hc & Hr2).
      assert (watching application fd true w2.(trace)) as HT2.
      { destruct HT as (Hs & Hst & Hu & Hf).
        destruct (report_and_close (S fuel) fd status w v w2 Hs) as (Hrep & Hcl & Hst2 & Hf2 & Hu2);
          [apply M_bind_returned; eauto|].
        split; [congruence|auto|]. exists status. by rewrite Hf2. }
      revert Hr2. eapply triple_bind; [apply triple_watching, beside_detach| |exact HT2].
      intros x. by apply triple_ret.
    + apply triple_ret. intros T (T' & -> & [Hst Hu Hf]). split; [done|by constructor|].
      destruct flag; simpl.
      * destruct Hf as (s & -> & Hr & Hc). exists s. split; [done|]. split; [by apply reported_cons|by right].
      * rewrite andb_true_r in Et. destruct Hf as [-> Hs]. rewrite Et. split; [done|].
        unfold sent in *. simpl. by rewrite Hs.
Qed.

(** ** The whole monitor *)

(** The status was reported, and nothing was done to the agent yet. *)
Definition finished (fd : Z) (T : list event) : Prop :=
  reported fd (int_bytes (monitor_status T)) T ∧ Did (Close fd) tt ∈ T ∧ untouched T.

Lemma failure_finished fuel fd w x w' :
  sent fd w.(trace) = [] → monitor_status w.(trace) = 256 → untouched w.(trace) →
  report_failure fuel fd w = Returned x w' → finished fd w'.(trace).
Proof.
  intros Hs Hm Hu Hr. apply report_and_close in Hr as (Hrep & Hc & Hst & Hf & Hu'); [|done].
  assert (monitor_status (trace w') = 256) as Hm'.
  { rewrite <- Hm. unfold monitor_status. rewrite Hst. destruct (started (trace w)); [|done].
    simpl. by rewrite Hf. }
  unfold finished. rewrite Hm'. auto.
Qed.

(** The last thing that a monitor does. *)
Definition released (fuel : nat) (agent : AgentReference) (fd : Z) (w' : world) : Prop :=
  ∃ w, finished fd w.(trace) ∧ release_agent_reference fuel agent w = Returned tt w'.

Lemma failed_released fuel agent fd w l w' :
  sent fd w.(trace) = [] → monitor_status w.(trace) = 256 → untouched w.(trace) →
  monitor_failed fuel agent fd w = Returned l w' → released fuel agent fd w'.
Proof.
  intros Hs Hm Hu (x & w1 & Hr & Hrel)%M_bind_returned. apply failure_finished in Hr; [|done..].
  apply M_bind_returned in Hrel as ([] & w2 & Hrel & [_ ->]%M_ret_returned). by exists w1.
Qed.

Lemma watch_released fuel application fd agent w l w' :
  watching application fd false w.(trace) →
  watch_application fuel application fd agent w = Returned l w' → released fuel agent fd w'.
Proof.
  intros HT (flag & w1 & Hr & Hrest)%M_bind_returned.
  apply monitor_loop_watching in Hr; [|done].
  apply M_bind_returned in Hrest as (requested & w2 & Hreq & Hrest).
  apply M_bind_returned in Hrest as (u & w3 & Hg & Hrest).
  assert (watching application fd flag w3.(trace)) as HT3.
  { eapply (triple_watching application fd flag (_ ← _; _)); [|exact Hr|apply M_bind_returned; eauto].
    beside. }
  apply M_bind_returned in Hrest as (v & w4 & Hrep & Hrest).
  apply M_bind_returned in Hrest as ([] & w5 & Hrel & [_ ->]%M_ret_returned).
  exists w4. split; [|done]. destruct HT3 as [Hst Hu Hs]. destruct flag.
  - apply M_ret_returned in Hrep as [_ ->]. destruct Hs as (status & Hf & Hs & Hc).
    unfold finished, monitor_status. rewrite Hst. simpl. by rewrite Hf.
  - destruct Hs as [Hf Hs]. eapply failure_finished; [exact Hs| |exact Hu|exact Hrep].
    unfold monitor_status. rewrite Hst. simpl. by rewrite Hf.
Qed.

Lemma supervise_released fuel application agent fd w l w' :
  watching application fd false w.(trace) →
  supervise_application fuel application agent fd w = Returned l w' → released fuel agent fd w'.
Proof.
  intros HT (u & w1 & Hf & Hr)%M_bind_returned.
  apply M_bind_returned in Hr as (configured & w2 & Hc & Hr).
  assert (watching application fd false w2.(trace)) as HT2.
  { eapply (triple_watching application fd false (_ ← _; _)); [|exact HT|apply M_bind_returned; eauto].
    beside. }
  assert (∀ A (r : call A) x w3, (∀ a, beside fd (Did r a)) → perform r w2 = Returned x w3 →
    watching application fd false w3.(trace)) as Hstep.
  { intros A r x w3 Hb Hp. eapply triple_watching; [|exact HT2|exact Hp]. by apply emits_call. }
  destruct (negb configured); apply M_bind_returned in Hr as (v & w3 & Hp & Hr);
    (apply Hstep in Hp; [|intros; beside_leaf]).
  - destruct Hp as [Hst Hu [Hn Hs]]. eapply failed_released; [exact Hs| |exact Hu|exact Hr].
    unfold monitor_status. rewrite Hst. simpl. by rewrite Hn.
  - exact (watch_released _ _ _ _ _ _ _ Hp Hr).
Qed.

Lemma aside_release fd fuel agent : emits (aside fd) (release_agent_reference fuel agent).
Proof.
  assert (∀ n p, emits (aside fd) (wait_gone n p)) as Hgone.
  { intros n p. induction n; cbn [wait_gone]; beside. }
  unfold release_agent_reference, drop_reference, lock_agent_state, read_agent_state, write_agent_state,
    unlock_agent_state, terminate_agent. beside.
Qed.

Lemma aside_execute fd command : emits (aside fd) (execute_application strerror command).
Proof. unfold execute_application, exec. beside. Qed.

(** C30: the monitor writes the application's first status to the launcher, that
    of [exit(1)] if there is none, once and whole unless the pipe fails; then it
    closes the pipe; and only then, and as the last thing it does, it releases
    the agent. *)
Theorem status_reported_once fuel command agent fd h l w' :
  monitor_application strerror fuel command agent fd (World h []) = Returned l w' →
  started w'.(trace) ≠ Some 0 →
  reported fd (int_bytes (monitor_status w'.(trace))) w'.(trace) ∧ released fuel agent fd w'.
Proof.
  intros Hr H0. assert (released fuel agent fd w') as Hrel.
  { apply M_bind_returned in Hr as (subreaper & w1 & [_ ->]%call_returned & Hr).
    destruct subreaper as [e|[]]; [by eapply failed_released; [..|exact Hr]; repeat constructor|].
    apply M_bind_returned in Hr as (forked & w2 & [Hf ->]%call_returned & Hr).
    destruct forked as [e|application].
    { by eapply failed_released; [..|exact Hr]; repeat constructor. }
    destruct (Z.eqb_spec application 0) as [->|_].
    - exfalso. apply H0. apply (aside_execute fd) in Hr as (evs & -> & Hevs).
      by rewrite (aside_started fd).
    - eapply supervise_released; [|exact Hr]. by repeat constructor. }
  split; [|done]. destruct Hrel as (w1 & (Hrep & _ & _) & Hrel).
  apply aside_release with (fd := fd) in Hrel as (evs & HT & Hevs).
  rewrite HT. apply aside_reported; [done|]. unfold monitor_status in *.
  rewrite (aside_started fd) by done. destruct (started (trace w1)) as [a|]; [|exact Hrep].
  simpl in *. by rewrite (aside_status fd).
Qed.
End monitored.

(** ** The launcher *)

Section launcher.
Context `{Processes} (strerror : Z → text).

(** What a pipe delivered as an [int]: all of it, or nothing. *)
Definition whole_int (data : text) : option Z :=
  if decide (length data = 4%nat) then Some (int_of_bytes data) else None.

Lemma read_status_loop_received fuel fd remaining data :
  (remaining + length data = 4)%nat →
  triple (λ T, received fd T = data) (read_status_loop fuel fd remaining data)
    (λ r T, (length (received fd T) ≤ 4)%nat ∧ r = whole_int (received fd T)).
Proof.
  revert remaining data. induction fuel as [|fuel IH]; intros remaining data Hl;
    [apply triple_out_of_fuel|].
  cbn [read_status_loop]. destruct remaining as [|n] eqn:En.
  { apply triple_ret. intros T ->. unfold whole_int. rewrite decide_True by lia. split; [lia|done]. }
  rewrite <- En in *. assert (0 < remaining)%nat as Hpos by lia. clear n En.
  apply (triple_bind _ _ _ (λ size T, ∃ T', T = Did (Read fd (Z.of_nat remaining)) size :: T' ∧
    received fd T' = data ∧ ∀ d, size = inr d → (length d ≤ remaining)%nat)).
  { apply triple_answer. intros h T HT. exists T. split; [done|]. split; [done|].
    intros d Hd. apply answer_read in Hd; lia. }
  assert (∀ a T T', T = Did (Read fd (Z.of_nat remaining)) a :: T' → received fd T' = data →
    (a = inr [] ∨ ∃ e, a = inl e) → received fd T = data) as Hsame.
  { intros a T T' -> HT Ha. unfold received in *. simpl. destruct Ha as [->|[e ->]];
      rewrite ?Z.eqb_refl, app_nil_r; done. }
  assert (length data ≠ 4%nat) as Hn by lia.
  intros [e|[|c d]].
  - destruct (e =? EINTR).
    + eapply triple_conseq; [|intros x T HT; exact HT|by apply IH].
      intros T (T' & HT & Hd & _). eauto.
    + apply triple_ret. intros T (T' & HT & Hd & _).
      rewrite (Hsame _ _ _ HT Hd) by eauto. unfold whole_int. rewrite decide_False by done. split; [lia|done].
  - apply triple_ret. intros T (T' & HT & Hd & _).
    rewrite (Hsame _ _ _ HT Hd) by eauto. unfold whole_int. rewrite decide_False by done. split; [lia|done].
  - set (piece := c :: d). destruct (decide (length piece ≤ remaining)%nat) as [Hp|Hp].
    + eapply triple_conseq; [|intros x T HT; exact HT|].
      2: { apply (IH (remaining - length piece)%nat (data ++ piece)). rewrite length_app. lia. }
      intros T (T' & -> & Hd & _). unfold received in *. simpl. by rewrite Z.eqb_refl, Hd.
    + intros w r w' (T' & _ & _ & Hle). by destruct Hp; apply Hle.
Qed.

Definition no_read (fd : Z) (e : event) : Prop := read_of fd e = [].

Lemma no_read_configure fd : emits (no_read fd) configure_supervisor_signals.
Proof. unfold configure_supervisor_signals. cbn [ignore_signals]. quiet. Qed.

Lemma await_monitor_exit fuel monitor fd write_fd h l w' :
  await_monitor fuel monitor fd write_fd (World h []) = Returned l w' →
  (length (received fd w'.(trace)) ≤ 4)%nat ∧
  l = Exits (default 1 (status_code <$> whole_int (received fd w'.(trace)))).
Proof.
  unfold await_monitor. intros (u & w1 & E1 & Hr)%M_bind_returned.
  apply M_bind_returned in Hr as (v & w2 & E2 & Hr).
  apply M_bind_returned in Hr as (configured & w3 & E3 & Hr).
  assert (received fd w3.(trace) = []) as H3.
  { eapply (triple_silent (read_of fd) (_ ← _; _ ← _; _) []);
      [|instantiate (1 := World h []); done|apply M_bind_returned; do 2 eexists;
        split; [exact E1|apply M_bind_returned; eauto]].
    pose proof (no_read_configure fd). quiet. }
  assert (∀ m : M leaving, emits (no_read fd) m → ∀ w, m w = Returned l w' →
    received fd w'.(trace) = received fd w.(trace)) as Htail.
  { intros m Hm w Hw. by eapply (triple_silent (read_of fd) m); [exact Hm| |exact Hw]. }
  assert (emits (no_read fd) (_ ← perform (Kill monitor SIGTERM); _ ← perform (Close fd);
    mret (Exits 1))) as Hfail by quiet.
  destruct (negb configured).
  { pose proof (Htail _ Hfail _ Hr) as ->. rewrite H3. split; [simpl; lia|].
    unfold whole_int. simpl. by calls. }
  apply M_bind_returned in Hr as (status & w4 & E4 & Hr).
  destruct (read_status_loop_received _ fd 4 [] eq_refl _ _ _ H3 E4) as [Hl ->].
  destruct (whole_int (received fd (trace w4))) as [status|] eqn:Ew; cbn [fmap option_fmap option_map default].
  - assert (received fd (trace w') = received fd (trace w4)) as ->.
    { eapply Htail; [|exact Hr]. quiet. }
    rewrite Ew. split; [done|]. simpl. by calls.
  - pose proof (Htail _ Hfail _ Hr) as ->. rewrite Ew. split; [done|]. simpl. by calls.
Qed.

(** The bits that [status_code] looks at survive the pipe. *)
Lemma land_mod32 x y mask : 0 ≤ mask < 2 ^ 32 → x mod 2 ^ 32 = y mod 2 ^ 32 →
  Z.land x mask = Z.land y mask.
Proof.
  intros Hm Hxy. apply Z.bits_inj_iff. intros i. rewrite !Z.land_spec.
  destruct (Z.ltb_spec i 0); [by rewrite !Z.testbit_neg_r by done|].
  destruct (Z.ltb_spec i 32).
  - rewrite <- (Z.mod_pow2_bits_low x 32 i), <- (Z.mod_pow2_bits_low y 32 i) by lia. by rewrite Hxy.
  - replace (Z.testbit mask i) with false; [by rewrite !andb_false_r|]. symmetry.
    destruct (decide (mask = 0)) as [->|]; [apply Z.testbit_0_l|].
    apply Z.bits_above_log2; [lia|]. assert (Z.log2 mask < 32) by (apply Z.log2_lt_pow2; lia). lia.
Qed.

Lemma status_code_bytes status : status_code (int_of_bytes (int_bytes status)) = status_code status.
Proof.
  assert (int_of_bytes (int_bytes status) mod 2 ^ 32 = status mod 2 ^ 32) as Hmod.
  { rewrite int_of_bytes_int. unfold int_of_u32, u32.
    case_decide; [by apply Z.mod_mod|]. rewrite <- Zminus_mod_idemp_r, Z.mod_same by lia.
    rewrite Z.sub_0_r. by apply Z.mod_mod. }
  unfold status_code, WIFEXITED, WIFSIGNALED, WEXITSTATUS, WTERMSIG.
  rewrite (land_mod32 _ status 0x7f), (land_mod32 _ status 0xff00) by (lia || exact Hmod). done.
Qed.

(** C31: the launcher leaves with the status code of the application as its
    monitor saw it, if all of the status came through the pipe between them,
    and with 1 otherwise. *)
Theorem launcher_exits_as_application fuel fuel' command agent monitor fd write_fd fd' h h' l l' w w' :
  await_monitor fuel monitor fd write_fd (World h []) = Returned l w →
  monitor_application strerror fuel' command agent fd' (World h' []) = Returned l' w' →
  started w'.(trace) ≠ Some 0 →
  received fd w.(trace) `prefix_of` sent fd' w'.(trace) →
  l = Exits (if decide (length (received fd w.(trace)) = 4%nat)
             then status_code (monitor_status w'.(trace)) else 1).
Proof.
  intros Hl Hm H0 Hpipe. apply await_monitor_exit in Hl as [_ ->].
  apply status_reported_once in Hm as [[Hp _] _]; [|done].
  unfold whole_int. case_decide as Hlen; [|done]. simpl. f_equal.
  assert (received fd (trace w) = int_bytes (monitor_status (trace w'))) as ->;
    [|apply status_code_bytes].
  apply prefix_length_eq; [by etrans|]. rewrite length_int_bytes. lia.
Qed.

End launcher.

(** ** The agent's readiness *)

Section readiness.
Context `{Processes}.

(** The supervisor tried to report readiness. *)
Definition notified (ready : Z) (T : list event) : Prop :=
  ∃ a, Did (Write ready [char 1]) a ∈ T.

Definition notified_ok (ready : Z) (flag : bool) (T : list event) : Prop :=
  if flag then notified ready T ∧ sent ready T `prefix_of` [char 1] ∧ Did (Close ready) tt ∈ T
  else ¬ notified ready T ∧ sent ready T = [].

(** Everything was read. *)
Definition drained (fd : Z) (T : list event) : Prop :=
  ∃ a, Did (Read fd 4096) a ∈ T ∧ (a = inr [] ∨ ∃ e, a = inl e ∧ e ≠ EINTR).

Record relaying (fd ready : Z) (state : nat * bool) (T : list event) : Prop := {
  re_match : match_state state (received fd T);
  re_ready : notified_ok ready state.2 T;
}.

Lemma notified_cons ready flag e T :
  (∀ data a, e ≠ Did (Write ready data) a) → notified_ok ready flag T → notified_ok ready flag (e :: T).
Proof.
  intros He. assert (sent_of ready e = []) as Hs.
  { destruct e as [A r a]. destruct r; try done. simpl. destruct a as [x|n]; [done|].
    case_match eqn:Ef; [|done]. apply Z.eqb_eq in Ef as ->. by destruct (He data (inr n)). }
  assert (notified ready (e :: T) ↔ notified ready T) as Hn.
  { split; intros [a Ha]; exists a; [|by right]. by apply elem_of_cons in Ha as [Ha|]; [destruct (He [char 1] a)|]. }
  assert (sent ready (e :: T) = sent ready T) as Ht.
  { unfold sent. simpl. by rewrite Hs, app_nil_r. }
  unfold notified_ok. destruct flag; rewrite Ht.
  - intros (? & ? & ?). split_and!; [by apply Hn|done|by right].
  - intros [? ?]. split; [by rewrite Hn|done].
Qed.

Lemma write_ready_ok fuel ready :
  triple (λ T, ¬ notified ready T ∧ sent ready T = [])
    (_ ← write_ready_notification fuel ready; perform (Close ready))
    (λ _, notified_ok ready true).
Proof.
  intros w [] w' [Hn Hs] (u & w1 & Hr & [_ ->]%call_returned)%M_bind_returned.
  assert (notified ready (trace w1) ∧ sent ready (trace w1) `prefix_of` [char 1]) as [Hn1 Hs1].
  { apply M_bind_returned in Hr as (written & w2 & Hr & Hsay).
    apply retry_returned in Hr as (Hw & tries & HT & Htries).
    assert (notified ready (trace w2) ∧ sent ready (trace w2) `prefix_of` [char 1]) as [Hn2 Hs2].
    { rewrite HT. split; [exists written; by left|].
      assert (sent ready (tries ++ trace w) = []) as Ht.
      { clear HT. induction Htries as [|e tries -> _ IH]; [done|]. unfold sent in *. simpl.
        by rewrite IH. }
      unfold sent in *. simpl. rewrite Ht. destruct written as [e|n]; [apply prefix_nil|].
      rewrite Z.eqb_refl. apply prefix_take. }
    case_match; [by apply M_ret_returned in Hsay as [_ ->]|].
    apply call_returned in Hsay as [_ ->]. cbn [trace]. split.
    - destruct Hn2 as [a Ha]. exists a. by right.
    - unfold sent in *. simpl. by rewrite app_nil_r. }
  split; [|split].
  - destruct Hn1 as [a Ha]. exists a. by right.
  - unfold sent in *. simpl. by rewrite app_nil_r.
  - by left.
Qed.

Lemma match_reported state data : state.2 = true → foldl match_character state data = state.
Proof.
  destruct state as [m r]. simpl. intros ->. induction data as [|c data IH]; [done|]. exact IH.
Qed.

Lemma no_read_ready fd fuel ready :
  emits (no_read fd) (_ ← write_ready_notification fuel ready; perform (Close ready)).
Proof. unfold write_ready_notification, say. quiet. Qed.

Lemma relaying_flag fd ready state T :
  relaying fd ready state T → state.2 = true ↔ occurs (received fd T).
Proof.
  intros [Hm _]. unfold match_state in Hm. destruct (state.2); [done|]. by destruct Hm.
Qed.

Lemma relay_loop_ok fuel fd ready state :
  triple (relaying fd ready state) (relay_loop fuel fd ready state)
    (λ flag T, notified_ok ready flag T ∧ (flag = true ↔ occurs (received fd T)) ∧ drained fd T).
Proof.
  revert state. induction fuel as [|fuel IH]; intros state; [apply triple_out_of_fuel|].
  cbn [relay_loop]. intros w flag w' HT (size & w1 & [_ ->]%call_returned & Hr)%M_bind_returned.
  assert (∀ data, size = inr data →
    match_state (foldl match_character state data) (received fd (Did (Read fd 4096) size :: trace w)) ∧
    notified_ok ready state.2 (Did (Read fd 4096) size :: trace w)) as Hread.
  { intros data ->. split; [|apply notified_cons; [done|apply HT]].
    unfold received. simpl. rewrite Z.eqb_refl. apply match_buffer, HT. }
  assert (∀ e, size = inl e → relaying fd ready state (Did (Read fd 4096) size :: trace w)) as Hfail.
  { intros e ->. split; [|apply notified_cons; [done|apply HT]].
    unfold received. simpl. rewrite app_nil_r. apply HT. }
  assert (∀ T, relaying fd ready state T → drained fd T →
    notified_ok ready state.2 T ∧ (state.2 = true ↔ occurs (received fd T)) ∧ drained fd T) as Hend.
  { intros T HT' Hd. split; [apply HT'|]. split; [by eapply relaying_flag|done]. }
  destruct size as [e|[|c data]].
  - specialize (Hfail e eq_refl). destruct (Z.eqb_spec e EINTR) as [|He].
    + by eapply IH; [|exact Hr].
    + apply M_ret_returned in Hr as [-> ->]. apply Hend; [done|].
      eexists. split; [by left|]. right. by exists e.
  - apply M_ret_returned in Hr as [-> ->]. destruct (Hread [] eq_refl) as [Hm Hn].
    apply Hend; [by split|]. eexists. split; [by left|]. by left.
  - destruct (Hread _ eq_refl) as [Hm Hn]. remember (c :: data) as piece eqn:Ep.
    apply M_bind_returned in Hr as (u & w2 & Hw & Hr). eapply IH; [|exact Hr].
    destruct ((foldl match_character state piece).2 && negb state.2) eqn:Et.
    + apply andb_true_iff in Et as [Et Es%negb_true_iff]. split.
      * apply (no_read_ready fd) in Hw as (evs & -> & Hevs). unfold received.
        rewrite history_app, (history_nothing _ evs), app_nil_r by exact Hevs. exact Hm.
      * rewrite Et. rewrite Es in Hn. eapply write_ready_ok; [|exact Hw]. exact Hn.
    + apply M_ret_returned in Hw as [_ ->]. split; [exact Hm|].
      destruct (state.2) eqn:Es; [by rewrite match_reported, Es|]. simpl in Et.
      by destruct ((foldl match_character state piece).2).
Qed.

(** the supervisor reports readiness to the waiting launcher exactly when
    the agent has printed the registration message, however its output is split
    into reads, at most once; and it reads the output to its end and closes
    both descriptors whatever happens. *)
Theorem relay_agent_output_exact fuel fd ready h u w' :
  0 ≤ ready →
  relay_agent_output fuel fd ready (World h []) = Returned u w' →
  (notified ready w'.(trace) ↔
     ∃ before after, received fd w'.(trace) = before ++ ready_message ++ after) ∧
  sent ready w'.(trace) `prefix_of` [char 1] ∧ drained fd w'.(trace) ∧
  Did (Close fd) tt ∈ w'.(trace) ∧ Did (Close ready) tt ∈ w'.(trace).
Proof.
  intros Hready (flag & w1 & Hr & Hrest)%M_bind_returned.
  apply relay_loop_ok in Hr as (Hn & Hf & a & Ha & Hd); [|split; [apply match_start|]].
  2: { split; [|done]. intros [? Hx]. by apply not_elem_of_nil in Hx. }
  apply M_bind_returned in Hrest as ([] & w2 & [_ ->]%call_returned & Hrest).
  assert (∃ evs, trace w' = evs ++ Did (Close fd) tt :: trace w1 ∧
    (evs = [] ∧ flag = true ∨ evs = [Did (Close ready) tt] ∧ flag = false)) as (evs & HT & Hevs).
  { destruct flag; simpl in Hrest.
    - apply M_ret_returned in Hrest as [_ ->]. exists []. auto.
    - rewrite (proj2 (Z.leb_le 0 ready) Hready) in Hrest.
      apply call_returned in Hrest as [_ ->]. destruct u. exists [Did (Close ready) tt]. auto. }
  assert (received fd (trace w') = received fd (trace w1)) as ->.
  { rewrite HT. unfold received. destruct Hevs as [[-> _]|[-> _]]; simpl; by rewrite ?app_nil_r. }
  assert (notified_ok ready flag (trace w')) as Hn'.
  { rewrite HT. destruct Hevs as [[-> _]|[-> _]]; simpl; by repeat apply notified_cons. }
  fold (occurs (received fd (trace w1))). split; [|split; [|split; [|split]]].
  - destruct flag; [|by destruct Hn' as [? _]; naive_solver]. destruct Hn' as (? & _). naive_solver.
  - destruct flag; [apply Hn'|]. destruct Hn' as [_ ->]. apply prefix_nil.
  - exists a. split; [|done]. rewrite HT, elem_of_app. right. by right.
  - rewrite HT, elem_of_app. right. by left.
  - destruct Hevs as [[-> ->]|[-> ->]]; [apply Hn'|]. rewrite HT. by left.
Qed.
End readiness.
