(* ===== verification/AgentRefines.v ===== *)
(** * The operations on the shared agent, call by call ([native/spaces.c])

    [Agent] models the operations on the session's state file as functions of
    the file and of the kernel's answers, and proves what their interleavings
    keep.  The launcher's programs refine them: what a run writes, signals and
    returns is what the function says for all answers of the kernel that agree
    with those the run got.  An operation that did not ask, read, write or wait
    would have to be right for every answer. *)

From S2P Require Import Prelude Glib Launch Agent Process Supervise SuperviseInv.

Section refines.
Context `{Processes} (strerror : Z → text).

(** ** The state file *)

(** The file after a call. *)
Definition file_step (fd : Z) (e : event) (file : text) : text :=
  match e with
  | Did (Ftruncate fd') (inr _) => if fd' =? fd then [] else file
  | Did (Pwrite fd' data) (inr n) => if fd' =? fd then take n data ++ drop n file else file
  | _ => file
  end.

Definition file_after (fd : Z) (T : list event) (file : text) : text :=
  foldr (file_step fd) file T.

Definition no_write (e : event) : Prop :=
  match e with Did (Ftruncate _) _ | Did (Pwrite _ _) _ => False | _ => True end.

Lemma file_after_app fd evs T file : file_after fd (evs ++ T) file = file_after fd evs (file_after fd T file).
Proof. apply foldr_app. Qed.

Lemma file_after_same fd evs file : Forall no_write evs → file_after fd evs file = file.
Proof.
  induction 1 as [|e evs He _ IH]; [done|]. simpl. rewrite IH.
  destruct e as [A r a]. by destruct r.
Qed.

(** What truncating and writing the file answered; a write that is
    interrupted is repeated. *)
Definition truncated_of (e : event) : option bool :=
  match e with
  | Did (Ftruncate _) a => Some (match a with inr _ => true | inl _ => false end)
  | _ => None
  end.
Definition pwritten_of (e : event) : option (option nat) :=
  match e with
  | Did (Pwrite _ _) (inl e) => if e =? EINTR then None else Some None
  | Did (Pwrite _ _) (inr n) => Some (Some n)
  | _ => None
  end.

(** The answers to the first and to the last write of a run, whose events come
    latest first. *)
Definition first_answers (T : list event) : option bool * option (option nat) :=
  (last (omap truncated_of T), last (omap pwritten_of T)).
Definition last_answers (T : list event) : option bool * option (option nat) :=
  (head (omap truncated_of T), head (omap pwritten_of T)).

(** Of what was not answered, anything may be assumed. *)
Definition agrees {A} (x : A) (answer : option A) : Prop :=
  match answer with Some a => x = a | None => True end.
Definition io_agrees (w : io) (a : option bool * option (option nat)) : Prop :=
  agrees w.1 a.1 ∧ agrees w.2 a.2.

Lemma first_agrees w a b : io_agrees w (first_answers (a ++ b)) → io_agrees w (first_answers b).
Proof.
  unfold io_agrees, first_answers, agrees. simpl. rewrite !omap_app, !last_app.
  intros [H1 H2]. split.
  - by destruct (last (omap truncated_of b)).
  - by destruct (last (omap pwritten_of b)).
Qed.

Lemma last_agrees w a b : io_agrees w (last_answers (a ++ b)) → io_agrees w (last_answers a).
Proof.
  unfold io_agrees, last_answers, agrees. simpl. rewrite !omap_app, !head_app.
  intros [H1 H2]. split.
  - by destruct (head (omap truncated_of a)).
  - by destruct (head (omap pwritten_of a)).
Qed.

Lemma unwritten_answers evs : Forall no_write evs →
  omap truncated_of evs = [] ∧ omap pwritten_of evs = [].
Proof.
  induction 1 as [|[A r a] evs He _ [IH1 IH2]]; [done|]. csimpl. rewrite IH1, IH2.
  by destruct r.
Qed.

Lemma first_skip w a b : Forall no_write b →
  io_agrees w (first_answers (a ++ b)) → io_agrees w (first_answers a).
Proof.
  intros [Hb1 Hb2]%unwritten_answers. unfold first_answers.
  by rewrite !omap_app, Hb1, Hb2, !app_nil_r.
Qed.

Lemma last_skip w a b : Forall no_write a →
  io_agrees w (last_answers (a ++ b)) → io_agrees w (last_answers b).
Proof.
  intros [Hb1 Hb2]%unwritten_answers. unfold last_answers. by rewrite !omap_app, Hb1, Hb2.
Qed.

(** For the answers that one write got. *)
Definition writes_as (fd : Z) (s : AgentState) (ok : bool) (evs : list event) : Prop :=
  ∀ io file, io_agrees io (first_answers evs) ∨ io_agrees io (last_answers evs) →
    write_state io s file = (file_after fd evs file, ok).

Lemma write_agent_state_refines fuel fd s w ok w' :
  write_agent_state fuel fd s w = Returned ok w' →
  ∃ evs, w'.(trace) = evs ++ w.(trace) ∧
    Forall (λ e, match e with Did (Ftruncate _) _ | Did (Pwrite _ _) _ => True | _ => False end) evs ∧
    writes_as fd s ok evs.
Proof.
  unfold write_agent_state, writes_as, write_state, Launch.write_agent_state.
  set (buffer := print_agent_state s).
  destruct (128 <=? length buffer)%nat eqn:Elen.
  { intros [-> ->]%M_ret_returned. exists []. by split_and!. }
  intros (truncated & w1 & [_ ->]%call_returned & Hr)%M_bind_returned.
  destruct truncated as [e|[]].
  { apply M_ret_returned in Hr as [-> ->]. exists [Did (Ftruncate fd) (inl e)].
    split_and!; [done|by repeat constructor|]. by intros [b n] file [[-> _]|[-> _]]. }
  apply M_bind_returned in Hr as (size & w2 & Hr & [-> ->]%M_ret_returned).
  destruct (retry_answer _ _ _ _ _ Hr) as [h Ha].
  apply retry_returned in Hr as (Hintr & tries & HT & Htries). cbn [trace] in HT.
  exists (Did (Pwrite fd buffer) size :: tries ++ [Did (Ftruncate fd) (inr tt)]).
  split; [rewrite HT; simpl; by rewrite <- app_assoc|]. split.
  { constructor; [done|]. apply Forall_app. split; [|by repeat constructor].
    eapply Forall_impl; [exact Htries|]. by intros e ->. }
  intros io file Hio.
  assert (io = (true, match size with inl _ => None | inr n => Some n end)) as ->.
  { assert (omap truncated_of tries = [] ∧ omap pwritten_of tries = []) as [Ht1 Ht2].
    { clear HT Hio. induction Htries as [|e tries -> _ [IH1 IH2]]; [done|]. csimpl. by rewrite IH1, IH2. }
    assert (∀ a, io_agrees io a → a = (Some true, Some (match size with inl _ => None | inr n => Some n end)) →
      io = (true, match size with inl _ => None | inr n => Some n end)) as Hpair.
    { intros a [H1 H2] ->. destruct io. simpl in *. by subst. }
    destruct Hio as [Hio|Hio]; apply (Hpair _ Hio); clear Hio;
      unfold first_answers, last_answers; csimpl;
      rewrite !omap_app, Ht1, Ht2;
      simpl; (destruct size as [e|n]; [|done]); (destruct (Z.eqb_spec e EINTR); [congruence|done]). }
  assert (file_after fd (tries ++ [Did (Ftruncate fd) (inr tt)]) file = []) as Ht.
  { clear HT Hio. induction Htries as [|e tries -> _ IH]; simpl; [by rewrite Z.eqb_refl|exact IH]. }
  simpl. rewrite Ht. destruct size as [e|n].
  - by rewrite bool_decide_eq_false_2.
  - rewrite Z.eqb_refl, drop_nil, app_nil_r. symmetry in Ha. apply answer_pwrite in Ha.
    f_equal. destruct (Nat.leb_spec (length buffer) n).
    + rewrite bool_decide_eq_true_2; [done|]. do 2 f_equal. lia.
    + rewrite bool_decide_eq_false_2; [done|]. intros [= ?]. lia.
Qed.

(** ** What a run saw *)

(** [file] is what was read of the state, if anything was. *)
Definition reads_as (fd : Z) (file : text) (T : list event) : Prop :=
  ∀ a, Did (Pread fd 127) a ∈ T → a ≠ inl EINTR → a = inr (take 127 file).

Lemma reads_as_part fd file T T' : T' ⊆ T → reads_as fd file T → reads_as fd file T'.
Proof. intros Hsub Hr a Ha. apply Hr. by apply Hsub. Qed.

Lemma read_agent_state_take file :
  Launch.read_agent_state (Some (take 127 file)) = Launch.read_agent_state (Some file).
Proof. destruct file as [|c file]; [done|]. unfold Launch.read_agent_state. by rewrite take_take. Qed.

(** [terminated] is what was sent [SIGTERM]. *)
Definition terminates (terminated : option Z) (T : list event) : Prop :=
  ∀ group, (∃ a, Did (Kill group SIGTERM) a ∈ T) ↔ ∃ p, terminated = Some p ∧ group = - p.

(** The calls whose answers the functions depend on. *)
Inductive kind := Reads_state | Writes_state | Asks_group | Signals | Reads_time | Other.

Definition kind_of (e : event) : kind :=
  match e with
  | Did (Pread _ _) _ => Reads_state
  | Did (Ftruncate _) _ | Did (Pwrite _ _) _ => Writes_state
  | Did (Getpgid _) _ => Asks_group
  | Did (Kill _ _) _ => Signals
  | Did (Read _ _) _ => Reads_time
  | _ => Other
  end.

Lemma write_kind fuel fd s w ok w' :
  write_agent_state fuel fd s w = Returned ok w' →
  ∃ evs, w'.(trace) = evs ++ w.(trace) ∧ Forall (λ e, kind_of e = Writes_state) evs ∧
    writes_as fd s ok evs.
Proof.
  intros (evs & HT & Hevs & Hf)%write_agent_state_refines. exists evs.
  split; [done|]. split; [|done]. eapply Forall_impl; [exact Hevs|].
  intros [A r a]. by destruct r.
Qed.

Lemma kind_absent k e evs : Forall (λ e, kind_of e = k) evs → kind_of e ≠ k → e ∉ evs.
Proof. intros Hevs He Hin. by apply (proj1 (Forall_forall _ _) Hevs) in Hin. Qed.

Lemma kind_no_write k evs : Forall (λ e, kind_of e = k) evs → k ≠ Writes_state → Forall no_write evs.
Proof.
  intros Hevs Hk. eapply Forall_impl; [exact Hevs|]. intros [A r a] <-. by destruct r.
Qed.

Definition pread_of (e : event) : option (Z * (Z + text)) :=
  match e with Did (Pread fd _) a => Some (fd, a) | _ => None end.

(** The lock, the state's content and the unlocking. *)
Definition locks (fd : Z) (T : list event) : Prop := Did (Flock fd true) (inr tt) ∈ T.

(** Why the state could not be locked. *)
Definition lock_failed (T : list event) : Prop :=
  (∃ session, Did (Getenv (str "XDG_SESSION_ID")) session ∈ T ∧
     agent_state_path session sid uid = None) ∨
  (∃ path flags e, Did (Open path flags) (inl e) ∈ T) ∨
  (∃ fd e, Did (Flock fd true) (inl e) ∈ T ∧ e ≠ EINTR).

Lemma lock_returned fuel w locked w' :
  lock_agent_state fuel w = Returned locked w' →
  ∃ evs, w'.(trace) = evs ++ w.(trace) ∧ Forall (λ e, kind_of e = Other) evs ∧
    match locked with Some fd => locks fd evs | None => lock_failed evs end.
Proof.
  intros Hr. assert (emits (λ e, kind_of e = Other) (lock_agent_state fuel)) as Hm.
  { unfold lock_agent_state. quiet. }
  destruct (Hm _ _ _ Hr) as (evs & HT & Hevs). exists evs. split; [done|]. split; [done|].
  unfold lock_agent_state in Hr.
  apply M_bind_returned in Hr as (session & w1 & [_ ->]%call_returned & Hr).
  assert (∀ e T T', T = evs ++ w.(trace) → T' ++ w.(trace) = T → e ∈ T' → e ∈ evs) as Hin.
  { intros e T T' -> He%app_inv_tail. by subst. }
  destruct (agent_state_path session sid uid) as [path|] eqn:Hpath.
  2: { apply M_ret_returned in Hr as [-> ->]. left. exists session. split; [|done].
       eapply (Hin _ _ [_]); [exact HT|done|left]. }
  apply M_bind_returned in Hr as (opened & w2 & [_ ->]%call_returned & Hr).
  destruct opened as [e|fd].
  { apply M_ret_returned in Hr as [-> ->]. right. left. do 3 eexists.
    eapply (Hin _ _ [_; _]); [exact HT|done|left]. }
  apply M_bind_returned in Hr as (taken & w3 & Ht & Hr).
  apply retry_returned in Ht as (Hintr & tries & HT3 & _). cbn [trace] in HT3.
  destruct taken as [e|[]].
  - apply M_bind_returned in Hr as (u & w4 & [_ ->]%call_returned & [-> ->]%M_ret_returned).
    right. right. exists fd, e. split; [|congruence]. cbn [trace] in HT. rewrite HT3 in HT.
    eapply (Hin _ _ (_ :: _ :: tries ++ [_; _])); [exact HT|simpl; by rewrite <- app_assoc|].
    right. left.
  - apply M_ret_returned in Hr as [-> ->]. rewrite HT3 in HT.
    eapply (Hin _ _ (_ :: tries ++ [_; _])); [exact HT|simpl; by rewrite <- app_assoc|]. left.
Qed.

Lemma unlock_returned fd w u w' :
  unlock_agent_state fd w = Returned u w' →
  ∃ evs, w'.(trace) = evs ++ w.(trace) ∧ Forall (λ e, kind_of e = Other) evs.
Proof.
  intros Hr. assert (emits (λ e, kind_of e = Other) (unlock_agent_state fd)) as Hm.
  { unfold unlock_agent_state. quiet. }
  exact (Hm _ _ _ Hr).
Qed.

Lemma read_returned fuel fd w state w' :
  read_agent_state fuel fd w = Returned state w' →
  ∃ evs, w'.(trace) = evs ++ w.(trace) ∧ Forall (λ e, kind_of e = Reads_state) evs ∧
    ∀ file, reads_as fd file evs → state = Launch.read_agent_state (Some file).
Proof.
  intros (data & w1 & Hr & [-> ->]%M_ret_returned)%M_bind_returned.
  apply retry_returned in Hr as (Hintr & tries & HT & Htries).
  exists (Did (Pread fd 127) data :: tries). split; [done|]. split.
  { constructor; [done|]. eapply Forall_impl; [exact Htries|]. by intros e ->. }
  intros file Hread. rewrite (Hread data (ltac:(left)) Hintr). apply read_agent_state_take.
Qed.

(** ** Releasing *)

(** Signals go to the group of [p] only. *)
Definition signals_to (p : Z) (e : event) : Prop :=
  match e with Did (Kill group _) _ => group = - p | _ => kind_of e = Other end.

Lemma signals_wait_gone n p : emits (signals_to p) (wait_gone n p).
Proof. induction n; cbn [wait_gone]; quiet. Qed.

Lemma terminate_returned p w u w' : 0 < p →
  terminate_agent p w = Returned u w' →
  ∃ evs, w'.(trace) = evs ++ w.(trace) ∧ Forall (λ e, kind_of e = Signals ∨ kind_of e = Other) evs ∧
    (∃ a, Did (Kill (- p) SIGTERM) a ∈ evs) ∧
    ∀ group signal a, Did (Kill group signal) a ∈ evs → group = - p.
Proof.
  intros Hp Hr. unfold terminate_agent in Hr. rewrite (proj2 (Z.leb_gt p 0) Hp) in Hr.
  apply M_bind_returned in Hr as (x & w1 & [_ ->]%call_returned & Hr).
  match type of Hr with ?m _ = _ => assert (emits (signals_to p) m) as Hm end.
  { pose proof (signals_wait_gone 20 p). quiet. }
  apply Hm in Hr as (evs & HT & Hevs).
  exists (evs ++ [Did (Kill (- p) SIGTERM) x]). rewrite <- app_assoc. split; [exact HT|].
  assert (Forall (signals_to p) (evs ++ [Did (Kill (- p) SIGTERM) x])) as Hall.
  { apply Forall_app. split; [done|]. by repeat constructor. }
  split; [|split].
  - eapply Forall_impl; [exact Hall|]. intros [A r a]. destruct r; simpl; auto.
  - exists x. apply elem_of_app. right. by left.
  - intros group signal a Hin. by apply (proj1 (Forall_forall _ _) Hall) in Hin.
Qed.

Lemma kind_neq k k' evs : Forall (λ e, kind_of e = k) evs → k ≠ k' → Forall (λ e, kind_of e ≠ k') evs.
Proof. intros Hevs Hk. eapply Forall_impl; [exact Hevs|]. by intros e ->. Qed.

(** A critical section: the lock, what was read under it, and what was done
    until the unlocking. *)
Lemma locked_section fd file evs1 evs2 evs3 evs4 :
  Forall (λ e, kind_of e = Other) evs1 → Forall (λ e, kind_of e = Reads_state) evs2 →
  Forall (λ e, kind_of e = Other) evs4 →
  file_after fd (evs4 ++ evs3 ++ evs2 ++ evs1) file = file_after fd evs3 file ∧
  ∀ io, io_agrees io (first_answers (evs4 ++ evs3 ++ evs2 ++ evs1)) →
    io_agrees io (first_answers evs3).
Proof.
  intros H1 H2 H4. split.
  - rewrite !file_after_app. rewrite (file_after_same fd evs1) by (by eapply kind_no_write).
    rewrite (file_after_same fd evs2) by (by eapply kind_no_write).
    by rewrite (file_after_same fd evs4) by (by eapply kind_no_write).
  - intros io Hio%first_agrees. apply first_skip in Hio; [done|].
    apply Forall_app. split; by eapply kind_no_write.
Qed.

(** Nothing but the state is touched, or one group is terminated. *)
Lemma terminates_none evs : Forall (λ e, kind_of e ≠ Signals) evs → terminates None evs.
Proof.
  intros Hevs group. split; [|by intros (p & ? & _)].
  intros [a Ha]. by apply (proj1 (Forall_forall _ _) Hevs) in Ha.
Qed.

Lemma terminates_more r evs evs' :
  Forall (λ e, kind_of e ≠ Signals) evs' → terminates r evs → terminates r (evs' ++ evs).
Proof.
  intros Hevs' Ht group. rewrite <- (Ht group). split; intros [a Ha]; exists a.
  - apply elem_of_app in Ha as [Ha|Ha]; [|done].
    by apply (proj1 (Forall_forall _ _) Hevs') in Ha.
  - apply elem_of_app. by right.
Qed.

Lemma terminates_earlier r evs T :
  Forall (λ e, kind_of e ≠ Signals) T → terminates r evs → terminates r (evs ++ T).
Proof.
  intros HT Ht group. rewrite <- (Ht group). split; intros [a Ha]; exists a.
  - apply elem_of_app in Ha as [Ha|Ha]; [done|].
    by apply (proj1 (Forall_forall _ _) HT) in Ha.
  - apply elem_of_app. by left.
Qed.

(** What a release does, for all answers that agree with those it got. *)
Definition releases_as (fd : Z) (r : AgentReference) (file : text) (evs : list event) : Prop :=
  ∀ io, io_agrees io (first_answers evs) → ∃ r' terminated,
    Agent.release_agent_reference io r file = (file_after fd evs file, r', terminated) ∧
    terminates terminated evs.

Lemma drop_refines fuel fd r file w u w' :
  negb r.(r_held) || (r.(r_pid) <=? 0) = false →
  drop_reference fuel fd (Launch.read_agent_state (Some file)) r w = Returned u w' →
  ∃ evs, w'.(trace) = evs ++ w.(trace) ∧ releases_as fd r file evs.
Proof.
  unfold drop_reference, releases_as, Agent.release_agent_reference. intros Hheld Hr.
  rewrite Hheld. apply orb_false_iff in Hheld as [_ Hpid%Z.leb_gt].
  set (state := Launch.read_agent_state (Some file)) in *.
  destruct (_ && (0 <? references state)) eqn:Et.
  2: { apply M_ret_returned in Hr as [_ ->]. exists []. split; [done|]. intros io _.
       exists no_reference, None. split; [done|]. by apply terminates_none. }
  destruct (references state - 1 =? 0); apply M_bind_returned in Hr as (ok & w1 & Hw & Hr);
    apply write_kind in Hw as (evs & HT & Hk & Hf).
  - apply terminate_returned in Hr as (evs' & HT' & Hk' & [a Ha] & Hgroup); [|done].
    exists (evs' ++ evs). rewrite HT', HT, app_assoc. split; [done|]. intros io Hio%first_agrees.
    exists no_reference, (Some (r_pid r)). rewrite Hf by auto. split.
    + rewrite file_after_app. rewrite (file_after_same fd evs'); [done|].
      eapply Forall_impl; [exact Hk'|]. intros [A q b] [Hq|Hq]; by destruct q.
    + apply terminates_earlier; [by eapply kind_neq|]. intros group. split.
      * intros [b Hb]. exists (r_pid r). split; [done|]. by eapply Hgroup.
      * intros (p & [= <-] & ->). by exists a.
  - apply M_ret_returned in Hr as [_ ->]. exists evs. split; [done|]. intros io Hio.
    exists no_reference, None. rewrite Hf by auto. split; [done|].
    apply terminates_none. by eapply kind_neq.
Qed.

Lemma release_refines fuel r h u w' :
  release_agent_reference fuel r (World h []) = Returned u w' →
  if negb r.(r_held) || (r.(r_pid) <=? 0) then w'.(trace) = []
  else lock_failed w'.(trace) ∧ Forall (λ e, kind_of e = Other) w'.(trace) ∨
    ∃ fd, locks fd w'.(trace) ∧ ∀ file, reads_as fd file w'.(trace) →
      releases_as fd r file w'.(trace).
Proof.
  unfold release_agent_reference. intros Hr.
  destruct (negb r.(r_held) || (r.(r_pid) <=? 0)) eqn:Eh.
  { by apply M_ret_returned in Hr as [_ ->]. }
  apply M_bind_returned in Hr as (locked & w1 & Hl & Hr).
  apply lock_returned in Hl as (evs1 & HT1 & Hk1 & Hlock). cbn [trace] in HT1. rewrite app_nil_r in HT1.
  destruct locked as [d|]; [|apply M_ret_returned in Hr as [_ ->]; rewrite HT1; by left].
  right. exists d.
  apply M_bind_returned in Hr as (state & w2 & Hr2 & Hr).
  apply read_returned in Hr2 as (evs2 & HT2 & Hk2 & Hread).
  apply M_bind_returned in Hr as (v & w3 & Hr3 & Hr).
  apply unlock_returned in Hr as (evs4 & HT4 & Hk4).
  assert (∃ evs3, w3.(trace) = evs3 ++ w2.(trace)) as [evs3 HT3].
  { unfold drop_reference in Hr3. assert (emits (λ _, True) (drop_reference fuel d state r)) as Hm.
    { unfold drop_reference, write_agent_state, terminate_agent.
      assert (∀ n p, emits (λ _, True) (wait_gone n p)) as Hgone
        by (intros n p; induction n; cbn [wait_gone]; quiet). quiet. }
    destruct (Hm _ _ _ Hr3) as (evs3 & ? & _). by exists evs3. }
  rewrite HT4, HT3, HT2, HT1. split.
  { unfold locks in *. rewrite !elem_of_app. auto. }
  intros file Hr2 io Hio.
  destruct (locked_section d file evs1 evs2 evs3 evs4 Hk1 Hk2 Hk4) as [Hfile Hagree].
  assert (state = Launch.read_agent_state (Some file)) as ->.
  { apply Hread. eapply reads_as_part, Hr2. set_solver. }
  apply drop_refines in Hr3 as (evs & HT & Hrel); [|done].
  rewrite HT3 in HT. apply app_inv_tail in HT as <-.
  destruct (Hrel io (Hagree io Hio)) as (r' & terminated & Ha & Ht).
  exists r', terminated. rewrite Hfile. split; [exact Ha|].
  apply terminates_more; [by eapply kind_neq|]. apply terminates_earlier; [|done].
  apply Forall_app. split; by eapply kind_neq.
Qed.

(** ** Finishing *)

Lemma signals_wait_stopped n p : emits (signals_to p) (wait_stopped n p).
Proof. induction n; cbn [wait_stopped]; quiet. Qed.

Lemma stop_returned fuel p w u w' : 0 < p →
  stop_agent fuel p w = Returned u w' →
  ∃ evs, w'.(trace) = evs ++ w.(trace) ∧ Forall (signals_to p) evs ∧
    ∃ a, Did (Kill (- p) SIGTERM) a ∈ evs.
Proof.
  intros Hp Hr. unfold stop_agent in Hr. rewrite (proj2 (Z.leb_gt p 0) Hp) in Hr.
  apply M_bind_returned in Hr as (x & w1 & [_ ->]%call_returned & Hr).
  match type of Hr with ?m _ = _ => assert (emits (signals_to p) m) as Hm end.
  { pose proof (signals_wait_stopped 20 p). quiet. }
  apply Hm in Hr as (evs & HT & Hevs).
  exists (evs ++ [Did (Kill (- p) SIGTERM) x]). rewrite <- app_assoc. split; [exact HT|]. split.
  - apply Forall_app. split; [done|]. by repeat constructor.
  - exists x. apply elem_of_app. right. by left.
Qed.

Lemma signals_terminates p evs :
  Forall (signals_to p) evs → (∃ a, Did (Kill (- p) SIGTERM) a ∈ evs) → terminates (Some p) evs.
Proof.
  intros Hevs Ha group. split.
  - intros [b Hb]. apply (proj1 (Forall_forall _ _) Hevs) in Hb. by exists p.
  - by intros (q & [= <-] & ->).
Qed.

Lemma signals_file p fd evs file : Forall (signals_to p) evs → file_after fd evs file = file.
Proof.
  intros Hevs. apply file_after_same. eapply Forall_impl; [exact Hevs|].
  intros [A q a] Hq. by destruct q.
Qed.

Definition stat_path (p : Z) : text := str "/proc/" ++ signed_decimal p ++ str "/stat".

(** The start time is what the file under [/proc] said, if it was read, and
    none if it could not be opened or has no name. *)
Definition saw_time (k : kernel) (p : Z) (T : list event) : Prop :=
  (p ≤ 1 ∨ (64 ≤ length (stat_path p))%nat → k.(start_time_of) p = None) ∧
  (∀ flags e, Did (Open (stat_path p) flags) (inl e) ∈ T → k.(start_time_of) p = None) ∧
  (∀ fd a, Did (Read fd 2047) a ∈ T → a ≠ inl EINTR →
    k.(start_time_of) p = Launch.process_start_time p (contents a)).

Lemma saw_time_part k p T T' : T' ⊆ T → saw_time k p T → saw_time k p T'.
Proof. intros Hsub (? & Ho & Hr). split; [done|]. split; eauto. Qed.

(** Whether the first wait collected the agent. *)
Definition waited_of (p : Z) (e : event) : option bool :=
  match e with
  | Did (Waitpid p' true) a =>
      if p' =? p then Some (match a with inr (q, _) => q =? p | inl _ => false end) else None
  | _ => None
  end.
Definition first_wait (p : Z) (T : list event) : option bool := last (omap (waited_of p) T).

Definition read_2047_of (e : event) : option (Z + text) :=
  match e with Did (Read _ size) a => if size =? 2047 then Some a else None | _ => None end.

(** A read of another file. *)
Definition calm_event (e : event) : Prop :=
  (kind_of e = Reads_time ∨ kind_of e = Other) ∧ read_2047_of e = None.

Definition asking (e : event) : Prop := kind_of e = Reads_time ∨ kind_of e = Other.

Ltac calm_leaf := unfold calm_event; simpl;
  repeat match goal with |- _ ∧ _ => split end; first [by left|by right|done].
Ltac calm_list := repeat (constructor; [split; [by right|done]|]); constructor.
Ltac calm := repeat (intros; first
  [ apply emits_ret | apply emits_call; intros; calm_leaf
  | apply emits_retry; intros; calm_leaf | apply emits_bind | case_match | case_decide ]).

Lemma asking_neq k evs : Forall asking evs → k ≠ Reads_time → k ≠ Other → Forall (λ e, kind_of e ≠ k) evs.
Proof. intros Hevs ? ?. eapply Forall_impl; [exact Hevs|]. by intros e [->| ->]. Qed.

Lemma asking_file fd evs file : Forall asking evs → file_after fd evs file = file.
Proof.
  intros Hevs. apply file_after_same. eapply Forall_impl; [exact Hevs|].
  intros [A q a] [Hq|Hq]; by destruct q.
Qed.

Lemma start_time_returned fuel p w x w' :
  process_start_time fuel p w = Returned x w' →
  ∃ evs, w'.(trace) = evs ++ w.(trace) ∧ Forall asking evs ∧
    ∀ k, saw_time k p evs → x = k.(start_time_of) p.
Proof.
  intros Hr. unfold process_start_time in Hr. fold (stat_path p) in Hr. cbv zeta in Hr.
  destruct (Z.leb_spec p 1).
  { apply M_ret_returned in Hr as [-> ->]. exists []. split_and!; [done|done|].
    intros k [Hk _]. rewrite Hk; auto. }
  destruct (Nat.leb_spec 64 (length (stat_path p))).
  { apply M_ret_returned in Hr as [-> ->]. exists []. split_and!; [done|done|].
    intros k [Hk _]. rewrite Hk; auto. }
  apply M_bind_returned in Hr as (opened & w1 & [_ ->]%call_returned & Hr).
  destruct opened as [e|d].
  { apply M_ret_returned in Hr as [-> ->]. eexists [_]. split; [done|]. split; [by repeat constructor; right|].
    intros k (_ & Hk & _). symmetry. eapply Hk. left. }
  apply M_bind_returned in Hr as (data & w2 & Hr & Hrest).
  apply retry_returned in Hr as (Hintr & tries & HT2 & Htries).
  apply M_bind_returned in Hrest as (u & w3 & [_ ->]%call_returned & [-> ->]%M_ret_returned).
  cbn [trace] in *. rewrite HT2. eexists (Did (Close d) u :: Did (Read d 2047) data :: tries ++ [_]).
  split; [simpl; by rewrite <- app_assoc|]. split.
  - constructor; [by right|]. constructor; [by left|]. apply Forall_app.
    split; [|by repeat constructor; right]. eapply Forall_impl; [exact Htries|]. intros e ->. by left.
  - intros k (_ & _ & Hk). symmetry. eapply Hk; [right; left|done].
Qed.

Lemma calm_waits p evs : Forall (λ e, waited_of p e = None) evs → omap (waited_of p) evs = [].
Proof. induction 1 as [|e evs He _ IH]; [done|]. csimpl. by rewrite He. Qed.

Lemma start_returned fuel p ready w x w' :
  finish_agent_start fuel p ready w = Returned x w' →
  ∃ evs, w'.(trace) = evs ++ w.(trace) ∧ Forall asking evs ∧
    (∀ fd a, Did (Read fd 2047) a ∉ evs) ∧ first_wait p evs = Some (negb x).
Proof.
  intros Hr.
  apply M_bind_returned in Hr as (ready' & w1 & H1 & Hr).
  apply M_bind_returned in Hr as (u & w2 & H2 & Hr).
  apply M_bind_returned in Hr as (v & w3 & H3 & Hr).
  apply M_bind_returned in Hr as (waited & w4 & [_ ->]%call_returned & Hr).
  assert (∃ evs, trace w3 = evs ++ trace w ∧
    Forall (λ e, calm_event e ∧ waited_of p e = None) evs) as (evs & HT & Hevs).
  { eapply (emits_bind (λ e, calm_event e ∧ waited_of p e = None)
      (wait_for_agent fuel ready) (λ _, _ ← _; _));
      [| |apply M_bind_returned; do 2 eexists; split; [exact H1|]; apply M_bind_returned; eauto].
    - unfold wait_for_agent. calm.
    - unfold say. calm. }
  assert (∃ more, trace w' = more ++ Did (Waitpid p true) waited :: trace w3 ∧ Forall calm_event more ∧
    x = negb match waited with inr (q, _) => q =? p | inl _ => false end) as (more & HT' & Hmore & Hx).
  { destruct waited as [e|[q status]].
    - apply M_ret_returned in Hr as [-> ->]. by exists [].
    - destruct (Z.eqb_spec q p) as [->|].
      + apply M_bind_returned in Hr as (z & w5 & [_ ->]%call_returned & [-> ->]%M_ret_returned).
        eexists [_]. split; [done|]. split; [|done].
        constructor; [|done]. split; [by right|done].
      + apply M_ret_returned in Hr as [-> ->]. by exists []. }
  exists (more ++ Did (Waitpid p true) waited :: evs). rewrite HT', HT, <- app_assoc.
  assert (Forall calm_event (more ++ Did (Waitpid p true) waited :: evs)) as Hall.
  { apply Forall_app. split; [done|]. constructor; [split; [by right|done]|].
    eapply Forall_impl; [exact Hevs|]. by intros e []. }
  split; [done|]. split; [|split].
  - eapply Forall_impl; [exact Hall|]. by intros e [? _].
  - intros fd a Ha. apply (proj1 (Forall_forall _ _) Hall) in Ha as [_ Ha]. done.
  - unfold first_wait. rewrite omap_app, last_app. csimpl. rewrite Z.eqb_refl, calm_waits.
    + simpl. by rewrite Hx, negb_involutive.
    + eapply Forall_impl; [exact Hevs|]. by intros e [].
Qed.

Lemma kind_reads k evs : Forall (λ e, kind_of e = k) evs → k ≠ Reads_time →
  ∀ fd a, Did (Read fd 2047) a ∉ evs.
Proof. intros Hevs Hk fd a Ha. by apply (proj1 (Forall_forall _ _) Hevs) in Ha. Qed.


(** What [Agent.finish_agent_reference] computes before it stops an agent. *)
Definition recorded (k : kernel) (io : Agent.io) (exited : bool) (r : AgentReference) (file : text) :
    text * AgentReference * bool :=
  if exited then (file, r, true) else
  match k.(start_time_of) r.(r_pid) with
  | None => (file, r, false)
  | Some start =>
      let r := Reference r.(r_pid) start r.(r_held) r.(r_starting) in
      let '(file, written) := write_state io
        {| pid := r.(r_pid); start_time := start; references := 1 |} file in
      if written then (file, Reference r.(r_pid) start r.(r_held) false, false)
      else (file, r, true)
  end.

Definition kernel_timed (start : option Z) : kernel := Kernel (λ p, p) (λ _, start) (λ _, true).

Lemma record_refines fuel fd r started w r' ok w' : r.(r_starting) = true →
  record_agent fuel fd r started w = Returned (r', ok) w' →
  ∃ evs, w'.(trace) = evs ++ w.(trace) ∧ Forall (λ e, kind_of e ≠ Signals) evs ∧
    r'.(r_pid) = r.(r_pid) ∧ ∀ k io file, saw_time k r.(r_pid) evs →
      io_agrees io (first_answers evs) →
      recorded k io (negb started) r file = (file_after fd evs file, r', negb ok).
Proof.
  intros Hst Hr. unfold record_agent in Hr.
  apply M_bind_returned in Hr as (start & w1 & Hs & Hr).
  assert (∃ evs, trace w1 = evs ++ trace w ∧ Forall asking evs ∧
    ∀ k, saw_time k (r_pid r) evs → start = if started then k.(start_time_of) (r_pid r) else None) as
    (evs1 & HT1 & Hk1 & Hsaw).
  { destruct started.
    - apply start_time_returned in Hs as (evs & ? & ? & Hs). by exists evs.
    - apply M_ret_returned in Hs as [-> ->]. by exists []. }
  destruct start as [start|].
  - apply M_bind_returned in Hr as (written & w2 & Hw & [[= -> ->] ->]%M_ret_returned).
    apply write_kind in Hw as (evs2 & HT2 & Hk2 & Hf). exists (evs2 ++ evs1).
    rewrite HT2, HT1, app_assoc. split; [done|]. split; [|split; [done|]].
    + apply Forall_app. split; [by eapply kind_neq|by apply asking_neq].
    + intros k io file Hk Hio.
      apply (saw_time_part _ _ _ evs1) in Hk; [|set_solver]. specialize (Hsaw k Hk).
      destruct started; [|done]. unfold recorded. simpl. rewrite <- Hsaw.
      apply first_skip in Hio.
      2:{ eapply Forall_impl; [exact Hk1|]. intros [A q a] [Hq|Hq]; by destruct q. }
      rewrite file_after_app, (asking_file _ evs1), Hf, Hst by auto. by destruct written.
  - apply M_ret_returned in Hr as [[= -> ->] ->]. exists evs1. split; [done|].
    split; [by apply asking_neq|]. split; [done|].
    intros k io file Hk _. rewrite asking_file by done. specialize (Hsaw k Hk). unfold recorded.
    destruct started; simpl; [by rewrite <- Hsaw|done].
Qed.

(** What finishing does, for all answers that agree with those it got. *)
Definition finishes_as (fd : Z) (r r' : AgentReference) (T : list event) : Prop :=
  ∀ k io io' exited file, saw_time k r.(r_pid) T → agrees exited (first_wait r.(r_pid) T) →
    io_agrees io (first_answers T) → io_agrees io' (last_answers T) →
    ∃ stopped, Agent.finish_agent_reference k io io' exited r file = (file_after fd T file, r', stopped) ∧
      terminates stopped T.

Lemma finish_refines fuel r sfd rfd h r' w' : 0 < r.(r_pid) →
  finish_agent_reference fuel r sfd rfd (World h []) = Returned r' w' →
  finishes_as sfd r r' w'.(trace).
Proof.
  intros Hp Hr k io io' exited file. unfold finish_agent_reference in Hr.
  destruct r.(r_starting) eqn:Est; cbn [negb] in Hr.
  2: { apply M_ret_returned in Hr as [-> ->]. intros _ _ _ _. exists None.
       unfold Agent.finish_agent_reference. rewrite Est. split; [done|]. by apply terminates_none. }
  apply M_bind_returned in Hr as (started & w1 & H1 & Hr).
  apply start_returned in H1 as (evs1 & HT1 & Hk1 & Hno1 & Hx). cbn [trace] in HT1. rewrite app_nil_r in HT1.
  apply M_bind_returned in Hr as ([r2 ok] & w2 & H2 & Hr).
  apply record_refines in H2 as (evs2 & HT2 & Hk2 & Hpid & Hrec); [|done].
  apply M_bind_returned in Hr as (r3 & w3 & H3 & Hr).
  apply M_bind_returned in Hr as (u & w4 & H4 & [-> ->]%M_ret_returned).
  apply unlock_returned in H4 as (evs4 & HT4 & Hk4).
  assert (∃ evs3, trace w3 = evs3 ++ trace w2 ∧
    terminates (if ok then None else Some r.(r_pid)) evs3 ∧ ∀ io' file, io_agrees io' (last_answers evs3) →
    (if negb ok then let '(file, _) := write_state io' no_agent file in (file, no_reference, Some r.(r_pid))
     else (file, r2, None)) = (file_after sfd evs3 file, r3, if ok then None else Some r.(r_pid)))
    as (evs3 & HT3 & Hterm & Hstop).
  { destruct ok; cbn [negb] in *.
    - apply M_ret_returned in H3 as [-> ->]. exists []. split_and!; [done|by apply terminates_none|done].
    - apply M_bind_returned in H3 as (b & w5 & H5 & H3).
      apply write_kind in H5 as (evs5 & HT5 & Hk5 & Hf5).
      apply M_bind_returned in H3 as (v & w6 & H6 & [-> ->]%M_ret_returned).
      apply stop_returned in H6 as (evs6 & HT6 & Hk6 & Ha); [|done].
      exists (evs6 ++ evs5). rewrite HT6, HT5, app_assoc. split; [done|]. split.
      + apply terminates_earlier; [by eapply kind_neq|]. by apply signals_terminates.
      + intros w file' Hio. apply last_skip in Hio.
        2:{ eapply Forall_impl; [exact Hk6|]. intros [A q a] Hq. by destruct q. }
        rewrite file_after_app, (signals_file _ _ evs6) by done. by rewrite Hf5 by auto. }
  rewrite HT4, HT3, HT2, HT1. intros Hsaw Hex Hio Hio'.
  exists (if ok then None else Some r.(r_pid)).
  assert (exited = negb started) as ->.
  { unfold first_wait in Hex, Hx. rewrite !omap_app, !last_app, Hx in Hex. exact Hex. }
  assert (Forall no_write evs1) as Hquiet.
  { eapply Forall_impl; [exact Hk1|]. intros [A q a] [Hq|Hq]; by destruct q. }
  do 2 apply first_agrees in Hio. apply first_skip in Hio; [|done].
  apply last_skip in Hio'; [|by eapply kind_no_write]. apply last_agrees in Hio'.
  apply (saw_time_part _ _ _ evs2) in Hsaw; [|set_solver]. split.
  - unfold Agent.finish_agent_reference.
    replace (negb (r_starting r)) with false by (by rewrite Est).
    match goal with |- (let '(_, _) := ?x in _) = _ =>
      change x with (recorded k io (negb started) r file) end.
    rewrite Hrec, !file_after_app, (asking_file _ evs1), Hpid by done.
    rewrite (file_after_same _ evs4) by (by eapply kind_no_write). by apply Hstop.
  - apply terminates_more; [by eapply kind_neq|]. apply terminates_earlier; [|done].
    apply Forall_app. split; [done|by apply asking_neq].
Qed.

(** ** Acquiring *)

Definition verdict (a : Z + unit) : bool := match a with inr _ => true | inl e => e =? EPERM end.

(** The answers about process [p], as far as they were asked for. *)
Definition saw (k : kernel) (p : Z) (T : list event) : Prop :=
  (∀ g, Did (Getpgid p) g ∈ T → k.(getpgid) p = g) ∧
  (∀ a, Did (Kill (- p) 0) a ∈ T → k.(signals) p = verdict a) ∧
  saw_time k p T.

Lemma saw_part k p T T' : T' ⊆ T → saw k p T → saw k p T'.
Proof. intros Hsub (Hg & Hk & Ht). split_and!; [eauto..|by eapply saw_time_part]. Qed.

Definition kill_signal_of (e : event) : option Z :=
  match e with Did (Kill _ signal) _ => Some signal | _ => None end.

(** Only the questions [agent_state_is_live] asks. *)
Definition questions (e : event) : Prop :=
  kind_of e ≠ Reads_state ∧ kind_of e ≠ Writes_state ∧ ∀ group, ¬ ∃ a, e = Did (Kill group SIGTERM) a.

Lemma asking_questions e : asking e → questions e.
Proof. intros [He|He]; (split; [by rewrite He|split; [by rewrite He|]]); by intros group [a ->]. Qed.

Lemma getpgid_questions p g : questions (Did (Getpgid p) g).
Proof. split; [done|]. split; [done|]. intros group [b Hb]. by apply (f_equal kill_signal_of) in Hb. Qed.

Lemma probe_questions p a : questions (Did (Kill (- p) 0) a).
Proof. split; [done|]. split; [done|]. intros group [b Hb]. by apply (f_equal kill_signal_of) in Hb. Qed.

Lemma live_refines fuel s w live w' :
  agent_state_is_live fuel s w = Returned live w' →
  ∃ evs, w'.(trace) = evs ++ w.(trace) ∧ Forall questions evs ∧
    ∀ k, saw k s.(pid) evs → live = Agent.agent_state_is_live k s.
Proof.
  unfold agent_state_is_live, Agent.agent_state_is_live. intros Hr.
  destruct ((1 <? pid s) && (0 <? references s)) eqn:Et; cbn [negb andb] in *.
  2: { apply M_ret_returned in Hr as [-> ->]. by exists []. }
  apply M_bind_returned in Hr as (group & w1 & [_ ->]%call_returned & Hr).
  pose proof (getpgid_questions (pid s) group) as Hask.
  destruct (Z.eqb_spec group (pid s)) as [Hg|Hg]; cbn [negb] in Hr.
  2: { apply M_ret_returned in Hr as [-> ->]. exists [Did (Getpgid (pid s)) group].
       split; [done|]. split; [by constructor|]. intros k (Hk & _). rewrite (Hk group) by left.
       by rewrite (proj2 (Z.eqb_neq group (pid s)) Hg). }
  apply M_bind_returned in Hr as (start & w2 & Hs & Hr).
  apply start_time_returned in Hs as (evs & HT & Hevs & Hs). cbn [trace] in HT.
  assert (Forall questions evs) as Hq by (eapply Forall_impl; [exact Hevs|apply asking_questions]).
  case_bool_decide as Hst; cbn [negb] in Hr.
  2: { apply M_ret_returned in Hr as [-> ->]. exists (evs ++ [Did (Getpgid (pid s)) group]).
       rewrite <- app_assoc. split; [done|]. split; [apply Forall_app; split; [done|by constructor]|].
       intros k (Hk & _ & Ht). rewrite (Hk group), Hg, Z.eqb_refl by set_solver.
       rewrite <- (Hs k) by (eapply saw_time_part, Ht; set_solver).
       by rewrite bool_decide_eq_false_2. }
  apply M_bind_returned in Hr as (a & w3 & [_ ->]%call_returned & [-> ->]%M_ret_returned).
  exists (Did (Kill (- pid s) 0) a :: evs ++ [Did (Getpgid (pid s)) group]).
  split; [cbn [trace]; rewrite HT; simpl; by rewrite <- app_assoc|]. split.
  - constructor; [apply probe_questions|]. apply Forall_app; split; [done|by constructor].
  - intros k (Hk & Hkill & Ht). rewrite (Hk group), Hg, Z.eqb_refl by set_solver.
    rewrite <- (Hs k) by (eapply saw_time_part, Ht; set_solver).
    rewrite bool_decide_eq_true_2 by done. simpl. symmetry. apply Hkill. left.
Qed.

(** Why [start_agent] returned an agent, or none. *)
Definition started_as (started : option Z) (T : list event) : Prop :=
  match started with
  | Some p => Did Fork (inr p) ∈ T ∧
      ∃ fd a, Did (Read fd 4) a ∈ T ∧ a ≠ inl EINTR ∧
        match a with inr (_ :: _) => False | _ => True end
  | None => (∃ e, Did Pipe2 (inl e) ∈ T) ∨ (∃ e, Did Fork (inl e) ∈ T) ∨
      ∃ fd c data, Did (Read fd 4) (inr (c :: data)) ∈ T
  end.

Lemma started_more started evs T : evs ⊆ T → started_as started evs → started_as started T.
Proof.
  intros Hsub. destruct started; simpl.
  - intros (Hf & fd & a & Hr & Ha). split; [auto|]. exists fd, a. auto.
  - intros [[e He]|[[e He]|(fd & c & data & He)]]; eauto 8.
Qed.

Lemma calm_run {A} (m : M A) w x w' : emits calm_event m → m w = Returned x w' →
  ∃ evs, w'.(trace) = evs ++ w.(trace) ∧ Forall calm_event evs.
Proof. intros Hm Hr. exact (Hm _ _ _ Hr). Qed.

Lemma await_returned fuel child er ew rr rw w x w' :
  await_start strerror fuel child er ew rr rw w = Returned x w' →
  ∃ evs, w'.(trace) = evs ++ w.(trace) ∧ Forall calm_event evs ∧
    match x with
    | Some (p, _) => p = child ∧ ∃ fd a, Did (Read fd 4) a ∈ evs ∧ a ≠ inl EINTR ∧
        match a with inr (_ :: _) => False | _ => True end
    | None => ∃ fd c data, Did (Read fd 4) (inr (c :: data)) ∈ evs
    end.
Proof.
  intros Hr. assert (emits calm_event (await_start strerror fuel child er ew rr rw)) as Hm
    by (unfold await_start, say; calm).
  destruct (calm_run _ _ _ _ Hm Hr) as (evs & HT & Hevs). exists evs. split; [done|]. split; [done|].
  unfold await_start in Hr.
  do 3 apply M_bind_returned in Hr as (? & ? & [_ ->]%call_returned & Hr).
  apply M_bind_returned in Hr as (size & w2 & Hs & Hr).
  apply retry_returned in Hs as (Hintr & tries & HT2 & _). cbn [trace] in HT2.
  apply M_bind_returned in Hr as (u & w3 & [_ ->]%call_returned & Hr).
  assert (∀ later, w'.(trace) = later ++ Did (Close er) u :: w2.(trace) →
    Did (Read er 4) size ∈ evs) as Hin.
  { intros later Hl. rewrite HT, HT2 in Hl.
    assert (evs = later ++ Did (Close er) u :: Did (Read er 4) size :: tries ++ [_; _; _]) as ->
      by (eapply app_inv_tail; rewrite Hl, <- app_assoc; simpl; rewrite <- app_assoc; reflexivity).
    set_solver. }
  destruct size as [e|[|c data]].
  - apply M_ret_returned in Hr as [-> ->]. split; [done|]. exists er, (inl e). split; [by apply (Hin [])|done].
  - apply M_ret_returned in Hr as [-> ->]. split; [done|]. exists er, (inr []). split; [by apply (Hin [])|done].
  - unfold say in Hr. do 3 apply M_bind_returned in Hr as (? & ? & [_ ->]%call_returned & Hr).
    apply M_ret_returned in Hr as [-> ->]. exists er, c, data.
    eapply Hin. by instantiate (1 := [_; _; _]).
Qed.

Lemma start_agent_asks fuel agent w started w' :
  start_agent strerror fuel (Some agent) w = Returned (inr started) w' →
  ∃ evs, w'.(trace) = evs ++ w.(trace) ∧ Forall calm_event evs ∧ started_as (fst <$> started) evs.
Proof.
  intros Hr. unfold start_agent in Hr.
  apply M_bind_returned in Hr as (piped & w1 & [_ ->]%call_returned & Hr).
  destruct piped as [e|[error_read error_write]].
  { apply M_ret_returned in Hr as [[= ->] ->]. eexists [_]. split; [done|]. split; [calm_list|].
    left. eexists. left. }
  apply M_bind_returned in Hr as (piped & w2 & [_ ->]%call_returned & Hr).
  destruct piped as [e|[ready_read ready_write]].
  { do 2 apply M_bind_returned in Hr as (? & ? & [_ ->]%call_returned & Hr).
    apply M_ret_returned in Hr as [[= ->] ->]. eexists [_; _; _; _]. split; [done|]. split; [calm_list|].
    left. exists e. set_solver. }
  apply M_bind_returned in Hr as (forked & w3 & [_ ->]%call_returned & Hr).
  destruct forked as [e|child].
  { do 4 apply M_bind_returned in Hr as (? & ? & [_ ->]%call_returned & Hr).
    apply M_ret_returned in Hr as [[= ->] ->]. eexists [_; _; _; _; _; _; _]. split; [done|].
    split; [calm_list|]. right. left. exists e. set_solver. }
  destruct (child =? 0).
  - repeat apply M_bind_returned in Hr as (? & ? & _ & Hr). by apply M_ret_returned in Hr as [? _].
  - apply M_bind_returned in Hr as (x & w4 & Hx & [[= ->] ->]%M_ret_returned).
    apply await_returned in Hx as (evs & HT & Hevs & Hres). cbn [trace] in HT.
    exists (evs ++ [Did Fork (inr child); Did Pipe2 (inr (ready_read, ready_write));
      Did Pipe2 (inr (error_read, error_write))]).
    rewrite HT, <- app_assoc. split; [done|]. split; [apply Forall_app; split; [done|calm_list]|].
    destruct x as [[p r]|]; simpl.
    + destruct Hres as (-> & fd & a & Hin & Ha). split; [set_solver|]. exists fd, a. set_solver.
    + destruct Hres as (fd & c & data & Hin). right. right. exists fd, c, data. set_solver.
Qed.

(** What acquiring does, for all answers that agree with those it got. *)
Definition acquires_as (fd : Z) (file : text) (r : AgentReference) (T : list event) : Prop :=
  let state := Launch.read_agent_state (Some file) in
  ∀ k io, saw k state.(pid) T → io_agrees io (first_answers T) → ∃ started,
    (Agent.agent_state_is_live k state && (state.(references) <? UINT_MAX) = true ∨
     started_as started T) ∧
    Agent.acquire_agent_reference k io started file = (file_after fd T file, r).

Lemma acquire_refines fuel agent h r acquired w' :
  acquire_agent_reference strerror fuel (Some agent) (World h []) = Returned (inr (r, acquired)) w' →
  terminates None w'.(trace) ∧
  (lock_failed w'.(trace) ∧ Forall no_write w'.(trace) ∧ r = no_reference ∨
   ∃ fd, locks fd w'.(trace) ∧ ∀ file, reads_as fd file w'.(trace) → acquires_as fd file r w'.(trace)).
Proof.
  intros Hr. unfold acquire_agent_reference in Hr.
  apply M_bind_returned in Hr as (locked & w1 & Hl & Hr).
  apply lock_returned in Hl as (evs1 & HT1 & Hk1 & Hlock). cbn [trace] in HT1. rewrite app_nil_r in HT1.
  destruct locked as [d|].
  2: { apply M_bind_returned in Hr as (u & w2 & [_ ->]%call_returned & [[= -> ->] ->]%M_ret_returned).
       cbn [trace]. rewrite HT1. split.
       - apply (terminates_more None evs1 [_]); [by repeat constructor|].
         apply terminates_none. by eapply kind_neq.
       - left. split; [|split; [|done]].
         + destruct Hlock as [(s & ? & ?)|[(p & f & e & ?)|(fd & e & ? & ?)]];
             [left; exists s|right; left; exists p, f, e|right; right; exists fd, e]; set_solver.
         + constructor; [done|]. by eapply kind_no_write. }
  apply M_bind_returned in Hr as (state & w2 & Hr2 & Hr).
  apply read_returned in Hr2 as (evs2 & HT2 & Hk2 & Hread).
  apply M_bind_returned in Hr as (live & w3 & Hlive & Hr).
  apply M_bind_returned in Hlive as (l & w3' & Hlive & [-> ->]%M_ret_returned).
  apply live_refines in Hlive as (evs3 & HT3 & Hq & Hl).
  (* what is done after the questions *)
  assert (∃ evs4, trace w' = evs4 ++ trace w3' ∧
    Forall (λ e, kind_of e = Writes_state ∨ calm_event e) evs4 ∧
    ∀ k io file, state = Launch.read_agent_state (Some file) → l = Agent.agent_state_is_live k state →
      io_agrees io (first_answers evs4) → ∃ started,
      (l && (references state <? UINT_MAX) = true ∨ started_as started evs4) ∧
      Agent.acquire_agent_reference k io started file = (file_after d evs4 file, r))
    as (evs4 & HT4 & Hk4 & Href).
  { destruct (l && (references state <? UINT_MAX)) eqn:El.
    - apply M_bind_returned in Hr as (ok & w4 & Hw & Hr).
      apply write_kind in Hw as (evs & HT & Hk & Hf).
      apply M_bind_returned in Hr as (u & w5 & Hu & [[= -> ->] ->]%M_ret_returned).
      apply unlock_returned in Hu as (evs' & HT' & Hk').
      exists (evs' ++ evs). rewrite HT', HT, app_assoc. split; [done|]. split.
      + apply Forall_app. split; [|eapply Forall_impl; [exact Hk|]; auto].
        eapply Forall_impl; [exact Hk'|]. intros [A q a] Hq'. right.
        split; [by right|]. by destruct q.
      + intros k io file Hst Hlv Hio%first_agrees. exists None. split; [by left|].
        unfold Agent.acquire_agent_reference. rewrite <- Hst, <- Hlv, El, Hf by auto.
        rewrite file_after_app, (file_after_same _ evs') by (by eapply kind_no_write). by destruct ok.
    - apply M_bind_returned in Hr as (ok & w4 & Hw & Hr).
      apply write_kind in Hw as (evs & HT & Hk & Hf).
      apply M_bind_returned in Hr as (started & w5 & Hst & Hr).
      destruct started as [lv|started]; [by apply M_ret_returned in Hr as [? _]|].
      apply start_agent_asks in Hst as (evs5 & HT5 & Hk5 & Hs5).
      assert (∃ evs', trace w' = evs' ++ trace w5 ∧ Forall (λ e, kind_of e = Other) evs' ∧
        r = match started with Some (p, _) => Reference p 0 true true | None => no_reference end)
        as (evs' & HT' & Hk' & Hr').
      { destruct started as [[p ready]|].
        - apply M_ret_returned in Hr as [[= -> ->] ->]. by exists [].
        - apply M_bind_returned in Hr as (u & w6 & Hu & [[= -> ->] ->]%M_ret_returned).
          apply unlock_returned in Hu as (evs' & ? & ?). by exists evs'. }
      exists (evs' ++ evs5 ++ evs). rewrite HT', HT5, HT, <- !app_assoc.
      split; [done|]. split.
      + apply Forall_app. split; [|apply Forall_app; split].
        * eapply Forall_impl; [exact Hk'|]. intros [A q a] Hq'. right. split; [by right|]. by destruct q.
        * eapply Forall_impl; [exact Hk5|]. auto.
        * eapply Forall_impl; [exact Hk|]. auto.
      + intros k io file Hst Hlv Hio. do 2 apply first_agrees in Hio. exists (fst <$> started).
        split; [right; eapply started_more, Hs5; set_solver|].
        unfold Agent.acquire_agent_reference. rewrite <- Hst, <- Hlv, El, Hf, Hr' by auto.
        rewrite !file_after_app, (file_after_same _ evs') by (by eapply kind_no_write).
        rewrite (asking_file _ evs5); [by destruct started as [[? ?]|]|].
        eapply Forall_impl; [exact Hk5|]. by intros e [? _]. }
  rewrite HT4, HT3, HT2, HT1. split.
  - intros group. split; [|by intros (p & ? & _)]. intros [a Ha]. exfalso.
    rewrite !elem_of_app in Ha. rewrite Forall_forall in Hk1, Hk2, Hk4, Hq.
    destruct Ha as [Ha|[Ha|[Ha|Ha]]].
    + by apply Hk4 in Ha as [?|[[?|?] _]].
    + apply Hq in Ha as (_ & _ & Ha). apply (Ha group). eauto.
    + by apply Hk2 in Ha.
    + by apply Hk1 in Ha.
  - right. exists d. split; [unfold locks in *; rewrite !elem_of_app; auto|].
    intros file Hrd. cbv zeta. intros k io Hsaw Hio.
    assert (state = Launch.read_agent_state (Some file)) as Hst.
    { apply Hread. eapply reads_as_part, Hrd. set_solver. }
    rewrite <- Hst in Hsaw. unfold acquires_as. rewrite <- Hst.
    assert (l = Agent.agent_state_is_live k state) as Hlv.
    { apply Hl. eapply saw_part, Hsaw. set_solver. }
    rewrite (app_assoc evs4 evs3) in *.
    destruct (locked_section d file evs1 evs2 (evs4 ++ evs3) [] Hk1 Hk2 ltac:(constructor)) as [Hfile Hagree].
    simpl in Hfile, Hagree. rewrite Hfile, file_after_app.
    assert (Forall no_write evs3) as Hq3.
    { eapply Forall_impl; [exact Hq|]. intros [A q a] (_ & ? & _); by destruct q. }
    rewrite (file_after_same _ evs3) by done.
    destruct (Href k io file Hst Hlv) as (started & Hstarted & Hres).
    { eapply first_skip; [exact Hq3|]. by apply Hagree. }
    exists started. rewrite <- Hlv. split; [|exact Hres].
    destruct Hstarted as [?|Hs]; [by left|right]. eapply started_more, Hs. set_solver.
Qed.

End refines.
