(* ===== verification/LaunchExamples.v ===== *)
(** * The launcher runs

    A kernel that answers from a script, and runs of the launcher on it, with
    which the theorems on the launcher's processes are used. *)

From S2P Require Import Prelude Glib Launch Agent Process Supervise SuperviseInv MonitorInv AgentRefines.

(** What the kernel will answer; what is not in a list has a default. *)
Record script := Script {
  next_fd : Z;
  forks : list nat;
  waits : list (Z + Z * Z);
  reads : list (Z + text);
  writes : list (Z + nat);
  states : list (Z + text);
  requests : list Z;
}.

Definition take_read (size : Z) (r : Z + text) : Z + text :=
  match r with inl e => inl e | inr data => inr (take (Z.to_nat size) data) end.

Definition take_write (data : text) (r : Z + nat) : Z + nat :=
  match r with inl e => inl e | inr n => inr (Nat.min n (length data)) end.

Definition take_wait (pid : Z) (nohang : bool) (r : Z + Z * Z) : Z + Z * Z :=
  match r with
  | inl e => inl e
  | inr (p, status) =>
      if decide (0 < pid ∧ p ≠ pid ∧ ¬ (nohang = true ∧ p = 0)) then inl ECHILD else r
  end.

Definition scripted {A} (c : call A) : script → A * script :=
  match c in call A return script → A * script with
  | Pipe2 => λ s, (inr (s.(next_fd), s.(next_fd) + 1),
      Script (s.(next_fd) + 2) s.(forks) s.(waits) s.(reads) s.(writes) s.(states) s.(requests))
  | Fork => λ s, (inr (Z.of_nat (hd 77%nat s.(forks))),
      Script s.(next_fd) (tl s.(forks)) s.(waits) s.(reads) s.(writes) s.(states) s.(requests))
  | Waitpid pid nohang => λ s, (take_wait pid nohang (hd (inl ECHILD) s.(waits)),
      Script s.(next_fd) s.(forks) (tl s.(waits)) s.(reads) s.(writes) s.(states) s.(requests))
  | Read _ size => λ s, (take_read size (hd (inr []) s.(reads)),
      Script s.(next_fd) s.(forks) s.(waits) (tl s.(reads)) s.(writes) s.(states) s.(requests))
  | Write _ data => λ s, (take_write data (hd (inr 4%nat) s.(writes)),
      Script s.(next_fd) s.(forks) s.(waits) s.(reads) (tl s.(writes)) s.(states) s.(requests))
  | Pread _ size => λ s, (take_read size (hd (inr []) s.(states)),
      Script s.(next_fd) s.(forks) s.(waits) s.(reads) s.(writes) (tl s.(states)) s.(requests))
  | Termination => λ s, (hd 0 s.(requests),
      Script s.(next_fd) s.(forks) s.(waits) s.(reads) s.(writes) s.(states) (tl s.(requests)))
  | Kill _ _ => λ s, (inr tt, s)
  | Usleep _ => λ s, (tt, s)
  | Poll _ _ => λ s, (inr POLLIN, s)
  | Close _ => λ s, (tt, s)
  | Getfl _ => λ s, (inr 0, s)
  | Setfl _ _ => λ s, (inr tt, s)
  | Allocate _ => λ s, (true, s)
  | Open _ _ => λ s, (inr s.(next_fd),
      Script (s.(next_fd) + 1) s.(forks) s.(waits) s.(reads) s.(writes) s.(states) s.(requests))
  | Dup2 _ _ => λ s, (inr tt, s)
  | Getenv _ => λ s, (None, s)
  | Setenv _ _ => λ s, (inr tt, s)
  | Exec _ _ => λ s, (None, s)
  | Setpgid _ _ => λ s, (tt, s)
  | Getpgid p => λ s, (p, s)
  | Getpgrp => λ s, (1, s)
  | Flock _ _ => λ s, (inr tt, s)
  | Ftruncate _ => λ s, (inr tt, s)
  | Pwrite _ data => λ s, (inr (length data), s)
  | Subreaper => λ s, (inr tt, s)
  | SetName _ => λ s, (tt, s)
  | Sigaction _ _ => λ s, (inr tt, s)
  | Shell => λ s, (None, s)
  | SetForwarded _ => λ s, (tt, s)
  | Forwarded => λ s, (-1, s)
  | SetTermination _ => λ s, (tt, s)
  | Printerr _ => λ s, (tt, s)
  end.

#[export, refine] Instance sample_processes : Processes := {|
  host := script; answer := @scripted; uid := 1000; sid := 500; own_pid := 600 |}.
Proof.
  - intros fd size h data Hs. simpl. destruct (hd (inr []) (reads h)); [done|]. intros [= <-].
    rewrite length_take. lia.
  - intros fd data h n [= <-]. done.
  - intros h child [= <-]. lia.
  - intros pid nohang h p status Hp. simpl. destruct (hd _ (waits h)) as [e|[q s]]; [done|].
    simpl. case_decide as Hq; [done|]. intros [= -> ->].
    destruct (decide (p = pid)); [by left|]. right.
    destruct (decide (nohang = true ∧ p = 0)); [done|]. by destruct Hq.
Defined.

(** ** The environment *)

(** [systemctl] prints in two pieces and exits. *)
Definition environment_script : script :=
  Script 10 [] [inr (0, 0); inr (77, 0)]
    [inr (str "PATH=/usr/bin"); inl EAGAIN; inr (str ":/opt"); inr []] [] [] [].

Abbreviation environment_run := (read_manager_environment (H := sample_processes) 10 (World environment_script [])).

Lemma manager_environment_whole_witness : ∃ fd write_fd child,
  let T := (world_after environment_script environment_run).(trace) in
  Did Pipe2 (inr (fd, write_fd)) ∈ T ∧ Did Fork (inr child) ∈ T ∧
  whole_output fd child (str "PATH=/usr/bin:/opt") T.
Proof.
  destruct (manager_environment_whole (H := sample_processes) 10 environment_script (Some (str "PATH=/usr/bin:/opt"))
    (world_after environment_script environment_run)) as [_ Hwhole].
  - apply returned_world. by vm_compute.
  - by apply Hwhole.
Defined.

(** ** Updating D-Bus *)

Definition update_script : script := Script 10 [] [inr (0, 0); inl EINTR; inr (77, 0)] [] [] [] [].
Definition no_strerror (e : Z) : text := [].
Abbreviation update_run := (update_dbus_environment (H := sample_processes) no_strerror 10 [str "PATH"] (World update_script [])).

Lemma update_settled_witness : ∃ child status,
  let T := (world_after update_script update_run).(trace) in
  Did Fork (inr child) ∈ T ∧ succeeded status = true ∧ collected child status T.
Proof.
  destruct (update_settled (H := sample_processes) no_strerror 10 [str "PATH"] update_script true
    (world_after update_script update_run)) as [_ Hok].
  - apply returned_world. by vm_compute.
  - by apply Hok.
Defined.

(** ** The monitor *)

(** Another child ends first; the status goes through in two pieces; the agent
    has one user. *)
Definition monitor_script : script :=
  Script 20 [] [inr (70, 0); inl EINTR; inr (77, 0x300)] [] [inl EINTR; inr 1%nat; inr 3%nat]
    [inr (str "900 5 1" ++ [newline_char])] [0; 0; 0].
Definition agent_user : AgentReference := Reference 900 5 true false.
Abbreviation monitor_run := (monitor_application (H := sample_processes) no_strerror 30 [str "app"] agent_user 9 (World monitor_script [])).
Abbreviation monitor_trace := ((world_after monitor_script monitor_run).(trace)).

Lemma monitor_returned : monitor_run = Returned (Exits 0) (world_after monitor_script monitor_run).
Proof. apply returned_world. by vm_compute. Qed.

Lemma status_reported_once_witness :
  monitor_status monitor_trace = 0x300 ∧
  reported 9 (int_bytes (monitor_status monitor_trace)) monitor_trace ∧
  released (H := sample_processes) 30 agent_user 9 (world_after monitor_script monitor_run).
Proof.
  split; [by vm_compute|].
  apply (status_reported_once (H := sample_processes) no_strerror 30 [str "app"] agent_user 9
    monitor_script (Exits 0) (world_after monitor_script monitor_run)).
  - exact monitor_returned.
  - by vm_compute.
Defined.

(** ** The launcher *)

Definition launcher_script : script :=
  Script 20 [] [] [inr (take 1 (int_bytes 0x300)); inl EINTR; inr (drop 1 (int_bytes 0x300))] [] [] [].
Abbreviation launcher_run := (await_monitor (H := sample_processes) 10 77 8 9 (World launcher_script [])).

Lemma launcher_returned : launcher_run = Returned (Exits 3) (world_after launcher_script launcher_run).
Proof. apply returned_world. by vm_compute. Qed.

Abbreviation launcher_trace := ((world_after launcher_script launcher_run).(trace)).

Lemma launcher_exits_as_application_witness :
  length (received 8 launcher_trace) = 4%nat ∧ status_code (monitor_status monitor_trace) = 3 ∧
  Exits 3 = Exits (if decide (length (received 8 launcher_trace) = 4%nat)
                   then status_code (monitor_status monitor_trace) else 1).
Proof.
  split; [by vm_compute|]. split; [by vm_compute|].
  apply (launcher_exits_as_application (H := sample_processes) no_strerror 10 30 [str "app"]
    agent_user 77 8 9 9 launcher_script monitor_script (Exits 3) (Exits 0)
    (world_after launcher_script launcher_run) (world_after monitor_script monitor_run)).
  - exact launcher_returned.
  - exact monitor_returned.
  - by vm_compute.
  - apply (bool_decide_unpack _). by vm_compute.
Defined.

(** ** Readiness *)

Definition relay_script : script :=
  Script 20 [] [] [inr (str "qt: AuthAuthentication agent re"); inl EINTR;
                   inr (str "sult: true, and more"); inr (str "noise")] [inr 1%nat] [] [].
Abbreviation relay_run := (relay_agent_output (H := sample_processes) 10 5 6 (World relay_script [])).

Lemma relay_agent_output_exact_witness :
  notified 6 (world_after relay_script relay_run).(trace).
Proof.
  apply (relay_agent_output_exact (H := sample_processes) 10 5 6 relay_script tt
    (world_after relay_script relay_run)).
  - done.
  - apply returned_world. by vm_compute.
  - exists (str "qt: Auth"), (str ", and morenoise"). by vm_compute.
Defined.

(** ** Releasing the agent *)

Definition release_script : script :=
  Script 20 [] [] [] [] [inl EINTR; inr (str "900 5 1" ++ [newline_char])] [].
Abbreviation release_run :=
  (release_agent_reference (H := sample_processes) 10 agent_user (World release_script [])).
Abbreviation release_trace := ((world_after release_script release_run).(trace)).


(** The content that was read and the answers to the write agree with the run. *)
Example release_answers :
  reads_as 20 (str "900 5 1" ++ [newline_char]) release_trace ∧
  io_agrees (true, Some 6%nat) (first_answers release_trace).
Proof.
  split; [|by vm_compute]. intros a Ha Hn.
  assert (forallb (λ e, match pread_of e with
    | Some (_, inl e) => e =? EINTR
    | Some (_, inr data) => bool_decide (data = take 127 (str "900 5 1" ++ [newline_char]))
    | None => true
    end) release_trace = true) as Hall by (by vm_compute).
  rewrite forallb_forall in Hall. apply list_elem_of_In, Hall in Ha. destruct a as [e|data]; simpl in Ha.
  - apply Z.eqb_eq in Ha. congruence.
  - apply bool_decide_eq_true in Ha. by subst.
Qed.

