(* ===== verification/Desktop.v ===== *)
(** * What GLib computes

    The values of D-Bus messages, errors, and [Desktop], the GLib functions
    the broker and the guest programs call that only compute.  The laws of
    [Desktop] state documented behaviour. *)

From S2P Require Import Prelude.

(** A type, as its signature denotes it; a base type the programs do not look
    into and a byte string ([ay]) are named. *)
Inductive vtype :=
  | TString | TObject | TUint32 | TInt32 | TInt64 | TUint64 | TBoolean | THandle | TVariant
  | TArray (element : vtype)
  | TEntry (key value : vtype)
  | TTuple (children : list vtype)
  | TOther (name : text).

(** Arrays of strings and dictionaries [a{sv}] have constructors of their own;
    [VArray] holds the other arrays, [VEntry] the entries of other
    dictionaries. *)
Inductive variant :=
  | VString (s : text)
  | VObject (path : text)
  | VUint32 (n : Z)
  | VInt32 (n : Z)
  | VInt64 (n : Z)
  | VUint64 (n : Z)
  | VBoolean (b : bool)
  | VHandle (h : Z)
  | VStrings (l : list text)                    (** [as] *)
  | VDict (entries : list (text * variant))     (** [a{sv}] *)
  | VVariant (v : variant)
  | VTuple (children : list variant)
  | VArray (element : vtype) (children : list variant)
  | VEntry (key value : variant)
  | VOther (type contents : text).

Abbreviation vardict := (list (text * variant)).
Abbreviation TStrings := (TArray TString).
Abbreviation TVardict := (TArray (TEntry TString TVariant)).

Fixpoint vtype_eqb (a b : vtype) : bool :=
  match a, b with
  | TString, TString | TObject, TObject | TUint32, TUint32 | TInt32, TInt32
  | TInt64, TInt64 | TUint64, TUint64 | TBoolean, TBoolean | THandle, THandle
  | TVariant, TVariant => true
  | TArray a, TArray b => vtype_eqb a b
  | TEntry k v, TEntry k' v' => vtype_eqb k k' && vtype_eqb v v'
  | TTuple l, TTuple l' =>
      (fix go l l' := match l, l' with
                      | [], [] => true
                      | a :: l, b :: l' => vtype_eqb a b && go l l'
                      | _, _ => false
                      end) l l'
  | TOther n, TOther n' => text_eqb n n'
  | _, _ => false
  end.

(** [g_variant_get_type]. *)
Fixpoint type_of (v : variant) : vtype :=
  match v with
  | VString _ => TString
  | VObject _ => TObject
  | VUint32 _ => TUint32
  | VInt32 _ => TInt32
  | VInt64 _ => TInt64
  | VUint64 _ => TUint64
  | VBoolean _ => TBoolean
  | VHandle _ => THandle
  | VStrings _ => TStrings
  | VDict _ => TVardict
  | VVariant _ => TVariant
  | VTuple l => TTuple (map type_of l)
  | VArray t _ => TArray t
  | VEntry k v => TEntry (type_of k) (type_of v)
  | VOther t _ => TOther t
  end.

(** A value that its constructor may represent. *)
Fixpoint well_formed (v : variant) : bool :=
  match v with
  | VDict l => forallb (λ e, well_formed e.2) l
  | VVariant v => well_formed v
  | VTuple l => forallb well_formed l
  | VArray t l =>
      negb (vtype_eqb t TString || vtype_eqb t (TEntry TString TVariant))
        && forallb (λ v, vtype_eqb (type_of v) t && well_formed v) l
  | VEntry k v => well_formed k && well_formed v
  | _ => true
  end.

(** [g_variant_is_of_type] for a type without wildcards. *)
Definition has_type (t : vtype) (v : variant) : bool :=
  vtype_eqb (type_of v) t && well_formed v.

(** [g_variant_lookup_value]: the first entry of the key, if its type fits. *)
Definition dict_first (entries : vardict) (key : text) : option variant :=
  snd <$> head (filter (λ e, e.1 = key) entries).

(** [GVariantDict]: a later entry replaces an earlier one of the same key; the
    order of the result is not specified. *)
Definition dict_insert (key : text) (value : variant) (d : vardict) : vardict :=
  filter (λ e, e.1 ≠ key) d ++ [(key, value)].

Definition dict_init (entries : vardict) : vardict :=
  foldl (λ d e, dict_insert e.1 e.2 d) [] entries.

Definition dict_remove (key : text) (d : vardict) : vardict :=
  filter (λ e, e.1 ≠ key) d.

Inductive gerror :=
  | INVALID_ARGUMENT | PERMISSION_DENIED | INVALID_DATA | NO_SPACE | FAILED
  | TIMED_OUT | FILENAME_TOO_LONG | INVALID_FILENAME | NOT_FOUND
  | ACCESS_DENIED | INVALID_ARGS | SERVICE_UNKNOWN | NOT_CONNECTED | NOT_SUPPORTED
  | EXISTS | UNKNOWN_METHOD | UNKNOWN_PROPERTY | NAME_HAS_NO_OWNER | NOT_AVAILABLE
  | FromErrno (errno : Z)        (** [g_io_error_from_errno] *)
  | Reported (name : text).      (** set by GLib or received as a reply *)

Class Desktop := {
  g_build_filename : list text → text;
  g_filename_to_uri : text → gerror + text;
  g_filename_from_uri : text → gerror + text;
  g_path_is_absolute : text → bool;
  g_uri_scheme : text → option text;                (** of a URI that parses *)
  cache_dir : text;                                 (** [g_get_user_cache_dir] *)
  (** [g_ascii_strtoull(s, &end, 10)]: the value, what [end] points to, and
      whether [errno] was set. *)
  g_ascii_strtoull : text → Z * text * bool;
  g_ascii_isspace : ascii → bool;
  (** The SHA-512 HMAC's digest for a key and the data it was fed. *)
  hmac_sha512 : text → text → option text;
  (** [GKeyFile] *)
  keyfile : Type;
  utf8_valid : text → bool;
  key_load : text → gerror + keyfile;
  key_groups : keyfile → list text;
  key_get : keyfile → text → text → option text;
  key_set : keyfile → text → text → text → keyfile;
  key_set_boolean : keyfile → text → text → bool → keyfile;
  key_remove : keyfile → text → text → keyfile;
  key_data : keyfile → gerror + text;
  (** The last element of a path is appended to what the others make. *)
  g_build_filename_last d : ∃ p, ∀ n, n ≠ [] → "/"%char ∉ n →
    g_build_filename [d; n] = p ++ n;
  (** A decimal number that fits is read whole; with a minus sign it is
      negated modulo [2^64] without an error. *)
  strtoull_number (spaces ds rest : text) (negative : bool) :
    Forall (λ c, c = " "%char ∨ c = "009"%char) spaces →
    ds ≠ [] → Forall (λ c, is_digit c = true) ds →
    take_while is_digit rest = [] → digits_value ds < 2 ^ 64 →
    g_ascii_strtoull (spaces ++ (if negative then ["-"%char] else []) ++ ds ++ rest) =
      (u64 (if negative then - digits_value ds else digits_value ds), rest, false);
  utf8_valid_app a b : utf8_valid a = true → utf8_valid b = true → utf8_valid (a ++ b) = true;
  utf8_valid_ascii a : Forall (λ c, code c < 128) a → utf8_valid a = true;
  key_get_valid k g n v : key_get k g n = Some v → utf8_valid v = true;
  key_get_set k g n v : utf8_valid v = true → key_get (key_set k g n v) g n = Some v;
  key_get_set_ne k g n v g' n' : (g, n) ≠ (g', n') →
    key_get (key_set k g n v) g' n' = key_get k g' n';
  key_groups_set k g n v : g ∈ key_groups k → key_groups (key_set k g n v) = key_groups k;
  key_get_remove k g n g' n' :
    key_get (key_remove k g n) g' n' =
      if decide ((g, n) = (g', n')) then None else key_get k g' n';
  key_get_boolean k g n b :
    key_get (key_set_boolean k g n b) g n = Some (str (if b then "true" else "false"));
  key_get_boolean_ne k g n b g' n' : (g, n) ≠ (g', n') →
    key_get (key_set_boolean k g n b) g' n' = key_get k g' n';
}.

