(* ===== verification/Host.v ===== *)
(** * What the host broker asks of its host ([native/spaces_broker.c])

    The broker's method handlers are programs of [Effects].  [Kernel] gives the
    answers to their system calls and D-Bus calls: each operation takes the
    time, a counter of the calls made so far. *)

From S2P Require Import Prelude.
From S2P Require Export Effects Desktop.

(** ** Data *)

(** The fields of [struct stat] the broker reads. *)
Record stat := Stat { st_dev : Z; st_ino : Z; st_mode : Z; st_size : Z }.

Inductive bus := SessionBus | SystemBus.

(** The descriptors sent with a call: none, those the guest sent with its own
    call, or a list the broker built. *)
Inductive fd_list := NoFds | GuestFds | OwnFds (descriptors : list Z).

Record dbus_call := DBusCall {
  c_bus : bus;
  c_destination : text;
  c_path : text;
  c_interface : text;
  c_method : text;
  c_parameters : list variant;
  c_fds : fd_list;
}.

Inductive event :=
  | EOpened (fd : Z)                       (** a new descriptor of the broker *)
  | EClosed (fd : Z)
  | EOpenat2 (dir : Z) (path : text) (flags resolve : Z) (r : Z + Z)
  | EOpen (path : text) (flags : Z) (r : Z + Z)
  | EFstat (fd : Z) (r : Z + stat)
  | EStat (path : text) (r : Z + stat)
  | EGetfl (fd : Z) (r : Z + Z)
  | EPread (fd offset : Z) (r : Z + text)
  | ERead (fd : Z) (r : Z + text)
  | EWrite (fd : Z) (data : text) (r : Z + nat)
  | ETruncated (fd : Z) (r : Z + unit)
  | EUnlink (path : text)
  | EHandle (handle : Z) (r : option gerror + Z)  (** a descriptor of the guest's message *)
  | EContents (path : text) (r : gerror + text)
  | ELink (path : text) (r : gerror + text)
  | EPrlimit (pid limit : Z) (r : Z + unit)
  | ECall (c : dbus_call) (r : gerror + list variant)
  | EResponses (signals : list (text * Z * list (text * variant)))
  | EReturn (values : list variant) (fds : list Z)   (** the guest's reply *)
  | EError (e : gerror).

(** The state of the host is the number of calls made so far: two equal calls
    may be answered differently. *)
Abbreviation world := (machine nat event).
Abbreviation outcome := (ending nat event).
Abbreviation M := (prog nat event).

(** ** Interfaces *)

(** [inl] is [-1] with [errno], or [NULL] with an error. *)
Class Kernel := {
  k_openat2 : nat → Z → text → Z → Z → Z + Z;
  k_open : nat → text → Z → Z + Z;
  k_close : nat → Z → Z + unit;
  k_fstat : nat → Z → Z + stat;
  k_stat : nat → text → Z + stat;
  k_getfl : nat → Z → Z + Z;
  k_pread : nat → Z → nat → Z → Z + text;
  k_read : nat → Z → nat → Z + text;
  k_write : nat → Z → text → Z + nat;
  k_lseek : nat → Z → Z + unit;
  k_ftruncate : nat → Z → Z + unit;
  k_memfd : nat → Z + Z;
  k_mkdir : nat → text → Z + unit;
  k_prlimit : nat → Z → Z → Z + unit;
  k_contents : nat → text → gerror + text;          (** [g_file_get_contents] *)
  k_readlink : nat → text → gerror + text;          (** [g_file_read_link] *)
  k_fd_list : nat → bool;                           (** the message has one *)
  (** [g_unix_fd_list_get] duplicates an entry; an index outside the list is
      a programming error, for which it returns [-1] and sets no error. *)
  k_fd_list_get : nat → Z → option gerror + Z;
  k_fd_list_append : nat → Z → option gerror;
  k_call : nat → dbus_call → gerror + list variant;
  k_responses : nat → list (text * Z * list (text * variant));
  k_uuid : nat → text;
  k_pread_size t fd size offset data : k_pread t fd size offset = inr data →
    (length data ≤ size)%nat;
  k_read_size t fd size data : k_read t fd size = inr data → (length data ≤ size)%nat;
  k_write_size t fd data n : k_write t fd data = inr n → (n ≤ length data)%nat;
}.

(** ** System calls *)

Section calls.
Context `{Kernel}.

Definition tick {A} (answer : nat → A) (events : A → list event) : M A := λ w,
  let x := answer w.(now) in
  Returned x (World (S w.(now)) (events x ++ w.(trace))).

(** A successful result is a descriptor that has to be closed. *)
Definition opened (e : Z + Z → event) (r : Z + Z) : list event :=
  match r with inr fd => [EOpened fd; e r] | inl _ => [e r] end.

Definition sys_openat2 (dir : Z) (path : text) (flags resolve : Z) : M (Z + Z) :=
  tick (λ t, k_openat2 t dir path flags resolve) (opened (EOpenat2 dir path flags resolve)).
Definition sys_open (path : text) (flags : Z) : M (Z + Z) :=
  tick (λ t, k_open t path flags) (opened (EOpen path flags)).
(** The descriptor is released even if [close] reports an error. *)
Definition sys_close (fd : Z) : M (Z + unit) :=
  tick (λ t, k_close t fd) (λ _, [EClosed fd]).
Definition sys_fstat (fd : Z) : M (Z + stat) :=
  tick (λ t, k_fstat t fd) (λ r, [EFstat fd r]).
Definition sys_stat (path : text) : M (Z + stat) :=
  tick (λ t, k_stat t path) (λ r, [EStat path r]).
Definition sys_getfl (fd : Z) : M (Z + Z) :=
  tick (λ t, k_getfl t fd) (λ r, [EGetfl fd r]).
Definition sys_pread (fd : Z) (size : nat) (offset : Z) : M (Z + text) :=
  tick (λ t, k_pread t fd size offset) (λ r, [EPread fd offset r]).
Definition sys_read (fd : Z) (size : nat) : M (Z + text) :=
  tick (λ t, k_read t fd size) (λ r, [ERead fd r]).
Definition sys_write (fd : Z) (data : text) : M (Z + nat) :=
  tick (λ t, k_write t fd data) (λ r, [EWrite fd data r]).
Definition sys_lseek (fd : Z) : M (Z + unit) := tick (λ t, k_lseek t fd) (λ _, []).
Definition sys_ftruncate (fd : Z) : M (Z + unit) :=
  tick (λ t, k_ftruncate t fd) (λ r, [ETruncated fd r]).
Definition sys_memfd : M (Z + Z) :=
  tick k_memfd (λ r, match r with inr fd => [EOpened fd] | inl _ => [] end).
Definition sys_mkdir (path : text) : M (Z + unit) := tick (λ t, k_mkdir t path) (λ _, []).
Definition sys_unlink (path : text) : M unit := tick (λ _, tt) (λ _, [EUnlink path]).
Definition sys_prlimit (pid limit : Z) : M (Z + unit) :=
  tick (λ t, k_prlimit t pid limit) (λ r, [EPrlimit pid limit r]).
Definition file_contents (path : text) : M (gerror + text) :=
  tick (λ t, k_contents t path) (λ r, [EContents path r]).
Definition file_read_link (path : text) : M (gerror + text) :=
  tick (λ t, k_readlink t path) (λ r, [ELink path r]).
Definition fd_list_present : M bool := tick k_fd_list (λ _, []).
Definition fd_list_get (handle : Z) : M (option gerror + Z) :=
  tick (λ t, k_fd_list_get t handle)
    (λ r, EHandle handle r :: match r with inr fd => [EOpened fd] | inl _ => [] end).
(** [g_unix_fd_list_append] duplicates the descriptor into the list, which
    owns the duplicate. *)
Definition fd_list_append (fd : Z) : M (option gerror) :=
  tick (λ t, k_fd_list_append t fd) (λ _, []).
Definition call_sync (c : dbus_call) : M (gerror + list variant) :=
  tick (λ t, k_call t c) (λ r, [ECall c r]).
(** The [Response] signals the nested main loop dispatches before it ends. *)
Definition run_loop : M (list (text * Z * list (text * variant))) :=
  tick k_responses (λ l, [EResponses l]).
Definition uuid : M text := tick k_uuid (λ _, []).
Definition return_value (values : list variant) (fds : list Z) : M unit :=
  tick (λ _, tt) (λ _, [EReturn values fds]).
Definition return_error (e : gerror) : M unit := tick (λ _, tt) (λ _, [EError e]).
(** Called with no error GLib complains and sends nothing: the guest's call
    stays unanswered. *)
Definition return_gerror (e : option gerror) : M unit :=
  match e with Some e => return_error e | None => mret tt end.
End calls.

(** ** Reasoning about runs *)

Lemma tick_returned {A} (answer : nat → A) events w x w' :
  tick answer events w = Returned x w' ↔
  x = answer w.(now) ∧ w' = World (S w.(now)) (events x ++ w.(trace)).
Proof. unfold tick. naive_solver. Qed.

Lemma returns_tick {A} (answer : nat → A) events : returns (tick answer events).
Proof. intros w. unfold tick. eauto. Qed.

Lemma emits_tick {A} P (answer : nat → A) events :
  (∀ x, Forall P (events x)) → emits P (tick answer events).
Proof. intros HP w x w' [-> ->]%tick_returned. eexists. by split. Qed.

(** Inverts one run into its calls and their answers. *)
Ltac run_inv :=
  repeat match goal with
  | H : (_ ≫= _) _ = Returned _ _ |- _ => apply M_bind_returned in H as (? & ? & ? & H)
  | H : mret _ _ = Returned _ _ |- _ => apply M_ret_returned in H as [? ?]; subst
  | H : tick _ _ _ = Returned _ _ |- _ => apply tick_returned in H as [? ?]; subst
  end.
