(* ===== verification/Requests.v ===== *)
(** * The host broker's requests to the portal ([native/spaces_broker.c])

    What the broker adds to, changes in and refuses of the portal requests a
    guest makes, as programs over the host of [Host]: the calls themselves, the
    staged copies of guest files, the secret derived for an application, and
    the handlers [PortalRequest], [DynamicLauncherCall] and [Screenshot]. *)

From S2P Require Import Prelude Glib Host Portal.

(** The fields of [struct Broker] the handlers use.  [identity] is the state
    of the registration when a handler asks for the destination. *)
Record mapping := Mapping { guest : text; descriptor : Z; metadata : stat }.

Record broker := Broker {
  mappings : list mapping;
  staged_files : list text;
  space_name : text;
  app_id : text;
  identity : portal;
}.

Definition PORTAL_NAME := str "org.freedesktop.portal.Desktop".
Definition PORTAL_PATH := str "/org/freedesktop/portal/desktop".
Definition SECRET_MAXIMUM : nat := Z.to_nat (64 * 1024).
Definition SECRET_SIZE : nat := 64.
Definition STAGED_FILE_MAXIMUM : Z := 32 * 1024 * 1024.

(** Pairs of nested blocks that end alike. *)
Definition close_if `{Kernel} (fd : option Z) : M unit :=
  match fd with Some fd => sys_close fd ≫= λ _, mret tt | None => mret tt end.
Definition unlink_if `{Kernel} (path : option text) : M unit :=
  match path with Some path => sys_unlink path | None => mret tt end.

Section portal.
Context `{Kernel}.

Definition new_token : M text :=
  token ← uuid;
  mret (map (λ c, if decide (c = "-"%char) then "_"%char else c) token).

(** ** Calls *)

(** A reply of another type than asked for is an error of the call. *)
Definition find_destination (b : broker) : M (gerror + text) :=
  reply ← call_sync (DBusCall SessionBus (str "org.freedesktop.DBus")
    (str "/org/freedesktop/DBus") (str "org.freedesktop.DBus") (str "GetNameOwner")
    [VString PORTAL_NAME] NoFds);
  let now := match reply with inr [VString owner] => Some owner | _ => None end in
  mret match portal_destination now b.(identity) with
       | Some owner => inr owner
       | None => inl SERVICE_UNKNOWN
       end.

Record response := Response {
  request_path : option text;
  received : option (Z * vardict);
}.

Definition response_signal (signal : text * Z * vardict) (r : response) : response :=
  let '(path, code, results) := signal in
  if match r.(request_path) with Some p => negb (text_eqb p path) | None => false end then r
  else Response r.(request_path) (Some (code, results)).

(** Sends a request and waits for its [Response], 120 seconds at most. *)
Definition request (c : dbus_call) : M (gerror + Z * vardict) :=
  reply ← call_sync c;
  match reply with
  | inl e => mret (inl e)
  | inr [VObject path] =>
      signals ← run_loop;
      let pending := foldl (λ r signal, response_signal signal r)
                       (Response (Some path) None) signals in
      mret match pending.(received) with
           | None => inl TIMED_OUT
           | Some result => inr result
           end
  | inr _ => mret (inl (Reported (str "the reply has another type")))
  end.

Definition call_host_portal (b : broker) (method : text) (fd : Z) (writable : bool)
    (activation_token : text) : M (gerror + Z) :=
  destination ← find_destination b;
  match destination with
  | inl e => mret (inl e)
  | inr destination =>
      appended ← fd_list_append fd;
      match appended with
      | Some e => mret (inl e)
      | None =>
          token ← new_token;
          let options :=
            [(str "handle_token", VString token)]
            ++ (if writable then [(str "writable", VBoolean true)] else [])
            ++ (match activation_token with
                | [] => []
                | _ => [(str "activation_token", VString activation_token)]
                end) in
          result ← request (DBusCall SessionBus destination PORTAL_PATH
            (str "org.freedesktop.portal.OpenURI") method
            [VString []; VHandle 0; VDict options] (OwnFds [fd]));
          mret match result with inl e => inl e | inr (response, _) => inr response end
      end
  end.

Definition screenshot_request (b : broker) (parent_window : text) (options : vardict) :
    M (gerror + Z * vardict) :=
  destination ← find_destination b;
  match destination with
  | inl e => mret (inl e)
  | inr destination =>
      token ← new_token;
      let updated := dict_insert (str "handle_token") (VString token) (dict_init options) in
      request (DBusCall SessionBus destination PORTAL_PATH
        (str "org.freedesktop.portal.Screenshot") (str "Screenshot")
        [VString parent_window; VDict updated] NoFds)
  end.

Definition wait_portal_request (b : broker) (interface method : text)
    (parameters : list variant) (fds : fd_list) : M (gerror + Z * vardict) :=
  destination ← find_destination b;
  match destination with
  | inl e => mret (inl e)
  | inr destination =>
      request (DBusCall SessionBus destination PORTAL_PATH interface method parameters fds)
  end.

(** ** Parameters *)

Definition broker_options (b : broker) (options : vardict) (background : bool) : M vardict :=
  token ← new_token;
  let dictionary := dict_insert (str "handle_token") (VString token) (dict_init options) in
  mret
    (if background then
       match dict_first options (str "commandline") with
       | Some (VStrings commandline) =>
           dict_insert (str "commandline")
             (VStrings ([str "/usr/bin/spaces"; str "enter"; str "--graphical";
                         b.(space_name); str "--"] ++ commandline)) dictionary
       | _ => dictionary
       end
     else dictionary).

Definition broker_launcher_id (b : broker) (desktop_id : text) : option text :=
  if bool_decide ("/"%char ∈ desktop_id) || negb (has_suffix desktop_id (str ".desktop"))
  then None
  else if has_prefix desktop_id b.(app_id)
          && bool_decide (desktop_id !! length b.(app_id) = Some "."%char)
  then Some desktop_id
  else Some (b.(app_id) ++ str "." ++ desktop_id).

Definition DESKTOP_GROUP := str "Desktop Entry".

Definition wrap_exec `{Desktop} (b : broker) (k : keyfile) (group : text) : keyfile :=
  if text_eqb group DESKTOP_GROUP || has_prefix group (str "Desktop Action ") then
    match key_get k group (str "Exec") with
    | Some command =>
        key_set k group (str "Exec")
          (str "/usr/bin/spaces enter --graphical " ++ b.(space_name) ++ str " -- " ++ command)
    | None => k
    end
  else k.

Definition broker_desktop_entry `{Desktop} (b : broker) (contents : text) : gerror + text :=
  if (1024 * 1024 <? Z.of_nat (length contents)) then inl INVALID_ARGS else
  match key_load contents with
  | inl e => inl e
  | inr k =>
      let k := foldl (wrap_exec b) k (key_groups k) in
      let k := key_remove k DESKTOP_GROUP (str "TryExec") in
      let k := key_remove k DESKTOP_GROUP (str "Path") in
      let k := key_set_boolean k DESKTOP_GROUP (str "DBusActivatable") false in
      key_data k
  end.

(** ** Descriptors and files *)

(** [inl None] is [-1] with no error set. *)
Definition invocation_fd (handle : Z) : M (option gerror + Z) :=
  present ← fd_list_present;
  if present : bool then fd_list_get handle else mret (inl (Some INVALID_ARGUMENT)).

(** The loops below retry after [EINTR]; their fuel bounds the iterations. *)
Fixpoint write_loop (fuel : nat) (output : Z) (data : text) : M (gerror + unit) :=
  match data, fuel with
  | [], _ => mret (inr tt)
  | _, O => out_of_fuel
  | _, S fuel =>
      written ← sys_write output data;
      match written with
      | inl e =>
          if decide (e = EINTR) then write_loop fuel output data
          else mret (inl (FromErrno e))
      | inr O => mret (inl FAILED)
      | inr n => write_loop fuel output (drop n data)
      end
  end.

Fixpoint copy_loop (fuel : nat) (source output total offset : Z) : M (gerror + unit) :=
  match fuel with
  | O => out_of_fuel
  | S fuel =>
      count ← sys_pread source (Z.to_nat (64 * 1024)) offset;
      match count with
      | inl e =>
          if decide (e = EINTR) then copy_loop fuel source output total offset
          else mret (inl (FromErrno e))
      | inr [] => mret (inr tt)
      | inr data =>
          let total := u64 (total + Z.of_nat (length data)) in
          if STAGED_FILE_MAXIMUM <? total then mret (inl NO_SPACE)
          else
            written ← write_loop fuel output data;
            match written with
            | inl e => mret (inl e)
            | inr _ => copy_loop fuel source output total (offset + Z.of_nat (length data))
            end
      end
  end.

Definition copy_staged_fd (fuel : nat) (source output : Z) : M (gerror + unit) :=
  metadata ← sys_fstat source;
  match metadata with
  | inl e => mret (inl (FromErrno e))
  | inr m =>
      if negb (S_ISREG m.(st_mode)) || (m.(st_size) <? 0)
         || (STAGED_FILE_MAXIMUM <? m.(st_size))
      then mret (inl INVALID_ARGUMENT)
      else copy_loop fuel source output 0 0
  end.

Definition write_all (fuel : nat) (descriptor : Z) (data : text) : M bool :=
  r ← write_loop fuel descriptor data;
  mret match r with inl _ => false | inr _ => true end.

Definition secure_clear (data : text) : text := replicate (length data) zero.

(** A new copy of a guest file under the cache directory: its path once it
    has one, and the outcome of the steps up to closing it. *)
Definition stage_copy `{Desktop} (fuel : nat) (source : Z) (kind : text) :
    M (option text * (gerror + unit)) :=
  let directory := g_build_filename [cache_dir; str "spaces"; kind] in
  made ← sys_mkdir directory;
  match made with
  | inl e => mret (None, inl (FromErrno e))
  | inr _ =>
      token ← new_token;
      let filename := g_build_filename [directory; token] in
      output ← sys_open filename (O_WRONLY + O_CREAT + O_EXCL + O_CLOEXEC);
      match output with
      | inl e => mret (Some filename, inl (FromErrno e))
      | inr output =>
          copied ← copy_staged_fd fuel source output;
          match copied with
          | inl e => sys_close output ≫= λ _, mret (Some filename, inl e)
          | inr _ =>
              closed ← sys_close output;
              mret (Some filename, match closed with
                                   | inl e => inl (FromErrno e)
                                   | inr _ => inr tt
                                   end)
          end
      end
  end.

Definition stage_wallpaper_fd `{Desktop} (fuel : nat) (handle : Z) :
    M (option gerror + Z * text) :=
  source ← invocation_fd handle;
  match source with
  | inl e => mret (inl e)
  | inr source =>
      let failed staged_path e :=
        sys_close source ≫= λ _, unlink_if staged_path ≫= λ _, mret (inl (Some e)) in
      copy ← stage_copy fuel source (str "wallpaper");
      match copy with
      | (staged_path, inl e) => failed staged_path e
      | (None, inr _) => failed None FAILED
      | (Some path, inr _) =>
          staged ← sys_open path (O_RDONLY + O_CLOEXEC + O_NOFOLLOW);
          match staged with
          | inl e => failed (Some path) (FromErrno e)
          | inr staged => sys_close source ≫= λ _, mret (inr (staged, path))
          end
      end
  end.

(** ** The application's secret *)

Definition secret_domain : text := str "org.anatase.spaces.portal-secret.v1" ++ [zero].

Definition secret_length (n : Z) : text :=
  map char [Z.shiftr n 24; Z.shiftr n 16; Z.shiftr n 8; n].

Definition secret_message (app_id : text) : text :=
  secret_domain ++ secret_length (Z.of_nat (length app_id)) ++ app_id.

(** Reads into [raw] from position [size] on. *)
Fixpoint secret_read (fuel : nat) (fd : Z) (raw : text) (size : nat) :
    M (option nat * text) :=
  if (size <? length raw)%nat then
    match fuel with
    | O => out_of_fuel
    | S fuel =>
        count ← sys_read fd (length raw - size);
        match count with
        | inl e =>
            if decide (e = EINTR) then secret_read fuel fd raw size else mret (None, raw)
        | inr [] => mret (Some size, raw)
        | inr data =>
            secret_read fuel fd
              (take size raw ++ data ++ drop (size + length data) raw) (size + length data)
        end
    end
  else mret (Some size, raw).

Fixpoint truncate_loop (fuel : nat) (fd : Z) : M unit :=
  match fuel with
  | O => out_of_fuel
  | S fuel =>
      r ← sys_ftruncate fd;
      match r with
      | inl e => if decide (e = EINTR) then truncate_loop fuel fd else mret tt
      | inr _ => mret tt
      end
  end.

(** [raw] and [derived] are the two buffers as the function finds them on
    its stack; they are returned as it leaves them. *)
Definition finish_app_secret `{Desktop} (fuel : nat) (app_id : text)
    (host_descriptor guest_descriptor : Z) (raw derived : text) :
    M (bool * (text * text)) :=
  let out success raw derived : M (bool * (text * text)) :=
    let raw := secure_clear raw in
    let derived := secure_clear derived in
    truncate_loop fuel host_descriptor ≫= λ _, mret (success, (raw, derived)) in
  if UINT_MAX <? Z.of_nat (length app_id) then out false raw derived else
  sought ← sys_lseek host_descriptor;
  match sought with
  | inl _ => out false raw derived
  | inr _ =>
      read ← secret_read fuel host_descriptor raw 0;
      match read with
      | (None, raw) => out false raw derived
      | (Some size, raw) =>
          if (size =? 0)%nat || (SECRET_MAXIMUM <? size)%nat then out false raw derived else
          match hmac_sha512 (take size raw) (secret_message app_id) with
          | None => out false raw derived
          | Some digest =>
              let derived := take SECRET_SIZE digest ++ drop (length digest) derived in
              if negb (length digest =? SECRET_SIZE)%nat then out false raw derived
              else
                success ← write_all fuel guest_descriptor derived;
                out success raw derived
          end
      end
  end.
End portal.
