(* ===== verification/RequestsInv.v ===== *)
(** * Staged copies and application secrets are exact

    The loops of [Requests]: what they transfer, that they end once the kernel
    stops interrupting them, and the two theorems about what leaves the
    broker: a staged file is the guest's file, whole and bounded, and a guest
    receives nothing of the host's secret but the digest made for it. *)

From S2P Require Import Prelude Glib Host Portal Requests.

(** ** What a trace transferred *)

Fixpoint bytes_read (tr : list event) : text :=
  match tr with
  | [] => []
  | EPread _ _ (inr data) :: tr | ERead _ (inr data) :: tr => bytes_read tr ++ data
  | _ :: tr => bytes_read tr
  end.

Fixpoint bytes_written (fd : Z) (tr : list event) : text :=
  match tr with
  | [] => []
  | EWrite fd' data (inr n) :: tr =>
      if decide (fd' = fd) then bytes_written fd tr ++ take n data else bytes_written fd tr
  | _ :: tr => bytes_written fd tr
  end.

(** Each [pread] of the source starts where the data so far ends. *)
Fixpoint contiguous (tr : list event) : Prop :=
  match tr with
  | [] => True
  | EPread _ offset _ :: tr => offset = Z.of_nat (length (bytes_read tr)) ∧ contiguous tr
  | _ :: tr => contiguous tr
  end.

(** The events of each loop. *)
Definition is_write (fd : Z) (e : event) : Prop := ∃ data r, e = EWrite fd data r.
Definition is_copy `{Kernel} (source output : Z) (e : event) : Prop :=
  (∃ offset r t size, e = EPread source offset r ∧ (0 < size)%nat ∧
    k_pread t source size offset = r) ∨
  is_write output e.

Lemma is_write_trace fd evs tr :
  Forall (is_write fd) evs →
  bytes_read (evs ++ tr) = bytes_read tr ∧ (contiguous tr → contiguous (evs ++ tr)).
Proof. induction 1 as [|e evs (? & ? & ->) _ [? ?]]; simpl; auto. Qed.

(** A calm kernel interrupts nothing from some time on. *)
Class Calm `{Kernel} (T : nat) : Prop := {
  calm_pread t fd size offset : (T ≤ t)%nat → k_pread t fd size offset ≠ inl EINTR;
  calm_read t fd size : (T ≤ t)%nat → k_read t fd size ≠ inl EINTR;
  calm_write t fd data : (T ≤ t)%nat → k_write t fd data ≠ inl EINTR;
  calm_truncate t fd : (T ≤ t)%nat → k_ftruncate t fd ≠ inl EINTR;
}.

(** Enough fuel for every loop: the interrupted calls, a buffer, and a file
    of the greatest size. *)
Definition enough (T fuel : nat) : Prop :=
  Z.of_nat T + STAGED_FILE_MAXIMUM + 64 * 1024 + 3 ≤ Z.of_nat fuel.

Section loops.
Context `{Kernel}.

(** ** Writing *)

Lemma write_loop_spec fuel output data w r w' :
  write_loop fuel output data w = Returned r w' →
  ∃ evs k, w'.(trace) = evs ++ w.(trace) ∧ Forall (is_write output) evs ∧
    (k ≤ length data)%nat ∧ (r = inr tt → k = length data) ∧
    bytes_written output w'.(trace) = bytes_written output w.(trace) ++ take k data.
Proof.
  revert data w. induction fuel as [|fuel IH]; intros data w.
  { destruct data; simpl; [|done]. intros [-> ->]%M_ret_returned.
    exists [], 0%nat. by rewrite app_nil_r. }
  destruct data as [|c data]; cbn [write_loop].
  { intros [-> ->]%M_ret_returned. exists [], 0%nat. by rewrite app_nil_r. }
  set (buffer := c :: data). intros (x & w1 & Hx & Hr)%M_bind_returned.
  apply tick_returned in Hx as [Hx ->]. symmetry in Hx.
  destruct x as [e|[|n]].
  - case_decide.
    + destruct (IH _ _ Hr) as (evs & k & Htr & Hevs & Hk & Hall & Hw). simpl in Htr, Hw.
      exists (evs ++ [EWrite output buffer (inl e)]), k.
      rewrite <- app_assoc. split_and!; try done.
      apply Forall_app. split; [done|]. repeat constructor. by do 2 eexists.
    + apply M_ret_returned in Hr as [-> ->].
      exists [EWrite output buffer (inl e)], 0%nat. simpl. rewrite app_nil_r.
      split_and!; try done; [|lia]. repeat constructor. by do 2 eexists.
  - apply M_ret_returned in Hr as [-> ->].
    exists [EWrite output buffer (inr 0%nat)], 0%nat. simpl. rewrite decide_True by done.
    split_and!; try done; [|lia]. repeat constructor. by do 2 eexists.
  - apply k_write_size in Hx.
    destruct (IH _ _ Hr) as (evs & k & Htr & Hevs & Hk & Hall & Hw).
    cbn [trace app] in Htr, Hw. cbn [bytes_written] in Hw.
    rewrite decide_True in Hw by done. rewrite length_drop in Hk, Hall.
    exists (evs ++ [EWrite output buffer (inr (S n))]), (S n + k)%nat.
    rewrite <- app_assoc. split_and!.
    + done.
    + apply Forall_app. split; [done|]. repeat constructor. by do 2 eexists.
    + lia.
    + intros Hd. apply Hall in Hd. lia.
    + rewrite Hw, <- app_assoc. f_equal.
      rewrite <- (take_drop (S n) buffer) at 3. rewrite take_app, length_take.
      replace (S n + k - S n `min` length buffer)%nat with k by lia.
      f_equal. rewrite take_take. f_equal. lia.
Qed.

Lemma write_loop_returns T fuel output data w :
  Calm T → (T - w.(now) + length data ≤ fuel)%nat →
  ∃ r w', write_loop fuel output data w = Returned r w'.
Proof.
  intros HT. revert data w. induction fuel as [|fuel IH]; intros data w Hfuel.
  { destruct data; simpl in *; [by do 2 eexists|lia]. }
  destruct data as [|c data]; cbn [write_loop]; [by do 2 eexists|].
  set (buffer := c :: data). assert (length buffer = S (length data)) as Hb by done.
  change (c :: data) with buffer in Hfuel.
  unfold mbind, M_bind, sys_write, tick.
  destruct (k_write w.(now) output buffer) as [e|[|n]] eqn:E; cbn [app].
  - case_decide as He; [|by do 2 eexists]. subst.
    apply IH. cbn [now].
    assert (¬ (T ≤ w.(now))%nat) by (intros Ht; by apply (calm_write _ output buffer Ht)).
    lia.
  - by do 2 eexists.
  - apply IH. cbn [now]. rewrite length_drop. lia.
Qed.

Lemma write_loop_now fuel output data w r w' :
  write_loop fuel output data w = Returned r w' → (w.(now) ≤ w'.(now))%nat.
Proof.
  revert data w. induction fuel as [|fuel IH]; intros data w; destruct data as [|c data];
    cbn [write_loop]; try done; try by intros [_ ->]%M_ret_returned.
  intros (x & w1 & [_ ->]%tick_returned & Hr)%M_bind_returned.
  destruct x as [e|[|n]]; [case_decide| |];
    try (apply M_ret_returned in Hr as [_ ->]; simpl; lia);
    apply IH in Hr; simpl in *; lia.
Qed.

(** ** Copying *)

Lemma copy_loop_spec fuel source output total w r w' :
  copy_loop fuel source output total total w = Returned r w' →
  bytes_written output w.(trace) = bytes_read w.(trace) →
  total = Z.of_nat (length (bytes_read w.(trace))) → total ≤ STAGED_FILE_MAXIMUM →
  contiguous w.(trace) →
  ∃ evs, w'.(trace) = evs ++ w.(trace) ∧ Forall (is_copy source output) evs ∧
    contiguous w'.(trace) ∧
    bytes_written output w'.(trace) `prefix_of` bytes_read w'.(trace) ∧
    Z.of_nat (length (bytes_written output w'.(trace))) ≤ STAGED_FILE_MAXIMUM ∧
    (r = inr tt →
      bytes_written output w'.(trace) = bytes_read w'.(trace) ∧
      EPread source (Z.of_nat (length (bytes_read w'.(trace)))) (inr []) ∈ w'.(trace)).
Proof.
  revert total w. induction fuel as [|fuel IH]; intros total w; [done|].
  cbn [copy_loop]. intros (x & w1 & Hx & Hr)%M_bind_returned Hwr Htotal Hmax Hcont.
  apply tick_returned in Hx as [Hx ->]. symmetry in Hx. cbn [trace app] in Hr.
  assert (is_copy source output (EPread source total x)) as Hev
    by (left; exists total, x, w.(now), (Z.to_nat (64 * 1024)); split_and!; [done|lia|done]).
  destruct x as [e|data].
  - assert (contiguous (EPread source total (inl e) :: w.(trace))) as Hcont' by (simpl; auto).
    case_decide.
    + destruct (IH _ _ Hr) as (evs & Htr & Hevs & Hrest); simpl; auto.
      exists (evs ++ [EPread source total (inl e)]). rewrite <- app_assoc.
      split_and!; try done; try apply Hrest.
      apply Forall_app. split; [done|by constructor].
    + apply M_ret_returned in Hr as [-> ->].
      exists [EPread source total (inl e)]. simpl in *. rewrite Hwr, <- Htotal.
      split_and!; try done. by constructor.
  - destruct data as [|c data].
    + apply M_ret_returned in Hr as [-> ->].
      exists [EPread source total (inr [])]. simpl. rewrite app_nil_r, Hwr, <- Htotal.
      split_and!; try done; [by constructor|]. intros _. split; [done|]. by left.
    + assert (length (c :: data) ≤ Z.to_nat (64 * 1024))%nat as Hlen.
      { eapply k_pread_size, Hx. }
      assert (contiguous (EPread source total (inr (c :: data)) :: w.(trace))) as Hcont'
        by (split; auto).
      set (buffer := c :: data) in *.
      assert (bytes_read (EPread source total (inr buffer) :: w.(trace)) =
              bytes_read w.(trace) ++ buffer) as Hread by done.
      unfold STAGED_FILE_MAXIMUM in *.
      assert (u64 (total + Z.of_nat (length buffer)) = total + Z.of_nat (length buffer)) as Hu.
      { apply Z.mod_small. split; [lia|]. change (2 ^ 64) with 18446744073709551616. lia. }
      rewrite Hu in Hr. case_match eqn:Hbig.
      * apply M_ret_returned in Hr as [-> ->].
        exists [EPread source total (inr buffer)]. cbn [trace app]. rewrite Hread.
        cbn [bytes_written]. rewrite Hwr, <- Htotal.
        split_and!; try done; [by constructor|]. by apply prefix_app_r.
      * apply Z.ltb_ge in Hbig. apply M_bind_returned in Hr as (y & w2 & Hy & Hr).
        destruct (write_loop_spec _ _ _ _ _ _ Hy) as (evs & k & Htr & Hevs & Hk & Hall & Hw).
        cbn [trace] in Htr, Hw. cbn [bytes_written] in Hw. rewrite Hwr in Hw.
        destruct (is_write_trace _ _ (EPread source total (inr buffer) :: w.(trace)) Hevs)
          as [Hread2 Hcont2]. rewrite <- Htr, Hread in Hread2.
        specialize (Hcont2 Hcont'). rewrite <- Htr in Hcont2.
        assert (Forall (is_copy source output) (evs ++ [EPread source total (inr buffer)])) as Hevs'.
        { apply Forall_app. split; [|by constructor].
          eapply Forall_impl; [exact Hevs|]. intros e' He. by right. }
        destruct y as [e|[]].
        -- apply M_ret_returned in Hr as [-> ->].
           exists (evs ++ [EPread source total (inr buffer)]).
           rewrite <- app_assoc. split_and!; try done.
           ++ rewrite Hw, Hread2. by apply prefix_app, prefix_take.
           ++ rewrite Hw, length_app, length_take. lia.
        -- rewrite (Hall eq_refl), take_ge in Hw by done.
           destruct (IH _ _ Hr) as (evs2 & Htr2 & Hevs2 & Hrest).
           { by rewrite Hw, Hread2. }
           { rewrite Hread2, length_app. lia. }
           { done. }
           { done. }
           exists (evs2 ++ evs ++ [EPread source total (inr buffer)]).
           rewrite Htr2, Htr, <- !app_assoc in *. split_and!; try done; try apply Hrest.
           apply Forall_app. by split.
Qed.

Lemma copy_loop_returns T fuel source output total offset w :
  Calm T → 0 ≤ total ≤ STAGED_FILE_MAXIMUM →
  Z.of_nat (T - w.(now)) + (STAGED_FILE_MAXIMUM - total) + 64 * 1024 + 2 ≤ Z.of_nat fuel →
  ∃ r w', copy_loop fuel source output total offset w = Returned r w'.
Proof.
  intros HT. revert total offset w. unfold STAGED_FILE_MAXIMUM.
  induction fuel as [|fuel IH]; intros total offset w Htotal Hfuel; [lia|].
  cbn [copy_loop]. unfold mbind at 1, M_bind at 1, sys_pread, tick.
  set (w1 := World _ _). assert (w1.(now) = S w.(now)) as Hw1 by done.
  destruct (k_pread w.(now) source (Z.to_nat (64 * 1024)) offset) as [e|[|c data]] eqn:E.
  - case_decide as He; [|by do 2 eexists]. subst e.
    apply IH; [done|]. rewrite Hw1.
    assert (¬ (T ≤ w.(now))%nat) by
      (intros Ht; by apply (calm_pread _ source (Z.to_nat (64 * 1024)) offset Ht)).
    lia.
  - by do 2 eexists.
  - apply k_pread_size in E. set (buffer := c :: data) in *.
    assert (0 < length buffer)%nat by (simpl; lia).
    assert (u64 (total + Z.of_nat (length buffer)) = total + Z.of_nat (length buffer)) as Hu.
    { apply Z.mod_small. change (2 ^ 64) with 18446744073709551616. lia. }
    rewrite Hu. unfold STAGED_FILE_MAXIMUM. case_match eqn:Hbig; [by do 2 eexists|].
    apply Z.ltb_ge in Hbig.
    destruct (write_loop_returns T fuel output buffer w1 HT) as (r & w2 & Hr); [lia|].
    unfold mbind, M_bind. rewrite Hr. destruct r as [e|[]]; [by do 2 eexists|].
    apply IH; [lia|].
    apply write_loop_now in Hr. lia.
Qed.

Lemma copy_staged_returns T fuel source output :
  Calm T → enough T fuel → returns (copy_staged_fd fuel source output).
Proof.
  intros HT Hfuel. apply returns_bind; [apply returns_tick|].
  intros [e|m]; [apply returns_ret|]. case_match; [apply returns_ret|].
  intros w. apply (copy_loop_returns T); [done|by unfold STAGED_FILE_MAXIMUM|].
  unfold enough in Hfuel. lia.
Qed.

Lemma truncate_loop_returns T fuel fd w :
  Calm T → (T - w.(now) < fuel)%nat →
  ∃ r w', truncate_loop fuel fd w = Returned r w'.
Proof.
  intros HT. revert w. induction fuel as [|fuel IH]; intros w Hfuel; [lia|].
  cbn [truncate_loop]. unfold mbind, M_bind, sys_ftruncate, tick.
  destruct (k_ftruncate w.(now) fd) as [e|] eqn:E; [|by do 2 eexists].
  case_decide as He; [|by do 2 eexists]. subst e. apply IH. cbn [now].
  assert (¬ (T ≤ w.(now))%nat) by (intros Ht; by apply (calm_truncate _ fd Ht)). lia.
Qed.

(** ** The secret's buffers *)

Lemma length_overwrite (raw data : text) (size : nat) :
  (size + length data ≤ length raw)%nat →
  length (take size raw ++ data ++ drop (size + length data) raw) = length raw.
Proof. intros. rewrite !length_app, length_take, length_drop. lia. Qed.

Lemma secret_read_spec fuel fd raw size w r raw' w' :
  secret_read fuel fd raw size w = Returned (r, raw') w' →
  (size ≤ length raw)%nat → take size raw = bytes_read w.(trace) →
  ∃ evs, w'.(trace) = evs ++ w.(trace) ∧
    Forall (λ e, ∃ x, e = ERead fd x) evs ∧
    length raw' = length raw ∧
    ∀ n, r = Some n → (n ≤ length raw)%nat ∧ take n raw' = bytes_read w'.(trace).
Proof.
  revert raw size w. induction fuel as [|fuel IH]; intros raw size w; cbn [secret_read].
  { case_match; [done|]. intros [[= -> ->] ->]%M_ret_returned Hs Ht.
    exists []. split_and!; try done. intros n [= ->]. done. }
  case_match eqn:Hlt; cycle 1.
  { intros [[= -> ->] ->]%M_ret_returned Hs Ht.
    exists []. split_and!; try done. intros n [= ->]. done. }
  apply Nat.ltb_lt in Hlt.
  intros (x & w1 & Hx & Hr)%M_bind_returned Hs Ht. apply tick_returned in Hx as [Hx ->].
  symmetry in Hx. destruct x as [e|[|c data]].
  - case_decide.
    + destruct (IH _ _ _ Hr) as (evs & Htr & Hevs & Hrest); try done.
      exists (evs ++ [ERead fd (inl e)]). rewrite <- app_assoc. split_and!; try done;
        try apply Hrest.
      apply Forall_app. split; [done|]. repeat constructor. eauto.
    + apply M_ret_returned in Hr as [[= -> ->] ->].
      exists [ERead fd (inl e)]. split_and!; try done. repeat constructor. eauto.
  - apply M_ret_returned in Hr as [[= -> ->] ->].
    exists [ERead fd (inr [])]. split_and!; try done; [repeat constructor; eauto|].
    intros n [= ->]. simpl. by rewrite app_nil_r.
  - apply k_read_size in Hx. set (buffer := c :: data) in *.
    pose proof (length_overwrite raw buffer size ltac:(lia)) as Hlen.
    destruct (IH _ _ _ Hr) as (evs & Htr & Hevs & Hl & Hrest).
    { rewrite Hlen. lia. }
    { cbn [trace app]. change (bytes_read (ERead fd (inr buffer) :: w.(trace)))
        with (bytes_read w.(trace) ++ buffer).
      rewrite <- Ht, app_assoc, take_app_le
        by (rewrite length_app, length_take; lia).
      rewrite take_ge by (rewrite length_app, length_take; lia). done. }
    exists (evs ++ [ERead fd (inr buffer)]). rewrite <- app_assoc. rewrite Hlen in *.
    split_and!; try done. apply Forall_app. split; [done|]. repeat constructor. eauto.
Qed.

Lemma secret_read_returns T fuel fd raw size w :
  Calm T → (size ≤ length raw)%nat → (T - w.(now) + (length raw - size) < fuel)%nat →
  ∃ r w', secret_read fuel fd raw size w = Returned r w'.
Proof.
  intros HT. revert raw size w. induction fuel as [|fuel IH]; intros raw size w Hs Hf; [lia|].
  cbn [secret_read]. case_match eqn:Hlt; [|by do 2 eexists]. apply Nat.ltb_lt in Hlt.
  unfold mbind, M_bind, sys_read, tick.
  destruct (k_read w.(now) fd (length raw - size)) as [e|[|c data]] eqn:E.
  - case_decide as He; [|by do 2 eexists]. subst e. apply IH; [done|]. cbn [now].
    assert (¬ (T ≤ w.(now))%nat) by
      (intros Ht; by apply (calm_read _ fd (length raw - size) Ht)). lia.
  - by do 2 eexists.
  - apply k_read_size in E. set (buffer := c :: data) in *.
    assert (0 < length buffer)%nat by (simpl; lia).
    apply IH; rewrite length_overwrite by lia; [lia|]. cbn [now]. lia.
Qed.

Lemma truncate_loop_spec fuel fd w w' :
  truncate_loop fuel fd w = Returned tt w' →
  ∃ evs x, w'.(trace) = ETruncated fd x :: evs ++ w.(trace) ∧ x ≠ inl EINTR ∧
    Forall (λ e, e = ETruncated fd (inl EINTR)) evs.
Proof.
  revert w. induction fuel as [|fuel IH]; intros w; [done|]. cbn [truncate_loop].
  intros (x & w1 & [Hx ->]%tick_returned & Hr)%M_bind_returned.
  destruct x as [e|[]]; [case_decide|].
  - destruct (IH _ Hr) as (evs & x & Htr & Hne & Hevs). subst e.
    exists (evs ++ [ETruncated fd (inl EINTR)]), x.
    rewrite Htr, <- app_assoc. split_and!; try done.
    apply Forall_app. split; [done|]. by constructor.
  - apply M_ret_returned in Hr as [_ ->]. exists [], (inl e). split_and!; try done. congruence.
  - apply M_ret_returned in Hr as [_ ->]. by exists [], (inr ()).
Qed.
End loops.

(** ** A staged copy *)

(** The file behind a descriptor does not change while it is read. *)
Definition unchanged `{Kernel} (source : Z) (file : text) : Prop :=
  ∀ t size offset data, (0 < size)%nat → k_pread t source size offset = inr data →
    data `prefix_of` drop (Z.to_nat offset) file ∧
    (data = [] → Z.of_nat (length file) ≤ offset).

Lemma bytes_read_unchanged `{Kernel} source output file tr :
  unchanged source file → Forall (is_copy source output) tr → contiguous tr →
  bytes_read tr `prefix_of` file.
Proof.
  intros Hfile. induction 1 as [|e tr He _ IH]; [intros _; apply prefix_nil|].
  destruct He as [(offset & r & t & size & -> & Hs & Hk)|(data & r & ->)]; simpl; [|done].
  intros [-> Hcont]. specialize (IH Hcont). destruct r as [e|data]; [done|].
  destruct (Hfile _ _ _ _ Hs Hk) as [[rest Hrest] _]. rewrite Nat2Z.id in Hrest.
  destruct IH as [rest' ->]. rewrite drop_app_length in Hrest. subst rest'.
  rewrite app_assoc. by apply prefix_app_r.
Qed.

(** [copy_staged_fd] copies exactly.  Whatever the kernel does, what was
    written to the output is a prefix of what was read of the source, read in
    order and without gaps, and never more than 32 MiB.  If it succeeds, the
    source was a regular file within that size, it was read to its end, and
    everything read was written; so if the file did not change meanwhile, the
    copy is the file. *)
Theorem copy_staged_exact `{Kernel} (fuel : nat) (source output : Z) (t : nat)
    (r : gerror + unit) (w' : world) :
  copy_staged_fd fuel source output (World t []) = Returned r w' →
  let read := bytes_read w'.(trace) in
  let written := bytes_written output w'.(trace) in
  contiguous w'.(trace) ∧ written `prefix_of` read ∧
  Z.of_nat (length written) ≤ STAGED_FILE_MAXIMUM ∧
  (r = inr tt →
    written = read ∧
    (∃ m, EFstat source (inr m) ∈ w'.(trace) ∧ S_ISREG m.(st_mode) = true ∧
      0 ≤ m.(st_size) ≤ STAGED_FILE_MAXIMUM) ∧
    EPread source (Z.of_nat (length read)) (inr []) ∈ w'.(trace) ∧
    ∀ file, unchanged source file → written = file).
Proof.
  unfold copy_staged_fd. intros (x & w1 & [_ ->]%tick_returned & Hr)%M_bind_returned.
  cbv zeta. destruct x as [e|m].
  { apply M_ret_returned in Hr as [-> ->]. simpl. split_and!; try done. }
  case_match eqn:Hm.
  { apply M_ret_returned in Hr as [-> ->]. simpl. split_and!; try done. }
  apply orb_false_iff in Hm as [[Hreg%negb_false_iff Hpos%Z.ltb_ge]%orb_false_iff Hmax%Z.ltb_ge].
  destruct (copy_loop_spec _ _ _ _ _ _ _ Hr)
    as (evs & Htr & Hevs & Hcont & Hpre & Hlen & Hok); simpl; try done.
  split_and!; [done..|]. intros Hr'. destruct (Hok Hr') as [Heq Hend]. split_and!; [done| | |].
  - exists m. rewrite Htr. split_and!; try done. apply elem_of_app. right. simpl. by left.
  - done.
  - intros file Hfile. rewrite Heq.
    assert (bytes_read (trace w') = bytes_read evs ∧ contiguous evs ∧
            (∀ p, p ∈ evs ∨ p ∈ [EFstat source (inr m)] ↔ p ∈ w'.(trace))) as (Hb & Hc & Hin).
    { rewrite Htr in *. cbn [trace app] in *. split_and!.
      - clear -H. induction evs as [|[] evs IH]; simpl; rewrite ?IH; done.
      - clear -Hcont. induction evs as [|[] evs IH]; simpl in *; try (by apply IH); try done.
        destruct Hcont as [-> Hcont]. split; [|by apply IH].
        f_equal. f_equal. clear. induction evs as [|[] evs IH]; simpl; rewrite ?IH; done.
      - intros p. rewrite elem_of_app. done. }
    rewrite Hb. destruct (bytes_read_unchanged _ _ _ _ Hfile Hevs Hc) as [rest Hrest].
    apply Hin in Hend as [Hend|Hend]; [|by apply list_elem_of_singleton in Hend].
    rewrite Hb in Hend.
    rewrite Forall_forall in Hevs. destruct (Hevs _ Hend) as [(o & q & t' & size & He & Hs & Hk)|(? & ? & ?)];
      [|done]. injection He as <- <-.
    destruct (Hfile _ _ _ _ Hs Hk) as [_ Hle]. specialize (Hle eq_refl).
    rewrite Hrest, length_app in Hle. destruct rest; [by rewrite app_nil_r in Hrest|].
    simpl in Hle. lia.
Qed.

(** ** The application's secret *)

Lemma secret_clear_zero (data : text) : secure_clear data = replicate (length data) zero.
Proof. done. Qed.

Lemma secret_length_inj m n :
  0 ≤ m < 2 ^ 32 → 0 ≤ n < 2 ^ 32 → secret_length m = secret_length n → m = n.
Proof.
  intros Hm Hn [= H1 H2 H3 H4].
  assert (∀ z k, char (Z.shiftr z k) = char (Z.shiftr z k)) as _ by done.
  apply (f_equal code) in H1, H2, H3, H4. rewrite !code_char in *.
  rewrite !Z.shiftr_div_pow2 in * by lia.
  change (2 ^ 24) with 16777216 in *. change (2 ^ 16) with 65536 in *.
  change (2 ^ 8) with 256 in *. change (2 ^ 32) with 4294967296 in *.
  pose proof (Z.div_mod m 256 ltac:(lia)). pose proof (Z.div_mod n 256 ltac:(lia)).
  pose proof (Z.div_mod (m / 256) 256 ltac:(lia)). pose proof (Z.div_mod (n / 256) 256 ltac:(lia)).
  pose proof (Z.div_mod (m / 65536) 256 ltac:(lia)).
  pose proof (Z.div_mod (n / 65536) 256 ltac:(lia)).
  rewrite !Z.div_div in * by lia. change (256 * 256) with 65536 in *.
  change (65536 * 256) with 16777216 in *.
  rewrite !(Z.mod_small (_ / 16777216)) in * by
    (split; [apply Z.div_pos; lia|apply Z.div_lt_upper_bound; lia]).
  lia.
Qed.

Lemma secret_message_inj a b :
  Z.of_nat (length a) < 2 ^ 32 → Z.of_nat (length b) < 2 ^ 32 →
  secret_message a = secret_message b → a = b.
Proof.
  intros Ha Hb [_ H]%app_inj_1; [|done]. apply app_inj_1 in H as [_ ?]; done.
Qed.

Lemma truncated_trace fd fd' evs tr :
  Forall (λ e, e = ETruncated fd (inl EINTR)) evs →
  bytes_read (evs ++ tr) = bytes_read tr ∧
  bytes_written fd' (evs ++ tr) = bytes_written fd' tr.
Proof. induction 1 as [|e evs -> _ [IH1 IH2]]; simpl; auto. Qed.

Lemma is_write_other fd fd' evs tr :
  fd' ≠ fd → Forall (is_write fd) evs → bytes_written fd' (evs ++ tr) = bytes_written fd' tr.
Proof.
  intros Hne. induction 1 as [|e evs (data & [|] & ->) _ IH]; simpl; [done..|].
  by rewrite decide_False.
Qed.

Lemma is_read_trace fd fd' evs tr :
  Forall (λ e, ∃ x, e = ERead fd x) evs →
  bytes_written fd' (evs ++ tr) = bytes_written fd' tr.
Proof. induction 1 as [|e evs [x ->] _ IH]; simpl; auto. Qed.

(** How [finish_app_secret] ends on every path. *)
Lemma secret_out `{Kernel} fuel host (success : bool) raw derived w ok raw' derived' w' :
  length raw = S SECRET_MAXIMUM → length derived = SECRET_SIZE →
  (truncate_loop fuel host ≫= λ _,
    (mret (success, (secure_clear raw, secure_clear derived)) : M (bool * (text * text)))) w =
    Returned (ok, (raw', derived')) w' →
  ok = success ∧
  (raw' = replicate (S SECRET_MAXIMUM) zero ∧ derived' = replicate SECRET_SIZE zero ∧
   ∃ x tr, w'.(trace) = ETruncated host x :: tr ∧ x ≠ inl EINTR) ∧
  bytes_read w'.(trace) = bytes_read w.(trace) ∧
  ∀ fd, bytes_written fd w'.(trace) = bytes_written fd w.(trace).
Proof.
  intros Hr Hd ([] & w1 & Ht & Hx)%M_bind_returned.
  apply M_ret_returned in Hx as [[= -> -> ->] ->].
  destruct (truncate_loop_spec _ _ _ _ Ht) as (evs & x & Htr & Hne & Hevs).
  unfold secure_clear. rewrite Hr, Hd, Htr. split_and!; eauto.
  - by apply (truncated_trace host 0).
  - intros fd. by apply (truncated_trace host).
Qed.

(** The two ways to end, besides the clean-up: nothing was written, or a
    beginning of the digest. *)
Definition secret_sent `{Desktop} (app_id : text) (guest : Z) (ok : bool) (tr : list event) : Prop :=
  (∀ fd, fd ≠ guest → bytes_written fd tr = []) ∧
  (ok = false ∧ bytes_written guest tr = [] ∨
   (0 < length (bytes_read tr) ≤ SECRET_MAXIMUM)%nat ∧
   ∃ digest, hmac_sha512 (bytes_read tr) (secret_message app_id) = Some digest ∧
    length digest = SECRET_SIZE ∧ bytes_written guest tr `prefix_of` digest ∧
    (ok = true → bytes_written guest tr = digest)).

Definition secret_cleared (host : Z) (raw derived : text) (tr : list event) : Prop :=
  raw = replicate (S SECRET_MAXIMUM) zero ∧ derived = replicate SECRET_SIZE zero ∧
  ∃ x rest, tr = ETruncated host x :: rest ∧ x ≠ inl EINTR.

Lemma secret_failed `{Kernel, Desktop} fuel app_id host guest raw derived w ok raw' derived' w' :
  length raw = S SECRET_MAXIMUM → length derived = SECRET_SIZE →
  (∀ fd, bytes_written fd w.(trace) = []) →
  (truncate_loop fuel host ≫= λ _,
    (mret (false, (secure_clear raw, secure_clear derived)) : M (bool * (text * text)))) w =
    Returned (ok, (raw', derived')) w' →
  secret_cleared host raw' derived' w'.(trace) ∧ secret_sent app_id guest ok w'.(trace).
Proof.
  intros Hr Hd Hw Hx.
  destruct (secret_out _ _ _ _ _ _ _ _ _ _ Hr Hd Hx) as (-> & ? & _ & Hw').
  split; [done|]. split; [intros fd _; by rewrite Hw'|]. left. by rewrite Hw'.
Qed.

(** The last steps, once the key and the digest are known. *)
Lemma secret_written `{Kernel, Desktop} fuel app_id host guest raw digest w ok raw' derived' w' :
  length raw = S SECRET_MAXIMUM → length digest = SECRET_SIZE →
  (∀ fd, bytes_written fd w.(trace) = []) →
  (0 < length (bytes_read w.(trace)) ≤ SECRET_MAXIMUM)%nat →
  hmac_sha512 (bytes_read w.(trace)) (secret_message app_id) = Some digest →
  (write_all fuel guest digest ≫= λ success, truncate_loop fuel host ≫= λ _,
    (mret (success, (secure_clear raw, secure_clear digest)) : M (bool * (text * text)))) w =
    Returned (ok, (raw', derived')) w' →
  secret_cleared host raw' derived' w'.(trace) ∧ secret_sent app_id guest ok w'.(trace).
Proof.
  intros Hr Hd Hw Hkey Hmac (success & w3 & Hwrite & Hrun)%M_bind_returned.
  apply M_bind_returned in Hwrite as (y & w3' & Hwrite & Hs).
  apply M_ret_returned in Hs as [Hs ->].
  destruct (write_loop_spec _ _ _ _ _ _ Hwrite) as (wevs & k & Htr3 & Hwevs & Hk & Hall & Hwr).
  rewrite Hw in Hwr. apply secret_out in Hrun as (-> & Hend & Hread' & Hwr'); [|done..].
  split; [done|]. split.
  { intros fd Hne. rewrite Hwr', Htr3, (is_write_other guest) by done. apply Hw. }
  right. rewrite Hread', Hwr', Hwr, Htr3.
  destruct (is_write_trace guest wevs w.(trace) Hwevs) as [-> _]. split; [done|].
  exists digest. split_and!; try done; [by apply prefix_take|].
  intros ->. destruct y as [|[]]; [done|]. by rewrite (Hall eq_refl), take_ge.
Qed.

Lemma finish_app_secret_sent `{Kernel, Desktop} fuel app_id host guest raw derived t
    ok raw' derived' w' :
  length raw = S SECRET_MAXIMUM → length derived = SECRET_SIZE →
  finish_app_secret fuel app_id host guest raw derived (World t []) =
    Returned (ok, (raw', derived')) w' →
  secret_cleared host raw' derived' w'.(trace) ∧ secret_sent app_id guest ok w'.(trace).
Proof.
  intros Hraw Hderived Hrun. unfold finish_app_secret in Hrun.
  case_match; [by eapply secret_failed; [| | |exact Hrun]|].
  apply M_bind_returned in Hrun as (x & w1 & [_ ->]%tick_returned & Hrun).
  cbn [trace app] in Hrun.
  destruct x as [e|[]]; [by eapply secret_failed; [| | |exact Hrun]|].
  apply M_bind_returned in Hrun as ([size raw2] & w2 & Hread & Hrun).
  destruct (secret_read_spec _ _ _ _ _ _ _ _ Hread) as (evs & Htr & Hevs & Hlen & Hsize);
    [lia|done|].
  cbn [trace app] in Htr. rewrite app_nil_r in Htr. rewrite Hraw in Hlen.
  assert (∀ fd, bytes_written fd w2.(trace) = []) as Hw2.
  { intros fd. rewrite Htr, <- (app_nil_r evs). by apply (is_read_trace host). }
  destruct size as [size|]; [|by eapply secret_failed; [| | |exact Hrun]].
  destruct (Hsize size eq_refl) as [Hle Hkey].
  case_match eqn:Hbound; [by eapply secret_failed; [| | |exact Hrun]|].
  apply orb_false_iff in Hbound as [Hzero%Nat.eqb_neq Hbig%Nat.ltb_ge]. rewrite Hkey in Hrun.
  destruct (hmac_sha512 _ _) as [digest|] eqn:Hmac; [|by eapply secret_failed; [| | |exact Hrun]].
  set (derived2 := take SECRET_SIZE digest ++ drop (length digest) derived) in *.
  assert (length derived2 = SECRET_SIZE) as Hd2.
  { unfold derived2. rewrite length_app, length_take, length_drop. lia. }
  destruct (length digest =? SECRET_SIZE)%nat eqn:Hdig; cbn [negb] in Hrun;
    [|by eapply secret_failed; [| | |exact Hrun]].
  apply Nat.eqb_eq in Hdig.
  assert (derived2 = digest) as Heq.
  { unfold derived2. rewrite take_ge, drop_ge by lia. apply app_nil_r. }
  rewrite Heq in Hrun. eapply secret_written in Hrun; try done.
  rewrite <- Hkey, length_take. lia.
Qed.

(** C28: The guest's descriptor receives nothing but the HMAC made for its
    application, under a key of 1 to 65536 bytes that is what the host portal
    stored, and success means that all 64 bytes were written; nothing is
    written anywhere else.  However the function ends, both buffers are zeros
    and truncating the host's file was the last thing done and was not
    interrupted.  Different application ids are different messages. *)
Theorem app_secret_derived `{Kernel, Desktop} (fuel : nat) (app_id : text)
    (host guest : Z) (raw derived : text) (t : nat) (ok : bool) (raw' derived' : text)
    (w' : world) :
  length raw = S SECRET_MAXIMUM → length derived = SECRET_SIZE →
  finish_app_secret fuel app_id host guest raw derived (World t []) =
    Returned (ok, (raw', derived')) w' →
  (raw' = replicate (S SECRET_MAXIMUM) zero ∧ derived' = replicate SECRET_SIZE zero ∧
   ∃ x tr, w'.(trace) = ETruncated host x :: tr ∧ x ≠ inl EINTR) ∧
  (∀ fd, fd ≠ guest → bytes_written fd w'.(trace) = []) ∧
  let key := bytes_read w'.(trace) in
  let sent := bytes_written guest w'.(trace) in
  (sent ≠ [] → (0 < length key ≤ SECRET_MAXIMUM)%nat ∧
    ∃ digest, hmac_sha512 key (secret_message app_id) = Some digest ∧
      length digest = SECRET_SIZE ∧ sent `prefix_of` digest) ∧
  (ok = true → hmac_sha512 key (secret_message app_id) = Some sent ∧
    length sent = SECRET_SIZE) ∧
  ∀ other, Z.of_nat (length app_id) < 2 ^ 32 → Z.of_nat (length other) < 2 ^ 32 →
    secret_message app_id = secret_message other → app_id = other.
Proof.
  intros Hraw Hderived Hrun.
  destruct (finish_app_secret_sent _ _ _ _ _ _ _ _ _ _ _ Hraw Hderived Hrun)
    as [Hclear [Hother Hcase]].
  split; [done|]. split; [done|]. cbv zeta.
  split; [|split; [|intros other ? ?; by apply secret_message_inj]].
  - intros Hsent. destruct Hcase as [[_ Hn]|(? & digest & ? & ? & ? & ?)]; [done|].
    split; [done|]. by exists digest.
  - intros ->. destruct Hcase as [[? _]|(? & digest & ? & ? & ? & Hall)]; [done|].
    by rewrite Hall.
Qed.
