(* ===== verification/Sample.v ===== *)
(** * A small host for the examples

    One implementation of [Desktop] and one of [Kernel], on which the
    broker's handlers can be run.  They show that the laws can hold and that
    the theorems' hypotheses do; nothing else depends on them. *)

From S2P Require Import Prelude Glib Host Requests RequestsInv.

(** ** GLib *)

Definition is_blank (c : ascii) : bool :=
  bool_decide (c = " "%char) || bool_decide (c = "009"%char).

Definition sample_strtoull (s : text) : Z * text * bool :=
  let digits := skip_while is_blank s in
  let '(negative, digits) :=
    match digits with
    | c :: rest => if bool_decide (c = "-"%char) then (true, rest) else (false, digits)
    | [] => (false, digits)
    end in
  match take_while is_digit digits with
  | [] => (0, s, false)
  | ds =>
      let v := digits_value ds in
      (u64 (if negative : bool then - v else v), drop (length ds) digits, negb (v <? 2 ^ 64))
  end.

Lemma take_while_run p (ds rest : text) :
  Forall (λ c, p c = true) ds → take_while p rest = [] → take_while p (ds ++ rest) = ds.
Proof. induction 1 as [|c ds Hc _ IH]; intros Hr; simpl; [done|]. by rewrite Hc, IH. Qed.

Lemma skip_while_run p (sp rest : text) :
  Forall (λ c, p c = true) sp → skip_while p rest = rest → skip_while p (sp ++ rest) = rest.
Proof. induction 1 as [|c sp Hc _ IH]; intros Hr; simpl; [done|]. by rewrite Hc, IH. Qed.

Lemma sample_strtoull_number (spaces ds rest : text) (negative : bool) :
  Forall (λ c, c = " "%char ∨ c = "009"%char) spaces →
  ds ≠ [] → Forall (λ c, is_digit c = true) ds →
  take_while is_digit rest = [] → digits_value ds < 2 ^ 64 →
  sample_strtoull (spaces ++ (if negative then ["-"%char] else []) ++ ds ++ rest) =
    (u64 (if negative then - digits_value ds else digits_value ds), rest, false).
Proof.
  intros Hsp Hds Hdig Hrest Hmax. unfold sample_strtoull.
  destruct ds as [|d ds]; [done|]. set (number := d :: ds) in *.
  assert (is_blank d = false ∧ bool_decide (d = "-"%char) = false) as [Hb Hm].
  { apply Forall_cons in Hdig as [Hd _].
    split; [unfold is_blank; rewrite !bool_decide_false; try done|apply bool_decide_false];
      intros ->; by vm_compute in Hd. }
  rewrite skip_while_run; [| |destruct negative; simpl; [done|by rewrite Hb]].
  2:{ eapply Forall_impl; [exact Hsp|]. intros c [-> | ->]; done. }
  destruct negative; cbn [app].
  - rewrite bool_decide_true by done. rewrite take_while_run by done.
    cbn [number]. rewrite drop_app_length. subst number. cbn iota beta.
    by rewrite (proj2 (Z.ltb_lt _ _) Hmax).
  - change (number ++ rest) with (d :: (ds ++ rest)) at 1. cbv iota. rewrite Hm.
    rewrite take_while_run by done. subst number. cbn iota beta.
    rewrite drop_app_length. by rewrite (proj2 (Z.ltb_lt _ _) Hmax).
Qed.

Record key_table := KeyTable { groups : list text; keys : gmap (text * text) text }.

Definition load_line (st : text * key_table) (line : text) : text * key_table :=
  let '(group, k) := st in
  match line with
  | "["%char :: rest =>
      let group := take_while (λ c, negb (bool_decide (c = "]"%char))) rest in
      (group, KeyTable (k.(groups) ++ [group]) k.(keys))
  | _ =>
      let name := take_while (λ c, negb (bool_decide (c = "="%char))) line in
      (group, KeyTable k.(groups)
        (<[(group, name) := drop (S (length name)) line]> k.(keys)))
  end.

Definition sample_load (contents : text) : key_table :=
  snd (foldl load_line ([], KeyTable [] ∅) (split_text contents "010"%char)).

(** The keys of each group, in the order of the groups. *)
Definition sample_data (k : key_table) : text :=
  concat (map (λ g, str "[" ++ g ++ str "]" ++
    concat (omap (λ e : text * text * text,
      if text_eqb e.1.1 g then Some (str "," ++ e.1.2 ++ str "=" ++ e.2) else None)
      (map_to_list k.(keys)))) k.(groups)).

(** No digest, but it depends on the key and the data. *)
Definition sample_hmac (key data : text) : option text :=
  Some (take 64 (key ++ drop 40 data ++ replicate 64 zero)).

#[export] Program Instance sample_desktop : Desktop := {|
  g_build_filename := join "/"%char;
  g_filename_to_uri path := inr (str "file://" ++ path);
  g_filename_from_uri uri := inr (drop 7 uri);
  g_path_is_absolute path := bool_decide (head path = Some "/"%char);
  g_uri_scheme uri :=
    let scheme := take_while (λ c, negb (bool_decide (c = ":"%char ∨ c = "/"%char))) uri in
    if bool_decide (uri !! length scheme = Some ":"%char) then Some scheme else None;
  cache_dir := str "/home/u/.cache";
  g_ascii_strtoull := sample_strtoull;
  g_ascii_isspace := is_space;
  hmac_sha512 := sample_hmac;
  keyfile := key_table;
  utf8_valid _ := true;
  key_load contents := inr (sample_load contents);
  key_groups := groups;
  key_get k g n := k.(keys) !! (g, n);
  key_set k g n v :=
    KeyTable (if decide (g ∈ k.(groups)) then k.(groups) else k.(groups) ++ [g])
      (<[(g, n) := v]> k.(keys));
  key_set_boolean k g n b :=
    KeyTable k.(groups) (<[(g, n) := str (if b then "true" else "false")]> k.(keys));
  key_remove k g n := KeyTable k.(groups) (delete (g, n) k.(keys));
  key_data k := inr (sample_data k);
|}.
Next Obligation. intros d. exists (d ++ ["/"%char]). intros n _ _. simpl. by rewrite <- app_assoc. Qed.
Next Obligation. intros. by apply sample_strtoull_number. Qed.
Next Obligation. done. Qed.
Next Obligation. done. Qed.
Next Obligation. done. Qed.
Next Obligation. intros. apply lookup_insert_eq. Qed.
Next Obligation. intros. by apply lookup_insert_ne. Qed.
Next Obligation. intros. simpl. by rewrite decide_True. Qed.
Next Obligation.
  intros. simpl. case_decide as Heq; [rewrite Heq; apply lookup_delete_eq|].
  by apply lookup_delete_ne.
Qed.
Next Obligation. intros. apply lookup_insert_eq. Qed.
Next Obligation. intros. by apply lookup_insert_ne. Qed.

(** ** The kernel and the bus

    Every descriptor is the same regular file with the given contents; the
    calls at time 1 are interrupted, reads from time 3 on are at the end. *)

Definition sample_call (c : dbus_call) : gerror + list variant :=
  if text_eqb c.(c_method) (str "GetNameOwner") then inr [VString (str ":1.9")]
  else if text_eqb c.(c_method) (str "Get") then inr [VVariant (VInt64 200000)]
  else if text_eqb c.(c_interface) (str "org.freedesktop.RealtimeKit1") then inr []
  else if text_eqb c.(c_interface) (str "org.freedesktop.portal.DynamicLauncher") then inr []
  else inr [VObject (str "/request/1")].

Program Definition sample_kernel (file : text) (mode : Z) (proc : text) : Kernel := {|
  k_openat2 _ _ _ _ _ := inr 20;
  k_open _ _ _ := inr 21;
  k_close _ _ := inr tt;
  k_fstat _ _ := inr (Stat 1 2 mode (Z.of_nat (length file)));
  k_stat _ _ := inr (Stat 1 3 0x41ED 0);
  k_getfl _ _ := inr 2;
  k_pread t _ size offset :=
    if (t =? 1)%nat then inl EINTR else inr (take size (drop (Z.to_nat offset) file));
  k_read t _ size :=
    if (t =? 1)%nat then inl EINTR else if (t =? 2)%nat then inr (take size file) else inr [];
  k_write t _ data := if (t =? 1)%nat then inl EINTR else inr (Nat.min 40 (length data));
  k_lseek _ _ := inr tt;
  k_ftruncate _ _ := inr tt;
  k_memfd _ := inr 22;
  k_mkdir _ _ := inr tt;
  k_prlimit _ _ _ := inr tt;
  k_contents _ _ := inr proc;
  k_readlink _ _ := inr (str "/srv/data/report");
  k_fd_list _ := true;
  k_fd_list_get _ h := if (0 <=? h) && (h <? 4) then inr (30 + h) else inl None;
  k_fd_list_append _ _ := None;
  k_call _ := sample_call;
  k_responses _ := [(str "/request/1", 0, [])];
  k_uuid _ := str "7b0c-11";
|}.
Next Obligation.
  intros file mode proc t fd size offset data E. simpl in E.
  destruct (t =? 1)%nat; [done|]. injection E as <-. rewrite length_take. lia.
Qed.
Next Obligation.
  intros file mode proc t fd size data E. simpl in E.
  destruct (t =? 1)%nat; [done|].
  destruct (t =? 2)%nat; injection E as <-; [rewrite length_take|simpl]; lia.
Qed.
Next Obligation.
  intros file mode proc t fd data n E. cbv beta in E.
  destruct (t =? 1)%nat; [done|]. assert (Nat.min 40 (length data) = n) as <- by congruence. apply Nat.le_min_r.
Qed.

#[export] Instance sample_calm file mode proc : Calm (H := sample_kernel file mode proc) 2.
Proof.
  constructor; intros [|[|t]]; simpl; intros; try lia; try done.
  by destruct t.
Qed.

(** ** Runs *)

Definition sample_file : text := replicate 100 "x"%char.

(** A source of 100 bytes, read and written in parts. *)
Definition sample_copy : outcome (gerror + unit) :=
  copy_staged_fd (H := sample_kernel sample_file 0x81A4 []) 20 5 6 (World 0%nat []).

Definition world_of {A} (o : outcome A) : world :=
  match o with Returned _ w => w | _ => World 0%nat [] end.

Lemma copy_staged_exact_witness :
  sample_copy = Returned (inr tt) (world_of sample_copy) ∧
  bytes_written 6 (world_of sample_copy).(trace) = sample_file.
Proof.
  assert (sample_copy = Returned (inr tt) (world_of sample_copy)) as E by (by vm_compute).
  split; [exact E|].
  destruct (copy_staged_exact (H := sample_kernel sample_file 0x81A4 []) 20 5 6 0 _ _ E)
    as (_ & _ & _ & Hok).
  destruct (Hok eq_refl) as (_ & _ & _ & Hfile). apply Hfile.
  intros t size offset data Hs Hd. cbv [k_pread sample_kernel] in Hd.
  destruct (t =? 1)%nat; [done|]. injection Hd as <-.
  split; [apply prefix_take|]. intros Hnil%(f_equal length).
  unfold sample_file in *. rewrite length_take, length_drop, length_replicate in Hnil.
  rewrite length_replicate. cbn [length] in Hnil. lia.
Defined.

Definition sample_secret : outcome (bool * (text * text)) :=
  finish_app_secret (H := sample_kernel (str "host secret") 0x81A4 []) 20 (str "org.example.App")
    7 8 (replicate (S SECRET_MAXIMUM) "g"%char) (replicate SECRET_SIZE "g"%char) (World 0%nat []).

Definition sample_sent : text := bytes_written 8 (world_of sample_secret).(trace).

Lemma app_secret_derived_witness :
  sample_hmac (str "host secret") (secret_message (str "org.example.App")) = Some sample_sent ∧
  length sample_sent = SECRET_SIZE.
Proof.
  assert (match sample_secret with Returned (b, _) _ => b | _ => false end = true) as Hb
    by (by vm_compute).
  assert (bytes_read (world_of sample_secret).(trace) = str "host secret") as Hkey
    by (by vm_compute).
  unfold sample_sent.
  destruct sample_secret as [[ok [raw derived]] w'| |] eqn:E; [|done|done].
  cbn [world_of] in *. subst ok. unfold sample_secret in E.
  destruct (app_secret_derived (H := sample_kernel (str "host secret") 0x81A4 [])
    20 (str "org.example.App") 7 8 (replicate (S SECRET_MAXIMUM) "g"%char)
    (replicate SECRET_SIZE "g"%char) 0 true raw derived w'
    (length_replicate (S SECRET_MAXIMUM) "g"%char) (length_replicate SECRET_SIZE "g"%char) E) as (_ & _ & _ & Hok & _).
  destruct (Hok eq_refl) as [Hmac Hlen]. rewrite Hkey in Hmac. split; [exact Hmac|exact Hlen].
Defined.
