(* ===== verification/Methods.v ===== *)
(** * The host broker's methods ([native/spaces_broker.c])

    The handlers of the integration interface, as programs over the host of
    [Host]: one definition per handler with all its calls, early returns and
    clean-up, [open_method] dispatching to them, and the command line that
    gives the broker its mappings. *)

From S2P Require Import Prelude Glib Host Portal Requests.

Section methods.
Context `{GLib, Kernel, Desktop}.

(** ** Mapped paths *)

Definition valid_guest_path (path : text) : bool :=
  bool_decide (head path = Some "/"%char)
    && negb (existsb (text_eqb (str "..")) (g_strsplit path "/"%char)).

Definition mapping_matches (m : mapping) (path : text) : bool :=
  has_prefix path m.(guest)
    && ((length m.(guest) =? 1)%nat
        || bool_decide (path !! length m.(guest) = None)
        || bool_decide (path !! length m.(guest) = Some "/"%char)).

Definition better_mapping (path : text) (best : option mapping) (m : mapping) :
    option mapping :=
  if mapping_matches m path
     && match best with
        | None => true
        | Some b => (length b.(guest) <? length m.(guest))%nat
        end
  then Some m else best.

Definition find_mapping (b : broker) (path : text) : option mapping :=
  foldl (better_mapping path) None b.(mappings).

Definition descriptor_path (fd : Z) : option text :=
  let path := str "/proc/self/fd/" ++ signed_decimal fd in
  if (64 <=? length path)%nat then None else Some path.

Definition secure_open (m : mapping) (guest_path : text) (flags : Z) : M (Z + Z) :=
  let relative := skip_while (λ c, bool_decide (c = "/"%char))
                    (drop (length m.(guest)) guest_path) in
  if negb (S_ISDIR m.(metadata).(st_mode)) then
    match relative with
    | _ :: _ => mret (inl EXDEV)
    | [] =>
        match descriptor_path m.(descriptor) with
        | None => mret (inl ENAMETOOLONG)
        | Some path => sys_open path (Z.lor flags O_CLOEXEC)
        end
    end
  else
    let relative := match relative with [] => str "." | _ => relative end in
    sys_openat2 m.(descriptor) relative (Z.lor flags O_CLOEXEC)
      (Z.lor (Z.lor RESOLVE_BENEATH RESOLVE_NO_MAGICLINKS) RESOLVE_NO_XDEV).

Definition same_type (a b : stat) : bool :=
  Z.land a.(st_mode) S_IFMT =? Z.land b.(st_mode) S_IFMT.

Definition same_stat (a b : stat) : bool :=
  (a.(st_dev) =? b.(st_dev)) && (a.(st_ino) =? b.(st_ino)) && same_type a b.

Definition same_object (left right : Z) : M bool :=
  a ← sys_fstat left;
  match a with
  | inl _ => mret false
  | inr a =>
      b ← sys_fstat right;
      mret match b with inl _ => false | inr b => same_stat a b end
  end.

(** ** [PortalRequest] *)

Record locals := Locals {
  outgoing_fds : fd_list;
  secret_guest_fd : option Z;
  secret_host_fd : option Z;
  staged_path : option text;
}.

Definition no_locals : locals := Locals GuestFds None None None.

(** The branches of the handler up to the call: the parameters for the host,
    or the error with which it goes to [failed].  [g_variant_get] leaves its
    variables unset when the variant has another type than its format says;
    GDBus checks the types of a method's parameters, but not the type of a
    variant among them, so using the variables then is undefined. *)
Definition retrieve_secret (b : broker) (portal_app_id : text) (input : variant) :
    M (locals * (option gerror + list variant)) :=
  if (255 <? length portal_app_id)%nat then mret (no_locals, inl (Some INVALID_ARGUMENT)) else
  match input with
  | VTuple [VHandle handle; VDict options] =>
      guest ← invocation_fd handle;
      match guest with
      | inl e => mret (no_locals, inl e)
      | inr guest =>
          host ← sys_memfd;
          match host with
          | inl e => mret (Locals GuestFds (Some guest) None None, inl (Some (FromErrno e)))
          | inr host =>
              let l := Locals (OwnFds [host]) (Some guest) (Some host) None in
              appended ← fd_list_append host;
              match appended with
              | Some e => mret (l, inl (Some e))
              | None =>
                  updated ← broker_options b options false;
                  mret (l, inr [VHandle 0; VDict updated])
              end
          end
      end
  | _ => undefined
  end.

Definition set_wallpaper_file (fuel : nat) (b : broker) (input : variant) :
    M (locals * (option gerror + list variant)) :=
  match input with
  | VTuple [VString parent; VHandle handle; VDict options] =>
      staged ← stage_wallpaper_fd fuel handle;
      match staged with
      | inl e => mret (no_locals, inl e)
      | inr (staged, path) =>
          let l := Locals (OwnFds [staged]) None None (Some path) in
          appended ← fd_list_append staged;
          sys_close staged ≫= λ _,
          match appended with
          | Some e => mret (l, inl (Some e))
          | None =>
              updated ← broker_options b options false;
              mret (l, inr [VString parent; VHandle 0; VDict updated])
          end
      end
  | _ => undefined
  end.

Definition portal_parameters (fuel : nat) (b : broker) (interface method portal_app_id : text)
    (input : variant) : M (locals * (option gerror + list variant)) :=
  let names i m := text_eqb interface (str i) && text_eqb method (str m) in
  if names "org.freedesktop.portal.Background"%string "RequestBackground"%string then
    match input with
    | VTuple [VString parent; VDict options] =>
        updated ← broker_options b options true;
        mret (no_locals, inr [VString parent; VDict updated])
    | _ => undefined
    end
  else if names "org.freedesktop.portal.DynamicLauncher"%string "PrepareInstall"%string then
    match input with
    | VTuple [VString parent; VString name; VVariant icon; VDict options] =>
        updated ← broker_options b options false;
        mret (no_locals, inr [VString parent; VString name; VVariant icon; VDict updated])
    | _ => undefined
    end
  else if names "org.freedesktop.portal.Secret"%string "RetrieveSecret"%string then
    retrieve_secret b portal_app_id input
  else if names "org.freedesktop.portal.Wallpaper"%string "SetWallpaperFile"%string then
    set_wallpaper_file fuel b input
  else if names "org.freedesktop.portal.Wallpaper"%string "SetWallpaperURI"%string then
    match input with
    | VTuple [VString parent; VString uri; VDict options] =>
        if has_prefix uri (str "file:") then mret (no_locals, inl (Some INVALID_ARGUMENT))
        else
          updated ← broker_options b options false;
          mret (no_locals, inr [VString parent; VString uri; VDict updated])
    | _ => undefined
    end
  else mret (no_locals, inl (Some ACCESS_DENIED)).

Definition portal_failed (fuel : nat) (l : locals) (e : option gerror) : M unit :=
  match l.(secret_host_fd) with
  | Some fd => truncate_loop fuel fd ≫= λ _, sys_close fd ≫= λ _, mret tt
  | None => mret tt
  end ≫= λ _,
  close_if l.(secret_guest_fd) ≫= λ _,
  unlink_if l.(staged_path) ≫= λ _,
  return_gerror e.

(** [raw] and [derived] are the uninitialised buffers of [finish_app_secret]. *)
Definition portal_request_method (fuel : nat) (b : broker) (raw derived : text)
    (interface method portal_app_id : text) (input : variant) : M unit :=
  prepared ← portal_parameters fuel b interface method portal_app_id input;
  match prepared with
  | (l, inl e) => portal_failed fuel l e
  | (l, inr host_parameters) =>
      waited ← wait_portal_request b interface method host_parameters l.(outgoing_fds);
      match waited with
      | inl e => portal_failed fuel l (Some e)
      | inr (response, results) =>
          finished ← match l.(secret_host_fd), l.(secret_guest_fd) with
                     | Some host, Some guest =>
                         if response =? 0 then
                           done ← finish_app_secret fuel portal_app_id host guest raw derived;
                           mret (fst done)
                         else mret true
                     | _, _ => mret true
                     end;
          let '(response, results) :=
            if finished : bool then (response, results) else (2, []) in
          return_value [VUint32 response; VDict results] [] ≫= λ _,
          close_if l.(secret_host_fd) ≫= λ _,
          close_if l.(secret_guest_fd) ≫= λ _,
          if response =? 0 then mret tt else unlink_if l.(staged_path)
      end
  end.

(** ** [DynamicLauncherCall] *)

(** The parameters for the host, or the error. *)
Definition launcher_parameters (b : broker) (method : text) (input : variant) :
    M (gerror + list variant) :=
  let names m := text_eqb method (str m) in
  if names "Install"%string then
    match input with
    | VTuple [VString token; VString desktop_id; VString entry; VDict options] =>
        mret match broker_launcher_id b desktop_id, broker_desktop_entry b entry with
             | Some host_id, inr host_entry =>
                 inr [VString token; VString host_id; VString host_entry; VDict options]
             | _, inl e => inl e
             | None, inr _ => inl INVALID_ARGS
             end
    | _ => undefined
    end
  else if names "RequestInstallToken"%string then
    match input with VTuple children => mret (inr children) | _ => undefined end
  else if names "Uninstall"%string || names "Launch"%string then
    match input with
    | VTuple [VString desktop_id; VDict options] =>
        mret match broker_launcher_id b desktop_id with
             | Some host_id => inr [VString host_id; VDict options]
             | None => inl ACCESS_DENIED
             end
    | _ => undefined
    end
  else if names "GetDesktopEntry"%string || names "GetIcon"%string then
    match input with
    | VTuple [VString desktop_id] =>
        mret match broker_launcher_id b desktop_id with
             | Some host_id => inr [VString host_id]
             | None => inl ACCESS_DENIED
             end
    | _ => undefined
    end
  else mret (inl ACCESS_DENIED).

(** Whether a reply has the type the call asks for. *)
Definition launcher_reply (method : text) (values : list variant) : bool :=
  let names m := text_eqb method (str m) in
  if names "RequestInstallToken"%string || names "GetDesktopEntry"%string then
    match values with [VString _] => true | _ => false end
  else if names "GetIcon"%string then
    match values with [VVariant _; VString _; VUint32 _] => true | _ => false end
  else match values with [] => true | _ => false end.

Definition dynamic_launcher_method (b : broker) (method : text) (input : variant) :
    M unit :=
  parameters ← launcher_parameters b method input;
  match parameters with
  | inl e => return_error e
  | inr host_parameters =>
      destination ← find_destination b;
      match destination with
      | inl e => return_error e
      | inr destination =>
          reply ← call_sync (DBusCall SessionBus destination PORTAL_PATH
            (str "org.freedesktop.portal.DynamicLauncher") method host_parameters NoFds);
          match reply with
          | inl e => return_error e
          | inr values =>
              if launcher_reply method values
              then return_value [VVariant (VTuple values)] []
              else return_error (Reported (str "the reply has another type"))
          end
      end
  end.

(** ** [Screenshot] *)

(** Opens the host's file if the request succeeded; [None] for the file
    means that an empty one is to be sent. *)
Definition screenshot_file (response : Z) (results : vardict) :
    M (option text * option Z) :=
  if negb (response =? 0) then mret (None, None) else
  match dict_first results (str "uri") with
  | Some (VString uri) =>
      match g_filename_from_uri uri with
      | inl _ => mret (None, None)
      | inr filename =>
          fd ← sys_open filename (O_RDONLY + O_CLOEXEC + O_NOFOLLOW);
          mret (Some filename, match fd with inl _ => None | inr fd => Some fd end)
      end
  | _ => mret (None, None)
  end.

Definition bounded_file (fd : option Z) : M bool :=
  match fd with
  | None => mret false
  | Some fd =>
      m ← sys_fstat fd;
      mret match m with
           | inl _ => false
           | inr m => S_ISREG m.(st_mode) && (0 <=? m.(st_size))
                      && (m.(st_size) <=? STAGED_FILE_MAXIMUM)
           end
  end.

Definition screenshot_method (b : broker) (parent : text) (options : vardict) : M unit :=
  requested ← screenshot_request b parent options;
  match requested with
  | inl e => return_error e
  | inr (response, results) =>
      file ← screenshot_file response results;
      let '(filename, descriptor) := file in
      bounded ← (if response =? 0 then bounded_file descriptor else mret true);
      if negb bounded then close_if descriptor ≫= λ _, return_error INVALID_DATA else
      empty ← match descriptor with
              | Some fd => mret (inr fd)
              | None => sys_memfd
              end;
      match empty with
      | inl _ => return_error FAILED
      | inr descriptor =>
          appended ← fd_list_append descriptor;
          match appended with
          | Some e => sys_close descriptor ≫= λ _, return_error e
          | None =>
              unlink_if filename ≫= λ _,
              return_value [VUint32 response; VHandle 0; VDict results] [descriptor] ≫= λ _,
              sys_close descriptor ≫= λ _, mret tt
          end
      end
  end.

(** ** [MakeRealtime] *)

Definition pidfd_line (line : text) : option Z :=
  let number := drop 4 line in
  let '(value, rest, error) := g_ascii_strtoull number in
  let rest := skip_while g_ascii_isspace rest in
  if negb error && negb (length rest =? length number)%nat
     && bool_decide (rest = []) && (0 <? value)
  then Some value else None.

Definition pidfd_value (contents : text) : option Z :=
  line ← head (filter (λ line, has_prefix line (str "Pid:") = true)
                 (g_strsplit contents "010"%char));
  pidfd_line line.

Definition pidfd_id (fd : Z) : M (gerror + Z) :=
  let path := str "/proc/self/fdinfo/" ++ signed_decimal fd in
  if (64 <=? length path)%nat then mret (inl FAILED) else
  contents ← file_contents path;
  mret match contents with
       | inl e => inl e
       | inr contents =>
           match pidfd_value contents with
           | Some id => inr id
           | None => inl INVALID_ARGUMENT
           end
       end.

Definition RTKIT_NAME := str "org.freedesktop.RealtimeKit1".
Definition RTKIT_PATH := str "/org/freedesktop/RealtimeKit1".

Definition task_path (process thread : Z) : text :=
  str "/proc/" ++ decimal process ++ str "/task/" ++ decimal thread.

(** The limit and the request, once the process and the thread are known. *)
Definition set_realtime (process thread : Z) (high_priority : bool) (priority : Z) :
    M (gerror + list variant) :=
  limit_reply ← call_sync (DBusCall SystemBus RTKIT_NAME RTKIT_PATH
    (str "org.freedesktop.DBus.Properties") (str "Get")
    [VString RTKIT_NAME; VString (str "RTTimeUSecMax")] NoFds);
  match limit_reply with
  | inl e => mret (inl e)
  | inr [VVariant (VInt64 limit)] =>
      if (limit <=? 0) then mret (inl INVALID_DATA) else
      limited ← sys_prlimit (int_of_u32 (u32 process)) limit;
      match limited with
      | inl e => mret (inl (FromErrno e))
      | inr _ =>
          reply ← call_sync (DBusCall SystemBus RTKIT_NAME RTKIT_PATH RTKIT_NAME
            (if high_priority then str "MakeThreadHighPriorityWithPID"
             else str "MakeThreadRealtimeWithPID")
            [VUint64 process; VUint64 thread;
             if high_priority then VInt32 priority else VUint32 (u32 priority)] NoFds);
          mret match reply with
               | inl e => inl e
               | inr [] => inr []
               | inr _ => inl (Reported (str "the reply has another type"))
               end
      end
  | inr [VVariant _] => mret (inl INVALID_DATA)
  | inr _ => mret (inl (Reported (str "the reply has another type")))
  end.

(** The calls once both descriptors are known. *)
Definition make_realtime (process_fd thread_fd : Z) (high_priority : bool) (priority : Z) :
    M (gerror + list variant) :=
  process ← pidfd_id process_fd;
  match process with inl e => mret (inl e) | inr process =>
  thread ← pidfd_id thread_fd;
  match thread with inl e => mret (inl e) | inr thread =>
  let path := task_path process thread in
  member ← (if (96 <=? length path)%nat then mret (inl ENAMETOOLONG) else sys_stat path);
  match member with
  | inl _ => mret (inl PERMISSION_DENIED)
  | inr _ => set_realtime process thread high_priority priority
  end end end.

Definition realtime_method (process_handle thread_handle : Z) (high_priority : bool)
    (priority : Z) : M unit :=
  process_fd ← invocation_fd process_handle;
  match process_fd with
  | inl e => return_gerror e
  | inr process_fd =>
      thread_fd ← invocation_fd thread_handle;
      match thread_fd with
      | inl e => sys_close process_fd ≫= λ _, return_gerror e
      | inr thread_fd =>
          r ← make_realtime process_fd thread_fd high_priority priority;
          match r with
          | inl e =>
              sys_close thread_fd ≫= λ _, sys_close process_fd ≫= λ _, return_error e
          | inr reply =>
              return_value reply [] ≫= λ _,
              sys_close thread_fd ≫= λ _, sys_close process_fd ≫= λ _, mret tt
          end
      end
  end.

(** ** [MakeGameMode] *)

Definition game_mode_method (b : broker) (method : text) (target_handle requester_handle : Z) :
    M unit :=
  if negb (text_eqb method (str "QueryStatusByPIDFd"))
     && negb (text_eqb method (str "RegisterGameByPIDFd"))
     && negb (text_eqb method (str "UnregisterGameByPIDFd"))
  then return_error ACCESS_DENIED
  else
    present ← fd_list_present;
    if negb present then return_error INVALID_ARGUMENT else
    target ← fd_list_get target_handle;
    match target with
    | inl e => return_error (default INVALID_ARGUMENT e)
    | inr target =>
        requester ← fd_list_get requester_handle;
        match requester with
        | inl e => sys_close target ≫= λ _, return_error (default INVALID_ARGUMENT e)
        | inr requester =>
            sys_close target ≫= λ _, sys_close requester ≫= λ _,
            destination ← find_destination b;
            match destination with
            | inl e => return_error e
            | inr destination =>
                reply ← call_sync (DBusCall SessionBus destination PORTAL_PATH
                  (str "org.freedesktop.portal.GameMode") method
                  [VHandle target_handle; VHandle requester_handle] GuestFds);
                match reply with
                | inl e => return_error e
                | inr [VInt32 n] => return_value [VInt32 n] []
                | inr _ => return_error (Reported (str "the reply has another type"))
                end
            end
        end
    end.

(** ** [ResolvePath] *)

(** What follows the lookup of the mapping, up to the URI. *)
Definition resolve_mapped (proof mapped : Z) : M (gerror + text) :=
  same ← same_object proof mapped;
  if negb same then mret (inl PERMISSION_DENIED) else
  match descriptor_path mapped with
  | None => mret (inl FILENAME_TOO_LONG)
  | Some path =>
      host_path ← file_read_link path;
      mret match host_path with
           | inl e => inl e
           | inr host_path =>
               if negb (g_path_is_absolute host_path)
                  || has_suffix host_path (str " (deleted)")
               then inl INVALID_FILENAME
               else g_filename_to_uri host_path
           end
  end.

Definition resolve_path_method (b : broker) (guest_path : text) (handle : Z) : M unit :=
  match (if valid_guest_path guest_path then find_mapping b guest_path else None) with
  | None => return_error PERMISSION_DENIED
  | Some m =>
      proof ← invocation_fd handle;
      match proof with
      | inl e => return_error (default FAILED e)
      | inr proof =>
          mapped ← secure_open m guest_path O_PATH;
          match mapped with
          | inl _ => sys_close proof ≫= λ _, return_error PERMISSION_DENIED
          | inr mapped =>
              r ← resolve_mapped proof mapped;
              match r with
              | inl e =>
                  sys_close mapped ≫= λ _, sys_close proof ≫= λ _, return_error e
              | inr uri =>
                  return_value [VString uri] [] ≫= λ _,
                  sys_close mapped ≫= λ _, sys_close proof ≫= λ _, mret tt
              end
          end
      end
  end.

(** ** [StageFile] and [RemoveStagedFile]: they return the staged files *)

Definition stage_file_method (fuel : nat) (b : broker) (handle : Z) : M (list text) :=
  source ← invocation_fd handle;
  match source with
  | inl e => return_error (default FAILED e) ≫= λ _, mret b.(staged_files)
  | inr source =>
      let failed filename e :=
        unlink_if filename ≫= λ _, sys_close source ≫= λ _, return_error e ≫= λ _,
        mret b.(staged_files) in
      copy ← stage_copy fuel source (str "artwork");
      match copy with
      | (filename, inl e) => failed filename e
      | (None, inr _) => failed None FAILED
      | (Some filename, inr _) =>
          match g_filename_to_uri filename with
          | inl e => failed (Some filename) e
          | inr uri =>
              return_value [VString uri] [] ≫= λ _, sys_close source ≫= λ _,
              mret (b.(staged_files) ++ [filename])
          end
      end
  end.

(** [g_ptr_array_remove_index] keeps the order of the others. *)
Fixpoint remove_staged (files : list text) (filename : text) : option (list text) :=
  match files with
  | [] => None
  | staged :: files =>
      if text_eqb staged filename then Some files
      else files ← remove_staged files filename; Some (staged :: files)
  end.

Definition remove_staged_file_method (b : broker) (uri : text) : M (list text) :=
  match g_filename_from_uri uri with
  | inl _ => return_error INVALID_ARGUMENT ≫= λ _, mret b.(staged_files)
  | inr filename =>
      match remove_staged b.(staged_files) filename with
      | Some files =>
          sys_unlink filename ≫= λ _, return_value [] [] ≫= λ _, mret files
      | None => return_error NOT_FOUND ≫= λ _, mret b.(staged_files)
      end
  end.

(** ** [OpenFile], [OpenDirectory] and the dispatch *)

(** The descriptor reopened on the host, and whether for writing. *)
Definition reopen (m : mapping) (guest_path : text) (guest_writable : bool) (method : text) :
    M (Z + Z * bool) :=
  first ← (if guest_writable && text_eqb method (str "OpenFile")
           then secure_open m guest_path O_RDWR else mret (inl 0));
  match first with
  | inr mapped => mret (inr (mapped, true))
  | inl _ =>
      second ← secure_open m guest_path O_RDONLY;
      mret match second with inl e => inl e | inr mapped => inr (mapped, false) end
  end.

(** From the guest's proof on: the object is reopened, compared and sent. *)
Definition open_mapped (b : broker) (m : mapping) (method guest_path : text) (proof : Z)
    (proof_metadata : stat) (guest_writable : bool) (activation_token : text) : M unit :=
  mapped ← reopen m guest_path guest_writable method;
  match mapped with
  | inl e => sys_close proof ≫= λ _, return_error (FromErrno e)
  | inr (mapped, writable) =>
      let failed e :=
        sys_close mapped ≫= λ _, sys_close proof ≫= λ _, return_error e in
      mapped_metadata ← sys_fstat mapped;
      match mapped_metadata with
      | inl e => failed (FromErrno e)
      | inr mapped_metadata =>
          if negb (same_stat proof_metadata mapped_metadata)
          then failed PERMISSION_DENIED
          else
            called ← call_host_portal b method mapped writable activation_token;
            match called with
            | inl e => failed e
            | inr response =>
                return_value [VUint32 response] [] ≫= λ _,
                sys_close mapped ≫= λ _, sys_close proof ≫= λ _, mret tt
            end
      end
  end.

(** Whether the guest asked for writing and can write itself. *)
Definition guest_writable (proof : Z) (requested_writable : bool) : M bool :=
  if requested_writable then
    flags ← sys_getfl proof;
    mret match flags with
         | inl _ => false
         | inr f => Z.land f O_ACCMODE =? O_RDWR
         end
  else mret false.

Definition open_path (b : broker) (method guest_path : text) (handle : Z)
    (requested_writable : bool) (activation_token : text) : M unit :=
  match (if valid_guest_path guest_path then find_mapping b guest_path else None) with
  | None => return_error PERMISSION_DENIED
  | Some m =>
      proof ← invocation_fd handle;
      match proof with
      | inl e => return_gerror e
      | inr proof =>
          proof_metadata ← sys_fstat proof;
          match proof_metadata with
          | inl e => sys_close proof ≫= λ _, return_error (FromErrno e)
          | inr proof_metadata =>
              writable ← guest_writable proof requested_writable;
              open_mapped b m method guest_path proof proof_metadata writable activation_token
          end
      end
  end.

(** GDBus has checked the parameters' types against the interface; the
    handlers return the staged files for the next call. *)
Definition open_method (fuel : nat) (b : broker) (raw derived : text) (method : text)
    (parameters : list variant) : M (list text) :=
  let names m := text_eqb method (str m) in
  let keep m : M (list text) := m ≫= λ _ : unit, mret b.(staged_files) in
  if names "MakeRealtime"%string then
    match parameters with
    | [VHandle p; VHandle t; VBoolean h; VInt32 n] => keep (realtime_method p t h n)
    | _ => undefined
    end
  else if names "MakeGameMode"%string then
    match parameters with
    | [VString m; VHandle t; VHandle r] => keep (game_mode_method b m t r)
    | _ => undefined
    end
  else if names "Screenshot"%string then
    match parameters with
    | [VString p; VDict o] => keep (screenshot_method b p o)
    | _ => undefined
    end
  else if names "StageFile"%string then
    match parameters with
    | [VHandle h] => stage_file_method fuel b h
    | _ => undefined
    end
  else if names "ResolvePath"%string then
    match parameters with
    | [VString p; VHandle h] => keep (resolve_path_method b p h)
    | _ => undefined
    end
  else if names "RemoveStagedFile"%string then
    match parameters with
    | [VString uri] => remove_staged_file_method b uri
    | _ => undefined
    end
  else if names "PortalRequest"%string then
    match parameters with
    | [VString i; VString m; VString a; VVariant input] =>
        keep (portal_request_method fuel b raw derived i m a input)
    | _ => undefined
    end
  else if names "DynamicLauncherCall"%string then
    match parameters with
    | [VString m; VVariant input] => keep (dynamic_launcher_method b m input)
    | _ => undefined
    end
  else if names "OpenFile"%string then
    match parameters with
    | [VString p; VHandle h; VBoolean w; VString t] => keep (open_path b method p h w t)
    | _ => undefined
    end
  else
    match parameters with
    | [VString p; VHandle h; VString t] => keep (open_path b method p h false t)
    | _ => undefined
    end.

(** ** The command line *)

(** [strtol] with [errno] and [end] checked: the number a whole text is. *)
Definition strtol_whole (s : text) : option Z :=
  let s := skip_while is_space s in
  let '(negative, ds) :=
    match s with
    | c :: rest =>
        if decide (c = "-"%char) then (true, rest)
        else if decide (c = "+"%char) then (false, rest) else (false, s)
    | [] => (false, s)
    end in
  if bool_decide (ds = []) || negb (forallb is_digit ds) then None else
  let v := if negative : bool then - digits_value ds else digits_value ds in
  if (v <? - 2 ^ 63) || (2 ^ 63 - 1 <? v) then None else Some v.

(** [None] is [FALSE]; the metadata is read when the mapping is added. *)
Definition add_mapping (ms : list mapping) (guest descriptor_text : text) :
    M (option (list mapping)) :=
  match strtol_whole descriptor_text with
  | Some value =>
      if (value <? 0) || (INT_MAX <? value) || negb (valid_guest_path guest)
      then mret None
      else
        m ← sys_fstat value;
        match m with
        | inl _ => sys_close value ≫= λ _, mret None
        | inr m => mret (Some (ms ++ [Mapping guest value m]))
        end
  | None => mret None
  end.

Record arguments := Arguments {
  name : option text;
  space : option text;
  app : option text;
  ready_fd : Z;
  maps : list mapping;
}.

(** [None] is exit status 2. *)
Fixpoint parse_arguments (argv : list text) (a : arguments) : M (option arguments) :=
  match argv with
  | [] => mret (Some a)
  | option :: argv =>
      let option_is o := text_eqb option (str o) in
      match argv with
      | value :: rest =>
          if option_is "--name"%string then
            parse_arguments rest (Arguments (Some value) a.(space) a.(app) a.(ready_fd) a.(maps))
          else if option_is "--space"%string then
            parse_arguments rest (Arguments a.(name) (Some value) a.(app) a.(ready_fd) a.(maps))
          else if option_is "--app-id"%string then
            parse_arguments rest (Arguments a.(name) a.(space) (Some value) a.(ready_fd) a.(maps))
          else if option_is "--ready-fd"%string then
            parse_arguments rest (Arguments a.(name) a.(space) a.(app) (atoi value) a.(maps))
          else if option_is "--map"%string then
            match rest with
            | descriptor_text :: rest =>
                added ← add_mapping a.(maps) value descriptor_text;
                match added with
                | Some ms =>
                    parse_arguments rest (Arguments a.(name) a.(space) a.(app) a.(ready_fd) ms)
                | None => mret None
                end
            | [] => mret None
            end
          else mret None
      | [] => mret None
      end
  end.

(** The broker and the descriptor to report readiness on. *)
Definition broker_arguments (argv : list text) : M (option (broker * text * Z)) :=
  parsed ← parse_arguments argv (Arguments None None None (-1) []);
  mret (a ← parsed;
    match a.(name), a.(space), a.(app), a.(maps) with
    | Some name, Some space, Some app, _ :: _ =>
        if a.(ready_fd) <? 0 then None
        else Some (Broker a.(maps) [] space app initial, name, a.(ready_fd))
    | _, _, _, _ => None
    end).
End methods.
