(* ===== verification/MethodsInv.v ===== *)
(** * The host broker's methods are complete

    Over every answer the kernel and the bus can give, each method call ends
    and leaves no descriptor open.  It is answered once, but for four methods
    that leave a call unanswered when it names a descriptor its message does
    not have.  [replies], [lost] and [live] count answers, such names and open
    descriptors in a trace, [accounts] composes them over a program, and
    [well_typed] is what GDBus and the formats of [g_variant_get] ask of a
    call's arguments. *)

From S2P Require Import Prelude Glib Host Portal Requests RequestsInv Methods.

(** ** Accounting *)

(** How many times a descriptor was opened less how many times it was closed,
    and how many replies were sent. *)
Fixpoint live (fd : Z) (tr : list event) : Z :=
  match tr with
  | [] => 0
  | EOpened x :: tr => (if decide (x = fd) then 1 else 0) + live fd tr
  | EClosed x :: tr => (if decide (x = fd) then -1 else 0) + live fd tr
  | _ :: tr => live fd tr
  end.

Fixpoint replies (tr : list event) : Z :=
  match tr with
  | [] => 0
  | (EReturn _ _ | EError _) :: tr => 1 + replies tr
  | _ :: tr => replies tr
  end.

(** How many times the call named a descriptor outside its message's list. *)
Fixpoint lost (tr : list event) : Z :=
  match tr with
  | [] => 0
  | EHandle _ (inl None) :: tr => 1 + lost tr
  | _ :: tr => lost tr
  end.

(** The replies, and with [owed] also the names for which none is sent. *)
Definition settled (owed : bool) (tr : list event) : Z :=
  replies tr + (if owed then lost tr else 0).

Lemma live_app fd a b : live fd (a ++ b) = live fd a + live fd b.
Proof. induction a as [|[] a IH]; simpl; rewrite ?IH; lia. Qed.

Lemma replies_app a b : replies (a ++ b) = replies a + replies b.
Proof. induction a as [|[] a IH]; simpl; rewrite ?IH; lia. Qed.

Lemma lost_app a b : lost (a ++ b) = lost a + lost b.
Proof. induction a as [|[] a IH]; simpl; rewrite ?IH; repeat case_match; lia. Qed.

Lemma settled_app owed a b : settled owed (a ++ b) = settled owed a + settled owed b.
Proof. unfold settled. rewrite replies_app, lost_app. case_match; lia. Qed.

(** Events that open, close, name and answer nothing. *)
Definition silent (e : event) : Prop :=
  match e with
  | EHandle _ _ | EOpened _ | EClosed _ | EReturn _ _ | EError _ => False
  | _ => True
  end.

(** Events of reading, writing and truncating. *)
Definition quiet (e : event) : Prop :=
  match e with
  | EFstat _ _ | EPread _ _ _ | ERead _ _ | EWrite _ _ _ | ETruncated _ _ => True
  | _ => False
  end.

Lemma quiet_silent e : quiet e → silent e.
Proof. by destruct e. Qed.

Lemma silent_accounts fd owed evs :
  Forall silent evs → live fd evs = 0 ∧ settled owed evs = 0.
Proof.
  induction 1 as [|[] evs He _ [? ?]]; simpl in *; auto; try done. by destruct owed.
Qed.

(** A run changes a descriptor's count by [d] of its result and settles [n] of
    its result calls. *)
Definition accounts {A} (fd : Z) (owed : bool) (d n : A → Z) (m : M A) : Prop :=
  ∀ w x w', m w = Returned x w' →
    live fd w'.(trace) = live fd w.(trace) + d x ∧
    settled owed w'.(trace) = settled owed w.(trace) + n x.

Definition zero_of {A} (_ : A) : Z := 0.
Definition held (fd x : Z) : Z := if decide (x = fd) then 1 else 0.

Section accounting.
Context `{GLib, Kernel, Desktop} (fd : Z) (owed : bool).

Lemma emits_silent {A} (m : M A) : emits silent m → accounts fd owed zero_of zero_of m.
Proof.
  intros Hm w x w' E. destruct (Hm _ _ _ E) as (evs & -> & Hevs).
  destruct (silent_accounts fd owed _ Hevs) as [Hl Hr].
  rewrite live_app, settled_app, Hl, Hr. unfold zero_of. lia.
Qed.

Lemma write_loop_quiet fuel output data : emits quiet (write_loop fuel output data).
Proof.
  revert data. induction fuel as [|fuel IH]; intros data; destruct data as [|c data];
    cbn [write_loop]; try apply emits_ret; [by intros w x w'|].
  apply emits_bind; [apply emits_tick; by repeat constructor|].
  intros w [e|[|n]] w' _; [case_decide; [done|apply emits_ret]|apply emits_ret|done].
Qed.

Lemma copy_loop_quiet fuel source output total offset :
  emits quiet (copy_loop fuel source output total offset).
Proof.
  revert total offset. induction fuel as [|fuel IH]; intros total offset;
    cbn [copy_loop]; [by intros w x w'|].
  apply emits_bind; [apply emits_tick; by repeat constructor|].
  intros w [e|[|c data]] w' _; [case_decide; [done|apply emits_ret]|apply emits_ret|].
  case_match; [apply emits_ret|].
  apply emits_bind; [apply write_loop_quiet|]. intros ? [] ? _; [apply emits_ret|done].
Qed.

Lemma copy_staged_quiet fuel source output : emits quiet (copy_staged_fd fuel source output).
Proof.
  apply emits_bind; [apply emits_tick; by repeat constructor|].
  intros w [] w' _; [apply emits_ret|]. case_match; [apply emits_ret|apply copy_loop_quiet].
Qed.

Lemma truncate_loop_quiet fuel x : emits quiet (truncate_loop fuel x).
Proof.
  induction fuel as [|fuel IH]; cbn [truncate_loop]; [by intros w y w'|].
  apply emits_bind; [apply emits_tick; by repeat constructor|].
  intros w [] w' _; [case_decide; [done|apply emits_ret]|apply emits_ret].
Qed.

Lemma secret_read_quiet fuel x raw size : emits quiet (secret_read fuel x raw size).
Proof.
  revert raw size. induction fuel as [|fuel IH]; intros raw size; cbn [secret_read];
    (case_match; [|apply emits_ret]); [by intros w y w'|].
  apply emits_bind; [apply emits_tick; by repeat constructor|].
  intros w [e|[|c data]] w' _; [case_decide; [done|apply emits_ret]|apply emits_ret|done].
Qed.

Lemma finish_app_secret_quiet fuel app host guest raw derived :
  emits quiet (finish_app_secret fuel app host guest raw derived).
Proof.
  assert (∀ s r d, emits quiet (truncate_loop fuel host ≫= λ _,
    (mret (s, (secure_clear r, secure_clear d)) : M (bool * (text * text))))) as Hout.
  { intros s r d. apply emits_bind; [apply truncate_loop_quiet|]. intros. apply emits_ret. }
  unfold finish_app_secret. case_match; [apply Hout|].
  apply emits_bind; [apply emits_tick; by repeat constructor|].
  intros w [] w' _; [apply Hout|].
  apply emits_bind; [apply secret_read_quiet|]. intros ? [[size|] raw2] ? _; [|apply Hout].
  case_match; [apply Hout|]. case_match; [|apply Hout]. case_match; [apply Hout|].
  apply emits_bind; [|intros; apply Hout].
  apply emits_bind; [apply write_loop_quiet|]. intros. apply emits_ret.
Qed.

Lemma copy_staged_silent fuel source output : emits silent (copy_staged_fd fuel source output).
Proof. eapply emits_mono, copy_staged_quiet. apply quiet_silent. Qed.

Lemma truncate_loop_silent fuel x : emits silent (truncate_loop fuel x).
Proof. eapply emits_mono, truncate_loop_quiet. apply quiet_silent. Qed.

Lemma finish_app_secret_silent fuel app host guest raw derived :
  emits silent (finish_app_secret fuel app host guest raw derived).
Proof. eapply emits_mono, finish_app_secret_quiet. apply quiet_silent. Qed.

(** ** Composition *)

Lemma accounts_bind {A B} d n (m : M A) (f : A → M B) D N :
  accounts fd owed d n m →
  (∀ x, accounts fd owed (λ y, D y - d x) (λ y, N y - n x) (f x)) → accounts fd owed D N (m ≫= f).
Proof.
  intros Hm Hf w y w2 (x & w1 & E1 & E2)%M_bind_returned.
  apply Hm in E1 as [??]. apply Hf in E2 as [??]. lia.
Qed.

Lemma accounts_ret {A} (x : A) D N : D x = 0 → N x = 0 → accounts fd owed D N (mret x).
Proof. intros HD HN w y w' [-> ->]%M_ret_returned. lia. Qed.

Lemma accounts_ret_bind {A B} (x : A) (f : A → M B) D N :
  accounts fd owed D N (f x) → accounts fd owed D N (mret x ≫= f).
Proof. intros Hf w y w2 E. by apply Hf. Qed.

Lemma accounts_assoc {A B C} (m : M A) (f : A → M B) (g : B → M C) D N :
  accounts fd owed D N (m ≫= λ x, f x ≫= g) → accounts fd owed D N ((m ≫= f) ≫= g).
Proof.
  intros Hm w y w2 E. apply Hm. revert E. unfold mbind, M_bind. by destruct (m w).
Qed.

Lemma accounts_eq {A} (m : M A) d n D N :
  accounts fd owed d n m → (∀ x, d x = D x) → (∀ x, n x = N x) → accounts fd owed D N m.
Proof. intros Hm HD HN w x w' E. rewrite <- HD, <- HN. by apply Hm. Qed.

Lemma accounts_tick {A} (answer : nat → A) events D N :
  (∀ x, live fd (events x) = D x) → (∀ x, settled owed (events x) = N x) →
  accounts fd owed D N (tick answer events).
Proof.
  intros HD HN w x w' [-> ->]%tick_returned. simpl.
  rewrite live_app, settled_app, HD, HN. lia.
Qed.

Lemma accounts_tick_exact {A} (answer : nat → A) events :
  accounts fd owed (λ x, live fd (events x)) (λ x, settled owed (events x)) (tick answer events).
Proof. by apply accounts_tick. Qed.

Lemma accounts_undefined {A} D N : accounts fd owed D N (undefined : M A).
Proof. by intros w x w'. Qed.

Lemma accounts_silent {A} (m : M A) D N :
  emits silent m → (∀ x, D x = 0) → (∀ x, N x = 0) → accounts fd owed D N m.
Proof.
  intros Hm HD HN w x w' E. apply emits_silent in E as [??]; [|done].
  rewrite HD, HN. unfold zero_of in *. lia.
Qed.
End accounting.

(** Follows a straight-line program. *)
Ltac emits_step :=
  lazymatch goal with
  | |- emits _ (mret _) => apply emits_ret
  | |- emits _ undefined => by intros ???
  | |- emits _ (_ ≫= _) => apply emits_bind; [emits_step|intros; emits_step]
  | |- emits _ (match ?x with _ => _ end) => destruct x eqn:?; emits_step
  | |- emits _ (let _ := _ in _) => cbv zeta; emits_step
  | |- _ => first [by eauto with model | apply emits_tick; intros; repeat constructor | idtac]
  end.

Section silence.
Context `{GLib, Kernel, Desktop}.

Lemma new_token_silent : emits silent new_token.
Proof. unfold new_token. emits_step. Qed.
Lemma find_destination_silent b : emits silent (find_destination b).
Proof. unfold find_destination. emits_step. Qed.
Lemma request_silent c : emits silent (request c).
Proof. unfold request. emits_step. Qed.
Hint Resolve new_token_silent find_destination_silent request_silent : model.
Lemma call_host_portal_silent b m x wr tok : emits silent (call_host_portal b m x wr tok).
Proof. unfold call_host_portal. emits_step. Qed.
Lemma screenshot_request_silent b p o : emits silent (screenshot_request b p o).
Proof. unfold screenshot_request. emits_step. Qed.
Lemma wait_portal_request_silent b i m p f : emits silent (wait_portal_request b i m p f).
Proof. unfold wait_portal_request. emits_step. Qed.
Lemma broker_options_silent b o g : emits silent (broker_options b o g).
Proof. unfold broker_options. emits_step. Qed.
Lemma pidfd_id_silent x : emits silent (pidfd_id x).
Proof. unfold pidfd_id. emits_step. Qed.
Hint Resolve pidfd_id_silent : model.
Lemma set_realtime_silent p t h n : emits silent (set_realtime p t h n).
Proof. unfold set_realtime. emits_step. Qed.
Hint Resolve set_realtime_silent : model.
Lemma make_realtime_silent p t h n : emits silent (make_realtime p t h n).
Proof. unfold make_realtime. emits_step. Qed.
Lemma bounded_file_silent x : emits silent (bounded_file x).
Proof. unfold bounded_file. emits_step. Qed.
Lemma same_object_silent a b : emits silent (same_object a b).
Proof. unfold same_object. emits_step. Qed.
Hint Resolve same_object_silent : model.
Lemma resolve_mapped_silent a b : emits silent (resolve_mapped a b).
Proof. unfold resolve_mapped. emits_step. Qed.
Lemma launcher_parameters_silent b m i : emits silent (launcher_parameters b m i).
Proof. unfold launcher_parameters. emits_step. Qed.
End silence.

#[export] Hint Resolve new_token_silent find_destination_silent request_silent
  call_host_portal_silent screenshot_request_silent wait_portal_request_silent
  broker_options_silent pidfd_id_silent make_realtime_silent bounded_file_silent same_object_silent
  resolve_mapped_silent launcher_parameters_silent copy_staged_silent
  truncate_loop_silent finish_app_secret_silent : model.

(** ** The pieces of the handlers *)

Definition held_if (fd : Z) (x : option Z) : Z :=
  match x with Some x => held fd x | None => 0 end.
Definition held_by {E} (fd : Z) (r : E + Z) : Z :=
  match r with inr x => held fd x | inl _ => 0 end.

(** What a failed look-up leaves unanswered. *)
Definition owed_by {A} (owed : bool) (r : option gerror + A) : Z :=
  match r with inl None => if owed then 1 else 0 | _ => 0 end.

Definition held_locals (fd : Z) (l : locals) : Z :=
  held_if fd l.(secret_guest_fd) + held_if fd l.(secret_host_fd).

Ltac account_leaf := intros; unfold zero_of, held_locals, held_by, owed_by, settled, held_if, held, opened in *; simpl;
  repeat (case_match; simplify_eq/=); lia.

Ltac account :=
  lazymatch goal with
  | |- accounts _ _ _ _ (mret _) => apply accounts_ret; account_leaf
  | |- accounts _ _ _ _ undefined => apply accounts_undefined
  | |- accounts _ _ _ _ ((_ ≫= _) ≫= _) => apply accounts_assoc; account
  | |- accounts _ _ _ _ (mret _ ≫= _) => apply accounts_ret_bind; account
  | |- accounts _ _ _ _ (match ?x with _ => _ end ≫= _) => destruct x eqn:?; simplify_eq/=; account
  | |- accounts _ _ _ _ (_ ≫= _) =>
      eapply accounts_bind;
      [first [by eauto with accounts | apply emits_silent; solve [emits_step]
             | apply accounts_tick_exact | idtac]
      |intros; account]
  | |- accounts _ _ _ _ (match ?x with _ => _ end) => destruct x eqn:?; simplify_eq/=; account
  | |- accounts _ _ _ _ (let _ := _ in _) => cbv zeta; account
  | |- accounts _ _ _ _ _ =>
      first [eapply accounts_eq; [solve [eauto with accounts]|account_leaf..]
            | apply accounts_tick; account_leaf
            | apply accounts_silent; [by eauto with model|account_leaf..] | idtac]
  end.

Create HintDb accounts.

Section pieces.
Context `{GLib, Kernel, Desktop} (fd : Z) (owed : bool).

Lemma close_if_accounts x : accounts fd owed (λ _, - held_if fd x) zero_of (close_if x).
Proof. unfold close_if. account. Qed.

Lemma unlink_if_accounts x : accounts fd owed zero_of zero_of (unlink_if x).
Proof. unfold unlink_if. account. Qed.

Lemma invocation_fd_accounts h : accounts fd owed (held_by fd) (owed_by owed) (invocation_fd h).
Proof. unfold invocation_fd. account. Qed.

Lemma secure_open_accounts m p flags :
  accounts fd owed (held_by fd) zero_of (secure_open m p flags).
Proof. unfold secure_open. account. Qed.

Lemma stage_copy_accounts fuel source kind :
  accounts fd owed zero_of zero_of (stage_copy fuel source kind).
Proof. unfold stage_copy. account. Qed.
Hint Resolve close_if_accounts unlink_if_accounts invocation_fd_accounts
  secure_open_accounts stage_copy_accounts : accounts.

Lemma reopen_accounts m p w method :
  accounts fd owed (λ r, match r with inr (x, _) => held fd x | inl _ => 0 end) zero_of
    (reopen m p w method).
Proof. unfold reopen. account. Qed.
Hint Resolve reopen_accounts : accounts.

Lemma stage_wallpaper_accounts fuel h :
  accounts fd owed (λ r, match r with inr (x, _) => held fd x | inl _ => 0 end) (owed_by owed)
    (stage_wallpaper_fd fuel h).
Proof. unfold stage_wallpaper_fd. account. Qed.
Hint Resolve stage_wallpaper_accounts : accounts.

Lemma retrieve_secret_accounts b a i :
  accounts fd owed (λ r, held_locals fd r.1) (λ r, owed_by owed r.2) (retrieve_secret b a i).
Proof. unfold retrieve_secret. account. Qed.

Lemma set_wallpaper_accounts fuel b i :
  accounts fd owed (λ r, held_locals fd r.1) (λ r, owed_by owed r.2) (set_wallpaper_file fuel b i).
Proof. unfold set_wallpaper_file. account. Qed.

Lemma return_gerror_accounts e :
  accounts fd owed zero_of (λ _, match e with Some _ => 1 | None => 0 end) (return_gerror e).
Proof. unfold return_gerror. account. Qed.
Hint Resolve return_gerror_accounts : accounts.

Lemma portal_failed_accounts fuel l e :
  accounts fd owed (λ _, - held_locals fd l)
    (λ _, match e with Some _ => 1 | None => 0 end) (portal_failed fuel l e).
Proof. unfold portal_failed. account. Qed.
Hint Resolve retrieve_secret_accounts set_wallpaper_accounts portal_failed_accounts : accounts.

Lemma portal_parameters_accounts fuel b i m a input :
  accounts fd owed (λ r, held_locals fd r.1) (λ r, owed_by owed r.2) (portal_parameters fuel b i m a input).
Proof. unfold portal_parameters. account. Qed.
Hint Resolve portal_parameters_accounts : accounts.

Lemma screenshot_file_accounts r results :
  accounts fd owed (λ y, held_if fd y.2) zero_of (screenshot_file r results).
Proof. unfold screenshot_file. account. Qed.
Hint Resolve screenshot_file_accounts : accounts.

End pieces.

#[export] Hint Resolve close_if_accounts unlink_if_accounts invocation_fd_accounts
  secure_open_accounts stage_copy_accounts reopen_accounts stage_wallpaper_accounts
  return_gerror_accounts retrieve_secret_accounts set_wallpaper_accounts
  portal_failed_accounts portal_parameters_accounts screenshot_file_accounts : accounts.

(** ** The handlers: nothing stays open and there is one reply

    or, with [owed], one reply or one unanswered name. *)

Section handlers.
Context `{GLib, Kernel, Desktop} (fd : Z).

Abbreviation complete owed m := (accounts fd owed zero_of (λ _, 1) m).

Lemma portal_request_complete fuel b raw derived i m a input :
  complete true (portal_request_method fuel b raw derived i m a input).
Proof. unfold portal_request_method. account. Qed.

Lemma dynamic_launcher_complete owed b m i : complete owed (dynamic_launcher_method b m i).
Proof. unfold dynamic_launcher_method. account. Qed.

Lemma screenshot_complete owed b p o : complete owed (screenshot_method b p o).
Proof. unfold screenshot_method. account. Qed.

Lemma realtime_complete p t h n : complete true (realtime_method p t h n).
Proof. unfold realtime_method. account. Qed.

Lemma game_mode_complete b m t r : complete false (game_mode_method b m t r).
Proof. unfold game_mode_method. account. Qed.

Lemma resolve_path_complete b p h : complete false (resolve_path_method b p h).
Proof. unfold resolve_path_method. account. Qed.

Lemma stage_file_complete fuel b h : complete false (stage_file_method fuel b h).
Proof. unfold stage_file_method. account. Qed.

Lemma remove_staged_complete owed b uri : complete owed (remove_staged_file_method b uri).
Proof. unfold remove_staged_file_method. account. Qed.

Lemma open_path_complete b m p h w t : complete true (open_path b m p h w t).
Proof. unfold open_path, open_mapped, guest_writable. account. Qed.
End handlers.

(** ** Returning *)

(** The types the interface declares, which GDBus checks, and those the
    broker's formats ask of the variants inside. *)
Definition portal_input (interface method : text) (input : variant) : bool :=
  let names i m := text_eqb interface (str i) && text_eqb method (str m) in
  if names "org.freedesktop.portal.Background"%string "RequestBackground"%string then
    match input with VTuple [VString _; VDict _] => true | _ => false end
  else if names "org.freedesktop.portal.DynamicLauncher"%string "PrepareInstall"%string then
    match input with
    | VTuple [VString _; VString _; VVariant _; VDict _] => true
    | _ => false
    end
  else if names "org.freedesktop.portal.Secret"%string "RetrieveSecret"%string then
    match input with VTuple [VHandle _; VDict _] => true | _ => false end
  else if names "org.freedesktop.portal.Wallpaper"%string "SetWallpaperFile"%string then
    match input with VTuple [VString _; VHandle _; VDict _] => true | _ => false end
  else if names "org.freedesktop.portal.Wallpaper"%string "SetWallpaperURI"%string then
    match input with VTuple [VString _; VString _; VDict _] => true | _ => false end
  else true.

Definition launcher_input (method : text) (input : variant) : bool :=
  let names m := text_eqb method (str m) in
  if names "Install"%string then
    match input with
    | VTuple [VString _; VString _; VString _; VDict _] => true
    | _ => false
    end
  else if names "RequestInstallToken"%string then
    match input with VTuple _ => true | _ => false end
  else if names "Uninstall"%string || names "Launch"%string then
    match input with VTuple [VString _; VDict _] => true | _ => false end
  else if names "GetDesktopEntry"%string || names "GetIcon"%string then
    match input with VTuple [VString _] => true | _ => false end
  else true.

Definition well_typed (method : text) (parameters : list variant) : bool :=
  let names m := text_eqb method (str m) in
  if names "MakeRealtime"%string then
    match parameters with [VHandle _; VHandle _; VBoolean _; VInt32 _] => true | _ => false end
  else if names "MakeGameMode"%string then
    match parameters with [VString _; VHandle _; VHandle _] => true | _ => false end
  else if names "Screenshot"%string then
    match parameters with [VString _; VDict _] => true | _ => false end
  else if names "StageFile"%string then
    match parameters with [VHandle _] => true | _ => false end
  else if names "ResolvePath"%string then
    match parameters with [VString _; VHandle _] => true | _ => false end
  else if names "RemoveStagedFile"%string then
    match parameters with [VString _] => true | _ => false end
  else if names "PortalRequest"%string then
    match parameters with
    | [VString i; VString m; VString _; VVariant input] => portal_input i m input
    | _ => false
    end
  else if names "DynamicLauncherCall"%string then
    match parameters with
    | [VString m; VVariant input] => launcher_input m input
    | _ => false
    end
  else if names "OpenFile"%string then
    match parameters with
    | [VString _; VHandle _; VBoolean _; VString _] => true
    | _ => false
    end
  else if names "OpenDirectory"%string then
    match parameters with [VString _; VHandle _; VString _] => true | _ => false end
  else false.

Ltac returns_step :=
  lazymatch goal with
  | |- returns (mret _) => apply returns_ret
  | |- returns (_ ≫= _) => apply returns_bind; [returns_step|intros; returns_step]
  | |- returns (match ?x with _ => _ end) => destruct x eqn:?; returns_step
  | |- returns (let _ := _ in _) => cbv zeta; returns_step
  | |- returns _ => first [apply returns_tick | by eauto with returns | idtac]
  end.

Create HintDb returns.

Section returning.
Context `{GLib, Kernel, Desktop} (T fuel : nat) (HT : Calm T) (Hfuel : enough T fuel).

Lemma enough_small (n : nat) : (n ≤ Z.to_nat STAGED_FILE_MAXIMUM)%nat → (T + n < fuel)%nat.
Proof. unfold enough, STAGED_FILE_MAXIMUM in *. lia. Qed.

Lemma return_gerror_returns e : returns (return_gerror e).
Proof. unfold return_gerror. returns_step. Qed.
Hint Resolve return_gerror_returns : returns.

Lemma truncate_returns fd : returns (truncate_loop fuel fd).
Proof.
  intros w. apply (truncate_loop_returns T); [done|].
  pose proof (enough_small 0 ltac:(lia)). lia.
Qed.

Lemma copy_returns source output : returns (copy_staged_fd fuel source output).
Proof. by apply (copy_staged_returns T). Qed.
Hint Resolve truncate_returns copy_returns : returns.

Lemma finish_app_secret_returns app host guest raw derived :
  length raw = S SECRET_MAXIMUM → length derived = SECRET_SIZE →
  returns (finish_app_secret fuel app host guest raw derived).
Proof.
  intros Hraw Hderived. unfold finish_app_secret. cbv zeta. case_match; [returns_step|].
  apply returns_bind; [apply returns_tick|]. intros [e|]; [returns_step|].
  apply returns_bind; [|intros [[size|] raw2]; [|returns_step]].
  { intros w. apply (secret_read_returns T); [done|lia|].
    pose proof (enough_small (length raw)). rewrite Hraw in *.
    unfold SECRET_MAXIMUM, STAGED_FILE_MAXIMUM in *. lia. }
  case_match; [returns_step|]. case_match; [|returns_step]. case_match; [returns_step|].
  apply returns_bind; [|intros; returns_step]. apply returns_bind; [|intros; apply returns_ret].
  intros w. apply (write_loop_returns T); [done|].
  pose proof (enough_small 200 ltac:(unfold STAGED_FILE_MAXIMUM; lia)).
  rewrite length_app, length_take, length_drop, Hderived. unfold SECRET_SIZE in *. lia.
Qed.

Lemma invocation_fd_returns h : returns (invocation_fd h).
Proof. unfold invocation_fd. returns_step. Qed.
Lemma new_token_returns : returns new_token.
Proof. unfold new_token. returns_step. Qed.
Lemma find_destination_returns b : returns (find_destination b).
Proof. unfold find_destination. returns_step. Qed.
Lemma request_returns c : returns (request c).
Proof. unfold request. returns_step. Qed.
Lemma close_if_returns x : returns (close_if x).
Proof. unfold close_if. returns_step. Qed.
Lemma unlink_if_returns x : returns (unlink_if x).
Proof. unfold unlink_if. returns_step. Qed.
Lemma secure_open_returns m p flags : returns (secure_open m p flags).
Proof. unfold secure_open. returns_step. Qed.
Hint Resolve invocation_fd_returns new_token_returns find_destination_returns
  request_returns close_if_returns unlink_if_returns secure_open_returns : returns.

Lemma stage_copy_returns source kind : returns (stage_copy fuel source kind).
Proof. unfold stage_copy. returns_step. Qed.
Lemma broker_options_returns b o g : returns (broker_options b o g).
Proof. unfold broker_options. returns_step. Qed.
Lemma pidfd_id_returns x : returns (pidfd_id x).
Proof. unfold pidfd_id. returns_step. Qed.
Lemma same_object_returns x y : returns (same_object x y).
Proof. unfold same_object. returns_step. Qed.
Hint Resolve stage_copy_returns broker_options_returns pidfd_id_returns
  same_object_returns : returns.

Lemma stage_wallpaper_returns h : returns (stage_wallpaper_fd fuel h).
Proof. unfold stage_wallpaper_fd. returns_step. Qed.
Hint Resolve stage_wallpaper_returns : returns.

Lemma portal_parameters_returns b i m a input :
  portal_input i m input = true → returns (portal_parameters fuel b i m a input).
Proof.
  unfold portal_input, portal_parameters, retrieve_secret, set_wallpaper_file. cbv zeta.
  repeat (case_match; try done); intros; returns_step.
Qed.

Lemma launcher_parameters_returns b m input :
  launcher_input m input = true → returns (launcher_parameters b m input).
Proof.
  unfold launcher_input, launcher_parameters. cbv zeta.
  repeat (case_match; try done); intros; returns_step.
Qed.

Lemma finished_returns l response app raw derived :
  length raw = S SECRET_MAXIMUM → length derived = SECRET_SIZE →
  returns match l.(secret_host_fd), l.(secret_guest_fd) with
    | Some host, Some guest =>
        if response =? 0
        then done ← finish_app_secret fuel app host guest raw derived; mret (fst done)
        else mret true
    | _, _ => mret true
    end.
Proof.
  intros Hraw Hderived. returns_step. by apply finish_app_secret_returns.
Qed.

Lemma portal_request_returns b raw derived i m a input :
  length raw = S SECRET_MAXIMUM → length derived = SECRET_SIZE →
  portal_input i m input = true →
  returns (portal_request_method fuel b raw derived i m a input).
Proof.
  intros Hraw Hderived Hin. unfold portal_request_method, portal_failed, wait_portal_request.
  apply returns_bind; [by apply portal_parameters_returns|].
  intros [l [e|p]]; [returns_step|].
  apply returns_bind; [returns_step|]. intros [e|[response results]]; [returns_step|].
  apply returns_bind; [by apply finished_returns|]. intros; returns_step.
Qed.

Lemma open_method_returns b raw derived method parameters :
  length raw = S SECRET_MAXIMUM → length derived = SECRET_SIZE →
  well_typed method parameters = true →
  returns (open_method fuel b raw derived method parameters).
Proof.
  intros Hraw Hderived. unfold well_typed, open_method. cbv zeta.
  repeat (case_match; try done); intros Hin;
    first
      [ apply returns_bind; [by apply portal_request_returns|intros; apply returns_ret]
      | apply returns_bind;
        [|intros; apply returns_ret]; unfold dynamic_launcher_method;
        apply returns_bind; [by apply launcher_parameters_returns|intros; returns_step]
      | unfold realtime_method, make_realtime, set_realtime, game_mode_method, screenshot_method,
          screenshot_request, screenshot_file, bounded_file, stage_file_method,
          resolve_path_method, resolve_mapped, remove_staged_file_method, open_path, open_mapped,
          guest_writable,
          call_host_portal, reopen; returns_step ].
Qed.
End returning.

(** The methods that answer with the error of the look-up, if it has one. *)
Definition answers_lookup (method : text) : bool :=
  let names m := text_eqb method (str m) in
  names "MakeRealtime"%string || names "PortalRequest"%string
  || names "OpenFile"%string || names "OpenDirectory"%string.

Lemma open_method_accounts `{GLib, Kernel, Desktop} (fuel : nat) (b : broker)
    (raw derived method : text) (parameters : list variant) (fd : Z) :
  well_typed method parameters = true →
  accounts fd (answers_lookup method) zero_of (λ _, 1)
    (open_method fuel b raw derived method parameters).
Proof.
  unfold well_typed, open_method, answers_lookup. cbv zeta.
  pose proof (portal_request_complete fd). pose proof (dynamic_launcher_complete fd).
  pose proof (screenshot_complete fd). pose proof (realtime_complete fd).
  pose proof (game_mode_complete fd). pose proof (resolve_path_complete fd).
  pose proof (stage_file_complete fd). pose proof (remove_staged_complete fd).
  pose proof (open_path_complete fd).
  repeat match goal with
  | |- context [text_eqb ?a ?m] =>
      destruct (text_eqb a m) eqn:Hname; cbn [orb];
      [first [discriminate Hname|apply text_eqb_spec in Hname; subst method]
      |first [discriminate Hname|clear Hname]]
  end; intros; repeat (case_match; try done);
    first [done | by eauto | eapply accounts_bind; [eauto|intros; apply accounts_ret; done]].
Qed.

(** C15: Every method call is completed.  If from some time on the kernel
    interrupts no call, every well-typed call of any method returns, whatever
    the kernel, the bus and the portal answer on the way and whichever step
    fails; every descriptor that was opened for it is then closed again, once.
    It has been answered exactly once, with one exception: [MakeRealtime],
    [PortalRequest], [OpenFile] and [OpenDirectory] send no answer when the
    call names a descriptor by an index its message does not have. *)
Theorem open_method_complete `{GLib, Kernel, Desktop} (T fuel : nat) (b : broker)
    (raw derived method : text) (parameters : list variant) (t : nat) :
  Calm T → enough T fuel →
  length raw = S SECRET_MAXIMUM → length derived = SECRET_SIZE →
  well_typed method parameters = true →
  ∃ staged w', open_method fuel b raw derived method parameters (World t []) =
      Returned staged w' ∧
    (∀ fd, live fd w'.(trace) = 0) ∧
    replies w'.(trace) = if answers_lookup method then 1 - lost w'.(trace) else 1.
Proof.
  intros HT Hfuel Hraw Hderived Htyped.
  destruct (open_method_returns T fuel HT Hfuel b raw derived method parameters Hraw Hderived
    Htyped (World t [])) as (staged & w' & E).
  exists staged, w'. split; [done|].
  assert (∀ fd, live fd w'.(trace) = 0 ∧ settled (answers_lookup method) w'.(trace) = 1)
    as Hall.
  { intros fd. destruct (open_method_accounts fuel b raw derived method parameters fd Htyped
      _ _ _ E) as [-> ->].
    by destruct (answers_lookup method). }
  split; [apply Hall|]. destruct (Hall 0) as [_ Hs]. revert Hs. unfold settled.
  case_match; lia.
Qed.
