(* ===== verification/Confined.v ===== *)
(** * What a guest can make the host broker do

    The calls the broker stands for, and the theorems that no other call is
    made, and that real-time priority goes only to threads the guest holds
    descriptors of. *)

From S2P Require Import Prelude Glib Host Portal Requests RequestsInv Methods MethodsInv.

(** ** The calls the broker stands for *)

Definition enter_command (b : broker) : list text :=
  [str "/usr/bin/spaces"; str "enter"; str "--graphical"; b.(space_name); str "--"].

Definition enter_line (b : broker) : text :=
  str "/usr/bin/spaces enter --graphical " ++ b.(space_name) ++ str " -- ".

(** A command line for autostart enters the space first. *)
Definition wrapped_options (b : broker) (options : vardict) : Prop :=
  ∀ l, (str "commandline", VStrings l) ∈ options → enter_command b `prefix_of` l.

(** A launcher that is the application's own. *)
Definition owned_launcher (b : broker) (id : text) : Prop :=
  (b.(app_id) ++ str ".") `prefix_of` id ∧ str ".desktop" `suffix_of` id ∧
  ("/"%char ∉ b.(app_id) → "/"%char ∉ id).

Definition runs_command (group : text) : Prop :=
  group = DESKTOP_GROUP ∨ str "Desktop Action " `prefix_of` group.

(** Every command of a desktop entry enters the space first. *)
Definition wrapped_entry `{Desktop} (b : broker) (entry host_entry : text) : Prop :=
  ∃ loaded k, key_load entry = inr loaded ∧ key_data k = inr host_entry ∧
    key_get k DESKTOP_GROUP (str "TryExec") = None ∧
    ∀ group, group ∈ key_groups loaded → runs_command group →
      match key_get loaded group (str "Exec") with
      | Some command => ∃ c, key_get k group (str "Exec") = Some (enter_line b ++ c)
      | None => key_get k group (str "Exec") = None
      end.

Inductive portal_call `{Desktop} (b : broker) : text → text → list variant → fd_list → Prop :=
  | call_open method fd options :
      method = str "OpenFile" ∨ method = str "OpenDirectory" →
      portal_call b (str "org.freedesktop.portal.OpenURI") method
        [VString []; VHandle 0; VDict options] (OwnFds [fd])
  | call_screenshot parent options :
      portal_call b (str "org.freedesktop.portal.Screenshot") (str "Screenshot")
        [VString parent; VDict options] NoFds
  | call_background parent options :
      wrapped_options b options →
      portal_call b (str "org.freedesktop.portal.Background") (str "RequestBackground")
        [VString parent; VDict options] GuestFds
  | call_prepare parent name icon options :
      portal_call b (str "org.freedesktop.portal.DynamicLauncher") (str "PrepareInstall")
        [VString parent; VString name; VVariant icon; VDict options] GuestFds
  | call_secret fd options :
      portal_call b (str "org.freedesktop.portal.Secret") (str "RetrieveSecret")
        [VHandle 0; VDict options] (OwnFds [fd])
  | call_wallpaper_file parent fd options :
      portal_call b (str "org.freedesktop.portal.Wallpaper") (str "SetWallpaperFile")
        [VString parent; VHandle 0; VDict options] (OwnFds [fd])
  | call_wallpaper_uri parent uri options :
      ¬ str "file:" `prefix_of` uri →
      portal_call b (str "org.freedesktop.portal.Wallpaper") (str "SetWallpaperURI")
        [VString parent; VString uri; VDict options] GuestFds
  | call_install token id entry host_entry options :
      owned_launcher b id → wrapped_entry b entry host_entry →
      portal_call b (str "org.freedesktop.portal.DynamicLauncher") (str "Install")
        [VString token; VString id; VString host_entry; VDict options] NoFds
  | call_token parameters :
      portal_call b (str "org.freedesktop.portal.DynamicLauncher") (str "RequestInstallToken")
        parameters NoFds
  | call_launcher method id options :
      method = str "Uninstall" ∨ method = str "Launch" → owned_launcher b id →
      portal_call b (str "org.freedesktop.portal.DynamicLauncher") method
        [VString id; VDict options] NoFds
  | call_entry method id :
      method = str "GetDesktopEntry" ∨ method = str "GetIcon" → owned_launcher b id →
      portal_call b (str "org.freedesktop.portal.DynamicLauncher") method [VString id] NoFds
  | call_game method t r :
      method = str "QueryStatusByPIDFd" ∨ method = str "RegisterGameByPIDFd" ∨
        method = str "UnregisterGameByPIDFd" →
      portal_call b (str "org.freedesktop.portal.GameMode") method [VHandle t; VHandle r] GuestFds.

Definition rtkit_call (c : dbus_call) : Prop :=
  c.(c_bus) = SystemBus ∧ c.(c_destination) = RTKIT_NAME ∧ c.(c_path) = RTKIT_PATH ∧
  c.(c_fds) = NoFds ∧
  ((c.(c_interface) = str "org.freedesktop.DBus.Properties" ∧ c.(c_method) = str "Get" ∧
    c.(c_parameters) = [VString RTKIT_NAME; VString (str "RTTimeUSecMax")]) ∨
   c.(c_interface) = RTKIT_NAME ∧
   (c.(c_method) = str "MakeThreadHighPriorityWithPID" ∨
    c.(c_method) = str "MakeThreadRealtimeWithPID") ∧
   ∃ process thread priority,
     c.(c_parameters) = [VUint64 process; VUint64 thread; priority]).

Definition owner_query : dbus_call :=
  DBusCall SessionBus (str "org.freedesktop.DBus") (str "/org/freedesktop/DBus")
    (str "org.freedesktop.DBus") (str "GetNameOwner") [VString PORTAL_NAME] NoFds.

(** Calls to the portal go to the process the broker is registered with. *)
Definition confined `{Desktop} (b : broker) (c : dbus_call) : Prop :=
  c = owner_query ∨ rtkit_call c ∨
  c.(c_bus) = SessionBus ∧ c.(c_path) = PORTAL_PATH ∧
  portal_destination (Some c.(c_destination)) b.(identity) = Some c.(c_destination) ∧
  portal_call b c.(c_interface) c.(c_method) c.(c_parameters) c.(c_fds).

Definition confined_event `{Desktop} (b : broker) (e : event) : Prop :=
  match e with ECall c _ => confined b c | _ => True end.

(** The options of a request, if it carries some; a dictionary may come with
    one key twice. *)
Definition distinct_options (parameters : list variant) : Prop :=
  match parameters with
  | [_; _; _; VVariant (VTuple [VString _; VDict options])] => NoDup (map fst options)
  | _ => True
  end.

(** ** Options *)

Lemma elem_of_dict_insert key value d k v :
  (k, v) ∈ dict_insert key value d → (k = key ∧ v = value) ∨ (k ≠ key ∧ (k, v) ∈ d).
Proof.
  unfold dict_insert. rewrite elem_of_app, list_elem_of_filter, list_elem_of_singleton.
  simpl. intros [[? ?]|[= -> ->]]; auto.
Qed.

Lemma elem_of_dict_init entries k v : (k, v) ∈ dict_init entries → (k, v) ∈ entries.
Proof.
  unfold dict_init.
  assert (∀ acc, (k, v) ∈ foldl (λ d e, dict_insert e.1 e.2 d) acc entries →
    (k, v) ∈ acc ∨ (k, v) ∈ entries) as Hg.
  { induction entries as [|[k' v'] es IH]; intros acc Hin; simpl in *; [auto|].
    apply IH in Hin as [Hin|Hin]; [|right; by right].
    apply elem_of_dict_insert in Hin as [[-> ->]|[_ ?]]; [right; by left|auto]. }
  intros [Hin|?]%Hg; [|done]. by apply not_elem_of_nil in Hin.
Qed.

Lemma dict_first_unique entries k v :
  NoDup (map fst entries) → (k, v) ∈ entries → dict_first entries k = Some v.
Proof.
  unfold dict_first. induction entries as [|[k' v'] es IH]; simpl; intros Hn Hin.
  - by apply not_elem_of_nil in Hin.
  - apply NoDup_cons in Hn as [Hk Hn]. rewrite filter_cons. simpl.
    apply elem_of_cons in Hin as [[= <- <-]|Hin]; [by rewrite decide_True|].
    rewrite decide_False; [by apply IH|]. intros ->. apply Hk.
    apply list_elem_of_fmap. by exists (k, v).
Qed.

Section options.
Context `{Kernel}.

Lemma broker_options_wrapped b options w x w' :
  broker_options b options true w = Returned x w' →
  NoDup (map fst options) → wrapped_options b x.
Proof.
  unfold broker_options. intros (token & w1 & _ & [-> ->]%M_ret_returned)%M_bind_returned.
  intros Hn l Hl.
  assert (∀ d, (str "commandline", VStrings l) ∈
      dict_insert (str "handle_token") (VString token) d → (str "commandline", VStrings l) ∈ d)
    as Htok by (intros d [[Hk _]|[_ ?]]%elem_of_dict_insert; [by vm_compute in Hk|done]).
  destruct (dict_first options (str "commandline")) as [v|] eqn:Hfirst.
  - assert (∀ l', v = VStrings l' → l = enter_command b ++ l' → enter_command b `prefix_of` l)
      as Hpre by (intros l' _ ->; by apply prefix_app_r).
    destruct v as [| | | | | | | |l'| | | | | |];
      try (apply Htok, elem_of_dict_init, dict_first_unique in Hl; [congruence|done]).
    apply elem_of_dict_insert in Hl as [[_ [= ->]]|[? _]]; [by eapply Hpre|done].
  - apply Htok, elem_of_dict_init, dict_first_unique in Hl; [congruence|done].
Qed.

Lemma find_destination_registered b w d w' :
  find_destination b w = Returned (inr d) w' →
  portal_destination (Some d) b.(identity) = Some d.
Proof.
  unfold find_destination. intros (reply & w1 & _ & [Hd _]%M_ret_returned)%M_bind_returned.
  destruct (portal_destination _ b.(identity)) as [o|] eqn:E; [|done].
  injection Hd as ->. revert E. unfold portal_destination.
  destruct reply as [|[|[] []]]; try done. case_match eqn:E; [|done]. intros [= <-].
  by rewrite E.
Qed.
End options.

(** ** Launchers *)

Lemma has_suffix_spec value suffix :
  has_suffix value suffix = true → suffix `suffix_of` value.
Proof.
  unfold has_suffix. rewrite andb_true_iff, !bool_decide_eq_true. intros [_ <-].
  apply suffix_drop.
Qed.

Lemma broker_launcher_id_owned b id host_id :
  broker_launcher_id b id = Some host_id → owned_launcher b host_id.
Proof.
  unfold broker_launcher_id, owned_launcher.
  destruct (bool_decide ("/"%char ∈ id)) eqn:Hslash; [done|].
  apply bool_decide_eq_false in Hslash.
  destruct (has_suffix id (str ".desktop")) eqn:Hsuf; [|done]. apply has_suffix_spec in Hsuf.
  cbn [orb negb]. case_match eqn:Hpre.
  - intros [= <-]. apply andb_true_iff in Hpre as [[rest ->]%has_prefix_spec Hdot].
    apply bool_decide_eq_true in Hdot. rewrite lookup_app_r, Nat.sub_diag in Hdot by lia.
    destruct rest as [|c rest]; [done|]. injection Hdot as ->.
    split_and!; [|done|done]. exists rest. by rewrite <- app_assoc.
  - intros [= <-]. split_and!.
    + exists id. by rewrite <- app_assoc.
    + destruct Hsuf as [r ->]. exists (b.(app_id) ++ str "." ++ r). by rewrite <- !app_assoc.
    + intros Happ [Hin|[Hin|Hin]%elem_of_cons]%elem_of_app; done.
Qed.

(** ** Desktop entries *)

Section entries.
Context `{Desktop} (b : broker) (Hspace : utf8_valid b.(space_name) = true).

Definition is_wrapped (loaded k : keyfile) (group : text) : Prop :=
  match key_get loaded group (str "Exec") with
  | Some _ => ∃ c, key_get k group (str "Exec") = Some (enter_line b ++ c)
  | None => key_get k group (str "Exec") = None
  end.

Lemma utf8_ascii (s : text) : forallb (λ c, code c <? 128) s = true → utf8_valid s = true.
Proof.
  intros Hs. apply utf8_valid_ascii, List.Forall_forall. intros c Hc.
  rewrite forallb_forall in Hs. apply Hs in Hc. lia.
Qed.

Lemma wrapped_valid k group command :
  key_get k group (str "Exec") = Some command → utf8_valid (enter_line b ++ command) = true.
Proof.
  intros Hc. unfold enter_line.
  apply utf8_valid_app; [|by eapply key_get_valid].
  apply utf8_valid_app; [by apply utf8_ascii; vm_compute|].
  apply utf8_valid_app; [done|by apply utf8_ascii; vm_compute].
Qed.

Definition selected (group : text) : bool :=
  text_eqb group DESKTOP_GROUP || has_prefix group (str "Desktop Action ").

Lemma wrap_exec_get k group g :
  key_get (wrap_exec b k group) g (str "Exec") =
    if decide (g = group ∧ selected group = true)
    then (λ c, enter_line b ++ c) <$> key_get k g (str "Exec")
    else key_get k g (str "Exec").
Proof.
  unfold wrap_exec. fold (selected group). destruct (selected group).
  - destruct (key_get k group (str "Exec")) as [command|] eqn:E.
    + replace (str "/usr/bin/spaces enter --graphical " ++ b.(space_name) ++
        str " -- " ++ command) with (enter_line b ++ command)
        by (unfold enter_line; by rewrite <- !app_assoc).
      case_decide as Hg.
      * destruct Hg as [-> _]. rewrite E. apply key_get_set. by eapply wrapped_valid.
      * apply key_get_set_ne. intros [= ->]. by apply Hg.
    + case_decide as Hg; [|done]. destruct Hg as [-> _]. by rewrite E.
  - case_decide as Hg; [|done]. by destruct Hg.
Qed.

(** A file may be processed further without losing a wrapper. *)
Lemma wrap_groups_get groups k g :
  selected g = true →
  match key_get k g (str "Exec") with
  | Some c => ∃ c', key_get (foldl (wrap_exec b) k groups) g (str "Exec") = Some c' ∧
      (g ∈ groups ∨ (∃ c0, c = enter_line b ++ c0) → ∃ c0, c' = enter_line b ++ c0)
  | None => key_get (foldl (wrap_exec b) k groups) g (str "Exec") = None
  end.
Proof.
  intros Hg. revert k. induction groups as [|group groups IH]; intros k; cbn [foldl].
  { destruct (key_get k g (str "Exec")); [|done]. eexists. split; [done|].
    intros [Hin|?]; [by apply not_elem_of_nil in Hin|done]. }
  specialize (IH (wrap_exec b k group)). rewrite wrap_exec_get in IH.
  destruct (key_get k g (str "Exec")) as [c|].
  - case_decide as Hd; cbn [fmap option_fmap option_map] in IH;
      destruct IH as (c' & Hc' & Hw); exists c'; (split; [done|]).
    + intros _. apply Hw. right. by eexists.
    + intros [[-> |Hin]%elem_of_cons|?]; [by destruct Hd|auto|auto].
  - case_decide; exact IH.
Qed.

Lemma broker_desktop_entry_wrapped entry host_entry :
  broker_desktop_entry b entry = inr host_entry → wrapped_entry b entry host_entry.
Proof.
  unfold broker_desktop_entry. case_match; [done|].
  destruct (key_load entry) as [e|loaded] eqn:Hload; [done|].
  set (k := foldl (wrap_exec b) loaded (key_groups loaded)).
  intros Hdata. eexists loaded, _. split; [done|]. split; [exact Hdata|].
  assert (∀ g, key_get (key_set_boolean (key_remove (key_remove k DESKTOP_GROUP (str "TryExec"))
      DESKTOP_GROUP (str "Path")) DESKTOP_GROUP (str "DBusActivatable") false) g (str "Exec") =
      key_get k g (str "Exec")) as Hexec.
  { intros g. rewrite key_get_boolean_ne by (by intros [= _ ?]).
    rewrite !key_get_remove, !decide_False by (by intros [= _ ?]). done. }
  split.
  { rewrite key_get_boolean_ne by (by intros [= ?]).
    rewrite !key_get_remove, decide_False by (by intros [= ?]). by rewrite decide_True. }
  intros g Hin Hrun. rewrite Hexec.
  assert (selected g = true) as Hsel.
  { unfold selected. apply orb_true_iff. destruct Hrun as [-> |[rest ->]].
    - left. apply text_eqb_refl.
    - right. apply has_prefix_spec. by eexists. }
  pose proof (wrap_groups_get (key_groups loaded) loaded g Hsel) as Hw.
  destruct (key_get loaded g (str "Exec")) as [c|]; [|done].
  destruct Hw as (c' & Hc' & Hw). destruct (Hw (or_introl Hin)) as [c0 ->]. by exists c0.
Qed.
End entries.

(** ** The handlers *)

Ltac conf_step :=
  lazymatch goal with
  | |- emits _ (mret _) => apply emits_ret
  | |- emits _ undefined => by intros ???
  | |- emits _ (_ ≫= _) => apply emits_bind; [conf_step|intros; conf_step]
  | |- emits _ (match ?x with _ => _ end) => destruct x eqn:?; simplify_eq/=; conf_step
  | |- emits _ (let _ := _ in _) => cbv zeta; conf_step
  | |- emits (confined_event _) _ =>
      first
        [ by eauto with confined
        | apply emits_tick; intros; unfold opened; repeat case_match;
          repeat (apply Forall_cons; split); try apply Forall_nil; try exact I
        | idtac ]
  end.

Create HintDb confined.

Section handlers.
Context `{GLib, Kernel, Desktop} (b : broker).

Lemma emits_quiet {A} (m : M A) : emits quiet m → emits (confined_event b) m.
Proof. apply emits_mono. by intros []. Qed.

Lemma find_destination_confined : emits (confined_event b) (find_destination b).
Proof. unfold find_destination. conf_step. by left. Qed.

Lemma new_token_confined : emits (confined_event b) new_token.
Proof. unfold new_token. conf_step. Qed.

Lemma request_confined c : confined b c → emits (confined_event b) (request c).
Proof. intros Hc. unfold request. conf_step. done. Qed.

Lemma close_if_confined x : emits (confined_event b) (close_if x).
Proof. unfold close_if. conf_step. Qed.
Lemma unlink_if_confined x : emits (confined_event b) (unlink_if x).
Proof. unfold unlink_if. conf_step. Qed.
Lemma invocation_fd_confined h : emits (confined_event b) (invocation_fd h).
Proof. unfold invocation_fd. conf_step. Qed.
Lemma secure_open_confined m p f : emits (confined_event b) (secure_open m p f).
Proof. unfold secure_open. conf_step. Qed.
Lemma truncate_confined fuel fd : emits (confined_event b) (truncate_loop fuel fd).
Proof. apply emits_quiet, truncate_loop_quiet. Qed.
Lemma copy_confined fuel s o : emits (confined_event b) (copy_staged_fd fuel s o).
Proof. apply emits_quiet, copy_staged_quiet. Qed.
Lemma finish_confined fuel a h g r d :
  emits (confined_event b) (finish_app_secret fuel a h g r d).
Proof. apply emits_quiet, finish_app_secret_quiet. Qed.
Hint Resolve find_destination_confined new_token_confined close_if_confined
  unlink_if_confined invocation_fd_confined secure_open_confined truncate_confined
  copy_confined finish_confined : confined.

Lemma broker_options_confined o g : emits (confined_event b) (broker_options b o g).
Proof. unfold broker_options. conf_step. Qed.
Lemma stage_copy_confined fuel s k : emits (confined_event b) (stage_copy fuel s k).
Proof. unfold stage_copy. conf_step. Qed.
Lemma pidfd_id_confined x : emits (confined_event b) (pidfd_id x).
Proof. unfold pidfd_id. conf_step. Qed.
Lemma same_object_confined x y : emits (confined_event b) (same_object x y).
Proof. unfold same_object. conf_step. Qed.
Hint Resolve broker_options_confined stage_copy_confined pidfd_id_confined
  same_object_confined : confined.
Lemma stage_wallpaper_confined fuel h : emits (confined_event b) (stage_wallpaper_fd fuel h).
Proof. unfold stage_wallpaper_fd. conf_step. Qed.
Hint Resolve stage_wallpaper_confined : confined.

(** *** The parameters that reach the portal *)

Lemma portal_parameters_confined fuel i m a input :
  emits (confined_event b) (portal_parameters fuel b i m a input).
Proof. unfold portal_parameters, retrieve_secret, set_wallpaper_file. conf_step. Qed.

Lemma portal_parameters_call fuel i m a input w l p w' :
  distinct_options [VString i; VString m; VString a; VVariant input] →
  portal_parameters fuel b i m a input w = Returned (l, inr p) w' →
  portal_call b i m p l.(outgoing_fds).
Proof.
  intros Hn. unfold portal_parameters, retrieve_secret, set_wallpaper_file. cbv zeta.
  repeat (case_match; try done); intros Hr.
  all: match goal with
    | H : text_eqb ?i _ && text_eqb ?m _ = true |- _ =>
        apply andb_true_iff in H as [->%text_eqb_spec ->%text_eqb_spec]
    end.
  all: repeat first [progress run_inv | case_match]; simplify_eq/=.
  - apply call_background. by eapply broker_options_wrapped.
  - apply call_prepare.
  - apply call_secret.
  - apply call_wallpaper_file.
  - apply call_wallpaper_uri. intros Hfile%has_prefix_spec. congruence.
Qed.

Lemma launcher_parameters_call m input w p w' :
  utf8_valid b.(space_name) = true →
  launcher_parameters b m input w = Returned (inr p) w' →
  portal_call b (str "org.freedesktop.portal.DynamicLauncher") m p NoFds.
Proof.
  intros Hspace. unfold launcher_parameters. cbv zeta.
  repeat (case_match; try done); intros Hr; run_inv.
  all: repeat match goal with
    | H : text_eqb ?m _ || text_eqb ?m _ = true |- _ => apply orb_true_iff in H
    | H : text_eqb ?m _ = true |- _ => apply text_eqb_spec in H
    | H : text_eqb ?m _ = true ∨ text_eqb ?m _ = true |- _ =>
        rewrite !text_eqb_spec in H
    end; simplify_eq.
  - apply call_install with (entry := s1); [by eapply broker_launcher_id_owned|].
    by apply broker_desktop_entry_wrapped.
  - apply call_token.
  - apply call_launcher; [done|by eapply broker_launcher_id_owned].
  - apply call_entry; [done|by eapply broker_launcher_id_owned].
Qed.

(** *** The calls *)

Lemma confined_portal d i m p f :
  portal_destination (Some d) b.(identity) = Some d → portal_call b i m p f →
  confined b (DBusCall SessionBus d PORTAL_PATH i m p f).
Proof. intros. right. right. by split_and!. Qed.

(** A program that asks for the destination and goes on with it. *)
Lemma with_destination {A} (f : gerror + text → M A) :
  (∀ e, emits (confined_event b) (f (inl e))) →
  (∀ d, portal_destination (Some d) b.(identity) = Some d →
    emits (confined_event b) (f (inr d))) →
  emits (confined_event b) (find_destination b ≫= f).
Proof.
  intros Hl Hr. apply emits_bind; [apply find_destination_confined|].
  intros w [e|d] w' E; [apply Hl|]. apply Hr. by eapply find_destination_registered.
Qed.

Lemma wait_portal_request_confined i m p f :
  portal_call b i m p f → emits (confined_event b) (wait_portal_request b i m p f).
Proof.
  intros Hc. apply with_destination; [intros; apply emits_ret|]. intros d Hd.
  by apply request_confined, confined_portal.
Qed.

Lemma call_host_portal_confined method fd wr token :
  method = str "OpenFile" ∨ method = str "OpenDirectory" →
  emits (confined_event b) (call_host_portal b method fd wr token).
Proof.
  intros Hm. apply with_destination; [intros; apply emits_ret|]. intros d Hd. conf_step.
  by apply request_confined, confined_portal, call_open.
Qed.

Lemma screenshot_request_confined p o : emits (confined_event b) (screenshot_request b p o).
Proof.
  apply with_destination; [intros; apply emits_ret|]. intros d Hd. conf_step.
  by apply request_confined, confined_portal, call_screenshot.
Qed.

Lemma portal_request_confined fuel raw derived i m a input :
  distinct_options [VString i; VString m; VString a; VVariant input] →
  emits (confined_event b) (portal_request_method fuel b raw derived i m a input).
Proof.
  intros Hn. unfold portal_request_method, portal_failed, return_gerror.
  apply emits_bind; [apply portal_parameters_confined|].
  intros w [l [e|p]] w' E; [conf_step|].
  apply emits_bind; [|intros; conf_step].
  eapply wait_portal_request_confined, portal_parameters_call; [exact Hn|exact E].
Qed.

Lemma launcher_parameters_confined m input :
  emits (confined_event b) (launcher_parameters b m input).
Proof. unfold launcher_parameters. conf_step. Qed.

Lemma dynamic_launcher_confined m input :
  utf8_valid b.(space_name) = true →
  emits (confined_event b) (dynamic_launcher_method b m input).
Proof.
  intros Hspace. apply emits_bind; [apply launcher_parameters_confined|].
  intros w [e|p] w' E; [conf_step|].
  apply with_destination; [intros; conf_step|]. intros d Hd. conf_step.
  all: by eapply confined_portal, launcher_parameters_call.
Qed.

Lemma screenshot_confined p o : emits (confined_event b) (screenshot_method b p o).
Proof.
  apply emits_bind; [apply screenshot_request_confined|].
  intros; unfold screenshot_file, bounded_file; conf_step.
Qed.

Lemma set_realtime_confined p t h n : emits (confined_event b) (set_realtime p t h n).
Proof.
  unfold set_realtime. apply emits_bind.
  { conf_step. right. left. split_and!; auto. }
  intros ? [|[|[] [|]]] ? _; try apply emits_ret; (case_match; try apply emits_ret).
  case_match; [apply emits_ret|]. apply emits_bind; [conf_step|].
  intros ? [|] ? _; [apply emits_ret|]. apply emits_bind; [|intros; apply emits_ret].
  conf_step; right; left; (split_and!; auto); right; cbn; split_and!; eauto.
Qed.
Hint Resolve set_realtime_confined : confined.

Lemma make_realtime_confined p t h n : emits (confined_event b) (make_realtime p t h n).
Proof. unfold make_realtime. conf_step. Qed.
Hint Resolve make_realtime_confined : confined.

Lemma realtime_confined p t h n : emits (confined_event b) (realtime_method p t h n).
Proof. unfold realtime_method, return_gerror. conf_step. Qed.

Lemma game_mode_confined m t r : emits (confined_event b) (game_mode_method b m t r).
Proof.
  unfold game_mode_method. destruct (_ && _ && _) eqn:Hm; [conf_step|].
  assert (m = str "QueryStatusByPIDFd" ∨ m = str "RegisterGameByPIDFd" ∨
    m = str "UnregisterGameByPIDFd") as Hnames.
  { rewrite <- !text_eqb_spec. rewrite !andb_false_iff, !negb_false_iff in Hm. tauto. }
  assert (∀ d, portal_destination (Some d) b.(identity) = Some d →
    confined b (DBusCall SessionBus d PORTAL_PATH (str "org.freedesktop.portal.GameMode") m
      [VHandle t; VHandle r] GuestFds)) as Hc.
  { intros d Hd. by apply confined_portal, call_game. }
  conf_step. all: try (eapply Hc, find_destination_registered; eassumption).
Qed.

Lemma resolve_path_confined p h : emits (confined_event b) (resolve_path_method b p h).
Proof. unfold resolve_path_method, resolve_mapped. conf_step. Qed.

Lemma stage_file_confined fuel h : emits (confined_event b) (stage_file_method fuel b h).
Proof. unfold stage_file_method. conf_step. Qed.

Lemma remove_staged_confined uri : emits (confined_event b) (remove_staged_file_method b uri).
Proof. unfold remove_staged_file_method. conf_step. Qed.

Lemma open_path_confined method p h w t :
  method = str "OpenFile" ∨ method = str "OpenDirectory" →
  emits (confined_event b) (open_path b method p h w t).
Proof.
  intros Hm. pose proof (λ fd wr tok, call_host_portal_confined method fd wr tok Hm).
  unfold open_path, open_mapped, guest_writable, reopen, return_gerror. conf_step.
Qed.
End handlers.

(** C2: Whatever a guest calls, with whatever arguments, and whatever the
    kernel and the bus answer, the broker makes no D-Bus call but: asking who
    owns the portal's name; reading RealtimeKit's limit and asking it for
    priority; and, with the process it is registered with as the destination,
    one of seventeen portal methods, in the form [portal_call] describes.  So
    autostart command lines and the commands of desktop entries enter the
    space first, launchers carry the application's own id, secrets and files
    travel in descriptors of the broker's own, and no local wallpaper is named
    by URI.  The options of an autostart request must not repeat a key (see
    [duplicate_commandline_unwrapped]). *)
Theorem broker_calls_confined `{GLib, Kernel, Desktop} (fuel : nat) (b : broker)
    (raw derived method : text) (parameters : list variant) (t : nat)
    (staged : list text) (w' : world) (c : dbus_call) (r : gerror + list variant) :
  utf8_valid b.(space_name) = true →
  well_typed method parameters = true → distinct_options parameters →
  open_method fuel b raw derived method parameters (World t []) = Returned staged w' →
  ECall c r ∈ w'.(trace) → confined b c.
Proof.
  intros Hspace Htyped Hn Hrun Hin.
  enough (emits (confined_event b) (open_method fuel b raw derived method parameters)) as He
    by (by apply (emits_start _ _ _ _ _ _ He Hrun) in Hin).
  clear Hrun Hin. revert Htyped Hn. unfold well_typed, open_method. cbv zeta.
  pose proof (portal_request_confined b fuel raw derived).
  pose proof (λ m i, dynamic_launcher_confined b m i Hspace).
  pose proof (screenshot_confined b). pose proof (realtime_confined b).
  pose proof (game_mode_confined b). pose proof (resolve_path_confined b).
  pose proof (stage_file_confined b fuel). pose proof (remove_staged_confined b).
  pose proof (open_path_confined b method).
  repeat (case_match; try done); intros Htyped Hn; rewrite ?text_eqb_spec in *;
    first [done | apply emits_bind; [eauto|intros; apply emits_ret]].
Qed.

(** ** Real-time priority *)

Definition fdinfo_path (fd : Z) : text := str "/proc/self/fdinfo/" ++ signed_decimal fd.

(** The process or thread behind a descriptor, as the kernel reported it. *)
Definition identified `{GLib, Desktop} (fd id : Z) (tr : list event) : Prop :=
  ∃ contents, EContents (fdinfo_path fd) (inr contents) ∈ tr ∧ pidfd_value contents = Some id.

(** What is known before anything is changed. *)
Definition realtime_checked `{GLib, Desktop} (process_fd thread_fd process thread limit : Z)
    (tr : list event) : Prop :=
  identified process_fd process tr ∧ identified thread_fd thread tr ∧
  (∃ s, EStat (task_path process thread) (inr s) ∈ tr) ∧
  (∃ c, ECall c (inr [VVariant (VInt64 limit)]) ∈ tr ∧ c.(c_method) = str "Get") ∧
  0 < limit.

(** Events that change nothing. *)
Definition harmless (e : event) : Prop :=
  match e with
  | EPrlimit _ _ _ => False
  | ECall c _ => c.(c_method) = str "Get"
  | _ => True
  end.

Lemma pidfd_id_spec `{GLib, Kernel, Desktop} fd r w w' :
  pidfd_id fd w = Returned r w' → Forall harmless w.(trace) →
  Forall harmless w'.(trace) ∧ w.(trace) ⊆ w'.(trace) ∧
  ∀ id, r = inr id → identified fd id w'.(trace).
Proof.
  unfold pidfd_id. cbv zeta. case_match.
  { intros [-> ->]%M_ret_returned Hw. by split_and!. }
  intros (x & w1 & [_ ->]%tick_returned & [-> ->]%M_ret_returned)%M_bind_returned Hw.
  split_and!; [by constructor|intros e He; by right|].
  intros id. destruct x as [e|contents]; [done|].
  destruct (pidfd_value contents) as [v|] eqn:Hv; [|done]. intros [= ->].
  exists contents. split; [by left|done].
Qed.

Lemma identified_mono `{GLib, Desktop} fd id tr tr' :
  tr ⊆ tr' → identified fd id tr → identified fd id tr'.
Proof. intros Hsub (c & ? & ?). exists c. auto. Qed.

Lemma realtime_checked_mono `{GLib, Desktop} p t process thread limit tr tr' :
  tr ⊆ tr' → realtime_checked p t process thread limit tr →
  realtime_checked p t process thread limit tr'.
Proof.
  intros Hsub (? & ? & (s & ?) & (c & ? & ?) & ?).
  split_and!; eauto using identified_mono.
Qed.

(** How a run ends: nothing was changed, or the checks came first, then the
    limit and last, if it was set, the request. *)
Definition realtime_end `{GLib, Desktop} (process_fd thread_fd : Z) (priority : variant)
    (tr : list event) : Prop :=
  Forall harmless tr ∨ ∃ process thread limit x rest,
    realtime_checked process_fd thread_fd process thread limit rest ∧ Forall harmless rest ∧
    (tr = EPrlimit (int_of_u32 (u32 process)) limit x :: rest ∨
     x = inr tt ∧ ∃ c y, tr = ECall c y :: EPrlimit (int_of_u32 (u32 process)) limit x :: rest ∧
       c.(c_parameters) = [VUint64 process; VUint64 thread; priority]).

Definition priority_value (high : bool) (priority : Z) : variant :=
  if high then VInt32 priority else VUint32 (u32 priority).

Lemma set_realtime_end `{GLib, Kernel, Desktop} p t process thread s high priority r w w' :
  identified p process w.(trace) → identified t thread w.(trace) →
  EStat (task_path process thread) (inr s) ∈ w.(trace) → Forall harmless w.(trace) →
  set_realtime process thread high priority w = Returned r w' →
  realtime_end p t (priority_value high priority) w'.(trace).
Proof.
  intros Hp Ht Hs Hw. unfold set_realtime.
  intros (reply & w4 & [_ ->]%tick_returned & Hrun)%M_bind_returned. cbn [trace app] in Hrun.
  set (get := DBusCall SystemBus RTKIT_NAME RTKIT_PATH
      (str "org.freedesktop.DBus.Properties") (str "Get")
      [VString RTKIT_NAME; VString (str "RTTimeUSecMax")] NoFds) in *.
  assert (∀ x, Forall harmless (ECall get x :: w.(trace))) as Hw4 by (intros; by constructor).
  assert (∀ x y k, (mret y : M (gerror + list variant)) (World k (ECall get x :: w.(trace))) =
    Returned r w' → realtime_end p t (priority_value high priority) w'.(trace)) as Hstop.
  { intros x y k [_ ->]%M_ret_returned. left. apply Hw4. }
  destruct reply as [e|[|[| | | | | | | | | |v| | | |] [|]]]; try by eapply Hstop.
  2:{ destruct v; by eapply Hstop. }
  destruct v as [| | | |n| | | | | | | | | |]; try by eapply Hstop.
  destruct (n <=? 0) eqn:Hpos; [by eapply Hstop|]. apply Z.leb_gt in Hpos. right.
  apply M_bind_returned in Hrun as (limited & w5 & [_ ->]%tick_returned & Hrun).
  exists process, thread, n, limited. eexists. split; [|split; [by apply Hw4|]].
  { assert (w.(trace) ⊆ ECall get (inr [VVariant (VInt64 n)]) :: w.(trace)) as Hsub
      by (intros e He; by right).
    split_and!; eauto using identified_mono. exists get. split; [by left|done]. }
  destruct limited as [e|[]].
  { apply M_ret_returned in Hrun as [_ ->]. by left. }
  apply M_bind_returned in Hrun as (answer & w6 & [_ ->]%tick_returned & [_ ->]%M_ret_returned).
  right. split; [done|]. by eexists _, answer.
Qed.

Lemma make_realtime_end `{GLib, Kernel, Desktop} p t high priority k r w' :
  make_realtime p t high priority (World k []) = Returned r w' →
  realtime_end p t (priority_value high priority) w'.(trace).
Proof.
  unfold make_realtime. intros (process & w1 & E1 & Hrun)%M_bind_returned.
  apply pidfd_id_spec in E1 as (Hw1 & _ & Hp); [|constructor].
  destruct process as [e|process]; [apply M_ret_returned in Hrun as [_ ->]; by left|].
  apply M_bind_returned in Hrun as (thread & w2 & E2 & Hrun).
  apply pidfd_id_spec in E2 as (Hw2 & Hsub & Ht); [|done].
  destruct thread as [e|thread]; [apply M_ret_returned in Hrun as [_ ->]; by left|].
  cbv zeta in Hrun. apply M_bind_returned in Hrun as (member & w3 & E3 & Hrun).
  destruct (96 <=? _)%nat.
  { apply M_ret_returned in E3 as [-> ->]. apply M_ret_returned in Hrun as [_ ->]. by left. }
  apply tick_returned in E3 as [_ ->]. destruct member as [e|s].
  { apply M_ret_returned in Hrun as [_ ->]. left. by constructor. }
  assert (w2.(trace) ⊆ EStat (task_path process thread) (inr s) :: w2.(trace)) as Hsub3
    by (intros e He; by right).
  eapply (set_realtime_end p t process thread s), Hrun.
  - eapply identified_mono, Hp; [by transitivity w2.(trace)|done].
  - by eapply identified_mono, Ht.
  - by left.
  - by constructor.
Qed.

(** A limit is changed and priority is asked for only when the kernel has
    reported the process and the thread of the two descriptors, the thread was
    found among the process's tasks, and RealtimeKit has named a positive
    limit: the limit set is that one, on that process, and the request names
    these two and follows a limit that was set. *)
Theorem realtime_only_checked `{GLib, Kernel, Desktop} (process_fd thread_fd : Z)
    (high : bool) (priority : Z) (t : nat) (r : gerror + list variant) (w' : world) :
  make_realtime process_fd thread_fd high priority (World t []) = Returned r w' →
  (∀ pid limit x, EPrlimit pid limit x ∈ w'.(trace) →
    ∃ process thread, pid = int_of_u32 (u32 process) ∧
      realtime_checked process_fd thread_fd process thread limit w'.(trace)) ∧
  (∀ c x, ECall c x ∈ w'.(trace) → c.(c_method) ≠ str "Get" →
    ∃ process thread limit, realtime_checked process_fd thread_fd process thread limit w'.(trace) ∧
      EPrlimit (int_of_u32 (u32 process)) limit (inr tt) ∈ w'.(trace) ∧
      c.(c_parameters) = [VUint64 process; VUint64 thread; priority_value high priority]).
Proof.
  intros [Hq|(process & thread & limit & x & rest & Hchk & Hq & Htr)]%make_realtime_end;
    rewrite Forall_forall in Hq.
  { split; [intros ??? Hin|intros ?? Hin ?]; by apply Hq in Hin. }
  apply (realtime_checked_mono _ _ _ _ _ _ w'.(trace)) in Hchk.
  2:{ destruct Htr as [-> |(_ & c & y & -> & _)]; intros e He; repeat (done || right). }
  split.
  - intros pid l y Hin. exists process, thread.
    destruct Htr as [Htr|(_ & c & y' & Htr & _)]; rewrite Htr in Hin;
      repeat apply elem_of_cons in Hin as [Hin|Hin]; simplify_eq; try by apply Hq in Hin.
    all: by split.
  - intros c y Hin Hget. exists process, thread, limit. split; [done|].
    destruct Htr as [Htr|(-> & c' & y' & Htr & Hpar)]; rewrite Htr in Hin |- *;
      repeat apply elem_of_cons in Hin as [Hin|Hin]; simplify_eq; try by apply Hq in Hin.
    split; [right; by left|done].
Qed.
