(* ===== verification/OpenPath.v ===== *)
(** * Guest paths are opened as the guest proved

    [OpenFile] and [OpenDirectory] take a path and a descriptor the guest has
    open on it.  The theorem: what the portal receives is the object of that
    descriptor, reopened beneath the longest mapping of the path, and writable
    only if the guest could write to it. *)

From S2P Require Import Prelude Glib Host Portal Requests RequestsInv Methods MethodsInv.

(** ** The mapping *)

Section mappings.
Context `{GLib}.

Definition slash : ascii := "/"%char.

Definition longest_mapping (b : broker) (path : text) (m : mapping) : Prop :=
  m ∈ b.(mappings) ∧ mapping_matches m path = true ∧
  ∀ m', m' ∈ b.(mappings) → mapping_matches m' path = true →
    (length m'.(guest) ≤ length m.(guest))%nat.

Lemma find_mapping_longest b path m :
  find_mapping b path = Some m → longest_mapping b path m.
Proof.
  unfold find_mapping, longest_mapping.
  enough (∀ ms best, foldl (better_mapping path) best ms = Some m →
    (Some m = best ∨ m ∈ ms ∧ mapping_matches m path = true) ∧
    (∀ m', Some m' = best ∨ m' ∈ ms ∧ mapping_matches m' path = true →
      (length m'.(guest) ≤ length m.(guest))%nat)) as Hg.
  { intros [[?|[? ?]] Hmax]%Hg; [done|]. split_and!; auto. }
  induction ms as [|m1 ms IH]; intros best Hf; cbn [foldl] in Hf.
  { subst. split; [by left|]. intros m' [[= ->]|[Hin _]]; [done|].
    by apply not_elem_of_nil in Hin. }
  destruct (IH _ Hf) as [Hm Hmax]. unfold better_mapping in Hm, Hmax.
  destruct (mapping_matches m1 path) eqn:Hm1, best as [b0|]; cbn [andb] in Hm, Hmax;
    try case_match eqn:Hlen; rewrite ?Nat.ltb_lt, ?Nat.ltb_ge in *.
  all: split;
    [destruct Hm as [Hm|[? ?]]; simplify_eq; auto; right; split; auto; by constructor|].
  all: intros m' [Hb|[[-> |Hin]%elem_of_cons Hmatch]]; simplify_eq.
  all: first [congruence|apply Hmax; by auto|etransitivity; [|apply Hmax; left; reflexivity]; simpl; lia].
Qed.

(** What follows the mapped directory in a path. *)
Definition relative_path (m : mapping) (path : text) : text :=
  match skip_while (λ c, bool_decide (c = slash)) (drop (length m.(guest)) path) with
  | [] => str "."
  | relative => relative
  end.

Lemma skip_slashes s : ∃ k,
  s = replicate k slash ++ skip_while (λ c, bool_decide (c = slash)) s ∧
  head (skip_while (λ c, bool_decide (c = slash)) s) ≠ Some slash.
Proof.
  induction s as [|c s IH]; cbn [skip_while]; [by exists 0%nat|].
  case_bool_decide as Hc.
  - destruct IH as (k & IH & Hh). exists (S k). split; [|done]. simpl. by rewrite <- IH, Hc.
  - exists 0%nat. split; [done|]. simpl. congruence.
Qed.

(** A relative path is relative, and does not climb. *)
Lemma relative_path_beneath m path :
  valid_guest_path path = true → mapping_matches m path = true →
  head (relative_path m path) ≠ Some slash ∧
  ¬ component slash (str "..") (relative_path m path).
Proof.
  unfold valid_guest_path, mapping_matches, relative_path.
  intros [Hhead%bool_decide_eq_true Hdots]%andb_true_iff [[rest Hpath]%has_prefix_spec Hend]%andb_true_iff.
  destruct (skip_slashes (drop (length m.(guest)) path)) as (k & Hk & Hh).
  rewrite Hpath, drop_app_length in *.
  destruct (skip_while _ rest) as [|c rel] eqn:Hrel.
  { split; [done|]. intros (a & b & Hab & _ & _). apply (f_equal length) in Hab.
    rewrite !length_app in Hab. change (length (str ".")) with 1%nat in Hab.
    change (length (str "..")) with 2%nat in Hab. lia. }
  split; [done|]. intros Hc. apply negb_true_iff, not_true_iff_false in Hdots. apply Hdots.
  apply existsb_exists. exists (str ".."). split; [|apply text_eqb_refl].
  apply list_elem_of_In, component_split; [by vm_compute; set_solver|done|].
  rewrite Hk, app_assoc. apply component_app; [|done]. right.
  destruct k as [|k].
  - rewrite app_nil_r. simpl in Hk. subst rest.
    apply orb_true_iff in Hend as [[Hsize%Nat.eqb_eq|Hnone%bool_decide_eq_true]%orb_true_iff
      |Hslash%bool_decide_eq_true].
    + destruct m.(guest) as [|g [|]]; try done. simpl in Hhead. injection Hhead as ->.
      by exists [].
    + rewrite lookup_app_r, Nat.sub_diag in Hnone by lia. done.
    + rewrite lookup_app_r, Nat.sub_diag in Hslash by lia. injection Hslash as ->. done.
  - exists (m.(guest) ++ replicate k slash). rewrite <- app_assoc. f_equal.
    apply replicate_S_end.
Qed.
End mappings.

(** ** What is sent to the portal *)

Definition no_call (e : event) : Prop := match e with ECall _ _ => False | _ => True end.

(** The calls of [call_host_portal]. *)
Definition sends (method : text) (fd : Z) (writable : bool) (e : event) : Prop :=
  match e with
  | ECall c _ =>
      c.(c_method) = str "GetNameOwner" ∨
      (c.(c_interface) = str "org.freedesktop.portal.OpenURI" ∧ c.(c_method) = method ∧
       c.(c_fds) = OwnFds [fd] ∧
       ∃ options, c.(c_parameters) = [VString []; VHandle 0; VDict options] ∧
         ((str "writable", VBoolean true) ∈ options ↔ writable = true))
  | _ => True
  end.

Ltac no_call_step :=
  lazymatch goal with
  | |- emits _ (mret _) => apply emits_ret
  | |- emits _ (_ ≫= _) => apply emits_bind; [no_call_step|intros; no_call_step]
  | |- emits _ (match ?x with _ => _ end) => destruct x eqn:?; simplify_eq/=; no_call_step
  | |- emits _ (let _ := _ in _) => cbv zeta; no_call_step
  | |- emits _ _ =>
      apply emits_tick; intros; unfold opened; cbv beta;
      repeat lazymatch goal with
        | |- Forall _ (match _ with _ => _ end) => case_match
        | |- Forall _ (_ :: _) => apply Forall_cons; split; try exact I
        | |- Forall _ [] => constructor
        end
  end.

Section open_path.
Context `{GLib, Kernel, Desktop}.

Lemma writable_option (token activation : text) (wr : bool) :
  (str "writable", VBoolean true) ∈
    [(str "handle_token", VString token)]
    ++ (if wr then [(str "writable", VBoolean true)] else [])
    ++ (match activation with
        | [] => []
        | _ => [(str "activation_token", VString activation)]
        end) ↔ wr = true.
Proof.
  rewrite !elem_of_app, list_elem_of_singleton. split.
  - intros [[=]|[Hin|Hin]].
    + destruct wr; [done|]. by apply not_elem_of_nil in Hin.
    + destruct activation; [by apply not_elem_of_nil in Hin|].
      by apply list_elem_of_singleton in Hin as [=].
  - intros ->. right. left. by left.
Qed.

Lemma call_host_portal_sends b method fd wr activation :
  emits (sends method fd wr) (call_host_portal b method fd wr activation).
Proof.
  unfold call_host_portal, find_destination, request, new_token. no_call_step.
  - by left.
  - right. split_and!; try done. eexists. split; [done|]. apply writable_option.
Qed.

(** How a descriptor on the host's object was opened. *)
Definition opened_beneath (m : mapping) (path : text) (flags fd : Z) (tr : list event) : Prop :=
  if S_ISDIR m.(metadata).(st_mode) then
    EOpenat2 m.(descriptor) (relative_path m path) (Z.lor flags O_CLOEXEC)
      (Z.lor (Z.lor RESOLVE_BENEATH RESOLVE_NO_MAGICLINKS) RESOLVE_NO_XDEV) (inr fd) ∈ tr
  else
    (∃ k, drop (length m.(guest)) path = replicate k slash) ∧
    ∃ p, descriptor_path m.(descriptor) = Some p ∧
      EOpen p (Z.lor flags O_CLOEXEC) (inr fd) ∈ tr.

Lemma secure_open_beneath m path flags w fd w' :
  secure_open m path flags w = Returned (inr fd) w' →
  opened_beneath m path flags fd w'.(trace).
Proof.
  unfold secure_open, opened_beneath, relative_path. cbv zeta.
  destruct (skip_slashes (drop (length m.(guest)) path)) as (k & Hk & _).
  destruct (S_ISDIR _); cbn [negb].
  - fold slash. destruct (skip_while _ _); intros [_ ->]%tick_returned; right; left.
  - fold slash. destruct (skip_while _ _) eqn:E; [|by intros [? _]%M_ret_returned].
    rewrite app_nil_r in Hk. destruct (descriptor_path _) as [p|]; [|by intros [? _]%M_ret_returned].
    intros [_ ->]%tick_returned. split; [by exists k|]. exists p. split; [done|].
    right. left.
Qed.

Lemma emits_run {A} P (m : M A) w x w' :
  emits P m → m w = Returned x w' → Forall P w.(trace) →
  Forall P w'.(trace) ∧ w.(trace) ⊆ w'.(trace).
Proof.
  intros Hm E Hw. destruct (Hm _ _ _ E) as (evs & -> & Hevs).
  split; [by apply Forall_app|]. intros e He. apply elem_of_app. by right.
Qed.

Lemma secure_open_no_call m path flags : emits no_call (secure_open m path flags).
Proof. unfold secure_open. no_call_step. Qed.

(** Which descriptor was reopened, and how. *)
Lemma reopen_beneath m path gw method w fd wr w' :
  reopen m path gw method w = Returned (inr (fd, wr)) w' →
  opened_beneath m path (if wr : bool then O_RDWR else O_RDONLY) fd w'.(trace) ∧
  (wr = true → gw = true ∧ method = str "OpenFile").
Proof.
  unfold reopen. destruct (gw && text_eqb method (str "OpenFile")) eqn:Hg.
  - apply andb_true_iff in Hg as [-> ->%text_eqb_spec].
    intros ([e|x] & w1 & E1 & E2)%M_bind_returned.
    + apply M_bind_returned in E2 as ([e2|y] & w2 & E2 & [E3 ->]%M_ret_returned); [done|].
      injection E3 as -> ->. split; [by eapply secure_open_beneath|done].
    + apply M_ret_returned in E2 as [[= -> ->] ->]. split; [by eapply secure_open_beneath|done].
  - intros (x & w1 & [-> ->]%M_ret_returned & E2)%M_bind_returned.
    apply M_bind_returned in E2 as ([e2|y] & w2 & E2 & [E3 ->]%M_ret_returned); [done|].
    injection E3 as -> ->. split; [by eapply secure_open_beneath|done].
Qed.

Lemma reopen_no_call m path gw method : emits no_call (reopen m path gw method).
Proof.
  unfold reopen. apply emits_bind; [case_match; [apply secure_open_no_call|apply emits_ret]|].
  intros ? [] ? _; [|apply emits_ret].
  apply emits_bind; [apply secure_open_no_call|]. intros; apply emits_ret.
Qed.

(** What the broker knows when it calls the portal. *)
Record proved (b : broker) (m : mapping) (method path : text) (handle : Z) (requested : bool)
    (mapped : Z) (writable : bool) (tr : list event) : Prop := {
  proved_longest : longest_mapping b path m;
  proved_relative : head (relative_path m path) ≠ Some slash ∧
    ¬ component slash (str "..") (relative_path m path);
  proved_opened : opened_beneath m path
    (if writable then O_RDWR else O_RDONLY) mapped tr;
  proved_same : ∃ proof pm mm, EHandle handle (inr proof) ∈ tr ∧
    EFstat proof (inr pm) ∈ tr ∧ EFstat mapped (inr mm) ∈ tr ∧
    pm.(st_dev) = mm.(st_dev) ∧ pm.(st_ino) = mm.(st_ino) ∧
    Z.land pm.(st_mode) S_IFMT = Z.land mm.(st_mode) S_IFMT ∧
    (writable = true → method = str "OpenFile" ∧ requested = true ∧
      ∃ flags, EGetfl proof (inr flags) ∈ tr ∧ Z.land flags O_ACCMODE = O_RDWR);
}.

Lemma proved_mono b m method path handle requested mapped writable tr tr' :
  tr ⊆ tr' → proved b m method path handle requested mapped writable tr →
  proved b m method path handle requested mapped writable tr'.
Proof.
  intros Hsub [? ? Ho (proof & pm & mm & ? & ? & ? & ? & ? & ? & Hw)].
  constructor; try done.
  - unfold opened_beneath in *. case_match; [by apply Hsub|].
    destruct Ho as (? & p & ? & ?). split; [done|]. exists p. auto.
  - exists proof, pm, mm. split_and!; auto. intros Hwr.
    destruct (Hw Hwr) as (? & ? & flags & ? & ?). split_and!; auto. exists flags. auto.
Qed.

(** What is known of the guest's descriptor before anything is opened. *)
Definition guest_proof (handle proof : Z) (pm : stat) (requested gw : bool)
    (tr : list event) : Prop :=
  EHandle handle (inr proof) ∈ tr ∧ EFstat proof (inr pm) ∈ tr ∧
  (gw = true → requested = true ∧
    ∃ flags, EGetfl proof (inr flags) ∈ tr ∧ Z.land flags O_ACCMODE = O_RDWR).

Lemma guest_writable_spec proof requested gw w w' :
  guest_writable proof requested w = Returned gw w' → Forall no_call w.(trace) →
  Forall no_call w'.(trace) ∧ w.(trace) ⊆ w'.(trace) ∧
  (gw = true → requested = true ∧
    ∃ flags, EGetfl proof (inr flags) ∈ w'.(trace) ∧ Z.land flags O_ACCMODE = O_RDWR).
Proof.
  unfold guest_writable. destruct requested; [|by intros [-> ->]%M_ret_returned].
  intros (fl & w4 & [_ ->]%tick_returned & [-> ->]%M_ret_returned)%M_bind_returned Hw.
  split_and!; [by constructor|intros e He; by right|].
  destruct fl as [|fl]; [done|]. intros Hrw%Z.eqb_eq. split; [done|]. exists fl.
  split; [by left|done].
Qed.

(** A run that makes no call has not made this one. *)
Lemma no_call_made (m : M unit) w w' c r :
  emits no_call m → Forall no_call w.(trace) → m w = Returned tt w' →
  ECall c r ∉ w'.(trace).
Proof.
  intros Hm Hw E Hin. destruct (emits_run _ _ _ _ _ Hm E Hw) as [Hall _].
  rewrite Forall_forall in Hall. by apply Hall in Hin.
Qed.

(** The conclusion for one call. *)
Definition sent_as_proved (b : broker) (m : mapping) (method path : text) (handle : Z)
    (requested : bool) (tr : list event) (c : dbus_call) : Prop :=
  ∃ mapped writable,
    proved b m method path handle requested mapped writable tr ∧
    c.(c_interface) = str "org.freedesktop.portal.OpenURI" ∧ c.(c_method) = method ∧
    c.(c_fds) = OwnFds [mapped] ∧
    ∃ options, c.(c_parameters) = [VString []; VHandle 0; VDict options] ∧
      ((str "writable", VBoolean true) ∈ options ↔ writable = true).

Lemma call_sent b m method path handle requested mapped writable activation w called w6 c r :
  call_host_portal b method mapped writable activation w = Returned called w6 →
  proved b m method path handle requested mapped writable w.(trace) → Forall no_call w.(trace) →
  c.(c_method) ≠ str "GetNameOwner" → ECall c r ∈ w6.(trace) →
  sent_as_proved b m method path handle requested w6.(trace) c.
Proof.
  intros Hrun Hp Hw Hname Hin.
  destruct (call_host_portal_sends _ _ _ _ _ _ _ _ Hrun) as (evs & Htr & Hevs).
  rewrite Htr in Hin. apply elem_of_app in Hin as [Hin|Hin].
  2:{ rewrite Forall_forall in Hw. by apply Hw in Hin. }
  rewrite Forall_forall in Hevs. apply Hevs in Hin as [?|(? & ? & ? & ?)]; [done|].
  exists mapped, writable. split; [|done]. eapply proved_mono, Hp.
  rewrite Htr. intros e He. apply elem_of_app. by right.
Qed.

Lemma sent_mono b m method path handle requested tr tr' c :
  tr ⊆ tr' → sent_as_proved b m method path handle requested tr c →
  sent_as_proved b m method path handle requested tr' c.
Proof.
  intros Hsub (mapped & writable & Hp & Hrest). exists mapped, writable.
  split; [by eapply proved_mono|done].
Qed.

Lemma open_mapped_sent b m method path handle proof pm requested gw activation w w' c r :
  longest_mapping b path m → valid_guest_path path = true →
  guest_proof handle proof pm requested gw w.(trace) → Forall no_call w.(trace) →
  open_mapped b m method path proof pm gw activation w = Returned tt w' →
  ECall c r ∈ w'.(trace) → c.(c_method) ≠ str "GetNameOwner" →
  sent_as_proved b m method path handle requested w'.(trace) c.
Proof.
  intros Hmap Hvalid (Hhandle & Hpm & Hgw) Hw Hrun Hin Hname. unfold open_mapped in Hrun.
  apply M_bind_returned in Hrun as (mapped & w4 & E4 & Hrun).
  destruct (emits_run _ _ _ _ _ (reopen_no_call _ _ _ _) E4 Hw) as [Hq4 Hsub4].
  destruct mapped as [e|[mapped writable]].
  { by eapply no_call_made in Hrun; [|no_call_step|done]. }
  apply reopen_beneath in E4 as [Hopened Hwritable].
  apply M_bind_returned in Hrun as (mm & w5 & [_ ->]%tick_returned & Hrun).
  cbn [trace app] in *. set (w5 := World _ _) in *.
  assert (Forall no_call w5.(trace)) as Hq5 by (by constructor).
  destruct mm as [e|mm]; [by eapply no_call_made in Hrun; [|no_call_step|done]|].
  destruct (same_stat pm mm) eqn:Hsame; cbn [negb] in Hrun;
    [|by eapply no_call_made in Hrun; [|no_call_step|done]].
  unfold same_stat, same_type in Hsame. rewrite !andb_true_iff, !Z.eqb_eq in Hsame.
  destruct Hsame as [[Hdev Hino] Htype].
  apply M_bind_returned in Hrun as (called & w6 & E6 & Hrun).
  assert (proved b m method path handle requested mapped writable w5.(trace)) as Hp.
  { constructor; [done|apply relative_path_beneath; [done|apply Hmap]| |].
    - unfold opened_beneath in *. destruct (S_ISDIR _); [by right|].
      destruct Hopened as (? & p & ? & ?). split; [done|]. exists p. split; [done|by right].
    - exists proof, pm, mm. split_and!; try done; [right; by apply Hsub4|right; by apply Hsub4|by left|].
      intros Hwr. destruct (Hwritable Hwr) as [Hg ->]. destruct (Hgw Hg) as (? & fl & Hfl & ?).
      split_and!; try done. exists fl. split; [|done]. right. by apply Hsub4. }
  assert (∃ evs', w'.(trace) = evs' ++ w6.(trace) ∧ Forall no_call evs') as (evs' & Htr' & Hq).
  { destruct called as [e|response]; eapply (_ : emits no_call _), Hrun. Unshelve. all: no_call_step. }
  rewrite Htr' in Hin |- *. apply elem_of_app in Hin as [Hin|Hin].
  { rewrite Forall_forall in Hq. by apply Hq in Hin. }
  eapply sent_mono; [|by eapply call_sent].
  intros e He. apply elem_of_app. by right.
Qed.
End open_path.

(** The descriptor of the guest's message, when there is one. *)
Lemma invocation_fd_handle `{GLib, Kernel} handle w proof w' :
  invocation_fd handle w = Returned (inr proof) w' → EHandle handle (inr proof) ∈ w'.(trace).
Proof.
  intros (present & w1 & _ & E)%M_bind_returned. destruct present; [|by apply M_ret_returned in E as [? _]].
  apply tick_returned in E as [_ ->]. cbn [trace app]. left.
Qed.

(** C14: If [OpenFile] or [OpenDirectory] makes any call to the portal besides
    asking for its owner, the guest's path is mapped: it has no [..]
    component, and the longest mapping that covers it was used.  The call
    carries one descriptor, which was opened beneath that mapping's own, with
    a path that is relative and does not climb, across no mount and no magic
    link; the kernel gave it the device, inode and type that it gave the
    descriptor the guest's handle stands for in the message.  It is announced
    as writable exactly if it was opened for writing, and then the guest asked
    for that and that same descriptor of the guest is open for reading and
    writing. *)
Theorem open_path_as_proved `{GLib, Kernel, Desktop} (b : broker) (method path : text)
    (handle : Z) (requested : bool) (activation : text) (t : nat) (w' : world)
    (c : dbus_call) (r : gerror + list variant) :
  open_path b method path handle requested activation (World t []) = Returned tt w' →
  ECall c r ∈ w'.(trace) → c.(c_method) ≠ str "GetNameOwner" →
  ∃ m, sent_as_proved b m method path handle requested w'.(trace) c.
Proof.
  intros Hrun Hin Hname. unfold open_path in Hrun.
  destruct (valid_guest_path path) eqn:Hvalid;
    [|by eapply no_call_made in Hrun; [|no_call_step|constructor]].
  destruct (find_mapping b path) as [m|] eqn:Hmap;
    [|by eapply no_call_made in Hrun; [|no_call_step|constructor]].
  apply find_mapping_longest in Hmap.
  apply M_bind_returned in Hrun as (proof & w1 & E1 & Hrun).
  assert (Forall no_call w1.(trace)) as Hq1.
  { eapply emits_run in E1 as [Hq1 _]; [exact Hq1|unfold invocation_fd; no_call_step|constructor]. }
  destruct proof as [e|proof];
    [by eapply no_call_made in Hrun; [|unfold return_gerror; no_call_step|done]|].
  apply invocation_fd_handle in E1 as Hhandle.
  apply M_bind_returned in Hrun as (pm & w2 & [_ ->]%tick_returned & Hrun).
  set (w2 := World (S _) _) in *.
  assert (Forall no_call w2.(trace)) as Hq2 by (by constructor).
  destruct pm as [e|pm]; [by eapply no_call_made in Hrun; [|no_call_step|done]|].
  apply M_bind_returned in Hrun as (gw & w3 & E3 & Hrun).
  apply guest_writable_spec in E3 as (Hq3 & Hsub & Hgw); [|done].
  exists m. eapply (open_mapped_sent b m method path handle proof pm requested gw activation w3);
    eauto.
  split_and!; [apply Hsub; by right|apply Hsub; by left|exact Hgw].
Qed.
