(* ===== verification/Examples.v ===== *)
(** * The broker's methods run

    Concrete runs on the host of [Sample]: where the theorems of [MethodsInv],
    [Confined] and [OpenPath] hold, and the two inputs on which the code does
    less than it means to. *)

From S2P Require Import Prelude Glib Host Portal Requests RequestsInv Methods MethodsInv.
From S2P Require Import Confined OpenPath Sample.

Definition sample_broker : broker :=
  Broker [Mapping (str "/") 3 (Stat 1 1 0x41ED 0); Mapping (str "/srv/data") 4 (Stat 1 2 0x41ED 0)]
    [] (str "box") (str "org.anatase.Box") accepted.

Definition host : Kernel := sample_kernel sample_file 0x81A4 (str "Pid:" ++ "009"%char :: str "77").

Definition buffers : text := replicate (S SECRET_MAXIMUM) "g"%char.
Definition digest : text := replicate SECRET_SIZE "g"%char.

(** ** [OpenFile] *)

Definition open_parameters : list variant :=
  [VString (str "/srv/data/notes.txt"); VHandle 0; VBoolean true; VString []].

(** Fuel for any kernel that is calm from time 2 on. *)
Definition great_fuel : nat := Z.to_nat 40000000.

Lemma open_method_complete_witness :
  ∃ staged w', open_method (H0 := host) great_fuel sample_broker buffers digest
      (str "OpenFile") open_parameters (World 0%nat []) = Returned staged w' ∧
    (∀ fd, live fd w'.(trace) = 0) ∧ replies w'.(trace) = 1 - lost w'.(trace).
Proof.
  apply (open_method_complete (H0 := host) 2 great_fuel sample_broker buffers digest
    (str "OpenFile") open_parameters 0).
  - apply sample_calm.
  - unfold enough, great_fuel, STAGED_FILE_MAXIMUM. rewrite Z2Nat.id by lia. lia.
  - apply length_replicate.
  - apply length_replicate.
  - by vm_compute.
Defined.

Definition open_run : outcome unit :=
  open_path (H0 := host) sample_broker (str "OpenFile") (str "/srv/data/notes.txt") 0 true []
    (World 0%nat []).

Definition open_call : dbus_call :=
  DBusCall SessionBus (str ":1.9") PORTAL_PATH (str "org.freedesktop.portal.OpenURI")
    (str "OpenFile")
    [VString []; VHandle 0; VDict [(str "handle_token", VString (str "7b0c_11"));
      (str "writable", VBoolean true)]] (OwnFds [20]).

Lemma open_path_as_proved_witness :
  ∃ m, proved sample_broker m (str "OpenFile") (str "/srv/data/notes.txt") 0 true 20 true
    (world_of open_run).(trace).
Proof.
  assert (open_run = Returned tt (world_of open_run)) as E by (by vm_compute).
  assert (ECall open_call (inr [VObject (str "/request/1")]) ∈ (world_of open_run).(trace)) as Hin.
  { apply list_elem_of_lookup. exists 4%nat. by vm_compute. }
  destruct (open_path_as_proved (H0 := host) sample_broker (str "OpenFile")
    (str "/srv/data/notes.txt") 0 true [] 0 _ open_call _ E Hin)
    as (m & mapped & writable & Hp & _ & _ & Hfds & options & Hpar & Hw); [by vm_compute|].
  injection Hfds as <-. injection Hpar as <-.
  assert (writable = true) as ->.
  { apply Hw. right. by left. }
  exists m. exact Hp.
Defined.

(** A message with four descriptors, and a call that names the tenth: GLib
    finds no descriptor and sets no error, and the guest waits in vain. *)
Example unknown_handle_unanswered :
  match open_method (H0 := host) 20 sample_broker [] [] (str "OpenFile")
    [VString (str "/srv/data/notes.txt"); VHandle 9; VBoolean true; VString []] (World 0%nat [])
  with
  | Returned _ w => replies w.(trace) = 0 ∧ lost w.(trace) = 1
  | _ => False
  end.
Proof. by vm_compute. Qed.

(** ** [PortalRequest] *)

Definition background_parameters (options : vardict) : list variant :=
  [VString (str "org.freedesktop.portal.Background"); VString (str "RequestBackground");
   VString (str "org.example.App"); VVariant (VTuple [VString []; VDict options])].

Definition background_options : vardict :=
  [(str "autostart", VBoolean true); (str "commandline", VStrings [str "app"; str "--hidden"])].

Definition background_call (commandline : list text) : dbus_call :=
  DBusCall SessionBus (str ":1.9") PORTAL_PATH (str "org.freedesktop.portal.Background")
    (str "RequestBackground")
    [VString []; VDict [(str "autostart", VBoolean true);
      (str "handle_token", VString (str "7b0c_11")); (str "commandline", VStrings commandline)]]
    GuestFds.

Definition background_run : outcome (list text) :=
  open_method (H0 := host) 20 sample_broker [] [] (str "PortalRequest")
    (background_parameters background_options) (World 0%nat []).

Lemma broker_calls_confined_witness :
  confined sample_broker
    (background_call [str "/usr/bin/spaces"; str "enter"; str "--graphical"; str "box"; str "--";
      str "app"; str "--hidden"]).
Proof.
  assert (background_run = Returned [] (world_of background_run)) as E by (by vm_compute).
  apply (broker_calls_confined (H0 := host) 20 sample_broker [] [] (str "PortalRequest")
    (background_parameters background_options) 0 [] (world_of background_run) _
    (inr [VObject (str "/request/1")])).
  - done.
  - by vm_compute.
  - cbn [distinct_options background_parameters background_options map fst].
    repeat constructor; vm_compute; set_solver.
  - exact E.
  - apply list_elem_of_lookup. exists 2%nat. by vm_compute.
Defined.

(** The options of an autostart request may repeat a key, and then the
    command line is not wrapped: GLib's lookup takes the first entry, which
    is not an array of strings here, and its dictionary the last, so the
    command line reaches the host's autostart as the guest wrote it. *)
Theorem duplicate_commandline_unwrapped `{Kernel} (b : broker) (command : list text) (w : world) :
  ∃ options w',
    broker_options b [(str "commandline", VBoolean true); (str "commandline", VStrings command)]
      true w = Returned options w' ∧
    (str "commandline", VStrings command) ∈ options.
Proof.
  do 2 eexists. split; [reflexivity|]. cbn [dict_first].
  assert (dict_init [(str "commandline", VBoolean true); (str "commandline", VStrings command)] =
    [(str "commandline", VStrings command)]) as -> by done.
  unfold dict_insert. apply elem_of_app. left. by left.
Qed.

(** ** [MakeRealtime] *)

Definition realtime_run : outcome (gerror + list variant) :=
  make_realtime (H0 := host) 30 31 false 5 (World 0%nat []).

Lemma realtime_only_checked_witness :
  ∃ process thread, 77 = int_of_u32 (u32 process) ∧
    realtime_checked 30 31 process thread 200000 (world_of realtime_run).(trace).
Proof.
  assert (realtime_run = Returned (inr []) (world_of realtime_run)) as E by (by vm_compute).
  destruct (realtime_only_checked (H0 := host) 30 31 false 5 0 _ _ E) as [Hlimit _].
  apply (Hlimit _ _ (inr tt)). apply list_elem_of_lookup. exists 1%nat. by vm_compute.
Defined.

(** What the kernel reports for a descriptor of a process that has exited. *)
Definition exited_fdinfo : text :=
  str "pos:" ++ "009"%char :: str "0" ++ "010"%char ::
  str "Pid:" ++ "009"%char :: str "-1" ++ "010"%char ::
  str "NSpid:" ++ "009"%char :: str "-1" ++ ["010"%char].

(** [g_ascii_strtoull] negates a number after a minus sign without an error,
    so the [-1] of an exited process passes for a live process id. *)
Theorem exited_pidfd_accepted `{GLib, Desktop} :
  pidfd_value exited_fdinfo = Some (2 ^ 64 - 1).
Proof.
  unfold pidfd_value. rewrite g_strsplit_unique.
  assert (head (filter (λ line, has_prefix line (str "Pid:") = true)
    (g_strsplit (GLib := glib_reference) exited_fdinfo "010"%char)) =
    Some (str "Pid:" ++ "009"%char :: str "-1")) as -> by (by vm_compute).
  cbn [mbind option_bind]. unfold pidfd_line.
  pose proof (strtoull_number ["009"%char] (str "1") [] true) as Hn.
  change (["009"%char] ++ (if true then ["-"%char] else []) ++ str "1" ++ []) with
    (drop 4 (str "Pid:" ++ "009"%char :: str "-1")) in Hn.
  rewrite Hn; [by vm_compute| | | | |].
  - apply Forall_cons. split; [by right|constructor].
  - done.
  - by repeat constructor.
  - done.
  - by vm_compute.
Qed.

(** ** Variants of another type *)

(** GDBus checks the types of a call's parameters, not what a variant among
    them holds, and neither does the handler: its locals stay uninitialised. *)
Theorem untyped_input_undefined `{GLib, Kernel, Desktop} (fuel : nat) (b : broker)
    (raw derived app input : text) (w : world) :
  open_method fuel b raw derived (str "PortalRequest")
    [VString (str "org.freedesktop.portal.Background"); VString (str "RequestBackground");
     VString app; VVariant (VString input)] w = Undefined w.
Proof. reflexivity. Qed.
