(* ===== verification/Session.v ===== *)
(** * What the guest programs ask of their session
    ([native/spaces_secret_helper.c], [native/spaces_open.c])

    A [request A] is a system call, a D-Bus call or a GLib call that reaches
    outside the process, with the type of its answer.  [Session] answers them:
    the state of everything around the program is a [host] that every request
    may change.  Each request is an event of the trace, with its answer.

    [Steady] is what the secret helper's loops rely on to end: sleeping advances the
    monotonic clock, and a process is interrupted by finitely many signals. *)

From S2P Require Import Prelude.
From S2P Require Export Effects Desktop.

Record meta := Meta { st_mode : Z; st_uid : Z }.

Record bus_call := BusCall {
  destination : text;
  object : text;
  interface : text;
  method : text;
  parameters : list variant;
  descriptors : list Z;
  timeout_ms : Z;
}.

(** What a forked child does: it closes a descriptor, changes its environment,
    and executes a program or exits with 127. *)
Record child := Child {
  closes : list Z;
  sets : list (text * text);
  program : text;
  arguments : list text;
}.

(** [inl] is [-1] with [errno]. *)
Inductive request : Type → Type :=
  | Time : request Z                                  (** microseconds *)
  | Usleep (us : Z) : request unit
  | Memfd : request (Z + Z)
  | Close (fd : Z) : request (Z + unit)
  | Ftruncate (fd : Z) : request (Z + unit)           (** to nothing *)
  | Lseek (fd : Z) : request (Z + unit)               (** to the start *)
  | Read (fd : Z) (size : nat) : request (Z + text)
  | Write (fd : Z) (data : text) : request (Z + nat)
  | Open (path : text) (flags : Z) : request (Z + Z)
  | Fstat (fd : Z) : request (Z + meta)
  | Lstat (path : text) : request (Z + meta)          (** does not follow *)
  | Renameat2 (source dest : text) : request (Z + unit)  (** no replacing *)
  | Link (source dest : text) : request (Z + unit)
  | Unlink (path : text) : request (Z + unit)
  | Rename (source dest : text) : request (Z + unit)
  | Pipe : request (Z + Z * Z)
  | Socket : request (Z + Z)
  | Connect (fd : Z) (path : text) : request (Z + unit)
  | Bind (fd : Z) (path : text) : request (Z + unit)
  | Listen (fd : Z) : request (Z + unit)
  | Fork (c : child) : request Z                      (** what the parent gets *)
  | Kill (pid signal : Z) : request unit
  | Waitpid (pid : Z) (nohang : bool) : request (Z + Z)
  | Flock (fd : Z) : request (Z + unit)
  | Executable (path : text) : request bool
  | GetContents (path : text) : request (option text)
  | MkdirParents (path : text) : request bool
  | SetContents (path contents : text) : request bool
  | Chmod (path : text) (mode : Z) : request unit
  | Umask (mode : Z) : request Z
  | Uuid : request text
  | GetBus : request (option text + unit)             (** an error's message *)
  | Subscribe (path : option text) : request unit      (** of all, or of one object *)
  | Unsubscribe : request unit
  | FdListAppend (fd : Z) : request (option gerror)
  | Call (c : bus_call) : request (gerror + list variant)
  | Notify (c : bus_call) : request unit              (** a call no one waits for *)
  (** Runs what is pending in the main context: the [Response] signals of the
      subscription that this delivers. *)
  | Dispatch : request (list (Z * vardict))
  (** Runs a main loop: the [Response] signals it delivers, with their objects,
      until one of the handlers or a timeout ends it. *)
  | RunLoop : request (list (text * Z * vardict))
  | OpenBus (address : text) : request (gerror + unit)
  | CurrentDir : request text
  | Realpath (path : text) : request (Z + text)
  | Printerr (message : text) : request unit
  | PrintError (e : option gerror) : request unit     (** its message *)
  | IgnoreSigpipe : request unit.

Abbreviation event := (did request).

Class Session := {
  host : Type;
  step {A} : request A → host → A * host;
  getuid : Z;
  getpid : Z;
  environ : list text;
  getenv : text → option text;
  home_dir : option text;
  user_data_dir : text;
  unique_name : option text;
  step_read fd size h data : (step (Read fd size) h).1 = inr data → (length data ≤ size)%nat;
  step_write fd data h n : (step (Write fd data) h).1 = inr n → (n ≤ length data)%nat;
}.

Definition interrupted {A} (r : request A) : A → Prop :=
  match r in request A return A → Prop with
  | Ftruncate _ => λ a, a = inl EINTR
  | Read _ _ => λ a, a = inl EINTR
  | Write _ _ => λ a, a = inl EINTR
  | Waitpid _ _ => λ a, a = inl EINTR
  | _ => λ _, False
  end.

Lemma interrupted_dec {A} (r : request A) (a : A) : interrupted r a ∨ ¬ interrupted r a.
Proof.
  destruct r; simpl; try (right; by intros []);
    (destruct a as [e|]; [destruct (decide (e = EINTR)) as [->|]; [by left|]|]); right; congruence.
Qed.

Class Steady `{Session} := {
  elapsed : host → Z;
  signals : host → nat;
  elapsed_mono {A} (r : request A) h : elapsed h ≤ elapsed (step r h).2;
  elapsed_time h : elapsed h ≤ (step Time h).1 ≤ elapsed (step Time h).2;
  elapsed_sleep us h : elapsed h + us ≤ elapsed (step (Usleep us) h).2;
  signals_mono {A} (r : request A) h : (signals (step r h).2 ≤ signals h)%nat;
  signals_interrupt {A} (r : request A) h :
    interrupted r (step r h).1 → (signals (step r h).2 < signals h)%nat;
}.

Section session.
Context `{Session}.

Definition runtime_dir : option text := getenv (str "XDG_RUNTIME_DIR").
Definition state_home : option text := getenv (str "XDG_STATE_HOME").

Definition perform {A} (r : request A) : prog host event A := act (step r) (λ a, [Did r a]).

Lemma perform_returned {A} (r : request A) w x w' :
  perform r w = Returned x w' ↔
  x = (step r w.(now)).1 ∧ w' = World (step r w.(now)).2 (Did r x :: w.(trace)).
Proof. unfold perform. rewrite act_returned. naive_solver. Qed.

Lemma returns_perform {A} (r : request A) : returns (perform r).
Proof. apply returns_act. Qed.

Lemma emits_perform {A} (P : event → Prop) (r : request A) :
  (∀ a, P (Did r a)) → emits P (perform r).
Proof. intros HP. apply emits_act. intros x. by constructor. Qed.
End session.

Abbreviation M := (prog host event).
Abbreviation world := (machine host event).
Abbreviation triple P m Q := (Effects.triple (S := host) (E := event) P m Q).

#[export] Hint Resolve returns_perform : model.

Lemma triple_perform `{Session} {A} (r : request A) P Q :
  (∀ a T, P T → Q a (Did r a :: T)) → triple P (perform r) Q.
Proof. intros HQ. by apply triple_act. Qed.

(** Inverts one run into its requests and their answers. *)
Ltac steps :=
  repeat match goal with
  | H : (_ ≫= _) _ = Returned _ _ |- _ =>
      let E := fresh "E" in apply M_bind_returned in H as (? & ? & E & H)
  | H : mret _ _ = Returned _ _ |- _ => apply M_ret_returned in H as [-> ->]
  | H : perform _ _ = Returned _ _ |- _ => apply perform_returned in H as [-> ->]
  end.
