(* ===== verification/SecretHelper.v ===== *)
(** * The secret helper ([native/spaces_secret_helper.c])

    The guest program that starts the secret service: it asks the portal for
    the application's secret, derives the wallet's key, starts KWallet with it,
    and moves a wallet aside that the key does not open.  A program of
    [Session]'s requests per function, in the order of the file; a buffer on
    the stack that a function fills is an argument and a result.

    Every loop takes fuel; [SecretInv] shows how much is enough. *)

From S2P Require Import Prelude Glib Session.

Definition PORTAL_NAME := str "org.freedesktop.portal.Desktop".
Definition PORTAL_PATH := str "/org/freedesktop/portal/desktop".
Definition PORTAL_SECRET := str "org.freedesktop.portal.Secret".
Definition PORTAL_REQUEST := str "org.freedesktop.portal.Request".
Definition DBUS_NAME := str "org.freedesktop.DBus".
Definition DBUS_PATH := str "/org/freedesktop/DBus".
Definition SECRET_SIZE : nat := 64.
Definition KWALLET_KEY_SIZE : nat := 56.
Definition PORTAL_TIMEOUT_SECONDS : Z := 30.
Definition PROVIDER_TIMEOUT_SECONDS : Z := 15.
Definition SIGKILL : Z := 9.
Definition SIGTERM : Z := 15.
Definition SUN_PATH : nat := 108.

Record PortalResponse := Response {
  received : bool;
  response : Z;
  token : option text;
}.

Inductive WalletState := WALLET_OPEN | WALLET_CLOSED | WALLET_TIMEOUT | WALLET_ERROR.

#[export] Instance WalletState_eq_dec : EqDecision WalletState.
Proof. solve_decision. Defined.

Definition secure_clear (data : text) : text := replicate (length data) zero.

Section helper.
Context `{Session} `{Desktop}.

Definition say (message : text) : M unit :=
  perform (Printerr (str "spaces-secret-helper: " ++ message ++ ["010"%char])).

(** ** Descriptors *)

Fixpoint truncate_secret_fd (fuel : nat) (descriptor : Z) : M unit :=
  match fuel with
  | O => out_of_fuel
  | S fuel =>
      result ← perform (Ftruncate descriptor);
      if decide (result = inl EINTR) then truncate_secret_fd fuel descriptor else mret tt
  end.

Fixpoint write_all (fuel : nat) (descriptor : Z) (data : text) : M bool :=
  match fuel with
  | O => out_of_fuel
  | S fuel =>
      if decide (data = []) then mret true
      else
        written ← perform (Write descriptor data);
        match written with
        | inl e => if decide (e = EINTR) then write_all fuel descriptor data else mret false
        | inr O => mret false
        | inr n => write_all fuel descriptor (drop n data)
        end
  end.

(** [setenv("QT_QPA_PLATFORM", "offscreen", 1)] *)
Definition spaces_prepare_headless_qt : text * text :=
  (str "QT_QPA_PLATFORM", str "offscreen").

(** The domain is hashed with its NUL. *)
Definition kwallet_domain : text := str "org.anatase.spaces.kwallet-unlock.v1" ++ [zero].

(** [None] is a failure, which leaves the output as it was. *)
Definition spaces_derive_kwallet_key (portal_secret : text) : option text :=
  digest ← hmac_sha512 portal_secret kwallet_domain;
  if decide (length digest = SECRET_SIZE) then Some (take KWALLET_KEY_SIZE digest) else None.

(** ** The portal's token *)

Definition token_path : option text :=
  state ← match state_home with
          | Some ((_ :: _) as state) => Some state
          | _ => (λ home, g_build_filename [home; str ".local"; str "state"]) <$> home_dir
          end;
  Some (g_build_filename [g_build_filename [state; str "spaces"]; str "secret-portal-token"]).

Definition load_token : M (option text) :=
  match token_path with
  | None => mret None
  | Some path =>
      token ← perform (GetContents path);
      mret match token with
           | Some token =>
               if (length token =? 0)%nat || (4096 <? length token)%nat then None
               else Some (cstring token)
           | None => None
           end
  end.

(** What is before the last separator. *)
Fixpoint directory_of (path : text) : option text :=
  match path with
  | [] => None
  | c :: rest =>
      match directory_of rest with
      | Some d => Some (c :: d)
      | None => if decide (c = "/"%char) then Some [] else None
      end
  end.

Definition save_token (token : option text) : M unit :=
  match token, token_path with
  | Some ((_ :: _) as token), Some path =>
      match directory_of path with
      | None => mret tt
      | Some directory =>
          previous ← perform (Umask 0x3F);
          made ← perform (MkdirParents directory);
          saved ← (if made : bool then perform (SetContents path token) else mret false);
          _ ← (if saved : bool then perform (Chmod path 0x180) else mret tt);
          _ ← perform (Umask previous);
          mret tt
      end
  | _, _ => mret tt
  end.

Definition request_path (token : text) : option text :=
  unique ← unique_name;
  let sender := match unique with ":"%char :: rest => rest | _ => unique end in
  let sender := map (λ c, if decide (c = "."%char) then "_"%char else c) sender in
  Some (PORTAL_PATH ++ str "/request/" ++ sender ++ str "/" ++ token).

(** ** The portal's secret *)

Definition portal_response (r : PortalResponse) (signal : Z * vardict) : PortalResponse :=
  let '(code, results) := signal in
  Response true code
    match dict_first results (str "token") with
    | Some (VString t) => Some t
    | _ => r.(token)
    end.

Fixpoint wait_response (fuel : nat) (deadline : Z) (r : PortalResponse) : M PortalResponse :=
  match fuel with
  | O => out_of_fuel
  | S fuel =>
      if r.(received) then mret r
      else
        time ← perform Time;
        if deadline <=? time then mret r
        else
          signals ← perform Dispatch;
          let r := foldl portal_response r signals in
          _ ← (if r.(received) then mret tt else perform (Usleep 10000));
          wait_response fuel deadline r
  end.

(** [output + size] filled from the descriptor; whether it got that far. *)
Fixpoint read_secret (fuel : nat) (descriptor : Z) (output : text) (size : nat) : M (bool * text) :=
  match fuel with
  | O => out_of_fuel
  | S fuel =>
      if (SECRET_SIZE <=? size)%nat then mret (true, output)
      else
        count ← perform (Read descriptor (SECRET_SIZE - size));
        match count with
        | inl e =>
            if decide (e = EINTR) then read_secret fuel descriptor output size
            else mret (false, output)
        | inr [] => mret (false, output)
        | inr data =>
            read_secret fuel descriptor
              (take size output ++ data ++ drop (size + length data) output)
              (size + length data)
        end
  end.

(** Nothing follows the secret. *)
Fixpoint read_extra (fuel : nat) (descriptor : Z) : M bool :=
  match fuel with
  | O => out_of_fuel
  | S fuel =>
      count ← perform (Read descriptor 1);
      match count with
      | inl e => if decide (e = EINTR) then read_extra fuel descriptor else mret false
      | inr data => mret (bool_decide (data = []))
      end
  end.

(** The [RetrieveSecret] call with the saved token. *)
Definition secret_call (descriptor : Z) (handle_token : text) (saved : option text) : bus_call :=
  BusCall PORTAL_NAME PORTAL_PATH PORTAL_SECRET (str "RetrieveSecret")
    [VHandle 0; VDict ((str "handle_token", VString handle_token) ::
      match saved with Some t => [(str "token", VString t)] | None => [] end)]
    [descriptor] (PORTAL_TIMEOUT_SECONDS * 1000).

(** From the response on: the secret, if there is one, is in the descriptor. *)
Definition receive_secret (fuel : nat) (descriptor : Z) (path : text) (r : PortalResponse)
    (output : text) : M (bool * text) :=
  if negb r.(received) then
    _ ← perform (Notify (BusCall PORTAL_NAME path PORTAL_REQUEST (str "Close") [] [] 3000));
    mret (false, output)
  else if negb (r.(response) =? 0) then mret (false, output)
  else
    sought ← perform (Lseek descriptor);
    match sought with
    | inl _ => mret (false, output)
    | inr _ =>
        '(ok, output) ← read_secret fuel descriptor output 0;
        if negb ok then mret (false, output)
        else
          ended ← read_extra fuel descriptor;
          if negb ended then mret (false, output)
          else _ ← save_token r.(token); mret (true, output)
    end.

(** A reply of another type than asked for is an error of the call. *)
Definition ask_portal (fuel : nat) (descriptor : Z) (handle_token path output : text) :
    M (bool * text) :=
  saved ← load_token;
  appended ← perform (FdListAppend descriptor);
  match appended with
  | Some _ => mret (false, output)
  | None =>
      reply ← perform (Call (secret_call descriptor handle_token saved));
      match reply with
      | inr [VObject returned] =>
          if negb (text_eqb returned path) then mret (false, output)
          else
            time ← perform Time;
            r ← wait_response fuel (time + PORTAL_TIMEOUT_SECONDS * 1000000)
                  (Response false 0 None);
            receive_secret fuel descriptor path r output
      | _ => mret (false, output)
      end
  end.

Definition retrieve_portal_secret (fuel : nat) (output : text) : M (bool * text) :=
  made ← perform Memfd;
  match made with
  | inl _ => mret (false, secure_clear output)
  | inr descriptor =>
      handle ← perform Uuid;
      let handle_token := map (λ c, if decide (c = "-"%char) then "_"%char else c) handle in
      '(success, output) ←
        match request_path handle_token with
        | None => mret (false, output)
        | Some path =>
            _ ← perform (Subscribe (Some path));
            r ← ask_portal fuel descriptor handle_token path output;
            _ ← perform Unsubscribe;
            mret r
        end;
      let output := if success : bool then output else secure_clear output in
      _ ← truncate_secret_fd fuel descriptor;
      _ ← perform (Close descriptor);
      mret (success, output)
  end.

(** ** Names and processes *)

Definition dbus_call (method name : text) : bus_call :=
  BusCall DBUS_NAME DBUS_PATH DBUS_NAME method [VString name] [] 3000.

Definition name_has_owner (name : text) : M bool :=
  reply ← perform (Call (dbus_call (str "NameHasOwner") name));
  mret match reply with inr [VBoolean owned] => owned | _ => false end.

Fixpoint wait_for_owner_loop (fuel : nat) (deadline : Z) (name : text) (child : Z) : M bool :=
  match fuel with
  | O => out_of_fuel
  | S fuel =>
      time ← perform Time;
      if deadline <=? time then mret false
      else
        owned ← name_has_owner name;
        if owned : bool then mret true
        else
          exited ← (if 0 <? child then
                      waited ← perform (Waitpid child true);
                      mret (bool_decide (waited = inr child))
                    else mret false);
          if exited : bool then mret false
          else _ ← perform (Usleep 50000); wait_for_owner_loop fuel deadline name child
  end.

Definition wait_for_owner (fuel : nat) (name : text) (child : Z) : M bool :=
  time ← perform Time;
  wait_for_owner_loop fuel (time + PROVIDER_TIMEOUT_SECONDS * 1000000) name child.

Definition wallet_call (kf6 : bool) (method : text) (parameters : list variant) : bus_call :=
  BusCall (str (if kf6 then "org.kde.kwalletd6" else "org.kde.kwalletd5"))
    (str (if kf6 then "/modules/kwalletd6" else "/modules/kwalletd5"))
    (str "org.kde.KWallet") method parameters [] 3000.

(** [G_IO_ERROR_TIMED_OUT], and the D-Bus errors GLib has codes for. *)
Definition is_timeout (e : gerror) : bool :=
  match e with
  | TIMED_OUT => true
  | Reported name =>
      bool_decide (name ∈ [str "org.freedesktop.DBus.Error.NoReply";
        str "org.freedesktop.DBus.Error.Timeout"; str "org.freedesktop.DBus.Error.TimedOut"])
  | _ => false
  end.

Definition failed_state (reply : gerror + list variant) : WalletState :=
  match reply with
  | inl e => if is_timeout e then WALLET_TIMEOUT else WALLET_ERROR
  | inr _ => WALLET_ERROR
  end.

Definition wallet_open_state (kf6 : bool) : M WalletState :=
  if kf6 then
    reply ← perform (Call (wallet_call kf6 (str "open")
      [VString (str "spaces-managed-v1"); VInt64 0; VString (str "spaces-secret-helper")]));
    match reply with
    | inr [VInt32 handle] =>
        if handle <? 0 then mret WALLET_CLOSED
        else
          _ ← perform (Call (wallet_call kf6 (str "close")
            [VInt32 handle; VBoolean true; VString (str "spaces-secret-helper")]));
          mret WALLET_OPEN
    | _ => mret (failed_state reply)
    end
  else
    reply ← perform (Call (wallet_call kf6 (str "isOpen") [VString (str "spaces-managed-v1")]));
    mret match reply with
         | inr [VBoolean open] => if open : bool then WALLET_OPEN else WALLET_CLOSED
         | _ => failed_state reply
         end.

Definition connection_pid (name : text) : M Z :=
  reply ← perform (Call (dbus_call (str "GetConnectionUnixProcessID") name));
  let pid := match reply with inr [VUint32 pid] => pid | _ => 0 end in
  mret (if (1 <? pid) && (pid <=? INT_MAX) then pid else -1).

Fixpoint reap (fuel : nat) (child : Z) : M unit :=
  match fuel with
  | O => out_of_fuel
  | S fuel =>
      waited ← perform (Waitpid child false);
      if decide (waited = inl EINTR) then reap fuel child else mret tt
  end.

Fixpoint wait_released (fuel : nat) (deadline : Z) (name : text) : M unit :=
  match fuel with
  | O => out_of_fuel
  | S fuel =>
      owned ← name_has_owner name;
      if negb owned then mret tt
      else
        time ← perform Time;
        if deadline <=? time then mret tt
        else _ ← perform (Usleep 50000); wait_released fuel deadline name
  end.

Definition kill_provider (fuel : nat) (name : text) (child : Z) : M unit :=
  owner ← connection_pid name;
  child ← (if 1 <? child then
             waited ← perform (Waitpid child true);
             mret (if decide (waited = inr child ∨ waited = inl ECHILD) then -1 else child)
           else mret child);
  _ ← (if (1 <? owner) && negb (owner =? getpid) then perform (Kill owner SIGKILL) else mret tt);
  _ ← (if (1 <? child) && negb (child =? owner) && negb (child =? getpid)
       then perform (Kill child SIGKILL) else mret tt);
  _ ← (if 1 <? child then reap fuel child else mret tt);
  time ← perform Time;
  wait_released fuel (time + 3 * 1000000) name.

(** ** Moving a wallet aside *)

Definition rename_noreplace (source destination : text) : M (Z + unit) :=
  renamed ← perform (Renameat2 source destination);
  match renamed with
  | inr _ => mret (inr tt)
  | inl e =>
      if negb (e =? ENOSYS) then mret (inl e)
      else
        linked ← perform (Link source destination);
        match linked with
        | inl e => mret (inl e)
        | inr _ =>
            unlinked ← perform (Unlink source);
            match unlinked with
            | inr _ => mret (inr tt)
            | inl saved_errno => _ ← perform (Unlink destination); mret (inl saved_errno)
            end
        end
  end.

Definition nofollow_stat (path : text) : M (Z + meta) := perform (Lstat path).

Definition wallet_names : list text :=
  [str "spaces-managed-v1.kwl"; str "spaces-managed-v1.salt";
   str "spaces-managed-v1_attributes.json"].

(** Which of the sources are there; [None] if one is not the user's own file or
    could not be looked up. *)
Fixpoint find_present (sources : list text) : M (option (list bool)) :=
  match sources with
  | [] => mret (Some [])
  | source :: sources =>
      found ← nofollow_stat source;
      match found with
      | inr m =>
          if negb (S_ISREG m.(st_mode)) || negb (m.(st_uid) =? getuid) then mret None
          else
            present ← find_present sources;
            mret (cons true <$> present)
      | inl e =>
          if negb (e =? ENOENT) then mret None
          else
            present ← find_present sources;
            mret (cons false <$> present)
      end
  end.

(** ["%s.%u"] *)
Definition destination_of (number : Z) (source : text) : text :=
  source ++ str "." ++ decimal number.

Fixpoint all_available (destinations : list text) : M bool :=
  match destinations with
  | [] => mret true
  | destination :: destinations =>
      found ← nofollow_stat destination;
      match found with
      | inr _ => mret false
      | inl e => if negb (e =? ENOENT) then mret false else all_available destinations
      end
  end.

(** The first number from [number] on that no destination uses; [None] if
    there is none below [G_MAXUINT]. *)
Fixpoint find_number (fuel : nat) (number : Z) (sources : list text) : M (option Z) :=
  match fuel with
  | O => out_of_fuel
  | S fuel =>
      if UINT_MAX <=? number then mret None
      else
        available ← all_available (map (destination_of number) sources);
        if available : bool then mret (Some number) else find_number fuel (number + 1) sources
  end.

(** Moves the files that are present, given with their destinations; the
    files moved, the last one first, and whether these are all. *)
Fixpoint move_present (files : list (text * text)) (moved : list (text * text)) :
    M (bool * list (text * text)) :=
  match files with
  | [] => mret (true, moved)
  | (source, destination) :: files =>
      renamed ← rename_noreplace source destination;
      match renamed with
      | inl _ => mret (false, moved)
      | inr _ => move_present files ((source, destination) :: moved)
      end
  end.

Fixpoint rollback (moved : list (text * text)) : M unit :=
  match moved with
  | [] => mret tt
  | (source, destination) :: moved =>
      _ ← perform (Rename destination source);
      rollback moved
  end.

Definition present_files (sources : list text) (present : list bool) (number : Z) :
    list (text * text) :=
  map (λ s, (s, destination_of number s)) (omap (λ '(s, p), if p : bool then Some s else None)
    (zip sources present)).

Definition wallet_sources (data_directory : text) : list text :=
  map (λ name, g_build_filename [g_build_filename [data_directory; str "kwalletd"]; name])
    wallet_names.

(** The number of the backup. *)
Definition spaces_backup_failed_wallet (fuel : nat) (data_directory : text) : M (option Z) :=
  if decide (data_directory = []) then mret None
  else
    let sources := wallet_sources data_directory in
    found ← find_present sources;
    match found with
    | Some ((true :: _) as present) =>
        found ← find_number fuel 1 sources;
        match found with
        | None => mret None
        | Some number =>
            '(all, moved) ← move_present (present_files sources present number) [];
            if all : bool then mret (Some number)
            else _ ← rollback moved; mret None
        end
    | _ => mret None
    end.

(** ** Starting the provider *)

Definition headless_line : text := str "QT_QPA_PLATFORM=offscreen" ++ ["010"%char].

Fixpoint send_entries (fuel : nat) (descriptor : Z) (entries : list text) : M bool :=
  match entries with
  | [] => mret true
  | entry :: entries =>
      if has_prefix entry (str "QT_QPA_PLATFORM=") then send_entries fuel descriptor entries
      else if decide ("010"%char ∈ entry) then mret false
      else
        sent ← write_all fuel descriptor entry;
        if negb sent then mret false
        else
          ended ← write_all fuel descriptor ["010"%char];
          if negb ended then mret false else send_entries fuel descriptor entries
  end.

Definition send_environment (fuel : nat) (path : text) : M bool :=
  made ← perform Socket;
  match made with
  | inl _ => mret false
  | inr descriptor =>
      success ←
        (if (SUN_PATH <=? length path)%nat then mret false
         else
           connected ← perform (Connect descriptor path);
           match connected with
           | inl _ => mret false
           | inr _ =>
               sent ← send_entries fuel descriptor environ;
               if negb sent then mret false else write_all fuel descriptor headless_line
           end);
      _ ← perform (Close descriptor);
      mret success
  end.

(** The child's end of the key pipe and the listener are inherited. *)
Definition storage_child (program : text) (key_read key_write listener : Z) : child :=
  Child [key_write]
    [spaces_prepare_headless_qt; (str "PAM_KWALLET5_LOGIN", str "1")]
    program [program; str "--pam-login"; signed_decimal key_read; signed_decimal listener].

Fixpoint close_all (descriptors : list Z) : M unit :=
  match descriptors with
  | [] => mret tt
  | d :: descriptors => _ ← perform (Close d); close_all descriptors
  end.

(** From the fork on, with the end of the pipe that is still open. *)
Definition feed_provider (fuel : nat) (program key socket_path : text)
    (key_read key_write listener : Z) : M (Z * list Z) :=
  child ← perform (Fork (storage_child program key_read key_write listener));
  if child <? 0 then mret (child, [key_read; key_write])
  else
    _ ← perform (Close key_read);
    written ← write_all fuel key_write key;
    if negb written then _ ← perform (Kill child SIGTERM); mret (-1, [key_write])
    else
      _ ← perform (Close key_write);
      sent ← send_environment fuel socket_path;
      if negb sent then _ ← perform (Kill child SIGTERM); mret (-1, [])
      else mret (child, []).

Definition provider_socket (runtime : text) : text :=
  g_build_filename [runtime; str "spaces-kwallet-environment.socket"].

Definition spawn_storage_provider (fuel : nat) (program key : text) : M Z :=
  match runtime_dir with
  | Some ((_ :: _) as runtime) =>
      made ← perform Pipe;
      match made with
      | inl _ => mret (-1)
      | inr (key_read, key_write) =>
          let socket_path := provider_socket runtime in
          '(child, open) ←
            (if (SUN_PATH <=? length socket_path)%nat then mret (-1, [key_read; key_write])
             else
               made ← perform Socket;
               match made with
               | inl _ => mret (-1, [key_read; key_write])
               | inr listener =>
                   _ ← perform (Unlink socket_path);
                   bound ← perform (Bind listener socket_path);
                   listening ← match bound with
                               | inl e => mret (inl e)
                               | inr _ => perform (Listen listener)
                               end;
                   match listening with
                   | inl _ => mret (-1, [key_read; key_write; listener])
                   | inr _ =>
                       '(child, open) ← feed_provider fuel program key socket_path
                         key_read key_write listener;
                       mret (child, open ++ [listener])
                   end
               end);
          _ ← close_all open;
          _ ← perform (Unlink socket_path);
          mret child
      end
  | _ => mret (-1)
  end.

Definition spawn_plain (program : text) : M Z :=
  perform (Fork (Child [] [spaces_prepare_headless_qt] program [program])).

Definition kwalletd6 := str "org.kde.kwalletd6".

Definition ensure_kf6_proxy (fuel : nat) : M Z :=
  owned ← name_has_owner kwalletd6;
  if owned : bool then mret 0
  else
    there ← perform (Executable (str "/usr/bin/kwalletd6"));
    if negb there then _ ← say (str "KWallet compatibility proxy is missing"); mret (-1)
    else
      child ← spawn_plain (str "/usr/bin/kwalletd6");
      if child <=? 0 then mret (-1)
      else
        owned ← wait_for_owner fuel kwalletd6 child;
        if owned : bool then mret child
        else _ ← perform (Kill child SIGTERM); mret (-1).

Definition marker_exists (path : text) : M bool :=
  made ← perform (Open path (Z.lor O_RDONLY (Z.lor O_CLOEXEC O_NOFOLLOW)));
  match made with
  | inl _ => mret false
  | inr descriptor =>
      found ← perform (Fstat descriptor);
      _ ← perform (Close descriptor);
      mret match found with
           | inr m => S_ISREG m.(st_mode) && (m.(st_uid) =? getuid)
           | inl _ => false
           end
  end.

Definition create_marker (path : text) : M bool :=
  made ← perform (Open path (Z.lor O_WRONLY (Z.lor O_CREAT (Z.lor O_CLOEXEC O_NOFOLLOW))));
  match made with
  | inl _ => mret false
  | inr descriptor => _ ← perform (Close descriptor); mret true
  end.

(** ** Activation *)

Definition storage_name := str "org.freedesktop.secrets".

Definition storage_program (kf6 : bool) : text :=
  str (if kf6 then "/usr/bin/ksecretd" else "/usr/bin/kwalletd5").

(** The nested blocks that end the proxy. *)
Definition kill_proxy (fuel : nat) (kf6 : bool) (proxy_child : Z) : M unit :=
  if kf6 then kill_provider fuel kwalletd6 proxy_child else mret tt.

(** Whether the wallet was backed up; the message names the backup. *)
Definition backup_wallet (fuel : nat) : M bool :=
  made ← spaces_backup_failed_wallet fuel user_data_dir;
  match made with
  | None => _ ← say (str "could not back up the locked wallet"); mret false
  | Some backup =>
      _ ← say (str "backed up the locked wallet as spaces-managed-v1.kwl." ++ decimal backup);
      mret true
  end.

(** A provider the helper started before. [None] is [goto out]; otherwise
    whether the provider is still there, which it is not if it was killed and
    its wallet backed up. *)
Definition check_provider (fuel : nat) (kf6 : bool) (marker : text) : M (option bool) :=
  proxy_child ← (if kf6 then ensure_kf6_proxy fuel else mret (-1));
  if kf6 && (proxy_child <? 0) then mret None
  else
    state ← wallet_open_state kf6;
    match state with
    | WALLET_OPEN => mret (Some true)
    | WALLET_TIMEOUT =>
        _ ← kill_proxy fuel kf6 proxy_child;
        _ ← kill_provider fuel storage_name (-1);
        _ ← perform (Unlink marker);
        _ ← say (str "KWallet timed out and was killed");
        mret None
    | WALLET_ERROR =>
        _ ← kill_proxy fuel kf6 proxy_child;
        _ ← say (str "could not query the managed wallet");
        mret None
    | WALLET_CLOSED =>
        _ ← kill_proxy fuel kf6 proxy_child;
        _ ← kill_provider fuel storage_name (-1);
        _ ← perform (Unlink marker);
        backed_up ← backup_wallet fuel;
        mret (if backed_up : bool then Some false else None)
    end.

(** The loop that starts a provider: the child that opened the wallet. *)
Fixpoint start_loop (attempts fuel : nat) (kf6 wallet_backed_up : bool) (key marker : text) :
    M (option Z) :=
  match attempts with
  | O => out_of_fuel
  | S attempts =>
      child ← spawn_storage_provider fuel (storage_program kf6) key;
      owned ← (if 0 <? child then wait_for_owner fuel storage_name child else mret false);
      if negb owned then
        _ ← (if 0 <? child then kill_provider fuel storage_name child else mret tt);
        _ ← perform (Unlink marker);
        _ ← say (str "KWallet startup timed out and was killed");
        mret None
      else
        proxy_child ← (if kf6 then ensure_kf6_proxy fuel else mret (-1));
        if kf6 && (proxy_child <? 0) then
          _ ← kill_provider fuel storage_name child; mret None
        else
          state ← wallet_open_state kf6;
          if bool_decide (state = WALLET_OPEN) then mret (Some child)
          else
            _ ← kill_proxy fuel kf6 proxy_child;
            _ ← kill_provider fuel storage_name child;
            _ ← perform (Unlink marker);
            if bool_decide (state = WALLET_TIMEOUT) then
              _ ← say (str "KWallet timed out and was killed"); mret None
            else if bool_decide (state = WALLET_CLOSED) && negb wallet_backed_up then
              backed_up ← backup_wallet fuel;
              if backed_up : bool then start_loop attempts fuel kf6 true key marker
              else mret None
            else
              _ ← say (if bool_decide (state = WALLET_CLOSED) then str "recreated KWallet did not open"
                       else str "could not query KWallet");
              mret None
  end.

(** The block [if (!storage_owned)], with the two secrets. *)
Definition start_provider (fuel : nat) (kf6 wallet_backed_up : bool) (marker portal_secret key : text) :
    M (bool * (text * text)) :=
  '(retrieved, portal_secret) ← retrieve_portal_secret fuel portal_secret;
  match (if retrieved : bool then spaces_derive_kwallet_key portal_secret else None) with
  | None => _ ← say (str "portal secret is unavailable"); mret (false, (portal_secret, key))
  | Some key =>
      let portal_secret := secure_clear portal_secret in
      started ← start_loop fuel fuel kf6 wallet_backed_up key marker;
      match started with
      | None => mret (false, (portal_secret, key))
      | Some child =>
          marked ← create_marker marker;
          if negb marked then
            _ ← kill_provider fuel storage_name child; mret (false, (portal_secret, key))
          else mret (true, (portal_secret, secure_clear key))
      end
  end.

(** Up to [out:], with the two secrets. *)
Definition activate_steps (fuel : nat) (activation_name marker portal_secret key : text) :
    M (Z * (text * text)) :=
  kf6 ← perform (Executable (str "/usr/bin/ksecretd"));
  storage_owned ← name_has_owner storage_name;
  supported ← perform (Executable (storage_program kf6));
  if negb supported then
    _ ← say (str "no supported KWallet provider"); mret (1, (portal_secret, key))
  else
    managed ← (if storage_owned : bool then marker_exists marker else mret true);
    if negb managed then
      _ ← say (str "refusing an unmanaged secret provider"); mret (1, (portal_secret, key))
    else
      checked ← (if storage_owned : bool then check_provider fuel kf6 marker else mret (Some false));
      match checked with
      | None => mret (1, (portal_secret, key))
      | Some still_owned =>
          (* An owner that is gone by now had its wallet backed up. *)
          '(ready, secrets) ←
            (if still_owned : bool then mret (true, (portal_secret, key))
             else start_provider fuel kf6 storage_owned marker portal_secret key);
          if negb ready then mret (1, secrets)
          else
            owned ← name_has_owner activation_name;
            if negb owned then
              _ ← say (str "provider did not claim " ++ activation_name); mret (1, secrets)
            else mret (0, secrets)
      end.

(** The result, and what the two buffers hold when the function returns. *)
Definition activate_provider (fuel : nat) (activation_name marker : text) : M (Z * (text * text)) :=
  '(result, (portal_secret, key)) ← activate_steps fuel activation_name marker
    (replicate SECRET_SIZE zero) (replicate KWALLET_KEY_SIZE zero);
  mret (result, (secure_clear portal_secret, secure_clear key)).

Definition activation_names : list text :=
  [storage_name; str "org.kde.secretservicecompat"; str "org.kde.kwalletd5"; kwalletd6].

(** [GetBus] answers the message of the error, if there is one. *)
Definition main (fuel : nat) (argv : list text) : M Z :=
  let activation_name :=
    match argv with
    | [_; option; name] => if text_eqb option (str "--activation-name") then Some name else None
    | _ => None
    end in
  match activation_name with
  | Some name =>
      if negb (bool_decide (name ∈ activation_names)) then
        _ ← say (str "invalid activation name"); mret 2
      else
        match runtime_dir with
        | Some ((_ :: _) as runtime) =>
            _ ← perform IgnoreSigpipe;
            made ← perform (Open (g_build_filename [runtime; str "spaces-secret-helper.lock"])
              (Z.lor O_RDWR (Z.lor O_CREAT (Z.lor O_CLOEXEC O_NOFOLLOW))));
            match made with
            | inl _ => mret 1
            | inr lock =>
                locked ← perform (Flock lock);
                match locked with
                | inl _ => _ ← perform (Close lock); mret 1
                | inr _ =>
                    bus ← perform GetBus;
                    match bus with
                    | inl message =>
                        _ ← say (default (str "session bus is unavailable") message);
                        _ ← perform (Close lock);
                        mret 1
                    | inr _ =>
                        '(result, _) ← activate_provider fuel name
                          (g_build_filename [runtime; str "spaces-secret-helper.ready"]);
                        _ ← perform (Close lock);
                        mret result
                    end
                end
            end
        | _ => _ ← say (str "XDG_RUNTIME_DIR is unavailable"); mret 1
        end
  | None => _ ← say (str "invalid activation name"); mret 2
  end.

End helper.
