(* ===== verification/SecretEnds.v ===== *)
(** * The secret helper ends ([native/spaces_secret_helper.c])

    Every run of the helper returns: each loop makes progress, is interrupted by
    a signal, or sleeps towards a deadline. *)

From S2P Require Import Prelude Glib Session SecretHelper.

Section ends.
Context `{Session} `{!Steady} `{Desktop}.

(** At most [F] more signals interrupt the helper. *)
Definition ends {A} (F : nat) (m : M A) : Prop := ∀ w, (signals w.(now) ≤ F)%nat →
  ∃ x w', m w = Returned x w' ∧ (signals w'.(now) ≤ F)%nat.

Lemma ends_bind {A B} F (m : M A) (f : A → M B) :
  ends F m → (∀ x, ends F (f x)) → ends F (m ≫= f).
Proof.
  intros Hm Hf w Hw. destruct (Hm w Hw) as (x & w1 & E1 & Hw1).
  destruct (Hf x w1 Hw1) as (y & w2 & E2 & Hw2).
  exists y, w2. rewrite M_bind_returned. eauto.
Qed.

Lemma ends_ret {A} F (x : A) : ends F (mret x).
Proof. intros w Hw. by exists x, w. Qed.

Lemma ends_perform {A} F (r : request A) : ends F (perform r).
Proof.
  intros w Hw. do 2 eexists. split; [by apply perform_returned|].
  cbn [now]. pose proof (signals_mono r w.(now)). lia.
Qed.

(** A call whose interruption starts a loop again. *)
Lemma ends_retry {A B} F (r : request A) (f : A → M B) :
  (∀ x, ¬ interrupted r x → ends F (f x)) →
  (∀ x G, interrupted r x → (G < F)%nat → ends G (f x)) →
  ends F (perform r ≫= f).
Proof.
  intros Hn Hi w Hw. set (x := (step r w.(now)).1). set (h := (step r w.(now)).2).
  assert (perform r w = Returned x (World h (Did r x :: w.(trace)))) as E
    by (by apply perform_returned).
  destruct (interrupted_dec r x) as [Hx|Hx].
  - pose proof (signals_interrupt r w.(now) Hx).
    destruct (Hi x (signals h) Hx ltac:(subst h; lia) (World h (Did r x :: w.(trace))))
      as (y & w2 & E2 & Hw2); [done|].
    exists y, w2. rewrite M_bind_returned. split; [eauto|]. subst h. lia.
  - destruct (Hn x Hx (World h (Did r x :: w.(trace)))) as (y & w2 & E2 & Hw2).
    { subst h. simpl. pose proof (signals_mono r w.(now)). lia. }
    exists y, w2. rewrite M_bind_returned. eauto.
Qed.

(** One call of a loop that runs towards a deadline. *)
Lemma ends_step {A B} F (r : request A) (f : A → M B) w :
  (∀ w', w'.(now) = (step r w.(now)).2 → (signals w'.(now) ≤ signals w.(now))%nat →
    elapsed w.(now) ≤ elapsed w'.(now) →
    ∃ y w2, f (step r w.(now)).1 w' = Returned y w2 ∧ (signals w2.(now) ≤ F)%nat) →
  ∃ y w2, (perform r ≫= f) w = Returned y w2 ∧ (signals w2.(now) ≤ F)%nat.
Proof.
  intros Hf. pose proof (signals_mono r w.(now)). pose proof (elapsed_mono r w.(now)).
  destruct (Hf (World (step r w.(now)).2 (Did r (step r w.(now)).1 :: w.(trace))))
    as (y & w2 & E & HP); [done..|].
  exists y, w2. split; [|exact HP]. apply M_bind_returned.
  do 2 eexists. split; [by apply perform_returned|exact E].
Qed.

Lemma ends_truncate F fuel fd : (F < fuel)%nat → ends F (truncate_secret_fd fuel fd).
Proof.
  revert F. induction fuel as [|fuel IH]; intros F Hf; [lia|].
  apply ends_retry; cbn [interrupted].
  - intros x Hx. rewrite decide_False by done. apply ends_ret.
  - intros x G Hx HG. rewrite decide_True by done. apply IH. lia.
Qed.

Lemma ends_reap F fuel child : (F < fuel)%nat → ends F (reap fuel child).
Proof.
  revert F. induction fuel as [|fuel IH]; intros F Hf; [lia|].
  apply ends_retry; cbn [interrupted].
  - intros x Hx. rewrite decide_False by done. apply ends_ret.
  - intros x G Hx HG. rewrite decide_True by done. apply IH. lia.
Qed.

Lemma ends_write_all F fuel fd data :
  (F + length data < fuel)%nat → ends F (write_all fuel fd data).
Proof.
  revert F data. induction fuel as [|fuel IH]; intros F data Hf; [lia|].
  cbn [write_all]. case_decide as Hd; [apply ends_ret|].
  destruct data as [|c rest]; [done|].
  apply ends_retry; cbn [interrupted].
  - intros [e|[|n]] Hx; [|apply ends_ret|].
    + rewrite decide_False by congruence. apply ends_ret.
    + apply IH. rewrite length_drop. simpl in *. lia.
  - intros x G -> HG. rewrite decide_True by done. apply IH. lia.
Qed.

Lemma ends_read_secret F fuel fd output size :
  (F + (SECRET_SIZE - size) < fuel)%nat → ends F (read_secret fuel fd output size).
Proof.
  revert F output size. induction fuel as [|fuel IH]; intros F output size Hf; [lia|].
  cbn [read_secret]. destruct (Nat.leb_spec SECRET_SIZE size) as [_|Hs]; [apply ends_ret|].
  apply ends_retry; cbn [interrupted].
  - intros [e|[|c data]] Hx; [|apply ends_ret|].
    + rewrite decide_False by congruence. apply ends_ret.
    + apply IH. simpl. lia.
  - intros x G -> HG. rewrite decide_True by done. apply IH. lia.
Qed.

Lemma ends_read_extra F fuel fd : (F < fuel)%nat → ends F (read_extra fuel fd).
Proof.
  revert F. induction fuel as [|fuel IH]; intros F Hf; [lia|].
  apply ends_retry; cbn [interrupted].
  - intros [e|data] Hx; [|apply ends_ret]. rewrite decide_False by congruence. apply ends_ret.
  - intros x G -> HG. rewrite decide_True by done. apply IH. lia.
Qed.

(** ** Deadlines *)

Lemma ends_wait_response fuel deadline r w :
  deadline - elapsed w.(now) < 10000 * (Z.of_nat fuel - 1) → (0 < fuel)%nat →
  ∃ x w', wait_response fuel deadline r w = Returned x w' ∧
    (signals w'.(now) ≤ signals w.(now))%nat.
Proof.
  revert r w. induction fuel as [|fuel IH]; intros r w Hd Hf; [lia|].
  cbn [wait_response]. destruct (received r); [by exists r, w|].
  apply ends_step. intros w1 Hw1 Hs1 He1. pose proof (elapsed_time w.(now)) as Ht.
  rewrite <- Hw1 in Ht. destruct (Z.leb_spec deadline (step Time w.(now)).1) as [_|Hlt].
  { by do 2 eexists. }
  apply ends_step. intros w2 Hw2 Hs2 He2.
  set (r2 := foldl portal_response r (step Dispatch (now w1)).1).
  destruct (received r2) eqn:Er.
  - destruct fuel as [|fuel]; [lia|]. exists r2, w2. cbn [wait_response].
    unfold mbind, M_bind, mret, M_ret. rewrite Er. split; [done|lia].
  - apply ends_step. intros w3 Hw3 Hs3 _. pose proof (elapsed_sleep 10000 w2.(now)) as He3.
    rewrite <- Hw3 in He3. destruct (IH r2 w3) as (x & w4 & E & Hs4); [lia..|].
    exists x, w4. split; [exact E|lia].
Qed.

Lemma ends_name_has_owner F name : ends F (name_has_owner name).
Proof. apply ends_bind; [apply ends_perform|]. intros x. apply ends_ret. Qed.

(** A part of a loop with no deadline of its own. *)
Lemma ends_prefix {A B} F (m : M A) (f : A → M B) w w' x :
  m w = Returned x w' →
  (∃ y w2, f x w' = Returned y w2 ∧ (signals w2.(now) ≤ F)%nat) →
  ∃ y w2, (m ≫= f) w = Returned y w2 ∧ (signals w2.(now) ≤ F)%nat.
Proof. intros E (y & w2 & E2 & HF). exists y, w2. rewrite M_bind_returned. eauto. Qed.

Definition within {A} (m : M A) : Prop := ∀ w, ∃ x w', m w = Returned x w' ∧
  (signals w'.(now) ≤ signals w.(now))%nat ∧ elapsed w.(now) ≤ elapsed w'.(now).

Lemma within_call {A B} (r : request A) (f : A → B) : within (x ← perform r; mret (f x)).
Proof.
  intros w. eexists _, (World (step r w.(now)).2 (Did r (step r w.(now)).1 :: w.(trace))).
  split; [|split; [apply signals_mono|apply elapsed_mono]].
  apply M_bind_returned. do 2 eexists. split; [by apply perform_returned|].
  by apply M_ret_returned.
Qed.

Lemma within_ret {A} (x : A) : within (mret x).
Proof. intros w. by exists x, w. Qed.

Lemma ends_wait_for_owner_loop fuel deadline name child w :
  deadline - elapsed w.(now) < 50000 * (Z.of_nat fuel - 1) → (0 < fuel)%nat →
  ∃ x w', wait_for_owner_loop fuel deadline name child w = Returned x w' ∧
    (signals w'.(now) ≤ signals w.(now))%nat.
Proof.
  revert w. induction fuel as [|fuel IH]; intros w Hd Hf; [lia|].
  cbn [wait_for_owner_loop].
  apply ends_step. intros w1 Hw1 Hs1 He1. pose proof (elapsed_time w.(now)) as Ht.
  rewrite <- Hw1 in Ht. destruct (Z.leb_spec deadline (step Time w.(now)).1) as [_|Hlt].
  { by do 2 eexists. }
  destruct (within_call _ _ w1 : ∃ x w', name_has_owner name w1 = _ ∧ _) as (owned & w2 & E2 & Hs2 & He2).
  eapply ends_prefix; [exact E2|].
  destruct owned; [exists true, w2; split; [done|lia]|].
  assert (within (if 0 <? child then
      waited ← perform (Waitpid child true); mret (bool_decide (waited = inr child))
    else mret false)) as Hexited
    by (destruct (0 <? child); [apply within_call|apply within_ret]).
  destruct (Hexited w2) as (exited & w3 & E3 & Hs3 & He3).
  eapply ends_prefix; [exact E3|].
  destruct exited; [exists false, w3; split; [done|lia]|].
  apply ends_step. intros w4 Hw4 Hs4 _. pose proof (elapsed_sleep 50000 w3.(now)) as He4.
  rewrite <- Hw4 in He4. destruct (IH w4) as (x & w5 & E & Hs5); [lia..|].
  exists x, w5. split; [exact E|lia].
Qed.

Lemma ends_wait_released fuel deadline name w :
  deadline - elapsed w.(now) < 50000 * (Z.of_nat fuel - 1) → (0 < fuel)%nat →
  ∃ x w', wait_released fuel deadline name w = Returned x w' ∧
    (signals w'.(now) ≤ signals w.(now))%nat.
Proof.
  revert w. induction fuel as [|fuel IH]; intros w Hd Hf; [lia|].
  cbn [wait_released].
  destruct (within_call _ _ w : ∃ x w', name_has_owner name w = _ ∧ _) as (owned & w1 & E1 & Hs1 & He1).
  eapply ends_prefix; [exact E1|].
  destruct owned; [|exists tt, w1; split; [done|lia]]. cbn [negb].
  apply ends_step. intros w2 Hw2 Hs2 He2. pose proof (elapsed_time w1.(now)) as Ht.
  rewrite <- Hw2 in Ht. destruct (Z.leb_spec deadline (step Time w1.(now)).1) as [_|Hlt].
  { exists tt, w2. split; [done|lia]. }
  apply ends_step. intros w3 Hw3 Hs3 _. pose proof (elapsed_sleep 50000 w2.(now)) as He3.
  rewrite <- Hw3 in He3. destruct (IH w3) as (x & w4 & E & Hs4); [lia..|].
  exists x, w4. split; [exact E|lia].
Qed.

(** ** The operations *)

Ltac ends := repeat (intros; first
  [ apply ends_ret | apply ends_perform | solve [eauto with ends]
  | apply ends_bind | case_match | case_decide ]).

Lemma ends_say F message : ends F (say message).
Proof. apply ends_perform. Qed.
Hint Resolve ends_say ends_name_has_owner : ends.

Lemma ends_load_token F : ends F load_token.
Proof. unfold load_token. ends. Qed.
Lemma ends_save_token F token : ends F (save_token token).
Proof. unfold save_token. ends. Qed.
Lemma ends_wallet_open_state F kf6 : ends F (wallet_open_state kf6).
Proof. unfold wallet_open_state. ends. Qed.
Lemma ends_connection_pid F name : ends F (connection_pid name).
Proof. unfold connection_pid. ends. Qed.
Lemma ends_rename_noreplace F source dest : ends F (rename_noreplace source dest).
Proof. unfold rename_noreplace. ends. Qed.
Lemma ends_marker_exists F path : ends F (marker_exists path).
Proof. unfold marker_exists. ends. Qed.
Lemma ends_create_marker F path : ends F (create_marker path).
Proof. unfold create_marker. ends. Qed.
Lemma ends_spawn_plain F program : ends F (spawn_plain program).
Proof. apply ends_perform. Qed.
Lemma ends_find_present F sources : ends F (find_present sources).
Proof. induction sources; cbn [find_present]; unfold nofollow_stat; ends. Qed.
Lemma ends_all_available F destinations : ends F (all_available destinations).
Proof. induction destinations; cbn [all_available]; unfold nofollow_stat; ends. Qed.
Lemma ends_rollback F moved : ends F (rollback moved).
Proof. induction moved as [|[]]; cbn [rollback]; ends. Qed.
Lemma ends_close_all F descriptors : ends F (close_all descriptors).
Proof. induction descriptors; cbn [close_all]; ends. Qed.
Hint Resolve ends_load_token ends_save_token ends_wallet_open_state ends_connection_pid
  ends_rename_noreplace ends_marker_exists ends_create_marker ends_spawn_plain
  ends_find_present ends_all_available ends_rollback ends_close_all : ends.

Lemma ends_move_present F files moved : ends F (move_present files moved).
Proof. revert moved. induction files as [|[]]; intros; cbn [move_present]; ends. Qed.

Lemma ends_find_number F fuel number sources :
  UINT_MAX - number < Z.of_nat fuel → (0 < fuel)%nat → ends F (find_number fuel number sources).
Proof.
  revert number. induction fuel as [|fuel IH]; intros number Hf Hpos; [lia|]. cbn [find_number].
  destruct (Z.leb_spec UINT_MAX number); [apply ends_ret|].
  apply ends_bind; [apply ends_all_available|]. intros []; [apply ends_ret|]. apply IH; lia.
Qed.

(** Enough fuel for every loop: the numbers of a backup and the iterations
    until a deadline, the bytes of a transfer, and each interruption once. *)
Definition longest : nat := max_list (map length environ).

Definition enough (F fuel : nat) : Prop := Z.of_nat (F + longest) + 2 ^ 33 ≤ Z.of_nat fuel.

Context (F fuel : nat) (Hfuel : enough F fuel).

Lemma enough_bytes (data : text) : (length data ≤ longest + 1000)%nat → (F + length data < fuel)%nat.
Proof. unfold enough in Hfuel. lia. Qed.

Lemma enough_loop : (F < fuel)%nat ∧ 10000000 ≤ Z.of_nat fuel.
Proof. unfold enough in Hfuel. lia. Qed.

Lemma ends_wait_for_owner name child : ends F (wait_for_owner fuel name child).
Proof.
  intros w Hw. unfold wait_for_owner. apply ends_step. intros w1 Hw1 Hs1 _.
  pose proof (elapsed_time w.(now)) as Ht. rewrite <- Hw1 in Ht. pose proof enough_loop as [_ Hf].
  destruct (ends_wait_for_owner_loop fuel
    ((step Time w.(now)).1 + PROVIDER_TIMEOUT_SECONDS * 1000000) name child w1) as (x & w2 & E & Hs);
    [unfold PROVIDER_TIMEOUT_SECONDS; lia|lia|].
  exists x, w2. split; [exact E|lia].
Qed.

Lemma ends_released name :
  ends F (time ← perform Time; wait_released fuel (time + 3 * 1000000) name).
Proof.
  intros w Hw. apply ends_step. intros w1 Hw1 Hs1 _. pose proof enough_loop as [_ Hf].
  pose proof (elapsed_time w.(now)) as Ht. rewrite <- Hw1 in Ht.
  destruct (ends_wait_released fuel ((step Time w.(now)).1 + 3 * 1000000) name w1)
    as (u & w2 & E & Hs); [lia..|].
  exists u, w2. split; [exact E|lia].
Qed.

Lemma ends_wait_portal :
  ends F (time ← perform Time;
    wait_response fuel (time + PORTAL_TIMEOUT_SECONDS * 1000000) (Response false 0 None)).
Proof.
  intros w Hw. apply ends_step. intros w1 Hw1 Hs1 _. pose proof enough_loop as [_ Hf].
  pose proof (elapsed_time w.(now)) as Ht. rewrite <- Hw1 in Ht.
  destruct (ends_wait_response fuel ((step Time w.(now)).1 + PORTAL_TIMEOUT_SECONDS * 1000000)
    (Response false 0 None) w1) as (u & w2 & E & Hs); [unfold PORTAL_TIMEOUT_SECONDS; lia|lia|].
  exists u, w2. split; [exact E|lia].
Qed.

Lemma ends_bind_assoc {A B C} (m : M A) (f : A → M B) (g : B → M C) :
  ends F ((m ≫= f) ≫= g) → ends F (m ≫= λ x, f x ≫= g).
Proof.
  intros Hm w Hw. destruct (Hm w Hw) as (y & w2 & E & Hw2). exists y, w2. split; [|done].
  revert E. unfold mbind, M_bind. by destruct (m w).
Qed.

Lemma fuel_loop : (F < fuel)%nat.
Proof. apply enough_loop. Qed.
Hint Resolve fuel_loop ends_released ends_reap ends_truncate ends_read_extra ends_wait_for_owner : ends.

Lemma ends_kill_provider name child : ends F (kill_provider fuel name child).
Proof. unfold kill_provider. ends. Qed.

Lemma ends_secret output : ends F (retrieve_portal_secret fuel output).
Proof.
  assert (∀ fd out, ends F (read_secret fuel fd out 0)) as Hread.
  { intros. apply ends_read_secret. unfold SECRET_SIZE. pose proof Hfuel as Hf. unfold enough in Hf. lia. }
  assert (∀ fd path r out, ends F (receive_secret fuel fd path r out)) as Hreceive.
  { intros. unfold receive_secret. ends. }
  assert (∀ fd handle path out, ends F (ask_portal fuel fd handle path out)) as Hask.
  { intros fd handle path out. assert (ends F (time ← perform Time;
      r ← wait_response fuel (time + PORTAL_TIMEOUT_SECONDS * 1000000) (Response false 0 None);
      receive_secret fuel fd path r out)) as Htail
      by (apply ends_bind_assoc, ends_bind; [apply ends_wait_portal|auto]).
    unfold ask_portal. ends. }
  unfold retrieve_portal_secret. ends.
Qed.

Lemma ends_write fd data : (length data ≤ longest + 1000)%nat → ends F (write_all fuel fd data).
Proof. intros Hd. by apply ends_write_all, enough_bytes. Qed.

Lemma ends_send_entries fd entries :
  (∀ e, e ∈ entries → e ∈ environ) → ends F (send_entries fuel fd entries).
Proof.
  induction entries as [|e entries IH]; intros He; cbn [send_entries]; [apply ends_ret|].
  assert (ends F (send_entries fuel fd entries)) by (apply IH; set_solver).
  assert (ends F (write_all fuel fd e)).
  { apply ends_write. unfold longest. pose proof (max_list_elem_of_le (length e) (map length environ)).
    enough (length e ≤ max_list (map length environ))%nat by lia. apply max_list_elem_of_le.
    apply list_elem_of_fmap. exists e. split; [done|]. apply He. set_solver. }
  assert (ends F (write_all fuel fd ["010"%char])) by (apply ends_write; simpl; lia). ends.
Qed.

Lemma ends_spawn_storage program key :
  (length key ≤ 1000)%nat → ends F (spawn_storage_provider fuel program key).
Proof.
  intros Hk. assert (∀ fd, ends F (write_all fuel fd key)) by (intros; apply ends_write; lia).
  assert (∀ fd, ends F (write_all fuel fd headless_line)) by (intros; apply ends_write; change (length headless_line) with 26%nat; lia).
  assert (∀ fd, ends F (send_entries fuel fd environ)) by (intros; by apply ends_send_entries).
  unfold spawn_storage_provider, feed_provider, send_environment. ends.
Qed.
Hint Resolve ends_kill_provider ends_secret : ends.

Lemma ends_proxy : ends F (ensure_kf6_proxy fuel).
Proof. unfold ensure_kf6_proxy. ends. Qed.
Hint Resolve ends_proxy ends_move_present : ends.

Lemma ends_backup : ends F (backup_wallet fuel).
Proof.
  assert (∀ sources, ends F (find_number fuel 1 sources)).
  { intros. pose proof enough_loop. apply ends_find_number; [|lia].
    pose proof Hfuel as Hf. unfold enough, UINT_MAX in *. lia. }
  unfold backup_wallet, spaces_backup_failed_wallet. ends.
Qed.
Hint Resolve ends_backup : ends.

Lemma ends_check kf6 marker : ends F (check_provider fuel kf6 marker).
Proof. unfold check_provider, kill_proxy. ends. Qed.

(** The second attempt is the last. *)
Lemma ends_start_loop attempts kf6 backed key marker :
  (length key ≤ 1000)%nat → ((if backed : bool then 0 else 1) < attempts)%nat →
  ends F (start_loop attempts fuel kf6 backed key marker).
Proof.
  intros Hk. pose proof (λ program, ends_spawn_storage program key Hk) as Hspawn.
  revert backed. induction attempts as [|attempts IH]; intros backed Ha; [lia|].
  cbn [start_loop]. unfold kill_proxy. destruct backed.
  - ends; match goal with E : _ && negb true = true |- _ => by rewrite andb_false_r in E end.
  - assert (ends F (start_loop attempts fuel kf6 true key marker)) by (apply IH; lia).
    ends.
Qed.

Lemma derived_length secret key : spaces_derive_kwallet_key secret = Some key →
  length key = KWALLET_KEY_SIZE.
Proof.
  unfold spaces_derive_kwallet_key. destruct (hmac_sha512 _ _) as [d|]; [|done]. simpl.
  case_decide as Hd; [|done]. intros [= <-]. rewrite length_take, Hd. done.
Qed.

Lemma ends_start kf6 backed marker secret key :
  ends F (start_provider fuel kf6 backed marker secret key).
Proof.
  unfold start_provider. apply ends_bind; [apply ends_secret|]. intros [ok secret'].
  destruct (if ok then _ else None) as [key'|] eqn:E; [|ends].
  assert (ends F (start_loop fuel fuel kf6 backed key' marker)).
  { destruct ok; [|done]. apply derived_length in E. apply ends_start_loop.
    - rewrite E. unfold KWALLET_KEY_SIZE. lia.
    - pose proof enough_loop. destruct backed; lia. }
  ends.
Qed.
Hint Resolve ends_check ends_start : ends.

Lemma ends_activate activation_name marker : ends F (activate_provider fuel activation_name marker).
Proof. unfold activate_provider, activate_steps. ends. Qed.
Hint Resolve ends_activate : ends.

Lemma ends_main argv : ends F (main fuel argv).
Proof. unfold main. ends. Qed.
End ends.

(** C36: The helper terminates: whatever the bus, the portal, the wallet's
    provider and the file system answer, [main] returns, if sleeping advances
    the monotonic clock and finitely many signals interrupt it. *)
Theorem helper_terminates `{Session} `{!Steady} `{Desktop} fuel argv h :
  enough (signals h) fuel →
  ∃ status w', main fuel argv (World h []) = Returned status w'.
Proof.
  intros Hf. destruct (ends_main _ _ Hf argv (World h [])) as (x & w' & E & _); [done|]. eauto.
Qed.
