(* ===== verification/WalletBackup.v ===== *)
(** * Moving a wallet aside loses nothing ([native/spaces_secret_helper.c])

    [WalletFiles] is the directory of the wallet as [spaces_backup_failed_wallet]
    uses it: what the entries of a directory are, how the system calls change
    them, and that nothing else changes them meanwhile.  The theorem of this
    file says where each file is after a backup, completed or not. *)

From S2P Require Import Prelude Glib Session SecretHelper.

(** The entries among the paths [inside]; two of these paths are two entries. *)
Class WalletFiles `{Session} := {
  node : Type;
  entry : host → text → option node;
  inside : text → Prop;
  stat_found p h m : inside p → (step (Lstat p) h).1 = inr m → is_Some (entry h p);
  stat_missing p h : inside p → (step (Lstat p) h).1 = inl ENOENT → entry h p = None;
  stat_keeps p h q : inside q → entry (step (Lstat p) h).2 q = entry h q;
  rename_failed a b h e q : inside q →
    (step (Renameat2 a b) h).1 = inl e → entry (step (Renameat2 a b) h).2 q = entry h q;
  rename_done a b h u : inside a → inside b → (step (Renameat2 a b) h).1 = inr u →
    is_Some (entry h a) ∧ entry h b = None ∧
    ∀ q, inside q → entry (step (Renameat2 a b) h).2 q =
      if decide (q = b) then entry h a else if decide (q = a) then None else entry h q;
  link_failed a b h e q : inside q →
    (step (Link a b) h).1 = inl e → entry (step (Link a b) h).2 q = entry h q;
  link_done a b h u : inside a → inside b → (step (Link a b) h).1 = inr u →
    is_Some (entry h a) ∧ entry h b = None ∧
    ∀ q, inside q → entry (step (Link a b) h).2 q =
      if decide (q = b) then entry h a else entry h q;
  unlink_failed p h e q : inside q →
    (step (Unlink p) h).1 = inl e → entry (step (Unlink p) h).2 q = entry h q;
  unlink_done p h u q : inside p → inside q → (step (Unlink p) h).1 = inr u →
    entry (step (Unlink p) h).2 q = if decide (q = p) then None else entry h q;
  (** [rename], which replaces what it finds: used on what it finds missing *)
  move_failed a b h e q : inside q →
    (step (Rename a b) h).1 = inl e → entry (step (Rename a b) h).2 q = entry h q;
  move_done a b h u q : inside a → inside b → inside q → entry h b = None →
    (step (Rename a b) h).1 = inr u →
    entry (step (Rename a b) h).2 q =
      if decide (q = b) then entry h a else if decide (q = a) then None else entry h q;
}.

Section backup.
Context `{Session} `{!WalletFiles} `{Desktop}.
Implicit Types w : world.

Definition files w : text → option node := entry w.(now).

(** A file is where it was, or under its new name, or has both names. *)
Definition home (f0 f : text → option node) (p : text * text) : Prop :=
  f p.1 = f0 p.1 ∧ f p.2 = None.
Definition away (f0 f : text → option node) (p : text * text) : Prop :=
  f p.1 = None ∧ f p.2 = f0 p.1.
Definition double (f0 f : text → option node) (p : text * text) : Prop :=
  f p.1 = f0 p.1 ∧ f p.2 = f0 p.1.

(** Steps back that failed. *)
Definition undo_failed (dests : list text) (e : event) : Prop :=
  match e with
  | Did (Rename _ _) (inl _) => True
  | Did (Unlink p) (inl _) => p ∈ dests
  | _ => False
  end.

Definition undone (dests : list text) w : Prop := Forall (λ e, ¬ undo_failed dests e) w.(trace).

(** ** What each call changes *)

Definition renamed (a b : text) (f : text → option node) (q : text) : option node :=
  if decide (q = b) then f a else if decide (q = a) then None else f q.
Definition linked (a b : text) (f : text → option node) (q : text) : option node :=
  if decide (q = b) then f a else f q.
Definition removed (p : text) (f : text → option node) (q : text) : option node :=
  if decide (q = p) then None else f q.

(** The calls that change nothing but the trace. *)
Definition changed (f : text → option node) w : Prop := ∀ q, inside q → files w q = f q.

Lemma run_renameat2 a b w r w' : inside a → inside b →
  perform (Renameat2 a b) w = Returned r w' →
  w'.(trace) = Did (Renameat2 a b) r :: w.(trace) ∧
  match r with inl _ => changed (files w) w' | inr _ => changed (renamed a b (files w)) w' end.
Proof.
  intros Ha Hb [-> ->]%perform_returned. split; [done|].
  destruct (step (Renameat2 a b) (now w)).1 as [e|u] eqn:E; intros q Hq.
  - by apply (rename_failed _ _ _ _ _ Hq E).
  - by apply (rename_done _ _ _ _ Ha Hb E).
Qed.

Lemma run_link a b w r w' : inside a → inside b → perform (Link a b) w = Returned r w' →
  w'.(trace) = Did (Link a b) r :: w.(trace) ∧
  match r with inl _ => changed (files w) w' | inr _ => changed (linked a b (files w)) w' end.
Proof.
  intros Ha Hb [-> ->]%perform_returned. split; [done|].
  destruct (step (Link a b) (now w)).1 as [e|u] eqn:E; intros q Hq.
  - by apply (link_failed _ _ _ _ _ Hq E).
  - by apply (link_done _ _ _ _ Ha Hb E).
Qed.

Lemma run_unlink p w r w' : inside p → perform (Unlink p) w = Returned r w' →
  w'.(trace) = Did (Unlink p) r :: w.(trace) ∧
  match r with inl _ => changed (files w) w' | inr _ => changed (removed p (files w)) w' end.
Proof.
  intros Hp [-> ->]%perform_returned. split; [done|].
  destruct (step (Unlink p) (now w)).1 as [e|u] eqn:E; intros q Hq.
  - by apply (unlink_failed _ _ _ _ Hq E).
  - by apply (unlink_done _ _ _ _ Hp Hq E).
Qed.

Lemma run_move a b w r w' : inside a → inside b → files w b = None →
  perform (Rename a b) w = Returned r w' →
  w'.(trace) = Did (Rename a b) r :: w.(trace) ∧
  match r with inl _ => changed (files w) w' | inr _ => changed (renamed a b (files w)) w' end.
Proof.
  intros Ha Hb Hf [-> ->]%perform_returned. split; [done|].
  destruct (step (Rename a b) (now w)).1 as [e|u] eqn:E; intros q Hq.
  - by apply (move_failed _ _ _ _ _ Hq E).
  - by apply (move_done _ _ _ _ _ Ha Hb Hq Hf E).
Qed.

(** Computes an entry after some calls. *)
Ltac entries := unfold renamed, linked, removed in *;
  repeat match goal with
  | H : changed _ ?w |- context [files ?w ?p] => rewrite (H p) by done
  end; repeat case_decide; try congruence.

Lemma undone_cons dests e l :
  Forall (λ e, ¬ undo_failed dests e) (e :: l) → Forall (λ e, ¬ undo_failed dests e) l.
Proof. by intros [_ ?]%Forall_cons. Qed.

(** Nothing but [p]'s two names changed. *)
Definition only (p : text * text) (f f' : text → option node) : Prop :=
  ∀ q, inside q → q ≠ p.1 → q ≠ p.2 → f' q = f q.

Lemma rename_noreplace_spec dests f0 s d w r w' :
  inside s → inside d → s ≠ d → d ∈ dests → home f0 (files w) (s, d) →
  rename_noreplace s d w = Returned r w' →
  only (s, d) (files w) (files w') ∧
  (undone dests w' → undone dests w) ∧
  match r with
  | inr _ => away f0 (files w') (s, d)
  | inl _ => home f0 (files w') (s, d) ∨ double f0 (files w') (s, d) ∧ ¬ undone dests w'
  end.
Proof.
  intros Hs Hd Hne Hin [Hfs Hfd] E. unfold rename_noreplace, undone, only, home, away, double in *.
  cbn [fst snd] in *.
  apply M_bind_returned in E as (r1 & w1 & E1 & E).
  apply run_renameat2 in E1 as [T1 F1]; [|done..].
  destruct r1 as [e1|u1]; [destruct (negb (e1 =? ENOSYS))|].
  - steps. rewrite T1. split; [intros; by entries|split; [by apply undone_cons|left; split; by entries]].
  - apply M_bind_returned in E as (r2 & w2 & E2 & E). apply run_link in E2 as [T2 F2]; [|done..].
    destruct r2 as [e2|u2].
    { steps. rewrite T2, T1. split; [intros; by entries|split; [by intros ?%undone_cons%undone_cons|]].
      left. split; by entries. }
    apply M_bind_returned in E as (r3 & w3 & E3 & E). apply run_unlink in E3 as [T3 F3]; [|done..].
    destruct r3 as [e3|u3].
    + apply M_bind_returned in E as (r4 & w4 & E4 & E).
      apply run_unlink in E4 as [T4 F4]; [|done..]. steps. rewrite T4, T3, T2, T1.
      split; [intros; destruct r4; by entries|
        split; [by intros ?%undone_cons%undone_cons%undone_cons%undone_cons|]].
      destruct r4 as [e4|u4]; [right|left].
      * split; [split; by entries|]. intros [Hbad _]%Forall_cons. by apply Hbad.
      * split; by entries.
    + steps. rewrite T3, T2, T1.
      split; [intros; by entries|
        split; [by intros ?%undone_cons%undone_cons%undone_cons|split; by entries]].
  - steps. rewrite T1. split; [intros; by entries|split; [by apply undone_cons|split; by entries]].
Qed.

(** ** All the files *)

Section files.
Context (dests : list text) (T : list (text * text)) (f0 : text → option node).
Context (T_inside : ∀ p, p ∈ T → inside p.1 ∧ inside p.2 ∧ p.2 ∈ dests).
Context (T_apart : ∀ p p', p ∈ T → p' ∈ T →
  p.1 ≠ p'.2 ∧ (p ≠ p' → p.1 ≠ p'.1 ∧ p.2 ≠ p'.2)).

Definition elsewhere w : Prop :=
  ∀ q, inside q → q ∉ T.*1 → q ∉ T.*2 → files w q = f0 q.

(** The places of the files of [l], when those of the others stay. *)
Definition stay (l : list (text * text)) w w' : Prop := ∀ p, p ∈ T → p ∉ l →
  files w' p.1 = files w p.1 ∧ files w' p.2 = files w p.2.

Lemma only_stay p w w' : p ∈ T → only p (files w) (files w') → stay [p] w w'.
Proof.
  intros Hp Ho p' Hp' Hne%not_elem_of_cons. destruct Hne as [Hne _].
  destruct (T_inside p' Hp') as (Hi1 & Hi2 & _).
  destruct (T_apart p p' Hp Hp') as [H12 Hp1], (T_apart p' p Hp' Hp) as [H21 _].
  destruct (Hp1 (not_eq_sym Hne)) as [H11 H22]. split; apply Ho; congruence.
Qed.

Lemma only_elsewhere p w w' : p ∈ T → only p (files w) (files w') → elsewhere w → elsewhere w'.
Proof.
  intros Hp Ho He q Hq Hq1 Hq2. rewrite Ho; [by apply He|done|..]; intros ->.
  - apply Hq1. by apply list_elem_of_fmap_2.
  - apply Hq2. by apply list_elem_of_fmap_2.
Qed.

Lemma stay_mono l l' w w' : l ⊆ l' → stay l w w' → stay l' w w'.
Proof. intros Hl Hs p Hp Hn. apply Hs; [done|]. set_solver. Qed.

Lemma stay_trans l w w1 w2 : stay l w w1 → stay l w1 w2 → stay l w w2.
Proof.
  intros Hs1 Hs2 p Hp Hn. destruct (Hs1 p Hp Hn) as [E1 E2], (Hs2 p Hp Hn) as [E3 E4]. split; congruence.
Qed.

Lemma stay_home l w w' p : stay l w w' → p ∈ T → p ∉ l →
  (home f0 (files w) p → home f0 (files w') p) ∧ (away f0 (files w) p → away f0 (files w') p).
Proof.
  intros Hs Hp Hn. destruct (Hs p Hp Hn) as [E1 E2]. unfold home, away. by rewrite E1, E2.
Qed.

(** Moves the files of [todo], all at home, one by one. *)
Lemma move_present_spec todo moved w all moved' w' :
  NoDup todo → todo ⊆ T → (∀ p, p ∈ todo → p ∉ moved) → moved ⊆ T → NoDup moved →
  Forall (home f0 (files w)) todo → Forall (away f0 (files w)) moved → elsewhere w →
  move_present todo moved w = Returned (all, moved') w' →
  (undone dests w' → undone dests w) ∧ elsewhere w' ∧ stay todo w w' ∧
  Forall (away f0 (files w')) moved' ∧ NoDup moved' ∧ moved ⊆ moved' ∧ moved' ⊆ todo ++ moved ∧
  (all = true → todo ⊆ moved') ∧
  ∀ p, p ∈ todo → p ∉ moved' →
    home f0 (files w') p ∨ double f0 (files w') p ∧ ¬ undone dests w'.
Proof.
  revert moved w. induction todo as [|p todo IH]; intros moved w Hnd HT Hdis HmT Hndm Hh Ha He E.
  { simpl in E. apply M_ret_returned in E as [[= -> ->] ->].
    split_and!; try done; clear; set_solver. }
  destruct p as [s d]. cbn [move_present] in E. apply M_bind_returned in E as (r & w1 & E1 & E).
  assert ((s, d) ∈ T) as Hp by (apply HT; by left).
  assert (todo ⊆ T) as HT' by (intros x Hx; apply HT; by right).
  assert ((s, d) ∉ moved) as Hsd by (apply Hdis; by left).
  destruct (T_inside _ Hp) as (Hs & Hd & Hin). destruct (T_apart _ _ Hp Hp) as [Hne _].
  apply Forall_cons in Hh as [Hhome Hh]. apply NoDup_cons in Hnd as [Hnew Hnd].
  destruct (rename_noreplace_spec dests f0 _ _ _ _ _ Hs Hd Hne Hin Hhome E1) as (Ho & Hu1 & Hr).
  pose proof (only_stay _ _ _ Hp Ho) as Hst. pose proof (only_elsewhere _ _ _ Hp Ho He) as He1.
  assert (Forall (home f0 (files w1)) todo) as Hh1.
  { apply Forall_forall. intros x Hx. apply (stay_home _ _ _ _ Hst); [by apply HT'| |].
    - by intros ->%list_elem_of_singleton.
    - by eapply Forall_forall in Hh. }
  assert (Forall (away f0 (files w1)) moved) as Ha1.
  { apply Forall_forall. intros x Hx. apply (stay_home _ _ _ _ Hst); [by apply HmT| |].
    - by intros ->%list_elem_of_singleton.
    - by eapply Forall_forall in Ha. }
  assert (stay ((s, d) :: todo) w w1) as Hst'.
  { eapply stay_mono; [|exact Hst]. intros x ->%list_elem_of_singleton. by left. }
  destruct r as [e|u].
  - apply M_ret_returned in E as [[= -> ->] ->].
    split_and!; try done; [intros x Hx; apply elem_of_app; by right|].
    intros x [->|Hx]%elem_of_cons Hm; [destruct Hr; auto|]. left. by eapply Forall_forall in Hh1.
  - destruct (IH ((s, d) :: moved) w1) as (Hu & He' & Hst2 & Ha' & Hnd' & Hm1 & Hm2 & Hall & Hrest);
      [done|done| | |by constructor|done|by constructor|done|exact E|].
    { intros x Hx [->|Hm]%elem_of_cons; [done|]. apply (Hdis x); [by right|done]. }
    { intros x [->|Hx]%elem_of_cons; [done|by apply HmT]. }
    split_and!; try done; [auto|..].
    + eapply stay_trans; [exact Hst'|]. eapply stay_mono; [|exact Hst2]. intros x Hx. by right.
    + intros x Hx. apply Hm1. by right.
    + intros x Hx%Hm2. rewrite elem_of_app, !elem_of_cons in *. naive_solver.
    + intros Hal x [->|Hx]%elem_of_cons; [apply Hm1; by left|by apply Hall].
    + intros x [->|Hx]%elem_of_cons Hn; [|by apply Hrest]. destruct Hn. apply Hm1. by left.
Qed.

Lemma step_back s d w r w' : (s, d) ∈ T → away f0 (files w) (s, d) →
  perform (Rename d s) w = Returned r w' →
  only (s, d) (files w) (files w') ∧ (undone dests w' → undone dests w) ∧
  (home f0 (files w') (s, d) ∨ away f0 (files w') (s, d) ∧ ¬ undone dests w').
Proof.
  intros Hp [Hf1 Hf2] E. destruct (T_inside _ Hp) as (Hs & Hd & _).
  destruct (T_apart _ _ Hp Hp) as [Hne _]. unfold only, home, away, undone in *. cbn [fst snd] in *.
  apply run_move in E as [T1 F1]; [|done..]. rewrite T1.
  split; [intros; destruct r; by entries|]. split; [by apply undone_cons|].
  destruct r as [e|u]; [right|left].
  - split; [split; by entries|]. by intros [Hbad _]%Forall_cons.
  - split; by entries.
Qed.

Lemma rollback_spec moved w u w' : NoDup moved → moved ⊆ T →
  Forall (away f0 (files w)) moved → elsewhere w → rollback moved w = Returned u w' →
  (undone dests w' → undone dests w) ∧ elsewhere w' ∧ stay moved w w' ∧
  ∀ p, p ∈ moved → home f0 (files w') p ∨ away f0 (files w') p ∧ ¬ undone dests w'.
Proof.
  revert w. induction moved as [|[s d] moved IH]; intros w Hnd HT Ha He E.
  { simpl in E. steps. split_and!; try done. by intros p Hp%not_elem_of_nil. }
  cbn [rollback] in E. apply M_bind_returned in E as (r & w1 & E1 & E).
  apply NoDup_cons in Hnd as [Hnew Hnd]. apply Forall_cons in Ha as [Haway Ha].
  assert ((s, d) ∈ T) as Hp by (apply HT; by left).
  assert (moved ⊆ T) as HT' by (intros x Hx; apply HT; by right).
  destruct (step_back _ _ _ _ _ Hp Haway E1) as (Ho & Hu1 & Hr).
  pose proof (only_stay _ _ _ Hp Ho) as Hst.
  destruct (IH w1 Hnd HT') as (Hu & He' & Hst2 & Hall).
  { apply Forall_forall. intros x Hx. apply (stay_home _ _ _ _ Hst); [by apply HT'| |].
    - by intros ->%list_elem_of_singleton.
    - by eapply Forall_forall in Ha. }
  { by eapply only_elsewhere. }
  { exact E. }
  split_and!; [auto|done| |].
  - eapply stay_trans; eapply stay_mono; [|exact Hst| |exact Hst2].
    + intros x ->%list_elem_of_singleton. by left.
    + intros x Hx. by right.
  - intros x [->|Hx]%elem_of_cons; [|by apply Hall].
    pose proof (stay_home _ _ _ _ Hst2 Hp Hnew) as [Hkh Hka].
    destruct Hr as [Hr|[Hr Hn]]; [left; auto|right; split; auto].
Qed.
End files.

(** ** Looking before moving *)

Lemma run_lstat p w r w' : inside p → perform (Lstat p) w = Returned r w' →
  changed (files w) w' ∧
  match r with inr _ => is_Some (files w p) | inl e => e = ENOENT → files w p = None end.
Proof.
  intros Hp [-> ->]%perform_returned. split; [intros q Hq; by apply stat_keeps|].
  destruct (step (Lstat p) (now w)).1 as [e|m] eqn:E.
  - intros ->. by apply stat_missing.
  - by eapply stat_found.
Qed.

Lemma changed_trans w w1 w2 : changed (files w) w1 → changed (files w1) w2 → changed (files w) w2.
Proof. intros Hc1 Hc2 q Hq. by rewrite Hc2, Hc1. Qed.

Lemma Forall2_on {A B} (P Q : A → B → Prop) l k :
  (∀ x y, x ∈ l → P x y → Q x y) → Forall2 P l k → Forall2 Q l k.
Proof.
  intros HPQ HP. induction HP as [|x y l k Hxy HP IH]; constructor.
  - apply HPQ; [by left|done].
  - apply IH. intros x' y' Hx'. apply HPQ. by right.
Qed.

Lemma find_present_spec sources w r w' : (∀ s, s ∈ sources → inside s) →
  find_present sources w = Returned r w' →
  changed (files w) w' ∧
  ∀ present, r = Some present →
    Forall2 (λ s p, if p : bool then is_Some (files w s) else files w s = None) sources present.
Proof.
  revert w r w'. induction sources as [|s sources IH]; intros w r w' Hi E.
  { simpl in E. steps. split; [by intros q Hq|]. intros ? [= <-]. constructor. }
  cbn [find_present] in E. unfold nofollow_stat in E.
  apply M_bind_returned in E as (x & w1 & E1 & E).
  assert (inside s) as Hs by (apply Hi; by left).
  assert (∀ x, x ∈ sources → inside x) as Hi' by (intros y Hy; apply Hi; by right).
  apply run_lstat in E1 as [Hc Hx]; [|done].
  assert (∀ (b : bool) r w', (present ← find_present sources; mret (cons b <$> present)) w1 =
      Returned r w' → (if b then is_Some (files w s) else files w s = None) →
      changed (files w) w' ∧ ∀ present, r = Some present →
        Forall2 (λ s p, if p : bool then is_Some (files w s) else files w s = None)
          (s :: sources) present) as Hstep.
  { intros b r' w'' (present & w2 & E2 & E3)%M_bind_returned Hb.
    apply M_ret_returned in E3 as [-> ->]. destruct (IH _ _ _ Hi' E2) as [Hc2 Hp].
    split; [by eapply changed_trans|]. intros ps (ps' & -> & ->)%fmap_Some.
    constructor; [done|]. eapply Forall2_on; [|by apply Hp].
    intros y c Hy. cbn beta. by rewrite (Hc y) by (by apply Hi'). }
  destruct x as [e|m].
  - destruct (negb (e =? ENOENT)) eqn:He; [steps; by split|].
    apply Hstep in E; [done|]. apply Hx. lia.
  - case_match; [steps; by split|]. by apply Hstep in E.
Qed.

Lemma all_available_spec ds w b w' : (∀ d, d ∈ ds → inside d) →
  all_available ds w = Returned b w' →
  changed (files w) w' ∧ (b = true → Forall (λ d, files w d = None) ds).
Proof.
  revert w b w'. induction ds as [|d ds IH]; intros w b w' Hi E.
  { simpl in E. steps. by split. }
  cbn [all_available] in E. unfold nofollow_stat in E.
  apply M_bind_returned in E as (x & w1 & E1 & E).
  assert (∀ x, x ∈ ds → inside x) as Hi' by (intros y Hy; apply Hi; by right).
  apply run_lstat in E1 as [Hc Hx]; [|apply Hi; by left].
  destruct x as [e|m]; [|steps; by split].
  destruct (negb (e =? ENOENT)) eqn:He; [steps; by split|].
  destruct (IH _ _ _ Hi' E) as [Hc2 Hd]. split; [by eapply changed_trans|].
  intros Hb. constructor; [apply Hx; lia|]. apply Forall_forall. intros y Hy.
  specialize (Hd Hb). eapply Forall_forall in Hd; [|exact Hy]. by rewrite (Hc y) in Hd by auto.
Qed.

Lemma find_number_spec fuel number sources w r w' :
  (∀ s n, s ∈ sources → inside (destination_of n s)) →
  find_number fuel number sources w = Returned r w' →
  changed (files w) w' ∧
  ∀ n, r = Some n → number ≤ n < UINT_MAX ∧
    Forall (λ s, files w (destination_of n s) = None) sources.
Proof.
  revert number w. induction fuel as [|fuel IH]; intros number w Hi E; [done|].
  cbn [find_number] in E. destruct (Z.leb_spec UINT_MAX number) as [_|Hlt]; [steps; by split|].
  apply M_bind_returned in E as (b & w1 & E1 & E).
  apply all_available_spec in E1 as [Hc Hd].
  2:{ intros d (s & -> & Hs)%list_elem_of_fmap. by apply Hi. }
  destruct b.
  - steps. split; [done|]. intros n [= <-]. split; [lia|].
    specialize (Hd eq_refl). by rewrite Forall_map in Hd.
  - destruct (IH _ _ Hi E) as [Hc2 Hn]. split; [by eapply changed_trans|].
    intros n ->. destruct (Hn n eq_refl) as [Hr Hf]. split; [lia|].
    apply Forall_forall. intros s Hs. eapply Forall_forall in Hf; [|exact Hs].
    by rewrite (Hc (destination_of n s)) in Hf by auto.
Qed.

(** ** The names *)

Lemma last_decimal (a : text) n : 0 ≤ n → ∃ c, last (a ++ str "." ++ decimal n) = Some c ∧ is_digit c = true.
Proof.
  intros Hn. destruct (decimal_value n Hn) as [_ Hd].
  destruct (exists_last (decimal_nonempty n)) as (ds & c & E). rewrite E in *.
  exists c. rewrite !app_assoc, last_snoc. apply Forall_app in Hd as [_ Hd].
  by apply Forall_cons in Hd as [Hd _].
Qed.

Lemma wallet_sources_prefix d : ∃ p, wallet_sources d = map (app p) wallet_names.
Proof.
  destruct (g_build_filename_last (g_build_filename [d; str "kwalletd"])) as [p Hp].
  exists p. unfold wallet_sources, wallet_names. cbn [map].
  rewrite !Hp by (done || by vm_compute; set_solver). done.
Qed.

Lemma source_not_destination d n s s' : 0 ≤ n → s ∈ wallet_sources d → s' ∈ wallet_sources d →
  s ≠ destination_of n s'.
Proof.
  intros Hn Hs Hs' E. destruct (wallet_sources_prefix d) as [p Hp]. rewrite Hp in Hs, Hs'.
  apply list_elem_of_fmap in Hs as (a & -> & Ha). apply list_elem_of_fmap in Hs' as (b & -> & Hb).
  unfold destination_of in E. rewrite <- app_assoc in E. apply app_inv_head in E.
  destruct (last_decimal b n Hn) as (c & Hc & Hdig). rewrite <- E in Hc.
  unfold wallet_names in Ha. rewrite !elem_of_cons in Ha.
  destruct Ha as [->|[->|[->|Ha]]]; [vm_compute in Hc; injection Hc as <-; done..|].
  by apply not_elem_of_nil in Ha.
Qed.

Lemma wallet_sources_nodup d : NoDup (wallet_sources d).
Proof.
  destruct (wallet_sources_prefix d) as [p ->]. apply NoDup_fmap_2; [|by apply (bool_decide_unpack _); vm_compute].
  intros a b E. by apply app_inv_head in E.
Qed.

Lemma destination_inj n s s' : destination_of n s = destination_of n s' → s = s'.
Proof. unfold destination_of. intros E. by apply app_inv_tail in E. Qed.

(** The files [present_files] keeps are some of the sources, each once, and the
    others are missing. *)
Lemma present_files_spec (f : text → option node) n sources present : NoDup sources →
  Forall2 (λ s p, if p : bool then is_Some (f s) else f s = None) sources present →
  NoDup (present_files sources present n) ∧
  (∀ p, p ∈ present_files sources present n → 
    p.1 ∈ sources ∧ p.2 = destination_of n p.1 ∧ is_Some (f p.1)) ∧
  ∀ s, s ∈ sources → (s, destination_of n s) ∈ present_files sources present n ∨ f s = None.
Proof.
  intros Hnd HP. induction HP as [|s b sources present Hb HP IH].
  { split; [constructor|]. split; [intros p Hp|intros s Hs]; by apply not_elem_of_nil in Hp || apply not_elem_of_nil in Hs. }
  apply NoDup_cons in Hnd as [Hs Hnd]. destruct (IH Hnd) as (IH1 & IH2 & IH3).
  assert (present_files (s :: sources) (b :: present) n =
    (if b then [(s, destination_of n s)] else []) ++ present_files sources present n) as ->
    by (by destruct b).
  split; [|split].
  - destruct b; [|done]. apply NoDup_cons. split; [|done]. by intros (? & _)%IH2.
  - intros p [Hp|Hp]%elem_of_app; [|by destruct (IH2 _ Hp); split; [right|]].
    destruct b; [|by apply not_elem_of_nil in Hp]. apply list_elem_of_singleton in Hp as ->.
    by split; [left|].
  - intros s' [->|Hs']%elem_of_cons; rewrite elem_of_app.
    + destruct b; [left; left; by left|by right].
    + destruct (IH3 _ Hs'); auto.
Qed.

(** What a backup may leave: the file's content under its name or its new name. *)
Definition somewhere (sources : list text) (n : Z) (f f' : text → option node) : Prop :=
  ∀ q x, inside q → f q = Some x →
    f' q = Some x ∨ q ∈ sources ∧ f' (destination_of n q) = Some x.

Definition completed (sources : list text) (n : Z) (f f' : text → option node) : Prop :=
  (∀ s, s ∈ sources → f (destination_of n s) = None ∧ f' s = None ∧
    f' (destination_of n s) = f s) ∧
  ∀ q, inside q → q ∉ sources → q ∉ map (destination_of n) sources → f' q = f q.

Section moving.
Context (d : text) (n : Z) (present : list bool) (w : world).
Context (Hn : 0 ≤ n).
Context (Hinside : ∀ s, s ∈ wallet_sources d → inside s ∧ inside (destination_of n s)).
Context (Hpresent : Forall2 (λ s p, if p : bool then is_Some (files w s) else files w s = None)
  (wallet_sources d) present).
Context (Hfree : Forall (λ s, files w (destination_of n s) = None) (wallet_sources d)).

Abbreviation sources := (wallet_sources d).
Abbreviation T := (present_files sources present n).
Abbreviation dests := (map (destination_of n) sources).

Lemma T_inside p : p ∈ T → inside p.1 ∧ inside p.2 ∧ p.2 ∈ dests.
Proof.
  intros Hp. destruct (present_files_spec _ n _ _ (wallet_sources_nodup d) Hpresent) as (_ & Hs & _).
  destruct (Hs p Hp) as (Hp1 & -> & _). destruct (Hinside _ Hp1). split_and!; [done..|].
  by apply list_elem_of_fmap_2.
Qed.

Lemma T_apart p p' : p ∈ T → p' ∈ T → p.1 ≠ p'.2 ∧ (p ≠ p' → p.1 ≠ p'.1 ∧ p.2 ≠ p'.2).
Proof.
  intros Hp Hp'. destruct (present_files_spec _ n _ _ (wallet_sources_nodup d) Hpresent) as (_ & Hs & _).
  destruct p as [s t], p' as [s' t']. destruct (Hs _ Hp) as (Hs1 & Ht & _), (Hs _ Hp') as (Hs2 & Ht' & _).
  cbn [fst snd] in *. subst t t'. split; [by apply (source_not_destination d)|].
  intros Hne. split; [by intros ->|]. intros E%destination_inj. by subst s'.
Qed.

Lemma moved_completes moved w' :
  moved ⊆ T → T ⊆ moved → elsewhere T (files w) w' →
  Forall (away (files w) (files w')) moved → completed sources n (files w) (files w').
Proof.
  intros HmT HTm He Ha.
  destruct (present_files_spec _ n _ _ (wallet_sources_nodup d) Hpresent) as (_ & Hs & Hall).
  assert (∀ q, q ∈ T.*1 → q ∈ sources) as Hq1.
  { intros q (p & -> & Hp)%list_elem_of_fmap. by apply Hs. }
  assert (∀ q, q ∈ T.*2 → q ∈ dests) as Hq2.
  { intros q (p & -> & Hp)%list_elem_of_fmap. destruct (Hs p Hp) as (? & -> & _).
    by apply list_elem_of_fmap_2. }
  split.
  - intros s Hin. pose proof Hfree as Hf. eapply Forall_forall in Hf; [|exact Hin].
    destruct (Hinside s Hin) as [Hi1 Hi2]. destruct (Hall s Hin) as [Hp|Hnone].
    + apply HTm in Hp. eapply Forall_forall in Ha; [|exact Hp]. by destruct Ha.
    + assert (∀ q, q = s ∨ q = destination_of n s → q ∉ T.*1 ∧ q ∉ T.*2) as Hout.
      { intros q Hq. split; intros (p & -> & Hp)%list_elem_of_fmap;
          destruct (Hs p Hp) as (Hp1 & Hp2 & [x Hx]).
        - destruct Hq as [Hq|Hq]; rewrite Hq in Hx; congruence.
        - rewrite Hp2 in Hq. destruct Hq as [Hq|Hq].
          + by apply (source_not_destination d n s p.1 Hn Hin Hp1).
          + apply destination_inj in Hq. rewrite Hq in Hx. congruence. }
      rewrite (He s), (He (destination_of n s)) by naive_solver. by rewrite Hnone, Hf.
  - intros q Hq Hn1 Hn2. apply He; [done|..]; intros Hx; [apply Hn1|apply Hn2]; auto.
Qed.

(** After a rollback: every file at home, or a step back failed and it is where
    it went. *)
Definition settled w' (p : text * text) : Prop :=
  home (files w) (files w') p ∨
  ((away (files w) (files w') p ∨ double (files w) (files w') p) ∧ ¬ undone dests w').

Lemma rollback_settles moved u w2 w' : NoDup moved → moved ⊆ T → elsewhere T (files w) w2 →
  Forall (away (files w) (files w2)) moved →
  (∀ p, p ∈ T → p ∉ moved →
    home (files w) (files w2) p ∨ double (files w) (files w2) p ∧ ¬ undone dests w2) →
  rollback moved w2 = Returned u w' →
  elsewhere T (files w) w' ∧ ∀ p, p ∈ T → settled w' p.
Proof.
  intros Hnd HmT He Ha Hrest E.
  destruct (rollback_spec dests T (files w) T_inside T_apart _ _ _ _ Hnd HmT Ha He E)
    as (Hu & He' & Hst & Hall).
  split; [done|]. intros p Hp. destruct (decide (p ∈ moved)) as [Hin|Hout].
  - destruct (Hall p Hin) as [Hh|[Hh Hn']]; [by left|right; auto].
  - destruct (Hst p Hp Hout) as [E1 E2]. unfold settled, home, away, double in *.
    rewrite E1, E2. destruct (Hrest p Hp Hout) as [Hh|[Hh Hn']]; [by left|right; auto].
Qed.

Lemma settled_somewhere w' : elsewhere T (files w) w' → (∀ p, p ∈ T → settled w' p) →
  somewhere sources n (files w) (files w') ∧ (undone dests w' → changed (files w) w').
Proof.
  intros He Hset.
  destruct (present_files_spec _ n _ _ (wallet_sources_nodup d) Hpresent) as (_ & Hs & _).
  assert (∀ p, p ∈ T → files w p.2 = None) as Hnone.
  { intros p Hp. destruct (Hs p Hp) as (Hp1 & -> & _). pose proof Hfree as Hf.
    by eapply Forall_forall in Hf. }
  split.
  - intros q x Hq Hx. destruct (decide (q ∈ T.*1)) as [(p & -> & Hp)%list_elem_of_fmap|Hq1].
    + destruct (Hs p Hp) as (Hp1 & Hp2 & _). rewrite <- Hp2.
      destruct (Hset p Hp) as [[Eh _]|[[[_ Eh]|[Eh _]] _]]; rewrite Eh; auto.
    + destruct (decide (q ∈ T.*2)) as [(p & -> & Hp)%list_elem_of_fmap|Hq2].
      * by rewrite (Hnone p Hp) in Hx.
      * left. by rewrite He.
  - intros Hu q Hq. destruct (decide (q ∈ T.*1)) as [(p & -> & Hp)%list_elem_of_fmap|Hq1].
    + by destruct (Hset p Hp) as [[Eh _]|[_ []]].
    + destruct (decide (q ∈ T.*2)) as [(p & -> & Hp)%list_elem_of_fmap|Hq2]; [|by apply He].
      destruct (Hset p Hp) as [[_ Eh]|[_ []]]; [|done]. by rewrite Eh, Hnone.
Qed.

Lemma completed_somewhere w' : completed sources n (files w) (files w') →
  somewhere sources n (files w) (files w').
Proof.
  intros [Hc Ho] q x Hq Hx. destruct (decide (q ∈ sources)) as [Hin|Hout].
  - right. split; [done|]. destruct (Hc q Hin) as (_ & _ & ->). done.
  - left. rewrite Ho; [done..|]. intros (s & -> & Hs)%list_elem_of_fmap.
    destruct (Hc s Hs) as (Hf & _). congruence.
Qed.

(** The moves of a backup under one number. *)
Lemma moving_spec all moved w2 (r : option Z) w' :
  move_present T [] w = Returned (all, moved) w2 →
  (if all : bool then mret (Some n) else _ ← rollback moved; mret None) w2 = Returned r w' →
  somewhere sources n (files w) (files w') ∧
  match r with
  | Some m => m = n ∧ completed sources n (files w) (files w')
  | None => undone dests w' → changed (files w) w'
  end.
Proof.
  intros E1 E2.
  destruct (present_files_spec _ n _ _ (wallet_sources_nodup d) Hpresent) as (Hnd & Hs & _).
  assert (Forall (home (files w) (files w)) T) as Hhome.
  { apply Forall_forall. intros p Hp. split; [done|]. destruct (Hs p Hp) as (Hp1 & -> & _).
    pose proof Hfree as Hf. by eapply Forall_forall in Hf. }
  destruct (move_present_spec dests T (files w) T_inside T_apart T [] w all moved w2)
    as (_ & He & _ & Ha & Hndm & _ & Hm & Hall & Hrest); [done|done|by intros p _ ?%not_elem_of_nil
    |by intros p ?%not_elem_of_nil|constructor|done|constructor|done|done|].
  rewrite app_nil_r in Hm. destruct all.
  - steps. assert (completed sources n (files w) (files w2)) as Hc by (eapply moved_completes; eauto).
    split; [by apply completed_somewhere|done].
  - apply M_bind_returned in E2 as (u & w3 & E2 & E3). apply M_ret_returned in E3 as [-> ->].
    destruct (rollback_settles moved u w2 w3) as [He3 Hset]; [done..|].
    by apply settled_somewhere.
Qed.
End moving.

Lemma changed_somewhere sources n w w' : changed (files w) w' →
  somewhere sources n (files w) (files w').
Proof. intros Hc q x Hq Hx. left. by rewrite Hc. Qed.

(** How a backup ends, from the entries [f]. *)
Definition backed_up (sources : list text) (f : text → option node) (r : option Z) w' : Prop :=
  ∃ n, 1 ≤ n ∧ somewhere sources n f (files w') ∧
    match r with
    | Some m => m = n ∧ completed sources n f (files w')
    | None => undone (map (destination_of n) sources) w' → changed f w'
    end.

Lemma backed_up_base sources w w1 r w' :
  (∀ s, s ∈ sources → inside s ∧ ∀ n, inside (destination_of n s)) →
  changed (files w) w1 → backed_up sources (files w1) r w' → backed_up sources (files w) r w'.
Proof.
  intros Hi Hc (n & Hn & Hs & Hr). exists n. split; [done|]. split.
  - intros q x Hq Hx. apply Hs; [done|]. by rewrite Hc.
  - destruct r as [m|].
    + destruct Hr as (-> & Hr & Ho). split; [done|]. split.
      * intros s Hin. destruct (Hi s Hin) as [Hi1 Hi2]. rewrite <- !(Hc _) by done. by apply Hr.
      * intros q Hq Hq1 Hq2. rewrite Ho by done. by apply Hc.
    + intros Hu q Hq. rewrite Hr by done. by apply Hc.
Qed.

Lemma backed_up_unchanged sources w w' : changed (files w) w' → backed_up sources (files w) None w'.
Proof. intros Hc. exists 1. split; [lia|]. by split; [apply changed_somewhere|]. Qed.
End backup.

(** A backup loses and overwrites no file, whichever of its calls fail: every
    file that was in the directory is there afterwards, under its name or, if
    it is one of the wallet's three files, under its new name.  If the backup
    succeeds, exactly the wallet's files moved, to names that were all free; if
    it fails and no step back failed, nothing changed. *)
Theorem backup_loses_nothing `{Session} `{!WalletFiles} `{Desktop} fuel d h r w' :
  (∀ s, s ∈ wallet_sources d → inside s ∧ ∀ n, inside (destination_of n s)) →
  spaces_backup_failed_wallet fuel d (World h []) = Returned r w' →
  backed_up (wallet_sources d) (entry h) r w'.
Proof.
  intros Hi E. set (w := World h []) in *. change (entry h) with (files w).
  unfold spaces_backup_failed_wallet in E.
  case_decide; [steps; by apply backed_up_unchanged|].
  apply M_bind_returned in E as (found & w1 & E1 & E).
  apply find_present_spec in E1 as [Hc1 Hp]; [|intros s Hs; by apply Hi].
  destruct found as [[|[] present]|]; try (steps; by apply backed_up_unchanged).
  specialize (Hp _ eq_refl).
  apply M_bind_returned in E as (number & w2 & E2 & E).
  apply find_number_spec in E2 as [Hc2 Hn]; [|intros s n Hs; by apply Hi].
  pose proof (changed_trans _ _ _ Hc1 Hc2) as Hc.
  destruct number as [n|]; [|steps; by apply backed_up_unchanged].
  destruct (Hn n eq_refl) as [Hr Hfree].
  apply M_bind_returned in E as ([all moved] & w3 & E3 & E).
  apply (backed_up_base _ _ w2); [done..|].
  exists n. split; [lia|]. eapply moving_spec; [lia| | | |exact E3|exact E].
  - intros s Hs. destruct (Hi s Hs). auto.
  - eapply Forall2_on; [|exact Hp]. intros s b Hs. cbn beta. by rewrite (Hc s) by (by apply Hi).
  - apply Forall_forall. intros s Hs. eapply Forall_forall in Hfree; [|exact Hs].
    rewrite (Hc2 (destination_of n s)); [done|]. by apply Hi.
Qed.
