(* ===== verification/SecretTrace.v ===== *)
(** * What the secret helper does, event by event
    ([native/spaces_secret_helper.c])

    Which requests each part of the helper makes, and how its traces are
    reasoned about; and that a wallet is only moved aside after it was reported
    closed, and once.  [SecretGuard] has that a provider that is not the helper's
    is left alone, [SecretKey] what leaves the helper. *)

From S2P Require Import Prelude Glib Session SecretHelper.

(** ** Kinds of events *)

Section kinds.
Context `{Session}.

Definition kwallet := str "org.kde.KWallet".

(** Neither a process, a wallet, a secret nor a name in a directory. *)
Definition plain (e : event) : bool :=
  match e with
  | Did (Read _ _) _ | Did (Write _ _) _ | Did (Fork _) _ | Did (Kill _ _) _ | Did Pipe _
  | Did (Unlink _) _ | Did (Renameat2 _ _) _ | Did (Link _ _) _ | Did (Rename _ _) _ => false
  | Did (Call c) _ => negb (text_eqb c.(interface) kwallet)
  | _ => true
  end.

Definition is_move (e : event) : bool :=
  match e with
  | Did (Renameat2 _ _) _ | Did (Link _ _) _ | Did (Rename _ _) _ => true
  | _ => false
  end.

Definition plain_or (P : event → Prop) (e : event) : Prop := plain e = true ∨ P e.

Definition kills (e : event) : Prop := match e with Did (Kill _ _) _ => True | _ => False end.
Definition reads (e : event) : Prop := match e with Did (Read _ _) _ => True | _ => False end.
Definition renames (e : event) : Prop :=
  match e with Did (Unlink _) _ => True | _ => is_move e = true end.
End kinds.

Create HintDb emits.

Ltac emits_leaf := apply emits_perform; intros; first [by left|by right|done].

Ltac emits := repeat (intros; first
  [ apply emits_ret | emits_leaf | solve [eauto with emits]
  | apply emits_bind | case_match | case_decide ]).

Section emits.
Context `{Session} `{Desktop}.
Implicit Types P : event → Prop.

Lemma plain_mono {A} P (m : M A) : emits (λ e, plain e = true) m → emits (plain_or P) m.
Proof. apply emits_mono. by left. Qed.

Lemma emits_say P message : emits (plain_or P) (say message).
Proof. unfold say. emits. Qed.
Lemma emits_has_owner P name : emits (plain_or P) (name_has_owner name).
Proof. unfold name_has_owner. emits. Qed.
Lemma emits_pid P name : emits (plain_or P) (connection_pid name).
Proof. unfold connection_pid. emits. Qed.
Lemma emits_load P : emits (plain_or P) load_token.
Proof. unfold load_token. emits. Qed.
Lemma emits_save P token : emits (plain_or P) (save_token token).
Proof. unfold save_token. emits. Qed.
Lemma emits_truncate P fuel fd : emits (plain_or P) (truncate_secret_fd fuel fd).
Proof. induction fuel; cbn [truncate_secret_fd]; [by intros ????|]. emits. Qed.
Lemma emits_response P fuel deadline r : emits (plain_or P) (wait_response fuel deadline r).
Proof. revert r. induction fuel; intros; cbn [wait_response]; [by intros ????|]. emits. Qed.
Lemma emits_owner_loop P fuel deadline name child :
  emits (plain_or P) (wait_for_owner_loop fuel deadline name child).
Proof.
  pose proof (emits_has_owner P name).
  induction fuel; cbn [wait_for_owner_loop]; [by intros ????|]. emits.
Qed.
Lemma emits_reap P fuel child : emits (plain_or P) (reap fuel child).
Proof. induction fuel; cbn [reap]; [by intros ????|]. emits. Qed.
Lemma emits_released P fuel deadline name : emits (plain_or P) (wait_released fuel deadline name).
Proof.
  pose proof (emits_has_owner P name).
  induction fuel; cbn [wait_released]; [by intros ????|]. emits.
Qed.
Lemma emits_find_present P sources : emits (plain_or P) (find_present sources).
Proof. unfold find_present. induction sources; unfold nofollow_stat; emits. Qed.
Lemma emits_available P destinations : emits (plain_or P) (all_available destinations).
Proof. induction destinations; cbn [all_available]; unfold nofollow_stat; emits. Qed.
Lemma emits_find_number P fuel number sources : emits (plain_or P) (find_number fuel number sources).
Proof.
  pose proof (λ n, emits_available P (map (destination_of n) sources)).
  revert number. induction fuel; intros; cbn [find_number]; [by intros ????|]. emits.
Qed.
Lemma emits_close_all P descriptors : emits (plain_or P) (close_all descriptors).
Proof. induction descriptors; cbn [close_all]; emits. Qed.
Lemma emits_marker_exists P path : emits (plain_or P) (marker_exists path).
Proof. unfold marker_exists. emits. Qed.
Lemma emits_create_marker P path : emits (plain_or P) (create_marker path).
Proof. unfold create_marker. emits. Qed.
End emits.

#[export] Hint Resolve emits_say emits_has_owner emits_pid emits_load emits_save emits_truncate
  emits_response emits_owner_loop emits_reap emits_released emits_find_present emits_available
  emits_find_number emits_close_all emits_marker_exists emits_create_marker : emits.

Section special.
Context `{Session} `{Desktop}.
Implicit Types P : event → Prop.

Lemma emits_wait_for_owner P fuel name child : emits (plain_or P) (wait_for_owner fuel name child).
Proof. unfold wait_for_owner. emits. Qed.

Lemma emits_kill_provider P fuel name child :
  (∀ e, kills e → P e) → emits (plain_or P) (kill_provider fuel name child).
Proof.
  intros HP. assert (∀ pid signal, emits (plain_or P) (perform (Kill pid signal))).
  { intros. apply emits_perform. intros a. right. by apply HP. }
  unfold kill_provider. emits.
Qed.

Lemma emits_read_secret P fuel fd output size :
  (∀ e, reads e → P e) → emits (plain_or P) (read_secret fuel fd output size).
Proof.
  intros HP. assert (∀ n, emits (plain_or P) (perform (Read fd n))).
  { intros. apply emits_perform. intros a. right. by apply HP. }
  revert output size. induction fuel; intros; cbn [read_secret]; [by intros ????|]. emits.
Qed.

Lemma emits_read_extra P fuel fd : (∀ e, reads e → P e) → emits (plain_or P) (read_extra fuel fd).
Proof.
  intros HP. assert (emits (plain_or P) (perform (Read fd 1))).
  { apply emits_perform. intros a. right. by apply HP. }
  induction fuel; intros; cbn [read_extra]; [by intros ????|]. emits.
Qed.

Lemma emits_secret P fuel output :
  (∀ e, reads e → P e) → emits (plain_or P) (retrieve_portal_secret fuel output).
Proof.
  intros HP. pose proof (λ fd, emits_read_extra P fuel fd HP).
  pose proof (λ fd out size, emits_read_secret P fuel fd out size HP).
  unfold retrieve_portal_secret, ask_portal, receive_secret. emits.
Qed.

Lemma emits_backup P fuel d :
  (∀ e, renames e → P e) → emits (plain_or P) (spaces_backup_failed_wallet fuel d).
Proof.
  intros HP. assert (∀ a b, emits (plain_or P) (perform (Renameat2 a b))).
  { intros. apply emits_perform. intros x. right. by apply HP. }
  assert (∀ a b, emits (plain_or P) (perform (Link a b))).
  { intros. apply emits_perform. intros x. right. by apply HP. }
  assert (∀ a, emits (plain_or P) (perform (Unlink a))).
  { intros. apply emits_perform. intros x. right. by apply HP. }
  assert (∀ a b, emits (plain_or P) (perform (Rename a b))).
  { intros. apply emits_perform. intros x. right. by apply HP. }
  assert (∀ l, emits (plain_or P) (rollback l)) by (induction l as [|[] l]; cbn [rollback]; emits).
  assert (∀ a b, emits (plain_or P) (rename_noreplace a b)) by (unfold rename_noreplace; emits).
  assert (∀ l k, emits (plain_or P) (move_present l k))
    by (induction l as [|[] l]; intros; cbn [move_present]; emits).
  unfold spaces_backup_failed_wallet. emits.
Qed.

Lemma emits_write P fuel fd data :
  (∀ part a, part `suffix_of` data → P (Did (Write fd part) a)) →
  emits (plain_or P) (write_all fuel fd data).
Proof.
  revert data. induction fuel as [|fuel IH]; intros data HP; [by intros ????|].
  cbn [write_all]. case_decide; [apply emits_ret|].
  assert (emits (plain_or P) (write_all fuel fd data)) by auto.
  apply emits_bind; [apply emits_perform; intros a; right; by apply HP|].
  intros w x w' _. destruct x as [e|[|n]]; [emits..|]. apply IH. intros part a Hp.
  apply HP. etrans; [exact Hp|]. eexists. symmetry. apply take_drop.
Qed.
End special.

#[export] Hint Resolve emits_wait_for_owner emits_kill_provider emits_secret emits_backup : emits.

(** ** Spawning *)

Section spawning.
Context `{Session} `{Desktop}.
Implicit Types P : event → Prop.

Definition spawns (e : event) : Prop :=
  match e with
  | Did Pipe _ | Did (Fork _) _ | Did (Kill _ _) _ | Did (Write _ _) _ | Did (Unlink _) _ => True
  | _ => False
  end.

Lemma emits_spawn_any P fuel program key :
  (∀ e, spawns e → P e) → emits (plain_or P) (spawn_storage_provider fuel program key).
Proof.
  intros HP.
  assert (∀ fd data, emits (plain_or P) (write_all fuel fd data)) as Hwrite
    by (intros; apply emits_write; intros; by apply HP).
  assert (∀ A (r : request A) a, spawns (Did r a) → plain_or P (Did r a)) as Hr by (right; auto).
  assert (emits (plain_or P) (perform Pipe)) by (apply emits_perform; intros; by apply Hr).
  assert (∀ c, emits (plain_or P) (perform (Fork c))) by (intros; apply emits_perform; intros; by apply Hr).
  assert (∀ p s, emits (plain_or P) (perform (Kill p s)))
    by (intros; apply emits_perform; intros; by apply Hr).
  assert (∀ p, emits (plain_or P) (perform (Unlink p))) by (intros; apply emits_perform; intros; by apply Hr).
  assert (∀ fd l, emits (plain_or P) (send_entries fuel fd l))
    by (intros fd l; induction l; cbn [send_entries]; emits).
  unfold spawn_storage_provider, feed_provider, send_environment. emits.
Qed.

Lemma emits_proxy P fuel : (∀ e, spawns e → P e) → emits (plain_or P) (ensure_kf6_proxy fuel).
Proof.
  intros HP. assert (∀ A (r : request A) a, spawns (Did r a) → plain_or P (Did r a)) as Hr by (right; auto).
  assert (∀ c, emits (plain_or P) (perform (Fork c))) by (intros; apply emits_perform; intros; by apply Hr).
  assert (∀ p s, emits (plain_or P) (perform (Kill p s)))
    by (intros; apply emits_perform; intros; by apply Hr).
  unfold ensure_kf6_proxy, spawn_plain. emits.
Qed.

Lemma triple_calm {A B} (E : event → Prop) (m : M A) (f : A → M B) (I : list event → Prop) R :
  emits E m → (∀ e T, E e → I T → I (e :: T)) → (∀ x, triple I (f x) R) → triple I (m ≫= f) R.
Proof. intros Hm HI Hf. eapply triple_bind; [by eapply triple_emits|exact Hf]. Qed.
End spawning.

(** ** A wallet is moved aside only after it was reported closed, and once *)

Section moves.
Context `{Session} `{Desktop}.

(** What an answer of KWallet says of the wallet. *)
Definition open_answer (reply : gerror + list variant) : WalletState :=
  match reply with
  | inr [VInt32 handle] => if handle <? 0 then WALLET_CLOSED else WALLET_OPEN
  | _ => failed_state reply
  end.

Definition is_open_answer (reply : gerror + list variant) : WalletState :=
  match reply with
  | inr [VBoolean open] => if open : bool then WALLET_OPEN else WALLET_CLOSED
  | _ => failed_state reply
  end.

Definition wallet_answer (c : bus_call) (reply : gerror + list variant) : option WalletState :=
  if negb (text_eqb c.(interface) kwallet) then None
  else if text_eqb c.(method) (str "open") then
    Some (open_answer reply)
  else if text_eqb c.(method) (str "isOpen") then
    Some (is_open_answer reply)
  else None.

Definition state_of (e : event) : option WalletState :=
  match e with Did (Call c) reply => wallet_answer c reply | _ => None end.

Fixpoint last_state (T : list event) : option WalletState :=
  match T with
  | [] => None
  | e :: T => match state_of e with Some s => Some s | None => last_state T end
  end.

(** The events before the last answer. *)
Fixpoint before_answer (T : list event) : list event :=
  match T with
  | [] => []
  | e :: T => match state_of e with Some _ => T | None => before_answer T end
  end.

Definition unmoved (T : list event) : Prop := Forall (λ e, is_move e = false) T.

(** A move comes after the answer that the wallet is closed, and no wallet was
    moved before that answer. *)
Definition move_guarded (e : event) (T : list event) : Prop :=
  is_move e = true → last_state T = Some WALLET_CLOSED ∧ unmoved (before_answer T).

Definition still (backed : bool) (T : list event) : Prop :=
  always move_guarded T ∧ (backed = false → unmoved T).

Definition moving (T : list event) : Prop :=
  always move_guarded T ∧ last_state T = Some WALLET_CLOSED ∧ unmoved (before_answer T).

Lemma still_step backed e T : is_move e = false → still backed T → still backed (e :: T).
Proof.
  intros He [HT Hb]. split; [split; [|done]|].
  - unfold move_guarded. by rewrite He.
  - intros Hf. constructor; [done|by apply Hb].
Qed.

Lemma moving_step e T : state_of e = None → moving T → moving (e :: T).
Proof.
  intros He (HT & Hs & Hu). unfold moving. simpl. rewrite He. by split_and!.
Qed.

Lemma unmoved_before T : unmoved T → unmoved (before_answer T).
Proof.
  induction 1 as [|e T He HT IH]; simpl; [constructor|]. destruct (state_of e); [exact HT|exact IH].
Qed.

Lemma plain_quiet e : plain e = true → is_move e = false ∧ state_of e = None.
Proof.
  destruct e as [A r a]. destruct r; simpl; try done.
  intros Hp%negb_true_iff. unfold wallet_answer. by rewrite Hp.
Qed.

Lemma plain_or_still P e : (∀ e, P e → is_move e = false) → plain_or P e → is_move e = false.
Proof. intros HP [Hp|Hp]; [by apply plain_quiet|auto]. Qed.

Lemma plain_or_quiet P e : (∀ e, P e → state_of e = None) → plain_or P e → state_of e = None.
Proof. intros HP [Hp|Hp]; [by apply plain_quiet|auto]. Qed.

Lemma spawns_still e : spawns e → is_move e = false.
Proof. destruct e as [A r a]. by destruct r. Qed.
Lemma kills_quiet e : kills e → state_of e = None.
Proof. destruct e as [A r a]. by destruct r. Qed.
Lemma kills_still e : kills e → is_move e = false.
Proof. destruct e as [A r a]. by destruct r. Qed.
Lemma reads_still e : reads e → is_move e = false.
Proof. destruct e as [A r a]. by destruct r. Qed.
Lemma renames_quiet e : renames e → state_of e = None.
Proof. destruct e as [A r a]. by destruct r. Qed.

Definition answered (backed : bool) (s : WalletState) (T : list event) : Prop :=
  still backed T ∧ last_state T = Some s ∧ (backed = false → unmoved (before_answer T)).

Lemma answered_call backed c s reply T : wallet_answer c reply = Some s →
  still backed T → answered backed s (Did (Call c) reply :: T).
Proof.
  intros Hs HT. split; [by apply still_step|]. simpl. rewrite Hs. split; [done|apply HT].
Qed.

Lemma answered_step backed s e T : is_move e = false → state_of e = None →
  answered backed s T → answered backed s (e :: T).
Proof.
  intros Hm He (HT & Hs & Hu). split; [by apply still_step|]. simpl. by rewrite He.
Qed.

Lemma answered_moving T : answered false WALLET_CLOSED T → moving T.
Proof. intros ([HT _] & Hs & Hu). split_and!; [done..|by apply Hu]. Qed.

(** The answer of [wallet_open_state] is the last in the trace. *)
Lemma triple_wallet backed kf6 :
  triple (still backed) (wallet_open_state kf6) (λ s, answered backed s).
Proof.
  unfold wallet_open_state. destruct kf6.
  - eapply (triple_bind _ _ _ (λ reply, answered backed (open_answer reply))).
    { apply triple_perform. intros a T HT. by apply answered_call. }
    intros reply. unfold open_answer.
    repeat case_match; try by apply triple_ret.
    eapply (triple_bind _ _ _ (λ _, answered backed WALLET_OPEN)); [|intros; by apply triple_ret].
    apply triple_perform. intros a T HT. by apply answered_step.
  - eapply (triple_bind _ _ _ (λ reply, answered backed (is_open_answer reply))).
    { apply triple_perform. intros a T HT. by apply answered_call. }
    intros reply. by apply triple_ret.
Qed.

(** Steps that move nothing and ask no wallet. *)
Lemma still_calm {A B} P backed (m : M A) (f : A → M B) R :
  emits (plain_or P) m → (∀ e, P e → is_move e = false) →
  (∀ x, triple (still backed) (f x) R) → triple (still backed) (m ≫= f) R.
Proof.
  intros Hm HP Hf. eapply triple_calm; [exact Hm| |exact Hf].
  intros e T He. apply still_step. by eapply plain_or_still.
Qed.

Lemma moving_calm {A B} P (m : M A) (f : A → M B) R :
  emits (plain_or P) m → (∀ e, P e → state_of e = None) →
  (∀ x, triple moving (f x) R) → triple moving (m ≫= f) R.
Proof.
  intros Hm HP Hf. eapply triple_calm; [exact Hm| |exact Hf].
  intros e T He. apply moving_step. by eapply plain_or_quiet.
Qed.

Lemma still_ret {A} backed (x : A) : triple (still backed) (mret x) (λ _, always move_guarded).
Proof. apply triple_ret. by intros T [HT _]. Qed.

Lemma moving_guarded T : moving T → always move_guarded T.
Proof. by intros [HT _]. Qed.

Lemma backup_moving fuel : triple moving (backup_wallet fuel) (λ _, moving).
Proof.
  unfold backup_wallet. eapply moving_calm; [by apply (emits_backup renames)|apply renames_quiet|].
  intros [n|]; (eapply moving_calm; [apply (emits_say (λ _, False))|done|]);
    intros []; by apply triple_ret.
Qed.

Lemma emits_kill_proxy P fuel kf6 child :
  (∀ e, kills e → P e) → emits (plain_or P) (kill_proxy fuel kf6 child).
Proof. intros HP. unfold kill_proxy. destruct kf6; [by apply emits_kill_provider|apply emits_ret]. Qed.

(** [kill_provider], [kill_proxy], [unlink] and messages. *)
Definition closing (e : event) : Prop :=
  match e with Did (Kill _ _) _ | Did (Unlink _) _ => True | _ => False end.

Lemma closing_still e : closing e → is_move e = false.
Proof. destruct e as [A r a]. by destruct r. Qed.
Lemma closing_quiet e : closing e → state_of e = None.
Proof. destruct e as [A r a]. by destruct r. Qed.
Lemma closing_kills e : kills e → closing e.
Proof. destruct e as [A r a]. by destruct r. Qed.
Lemma emits_unlink p : emits (plain_or closing) (perform (Unlink p)).
Proof. apply emits_perform. intros a. by right. Qed.
Lemma emits_end_provider fuel name child : emits (plain_or closing) (kill_provider fuel name child).
Proof. apply emits_kill_provider, closing_kills. Qed.
Lemma emits_end_proxy fuel kf6 child : emits (plain_or closing) (kill_proxy fuel kf6 child).
Proof. apply emits_kill_proxy, closing_kills. Qed.

Hint Resolve emits_unlink emits_end_provider emits_end_proxy closing_still closing_quiet : emits.

Ltac still := eapply still_calm; [by eauto using emits_say with emits|by eauto with emits|intros ?].
Ltac moving := eapply moving_calm; [by eauto using emits_say with emits|by eauto with emits|intros ?].

Lemma triple_check fuel kf6 marker :
  triple (still false) (check_provider fuel kf6 marker) (λ _, always move_guarded).
Proof.
  unfold check_provider.
  eapply (still_calm spawns).
  { destruct kf6; [by apply emits_proxy|apply emits_ret]. }
  { apply spawns_still. }
  intros proxy_child. destruct (kf6 && (proxy_child <? 0)); [apply still_ret|].
  eapply triple_bind; [apply triple_wallet|]. intros [].
  - apply triple_ret. intros T HT. apply HT.
  - eapply triple_conseq; [apply answered_moving|intros ? ? HT; exact HT|].
    do 3 moving. eapply triple_bind; [apply backup_moving|]. intros b.
    apply triple_ret, moving_guarded.
  - eapply triple_conseq; [intros T HT; exact (proj1 HT)|intros ? ? HT; exact HT|].
    do 4 still. apply still_ret.
  - eapply triple_conseq; [intros T HT; exact (proj1 HT)|intros ? ? HT; exact HT|].
    do 2 still. apply still_ret.
Qed.

Lemma answered_calm {A B} backed s (m : M A) (f : A → M B) R :
  emits (plain_or closing) m → (∀ x, triple (answered backed s) (f x) R) →
  triple (answered backed s) (m ≫= f) R.
Proof.
  intros Hm Hf. eapply triple_calm; [exact Hm| |exact Hf]. intros e T He. apply answered_step.
  - eapply plain_or_still; [apply closing_still|exact He].
  - eapply plain_or_quiet; [apply closing_quiet|exact He].
Qed.

Lemma answered_ret {A} backed s (x : A) :
  triple (answered backed s) (mret x) (λ _, always move_guarded).
Proof. apply triple_ret. intros T HT. apply HT. Qed.

Lemma triple_start_loop attempts fuel kf6 backed key marker :
  triple (still backed) (start_loop attempts fuel kf6 backed key marker) (λ _, always move_guarded).
Proof.
  revert backed. induction attempts as [|attempts IH]; intros backed; [apply triple_out_of_fuel|].
  cbn [start_loop].
  eapply still_calm; [by apply emits_spawn_any, (λ e H, H)|apply spawns_still|]. intros child.
  eapply (still_calm closing); [destruct (0 <? child); eauto using emits_ret with emits
    |apply closing_still|]. intros owned.
  destruct (negb owned).
  { eapply (still_calm closing); [destruct (0 <? child); eauto using emits_ret with emits
      |apply closing_still|]. intros u.
    do 2 still. apply still_ret. }
  eapply (still_calm spawns).
  { destruct kf6; [by apply emits_proxy|apply emits_ret]. }
  { apply spawns_still. }
  intros proxy_child. destruct (kf6 && (proxy_child <? 0)); [still; apply still_ret|].
  eapply triple_bind; [apply triple_wallet|]. intros state. cbv beta.
  case_bool_decide; [apply answered_ret|].
  do 3 (eapply answered_calm; [by eauto with emits|intros ?]).
  case_bool_decide.
  { eapply answered_calm; [apply emits_say|intros ?]. apply answered_ret. }
  destruct (bool_decide (state = WALLET_CLOSED) && negb backed) eqn:Hb.
  - apply andb_true_iff in Hb as [->%bool_decide_eq_true ->%negb_true_iff].
    eapply triple_conseq; [apply answered_moving|intros ? ? HT; exact HT|].
    eapply triple_bind; [apply backup_moving|]. intros [].
    + eapply triple_conseq; [|intros ? ? HT; exact HT|apply (IH true)].
      intros T HT. by split; [apply moving_guarded|].
    + apply triple_ret, moving_guarded.
  - eapply answered_calm; [apply emits_say|intros ?]. apply answered_ret.
Qed.

Lemma triple_start fuel kf6 backed marker secret key :
  triple (still backed) (start_provider fuel kf6 backed marker secret key)
    (λ _, always move_guarded).
Proof.
  unfold start_provider.
  eapply (still_calm reads); [by apply emits_secret|apply reads_still|]. intros [ok secret'].
  destruct (if ok then _ else None); [|still; apply still_ret].
  eapply triple_bind; [apply triple_start_loop|]. intros [child|]; [|by apply triple_ret].
  assert (∀ e T, plain_or closing e → always move_guarded T → always move_guarded (e :: T)) as Hstep.
  { intros e T He HT. split; [|done]. unfold move_guarded.
    by rewrite (plain_or_still _ e closing_still He). }
  eapply triple_calm; [apply emits_create_marker|exact Hstep|]. intros marked.
  destruct (negb marked); [|by apply triple_ret].
  eapply triple_calm; [apply emits_end_provider|exact Hstep|]. intros u. by apply triple_ret.
Qed.

Lemma triple_activate fuel activation_name marker :
  triple (still false) (activate_provider fuel activation_name marker) (λ _, always move_guarded).
Proof.
  unfold activate_provider, activate_steps.
  eapply (triple_bind _ _ _ (λ _, always move_guarded)); [|intros [r [s k]]; by apply triple_ret].
  eapply (still_calm (λ _, False)); [emits|done|intros kf6].
  eapply (still_calm (λ _, False)); [emits|done|intros owned].
  eapply (still_calm (λ _, False)); [emits|done|intros supported].
  destruct (negb supported); [still; apply still_ret|].
  eapply (still_calm (λ _, False)); [emits|done|intros managed].
  destruct (negb managed); [still; apply still_ret|].
  assert (∀ e T, plain_or closing e → always move_guarded T → always move_guarded (e :: T)) as Hstep.
  { intros e T He HT. split; [|done]. unfold move_guarded.
    by rewrite (plain_or_still _ e closing_still He). }
  apply (triple_bind _ _ _ (λ _, still owned)).
  { destruct owned; [|by apply triple_ret].
    eapply triple_conseq; [intros T HT; exact HT| |apply triple_check].
    intros x T HT. by split. }
  intros [still_owned|]; [|apply still_ret].
  eapply (triple_bind _ _ _ (λ _, always move_guarded)).
  { destruct still_owned; [apply still_ret|apply triple_start]. }
  intros [ready secrets]. destruct (negb ready); [by apply triple_ret|].
  eapply triple_calm; [apply emits_has_owner|exact Hstep|]. intros named.
  destruct (negb named); [|by apply triple_ret].
  eapply triple_calm; [apply emits_say|exact Hstep|]. intros u. by apply triple_ret.
Qed.
End moves.

(** The programs before and after an activation. *)
Lemma triple_main `{Session} `{Desktop} (P : event → list event → Prop) fuel argv :
  (∀ e T, plain e = true → P e T) →
  (∀ activation_name marker, triple (λ T, always P T ∧ Forall (λ e, plain e = true) T)
    (activate_provider fuel activation_name marker) (λ _, always P)) →
  triple (λ T, T = []) (main fuel argv) (λ _, always P).
Proof.
  intros HP Ha. set (I := λ T, always P T ∧ Forall (λ e, plain e = true) T).
  apply (triple_conseq _ I _ (λ _, always P)); [intros T ->; by split|done|].
  assert (∀ A B (m : M A) (f : A → M B),
    emits (plain_or (λ _, False)) m → (∀ x, triple I (f x) (λ _, always P)) →
    triple I (m ≫= f) (λ _, always P)) as Hcalm.
  { intros A B m f Hm Hf. eapply triple_calm; [exact Hm| |exact Hf].
    intros e T [He|[]] [HT Hplain]. split; [split; [by apply HP|done]|by constructor]. }
  assert (∀ A (x : A), triple I (mret x) (λ _, always P)) as Hret by (intros; by apply triple_ret; intros T []).
  unfold main. cbv zeta.
  lazymatch goal with |- triple _ (match ?x with Some _ => _ | None => _ end) _ =>
    destruct x as [name|] end; [|apply Hcalm; [apply emits_say|intros ?; apply Hret]].
  destruct (negb _); [apply Hcalm; [apply emits_say|intros ?; apply Hret]|].
  destruct runtime_dir as [[|c runtime]|];
    [apply Hcalm; [apply emits_say|intros ?; apply Hret]| |
     apply Hcalm; [apply emits_say|intros ?; apply Hret]].
  apply Hcalm; [emits|intros ?]. apply Hcalm; [emits|intros [e|lock]]; [apply Hret|].
  apply Hcalm; [emits|intros [e|u]].
  { apply Hcalm; [emits|intros ?]. apply Hret. }
  apply Hcalm; [emits|intros [message|u']].
  { apply Hcalm; [apply emits_say|intros ?]. apply Hcalm; [emits|intros ?]. apply Hret. }
  eapply triple_bind; [apply Ha|]. intros [result secrets].
  eapply triple_calm; [| |intros ?; by apply triple_ret].
  - apply (emits_perform (λ e, plain e = true)). done.
  - intros e T He HT. split; [by apply HP|done].
Qed.

(** C33: The wallet's files are renamed only when the last answer of KWallet said
    that the wallet is closed, and none was renamed before that answer: an
    activation moves a wallet aside at most once, and never after a timeout or
    an error. *)
Theorem wallet_moved_only_when_closed `{Session} `{Desktop} fuel argv h status w' later e earlier :
  main fuel argv (World h []) = Returned status w' →
  w'.(trace) = later ++ e :: earlier → is_move e = true →
  last_state earlier = Some WALLET_CLOSED ∧ unmoved (before_answer earlier).
Proof.
  intros E Ht He. assert (always move_guarded w'.(trace)) as HT.
  { refine (triple_main move_guarded fuel argv _ _ (World h []) status w' eq_refl E).
    - intros e' T Hp Hm. destruct (plain_quiet _ Hp). congruence.
    - intros name marker. eapply triple_conseq; [|intros ? ? HT; exact HT|apply triple_activate].
      intros T [HT Hp]. split; [done|]. intros _. eapply Forall_impl; [exact Hp|].
      intros e' He'. by apply plain_quiet. }
  rewrite Ht in HT. by apply (always_split _ _ _ _ HT).
Qed.
