(* ===== verification/SecretGuard.v ===== *)
(** * Other people's processes ([native/spaces_secret_helper.c])

    What the helper leaves alone, and what it does not leave behind: a secret
    service it did not start, and the processes of an activation that
    failed. *)

From S2P Require Import Prelude Glib Session SecretHelper SecretTrace.

(** ** A provider the helper did not start *)

Section guard.
Context `{Session} `{Desktop}.

Lemma any_emits_wallet kf6 : emits (plain_or (λ _, True)) (wallet_open_state kf6).
Proof. unfold wallet_open_state. emits. Qed.
Lemma any_emits_proxy fuel : emits (plain_or (λ _, True)) (ensure_kf6_proxy fuel).
Proof. by apply emits_proxy. Qed.
Lemma any_emits_kill_proxy fuel kf6 child : emits (plain_or (λ _, True)) (kill_proxy fuel kf6 child).
Proof. by apply emits_kill_proxy. Qed.
Lemma any_emits_backup fuel : emits (plain_or (λ _, True)) (backup_wallet fuel).
Proof. unfold backup_wallet. emits. Qed.
Lemma any_emits_spawn fuel program key :
  emits (plain_or (λ _, True)) (spawn_storage_provider fuel program key).
Proof. by apply emits_spawn_any. Qed.
Hint Resolve any_emits_wallet any_emits_proxy any_emits_kill_proxy any_emits_backup any_emits_spawn : emits.

Lemma any_emits_check fuel kf6 marker : emits (plain_or (λ _, True)) (check_provider fuel kf6 marker).
Proof. unfold check_provider. emits. Qed.

Lemma any_emits_start_loop attempts fuel kf6 backed key marker :
  emits (plain_or (λ _, True)) (start_loop attempts fuel kf6 backed key marker).
Proof.
  revert backed. induction attempts; intros; cbn [start_loop]; [by intros ????|]. emits.
Qed.
Hint Resolve any_emits_start_loop : emits.

Lemma any_emits_start fuel kf6 backed marker secret key :
  emits (plain_or (λ _, True)) (start_provider fuel kf6 backed marker secret key).
Proof. unfold start_provider. emits. Qed.

(** The two answers that allow the helper to go on: the marker is the user's
    own regular file, or no one owns the name. *)
Definition managed (marker : text) (T : list event) : Prop := ∃ fd m,
  Did (Open marker (Z.lor O_RDONLY (Z.lor O_CLOEXEC O_NOFOLLOW))) (inr fd) ∈ T ∧
  Did (Fstat fd) (inr m) ∈ T ∧ S_ISREG m.(st_mode) = true ∧ m.(st_uid) = getuid.

Definition unowned (T : list event) : Prop := ∃ reply,
  Did (Call (dbus_call (str "NameHasOwner") storage_name)) reply ∈ T ∧
  reply ≠ inr [VBoolean true].

Definition allowed (marker : text) (T : list event) : Prop := managed marker T ∨ unowned T.

Definition guarded (marker : text) (e : event) (T : list event) : Prop :=
  plain e = false → allowed marker T.

Lemma allowed_cons marker e T : allowed marker T → allowed marker (e :: T).
Proof.
  intros [(fd & m & Ho & Hf & Hm)|(reply & Hr & Hn)]; [left; exists fd, m|right; exists reply].
  - split_and!; [by right|by right|apply Hm..].
  - split; [by right|done].
Qed.

Lemma allowed_any {A} marker (m : M A) : emits (plain_or (λ _, True)) m →
  triple (λ T, always (guarded marker) T ∧ allowed marker T) m
    (λ _ T, always (guarded marker) T ∧ allowed marker T).
Proof.
  intros Hm. eapply triple_emits; [exact Hm|]. intros e T _ [HT Ha].
  split; [split; [by intros _|done]|by apply allowed_cons].
Qed.

Lemma guarded_plain {A} marker (m : M A) : emits (plain_or (λ _, False)) m →
  triple (always (guarded marker)) m (λ _, always (guarded marker)).
Proof.
  intros Hm. eapply triple_emits; [exact Hm|]. intros e T [He|[]] HT.
  split; [|done]. unfold guarded. congruence.
Qed.

Lemma triple_owned marker : triple (always (guarded marker)) (name_has_owner storage_name)
  (λ owned T, always (guarded marker) T ∧ (owned = false → allowed marker T)).
Proof.
  unfold name_has_owner. eapply (triple_bind _ _ _ (λ reply T, always (guarded marker) T ∧
    Did (Call (dbus_call (str "NameHasOwner") storage_name)) reply ∈ T)).
  - apply triple_perform. intros a T HT. split; [by split|by left].
  - intros reply. apply triple_ret. intros T [HT Hr]. split; [done|]. intros Hf.
    right. exists reply. split; [done|]. by intros ->.
Qed.

Lemma marker_manages marker : triple (λ _, True) (marker_exists marker)
  (λ found T, found = true → managed marker T).
Proof.
  unfold marker_exists. set (opening := Open marker _).
  apply (triple_bind _ _ _ (λ made T, Did opening made ∈ T)); [apply triple_perform; by left|].
  intros [e|fd]; [by apply triple_ret|].
  apply (triple_bind _ _ _ (λ found T, Did opening (inr fd) ∈ T ∧ Did (Fstat fd) found ∈ T)).
  { apply triple_perform. intros a T Ho. split; [by right|by left]. }
  intros found.
  apply (triple_bind _ _ _ (λ _ T, Did opening (inr fd) ∈ T ∧ Did (Fstat fd) found ∈ T)).
  { apply triple_perform. intros a T (Ho & Hf). split; by right. }
  intros _. apply triple_ret. intros T (Ho & Hf).
  destruct found as [e|m]; [done|]. intros [Hr Hu%Z.eqb_eq]%andb_true_iff. by exists fd, m.
Qed.

Lemma triple_marker marker : triple (always (guarded marker)) (marker_exists marker)
  (λ found T, always (guarded marker) T ∧ (found = true → managed marker T)).
Proof.
  intros w x w' HT E. split; [|by apply (marker_manages marker w x w' I E)].
  by apply (guarded_plain marker _ (emits_marker_exists _ marker) w x w' HT E).
Qed.

Lemma triple_activate_guarded fuel activation_name marker :
  triple (always (guarded marker)) (activate_provider fuel activation_name marker)
    (λ _, always (guarded marker)).
Proof.
  unfold activate_provider, activate_steps.
  eapply (triple_bind _ _ _ (λ _, always (guarded marker))); [|intros [r [s k]]; by apply triple_ret].
  eapply triple_bind; [apply guarded_plain; emits|intros kf6].
  eapply triple_bind; [apply triple_owned|intros owned].
  eapply (triple_bind _ _ _ (λ _ T, always (guarded marker) T ∧ (owned = false → allowed marker T)));
    [|intros supported].
  { apply triple_perform. intros a T [HT Ho]. split; [by split|]. intros Hf. apply allowed_cons. auto. }
  destruct (negb supported).
  { eapply triple_conseq; [intros T HT; exact (proj1 HT)|intros ? ? HT; exact HT|].
    apply guarded_plain. emits. }
  apply (triple_bind _ _ _ (λ managed T, always (guarded marker) T ∧
    (managed = true → allowed marker T))).
  { destruct owned.
    - eapply triple_conseq; [intros T HT; exact (proj1 HT)| |apply triple_marker].
      intros managed T [HT Hm]. split; [done|]. intros Ht. left. auto.
    - apply triple_ret. intros T [HT Ho]. auto. }
  intros []; cbn [negb].
  - apply (triple_conseq _ (λ T, always (guarded marker) T ∧ allowed marker T) _
      (λ _ T, always (guarded marker) T ∧ allowed marker T)); [|by intros ? T []|apply allowed_any].
    + intros T [HT Hm]. split; [done|auto].
    + assert (∀ P, emits (plain_or P) (name_has_owner activation_name)) by (intros; apply emits_has_owner).
      pose proof any_emits_check. pose proof any_emits_start. emits.
  - eapply triple_conseq; [intros T HT; exact (proj1 HT)|intros ? ? HT; exact HT|].
    apply guarded_plain. emits.
Qed.
End guard.

(** A secret service the helper did not start is left alone: whatever the
    helper does to a process, a file name or the wallet, it first found the
    name [org.freedesktop.secrets] without an owner, or its marker to be a
    regular file of the user. *)
Theorem unmanaged_left_alone `{Session} `{Desktop} fuel activation_name marker h result w' later e earlier :
  activate_provider fuel activation_name marker (World h []) = Returned result w' →
  w'.(trace) = later ++ e :: earlier → plain e = false → allowed marker earlier.
Proof.
  intros E Ht He. pose proof (triple_activate_guarded fuel activation_name marker (World h []) _ _ I E) as HT.
  rewrite Ht in HT. by apply (always_split _ _ _ _ HT).
Qed.

(** ** The processes of an activation that failed *)

Section running.
Context `{Session} `{Desktop}.

(** The children that were not sent a signal and are not known to have
    ended, the last one first. *)
Definition after (e : event) (l : list Z) : list Z :=
  match e with
  | Did (Fork _) pid => if 0 <? pid then pid :: l else l
  | Did (Kill pid _) _ => filter (λ p, p ≠ pid) l
  | Did (Waitpid pid _) r =>
      if decide (r = inr pid ∨ r = inl ECHILD) then filter (λ p, p ≠ pid) l else l
  | _ => l
  end.

Fixpoint running (T : list event) : list Z :=
  match T with
  | [] => []
  | e :: T => after e (running T)
  end.

Definition within (L : list Z) (T : list event) : Prop := running T ⊆ L.

Definition forks (e : event) : bool := match e with Did (Fork _) _ => true | _ => false end.

(** A process [fork] makes is neither [init] nor the helper itself. *)
Definition proper (pid : Z) : Prop := 1 < pid ∧ pid ≠ getpid.

Context (fork_proper : ∀ c h, (step (Fork c) h).1 < 0 ∨ proper (step (Fork c) h).1).

Lemma within_step L e T : forks e = false → within L T → within L (e :: T).
Proof.
  unfold within. intros He HT. simpl. etrans; [|exact HT]. destruct e as [A r a].
  destruct r; simpl in *; try done; [|case_decide; [|done]]; intros p; rewrite list_elem_of_filter;
    by intros [].
Qed.

Lemma within_drop pid L e T : after e (running T) = filter (λ p, p ≠ pid) (running T) →
  within (pid :: L) T → within L (e :: T).
Proof.
  unfold within. simpl. intros -> HT p [Hp Hin]%list_elem_of_filter.
  apply HT, elem_of_cons in Hin as [->|Hin]; done.
Qed.

Lemma within_calm {A B} P L (m : M A) (f : A → M B) R : emits (plain_or P) m →
  (∀ e, P e → forks e = false) →
  (∀ x, triple (within L) (f x) R) → triple (within L) (m ≫= f) R.
Proof.
  intros Hm HP Hf. eapply triple_calm; [exact Hm| |exact Hf].
  intros e T [He|He]; apply within_step; [|by apply HP].
  destruct e as [A' r a]. by destruct r.
Qed.

Lemma within_mono {A} L L' (m : M A) R : L ⊆ L' → triple (within L') m R → triple (within L) m R.
Proof. intros HL. apply triple_conseq; [|done]. intros T HT. unfold within in *. by etrans. Qed.

(** What [kill_provider] is given to kill is not running afterwards. *)
Lemma triple_kill fuel name child L : proper child →
  triple (within (child :: L)) (kill_provider fuel name child) (λ _, within L).
Proof.
  intros [Hgt Hself]. unfold kill_provider.
  eapply within_calm; [apply (emits_pid (λ _, False))|done|]. intros owner.
  rewrite (proj2 (Z.ltb_lt 1 child) Hgt).
  eapply (triple_bind _ _ _ (λ c T, c = child ∧ within (child :: L) T ∨ c = -1 ∧ within L T)).
  { apply (triple_bind _ _ _ (λ w T, within (child :: L) T ∧
      (w = inr child ∨ w = inl ECHILD → within L T))).
    - apply triple_perform. intros a T HT. split; [by apply within_step|].
      intros Ha. apply (within_drop child); [|done]. simpl. by rewrite decide_True.
    - intros w. apply triple_ret. intros T [HT Hw]. case_decide; auto. }
  intros c.
  eapply (triple_bind _ _ _ (λ _ T, c = child ∧ within (child :: L) T ∧ (child = owner → within L T)
    ∨ c = -1 ∧ within L T)).
  { destruct ((1 <? owner) && negb (owner =? getpid)) eqn:Ho.
    - apply triple_perform. intros a T [[-> HT]|[-> HT]]; [left|right].
      + split_and!; [done|by apply within_step|]. intros ->. by apply (within_drop owner).
      + split; [done|]. by apply within_step.
    - apply triple_ret. intros T [[-> HT]|[-> HT]]; [left|by right].
      split_and!; [done..|]. intros <-. lia. }
  intros u. apply (triple_bind _ _ _ (λ _, within L)).
  { destruct ((1 <? c) && negb (c =? owner) && negb (c =? getpid)) eqn:Hc.
    - apply triple_perform. intros a T [(-> & HT & _)|[-> HT]].
      + by apply (within_drop child).
      + by apply within_step.
    - apply triple_ret. intros T [(-> & HT & Ho)|[-> HT]]; [|done]. apply Ho. lia. }
  intros u'. eapply (within_calm (λ _, False)); [destruct (1 <? c); emits|done|intros ?].
  eapply (triple_emits (plain_or (λ _, False))); [emits|]. intros e T [He|[]]. apply within_step.
  destruct e as [A r a]. by destruct r.
Qed.

Definition no_fork (e : event) : Prop := forks e = false.

Lemma no_fork_write fuel fd data : emits (plain_or no_fork) (write_all fuel fd data).
Proof. by apply emits_write. Qed.

Lemma no_fork_environment fuel path : emits (plain_or no_fork) (send_environment fuel path).
Proof.
  pose proof no_fork_write.
  assert (∀ fd l, emits (plain_or no_fork) (send_entries fuel fd l))
    by (intros fd l; induction l; cbn [send_entries]; emits).
  unfold send_environment. emits.
Qed.

Lemma no_fork_kill fuel name child : emits (plain_or no_fork) (kill_provider fuel name child).
Proof. apply emits_kill_provider. intros [A r a]. by destruct r. Qed.

(** What a function leaves that returns the child it started, if any. *)
Definition started (L : list Z) (child : Z) (T : list event) : Prop :=
  if 0 <? child then proper child ∧ within (child :: L) T else within L T.

Lemma started_none L c T : c ≤ 0 → within L T → started L c T.
Proof. intros Hc HT. unfold started. by rewrite (proj2 (Z.ltb_ge 0 c)). Qed.

Lemma started_child L c T : proper c → within (c :: L) T → started L c T.
Proof. intros Hc HT. unfold started. destruct Hc. by rewrite (proj2 (Z.ltb_lt 0 c)) by lia. Qed.

Lemma triple_fork {A} L c (f : Z → M A) R :
  (∀ pid, pid < 0 → triple (within L) (f pid) R) →
  (∀ pid, proper pid → triple (within (pid :: L)) (f pid) R) →
  triple (within L) (perform (Fork c) ≫= f) R.
Proof.
  intros Hn Hp w x w' HT (pid & w1 & E1 & E2)%M_bind_returned.
  apply perform_returned in E1 as [-> ->].
  destruct (fork_proper c (now w)) as [Hneg|Hpid].
  - eapply Hn; [exact Hneg| |exact E2]. unfold within. simpl.
    by rewrite (proj2 (Z.ltb_ge _ _)) by lia.
  - eapply Hp; [exact Hpid| |exact E2]. unfold within. simpl. destruct Hpid.
    rewrite (proj2 (Z.ltb_lt _ _)) by lia. intros p [->|Hin]%elem_of_cons; [by left|].
    right. by apply HT.
Qed.

Lemma kill_ret {A} L pid signal (x : A) :
  triple (within (pid :: L)) (_ ← perform (Kill pid signal); mret x) (λ y T, y = x ∧ within L T).
Proof.
  eapply (triple_bind _ _ _ (λ _, within L)); [|intros; by apply triple_ret].
  apply triple_perform. intros a T HT. by apply (within_drop pid).
Qed.

Ltac calm := eapply (within_calm no_fork);
  [solve [emits | eauto using no_fork_write, no_fork_environment, no_fork_kill, emits_say, emits_ret]
  |done|intros ?].

Lemma triple_feed fuel program key path key_read key_write listener L :
  triple (within L) (feed_provider fuel program key path key_read key_write listener)
    (λ r, started L r.1).
Proof.
  unfold feed_provider. apply triple_fork; intros pid Hpid.
  - rewrite (proj2 (Z.ltb_lt _ _)) by lia. apply triple_ret. intros T HT. by apply started_none; [simpl; lia|].
  - destruct Hpid as [Hgt Hself]. rewrite (proj2 (Z.ltb_ge _ _)) by lia.
    calm. calm. destruct (negb _).
    { eapply triple_conseq; [done| |apply kill_ret]. intros r T [-> HT]. by apply started_none. }
    calm. calm. destruct (negb _).
    { eapply triple_conseq; [done| |apply kill_ret]. intros r T [-> HT]. by apply started_none. }
    apply triple_ret. intros T HT. by apply started_child.
Qed.

Lemma started_calm {A B} L c (m : M A) (f : A → M B) R : emits (plain_or no_fork) m →
  (∀ x, triple (started L c) (f x) R) → triple (started L c) (m ≫= f) R.
Proof.
  intros Hm Hf. eapply triple_calm; [exact Hm| |exact Hf]. intros e T He HT.
  assert (forks e = false) as Hn by (destruct He as [He|He]; [destruct e as [A' r a]; by destruct r|done]).
  unfold started in *. destruct (0 <? c); [destruct HT; split; [done|]|]; by apply within_step.
Qed.

Lemma triple_spawn fuel program key L :
  triple (within L) (spawn_storage_provider fuel program key) (λ c, started L c).
Proof.
  assert (triple (within L) (mret (-1)) (λ c, started L c)) as Hret
    by (apply triple_ret; intros; by apply started_none).
  unfold spawn_storage_provider. destruct runtime_dir as [[|ch runtime]|]; [exact Hret| |exact Hret].
  calm. destruct x as [e|[key_read key_write]]; [exact Hret|].
  assert (∀ open, triple (within L) (mret (-1, open) : M (Z * list Z)) (λ r, started L r.1)) as Hnone
    by (intros; apply triple_ret; intros; by apply started_none).
  apply (triple_bind _ _ _ (λ r, started L r.1)).
  - destruct (SUN_PATH <=? _)%nat; [apply Hnone|]. calm. destruct x as [e|listener]; [apply Hnone|].
    calm. calm. eapply (within_calm no_fork); [destruct x as [e|[]]; emits|done|intros []];
      [apply Hnone|].
    eapply triple_bind; [apply triple_feed|]. intros [child open].
    apply triple_ret. intros T HT. exact HT.
  - intros [child open]. cbn [fst].
    apply started_calm; [emits|intros ?]. apply started_calm; [emits|intros ?]. by apply triple_ret.
Qed.

Lemma triple_proxy fuel L : triple (within L) (ensure_kf6_proxy fuel) (λ c, started L c).
Proof.
  assert (∀ c, c ≤ 0 → triple (within L) (mret c) (λ c, started L c)) as Hret
    by (intros; apply triple_ret; intros; by apply started_none).
  unfold ensure_kf6_proxy. calm. destruct x; [by apply Hret|].
  calm. destruct (negb x); [calm; by apply Hret|].
  unfold spawn_plain. apply triple_fork; intros pid Hpid.
  - rewrite (proj2 (Z.leb_le _ _)) by lia. apply Hret. lia.
  - destruct (id Hpid) as [Hgt _]. rewrite (proj2 (Z.leb_gt _ _)) by lia.
    calm. destruct x0.
    + apply triple_ret. intros T HT. by apply started_child.
    + eapply triple_conseq; [done| |apply kill_ret]. intros r T [-> HT]. by apply started_none.
Qed.

Lemma no_fork_wallet kf6 : emits (plain_or no_fork) (wallet_open_state kf6).
Proof. unfold wallet_open_state. emits. Qed.

Lemma no_fork_backup fuel : emits (plain_or no_fork) (backup_wallet fuel).
Proof.
  assert (∀ d, emits (plain_or no_fork) (spaces_backup_failed_wallet fuel d)).
  { intros. apply emits_backup. intros [A r a]. by destruct r. }
  unfold backup_wallet. emits.
Qed.

Definition failed_clean (r : option Z) (T : list event) : Prop := r = None → within [] T.

Lemma clean_ret : triple (within []) (mret None) failed_clean.
Proof. apply triple_ret. by intros T HT _. Qed.

Lemma triple_kill_proxy fuel kf6 c L : triple (started L c) (kill_proxy fuel kf6 c)
  (λ _ T, (kf6 = true ∨ c ≤ 0) → within L T).
Proof.
  unfold kill_proxy, started. destruct (Z.ltb_spec 0 c) as [Hc|Hc].
  - destruct kf6; [|apply triple_ret; intros T _ [|]; [done|lia]].
    intros w x w' [Hp HT] E _. by apply (triple_kill fuel kwalletd6 c L Hp w x w').
  - apply (triple_conseq _ (within L) _ (λ _, within L)); [done|by intros x T HT _|].
    destruct kf6; [|by apply triple_ret]. eapply triple_emits; [apply no_fork_kill|].
    intros e T He. apply within_step. destruct He as [He|He]; [destruct e as [A r a]; by destruct r|done].
Qed.

Lemma clean_start_loop attempts fuel kf6 backed key marker :
  triple (within []) (start_loop attempts fuel kf6 backed key marker) failed_clean.
Proof.
  revert backed. induction attempts as [|attempts IH]; intros backed; [apply triple_out_of_fuel|].
  cbn [start_loop]. eapply triple_bind; [apply triple_spawn|]. intros child.
  intros w x w' Hst E. unfold started in Hst. destruct (Z.ltb_spec 0 child) as [Hc|Hc].
  2:{ revert w x w' Hst E. apply (within_mono [] []); [done|].
      apply (triple_bind _ _ _ (λ owned T, owned = false ∧ within [] T)); [by apply triple_ret|].
      intros owned. apply (triple_conseq _ (λ T, owned = false ∧ within [] T) _ failed_clean); [done..|].
      intros w x w' [-> HT] E. revert w x w' HT E. cbn [negb].
      calm. calm. calm. apply clean_ret. }
  destruct Hst as [Hproper HT]. revert w x w' HT E. calm. destruct (negb x).
  { eapply triple_bind; [by apply triple_kill|intros u]. calm. calm. apply clean_ret. }
  apply (triple_bind _ _ _ (λ c T, started [child] c T ∧ (kf6 = false → c = -1))).
  { destruct kf6; [|apply triple_ret; intros T HT; split; [by apply started_none|done]].
    eapply triple_conseq; [done| |apply triple_proxy]. done. }
  intros proxy. destruct (kf6 && (proxy <? 0)) eqn:Hneg.
  { apply andb_true_iff in Hneg as [_ Hneg%Z.ltb_lt].
    eapply (triple_conseq _ (within [child])); [|done|].
    { intros T [HT _]. unfold started in HT. by rewrite (proj2 (Z.ltb_ge 0 proxy)) in HT by lia. }
    eapply triple_bind; [by apply triple_kill|intros u]. apply clean_ret. }
  intros w x' w' [Hst Hp] E. assert (kf6 = true ∨ proxy ≤ 0) as Hkill.
  { destruct kf6; [by left|right]. by rewrite Hp. }
  revert w x' w' Hst E. apply started_calm; [apply no_fork_wallet|intros state].
  case_bool_decide; [by apply triple_ret|].
  eapply triple_bind; [apply triple_kill_proxy|intros u].
  apply (triple_conseq _ (within [child]) _ failed_clean); [auto|done|].
  eapply triple_bind; [by apply triple_kill|intros u']. calm.
  case_bool_decide; [calm; apply clean_ret|].
  destruct (bool_decide (state = WALLET_CLOSED) && negb backed); [|calm; apply clean_ret].
  eapply (within_calm no_fork); [apply no_fork_backup|done|intros []]; [apply IH|apply clean_ret].
Qed.

Lemma triple_create_marker (T0 : list event → Prop) marker :
  (∀ e T, T0 T → T0 (e :: T)) →
  triple T0 (create_marker marker) (λ marked T, marked = false →
    ∃ flags e, Did (Open marker flags) (inl e) ∈ T).
Proof.
  intros HT0. unfold create_marker.
  eapply (triple_bind _ _ _ (λ made T, ∀ e, made = inl e →
    ∃ flags e, Did (Open marker flags) (inl e) ∈ T)).
  - apply triple_perform. intros a T _ e ->. do 2 eexists. by left.
  - intros [e|fd]; [apply triple_ret; by intros T HT _; eapply HT|].
    intros w x w' _ E. apply M_bind_returned in E as (u & w1 & _ & E).
    by apply M_ret_returned in E as [-> _].
Qed.

(** If the helper gives up on starting a provider, every process it started
    was sent a signal or has ended, unless the provider opened the wallet and
    only its marker could not be created. *)
Theorem failed_start_leaves_none fuel kf6 backed marker secret key h secrets w' :
  start_provider fuel kf6 backed marker secret key (World h []) = Returned (false, secrets) w' →
  running w'.(trace) = [] ∨ ∃ flags e, Did (Open marker flags) (inl e) ∈ w'.(trace).
Proof.
  intros E. unfold start_provider in E.
  apply M_bind_returned in E as ([ok secret'] & w1 & E1 & E).
  assert (within [] w1.(trace)) as H1.
  { refine (triple_emits (plain_or no_fork) _ (within []) _ _ (World h []) _ w1 _ E1); [| |by intros p].
    - apply emits_secret. intros [A r a]. by destruct r.
    - intros e T He. apply within_step. destruct He as [He|He]; [destruct e as [A r a]; by destruct r|done]. }
  destruct (if ok then _ else None) as [key'|].
  2:{ left. apply M_bind_returned in E as (u & w2 & E2 & E). apply M_ret_returned in E as [[=] ->].
      apply perform_returned in E2 as [_ ->]. simpl in *. by apply list_nil_subseteq. }
  apply M_bind_returned in E as (started & w2 & E2 & E).
  pose proof (clean_start_loop _ _ _ _ _ _ w1 started w2 H1 E2) as H2.
  destruct started as [child|].
  - right. apply M_bind_returned in E as (marked & w3 & E3 & E).
    pose proof (triple_create_marker (λ _, True) marker (λ _ _ _, I) w2 marked w3 I E3) as Hm.
    destruct marked; [by apply M_ret_returned in E as [[=] _]|].
    apply M_bind_returned in E as (u & w4 & E4 & E). apply M_ret_returned in E as [_ ->].
    destruct (Hm eq_refl) as (flags & e & Hin). exists flags, e.
    destruct (no_fork_kill _ _ _ _ _ _ E4) as (evs & -> & _). apply elem_of_app. by right.
  - left. apply M_ret_returned in E as [_ ->]. by apply list_nil_subseteq, H2.
Qed.
End running.

(** ** An activation that succeeded *)

Section success.
Context `{Session} `{Desktop}.

Lemma wallet_last kf6 :
  triple (λ _, True) (wallet_open_state kf6) (λ s T, last_state T = Some s).
Proof.
  unfold wallet_open_state. destruct kf6.
  - eapply (triple_bind _ _ _ (λ reply T, last_state T = Some (open_answer reply))).
    { by apply triple_perform. }
    intros reply. unfold open_answer. repeat case_match; try by apply triple_ret.
    eapply (triple_bind _ _ _ (λ _ T, last_state T = Some WALLET_OPEN)); [|intros; by apply triple_ret].
    by apply triple_perform.
  - eapply (triple_bind _ _ _ (λ reply T, last_state T = Some (is_open_answer reply))).
    { by apply triple_perform. }
    intros reply. by apply triple_ret.
Qed.

Definition opened (T : list event) : Prop := last_state T = Some WALLET_OPEN.

Lemma any_ret {A} (x : A) P (Q : A → list event → Prop) : (∀ T, Q x T) → triple P (mret x) Q.
Proof. intros HQ. by apply triple_ret. Qed.

Lemma any_bind {A B} (m : M A) (f : A → M B) R :
  (∀ x, triple (λ _, True) (f x) R) → triple (λ _, True) (m ≫= f) R.
Proof. intros Hf. by apply (triple_bind _ _ _ (λ _ _, True)). Qed.

Lemma check_opened fuel kf6 marker :
  triple (λ _, True) (check_provider fuel kf6 marker) (λ r T, r = Some true → opened T).
Proof.
  unfold check_provider. apply any_bind. intros proxy. destruct (_ && _); [by apply any_ret|].
  eapply triple_bind; [apply wallet_last|]. intros [].
  - apply triple_ret. by intros T HT _.
  - apply (triple_conseq _ (λ _, True) _ (λ r T, r = Some true → opened T)); [done..|].
    do 4 (apply any_bind; intros ?). by apply any_ret; case_match.
  - apply (triple_conseq _ (λ _, True) _ (λ r T, r = Some true → opened T)); [done..|].
    do 4 (apply any_bind; intros ?). by apply any_ret.
  - apply (triple_conseq _ (λ _, True) _ (λ r T, r = Some true → opened T)); [done..|].
    do 2 (apply any_bind; intros ?). by apply any_ret.
Qed.

Lemma start_loop_opened attempts fuel kf6 backed key marker :
  triple (λ _, True) (start_loop attempts fuel kf6 backed key marker)
    (λ r T, is_Some r → opened T).
Proof.
  assert (∀ P, triple P (mret None) (λ (r : option Z) T, is_Some r → opened T)) as Hnone
    by (intros; apply any_ret; by intros T []).
  revert backed. induction attempts as [|attempts IH]; intros backed; [apply triple_out_of_fuel|].
  cbn [start_loop]. do 2 (apply any_bind; intros ?).
  destruct (negb _); [do 3 (apply any_bind; intros ?); apply Hnone|].
  apply any_bind. intros proxy. destruct (kf6 && _); [apply any_bind; intros ?; apply Hnone|].
  eapply triple_bind; [apply wallet_last|]. intros state. case_bool_decide as Hs.
  { apply triple_ret. intros T HT _. by rewrite Hs in HT. }
  apply (triple_conseq _ (λ _, True) _ (λ r T, is_Some r → opened T)); [done..|].
  do 3 (apply any_bind; intros ?). case_bool_decide; [apply any_bind; intros ?; apply Hnone|].
  destruct (_ && _); [|apply any_bind; intros ?; apply Hnone].
  apply any_bind. intros []; [apply IH|apply Hnone].
Qed.

Lemma opened_plain {A} (m : M A) : emits (plain_or (λ _, False)) m → triple opened m (λ _, opened).
Proof.
  intros Hm. eapply triple_emits; [exact Hm|]. intros e T [He|[]] HT. unfold opened. simpl.
  destruct (plain_quiet e He) as [_ ->]. done.
Qed.

(** The marker exists: it was found, or created. *)
Definition marked (marker : text) (T : list event) : Prop :=
  managed marker T ∨ ∃ flags fd, Did (Open marker flags) (inr fd) ∈ T ∧ Z.land flags O_CREAT ≠ 0.

Lemma create_marker_marks marker : triple opened (create_marker marker)
  (λ ok T, opened T ∧ (ok = true → marked marker T)).
Proof.
  unfold create_marker. set (flags := Z.lor O_WRONLY _).
  apply (triple_bind _ _ _ (λ made T, opened T ∧ Did (Open marker flags) made ∈ T)).
  { apply triple_perform. intros a T HT. split; [done|by left]. }
  intros [e|fd]; [apply triple_ret; by intros T [HT _]|].
  apply (triple_bind _ _ _ (λ _ T, opened T ∧ Did (Open marker flags) (inr fd) ∈ T)).
  { apply triple_perform. intros a T [HT Hin]. split; [done|by right]. }
  intros u. apply triple_ret. intros T [HT Hin]. split; [done|]. intros _. right. by exists flags, fd.
Qed.

Lemma start_marked fuel kf6 backed marker secret key :
  triple (λ _, True) (start_provider fuel kf6 backed marker secret key)
    (λ r T, r.1 = true → opened T ∧ marked marker T).
Proof.
  unfold start_provider. apply any_bind. intros [ok secret'].
  destruct (if ok then _ else None); [|apply any_bind; intros ?; by apply any_ret].
  eapply triple_bind; [apply start_loop_opened|]. intros [child|]; [|by apply any_ret].
  eapply (triple_conseq _ opened); [intros T HT; by apply HT|intros ? ? HT; exact HT|].
  eapply triple_bind; [apply create_marker_marks|]. intros [].
  - apply triple_ret. intros T [HT Hm] _. auto.
  - cbn [negb]. intros w r w' _ E. apply M_bind_returned in E as (u & w1 & _ & E).
    by apply M_ret_returned in E as [-> _].
Qed.

Lemma managed_grows {A} marker (m : M A) w x w' : emits (plain_or (λ _, True)) m →
  m w = Returned x w' → managed marker w.(trace) → managed marker w'.(trace).
Proof.
  intros Hm E (fd & md & Ho & Hf & Hp). destruct (Hm _ _ _ E) as (evs & -> & _).
  exists fd, md. split_and!; [apply elem_of_app; by right..|apply Hp|apply Hp].
Qed.

(** The provider part of an activation, up to the last question. *)
Lemma ready_opened fuel kf6 (owned : bool) marker secret key w checked w1 ready secrets w2 :
  (owned = true → managed marker w.(trace)) →
  (if owned then check_provider fuel kf6 marker else mret (Some false)) w = Returned (Some checked) w1 →
  (if checked : bool then mret (true, (secret, key))
   else start_provider fuel kf6 owned marker secret key) w1 = Returned (ready, secrets) w2 →
  ready = true → opened w2.(trace) ∧ marked marker w2.(trace).
Proof.
  intros Hm E1 E2 ->. destruct checked.
  - apply M_ret_returned in E2 as [_ ->]. destruct owned; [|by apply M_ret_returned in E1 as [[=] _]].
    split; [by apply (check_opened _ _ _ _ _ _ I E1)|]. left.
    eapply managed_grows; [apply any_emits_check|exact E1|auto].
  - by apply (start_marked _ _ _ _ _ _ _ _ _ I E2).
Qed.
End success.

(** [activate_provider] returns 0 only after KWallet's last answer said that
    the wallet is open, the marker was found or created, and the bus said that
    the activated name is owned; and whatever it returns, nothing of the two
    secrets is left in its buffers. *)
Theorem activation_complete `{Session} `{Desktop} fuel activation_name marker h result secret key w' :
  activate_provider fuel activation_name marker (World h []) = Returned (result, (secret, key)) w' →
  (secret = replicate (length secret) zero ∧ key = replicate (length key) zero) ∧
  (result = 0 → ∃ before, opened before ∧ marked marker before ∧
    w'.(trace) =
      Did (Call (dbus_call (str "NameHasOwner") activation_name)) (inr [VBoolean true]) :: before).
Proof.
  intros E. unfold activate_provider in E.
  apply M_bind_returned in E as ([r [s k]] & w1 & E & E').
  apply M_ret_returned in E' as [[= -> -> ->] ->].
  split; [unfold secure_clear; by rewrite !length_replicate|]. intros ->.
  unfold activate_steps in E.
  apply M_bind_returned in E as (kf6 & wa & _ & E). apply M_bind_returned in E as (owned & wb & _ & E).
  apply M_bind_returned in E as (supported & wc & _ & E).
  destruct (negb supported); [apply M_bind_returned in E as (? & ? & _ & E); by apply M_ret_returned in E as [[=] _]|].
  apply M_bind_returned in E as (found & wd & Ed & E).
  destruct found; cbn [negb] in E;
    [|apply M_bind_returned in E as (? & ? & _ & E); by apply M_ret_returned in E as [[=] _]].
  apply M_bind_returned in E as ([checked|] & we & Ee & E); [|by apply M_ret_returned in E as [[=] _]].
  apply M_bind_returned in E as ([ready secrets] & wf & Ef & E).
  destruct ready; cbn [negb] in E; [|by apply M_ret_returned in E as [[=] _]].
  apply M_bind_returned in E as (named & wg & Eg & E).
  destruct named; cbn [negb] in E;
    [|apply M_bind_returned in E as (? & ? & _ & E); by apply M_ret_returned in E as [[=] _]].
  apply M_ret_returned in E as [_ ->].
  assert (owned = true → managed marker wd.(trace)) as Hmanaged.
  { intros ->. exact (marker_manages marker wc true wd I Ed eq_refl). }
  destruct (ready_opened _ _ _ _ _ _ _ _ _ _ _ _ Hmanaged Ee Ef eq_refl) as [Ho Hm].
  exists wf.(trace). split_and!; [done..|].
  unfold name_has_owner in Eg. apply M_bind_returned in Eg as (reply & wh & Eh & Eg).
  apply perform_returned in Eh as [-> ->]. apply M_ret_returned in Eg as [Hr ->].
  cbn [trace]. by repeat case_match; simplify_eq.
Qed.
