(* ===== verification/SecretKey.v ===== *)
(** * The portal's secret and the wallet's key ([native/spaces_secret_helper.c])

    What the helper accepts as the secret, where the key it derives goes, and
    what else leaves the helper. *)

From S2P Require Import Prelude Glib Session SecretHelper SecretTrace.

Section key.
Context `{Session} `{Desktop}.

(** What was read, in order. *)
Fixpoint bytes_read (T : list event) : text :=
  match T with
  | [] => []
  | e :: T => bytes_read T ++
      match e with Did (Read _ _) (inr data) => data | _ => [] end
  end.

Lemma triple_request {A} (r : request A) P Q :
  (∀ h T, P T → Q (step r h).1 (Did r (step r h).1 :: T)) → triple P (perform r) Q.
Proof. intros HQ w y w' HP [-> ->]%perform_returned. by apply HQ. Qed.

Lemma plain_bytes e T : plain e = true → bytes_read (e :: T) = bytes_read T.
Proof. destruct e as [A r a]. destruct r; try done; intros _; simpl; apply app_nil_r. Qed.

(** ** The secret *)

Lemma triple_read_secret fuel fd output size :
  triple (λ T, bytes_read T = take size output ∧ length output = SECRET_SIZE ∧ (size ≤ SECRET_SIZE)%nat)
    (read_secret fuel fd output size)
    (λ r T, length r.2 = SECRET_SIZE ∧ (r.1 = true → bytes_read T = r.2)).
Proof.
  revert output size. induction fuel as [|fuel IH]; intros output size; [apply triple_out_of_fuel|].
  cbn [read_secret]. destruct (Nat.leb_spec SECRET_SIZE size) as [Hs|Hs].
  { apply triple_ret. intros T (Hb & Hl & _). split; [done|]. intros _. by rewrite Hb, take_ge by lia. }
  apply (triple_bind _ _ _ (λ a T, length output = SECRET_SIZE ∧
    match a with
    | inl _ => bytes_read T = take size output
    | inr data => (length data ≤ SECRET_SIZE - size)%nat ∧ bytes_read T = take size output ++ data
    end)).
  { apply triple_request. intros h T (Hb & Hl & _). split; [done|].
    destruct (step (Read fd (SECRET_SIZE - size)) h).1 as [e|data] eqn:E; cbn [bytes_read]; rewrite Hb.
    - by rewrite app_nil_r.
    - split; [by eapply step_read|done]. }
  intros [e|[|c data]].
  - case_decide.
    + eapply triple_conseq; [| |apply IH]; [|done]. intros T [Hl Hb]. split_and!; [done..|lia].
    + apply triple_ret. by intros T [Hl _].
  - apply triple_ret. by intros T [Hl _].
  - eapply triple_conseq; [| |apply IH]; [|done]. intros T (Hl & Hd & Hb).
    assert (length (take size output) = size) as Hts by (rewrite length_take; lia).
    split_and!; [|rewrite !length_app, length_drop, Hts; lia|lia].
    rewrite Hb, app_assoc. rewrite <- Hts at 2. rewrite <- length_app. by rewrite take_app_length.
Qed.

Definition file_ended (fd : Z) (T : list event) : Prop := Did (Read fd 1) (inr []) ∈ T.

Lemma triple_read_extra fuel fd b :
  triple (λ T, bytes_read T = b) (read_extra fuel fd)
    (λ ok T, ok = true → bytes_read T = b ∧ file_ended fd T).
Proof.
  induction fuel as [|fuel IH]; [apply triple_out_of_fuel|]. cbn [read_extra].
  apply (triple_bind _ _ _ (λ a T, match a with
    | inl _ => bytes_read T = b
    | inr data => data = [] → bytes_read T = b ∧ file_ended fd T
    end)).
  { apply triple_perform. intros a T <-. destruct a as [e|data]; cbn [bytes_read].
    - by rewrite app_nil_r.
    - intros ->. split; [by rewrite app_nil_r|by left]. }
  intros [e|data].
  - case_decide; [apply IH|by apply triple_ret].
  - apply triple_ret. intros T HT Hd%bool_decide_eq_true. auto.
Qed.

(** The [Response] that answered the request: its code. *)
Definition answered_with (code : Z) (T : list event) : Prop := ∃ signals results,
  Did Dispatch signals ∈ T ∧ last signals = Some (code, results).

Lemma portal_response_last signals r :
  let r' := foldl portal_response r signals in
  match last signals with
  | Some (code, _) => r'.(received) = true ∧ r'.(response) = code
  | None => r' = r
  end.
Proof.
  cbv zeta. destruct signals as [|[code results] signals _] using rev_ind; [done|].
  by rewrite last_snoc, foldl_snoc.
Qed.

Lemma triple_response fuel deadline r P :
  (∀ e T, plain e = true → P T → P (e :: T)) →
  triple (λ T, P T ∧ r.(received) = false) (wait_response fuel deadline r)
    (λ r' T, P T ∧ (r'.(received) = true → answered_with r'.(response) T)).
Proof.
  intros HP. revert r. induction fuel as [|fuel IH]; intros r; [apply triple_out_of_fuel|].
  cbn [wait_response]. destruct (received r) eqn:Hr.
  { by intros w r' w' [_ ?]. }
  apply (triple_conseq _ P _ (λ r' T, P T ∧ (r'.(received) = true → answered_with r'.(response) T)));
    [by intros T []|done|].
  apply (triple_bind _ _ _ (λ _, P)); [apply triple_perform; auto|]. intros time.
  destruct (deadline <=? time); [apply triple_ret; intros T HT; split; [done|congruence]|].
  apply (triple_bind _ _ _ (λ signals T, P T ∧ Did Dispatch signals ∈ T)).
  { apply triple_perform. intros a T HT. split; [auto|by left]. }
  intros signals. pose proof (portal_response_last signals r) as Hlast. cbv zeta in *.
  set (r1 := foldl portal_response r signals) in *.
  destruct (last signals) as [[code results]|] eqn:El.
  - destruct Hlast as [Hr1 Hc]. rewrite Hr1. intros w x w' [HT Hin] E.
    apply M_bind_returned in E as (u & w1 & E1 & E). apply M_ret_returned in E1 as [-> ->].
    destruct fuel; [done|]. cbn [wait_response] in E. rewrite Hr1 in E.
    apply M_ret_returned in E as [-> ->]. split; [done|]. intros _. rewrite Hc. by exists signals, results.
  - rewrite Hlast, Hr.
    apply (triple_bind _ _ _ (λ _ T, P T ∧ r.(received) = false)); [|intros u; apply IH].
    apply triple_perform. intros a T [HT _]. split; [auto|done].
Qed.

(** A secret that was accepted is all that was ever read, of a file that ends
    there, after a response that granted the request. *)
Definition accepted (fd : Z) (output : text) (T : list event) : Prop :=
  bytes_read T = output ∧ file_ended fd T ∧ answered_with 0 T.

Definition unread (T : list event) : Prop := bytes_read T = [].

Lemma unread_plain e T : plain e = true → unread T → unread (e :: T).
Proof. unfold unread. intros He. by rewrite plain_bytes. Qed.

Lemma accepted_plain fd output e T : plain e = true → accepted fd output T → accepted fd output (e :: T).
Proof.
  intros He (Hb & Hf & signals & results & Hin & Hl). split; [by rewrite plain_bytes|].
  split; [by right|]. exists signals, results. split; [by right|done].
Qed.

Lemma plain_calm {A B} (I : list event → Prop) (m : M A) (f : A → M B) R :
  (∀ e T, plain e = true → I T → I (e :: T)) → emits (plain_or (λ _, False)) m →
  (∀ x, triple I (f x) R) → triple I (m ≫= f) R.
Proof.
  intros HI Hm Hf. eapply triple_calm; [exact Hm| |exact Hf]. intros e T [He|[]]. by apply HI.
Qed.

(** What a function that fills the buffer establishes. *)
Definition filled (fd : Z) (r : bool * text) (T : list event) : Prop :=
  length r.2 = SECRET_SIZE ∧ (r.1 = true → accepted fd r.2 T).

Lemma filled_none fd output P : length output = SECRET_SIZE →
  triple P (mret (false, output)) (filled fd).
Proof. intros Hl. apply triple_ret. intros T _. by split. Qed.

Lemma filled_plain fd r e T : plain e = true → filled fd r T → filled fd r (e :: T).
Proof. intros He [Hl Hr]. split; [done|]. intros Ht. by apply accepted_plain, Hr. Qed.

Lemma triple_receive fuel fd path r output : length output = SECRET_SIZE →
  triple (λ T, unread T ∧ (r.(received) = true → answered_with r.(response) T))
    (receive_secret fuel fd path r output) (filled fd).
Proof.
  intros Hl. unfold receive_secret. destruct (received r); cbn [negb].
  2:{ eapply (triple_bind _ _ _ (λ _ _, True)); [by apply triple_perform|]. intros. by apply filled_none. }
  destruct (Z.eqb_spec r.(response) 0) as [Hr|Hr]; cbn [negb]; [|by apply filled_none].
  rewrite Hr. set (granted := λ T, answered_with 0 T).
  assert (∀ e T, granted T → granted (e :: T)) as Hgr.
  { intros e T (signals & results & Hin & Hla). exists signals, results. split; [by right|done]. }
  apply (triple_bind _ _ _ (λ _ T, unread T ∧ granted T)).
  { apply triple_perform. intros a T [HT Hg]. split; [by apply unread_plain|auto]. }
  intros [e|u]; [by apply filled_none|].
  eapply (triple_bind _ _ _ (λ r T, (length r.2 = SECRET_SIZE ∧ (r.1 = true → bytes_read T = r.2)) ∧ granted T)).
  { intros w x w' [HT Hg] E. split.
    - refine (triple_read_secret fuel fd output 0 w x w' _ E). split_and!; [exact HT|done|lia].
    - refine (triple_emits (plain_or reads) _ granted _ _ w x w' Hg E); [by apply emits_read_secret|].
      intros e T _. apply Hgr. }
  intros [[] out]; cbn [negb fst snd].
  2:{ apply triple_ret. intros T [[Hlo _] _]. by split. }
  apply (triple_bind _ _ _ (λ ok T, length out = SECRET_SIZE ∧ (ok = true → accepted fd out T))).
  { intros w ok w' [[Hlo Hb] Hg] E. split; [done|]. intros ->.
    destruct (triple_read_extra fuel fd out w true w' (Hb eq_refl) E eq_refl) as [Hb' He].
    split_and!; [done..|].
    refine (triple_emits (plain_or reads) _ granted _ _ w _ w' Hg E); [by apply emits_read_extra|].
    intros e T _. apply Hgr. }
  intros []; cbn [negb].
  - eapply (plain_calm (λ T, length out = SECRET_SIZE ∧ (true = true → accepted fd out T)));
      [|apply emits_save|].
    + intros e T He [Hlo Ha]. split; [done|]. intros Ht. by apply accepted_plain, Ha.
    + intros u'. by apply triple_ret.
  - apply triple_ret. by intros T [Hlo _].
Qed.

Lemma triple_secret fuel output : length output = SECRET_SIZE →
  triple unread (retrieve_portal_secret fuel output) (λ r T,
    length r.2 = SECRET_SIZE ∧ (r.1 = false → r.2 = replicate SECRET_SIZE zero) ∧
    (r.1 = true → ∃ fd, accepted fd r.2 T)).
Proof.
  intros Hl. assert (secure_clear output = replicate SECRET_SIZE zero) as Hclear
    by (unfold secure_clear; by rewrite Hl).
  unfold retrieve_portal_secret. apply plain_calm; [apply unread_plain|emits|intros [e|fd]].
  { apply triple_ret. intros T _. rewrite Hclear. cbn [fst snd]. split; [by rewrite length_replicate|done]. }
  apply plain_calm; [apply unread_plain|emits|intros handle]. cbv zeta.
  apply (triple_bind _ _ _ (filled fd)).
  - destruct (request_path _) as [path|]; [|by apply filled_none].
    apply plain_calm; [apply unread_plain|emits|intros u].
    apply (triple_bind _ _ _ (filled fd)).
    + unfold ask_portal. apply plain_calm; [apply unread_plain|apply emits_load|intros saved].
      apply plain_calm; [apply unread_plain|emits|intros [e|]]; [by apply filled_none|].
      apply plain_calm; [apply unread_plain|emits|intros reply].
      repeat (case_match; try by apply filled_none).
      apply plain_calm; [apply unread_plain|emits|intros time].
      eapply triple_bind; [|intros r; by apply triple_receive].
      eapply triple_conseq; [| |apply (triple_response fuel _ (Response false 0 None) unread unread_plain)];
        [by split|done].
    + intros r. apply plain_calm; [apply filled_plain|emits|intros u']. by apply triple_ret.
  - intros [ok out]. cbv zeta. apply plain_calm; [apply filled_plain|apply emits_truncate|intros u].
    apply plain_calm; [apply filled_plain|emits|intros u'].
    apply triple_ret. intros T [Hlo Ha]. cbn [fst snd] in *. unfold secure_clear. destruct ok.
    + split_and!; [done..|]. intros _. exists fd. by apply Ha.
    + by rewrite Hlo, length_replicate.
Qed.
End key.

(** The portal's secret is all or nothing: [retrieve_portal_secret] succeeds
    with exactly the 64 bytes of the file it passed to the portal, read to its
    end after the portal granted the request; otherwise it leaves a buffer of
    zeros. *)
Theorem portal_secret_exact `{Session} `{Desktop} fuel output h ok secret w' :
  length output = SECRET_SIZE →
  retrieve_portal_secret fuel output (World h []) = Returned (ok, secret) w' →
  length secret = SECRET_SIZE ∧
  if ok then ∃ fd, accepted fd secret w'.(trace) else secret = replicate SECRET_SIZE zero.
Proof.
  intros Hl E. destruct (triple_secret fuel output Hl (World h []) (ok, secret) w' eq_refl E)
    as (Hlen & Hfail & Hok). split; [done|]. destruct ok; auto.
Qed.

(** ** What leaves the helper *)

Section released.
Context `{Session} `{Desktop}.

(** What a provider is sent besides its key: its environment. *)
Definition environment_part (data : text) : Prop :=
  ∃ line, (line ∈ environ ∨ line = ["010"%char] ∨ line = headless_line) ∧ data `suffix_of` line.

(** The rest of the key that the secret read so far gives, into a pipe. *)
Definition key_part (fd : Z) (data : text) (T : list event) : Prop := ∃ key_read key,
  Did Pipe (inr (key_read, fd)) ∈ T ∧
  spaces_derive_kwallet_key (bytes_read T) = Some key ∧ data `suffix_of` key.

(** A token of a [Response] of the portal. *)
Definition granted_token (token : text) (T : list event) : Prop := ∃ signals code results,
  Did Dispatch signals ∈ T ∧ (code, results) ∈ signals ∧
  dict_first results (str "token") = Some (VString token).

(** The files and programs: none has a name that depends on what was read. *)
Inductive names : text → Prop :=
  | names_runtime runtime file : runtime_dir = Some runtime →
      file ∈ [str "spaces-secret-helper.lock"; str "spaces-secret-helper.ready"] →
      names (g_build_filename [runtime; file])
  | names_socket runtime : runtime_dir = Some runtime → names (provider_socket runtime)
  | names_token path : token_path = Some path → names path
  | names_token_directory path directory :
      token_path = Some path → directory_of path = Some directory → names directory
  | names_wallet source : source ∈ wallet_sources user_data_dir → names source
  | names_backup source number : source ∈ wallet_sources user_data_dir → 1 ≤ number < UINT_MAX →
      names (destination_of number source)
  | names_program path :
      path ∈ [str "/usr/bin/ksecretd"; str "/usr/bin/kwalletd6"; str "/usr/bin/kwalletd5"] →
      names path.

Definition fixed_messages : list text :=
  [str "KWallet compatibility proxy is missing"; str "KWallet timed out and was killed";
   str "could not query the managed wallet"; str "could not back up the locked wallet";
   str "KWallet startup timed out and was killed"; str "recreated KWallet did not open";
   str "could not query KWallet"; str "portal secret is unavailable";
   str "no supported KWallet provider"; str "refusing an unmanaged secret provider";
   str "invalid activation name"; str "XDG_RUNTIME_DIR is unavailable";
   str "session bus is unavailable"].

Inductive says (T : list event) : text → Prop :=
  | says_fixed m : m ∈ fixed_messages → says T m
  | says_backup number : 1 ≤ number < UINT_MAX →
      says T (str "backed up the locked wallet as spaces-managed-v1.kwl." ++ decimal number)
  | says_claim name : name ∈ activation_names → says T (str "provider did not claim " ++ name)
  | says_error m : Did GetBus (inl (Some m)) ∈ T → says T m.

(** A provider gets the numbers of two of its descriptors, and nothing else. *)
Inductive starts (T : list event) : child → Prop :=
  | starts_storage kf6 key_read key_write listener :
      Did Pipe (inr (key_read, key_write)) ∈ T → Did Socket (inr listener) ∈ T →
      starts T (storage_child (storage_program kf6) key_read key_write listener)
  | starts_proxy : starts T
      (Child [] [spaces_prepare_headless_qt] (str "/usr/bin/kwalletd6") [str "/usr/bin/kwalletd6"]).

Definition handle_token (uuid : text) : text :=
  map (λ c, if decide (c = "-"%char) then "_"%char else c) uuid.

Definition open_wallet : bus_call := wallet_call true (str "open")
  [VString (str "spaces-managed-v1"); VInt64 0; VString (str "spaces-secret-helper")].

Inductive asks (T : list event) : bus_call → Prop :=
  | asks_bus method name :
      method ∈ [str "NameHasOwner"; str "GetConnectionUnixProcessID"] → name ∈ activation_names →
      asks T (dbus_call method name)
  | asks_open : asks T open_wallet
  | asks_close handle : Did (Call open_wallet) (inr [VInt32 handle]) ∈ T →
      asks T (wallet_call true (str "close")
        [VInt32 handle; VBoolean true; VString (str "spaces-secret-helper")])
  | asks_is_open : asks T (wallet_call false (str "isOpen") [VString (str "spaces-managed-v1")])
  | asks_secret fd uuid saved : Did Memfd (inr fd) ∈ T → Did Uuid uuid ∈ T →
      match saved with
      | Some t => ∃ path contents, Did (GetContents path) (Some contents) ∈ T ∧ t = cstring contents
      | None => True
      end → asks T (secret_call fd (handle_token uuid) saved)
  | asks_cancel uuid path : Did Uuid uuid ∈ T → request_path (handle_token uuid) = Some path →
      asks T (BusCall PORTAL_NAME path PORTAL_REQUEST (str "Close") [] [] 3000).

(** Every request that carries text out of the process. *)
Definition released (e : event) (T : list event) : Prop :=
  match e with
  | Did (Write fd data) _ => environment_part data ∨ key_part fd data T
  | Did (SetContents path data) _ => token_path = Some path ∧ granted_token data T
  | Did (Printerr m) _ =>
      ∃ message, m = str "spaces-secret-helper: " ++ message ++ ["010"%char] ∧ says T message
  | Did (PrintError _) _ | Did (OpenBus _) _ | Did (Realpath _) _ => False
  | Did (Fork c) _ => starts T c
  | Did (Call c) _ | Did (Notify c) _ => asks T c
  | Did (Open path _) _ | Did (Lstat path) _ | Did (Unlink path) _ | Did (Connect _ path) _
  | Did (Bind _ path) _ | Did (Executable path) _ | Did (GetContents path) _
  | Did (MkdirParents path) _ | Did (Chmod path _) _ => names path
  | Did (Renameat2 source dest) _ | Did (Link source dest) _ | Did (Rename source dest) _ =>
      names source ∧ names dest
  | Did (Subscribe path) _ =>
      ∃ uuid, Did Uuid uuid ∈ T ∧ path = request_path (handle_token uuid)
  | _ => True
  end.

Definition no_read (e : event) : bool := match e with Did (Read _ _) _ => false | _ => true end.

(** What stays true of the trace while nothing is read. *)
Class Lasting (F : list event → Prop) :=
  lasting : ∀ e T, no_read e = true → F T → F (e :: T).

#[export] Instance lasting_member e : Lasting (elem_of e).
Proof. intros e' T _ He. by right. Qed.
#[export] Instance lasting_and F G : Lasting F → Lasting G → Lasting (λ T, F T ∧ G T).
Proof. intros HF HG e T He [? ?]. split; [by apply HF|by apply HG]. Qed.
#[export] Instance lasting_true P : Lasting (λ _, P).
Proof. by intros e T _. Qed.
#[export] Instance lasting_bytes b : Lasting (λ T, bytes_read T = b).
Proof. intros [A r a] T He <-. destruct r; try done; simpl; apply app_nil_r. Qed.

Definition within (F : list event → Prop) (T : list event) : Prop := always released T ∧ F T.
Definition kept (F : list event → Prop) {A} (m : M A) : Prop :=
  triple (within F) m (λ _, within F).
End released.

Create HintDb kept.
Create HintDb names.
#[export] Hint Constructors names says starts asks : names.
#[export] Hint Extern 1 (_ ∈ _ :: _) => repeat (first [left; reflexivity|right]) : names.
#[export] Hint Extern 1 (_ ∈ activation_names) => unfold activation_names : names.
#[export] Hint Extern 1 (_ ∈ fixed_messages) => unfold fixed_messages : names.

Section kept.
Context `{Session} `{Desktop} (F : list event → Prop) `{!Lasting F}.

Lemma kept_ret {A} (x : A) : kept F (mret x).
Proof. by apply triple_ret. Qed.

Lemma kept_bind {A B} (m : M A) (f : A → M B) :
  kept F m → (∀ x, kept F (f x)) → kept F (m ≫= f).
Proof. intros Hm Hf. by eapply triple_bind. Qed.

Lemma kept_out {A} : kept F (out_of_fuel : M A).
Proof. apply triple_out_of_fuel. Qed.

Lemma kept_perform {A} (r : request A) :
  (∀ a, no_read (Did r a) = true) → (∀ a T, within F T → released (Did r a) T) →
  kept F (perform r).
Proof.
  intros Hr HT. apply triple_perform. intros a T Hw. pose proof Hw as [Ha Hf].
  split; [split; [by apply HT|done]|by apply lasting].
Qed.

(** A request, and what follows it knowing its answer. *)
Lemma kept_answer {A B} (r : request A) (f : A → M B) :
  (∀ a, no_read (Did r a) = true) → (∀ a T, within F T → released (Did r a) T) →
  (∀ a, triple (within (λ T, F T ∧ Did r a ∈ T)) (f a) (λ _, within F)) →
  kept F (perform r ≫= f).
Proof.
  intros Hr HT Hf. apply (triple_bind _ _ _ (λ a, within (λ T, F T ∧ Did r a ∈ T))); [|done].
  apply triple_perform. intros a T Hw. pose proof Hw as [Ha HF].
  split; [split; [by apply HT|done]|]. split; [by apply lasting|left].
Qed.

Lemma kept_weaken (G : list event → Prop) {A} (m : M A) : kept (λ T, F T ∧ G T) m →
  triple (within (λ T, F T ∧ G T)) m (λ _, within F).
Proof.
  intros Hm. eapply triple_conseq; [| |exact Hm]; [done|]. intros x T (Ha & Hf & _). by split.
Qed.
End kept.

Lemma triple_given `{Session} {A} (P : list event → Prop) (R : Prop) (m : M A) Q :
  (R → triple P m Q) → triple (λ T, P T ∧ R) m Q.
Proof. intros Hm w x w' [HP HR]. by apply Hm. Qed.

Ltac kept_leaf :=
  lazymatch goal with |- kept ?F _ => apply (kept_perform F) end;
  [done|intros; cbn [released]; first [exact I|eauto 6 with names]].
Ltac keep := repeat (intros; first
  [ apply kept_ret | apply kept_out | solve [eauto with kept typeclass_instances] | kept_leaf
  | apply kept_bind | case_match | case_decide ]).

(** ** The parts of the helper *)

Section parts.
Context `{Session} `{Desktop} (F : list event → Prop) `{!Lasting F}.

Lemma kept_say m : (∀ T, within F T → says T m) → kept F (say m).
Proof.
  intros Hm. unfold say. apply (kept_perform F); [done|]. intros [] T HT. exists m. auto.
Qed.
Lemma kept_fixed m : m ∈ fixed_messages → kept F (say m).
Proof. intros Hm. apply kept_say. intros T _. by constructor. Qed.
Hint Extern 1 (kept _ (say _)) => apply kept_fixed; eauto with names : kept.

Lemma kept_truncate fuel fd : kept F (truncate_secret_fd fuel fd).
Proof. induction fuel; cbn [truncate_secret_fd]; keep. Qed.
Lemma kept_response fuel deadline r : kept F (wait_response fuel deadline r).
Proof. revert r. induction fuel; intros; cbn [wait_response]; keep. Qed.
Lemma kept_load : kept F load_token.
Proof. unfold load_token. keep. Qed.
Lemma kept_close_all l : kept F (close_all l).
Proof. induction l; cbn [close_all]; keep. Qed.
Lemma kept_reap fuel child : kept F (reap fuel child).
Proof. induction fuel; cbn [reap]; keep. Qed.
Hint Resolve kept_truncate kept_response kept_load kept_close_all kept_reap : kept.

Lemma kept_has_owner name : name ∈ activation_names → kept F (name_has_owner name).
Proof. intros Hn. unfold name_has_owner. keep. Qed.
Lemma kept_pid name : name ∈ activation_names → kept F (connection_pid name).
Proof. intros Hn. unfold connection_pid. keep. Qed.
Hint Resolve kept_has_owner kept_pid : kept.

Lemma kept_owner_loop fuel deadline name child : name ∈ activation_names →
  kept F (wait_for_owner_loop fuel deadline name child).
Proof. intros Hn. induction fuel; cbn [wait_for_owner_loop]; keep. Qed.
Hint Resolve kept_owner_loop : kept.
Lemma kept_wait fuel name child : name ∈ activation_names →
  kept F (wait_for_owner fuel name child).
Proof. intros Hn. unfold wait_for_owner. keep. Qed.
Lemma kept_released fuel deadline name : name ∈ activation_names →
  kept F (wait_released fuel deadline name).
Proof. intros Hn. induction fuel; cbn [wait_released]; keep. Qed.
Hint Resolve kept_wait kept_released : kept.
Lemma kept_kill fuel name child : name ∈ activation_names →
  kept F (kill_provider fuel name child).
Proof. intros Hn. unfold kill_provider. keep. Qed.
Hint Resolve kept_kill : kept.
End parts.

#[export] Hint Extern 1 (kept _ (say _)) => apply kept_fixed; eauto with names : kept.
#[export] Hint Resolve kept_truncate kept_response kept_load kept_close_all kept_reap kept_has_owner
  kept_pid kept_wait kept_kill : kept.

(** ** Asking the portal *)

Section asking.
Context `{Session} `{Desktop}.

Definition known_token (token : option text) (T : list event) : Prop :=
  match token with Some t => granted_token t T | None => True end.

Definition known_saved (saved : option text) (T : list event) : Prop :=
  match saved with
  | Some t => ∃ path contents, Did (GetContents path) (Some contents) ∈ T ∧ t = cstring contents
  | None => True
  end.

#[export] Instance lasting_token token : Lasting (known_token token).
Proof.
  intros e T _. destruct token; simpl; [|done].
  intros (signals & code & results & ? & ?). exists signals, code, results. split; [by right|done].
Qed.
#[export] Instance lasting_saved saved : Lasting (known_saved saved).
Proof.
  intros e T _. destruct saved; simpl; [|done]. intros (path & contents & ? & ->).
  exists path, contents. split; [by right|done].
Qed.

Lemma response_token signals r t : (foldl portal_response r signals).(token) = Some t →
  r.(token) = Some t ∨ ∃ code results, (code, results) ∈ signals ∧
    dict_first results (str "token") = Some (VString t).
Proof.
  revert r. induction signals as [|[code results] signals IH]; intros r; cbn [foldl]; [by left|].
  intros [Hr|(c & rs & Hin & Ht)]%IH; [|right; exists c, rs; split; [by right|done]].
  cbn [portal_response token] in Hr.
  destruct (dict_first results (str "token")) as [[]|] eqn:E; simplify_eq; auto.
  right. exists code, results. split; [left|done].
Qed.

Context (F : list event → Prop) `{!Lasting F}.

Lemma triple_wait_token fuel deadline r :
  triple (within (λ T, F T ∧ known_token r.(token) T)) (wait_response fuel deadline r)
    (λ r' T, within (λ T, F T ∧ known_token r'.(token) T) T).
Proof.
  revert r. induction fuel as [|fuel IH]; intros r; [apply triple_out_of_fuel|].
  cbn [wait_response]. destruct (received r); [by apply triple_ret|].
  eapply triple_bind; [apply (kept_perform (λ T, F T ∧ known_token r.(token) T)); done|].
  intros time. destruct (deadline <=? time); [by apply triple_ret|].
  apply (triple_bind _ _ _ (λ signals T,
    within (λ T, F T ∧ known_token (foldl portal_response r signals).(token) T) T)).
  { apply triple_perform. intros signals T (HT & HF & Ht). split; [by split|].
    split; [by apply lasting|]. unfold known_token at 1.
    destruct (token (foldl portal_response r signals)) as [t|] eqn:E; [|done].
    apply response_token in E as [E|(code & results & ? & ?)].
    - rewrite E in Ht. by apply (lasting_token (Some t)).
    - exists signals, code, results. split; [left|done]. }
  intros signals. eapply triple_bind; [|intros u; apply IH].
  set (G := λ T, F T ∧ _). change (kept G (if received (foldl portal_response r signals)
    then mret tt else perform (Usleep 10000))). keep.
Qed.

Lemma triple_load : triple (within F) load_token
  (λ saved T, within (λ T, F T ∧ known_saved saved T) T).
Proof.
  unfold load_token. destruct token_path as [path|] eqn:Ep; [|by apply triple_ret; intros T []].
  apply (triple_bind _ _ _ (λ a T, within (λ T, F T ∧ Did (GetContents path) a ∈ T) T)).
  { apply triple_perform. intros a T [HT HF]. split; [split; [by constructor|done]|].
    split; [by apply lasting|left]. }
  intros a. apply triple_ret. intros T (HT & HF & Ha). split; [done|]. split; [done|].
  destruct a as [contents|]; [|done]. case_match; [done|]. by exists path, contents.
Qed.

Lemma triple_save token : triple (within (λ T, F T ∧ known_token token T)) (save_token token)
  (λ _, within F).
Proof.
  apply kept_weaken. unfold save_token. destruct token as [[|c t]|]; [keep| |keep].
  destruct token_path as [path|] eqn:Ep; [|keep]. destruct (directory_of path) as [d|] eqn:Ed; [|keep].
  assert (kept (λ T, F T ∧ known_token (Some (c :: t)) T) (perform (SetContents path (c :: t)))).
  { apply (kept_perform (λ T, F T ∧ known_token (Some (c :: t)) T)); [done|].
    intros a T (_ & _ & Ht). by split. }
  keep.
Qed.
End asking.

Section retrieving.
Context `{Session} `{Desktop} (F : list event → Prop) (HF : ∀ e T, F T → F (e :: T)).

Lemma growing : Lasting F.
Proof. intros e T _. apply HF. Qed.

Lemma kept_read fd size : kept F (perform (Read fd size)).
Proof. apply triple_perform. intros a T [HT Hf]. split; [by split|by apply HF]. Qed.
Hint Resolve kept_read growing : kept.

Lemma kept_read_secret fuel fd output size : kept F (read_secret fuel fd output size).
Proof. revert output size. induction fuel; intros; cbn [read_secret]; keep. Qed.
Lemma kept_read_extra fuel fd : kept F (read_extra fuel fd).
Proof. induction fuel; cbn [read_extra]; keep. Qed.
End retrieving.

Section secret.
Context `{Session} `{Desktop}.

(** The buffer that is passed to the portal, and the handle of the request. *)
Definition asked (fd : Z) (uuid : text) (T : list event) : Prop :=
  Did Memfd (inr fd) ∈ T ∧ Did Uuid uuid ∈ T.

#[export] Instance lasting_asked fd uuid : Lasting (asked fd uuid).
Proof. intros e T _ [? ?]. split; by right. Qed.

Lemma asked_grows fd uuid G : (∀ e T, G T → G (e :: T)) →
  ∀ e T, asked fd uuid T ∧ G T → asked fd uuid (e :: T) ∧ G (e :: T).
Proof. intros HG e T ([? ?] & ?). split; [split; by right|by apply HG]. Qed.

Lemma token_grows token e T : known_token token T → known_token token (e :: T).
Proof.
  destruct token; simpl; [|done]. intros (signals & code & results & ? & ?).
  exists signals, code, results. split; [by right|done].
Qed.

Lemma triple_received fuel fd uuid path r output : request_path (handle_token uuid) = Some path →
  triple (within (λ T, asked fd uuid T ∧ known_token r.(token) T))
    (receive_secret fuel fd path r output) (λ _, within (asked fd uuid)).
Proof.
  intros Hp. set (G := λ T, asked fd uuid T ∧ known_token r.(token) T).
  pose proof (asked_grows fd uuid _ (token_grows r.(token))) as HG. fold G in HG.
  assert (Lasting G) by (intros e T _; apply HG).
  assert (∀ A (x : A), triple (within G) (mret x) (λ _, within (asked fd uuid))) as Hret
    by (intros; apply triple_ret; intros T (? & ? & ?); by split).
  unfold receive_secret. destruct (received r); cbn [negb].
  2:{ eapply triple_bind; [|intros u; apply Hret]. apply (kept_perform G); [done|].
      intros a T (_ & [_ Hu] & _). by eapply asks_cancel. }
  destruct (response r =? 0); cbn [negb]; [|apply Hret].
  eapply triple_bind; [by apply (kept_perform G)|intros [e|u]]; [apply Hret|].
  eapply triple_bind; [apply (kept_read_secret G HG)|intros [[] out]; cbn [negb]]; [|apply Hret].
  eapply triple_bind; [apply (kept_read_extra G HG)|intros [|]; cbn [negb]]; [|apply Hret].
  eapply triple_bind; [apply (triple_save (asked fd uuid))|intros u'; by apply triple_ret].
Qed.

Lemma triple_ask fuel fd uuid path output : request_path (handle_token uuid) = Some path →
  kept (asked fd uuid) (ask_portal fuel fd (handle_token uuid) path output).
Proof.
  intros Hp. unfold ask_portal. eapply triple_bind; [apply (triple_load (asked fd uuid))|].
  intros saved. set (G := λ T, asked fd uuid T ∧ known_saved saved T).
  assert (∀ A (x : A), triple (within G) (mret x) (λ _, within (asked fd uuid))) as Hret
    by (intros; apply triple_ret; intros T (? & ? & ?); by split).
  eapply triple_bind; [by apply (kept_perform G)|intros [e|]]; [apply Hret|].
  eapply triple_bind; [|intros reply].
  { apply (kept_perform G); [done|]. intros a T (_ & [? ?] & ?). by apply asks_secret. }
  repeat (case_match; try apply Hret).
  eapply triple_bind; [by apply (kept_perform G)|intros time].
  apply (triple_bind _ _ _ (λ r T, within (λ T, asked fd uuid T ∧ known_token r.(token) T) T));
    [|intros r; by apply triple_received].
  eapply triple_conseq; [| |apply (triple_wait_token (asked fd uuid))].
  - intros T (HT & Ha & _). by split.
  - done.
Qed.

Lemma kept_retrieve fuel output : kept (λ _, True) (retrieve_portal_secret fuel output).
Proof.
  unfold retrieve_portal_secret. apply (kept_answer (λ _, True)); [done..|intros [e|fd]].
  { apply triple_ret. by intros T []. }
  apply (triple_bind _ _ _ (λ uuid, within (asked fd uuid))).
  { apply triple_perform. intros uuid T (HT & _ & Hm). split; [by split|]. split; [by right|left]. }
  intros uuid. fold (handle_token uuid). cbv zeta.
  apply (triple_conseq _ (within (asked fd uuid)) _ (λ _, within (asked fd uuid)));
    [done|by intros ? T []|].
  apply kept_bind; [|intros [success out]; keep].
  destruct (request_path (handle_token uuid)) as [path|] eqn:Hp; [|keep].
  assert (kept (asked fd uuid) (perform (Subscribe (Some path)))).
  { apply (kept_perform (asked fd uuid)); [done|]. intros a T [_ [_ Hu]].
    exists uuid. by rewrite Hp. }
  apply kept_bind; [done|intros u]. apply kept_bind; [by apply triple_ask|intros r]. keep.
Qed.
End secret.

(** ** Wallets, providers and backups *)

Section providers.
Context `{Session} `{Desktop} (F : list event → Prop) `{!Lasting F}.

Lemma kept_wallet kf6 : kept F (wallet_open_state kf6).
Proof.
  unfold wallet_open_state. destruct kf6; [|keep].
  apply (kept_answer F); [done|intros; apply asks_open|intros reply].
  apply kept_weaken. fold open_wallet. set (G := λ T, F T ∧ _).
  assert (Lasting G) by (unfold G; apply _).
  assert (∀ h, reply = inr [VInt32 h] → kept G (perform (Call (wallet_call true (str "close")
    [VInt32 h; VBoolean true; VString (str "spaces-secret-helper")])))).
  { intros h ->. apply (kept_perform G); [done|]. intros a T (_ & _ & Hin). by apply asks_close. }
  keep.
Qed.
Hint Resolve kept_wallet : kept.

Lemma kept_proxy fuel : kept F (ensure_kf6_proxy fuel).
Proof.
  unfold ensure_kf6_proxy, spawn_plain.
  assert (kwalletd6 ∈ activation_names) by (unfold activation_names; eauto with names). keep.
Qed.
Lemma kept_kill_proxy fuel kf6 child : kept F (kill_proxy fuel kf6 child).
Proof.
  unfold kill_proxy.
  assert (kwalletd6 ∈ activation_names) by (unfold activation_names; eauto with names). keep.
Qed.
Hint Resolve kept_proxy kept_kill_proxy : kept.

Lemma kept_present sources : (∀ s, s ∈ sources → names s) → kept F (find_present sources).
Proof.
  induction sources as [|s sources IH]; intros Hs; cbn [find_present]; [apply kept_ret|].
  assert (names s) by (apply Hs; left). assert (kept F (find_present sources))
    by (apply IH; intros x Hx; apply Hs; by right). unfold nofollow_stat. keep.
Qed.

Lemma kept_available destinations : (∀ d, d ∈ destinations → names d) →
  kept F (all_available destinations).
Proof.
  induction destinations as [|d ds IH]; intros Hd; cbn [all_available]; [apply kept_ret|].
  assert (names d) by (apply Hd; left). assert (kept F (all_available ds))
    by (apply IH; intros x Hx; apply Hd; by right). unfold nofollow_stat. keep.
Qed.

Lemma triple_number fuel number sources :
  (∀ s, s ∈ sources → s ∈ wallet_sources user_data_dir) → 1 ≤ number →
  triple (within F) (find_number fuel number sources)
    (λ r T, within F T ∧ match r with Some n => 1 ≤ n < UINT_MAX | None => True end).
Proof.
  intros Hs. revert number. induction fuel as [|fuel IH]; intros number Hn; [apply triple_out_of_fuel|].
  cbn [find_number]. destruct (Z.leb_spec UINT_MAX number); [by apply triple_ret|].
  eapply triple_bind; [apply kept_available|intros []; [by apply triple_ret; auto|apply IH; lia]].
  intros d (s & -> & Hin)%list_elem_of_fmap. apply names_backup; [by apply Hs|lia].
Qed.

Lemma kept_rename a b : names a → names b → kept F (rename_noreplace a b).
Proof. intros Ha Hb. unfold rename_noreplace. keep. Qed.

Definition named_files (l : list (text * text)) : Prop :=
  Forall (λ p, names p.1 ∧ names p.2) l.

Lemma triple_move files moved : named_files files → named_files moved →
  triple (within F) (move_present files moved) (λ r T, within F T ∧ named_files r.2).
Proof.
  intros Hf. revert moved. induction Hf as [|[a b] files [Ha Hb] Hf IH]; intros moved Hm;
    cbn [move_present]; [by apply triple_ret|].
  eapply triple_bind; [by apply kept_rename|intros [e|u]]; [by apply triple_ret|].
  apply IH. by constructor.
Qed.

Lemma kept_rollback l : named_files l → kept F (rollback l).
Proof. induction 1 as [|[a b] l [Ha Hb] _ IH]; cbn [rollback]; simpl in *; keep. Qed.

Lemma present_named present number : 1 ≤ number < UINT_MAX →
  named_files (present_files (wallet_sources user_data_dir) present number).
Proof.
  intros Hn. unfold present_files, named_files. apply Forall_fmap, Forall_forall.
  intros s ([s' p] & Hin & Hp)%list_elem_of_omap. destruct p; simplify_eq.
  apply elem_of_zip_l in Hin. simpl. split; by constructor.
Qed.

Lemma triple_backup fuel : triple (within F) (spaces_backup_failed_wallet fuel user_data_dir)
  (λ r T, within F T ∧ match r with Some n => 1 ≤ n < UINT_MAX | None => True end).
Proof.
  unfold spaces_backup_failed_wallet. case_decide; [by apply triple_ret|].
  eapply triple_bind; [apply kept_present; intros; by constructor|].
  intros [[|[] present]|]; [by apply triple_ret| |by apply triple_ret..].
  eapply triple_bind; [by apply triple_number|intros [number|]; [|apply triple_ret; by intros T []]].
  apply triple_given. intros Hn. apply (triple_bind _ _ _ (λ r T, within F T ∧ named_files r.2)).
  { apply triple_move; [by apply present_named|constructor]. }
  intros [[] moved]; [apply triple_ret; by intros T []|].
  apply triple_given. intros Hm. eapply triple_bind; [by apply kept_rollback|].
  intros u. by apply triple_ret.
Qed.

Lemma kept_backup fuel : kept F (backup_wallet fuel).
Proof.
  unfold backup_wallet, kept. eapply triple_bind; [apply triple_backup|].
  intros [number|]; apply triple_given; intros Hn.
  - assert (kept F (say (str "backed up the locked wallet as spaces-managed-v1.kwl." ++ decimal number))).
    { apply kept_say; [done|]. intros T _. by constructor. }
    change (kept F (say (str "backed up the locked wallet as spaces-managed-v1.kwl." ++ decimal number)
      ≫= λ _, mret true)). keep.
  - change (kept F (say (str "could not back up the locked wallet") ≫= λ _, mret false)). keep.
Qed.
Hint Resolve kept_backup : kept.

Lemma storage_named : storage_name ∈ activation_names.
Proof. unfold activation_names. eauto with names. Qed.
Hint Resolve storage_named : names kept.

Lemma kept_check fuel kf6 marker : names marker → kept F (check_provider fuel kf6 marker).
Proof. intros Hm. unfold check_provider. keep. Qed.
Lemma kept_marker_exists marker : names marker → kept F (marker_exists marker).
Proof. intros Hm. unfold marker_exists. keep. Qed.
Lemma kept_create_marker marker : names marker → kept F (create_marker marker).
Proof. intros Hm. unfold create_marker. keep. Qed.
End providers.

#[export] Hint Resolve kept_wallet kept_proxy kept_kill_proxy kept_backup kept_check
  kept_marker_exists kept_create_marker storage_named : kept.
#[export] Hint Resolve storage_named : names.

(** ** The key *)

Section feeding.
Context `{Session} `{Desktop}.

Lemma kept_write F `{!Lasting F} fuel fd data :
  (∀ part a T, part `suffix_of` data → F T → released (Did (Write fd part) a) T) →
  kept F (write_all fuel fd data).
Proof.
  revert data. induction fuel as [|fuel IH]; intros data Hd; cbn [write_all]; [apply kept_out|].
  case_decide; [apply kept_ret|].
  assert (kept F (perform (Write fd data))).
  { apply (kept_perform F); [done|]. intros a T [_ HT]. by apply Hd. }
  apply kept_bind; [done|intros [e|[|n]]]; [keep..|]. apply IH. intros part a T Hp.
  apply Hd. etrans; [exact Hp|]. eexists. symmetry. apply take_drop.
Qed.

Lemma kept_line F `{!Lasting F} fuel fd line :
  line ∈ environ ∨ line = ["010"%char] ∨ line = headless_line → kept F (write_all fuel fd line).
Proof. intros Hl. apply (kept_write F). intros part a T Hp _. left. by exists line. Qed.

Lemma kept_entries F `{!Lasting F} fuel fd entries : (∀ e, e ∈ entries → e ∈ environ) →
  kept F (send_entries fuel fd entries).
Proof.
  induction entries as [|e entries IH]; intros He; cbn [send_entries]; [apply kept_ret|].
  assert (kept F (send_entries fuel fd entries)) by (apply IH; intros x Hx; apply He; by right).
  assert (kept F (write_all fuel fd e)) by (apply (kept_line F); left; apply He; left).
  pose proof (kept_line F fuel fd ["010"%char] ltac:(auto)). keep.
Qed.

Lemma kept_environment F `{!Lasting F} fuel path : names path → kept F (send_environment fuel path).
Proof.
  intros Hp. pose proof (λ fd, kept_entries F fuel fd environ ltac:(done)).
  pose proof (λ fd, kept_line F fuel fd headless_line ltac:(auto)).
  unfold send_environment. keep.
Qed.

Context (b key : text) (Hkey : spaces_derive_kwallet_key b = Some key).

Lemma kept_feed fuel kf6 path key_read key_write listener : names path →
  kept (λ T, (bytes_read T = b ∧ Did Pipe (inr (key_read, key_write)) ∈ T)
      ∧ Did Socket (inr listener) ∈ T)
    (feed_provider fuel (storage_program kf6) key path key_read key_write listener).
Proof.
  intros Hp. set (F := λ T, _ ∧ Did Socket _ ∈ T). assert (Lasting F) by (unfold F; apply _).
  assert (kept F (perform (Fork (storage_child (storage_program kf6) key_read key_write listener)))).
  { apply (kept_perform F); [done|]. intros a T (_ & [_ ?] & ?). by constructor. }
  assert (kept F (write_all fuel key_write key)).
  { apply (kept_write F). intros part a T Hs [[Hb Hpipe] _]. right. exists key_read, key.
    by rewrite Hb. }
  pose proof (kept_environment F fuel path Hp). unfold feed_provider. keep.
Qed.

Lemma kept_spawn fuel kf6 : kept (λ T, bytes_read T = b)
  (spawn_storage_provider fuel (storage_program kf6) key).
Proof.
  unfold spawn_storage_provider. destruct runtime_dir as [[|c runtime]|] eqn:Hr; [keep| |keep].
  assert (names (provider_socket (c :: runtime))) by by constructor.
  apply (kept_answer (λ T, bytes_read T = b)); [done..|intros made]. apply kept_weaken.
  destruct made as [e|[key_read key_write]]; [keep|]. cbv zeta.
  set (F := λ T, _ ∧ Did Pipe _ ∈ T). assert (Lasting F) by (unfold F; apply _).
  apply kept_bind; [|intros [child open]; keep].
  destruct (SUN_PATH <=? _)%nat; [keep|].
  apply (kept_answer F); [done..|intros made]. apply kept_weaken.
  destruct made as [e|listener]; [keep|].
  set (G := λ T, F T ∧ Did Socket _ ∈ T). assert (Lasting G) by (unfold G; apply _).
  assert (kept G (feed_provider fuel (storage_program kf6) key (provider_socket (c :: runtime))
    key_read key_write listener)) by by apply kept_feed.
  keep.
Qed.
Hint Resolve kept_spawn : kept.

Lemma kept_loop attempts fuel kf6 backed marker : names marker →
  kept (λ T, bytes_read T = b) (start_loop attempts fuel kf6 backed key marker).
Proof.
  intros Hm. assert (∀ closed : bool, kept (λ T, bytes_read T = b) (say
    (if closed then str "recreated KWallet did not open" else str "could not query KWallet")))
    by (intros []; keep).
  revert backed. induction attempts; intros backed; cbn [start_loop]; keep.
Qed.
End feeding.

(** ** The whole program *)

Section whole.
Context `{Session} `{Desktop}.

Abbreviation all_released m := (triple (always released) m (λ _, always released)).

Lemma kept_always {A} (m : M A) : kept (λ _, True) m → all_released m.
Proof. intros Hm. eapply triple_conseq; [| |exact Hm]; [done|by intros ? T []]. Qed.

Lemma released_start fuel kf6 backed marker secret key : names marker →
  length secret = SECRET_SIZE →
  triple (λ T, always released T ∧ unread T) (start_provider fuel kf6 backed marker secret key)
    (λ _, always released).
Proof.
  intros Hm Hl. unfold start_provider.
  apply (triple_bind _ _ _ (λ r T, always released T ∧ (r.1 = true → bytes_read T = r.2))).
  { intros w r w' [HT Hb] E. split.
    - by destruct (kept_retrieve fuel secret w r w' (conj HT I) E).
    - intros Hr. destruct (triple_secret fuel secret Hl w r w' Hb E) as (_ & _ & Hok).
      by destruct (Hok Hr) as [fd []]. }
  intros [ok secret']. cbn [fst snd].
  destruct ok; [destruct (spaces_derive_kwallet_key secret') as [key'|] eqn:Hkey|].
  2,3: apply (triple_conseq _ (always released) _ (λ _, always released));
    [by intros T []|done|apply kept_always; keep].
  apply (triple_conseq _ (within (λ T, bytes_read T = secret')) _
    (λ _, within (λ T, bytes_read T = secret')));
    [by intros T [HT Hb]; split; auto|by intros ? T []|].
  pose proof (kept_loop secret' key' Hkey). set (F := λ T, bytes_read T = secret').
  assert (Lasting F) by (unfold F; apply _).
  change (kept F (start_loop fuel fuel kf6 backed key' marker ≫= λ started,
    match started with
    | None => mret (false, (secure_clear secret', key'))
    | Some child => create_marker marker ≫= λ marked, if negb marked
        then kill_provider fuel storage_name child ≫= λ _, mret (false, (secure_clear secret', key'))
        else mret (true, (secure_clear secret', secure_clear key'))
    end)). keep.
Qed.

Abbreviation untouched := (λ T, bytes_read T = []).

Lemma before_start {A B} (m : M A) (f : A → M B) : kept untouched m →
  (∀ x, triple (within untouched) (f x) (λ _, always released)) →
  triple (within untouched) (m ≫= f) (λ _, always released).
Proof. intros Hm Hf. by eapply triple_bind. Qed.

Lemma released_ret {A} (x : A) : triple (within untouched) (mret x) (λ _, always released).
Proof. apply triple_ret. by intros T []. Qed.

Lemma released_activate fuel name marker : names marker → name ∈ activation_names →
  triple (within untouched) (activate_provider fuel name marker) (λ _, always released).
Proof.
  intros Hm Hn. unfold activate_provider, activate_steps.
  assert (∀ kf6, names (storage_program kf6)) by (intros []; eauto with names).
  eapply (triple_bind _ _ _ (λ _, always released)); [|intros [r [s k]]; by apply triple_ret].
  do 3 (apply before_start; [keep|intros ?]).
  destruct (negb _); [apply before_start; [keep|intros ?; apply released_ret]|].
  apply before_start; [keep|intros ?].
  destruct (negb _); [apply before_start; [keep|intros ?; apply released_ret]|].
  apply before_start; [keep|intros [still_owned|]]; [|apply released_ret].
  apply (triple_bind _ _ _ (λ _, always released)).
  { destruct still_owned; [apply released_ret|]. apply released_start; [done|apply length_replicate]. }
  intros [ready secrets]. apply kept_always.
  assert (kept (λ _, True) (say (str "provider did not claim " ++ name))).
  { apply kept_say; [apply _|]. intros T _. by constructor. }
  keep.
Qed.

Lemma released_main fuel argv :
  triple (within untouched) (main fuel argv) (λ _, always released).
Proof.
  unfold main. cbv zeta.
  lazymatch goal with |- triple _ (match ?x with Some _ => _ | None => _ end) _ =>
    destruct x as [name|] end; [|apply before_start; [keep|intros ?; apply released_ret]].
  case_bool_decide as Hname; cbn [negb];
    [|apply before_start; [keep|intros ?; apply released_ret]].
  destruct runtime_dir as [[|c runtime]|] eqn:Hr;
    [apply before_start; [keep|intros ?; apply released_ret]| |
     apply before_start; [keep|intros ?; apply released_ret]].
  assert (∀ file, file ∈ [str "spaces-secret-helper.lock"; str "spaces-secret-helper.ready"] →
    names (g_build_filename [c :: runtime; file])) as Hnames by (intros; by apply names_runtime).
  pose proof (Hnames (str "spaces-secret-helper.lock") ltac:(left)).
  apply before_start; [keep|intros ?]. apply before_start; [keep|intros [e|lock]]; [apply released_ret|].
  apply before_start; [keep|intros [e|u]].
  { apply before_start; [keep|intros ?]. apply released_ret. }
  apply (triple_bind _ _ _ (λ a, within (λ T, bytes_read T = [] ∧ Did GetBus a ∈ T))).
  { apply triple_perform. intros a T [HT Hu]. split; [by split|]. split; [by apply (lasting_bytes [])|left]. }
  intros [message|u'].
  - set (F := λ T, bytes_read T = [] ∧ _). assert (Lasting F) by (unfold F; apply _).
    assert (kept F (say (default (str "session bus is unavailable") message))).
    { apply kept_say; [done|]. intros T (_ & _ & He). destruct message as [m|]; [by apply says_error|].
      simpl. eauto with names. }
    eapply triple_bind; [done|intros ?]. eapply triple_bind; [by apply (kept_perform F)|intros ?].
    apply triple_ret. by intros T [].
  - eapply triple_bind; [|intros [result secrets]].
    + eapply triple_conseq; [| |apply released_activate]; [by intros T (? & ? & _)|done| |done].
      apply Hnames. right. left.
    + apply kept_always. keep.
Qed.
End whole.

(** C34: The secret and the key stay in the helper, but for the provider's pipe.
    Whatever the program, run with any arguments, hands to a descriptor, a file,
    a process, a bus, a directory or its standard error is one of these: to a
    descriptor, a part of the environment it forwards, or a part of the key that
    is derived from the bytes read before, into a pipe it made; to a file, the
    token of a response of the portal, at the token's path; to a process, the
    program's name and the numbers of two of its descriptors; to a bus, the
    fixed calls, with the token read from its file; and fixed messages and
    names of files, which at most count backups. *)
Theorem key_only_to_provider `{Session} `{Desktop} fuel argv h status w' later e earlier :
  main fuel argv (World h []) = Returned status w' →
  w'.(trace) = later ++ e :: earlier → released e earlier.
Proof.
  intros E Ht. pose proof (released_main fuel argv (World h []) _ _ (conj I eq_refl) E) as HT.
  rewrite Ht in HT. by apply (always_split _ _ _ _ HT).
Qed.
