(* ===== verification/SecretExamples.v ===== *)
(** * The secret helper runs

    A small session on which the helper can be run: KWallet is closed for the
    first provider, so its wallet is moved aside, and open for the second.
    Where the theorems on the helper hold, and an input on which the helper
    does less than it means to. *)

From S2P Require Import Prelude Sample Glib Session SecretHelper SecretEnds WalletBackup.
From S2P Require Import SecretTrace SecretGuard SecretKey.

Record around := Around {
  clock : Z;
  pending : nat;                 (** signals that will interrupt *)
  forks : nat;
  alive : bool;                  (** someone owns the names *)
  position : nat;                (** in the secret's file *)
  entries : gmap text Z;         (** names and inodes *)
}.

Definition secret_file : text := replicate 64 "s"%char.

Definition set_entries (h : around) (e : gmap text Z) : around :=
  Around h.(clock) h.(pending) h.(forks) h.(alive) h.(position) e.
Definition set_alive (h : around) (b : bool) : around :=
  Around h.(clock) h.(pending) h.(forks) b h.(position) h.(entries).

Definition own_file : meta := Meta 0x8180 1000.

Definition move_entry (h : around) (a b : text) : (Z + unit) * around :=
  match h.(entries) !! a with
  | Some n => (inr tt, set_entries h (<[b := n]> (delete a h.(entries))))
  | None => (inl ENOENT, h)
  end.

Definition answer (opens : nat) (c : bus_call) (h : around) : gerror + list variant :=
  if text_eqb c.(method) (str "NameHasOwner") then inr [VBoolean h.(alive)]
  else if text_eqb c.(method) (str "GetConnectionUnixProcessID") then
    if h.(alive) then inr [VUint32 (99 + Z.of_nat h.(forks))] else inl (Reported (str "no owner"))
  else if text_eqb c.(method) (str "isOpen") then inr [VBoolean (opens <=? h.(forks))%nat]
  else if text_eqb c.(method) (str "OpenFile") then inr [VUint32 0]
  else inr [VObject (str "/org/freedesktop/portal/desktop/request/1_5/a_b")].

(** The wallet is open from the given number of providers on. *)
Definition sample_step (opens : nat) {A} (r : request A) (h : around) : A * around :=
  match r in request A return A * around with
  | Time => (h.(clock), h)
  | Usleep us => (tt, Around (h.(clock) + Z.max 0 us) h.(pending) h.(forks) h.(alive) h.(position) h.(entries))
  | Memfd => (inr 7, h)
  | Close _ => (inr tt, h)
  | Ftruncate _ =>
      match h.(pending) with
      | O => (inr tt, h)
      | S n => (inl EINTR, Around h.(clock) n h.(forks) h.(alive) h.(position) h.(entries))
      end
  | Lseek _ => (inr tt, h)
  | Read _ size =>
      let data := take size (drop h.(position) secret_file) in
      (inr data, Around h.(clock) h.(pending) h.(forks) h.(alive)
        (h.(position) + length data) h.(entries))
  | Write _ data => (inr (Nat.min 40 (length data)), h)
  | Open path flags =>
      if decide (Z.land flags O_CREAT ≠ 0) then (inr 9, set_entries h (<[path := 5]> h.(entries)))
      else if decide (is_Some (h.(entries) !! path)) then (inr 9, h) else (inl ENOENT, h)
  | Fstat _ => (inr own_file, h)
  | Lstat path =>
      (if decide (is_Some (h.(entries) !! path)) then inr own_file else inl ENOENT, h)
  | Renameat2 a b =>
      if decide (is_Some (h.(entries) !! b)) then (inl 17, h) else move_entry h a b
  | Link a b => (inl 1, h)
  | Unlink path =>
      if decide (is_Some (h.(entries) !! path)) then (inr tt, set_entries h (delete path h.(entries)))
      else (inl ENOENT, h)
  | Rename a b => if decide (a = b) then (inl 22, h) else move_entry h a b
  | Pipe => (inr (10, 11), h)
  | Socket => (inr 12, h)
  | Connect _ _ => (inr tt, h)
  | Bind _ _ => (inr tt, h)
  | Listen _ => (inr tt, h)
  | Fork _ => (100 + Z.of_nat h.(forks),
      Around h.(clock) h.(pending) (S h.(forks)) true h.(position) h.(entries))
  | Kill _ _ => (tt, set_alive h false)
  | Waitpid pid nohang => (inr (if nohang then 0 else pid), h)
  | Flock _ => (inr tt, h)
  | Executable path => (text_eqb path (str "/usr/bin/kwalletd5"), h)
  | GetContents _ => (None, h)
  | MkdirParents _ => (true, h)
  | SetContents _ _ => (true, h)
  | Chmod _ _ => (tt, h)
  | Umask _ => (18, h)
  | Uuid => (str "a-b", h)
  | GetBus => (inr tt, h)
  | Subscribe _ => (tt, h)
  | Unsubscribe => (tt, h)
  | FdListAppend _ => (None, h)
  | Call c => (answer opens c h, h)
  | Notify _ => (tt, h)
  | Dispatch => ([(0, [(str "token", VString (str "t1"))])], h)
  | RunLoop => ([(str "/org/freedesktop/portal/desktop/request/1_5/a_b", 0, [])], h)
  | OpenBus _ => (inr tt, h)
  | CurrentDir => (str "/home/u", h)
  | Realpath path =>
      (if bool_decide (head path = Some "/"%char) &&
          negb (existsb (text_eqb (str "..")) (pieces "/"%char path))
       then inr path else inl ENOENT, h)
  | Printerr _ => (tt, h)
  | PrintError _ => (tt, h)
  | IgnoreSigpipe => (tt, h)
  end.

#[export] Program Instance sample_session (opens : nat) : Session := {|
  host := around;
  step A := @sample_step opens A;
  getuid := 1000;
  getpid := 50;
  environ := [str "PATH=/bin"; str "QT_QPA_PLATFORM=wayland"];
  getenv name :=
    if text_eqb name (str "XDG_RUNTIME_DIR") then Some (str "/run/user/1000")
    else if text_eqb name (str "SPACES_INTEGRATION_BROKER") then Some (str ":1.7") else None;
  home_dir := Some (str "/home/u");
  user_data_dir := str "/home/u/.local/share";
  unique_name := Some (str ":1.5");
|}.
Next Obligation.
  intros opens fd size h data E. simpl in E. injection E as <-. rewrite length_take. lia.
Qed.
Next Obligation.
  intros opens fd data h n E. cbn [sample_step fst] in E.
  assert (Nat.min 40 (length data) = n) as <- by congruence. apply Nat.le_min_r.
Qed.

Section laws.
Context (opens : nat).

Lemma move_entry_clock h a b : clock (move_entry h a b).2 = clock h ∧ pending (move_entry h a b).2 = pending h.
Proof. unfold move_entry. by destruct (_ !! _). Qed.

#[export] Program Instance sample_steady : Steady (H := sample_session opens) :=
  {| elapsed := clock; signals := pending |}.
Next Obligation.
  intros A r h. destruct r; simpl; repeat case_decide; simpl; try lia;
    try (rewrite (proj1 (move_entry_clock _ _ _)); lia); try (destruct (pending h); simpl; lia).
Qed.
Next Obligation. intros h. simpl. lia. Qed.
Next Obligation. intros us h. simpl. lia. Qed.
Next Obligation.
  intros A r h. destruct r; simpl; repeat case_decide; simpl; try lia;
    try (rewrite (proj2 (move_entry_clock _ _ _)); lia); destruct (pending h) eqn:?; simpl; lia.
Qed.
Next Obligation.
  intros A r h. destruct r; simpl; try done; intros Hi.
  destruct (pending h) eqn:?; [done|]. simpl. lia.
Qed.

Lemma move_entry_done h a b u : (move_entry h a b).1 = inr u → is_Some (entries h !! a) ∧
  ∀ q, a ≠ b → entries (move_entry h a b).2 !! q =
    if decide (q = b) then entries h !! a else if decide (q = a) then None else entries h !! q.
Proof.
  unfold move_entry. destruct (entries h !! a) as [n|] eqn:E; [|done]. intros _.
  split; [by eexists|]. intros q Hne. simpl.
  case_decide as Hb; [subst; by rewrite lookup_insert_eq|]. rewrite lookup_insert_ne by done.
  case_decide as Ha; [subst; by rewrite lookup_delete_eq|]. by rewrite lookup_delete_ne.
Qed.

Lemma move_entry_failed h a b e : (move_entry h a b).1 = inl e → (move_entry h a b).2 = h.
Proof. unfold move_entry. by destruct (entries h !! a). Qed.

#[export] Program Instance sample_files : WalletFiles (H := sample_session opens) :=
  {| node := Z; entry h p := h.(entries) !! p; inside _ := True |}.
Next Obligation. intros p h m _. simpl. by case_decide. Qed.
Next Obligation.
  intros p h _. simpl. case_decide as Hs; [done|]. intros _. by apply eq_None_not_Some.
Qed.
Next Obligation. done. Qed.
Next Obligation.
  intros a b h e q _. simpl. case_decide; [done|]. by intros ->%move_entry_failed.
Qed.
Next Obligation.
  intros a b h u _ _. simpl. case_decide as Hb; [done|]. intros [Ha Hq]%move_entry_done.
  split; [done|]. split; [by apply eq_None_not_Some|]. intros q _. apply Hq. by intros ->.
Qed.
Next Obligation. done. Qed.
Next Obligation. done. Qed.
Next Obligation. intros p h e q _. simpl. by case_decide. Qed.
Next Obligation.
  intros p h u q _ _. simpl. case_decide; [|done]. intros _. simpl.
  case_decide as Hq; [subst; apply lookup_delete_eq|by apply lookup_delete_ne].
Qed.
Next Obligation.
  intros a b h e q _. simpl. case_decide; [done|]. by intros ->%move_entry_failed.
Qed.
Next Obligation.
  intros a b h u q _ _ _ _. simpl. case_decide; [done|]. intros [_ Hq]%move_entry_done. by apply Hq.
Qed.
End laws.

(** ** Runs *)

Definition wallet_file : text := str "/home/u/.local/share/kwalletd/spaces-managed-v1.kwl".

Definition at_start : around := Around 0 1 0 false 0 {[wallet_file := 3]}.

Definition marker : text := str "/run/user/1000/spaces-secret-helper.ready".

Definition first_run : ending around event (Z * (text * text)) :=
  activate_provider (H := sample_session 2) 200 storage_name marker (World at_start []).

Example first_run_status : match first_run with Returned (0, _) w =>
    bool_decide (entries w.(now) !! wallet_file = None) &&
    bool_decide (entries w.(now) !! (wallet_file ++ str ".1") = Some 3) &&
    bool_decide (is_Some (entries w.(now) !! marker))
  | _ => false end = true.
Proof. by vm_compute. Qed.

(** ** Witnesses *)

(** Fuel for one signal and an environment of any sample session. *)
Definition great_fuel : nat := Z.to_nat (2 ^ 34).

Definition command_line : list text := [str "helper"; str "--activation-name"; storage_name].

Lemma helper_terminates_witness :
  ∃ status w', main (H := sample_session 2) great_fuel command_line (World at_start []) = Returned status w'.
Proof.
  apply (helper_terminates (H := sample_session 2) great_fuel command_line at_start).
  unfold enough, great_fuel. rewrite Z2Nat.id by lia.
  change (Z.of_nat (1 + longest (H := sample_session 2)) + 2 ^ 33 ≤ 2 ^ 34).
  assert (longest (H := sample_session 2) = 23%nat) as -> by (by vm_compute). lia.
Defined.

Definition event_at (k : nat) (T : list event) : event :=
  default (Did IgnoreSigpipe tt) (T !! k).

(** An event of a trace, with those after and before it. *)
Lemma trace_at (T : list event) k : (k <? length T)%nat = true →
  T = take k T ++ event_at k T :: drop (S k) T.
Proof.
  intros Hk%Nat.ltb_lt. destruct (lookup_lt_is_Some_2 T k Hk) as [e He].
  unfold event_at. rewrite He. symmetry. by apply take_drop_middle.
Qed.

Definition backup_run : ending around event (option Z) :=
  spaces_backup_failed_wallet (H := sample_session 2) 5 (str "/home/u/.local/share") (World at_start []).

Lemma backup_loses_nothing_witness :
  backed_up (H := sample_session 2) (wallet_sources (str "/home/u/.local/share"))
    (λ p, at_start.(entries) !! p) (Some 1) (world_after at_start backup_run).
Proof.
  apply (backup_loses_nothing (H := sample_session 2) (H0 := sample_files 2) 5
    (str "/home/u/.local/share") at_start (Some 1)).
  - done.
  - apply returned_world. by vm_compute.
Defined.

Definition main_run : ending around event Z :=
  main (H := sample_session 2) 200 command_line (World at_start []).
Definition main_trace : list event := (world_after at_start main_run).(trace).

Lemma wallet_moved_only_when_closed_witness :
  last_state (drop 28 main_trace) = Some WALLET_CLOSED ∧
  unmoved (before_answer (drop 28 main_trace)).
Proof.
  apply (wallet_moved_only_when_closed (H := sample_session 2) 200 command_line at_start 0
    (world_after at_start main_run) (take 27 main_trace) (event_at 27 main_trace)).
  - apply returned_world. by vm_compute.
  - apply trace_at. by vm_compute.
  - by vm_compute.
Defined.

Definition zeros : Z * (text * text) := (0, (replicate 64 zero, replicate 56 zero)).
Definition first_trace : list event := (world_after at_start first_run).(trace).

Lemma unmanaged_left_alone_witness :
  kills (event_at 37 first_trace) ∧ allowed (H := sample_session 2) marker (drop 38 first_trace).
Proof.
  split; [by vm_compute|].
  apply (unmanaged_left_alone (H := sample_session 2) 200 storage_name marker at_start zeros
    (world_after at_start first_run) (take 37 first_trace) (event_at 37 first_trace)).
  - apply returned_world. by vm_compute.
  - apply trace_at. by vm_compute.
  - by vm_compute.
Defined.

Definition failed_run : ending around event (bool * (text * text)) :=
  start_provider (H := sample_session 5) 200 false false marker (replicate 64 zero)
    (replicate 56 zero) (World at_start []).

Definition secrets_of (o : ending around event (bool * (text * text))) : text * text :=
  match o with Returned (_, secrets) _ => secrets | _ => ([], []) end.

Lemma sample_fork c h : (step (Session := sample_session 5) (Fork c) h).1 < 0 ∨
  proper (H := sample_session 5) (step (Session := sample_session 5) (Fork c) h).1.
Proof. right. unfold proper. simpl. split; lia. Qed.

Lemma failed_start_leaves_none_witness :
  running (world_after at_start failed_run).(trace) = [] ∨
  ∃ flags e, Did (Open marker flags) (inl e) ∈ (world_after at_start failed_run).(trace).
Proof.
  apply (failed_start_leaves_none (H := sample_session 5) sample_fork
    200 false false marker (replicate 64 zero) (replicate 56 zero) at_start (secrets_of failed_run)).
  apply returned_world. by vm_compute.
Defined.

Definition secret_run : ending around event (bool * text) :=
  retrieve_portal_secret (H := sample_session 2) 200 (replicate 64 zero) (World at_start []).

Lemma portal_secret_exact_witness :
  ∃ fd, accepted fd secret_file (world_after at_start secret_run).(trace).
Proof.
  apply (portal_secret_exact (H := sample_session 2) 200 (replicate 64 zero) at_start true secret_file
    (world_after at_start secret_run)).
  - done.
  - apply returned_world. by vm_compute.
Defined.

(** The second write of the key. *)
Lemma key_only_to_provider_witness :
  match event_at 17 main_trace with Did (Write 11 part) _ => length part = 16%nat | _ => False end ∧
  released (H := sample_session 2) (event_at 17 main_trace) (drop 18 main_trace).
Proof.
  split; [by vm_compute|].
  apply (key_only_to_provider (H := sample_session 2) 200 command_line at_start 0
    (world_after at_start main_run) (take 17 main_trace)).
  - apply returned_world. by vm_compute.
  - apply trace_at. by vm_compute.
Defined.

Lemma activation_complete_witness : ∃ before,
  opened before ∧ marked (H := sample_session 2) marker before ∧
  first_trace =
    Did (Call (dbus_call (str "NameHasOwner") storage_name)) (inr [VBoolean true]) :: before.
Proof.
  apply (activation_complete (H := sample_session 2) 200 storage_name marker at_start 0
    (replicate 64 zero) (replicate 56 zero) (world_after at_start first_run)).
  - apply returned_world. by vm_compute.
  - done.
Defined.

(** ** A marker that outlived its provider *)

(** Another secret service owns the name, and the marker of a provider that is
    gone is still there: the helper takes the service for its own, kills it
    and moves the wallet aside. *)
Definition stale : around := Around 0 0 0 true 0 {[wallet_file := 3; marker := 5]}.

Example stale_marker_kills : match activate_provider (H := sample_session 2) 200 storage_name marker
    (World stale []) with
  | Returned _ w =>
      existsb (λ e, match e with Did (Kill pid signal) _ => (pid =? 99) && (signal =? SIGKILL)
        | _ => false end) w.(trace)
  | _ => false
  end = true.
Proof. by vm_compute. Qed.
