(* ===== verification/SpacesOpen.v ===== *)
(** * The guest's open command ([native/spaces_open.c])

    [spaces-open] hands a URI to the portal of the space, and a file or
    directory, with a descriptor of it, to the broker on the host.  A function
    that sets an error returns it beside its result. *)

From S2P Require Import Prelude Glib Session.

Definition INTEGRATION_PATH := str "/org/anatase/Spaces/Integration".
Definition INTEGRATION_INTERFACE := str "org.anatase.Spaces.Integration1".
Definition PORTAL_NAME := str "org.freedesktop.portal.Desktop".
Definition PORTAL_PATH := str "/org/freedesktop/portal/desktop".

Record Response := Pending {
  request_path : option text;
  response : Z;
  received : bool;
}.

Definition ascii_tolower (c : ascii) : ascii :=
  if (65 <=? code c) && (code c <=? 90) then char (code c + 32) else c.

(** [!g_ascii_strcasecmp(a, b)] *)
Definition same_ignoring_case (a b : text) : bool :=
  text_eqb (map ascii_tolower a) (map ascii_tolower b).

Section open.
Context `{Session} `{Desktop}.

Definition new_token : M text :=
  token ← perform Uuid;
  mret (map (λ c, if decide (c = "-"%char) then "_"%char else c) token).

Definition response_signal (r : Response) (signal : text * Z * vardict) : Response :=
  let '(path, code, _) := signal in
  if match r.(request_path) with Some p => negb (text_eqb p path) | None => false end then r
  else Pending r.(request_path) code true.

Definition host_address : text :=
  match getenv (str "SPACES_PORTAL_TEST_ADDRESS") with
  | Some address => address
  | None => str "unix:path=/run/spaces/desktop/" ++ decimal (u32 getuid) ++ str "/portal/bus"
  end.

Definition host_connection : M (gerror + unit) := perform (OpenBus host_address).

Definition uri_call (token uri : text) (activation_token : option text) : bus_call :=
  BusCall PORTAL_NAME PORTAL_PATH (str "org.freedesktop.portal.OpenURI") (str "OpenURI")
    [VString []; VString uri; VDict ((str "handle_token", VString token) ::
      match activation_token with
      | Some ((_ :: _) as t) => [(str "activation_token", VString t)]
      | _ => []
      end)]
    [] (-1).

(** A reply of another type than asked for is an error of the call. *)
Definition open_uri (uri : text) (activation_token : option text) : M (Z * option gerror) :=
  token ← new_token;
  _ ← perform (Subscribe None);
  reply ← perform (Call (uri_call token uri activation_token));
  match reply with
  | inr [VObject path] =>
      signals ← perform RunLoop;
      let pending := foldl response_signal (Pending (Some path) 0 false) signals in
      _ ← perform Unsubscribe;
      mret (if pending.(received) then (pending.(response), None) else (2, Some TIMED_OUT))
  | inl e => _ ← perform Unsubscribe; mret (2, Some e)
  | inr _ => _ ← perform Unsubscribe; mret (2, Some INVALID_ARGUMENT)
  end.

(** The two ways to open the path: the descriptor, and whether it is
    writable. *)
Definition open_either (path : text) : M (Z + Z * bool) :=
  opened ← perform (Open path (Z.lor O_RDWR O_CLOEXEC));
  match opened with
  | inr descriptor => mret (inr (descriptor, true))
  | inl _ =>
      opened ← perform (Open path (Z.lor O_RDONLY O_CLOEXEC));
      mret match opened with inr descriptor => inr (descriptor, false) | inl e => inl e end
  end.

(** The method for an object, and whether it may be claimed to be writable. *)
Definition open_method_of (force_directory : bool) (metadata : meta) : option (text * bool) :=
  if force_directory then Some (str "OpenDirectory", false)
  else if S_ISDIR metadata.(st_mode) then Some (str "OpenFile", false)
  else if S_ISREG metadata.(st_mode) then Some (str "OpenFile", true)
  else None.

(** The descriptor is the first of the list, whose handle is 0. *)
Definition integration_call (broker_name method path : text) (writable : bool)
    (activation_token : option text) (descriptor : Z) : bus_call :=
  let token := VString (default [] activation_token) in
  BusCall broker_name INTEGRATION_PATH INTEGRATION_INTERFACE method
    (if text_eqb method (str "OpenDirectory") then [VString path; VHandle 0; token]
     else [VString path; VHandle 0; VBoolean writable; token])
    [descriptor] (-1).

Definition open_path (path : text) (force_directory : bool) (activation_token : option text) :
    M (Z * option gerror) :=
  match getenv (str "SPACES_INTEGRATION_BROKER") with
  | Some ((_ :: _) as broker_name) =>
      opened ← open_either path;
      match opened with
      | inl e => mret (2, Some (FromErrno e))
      | inr (descriptor, writable) =>
          found ← perform (Fstat descriptor);
          match found with
          | inl e => _ ← perform (Close descriptor); mret (2, Some (FromErrno e))
          | inr metadata =>
              match open_method_of force_directory metadata with
              | None => _ ← perform (Close descriptor); mret (2, Some NOT_SUPPORTED)
              | Some (method, may_write) =>
                  appended ← perform (FdListAppend descriptor);
                  _ ← perform (Close descriptor);
                  match appended with
                  | Some e => mret (2, Some e)
                  | None =>
                      reply ← perform (Call (integration_call broker_name method path
                        (writable && may_write) activation_token descriptor));
                      mret match reply with
                           | inr [VUint32 response] => (response, None)
                           | inr _ => (2, Some INVALID_ARGUMENT)
                           | inl e => (2, Some e)
                           end
                  end
              end
          end
      end
  | _ => mret (2, Some NOT_CONNECTED)
  end.

(** [--folder] and [--directory], and the argument. *)
Definition arguments (argv : list text) : option (bool * text) :=
  match argv with
  | [_; option; argument] =>
      if text_eqb option (str "--folder") then Some (false, argument)
      else if text_eqb option (str "--directory") then Some (true, argument)
      else None
  | [_; argument] =>
      if text_eqb argument (str "--folder") || text_eqb argument (str "--directory") then None
      else Some (false, argument)
  | _ => None
  end.

Definition finish (outcome : Z * option gerror) : M Z :=
  match outcome with
  | (_, Some e) => _ ← perform (PrintError (Some e)); mret 1
  | (response, None) => mret (if response =? 0 then 0 else 1)
  end.

(** The branch for a path. *)
Definition open_argument (path : text) (force_directory : bool) (activation_token : option text) :
    M Z :=
  absolute ← (if g_path_is_absolute path then mret path
              else working ← perform CurrentDir; mret (g_build_filename [working; path]));
  resolved ← perform (Realpath absolute);
  match resolved with
  | inl e => finish (2, Some (FromErrno e))
  | inr canonical => open_path canonical force_directory activation_token ≫= finish
  end.

Definition main (argv : list text) : M Z :=
  _ ← perform IgnoreSigpipe;
  match arguments argv with
  | None =>
      _ ← perform (Printerr (str "Usage: spaces-open [--folder|--directory] URI-OR-PATH" ++
        ["010"%char]));
      mret 2
  | Some (force_directory, argument) =>
      let activation_token := getenv (str "XDG_ACTIVATION_TOKEN") in
      connection ← host_connection;
      match connection with
      | inl e => finish (2, Some e)
      | inr _ =>
          match g_uri_scheme argument with
          | Some scheme =>
              if same_ignoring_case scheme (str "file") then
                match g_filename_from_uri argument with
                | inl e => finish (2, Some e)
                | inr path => open_argument path force_directory activation_token
                end
              else open_uri argument activation_token ≫= finish
          | None => open_argument argument force_directory activation_token
          end
      end
  end.
End open.
