(* ===== verification/GuestOpen.v ===== *)
(** * From the guest's open command to the broker
    ([native/spaces_open.c], [native/spaces_broker.c])

    What [spaces-open] sends is what the broker's [open_method] takes: the
    client's calls meet the broker's checks of their types, of the path and of
    the claim that the file may be written. *)

From S2P Require Import Methods MethodsInv Prelude Glib Session SpacesOpen Sample SecretExamples.

Section guest.
Context `{GLib} `{Session} `{Desktop}.

(** [realpath] gives an absolute path without [..]. *)
Definition canonical (path : text) : Prop :=
  head path = Some "/"%char ∧ str ".." ∉ pieces "/"%char path.

Context (realpath_canonical : ∀ a h path,
  (step (Realpath a) h).1 = inr path → canonical path).

Lemma canonical_valid path : canonical path → Methods.valid_guest_path path = true.
Proof.
  intros [Hh Hp]. unfold Methods.valid_guest_path. rewrite Hh, bool_decide_true by done.
  rewrite g_strsplit_unique. cbn [g_strsplit glib_reference].
  rewrite split_text_pieces by (by intros ->). apply negb_true_iff, not_true_iff_false.
  intros (p & Hin & Hd)%existsb_exists. apply Hp. apply text_eqb_spec in Hd as ->.
  by apply list_elem_of_In.
Qed.

(** The call passes a descriptor of the object at a resolved path, and claims
    that it is writable only if it is a regular file that was opened for
    writing. *)
Definition proved_call (c : bus_call) (T : list event) : Prop :=
  ∃ broker_name method path writable token descriptor asked flags metadata,
    c = integration_call broker_name method path writable token descriptor ∧
    (method = str "OpenFile" ∨ method = str "OpenDirectory") ∧
    Did (Realpath asked) (inr path) ∈ T ∧ canonical path ∧
    Did (Open path flags) (inr descriptor) ∈ T ∧ Did (Fstat descriptor) (inr metadata) ∈ T ∧
    (method = str "OpenFile" → S_ISDIR metadata.(st_mode) ∨ S_ISREG metadata.(st_mode)) ∧
    (writable = true → Z.land flags O_ACCMODE = O_RDWR ∧ S_ISREG metadata.(st_mode)).

Definition call_guarded (e : event) (T : list event) : Prop :=
  match e with
  | Did (Call c) _ => c.(interface) = INTEGRATION_INTERFACE → proved_call c T
  | _ => True
  end.

(** Requests other than calls, and calls of other interfaces. *)
Definition other (e : event) : bool :=
  match e with
  | Did (Call c) _ => negb (text_eqb c.(interface) INTEGRATION_INTERFACE)
  | _ => true
  end.

Lemma other_guarded e T : other e = true → always call_guarded T → always call_guarded (e :: T).
Proof.
  intros He HT. split; [|done]. destruct e as [A r a]. destruct r; try done.
  intros Hi. simpl in He. by rewrite Hi, text_eqb_refl in He.
Qed.

(** A fact of the trace that only grows. *)
Definition knows (K : list event → Prop) (T : list event) : Prop := always call_guarded T ∧ K T.

Lemma knows_step {A B} K K' (r : request A) (f : A → M B) R :
  (∀ a, other (Did r a) = true) → (∀ h T, K T → K' (step r h).1 (Did r (step r h).1 :: T)) →
  (∀ a, triple (knows (K' a)) (f a) R) → triple (knows K) (perform r ≫= f) R.
Proof.
  intros Ho HK Hf w y w2 [HT HKw] (x & w1 & E1 & E2)%M_bind_returned.
  apply perform_returned in E1 as [-> ->]. eapply Hf; [|exact E2]. split.
  - by apply other_guarded.
  - by apply HK.
Qed.

Lemma knows_ret {A} K (x : A) : triple (knows K) (mret x) (λ _, always call_guarded).
Proof. apply triple_ret. by intros T [HT _]. Qed.

Lemma knows_any {A B} K (r : request A) (f : A → M B) R :
  (∀ a, other (Did r a) = true) → (∀ e T, K T → K (e :: T)) →
  (∀ a, triple (knows K) (f a) R) → triple (knows K) (perform r ≫= f) R.
Proof. intros Ho HK Hf. apply (knows_step _ (λ _, K)); auto. Qed.

Lemma open_method_of_spec force m method may : open_method_of force m = Some (method, may) →
  (method = str "OpenFile" ∨ method = str "OpenDirectory") ∧
  (method = str "OpenFile" → S_ISDIR m.(st_mode) ∨ S_ISREG m.(st_mode)) ∧
  (may = true → S_ISREG m.(st_mode)).
Proof.
  unfold open_method_of. intros Em. destruct force.
  { injection Em as <- <-. split_and!; [by right|by intros|done]. }
  destruct (S_ISDIR (st_mode m)) eqn:Ed.
  { injection Em as <- <-. split_and!; [by left|by left|done]. }
  destruct (S_ISREG (st_mode m)) eqn:Er; [|done].
  injection Em as <- <-. split_and!; [by left|by right|done].
Qed.

Section path.
Context (asked path : text) (Hcanonical : canonical path).

Definition resolved (T : list event) : Prop := Did (Realpath asked) (inr path) ∈ T.

Definition opened_at (descriptor : Z) (writable : bool) (T : list event) : Prop := ∃ flags,
  resolved T ∧ Did (Open path flags) (inr descriptor) ∈ T ∧
  (writable = true → Z.land flags O_ACCMODE = O_RDWR).

Lemma resolved_cons e T : resolved T → resolved (e :: T).
Proof. intros HT. by right. Qed.

Lemma opened_cons d wr e T : opened_at d wr T → opened_at d wr (e :: T).
Proof. intros (flags & Hr & Ho & Hw). exists flags. split_and!; [by right|by right|done]. Qed.

Lemma triple_open_either {B} (f : Z + Z * bool → M B) R :
  (∀ e, triple (knows resolved) (f (inl e)) R) →
  (∀ d wr, triple (knows (opened_at d wr)) (f (inr (d, wr))) R) →
  triple (knows resolved) (open_either path ≫= f) R.
Proof.
  intros He Hd. unfold open_either.
  apply (triple_bind _ _ _ (λ r, match r with
    | inl _ => knows resolved
    | inr (d, wr) => knows (opened_at d wr)
    end)); [|intros [e|[d wr]]; auto].
  apply (knows_step _ (λ a T, match a with inr d => opened_at d true T | inl _ => resolved T end));
    [done| |].
  { intros h T HT. destruct (step _ h).1 as [e|d]; [by right|].
    exists (Z.lor O_RDWR O_CLOEXEC). split_and!; [by right|by left|by intros _; vm_compute]. }
  intros [e|d]; [|by apply triple_ret].
  apply (triple_bind _ _ _ (λ a, match a with
    | inr d => knows (opened_at d false)
    | inl _ => knows resolved
    end)).
  - apply triple_perform. intros a T [HT Hr]. destruct a as [e'|d].
    + split; [by apply other_guarded|by right].
    + split; [by apply other_guarded|].
      exists (Z.lor O_RDONLY O_CLOEXEC). split_and!; [by right|by left|done].
  - intros [e'|d]; by apply triple_ret.
Qed.

Lemma triple_open_path force token :
  triple (knows resolved) (open_path path force token) (λ _, always call_guarded).
Proof.
  unfold open_path. destruct (getenv _) as [[|c broker]|]; [apply knows_ret| |apply knows_ret].
  apply triple_open_either; [intros e; apply knows_ret|]. intros d wr.
  apply (knows_step _ (λ a T, opened_at d wr T ∧ Did (Fstat d) a ∈ T)); [done| |].
  { intros h T HT. split; [by apply opened_cons|by left]. }
  intros [e|m].
  { apply knows_any; [done| |intros ?; apply knows_ret].
    intros e' T [HT Hf]. split; [by apply opened_cons|by right]. }
  assert (∀ e T, opened_at d wr T ∧ Did (Fstat d) (inr m) ∈ T →
    opened_at d wr (e :: T) ∧ Did (Fstat d) (inr m) ∈ e :: T) as Hgrow.
  { intros e T [HT Hf]. split; [by apply opened_cons|by right]. }
  destruct (open_method_of force m) as [[method may]|] eqn:Em;
    [|apply knows_any; [done|exact Hgrow|intros ?; apply knows_ret]].
  apply knows_any; [done|exact Hgrow|intros appended].
  apply knows_any; [done|exact Hgrow|intros u]. destruct appended; [apply knows_ret|].
  eapply (triple_bind _ _ _ (λ _, always call_guarded)); [|intros reply; by apply triple_ret].
  apply triple_perform. intros a T (HT & (flags & Hr & Ho & Hw) & Hf). split; [|done].
  intros _. exists (c :: broker), method, path, (wr && may), token, d, asked, flags, m.
  apply open_method_of_spec in Em as (Hm & Hk & Hmay). split_and!; try done.
  intros [-> ->]%andb_true_iff. split; [by apply Hw|by apply Hmay].
Qed.
End path.

Lemma triple_finish K outcome : triple (knows K) (finish outcome) (λ _, always call_guarded).
Proof.
  unfold finish. destruct outcome as [r [e|]]; [|apply knows_ret].
  apply (knows_step _ (λ _ _, True)); [done..|]. intros u. apply knows_ret.
Qed.

Lemma always_finish outcome : triple (always call_guarded) (finish outcome) (λ _, always call_guarded).
Proof.
  eapply triple_conseq; [|by intros ? ? HT; exact HT|apply (triple_finish (λ _, True))].
  by split.
Qed.

Lemma triple_open_argument path force token :
  triple (always call_guarded) (open_argument path force token) (λ _, always call_guarded).
Proof.
  assert (∀ K T, knows K T → always call_guarded T) as Hk by (by intros K T []).
  unfold open_argument.
  apply (triple_bind _ _ _ (λ _, knows (λ _, True))).
  { destruct (g_path_is_absolute path); [by apply triple_ret|].
    apply (triple_bind _ _ _ (λ _, knows (λ _, True))); [|intros; by apply triple_ret].
    apply triple_perform. intros a T HT. split; [by apply other_guarded|done]. }
  intros absolute.
  apply (knows_step _ (λ a T, match a with
    | inr path => canonical path ∧ resolved absolute path T
    | inl _ => True
    end)); [done| |].
  { intros h T _. destruct (step _ h).1 as [e|p] eqn:E; [done|].
    split; [by eapply realpath_canonical|by left]. }
  intros [e|p]; [apply triple_finish|].
  eapply (triple_bind _ _ _ (λ _, always call_guarded)); [|intros r; apply always_finish].
  intros w r w' [HT [Hc Hr]] E. by apply (triple_open_path absolute p Hc force token w r w').
Qed.

Lemma triple_open_uri uri token :
  triple (always call_guarded) (open_uri uri token) (λ _, always call_guarded).
Proof.
  apply (triple_conseq _ (knows (λ _, True)) _ (λ _, always call_guarded)); [by split|done|].
  unfold open_uri, new_token.
  apply (triple_bind _ _ _ (λ _, knows (λ _, True))).
  { apply (triple_bind _ _ _ (λ _, knows (λ _, True))); [|intros; by apply triple_ret].
    apply triple_perform. intros a T [HT _]. split; [by apply other_guarded|done]. }
  intros t. do 2 (apply knows_any; [done|done|intros ?]).
  repeat case_match; repeat (apply knows_any; [done|done|intros ?]); apply knows_ret.
Qed.

Lemma triple_open_main argv :
  triple (λ T, T = []) (main argv) (λ _, always call_guarded).
Proof.
  apply (triple_conseq _ (knows (λ _, True)) _ (λ _, always call_guarded)); [by intros T ->|done|].
  unfold main. apply knows_any; [done|done|intros u].
  destruct (arguments argv) as [[force argument]|];
    [|apply knows_any; [done|done|intros ?]; apply knows_ret].
  unfold host_connection. apply knows_any; [done|done|intros [e|u']]; [apply triple_finish|].
  apply (triple_conseq _ (always call_guarded) _ (λ _, always call_guarded)); [by intros T []|done|].
  destruct (g_uri_scheme argument) as [scheme|]; [|apply triple_open_argument].
  destruct (same_ignoring_case _ _).
  - destruct (g_filename_from_uri argument); [apply always_finish|apply triple_open_argument].
  - eapply triple_bind; [apply triple_open_uri|intros r; apply always_finish].
Qed.
End guest.

(** C32: What [spaces-open] sends is what the broker takes.  Every call it makes
    of the broker's interface has the types the broker's dispatcher expects
    and a path the broker accepts, resolved by the kernel; it carries a
    descriptor that was opened at that path and found to be a file or a
    directory; and it claims that a file is writable only with a descriptor
    opened for reading and writing, which is the broker's own test. *)
Theorem guest_open_accepted `{GLib} `{Session} `{Desktop} argv h status w' later c reply earlier :
  (∀ a h path, (step (Realpath a) h).1 = inr path → canonical path) →
  main argv (World h []) = Returned status w' →
  w'.(trace) = later ++ Did (Call c) reply :: earlier →
  c.(interface) = INTEGRATION_INTERFACE →
  proved_call c earlier ∧
  MethodsInv.well_typed c.(method) c.(parameters) = true ∧
  ∃ path rest, c.(parameters) = VString path :: rest ∧ Methods.valid_guest_path path = true.
Proof.
  intros Hreal E Ht Hi.
  pose proof (triple_open_main Hreal argv (World h []) status w' eq_refl E) as HT.
  rewrite Ht in HT. pose proof (always_split _ _ _ _ HT Hi) as Hp. split; [done|].
  destruct Hp as (broker & method & path & wr & token & d & asked & flags & m & -> & Hm & _ & Hc & _).
  split; [by destruct Hm as [-> | ->]|].
  destruct Hm as [-> | ->]; (do 2 eexists; split; [reflexivity|by apply canonical_valid]).
Qed.

(** * The guest's open command runs

    [spaces-open] on the session of [SecretExamples], with a file. *)

Definition open_run : ending around event Z :=
  main (H := sample_session 2) [str "spaces-open"; str "FILE:///home/u/notes"]
    (World (Around 0 0 0 false 0 {[str "/home/u/notes" := 8]}) []).

Definition open_trace : list event := (world_after at_start open_run).(trace).

Definition open_call : bus_call :=
  integration_call (str ":1.7") (str "OpenFile") (str "/home/u/notes") true None 9.

Lemma sample_realpath a (h : host (Session := sample_session 2)) path :
  (step (Session := sample_session 2) (Realpath a) h).1 = inr path → canonical path.
Proof.
  change (step (Realpath a) h).1 with (if bool_decide (head a = Some "/"%char) &&
    negb (existsb (text_eqb (str "..")) (pieces "/"%char a)) then inr a else inl ENOENT : Z + text).
  destruct (bool_decide _) eqn:Hh; [|done].
  destruct (existsb _ _) eqn:Hp; [done|]. cbn [andb negb]. intros [= <-].
  apply bool_decide_eq_true in Hh. split; [done|]. intros Hin.
  apply not_true_iff_false in Hp. apply Hp, existsb_exists. exists (str "..").
  split; [by apply list_elem_of_In|apply text_eqb_refl].
Qed.

Lemma guest_open_accepted_witness :
  proved_call open_call (tail open_trace) ∧
  MethodsInv.well_typed open_call.(method) open_call.(parameters) = true ∧
  ∃ path rest, open_call.(parameters) = VString path :: rest ∧
    Methods.valid_guest_path path = true.
Proof.
  apply (guest_open_accepted (H0 := sample_session 2) [str "spaces-open"; str "FILE:///home/u/notes"]
    (Around 0 0 0 false 0 {[str "/home/u/notes" := 8]}) 0 (world_after at_start open_run) []
    open_call (inr [VUint32 0])).
  - exact sample_realpath.
  - apply returned_world. by vm_compute.
  - by vm_compute.
  - done.
Defined.
