(* ===== verification/Frontend.v ===== *)
(** * The guest's portal frontend: its state and its surroundings
    ([native/spaces_portal.c])

    In a space, [spaces-portal] owns the name of the desktop portal and sends
    what the guest's applications ask to the host.  This file has the data of
    [struct Portal], what its handlers ask of the two buses and the kernel
    ([call], answered by [Guest]), and the operations on the tables of
    requests and sessions.

    [Request] and [Session] objects live in a heap: the tables hold pointers,
    and so do some pending calls.  Reading a freed object is [undefined]. *)

From S2P Require Import Prelude Glib.
From S2P Require Export Effects Desktop.

(** ** Introspection data *)

(** [GDBusArgInfo]: the name may be missing. *)
Record arg_info := Arg { arg_name : option text; arg_signature : vtype }.
Record method_info := Method {
  m_name : text;
  in_args : list arg_info;
  out_args : list arg_info;
}.
Record interface_info := Interface {
  i_name : text;
  i_methods : list method_info;
  i_properties : list text;
}.
Abbreviation node_info := (list interface_info).

(** [g_dbus_node_info_lookup_interface]: the first of the name. *)
Definition lookup_interface (node : node_info) (name : text) : option interface_info :=
  list_find (λ i, i.(i_name) = name) node ≫= λ p, Some p.2.

Definition find_method (info : interface_info) (name : text) : option method_info :=
  list_find (λ m, m.(m_name) = name) info.(i_methods) ≫= λ p, Some p.2.

Definition method_output_type (method : method_info) : list vtype :=
  map arg_signature method.(out_args).

Definition method_returns_request (method : method_info) : bool :=
  match method.(out_args) with
  | [a] => vtype_eqb a.(arg_signature) TObject && negb (str_is a.(arg_name) (str "session_handle"))
  | _ => false
  end.

Definition method_returns_session (method : method_info) : bool :=
  match method.(out_args) with
  | [a] => vtype_eqb a.(arg_signature) TObject && str_is a.(arg_name) (str "session_handle")
  | _ => false
  end.

(** ** Calls *)

Inductive bus := GuestBus | HostBus.

(** No descriptors, those of the message being handled, or a list built for
    the call. *)
Inductive fd_list := NoFds | GuestFds | OwnFds (descriptors : list Z).

Record bus_call := BusCall {
  c_bus : bus;
  c_destination : text;
  c_path : text;
  c_interface : text;
  c_method : text;
  c_parameters : list variant;
  c_reply : option (list vtype);      (** what GIO checks the reply against *)
  c_no_auto_start : bool;
  c_fds : fd_list;
}.

Inductive file_test := IsRegular | IsDirectory | IsSymlink.

(** What [host_icon] asks of [g_file_query_info]. *)
Record file_info := FileInfo {
  fi_regular : bool;
  fi_size : Z;
  fi_modified : Z;
  fi_modified_usec : Z;
}.

(** [inl] is [-1] with [errno], or [NULL] with an error.  Invocations, which a
    handler has to answer, are numbers. *)
Inductive call : Type → Type :=
  | Uuid : call text
  | Sync (c : bus_call) : call (gerror + list variant)
  | Send (c : bus_call) : call unit                    (** nobody waits *)
  | Emit (b : bus) (destination : option text) (path interface name : text)
      (parameters : list variant) : call unit
  | Return (invocation : nat) (values : list variant) (fds : option (list Z)) : call unit
  | ReturnError (invocation : nat) (e : gerror) : call unit
  | HasFds : call bool                                 (** of the message handled *)
  | FdGet (handle : Z) : call (gerror + Z)             (** duplicates the entry *)
  | FdAppend (fd : Z) : call (option gerror)
  | Contents (path : text) : call (option text)
  | ReadLink (path : text) : call (gerror + text)
  | Open (path : text) (flags : Z) : call (Z + Z)
  | Close (fd : Z) : call (Z + unit)
  | Pidfd (pid flags : Z) : call (Z + Z)
  | SeekEnd (fd : Z) : call (Z + Z)
  | SeekStart (fd : Z) : call (Z + unit)
  | MkdirParents (path : text) : call (Z + unit)
  | Read (fd : Z) (size : nat) : call (Z + text)
  | Write (fd : Z) (data : text) : call (Z + nat)
  | Unlink (path : text) : call unit
  | TestFile (path : text) (test : file_test) : call bool   (** [g_file_test] *)
  | ListDir (path : text) : call (option (list text))  (** the names a directory yields *)
  | QueryInfo (path : text) : call (option file_info)
  | Spawn (arguments : list text) (activation_token : option text) : call (gerror + unit)
  | Defer (delay_ms : option Z) : call unit            (** an idle or timeout source *)
  | OwnName (b : bus) (name : text) : call unit
  | UnownName (b : bus) (name : text) : call unit
  | LinkMode (path : text) : call (option Z)           (** of the file itself, not what it links to *)
  | NewProxy (name path interface : text) : call (option gerror)  (** watches it on the host's bus *)
  | CachedProperty (property : text) : call (option variant).     (** that the proxy knows *)

Abbreviation event := (did call).

Definition path_char (c : ascii) : bool :=
  is_digit c || (65 <=? code c) && (code c <=? 90) || (97 <=? code c) && (code c <=? 122)
    || (code c =? 95).

(** An object path is [/], or elements of [A-Za-z0-9_], each after a slash. *)
Definition object_path (p : text) : Prop :=
  p = str "/" ∨ ∃ elements : list text, elements ≠ []
    ∧ p = concat (map (λ e, str "/" ++ e) elements)
    ∧ Forall (λ e, e ≠ [] ∧ Forall (λ c, path_char c = true) e) elements.

Class Guest := {
  host : Type;
  answer {A} : call A → host → A * host;
  getenv : text → option text;
  getuid : Z;
  g_uri_unescape_string : text → option text;
  g_variant_is_object_path : text → bool;
  g_dbus_is_name : text → bool;
  g_shell_quote : text → text;
  g_path_get_basename : text → text;
  g_dbus_node_info_new_for_xml : text → gerror + node_info;
  g_dbus_is_member_name : text → bool;
  g_get_user_data_dir : text;
  g_get_system_data_dirs : list text;
  is_object_path_spec p : g_variant_is_object_path p = true ↔ object_path p;
  answer_read fd size h data :
    (answer (Read fd size) h).1 = inr data → (length data ≤ size)%nat;
  answer_write fd data h n : (answer (Write fd data) h).1 = inr n → (n ≤ length data)%nat;
}.

(** ** The state of the frontend *)

Record request := Request {
  r_owner : text;
  r_guest_path : text;
  r_host_path : option text;
  r_guest_session_path : option text;
  r_registration : option nat;
  r_local : bool;
  r_local_backend : option text;
  r_flatpak_app_id : option text;
  r_chooser_writable : bool;
  r_persistent : bool;
  r_cancelled : bool;
}.

Record session := Session {
  s_owner : text;
  s_guest_path : text;
  s_host_path : text;
  s_registration : option nat;
}.

Record inhibitor := Inhibitor { i_owner : text; i_cookie : Z; i_throttle : bool }.

Record forward_call := ForwardCall {
  f_invocation : nat;
  f_method : method_info;
  f_interface_name : text;
  f_method_name : text;
  f_owner : text;
  f_guest_request_path : option text;
  f_guest_session_path : option text;
  f_finish_guest_request : option text;
  f_returns_request : bool;
  f_returns_session : bool;
}.

Record screen_call := ScreenCall {
  sc_invocation : nat;
  sc_owner : text;
  sc_key : option text;
  sc_add : bool;
  sc_throttle : bool;
}.

(** The callback of an asynchronous call with its data.  Only [ChooserDone]
    keeps a pointer to a request. *)
Inductive completion :=
  | ForwardDone (call : forward_call)
  | ChooserDone (request : nat)
  | ScreenshotDone (guest_path : text)
  | BrokerRequestDone (guest_path : text)
  | TransformedRequestDone (guest_path : text)
  | DynamicDone (invocation : nat)
  | BridgeDone (invocation : nat)
  | ScreenCallDone (call : screen_call)
  | FileManagerDone (call : nat)
  | MirrorCallDone (invocation : nat).

(** A call of a bus, or the end of a process. *)
Record pending_call := Pending { p_call : option bus_call; p_then : completion }.

(** [fm_error] points to an error. *)
Record file_manager := FileManager {
  fm_invocation : nat;
  fm_pending : Z;
  fm_error : option nat;
}.

(** The tables of functions that objects are exported with. *)
Inductive vtable :=
  | LifecycleVtable | PortalVtable | SimpleBridgeVtable | FileManagerVtable
  | StatusWatcherVtable | AccessibilityVtable.

#[export] Instance vtable_eq_dec : EqDecision vtable.
Proof. solve_decision. Defined.

Record export := Export { e_path : text; e_info : interface_info; e_vtable : vtable }.

(** What the frontend keeps for the services it serves beside the portal:
    [errors] and [file_calls] are the heap objects of calls to the file
    manager. *)
Record natives := Natives {
  inhibitors : gmap text inhibitor;
  screen_saver_host_path : option text;
  icon_files : gmap text text;
  errors : gmap nat gerror;
  file_calls : gmap nat file_manager;
}.

(** A player or a tray icon of the guest on the host's bus.  [mi_subscribed]
    and [mi_owns] stand for the subscription and the name that it holds. *)
Record mirror := Mirror {
  mi_key : text;
  mi_guest_name : text;
  mi_guest_owner : text;
  mi_guest_path : text;
  mi_host_name : text;
  mi_status_item : bool;
  mi_nodes : list node_info;
  mi_paths : list text;
  mi_artwork_uris : list text;
  mi_registrations : list nat;
  mi_subscribed : bool;
  mi_owns : bool;
}.

Record host_export := HostExport { h_path : text; h_info : interface_info; h_mirror : nat }.

Record status_item := StatusItem {
  si_service : text;
  si_owner : text;
  si_path : text;
  si_key : text;
}.

(** What a source of the main loop will run. *)
Inductive source :=
  | PublishStatusItem (item : status_item)
  | RetryMpris (name : text) (remaining : Z).

(** [mirrors] owns its objects; [mirror_objects] is their heap. *)
Record mirror_state := MirrorState {
  mirror_objects : gmap nat mirror;
  mirrors : gmap text nat;
  host_exports : gmap nat host_export;
  mirror_serial : Z;
  sources : gmap nat source;
}.

(** [exports] are the objects on the guest's bus, by their registration;
    [fresh] is the next number for an object, a registration or a call. *)
Record frontend := Frontend {
  space_name : text;
  file_chooser_backend : option text;
  host_node : option node_info;
  owned_nodes : list node_info;
  fresh : nat;
  exports : gmap nat export;
  requests : gmap nat request;
  sessions : gmap nat session;
  requests_guest : gmap text nat;
  requests_host : gmap text nat;
  sessions_guest : gmap text nat;
  sessions_host : gmap text nat;
  pending : gmap nat pending_call;
  native : natives;
  mirroring : mirror_state;
}.

Definition app_id (s : frontend) : text := str "org.anatase.Spaces." ++ s.(space_name).

Record system `{Guest} := System { st : frontend; around : host }.

Abbreviation M := (prog system event).

(** *** Setters *)

Definition set_nodes (hn : option node_info) (on : list node_info) (s : frontend) : frontend :=
  Frontend s.(space_name) s.(file_chooser_backend) hn on s.(fresh) s.(exports) s.(requests)
    s.(sessions) s.(requests_guest) s.(requests_host) s.(sessions_guest) s.(sessions_host)
    s.(pending) s.(native) s.(mirroring).
Definition set_fresh (n : nat) (s : frontend) : frontend :=
  Frontend s.(space_name) s.(file_chooser_backend) s.(host_node) s.(owned_nodes) n s.(exports)
    s.(requests) s.(sessions) s.(requests_guest) s.(requests_host) s.(sessions_guest)
    s.(sessions_host) s.(pending) s.(native) s.(mirroring).
Definition set_exports (x : gmap nat export) (s : frontend) : frontend :=
  Frontend s.(space_name) s.(file_chooser_backend) s.(host_node) s.(owned_nodes) s.(fresh) x
    s.(requests) s.(sessions) s.(requests_guest) s.(requests_host) s.(sessions_guest)
    s.(sessions_host) s.(pending) s.(native) s.(mirroring).
Definition set_requests (x : gmap nat request) (s : frontend) : frontend :=
  Frontend s.(space_name) s.(file_chooser_backend) s.(host_node) s.(owned_nodes) s.(fresh)
    s.(exports) x s.(sessions) s.(requests_guest) s.(requests_host) s.(sessions_guest)
    s.(sessions_host) s.(pending) s.(native) s.(mirroring).
Definition set_sessions (x : gmap nat session) (s : frontend) : frontend :=
  Frontend s.(space_name) s.(file_chooser_backend) s.(host_node) s.(owned_nodes) s.(fresh)
    s.(exports) s.(requests) x s.(requests_guest) s.(requests_host) s.(sessions_guest)
    s.(sessions_host) s.(pending) s.(native) s.(mirroring).
Definition set_request_tables (g h : gmap text nat) (s : frontend) : frontend :=
  Frontend s.(space_name) s.(file_chooser_backend) s.(host_node) s.(owned_nodes) s.(fresh)
    s.(exports) s.(requests) s.(sessions) g h s.(sessions_guest) s.(sessions_host) s.(pending)
    s.(native) s.(mirroring).
Definition set_session_tables (g h : gmap text nat) (s : frontend) : frontend :=
  Frontend s.(space_name) s.(file_chooser_backend) s.(host_node) s.(owned_nodes) s.(fresh)
    s.(exports) s.(requests) s.(sessions) s.(requests_guest) s.(requests_host) g h s.(pending)
    s.(native) s.(mirroring).
Definition set_pending (x : gmap nat pending_call) (s : frontend) : frontend :=
  Frontend s.(space_name) s.(file_chooser_backend) s.(host_node) s.(owned_nodes) s.(fresh)
    s.(exports) s.(requests) s.(sessions) s.(requests_guest) s.(requests_host)
    s.(sessions_guest) s.(sessions_host) x s.(native) s.(mirroring).
Definition set_native (x : natives) (s : frontend) : frontend :=
  Frontend s.(space_name) s.(file_chooser_backend) s.(host_node) s.(owned_nodes) s.(fresh)
    s.(exports) s.(requests) s.(sessions) s.(requests_guest) s.(requests_host)
    s.(sessions_guest) s.(sessions_host) s.(pending) x s.(mirroring).
Definition set_mirroring (x : mirror_state) (s : frontend) : frontend :=
  Frontend s.(space_name) s.(file_chooser_backend) s.(host_node) s.(owned_nodes) s.(fresh)
    s.(exports) s.(requests) s.(sessions) s.(requests_guest) s.(requests_host)
    s.(sessions_guest) s.(sessions_host) s.(pending) s.(native) x.
Definition set_inhibitors (x : gmap text inhibitor) (n : natives) : natives :=
  Natives x n.(screen_saver_host_path) n.(icon_files) n.(errors) n.(file_calls).
Definition set_screen_saver_host_path (x : option text) (n : natives) : natives :=
  Natives n.(inhibitors) x n.(icon_files) n.(errors) n.(file_calls).
Definition set_icon_files (x : gmap text text) (n : natives) : natives :=
  Natives n.(inhibitors) n.(screen_saver_host_path) x n.(errors) n.(file_calls).
Definition set_errors (x : gmap nat gerror) (n : natives) : natives :=
  Natives n.(inhibitors) n.(screen_saver_host_path) n.(icon_files) x n.(file_calls).
Definition set_file_calls (x : gmap nat file_manager) (n : natives) : natives :=
  Natives n.(inhibitors) n.(screen_saver_host_path) n.(icon_files) n.(errors) x.

Definition set_mirror_objects (x : gmap nat mirror) (m : mirror_state) : mirror_state :=
  MirrorState x m.(mirrors) m.(host_exports) m.(mirror_serial) m.(sources).
Definition set_mirrors (x : gmap text nat) (m : mirror_state) : mirror_state :=
  MirrorState m.(mirror_objects) x m.(host_exports) m.(mirror_serial) m.(sources).
Definition set_host_exports (x : gmap nat host_export) (m : mirror_state) : mirror_state :=
  MirrorState m.(mirror_objects) m.(mirrors) x m.(mirror_serial) m.(sources).
Definition set_mirror_serial (x : Z) (m : mirror_state) : mirror_state :=
  MirrorState m.(mirror_objects) m.(mirrors) m.(host_exports) x m.(sources).
Definition set_sources (x : gmap nat source) (m : mirror_state) : mirror_state :=
  MirrorState m.(mirror_objects) m.(mirrors) m.(host_exports) m.(mirror_serial) x.

(** ** Programs *)

Section programs.
Context `{Guest}.

Definition perform {A} (r : call A) : M A :=
  act (λ s, let '(a, h) := answer r s.(around) in (a, System _ s.(st) h)) (λ a, [Did r a]).
Definition get : M frontend := act (λ s, (s.(st), s)) (λ _, []).
Definition modify (f : frontend → frontend) : M unit :=
  act (λ s, (tt, System _ (f s.(st)) s.(around))) (λ _, []).

(** A pointer's object. *)
Definition the_request (id : nat) : M request :=
  s ← get; match s.(requests) !! id with Some r => mret r | None => undefined end.
Definition the_session (id : nat) : M session :=
  s ← get; match s.(sessions) !! id with Some r => mret r | None => undefined end.

Definition new_id : M nat :=
  s ← get; modify (set_fresh (S s.(fresh))) ≫= λ _, mret s.(fresh).

(** A reply of another type than asked for is an error of the call. *)
Definition typed (c : bus_call) (reply : gerror + list variant) : gerror + list variant :=
  match reply, c.(c_reply) with
  | inr values, Some types =>
      if has_type (TTuple types) (VTuple values) then reply else inl INVALID_ARGUMENT
  | _, _ => reply
  end.

Definition call_sync (c : bus_call) : M (gerror + list variant) :=
  reply ← perform (Sync c); mret (typed c reply).

(** [g_dbus_connection_call] with a callback. *)
Definition call_async (c : bus_call) (k : completion) : M unit :=
  n ← new_id;
  modify (λ s, set_pending (<[n := Pending (Some c) k]> s.(pending)) s) ≫= λ _,
  perform (Send c).

(** [g_dbus_connection_register_object]: a path has one object per interface. *)
Definition register_object (path : text) (info : interface_info) (v : vtable) :
    M (gerror + nat) :=
  s ← get;
  if bool_decide (map_Exists
       (λ _ x, x.(e_path) = path ∧ x.(e_info).(i_name) = info.(i_name)) s.(exports))
  then mret (inl EXISTS)
  else
    n ← new_id;
    modify (λ s, set_exports (<[n := Export path info v]> s.(exports)) s) ≫= λ _,
    mret (inr n).

Definition unregister_object (registration : option nat) : M unit :=
  match registration with
  | Some n => modify (λ s, set_exports (delete n s.(exports)) s)
  | None => mret tt
  end.

(** *** Requests and sessions *)

Definition new_request (r : request) : M nat :=
  id ← new_id;
  modify (λ s, set_requests (<[id := r]> s.(requests)) s) ≫= λ _, mret id.

Definition request_free (id : nat) : M unit :=
  r ← the_request id;
  unregister_object r.(r_registration) ≫= λ _,
  modify (λ s, set_requests (delete id s.(requests)) s).

Definition new_session (x : session) : M nat :=
  id ← new_id;
  modify (λ s, set_sessions (<[id := x]> s.(sessions)) s) ≫= λ _, mret id.

Definition session_free (id : nat) : M unit :=
  x ← the_session id;
  unregister_object x.(s_registration) ≫= λ _,
  modify (λ s, set_sessions (delete id s.(sessions)) s).

(** The two guest tables own their objects, the host tables do not. *)
Definition remove_request_guest (path : text) : M unit :=
  s ← get;
  match s.(requests_guest) !! path with
  | Some id =>
      modify (λ s, set_request_tables (delete path s.(requests_guest)) s.(requests_host) s)
        ≫= λ _, request_free id
  | None => mret tt
  end.

Definition remove_request_host (path : text) : M unit :=
  modify (λ s, set_request_tables s.(requests_guest) (delete path s.(requests_host)) s).

Definition remove_session_guest (path : text) : M unit :=
  s ← get;
  match s.(sessions_guest) !! path with
  | Some id =>
      modify (λ s, set_session_tables (delete path s.(sessions_guest)) s.(sessions_host) s)
        ≫= λ _, session_free id
  | None => mret tt
  end.

Definition remove_session_host (path : text) : M unit :=
  modify (λ s, set_session_tables s.(sessions_guest) (delete path s.(sessions_host)) s).

Definition insert_request_guest (path : text) (id : nat) : M unit :=
  s ← get;
  modify (λ s, set_request_tables (<[path := id]> s.(requests_guest)) s.(requests_host) s)
    ≫= λ _,
  match s.(requests_guest) !! path with Some old => request_free old | None => mret tt end.

Definition insert_request_host (path : text) (id : nat) : M unit :=
  modify (λ s, set_request_tables s.(requests_guest) (<[path := id]> s.(requests_host)) s).

Definition insert_session_guest (path : text) (id : nat) : M unit :=
  s ← get;
  modify (λ s, set_session_tables (<[path := id]> s.(sessions_guest)) s.(sessions_host) s)
    ≫= λ _,
  match s.(sessions_guest) !! path with Some old => session_free old | None => mret tt end.

Definition insert_session_host (path : text) (id : nat) : M unit :=
  modify (λ s, set_session_tables s.(sessions_guest) (<[path := id]> s.(sessions_host)) s).

(** [g_hash_table_lookup] and what the pointer it returns points to. *)
Definition lookup_request (table : frontend → gmap text nat) (path : text) :
    M (option (nat * request)) :=
  s ← get;
  match table s !! path with
  | None => mret None
  | Some id => r ← the_request id; mret (Some (id, r))
  end.

Definition lookup_session (table : frontend → gmap text nat) (path : text) :
    M (option (nat * session)) :=
  s ← get;
  match table s !! path with
  | None => mret None
  | Some id => x ← the_session id; mret (Some (id, x))
  end.
End programs.

(** ** Names *)

Definition PORTAL_NAME := str "org.freedesktop.portal.Desktop".
Definition PORTAL_PATH := str "/org/freedesktop/portal/desktop".
Definition REQUEST_INTERFACE := str "org.freedesktop.portal.Request".
Definition SESSION_INTERFACE := str "org.freedesktop.portal.Session".
Definition NOTIFICATIONS_NAME := str "org.freedesktop.Notifications".
Definition NOTIFICATIONS_PATH := str "/org/freedesktop/Notifications".
Definition SCREEN_SAVER_NAME := str "org.freedesktop.ScreenSaver".
Definition SCREEN_SAVER_PATH := str "/org/freedesktop/ScreenSaver".
Definition SCREEN_SAVER_LEGACY_PATH := str "/ScreenSaver".
Definition POWER_NAME := str "org.freedesktop.PowerManagement".
Definition POWER_PATH := str "/org/freedesktop/PowerManagement".
Definition FILE_MANAGER_NAME := str "org.freedesktop.FileManager1".
Definition FILE_MANAGER_PATH := str "/org/freedesktop/FileManager1".
Definition STATUS_WATCHER_NAME := str "org.kde.StatusNotifierWatcher".
Definition STATUS_WATCHER_PATH := str "/StatusNotifierWatcher".
Definition STATUS_WATCHER_INTERFACE := str "org.kde.StatusNotifierWatcher".
Definition STATUS_ITEM_INTERFACE := str "org.kde.StatusNotifierItem".
Definition MPRIS_PREFIX := str "org.mpris.MediaPlayer2.".
Definition MPRIS_PATH := str "/org/mpris/MediaPlayer2".
Definition DBUS_NAME := str "org.freedesktop.DBus".
Definition DBUS_PATH := str "/org/freedesktop/DBus".
Definition DESKTOP_INTERFACE_PREFIX := str "org.freedesktop.portal.".
Definition INTEGRATION_PATH := str "/org/anatase/Spaces/Integration".
Definition INTEGRATION_INTERFACE := str "org.anatase.Spaces.Integration1".
Definition STAGED_FILE_MAXIMUM : Z := 32 * 1024 * 1024.
Definition SECRET_SIZE : nat := 64.

(** [DESKTOP_INTERFACE_PREFIX name]. *)
Definition portal_interface (name : text) : text := DESKTOP_INTERFACE_PREFIX ++ name.

Definition public_interfaces : list text := map str
  ["Account"; "Access"; "Background"; "Camera"; "Clipboard";
   "DynamicLauncher"; "Email"; "FileChooser"; "GameMode";
   "GlobalShortcuts"; "Inhibit"; "InputCapture"; "Location";
   "NetworkMonitor"; "Notification"; "OpenURI"; "PowerProfileMonitor";
   "Print"; "ProxyResolver"; "Realtime"; "RemoteDesktop"; "ScreenCast";
   "Screenshot"; "Secret"; "Settings"; "Usb"; "Wallpaper"]%string.

Definition interface_allowed (name : text) : bool :=
  has_prefix name DESKTOP_INTERFACE_PREFIX
  && bool_decide (drop (length DESKTOP_INTERFACE_PREFIX) name ∈ public_interfaces).

(** [lifecycle_xml]'s two interfaces. *)
Definition request_info : interface_info :=
  Interface REQUEST_INTERFACE [Method (str "Close") [] []] [].
Definition session_info : interface_info :=
  Interface SESSION_INTERFACE [Method (str "Close") [] []] [].

Definition find_registered_interface (s : frontend) (name : text) : option interface_info :=
  match s.(host_node) ≫= λ node, lookup_interface node name with
  | Some info => Some info
  | None => list_find (λ node, is_Some (lookup_interface node name)) s.(owned_nodes)
              ≫= λ p, lookup_interface p.2 name
  end.

(** *** Tokens and object paths *)

Definition new_token `{Guest} : M text :=
  token ← perform Uuid;
  mret (map (λ c, if decide (c = "-"%char) then "_"%char else c) token).

Definition isalnum (c : ascii) : bool :=
  is_digit c || (65 <=? code c) && (code c <=? 90) || (97 <=? code c) && (code c <=? 122).

Definition sender_component (sender : text) : text :=
  map (λ c, if negb (isalnum c) && negb (bool_decide (c = "_"%char)) then "_"%char else c)
    (match sender with ":"%char :: rest => rest | _ => sender end).

Definition valid_token (token : option text) : bool :=
  match token with
  | None | Some [] => false
  | Some t => forallb (λ c, isalnum c || bool_decide (c = "_"%char)) t
  end.

Definition public_object_path (kind sender token : text) : text :=
  PORTAL_PATH ++ str "/" ++ kind ++ str "/" ++ sender_component sender ++ str "/" ++ token.
