(* ===== verification/FrontendCalls.v ===== *)
(** * The guest's portal frontend: its method handlers
    ([native/spaces_portal.c])

    What the frontend does with a call of a guest's application: how it
    changes the parameters of the calls it forwards to the host's portal, the
    requests it serves itself through a backend in the space or the host
    broker, and what it does with their replies. *)

From S2P Require Import Prelude Glib.
From S2P Require Export Frontend.

(** What an asynchronous call ends with; the reply may carry descriptors. *)
Abbreviation reply := ((gerror + list variant) * option (list Z))%type.

Definition lookup_string (options : vardict) (key : text) : option text :=
  match dict_first options key with Some (VString s) => Some s | _ => None end.

(** ** Object paths in values *)

(** [None] when the table's pointer is to a freed object. *)
Definition mapped_path (s : frontend) (to_host : bool) (path : text) : option text :=
  let '(requests_table, sessions_table) :=
    if to_host then (s.(requests_guest), s.(sessions_guest))
    else (s.(requests_host), s.(sessions_host)) in
  match requests_table !! path, sessions_table !! path with
  | Some id, _ =>
      r ← s.(requests) !! id;
      Some (if to_host then default path r.(r_host_path) else r.(r_guest_path))
  | None, Some id =>
      x ← s.(sessions) !! id;
      Some (if to_host then x.(s_host_path) else x.(s_guest_path))
  | None, None => Some path
  end.

Fixpoint translate (s : frontend) (to_host : bool) (v : variant) : option variant :=
  match v with
  | VObject path => VObject <$> mapped_path s to_host path
  | VVariant v => VVariant <$> translate s to_host v
  | VDict l => VDict <$> mapM (λ '(k, v), pair k <$> translate s to_host v) l
  | VTuple l => VTuple <$> mapM (translate s to_host) l
  | VArray t l => VArray t <$> mapM (translate s to_host) l
  | VEntry k v => k ← translate s to_host k; VEntry k <$> translate s to_host v
  | _ => Some v
  end.

Section frontend.
Context `{Guest, Desktop}.

Definition translate_object_paths (v : variant) (to_host : bool) : M variant :=
  s ← get;
  match translate s to_host v with Some v => mret v | None => undefined end.

(** ** Restored sessions *)

Definition RESTORE_DATA_VENDOR := str "Spaces".
Definition RESTORE_DATA_VERSION : Z := 1.

(** The data is a structure [(suv)]. *)
Definition restore_token_from_data (restore_data : variant) : option text :=
  match restore_data with
  | VTuple [VString vendor; VUint32 version; VVariant (VString token)] =>
      if text_eqb vendor RESTORE_DATA_VENDOR && (version =? RESTORE_DATA_VERSION)
      then Some token else None
  | _ => None
  end.

Definition portal_restore_options_to_host (options : vardict) : vardict :=
  let restore_token := dict_first options (str "restore_data") ≫= restore_token_from_data in
  let dictionary :=
    dict_remove (str "restore_token") (dict_remove (str "restore_data") (dict_init options)) in
  match restore_token with
  | Some token => dict_insert (str "restore_token") (VString token) dictionary
  | None => dictionary
  end.

Definition portal_restore_results_to_backend (results : vardict) : vardict :=
  let dictionary := dict_remove (str "restore_token") (dict_init results) in
  match lookup_string results (str "restore_token") with
  | Some token =>
      dict_insert (str "restore_data")
        (VTuple [VString RESTORE_DATA_VENDOR; VUint32 RESTORE_DATA_VERSION;
                 VVariant (VString token)]) dictionary
  | None => dictionary
  end.

Definition portal_derive_secret (host_secret app_id : text) : option text :=
  let size := Z.of_nat (length app_id) in
  if bool_decide (host_secret = []) || (UINT_MAX <? size) then None
  else
    let domain := str "org.anatase.spaces.portal-secret.v1" ++ [zero] in
    let length_bytes :=
      map char [Z.shiftr size 24; Z.shiftr size 16; Z.shiftr size 8; size] in
    digest ← hmac_sha512 host_secret (domain ++ length_bytes ++ app_id);
    if (length digest =? SECRET_SIZE)%nat then Some digest else None.

(** ** Parameters of forwarded calls *)

Definition set_guest_request_path (p : option text) (c : forward_call) : forward_call :=
  ForwardCall c.(f_invocation) c.(f_method) c.(f_interface_name) c.(f_method_name) c.(f_owner)
    p c.(f_guest_session_path) c.(f_finish_guest_request) c.(f_returns_request)
    c.(f_returns_session).
Definition set_guest_session_path (p : option text) (c : forward_call) : forward_call :=
  ForwardCall c.(f_invocation) c.(f_method) c.(f_interface_name) c.(f_method_name) c.(f_owner)
    c.(f_guest_request_path) p c.(f_finish_guest_request) c.(f_returns_request)
    c.(f_returns_session).
Definition set_finish_guest_request (p : option text) (c : forward_call) : forward_call :=
  ForwardCall c.(f_invocation) c.(f_method) c.(f_interface_name) c.(f_method_name) c.(f_owner)
    c.(f_guest_request_path) c.(f_guest_session_path) p c.(f_returns_request)
    c.(f_returns_session).

(** The token of the option, or a new one. *)
Definition token_or_new (token : option text) : M text :=
  match token with
  | Some t => if valid_token token then mret t else new_token
  | None => new_token
  end.

Definition enter_command (s : frontend) (commandline : list text) : list text :=
  [str "/usr/bin/spaces"; str "enter"; str "--graphical"; s.(space_name); str "--"]
    ++ commandline.

Definition rewrite_options (call : forward_call) (options : vardict) :
    M (forward_call * vardict) :=
  guest_token ← token_or_new (lookup_string options (str "handle_token"));
  let call :=
    if call.(f_returns_request)
    then set_guest_request_path
           (Some (public_object_path (str "request") call.(f_owner) guest_token)) call
    else call in
  let session_token := lookup_string options (str "session_handle_token") in
  session_token ←
    (if negb (valid_token session_token)
        && (call.(f_returns_session) || text_eqb call.(f_method_name) (str "CreateSession"))
     then token ← new_token; mret (Some token)
     else mret session_token);
  let call :=
    match session_token with
    | Some token =>
        if valid_token session_token
        then set_guest_session_path
               (Some (public_object_path (str "session") call.(f_owner) token)) call
        else call
    | None => call
    end in
  let dict := dict_init options in
  dict ←
    (if call.(f_returns_request)
     then host_token ← new_token;
          mret (dict_insert (str "handle_token") (VString host_token) dict)
     else mret dict);
  dict ←
    (match call.(f_guest_session_path) with
     | Some _ => host_session_token ← new_token;
                 mret (dict_insert (str "session_handle_token") (VString host_session_token) dict)
     | None => mret dict
     end);
  s ← get;
  mret (call,
    if text_eqb call.(f_interface_name) (portal_interface (str "Background"))
       && text_eqb call.(f_method_name) (str "RequestBackground")
    then match dict_first options (str "commandline") with
         | Some (VStrings commandline) =>
             dict_insert (str "commandline") (VStrings (enter_command s commandline)) dict
         | _ => dict
         end
    else dict).

Definition dynamic_launcher_id (s : frontend) (desktop_id : text) : option text :=
  if bool_decide ("/"%char ∈ desktop_id) || negb (has_suffix desktop_id (str ".desktop"))
  then None
  else if has_prefix desktop_id (app_id s)
          && bool_decide (desktop_id !! length (app_id s) = Some "."%char)
  then Some desktop_id
  else Some (app_id s ++ str "." ++ desktop_id).

Definition wrapped_exec (s : frontend) (command : text) : option text :=
  match command with
  | [] => None
  | _ => Some (str "/usr/bin/spaces enter --graphical " ++ g_shell_quote s.(space_name)
                 ++ str " -- " ++ command)
  end.

Definition DESKTOP_GROUP := str "Desktop Entry".

(** [g_key_file_set_string] ignores a [NULL] value. *)
Definition wrap_group (s : frontend) (key : keyfile) (group : text) : keyfile :=
  if text_eqb group DESKTOP_GROUP || has_prefix group (str "Desktop Action ") then
    match key_get key group (str "Exec") ≫= wrapped_exec s with
    | Some wrapped => key_set key group (str "Exec") wrapped
    | None => key
    end
  else key.

Definition rewrite_desktop_entry (s : frontend) (contents : text) : gerror + text :=
  if (1024 * 1024 <? Z.of_nat (length contents)) then inl INVALID_DATA else
  match key_load contents with
  | inl e => inl e
  | inr key =>
      if bool_decide (DESKTOP_GROUP ∈ key_groups key) then
        let key := foldl (wrap_group s) key (key_groups key) in
        let key := key_remove key DESKTOP_GROUP (str "TryExec") in
        let key := key_remove key DESKTOP_GROUP (str "Path") in
        let key := key_set_boolean key DESKTOP_GROUP (str "DBusActivatable") false in
        key_data key
      else inl INVALID_DATA
  end.

(** One argument: the call as it has become, and the value for the host. *)
Definition prepare_argument (call : forward_call) (name : text) (child : variant) :
    M (forward_call * variant) :=
  s ← get;
  let launcher := text_eqb call.(f_interface_name) (portal_interface (str "DynamicLauncher")) in
  prepared ←
    (if launcher && text_eqb name (str "desktop_file_id") then
       match child with
       | VString id =>
           mret (call, VString (match dynamic_launcher_id s id with Some id => id | None => id end))
       | _ => undefined
       end
     else if launcher && text_eqb call.(f_method_name) (str "Install")
             && text_eqb name (str "desktop_entry") then
       match child with
       | VString contents =>
           mret (call, VString (match rewrite_desktop_entry s contents with
                                | inl _ => []
                                | inr entry => entry
                                end))
       | _ => undefined
       end
     else
       match text_eqb name (str "options"), child with
       | true, VDict options =>
           rewritten ← rewrite_options call options;
           mret (rewritten.1, VDict rewritten.2)
       | _, _ => mapped ← translate_object_paths child true; mret (call, mapped)
       end);
  let '(call, mapped) := prepared in
  if text_eqb call.(f_interface_name) (portal_interface (str "Usb"))
     && text_eqb call.(f_method_name) (str "FinishAcquireDevices")
     && text_eqb name (str "handle")
  then match child with
       | VString p | VObject p => mret (set_finish_guest_request (Some p) call, mapped)
       | _ => undefined
       end
  else mret (call, mapped).

Fixpoint prepare_parameters (call : forward_call) (arguments : list arg_info)
    (parameters : list variant) : M (forward_call * list variant) :=
  match arguments, parameters with
  | [], _ => mret (call, [])
  | argument :: arguments, child :: parameters =>
      match argument.(arg_name) with
      | Some name =>
          prepared ← prepare_argument call name child;
          rest ← prepare_parameters prepared.1 arguments parameters;
          mret (rest.1, prepared.2 :: rest.2)
      | None => undefined
      end
  | _ :: _, [] => undefined
  end.

(** ** Lifecycle objects *)

Definition close_host_object (path interface : text) : M unit :=
  perform (Send (BusCall HostBus PORTAL_NAME path interface (str "Close") [] None true NoFds)).

(** [None], or the error. *)
Definition register_request (id : nat) (r : request) : M (option gerror) :=
  registered ← register_object r.(r_guest_path) request_info LifecycleVtable;
  match registered with
  | inl e => mret (Some e)
  | inr n =>
      modify (λ s, set_requests (<[id :=
        Request r.(r_owner) r.(r_guest_path) r.(r_host_path) r.(r_guest_session_path) (Some n)
          r.(r_local) r.(r_local_backend) r.(r_flatpak_app_id) r.(r_chooser_writable)
          r.(r_persistent) r.(r_cancelled)]> s.(requests)) s) ≫= λ _,
      insert_request_guest r.(r_guest_path) id ≫= λ _,
      match r.(r_host_path) with
      | Some path => insert_request_host path id
      | None => mret tt
      end ≫= λ _,
      mret None
  end.

Definition register_session (owner : text) (guest_path : option text) (host_path : text) :
    M bool :=
  match guest_path with
  | None => mret false
  | Some guest_path =>
      id ← new_session (Session owner guest_path host_path None);
      registered ← register_object guest_path session_info LifecycleVtable;
      match registered with
      | inl _ => session_free id ≫= λ _, mret false
      | inr n =>
          modify (λ s, set_sessions
            (<[id := Session owner guest_path host_path (Some n)]> s.(sessions)) s) ≫= λ _,
          insert_session_guest guest_path id ≫= λ _,
          insert_session_host host_path id ≫= λ _,
          mret true
      end
  end.

Definition cancel (id : nat) (r : request) : M unit :=
  modify (λ s, set_requests (<[id :=
    Request r.(r_owner) r.(r_guest_path) r.(r_host_path) r.(r_guest_session_path)
      r.(r_registration) r.(r_local) r.(r_local_backend) r.(r_flatpak_app_id)
      r.(r_chooser_writable) r.(r_persistent) true]> s.(requests)) s).

Definition lifecycle_call (sender object_path interface_name method_name : text)
    (invocation : nat) : M unit :=
  let denied := perform (ReturnError invocation ACCESS_DENIED) in
  if negb (text_eqb method_name (str "Close")) then
    perform (ReturnError invocation UNKNOWN_METHOD)
  else if text_eqb interface_name REQUEST_INTERFACE then
    found ← lookup_request requests_guest object_path;
    match found with
    | None => denied
    | Some (id, r) =>
        if negb (text_eqb r.(r_owner) sender) then denied
        else
          cancel id r ≫= λ _,
          match r.(r_local), r.(r_local_backend), r.(r_host_path) with
          | true, Some backend, _ =>
              perform (Send (BusCall GuestBus backend object_path
                (str "org.freedesktop.impl.portal.Request") (str "Close") [] None false NoFds))
          | _, _, Some path => close_host_object path REQUEST_INTERFACE
          | _, _, None => mret tt
          end ≫= λ _,
          perform (Return invocation [] None)
    end
  else
    found ← lookup_session sessions_guest object_path;
    match found with
    | None => denied
    | Some (_, x) =>
        if negb (text_eqb x.(s_owner) sender) then denied
        else
          close_host_object x.(s_host_path) SESSION_INTERFACE ≫= λ _,
          perform (Return invocation [] None)
    end.

(** ** Forwarded calls *)

(** The blocks of [forward_done]; [None] when they have answered. *)
Definition forward_request (call : forward_call) (values : list variant) :
    M (option (list variant)) :=
  match values with
  | [VObject host_path] =>
      match call.(f_guest_request_path) with
      | None =>
          (** GIO exports nothing without a path, sets no error, and answers
              nothing for a missing error. *)
          close_host_object host_path REQUEST_INTERFACE ≫= λ _, mret None
      | Some guest_path =>
          let r := Request call.(f_owner) guest_path (Some host_path)
                     call.(f_guest_session_path) None false None None false
                     (text_eqb call.(f_interface_name) (portal_interface (str "Usb"))
                        && text_eqb call.(f_method_name) (str "AcquireDevices")) false in
          id ← new_request r;
          failed ← register_request id r;
          match failed with
          | Some e =>
              close_host_object host_path REQUEST_INTERFACE ≫= λ _,
              request_free id ≫= λ _,
              perform (ReturnError call.(f_invocation) e) ≫= λ _,
              mret None
          | None => mret (Some [VObject guest_path])
          end
      end
  | _ => undefined
  end.

Definition forward_session (call : forward_call) (values : list variant) :
    M (option (list variant)) :=
  match values with
  | [VObject host_path] =>
      registered ← register_session call.(f_owner) call.(f_guest_session_path) host_path;
      match registered : bool, call.(f_guest_session_path) with
      | true, Some guest_path => mret (Some [VObject guest_path])
      | _, _ =>
          close_host_object host_path SESSION_INTERFACE ≫= λ _,
          perform (ReturnError call.(f_invocation) FAILED) ≫= λ _,
          mret None
      end
  | _ => undefined
  end.

(** The handle of a session in results, and how to put another there. *)
Definition session_handle (results : vardict) : option (text * (text → variant)) :=
  match dict_first results (str "session_handle") with
  | Some (VString p) => Some (p, VString)
  | Some (VObject p) => Some (p, VObject)
  | _ => None
  end.

Definition forward_results (call : forward_call) (values : list variant) :
    M (option (list variant)) :=
  match call.(f_guest_session_path), values with
  | Some guest_path, VDict results :: rest =>
      match session_handle results with
      | Some (host_path, handle) =>
          registered ←
            (if g_variant_is_object_path host_path
             then register_session call.(f_owner) (Some guest_path) host_path
             else mret false);
          if registered : bool
          then mret (Some (VDict (dict_insert (str "session_handle") (handle guest_path)
                                    (dict_init results)) :: rest))
          else perform (ReturnError call.(f_invocation) FAILED) ≫= λ _, mret None
      | None => mret (Some values)
      end
  | _, _ => mret (Some values)
  end.

Definition forward_finished (call : forward_call) (values : list variant) : M unit :=
  match call.(f_finish_guest_request), values with
  | Some path, [_; VBoolean true] =>
      found ← lookup_request requests_guest path;
      match found with
      | Some (_, r) =>
          match r.(r_host_path) with
          | Some host_path =>
              remove_request_host host_path ≫= λ _, remove_request_guest r.(r_guest_path)
          | None => undefined
          end
      | None => mret tt
      end
  | _, _ => mret tt
  end.

Definition forward_done (call : forward_call) (r : reply) : M unit :=
  match r.1 with
  | inl e => perform (ReturnError call.(f_invocation) e)
  | inr values =>
      mapped ←
        (if call.(f_returns_request) then forward_request call values
         else if call.(f_returns_session) then forward_session call values
         else forward_results call values);
      match mapped with
      | None => mret tt
      | Some values =>
          forward_finished call values ≫= λ _,
          perform (Return call.(f_invocation) values r.2)
      end
  end.

(** ** Requests served in the space or by the host broker *)

Definition return_not_available (invocation : nat) : M unit :=
  perform (ReturnError invocation NOT_AVAILABLE).

(** The variable's value when it is set and not empty. *)
Definition broker_name : option text :=
  match getenv (str "SPACES_INTEGRATION_BROKER") with
  | None | Some [] => None
  | Some name => Some name
  end.

Definition connection_pid (name : text) : M (gerror + Z) :=
  reply ← call_sync (BusCall GuestBus DBUS_NAME DBUS_PATH DBUS_NAME
    (str "GetConnectionUnixProcessID") [VString name] (Some [TUint32]) false NoFds);
  mret match reply with
       | inr [VUint32 pid] => inr pid
       | inr _ => inl INVALID_ARGUMENT
       | inl e => inl e
       end.

(** The application's name in the key file, if it is a well-known name. *)
Definition flatpak_name (contents : text) : option text :=
  match key_load contents with
  | inl _ => None
  | inr info =>
      match key_get info (str "Application") (str "name") with
      | Some app_id =>
          if negb (g_dbus_is_name app_id) || has_prefix app_id (str ":") then None
          else Some app_id
      | None => None
      end
  end.

Definition flatpak_app_id (sender : text) : M (option text) :=
  pid ← connection_pid sender;
  match pid with
  | inl _ => mret None
  | inr pid =>
      contents ← perform (Contents (str "/proc/" ++ decimal pid ++ str "/root/.flatpak-info"));
      mret (match contents with Some contents => flatpak_name contents | None => None end)
  end.

(** The files of the URIs and their descriptors, which the list owns. *)
Fixpoint open_uris (uris : list text) : M (option (list (text * Z))) :=
  match uris with
  | [] => mret (Some [])
  | uri :: uris =>
      match g_filename_from_uri uri with
      | inl _ => mret None
      | inr filename =>
          descriptor ← perform (Open filename (O_PATH + O_CLOEXEC + O_NOFOLLOW));
          match descriptor with
          | inl _ => mret None
          | inr descriptor =>
              failed ← perform (FdAppend descriptor);
              perform (Close descriptor) ≫= λ _,
              match failed with
              | Some _ => mret None
              | None =>
                  rest ← open_uris uris;
                  mret (cons (filename, descriptor) <$> rest)
              end
          end
      end
  end.

(** [g_filename_to_uri], whose [NULL] no string variant holds. *)
Definition exported_uri (mount : text) (doc_id filename : text) : M text :=
  let path := match doc_id with
              | [] => filename
              | _ => g_build_filename [mount; doc_id; g_path_get_basename filename]
              end in
  match g_filename_to_uri path with inr uri => mret uri | inl _ => undefined end.

Fixpoint exported_uris (mount : text) (doc_ids filenames : list text) : M (list text) :=
  match filenames, doc_ids with
  | [], _ => mret []
  | filename :: filenames, doc_id :: doc_ids =>
      uri ← exported_uri mount doc_id filename;
      rest ← exported_uris mount doc_ids filenames;
      mret (uri :: rest)
  | _ :: _, [] => undefined
  end.

Definition export_flatpak_uris (r : request) (results : vardict) : M vardict :=
  match dict_first results (str "uris"), r.(r_flatpak_app_id) with
  | Some (VStrings uris), Some app_id =>
      opened ← open_uris uris;
      match opened with
      | None => mret results
      | Some opened =>
          reply ← call_sync (BusCall GuestBus (str "org.freedesktop.portal.Documents")
            (str "/org/freedesktop/portal/documents") (str "org.freedesktop.portal.Documents")
            (str "AddFull")
            [VArray THandle (imap (λ i _, VHandle (Z.of_nat i)) opened); VUint32 3;
             VString app_id;
             VStrings (str "read" :: if r.(r_chooser_writable) then [str "write"] else [])]
            (Some [TStrings; TVardict]) false (OwnFds (map snd opened)));
          match reply with
          | inr [VStrings doc_ids; VDict extra] =>
              match dict_first extra (str "mountpoint") with
              | Some (VOther type mount) =>
                  if text_eqb type (str "ay") then
                    uris ← exported_uris (cstring mount) doc_ids (map fst opened);
                    mret (dict_insert (str "uris") (VStrings uris) (dict_init results))
                  else mret results
              | _ => mret results
              end
          | _ => mret results
          end
      end
  | _, _ => mret results
  end.

Definition emit_response (r : request) (response : Z) (results : vardict) : M unit :=
  perform (Emit GuestBus (Some r.(r_owner)) r.(r_guest_path) REQUEST_INTERFACE (str "Response")
    [VUint32 response; VDict results]).

(** A failed call ends with the response 2. *)
Definition response_of (answered : reply) : Z * vardict :=
  match answered.1 with
  | inr [VUint32 response; VDict results] => (response, results)
  | _ => (2, [])
  end.

Definition screenshot_of (answered : reply) : Z * Z * vardict :=
  match answered.1 with
  | inr [VUint32 response; VHandle handle; VDict results] => (response, handle, results)
  | _ => (2, -1, [])
  end.

(** *** FileChooser *)

Definition chooser_done (id : nat) (answered : reply) : M unit :=
  let '(response, results) := response_of answered in
  r ← the_request id;
  if r.(r_cancelled) then remove_request_guest r.(r_guest_path)
  else
    results ← (if response =? 0 then export_flatpak_uris r results else mret results);
    emit_response r response results ≫= λ _,
    remove_request_guest r.(r_guest_path).

Definition chooser_options : list (text * vtype) :=
  [(str "handle_token", TString); (str "accept_label", TString);
   (str "modal", TBoolean); (str "multiple", TBoolean); (str "directory", TBoolean);
   (str "filters", TArray (TTuple [TString; TArray (TTuple [TUint32; TString])]));
   (str "current_filter", TTuple [TString; TArray (TTuple [TUint32; TString])]);
   (str "choices",
      TArray (TTuple [TString; TString; TArray (TTuple [TString; TString]); TString]));
   (str "current_folder", TOther (str "ay")); (str "current_name", TString);
   (str "current_file", TOther (str "ay")); (str "files", TArray (TOther (str "ay")))].

Definition chooser_option_ok (options : vardict) (o : text * vtype) : bool :=
  match dict_first options o.1 with Some v => has_type o.2 v | None => true end.

Definition local_request (owner guest_path : text) (backend flatpak : option text)
    (writable : bool) : request :=
  Request owner guest_path None None None true backend flatpak writable false false.

Definition file_chooser_call (sender method_name : text) (parameters : list variant)
    (invocation : nat) : M unit :=
  s ← get;
  match s.(file_chooser_backend) with
  | None => return_not_available invocation
  | Some backend =>
      match parameters with
      | [VString parent; VString title; VDict options] =>
          if negb (forallb (chooser_option_ok options) chooser_options) then
            perform (ReturnError invocation
              (Reported (str "org.freedesktop.portal.Error.InvalidArgument")))
          else
            token ← token_or_new (lookup_string options (str "handle_token"));
            let path := public_object_path (str "request") sender token in
            flatpak ← flatpak_app_id sender;
            let r := local_request sender path (Some backend) flatpak
                       (negb (text_eqb method_name (str "OpenFile"))) in
            id ← new_request r;
            failed ← register_request id r;
            match failed with
            | Some e => perform (ReturnError invocation e) ≫= λ _, request_free id
            | None =>
                call_async (BusCall GuestBus backend PORTAL_PATH
                  (str "org.freedesktop.impl.portal.FileChooser") method_name
                  [VObject path; VString (app_id s); VString parent; VString title;
                   VDict options] (Some [TUint32; TVardict]) false NoFds)
                  (ChooserDone id) ≫= λ _,
                perform (Return invocation [VObject path] None)
            end
      | _ => undefined
      end
  end.

(** *** GameMode and Realtime *)

Definition close_if (fd : option Z) : M unit :=
  match fd with Some fd => perform (Close fd) ≫= λ _, mret tt | None => mret tt end.

Definition EINVAL : Z := 22.
(** [PIDFD_THREAD] is [O_EXCL]. *)
Definition PIDFD_THREAD : Z := O_EXCL.

(** Two descriptors, or the [errno] of the last failure with what to close. *)
Definition pidfd_pair (first second flags : Z) : M (Z * option Z * option Z + Z * Z) :=
  a ← perform (Pidfd first 0);
  b ← perform (Pidfd second flags);
  mret match a, b with
       | inr a, inr b => inr (a, b)
       | inr a, inl e => inl (e, Some a, None)
       | inl e, inr b => inl (e, None, Some b)
       | inl _, inl e => inl (e, None, None)
       end.

(** Both in a new list: the handles are 0 and 1. *)
Definition append_pair (a b : Z) : M (option gerror) :=
  e1 ← perform (FdAppend a);
  e2 ← perform (FdAppend b);
  mret match e1 with Some e => Some e | None => e2 end.

Definition make_game_mode (broker host_method : text) (th rh : Z) (fds : fd_list)
    (invocation : nat) (target_fd requester_fd : option Z) : M unit :=
  reply ← call_sync (BusCall HostBus broker INTEGRATION_PATH INTEGRATION_INTERFACE
    (str "MakeGameMode") [VString host_method; VHandle th; VHandle rh] (Some [TInt32]) false fds);
  match reply with
  | inl e => close_if target_fd ≫= λ _, close_if requester_fd ≫= λ _,
             perform (ReturnError invocation e)
  | inr values => perform (Return invocation values None) ≫= λ _,
                  close_if target_fd ≫= λ _, close_if requester_fd
  end.

Definition game_mode_host_method (method_name : text) : option text :=
  if has_prefix method_name (str "Query") then Some (str "QueryStatusByPIDFd")
  else if has_prefix method_name (str "Register") then Some (str "RegisterGameByPIDFd")
  else if has_prefix method_name (str "Unregister") then Some (str "UnregisterGameByPIDFd")
  else None.

Definition game_mode_pids (broker method_name : text) (target requester : Z)
    (invocation : nat) : M unit :=
  match game_mode_host_method method_name with
  | None => perform (ReturnError invocation (FromErrno EINVAL))
  | Some host_method =>
      pair ← pidfd_pair target requester 0;
      match pair with
      | inl (e, a, b) => close_if a ≫= λ _, close_if b ≫= λ _,
                         perform (ReturnError invocation (FromErrno e))
      | inr (target_fd, requester_fd) =>
          failed ← append_pair target_fd requester_fd;
          match failed with
          | Some e => close_if (Some target_fd) ≫= λ _, close_if (Some requester_fd) ≫= λ _,
                      perform (ReturnError invocation e)
          | None => make_game_mode broker host_method 0 1 (OwnFds [target_fd; requester_fd])
                      invocation (Some target_fd) (Some requester_fd)
          end
      end
  end.

Definition game_mode_call (sender method_name : text) (parameters : list variant)
    (invocation : nat) : M unit :=
  match broker_name with
  | None => return_not_available invocation
  | Some broker =>
      if has_suffix method_name (str "ByPIDFd") then
        match parameters with
        | [VHandle th; VHandle rh] =>
            make_game_mode broker method_name th rh GuestFds invocation None None
        | _ => undefined
        end
      else if has_suffix method_name (str "ByPid") then
        match parameters with
        | [VInt32 target; VInt32 requester] =>
            game_mode_pids broker method_name target requester invocation
        | _ => undefined
        end
      else
        match parameters with
        | [VInt32 target] =>
            pid ← connection_pid sender;
            match pid with
            | inl e => perform (ReturnError invocation e)
            | inr pid =>
                game_mode_pids broker method_name target (int_of_u32 (u32 pid)) invocation
            end
        | _ => undefined
        end
  end.

Definition realtime_pids (broker : text) (process thread : Z) (high_priority : bool)
    (priority : Z) (invocation : nat) : M unit :=
  if (INT_MAX <? process) || (INT_MAX <? thread) then
    perform (ReturnError invocation INVALID_ARGS)
  else
    pair ← pidfd_pair process thread PIDFD_THREAD;
    match pair with
    | inl (e, a, b) =>
        (if (e =? EINVAL) || (e =? ENOSYS) then return_not_available invocation
         else perform (ReturnError invocation (FromErrno e))) ≫= λ _,
        close_if a ≫= λ _, close_if b
    | inr (process_fd, thread_fd) =>
        failed ← append_pair process_fd thread_fd;
        close_if (Some process_fd) ≫= λ _, close_if (Some thread_fd) ≫= λ _,
        match failed with
        | Some e => perform (ReturnError invocation e)
        | None =>
            call_async (BusCall HostBus broker INTEGRATION_PATH INTEGRATION_INTERFACE
              (str "MakeRealtime")
              [VHandle 0; VHandle 1; VBoolean high_priority; VInt32 priority]
              (Some []) false (OwnFds [process_fd; thread_fd])) (BridgeDone invocation)
        end
    end.

Definition realtime_call (method_name : text) (parameters : list variant) (invocation : nat) :
    M unit :=
  match broker_name with
  | None => return_not_available invocation
  | Some broker =>
      if text_eqb method_name (str "MakeThreadHighPriorityWithPID") then
        match parameters with
        | [VUint64 process; VUint64 thread; VInt32 priority] =>
            realtime_pids broker process thread true priority invocation
        | _ => undefined
        end
      else
        match parameters with
        | [VUint64 process; VUint64 thread; VUint32 priority] =>
            if INT_MAX <? priority then perform (ReturnError invocation INVALID_ARGS)
            else realtime_pids broker process thread false priority invocation
        | _ => undefined
        end
  end.

(** *** Screenshot *)

(** The loops retry after [EINTR]; their fuel bounds the iterations. *)
Fixpoint write_loop (fuel : nat) (output : Z) (data : text) : M bool :=
  match data, fuel with
  | [], _ => mret true
  | _, O => out_of_fuel
  | _, S fuel =>
      written ← perform (Write output data);
      match written with
      | inl e => if decide (e = EINTR) then write_loop fuel output data else mret false
      | inr O => mret false
      | inr n => write_loop fuel output (drop n data)
      end
  end.

Fixpoint copy_loop (fuel : nat) (source output total : Z) : M bool :=
  match fuel with
  | O => out_of_fuel
  | S fuel =>
      count ← perform (Read source (Z.to_nat (64 * 1024)));
      match count with
      | inl e => if decide (e = EINTR) then copy_loop fuel source output total else mret false
      | inr [] => mret true
      | inr data =>
          let total := u64 (total + Z.of_nat (length data)) in
          if STAGED_FILE_MAXIMUM <? total then mret false
          else
            written ← write_loop fuel output data;
            if written : bool then copy_loop fuel source output total else mret false
      end
  end.

(** The file at [filename], once the source is known to be bounded. *)
Definition copy_screenshot_to (fuel : nat) (source : Z) (directory filename : text) :
    M (option text) :=
  made ← perform (MkdirParents directory);
  match made with
  | inl _ => mret None
  | inr _ =>
      output ← perform (Open filename (O_WRONLY + O_CREAT + O_EXCL + O_CLOEXEC));
      match output with
      | inl _ => mret None
      | inr output =>
          copied ← copy_loop fuel source output 0;
          closed ← perform (Close output);
          mret (match copied : bool, closed with
                | true, inr _ => match g_filename_to_uri filename with
                                 | inr uri => Some uri
                                 | inl _ => None
                                 end
                | _, _ => None
                end)
      end
  end.

Definition copy_screenshot (fuel : nat) (source : Z) : M (option text) :=
  let directory := g_build_filename [cache_dir; str "spaces"; str "screenshots"] in
  token ← new_token;
  let filename := directory ++ str "/" ++ token ++ str ".png" in
  size ← perform (SeekEnd source);
  uri ← match size with
        | inl _ => mret None
        | inr size =>
            if (size <? 0) || (STAGED_FILE_MAXIMUM <? size) then mret None
            else
              sought ← perform (SeekStart source);
              match sought with
              | inl _ => mret None
              | inr _ => copy_screenshot_to fuel source directory filename
              end
        end;
  match uri with
  | Some uri => mret (Some uri)
  | None => perform (Unlink filename) ≫= λ _, mret None
  end.

(** The results with the URI, or with the document's in its place. *)
Definition screenshot_results (r : request) (uri : text) (results : vardict) : M vardict :=
  let results := dict_insert (str "uri") (VString uri) (dict_init results) in
  match r.(r_flatpak_app_id) with
  | None => mret results
  | Some _ =>
      exported ← export_flatpak_uris r [(str "uris", VStrings [uri])];
      mret match dict_first exported (str "uris") with
           | Some (VStrings [first]) =>
               dict_insert (str "uri") (VString first) (dict_init results)
           | _ => results
           end
  end.

Definition screenshot_done (fuel : nat) (guest_path : text) (answered : reply) : M unit :=
  found ← lookup_request requests_guest guest_path;
  match found with
  | None => mret tt
  | Some (_, r) =>
      if r.(r_cancelled) then remove_request_guest r.(r_guest_path)
      else
        let '(response, handle, results) := screenshot_of answered in
        descriptor ←
          (match answered.2 with
           | Some _ =>
               if response =? 0 then
                 got ← perform (FdGet handle);
                 mret match got with inr fd => Some fd | inl _ => None end
               else mret None
           | None => mret None
           end);
        uri ←
          (match descriptor with
           | Some fd => if response =? 0 then copy_screenshot fuel fd else mret None
           | None => mret None
           end);
        match response =? 0, uri with
        | true, Some uri =>
            results ← screenshot_results r uri results;
            emit_response r 0 results
        | true, None => emit_response r 2 results
        | false, _ => emit_response r response results
        end ≫= λ _,
        remove_request_guest r.(r_guest_path) ≫= λ _,
        close_if descriptor
  end.

Definition screenshot_call (sender : text) (parameters : list variant) (invocation : nat) :
    M unit :=
  match broker_name with
  | None => return_not_available invocation
  | Some broker =>
      match parameters with
      | [VString parent; VDict options] =>
          token ← token_or_new (lookup_string options (str "handle_token"));
          let path := public_object_path (str "request") sender token in
          flatpak ← flatpak_app_id sender;
          let r := local_request sender path None flatpak false in
          id ← new_request r;
          failed ← register_request id r;
          match failed with
          | Some e => perform (ReturnError invocation e) ≫= λ _, request_free id
          | None =>
              call_async (BusCall HostBus broker INTEGRATION_PATH INTEGRATION_INTERFACE
                (str "Screenshot") [VString parent; VDict options]
                (Some [TUint32; THandle; TVardict]) false NoFds)
                (ScreenshotDone path) ≫= λ _,
              perform (Return invocation [VObject path] None)
          end
      | _ => undefined
      end
  end.

(** *** Files, and the requests the broker transforms *)

Definition broker_request_done (guest_path : text) (answered : reply) : M unit :=
  found ← lookup_request requests_guest guest_path;
  match found with
  | None => mret tt
  | Some (_, r) =>
      if r.(r_cancelled) then remove_request_guest r.(r_guest_path)
      else
        let response := match answered.1 with inr [VUint32 response] => response | _ => 2 end in
        emit_response r response [] ≫= λ _,
        remove_request_guest r.(r_guest_path)
  end.

(** The path of a descriptor, unless it has none that lasts. *)
Definition stable_path (link : gerror + text) : option gerror + text :=
  match link with
  | inl e => inl (Some e)
  | inr path =>
      if has_prefix path (str "/") && negb (has_suffix path (str " (deleted)"))
      then inr path else inl None
  end.

(** The request for an open descriptor with its path. *)
Definition open_file_request (broker sender method_name : text) (options : vardict)
    (descriptor : Z) (guest_path : text) (invocation : nat) : M (option (option gerror)) :=
  let opens_file := text_eqb method_name (str "OpenFile") in
  let activation := default [] (lookup_string options (str "activation_token")) in
  let writable :=
    opens_file && match dict_first options (str "writable") with
                  | Some (VBoolean b) => b
                  | _ => false
                  end in
  token ← token_or_new (lookup_string options (str "handle_token"));
  let path := public_object_path (str "request") sender token in
  let r := local_request sender path None None false in
  id ← new_request r;
  failed ← register_request id r;
  match failed with
  | Some e => request_free id ≫= λ _, mret (Some (Some e))
  | None =>
      appended ← perform (FdAppend descriptor);
      match appended with
      | Some e => remove_request_guest path ≫= λ _, mret (Some (Some e))
      | None =>
          call_async (BusCall HostBus broker INTEGRATION_PATH INTEGRATION_INTERFACE method_name
            (VString guest_path :: VHandle 0
               :: (if opens_file then [VBoolean writable] else []) ++ [VString activation])
            (Some [TUint32]) false (OwnFds [descriptor])) (BrokerRequestDone path) ≫= λ _,
          perform (Return invocation [VObject path] None) ≫= λ _,
          mret None
      end
  end.

Definition open_file_call (sender method_name : text) (parameters : list variant)
    (invocation : nat) : M unit :=
  let failed descriptor e :=
    close_if descriptor ≫= λ _,
    perform (ReturnError invocation (default INVALID_ARGUMENT e)) in
  match broker_name with
  | None => return_not_available invocation
  | Some broker =>
      match parameters with
      | [VString parent; VHandle handle; VDict options] =>
          present ← perform HasFds;
          descriptor ← (if present : bool then r ← perform (FdGet handle);
                          mret match r with inl e => inl (Some e) | inr fd => inr fd end
                        else mret (inl None));
          match descriptor with
          | inl e => failed None e
          | inr descriptor =>
              link ← perform (ReadLink (str "/proc/self/fd/" ++ signed_decimal descriptor));
              match stable_path link with
              | inl e => failed (Some descriptor) e
              | inr guest_path =>
                  stopped ← open_file_request broker sender method_name options descriptor
                              guest_path invocation;
                  match stopped with
                  | Some e => failed (Some descriptor) e
                  | None => close_if (Some descriptor)
                  end
              end
          end
      | _ => undefined
      end
  end.

Definition transformed_request_done (guest_path : text) (answered : reply) : M unit :=
  found ← lookup_request requests_guest guest_path;
  match found with
  | None => mret tt
  | Some (_, r) =>
      if r.(r_cancelled) then remove_request_guest r.(r_guest_path)
      else
        let '(response, results) := response_of answered in
        emit_response r response results ≫= λ _,
        remove_request_guest r.(r_guest_path)
  end.

Definition transformed_request_call (sender interface_name method_name : text)
    (parameters : list variant) (invocation : nat) : M unit :=
  match last parameters with
  | Some child =>
      match broker_name with
      | None => return_not_available invocation
      | Some broker =>
          (** [g_variant_lookup] finds nothing in another value. *)
          let options := match child with VDict options => options | _ => [] end in
          token ← token_or_new (lookup_string options (str "handle_token"));
          let path := public_object_path (str "request") sender token in
          let r := local_request sender path None None false in
          id ← new_request r;
          failed ← register_request id r;
          match failed with
          | Some e => request_free id ≫= λ _, perform (ReturnError invocation e)
          | None =>
              app_id ← (if text_eqb interface_name (portal_interface (str "Secret"))
                        then flatpak_app_id sender else mret None);
              call_async (BusCall HostBus broker INTEGRATION_PATH INTEGRATION_INTERFACE
                (str "PortalRequest")
                [VString interface_name; VString method_name; VString (default [] app_id);
                 VVariant (VTuple parameters)]
                (Some [TUint32; TVardict]) false GuestFds)
                (TransformedRequestDone path) ≫= λ _,
              perform (Return invocation [VObject path] None)
          end
      end
  | None => undefined
  end.

(** Only a tuple is a method's return value; GIO ignores another. *)
Definition dynamic_done (invocation : nat) (answered : reply) : M unit :=
  match answered.1 with
  | inl e => perform (ReturnError invocation e)
  | inr [VVariant (VTuple values)] => perform (Return invocation values None)
  | inr _ => mret tt
  end.

Definition dynamic_call (method_name : text) (parameters : list variant) (invocation : nat) :
    M unit :=
  match broker_name with
  | None => return_not_available invocation
  | Some broker =>
      call_async (BusCall HostBus broker INTEGRATION_PATH INTEGRATION_INTERFACE
        (str "DynamicLauncherCall") [VString method_name; VVariant (VTuple parameters)]
        (Some [TVariant]) false NoFds) (DynamicDone invocation)
  end.

Definition bridge_done (invocation : nat) (answered : reply) : M unit :=
  match answered.1 with
  | inl e => perform (ReturnError invocation e)
  | inr values => perform (Return invocation values answered.2)
  end.

(** ** The portal's methods and properties *)

Definition forward_portal_call (sender interface_name method_name : text)
    (method : method_info) (parameters : list variant) (invocation : nat) : M unit :=
  let call := ForwardCall invocation method interface_name method_name sender None None None
                (method_returns_request method) (method_returns_session method) in
  prepared ← prepare_parameters call method.(in_args) parameters;
  let '(call, mapped) := prepared in
  call_async (BusCall HostBus PORTAL_NAME PORTAL_PATH interface_name method_name mapped
    (Some (method_output_type method)) true GuestFds) (ForwardDone call).

Definition portal_method_call (sender interface_name method_name : text)
    (parameters : list variant) (invocation : nat) : M unit :=
  s ← get;
  let is_interface name := text_eqb interface_name (portal_interface (str name)) in
  let is_method name := text_eqb method_name (str name) in
  match find_registered_interface s interface_name ≫= λ info, find_method info method_name with
  | None => perform (ReturnError invocation UNKNOWN_METHOD)
  | Some method =>
      if is_interface "FileChooser" then
        file_chooser_call sender method_name parameters invocation
      else if is_interface "Screenshot" && is_method "Screenshot" then
        screenshot_call sender parameters invocation
      else if is_interface "OpenURI" && (is_method "OpenFile" || is_method "OpenDirectory") then
        open_file_call sender method_name parameters invocation
      else if is_interface "Wallpaper"
              || is_interface "Background" && is_method "RequestBackground"
              || is_interface "Secret" && is_method "RetrieveSecret"
              || is_interface "DynamicLauncher" && is_method "PrepareInstall" then
        transformed_request_call sender interface_name method_name parameters invocation
      else if is_interface "DynamicLauncher" then
        dynamic_call method_name parameters invocation
      else if is_interface "GameMode" then
        game_mode_call sender method_name parameters invocation
      else if is_interface "Realtime"
              && (is_method "MakeThreadRealtimeWithPID"
                  || is_method "MakeThreadHighPriorityWithPID") then
        realtime_call method_name parameters invocation
      else
        forward_portal_call sender interface_name method_name method parameters invocation
  end.

Definition get_property (b : bus) (name path interface property : text) (no_auto_start : bool) :
    M (gerror + variant) :=
  reply ← call_sync (BusCall b name path (str "org.freedesktop.DBus.Properties") (str "Get")
    [VString interface; VString property] (Some [TVariant]) no_auto_start NoFds);
  mret match reply with
       | inl e => inl e
       | inr [VVariant value] => inr value
       | inr _ => inl INVALID_ARGUMENT
       end.

Definition portal_get_property (interface_name property_name : text) : M (gerror + variant) :=
  if text_eqb interface_name (portal_interface (str "FileChooser"))
     && text_eqb property_name (str "version")
  then
    s ← get;
    match s.(file_chooser_backend) with
    | None => mret (inr (VUint32 4))
    | Some backend =>
        value ← get_property GuestBus backend PORTAL_PATH
          (str "org.freedesktop.impl.portal.FileChooser") (str "version") false;
        mret (inr (VUint32 match value with
                           | inr (VUint32 version) => Z.min 4 version
                           | _ => 4
                           end))
    end
  else get_property HostBus PORTAL_NAME PORTAL_PATH interface_name property_name true.
End frontend.
