(* ===== verification/FrontendNative.v ===== *)
(** * The guest's portal frontend: the services beside the portal
    ([native/spaces_portal.c])

    Notifications, whose icons and files are mapped to the host's; the screen
    saver, whose inhibitors belong to the callers that took them; the power
    manager, of which guests may read only; and the file manager, whose calls
    start [spaces-open]. *)

From S2P Require Import Prelude Glib.
From S2P Require Export Frontend FrontendCalls.

Section natives.
Context `{Guest, Desktop}.

Definition modify_native (f : natives → natives) : M unit :=
  modify (λ s, set_native (f s.(native)) s).

(** ** Notifications *)

Definition resolve_host_file_uri (uri : text) : M (gerror + text) :=
  match broker_name with
  | None => mret (inl NOT_CONNECTED)
  | Some broker =>
      match g_filename_from_uri uri with
      | inl e => mret (inl e)
      | inr filename =>
          descriptor ← perform (Open filename (O_PATH + O_CLOEXEC));
          match descriptor with
          | inl e => mret (inl (FromErrno e))
          | inr descriptor =>
              appended ← perform (FdAppend descriptor);
              reply ←
                (match appended with
                 | Some e => mret (inl e)
                 | None =>
                     call_sync (BusCall HostBus broker INTEGRATION_PATH INTEGRATION_INTERFACE
                       (str "ResolvePath") [VString filename; VHandle 0] (Some [TString]) false
                       (OwnFds [descriptor]))
                 end);
              perform (Close descriptor) ≫= λ _,
              mret match reply with
                   | inl e => inl e
                   | inr [VString uri] => inr uri
                   | inr _ => inl INVALID_ARGUMENT
                   end
          end
      end
  end.

Fixpoint icon_in (directory name : text) (extensions : list text) : M (option text) :=
  match extensions with
  | [] => mret None
  | extension :: extensions =>
      let path := g_build_filename [directory; name ++ extension] in
      regular ← perform (TestFile path IsRegular);
      if regular : bool then mret (Some path) else icon_in directory name extensions
  end.

Definition icon_extensions : list text := [[]; str ".svg"; str ".png"; str ".xpm"].

(** The first result of a search. *)
Fixpoint first_found {A B} (search : A → M (option B)) (l : list A) : M (option B) :=
  match l with
  | [] => mret None
  | x :: l =>
      found ← search x;
      match found with Some y => mret (Some y) | None => first_found search l end
  end.

Fixpoint find_icon_file (depth : nat) (name directory : text) : M (option text) :=
  here ← icon_in directory name icon_extensions;
  match here, depth with
  | Some path, _ => mret (Some path)
  | None, O => mret None
  | None, S depth =>
      entries ← perform (ListDir directory);
      match entries with
      | None => mret None
      | Some entries =>
          first_found (λ entry,
            let path := g_build_filename [directory; entry] in
            symlink ← perform (TestFile path IsSymlink);
            if symlink : bool then mret None
            else
              directory ← perform (TestFile path IsDirectory);
              if directory : bool then find_icon_file depth name path else mret None) entries
      end
  end.

Definition icon_base (icon base : text) : M (option text) :=
  themed ← find_icon_file 2 icon (g_build_filename [base; str "icons"; str "hicolor"]);
  match themed with
  | Some path => mret (Some path)
  | None => find_icon_file 0 icon (g_build_filename [base; str "pixmaps"])
  end.

Definition guest_icon_path (icon : text) : M (option text) :=
  if g_path_is_absolute icon then mret (Some icon)
  else if has_prefix icon (str "file:") then
    mret match g_filename_from_uri icon with inr path => Some path | inl _ => None end
  else if bool_decide (icon = []) || bool_decide ("/"%char ∈ icon)
          || text_eqb icon (str ".") || text_eqb icon (str "..") then mret None
  else first_found (icon_base icon) (g_get_user_data_dir :: take 64 g_get_system_data_dirs).

(** A copy of the icon on the host, by the broker. *)
Definition stage_icon (broker path : text) : M (option text) :=
  fd ← perform (Open path (O_RDONLY + O_CLOEXEC + O_NONBLOCK));
  match fd with
  | inl _ => mret None
  | inr fd =>
      appended ← perform (FdAppend fd);
      reply ←
        (match appended with
         | Some e => mret (inl e)
         | None => call_sync (BusCall HostBus broker INTEGRATION_PATH INTEGRATION_INTERFACE
                     (str "StageFile") [VHandle 0] (Some [TString]) false (OwnFds [fd]))
         end);
      perform (Close fd) ≫= λ _,
      mret match reply with
           | inr [VString uri] =>
               match g_filename_from_uri uri with inr path => Some path | inl _ => None end
           | _ => None
           end
  end.

Definition icon_key (path : text) (info : file_info) : text :=
  path ++ str ":" ++ decimal info.(fi_modified) ++ str ":" ++ decimal info.(fi_modified_usec)
    ++ str ":" ++ signed_decimal info.(fi_size).

Definition host_icon (icon : text) : M text :=
  match getenv (str "SPACES_INTEGRATION_BROKER"), icon with
  | None, _ => mret icon
  | _, [] => mret []
  | Some broker, _ =>
      path ← guest_icon_path icon;
      match path with
      | None => mret icon
      | Some path =>
          info ← perform (QueryInfo path);
          match info with
          | None => mret []
          | Some info =>
              if negb info.(fi_regular) then mret []
              else
                let key := icon_key path info in
                s ← get;
                match s.(native).(icon_files) !! key with
                | Some cached => mret cached
                | None =>
                    result ← stage_icon broker path;
                    match result with
                    | Some result =>
                        modify_native (λ n, set_icon_files (<[key := result]> n.(icon_files)) n)
                          ≫= λ _, mret result
                    | None => mret []
                    end
                end
          end
      end
  end.

Definition map_image (hints : vardict) (dictionary : vardict) (key : text) : M vardict :=
  match lookup_string hints key with
  | Some path => mapped ← host_icon path; mret (dict_insert key (VString mapped) dictionary)
  | None => mret dictionary
  end.

(** Only what the host can open is kept of the file URIs. *)
Fixpoint map_urls (urls : list text) : M (list text) :=
  match urls with
  | [] => mret []
  | uri :: urls =>
      mapped ←
        (if has_prefix uri (str "file:") then
           resolved ← resolve_host_file_uri uri;
           mret match resolved with inr uri => [uri] | inl _ => [] end
         else mret [uri]);
      rest ← map_urls urls;
      mret (mapped ++ rest)
  end.

Definition rewrite_notification_paths (parameters : list variant) : M (list variant) :=
  match parameters with
  | [VString app_name; VUint32 replaces; VString app_icon; VString summary; VString body;
     VStrings actions; VDict hints; VInt32 timeout] =>
      mapped_icon ← host_icon app_icon;
      dictionary ← map_image hints (dict_init hints) (str "image-path");
      dictionary ← map_image hints dictionary (str "image_path");
      dictionary ←
        (match dict_first hints (str "x-kde-urls") with
         | Some (VStrings urls) =>
             urls ← map_urls urls;
             mret (dict_insert (str "x-kde-urls") (VStrings urls) dictionary)
         | _ => mret dictionary
         end);
      mret [VString app_name; VUint32 replaces; VString mapped_icon; VString summary;
            VString body; VStrings actions; VDict dictionary; VInt32 timeout]
  | _ => undefined
  end.

(** ** The screen saver *)

Definition inhibitor_key (throttle : bool) (cookie : Z) : text :=
  str (if throttle then "t" else "i") ++ str ":" ++ decimal cookie.

Definition release_inhibitor (s : frontend) (i : inhibitor) : M unit :=
  match s.(native).(screen_saver_host_path) with
  | None => mret tt
  | Some path =>
      perform (Send (BusCall HostBus SCREEN_SAVER_NAME path SCREEN_SAVER_NAME
        (str (if i.(i_throttle) then "UnThrottle" else "UnInhibit")) [VUint32 i.(i_cookie)]
        None false NoFds))
  end.

Definition screen_call_done (call : screen_call) (answered : reply) : M unit :=
  match answered.1 with
  | inl e => perform (ReturnError call.(sc_invocation) e)
  | inr values =>
      (if call.(sc_add) then
         match values with
         | [VUint32 cookie] =>
             modify_native (λ n, set_inhibitors
               (<[inhibitor_key call.(sc_throttle) cookie :=
                  Inhibitor call.(sc_owner) cookie call.(sc_throttle)]> n.(inhibitors)) n)
         | _ => undefined
         end
       else
         match call.(sc_key) with
         | Some key => modify_native (λ n, set_inhibitors (delete key n.(inhibitors)) n)
         | None => mret tt
         end) ≫= λ _,
      perform (Return call.(sc_invocation) values None)
  end.

Definition screen_saver_application (s : frontend) (application : text) : text :=
  if g_path_is_absolute application then
    let basename := g_path_get_basename application in
    let basename :=
      if has_suffix basename (str ".desktop")
      then take (length basename - length (str ".desktop")) basename else basename in
    let basename :=
      map (λ c, if isalnum c || bool_decide (c ∈ str "._-") then c else "_"%char) basename in
    match basename with
    | [] => application
    | _ => str "spaces-" ++ s.(space_name) ++ str "-v1-" ++ basename
    end
  else application.

(** The four methods that take and release inhibitors. *)
Definition screen_saver_call (s : frontend) (sender host_path method_name : text)
    (parameters : list variant) (invocation : nat) : option (M unit) :=
  if text_eqb method_name (str "Inhibit") || text_eqb method_name (str "Throttle") then
    Some match parameters with
         | [VString application; VString reason] =>
             call_async (BusCall HostBus SCREEN_SAVER_NAME host_path SCREEN_SAVER_NAME
               method_name [VString (screen_saver_application s application); VString reason]
               (Some [TUint32]) false NoFds)
               (ScreenCallDone (ScreenCall invocation sender None true
                 (text_eqb method_name (str "Throttle"))))
         | _ => undefined
         end
  else if text_eqb method_name (str "UnInhibit") || text_eqb method_name (str "UnThrottle") then
    Some match parameters with
         | [VUint32 cookie] =>
             let key := inhibitor_key (text_eqb method_name (str "UnThrottle")) cookie in
             match s.(native).(inhibitors) !! key with
             | None => perform (ReturnError invocation INVALID_ARGS)
             | Some i =>
                 if negb (text_eqb i.(i_owner) sender)
                 then perform (ReturnError invocation ACCESS_DENIED)
                 else call_async (BusCall HostBus SCREEN_SAVER_NAME host_path SCREEN_SAVER_NAME
                        method_name parameters (Some []) false NoFds)
                        (ScreenCallDone (ScreenCall invocation sender (Some key) false false))
             end
         | _ => undefined
         end
  else None.

(** ** Calls the host's services answer *)

Definition power_readonly : list text := map str
  ["CanHibernate"; "CanHybridSuspend"; "CanSuspend"; "CanSuspendThenHibernate";
   "GetPowerSaveStatus"]%string.

(** The object on the host's bus, or how the call was answered. *)
Definition simple_bridge_target (s : frontend)
    (sender object_path interface_name method_name : text) (parameters : list variant)
    (invocation : nat) : M unit + text :=
  if text_eqb interface_name SCREEN_SAVER_NAME then
    match s.(native).(screen_saver_host_path) with
    | None => inl (perform (ReturnError invocation NAME_HAS_NO_OWNER))
    | Some host_path =>
        match screen_saver_call s sender host_path method_name parameters invocation with
        | Some served => inl served
        | None => inr host_path
        end
    end
  else if text_eqb interface_name NOTIFICATIONS_NAME then inr NOTIFICATIONS_PATH
  else if text_eqb interface_name POWER_NAME then
    if bool_decide (method_name ∈ power_readonly) then inr POWER_PATH
    else inl (perform (ReturnError invocation ACCESS_DENIED))
  else inr object_path.

Definition simple_bridge_call (sender object_path interface_name method_name : text)
    (parameters : list variant) (invocation : nat) : M unit :=
  s ← get;
  match simple_bridge_target s sender object_path interface_name method_name parameters
          invocation with
  | inl served => served
  | inr host_path =>
      match find_registered_interface s interface_name ≫= λ info, find_method info method_name with
      | None => perform (ReturnError invocation UNKNOWN_METHOD)
      | Some method =>
          mapped ←
            (if text_eqb interface_name NOTIFICATIONS_NAME && text_eqb method_name (str "Notify")
             then rewrite_notification_paths parameters else mret parameters);
          call_async (BusCall HostBus interface_name host_path interface_name method_name mapped
            (Some (method_output_type method)) false GuestFds) (BridgeDone invocation)
      end
  end.

Definition native_host_signal (path interface signal_name : text) (parameters : list variant) :
    M unit :=
  let saver := text_eqb interface SCREEN_SAVER_NAME in
  perform (Emit GuestBus None (if saver then SCREEN_SAVER_PATH else path) interface signal_name
    parameters) ≫= λ _,
  if saver
  then perform (Emit GuestBus None SCREEN_SAVER_LEGACY_PATH interface signal_name parameters)
  else mret tt.

(** ** The file manager *)

(** Errors and calls are objects: freeing one twice is undefined too. *)
Definition the_error (id : nat) : M gerror :=
  s ← get; match s.(native).(errors) !! id with Some e => mret e | None => undefined end.
Definition new_error (e : gerror) : M nat :=
  id ← new_id;
  modify_native (λ n, set_errors (<[id := e]> n.(errors)) n) ≫= λ _, mret id.
Definition g_clear_error (error : option nat) : M unit :=
  match error with
  | None => mret tt
  | Some id =>
      the_error id ≫= λ _, modify_native (λ n, set_errors (delete id n.(errors)) n)
  end.

Definition the_file_call (id : nat) : M file_manager :=
  s ← get; match s.(native).(file_calls) !! id with Some c => mret c | None => undefined end.
Definition set_file_call (id : nat) (c : file_manager) : M unit :=
  modify_native (λ n, set_file_calls (<[id := c]> n.(file_calls)) n).

Definition finish_file_manager (call : nat) : M unit :=
  c ← the_file_call call;
  if negb (c.(fm_pending) =? 0) then mret tt
  else
    match c.(fm_error) with
    | Some id => e ← the_error id; perform (ReturnError c.(fm_invocation) e)
    | None => perform (Return c.(fm_invocation) [] None)
    end ≫= λ _,
    g_clear_error c.(fm_error) ≫= λ _,
    modify_native (λ n, set_file_calls (delete call n.(file_calls)) n).

Definition file_manager_done (call : nat) (ended : gerror + list variant) : M unit :=
  c ← the_file_call call;
  error ← (match ended, c.(fm_error) with
           | inl e, None => id ← new_error e; mret (Some id)
           | _, error => mret error
           end);
  set_file_call call (FileManager c.(fm_invocation) (c.(fm_pending) - 1) error) ≫= λ _,
  finish_file_manager call.

(** A failed [g_subprocess_launcher_spawnv] sets the variable [error] unless it
    is set already; then GLib warns and drops the new error. *)
Definition set_error (error : option nat) (e : gerror) : M nat :=
  match error with Some id => mret id | None => new_error e end.

Fixpoint spawn_openers (call : nat) (mode : text) (startup : option text) (uris : list text)
    (error : option nat) : M unit :=
  match uris with
  | [] => mret tt
  | uri :: uris =>
      spawned ← perform (Spawn [str "/run/spaces-host/bin/spaces-open"; mode; uri] startup);
      c ← the_file_call call;
      match spawned with
      | inl e =>
          id ← set_error error e;
          match c.(fm_error) with
          | None =>
              set_file_call call (FileManager c.(fm_invocation) c.(fm_pending) (Some id))
                ≫= λ _, spawn_openers call mode startup uris (Some id)
          | Some _ =>
              g_clear_error (Some id) ≫= λ _, spawn_openers call mode startup uris None
          end
      | inr _ =>
          set_file_call call (FileManager c.(fm_invocation) (c.(fm_pending) + 1) c.(fm_error))
            ≫= λ _,
          n ← new_id;
          modify (λ s, set_pending (<[n := Pending None (FileManagerDone call)]> s.(pending)) s)
            ≫= λ _,
          spawn_openers call mode startup uris error
      end
  end.

Definition file_manager_call (method_name : text) (parameters : list variant)
    (invocation : nat) : M unit :=
  if text_eqb method_name (str "ShowItemProperties") then
    perform (ReturnError invocation NOT_SUPPORTED)
  else
    let mode := str (if text_eqb method_name (str "ShowFolders") then "--folder"
                     else "--directory") in
    match parameters with
    | [VStrings uris; VString startup] =>
        call ← new_id;
        set_file_call call (FileManager invocation 0 None) ≫= λ _,
        spawn_openers call mode (match startup with [] => None | _ => Some startup end) uris None
          ≫= λ _,
        finish_file_manager call
    | _ => undefined
    end.
End natives.
