(* ===== verification/Mirrors.v ===== *)
(** * The guest's portal frontend: players and tray icons
    ([native/spaces_portal.c])

    The frontend mirrors the guest's media players and the items of its system
    tray on the host's bus, each under a name of its own: it exports the
    interfaces the guest's object has, forwards the calls it gets from the host
    to the guest, and the guest's signals to the host.  Artwork and icons are
    copied to the host by the broker. *)

From S2P Require Import Prelude Glib.
From S2P Require Export Frontend FrontendCalls FrontendNative.

Section mirrors.
Context `{Guest, Desktop}.

Definition modify_mirrors (f : mirror_state → mirror_state) : M unit :=
  modify (λ s, set_mirroring (f s.(mirroring)) s).

Definition the_mirror (id : nat) : M mirror :=
  s ← get;
  match s.(mirroring).(mirror_objects) !! id with Some m => mret m | None => undefined end.

Definition put_mirror (id : nat) (m : mirror) : M unit :=
  modify_mirrors (λ x, set_mirror_objects (<[id := m]> x.(mirror_objects)) x).

Definition set_artwork (uris : list text) (m : mirror) : mirror :=
  Mirror m.(mi_key) m.(mi_guest_name) m.(mi_guest_owner) m.(mi_guest_path) m.(mi_host_name)
    m.(mi_status_item) m.(mi_nodes) m.(mi_paths) uris m.(mi_registrations) m.(mi_subscribed)
    m.(mi_owns).
Definition add_node (node : node_info) (path : text) (m : mirror) : mirror :=
  Mirror m.(mi_key) m.(mi_guest_name) m.(mi_guest_owner) m.(mi_guest_path) m.(mi_host_name)
    m.(mi_status_item) (m.(mi_nodes) ++ [node]) (m.(mi_paths) ++ [path]) m.(mi_artwork_uris)
    m.(mi_registrations) m.(mi_subscribed) m.(mi_owns).
Definition add_registration (n : nat) (m : mirror) : mirror :=
  Mirror m.(mi_key) m.(mi_guest_name) m.(mi_guest_owner) m.(mi_guest_path) m.(mi_host_name)
    m.(mi_status_item) m.(mi_nodes) m.(mi_paths) m.(mi_artwork_uris)
    (m.(mi_registrations) ++ [n]) m.(mi_subscribed) m.(mi_owns).
Definition set_host_name (name : text) (m : mirror) : mirror :=
  Mirror m.(mi_key) m.(mi_guest_name) m.(mi_guest_owner) m.(mi_guest_path) name
    m.(mi_status_item) m.(mi_nodes) m.(mi_paths) m.(mi_artwork_uris) m.(mi_registrations)
    m.(mi_subscribed) m.(mi_owns).
Definition set_subscribed (m : mirror) : mirror :=
  Mirror m.(mi_key) m.(mi_guest_name) m.(mi_guest_owner) m.(mi_guest_path) m.(mi_host_name)
    m.(mi_status_item) m.(mi_nodes) m.(mi_paths) m.(mi_artwork_uris) m.(mi_registrations)
    true m.(mi_owns).
Definition set_owns (m : mirror) : mirror :=
  Mirror m.(mi_key) m.(mi_guest_name) m.(mi_guest_owner) m.(mi_guest_path) m.(mi_host_name)
    m.(mi_status_item) m.(mi_nodes) m.(mi_paths) m.(mi_artwork_uris) m.(mi_registrations)
    m.(mi_subscribed) true.

(** ** Artwork *)

Fixpoint remove_staged (broker : text) (uris : list text) : M unit :=
  match uris with
  | [] => mret tt
  | uri :: uris =>
      perform (Send (BusCall HostBus broker INTEGRATION_PATH INTEGRATION_INTERFACE
        (str "RemoveStagedFile") [VString uri] None false NoFds)) ≫= λ _,
      remove_staged broker uris
  end.

Definition clear_mirror_artwork (id : nat) : M unit :=
  m ← the_mirror id;
  match getenv (str "SPACES_INTEGRATION_BROKER") with
  | Some broker => remove_staged broker m.(mi_artwork_uris)
  | None => mret tt
  end ≫= λ _,
  put_mirror id (set_artwork [] m).

Definition art_url := str "mpris:artUrl".

Definition stage_artwork (id : nat) (value : variant) : M variant :=
  match getenv (str "SPACES_INTEGRATION_BROKER"), value with
  | Some broker, VDict metadata =>
      match lookup_string metadata art_url with
      | Some art_uri =>
          if negb (has_prefix art_uri (str "file:")) then mret value
          else
            match g_filename_from_uri art_uri with
            | inl _ => mret value
            | inr filename =>
                descriptor ← perform (Open filename (O_RDONLY + O_CLOEXEC + O_NOFOLLOW));
                match descriptor with
                | inl _ => mret value
                | inr descriptor =>
                    appended ← perform (FdAppend descriptor);
                    staged ←
                      (match appended with
                       | Some e => mret (inl e)
                       | None => call_sync (BusCall HostBus broker INTEGRATION_PATH
                                   INTEGRATION_INTERFACE (str "StageFile") [VHandle 0]
                                   (Some [TString]) false (OwnFds [descriptor]))
                       end);
                    value ←
                      (match staged with
                       | inr [VString host_uri] =>
                           clear_mirror_artwork id ≫= λ _,
                           m ← the_mirror id;
                           put_mirror id (set_artwork [host_uri] m) ≫= λ _,
                           mret (VDict (dict_insert art_url (VString host_uri)
                                          (dict_init metadata)))
                       | _ => mret value
                       end);
                    perform (Close descriptor) ≫= λ _, mret value
                end
            end
      | None => mret value
      end
  | _, _ => mret value
  end.

(** ** Calls and signals *)

(** The first interface of the name in any node. *)
Definition mirror_interface (m : mirror) (name : text) : option interface_info :=
  list_find (λ node, is_Some (lookup_interface node name)) m.(mi_nodes)
    ≫= λ p, lookup_interface p.2 name.

Definition mirror_call_done (invocation : nat) (answered : reply) : M unit :=
  match answered.1 with
  | inl e => perform (ReturnError invocation e)
  | inr values => perform (Return invocation values answered.2)
  end.

Definition mirror_method_call (id : nat) (object_path interface_name method_name : text)
    (parameters : list variant) (invocation : nat) : M unit :=
  m ← the_mirror id;
  match mirror_interface m interface_name ≫= λ info, find_method info method_name with
  | None => perform (ReturnError invocation UNKNOWN_METHOD)
  | Some method =>
      call_async (BusCall GuestBus m.(mi_guest_name) object_path interface_name method_name
        parameters (Some (method_output_type method)) false GuestFds) (MirrorCallDone invocation)
  end.

Definition PLAYER_INTERFACE := str "org.mpris.MediaPlayer2.Player".
Definition icon_names : list text := map str
  ["IconName"; "AttentionIconName"; "OverlayIconName"]%string.

Definition mirror_get_property (id : nat) (object_path interface_name property_name : text) :
    M (gerror + variant) :=
  m ← the_mirror id;
  reply ← get_property GuestBus m.(mi_guest_name) object_path interface_name property_name false;
  match reply with
  | inl e => mret (inl e)
  | inr value =>
      value ←
        (if text_eqb interface_name PLAYER_INTERFACE
            && text_eqb property_name (str "Metadata")
         then stage_artwork id value else mret value);
      match m.(mi_status_item) && text_eqb interface_name STATUS_ITEM_INTERFACE
              && bool_decide (property_name ∈ icon_names), value with
      | true, VString icon => icon ← host_icon icon; mret (inr (VString icon))
      | _, _ => mret (inr value)
      end
  end.

Definition mirror_set_property (id : nat) (object_path interface_name property_name : text)
    (value : variant) : M (option gerror) :=
  m ← the_mirror id;
  reply ← call_sync (BusCall GuestBus m.(mi_guest_name) object_path
    (str "org.freedesktop.DBus.Properties") (str "Set")
    [VString interface_name; VString property_name; VVariant value] (Some []) false NoFds);
  mret match reply with inl e => Some e | inr _ => None end.

Fixpoint map_icons (names : list text) (changed dictionary : vardict) : M vardict :=
  match names with
  | [] => mret dictionary
  | name :: names =>
      dictionary ← map_image changed dictionary name;
      map_icons names changed dictionary
  end.

(** What [PropertiesChanged] becomes for the host. *)
Definition mirror_changed (id : nat) (status_item : bool) (changed_interface : text)
    (changed : vardict) : M vardict :=
  changed ←
    (if text_eqb changed_interface PLAYER_INTERFACE then
       match dict_first changed (str "Metadata") with
       | Some (VDict metadata) =>
           staged ← stage_artwork id (VDict metadata);
           mret (dict_insert (str "Metadata") staged (dict_init changed))
       | _ => mret changed
       end
     else mret changed);
  if status_item && text_eqb changed_interface STATUS_ITEM_INTERFACE
  then map_icons icon_names changed (dict_init changed)
  else mret changed.

Definition mirror_guest_signal (id : nat) (sender object_path interface_name signal_name : text)
    (parameters : list variant) : M unit :=
  m ← the_mirror id;
  if negb (text_eqb sender m.(mi_guest_owner)) || negb (bool_decide (object_path ∈ m.(mi_paths)))
  then mret tt
  else
    forwarded ←
      (if text_eqb interface_name (str "org.freedesktop.DBus.Properties")
          && text_eqb signal_name (str "PropertiesChanged") then
         match parameters with
         | [VString changed_interface; VDict changed; VStrings invalidated] =>
             changed ← mirror_changed id m.(mi_status_item) changed_interface changed;
             mret [VString changed_interface; VDict changed; VStrings invalidated]
         | _ => undefined
         end
       else mret parameters);
    perform (Emit HostBus None object_path interface_name signal_name forwarded).

(** ** Mirrored objects *)

Definition register_mirrored (id : nat) (path : text) (info : interface_info) :
    M (gerror + nat) :=
  s ← get;
  if bool_decide (map_Exists
       (λ _ x, x.(h_path) = path ∧ x.(h_info).(i_name) = info.(i_name))
       s.(mirroring).(host_exports))
  then mret (inl EXISTS)
  else
    n ← new_id;
    modify_mirrors (λ x, set_host_exports (<[n := HostExport path info id]> x.(host_exports)) x)
      ≫= λ _, mret (inr n).

(** The first 128 properties, those of the introspection first.  The code
    changes the interface in its node; only its properties change, and the node
    is searched for methods. *)
Fixpoint add_properties (values : vardict) (names : list text) : list text :=
  match values with
  | [] => names
  | (name, _) :: values =>
      add_properties values
        (if (length names <? 128)%nat && g_dbus_is_member_name name
            && negb (bool_decide (name ∈ names))
         then names ++ [name] else names)
  end.

Definition published (m : mirror) (path : text) (info : interface_info) : M interface_info :=
  if m.(mi_status_item) && text_eqb info.(i_name) STATUS_ITEM_INTERFACE then
    all ← call_sync (BusCall GuestBus m.(mi_guest_name) path
      (str "org.freedesktop.DBus.Properties") (str "GetAll") [VString info.(i_name)]
      (Some [TVardict]) false NoFds);
    mret match all with
         | inr [VDict properties] =>
             Interface info.(i_name) info.(i_methods)
               (add_properties properties info.(i_properties))
         | _ => info
         end
  else mret info.

Fixpoint mirror_interfaces (id : nat) (path : text) (node : node_info) : M (option gerror) :=
  match node with
  | [] => mret None
  | info :: node =>
      if has_prefix info.(i_name) (str "org.freedesktop.DBus.") then
        mirror_interfaces id path node
      else
        m ← the_mirror id;
        info ← published m path info;
        registered ← register_mirrored id path info;
        match registered with
        | inl e => mret (Some e)
        | inr n =>
            put_mirror id (add_registration n m) ≫= λ _,
            mirror_interfaces id path node
        end
  end.

Definition mirrorable (node : node_info) : bool :=
  existsb (λ i, negb (has_prefix i.(i_name) (str "org.freedesktop.DBus."))) node.

Definition in_arg (type : vtype) : arg_info := Arg None type.

(** [mpris_fallback_xml]. *)
Definition mpris_fallback : node_info :=
  [Interface (str "org.mpris.MediaPlayer2")
     [Method (str "Raise") [] []; Method (str "Quit") [] []]
     (map str ["CanQuit"; "CanRaise"; "HasTrackList"; "Identity"; "DesktopEntry";
               "SupportedUriSchemes"; "SupportedMimeTypes"]%string);
   Interface (str "org.mpris.MediaPlayer2.Player")
     [Method (str "Next") [] []; Method (str "Previous") [] []; Method (str "Pause") [] [];
      Method (str "PlayPause") [] []; Method (str "Stop") [] []; Method (str "Play") [] [];
      Method (str "Seek") [in_arg TInt64] [];
      Method (str "SetPosition") [in_arg TObject; in_arg TInt64] [];
      Method (str "OpenUri") [in_arg TString] []]
     (map str ["PlaybackStatus"; "LoopStatus"; "Rate"; "Shuffle"; "Metadata"; "Volume";
               "Position"; "MinimumRate"; "MaximumRate"; "CanGoNext"; "CanGoPrevious";
               "CanPlay"; "CanPause"; "CanSeek"; "CanControl"]%string)].

Definition mirror_add_path (id : nat) (path : text) : M (option gerror) :=
  m ← the_mirror id;
  reply ← call_sync (BusCall GuestBus m.(mi_guest_name) path
    (str "org.freedesktop.DBus.Introspectable") (str "Introspect") [] (Some [TString]) false
    NoFds);
  match (match reply with
         | inl e => inl e
         | inr [VString xml] => g_dbus_node_info_new_for_xml xml
         | inr _ => inl INVALID_ARGUMENT
         end) with
  | inl e => mret (Some e)
  | inr node =>
      let node :=
        if negb m.(mi_status_item) && text_eqb path MPRIS_PATH && negb (mirrorable node)
        then mpris_fallback else node in
      put_mirror id (add_node node path m) ≫= λ _,
      failed ← mirror_interfaces id path node;
      match failed with
      | Some e => mret (Some e)
      | None =>
          now ← the_mirror id;
          mret (if bool_decide (length now.(mi_registrations) = length m.(mi_registrations))
                then Some NOT_SUPPORTED else None)
      end
  end.

Fixpoint unregister_mirrored (registrations : list nat) : M unit :=
  match registrations with
  | [] => mret tt
  | n :: registrations =>
      modify_mirrors (λ x, set_host_exports (delete n x.(host_exports)) x) ≫= λ _,
      unregister_mirrored registrations
  end.

Definition mirror_free (id : nat) : M unit :=
  clear_mirror_artwork id ≫= λ _,
  m ← the_mirror id;
  (if m.(mi_owns) then perform (UnownName HostBus m.(mi_host_name)) else mret tt) ≫= λ _,
  unregister_mirrored m.(mi_registrations) ≫= λ _,
  modify_mirrors (λ x, set_mirror_objects (delete id x.(mirror_objects)) x).

Definition remove_mirror (key : text) : M unit :=
  s ← get;
  match s.(mirroring).(mirrors) !! key with
  | Some id =>
      modify_mirrors (λ x, set_mirrors (delete key x.(mirrors)) x) ≫= λ _, mirror_free id
  | None => mret tt
  end.

Definition mirror_name_acquired (id : nat) : M unit :=
  m ← the_mirror id;
  if m.(mi_status_item) then
    perform (Send (BusCall HostBus STATUS_WATCHER_NAME STATUS_WATCHER_PATH
      STATUS_WATCHER_INTERFACE (str "RegisterStatusNotifierItem") [VString m.(mi_host_name)]
      None false NoFds))
  else mret tt.

Definition mirror_name_lost (id : nat) : M unit :=
  m ← the_mirror id; remove_mirror m.(mi_key).

(** ** Names on the host's bus *)

Definition g_ascii_tolower (c : ascii) : ascii :=
  if (65 <=? code c) && (code c <=? 90) then char (code c + 32) else c.

(** [component] is the text so far; [separator] says that it ends in a hyphen
    that stands for other characters. *)
Fixpoint app_component_loop (value component : text) (separator : bool) : text :=
  match value with
  | [] => component
  | c :: value =>
      if (length component <? 63)%nat then
        if isalnum c || bool_decide (c = "_"%char) || bool_decide (c = "-"%char) then
          app_component_loop value (component ++ [g_ascii_tolower c]) false
        else if negb separator && negb (bool_decide (component = [])) then
          app_component_loop value (component ++ ["-"%char]) true
        else app_component_loop value component separator
      else component
  end.

(** [g_string_truncate] while the text ends in a hyphen. *)
Definition trim_hyphens (component : text) : text :=
  rev (skip_while (λ c, bool_decide (c = "-"%char)) (rev component)).

Definition mirror_app_component (value : text) : text :=
  match trim_hyphens (app_component_loop value [] false) with
  | [] => str "app"
  | component => component
  end.

(** What follows the last dot, if there is one. *)
Definition after_last_dot (name : text) : text :=
  rev (take_while (λ c, negb (bool_decide (c = "."%char))) (rev name)).

Definition status_item_app (m : mirror) : M text :=
  id ← get_property GuestBus m.(mi_guest_name) m.(mi_guest_path) STATUS_ITEM_INTERFACE
         (str "Id") false;
  mret match id with
       | inr (VString id) => mirror_app_component id
       | _ => mirror_app_component (after_last_dot m.(mi_guest_name))
       end.

Definition mpris_app (guest_name : text) : text :=
  let start := if has_prefix guest_name MPRIS_PREFIX
               then drop (length MPRIS_PREFIX) guest_name else guest_name in
  mirror_app_component (take_while (λ c, negb (bool_decide (c = "."%char))) start).

Definition host_name_of (space prefix app : text) (item : bool) (serial : Z) : text :=
  let space_app := space ++ str "-" ++ app in
  prefix ++ str ".spaces.space."
    ++ (match space_app with c :: _ => if is_digit c then str "s" else [] | [] => [] end)
    ++ space_app ++ str "." ++ str (if item then "item" else "player") ++ str ".i"
    ++ decimal serial.

Definition mirror_host_name (prefix app : text) (item : bool) : M text :=
  modify_mirrors (λ x, set_mirror_serial (u32 (x.(mirror_serial) + 1)) x) ≫= λ _,
  s ← get;
  mret (host_name_of s.(space_name) prefix app item s.(mirroring).(mirror_serial)).

(** ** Making mirrors *)

Definition name_owner (name : text) : M (gerror + text) :=
  reply ← call_sync (BusCall GuestBus DBUS_NAME DBUS_PATH DBUS_NAME (str "GetNameOwner")
    [VString name] (Some [TString]) false NoFds);
  mret match reply with
       | inl e => inl e
       | inr [VString owner] => inr owner
       | inr _ => inl INVALID_ARGUMENT
       end.

Definition same_connection_process (first second : text) : M bool :=
  if text_eqb first second then mret true
  else
    first_process ← connection_pid first;
    match first_process with
    | inl _ => mret false
    | inr first_process =>
        second_process ← connection_pid second;
        mret match second_process with
             | inl _ => false
             | inr second_process => first_process =? second_process
             end
    end.

(** The menu of a tray icon, which may have none. *)
Definition mirror_menu (id : nat) (guest_name guest_path : text) : M unit :=
  menu ← get_property GuestBus guest_name guest_path STATUS_ITEM_INTERFACE (str "Menu") false;
  match menu with
  | inr (VObject menu_path) =>
      if text_eqb menu_path (str "/") then mret tt
      else mirror_add_path id menu_path ≫= λ _, mret tt
  | _ => mret tt
  end.

Definition new_mirror (m : mirror) : M nat :=
  id ← new_id; put_mirror id m ≫= λ _, mret id.

Definition own_host_name (id : nat) : M unit :=
  m ← the_mirror id;
  put_mirror id (set_owns m) ≫= λ _,
  perform (OwnName HostBus m.(mi_host_name)).

Definition create_mirror (key guest_name guest_path : text) (status_item : bool) :
    M (option gerror) :=
  s ← get;
  if bool_decide (is_Some (s.(mirroring).(mirrors) !! key)) then mret None
  else
    owner ← name_owner guest_name;
    id ← new_mirror (Mirror key guest_name (match owner with inr o => o | inl _ => [] end)
           guest_path [] status_item [] [] [] [] false false);
    match owner with
    | inl e => mirror_free id ≫= λ _, mret (Some e)
    | inr _ =>
        m ← the_mirror id;
        app ← (if status_item then status_item_app m else mret (mpris_app guest_name));
        host_name ← mirror_host_name
          (if status_item then STATUS_ITEM_INTERFACE else str "org.mpris.MediaPlayer2")
          app status_item;
        put_mirror id (set_host_name host_name m) ≫= λ _,
        failed ← mirror_add_path id guest_path;
        match failed with
        | Some e => mirror_free id ≫= λ _, mret (Some e)
        | None =>
            (if status_item then mirror_menu id guest_name guest_path else mret tt) ≫= λ _,
            m ← the_mirror id;
            put_mirror id (set_subscribed m) ≫= λ _,
            modify_mirrors (λ x, set_mirrors (<[key := id]> x.(mirrors)) x) ≫= λ _,
            own_host_name id ≫= λ _,
            mret None
        end
    end.

(** ** Tray icons *)

Definition add_source (delay_ms : option Z) (x : source) : M unit :=
  n ← new_id;
  modify_mirrors (λ m, set_sources (<[n := x]> m.(sources)) m) ≫= λ _,
  perform (Defer delay_ms).

Definition publish_status_item (item : status_item) : M unit :=
  owner ← name_owner item.(si_service);
  match owner with
  | inl _ => mret tt
  | inr owner =>
      if text_eqb owner item.(si_owner) then
        failed ← create_mirror item.(si_key) item.(si_service) item.(si_path) true;
        match failed with
        | None => perform (Emit GuestBus None STATUS_WATCHER_PATH STATUS_WATCHER_INTERFACE
                    (str "StatusNotifierItemRegistered") [VString item.(si_service)])
        | Some _ => mret tt
        end
      else mret tt
  end.

Definition status_watcher_call (sender method_name : text) (parameters : list variant)
    (invocation : nat) : M unit :=
  match parameters with
  | [VString argument] =>
      if text_eqb method_name (str "RegisterStatusNotifierHost") then
        perform (Return invocation [] None)
      else if negb (text_eqb method_name (str "RegisterStatusNotifierItem")) then
        perform (ReturnError invocation UNKNOWN_METHOD)
      else
        let '(service, path) :=
          if g_variant_is_object_path argument then (sender, argument)
          else (argument, str "/StatusNotifierItem") in
        owner ← name_owner service;
        same ← (match owner with
                | inr owner => same_connection_process owner sender
                | inl _ => mret false
                end);
        match owner, same : bool with
        | inr owner, true =>
            perform (Return invocation [] None) ≫= λ _,
            add_source None (PublishStatusItem (StatusItem service owner path
              (str "sni:" ++ service ++ str ":" ++ path)))
        | _, _ => perform (ReturnError invocation ACCESS_DENIED)
        end
  | _ => undefined
  end.

(** The order of the items is that of the hash table. *)
Definition status_items (s : frontend) : list text :=
  omap (λ p, m ← s.(mirroring).(mirror_objects) !! p.2;
             if m.(mi_status_item) then Some m.(mi_guest_name) else None)
    (map_to_list s.(mirroring).(mirrors)).

Definition status_watcher_property (property_name : text) : M (option variant) :=
  s ← get;
  mret (if text_eqb property_name (str "IsStatusNotifierHostRegistered") then Some (VBoolean true)
        else if text_eqb property_name (str "ProtocolVersion") then Some (VInt32 0)
        else if text_eqb property_name (str "RegisteredStatusNotifierItems")
        then Some (VStrings (status_items s))
        else None).

(** ** Players *)

Definition mpris_key (name : text) : text := str "mpris:" ++ name.

(** Whether the timeout goes on; the last try leaves nothing. *)
Definition retry_mpris (name : text) (remaining : Z) : M (option Z) :=
  failed ← create_mirror (mpris_key name) name MPRIS_PATH false;
  mret match failed with
       | None => None
       | Some _ => if remaining - 1 =? 0 then None else Some (remaining - 1)
       end.

Definition maybe_add_mpris (name : text) : M unit :=
  if has_prefix name MPRIS_PREFIX then add_source (Some 100) (RetryMpris name 20)
  else mret tt.

Fixpoint maybe_add_all (names : list text) : M unit :=
  match names with
  | [] => mret tt
  | name :: names => maybe_add_mpris name ≫= λ _, maybe_add_all names
  end.

Definition discover_mpris : M unit :=
  reply ← call_sync (BusCall GuestBus DBUS_NAME DBUS_PATH DBUS_NAME (str "ListNames") []
    (Some [TStrings]) false NoFds);
  match reply with
  | inr [VStrings names] => maybe_add_all names
  | _ => mret tt
  end.

(** What a source of the main loop does when it is run; a timeout that goes on
    keeps its number. *)
Definition run_source (n : nat) (x : source) : M unit :=
  modify_mirrors (λ m, set_sources (delete n m.(sources)) m) ≫= λ _,
  match x with
  | PublishStatusItem item => publish_status_item item
  | RetryMpris name remaining =>
      again ← retry_mpris name remaining;
      match again with
      | Some remaining =>
          modify_mirrors (λ m, set_sources (<[n := RetryMpris name remaining]> m.(sources)) m)
      | None => mret tt
      end
  end.
End mirrors.
