(* ===== verification/FrontendMain.v ===== *)
(** * The guest's portal frontend: signals, start-up and the main loop
    ([native/spaces_portal.c])

    What the frontend does with the host's signals and with names of the guest's
    bus that change, what it exports when it starts, and [dispatch], which runs
    the handler of one input as GIO does. *)

From S2P Require Import Prelude Glib.
From S2P Require Export Frontend FrontendCalls FrontendNative Mirrors.

Section main.
Context `{Guest, Desktop}.

(** ** Signals of the host *)

Definition map_response (r : request) (parameters : list variant) : M (list variant) :=
  match parameters with
  | [VUint32 response; VDict results] =>
      results ←
        (match session_handle results, r.(r_guest_session_path) with
         | Some (host_session, handle), Some guest_path =>
             if response =? 0 then
               registered ←
                 (if g_variant_is_object_path host_session
                  then register_session r.(r_owner) (Some guest_path) host_session
                  else mret false);
               mret (if registered : bool
                     then dict_insert (str "session_handle") (handle guest_path)
                            (dict_init results)
                     else results)
             else mret results
         | _, _ => mret results
         end);
      mapped ← translate_object_paths (VDict results) false;
      mret [VUint32 response; mapped]
  | _ => undefined
  end.

Definition remove_request (r : request) : M unit :=
  match r.(r_host_path) with Some path => remove_request_host path | None => mret tt end ≫= λ _,
  remove_request_guest r.(r_guest_path).

Definition is_response (interface_name signal_name : text) : bool :=
  text_eqb interface_name REQUEST_INTERFACE && text_eqb signal_name (str "Response").

Definition mapped_parameters (parameters : list variant) : M (list variant) :=
  mapped ← translate_object_paths (VTuple parameters) false;
  match mapped with VTuple values => mret values | _ => undefined end.

(** The objects of the tables are searched before a signal for a session is
    taken to be one of the portal itself. *)
Definition host_portal_signal (object_path interface_name signal_name : text)
    (parameters : list variant) : M unit :=
  request ← lookup_request requests_host object_path;
  session ← lookup_session sessions_host object_path;
  let forward destination guest_path values :=
    perform (Emit GuestBus destination guest_path interface_name signal_name values) in
  match request, session with
  | Some (_, r), _ =>
      if is_response interface_name signal_name then
        if r.(r_cancelled) then remove_request r
        else
          mapped ← map_response r parameters;
          forward (Some r.(r_owner)) r.(r_guest_path) mapped ≫= λ _,
          if r.(r_persistent) then mret tt else remove_request r
      else
        mapped ← mapped_parameters parameters;
        forward (Some r.(r_owner)) r.(r_guest_path) mapped ≫= λ _,
        match session with
        | Some (_, x) =>
            if text_eqb interface_name SESSION_INTERFACE && text_eqb signal_name (str "Closed")
            then remove_session_host x.(s_host_path) ≫= λ _,
                 remove_session_guest x.(s_guest_path)
            else mret tt
        | None => mret tt
        end
  | None, Some (_, x) =>
      mapped ← mapped_parameters parameters;
      forward (Some x.(s_owner)) x.(s_guest_path) mapped ≫= λ _,
      if text_eqb interface_name SESSION_INTERFACE && text_eqb signal_name (str "Closed")
      then remove_session_host x.(s_host_path) ≫= λ _, remove_session_guest x.(s_guest_path)
      else mret tt
  | None, None =>
      if text_eqb object_path PORTAL_PATH then
        mapped ← mapped_parameters parameters; forward None object_path mapped
      else mret tt
  end.

(** ** Names of the guest's bus *)

Definition close_host (path : option text) (interface : text) : M unit :=
  match path with Some path => close_host_object path interface | None => mret tt end.

(** Closes what the client has on the host; the guest paths of it. *)
Fixpoint close_requests (name : text) (entries : list (text * nat)) : M (list text) :=
  match entries with
  | [] => mret []
  | (_, id) :: entries =>
      r ← the_request id;
      if text_eqb r.(r_owner) name then
        close_host r.(r_host_path) REQUEST_INTERFACE ≫= λ _,
        rest ← close_requests name entries;
        mret (r.(r_guest_path) :: rest)
      else close_requests name entries
  end.

Fixpoint remove_requests (paths : list text) : M unit :=
  match paths with
  | [] => mret tt
  | path :: paths =>
      found ← lookup_request requests_guest path;
      match found with
      | Some (_, r) =>
          match r.(r_host_path) with Some h => remove_request_host h | None => mret tt end
      | None => mret tt
      end ≫= λ _,
      remove_request_guest path ≫= λ _,
      remove_requests paths
  end.

Fixpoint close_sessions (name : text) (entries : list (text * nat)) : M (list text) :=
  match entries with
  | [] => mret []
  | (_, id) :: entries =>
      x ← the_session id;
      if text_eqb x.(s_owner) name then
        close_host_object x.(s_host_path) SESSION_INTERFACE ≫= λ _,
        rest ← close_sessions name entries;
        mret (x.(s_guest_path) :: rest)
      else close_sessions name entries
  end.

Fixpoint remove_sessions (paths : list text) : M unit :=
  match paths with
  | [] => mret tt
  | path :: paths =>
      found ← lookup_session sessions_guest path;
      match found with
      | Some (_, x) => remove_session_host x.(s_host_path)
      | None => mret tt
      end ≫= λ _,
      remove_session_guest path ≫= λ _,
      remove_sessions paths
  end.

(** The mirrors of a connection, by their keys; tray icons are announced. *)
Fixpoint mirrors_of (owner : text) (announce : bool) (entries : list (text * nat)) :
    M (list text) :=
  match entries with
  | [] => mret []
  | (key, id) :: entries =>
      m ← the_mirror id;
      if text_eqb m.(mi_guest_owner) owner then
        (if announce && m.(mi_status_item) then
           perform (Emit GuestBus None STATUS_WATCHER_PATH STATUS_WATCHER_INTERFACE
             (str "StatusNotifierItemUnregistered") [VString m.(mi_guest_name)])
         else mret tt) ≫= λ _,
        rest ← mirrors_of owner announce entries;
        mret (key :: rest)
      else mirrors_of owner announce entries
  end.

Fixpoint remove_mirrors (keys : list text) : M unit :=
  match keys with
  | [] => mret tt
  | key :: keys => remove_mirror key ≫= λ _, remove_mirrors keys
  end.

Fixpoint release_inhibitors (name : text) (entries : list (text * inhibitor)) : M unit :=
  match entries with
  | [] => mret tt
  | (key, i) :: entries =>
      (if text_eqb i.(i_owner) name then
         s ← get;
         release_inhibitor s i ≫= λ _,
         modify_native (λ n, set_inhibitors (delete key n.(inhibitors)) n)
       else mret tt) ≫= λ _,
      release_inhibitors name entries
  end.

Definition requests_vanished (name : text) : M unit :=
  s ← get;
  paths ← close_requests name (map_to_list s.(requests_guest));
  remove_requests paths.

Definition sessions_vanished (name : text) : M unit :=
  s ← get;
  paths ← close_sessions name (map_to_list s.(sessions_guest));
  remove_sessions paths.

Definition mirrors_vanished (owner : text) (announce : bool) : M unit :=
  s ← get;
  keys ← mirrors_of owner announce (map_to_list s.(mirroring).(mirrors));
  remove_mirrors keys.

Definition inhibitors_vanished (name : text) : M unit :=
  s ← get; release_inhibitors name (map_to_list s.(native).(inhibitors)).

Definition guest_name_changed (name old_owner new_owner : text) : M unit :=
  match new_owner, old_owner with
  | _ :: _, _ =>
      (match old_owner with [] => mret tt | _ => mirrors_vanished old_owner false end) ≫= λ _,
      maybe_add_mpris name
  | [], [] => mret tt
  | [], _ =>
      requests_vanished name ≫= λ _,
      sessions_vanished name ≫= λ _,
      mirrors_vanished old_owner true ≫= λ _,
      inhibitors_vanished name
  end.

(** ** The host's screen saver *)

Definition host_path_has_interface (name path interface : text) : M bool :=
  reply ← call_sync (BusCall HostBus name path (str "org.freedesktop.DBus.Introspectable")
    (str "Introspect") [] (Some [TString]) false NoFds);
  mret match reply with
       | inr [VString xml] =>
           match g_dbus_node_info_new_for_xml xml with
           | inr node => bool_decide (is_Some (lookup_interface node interface))
           | inl _ => false
           end
       | _ => false
       end.

Definition set_saver (path : option text) : M unit :=
  modify_native (set_screen_saver_host_path path).

Definition discover_screen_saver : M unit :=
  set_saver None ≫= λ _,
  current ← host_path_has_interface SCREEN_SAVER_NAME SCREEN_SAVER_PATH SCREEN_SAVER_NAME;
  if current : bool then set_saver (Some SCREEN_SAVER_PATH)
  else
    legacy ← host_path_has_interface SCREEN_SAVER_NAME SCREEN_SAVER_LEGACY_PATH
               SCREEN_SAVER_NAME;
    if legacy : bool then set_saver (Some SCREEN_SAVER_LEGACY_PATH) else mret tt.

Definition screen_saver_vanished : M unit :=
  set_saver None ≫= λ _, modify_native (set_inhibitors ∅).

(** ** Start-up *)

Definition register_node_interface (path : text) (info : interface_info) (v : vtable) :
    M (option gerror) :=
  registered ← register_object path info v;
  mret match registered with inl e => Some e | inr _ => None end.

(** Stops at the first error. *)
Fixpoint register_all (l : list (text * interface_info * vtable)) : M (option gerror) :=
  match l with
  | [] => mret None
  | (path, info, v) :: l =>
      failed ← register_node_interface path info v;
      match failed with Some e => mret (Some e) | None => register_all l end
  end.

Definition add_owned_node (node : node_info) : M unit :=
  modify (λ s, set_nodes s.(host_node) (s.(owned_nodes) ++ [node]) s).

(** The interface's description on the guest's disk. *)
Definition interface_file (name : text) : text :=
  str "/usr/share/dbus-1/interfaces/org.freedesktop.portal." ++ name ++ str ".xml".

Definition register_described (name : text) : M (option gerror) :=
  contents ← perform (Contents (interface_file name));
  match contents with
  | None => mret None
  | Some contents =>
      match g_dbus_node_info_new_for_xml contents with
      | inl _ => mret None
      | inr node =>
          add_owned_node node ≫= λ _,
          match lookup_interface node (portal_interface name) with
          | Some info => register_node_interface PORTAL_PATH info PortalVtable
          | None => mret None
          end
      end
  end.

Fixpoint register_all_described (names : list text) : M (option gerror) :=
  match names with
  | [] => mret None
  | name :: names =>
      failed ← register_described name;
      match failed with Some e => mret (Some e) | None => register_all_described names end
  end.

Definition arg (t : vtype) : arg_info := Arg None t.

(** [file_manager_xml], [notifications_xml], [screen_saver_xml], [power_xml] and
    [status_watcher_xml]. *)
Definition file_manager_info : interface_info :=
  Interface FILE_MANAGER_NAME
    (map (λ n, Method (str n) [arg TStrings; arg TString] [])
       ["ShowItems"; "ShowFolders"; "ShowItemProperties"]%string) [].

Definition notifications_info : interface_info :=
  Interface NOTIFICATIONS_NAME
    [Method (str "GetCapabilities") [] [arg TStrings];
     Method (str "Notify")
       [arg TString; arg TUint32; arg TString; arg TString; arg TString; arg TStrings;
        arg TVardict; arg TInt32] [arg TUint32];
     Method (str "CloseNotification") [arg TUint32] [];
     Method (str "GetServerInformation") [] [arg TString; arg TString; arg TString; arg TString]]
    [].

Definition screen_saver_info : interface_info :=
  Interface SCREEN_SAVER_NAME
    [Method (str "Lock") [] []; Method (str "SimulateUserActivity") [] [];
     Method (str "GetActive") [] [arg TBoolean];
     Method (str "GetActiveTime") [] [arg TUint32];
     Method (str "GetSessionIdleTime") [] [arg TUint32];
     Method (str "SetActive") [arg TBoolean] [arg TBoolean];
     Method (str "Inhibit") [arg TString; arg TString] [arg TUint32];
     Method (str "UnInhibit") [arg TUint32] [];
     Method (str "Throttle") [arg TString; arg TString] [arg TUint32];
     Method (str "UnThrottle") [arg TUint32] []] [].

Definition power_info : interface_info :=
  Interface POWER_NAME (map (λ n, Method n [] [arg TBoolean]) power_readonly) [].

Definition status_watcher_info : interface_info :=
  Interface STATUS_WATCHER_INTERFACE
    [Method (str "RegisterStatusNotifierItem") [arg TString] [];
     Method (str "RegisterStatusNotifierHost") [arg TString] []]
    (map str ["RegisteredStatusNotifierItems"; "IsStatusNotifierHostRegistered";
              "ProtocolVersion"]%string).

Definition extras : list (text * interface_info * vtable) :=
  [(FILE_MANAGER_PATH, file_manager_info, FileManagerVtable);
   (NOTIFICATIONS_PATH, notifications_info, SimpleBridgeVtable);
   (SCREEN_SAVER_PATH, screen_saver_info, SimpleBridgeVtable);
   (SCREEN_SAVER_LEGACY_PATH, screen_saver_info, SimpleBridgeVtable);
   (POWER_PATH, power_info, SimpleBridgeVtable);
   (STATUS_WATCHER_PATH, status_watcher_info, StatusWatcherVtable)].

Fixpoint register_extras (l : list (text * interface_info * vtable)) : M (option gerror) :=
  match l with
  | [] => mret None
  | (path, info, v) :: l =>
      add_owned_node [info] ≫= λ _,
      failed ← register_node_interface path info v;
      match failed with Some e => mret (Some e) | None => register_extras l end
  end.

(** The host's portal as it describes itself; a test without one goes on with
    an empty node. *)
Definition introspect_host : M (gerror + bool) :=
  reply ← call_sync (BusCall HostBus PORTAL_NAME PORTAL_PATH
    (str "org.freedesktop.DBus.Introspectable") (str "Introspect") [] (Some [TString]) true
    NoFds);
  match (match reply with
         | inl e => inl e
         | inr [VString xml] => g_dbus_node_info_new_for_xml xml
         | inr _ => inl INVALID_ARGUMENT
         end) with
  | inr node => modify (λ s, set_nodes (Some node) s.(owned_nodes) s) ≫= λ _, mret (inr true)
  | inl e =>
      match getenv (str "SPACES_PORTAL_TEST_ADDRESS") with
      | None => mret (inl e)
      | Some _ => modify (λ s, set_nodes (Some []) s.(owned_nodes) s) ≫= λ _, mret (inr false)
      end
  end.

Definition register_interfaces : M (option gerror) :=
  introspected ← introspect_host;
  match introspected with
  | inl e => mret (Some e)
  | inr host_metadata =>
      s ← get;
      let node := default [] s.(host_node) in
      failed ← register_all (map (λ info, (PORTAL_PATH, info, PortalVtable))
                               (List.filter (λ info, interface_allowed info.(i_name)) node));
      match failed with
      | Some e => mret (Some e)
      | None =>
          failed ←
            (if negb host_metadata then register_all_described public_interfaces
             else match lookup_interface node (portal_interface (str "FileChooser")) with
                  | None => register_described (str "FileChooser")
                  | Some _ => mret None
                  end);
          match failed with
          | Some e => mret (Some e)
          | None => register_extras extras
          end
      end
  end.

(** ** Accessibility *)

(** A library that is to use the host's accessibility bus asks for its address
    here, and whether it is in use. *)
Definition ACCESSIBILITY_NAME : text := str "org.a11y.Bus".
Definition ACCESSIBILITY_PATH : text := str "/org/a11y/bus".
Definition ACCESSIBILITY_STATUS : text := str "org.a11y.Status".

Definition accessibility_info : interface_info :=
  Interface ACCESSIBILITY_NAME [Method (str "GetAddress") [] [Arg None TString]] [].

Definition accessibility_address : text :=
  match getenv (str "AT_SPI_BUS_ADDRESS") with
  | Some (c :: address) => c :: address
  | _ => str "unix:path=/run/spaces/desktop/" ++ decimal getuid ++ str "/a11y/bus"
  end.

Definition S_ISSOCK (mode : Z) : bool := Z.land mode 0xF000 =? 0xC000.

Definition accessibility_call (invocation : nat) : M unit :=
  let filename :=
    if text_eqb (take 10 accessibility_address) (str "unix:path=")
    then g_uri_unescape_string (drop 10 accessibility_address) else None in
  mode ← match filename with Some filename => perform (LinkMode filename) | None => mret None end;
  if match mode with Some mode => S_ISSOCK mode | None => false end
  then perform (Return invocation [VString accessibility_address] None)
  else perform (ReturnError invocation (Reported (str "org.freedesktop.DBus.Error.NoServer"))).

Definition accessibility_get (property : text) : M (gerror + variant) :=
  value ← perform (CachedProperty property);
  mret match value with Some (VBoolean b) => inr (VBoolean b) | _ => inl UNKNOWN_PROPERTY end.

(** The properties that the host's service has. *)
Fixpoint accessibility_mask (properties : list text) : M (list text) :=
  match properties with
  | [] => mret []
  | property :: properties =>
      value ← accessibility_get property;
      rest ← accessibility_mask properties;
      mret match value with inr _ => property :: rest | inl _ => rest end
  end.

(** [accessibility_register_status] before anything was registered. *)
Definition register_first_status : M (option gerror) :=
  properties ← accessibility_mask [str "IsEnabled"; str "ScreenReaderEnabled"];
  register_node_interface ACCESSIBILITY_PATH (Interface ACCESSIBILITY_STATUS [] properties)
    AccessibilityVtable.

(** [g_dbus_proxy_new_sync] with [DO_NOT_AUTO_START]: a failure to load the
    properties is no error. *)
Definition g_dbus_proxy_new_sync (name path interface : text) : M (option gerror) :=
  failed ← perform (NewProxy name path interface);
  match failed with
  | Some e => mret (Some e)
  | None =>
      call_sync (BusCall HostBus name path (str "org.freedesktop.DBus.Properties") (str "GetAll")
        [VString interface] (Some [TVardict]) true NoFds) ≫= λ _, mret None
  end.

Definition accessibility_init : M (option gerror) :=
  failed ← g_dbus_proxy_new_sync ACCESSIBILITY_NAME ACCESSIBILITY_PATH ACCESSIBILITY_STATUS;
  match failed with
  | Some e => mret (Some e)
  | None =>
      add_owned_node [accessibility_info] ≫= λ _,
      failed ← register_node_interface ACCESSIBILITY_PATH accessibility_info AccessibilityVtable;
      match failed with Some e => mret (Some e) | None => register_first_status end
  end.

(** The application identity of the frontend's connection to the host. *)
Definition register_host_identity : M (option gerror) :=
  s ← get;
  reply ← call_sync (BusCall HostBus PORTAL_NAME PORTAL_PATH
    (str "org.freedesktop.host.portal.Registry") (str "Register")
    [VString (app_id s); VDict []] (Some []) true NoFds);
  mret match reply with inl e => Some e | inr _ => None end.

(** ** Inputs *)

Inductive input :=
  | IMethod (sender path interface method : text) (parameters : list variant)
  | IGetProperty (sender path interface property : text)
  | IReply (n : nat) (answered : reply)
  | IHostSignal (path interface signal_name : text) (parameters : list variant)
  | INativeSignal (path interface signal_name : text) (parameters : list variant)
  | INameChanged (name old_owner new_owner : text)
  | IScreenSaver (appeared : bool)
  | ISource (n : nat)
  | IHostMethod (path interface method : text) (parameters : list variant)
  | IHostGetProperty (path interface property : text)
  | IHostSetProperty (path interface property : text) (value : variant)
  | IGuestSignal (mirror : nat) (sender path interface signal_name : text)
      (parameters : list variant)
  | IHostName (mirror : nat) (acquired : bool).

Definition find_export (s : frontend) (path interface : text) : option export :=
  snd <$> list_find (λ x, x.(e_path) = path ∧ x.(e_info).(i_name) = interface)
            (map snd (map_to_list s.(exports))) .

Definition find_host_export (s : frontend) (path interface : text) : option host_export :=
  snd <$> list_find (λ x, x.(h_path) = path ∧ x.(h_info).(i_name) = interface)
            (map snd (map_to_list s.(mirroring).(host_exports))).

Definition input_types (method : method_info) : vtype :=
  TTuple (map arg_signature method.(in_args)).

Definition call_method (v : vtable) (sender path interface method : text)
    (parameters : list variant) (invocation : nat) : M unit :=
  match v with
  | LifecycleVtable => lifecycle_call sender path interface method invocation
  | PortalVtable => portal_method_call sender interface method parameters invocation
  | SimpleBridgeVtable => simple_bridge_call sender path interface method parameters invocation
  | FileManagerVtable => file_manager_call method parameters invocation
  | StatusWatcherVtable => status_watcher_call sender method parameters invocation
  | AccessibilityVtable => accessibility_call invocation
  end.

(** GIO answers calls to what is not exported, or of another type. *)
Definition guest_method (sender path interface method : text) (parameters : list variant) :
    M unit :=
  invocation ← new_id;
  s ← get;
  match find_export s path interface with
  | None => perform (ReturnError invocation UNKNOWN_METHOD)
  | Some x =>
      match find_method x.(e_info) method with
      | None => perform (ReturnError invocation UNKNOWN_METHOD)
      | Some m =>
          if has_type (input_types m) (VTuple parameters)
          then call_method x.(e_vtable) sender path interface method parameters invocation
          else perform (ReturnError invocation INVALID_ARGS)
      end
  end.

Definition answer_property (invocation : nat) (value : gerror + variant) : M unit :=
  match value with
  | inl e => perform (ReturnError invocation e)
  | inr value => perform (Return invocation [VVariant value] None)
  end.

Definition guest_property (path interface property : text) : M unit :=
  invocation ← new_id;
  s ← get;
  value ←
    (match find_export s path interface with
     | None => mret (inl UNKNOWN_PROPERTY)
     | Some x =>
         if bool_decide (property ∈ x.(e_info).(i_properties)) then
           match x.(e_vtable) with
           | PortalVtable => portal_get_property interface property
           | StatusWatcherVtable =>
               value ← status_watcher_property property;
               mret match value with Some v => inr v | None => inl UNKNOWN_PROPERTY end
           | AccessibilityVtable => accessibility_get property
           | _ => mret (inl UNKNOWN_PROPERTY)
           end
         else mret (inl UNKNOWN_PROPERTY)
     end);
  answer_property invocation value.

Definition host_method (path interface method : text) (parameters : list variant) : M unit :=
  invocation ← new_id;
  s ← get;
  match find_host_export s path interface ≫= λ x, m ← find_method x.(h_info) method; Some (x, m)
  with
  | None => perform (ReturnError invocation UNKNOWN_METHOD)
  | Some (x, m) =>
      if has_type (input_types m) (VTuple parameters)
      then mirror_method_call x.(h_mirror) path interface method parameters invocation
      else perform (ReturnError invocation INVALID_ARGS)
  end.

Definition host_property (path interface property : text) (value : option variant) : M unit :=
  invocation ← new_id;
  s ← get;
  match find_host_export s path interface with
  | None => perform (ReturnError invocation UNKNOWN_PROPERTY)
  | Some x =>
      if bool_decide (property ∈ x.(h_info).(i_properties)) then
        match value with
        | None =>
            got ← mirror_get_property x.(h_mirror) path interface property;
            answer_property invocation got
        | Some value =>
            failed ← mirror_set_property x.(h_mirror) path interface property value;
            match failed with
            | Some e => perform (ReturnError invocation e)
            | None => perform (Return invocation [] None)
            end
        end
      else perform (ReturnError invocation UNKNOWN_PROPERTY)
  end.

Definition complete (fuel : nat) (k : completion) (answered : reply) : M unit :=
  match k with
  | ForwardDone call => forward_done call answered
  | ChooserDone request => chooser_done request answered
  | ScreenshotDone path => screenshot_done fuel path answered
  | BrokerRequestDone path => broker_request_done path answered
  | TransformedRequestDone path => transformed_request_done path answered
  | DynamicDone invocation => dynamic_done invocation answered
  | BridgeDone invocation => bridge_done invocation answered
  | ScreenCallDone call => screen_call_done call answered
  | FileManagerDone call => file_manager_done call answered.1
  | MirrorCallDone invocation => mirror_call_done invocation answered
  end.

(** Descriptors come with a reply, not with an error. *)
Definition typed_reply (p : pending_call) (answered : reply) : reply :=
  match p.(p_call) with
  | None => answered
  | Some c =>
      let values := typed c answered.1 in
      (values, match values with inl _ => None | inr _ => answered.2 end)
  end.

Definition dispatch (fuel : nat) (i : input) : M unit :=
  match i with
  | IMethod sender path interface method parameters =>
      guest_method sender path interface method parameters
  | IGetProperty _ path interface property => guest_property path interface property
  | IReply n answered =>
      s ← get;
      match s.(pending) !! n with
      | None => mret tt
      | Some p =>
          modify (λ s, set_pending (delete n s.(pending)) s) ≫= λ _,
          complete fuel p.(p_then) (typed_reply p answered)
      end
  | IHostSignal path interface signal_name parameters =>
      host_portal_signal path interface signal_name parameters
  | INativeSignal path interface signal_name parameters =>
      native_host_signal path interface signal_name parameters
  | INameChanged name old_owner new_owner => guest_name_changed name old_owner new_owner
  | IScreenSaver true => discover_screen_saver
  | IScreenSaver false => screen_saver_vanished
  | ISource n =>
      s ← get;
      match s.(mirroring).(sources) !! n with
      | None => mret tt
      | Some x => run_source n x
      end
  | IHostMethod path interface method parameters => host_method path interface method parameters
  | IHostGetProperty path interface property => host_property path interface property None
  | IHostSetProperty path interface property value =>
      host_property path interface property (Some value)
  | IGuestSignal mirror sender path interface signal_name parameters =>
      s ← get;
      match s.(mirroring).(mirror_objects) !! mirror with
      | Some m =>
          if m.(mi_subscribed)
          then mirror_guest_signal mirror sender path interface signal_name parameters
          else mret tt
      | None => mret tt
      end
  | IHostName mirror acquired =>
      s ← get;
      match s.(mirroring).(mirror_objects) !! mirror with
      | Some m =>
          if negb m.(mi_owns) then mret tt
          else if acquired : bool then mirror_name_acquired mirror else mirror_name_lost mirror
      | None => mret tt
      end
  end.

Fixpoint run_inputs (fuel : nat) (l : list input) : M unit :=
  match l with
  | [] => mret tt
  | i :: l => dispatch fuel i ≫= λ _, run_inputs fuel l
  end.

(** ** Runs *)

Definition empty_frontend (space : text) (backend : option text) : frontend :=
  Frontend space backend None [] 0 ∅ ∅ ∅ ∅ ∅ ∅ ∅ ∅ (Natives ∅ None ∅ ∅ ∅)
    (MirrorState ∅ ∅ ∅ 0 ∅).

(** What [main] does before its loop, as far as the portal is concerned. *)
Definition start : M (option gerror) :=
  register_host_identity ≫= λ _,
  failed ← register_interfaces;
  match failed with
  | Some e => mret (Some e)
  | None =>
      failed ← accessibility_init;
      match failed with
      | Some e => mret (Some e)
      | None => discover_mpris ≫= λ _, mret None
      end
  end.
End main.
