(* ===== verification/FrontendSteps.v ===== *)
(** * The guest's portal frontend: reasoning about its handlers

    [hoare] is for programs over the frontend's state, [steps R E m] says that
    [m] keeps [R] of the state and only adds events in [E].  The second part has
    the handlers that leave the tables of requests and sessions alone: they keep
    every [robust] assertion, and what they do outside is [plain]. *)

From S2P Require Import Prelude Glib.
From S2P Require Export FrontendMain.

(** ** Programs with assertions on the state and the trace *)

Section hoare.
Context `{Guest}.
Implicit Types s : frontend.
Implicit Types T : list event.

Abbreviation assertion := (frontend → list event → Prop).

Definition hoare {A} (P : assertion) (m : M A) (Q : A → assertion) : Prop :=
  ∀ w x w', P w.(now).(st) w.(trace) → m w = Returned x w' → Q x w'.(now).(st) w'.(trace).

Lemma hoare_bind {A B} P (m : M A) (f : A → M B) Q R :
  hoare P m Q → (∀ x, hoare (Q x) (f x) R) → hoare P (m ≫= f) R.
Proof.
  intros Hm Hf w y w2 HP (x & w1 & E1 & E2)%M_bind_returned.
  eapply Hf; [|exact E2]. by eapply Hm.
Qed.

Lemma hoare_ret {A} (x : A) P (Q : A → assertion) :
  (∀ s T, P s T → Q x s T) → hoare P (mret x) Q.
Proof. intros HQ w y w' HP [-> ->]%M_ret_returned. auto. Qed.

Lemma hoare_conseq {A} P P' (m : M A) (Q Q' : A → assertion) :
  (∀ s T, P' s T → P s T) → (∀ x s T, Q x s T → Q' x s T) → hoare P m Q → hoare P' m Q'.
Proof. intros HP HQ Hm w x w' HT Hr. eapply HQ, Hm; [|exact Hr]. auto. Qed.

Lemma hoare_undefined {A} P (Q : A → assertion) : hoare P undefined Q.
Proof. by intros w x w' _ Hr. Qed.

Lemma hoare_out_of_fuel {A} P (Q : A → assertion) : hoare P out_of_fuel Q.
Proof. by intros w x w' _ Hr. Qed.

Lemma hoare_perform {A} (r : call A) P Q :
  (∀ a s T, P s T → Q a s (Did r a :: T)) → hoare P (perform r) Q.
Proof.
  intros HQ w x w' HP Hr. unfold perform in Hr. apply act_returned in Hr as [-> ->].
  destruct (answer r _) as [a h] eqn:E. simpl. auto.
Qed.

Lemma hoare_get P Q : (∀ s T, P s T → Q s s T) → hoare P get Q.
Proof. intros HQ w x w' HP Hr. unfold get, modify in Hr. apply act_returned in Hr as [-> ->]. simpl. auto. Qed.

Lemma hoare_modify f P (Q : unit → assertion) :
  (∀ s T, P s T → Q tt (f s) T) → hoare P (modify f) Q.
Proof. intros HQ w x w' HP Hr. unfold get, modify in Hr. apply act_returned in Hr as [-> ->]. simpl. auto. Qed.

(** Reading first: the rest may assume what was read. *)
Lemma hoare_read {A} P (f : frontend → M A) Q :
  (∀ s0, hoare (λ s T, P s T ∧ s = s0) (f s0) Q) → hoare P (get ≫= f) Q.
Proof.
  intros Hf. eapply hoare_bind; [by apply hoare_get with (Q := λ x s T, P s T ∧ s = x)|].
  exact Hf.
Qed.

Lemma hoare_the_request id P Q :
  (∀ s T r, P s T → s.(requests) !! id = Some r → Q r s T) → hoare P (the_request id) Q.
Proof.
  intros HQ. apply hoare_read. intros s0. destruct (requests s0 !! id) as [r|] eqn:E.
  - apply hoare_ret. intros s T [HP ->]. auto.
  - apply hoare_undefined.
Qed.

Lemma hoare_the_session id P Q :
  (∀ s T r, P s T → s.(sessions) !! id = Some r → Q r s T) → hoare P (the_session id) Q.
Proof.
  intros HQ. apply hoare_read. intros s0. destruct (sessions s0 !! id) as [x|] eqn:E.
  - apply hoare_ret. intros s T [HP ->]. auto.
  - apply hoare_undefined.
Qed.

Lemma hoare_new_id P Q :
  (∀ s T, P s T → Q s.(fresh) (set_fresh (S s.(fresh)) s) T) → hoare P new_id Q.
Proof.
  intros HQ. apply hoare_read. intros s0.
  eapply hoare_bind; [apply hoare_modify with (Q := λ _ s T, Q s0.(fresh) s T)|].
  - intros s T [HP ->]. auto.
  - intros []. by apply hoare_ret.
Qed.

Lemma hoare_lookup_request table path P Q :
  (∀ s T, P s T → table s !! path = None → Q None s T) →
  (∀ s T id r, P s T → table s !! path = Some id → s.(requests) !! id = Some r →
    Q (Some (id, r)) s T) →
  hoare P (lookup_request table path) Q.
Proof.
  intros HN HS. apply hoare_read. intros s0. destruct (table s0 !! path) as [id|] eqn:E.
  - eapply hoare_bind with (Q := λ r s T, Q (Some (id, r)) s T).
    + apply hoare_the_request. intros s T r [HP ->] Hr. eauto.
    + intros r. by apply hoare_ret.
  - apply hoare_ret. intros s T [HP ->]. auto.
Qed.

Lemma hoare_lookup_session table path P Q :
  (∀ s T, P s T → table s !! path = None → Q None s T) →
  (∀ s T id r, P s T → table s !! path = Some id → s.(sessions) !! id = Some r →
    Q (Some (id, r)) s T) →
  hoare P (lookup_session table path) Q.
Proof.
  intros HN HS. apply hoare_read. intros s0. destruct (table s0 !! path) as [id|] eqn:E.
  - eapply hoare_bind with (Q := λ r s T, Q (Some (id, r)) s T).
    + apply hoare_the_session. intros s T r [HP ->] Hr. eauto.
    + intros r. by apply hoare_ret.
  - apply hoare_ret. intros s T [HP ->]. auto.
Qed.
End hoare.

(** ** What the frontend sends *)

Section confinement.
Context `{Guest}.

(** The calls it makes on the host's bus. *)
Inductive host_call : bus_call → Prop :=
  | Portal_method i m ps reply fds :
      interface_allowed i = true →
      host_call (BusCall HostBus PORTAL_NAME PORTAL_PATH i m ps reply true fds)
  | Portal_property i p :
      interface_allowed i = true →
      host_call (BusCall HostBus PORTAL_NAME PORTAL_PATH (str "org.freedesktop.DBus.Properties")
        (str "Get") [VString i; VString p] (Some [TVariant]) true NoFds)
  | Portal_close path i :
      i = REQUEST_INTERFACE ∨ i = SESSION_INTERFACE →
      host_call (BusCall HostBus PORTAL_NAME path i (str "Close") [] None true NoFds)
  | Portal_introspect :
      host_call (BusCall HostBus PORTAL_NAME PORTAL_PATH
        (str "org.freedesktop.DBus.Introspectable") (str "Introspect") [] (Some [TString]) true
        NoFds)
  | Portal_register ps :
      host_call (BusCall HostBus PORTAL_NAME PORTAL_PATH
        (str "org.freedesktop.host.portal.Registry") (str "Register") ps (Some []) true NoFds)
  | Accessibility_load :
      host_call (BusCall HostBus ACCESSIBILITY_NAME ACCESSIBILITY_PATH
        (str "org.freedesktop.DBus.Properties") (str "GetAll") [VString ACCESSIBILITY_STATUS]
        (Some [TVardict]) true NoFds)
  | Broker_call b m ps reply fds :
      getenv (str "SPACES_INTEGRATION_BROKER") = Some b →
      host_call (BusCall HostBus b INTEGRATION_PATH INTEGRATION_INTERFACE m ps reply false fds)
  | Saver_call path m ps reply fds :
      host_call (BusCall HostBus SCREEN_SAVER_NAME path SCREEN_SAVER_NAME m ps reply false fds)
  | Saver_introspect path :
      host_call (BusCall HostBus SCREEN_SAVER_NAME path
        (str "org.freedesktop.DBus.Introspectable") (str "Introspect") [] (Some [TString]) false
        NoFds)
  | Notification_call m ps reply fds :
      host_call (BusCall HostBus NOTIFICATIONS_NAME NOTIFICATIONS_PATH NOTIFICATIONS_NAME m ps
        reply false fds)
  | Power_call m ps reply fds :
      m ∈ power_readonly →
      host_call (BusCall HostBus POWER_NAME POWER_PATH POWER_NAME m ps reply false fds)
  | Status_item_call ps :
      host_call (BusCall HostBus STATUS_WATCHER_NAME STATUS_WATCHER_PATH STATUS_WATCHER_INTERFACE
        (str "RegisterStatusNotifierItem") ps None false NoFds).

Definition call_ok (c : bus_call) : Prop := c.(c_bus) = HostBus → host_call c.

(** The client that an object of the guest's bus belongs to.  The signal that
    ends a request is not for one that its client has closed. *)
Inductive owned (s : frontend) (interface name : text) : text → text → Prop :=
  | Owned_request id r :
      s.(requests_guest) !! r.(r_guest_path) = Some id → s.(requests) !! id = Some r →
      (is_response interface name = true → r.(r_cancelled) = false) →
      owned s interface name r.(r_guest_path) r.(r_owner)
  | Owned_session id x :
      s.(sessions_guest) !! x.(s_guest_path) = Some id → s.(sessions) !! id = Some x →
      owned s interface name x.(s_guest_path) x.(s_owner).

(** Events of every handler; those with signals to one client, which depend on
    the state [s] that the handler starts from. *)
Definition plain (e : event) : Prop :=
  match e with
  | Did r _ =>
      match r with
      | Sync c | Send c => call_ok c
      | Emit GuestBus (Some _) _ _ _ _ => False
      | _ => True
      end
  end.

Definition directed (s : frontend) (e : event) : Prop :=
  match e with
  | Did r _ =>
      match r with
      | Emit GuestBus (Some client) path interface name _ => owned s interface name path client
      | _ => False
      end
  end.

Definition event_ok (s : frontend) (e : event) : Prop := plain e ∨ directed s e.

Lemma plain_ok s e : plain e → event_ok s e.
Proof. by left. Qed.

Definition since (E : event → Prop) (T0 T : list event) : Prop :=
  ∃ evs, T = evs ++ T0 ∧ Forall E evs.

Lemma since_refl E T : since E T T.
Proof. by exists []. Qed.

Lemma since_cons (E : event → Prop) T0 T e : since E T0 T → E e → since E T0 (e :: T).
Proof. intros (evs & -> & Hevs) He. exists (e :: evs). by split; [|constructor]. Qed.

Lemma since_mono (E E' : event → Prop) T0 T : (∀ e, E e → E' e) → since E T0 T → since E' T0 T.
Proof. intros HE (evs & -> & Hevs). exists evs. split; [done|]. by eapply Forall_impl. Qed.

(** [m] keeps [R] of the state, and adds events that satisfy [E]. *)
Definition steps {A} (R : frontend → Prop) (E : event → Prop) (m : M A) : Prop :=
  ∀ T0, hoare (λ s T, R s ∧ since E T0 T) m (λ _ s T, R s ∧ since E T0 T).

Implicit Types R : frontend → Prop.
Implicit Types E : event → Prop.

Lemma steps_bind {A B} R E (m : M A) (f : A → M B) :
  steps R E m → (∀ x, steps R E (f x)) → steps R E (m ≫= f).
Proof. intros Hm Hf T0. eapply hoare_bind; [apply Hm|]. intros x. apply Hf. Qed.

Lemma steps_ret {A} R E (x : A) : steps R E (mret x).
Proof. intros T0. by apply hoare_ret. Qed.

Lemma steps_undefined {A} R E : steps R E (undefined : M A).
Proof. intros T0. apply hoare_undefined. Qed.

Lemma steps_out_of_fuel {A} R E : steps R E (out_of_fuel : M A).
Proof. intros T0. apply hoare_out_of_fuel. Qed.

Lemma steps_perform {A} R E (r : call A) : (∀ a, E (Did r a)) → steps R E (perform r).
Proof.
  intros HE T0. apply hoare_perform. intros a s T [HR HT]. split; [done|].
  by apply since_cons.
Qed.

Lemma steps_get R E : steps R E get.
Proof. intros T0. by apply hoare_get. Qed.

Lemma steps_modify R E f : (∀ s, R s → R (f s)) → steps R E (modify f).
Proof. intros HR T0. apply hoare_modify. intros s T [Hs HT]. auto. Qed.

Lemma steps_mono {A} R (E E' : event → Prop) (m : M A) :
  (∀ e, E e → E' e) → steps R E m → steps R E' m.
Proof.
  intros HE Hm T0 w x w' [HR (evs & HT & Hevs)] Hr.
  destruct (Hm w.(trace) w x w') as [HR' (evs' & HT' & Hevs')]; [split; [done|apply since_refl]|done|].
  split; [done|]. exists (evs' ++ evs). rewrite HT', HT, app_assoc. split; [done|].
  apply Forall_app. split; [by eapply Forall_impl|done].
Qed.

(** Reading keeps what is read. *)
Lemma steps_read {A} R E (f : frontend → M A) :
  (∀ s0, R s0 → ∀ T0, hoare (λ s T, (R s ∧ since E T0 T) ∧ s = s0) (f s0)
                        (λ _ s T, R s ∧ since E T0 T)) →
  steps R E (get ≫= f).
Proof.
  intros Hf T0. apply hoare_read. intros s0 w x w' [[HR HT] Hs] Hr.
  eapply (Hf s0); [by rewrite <- Hs|..|exact Hr]. by split.
Qed.

Lemma steps_the_request R E id : steps R E (the_request id).
Proof. intros T0. by apply hoare_the_request. Qed.
Lemma steps_the_session R E id : steps R E (the_session id).
Proof. intros T0. by apply hoare_the_session. Qed.
Lemma steps_lookup_request R E table path : steps R E (lookup_request table path).
Proof. intros T0. by apply hoare_lookup_request. Qed.
Lemma steps_lookup_session R E table path : steps R E (lookup_session table path).
Proof. intros T0. by apply hoare_lookup_session. Qed.
End confinement.

Lemma steps_plain `{Guest} {A} R s (m : M A) : steps R plain m → steps R (event_ok s) m.
Proof. apply steps_mono, plain_ok. Qed.

(** Cases of a program that keeps an assertion. *)
Create HintDb steps.
#[export] Hint Extern 5 (steps _ (event_ok _) _) => apply steps_plain : steps.
#[export] Hint Resolve steps_ret steps_undefined steps_out_of_fuel steps_get
  steps_the_request steps_the_session steps_lookup_request steps_lookup_session : steps.

Ltac walk_event :=
  solve [exact I | done | apply plain_ok; exact I | intros ?; discriminate
        | let Hb := fresh in intros Hb; discriminate Hb
        | intros _; constructor; auto].

Ltac walk :=
  repeat lazymatch goal with
  | |- steps _ _ (mret _) => apply steps_ret
  | |- steps _ _ get => apply steps_get
  | |- steps _ _ undefined => apply steps_undefined
  | |- steps _ _ out_of_fuel => apply steps_out_of_fuel
  | |- steps _ _ (mbind _ _) => apply steps_bind; [|intros ?]
  | |- steps _ _ (perform _) => apply steps_perform; intros ?; simpl; try walk_event
  | |- steps _ _ (let '_ := ?x in _) => destruct x
  | |- steps _ _ (match ?x with _ => _ end) => destruct x eqn:?
  | |- steps _ _ (if ?x then _ else _) => destruct x eqn:?
  | |- steps _ _ _ => solve [auto with steps]
  end.

(** *** Programs that only ask *)

Section asking.
Context `{Guest, Desktop}.
Variable R : frontend → Prop.
Abbreviation asks := (steps R plain).

Lemma steps_call_sync c : call_ok c → asks (call_sync c).
Proof. intros Hc. unfold call_sync. walk. Qed.

Lemma asks_new_token : asks new_token.
Proof. unfold new_token. walk. Qed.

Lemma asks_token_or_new token : asks (token_or_new token).
Proof. unfold token_or_new. destruct token; [case_match|]; auto using asks_new_token, steps_ret. Qed.

Lemma asks_connection_pid name : asks (connection_pid name).
Proof. unfold connection_pid. apply steps_bind; [by apply steps_call_sync|]. intros x. apply steps_ret. Qed.

Lemma asks_flatpak_app_id sender : asks (flatpak_app_id sender).
Proof. unfold flatpak_app_id. apply steps_bind; [apply asks_connection_pid|]. intros x. walk. Qed.

Lemma asks_open_uris uris : asks (open_uris uris).
Proof. induction uris; simpl; walk. Qed.

Lemma asks_exported_uris mount doc_ids filenames : asks (exported_uris mount doc_ids filenames).
Proof.
  revert doc_ids. induction filenames as [|f l IH]; intros [|d ids]; simpl; walk.
  unfold exported_uri. walk.
Qed.

Lemma asks_flatpak_uris r results : asks (export_flatpak_uris r results).
Proof.
  unfold export_flatpak_uris. walk; auto using asks_open_uris, asks_exported_uris.
  by apply steps_call_sync.
Qed.

Lemma asks_close_if fd : asks (close_if fd).
Proof. unfold close_if. walk. Qed.

Lemma asks_pidfd_pair a b flags : asks (pidfd_pair a b flags).
Proof. unfold pidfd_pair. walk. Qed.

Lemma asks_append_pair a b : asks (append_pair a b).
Proof. unfold append_pair. walk. Qed.

Lemma broker_name_env broker :
  broker_name = Some broker → getenv (str "SPACES_INTEGRATION_BROKER") = Some broker.
Proof. unfold broker_name. by destruct (getenv _) as [[|c l]|]. Qed.

Lemma broker_call_ok broker m ps reply fds :
  broker_name = Some broker →
  call_ok (BusCall HostBus broker INTEGRATION_PATH INTEGRATION_INTERFACE m ps reply false fds).
Proof. intros Hb _. constructor. by apply broker_name_env. Qed.

Lemma asks_make_game_mode broker m th rh fds i a b :
  broker_name = Some broker → asks (make_game_mode broker m th rh fds i a b).
Proof.
  intros Hb. unfold make_game_mode. walk; auto using asks_close_if.
  by apply steps_call_sync, broker_call_ok.
Qed.

Lemma asks_game_mode_pids broker m t r i :
  broker_name = Some broker → asks (game_mode_pids broker m t r i).
Proof.
  intros Hb. unfold game_mode_pids. walk;
    auto using asks_close_if, asks_pidfd_pair, asks_append_pair, asks_make_game_mode.
Qed.

Lemma asks_game_mode sender m ps i : asks (game_mode_call sender m ps i).
Proof.
  unfold game_mode_call. destruct broker_name as [broker|] eqn:Hb; [|unfold return_not_available; walk].
  walk; auto using asks_make_game_mode, asks_connection_pid, asks_game_mode_pids.
Qed.

Lemma asks_write_loop fuel output data : asks (write_loop fuel output data).
Proof.
  revert data. induction fuel as [|fuel IH]; intros [|c data]; simpl; walk.
Qed.

Lemma asks_copy_loop fuel source output total : asks (copy_loop fuel source output total).
Proof.
  revert total. induction fuel as [|fuel IH]; intros total; simpl; walk.
  apply asks_write_loop.
Qed.

Lemma asks_copy_screenshot fuel source : asks (copy_screenshot fuel source).
Proof.
  unfold copy_screenshot. walk; auto using asks_new_token.
  unfold copy_screenshot_to. walk. apply asks_copy_loop.
Qed.

Lemma asks_screenshot_results r uri results : asks (screenshot_results r uri results).
Proof. unfold screenshot_results. walk. apply asks_flatpak_uris. Qed.

Lemma asks_get_property b name path interface property start :
  call_ok (BusCall b name path (str "org.freedesktop.DBus.Properties") (str "Get")
    [VString interface; VString property] (Some [TVariant]) start NoFds) →
  asks (get_property b name path interface property start).
Proof. intros Hc. unfold get_property. walk. by apply steps_call_sync. Qed.

Lemma asks_portal_property interface property :
  interface_allowed interface = true → asks (portal_get_property interface property).
Proof.
  intros Hi. unfold portal_get_property. walk; apply asks_get_property.
  - intros Hb. discriminate Hb.
  - intros _. by constructor.
Qed.

Lemma asks_close_host path interface :
  interface = REQUEST_INTERFACE ∨ interface = SESSION_INTERFACE →
  asks (close_host_object path interface).
Proof. intros Hi. unfold close_host_object. apply steps_perform. intros a _. by constructor. Qed.

Lemma asks_resolve uri : asks (resolve_host_file_uri uri).
Proof.
  unfold resolve_host_file_uri. destruct broker_name as [broker|] eqn:Hb; walk.
  by apply steps_call_sync, broker_call_ok.
Qed.

Lemma asks_icon_in directory name l : asks (icon_in directory name l).
Proof. induction l; simpl; walk. Qed.

Lemma asks_first_found {A B} (search : A → M (option B)) l :
  (∀ x, asks (search x)) → asks (first_found search l).
Proof. intros Hs. induction l; simpl; walk. Qed.

Lemma asks_find_icon depth name directory : asks (find_icon_file depth name directory).
Proof.
  revert directory. induction depth as [|depth IH]; intros directory; simpl; walk;
    auto using asks_icon_in.
  apply asks_first_found. intros entry. walk.
Qed.

Lemma asks_guest_icon icon : asks (guest_icon_path icon).
Proof.
  unfold guest_icon_path. walk. apply asks_first_found. intros base. unfold icon_base.
  walk; apply asks_find_icon.
Qed.

Lemma asks_stage_icon broker path :
  getenv (str "SPACES_INTEGRATION_BROKER") = Some broker → asks (stage_icon broker path).
Proof. intros Hb. unfold stage_icon. walk. apply steps_call_sync. intros _. by constructor. Qed.

Lemma asks_name_owner name : asks (name_owner name).
Proof. unfold name_owner. walk. by apply steps_call_sync. Qed.

Lemma asks_same_process a b : asks (same_connection_process a b).
Proof. unfold same_connection_process. walk; apply asks_connection_pid. Qed.

Lemma asks_status_item_app m : asks (status_item_app m).
Proof. unfold status_item_app. walk. by apply asks_get_property. Qed.

Lemma asks_saver_interface path : asks (host_path_has_interface SCREEN_SAVER_NAME path SCREEN_SAVER_NAME).
Proof. unfold host_path_has_interface. walk. apply steps_call_sync. intros _. constructor. Qed.
Lemma asks_accessibility_call i : asks (accessibility_call i).
Proof. unfold accessibility_call. walk. Qed.

Lemma asks_accessibility_get property : asks (accessibility_get property).
Proof. unfold accessibility_get. walk. Qed.

Lemma asks_accessibility_mask properties : asks (accessibility_mask properties).
Proof. induction properties; simpl; walk. apply asks_accessibility_get. Qed.

Lemma asks_accessibility_proxy :
  asks (g_dbus_proxy_new_sync ACCESSIBILITY_NAME ACCESSIBILITY_PATH ACCESSIBILITY_STATUS).
Proof. unfold g_dbus_proxy_new_sync. walk. apply steps_call_sync. intros _. constructor. Qed.

End asking.

#[export] Hint Resolve steps_call_sync asks_new_token asks_token_or_new asks_connection_pid
  asks_flatpak_app_id asks_open_uris asks_exported_uris asks_flatpak_uris asks_close_if
  asks_pidfd_pair asks_append_pair asks_game_mode asks_copy_screenshot asks_screenshot_results
  asks_resolve asks_guest_icon asks_name_owner asks_same_process asks_status_item_app
  asks_saver_interface : steps.

(** *** Programs that leave requests and sessions alone *)

(** A completion that has nothing to do with requests. *)
Definition settled (k : completion) : Prop :=
  match k with
  | DynamicDone _ | BridgeDone _ | ScreenCallDone _ | FileManagerDone _ | MirrorCallDone _ => True
  | _ => False
  end.

Definition add_pending (c : option bus_call) (k : completion) (s : frontend) : frontend :=
  set_pending (<[s.(fresh) := Pending c k]> s.(pending)) (set_fresh (S s.(fresh)) s).

Record robust (R : frontend → Prop) : Prop := {
  robust_native s x : R s → R (set_native x s);
  robust_mirroring s x : R s → R (set_mirroring x s);
  robust_fresh s : R s → R (set_fresh (S s.(fresh)) s);
  robust_pending s c k : R s → settled k → R (add_pending c k s);
}.

Section leaving.
Context `{Guest, Desktop}.
Variable R : frontend → Prop.
Hypothesis HR : robust R.
Abbreviation leaves := (steps R plain).

Lemma steps_new_id E : steps R E new_id.
Proof. intros T0. apply hoare_new_id. intros s T [Hs HT]. split; [by apply HR|done]. Qed.

Lemma leaves_native E f : steps R E (modify_native f).
Proof. apply steps_modify. intros s. apply HR. Qed.

Lemma leaves_mirrors E f : steps R E (modify_mirrors f).
Proof. apply steps_modify. intros s. apply HR. Qed.

(** Adding a pending call and sending it. *)
Lemma hoare_call_async P E T0 c k :
  (∀ s, P s → R (add_pending (Some c) k s)) → E (Did (Send c) tt) →
  hoare (λ s T, P s ∧ since E T0 T) (call_async c k) (λ _ s T, R s ∧ since E T0 T).
Proof.
  intros HP HE. unfold call_async.
  eapply hoare_bind with (Q := λ n s T,
    R (set_pending (<[n := Pending (Some c) k]> s.(pending)) s) ∧ since E T0 T).
  - apply hoare_new_id. intros s T [Hs HT]. split; [exact (HP s Hs)|done].
  - intros n. eapply hoare_bind with (Q := λ _ s T, R s ∧ since E T0 T).
    + by apply hoare_modify.
    + intros []. apply hoare_perform. intros [] s T [Hs HT]. split; [done|]. by apply since_cons.
Qed.

Lemma leaves_call_async c k : settled k → call_ok c → leaves (call_async c k).
Proof. intros Hk Hc T0. apply hoare_call_async; [|done]. intros s Hs. by apply HR. Qed.

Lemma leaves_host_icon icon : leaves (host_icon icon).
Proof.
  unfold host_icon. destruct (getenv _) as [broker|] eqn:Hb; walk.
  - by apply asks_stage_icon.
  - apply leaves_native.
Qed.

Lemma leaves_map_image hints dictionary key : leaves (map_image hints dictionary key).
Proof. unfold map_image. walk. apply leaves_host_icon. Qed.

Lemma leaves_map_urls urls : leaves (map_urls urls).
Proof. induction urls; simpl; walk. Qed.

Lemma leaves_notification ps : leaves (rewrite_notification_paths ps).
Proof.
  unfold rewrite_notification_paths. walk;
    auto using leaves_host_icon, leaves_map_image, leaves_map_urls.
Qed.

Lemma leaves_release s i : leaves (release_inhibitor s i).
Proof. unfold release_inhibitor. walk. Qed.

Lemma leaves_screen_done call answered : leaves (screen_call_done call answered).
Proof. unfold screen_call_done. walk; apply leaves_native. Qed.

Lemma leaves_screen_saver s sender path m ps i served :
  screen_saver_call s sender path m ps i = Some served → leaves served.
Proof.
  unfold screen_saver_call. intros Hs. repeat case_match; simplify_eq; walk;
    (apply leaves_call_async; [done|intros _; constructor]).
Qed.

(** The interfaces of the objects that [simple_bridge_call] serves. *)
Definition bridged (i : text) : Prop :=
  i = NOTIFICATIONS_NAME ∨ i = SCREEN_SAVER_NAME ∨ i = POWER_NAME.

Lemma leaves_simple_bridge sender path interface m ps i :
  bridged interface → leaves (simple_bridge_call sender path interface m ps i).
Proof.
  intros Hi. unfold simple_bridge_call. apply steps_bind; [apply steps_get|]. intros s.
  unfold simple_bridge_target.
  destruct (text_eqb interface SCREEN_SAVER_NAME) eqn:E1.
  { apply text_eqb_spec in E1 as ->. destruct (screen_saver_host_path _); [|walk].
    destruct (screen_saver_call _ _ _ _ _ _) eqn:E; [by eapply leaves_screen_saver|].
    walk; [apply leaves_notification|].
    apply leaves_call_async; [done|]. intros _. constructor. }
  destruct (text_eqb interface NOTIFICATIONS_NAME) eqn:E2.
  { apply text_eqb_spec in E2 as ->. walk; [apply leaves_notification|].
    apply leaves_call_async; [done|]. intros _. constructor. }
  apply text_eqb_neq in E1, E2. destruct Hi as [|[|]]; [done..|]. subst interface.
  rewrite text_eqb_refl. case_bool_decide; [|walk].
  walk; [apply leaves_notification|].
  apply leaves_call_async; [done|]. intros _. by constructor.
Qed.

Lemma leaves_native_signal path interface name ps : leaves (native_host_signal path interface name ps).
Proof. unfold native_host_signal. walk. Qed.

Lemma leaves_the_error id : leaves (the_error id).
Proof. unfold the_error. walk. Qed.
Lemma leaves_new_error e : leaves (new_error e).
Proof. unfold new_error. walk; [apply steps_new_id|apply leaves_native]. Qed.
Lemma leaves_clear_error e : leaves (g_clear_error e).
Proof. unfold g_clear_error. walk; [apply leaves_the_error|apply leaves_native]. Qed.
Lemma leaves_the_file_call id : leaves (the_file_call id).
Proof. unfold the_file_call. walk. Qed.

Lemma leaves_finish_file call : leaves (finish_file_manager call).
Proof.
  unfold finish_file_manager. walk;
    auto using leaves_the_file_call, leaves_the_error, leaves_clear_error, leaves_native.
Qed.

Lemma leaves_file_done call ended : leaves (file_manager_done call ended).
Proof.
  unfold file_manager_done. walk;
    auto using leaves_the_file_call, leaves_new_error, leaves_finish_file, leaves_native.
  apply leaves_native.
Qed.

Lemma leaves_spawn call mode startup uris error :
  leaves (spawn_openers call mode startup uris error).
Proof.
  revert error. induction uris as [|uri uris IH]; intros error; simpl; [walk|].
  apply steps_bind; [walk|]. intros spawned. apply steps_bind; [apply leaves_the_file_call|].
  intros c. destruct spawned as [e|[]].
  - apply steps_bind; [unfold set_error; walk; apply leaves_new_error|]. intros id.
    walk; auto using leaves_native, leaves_the_error. all: apply leaves_native.
  - apply steps_bind; [apply leaves_native|]. intros _.
    intros T0. eapply hoare_bind with (Q := λ n s T,
      R (set_pending (<[n := Pending None (FileManagerDone call)]> s.(pending)) s)
      ∧ since plain T0 T).
    { apply hoare_new_id. intros s T [Hs HT].
      split; [exact (robust_pending _ HR s None (FileManagerDone call) Hs I)|done]. }
    intros n. eapply hoare_bind; [by apply hoare_modify with (Q := λ _ s T, R s ∧ since plain T0 T)|].
    intros []. apply IH.
Qed.

Lemma leaves_file_manager m ps i : leaves (file_manager_call m ps i).
Proof.
  unfold file_manager_call. walk;
    auto using steps_new_id, leaves_native, leaves_spawn, leaves_finish_file.
  apply leaves_native.
Qed.

(** *** Mirrors *)

Lemma leaves_the_mirror id : leaves (the_mirror id).
Proof. unfold the_mirror. walk. Qed.
Lemma leaves_put_mirror id m : leaves (put_mirror id m).
Proof. apply leaves_mirrors. Qed.

Lemma leaves_remove_staged broker uris :
  getenv (str "SPACES_INTEGRATION_BROKER") = Some broker → leaves (remove_staged broker uris).
Proof.
  intros Hb. induction uris; simpl; walk.
Qed.

Lemma leaves_clear_artwork id : leaves (clear_mirror_artwork id).
Proof.
  unfold clear_mirror_artwork. destruct (getenv _) as [broker|] eqn:Hb; walk;
    auto using leaves_the_mirror, leaves_put_mirror, leaves_remove_staged.
Qed.

Lemma leaves_stage_artwork id value : leaves (stage_artwork id value).
Proof.
  unfold stage_artwork. destruct (getenv _) as [broker|] eqn:Hb; walk;
    auto using leaves_the_mirror, leaves_put_mirror, leaves_clear_artwork.
  apply steps_call_sync. intros _. by constructor.
Qed.

Lemma leaves_mirror_method id path i m ps inv : leaves (mirror_method_call id path i m ps inv).
Proof.
  unfold mirror_method_call. walk; auto using leaves_the_mirror.
  by apply leaves_call_async.
Qed.

Lemma leaves_mirror_get id path i p : leaves (mirror_get_property id path i p).
Proof.
  unfold mirror_get_property. walk;
    auto using leaves_the_mirror, leaves_stage_artwork, leaves_host_icon.
  by apply asks_get_property.
Qed.

Lemma leaves_mirror_set id path i p v : leaves (mirror_set_property id path i p v).
Proof. unfold mirror_set_property. walk; auto using leaves_the_mirror. by apply steps_call_sync. Qed.

Lemma leaves_map_icons names changed dictionary : leaves (map_icons names changed dictionary).
Proof.
  revert dictionary. induction names as [|n l IH]; intros d; simpl; walk.
  apply leaves_map_image.
Qed.

Lemma leaves_guest_signal id sender path i name ps :
  leaves (mirror_guest_signal id sender path i name ps).
Proof.
  unfold mirror_guest_signal, mirror_changed. walk;
    auto using leaves_the_mirror, leaves_stage_artwork, leaves_map_icons.
Qed.

Lemma leaves_register_mirrored id path info : leaves (register_mirrored id path info).
Proof. unfold register_mirrored. walk; auto using steps_new_id, leaves_mirrors. Qed.

Lemma leaves_mirror_interfaces id path node : leaves (mirror_interfaces id path node).
Proof.
  induction node as [|info node IH]; simpl; walk;
    auto using leaves_the_mirror, leaves_register_mirrored, leaves_put_mirror.
  unfold published. walk. by apply steps_call_sync.
Qed.

Lemma leaves_add_path id path : leaves (mirror_add_path id path).
Proof.
  unfold mirror_add_path. walk;
    auto using leaves_the_mirror, leaves_put_mirror, leaves_mirror_interfaces.
  by apply steps_call_sync.
Qed.

Lemma leaves_unregister_mirrored l : leaves (unregister_mirrored l).
Proof. induction l; simpl; walk; apply leaves_mirrors. Qed.

Lemma leaves_mirror_free id : leaves (mirror_free id).
Proof.
  unfold mirror_free. walk;
    auto using leaves_clear_artwork, leaves_the_mirror, leaves_unregister_mirrored, leaves_mirrors.
Qed.

Lemma leaves_remove_mirror key : leaves (remove_mirror key).
Proof. unfold remove_mirror. walk; auto using leaves_mirrors, leaves_mirror_free. Qed.

Lemma leaves_name_acquired id : leaves (mirror_name_acquired id).
Proof. unfold mirror_name_acquired. walk; auto using leaves_the_mirror. Qed.

Lemma leaves_name_lost id : leaves (mirror_name_lost id).
Proof. unfold mirror_name_lost. walk; auto using leaves_the_mirror, leaves_remove_mirror. Qed.

Lemma leaves_create_mirror key name path item : leaves (create_mirror key name path item).
Proof.
  unfold create_mirror, new_mirror, own_host_name, mirror_host_name, mirror_menu. walk;
    auto using leaves_the_mirror, leaves_put_mirror, leaves_mirrors, leaves_mirror_free,
      leaves_add_path, steps_new_id.
  by apply asks_get_property.
Qed.

Lemma leaves_add_source delay x : leaves (add_source delay x).
Proof. unfold add_source. walk; auto using steps_new_id, leaves_mirrors. Qed.

Lemma leaves_status_watcher sender m ps i : leaves (status_watcher_call sender m ps i).
Proof. unfold status_watcher_call. walk; auto using leaves_add_source. Qed.

Lemma leaves_maybe_mpris name : leaves (maybe_add_mpris name).
Proof. unfold maybe_add_mpris. walk. apply leaves_add_source. Qed.

Lemma leaves_discover : leaves discover_mpris.
Proof.
  unfold discover_mpris. walk; [by apply steps_call_sync|].
  match goal with |- leaves (maybe_add_all ?l) => induction l; simpl; walk end.
  apply leaves_maybe_mpris.
Qed.

Lemma leaves_source n x : leaves (run_source n x).
Proof.
  unfold run_source, publish_status_item, retry_mpris. walk;
    auto using leaves_mirrors, leaves_create_mirror.
Qed.

Lemma leaves_mirrors_of owner announce l : leaves (mirrors_of owner announce l).
Proof. induction l as [|[key id] l IH]; simpl; walk. apply leaves_the_mirror. Qed.

Lemma leaves_remove_mirrors keys : leaves (remove_mirrors keys).
Proof. induction keys; simpl; walk. apply leaves_remove_mirror. Qed.

Lemma leaves_mirrors_vanished owner announce : leaves (mirrors_vanished owner announce).
Proof.
  unfold mirrors_vanished. walk; [apply leaves_mirrors_of|apply leaves_remove_mirrors].
Qed.

Lemma leaves_inhibitors_vanished name : leaves (inhibitors_vanished name).
Proof.
  unfold inhibitors_vanished. walk.
  match goal with |- leaves (release_inhibitors _ ?l) => generalize l; intros entries; induction entries as [|[key i] entries IH] end;
    simpl; walk; [apply leaves_release|apply leaves_native].
Qed.

Lemma leaves_screen_saver_found : leaves discover_screen_saver.
Proof. unfold discover_screen_saver. walk; apply leaves_native. Qed.

Lemma leaves_screen_saver_lost : leaves screen_saver_vanished.
Proof. unfold screen_saver_vanished. walk; apply leaves_native. Qed.
End leaving.
