(* ===== verification/FrontendInv.v ===== *)
(** * The guest's portal frontend: its tables stay consistent

    The invariant of the frontend's tables and pending calls, in runs whose
    inputs a message bus can give ([bus_input]) and in which no forwarded call
    is answered after its client has gone ([timely]).  [FrontendExamples] shows
    what happens without the second condition. *)

From S2P Require Import Prelude Glib.
From S2P Require Export FrontendSteps.

(** ** Names and paths *)

(** The names a message bus gives to its connections are numbers with dots,
    after a colon. *)
Definition unique_name (n : text) : Prop :=
  ∃ rest, rest ≠ [] ∧ n = ":"%char :: rest ∧
    Forall (λ c, is_digit c = true ∨ c = "."%char) rest.

Definition request_path (owner path : text) : Prop :=
  ∃ token, path = public_object_path (str "request") owner token.

Lemma before_slash (a b x y : text) :
  "/"%char ∉ a → "/"%char ∉ b → a ++ "/"%char :: x = b ++ "/"%char :: y → a = b ∧ x = y.
Proof.
  revert b. induction a as [|c a IH]; intros [|d b] Ha Hb He; simplify_eq/=; [done|set_solver..|].
  apply not_elem_of_cons in Ha as [_ Ha], Hb as [_ Hb].
  destruct (IH b Ha Hb H0) as [-> ->]. done.
Qed.

Lemma component_no_slash sender : "/"%char ∉ sender_component sender.
Proof.
  unfold sender_component. generalize (match sender with ":"%char :: rest => rest | _ => sender end).
  intros l Hin. apply list_elem_of_fmap in Hin as (c & Hc & _).
  destruct (negb (isalnum c) && negb (bool_decide (c = "_"%char))) eqn:E; [done|].
  subst c. vm_compute in E. done.
Qed.

Lemma component_unique rest :
  Forall (λ c, is_digit c = true ∨ c = "."%char) rest →
  sender_component (":"%char :: rest) =
    map (λ c, if decide (c = "."%char) then "_"%char else c) rest.
Proof.
  intros Hr. unfold sender_component. apply list_fmap_ext. intros i c Hc.
  eapply Forall_lookup_1 in Hr; [|exact Hc]. destruct Hr as [Hd| ->]; [|done].
  unfold isalnum. rewrite Hd. simpl. rewrite decide_False; [done|]. by intros ->.
Qed.

(** Requests of two connections never have the same path. *)
Lemma request_path_owner o o' p :
  unique_name o → unique_name o' → request_path o p → request_path o' p → o = o'.
Proof.
  intros (r & _ & -> & Hr) (r' & _ & -> & Hr') (t & ->) (t' & He).
  unfold public_object_path in He. rewrite !component_unique in He by done.
  apply app_inv_head, app_inv_head, app_inv_head, app_inv_head in He.
  apply before_slash in He as [He _].
  - f_equal. revert r' Hr' He. induction Hr as [|c r Hc Hr IH]; intros [|c' r'] Hr' He;
      simplify_eq/=; [done|]. apply Forall_cons in Hr' as [Hc' Hr'].
    f_equal; [|by apply IH]. destruct Hc as [Hc|Hc], Hc' as [Hc'|Hc']; subst;
      repeat case_decide; simplify_eq/=; done.
  - rewrite <- component_unique by done. apply component_no_slash.
  - rewrite <- component_unique by done. apply component_no_slash.
Qed.

(** ** The invariant *)

(** The request [id] waits for the completion [k]: it is no request of the
    host's, and [k] finds it. *)
Definition serves (s : frontend) (k : completion) (id : nat) (r : request) : Prop :=
  s.(requests) !! id = Some r ∧ s.(requests_guest) !! r.(r_guest_path) = Some id ∧
  r.(r_host_path) = None ∧
  (k = ChooserDone id ∨ k = ScreenshotDone r.(r_guest_path)
   ∨ k = BrokerRequestDone r.(r_guest_path) ∨ k = TransformedRequestDone r.(r_guest_path)).

(** A path whose owner has gone. *)
Definition left_behind (left : gset text) (p : text) : Prop :=
  ∃ o, o ∈ left ∧ unique_name o ∧ request_path o p.

Definition completion_ok (left : gset text) (s : frontend) (k : completion) : Prop :=
  match k with
  | ForwardDone c =>
      unique_name c.(f_owner) ∧
      ∀ p, c.(f_guest_request_path) = Some p → request_path c.(f_owner) p
  | ChooserDone id =>
      (id < s.(fresh))%nat ∧ s.(requests) !! id = None ∨ ∃ r, serves s k id r
  | ScreenshotDone p | BrokerRequestDone p | TransformedRequestDone p =>
      left_behind left p ∨ ∃ id r, serves s k id r
  | _ => True
  end.

(** What may be exported to the guest with which functions. *)
Definition export_ok (x : export) : Prop :=
  match x.(e_vtable) with
  | PortalVtable => interface_allowed x.(e_info).(i_name) = true
  | SimpleBridgeVtable => bridged x.(e_info).(i_name)
  | _ => True
  end.

(** No request belongs to a client in [gone]; what waits for a request that is
    no longer there is left behind by a client in [left].  The two are the
    clients that have gone, except while their requests are removed. *)
Record Inv (gone left : gset text) (s : frontend) : Prop := {
  inv_request p id : s.(requests_guest) !! p = Some id → ∃ r n,
    s.(requests) !! id = Some r ∧ r.(r_guest_path) = p ∧ r.(r_registration) = Some n ∧
    s.(exports) !! n = Some (Export p request_info LifecycleVtable) ∧
    unique_name r.(r_owner) ∧ r.(r_owner) ∉ gone ∧ request_path r.(r_owner) p;
  inv_request_host h id : s.(requests_host) !! h = Some id → ∃ r,
    s.(requests) !! id = Some r ∧ r.(r_host_path) = Some h ∧
    s.(requests_guest) !! r.(r_guest_path) = Some id;
  inv_session p id : s.(sessions_guest) !! p = Some id → ∃ x n,
    s.(sessions) !! id = Some x ∧ x.(s_guest_path) = p ∧ x.(s_registration) = Some n ∧
    s.(exports) !! n = Some (Export p session_info LifecycleVtable);
  inv_session_host h id : s.(sessions_host) !! h = Some id → ∃ x,
    s.(sessions) !! id = Some x ∧ x.(s_host_path) = h ∧
    s.(sessions_guest) !! x.(s_guest_path) = Some id;
  inv_fresh_request id : is_Some (s.(requests) !! id) → (id < s.(fresh))%nat;
  inv_fresh_session id : is_Some (s.(sessions) !! id) → (id < s.(fresh))%nat;
  inv_fresh_export n : is_Some (s.(exports) !! n) → (n < s.(fresh))%nat;
  inv_fresh_pending n : is_Some (s.(pending) !! n) → (n < s.(fresh))%nat;
  inv_exports n x : s.(exports) !! n = Some x → export_ok x;
  inv_pending n p : s.(pending) !! n = Some p → completion_ok left s p.(p_then);
  inv_serves n1 p1 n2 p2 id1 r1 id2 r2 :
    s.(pending) !! n1 = Some p1 → s.(pending) !! n2 = Some p2 →
    serves s p1.(p_then) id1 r1 → serves s p2.(p_then) id2 r2 →
    r1.(r_guest_path) = r2.(r_guest_path) → n1 = n2;
}.

Section invariant.
Context (gone left : gset text).
Implicit Types s : frontend.

Lemma Inv_set_native s x : Inv gone left s → Inv gone left (set_native x s).
Proof. intros []. by constructor. Qed.

Lemma Inv_set_mirroring s x : Inv gone left s → Inv gone left (set_mirroring x s).
Proof. intros []. by constructor. Qed.

Lemma Inv_set_nodes s hn on : Inv gone left s → Inv gone left (set_nodes hn on s).
Proof. intros []. by constructor. Qed.

Lemma completion_ok_fresh s n k :
  (s.(fresh) ≤ n)%nat → completion_ok left s k → completion_ok left (set_fresh n s) k.
Proof. destruct k; simpl; try done. intros Hn [[Hid Hnone]|Hr]; [left|by right]. split; [lia|done]. Qed.

Lemma Inv_set_fresh s n : (s.(fresh) ≤ n)%nat → Inv gone left s → Inv gone left (set_fresh n s).
Proof.
  intros Hn []. constructor; simpl; try done.
  all: try (intros i Hi; eapply Nat.lt_le_trans; [|exact Hn]; by auto).
  intros m p Hm. apply completion_ok_fresh; [done|]. eauto.
Qed.

Lemma Inv_numbered s : Inv gone left s → Inv gone left (set_fresh (S s.(fresh)) s).
Proof. apply Inv_set_fresh. lia. Qed.

(** A new pending call. *)
Lemma Inv_add_pending s c k :
  Inv gone left s → completion_ok left s k →
  (∀ n p id r id' r', s.(pending) !! n = Some p → serves s p.(p_then) id r →
    serves s k id' r' → r.(r_guest_path) ≠ r'.(r_guest_path)) →
  Inv gone left (add_pending c k s).
Proof.
  intros Hs Hk Hnew. pose proof (Inv_numbered _ Hs) as [].
  constructor; try assumption.
  - intros n. simpl. destruct (decide (n = s.(fresh))) as [->|Hne]; [lia|].
    rewrite lookup_insert_ne by done. auto.
  - intros n p. simpl. intros [[<- <-]|[Hne Hp]]%lookup_insert_Some.
    + apply (completion_ok_fresh s); [lia|done].
    + by apply (inv_pending0 n).
  - intros n1 p1 n2 p2 id1 r1 id2 r2. simpl.
    intros [[<- <-]|[Hne1 Hp1]]%lookup_insert_Some [[<- <-]|[Hne2 Hp2]]%lookup_insert_Some;
      [done|..]; intros H1 H2 He.
    + by destruct (Hnew _ _ _ _ _ _ Hp2 H2 H1).
    + by destruct (Hnew _ _ _ _ _ _ Hp1 H1 H2).
    + by apply (inv_serves0 _ _ _ _ _ _ _ _ Hp1 Hp2 H1 H2).
Qed.

Lemma serves_settled s k id r : settled k → ¬ serves s k id r.
Proof. intros Hk (_ & _ & _ & [->|[->|[->| ->]]]); done. Qed.

Lemma Inv_robust : robust (Inv gone left).
Proof.
  constructor.
  - apply Inv_set_native.
  - apply Inv_set_mirroring.
  - apply Inv_numbered.
  - intros s c k Hs Hk. apply Inv_add_pending; [done|by destruct k|].
    intros n p id r id' r' _ _ Hr'. by destruct (serves_settled s k id' r').
Qed.

Lemma Inv_drop_pending s n : Inv gone left s → Inv gone left (set_pending (delete n s.(pending)) s).
Proof.
  intros []. constructor; try assumption; simpl.
  - intros m [x Hm]. apply lookup_delete_Some in Hm as [_ Hm]. eauto.
  - intros m p [_ Hm]%lookup_delete_Some. by apply (inv_pending0 m).
  - intros n1 p1 n2 p2 id1 r1 id2 r2 [_ H1]%lookup_delete_Some [_ H2]%lookup_delete_Some. eauto.
Qed.
End invariant.

(** ** Requests *)

Definition with_registration (n : nat) (r : request) : request :=
  Request r.(r_owner) r.(r_guest_path) r.(r_host_path) r.(r_guest_session_path) (Some n)
    r.(r_local) r.(r_local_backend) r.(r_flatpak_app_id) r.(r_chooser_writable)
    r.(r_persistent) r.(r_cancelled).

Definition with_cancelled (r : request) : request :=
  Request r.(r_owner) r.(r_guest_path) r.(r_host_path) r.(r_guest_session_path)
    r.(r_registration) r.(r_local) r.(r_local_backend) r.(r_flatpak_app_id)
    r.(r_chooser_writable) r.(r_persistent) true.

(** A request that is not registered yet. *)
Definition floating (s : frontend) (id : nat) (r : request) : Prop :=
  s.(requests) !! id = Some r ∧ r.(r_registration) = None ∧
  ∀ p, s.(requests_guest) !! p ≠ Some id.

Definition unserved (s : frontend) (p : text) : Prop :=
  ∀ n q id r, s.(pending) !! n = Some q → serves s q.(p_then) id r → r.(r_guest_path) ≠ p.

Lemma request_not_session : request_info ≠ session_info.
Proof. intros He. apply (f_equal i_name) in He. vm_compute in He. discriminate. Qed.

Section requests.
Context (gone left : gset text).
Implicit Types s : frontend.
Abbreviation I := (Inv gone left).

Lemma serves_same s s' k id r :
  s'.(requests) !! id = s.(requests) !! id → s'.(requests_guest) = s.(requests_guest) →
  serves s' k id r ↔ serves s k id r.
Proof. intros Hr Hg. unfold serves. by rewrite Hr, Hg. Qed.

Lemma completion_ok_mono s s' k :
  (s.(fresh) ≤ s'.(fresh))%nat →
  (∀ id, (id < s.(fresh))%nat → s.(requests) !! id = None → s'.(requests) !! id = None) →
  (∀ k id r, serves s k id r → ∃ r', serves s' k id r') →
  completion_ok left s k → completion_ok left s' k.
Proof.
  intros Hf Hd Hs. destruct k as [c|id|p|p|p|i|i|c|c|i]; simpl; try done.
  - intros [[Hid Hn]|[r Hr]].
    + left. split; [lia|auto].
    + right. eauto.
  - intros [Hl|(id & r & Hr)]; [by left|right]. destruct (Hs _ _ _ Hr) as [r' Hr']. eauto.
  - intros [Hl|(id & r & Hr)]; [by left|right]. destruct (Hs _ _ _ Hr) as [r' Hr']. eauto.
  - intros [Hl|(id & r & Hr)]; [by left|right]. destruct (Hs _ _ _ Hr) as [r' Hr']. eauto.
Qed.

Lemma guest_id_fresh s p id : I s → s.(requests_guest) !! p = Some id → (id < s.(fresh))%nat.
Proof.
  intros Hs Hp. destruct (inv_request _ _ _ Hs _ _ Hp) as (x & _ & Hx & _).
  by eapply inv_fresh_request.
Qed.

Lemma Inv_new_request s r :
  I s → r.(r_registration) = None →
  let s' := set_requests (<[s.(fresh) := r]> s.(requests)) (set_fresh (S s.(fresh)) s) in
  I s' ∧ floating s' s.(fresh) r.
Proof.
  intros Hs Hreg s'. pose proof (Inv_numbered _ _ _ Hs) as [].
  assert (Hne : ∀ p id, requests_guest s !! p = Some id → id ≠ fresh s).
  { intros p id Hp ->. apply (guest_id_fresh _ _ _ Hs) in Hp. lia. }
  assert (Hold : ∀ id, id ≠ fresh s → requests s' !! id = requests s !! id).
  { intros id Hid. simpl. by rewrite lookup_insert_ne. }
  split; [|split_and!; [simpl; by rewrite lookup_insert_eq|done|]].
  2:{ intros p Hp. by eapply Hne. }
  constructor; try assumption.
  - intros p id Hp. destruct (inv_request0 p id Hp) as (x & n & Hx & Hrest).
    exists x, n. rewrite Hold by (by eapply Hne). by split.
  - intros h id Hh. destruct (inv_request_host0 h id Hh) as (x & Hx & Hh' & Hg).
    exists x. rewrite Hold by (by eapply Hne). by split.
  - intros id [x Hx]. simpl in Hx. destruct (decide (id = fresh s)) as [->|Hid]; [simpl; lia|].
    rewrite lookup_insert_ne in Hx by done. eauto.
  - intros n p Hp. apply (completion_ok_mono s); [simpl; lia|..|by eapply inv_pending].
    + intros id Hid Hn. rewrite Hold by lia. done.
    + intros k id x Hx. exists x. apply (serves_same s); [|done..].
      destruct Hx as (_ & Hg & _). apply Hold. by eapply Hne.
  - intros n1 p1 n2 p2 id1 r1 id2 r2 H1 H2 Hs1 Hs2.
    assert (id1 ≠ fresh s) by (destruct Hs1 as (_ & Hg & _); by eapply Hne).
    assert (id2 ≠ fresh s) by (destruct Hs2 as (_ & Hg & _); by eapply Hne).
    apply (serves_same (set_fresh (S (fresh s)) s)) in Hs1; [|by apply Hold|done].
    apply (serves_same (set_fresh (S (fresh s)) s)) in Hs2; [|by apply Hold|done].
    eauto.
Qed.

(** The registration of a request: its object is exported and the tables find
    it. *)
Definition registered_state (id : nat) (r : request) (s : frontend) : frontend :=
  let n := s.(fresh) in
  set_request_tables (<[r.(r_guest_path) := id]> s.(requests_guest))
    (match r.(r_host_path) with
     | Some h => <[h := id]> s.(requests_host)
     | None => s.(requests_host)
     end)
    (set_requests (<[id := with_registration n r]> s.(requests))
      (set_exports (<[n := Export r.(r_guest_path) request_info LifecycleVtable]> s.(exports))
        (set_fresh (S n) s))).

Definition exported (s : frontend) (path interface : text) : Prop :=
  map_Exists (λ _ x, x.(e_path) = path ∧ x.(e_info).(i_name) = interface) s.(exports).

Lemma not_exported_request s p :
  I s → ¬ exported s p REQUEST_INTERFACE → s.(requests_guest) !! p = None.
Proof.
  intros Hs Hne. destruct (requests_guest s !! p) as [id|] eqn:Hp; [|done].
  destruct (inv_request _ _ _ Hs _ _ Hp) as (r & n & _ & _ & _ & He & _).
  destruct Hne. by exists n, (Export p request_info LifecycleVtable).
Qed.

(** Nothing waits for a request that is being registered. *)
Lemma nobody_waits s id r n q id' r' :
  I s → floating s id r → s.(requests_guest) !! r.(r_guest_path) = None →
  unique_name r.(r_owner) → r.(r_owner) ∉ left → request_path r.(r_owner) r.(r_guest_path) →
  s.(pending) !! n = Some q → serves (registered_state id r s) q.(p_then) id' r' →
  serves s q.(p_then) id' r' ∧ r'.(r_guest_path) ≠ r.(r_guest_path).
Proof.
  intros Hs (Hid & Hreg & Hfl) Hfree Hu Hleft Hpath Hq Hsv.
  destruct (decide (id' = id)) as [->|Hne].
  - exfalso. destruct Hsv as (Hr' & _ & _ & Hk). simpl in Hr'.
    rewrite lookup_insert_eq in Hr'. injection Hr' as <-. simpl in Hk.
    pose proof (inv_pending _ _ _ Hs n q Hq) as Hok.
    destruct Hk as [Hk|Hk]; [rewrite Hk in Hok; simpl in Hok|].
    { destruct Hok as [[_ Hn]|(y & Hy & Hg & _)]; [congruence|]. by destruct (Hfl _ Hg). }
    assert (Hpk : left_behind left r.(r_guest_path) ∨ ∃ id r0, serves s q.(p_then) id r0).
    { destruct Hk as [Hk|[Hk|Hk]]; rewrite Hk in Hok |- *; exact Hok. }
    destruct Hpk as [(o & Ho & Huo & Hpo)|(id0 & r0 & H1 & H2 & H3 & H4)].
    + apply Hleft. by rewrite (request_path_owner _ _ _ Hu Huo Hpath Hpo).
    + assert (r_guest_path r0 = r_guest_path r) as Heq.
      { destruct Hk as [Hk|[Hk|Hk]]; rewrite Hk in H4; by destruct H4 as [?|[?|[?|?]]]; simplify_eq. }
      rewrite Heq in H2. congruence.
  - destruct Hsv as (Hr' & Hg & Hrest). simpl in Hr', Hg. rewrite lookup_insert_ne in Hr' by done.
    apply lookup_insert_Some in Hg as [[_ ?]|[Hp Hg]]; [done|].
    split; [by split|]. congruence.
Qed.

Lemma Inv_register s id r :
  I s → floating s id r → ¬ exported s r.(r_guest_path) REQUEST_INTERFACE →
  unique_name r.(r_owner) → r.(r_owner) ∉ gone → r.(r_owner) ∉ left →
  request_path r.(r_owner) r.(r_guest_path) →
  I (registered_state id r s).
Proof.
  intros Hs Hfl Hexp Hu Hgone Hleft Hpath.
  pose proof (not_exported_request _ _ Hs Hexp) as Hfree.
  pose proof (λ n q id' r', nobody_waits s id r n q id' r' Hs Hfl Hfree Hu Hleft Hpath) as Hnobody.
  pose proof Hs as []. destruct Hfl as (Hid & Hreg & Hfl).
  assert (Hlt : (id < fresh s)%nat) by (apply inv_fresh_request0; eauto).
  constructor; simpl.
  - intros p i [[<- <-]|[Hp Hi]]%lookup_insert_Some.
    + exists (with_registration (fresh s) r), (fresh s). rewrite !lookup_insert_eq. by split_and!.
    + destruct (inv_request0 p i Hi) as (x & n & Hx & ? & ? & He & ?).
      exists x, n. rewrite lookup_insert_ne by (intros ->; by eapply Hfl).
      rewrite lookup_insert_ne; [by repeat (split; [done|])|].
      intros <-. assert (fresh s < fresh s)%nat; [|lia]. apply inv_fresh_export0. eauto.
  - intros h i Hi.
    assert (i = id ∧ r.(r_host_path) = Some h ∨ s.(requests_host) !! h = Some i) as [[-> Hh]|Hi'].
    { destruct (r_host_path r) as [h'|]; [|by right].
      apply lookup_insert_Some in Hi as [[<- <-]|[_ Hi]]; [by left|by right]. }
    + exists (with_registration (fresh s) r). rewrite !lookup_insert_eq. by split_and!.
    + destruct (inv_request_host0 h i Hi') as (x & Hx & Hh & Hg). exists x.
      rewrite lookup_insert_ne by (intros ->; by eapply Hfl).
      rewrite lookup_insert_ne; [by split_and!|]. intros Heq. rewrite <- Heq in Hg. congruence.
  - intros p i Hi. destruct (inv_session0 p i Hi) as (x & n & ? & ? & ? & He).
    exists x, n. rewrite lookup_insert_ne; [by split_and!|].
    intros <-. assert (fresh s < fresh s)%nat; [|lia]. apply inv_fresh_export0. eauto.
  - done.
  - intros i [x [[<- _]|[_ Hx]]%lookup_insert_Some]; [lia|].
    apply Nat.lt_lt_succ_r, inv_fresh_request0. eauto.
  - intros i Hi. by apply Nat.lt_lt_succ_r, inv_fresh_session0.
  - intros i [x [[<- _]|[_ Hx]]%lookup_insert_Some]; [lia|].
    apply Nat.lt_lt_succ_r, inv_fresh_export0. eauto.
  - intros i Hi. by apply Nat.lt_lt_succ_r, inv_fresh_pending0.
  - intros n x [[<- <-]|[_ Hx]]%lookup_insert_Some; [done|eauto].
  - intros n q Hq. apply (completion_ok_mono s); [simpl; lia|..|by eapply inv_pending0].
    + intros i Hi Hn. simpl. rewrite lookup_insert_ne; [done|congruence].
    + intros k i x (H1 & H2 & H3). exists x. split_and!; simpl.
      * rewrite lookup_insert_ne; [done|]. intros ->. by eapply Hfl.
      * rewrite lookup_insert_ne; [done|congruence].
      * apply H3.
      * apply H3.
  - intros n1 q1 n2 q2 i1 r1 i2 r2 Hq1 Hq2 H1 H2.
    apply (Hnobody n1) in H1 as [H1 _]; [|done]. apply (Hnobody n2) in H2 as [H2 _]; [|done].
    eauto.
Qed.

Lemma unserved_register s id r :
  I s → floating s id r → ¬ exported s r.(r_guest_path) REQUEST_INTERFACE →
  unique_name r.(r_owner) → r.(r_owner) ∉ left → request_path r.(r_owner) r.(r_guest_path) →
  unserved (registered_state id r s) r.(r_guest_path).
Proof.
  intros Hs Hfl Hexp Hu Hleft Hpath n q i x Hq Hx.
  eapply nobody_waits in Hx as [_ Hx]; eauto. by apply not_exported_request.
Qed.

Lemma Inv_delete_floating s id r :
  I s → floating s id r → I (set_requests (delete id s.(requests)) s).
Proof.
  intros Hs (Hid & Hreg & Hfl). pose proof Hs as []. constructor; simpl; try assumption.
  - intros p i Hi. destruct (inv_request0 p i Hi) as (x & n & Hx & Hrest). exists x, n.
    rewrite lookup_delete_ne; [by split|]. intros ->. by eapply Hfl.
  - intros h i Hi. destruct (inv_request_host0 h i Hi) as (x & Hx & Hh & Hg). exists x.
    rewrite lookup_delete_ne; [by split|]. intros ->. by eapply Hfl.
  - intros i [x [_ Hx]%lookup_delete_Some]. eauto.
  - intros n q Hq. apply (completion_ok_mono s); [simpl; lia|..|by eapply inv_pending0].
    + intros i _ Hn. simpl. destruct (decide (i = id)) as [->|Hne];
        [apply lookup_delete_eq|by rewrite lookup_delete_ne].
    + intros k i x (H1 & H2 & H3). exists x. split_and!; simpl; try apply H3; [|done].
      rewrite lookup_delete_ne; [done|]. intros ->. by eapply Hfl.
  - intros n1 q1 n2 q2 i1 r1 i2 r2 Hq1 Hq2 (H1 & H1') (H2 & H2'). simpl in *.
    apply lookup_delete_Some in H1 as [_ H1], H2 as [_ H2].
    eapply inv_serves0; [done..| |]; by split.
Qed.

Lemma Inv_remove_host s h :
  I s → I (set_request_tables s.(requests_guest) (delete h s.(requests_host)) s).
Proof.
  intros []. constructor; try assumption.
  simpl. intros h' id [_ Hh]%lookup_delete_Some. eauto.
Qed.

Lemma removed_host s h id r :
  I s → s.(requests) !! id = Some r → r.(r_host_path) = Some h → ∀ h',
  delete h s.(requests_host) !! h' ≠ Some id.
Proof.
  intros Hs Hr Hh h' [Hne Hh']%lookup_delete_Some.
  destruct (inv_request_host _ _ _ Hs _ _ Hh') as (x & Hx & Hp & _). congruence.
Qed.

Lemma local_not_host s id r :
  I s → s.(requests) !! id = Some r → r.(r_host_path) = None → ∀ h,
  s.(requests_host) !! h ≠ Some id.
Proof.
  intros Hs Hr Hh h Hh'.
  destruct (inv_request_host _ _ _ Hs _ _ Hh') as (x & Hx & Hp & _). congruence.
Qed.

(** The state after [remove_request_guest]. *)
Definition removed_state (p : text) (id n : nat) (s : frontend) : frontend :=
  set_requests (delete id s.(requests))
    (set_exports (delete n s.(exports))
      (set_request_tables (delete p s.(requests_guest)) s.(requests_host) s)).

Lemma Inv_remove_guest s p id r n :
  I s → s.(requests_guest) !! p = Some id → s.(requests) !! id = Some r →
  r.(r_registration) = Some n → (∀ h, s.(requests_host) !! h ≠ Some id) →
  (∀ m q, s.(pending) !! m = Some q → serves s q.(p_then) id r → r.(r_owner) ∈ left) →
  I (removed_state p id n s).
Proof.
  intros Hs Hp Hr Hreg Hhost Hleft. pose proof Hs as [].
  destruct (inv_request0 p id Hp) as (r' & n' & Hr' & Hpath & Hreg' & Hexp & Hu & Hgone & Howner).
  rewrite Hr in Hr'. injection Hr' as <-. rewrite Hreg in Hreg'. injection Hreg' as <-. subst p.
  assert (Hothers : ∀ p' i, requests_guest s !! p' = Some i → p' ≠ r_guest_path r → i ≠ id).
  { intros p' i Hi Hne ->. destruct (inv_request0 p' id Hi) as (x & m & Hx & Hpx & _).
    congruence. }
  assert (Hserves : ∀ k i x, serves s k i x → i ≠ id → serves (removed_state (r_guest_path r) id n s) k i x).
  { intros k i x (H1 & H2 & H3) Hne. split_and!; simpl; try apply H3.
    - by rewrite lookup_delete_ne.
    - rewrite lookup_delete_ne; [done|]. congruence. }
  assert (Hserved : ∀ k i x, serves (removed_state (r_guest_path r) id n s) k i x → serves s k i x).
  { intros k i x (H1 & H2 & H3). simpl in *. apply lookup_delete_Some in H1 as [_ H1], H2 as [_ H2].
    by split. }
  constructor; simpl; try assumption.
  - intros p' i [Hne Hi]%lookup_delete_Some. assert (i ≠ id) by eauto.
    destruct (inv_request0 p' i Hi) as (x & m & Hx & Hpx & Hm & He & Hrest).
    exists x, m. rewrite !lookup_delete_ne; [by repeat (split; [done|])|congruence|done].
  - intros h i Hi. destruct (inv_request_host0 h i Hi) as (x & Hx & Hh & Hg).
    assert (i ≠ id) by (intros ->; by eapply Hhost). exists x.
    rewrite !lookup_delete_ne; [by split_and!| |done].
    intros Heq. rewrite <- Heq in Hg. congruence.
  - intros p' i Hi. destruct (inv_session0 p' i Hi) as (x & m & ? & ? & ? & He).
    exists x, m. rewrite lookup_delete_ne; [by split_and!|]. intros <-.
    apply request_not_session. rewrite Hexp in He. by apply (f_equal (fmap e_info)), (inj Some) in He.
  - intros i [x [_ Hx]%lookup_delete_Some]. eauto.
  - intros m [x [_ Hx]%lookup_delete_Some]. eauto.
  - intros m x [_ Hx]%lookup_delete_Some. eauto.
  - intros m q Hq. pose proof (inv_pending0 m q Hq) as Hok.
    assert (Hcase : ∀ p', (left_behind left p' ∨ ∃ i x, serves s (p_then q) i x) →
      (∀ x, serves s (p_then q) id x → p' = r_guest_path x) →
      left_behind left p' ∨ ∃ i x, serves (removed_state (r_guest_path r) id n s) (p_then q) i x).
    { intros p' [Hl|(i & x & Hx)] Hp'; [by left|].
      destruct (decide (i = id)) as [->|Hne]; [|right; eauto].
      left. exists (r_owner r). pose proof Hx as (Hxr & _). rewrite Hr in Hxr. injection Hxr as <-.
      rewrite (Hp' _ Hx). split_and!; eauto. }
    destruct (p_then q) as [c|i|p'|p'|p'|i|i|c|c|i] eqn:Hk; simpl; try done.
    { destruct Hok as [[Hlt Hn]|(x & Hx)].
      - left. split; [done|]. destruct (decide (i = id)) as [->|Hne];
          [apply lookup_delete_eq|by rewrite lookup_delete_ne].
      - destruct (decide (i = id)) as [->|Hne].
        + left. split; [eauto|apply lookup_delete_eq].
        + right. exists x. by apply Hserves. }
    all: apply Hcase; [exact Hok|]; intros x (_ & _ & _ & [?|[?|[?|?]]]); by simplify_eq.
  - intros n1 q1 n2 q2 i1 r1 i2 r2 Hq1 Hq2 H1 H2. apply Hserved in H1, H2. eauto.
Qed.

Lemma Inv_cancel s id r :
  I s → s.(requests) !! id = Some r →
  I (set_requests (<[id := with_cancelled r]> s.(requests)) s).
Proof.
  intros Hs Hr. pose proof Hs as [].
  assert (Hget : ∀ i x, requests s !! i = Some x → ∃ y,
    <[id := with_cancelled r]> (requests s) !! i = Some y ∧ r_guest_path y = r_guest_path x ∧
    r_host_path y = r_host_path x ∧ r_registration y = r_registration x ∧ r_owner y = r_owner x).
  { intros i x Hx. destruct (decide (i = id)) as [->|Hne].
    - exists (with_cancelled r). rewrite lookup_insert_eq. by simplify_eq.
    - exists x. by rewrite lookup_insert_ne. }
  assert (Hback : ∀ k i x, serves (set_requests (<[id := with_cancelled r]> s.(requests)) s) k i x →
    ∃ y, serves s k i y ∧ r_guest_path y = r_guest_path x).
  { intros k i x (H1 & H2 & H3 & H4). simpl in *.
    apply lookup_insert_Some in H1 as [[<- <-]|[Hne H1]]; [exists r|exists x]; by split_and!. }
  constructor; simpl; try assumption.
  - intros p i Hi. destruct (inv_request0 p i Hi) as (x & n & Hx & Hp & Hn & He & Hu & Hg & Ho).
    destruct (Hget i x Hx) as (y & Hy & E1 & E2 & E3 & E4). exists y, n.
    rewrite E1, E3, E4. by split_and!.
  - intros h i Hi. destruct (inv_request_host0 h i Hi) as (x & Hx & Hh & Hg).
    destruct (Hget i x Hx) as (y & Hy & E1 & E2 & E3 & E4). exists y.
    rewrite E1, E2. by split_and!.
  - intros i [x [[<- _]|[_ Hx]]%lookup_insert_Some]; eauto.
  - intros n q Hq. apply (completion_ok_mono s); [simpl; lia|..|by eapply inv_pending0].
    + intros i _ Hn. simpl. rewrite lookup_insert_ne; [done|congruence].
    + intros k i x (H1 & H2 & H3 & H4). destruct (Hget i x H1) as (y & Hy & E1 & E2 & E3 & E4).
      exists y. unfold serves. rewrite E1, E2. by split_and!.
  - intros n1 q1 n2 q2 i1 r1 i2 r2 Hq1 Hq2 H1 H2 Heq.
    destruct (Hback _ _ _ H1) as (y1 & Hy1 & E1), (Hback _ _ _ H2) as (y2 & Hy2 & E2).
    apply (inv_serves0 _ _ _ _ _ _ _ _ Hq1 Hq2 Hy1 Hy2). congruence.
Qed.
End requests.

(** ** Sessions *)

Definition session_with (n : nat) (x : session) : session :=
  Session x.(s_owner) x.(s_guest_path) x.(s_host_path) (Some n).

Definition session_floating (s : frontend) (id : nat) (x : session) : Prop :=
  s.(sessions) !! id = Some x ∧ x.(s_registration) = None ∧
  ∀ p, s.(sessions_guest) !! p ≠ Some id.

Definition session_state (id : nat) (x : session) (s : frontend) : frontend :=
  let n := s.(fresh) in
  set_session_tables (<[x.(s_guest_path) := id]> s.(sessions_guest))
    (<[x.(s_host_path) := id]> s.(sessions_host))
    (set_sessions (<[id := session_with n x]> s.(sessions))
      (set_exports (<[n := Export x.(s_guest_path) session_info LifecycleVtable]> s.(exports))
        (set_fresh (S n) s))).

Definition session_removed (p : text) (id n : nat) (s : frontend) : frontend :=
  set_sessions (delete id s.(sessions))
    (set_exports (delete n s.(exports))
      (set_session_tables (delete p s.(sessions_guest)) s.(sessions_host) s)).

Section sessions.
Context (gone left : gset text).
Implicit Types s : frontend.
Abbreviation I := (Inv gone left).

(** The pending calls only know requests. *)
Lemma Inv_pending_same s s' :
  I s → (s.(fresh) ≤ s'.(fresh))%nat → s'.(requests) = s.(requests) →
  s'.(requests_guest) = s.(requests_guest) → s'.(pending) = s.(pending) →
  (∀ n p, s'.(pending) !! n = Some p → completion_ok left s' p.(p_then)) ∧
  (∀ n1 p1 n2 p2 id1 r1 id2 r2,
    s'.(pending) !! n1 = Some p1 → s'.(pending) !! n2 = Some p2 →
    serves s' p1.(p_then) id1 r1 → serves s' p2.(p_then) id2 r2 →
    r1.(r_guest_path) = r2.(r_guest_path) → n1 = n2).
Proof.
  intros [] Hf Hr Hg Hp. rewrite Hp. split.
  - intros n p Hn. apply (completion_ok_mono left s); [done|..|by eapply inv_pending0].
    + intros id _. by rewrite Hr.
    + intros k id r Hs. exists r. by apply (serves_same s); [rewrite Hr|..].
  - intros n1 p1 n2 p2 id1 r1 id2 r2 H1 H2 Hs1 Hs2.
    apply (serves_same s) in Hs1; [|by rewrite Hr|done].
    apply (serves_same s) in Hs2; [|by rewrite Hr|done]. eauto.
Qed.

Lemma session_id_fresh s p id : I s → s.(sessions_guest) !! p = Some id → (id < s.(fresh))%nat.
Proof.
  intros Hs Hp. destruct (inv_session _ _ _ Hs _ _ Hp) as (x & _ & Hx & _).
  by eapply inv_fresh_session.
Qed.

Lemma not_exported_session s p :
  I s → ¬ exported s p SESSION_INTERFACE → s.(sessions_guest) !! p = None.
Proof.
  intros Hs Hne. destruct (sessions_guest s !! p) as [id|] eqn:Hp; [|done].
  destruct (inv_session _ _ _ Hs _ _ Hp) as (r & n & _ & _ & _ & He).
  destruct Hne. by exists n, (Export p session_info LifecycleVtable).
Qed.

Lemma Inv_new_session s x :
  I s → x.(s_registration) = None →
  let s' := set_sessions (<[s.(fresh) := x]> s.(sessions)) (set_fresh (S s.(fresh)) s) in
  I s' ∧ session_floating s' s.(fresh) x.
Proof.
  intros Hs Hreg s'. pose proof (Inv_numbered _ _ _ Hs) as [].
  assert (Hne : ∀ p id, sessions_guest s !! p = Some id → id ≠ fresh s).
  { intros p id Hp ->. apply (session_id_fresh _ _ _ Hs) in Hp. lia. }
  destruct (Inv_pending_same s s') as [Hp1 Hp2]; [done|simpl; lia|done..|].
  split; [|split_and!; [simpl; by rewrite lookup_insert_eq|done|intros p Hp; by eapply Hne]].
  constructor; try assumption; simpl.
  - intros p id Hp. destruct (inv_session0 p id Hp) as (y & n & Hy & Hrest).
    exists y, n. rewrite lookup_insert_ne by (intros Heq; by eapply Hne). by split.
  - intros h id Hh. destruct (inv_session_host0 h id Hh) as (y & Hy & Hh' & Hg).
    exists y. rewrite lookup_insert_ne by (intros Heq; by eapply Hne). by split.
  - intros id [y [[<- _]|[_ Hy]]%lookup_insert_Some]; [lia|]. eauto.
Qed.

Lemma Inv_delete_session s id x :
  I s → session_floating s id x → I (set_sessions (delete id s.(sessions)) s).
Proof.
  intros Hs (Hid & Hreg & Hfl).
  destruct (Inv_pending_same s (set_sessions (delete id s.(sessions)) s)) as [Hp1 Hp2];
    [done|simpl; lia|done..|].
  destruct Hs. constructor; try assumption; simpl.
  - intros p i Hp. destruct (inv_session0 p i Hp) as (y & n & Hy & Hrest).
    exists y, n. rewrite lookup_delete_ne by (intros ->; by eapply Hfl). by split.
  - intros h i Hh. destruct (inv_session_host0 h i Hh) as (y & Hy & Hh' & Hg).
    exists y. rewrite lookup_delete_ne by (intros ->; by eapply Hfl). by split.
  - intros i [y [_ Hy]%lookup_delete_Some]. eauto.
Qed.

Lemma Inv_register_session s id x :
  I s → session_floating s id x → ¬ exported s x.(s_guest_path) SESSION_INTERFACE →
  I (session_state id x s).
Proof.
  intros Hs (Hid & Hreg & Hfl) Hexp.
  pose proof (not_exported_session _ _ Hs Hexp) as Hfree.
  destruct (Inv_pending_same s (session_state id x s)) as [Hp1 Hp2]; [done|simpl; lia|done..|].
  destruct Hs.
  assert (Hlt : (id < fresh s)%nat) by (apply inv_fresh_session0; eauto).
  assert (Hold : ∀ n e, exports s !! n = Some e → n ≠ fresh s).
  { intros n e Hn ->. assert (fresh s < fresh s)%nat; [|lia]. apply inv_fresh_export0. eauto. }
  constructor; try assumption; simpl.
  - intros p i Hi. destruct (inv_request0 p i Hi) as (r & n & Hr & ? & ? & He & Hrest).
    exists r, n. rewrite lookup_insert_ne by (apply not_eq_sym; by eapply Hold). by repeat (split; [done|]).
  - intros p i [[<- <-]|[Hp Hi]]%lookup_insert_Some.
    + exists (session_with (fresh s) x), (fresh s). rewrite !lookup_insert_eq. by split_and!.
    + destruct (inv_session0 p i Hi) as (y & n & Hy & ? & ? & He). exists y, n.
      rewrite lookup_insert_ne by (intros ->; by eapply Hfl).
      rewrite lookup_insert_ne by (apply not_eq_sym; by eapply Hold). by split_and!.
  - intros h i [[<- <-]|[Hh Hi]]%lookup_insert_Some.
    + exists (session_with (fresh s) x). rewrite !lookup_insert_eq. by split_and!.
    + destruct (inv_session_host0 h i Hi) as (y & Hy & Hh' & Hg). exists y.
      rewrite lookup_insert_ne by (intros ->; by eapply Hfl).
      rewrite lookup_insert_ne; [by split_and!|]. intros Heq. rewrite <- Heq in Hg. congruence.
  - intros i Hi. by apply Nat.lt_lt_succ_r, inv_fresh_request0.
  - intros i [y [[<- _]|[_ Hy]]%lookup_insert_Some]; [lia|].
    apply Nat.lt_lt_succ_r, inv_fresh_session0. eauto.
  - intros i [y [[<- _]|[_ Hy]]%lookup_insert_Some]; [lia|].
    apply Nat.lt_lt_succ_r, inv_fresh_export0. eauto.
  - intros i Hi. by apply Nat.lt_lt_succ_r, inv_fresh_pending0.
  - intros n y [[<- <-]|[_ Hy]]%lookup_insert_Some; [done|eauto].
Qed.

Lemma Inv_remove_session_host s h :
  I s → I (set_session_tables s.(sessions_guest) (delete h s.(sessions_host)) s).
Proof.
  intros []. constructor; try assumption.
  simpl. intros h' id [_ Hh]%lookup_delete_Some. eauto.
Qed.

Lemma removed_session_host s id x :
  I s → s.(sessions) !! id = Some x → ∀ h', delete x.(s_host_path) s.(sessions_host) !! h' ≠ Some id.
Proof.
  intros Hs Hx h' [Hne Hh']%lookup_delete_Some.
  destruct (inv_session_host _ _ _ Hs _ _ Hh') as (y & Hy & Hp & _). congruence.
Qed.

Lemma Inv_remove_session s p id x n :
  I s → s.(sessions_guest) !! p = Some id → s.(sessions) !! id = Some x →
  x.(s_registration) = Some n → (∀ h, s.(sessions_host) !! h ≠ Some id) →
  I (session_removed p id n s).
Proof.
  intros Hs Hp Hx Hreg Hhost.
  destruct (Inv_pending_same s (session_removed p id n s)) as [Hp1 Hp2];
    [done|simpl; lia|done..|].
  destruct Hs.
  destruct (inv_session0 p id Hp) as (x' & n' & Hx' & Hpath & Hreg' & Hexp).
  rewrite Hx in Hx'. injection Hx' as <-. rewrite Hreg in Hreg'. injection Hreg' as <-. subst p.
  assert (Hothers : ∀ p' i, sessions_guest s !! p' = Some i → p' ≠ s_guest_path x → i ≠ id).
  { intros p' i Hi Hne ->. destruct (inv_session0 p' id Hi) as (y & m & Hy & Hpy & _). congruence. }
  constructor; try assumption; simpl.
  - intros p' i Hi. destruct (inv_request0 p' i Hi) as (y & m & ? & ? & ? & He & Hrest).
    exists y, m. rewrite lookup_delete_ne; [by repeat (split; [done|])|]. intros <-.
    apply request_not_session. rewrite Hexp in He.
    by apply (f_equal (fmap e_info)), (inj Some) in He.
  - intros p' i [Hne Hi]%lookup_delete_Some. assert (i ≠ id) by eauto.
    destruct (inv_session0 p' i Hi) as (y & m & Hy & Hpy & Hm & He).
    exists y, m. rewrite !lookup_delete_ne; [by split_and!|congruence|done].
  - intros h i Hi. destruct (inv_session_host0 h i Hi) as (y & Hy & Hh & Hg).
    assert (i ≠ id) by (intros ->; by eapply Hhost). exists y.
    rewrite !lookup_delete_ne; [by split_and!| |done].
    intros Heq. rewrite <- Heq in Hg. congruence.
  - intros i [y [_ Hy]%lookup_delete_Some]. eauto.
  - intros m [y [_ Hy]%lookup_delete_Some]. eauto.
  - intros m y [_ Hy]%lookup_delete_Some. eauto.
Qed.
End sessions.
