(* ===== verification/FrontendSafe.v ===== *)
(** * The guest's portal frontend: every handler keeps the invariant

    And what a handler puts on the two buses is [event_ok] for the state it
    starts from: calls on the host's bus are of the kinds of [host_call], and a
    signal for one client is about a request or session that the client owns. *)

From S2P Require Import Prelude Glib.
From S2P Require Export FrontendInv.

Section operations.
Context `{Guest, Desktop} (gone left : gset text) (E : event → Prop).
Hypothesis HE : ∀ e, plain e → E e.
Implicit Types s : frontend.
Abbreviation I := (Inv gone left).

(** Programs whose runs are determined: the state is known. *)
Lemma hoare_exact f a (X : list event → Prop) :
  hoare (λ s T, s = a ∧ X T) (modify f) (λ _ s T, s = f a ∧ X T).
Proof. apply hoare_modify. by intros s T [-> HX]. Qed.

Lemma hoare_exact_id a (X : list event → Prop) :
  hoare (λ s T, s = a ∧ X T) new_id
    (λ n s T, n = a.(fresh) ∧ s = set_fresh (S a.(fresh)) a ∧ X T).
Proof. apply hoare_new_id. by intros s T [-> HX]. Qed.

Lemma hoare_pre {A} (P : frontend → list event → Prop) (φ : Prop) (m : M A) Q :
  (φ → hoare P m Q) → hoare (λ s T, φ ∧ P s T) m Q.
Proof. intros Hm w x w' [Hφ HP] Hr. by eapply Hm. Qed.

Lemma hoare_register_object path info v a (X : list event → Prop) Q :
  (exported a path info.(i_name) → ∀ T, X T → Q (inl EXISTS) a T) →
  (¬ exported a path info.(i_name) → ∀ T, X T →
    Q (inr a.(fresh)) (set_exports (<[a.(fresh) := Export path info v]> a.(exports))
                        (set_fresh (S a.(fresh)) a)) T) →
  hoare (λ s T, s = a ∧ X T) (register_object path info v) Q.
Proof.
  intros Hin Hout. unfold register_object. apply hoare_read. intros s0.
  case_bool_decide as Hx.
  - apply hoare_ret. intros s T [[-> HX] <-]. by apply Hin.
  - eapply hoare_bind with (Q := λ n s T,
      ¬ exported a path (i_name info) ∧ n = a.(fresh) ∧ s = set_fresh (S a.(fresh)) a ∧ X T).
    { apply hoare_new_id. intros s T [[-> HX] <-]. done. }
    intros n. eapply hoare_bind with (Q := λ _ s T,
      ¬ exported a path (i_name info) ∧ n = a.(fresh) ∧ s = set_exports
        (<[a.(fresh) := Export path info v]> a.(exports)) (set_fresh (S a.(fresh)) a) ∧ X T).
    { apply hoare_modify. by intros s T (? & -> & -> & HX). }
    intros []. apply hoare_ret. intros s T (Hne & -> & -> & HX). by apply Hout.
Qed.

(** *** Requests *)

Lemma hoare_new_request r T0 :
  r.(r_registration) = None →
  hoare (λ s T, I s ∧ since E T0 T) (new_request r)
    (λ id s T, (I s ∧ floating s id r) ∧ since E T0 T).
Proof.
  intros Hreg. unfold new_request. intros w id w' [Hs HT] Hr.
  assert (hoare (λ s T, s = w.(now).(st) ∧ since E T0 T) (new_request r)
            (λ id s T, id = fresh w.(now).(st) ∧ s = set_requests (<[fresh w.(now).(st) := r]>
               w.(now).(st).(requests)) (set_fresh (S (fresh w.(now).(st))) w.(now).(st))
               ∧ since E T0 T)) as Hh.
  { unfold new_request. eapply hoare_bind; [apply hoare_exact_id|]. intros n.
    apply hoare_pre. intros ->. eapply hoare_bind; [apply hoare_exact|]. intros [].
    apply hoare_ret. by intros s T [-> HX]. }
  destruct (Hh w id w') as (-> & -> & HT'); [done|done|].
  split; [by apply Inv_new_request|done].
Qed.

Definition waits (s : frontend) (id : nat) (r : request) : Prop :=
  ∃ n, s.(requests) !! id = Some (with_registration n r) ∧
       s.(requests_guest) !! r.(r_guest_path) = Some id ∧ unserved s r.(r_guest_path).

Lemma waits_register s id r :
  I s → floating s id r → ¬ exported s r.(r_guest_path) REQUEST_INTERFACE →
  unique_name r.(r_owner) → r.(r_owner) ∉ left → request_path r.(r_owner) r.(r_guest_path) →
  waits (registered_state id r s) id r.
Proof.
  intros Hs Hfl Hx Hu Hl Hp. exists s.(fresh). simpl. rewrite !lookup_insert_eq.
  split_and!; [done..|]. by eapply unserved_register.
Qed.

Lemma hoare_register_request id r T0 :
  unique_name r.(r_owner) → r.(r_owner) ∉ gone → r.(r_owner) ∉ left →
  request_path r.(r_owner) r.(r_guest_path) →
  hoare (λ s T, (I s ∧ floating s id r) ∧ since E T0 T) (register_request id r)
    (λ failed s T, (I s ∧ match failed with
                          | Some _ => floating s id r
                          | None => waits s id r
                          end) ∧ since E T0 T).
Proof.
  intros Hu Hg Hl Hp w failed w' [[Hs Hfl] HT] Hr.
  pose (a := w.(now).(st)). fold a in Hs, Hfl.
  enough (hoare (λ s T, s = a ∧ since E T0 T) (register_request id r)
    (λ failed s T, (I s ∧ match failed with
                          | Some _ => floating s id r
                          | None => waits s id r
                          end) ∧ since E T0 T)) as Hh by (by apply (Hh w failed w')).
  clear Hr. unfold register_request.
  eapply hoare_bind with (Q := λ n s T, match n with
      | inl _ => s = a
      | inr n => ¬ exported a r.(r_guest_path) REQUEST_INTERFACE ∧ n = a.(fresh) ∧
          s = set_exports (<[a.(fresh) := Export r.(r_guest_path) request_info LifecycleVtable]>
                a.(exports)) (set_fresh (S a.(fresh)) a)
      end ∧ since E T0 T).
  { by apply hoare_register_object. }
  intros [e|n].
  { apply hoare_ret. intros s T [-> HT']. by split_and!. }
  intros w1 x w2 [(Hne & -> & Hst) HT1] Hr.
  pose proof (not_exported_request _ _ _ _ Hs Hne) as Hfree.
  enough (hoare (λ s T, s = (now w1).(st) ∧ since E T0 T)
    (modify (λ s, set_requests (<[id := with_registration a.(fresh) r]> s.(requests)) s) ≫= λ _,
     insert_request_guest r.(r_guest_path) id ≫= λ _,
     match r.(r_host_path) with Some path => insert_request_host path id | None => mret tt end
       ≫= λ _, mret (@None gerror))
    (λ failed s T, failed = None ∧ s = registered_state id r a ∧ since E T0 T)) as Hh.
  { destruct (Hh w1 x w2) as (-> & -> & HT2); [done|exact Hr|].
    split_and!; [by apply Inv_register|by apply waits_register|done]. }
  rewrite Hst. clear Hr Hst HT1 x w2 w1.
  eapply hoare_bind; [apply hoare_exact|]. intros [].
  eapply hoare_bind with (Q := λ _ s T, s = set_request_tables
      (<[r.(r_guest_path) := id]> a.(requests_guest)) a.(requests_host)
      (set_requests (<[id := with_registration a.(fresh) r]> a.(requests))
        (set_exports (<[a.(fresh) := Export r.(r_guest_path) request_info LifecycleVtable]>
          a.(exports)) (set_fresh (S a.(fresh)) a))) ∧ since E T0 T).
  { unfold insert_request_guest. apply hoare_read. intros s0.
    eapply hoare_bind with (Q := λ _ s T, requests_guest s0 !! r_guest_path r = None ∧ s = _ ∧ since E T0 T).
    { apply hoare_modify. intros s T [[-> HT'] <-]. split_and!; [exact Hfree|reflexivity|done]. }
    intros []. apply hoare_pre. intros ->. by apply hoare_ret. }
  intros []. eapply hoare_bind with (Q := λ _ s T, s = registered_state id r a ∧ since E T0 T).
  { unfold registered_state. destruct (r_host_path r); [|by apply hoare_ret].
    apply hoare_modify. by intros s T [-> HT']. }
  intros []. by apply hoare_ret.
Qed.

Lemma hoare_start {A} (P : frontend → Prop) (m : M A) T0 Q :
  (∀ a, P a → hoare (λ s T, s = a ∧ since E T0 T) m Q) →
  hoare (λ s T, P s ∧ since E T0 T) m Q.
Proof. intros Hm w x w' [HP HT] Hr. by apply (Hm w.(now).(st) HP w x w'). Qed.

Lemma hoare_free_floating id r T0 :
  hoare (λ s T, (I s ∧ floating s id r) ∧ since E T0 T) (request_free id)
    (λ _ s T, I s ∧ since E T0 T).
Proof.
  apply (hoare_start (λ s, I s ∧ floating s id r)). intros a [Hs Hfl].
  unfold request_free. eapply hoare_bind with (Q := λ x s T, x = r ∧ s = a ∧ since E T0 T).
  { apply hoare_the_request. intros s T x [-> HT] Hx. destruct Hfl as (Hid & _). by simplify_eq. }
  intros x. apply hoare_pre. intros ->. destruct Hfl as (Hid & Hreg & Hfl). rewrite Hreg.
  eapply hoare_bind with (Q := λ _ s T, s = a ∧ since E T0 T); [by apply hoare_ret|].
  intros []. apply hoare_modify. intros s T [-> HT]. split; [|done].
  by apply Inv_delete_floating with r.
Qed.

(** Neither the host's table nor a pending call has the request at [p]. *)
Definition removable (s : frontend) (p : text) : Prop :=
  ∀ id r, s.(requests_guest) !! p = Some id → s.(requests) !! id = Some r →
    (∀ h, s.(requests_host) !! h ≠ Some id) ∧
    (∀ m q, s.(pending) !! m = Some q → serves s q.(p_then) id r → r.(r_owner) ∈ left).

Lemma hoare_remove_guest_with (R R' : frontend → Prop) p T0 :
  (∀ s, R s → s.(requests_guest) !! p = None → R' s) →
  (∀ s id n, R s → s.(requests_guest) !! p = Some id → R' (removed_state p id n s)) →
  hoare (λ s T, (I s ∧ removable s p ∧ R s) ∧ since E T0 T) (remove_request_guest p)
    (λ _ s T, (I s ∧ R' s) ∧ since E T0 T).
Proof.
  intros HR1 HR2.
  apply (hoare_start (λ s, I s ∧ removable s p ∧ R s)). intros a (Hs & Hrem & HR).
  unfold remove_request_guest. apply hoare_read. intros s0.
  destruct (requests_guest s0 !! p) as [id|] eqn:Hp.
  2:{ apply hoare_ret. intros s T [[-> HT] <-]. auto. }
  intros w x w' [[Hw HT] Hw0]. rewrite Hw in Hw0. subst s0.
  destruct (inv_request _ _ _ Hs _ _ Hp) as (r & n & Hr & Hpath & Hreg & Hexp & _).
  destruct (Hrem id r Hp Hr) as [Hhost Hserves].
  revert w x w' Hw HT. enough (hoare (λ s T, s = a ∧ since E T0 T)
    (modify (λ s, set_request_tables (delete p s.(requests_guest)) s.(requests_host) s) ≫= λ _,
     request_free id) (λ _ s T, s = removed_state p id n a ∧ since E T0 T)) as Hh.
  { intros w x w' Hw HT Hrun. destruct (Hh w x w') as [-> HT']; [done|done|].
    split_and!; [by apply Inv_remove_guest with r|by apply HR2|done]. }
  eapply hoare_bind; [apply hoare_exact|]. intros [].
  unfold request_free. eapply hoare_bind with (Q := λ x s T, x = r ∧ s = _ ∧ since E T0 T).
  { apply hoare_the_request. intros s T x [-> HT] Hx. simpl in Hx.
    split_and!; [congruence|reflexivity|done]. }
  intros x. apply hoare_pre. intros ->. rewrite Hreg. simpl.
  eapply hoare_bind; [apply hoare_exact|]. intros [].
  apply hoare_modify. by intros s T [-> HT].
Qed.

Lemma hoare_remove_guest p T0 :
  hoare (λ s T, (I s ∧ removable s p) ∧ since E T0 T) (remove_request_guest p)
    (λ _ s T, I s ∧ since E T0 T).
Proof.
  eapply hoare_conseq; [| |apply (hoare_remove_guest_with (λ _, True) (λ _, True)); done].
  - intros s T [[Hs Hr] HT]. done.
  - intros x s T [[Hs _] HT]. done.
Qed.

Lemma hoare_remove_host h T0 (P : frontend → Prop) :
  (∀ s, P s → I s) →
  hoare (λ s T, P s ∧ since E T0 T) (remove_request_host h)
    (λ _ s T, (I s ∧ ∃ s', P s' ∧
       s = set_request_tables s'.(requests_guest) (delete h s'.(requests_host)) s')
       ∧ since E T0 T).
Proof.
  intros HP. apply hoare_modify. intros s T [Hs HT]. split_and!; [|by exists s|done].
  apply Inv_remove_host. auto.
Qed.

(** Taking a request out of both tables. *)
Definition settled_request (s : frontend) (r : request) : Prop :=
  ∃ id, s.(requests_guest) !! r.(r_guest_path) = Some id ∧ s.(requests) !! id = Some r ∧
    (r.(r_host_path) = None → ∀ m q, s.(pending) !! m = Some q →
       serves s q.(p_then) id r → r.(r_owner) ∈ left).

Lemma settled_removable s r :
  I s → settled_request s r → r.(r_host_path) = None → removable s r.(r_guest_path).
Proof.
  intros Hs (id & Hg & Hr & Hserves) Hh id' r' Hg' Hr'. simplify_eq.
  split; [by eapply local_not_host|by apply Hserves].
Qed.

Lemma settled_removable_host s r h :
  I s → settled_request s r → r.(r_host_path) = Some h →
  removable (set_request_tables s.(requests_guest) (delete h s.(requests_host)) s)
    r.(r_guest_path).
Proof.
  intros Hs (id & Hg & Hr & Hserves) Hh id' r' Hg' Hr'. simpl in *. simplify_eq.
  split; [by eapply removed_host|]. intros m q _ (_ & _ & Hn & _). congruence.
Qed.

Lemma hoare_remove_request r T0 :
  hoare (λ s T, (I s ∧ settled_request s r) ∧ since E T0 T) (remove_request r)
    (λ _ s T, I s ∧ since E T0 T).
Proof.
  unfold remove_request. destruct (r_host_path r) as [h|] eqn:Hh.
  - eapply hoare_bind.
    + apply hoare_remove_host with (P := λ s, I s ∧ settled_request s r). by intros s [Hs _].
    + intros []. eapply hoare_conseq; [|intros ? ? ? Hx; exact Hx|apply hoare_remove_guest].
      intros s T [[Hs (s' & [Hs' Hset] & ->)] HT]. split_and!; [done| |done].
      by apply settled_removable_host.
  - eapply hoare_bind with (Q := λ _ s T, (I s ∧ removable s r.(r_guest_path)) ∧ since E T0 T).
    + apply hoare_ret. intros s T [[Hs Hset] HT]. split_and!; [done| |done].
      by apply settled_removable.
    + intros []. apply hoare_remove_guest.
Qed.

(** *** Sessions *)

(** What the tables of requests say does not change with the sessions. *)
Definition same_requests (s s' : frontend) : Prop :=
  s'.(requests) = s.(requests) ∧ s'.(requests_guest) = s.(requests_guest) ∧
  s'.(requests_host) = s.(requests_host) ∧ s'.(pending) = s.(pending).

Lemma hoare_register_session_with (R : frontend → Prop) owner p h T0 :
  (∀ s s', same_requests s s' → R s → R s') →
  hoare (λ s T, (I s ∧ R s) ∧ since E T0 T) (register_session owner p h)
    (λ _ s T, (I s ∧ R s) ∧ since E T0 T).
Proof.
  intros HR. destruct p as [p|]; [|by apply hoare_ret].
  apply hoare_start. intros a [Hs HRa]. unfold register_session.
  pose (x := Session owner p h None). fold x.
  pose (a1 := set_sessions (<[a.(fresh) := x]> a.(sessions)) (set_fresh (S a.(fresh)) a)).
  destruct (Inv_new_session gone left a x Hs eq_refl) as [Hs1 Hfl]. fold a1 in Hs1, Hfl.
  eapply hoare_bind with (Q := λ id s T, id = a.(fresh) ∧ s = a1 ∧ since E T0 T).
  { unfold new_session. eapply hoare_bind; [apply hoare_exact_id|]. intros n.
    apply hoare_pre. intros ->. eapply hoare_bind; [apply hoare_exact|]. intros [].
    apply hoare_ret. by intros s T [-> HX]. }
  intros id. apply hoare_pre. intros ->.
  eapply hoare_bind with (Q := λ r s T, match r with
      | inl _ => s = a1
      | inr n => ¬ exported a1 p SESSION_INTERFACE ∧ n = a1.(fresh) ∧
          s = set_exports (<[a1.(fresh) := Export p session_info LifecycleVtable]> a1.(exports))
                (set_fresh (S a1.(fresh)) a1)
      end ∧ since E T0 T).
  { by apply hoare_register_object. }
  intros [e|n].
  - eapply hoare_bind with (Q := λ _ s T, (I s ∧ R s) ∧ since E T0 T); [|intros []; by apply hoare_ret].
    unfold session_free. eapply hoare_bind with (Q := λ y s T, y = x ∧ s = a1 ∧ since E T0 T).
    { apply hoare_the_session. intros s T y [-> HT] Hy. destruct Hfl as (Hx & _). by simplify_eq. }
    intros y. apply hoare_pre. intros ->. simpl.
    eapply hoare_bind with (Q := λ _ s T, s = a1 ∧ since E T0 T); [by apply hoare_ret|].
    intros []. apply hoare_modify. intros s T [-> HT].
    split_and!; [by apply Inv_delete_session with x|by apply (HR a)|done].
  - intros w r w' [(Hne & -> & Hst) HT1] Hr.
    pose proof (not_exported_session _ _ _ _ Hs1 Hne) as Hfree.
    enough (hoare (λ s T, s = (now w).(st) ∧ since E T0 T)
      (modify (λ s, set_sessions (<[a.(fresh) := session_with a1.(fresh) x]> s.(sessions)) s)
         ≫= λ _, insert_session_guest p a.(fresh) ≫= λ _, insert_session_host h a.(fresh)
         ≫= λ _, mret true)
      (λ r s T, s = session_state a.(fresh) x a1 ∧ since E T0 T)) as Hh.
    { destruct (Hh w r w') as [-> HT2]; [done|exact Hr|].
      split_and!; [by apply Inv_register_session|by apply (HR a)|done]. }
    rewrite Hst. clear Hr Hst HT1 r w w'.
    eapply hoare_bind; [apply hoare_exact|]. intros [].
    unfold insert_session_guest. eapply hoare_bind with (Q := λ _ s T,
      s = set_session_tables (<[p := a.(fresh)]> a1.(sessions_guest)) a1.(sessions_host)
        (set_sessions (<[a.(fresh) := session_with a1.(fresh) x]> a1.(sessions))
          (set_exports (<[a1.(fresh) := Export p session_info LifecycleVtable]> a1.(exports))
            (set_fresh (S a1.(fresh)) a1))) ∧ since E T0 T).
    { apply hoare_read. intros s0.
      eapply hoare_bind with (Q := λ _ s T, sessions_guest s0 !! p = None ∧ s = _ ∧ since E T0 T).
      { apply hoare_modify. intros s T [[-> HT'] <-]. split_and!; [exact Hfree|reflexivity|done]. }
      intros []. apply hoare_pre. intros ->. by apply hoare_ret. }
    intros []. eapply hoare_bind; [apply hoare_exact|]. intros []. apply hoare_ret.
    by intros s T [-> HT].
Qed.

Lemma hoare_register_session owner p h T0 :
  hoare (λ s T, I s ∧ since E T0 T) (register_session owner p h) (λ _ s T, I s ∧ since E T0 T).
Proof.
  eapply hoare_conseq; [| |apply (hoare_register_session_with (λ _, True)); done].
  - intros s T [Hs HT]. done.
  - intros x s T [[Hs _] HT]. done.
Qed.

Definition settled_session (s : frontend) (x : session) : Prop :=
  ∃ id, s.(sessions_guest) !! x.(s_guest_path) = Some id ∧ s.(sessions) !! id = Some x.

Lemma hoare_remove_session x T0 :
  hoare (λ s T, (I s ∧ settled_session s x) ∧ since E T0 T)
    (remove_session_host x.(s_host_path) ≫= λ _, remove_session_guest x.(s_guest_path))
    (λ _ s T, I s ∧ since E T0 T).
Proof.
  apply (hoare_start (λ s, I s ∧ settled_session s x)). intros a [Hs (id & Hg & Hx)].
  destruct (inv_session _ _ _ Hs _ _ Hg) as (x' & n & Hx' & _ & Hreg & _).
  rewrite Hx in Hx'. injection Hx' as <-.
  pose (a1 := set_session_tables a.(sessions_guest) (delete x.(s_host_path) a.(sessions_host)) a).
  eapply hoare_bind; [apply hoare_exact|]. intros []. fold a1.
  unfold remove_session_guest. apply hoare_read. intros s0.
  destruct (sessions_guest s0 !! s_guest_path x) as [id'|] eqn:Hg'.
  2:{ intros w y w' [[Hw _] Hw0]. rewrite Hw in Hw0. subst s0. simpl in Hg'. congruence. }
  intros w y w' [[Hw HT] Hw0]. rewrite Hw in Hw0. subst s0. simpl in Hg'.
  rewrite Hg in Hg'. injection Hg' as <-.
  revert w y w' Hw HT. enough (hoare (λ s T, s = a1 ∧ since E T0 T)
    (modify (λ s, set_session_tables (delete (s_guest_path x) s.(sessions_guest))
       s.(sessions_host) s) ≫= λ _, session_free id)
    (λ _ s T, s = session_removed (s_guest_path x) id n a1 ∧ since E T0 T)) as Hh.
  { intros w y w' Hw HT Hrun. destruct (Hh w y w') as [-> HT']; [done|done|].
    split; [|done]. apply Inv_remove_session with x; try done.
    - by apply Inv_remove_session_host.
    - by apply (removed_session_host gone left). }
  eapply hoare_bind; [apply hoare_exact|]. intros [].
  unfold session_free. eapply hoare_bind with (Q := λ y s T, y = x ∧ s = _ ∧ since E T0 T).
  { apply hoare_the_session. intros s T y [-> HT] Hy. simpl in Hy.
    split_and!; [congruence|reflexivity|done]. }
  intros y. apply hoare_pre. intros ->. rewrite Hreg. simpl.
  eapply hoare_bind; [apply hoare_exact|]. intros [].
  apply hoare_modify. by intros s T [-> HT].
Qed.
End operations.

(** ** Handlers of requests *)

Section handlers.
Context `{Guest, Desktop} (gone : gset text) (a : frontend).
Implicit Types s : frontend.
Abbreviation I := (Inv gone gone).
Abbreviation E := (event_ok a).
Abbreviation keeps m := (steps I (event_ok a) m).

Lemma hoare_asks {A} (P : frontend → Prop) T0 (m : M A) :
  steps P plain m →
  hoare (λ s T, P s ∧ since E T0 T) m (λ _ s T, P s ∧ since E T0 T).
Proof. intros Hm. by apply steps_plain. Qed.

Lemma keeps_leaves {A} (m : M A) : steps I plain m → keeps m.
Proof. apply steps_plain. Qed.

Lemma hoare_registered {A} r (cont : nat → option gerror → M A) T0 Q :
  r.(r_registration) = None → unique_name r.(r_owner) → r.(r_owner) ∉ gone →
  request_path r.(r_owner) r.(r_guest_path) →
  (∀ id e, hoare (λ s T, (I s ∧ floating s id r) ∧ since E T0 T) (cont id (Some e)) Q) →
  (∀ id, hoare (λ s T, (I s ∧ waits s id r) ∧ since E T0 T) (cont id None) Q) →
  hoare (λ s T, I s ∧ since E T0 T)
    (id ← new_request r; failed ← register_request id r; cont id failed) Q.
Proof.
  intros Hreg Hu Hg Hp Hfail Hok. eapply hoare_bind; [by apply hoare_new_request|].
  intros id. eapply hoare_bind; [by apply hoare_register_request|].
  intros [e|]; [apply Hfail|apply Hok].
Qed.

Lemma Inv_wait s id r c k :
  I s → waits s id r → r.(r_host_path) = None →
  k = ChooserDone id ∨ k = ScreenshotDone r.(r_guest_path)
    ∨ k = BrokerRequestDone r.(r_guest_path) ∨ k = TransformedRequestDone r.(r_guest_path) →
  I (add_pending c k s).
Proof.
  intros Hs (n & Hr & Hg & Hun) Hh Hk.
  assert (Hsv : serves s k id (with_registration n r)) by (by split_and!).
  apply Inv_add_pending; [done|..].
  - destruct Hk as [->|[->|[->| ->]]]; simpl; right; eauto.
  - intros m q i x i' x' Hq Hx Hx'. enough (r_guest_path x' = r_guest_path r) as ->.
    { by eapply Hun. }
    destruct Hx' as (Hx' & _ & _ & Hk').
    destruct Hk as [->|[->|[->| ->]]], Hk' as [?|[?|[?|?]]]; by simplify_eq.
Qed.

Lemma hoare_call_local id r c k T0 :
  r.(r_host_path) = None →
  k = ChooserDone id ∨ k = ScreenshotDone r.(r_guest_path)
    ∨ k = BrokerRequestDone r.(r_guest_path) ∨ k = TransformedRequestDone r.(r_guest_path) →
  call_ok c →
  hoare (λ s T, (I s ∧ waits s id r) ∧ since E T0 T) (call_async c k)
    (λ _ s T, I s ∧ since E T0 T).
Proof.
  intros Hh Hk Hc. apply hoare_call_async with (P := λ s, I s ∧ waits s id r); [|by apply plain_ok].
  intros s [Hs Hw]. by eapply Inv_wait.
Qed.

Lemma keeps_return i values fds : keeps (perform (Return i values fds)).
Proof. by apply steps_plain, steps_perform. Qed.

Lemma keeps_error i e : keeps (perform (ReturnError i e)).
Proof. by apply steps_plain, steps_perform. Qed.

Lemma local_path sender token : request_path sender (public_object_path (str "request") sender token).
Proof. by exists token. Qed.

Lemma hoare_fail id r (i : nat) e T0 :
  hoare (λ s T, (I s ∧ floating s id r) ∧ since E T0 T)
    (perform (ReturnError i e) ≫= λ _, request_free id) (λ _ s T, I s ∧ since E T0 T).
Proof.
  eapply hoare_bind; [by apply hoare_asks, steps_perform|].
  intros []. apply (hoare_free_floating gone gone).
Qed.

Lemma keeps_file_chooser sender m ps i :
  unique_name sender → sender ∉ gone → keeps (file_chooser_call sender m ps i).
Proof.
  intros Hu Hg. unfold file_chooser_call. apply steps_bind; [apply steps_get|]. intros s0.
  destruct (file_chooser_backend s0) as [backend|]; [|apply keeps_error].
  destruct ps as [|[parent| | | | | | | | | | | | | |] [|[title| | | | | | | | | | | | | |]
    [|[| | | | | | | | |options| | | | |] [|]]]]; try apply steps_undefined.
  case_match; [apply keeps_error|].
  apply steps_bind; [by apply steps_plain, asks_token_or_new|]. intros token.
  apply steps_bind; [by apply steps_plain, asks_flatpak_app_id|]. intros flatpak T0.
  apply hoare_registered; [done|done|done|apply local_path|..]; intros id.
  - intros e. apply hoare_fail.
  - eapply hoare_bind; [by apply hoare_call_local; [|left|]|].
    intros []. apply keeps_return.
Qed.

Lemma keeps_screenshot sender ps i :
  unique_name sender → sender ∉ gone → keeps (screenshot_call sender ps i).
Proof.
  intros Hu Hg. unfold screenshot_call.
  destruct broker_name as [broker|] eqn:Hb; [|apply keeps_error].
  destruct ps as [|[parent| | | | | | | | | | | | | |]
    [|[| | | | | | | | |options| | | | |] [|]]]; try apply steps_undefined.
  apply steps_bind; [by apply steps_plain, asks_token_or_new|]. intros token.
  apply steps_bind; [by apply steps_plain, asks_flatpak_app_id|]. intros flatpak T0.
  apply hoare_registered; [done|done|done|apply local_path|..]; intros id.
  - intros e. apply hoare_fail.
  - eapply hoare_bind; [by apply hoare_call_local; [|auto|apply broker_call_ok]|].
    intros []. apply keeps_return.
Qed.

Lemma hoare_drop_waiting id r T0 :
  r.(r_host_path) = None →
  hoare (λ s T, (I s ∧ waits s id r) ∧ since E T0 T) (remove_request_guest r.(r_guest_path))
    (λ _ s T, I s ∧ since E T0 T).
Proof.
  intros Hh. eapply hoare_conseq; [|intros ? ? ? Hx; exact Hx|apply (hoare_remove_guest gone gone)].
  intros s T [[Hs (n & Hr & Hg & Hun)] HT]. split_and!; [done| |done].
  intros id' r' Hg' Hr'. rewrite Hg in Hg'. injection Hg' as <-. rewrite Hr in Hr'.
  injection Hr' as <-. split; [by eapply local_not_host|].
  intros m q Hq Hsv. by destruct (Hun _ _ _ _ Hq Hsv).
Qed.

Lemma keeps_open_file_request broker sender m options fd path i :
  broker_name = Some broker → unique_name sender → sender ∉ gone →
  keeps (open_file_request broker sender m options fd path i).
Proof.
  intros Hb Hu Hg. unfold open_file_request.
  apply steps_bind; [by apply steps_plain, asks_token_or_new|]. intros token T0.
  apply hoare_registered; [done|done|done|apply local_path|..]; intros id.
  - intros e. eapply hoare_bind; [apply (hoare_free_floating gone gone)|].
    intros []. apply steps_ret.
  - eapply hoare_bind; [by apply hoare_asks, steps_perform|].
    intros [e|].
    + eapply hoare_bind; [by eapply hoare_drop_waiting|]. intros []. apply steps_ret.
    + eapply hoare_bind; [by apply hoare_call_local; [|auto|apply broker_call_ok]|].
      intros []. apply steps_bind; [apply keeps_return|]. intros []. apply steps_ret.
Qed.

Lemma keeps_open_file sender m ps i :
  unique_name sender → sender ∉ gone → keeps (open_file_call sender m ps i).
Proof.
  intros Hu Hg. unfold open_file_call.
  destruct broker_name as [broker|] eqn:Hb; [|apply keeps_error].
  walk; auto using keeps_open_file_request.
Qed.

Lemma keeps_transformed sender interface m ps i :
  unique_name sender → sender ∉ gone → keeps (transformed_request_call sender interface m ps i).
Proof.
  intros Hu Hg. unfold transformed_request_call.
  destruct (last ps) as [child|]; [|apply steps_undefined].
  destruct broker_name as [broker|] eqn:Hb; [|apply keeps_error].
  apply steps_bind; [by apply steps_plain, asks_token_or_new|]. intros token T0.
  apply hoare_registered; [done|done|done|apply local_path|..]; intros id.
  - intros e. eapply hoare_bind; [apply (hoare_free_floating gone gone)|].
    intros []. apply keeps_error.
  - eapply hoare_bind; [apply hoare_asks; walk|]. intros flatpak.
    eapply hoare_bind; [by apply hoare_call_local; [|auto|apply broker_call_ok]|].
    intros []. apply keeps_return.
Qed.

(** *** Replies *)

(** The completion [k] is no longer pending: only it waited for its request. *)
Definition finishing (k : completion) : Prop :=
  I a ∧ completion_ok gone a k ∧
  ∀ id r m q, serves a k id r → a.(pending) !! m = Some q → ¬ serves a q.(p_then) id r.

Lemma finishing_removable k id r :
  finishing k → serves a k id r → removable gone a r.(r_guest_path).
Proof.
  intros (Ha & _ & Hk) (Hr & Hg & Hh & Hkind) id' r' Hg' Hr'.
  rewrite Hg in Hg'. injection Hg' as <-. rewrite Hr in Hr'. injection Hr' as <-.
  split; [by eapply local_not_host|]. intros m q Hq Hsv. by destruct (Hk id r m q).
Qed.

Lemma finishing_found k p id r :
  finishing k → k = ScreenshotDone p ∨ k = BrokerRequestDone p ∨ k = TransformedRequestDone p →
  a.(requests_guest) !! p = Some id → a.(requests) !! id = Some r → serves a k id r.
Proof.
  intros (Ha & Hok & _) Hk Hg Hr.
  assert (Hcase : left_behind gone p ∨ ∃ id r, serves a k id r).
  { destruct Hk as [->|[->| ->]]; exact Hok. }
  destruct Hcase as [(o & Ho & Huo & Hpo)|(id' & r' & Hsv)].
  - destruct (inv_request _ _ _ Ha _ _ Hg) as (x & n & Hx & _ & _ & _ & Hu & Hgone & Hp).
    destruct Hgone. by rewrite (request_path_owner _ _ _ Hu Huo Hp Hpo).
  - pose proof Hsv as (Hr' & Hg' & _ & Hkind).
    assert (r_guest_path r' = p) as Hp.
    { destruct Hk as [->|[->| ->]]; by destruct Hkind as [?|[?|[?|?]]]; simplify_eq. }
    rewrite Hp, Hg in Hg'. injection Hg' as <-. rewrite Hr in Hr'. by injection Hr' as <-.
Qed.

Lemma hoare_emit_response k id r response results T0 :
  serves a k id r → r.(r_cancelled) = false →
  hoare (λ s T, s = a ∧ since E T0 T) (emit_response r response results)
    (λ _ s T, s = a ∧ since E T0 T).
Proof.
  intros (Hr & Hg & _) Hc. apply hoare_perform. intros [] s T [-> HT]. split; [done|].
  apply since_cons; [done|]. right. simpl. by eapply Owned_request.
Qed.

Lemma hoare_remove_served k id r T0 :
  finishing k → serves a k id r →
  hoare (λ s T, s = a ∧ since E T0 T) (remove_request_guest r.(r_guest_path))
    (λ _ s T, I s ∧ since E T0 T).
Proof.
  intros Hk Hsv.
  eapply hoare_conseq; [|intros ? ? ? Hx; exact Hx|apply (hoare_remove_guest gone gone)].
  intros s T [-> HT]. split_and!; [apply Hk|by eapply finishing_removable|done].
Qed.

(** The common end of the replies: a signal, unless the client has closed the
    request, and its removal. *)
Lemma hoare_done k id r (m : M unit) T0 :
  finishing k → serves a k id r →
  (r.(r_cancelled) = false → hoare (λ s T, s = a ∧ since E T0 T) m (λ _ s T, I s ∧ since E T0 T)) →
  hoare (λ s T, s = a ∧ since E T0 T)
    (if r.(r_cancelled) then remove_request_guest r.(r_guest_path) else m)
    (λ _ s T, I s ∧ since E T0 T).
Proof.
  intros Hk Hsv Hm. destruct (r_cancelled r) eqn:Hc; [|by apply Hm].
  by eapply hoare_remove_served.
Qed.

Lemma hoare_chooser_done id answered T0 :
  finishing (ChooserDone id) →
  hoare (λ s T, s = a ∧ since E T0 T) (chooser_done id answered) (λ _ s T, I s ∧ since E T0 T).
Proof.
  intros Hk. unfold chooser_done. destruct (response_of answered) as [response results].
  eapply hoare_bind with (Q := λ r s T, serves a (ChooserDone id) id r ∧ s = a ∧ since E T0 T).
  { apply hoare_the_request. intros s T r [-> HT] Hr. split; [|done].
    destruct Hk as (_ & [[_ Hn]|(r' & Hsv)] & _); [congruence|].
    pose proof Hsv as (Hr' & _). rewrite Hr in Hr'. by injection Hr' as <-. }
  intros r. apply hoare_pre. intros Hsv. eapply hoare_done; [done..|]. intros Hc.
  eapply hoare_bind; [by apply hoare_asks; case_match; [apply asks_flatpak_uris|apply steps_ret]|].
  intros results'. eapply hoare_bind; [by eapply hoare_emit_response|].
  intros []. by eapply hoare_remove_served.
Qed.

(** A reply that looks its request up by its path. *)
Lemma hoare_found k p (m : nat → request → M unit) T0 :
  finishing k → k = ScreenshotDone p ∨ k = BrokerRequestDone p ∨ k = TransformedRequestDone p →
  (∀ id r, serves a k id r → r.(r_cancelled) = false →
    hoare (λ s T, s = a ∧ since E T0 T) (m id r) (λ _ s T, I s ∧ since E T0 T)) →
  hoare (λ s T, s = a ∧ since E T0 T)
    (found ← lookup_request requests_guest p;
     match found with
     | None => mret tt
     | Some (id, r) =>
         if r.(r_cancelled) then remove_request_guest r.(r_guest_path) else m id r
     end) (λ _ s T, I s ∧ since E T0 T).
Proof.
  intros Hk Hkind Hm.
  eapply hoare_bind with (Q := λ found s T,
    match found with Some (id, r) => serves a k id r | None => True end ∧ s = a ∧ since E T0 T).
  { apply hoare_lookup_request.
    - intros s T [-> HT] _. done.
    - intros s T id r [-> HT] Hg Hr. split; [|done]. by eapply finishing_found. }
  intros [[id r]|]; apply hoare_pre; intros Hsv.
  - eapply hoare_done; [done..|]. intros Hc. by apply Hm.
  - apply hoare_ret. intros s T [-> HT]. split; [apply Hk|done].
Qed.

Lemma hoare_broker_done p answered T0 :
  finishing (BrokerRequestDone p) →
  hoare (λ s T, s = a ∧ since E T0 T) (broker_request_done p answered)
    (λ _ s T, I s ∧ since E T0 T).
Proof.
  intros Hk. unfold broker_request_done. eapply hoare_found; [done|auto|]. intros id r Hsv Hc.
  eapply hoare_bind; [by eapply hoare_emit_response|].
  intros []. by eapply hoare_remove_served.
Qed.

Lemma hoare_transformed_done p answered T0 :
  finishing (TransformedRequestDone p) →
  hoare (λ s T, s = a ∧ since E T0 T) (transformed_request_done p answered)
    (λ _ s T, I s ∧ since E T0 T).
Proof.
  intros Hk. unfold transformed_request_done. eapply hoare_found; [done|auto|]. intros id r Hsv Hc.
  destruct (response_of answered) as [response results].
  eapply hoare_bind; [by eapply hoare_emit_response|].
  intros []. by eapply hoare_remove_served.
Qed.

Lemma hoare_screenshot_done fuel p answered T0 :
  finishing (ScreenshotDone p) →
  hoare (λ s T, s = a ∧ since E T0 T) (screenshot_done fuel p answered)
    (λ _ s T, I s ∧ since E T0 T).
Proof.
  intros Hk. unfold screenshot_done. eapply hoare_found; [done|auto|]. intros id r Hsv Hc.
  destruct (screenshot_of answered) as [[response handle] results].
  eapply hoare_bind; [apply hoare_asks; walk|]. intros descriptor.
  eapply hoare_bind; [apply hoare_asks; walk|]. intros uri.
  eapply hoare_bind with (Q := λ _ s T, s = a ∧ since E T0 T).
  - repeat case_match; try by eapply hoare_emit_response.
    eapply hoare_bind; [apply hoare_asks, asks_screenshot_results|]. intros ?.
    by eapply hoare_emit_response.
  - intros []. eapply hoare_bind; [by eapply hoare_remove_served|]. intros [].
    apply hoare_asks, asks_close_if.
Qed.
End handlers.
