(* ===== verification/FrontendWhole.v ===== *)
(** * The guest's portal frontend: runs

    The handlers that forward calls and signals, the clients that vanish, and
    with them [dispatch]: the invariant holds in every reachable state, and what
    the frontend puts on the buses is confined. *)

From S2P Require Import Prelude Glib.
From S2P Require Export FrontendSafe.

(** ** What a program returns *)

Section yields.
Context `{Guest, Desktop}.

Definition yields {A} (φ : A → Prop) (m : M A) : Prop :=
  ∀ w x w', m w = Returned x w' → φ x.

Lemma yields_bind {A B} φ ψ (m : M A) (f : A → M B) :
  yields φ m → (∀ x, φ x → yields ψ (f x)) → yields ψ (m ≫= f).
Proof. intros Hm Hf w y w' (x & w1 & E1 & E2)%M_bind_returned. by eapply Hf; [eapply Hm|]. Qed.

Lemma yields_any {A} (m : M A) : yields (λ _, True) m.
Proof. done. Qed.

Lemma yields_ret {A} (φ : A → Prop) x : φ x → yields φ (mret x).
Proof. by intros Hx w y w' [-> _]%M_ret_returned. Qed.

Lemma yields_undefined {A} (φ : A → Prop) : yields φ (undefined : M A).
Proof. done. Qed.

Lemma hoare_yields {A} P (m : M A) Q φ :
  hoare P m Q → yields φ m → hoare P m (λ x s T, φ x ∧ Q x s T).
Proof. intros Hm Hy w x w' HP Hr. split; [by eapply Hy|by eapply Hm]. Qed.

(** The call as its parameters are prepared. *)
Definition call_good (owner interface : text) (c : forward_call) : Prop :=
  c.(f_owner) = owner ∧ c.(f_interface_name) = interface ∧
  ∀ p, c.(f_guest_request_path) = Some p → request_path owner p.

Ltac yield :=
  repeat lazymatch goal with
  | |- yields _ (mret _) => apply yields_ret
  | |- yields _ undefined => apply yields_undefined
  | |- yields _ (mbind _ _) => eapply yields_bind; [apply yields_any|intros ? _]
  | |- yields _ (match ?x with _ => _ end) => destruct x
  | |- yields _ (if ?x then _ else _) => destruct x
  end.

Lemma yields_rewrite_options owner interface call options :
  call_good owner interface call →
  yields (λ r, call_good owner interface r.1) (rewrite_options call options).
Proof.
  intros (Ho & Hi & Hp). unfold rewrite_options. yield.
  all: simpl; repeat case_match; split_and!; simpl; try done.
  all: try (intros p [= <-]; rewrite Ho; by eexists).
Qed.

Lemma yields_prepare_argument owner interface call name child :
  call_good owner interface call →
  yields (λ r, call_good owner interface r.1) (prepare_argument call name child).
Proof.
  intros Hc. unfold prepare_argument. eapply yields_bind; [apply yields_any|]. intros s _.
  eapply yields_bind with (φ := λ r, call_good owner interface r.1).
  - destruct (_ && text_eqb name _); [by yield|]. destruct (_ && _); [by yield|].
    destruct (text_eqb name _); [destruct child|];
      try (eapply yields_bind; [apply yields_any|]; intros ? _; by apply yields_ret).
    eapply yields_bind; [by apply yields_rewrite_options|]. intros r Hr. by apply yields_ret.
  - intros [call' mapped] Hc'. simpl in Hc'. destruct (_ && _); yield; done.
Qed.

Lemma yields_prepare owner interface call arguments ps :
  call_good owner interface call →
  yields (λ r, call_good owner interface r.1) (prepare_parameters call arguments ps).
Proof.
  revert call ps. induction arguments as [|x l IH]; intros call [|child ps] Hc; simpl;
    try by apply yields_ret.
  { done. }
  destruct (arg_name x); [|done].
  eapply yields_bind; [by apply yields_prepare_argument|]. intros r Hr.
  eapply yields_bind; [by apply IH|]. intros r' Hr'. by apply yields_ret.
Qed.

(** *** Preparing only asks *)

Variable R : frontend → Prop.
Abbreviation asks := (steps R plain).

Lemma asks_translate v to_host : asks (translate_object_paths v to_host).
Proof. unfold translate_object_paths. walk. Qed.

Lemma asks_rewrite_options call options : asks (rewrite_options call options).
Proof. unfold rewrite_options. walk. Qed.

Lemma asks_prepare_argument call name child : asks (prepare_argument call name child).
Proof. unfold prepare_argument. walk; auto using asks_translate, asks_rewrite_options. Qed.

Lemma asks_prepare call arguments ps : asks (prepare_parameters call arguments ps).
Proof.
  revert call ps. induction arguments as [|x l IH]; intros call [|child ps]; simpl; walk.
  apply asks_prepare_argument.
Qed.

Lemma asks_mapped_parameters ps : asks (mapped_parameters ps).
Proof. unfold mapped_parameters. walk. apply asks_translate. Qed.
End yields.

(** ** Forwarded calls and signals *)

Section forwarding.
Context `{Guest, Desktop} (gone : gset text) (a : frontend).
Implicit Types s : frontend.
Abbreviation I := (Inv gone gone).
Abbreviation E := (event_ok a).
Abbreviation keeps m := (steps I (event_ok a) m).

Lemma keeps_forward_portal sender interface m method ps i :
  unique_name sender → interface_allowed interface = true →
  keeps (forward_portal_call sender interface m method ps i).
Proof.
  intros Hu Hi T0. unfold forward_portal_call.
  eapply hoare_bind.
  { eapply hoare_yields; [by apply hoare_asks, asks_prepare|].
    by apply yields_prepare with (owner := sender) (interface := interface). }
  intros [call mapped]. simpl. apply hoare_pre. intros (Ho & _ & Hp).
  apply hoare_call_async; [|by left; intros _; constructor].
  intros s Hs. apply Inv_add_pending; [done|by rewrite <- Ho in *|].
  by intros n q id r id' r' _ _ (_ & _ & _ & [?|[?|[?|?]]]).
Qed.

Lemma keeps_register_session owner p h : keeps (register_session owner p h).
Proof. intros T0. apply hoare_register_session. Qed.

Lemma keeps_forward_request call values :
  unique_name call.(f_owner) → call.(f_owner) ∉ gone →
  (∀ p, call.(f_guest_request_path) = Some p → request_path call.(f_owner) p) →
  keeps (forward_request call values).
Proof.
  intros Hu Hg Hp. unfold forward_request.
  destruct values as [|[|host_path| | | | | | | | | | | | |] [|]]; try apply steps_undefined.
  destruct (f_guest_request_path call) as [path|] eqn:Epath.
  2:{ apply steps_bind; [apply steps_plain, asks_close_host; auto|]. intros []. apply steps_ret. }
  intros T0. apply hoare_registered; [done|done|done|by apply Hp|..]; intros id.
  - intros e. eapply hoare_bind; [by apply hoare_asks, asks_close_host; auto|]. intros [].
    eapply hoare_bind; [apply (hoare_free_floating gone gone)|]. intros [].
    apply steps_bind; [apply keeps_error|]. intros []. apply steps_ret.
  - apply hoare_ret. by intros s T [[Hs _] HT].
Qed.

Lemma keeps_forward_session call values : keeps (forward_session call values).
Proof.
  unfold forward_session. walk;
    first [apply keeps_register_session | apply steps_plain, asks_close_host; auto].
Qed.

Lemma keeps_forward_results call values : keeps (forward_results call values).
Proof. unfold forward_results. walk. apply keeps_register_session. Qed.

Lemma hoare_lookup_settled p T0 :
  hoare (λ s T, I s ∧ since E T0 T) (lookup_request requests_guest p)
    (λ found s T, match found with
                  | Some (id, r) => r.(r_host_path) ≠ None → settled_request gone s r
                  | None => True
                  end ∧ I s ∧ since E T0 T).
Proof.
  apply hoare_lookup_request.
  - by intros s T [Hs HT] _.
  - intros s T id r [Hs HT] Hg Hr. split; [|done]. intros Hh. exists id.
    destruct (inv_request _ _ _ Hs _ _ Hg) as (x & n & Hx & Hp & _).
    rewrite Hr in Hx. injection Hx as <-. split_and!; [by rewrite Hp|done|done].
Qed.

Lemma keeps_forward_finished call values : keeps (forward_finished call values).
Proof.
  unfold forward_finished. repeat (case_match; try apply steps_ret). intros T0.
  eapply hoare_bind; [apply hoare_lookup_settled|]. intros [[id r]|].
  - destruct (r_host_path r) as [h|] eqn:Hh; [|apply hoare_undefined].
    eapply hoare_conseq; [|intros ? ? ? Hx; exact Hx|].
    2:{ pose proof (hoare_remove_request gone gone (event_ok a) r T0) as Hm.
        unfold remove_request in Hm. rewrite Hh in Hm. exact Hm. }
    intros s T (Hset & Hs & HT). split_and!; [done| |done]. by apply Hset.
  - apply hoare_ret. by intros s T (_ & Hs & HT).
Qed.

Lemma keeps_forward_done call answered :
  unique_name call.(f_owner) → call.(f_owner) ∉ gone →
  (∀ p, call.(f_guest_request_path) = Some p → request_path call.(f_owner) p) →
  keeps (forward_done call answered).
Proof.
  intros Hu Hg Hp. unfold forward_done. walk;
    auto using keeps_forward_request, keeps_forward_session, keeps_forward_results,
      keeps_forward_finished.
Qed.

(** *** Closing *)

Lemma keeps_lifecycle sender path interface m i :
  keeps (lifecycle_call sender path interface m i).
Proof.
  unfold lifecycle_call. destruct (negb _); [apply keeps_error|].
  destruct (text_eqb interface _).
  - intros T0. eapply hoare_bind with (Q := λ found s T,
      (I s ∧ match found with Some (id, r) => s.(requests) !! id = Some r | None => True end)
      ∧ since E T0 T).
    { apply hoare_lookup_request; [by intros s T [Hs HT] _|].
      by intros s T id r [Hs HT] _ Hr. }
    intros [[id r]|].
    2:{ eapply hoare_conseq; [|intros ? ? ? Hx; exact Hx|apply keeps_error].
        by intros s T [[Hs _] HT]. }
    destruct (negb (text_eqb _ _)).
    { eapply hoare_conseq; [|intros ? ? ? Hx; exact Hx|apply keeps_error].
      by intros s T [[Hs _] HT]. }
    eapply hoare_bind with (Q := λ _ s T, I s ∧ since E T0 T).
    { apply hoare_modify. intros s T [[Hs Hr] HT]. split; [|done]. by apply Inv_cancel. }
    intros []. eapply hoare_bind with (Q := λ _ s T, I s ∧ since E T0 T).
    + apply hoare_asks. walk; try (apply asks_close_host; auto); intros ?; discriminate.
    + intros []. apply keeps_return.
  - walk. apply steps_plain, asks_close_host. auto.
Qed.
End forwarding.

(** * The guest's portal frontend: every input keeps the invariant

    The calls of the portal, the host's signals, the names that vanish and the
    replies, put together for [dispatch]: an input that a message bus can give
    ([bus_input]) keeps the invariant, when no forwarded call is answered after
    its client has gone ([timely]).  What it puts on the buses is [event_ok]. *)

(** ** Calls of the guest *)

Section calls.
Context `{Guest, Desktop} (gone : gset text) (a : frontend).
Implicit Types s : frontend.
Abbreviation I := (Inv gone gone).
Abbreviation E := (event_ok a).
Abbreviation keeps m := (steps I (event_ok a) m).

Lemma keeps_read {A} (f : frontend → M A) : (∀ s, I s → keeps (f s)) → keeps (get ≫= f).
Proof.
  intros Hf. apply steps_read. intros s0 Hs T0.
  eapply hoare_conseq; [|intros ? ? ? Hx; exact Hx|by apply Hf]. by intros s T [? _].
Qed.

Lemma keeps_settled {A} (m : M A) : (∀ R, robust R → steps R plain m) → keeps m.
Proof. intros Hm. apply steps_plain, Hm, Inv_robust. Qed.

Lemma keeps_pids broker process thread high priority i :
  broker_name = Some broker →
  keeps (realtime_pids broker process thread high priority i).
Proof.
  intros Hb. apply keeps_settled. intros R HR. unfold realtime_pids, return_not_available. walk.
  apply leaves_call_async; [done..|]. by apply broker_call_ok.
Qed.

Lemma keeps_realtime m ps i : keeps (realtime_call m ps i).
Proof.
  unfold realtime_call. destruct broker_name as [broker|] eqn:Hb; [|apply keeps_error].
  walk; try apply keeps_error; by apply keeps_pids.
Qed.

Lemma keeps_dynamic m ps i : keeps (dynamic_call m ps i).
Proof.
  unfold dynamic_call. destruct broker_name as [broker|] eqn:Hb; [|apply keeps_error].
  apply keeps_settled. intros R HR. apply leaves_call_async; [done..|]. by apply broker_call_ok.
Qed.

Lemma keeps_portal_method sender interface m ps i :
  unique_name sender → sender ∉ gone → interface_allowed interface = true →
  keeps (portal_method_call sender interface m ps i).
Proof.
  intros Hu Hg Hi. unfold portal_method_call. apply steps_bind; [apply steps_get|]. intros s.
  destruct (_ ≫= _) as [method|]; [|apply keeps_error].
  repeat (match goal with |- keeps (if ?b then _ else _) => destruct b end);
    auto using keeps_file_chooser, keeps_screenshot, keeps_open_file, keeps_transformed,
      keeps_dynamic, keeps_realtime, keeps_forward_portal.
  by apply steps_plain, asks_game_mode.
Qed.

Lemma find_export_some s path interface x :
  find_export s path interface = Some x →
  (∃ n, s.(exports) !! n = Some x) ∧ x.(e_path) = path ∧ x.(e_info).(i_name) = interface.
Proof.
  unfold find_export. intros ([j y] & Hy & ->)%fmap_Some.
  apply list_find_Some in Hy as (Hj & Hx & _). split; [|exact Hx].
  apply list_elem_of_lookup_2, list_elem_of_fmap in Hj as ([n z] & Hz & Hin).
  exists n. simpl in Hz. rewrite Hz. by apply elem_of_map_to_list.
Qed.

Lemma keeps_call_method sender path interface m ps i x :
  unique_name sender → sender ∉ gone → export_ok x → x.(e_info).(i_name) = interface →
  keeps (call_method x.(e_vtable) sender path interface m ps i).
Proof.
  unfold export_ok. intros Hu Hg Hx <-. destruct (e_vtable x); simpl.
  - apply keeps_lifecycle.
  - by apply keeps_portal_method.
  - apply keeps_settled. intros R HR. by apply leaves_simple_bridge.
  - apply keeps_settled. intros R HR. by apply leaves_file_manager.
  - apply keeps_settled. intros R HR. by apply leaves_status_watcher.
  - apply steps_plain, asks_accessibility_call.
Qed.

Lemma keeps_guest_method sender path interface m ps :
  unique_name sender → sender ∉ gone → keeps (guest_method sender path interface m ps).
Proof.
  intros Hu Hg. unfold guest_method.
  apply steps_bind; [apply steps_new_id, Inv_robust|]. intros i.
  apply keeps_read. intros s Hs.
  destruct (find_export s path interface) as [x|] eqn:Hx; [|apply keeps_error].
  apply find_export_some in Hx as ([n Hn] & Hp & Hi).
  destruct (find_method _ _); [|apply keeps_error].
  destruct (has_type _ _); [|apply keeps_error].
  apply keeps_call_method; try done. by eapply inv_exports.
Qed.

Lemma keeps_answer_property i v : keeps (answer_property i v).
Proof. unfold answer_property. walk. Qed.

Lemma keeps_guest_property path interface property : keeps (guest_property path interface property).
Proof.
  unfold guest_property. apply steps_bind; [apply steps_new_id, Inv_robust|]. intros i.
  apply keeps_read. intros s Hs. apply steps_bind; [|intros v; apply keeps_answer_property].
  destruct (find_export s path interface) as [x|] eqn:Hx; [|apply steps_ret].
  apply find_export_some in Hx as ([n Hn] & Hp & Hi).
  case_bool_decide; [|apply steps_ret]. destruct (e_vtable x) eqn:Hv; try apply steps_ret.
  - apply steps_plain, asks_portal_property. pose proof (inv_exports _ _ _ Hs _ _ Hn) as Hok.
    unfold export_ok in Hok. rewrite Hv in Hok. by rewrite <- Hi.
  - apply steps_plain. unfold status_watcher_property. walk.
  - apply steps_plain, asks_accessibility_get.
Qed.

Lemma keeps_host_method path interface m ps : keeps (host_method path interface m ps).
Proof.
  apply keeps_settled. intros R HR. unfold host_method.
  apply steps_bind; [by apply steps_new_id|]. intros i. walk. by apply leaves_mirror_method.
Qed.

Lemma keeps_host_property path interface property v :
  keeps (host_property path interface property v).
Proof.
  apply keeps_settled. intros R HR. unfold host_property, answer_property.
  apply steps_bind; [by apply steps_new_id|]. intros i.
  walk; [by apply leaves_mirror_set|by apply leaves_mirror_get].
Qed.
End calls.

(** ** Signals of the host *)

Section signals.
Context `{Guest, Desktop} (gone : gset text) (a : frontend).
Hypothesis Ha : Inv gone gone a.
Implicit Types s : frontend.
Abbreviation I := (Inv gone gone).
Abbreviation E := (event_ok a).

(** The state has not changed yet. *)
Abbreviation from T0 := (λ s T, s = a ∧ since (event_ok a) T0 T).
Abbreviation safe T0 := (λ (_ : unit) s T, I s ∧ since (event_ok a) T0 T).

Lemma hoare_from {A} (m : M A) T0 : steps (λ s, s = a) plain m → hoare (from T0) m (λ _, from T0).
Proof. intros Hm. by apply (steps_plain (λ s, s = a)). Qed.

Lemma from_safe T0 : hoare (from T0) (mret tt) (safe T0).
Proof. apply hoare_ret. intros s T [-> HT]. by split. Qed.

Definition owned_by_host (r : request) (id : nat) : Prop :=
  a.(requests_guest) !! r.(r_guest_path) = Some id ∧ a.(requests) !! id = Some r ∧
  r.(r_host_path) ≠ None.

Lemma hoare_host_request p T0 :
  hoare (from T0) (lookup_request requests_host p) (λ found s T,
    match found with Some (id, r) => owned_by_host r id | None => True end ∧ from T0 s T).
Proof.
  apply hoare_lookup_request; [by intros s T Hs _|].
  intros s T id r [-> HT] Hp Hr. split; [|done].
  destruct (inv_request_host _ _ _ Ha _ _ Hp) as (r' & Hr' & Hh & Hg).
  rewrite Hr in Hr'. injection Hr' as <-. split_and!; [done..|congruence].
Qed.

Lemma hoare_host_session p T0 :
  hoare (from T0) (lookup_session sessions_host p) (λ found s T,
    match found with
    | Some (id, x) => a.(sessions_guest) !! x.(s_guest_path) = Some id ∧ a.(sessions) !! id = Some x
    | None => True
    end ∧ from T0 s T).
Proof.
  apply hoare_lookup_session; [by intros s T Hs _|].
  intros s T id x [-> HT] Hp Hx. split; [|done].
  destruct (inv_session_host _ _ _ Ha _ _ Hp) as (x' & Hx' & Hh & Hg).
  rewrite Hx in Hx'. by injection Hx' as <-.
Qed.

Lemma settled_owned r id s :
  owned_by_host r id → same_requests a s → settled_request gone s r.
Proof.
  intros (Hg & Hr & Hh) (E1 & E2 & E3 & E4). exists id. rewrite E1, E2. split_and!; [done..|].
  intros Hn. by destruct (Hh Hn).
Qed.

Lemma same_requests_refl s : same_requests s s.
Proof. by split_and!. Qed.

Lemma same_requests_trans s1 s2 s3 :
  same_requests s1 s2 → same_requests s2 s3 → same_requests s1 s3.
Proof. intros (?&?&?&?) (?&?&?&?). split_and!; congruence. Qed.

Lemma hoare_map_response r ps T0 :
  hoare (from T0) (map_response r ps) (λ _ s T, (I s ∧ same_requests a s) ∧ since E T0 T).
Proof.
  assert (Hret : ∀ A (x : A), hoare (from T0) (mret x : M A)
                   (λ _ s T, (I s ∧ same_requests a s) ∧ since E T0 T)).
  { intros A x. apply hoare_ret. intros s T [-> HT]. split_and!; try done. }
  unfold map_response.
  destruct ps as [|[] [|[] [|]]]; try apply hoare_undefined.
  eapply hoare_bind with (Q := λ _ s T, (I s ∧ same_requests a s) ∧ since E T0 T).
  - destruct (session_handle _) as [[host handle]|]; [|apply Hret].
    destruct (r_guest_session_path r) as [p|]; [|apply Hret].
    destruct (_ =? 0)%Z; [|apply Hret].
    destruct (g_variant_is_object_path host).
    + eapply hoare_bind with (Q := λ _ s T, (I s ∧ same_requests a s) ∧ since E T0 T);
        [|intros []; by apply hoare_ret].
      eapply hoare_conseq; [|intros ? ? ? Hx; exact Hx|
        apply hoare_register_session_with with (gone := gone) (left := gone) (R := same_requests a)].
      * intros s T [-> HT]. split_and!; try done.
      * intros s s' Hs Hs'. by eapply same_requests_trans.
    + eapply hoare_bind; [apply Hret|]. intros x. by apply hoare_ret.
  - intros results'. eapply hoare_bind with (Q := λ _ s T, (I s ∧ same_requests a s) ∧ since E T0 T).
    + apply hoare_asks with (P := λ s, I s ∧ same_requests a s). apply asks_translate.
    + intros m. by apply hoare_ret.
Qed.

Lemma hoare_forward_request r id p i name values (P : frontend → Prop) T0 :
  owned_by_host r id → p = r.(r_guest_path) →
  (is_response i name = true → r.(r_cancelled) = false) →
  hoare (λ s T, P s ∧ since E T0 T)
    (perform (Emit GuestBus (Some r.(r_owner)) p i name values))
    (λ _ s T, P s ∧ since E T0 T).
Proof.
  intros (Hg & Hr & _) -> Hc. apply hoare_perform. intros [] s T [Hs HT]. split; [done|].
  apply since_cons; [done|]. right. simpl. by eapply Owned_request.
Qed.

Lemma hoare_forward_session x id i name values T0 :
  a.(sessions_guest) !! x.(s_guest_path) = Some id → a.(sessions) !! id = Some x →
  hoare (from T0) (perform (Emit GuestBus (Some x.(s_owner)) x.(s_guest_path) i name values))
    (λ _, from T0).
Proof.
  intros Hg Hx. apply hoare_perform. intros [] s T [Hs HT]. split; [done|].
  apply since_cons; [done|]. right. simpl. by eapply Owned_session.
Qed.

Lemma hoare_closed_session x id b T0 :
  a.(sessions_guest) !! x.(s_guest_path) = Some id → a.(sessions) !! id = Some x →
  hoare (from T0)
    (if b : bool
     then remove_session_host x.(s_host_path) ≫= λ _, remove_session_guest x.(s_guest_path)
     else mret tt) (safe T0).
Proof.
  intros Hg Hx. destruct b; [|apply from_safe].
  eapply hoare_conseq; [|intros ? ? ? Hy; exact Hy|apply (hoare_remove_session gone gone)].
  intros s T [-> HT]. split_and!; [done| |done]. by exists id.
Qed.

Lemma hoare_response r id i name ps T0 :
  owned_by_host r id →
  hoare (from T0)
    (if r.(r_cancelled) then remove_request r
     else
       mapped ← map_response r ps;
       perform (Emit GuestBus (Some r.(r_owner)) r.(r_guest_path) i name mapped) ≫= λ _,
       if r.(r_persistent) then mret tt else remove_request r) (safe T0).
Proof.
  intros Hr. destruct (r_cancelled r) eqn:Hc.
  - eapply hoare_conseq; [|intros ? ? ? Hy; exact Hy|apply (hoare_remove_request gone gone)].
    intros s T [-> HT]. split_and!; [done| |done].
    eapply settled_owned; [done|apply same_requests_refl].
  - eapply hoare_bind; [apply hoare_map_response|]. intros mapped.
    eapply hoare_bind; [by eapply hoare_forward_request with (P := λ s, I s ∧ same_requests a s)|].
    intros []. destruct (r_persistent r).
    + apply hoare_ret. by intros s T [[Hs _] HT].
    + eapply hoare_conseq; [|intros ? ? ? Hy; exact Hy|apply (hoare_remove_request gone gone)].
      intros s T [[Hs Hsame] HT]. split_and!; [done| |done]. by eapply settled_owned.
Qed.

Lemma hoare_host_portal_signal p i name ps T0 :
  hoare (from T0) (host_portal_signal p i name ps) (safe T0).
Proof.
  unfold host_portal_signal. eapply hoare_bind; [apply hoare_host_request|]. intros found.
  apply hoare_pre. intros Hr. eapply hoare_bind; [apply hoare_host_session|]. intros found'.
  apply hoare_pre. intros Hx.
  destruct found as [[id r]|].
  - destruct (is_response i name) eqn:Hresp; [by eapply hoare_response|].
    eapply hoare_bind; [apply hoare_from, asks_mapped_parameters|]. intros mapped.
    eapply hoare_bind.
    { eapply hoare_forward_request with (P := λ s, s = a); [done..|]. by rewrite Hresp. }
    intros []. destruct found' as [[id' x]|]; [|apply from_safe].
    destruct Hx as [Hg Hx]. by eapply hoare_closed_session.
  - destruct found' as [[id' x]|].
    + destruct Hx as [Hg Hx].
      eapply hoare_bind; [apply hoare_from, asks_mapped_parameters|]. intros mapped.
      eapply hoare_bind; [by eapply hoare_forward_session|]. intros [].
      by eapply hoare_closed_session.
    + destruct (text_eqb p PORTAL_PATH); [|apply from_safe].
      eapply hoare_bind; [apply hoare_from, asks_mapped_parameters|]. intros mapped.
      eapply hoare_conseq; [| |apply hoare_from; walk].
      * intros s T Hs. exact Hs.
      * intros x s T [-> HT]. by split.
Qed.
End signals.

(** ** Clients that vanish *)

Section vanishing.
Context `{Guest, Desktop} (gone : gset text) (a : frontend) (name : text).
Hypothesis Ha : Inv gone gone a.
Implicit Types s : frontend.
Abbreviation left := ({[name]} ∪ gone).
Abbreviation E := (event_ok a).

Lemma Inv_left_more s : Inv gone gone s → Inv gone left s.
Proof.
  intros Hs. pose proof Hs as []. constructor; try assumption. intros n p Hp.
  pose proof (inv_pending n p Hp) as Hok.
  destruct (p_then p); simpl in *; try done;
    (destruct Hok as [(o & Ho & Hop)|Hok]; [left; exists o; split; [set_solver|done]|by right]).
Qed.

(** The requests of [name] are those at [paths]. *)
Definition vanishing (paths : list text) s : Prop :=
  ∀ p id r, s.(requests_guest) !! p = Some id → s.(requests) !! id = Some r →
    (r.(r_owner) = name ↔ p ∈ paths).

Lemma Inv_abandoned s : Inv gone left s → vanishing [] s → Inv left left s.
Proof.
  intros Hs Hv. pose proof Hs as []. constructor; try assumption. intros p id Hp.
  destruct (inv_request p id Hp) as (r & n & Hr & Hpath & Hreg & He & Hu & Hg & Hrest).
  exists r, n. split_and!; try done. intros [Ho%elem_of_singleton|?]%elem_of_union; [|done].
  apply (Hv p id r Hp Hr) in Ho. by apply not_elem_of_nil in Ho.
Qed.

Lemma asks_close_maybe R path i : i = REQUEST_INTERFACE ∨ i = SESSION_INTERFACE →
  steps R plain (close_host path i).
Proof. intros Hi. unfold close_host. destruct path; [by apply asks_close_host|apply steps_ret]. Qed.

Lemma hoare_close_requests l T0 :
  hoare (λ s T, s = a ∧ since E T0 T) (close_requests name l)
    (λ paths s T, (∀ p, p ∈ paths ↔ ∃ q id r, (q, id) ∈ l ∧ a.(requests) !! id = Some r ∧
                     r.(r_owner) = name ∧ r.(r_guest_path) = p) ∧ s = a ∧ since E T0 T).
Proof.
  induction l as [|[q id] l IH]; simpl.
  { apply hoare_ret. intros s T Hs. split; [|done]. set_solver. }
  eapply hoare_bind with (Q := λ r s T, a.(requests) !! id = Some r ∧ s = a ∧ since E T0 T).
  { apply hoare_the_request. by intros s T r [-> HT] Hr. }
  intros r. apply hoare_pre. intros Hr. destruct (text_eqb (r_owner r) name) eqn:Hn.
  - apply text_eqb_spec in Hn.
    eapply hoare_bind; [by apply hoare_asks with (P := λ s, s = a), asks_close_maybe; left|].
    intros []. eapply hoare_bind; [exact IH|]. intros rest. apply hoare_pre. intros Hrest.
    apply hoare_ret. intros s T Hs. split; [|done]. intros p. rewrite elem_of_cons, Hrest.
    split.
    + intros [->|(q' & i & x & Hin & Hx)]; [by exists q, id, r; set_solver|].
      exists q', i, x. set_solver.
    + intros (q' & i & x & [[= -> ->]|Hin]%elem_of_cons & Hx & Ho & Hp).
      * left. congruence.
      * right. by exists q', i, x.
  - assert (r_owner r ≠ name) as Hne.
    { intros He. apply text_eqb_spec in He. congruence. }
    eapply hoare_conseq; [| |exact IH]; [done|]. intros paths s T [Hp Hs]. split; [|done].
    intros p. rewrite Hp. split.
    + intros (q' & i & x & Hin & Hx). exists q', i, x. set_solver.
    + intros (q' & i & x & [[= -> ->]|Hin]%elem_of_cons & Hx & Ho & Hpx); [congruence|].
      by exists q', i, x.
Qed.

Lemma vanishing_start paths :
  (∀ p, p ∈ paths ↔ ∃ q id r, (q, id) ∈ map_to_list a.(requests_guest) ∧
     a.(requests) !! id = Some r ∧ r.(r_owner) = name ∧ r.(r_guest_path) = p) →
  vanishing paths a.
Proof.
  intros Hp p id r Hg Hr. rewrite Hp. split.
  - intros Ho. exists p, id, r. rewrite elem_of_map_to_list.
    destruct (inv_request _ _ _ Ha _ _ Hg) as (x & n & Hx & Hpx & _). split_and!; congruence.
  - intros (q & i & x & Hin & Hx & Ho & Hpx). apply elem_of_map_to_list in Hin.
    destruct (inv_request _ _ _ Ha _ _ Hin) as (y & n & Hy & Hpy & _). congruence.
Qed.

(** Removing the first of the paths. *)
Lemma vanishing_removed p paths s id n :
  vanishing (p :: paths) s → vanishing paths (removed_state p id n s).
Proof.
  intros Hv q i r Hg Hr. simpl in Hg, Hr. apply lookup_delete_Some in Hg as [Hne Hg].
  apply lookup_delete_Some in Hr as [_ Hr].
  rewrite (Hv q i r Hg Hr), elem_of_cons. naive_solver.
Qed.

Lemma vanishing_missing p paths s :
  vanishing (p :: paths) s → s.(requests_guest) !! p = None → vanishing paths s.
Proof.
  intros Hv Hp q i r Hg Hr. rewrite (Hv q i r Hg Hr), elem_of_cons.
  split; [intros [->|?]; [congruence|done]|auto].
Qed.

Lemma vanishing_removable p paths s :
  vanishing (p :: paths) s → (∀ id h, s.(requests_guest) !! p = Some id → s.(requests_host) !! h ≠ Some id) →
  removable left s p.
Proof.
  intros Hv Hh id r Hg Hr. split; [intros h; by apply Hh|]. intros _ _ _ _.
  assert (r_owner r = name) as ->; [|set_solver]. apply (Hv p id r Hg Hr). set_solver.
Qed.

Lemma hoare_remove_requests paths T0 :
  hoare (λ s T, (Inv gone left s ∧ vanishing paths s) ∧ since E T0 T) (remove_requests paths)
    (λ _ s T, (Inv gone left s ∧ vanishing [] s) ∧ since E T0 T).
Proof.
  induction paths as [|p paths IH]; simpl; [by apply hoare_ret|].
  apply (hoare_start E (λ s, Inv gone left s ∧ vanishing (p :: paths) s)). intros b [Hb Hv].
  eapply hoare_bind with (Q := λ found s T,
    match found with
    | Some (id, r) => b.(requests_guest) !! p = Some id ∧ b.(requests) !! id = Some r
    | None => b.(requests_guest) !! p = None
    end ∧ s = b ∧ since E T0 T).
  { apply hoare_lookup_request; [by intros s T [-> HT]|]. by intros s T id r [-> HT]. }
  intros found. apply hoare_pre. intros Hfound.
  eapply hoare_bind with (Q := λ _ s T,
    (Inv gone left s ∧ removable left s p ∧ vanishing (p :: paths) s) ∧ since E T0 T).
  - destruct found as [[id r]|].
    + destruct Hfound as [Hg Hr]. destruct (r_host_path r) as [h|] eqn:Hh.
      * apply hoare_modify. intros s T [-> HT]. split_and!; [by apply Inv_remove_host| |done|done].
        eapply vanishing_removable; [done|]. intros id' h' Hg'. simpl in Hg'. simplify_eq.
        eapply removed_host; [exact Hb|exact Hr|exact Hh].
      * apply hoare_ret. intros s T [-> HT]. split_and!; [done| |done|done].
        eapply vanishing_removable; [done|]. intros id' h' Hg'. simplify_eq.
        by eapply local_not_host.
    + apply hoare_ret. intros s T [-> HT]. split_and!; [done| |done|done].
      eapply vanishing_removable; [done|]. intros id' h' Hg'. simplify_eq.
  - intros []. eapply hoare_bind with (Q := λ _ s T,
      (Inv gone left s ∧ vanishing paths s) ∧ since E T0 T); [|intros []; exact IH].
    apply hoare_remove_guest_with.
    + intros s Hs Hp. by eapply vanishing_missing.
    + intros s id n Hs Hp. by apply vanishing_removed.
Qed.

Lemma hoare_requests_vanished T0 :
  hoare (λ s T, s = a ∧ since E T0 T) (requests_vanished name)
    (λ _ s T, Inv left left s ∧ since E T0 T).
Proof.
  unfold requests_vanished. apply hoare_read. intros s0 w x w' [[Hw HT] Hw0] Hr.
  rewrite Hw in Hw0. subst s0. revert Hr. revert w x w' Hw HT.
  enough (hoare (λ s T, s = a ∧ since E T0 T)
    (paths ← close_requests name (map_to_list a.(requests_guest)); remove_requests paths)
    (λ _ s T, Inv left left s ∧ since E T0 T)) as Hh.
  { intros w x w' Hw HT. by apply Hh. }
  eapply hoare_bind; [apply hoare_close_requests|]. intros paths. apply hoare_pre. intros Hp.
  eapply hoare_conseq; [| |apply hoare_remove_requests].
  - intros s T [-> HT]. split_and!; [by apply Inv_left_more|by apply vanishing_start|done].
  - intros [] s T [[Hs Hv] HT]. split; [|done]. by apply Inv_abandoned.
Qed.
End vanishing.

Section closing.
Context `{Guest, Desktop} (gone : gset text) (a : frontend).
Implicit Types s : frontend.
Abbreviation I := (Inv gone gone).
Abbreviation keeps m := (steps I (event_ok a) m).

Lemma keeps_close_sessions name l : keeps (close_sessions name l).
Proof.
  apply steps_plain. induction l as [|[q id] l IH]; simpl; walk. apply asks_close_host. auto.
Qed.

Lemma keeps_remove_found p (found : option (nat * session)) T0 :
  hoare (λ s T, (match found with
                 | Some (id, x) => s.(sessions_guest) !! p = Some id ∧ s.(sessions) !! id = Some x
                 | None => s.(sessions_guest) !! p = None
                 end ∧ I s) ∧ since (event_ok a) T0 T)
    (match found with Some (_, x) => remove_session_host x.(s_host_path) | None => mret tt end
       ≫= λ _, remove_session_guest p) (λ _ s T, I s ∧ since (event_ok a) T0 T).
Proof.
  destruct found as [[id x]|].
  - apply (hoare_start (event_ok a) (λ s, (s.(sessions_guest) !! p = Some id ∧ s.(sessions) !! id = Some x) ∧ I s)).
    intros b [[Hg Hx] Hb].
    destruct (inv_session _ _ _ Hb _ _ Hg) as (x' & n & Hx' & <- & _).
    rewrite Hx in Hx'. injection Hx' as <-.
    eapply hoare_conseq; [|intros ? ? ? Hy; exact Hy|apply (hoare_remove_session gone gone)].
    intros s T [-> HT]. split_and!; [done|by exists id|done].
  - eapply hoare_bind with (Q := λ _ s T, (s.(sessions_guest) !! p = None ∧ I s) ∧ since (event_ok a) T0 T);
      [by apply hoare_ret|]. intros [].
    unfold remove_session_guest. apply hoare_read. intros s0.
    destruct (sessions_guest s0 !! p) eqn:Hp.
    + intros w y w' [[[Hg _] _] Hw]. congruence.
    + apply hoare_ret. by intros s T [[[_ Hs] HT] _].
Qed.

Lemma keeps_remove_sessions paths : keeps (remove_sessions paths).
Proof.
  induction paths as [|p paths IH]; simpl; [apply steps_ret|]. intros T0.
  eapply hoare_bind.
  { apply hoare_lookup_session with (Q := λ found s T, (match found with
                 | Some (id, x) => s.(sessions_guest) !! p = Some id ∧ s.(sessions) !! id = Some x
                 | None => s.(sessions_guest) !! p = None
                 end ∧ I s) ∧ since (event_ok a) T0 T).
    - by intros s T [Hs HT] Hp.
    - by intros s T id x [Hs HT] Hp Hx. }
  intros found w x w' Hw Hr. apply M_bind_returned in Hr as ([] & w1 & E1 & Hr).
  apply M_bind_returned in Hr as ([] & w2 & E2 & Hr).
  eapply (IH T0); [|exact Hr]. eapply (keeps_remove_found p found T0); [exact Hw|].
  apply M_bind_returned. by exists tt, w1.
Qed.

Lemma keeps_sessions_vanished name : keeps (sessions_vanished name).
Proof.
  unfold sessions_vanished. apply steps_bind; [apply steps_get|]. intros s.
  apply steps_bind; [apply keeps_close_sessions|]. intros paths. apply keeps_remove_sessions.
Qed.
End closing.

(** ** One input *)

(** The clients that have gone, after an input. *)
Definition gone_after (i : input) (gone : gset text) : gset text :=
  match i with
  | INameChanged name (_ :: _) [] => {[name]} ∪ gone
  | _ => gone
  end.

(** A message bus delivers no call of a connection that it has announced to be
    gone, and the sender of a call is a connection's unique name. *)
Definition bus_input (gone : gset text) (i : input) : Prop :=
  match i with
  | IMethod sender _ _ _ _ => unique_name sender ∧ sender ∉ gone
  | _ => True
  end.

(** No forwarded call is answered after its client has gone. *)
Definition timely (gone : gset text) (s : frontend) (i : input) : Prop :=
  match i with
  | IReply n _ =>
      match s.(pending) !! n with
      | Some (Pending _ (ForwardDone call)) => call.(f_owner) ∉ gone
      | _ => True
      end
  | _ => True
  end.

Section dispatching.
Context `{Guest, Desktop} (gone : gset text) (a : frontend).
Implicit Types s : frontend.
Abbreviation I := (Inv gone gone).
Abbreviation E := (event_ok a).
Abbreviation from T0 := (λ s T, s = a ∧ since (event_ok a) T0 T).
Abbreviation safe T0 := (λ (_ : unit) s T, I s ∧ since (event_ok a) T0 T).

Lemma hoare_keeps (m : M unit) T0 : I a → steps I E m → hoare (from T0) m (safe T0).
Proof.
  intros Ha Hm. eapply hoare_conseq; [|intros ? ? ? Hx; exact Hx|apply Hm]. by intros s T [-> HT].
Qed.

Lemma hoare_name_changed name old new T0 :
  I a →
  hoare (from T0) (guest_name_changed name old new)
    (λ _ s T, let g := gone_after (INameChanged name old new) gone in
       Inv g g s ∧ since E T0 T).
Proof.
  intros Ha. unfold guest_name_changed. destruct new as [|c new].
  - destruct old as [|d old]; [by apply hoare_keeps; [|apply steps_ret]|]. simpl.
    eapply hoare_bind; [by apply hoare_requests_vanished|]. intros [].
    apply steps_bind; [apply keeps_sessions_vanished|]. intros [].
    apply steps_plain, steps_bind; [apply leaves_mirrors_vanished, Inv_robust|]. intros [].
    apply leaves_inhibitors_vanished, Inv_robust.
  - assert (gone_after (INameChanged name old (c :: new)) gone = gone) as -> by (by destruct old).
    apply hoare_keeps; [done|]. apply steps_plain. apply steps_bind.
    + destruct old; [apply steps_ret|apply leaves_mirrors_vanished, Inv_robust].
    + intros []. apply leaves_maybe_mpris, Inv_robust.
Qed.

Lemma hoare_complete fuel k answered T0 :
  finishing gone a k → (∀ call, k = ForwardDone call → call.(f_owner) ∉ gone) →
  hoare (from T0) (complete fuel k answered) (safe T0).
Proof.
  intros Hk Hg. pose proof Hk as (Ha & Hok & _). destruct k; simpl.
  - apply hoare_keeps; [done|]. destruct Hok as [Hu Hp]. apply keeps_forward_done; auto.
  - by apply hoare_chooser_done.
  - by apply hoare_screenshot_done.
  - by apply hoare_broker_done.
  - by apply hoare_transformed_done.
  - apply hoare_keeps; [done|]. apply steps_plain. unfold dynamic_done. walk.
  - apply hoare_keeps; [done|]. apply steps_plain. unfold bridge_done. walk.
  - apply hoare_keeps; [done|]. apply steps_plain. apply leaves_screen_done, Inv_robust.
  - apply hoare_keeps; [done|]. apply steps_plain. apply leaves_file_done, Inv_robust.
  - apply hoare_keeps; [done|]. apply steps_plain. unfold mirror_call_done. walk.
Qed.

Lemma keeps_guest_signal mirror sender path i name ps :
  steps I E (dispatch 0 (IGuestSignal mirror sender path i name ps)).
Proof.
  apply keeps_settled. intros R HR. simpl. walk. by apply leaves_guest_signal.
Qed.

Lemma keeps_host_name mirror acquired : steps I E (dispatch 0 (IHostName mirror acquired)).
Proof.
  apply keeps_settled. intros R HR. simpl.
  walk; [by apply leaves_name_acquired|by apply leaves_name_lost].
Qed.

Lemma keeps_run_source n : steps I E (dispatch 0 (ISource n)).
Proof. apply keeps_settled. intros R HR. simpl. walk. by apply leaves_source. Qed.
End dispatching.

Section replies.
Context `{Guest, Desktop} (gone : gset text) (a : frontend).
Hypothesis Ha : Inv gone gone a.

Lemma finishing_pending n p :
  a.(pending) !! n = Some p →
  finishing gone (set_pending (delete n a.(pending)) a) p.(p_then).
Proof.
  intros Hp. split_and!.
  - by apply Inv_drop_pending.
  - pose proof (inv_pending _ _ _ Ha _ _ Hp) as Hok. by destruct (p_then p).
  - intros id r m q Hsv Hq Hsv'. simpl in Hq. apply lookup_delete_Some in Hq as [Hne Hq].
    destruct Hne. by eapply (inv_serves _ _ _ Ha n p m q id r id r).
Qed.

Lemma owned_pending f i name p o :
  owned (set_pending f a) i name p o ↔ owned a i name p o.
Proof. split; intros []; by econstructor. Qed.

Lemma event_ok_pending f e : event_ok (set_pending f a) e ↔ event_ok a e.
Proof.
  unfold event_ok. enough (directed (set_pending f a) e ↔ directed a e) as -> by done.
  destruct e as [A r x]. destruct r; try done. destruct b; [|done].
  destruct destination; [|done]. apply owned_pending.
Qed.

Lemma since_pending f T0 T : since (event_ok (set_pending f a)) T0 T ↔ since (event_ok a) T0 T.
Proof. split; apply since_mono; intros e; apply event_ok_pending. Qed.

Lemma hoare_reply fuel n answered T0 :
  timely gone a (IReply n answered) →
  hoare (λ s T, s = a ∧ since (event_ok a) T0 T) (dispatch fuel (IReply n answered))
    (λ _ s T, Inv gone gone s ∧ since (event_ok a) T0 T).
Proof.
  intros Ht. simpl. apply hoare_read. intros s0 w x w' [[Hw HT] Hw0]. rewrite Hw in Hw0.
  subst s0. revert w x w' Hw HT. simpl in Ht. destruct (pending a !! n) as [p|] eqn:Hp.
  2:{ intros w x w' Hw HT Hr. apply M_ret_returned in Hr as [-> ->]. by rewrite Hw. }
  enough (hoare (λ s T, s = a ∧ since (event_ok a) T0 T)
    (modify (λ s, set_pending (delete n s.(pending)) s) ≫= λ _,
     complete fuel p.(p_then) (typed_reply p answered))
    (λ _ s T, Inv gone gone s ∧ since (event_ok a) T0 T)) as Hh.
  { intros w x w' Hw HT. by apply Hh. }
  eapply hoare_bind; [apply hoare_exact|]. intros [].
  pose proof (finishing_pending n p Hp) as Hk.
  eapply hoare_conseq; [| |apply (hoare_complete gone _ fuel p.(p_then) _ T0 Hk)].
  - intros s T [-> HT]. by rewrite since_pending.
  - intros [] s T [Hs HT]. split; [done|]. by rewrite since_pending in HT.
  - intros call Hc. destruct p as [c k]. simpl in Hc. by rewrite Hc in Ht.
Qed.
End replies.

(** Every input keeps the invariant, and its events are of the state before. *)
Lemma hoare_dispatch `{Guest, Desktop} gone a fuel i T0 :
  Inv gone gone a → bus_input gone i → timely gone a i →
  hoare (λ s T, s = a ∧ since (event_ok a) T0 T) (dispatch fuel i)
    (λ _ s T, Inv (gone_after i gone) (gone_after i gone) s ∧ since (event_ok a) T0 T).
Proof.
  intros Ha Hb Ht.
  destruct i as [sender p i m ps|sender p i prop|n answered|p i name ps|p i name ps
    |name old new|appeared|n|p i m ps|p i prop|p i prop v|m sender p i name ps|m acquired].
  - destruct Hb as [Hu Hg]. apply hoare_keeps; [done|]. by apply keeps_guest_method.
  - apply hoare_keeps; [done|]. apply keeps_guest_property.
  - by apply hoare_reply.
  - by apply hoare_host_portal_signal.
  - apply hoare_keeps; [done|]. apply keeps_settled. intros R HR. by apply leaves_native_signal.
  - by apply hoare_name_changed.
  - apply hoare_keeps; [done|]. apply keeps_settled. intros R HR. simpl.
    destruct appeared; [by apply leaves_screen_saver_found|by apply leaves_screen_saver_lost].
  - apply hoare_keeps; [done|]. apply keeps_run_source.
  - apply hoare_keeps; [done|]. apply keeps_host_method.
  - apply hoare_keeps; [done|]. apply keeps_host_property.
  - apply hoare_keeps; [done|]. apply keeps_host_property.
  - apply hoare_keeps; [done|]. apply keeps_guest_signal.
  - apply hoare_keeps; [done|]. apply keeps_host_name.
Qed.
