(* ===== verification/FrontendConfined.v ===== *)
(** * The guest's portal frontend: calls on the host's bus, whatever happens

    [Inv] needs that forwarded calls are answered while their clients are there.
    What the frontend calls on the host's bus needs less: only that what is
    exported to the guest is what may be ([exports_good]), which every input keeps,
    also in a state where a table points to a freed object. *)

From S2P Require Import Prelude Glib.
From S2P Require Export FrontendWhole.

Section confined.
Context `{Guest, Desktop}.

Definition exports_good (s : frontend) : Prop := ∀ n x, s.(exports) !! n = Some x → export_ok x.

(** A call on the host's bus is of the list. *)
Definition confined (e : event) : Prop :=
  match e with Did r _ => match r with Sync c | Send c => call_ok c | _ => True end end.

Abbreviation tame m := (steps exports_good confined m).

Lemma plain_confined e : plain e → confined e.
Proof. by destruct e as [A r x]; destruct r. Qed.

Lemma tame_asks {A} (m : M A) : (∀ R, steps R plain m) → tame m.
Proof. intros Hm. eapply steps_mono; [apply plain_confined|apply Hm]. Qed.

Lemma good_robust : robust exports_good.
Proof. by constructor. Qed.

Lemma tame_settled {A} (m : M A) : (∀ R, robust R → steps R plain m) → tame m.
Proof. intros Hm. eapply steps_mono; [apply plain_confined|apply Hm, good_robust]. Qed.

Lemma tame_set f : (∀ s, (f s).(exports) = s.(exports)) → tame (modify f).
Proof. intros Hf. apply steps_modify. intros s Hs. unfold exports_good. by rewrite Hf. Qed.

Lemma tame_new_id : tame new_id.
Proof. apply steps_new_id, good_robust. Qed.

Lemma tame_read {A} (f : frontend → M A) : (∀ s, exports_good s → tame (f s)) → tame (get ≫= f).
Proof.
  intros Hf. apply steps_read. intros s0 Hs T0.
  eapply hoare_conseq; [|intros ? ? ? Hx; exact Hx|apply (Hf s0 Hs)]. by intros s T [? _].
Qed.

(** ** Objects *)

Lemma tame_register path info v : export_ok (Export path info v) → tame (register_object path info v).
Proof.
  intros Hx. unfold register_object. apply steps_bind; [apply steps_get|]. intros s0.
  case_bool_decide; [apply steps_ret|]. apply steps_bind; [apply tame_new_id|]. intros n.
  apply steps_bind; [|intros []; apply steps_ret]. apply steps_modify.
  intros s Hs m y Hy. simpl in Hy.
  apply lookup_insert_Some in Hy as [[_ <-]|[_ Hy]]; [done|by eapply Hs].
Qed.

Lemma tame_unregister registration : tame (unregister_object registration).
Proof.
  destruct registration as [n|]; [|apply steps_ret]. apply steps_modify.
  intros s Hs m y Hy. simpl in Hy. apply lookup_delete_Some in Hy as [_ Hy]. by eapply Hs.
Qed.

Lemma tame_request_free id : tame (request_free id).
Proof. unfold request_free. walk; [apply tame_unregister|by apply tame_set]. Qed.

Lemma tame_session_free id : tame (session_free id).
Proof. unfold session_free. walk; [apply tame_unregister|by apply tame_set]. Qed.

Lemma tame_call_async c k : call_ok c → tame (call_async c k).
Proof.
  intros Hc. unfold call_async. walk; [apply tame_new_id|by apply tame_set].
Qed.

Lemma tame_close_host path interface :
  interface = REQUEST_INTERFACE ∨ interface = SESSION_INTERFACE → tame (close_host_object path interface).
Proof. intros Hi. apply tame_asks. intros R. by apply asks_close_host. Qed.

Create HintDb tame.
Hint Extern 3 (steps _ _ (modify _)) => by apply tame_set : tame.
Hint Extern 4 (steps _ _ _) => apply tame_asks; intros ?; solve [auto with steps] : tame.
Hint Resolve tame_new_id tame_unregister tame_request_free tame_session_free tame_close_host : tame.

Hint Extern 3 (steps _ _ (call_async _ _)) => apply tame_call_async;
  solve [by intros Hb; discriminate Hb | by apply broker_call_ok | intros _; constructor; auto] : tame.

Ltac tame := repeat (walk; try solve [eauto with tame steps]).

Lemma tame_remove_guest p : tame (remove_request_guest p).
Proof. unfold remove_request_guest. tame. Qed.
Lemma tame_remove_host p : tame (remove_request_host p).
Proof. unfold remove_request_host. tame. Qed.
Lemma tame_remove_session p : tame (remove_session_guest p).
Proof. unfold remove_session_guest. tame. Qed.
Lemma tame_remove_session_host p : tame (remove_session_host p).
Proof. unfold remove_session_host. tame. Qed.

Lemma tame_new_request r : tame (new_request r).
Proof. unfold new_request. tame. Qed.

Lemma tame_register_request id r : tame (register_request id r).
Proof.
  unfold register_request, insert_request_guest, insert_request_host.
  apply steps_bind; [by apply tame_register|]. intros [e|n]; tame.
Qed.

Lemma tame_register_session owner p h : tame (register_session owner p h).
Proof.
  unfold register_session, new_session, insert_session_guest, insert_session_host.
  destruct p as [p|]; [|apply steps_ret]. apply steps_bind; [tame|]. intros id.
  apply steps_bind; [by apply tame_register|]. intros [e|n]; tame.
Qed.

Hint Resolve tame_remove_guest tame_remove_host tame_remove_session tame_remove_session_host
  tame_new_request tame_register_request tame_register_session : tame.

(** ** Calls of the guest *)

Lemma tame_not_available i : tame (return_not_available i).
Proof. unfold return_not_available. tame. Qed.
Hint Resolve tame_not_available : tame.

Lemma tame_forward_portal sender interface m method ps i :
  interface_allowed interface = true → tame (forward_portal_call sender interface m method ps i).
Proof.
  intros Hi. unfold forward_portal_call. apply steps_bind; [apply tame_asks; intros R; apply asks_prepare|].
  intros [call mapped]. apply tame_call_async. intros _. by constructor.
Qed.

Lemma tame_forward_done call answered : tame (forward_done call answered).
Proof.
  unfold forward_done, forward_request, forward_session, forward_results, forward_finished. tame.
Qed.

Lemma tame_lifecycle sender path interface m i : tame (lifecycle_call sender path interface m i).
Proof. unfold lifecycle_call, cancel. tame. Qed.

Lemma tame_file_chooser sender m ps i : tame (file_chooser_call sender m ps i).
Proof. unfold file_chooser_call. tame. Qed.

Lemma tame_screenshot sender ps i : tame (screenshot_call sender ps i).
Proof. unfold screenshot_call. destruct broker_name as [broker|] eqn:Hb; tame. Qed.

Lemma tame_open_file_request broker sender m options fd path i :
  broker_name = Some broker → tame (open_file_request broker sender m options fd path i).
Proof. intros Hb. unfold open_file_request. tame. Qed.

Lemma tame_open_file sender m ps i : tame (open_file_call sender m ps i).
Proof.
  unfold open_file_call. destruct broker_name as [broker|] eqn:Hb; tame; auto using tame_open_file_request.
Qed.

Lemma tame_transformed sender interface m ps i : tame (transformed_request_call sender interface m ps i).
Proof.
  unfold transformed_request_call. destruct (last ps); [|tame].
  destruct broker_name as [broker|] eqn:Hb; tame.
Qed.
Lemma tame_realtime m ps i : tame (realtime_call m ps i).
Proof.
  unfold realtime_call. destruct broker_name as [broker|] eqn:Hb; unfold realtime_pids; tame.
Qed.

Lemma tame_dynamic m ps i : tame (dynamic_call m ps i).
Proof. unfold dynamic_call. destruct broker_name as [broker|] eqn:Hb; tame. Qed.

Lemma tame_portal_method sender interface m ps i :
  interface_allowed interface = true → tame (portal_method_call sender interface m ps i).
Proof.
  intros Hi. unfold portal_method_call. apply steps_bind; [apply steps_get|]. intros s.
  destruct (_ ≫= _) as [method|]; [|tame].
  repeat (match goal with |- steps _ _ (if ?b then _ else _) => destruct b end);
    auto using tame_file_chooser, tame_screenshot, tame_open_file, tame_transformed,
      tame_dynamic, tame_realtime, tame_forward_portal.
  apply tame_asks. intros R. apply asks_game_mode.
Qed.

Lemma tame_call_method sender path interface m ps i x :
  export_ok x → x.(e_info).(i_name) = interface →
  tame (call_method x.(e_vtable) sender path interface m ps i).
Proof.
  unfold export_ok. intros Hx <-. destruct (e_vtable x); simpl.
  - apply tame_lifecycle.
  - by apply tame_portal_method.
  - apply tame_settled. intros R HR. by apply leaves_simple_bridge.
  - apply tame_settled. intros R HR. by apply leaves_file_manager.
  - apply tame_settled. intros R HR. by apply leaves_status_watcher.
  - apply tame_asks. intros R. apply asks_accessibility_call.
Qed.

Lemma tame_guest_method sender path interface m ps : tame (guest_method sender path interface m ps).
Proof.
  unfold guest_method. apply steps_bind; [apply tame_new_id|]. intros i.
  apply tame_read. intros s Hs. destruct (find_export s path interface) as [x|] eqn:Hx; [|tame].
  apply find_export_some in Hx as ([n Hn] & Hp & Hi).
  destruct (find_method _ _); [|tame]. destruct (has_type _ _); [|tame].
  apply tame_call_method; [by eapply Hs|done].
Qed.

Lemma tame_guest_property path interface property : tame (guest_property path interface property).
Proof.
  unfold guest_property. apply steps_bind; [apply tame_new_id|]. intros i.
  apply tame_read. intros s Hs. apply steps_bind; [|intros v; unfold answer_property; tame].
  destruct (find_export s path interface) as [x|] eqn:Hx; [|tame].
  apply find_export_some in Hx as ([n Hn] & Hp & Hi).
  case_bool_decide; [|tame]. destruct (e_vtable x) eqn:Hv; try apply steps_ret.
  - pose proof (Hs _ _ Hn) as Hok. unfold export_ok in Hok. rewrite Hv, Hi in Hok.
    apply tame_asks. intros R. by apply asks_portal_property.
  - unfold status_watcher_property. tame.
  - apply tame_asks. intros R. apply asks_accessibility_get.
Qed.

(** ** Signals, names and replies *)

Hint Resolve asks_translate asks_mapped_parameters : steps.

Lemma tame_host_portal_signal p i name ps : tame (host_portal_signal p i name ps).
Proof.
  unfold host_portal_signal. apply steps_bind; [apply steps_lookup_request|]. intros request.
  apply steps_bind; [apply steps_lookup_session|]. intros session.
  destruct request as [[id r]|], session as [[id' x]|]; unfold map_response, remove_request; tame.
Qed.

Lemma tame_requests_vanished name : tame (requests_vanished name).
Proof.
  unfold requests_vanished. apply steps_bind; [apply steps_get|]. intros s.
  apply steps_bind.
  - generalize (map_to_list s.(requests_guest)). intros l.
    induction l as [|[p id] l IH]; simpl; unfold close_host; tame.
  - intros paths. induction paths as [|p paths IH]; simpl; tame.
Qed.

Lemma tame_sessions_vanished name : tame (sessions_vanished name).
Proof.
  unfold sessions_vanished. apply steps_bind; [apply steps_get|]. intros s.
  apply steps_bind.
  - generalize (map_to_list s.(sessions_guest)). intros l.
    induction l as [|[p id] l IH]; simpl; tame.
  - intros paths. induction paths as [|p paths IH]; simpl; tame.
Qed.

Lemma tame_name_changed name old new : tame (guest_name_changed name old new).
Proof.
  pose proof good_robust as HR. unfold guest_name_changed.
  destruct new as [|c new]; [destruct old as [|d old]; [apply steps_ret|]|].
  - apply steps_bind; [apply tame_requests_vanished|]. intros [].
    apply steps_bind; [apply tame_sessions_vanished|]. intros [].
    apply steps_bind; [apply tame_settled; intros; by apply leaves_mirrors_vanished|]. intros [].
    apply tame_settled. intros. by apply leaves_inhibitors_vanished.
  - apply steps_bind; [|intros []; apply tame_settled; intros; by apply leaves_maybe_mpris].
    destruct old; [apply steps_ret|]. apply tame_settled. intros. by apply leaves_mirrors_vanished.
Qed.

Lemma tame_complete fuel k answered : tame (complete fuel k answered).
Proof.
  destruct k; simpl.
  - apply tame_forward_done.
  - unfold chooser_done, emit_response. tame.
  - unfold screenshot_done, emit_response. tame.
  - unfold broker_request_done, emit_response. tame.
  - unfold transformed_request_done, emit_response. tame.
  - unfold dynamic_done. tame.
  - unfold bridge_done. tame.
  - apply tame_settled. intros. by apply leaves_screen_done.
  - apply tame_settled. intros. by apply leaves_file_done.
  - unfold mirror_call_done. tame.
Qed.

Lemma tame_host_method path interface m ps : tame (host_method path interface m ps).
Proof.
  apply tame_settled. intros R HR. unfold host_method.
  apply steps_bind; [by apply steps_new_id|]. intros i. walk. by apply leaves_mirror_method.
Qed.

Lemma tame_host_property path interface property v : tame (host_property path interface property v).
Proof.
  apply tame_settled. intros R HR. unfold host_property, answer_property.
  apply steps_bind; [by apply steps_new_id|]. intros i.
  walk; [by apply leaves_mirror_set|by apply leaves_mirror_get].
Qed.

Lemma tame_dispatch fuel i : tame (dispatch fuel i).
Proof.
  destruct i as [sender p i m ps|sender p i prop|n answered|p i name ps|p i name ps
    |name old new|appeared|n|p i m ps|p i prop|p i prop v|m sender p i name ps|m acquired]; simpl.
  - apply tame_guest_method.
  - apply tame_guest_property.
  - tame. apply tame_complete.
  - apply tame_host_portal_signal.
  - apply tame_settled. intros R HR. by apply leaves_native_signal.
  - apply tame_name_changed.
  - apply tame_settled. intros R HR.
    destruct appeared; [by apply leaves_screen_saver_found|by apply leaves_screen_saver_lost].
  - apply tame_settled. intros R HR. walk. by apply leaves_source.
  - apply tame_host_method.
  - apply tame_host_property.
  - apply tame_host_property.
  - apply tame_settled. intros R HR. walk. by apply leaves_guest_signal.
  - apply tame_settled. intros R HR. walk; [by apply leaves_name_acquired|by apply leaves_name_lost].
Qed.
End confined.
