(* ===== verification/FrontendNames.v ===== *)
(** * The guest's portal frontend: reachable states

    What [main] sets up has the invariant, so every state that a run of inputs
    reaches has it, and everything that the frontend has sent is confined. *)

From S2P Require Import Prelude Glib.
From S2P Require Export FrontendConfined.

(** ** Start-up *)

Lemma Inv_beginning space backend : Inv ∅ ∅ (empty_frontend space backend).
Proof. constructor; simpl; try done; by intros ? [? ?]. Qed.

Lemma Inv_export gone left s x :
  Inv gone left s → export_ok x →
  Inv gone left (set_exports (<[s.(fresh) := x]> s.(exports)) (set_fresh (S s.(fresh)) s)).
Proof.
  intros Hs Hx. assert (Hne : ∀ n y, exports s !! n = Some y → fresh s ≠ n).
  { intros n y Hn <-. pose proof (inv_fresh_export _ _ _ Hs _ (ex_intro _ y Hn)). lia. }
  pose proof (Inv_numbered _ _ _ Hs) as []. constructor; simpl; try assumption.
  - intros p id Hp. destruct (inv_request p id Hp) as (r & n & Hr & Hpath & Hreg & He & Hrest).
    exists r, n. rewrite lookup_insert_ne by (by eapply Hne). by repeat (split; [done|]).
  - intros p id Hp. destruct (inv_session p id Hp) as (r & n & Hr & Hpath & Hreg & He).
    exists r, n. rewrite lookup_insert_ne by (by eapply Hne). by repeat (split; [done|]).
  - intros n [y [[<- _]|[_ Hy]]%lookup_insert_Some]; [lia|]. apply inv_fresh_export. eauto.
  - intros n y [[_ <-]|[_ Hy]]%lookup_insert_Some; eauto.
Qed.

(** What starting the frontend keeps is what numbers, described interfaces and
    exports that may be there keep. *)
Record startable (R : frontend → Prop) : Prop := {
  startable_robust : robust R;
  startable_nodes s hn on : R s → R (set_nodes hn on s);
  startable_export s x : R s → export_ok x →
    R (set_exports (<[s.(fresh) := x]> s.(exports)) (set_fresh (S s.(fresh)) s));
}.

Lemma Inv_startable gone left : startable (Inv gone left).
Proof. constructor; [apply Inv_robust|intros; by apply Inv_set_nodes|intros; by apply Inv_export]. Qed.

Lemma good_startable : startable exports_good.
Proof.
  constructor; [apply good_robust|done|]. intros s x Hs Hx n y Hy. simpl in Hy.
  apply lookup_insert_Some in Hy as [[_ <-]|[_ Hy]]; [done|by eapply Hs].
Qed.

Section starting.
Context `{Guest, Desktop} (I : frontend → Prop) (HI : startable I).
Abbreviation sets_up m := (steps I plain m).

Lemma sets_up_object path info v :
  export_ok (Export path info v) → sets_up (register_object path info v).
Proof.
  intros Hx. unfold register_object. apply steps_bind; [apply steps_get|]. intros s0.
  case_bool_decide; [apply steps_ret|]. intros T0.
  eapply hoare_bind with (Q := λ n s T,
    I (set_exports (<[n := Export path info v]> s.(exports)) s) ∧ since plain T0 T).
  - apply hoare_new_id. intros s T [Hs HT]. split; [|done]. exact (startable_export _ HI s _ Hs Hx).
  - intros n. eapply hoare_bind with (Q := λ _ s T, I s ∧ since plain T0 T); [by apply hoare_modify|].
    intros []. by apply hoare_ret.
Qed.

Lemma sets_up_interface path info v :
  export_ok (Export path info v) → sets_up (register_node_interface path info v).
Proof.
  intros Hx. unfold register_node_interface. apply steps_bind; [by apply sets_up_object|].
  intros r. apply steps_ret.
Qed.

Lemma sets_up_nodes f g : sets_up (modify (λ s, set_nodes (f s) (g s) s)).
Proof. apply steps_modify. intros s. apply (startable_nodes _ HI). Qed.

Lemma sets_up_all l :
  (∀ path info v, (path, info, v) ∈ l → export_ok (Export path info v)) →
  sets_up (register_all l).
Proof.
  induction l as [|[[path info] v] l IH]; simpl; intros Hl; [apply steps_ret|].
  apply steps_bind; [apply sets_up_interface, Hl; set_solver|].
  intros [e|]; [apply steps_ret|]. apply IH. set_solver.
Qed.

Lemma lookup_interface_name node name info :
  lookup_interface node name = Some info → info.(i_name) = name.
Proof.
  unfold lookup_interface. intros Hi. first
    [ apply List.find_some in Hi as [_ Hi]; by apply text_eqb_spec in Hi
    | apply fmap_Some in Hi as ([j y] & Hi & ->); by apply list_find_Some in Hi as (_ & ? & _) ].
Qed.

Lemma public_allowed name :
  name ∈ public_interfaces → interface_allowed (portal_interface name) = true.
Proof.
  intros Hn. assert (Forall (λ n, interface_allowed (portal_interface n) = true) public_interfaces)
    as Hall by (repeat (constructor; [vm_compute; reflexivity|]); constructor).
  rewrite Forall_forall in Hall. by apply Hall.
Qed.

Lemma sets_up_described name : name ∈ public_interfaces → sets_up (register_described name).
Proof.
  intros Hn. unfold register_described. apply steps_bind; [by apply steps_perform|].
  intros [contents|]; [|apply steps_ret].
  destruct (g_dbus_node_info_new_for_xml contents) as [|node]; [apply steps_ret|].
  apply steps_bind; [apply sets_up_nodes|]. intros [].
  destruct (lookup_interface _ _) as [info|] eqn:Hi; [|apply steps_ret].
  apply sets_up_interface. unfold export_ok. simpl.
  rewrite (lookup_interface_name _ _ _ Hi). by apply public_allowed.
Qed.

Lemma sets_up_described_all names :
  names ⊆ public_interfaces → sets_up (register_all_described names).
Proof.
  induction names as [|name names IH]; simpl; intros Hn; [apply steps_ret|].
  apply steps_bind; [apply sets_up_described; set_solver|].
  intros [e|]; [apply steps_ret|]. apply IH. set_solver.
Qed.

Lemma extras_ok : Forall (λ '(path, info, v), export_ok (Export path info v)) extras.
Proof.
  unfold extras. repeat (constructor; [unfold export_ok, bridged; simpl; auto|]). constructor.
Qed.

Lemma sets_up_extras l :
  Forall (λ '(path, info, v), export_ok (Export path info v)) l → sets_up (register_extras l).
Proof.
  induction 1 as [|[[path info] v] l Hx Hl IH]; simpl; [apply steps_ret|].
  apply steps_bind; [apply sets_up_nodes|]. intros [].
  apply steps_bind; [by apply sets_up_interface|]. intros [e|]; [apply steps_ret|done].
Qed.

Lemma sets_up_introspect : sets_up introspect_host.
Proof.
  unfold introspect_host.
  apply steps_bind; [apply steps_call_sync; intros _; apply Portal_introspect|]. intros reply.
  walk; apply sets_up_nodes.
Qed.

Lemma sets_up_interfaces : sets_up register_interfaces.
Proof.
  unfold register_interfaces. apply steps_bind; [apply sets_up_introspect|].
  intros [e|metadata]; [apply steps_ret|]. apply steps_bind; [apply steps_get|]. intros s.
  apply steps_bind.
  { apply sets_up_all. intros path info v (x & [= -> -> ->] & Hx)%list_elem_of_fmap.
    apply list_elem_of_In, List.filter_In in Hx as [_ Hx]. exact Hx. }
  intros [e|]; [apply steps_ret|]. apply steps_bind.
  { destruct (negb metadata); [by apply sets_up_described_all|].
    destruct (lookup_interface _ _); [apply steps_ret|].
    apply sets_up_described. by apply (bool_decide_unpack _). }
  intros [e|]; [apply steps_ret|]. apply sets_up_extras, extras_ok.
Qed.

Lemma sets_up_accessibility : sets_up accessibility_init.
Proof.
  unfold accessibility_init. apply steps_bind; [apply asks_accessibility_proxy|].
  intros [e|]; [apply steps_ret|]. apply steps_bind; [apply sets_up_nodes|]. intros [].
  apply steps_bind; [by apply sets_up_interface|]. intros [e|]; [apply steps_ret|].
  unfold register_first_status. apply steps_bind; [apply asks_accessibility_mask|]. intros properties.
  by apply sets_up_interface.
Qed.

Lemma sets_up_start : sets_up start.
Proof.
  unfold start, register_host_identity. apply steps_bind.
  { apply steps_bind; [apply steps_get|]. intros s.
    apply steps_bind; [apply steps_call_sync; intros _; apply Portal_register|]. intros r. apply steps_ret. }
  intros _. apply steps_bind; [apply sets_up_interfaces|]. intros [e|]; [apply steps_ret|].
  apply steps_bind; [apply sets_up_accessibility|]. intros [e|]; [apply steps_ret|].
  apply steps_bind; [apply leaves_discover, (startable_robust _ HI)|]. intros []. apply steps_ret.
Qed.
End starting.

(** ** Reachable states *)

Section reachable.
Context `{Guest, Desktop}.

(** A system that a started frontend and its inputs lead to, with the clients
    that have gone by then, where every input comes when [allowed]. *)
Inductive reaches (allowed : gset text → frontend → input → Prop) :
    gset text → machine system event → Prop :=
  | Started space backend h w :
      start (World (System _ (empty_frontend space backend) h) []) = Returned None w →
      reaches allowed ∅ w
  | Dispatched gone w fuel i w' :
      reaches allowed gone w → allowed gone w.(now).(st) i →
      dispatch fuel i w = Returned tt w' → reaches allowed (gone_after i gone) w'.

(** The runs that the invariant is about: what a message bus can give, and no
    forwarded call is answered after its client has gone. *)
Definition timely_input (gone : gset text) (s : frontend) (i : input) : Prop :=
  bus_input gone i ∧ timely gone s i.

Definition timely_reachable : gset text → machine system event → Prop := reaches timely_input.

Lemma dispatch_safe gone w fuel i w' :
  Inv gone gone w.(now).(st) → bus_input gone i → timely gone w.(now).(st) i →
  dispatch fuel i w = Returned tt w' →
  Inv (gone_after i gone) (gone_after i gone) w'.(now).(st) ∧
  since (event_ok w.(now).(st)) w.(trace) w'.(trace).
Proof.
  intros Hw Hb Ht Hr. eapply (hoare_dispatch gone _ fuel i w.(trace)); [done..| |exact Hr].
  split; [done|apply since_refl].
Qed.

Lemma start_safe space backend h w :
  start (World (System _ (empty_frontend space backend) h) []) = Returned None w →
  Inv ∅ ∅ w.(now).(st) ∧ since plain [] w.(trace).
Proof.
  intros Hr. eapply (sets_up_start _ (Inv_startable ∅ ∅) []); [|exact Hr]. split; [apply Inv_beginning|apply since_refl].
Qed.

Lemma reachable_Inv gone w : timely_reachable gone w → Inv gone gone w.(now).(st).
Proof.
  induction 1 as [space backend h w Hr|gone w fuel i w' Hw IH [Hb Ht] Hr].
  - by eapply start_safe.
  - by eapply dispatch_safe.
Qed.

(** Whatever the inputs are, what was called is confined. *)
Lemma reaches_confined allowed gone w :
  reaches allowed gone w → exports_good w.(now).(st) ∧ Forall confined w.(trace).
Proof.
  induction 1 as [space backend h w Hr|gone w fuel i w' Hw [Hg Hf] Hi Hr].
  - eapply (sets_up_start _ good_startable []) in Hr as [Hg (evs & -> & Hevs)];
      [|split; [by intros n x Hn|apply since_refl]].
    rewrite app_nil_r. split; [done|]. eapply Forall_impl; [exact Hevs|]. apply plain_confined.
  - eapply (tame_dispatch fuel i w.(trace)) in Hr as [Hg' (evs & -> & Hevs)];
      [|split; [done|apply since_refl]].
    split; [done|]. by apply Forall_app.
Qed.
End reachable.

(** * The guest's portal frontend: names and tokens

    The object paths it makes up for its clients, the names it takes on the
    host's bus for players and tray icons, and the tokens of restored sessions:
    functions of their arguments. *)

(** ** Object paths *)

Lemma isalnum_path c : isalnum c = true → path_char c = true.
Proof.
  unfold isalnum, path_char. rewrite !orb_true_iff. intros [[H|H]|H]; auto.
Qed.

Lemma component_chars sender : Forall (λ c, path_char c = true) (sender_component sender).
Proof.
  unfold sender_component. apply Forall_map, Forall_true. intros c.
  destruct (isalnum c) eqn:Hc; simpl; [by apply isalnum_path|].
  by case_bool_decide; [subst|].
Qed.

Lemma component_nonempty sender : unique_name sender → sender_component sender ≠ [].
Proof. intros (rest & Hne & -> & _). by destruct rest. Qed.

Lemma token_chars t : valid_token (Some t) = true → t ≠ [] ∧ Forall (λ c, path_char c = true) t.
Proof.
  destruct t as [|c t]; [done|]. intros Ht. split; [done|].
  apply Forall_forall. intros d Hd. apply list_elem_of_In in Hd.
  unfold valid_token in Ht. rewrite forallb_forall in Ht.
  apply Ht, orb_prop in Hd as [Hd|Hd]; [by apply isalnum_path|].
  apply bool_decide_eq_true in Hd as ->. done.
Qed.

Lemma path_chars_no_slash (e : text) : Forall (λ c, path_char c = true) e → "/"%char ∉ e.
Proof. intros He Hin. rewrite Forall_forall in He. by specialize (He _ Hin). Qed.

Inductive kind := RequestKind | SessionKind.
Definition kind_text (k : kind) : text :=
  str match k with RequestKind => "request" | SessionKind => "session" end.

(** The paths of requests and sessions are valid object paths, and paths
    that are equal are of the same kind, the same client and the same token:
    no client can reach an object of another, nor choose a token whose path is
    another client's. *)
Theorem object_paths_apart `{Guest} (k k' : kind) (o o' t t' : text) :
  unique_name o → unique_name o' →
  valid_token (Some t) = true → valid_token (Some t') = true →
  g_variant_is_object_path (public_object_path (kind_text k) o t) = true ∧
  (public_object_path (kind_text k) o t = public_object_path (kind_text k') o' t' →
   k = k' ∧ o = o' ∧ t = t').
Proof.
  intros Ho Ho' [Htn Ht]%token_chars [_ Ht']%token_chars. split.
  - rewrite is_object_path_spec. right.
    exists (map str ["org"; "freedesktop"; "portal"; "desktop"]%string
              ++ [kind_text k; sender_component o; t]).
    split_and!; [done| |].
    + unfold public_object_path. destruct k; simpl; by rewrite app_nil_r.
    + repeat constructor; try done; try (by destruct k);
        [destruct k; repeat constructor|by apply component_nonempty|apply component_chars].
  - intros He. assert (k = k') as <-.
    { destruct k, k'; try done; vm_compute in He; discriminate. }
    assert (o = o') as <-.
    { destruct k; [apply (request_path_owner o o' _ Ho Ho' ltac:(by exists t)); by exists t'|].
      unfold public_object_path in He. do 4 apply app_inv_head in He.
      apply (request_path_owner o o' (public_object_path (str "request") o t)); [done..|by exists t|].
      exists t'. unfold public_object_path. by rewrite He. }
    split_and!; [done..|]. unfold public_object_path in He. by do 6 apply app_inv_head in He.
Qed.

(** ** Names on the host's bus *)

Definition name_char (c : ascii) : bool :=
  isalnum c || bool_decide (c = "_"%char) || bool_decide (c = "-"%char).

Definition name_element (e : text) : bool :=
  match e with
  | c :: _ => negb (is_digit c) && forallb name_char e
  | [] => false
  end.

(** A well-known name of a message bus: at most 255 characters, of two or more
    elements of [A-Za-z0-9_-] that do not start with a digit. *)
Definition bus_name (n : text) : bool :=
  (length n <=? 255)%nat && (2 <=? length (pieces "."%char n))%nat
    && forallb name_element (pieces "."%char n).

Lemma name_char_no_dot c : name_char c = true → c ≠ "."%char.
Proof. by intros Hc ->. Qed.

Lemma element_pieces e : name_element e = true → pieces "."%char e = [e].
Proof.
  intros He. apply pieces_single. destruct e as [|c e]; [done|].
  apply andb_prop in He as [_ He]. rewrite forallb_forall in He.
  intros Hin. apply list_elem_of_In in Hin. by apply He, name_char_no_dot in Hin.
Qed.

Lemma elements_join es :
  es ≠ [] → forallb name_element es = true → pieces "."%char (join "."%char es) = es.
Proof.
  induction es as [|e es IH]; intros Hne He; [done|]. simpl in He.
  apply andb_prop in He as [He Hes]. destruct es as [|e' es].
  - simpl. by apply element_pieces.
  - rewrite join_cons by done. rewrite pieces_app, element_pieces, IH by done. done.
Qed.

Lemma tolower_char c : name_char c = true → name_char (g_ascii_tolower c) = true.
Proof.
  intros Hc. unfold g_ascii_tolower. destruct ((65 <=? code c) && (code c <=? 90)) eqn:E; [|done].
  apply andb_prop in E as [E1%Z.leb_le E2%Z.leb_le].
  unfold name_char, isalnum. rewrite code_char, Z.mod_small by lia.
  rewrite (proj2 (Z.leb_le 97 _)), (proj2 (Z.leb_le _ 122)) by lia. by rewrite !orb_true_r.
Qed.

Lemma app_component_loop_ok value component separator :
  forallb name_char component = true → (length component ≤ 63)%nat →
  let e := app_component_loop value component separator in
  forallb name_char e = true ∧ (length e ≤ 63)%nat.
Proof.
  revert component separator. induction value as [|c value IH]; simpl; intros e s He Hl; [done|].
  destruct (length e <? 63)%nat eqn:E; [|done]. apply Nat.ltb_lt in E.
  assert (Hadd : ∀ d, name_char d = true →
    forallb name_char (e ++ [d]) = true ∧ (length (e ++ [d]) ≤ 63)%nat).
  { intros d Hd. rewrite forallb_app, length_app. simpl. rewrite He, Hd. split; [done|lia]. }
  destruct (isalnum c || _ || _) eqn:Hc.
  - destruct (Hadd (g_ascii_tolower c)); [by apply tolower_char|]. by apply IH.
  - destruct (negb s && _); [|by apply IH]. destruct (Hadd "-"%char); [done|]. by apply IH.
Qed.

Lemma skip_while_suffix p (s : text) : ∃ a, s = a ++ skip_while p s.
Proof.
  induction s as [|c s [a IH]]; simpl; [by exists []|]. destruct (p c); [|by exists []].
  exists (c :: a). simpl. by rewrite <- IH.
Qed.

Lemma mirror_app_component_ok value :
  let e := mirror_app_component value in
  e ≠ [] ∧ forallb name_char e = true ∧ (length e ≤ 63)%nat.
Proof.
  unfold mirror_app_component, trim_hyphens.
  destruct (app_component_loop_ok value [] false) as [Hc Hl]; [done|simpl; lia|].
  set (e := app_component_loop value [] false) in *.
  destruct (skip_while_suffix (λ c, bool_decide (c = "-"%char)) (rev e)) as [a Ha].
  destruct (rev (skip_while _ (rev e))) as [|c r] eqn:E; [by vm_compute; split_and!; [|done|lia]|].
  assert (e = (c :: r) ++ rev a) as He.
  { rewrite <- E, <- rev_app_distr, <- Ha. by rewrite rev_involutive. }
  rewrite He, forallb_app in Hc. apply andb_prop in Hc as [Hc _].
  rewrite He, length_app in Hl. split_and!; [done..|lia].
Qed.

Definition host_prefix (item : bool) : text :=
  if item then STATUS_ITEM_INTERFACE else str "org.mpris.MediaPlayer2".

Definition host_elements (space app : text) (item : bool) (serial : Z) : list text :=
  (if item then map str ["org"; "kde"; "StatusNotifierItem"]%string
   else map str ["org"; "mpris"; "MediaPlayer2"]%string)
    ++ [str "spaces"; str "space";
        (match space ++ str "-" ++ app with c :: _ => if is_digit c then str "s" else [] | [] => [] end)
          ++ space ++ str "-" ++ app;
        str (if item then "item" else "player"); str "i" ++ decimal serial].

Lemma host_name_elements space app item serial :
  host_name_of space (host_prefix item) app item serial =
  join "."%char (host_elements space app item serial).
Proof.
  unfold host_name_of, host_elements, host_prefix. destruct item; simpl; by rewrite <- !app_assoc.
Qed.

Lemma decimal_chars n : 0 ≤ n → forallb name_char (decimal n) = true.
Proof.
  intros Hn. destruct (decimal_value n Hn) as [_ Hd]. apply forallb_forall. intros c Hc.
  rewrite Forall_forall in Hd. apply list_elem_of_In in Hc. specialize (Hd c Hc).
  unfold name_char, isalnum. by rewrite Hd.
Qed.

Lemma space_element space app :
  forallb name_char space = true → forallb name_char app = true →
  name_element ((match space ++ str "-" ++ app with
                 | c :: _ => if is_digit c then str "s" else [] | [] => [] end)
                ++ space ++ str "-" ++ app) = true.
Proof.
  intros Hs Ha. assert (forallb name_char (space ++ str "-" ++ app) = true) as Hall.
  { by rewrite !forallb_app, Hs, Ha. }
  destruct (space ++ str "-" ++ app) as [|c rest] eqn:E; [by destruct space|].
  destruct (is_digit c) eqn:Hd; simpl; [done|]. rewrite Hd. exact Hall.
Qed.

Lemma host_elements_ok space app item serial :
  forallb name_char space = true → forallb name_char app = true → 0 ≤ serial →
  forallb name_element (host_elements space app item serial) = true.
Proof.
  intros Hs Ha Hn. unfold host_elements. rewrite forallb_app. apply andb_true_intro. split.
  - by destruct item.
  - cbn [forallb]. rewrite space_element by done. destruct item; simpl;
      by rewrite decimal_chars.
Qed.

(** The names of spaces: [SPACE_NAME_PATTERN] allows less. *)
Definition space_name_ok (space : text) : bool :=
  (length space <=? 63)%nat && forallb name_char space.

(** Whatever an application calls itself, the name that the frontend takes
    on the host's bus for its player or tray icon is a valid bus name, within
    the limit of 255 characters, in its space's part of the name space, and
    names with different serial numbers differ. *)
Theorem host_name_valid (space value : text) (item : bool) (serial : Z) :
  space_name_ok space = true → 0 ≤ serial < 2 ^ 32 →
  let name := host_name_of space (host_prefix item) (mirror_app_component value) item serial in
  bus_name name = true ∧
  has_prefix name (host_prefix item ++ str ".spaces.space.") = true ∧
  ∀ space' value' item' serial', space_name_ok space' = true → 0 ≤ serial' < 2 ^ 32 →
    host_name_of space' (host_prefix item') (mirror_app_component value') item' serial' = name →
    serial' = serial.
Proof.
  intros [Hl%Nat.leb_le Hs]%andb_prop Hn name.
  destruct (mirror_app_component_ok value) as (_ & Ha & Hal).
  pose proof (host_elements_ok space _ item serial Hs Ha ltac:(lia)) as Hok.
  assert (Hp : pieces "."%char name = host_elements space (mirror_app_component value) item serial).
  { unfold name. rewrite host_name_elements. by apply elements_join; [destruct item|]. }
  split_and!.
  - unfold bus_name. rewrite Hp, Hok, andb_true_r. apply andb_true_intro. split.
    + apply Nat.leb_le. unfold name, host_name_of, host_prefix.
      pose proof (length_decimal serial 10 ltac:(lia) ltac:(lia)) as Hd. rewrite !length_app.
      destruct (space ++ str "-" ++ _) as [|c rest]; [|destruct (is_digit c)];
        destruct item; simpl; lia.
    + by destruct item.
  - unfold name, host_name_of. apply has_prefix_spec. eexists. by rewrite <- !app_assoc.
  - intros space' value' item' serial' [_ Hs']%andb_prop Hn' He.
    destruct (mirror_app_component_ok value') as (_ & Ha' & _).
    pose proof (host_elements_ok space' _ item' serial' Hs' Ha' ltac:(lia)) as Hok'.
    rewrite <- He, host_name_elements, elements_join in Hp; [|by destruct item'|done].
    apply (f_equal (last (A := text))) in Hp. unfold host_elements in Hp.
    destruct item, item'; simpl in Hp; injection Hp as Hp;
      apply (f_equal digits_value) in Hp;
      by rewrite (proj1 (decimal_value serial' ltac:(lia))),
        (proj1 (decimal_value serial ltac:(lia))) in Hp.
Qed.

(** ** Restored sessions *)

Lemma dict_first_cons k v (d : vardict) key :
  dict_first ((k, v) :: d) key = if decide (k = key) then Some v else dict_first d key.
Proof. unfold dict_first. rewrite filter_cons. simpl. by case_decide. Qed.

Lemma dict_first_remove k (d : vardict) key :
  dict_first (dict_remove k d) key = if decide (k = key) then None else dict_first d key.
Proof.
  unfold dict_remove. induction d as [|[k' v] d IH]; [by case_decide|].
  rewrite filter_cons, dict_first_cons. simpl. destruct (decide (k' = k)) as [->|Hne].
  - rewrite decide_False by (intros Hk; by apply Hk). rewrite IH. by case_decide.
  - rewrite decide_True by done. rewrite dict_first_cons, IH. repeat case_decide; by subst.
Qed.

Lemma dict_first_app (a b : vardict) key :
  dict_first (a ++ b) key = match dict_first a key with Some v => Some v | None => dict_first b key end.
Proof.
  induction a as [|[k v] a IH]; [done|]. simpl. rewrite !dict_first_cons, IH. by case_decide.
Qed.

Lemma dict_first_insert k v (d : vardict) key :
  dict_first (dict_insert k v d) key = if decide (k = key) then Some v else dict_first d key.
Proof.
  unfold dict_insert. rewrite dict_first_app. fold (dict_remove k d).
  rewrite dict_first_remove, dict_first_cons. case_decide; [done|].
  by destruct (dict_first d key).
Qed.

(** The token of a restored session comes back to the host as it was, for a
    client that hands back the data it was given; and only such data: a token
    that the client made up itself is not sent to the host, nor is the data. *)
Theorem restore_token_round_trip (results options : vardict) (token : text) :
  lookup_string results (str "restore_token") = Some token →
  dict_first options (str "restore_data") =
    dict_first (portal_restore_results_to_backend results) (str "restore_data") →
  let host := portal_restore_options_to_host options in
  dict_first host (str "restore_token") = Some (VString token) ∧
  dict_first host (str "restore_data") = None ∧
  ∀ made_up, restore_token_from_data made_up = None →
    dict_first (portal_restore_options_to_host
      (dict_insert (str "restore_data") made_up options)) (str "restore_token") = None.
Proof.
  intros Ht Hd. unfold portal_restore_options_to_host. cbv zeta.
  rewrite Hd. unfold portal_restore_results_to_backend. rewrite Ht.
  rewrite !dict_first_insert. rewrite decide_True by done. simpl.
  rewrite !dict_first_insert, !dict_first_remove. split_and!; [done..|].
  intros made_up Hm. rewrite dict_first_insert, decide_True by done. simpl. rewrite Hm.
  by rewrite dict_first_remove.
Qed.
