(* ===== verification/FrontendProps.v ===== *)
(** * The guest's portal frontend: what its runs guarantee *)

From S2P Require Import Prelude Glib.
From S2P Require Export FrontendNames.

Section guarantees.
Context `{Guest, Desktop}.
Abbreviation world := (machine system event).


(** C5: Every call that a run makes on the host's bus is one of a fixed list:
    methods and properties of the portal's allowed interfaces, without starting
    it; [Close] of a request or session; the registration and introspection; the
    properties of the accessibility service; and calls to the integration broker,
    the screen saver, the notification daemon, the status notifier watcher, and
    of power management only what reads.  Nothing that a client sends makes it
    call anything else, in whatever order and state the inputs come.  What GIO
    asks the bus itself, to watch and own names, is not a call of the code. *)
Theorem frontend_calls_confined (allowed : gset text → frontend → input → Prop)
    (gone : gset text) (w : world) (c : bus_call) :
  reaches allowed gone w →
  (∃ a, Did (Sync c) a ∈ w.(trace)) ∨ Did (Send c) tt ∈ w.(trace) →
  c.(c_bus) = HostBus → host_call c.
Proof.
  intros [_ Hw]%reaches_confined Hc Hb. rewrite Forall_forall in Hw.
  destruct Hc as [[a Hc]|Hc]; by apply Hw in Hc; apply Hc.
Qed.

(** A signal for one client is about a request or session that is that
    client's, in the state before the input; the [Response] that ends a request
    is not sent for a request that its client has closed; and a signal about a
    request never goes to a client that has gone. *)
Theorem frontend_signals_owned (gone : gset text) (w w' : world) (fuel : nat) (i : input)
    (client path interface name : text) (values : list variant) (evs : list event) :
  timely_reachable gone w → bus_input gone i → timely gone w.(now).(st) i →
  dispatch fuel i w = Returned tt w' → w'.(trace) = evs ++ w.(trace) →
  Did (Emit GuestBus (Some client) path interface name values) tt ∈ evs →
  owned w.(now).(st) interface name path client ∧
  ∀ id, w.(now).(st).(requests_guest) !! path = Some id →
    ∃ r, w.(now).(st).(requests) !! id = Some r ∧ r.(r_owner) ∉ gone.
Proof.
  intros Hw Hb Ht Hr He Hin. apply reachable_Inv in Hw.
  destruct (dispatch_safe _ _ _ _ _ Hw Hb Ht Hr) as (_ & evs' & He' & Hevs).
  rewrite He in He'. apply app_inv_tail in He' as <-.
  rewrite Forall_forall in Hevs. destruct (Hevs _ Hin) as [[]|Hd]. split; [done|].
  intros id Hp. destruct (inv_request _ _ _ Hw _ _ Hp) as (r & n & Hr' & _ & _ & _ & _ & Hg & _).
  by exists r.
Qed.

(** *** Closing *)

(** What [Close] sends for a request. *)
Definition close_calls (path : text) (r : request) : list event :=
  match r.(r_local), r.(r_local_backend), r.(r_host_path) with
  | true, Some backend, _ =>
      [Did (Send (BusCall GuestBus backend path (str "org.freedesktop.impl.portal.Request")
         (str "Close") [] None false NoFds)) tt]
  | _, _, Some host =>
      [Did (Send (BusCall HostBus PORTAL_NAME host REQUEST_INTERFACE (str "Close") [] None true
         NoFds)) tt]
  | _, _, None => []
  end.

Lemma perform_send {A} (c : bus_call) (f : unit → M A) s h T :
  (perform (Send c) ≫= f) (World (System _ s h) T) =
  f tt (World (System _ s (answer (Send c) h).2) (Did (Send c) tt :: T)).
Proof.
  unfold perform, act, mbind, M_bind. simpl. by destruct (answer (Send c) h) as [[] h'].
Qed.

Lemma perform_last {A} (r : call A) s h T :
  ∃ h', (perform r) (World (System _ s h) T) =
    Returned (answer r h).1 (World (System _ s h') (Did r (answer r h).1 :: T)).
Proof.
  exists (answer r h).2. unfold perform, act. simpl. by destruct (answer r h) as [x h'].
Qed.

Lemma run_error i e s h T :
  ∃ w', perform (ReturnError i e) (World (System _ s h) T) = Returned tt w' ∧
    w'.(now).(st) = s ∧ w'.(trace) = Did (ReturnError i e) tt :: T.
Proof.
  destruct (perform_last (ReturnError i e) s h T) as [h' E].
  destruct (answer _ h).1. by exists (World (System _ s h') (Did (ReturnError i e) tt :: T)).
Qed.

Lemma run_return i values s h T :
  ∃ w', perform (Return i values None) (World (System _ s h) T) = Returned tt w' ∧
    w'.(now).(st) = s ∧ w'.(trace) = Did (Return i values None) tt :: T.
Proof.
  destruct (perform_last (Return i values None) s h T) as [h' E].
  destruct (answer _ h).1. by exists (World (System _ s h') (Did (Return i values None) tt :: T)).
Qed.

Lemma run_bind {A B} (m : M A) (f : A → M B) (w : world) :
  (m ≫= f) w = match m w with
               | Returned x w' => f x w' | OutOfFuel => OutOfFuel | Undefined w' => Undefined w'
               end.
Proof. done. Qed.

Lemma run_lookup table path s h T :
  lookup_request table path (World (System _ s h) T) =
  match table s !! path with
  | Some id =>
      match s.(requests) !! id with
      | Some r => Returned (Some (id, r)) (World (System _ s h) T)
      | None => Undefined (World (System _ s h) T)
      end
  | None => Returned None (World (System _ s h) T)
  end.
Proof.
  unfold lookup_request, the_request, get. rewrite run_bind. unfold act at 1. simpl.
  destruct (table s !! path) as [id|]; [|done]. rewrite !run_bind. unfold act at 1. simpl.
  by destruct (requests s !! id).
Qed.

Lemma run_cancel id r s h T :
  cancel id r (World (System _ s h) T) =
    Returned tt (World (System _ (set_requests (<[id := with_cancelled r]> s.(requests)) s) h) T).
Proof. done. Qed.

(** C37: [Close] of a request always returns and answers.  For the client that
    owns the request, the request is marked, the backend or the host is told,
    and nothing else changes; anybody else, and everybody when there is no such
    request, gets an error, and nothing happens. *)
Theorem close_request_exact (gone : gset text) (w : world) (sender path : text) (i : nat) :
  timely_reachable gone w →
  ∃ w', lifecycle_call sender path REQUEST_INTERFACE (str "Close") i w = Returned tt w' ∧
    match w.(now).(st).(requests_guest) !! path with
    | Some id => ∃ r, w.(now).(st).(requests) !! id = Some r ∧
        if decide (r.(r_owner) = sender) then
          w'.(now).(st) =
            set_requests (<[id := with_cancelled r]> w.(now).(st).(requests)) w.(now).(st) ∧
          w'.(trace) = Did (Return i [] None) tt :: close_calls path r ++ w.(trace)
        else w'.(now).(st) = w.(now).(st) ∧
          w'.(trace) = Did (ReturnError i ACCESS_DENIED) tt :: w.(trace)
    | None => w'.(now).(st) = w.(now).(st) ∧
        w'.(trace) = Did (ReturnError i ACCESS_DENIED) tt :: w.(trace)
    end.
Proof.
  intros Hw. apply reachable_Inv in Hw. destruct w as [[s h] T]. simpl in *.
  unfold lifecycle_call. rewrite !text_eqb_refl. cbn [negb].
  rewrite run_bind, run_lookup.
  destruct (requests_guest s !! path) as [id|] eqn:Hp; [|apply run_error].
  destruct (inv_request _ _ _ Hw _ _ Hp) as (r & n & Hr & _).
  rewrite Hr. destruct (decide (r_owner r = sender)) as [He|Hne].
  - rewrite (proj2 (text_eqb_spec _ _) He). cbn [negb].
    rewrite run_bind, run_cancel. unfold close_calls, close_host_object.
    destruct (r_local r) eqn:E1, (r_local_backend r) eqn:E2, (r_host_path r) eqn:E3;
      rewrite ?perform_send;
      edestruct run_return as (w' & E & Es & Et); exists w'; (split; [exact E|]);
      exists r; rewrite decide_True, Es, Et, E1, ?E2, ?E3 by done; by split_and!.
  - rewrite (proj2 (text_eqb_neq _ _) Hne). cbn [negb].
    destruct (run_error i ACCESS_DENIED s h T) as (w' & E & Es & Et). exists w'. split; [exact E|].
    exists r. rewrite decide_False by done. by split_and!.
Qed.
End guarantees.
