(* ===== verification/FrontendExamples.v ===== *)
(** * The guest's portal frontend: a small system for the examples

    One implementation of [Guest], on which the frontend's handlers can be run.
    The host has a portal with three interfaces, a process can be started or
    not, and no file can be opened. *)

From S2P Require Import Prelude Glib Sample.
From S2P Require Export FrontendProps.

(** ** Object paths *)

(** [started] says that the element that is being read has a character. *)
Fixpoint path_elements (started : bool) (p : text) : bool :=
  match p with
  | [] => started
  | c :: rest =>
      if path_char c then path_elements true rest
      else started && bool_decide (c = "/"%char) && path_elements false rest
  end.

Definition sample_object_path (p : text) : bool :=
  match p with
  | c :: rest => bool_decide (c = "/"%char) && (bool_decide (rest = []) || path_elements false rest)
  | [] => false
  end.

Abbreviation element := (λ e : text, e ≠ [] ∧ Forall (λ c, path_char c = true) e).
Abbreviation slashed := (map (λ e : text, str "/" ++ e)).

Lemma path_elements_sound p started :
  path_elements started p = true →
  ∃ e es, p = e ++ concat (slashed es) ∧ Forall (λ c, path_char c = true) e ∧
    (started = false → e ≠ []) ∧ Forall element es.
Proof.
  revert started. induction p as [|c p IH]; simpl; intros started Hp.
  { exists [], []. rewrite Hp. by repeat (split; [done|]). }
  destruct (path_char c) eqn:Hc.
  - destruct (IH _ Hp) as (e & es & -> & He & _ & Hes). exists (c :: e), es.
    split_and!; try done. by constructor.
  - apply andb_prop in Hp as [[-> Hs]%andb_prop Hp]. apply bool_decide_eq_true in Hs as ->.
    destruct (IH _ Hp) as (e & es & -> & He & Hne & Hes). exists [], (e :: es).
    split_and!; try done. constructor; [|done]. split; [by apply Hne|done].
Qed.

Lemma path_elements_run e rest started :
  Forall (λ c, path_char c = true) e → (started = false → e ≠ []) →
  path_elements started (e ++ rest) = path_elements true rest.
Proof.
  intros He. revert started. induction He as [|c e Hc He IH]; simpl; intros started Hs.
  - by destruct started; [|destruct Hs].
  - rewrite Hc. by apply IH.
Qed.

Lemma path_elements_complete es e started :
  Forall (λ c, path_char c = true) e → (started = false → e ≠ []) → Forall element es →
  path_elements started (e ++ concat (slashed es)) = true.
Proof.
  intros He Hs Hes. rewrite path_elements_run by done. clear e He started Hs.
  induction Hes as [|e es [Hne He] Hes IH]; simpl; [done|].
  by rewrite path_elements_run.
Qed.

Lemma sample_object_path_spec p : sample_object_path p = true ↔ object_path p.
Proof.
  unfold sample_object_path, object_path. split.
  - destruct p as [|c rest]; [done|].
    intros [->%bool_decide_eq_true [->%bool_decide_eq_true|Hp]%orb_prop]%andb_prop; [by left|].
    right. destruct (path_elements_sound _ _ Hp) as (e & es & -> & He & Hne & Hes).
    exists (e :: es). split_and!; [done|done|]. constructor; [|done]. split; [by apply Hne|done].
  - intros [->|([|e es] & Hne & -> & He)]; [done..|]. apply Forall_cons in He as [[Hn He] Hes].
    cbn [map concat app str sample_object_path]. apply orb_true_intro. right.
    by apply path_elements_complete.
Qed.

(** ** The system *)

Definition sample_interface (name : string) (methods : list method_info) : interface_info :=
  Interface (portal_interface (str name)) methods [str "version"].

Definition options_arg : arg_info := Arg (Some (str "options")) TVardict.
Definition handle_arg : arg_info := Arg (Some (str "handle")) TObject.

Definition sample_portal : node_info :=
  [sample_interface "Account"
     [Method (str "GetUserInformation") [Arg (Some (str "window")) TString; options_arg]
        [handle_arg]];
   sample_interface "Screenshot"
     [Method (str "Screenshot") [Arg (Some (str "parent_window")) TString; options_arg]
        [handle_arg]];
   sample_interface "FileChooser"
     [Method (str "OpenFile")
        [Arg (Some (str "parent_window")) TString; Arg (Some (str "title")) TString; options_arg]
        [handle_arg]];
   sample_interface "Usb"
     [Method (str "FinishAcquireDevices") [handle_arg; options_arg]
        [Arg (Some (str "results")) TVardict; Arg (Some (str "finished")) TBoolean]];
   Interface (str "org.freedesktop.portal.Unknown") [] []].

Definition sample_respond (c : bus_call) : gerror + list variant :=
  if text_eqb c.(c_method) (str "Register") then inr []
  else if text_eqb c.(c_method) (str "Introspect") then inr [VString (str "portal")]
  else if text_eqb c.(c_method) (str "GetConnectionUnixProcessID") then inr [VUint32 1000]
  else if text_eqb c.(c_method) (str "GetNameOwner") then inr [VString (str ":1.7")]
  else inl FAILED.

Definition sample_call (starts : bool) {A} (r : call A) (uuids : nat) : A * nat :=
  match r in call A return A * nat with
  | Uuid => (str "u-" ++ replicate uuids "0"%char, S uuids)
  | Sync c => (sample_respond c, uuids)
  | Spawn _ _ => (if starts then inr tt else inl (Reported (str "spawn")), uuids)
  | Send _ => (tt, uuids)
  | Emit _ _ _ _ _ _ => (tt, uuids)
  | Return _ _ _ => (tt, uuids)
  | ReturnError _ _ => (tt, uuids)
  | HasFds => (false, uuids)
  | FdGet _ => (inl NOT_FOUND, uuids)
  | FdAppend _ => (None, uuids)
  | Contents _ => (None, uuids)
  | ReadLink _ => (inl NOT_FOUND, uuids)
  | Open _ _ => (inl 2, uuids)
  | Close _ => (inr tt, uuids)
  | Pidfd _ _ => (inl 3, uuids)
  | SeekEnd _ => (inl 9, uuids)
  | SeekStart _ => (inl 9, uuids)
  | MkdirParents _ => (inr tt, uuids)
  | Read _ _ => (inl 9, uuids)
  | Write _ _ => (inl 9, uuids)
  | Unlink _ => (tt, uuids)
  | TestFile _ _ => (false, uuids)
  | ListDir _ => (None, uuids)
  | QueryInfo _ => (None, uuids)
  | Defer _ => (tt, uuids)
  | OwnName _ _ => (tt, uuids)
  | UnownName _ _ => (tt, uuids)
  | LinkMode _ => (None, uuids)
  | NewProxy _ _ _ => (None, uuids)
  | CachedProperty _ => (None, uuids)
  end.

#[export] Program Instance sample_guest (starts : bool) : Guest := {|
  host := nat;
  answer := @sample_call starts;
  getenv name :=
    if text_eqb name (str "SPACES_INTEGRATION_BROKER") then Some (str "org.anatase.Spaces") else None;
  getuid := 1000;
  g_uri_unescape_string s := Some s;
  g_variant_is_object_path := sample_object_path;
  g_dbus_is_name _ := true;
  g_shell_quote s := str "'" ++ s ++ str "'";
  g_path_get_basename := after_last_dot;
  g_dbus_node_info_new_for_xml _ := inr sample_portal;
  g_dbus_is_member_name _ := true;
  g_get_user_data_dir := str "/home/u/.local/share";
  g_get_system_data_dirs := [str "/usr/share"];
|}.
Next Obligation. intros _ p. apply sample_object_path_spec. Qed.
Next Obligation. done. Qed.
Next Obligation. done. Qed.

(** * The guest's portal frontend: runs

    Runs of the frontend on the small system, for the witnesses of its theorems
    and for what its code does outside of their hypotheses. *)

(** ** Deciding the conditions on inputs *)

Definition unique_shape (n : text) : Prop :=
  match n with
  | c :: rest => rest ≠ [] ∧ c = ":"%char ∧ Forall (λ c, is_digit c = true ∨ c = "."%char) rest
  | [] => False
  end.

Lemma unique_shape_spec n : unique_shape n ↔ unique_name n.
Proof.
  split.
  - destruct n as [|c rest]; [done|]. intros (Hne & -> & Hr). by exists rest.
  - by intros (rest & Hne & -> & Hr).
Qed.

#[export] Instance unique_shape_dec n : Decision (unique_shape n).
Proof. destruct n; simpl; apply _. Defined.

#[export] Instance unique_name_dec n : Decision (unique_name n).
Proof. refine (cast_if (decide (unique_shape n))); by rewrite <- unique_shape_spec. Defined.

#[export] Instance bus_input_dec gone i : Decision (bus_input gone i).
Proof. destruct i; simpl; apply _. Defined.

#[export] Instance timely_dec gone s i : Decision (timely gone s i).
Proof.
  destruct i; simpl; try apply _. destruct (pending s !! n) as [[c []]|]; apply _.
Defined.

(** ** Runs that satisfy them *)

Section visiting.
Context `{Guest, Desktop}.

Fixpoint visit (l : list input) (gone : gset text) (w : machine system event) :
    option (gset text * machine system event) :=
  match l with
  | [] => Some (gone, w)
  | i :: l =>
      if decide (bus_input gone i ∧ timely gone w.(now).(st) i) then
        match dispatch 10 i w with
        | Returned _ w' => visit l (gone_after i gone) w'
        | _ => None
        end
      else None
  end.

Lemma visit_reachable l gone w g w' :
  timely_reachable gone w → visit l gone w = Some (g, w') → timely_reachable g w'.
Proof.
  revert gone w. induction l as [|i l IH]; simpl; intros gone w Hw Hv; [by simplify_eq|].
  case_decide as Hi; [|done]. destruct Hi as [Hb Ht].
  destruct (dispatch 10 i w) as [[] w1| |] eqn:E; try done.
  eapply IH; [|exact Hv]. by eapply Dispatched.
Qed.

Definition begin (backend : option text) (h : host) : machine system event :=
  World (System _ (empty_frontend (str "dev") backend) h) [].

Definition visited (backend : option text) (h : host) (l : list input) : option (gset text * machine system event) :=
  match start (begin backend h) with
  | Returned None w => visit l ∅ w
  | _ => None
  end.

(** Where a run ends. *)
Definition ends (backend : option text) (h : host) (l : list input) : machine system event :=
  match visited backend h l with Some (_, w) => w | None => begin backend h end.
Definition ends_gone (backend : option text) (h : host) (l : list input) : gset text :=
  match visited backend h l with Some (gone, _) => gone | None => ∅ end.

Lemma ends_reachable backend h l :
  match visited backend h l with Some _ => true | None => false end = true →
  timely_reachable (ends_gone backend h l) (ends backend h l).
Proof.
  unfold ends, ends_gone, visited.
  destruct (start (begin backend h)) as [[e|] w| |] eqn:E; [done| |done..].
  destruct (visit l ∅ w) as [[g w']|] eqn:Hv; [|done]. intros _.
  eapply visit_reachable; [|exact Hv]. by eapply Started.
Qed.
End visiting.

Abbreviation options := (λ token : string, VDict [(str "handle_token", VString (str token))]).

(** *** Inputs of one client *)

Definition account (token : string) : input :=
  IMethod (str ":1.7") PORTAL_PATH (portal_interface (str "Account")) (str "GetUserInformation")
    [VString []; options token].
Definition screenshot (token : string) : input :=
  IMethod (str ":1.7") PORTAL_PATH (portal_interface (str "Screenshot")) (str "Screenshot")
    [VString []; options token].
Definition choose_file (token : string) : input :=
  IMethod (str ":1.7") PORTAL_PATH (portal_interface (str "FileChooser")) (str "OpenFile")
    [VString []; VString []; options token].
Definition client_leaves : input := INameChanged (str ":1.7") (str ":1.7") [].
Definition host_request : text := str "/org/freedesktop/portal/desktop/request/1_2/t".
Definition host_response : input :=
  IHostSignal host_request REQUEST_INTERFACE (str "Response") [VUint32 0; VDict []].

Definition runs (starts : bool) (l : list input) : ending (system (H := sample_guest starts)) event unit :=
  (start (H := sample_guest starts) ≫= λ _, run_inputs (H := sample_guest starts) 10 l)
    (begin (H := sample_guest starts) (Some (str "backend")) 0%nat).

Definition is_undefined {S E A} (e : ending S E A) : bool :=
  match e with Undefined _ => true | _ => false end.

Definition state_after (starts : bool) (l : list input) : option frontend :=
  match runs starts l with Returned _ w => Some w.(now).(st) | _ => None end.

(** *** Outside of the invariant *)

(** The reply of the file chooser's backend reads the request that was freed
    when its client left. *)
Example chooser_reply_after_client :
  is_undefined (runs true [choose_file "k"; client_leaves;
                           IReply 15 (inr [VUint32 0; VDict []], None)]) = true.
Proof. vm_compute. reflexivity. Qed.

(** A forwarded call that is answered after its client has left registers a
    request of that client.  Here an earlier pending call removes it by its
    path, and the host's table keeps a pointer to it. *)
Example late_request_dangles :
  is_undefined (runs true [screenshot "t"; account "t"; client_leaves;
                           IReply 17 (inr [VObject host_request], None);
                           IReply 15 (inl FAILED, None); host_response]) = true.
Proof. vm_compute. reflexivity. Qed.

(** When two processes cannot be started for a call of the file manager, the
    error of the first is freed twice. *)
Example file_manager_double_free :
  is_undefined (runs false [IMethod (str ":1.7") FILE_MANAGER_PATH FILE_MANAGER_NAME
     (str "ShowFolders") [VStrings [str "file:///a"; str "file:///b"];
                          VString []]]) = true.
Proof. vm_compute. reflexivity. Qed.

(** Finishing the device dialog with the path of a request that the frontend
    serves itself looks the host's table up for a path that is not there. *)
Example finish_local_request :
  is_undefined (runs true [screenshot "t";
     IMethod (str ":1.7") PORTAL_PATH (portal_interface (str "Usb")) (str "FinishAcquireDevices")
       [VObject (public_object_path (str "request") (str ":1.7") (str "t")); VDict []];
     IReply 17 (inr [VDict []; VBoolean true], None)]) = true.
Proof. vm_compute. reflexivity. Qed.

(** A player's mirror goes when its connection gives up another name. *)
Example unrelated_name_removes_mirror :
  let player := INameChanged (str "org.mpris.MediaPlayer2.p") [] (str ":1.7") in
  (size ∘ mirrors ∘ mirroring <$> state_after true [player; ISource 12]) = Some 1%nat ∧
  (size ∘ mirrors ∘ mirroring <$>
     state_after true [player; ISource 12; INameChanged (str "org.other") (str ":1.7") []])
    = Some 0%nat.
Proof. vm_compute. split; reflexivity. Qed.

(** ** Witnesses *)

Lemma object_paths_apart_witness :
  unique_name (str ":1.7") ∧
  g_variant_is_object_path (Guest := sample_guest true)
    (public_object_path (kind_text RequestKind) (str ":1.7") (str "t")) = true.
Proof.
  assert (Hu : unique_name (str ":1.7")) by (apply (bool_decide_unpack (unique_name (str ":1.7"))); vm_compute; exact I).
  split; [exact Hu|].
  exact (proj1 (object_paths_apart (H := sample_guest true) RequestKind RequestKind (str ":1.7")
    (str ":1.7") (str "t") (str "t") Hu Hu eq_refl eq_refl)).
Defined.

Lemma host_name_valid_witness :
  space_name_ok (str "dev") = true ∧
  bus_name (host_name_of (str "dev") (host_prefix true) (mirror_app_component (str "Some App!"))
    true 7) = true.
Proof.
  split; [reflexivity|].
  exact (proj1 (host_name_valid (str "dev") (str "Some App!") true 7 eq_refl ltac:(lia))).
Defined.

Lemma restore_token_round_trip_witness :
  let results := [(str "restore_token", VString (str "abc"))] in
  dict_first (portal_restore_options_to_host (portal_restore_results_to_backend results))
    (str "restore_token") = Some (VString (str "abc")).
Proof.
  exact (proj1 (restore_token_round_trip [(str "restore_token", VString (str "abc"))]
    (portal_restore_results_to_backend [(str "restore_token", VString (str "abc"))])
    (str "abc") eq_refl eq_refl)).
Defined.

(** A request of the host's portal. *)
Abbreviation served := [account "t"; IReply 13 (inr [VObject host_request], None)].
Abbreviation with_request := (ends (H := sample_guest true) None 0%nat served).
Abbreviation its_clients := (ends_gone (H := sample_guest true) None 0%nat served).


Abbreviation forwarded_call := (BusCall HostBus PORTAL_NAME PORTAL_PATH
  (portal_interface (str "Account")) (str "GetUserInformation")
  [VString []; VDict [(str "handle_token", VString (str "u_"))]] (Some [TObject]) true GuestFds).

Lemma frontend_calls_confined_witness :
  Did (Send forwarded_call) tt ∈ with_request.(trace) ∧ host_call (H := sample_guest true) forwarded_call.
Proof.
  assert (Hr : timely_reachable its_clients with_request)
    by (apply ends_reachable; vm_compute; reflexivity).
  assert (Hin : Did (Send forwarded_call) tt ∈ with_request.(trace))
    by (apply (list_elem_of_lookup_2 _ 1); vm_compute; reflexivity).
  split; [exact Hin|].
  exact (frontend_calls_confined _ _ _ forwarded_call Hr (or_intror Hin) eq_refl).
Defined.

Abbreviation responded := (dispatch (H := sample_guest true) 10 host_response with_request).
Abbreviation after_response := (world_after with_request.(now) responded).
Abbreviation response_event := (Did (Emit GuestBus (Some (str ":1.7"))
  (public_object_path (str "request") (str ":1.7") (str "t")) REQUEST_INTERFACE (str "Response")
  [VUint32 0; VDict []]) tt).

Lemma frontend_signals_owned_witness :
  owned with_request.(now).(st) REQUEST_INTERFACE (str "Response")
    (public_object_path (str "request") (str ":1.7") (str "t")) (str ":1.7").
Proof.
  assert (Hr : timely_reachable its_clients with_request)
    by (apply ends_reachable; vm_compute; reflexivity).
  exact (proj1 (frontend_signals_owned its_clients with_request after_response 10 host_response
    (str ":1.7") (public_object_path (str "request") (str ":1.7") (str "t")) REQUEST_INTERFACE
    (str "Response") [VUint32 0; VDict []] [response_event] Hr I I
    ltac:(apply returned_world; vm_compute; reflexivity) ltac:(vm_compute; reflexivity)
    ltac:(apply list_elem_of_here))).
Defined.

Lemma close_request_exact_witness :
  timely_reachable (H := sample_guest true) its_clients with_request ∧
  ∃ w', lifecycle_call (str ":1.7") (public_object_path (str "request") (str ":1.7") (str "t"))
    REQUEST_INTERFACE (str "Close") 99 with_request = Returned tt w'.
Proof.
  assert (Hr : timely_reachable its_clients with_request)
    by (apply ends_reachable; vm_compute; reflexivity).
  split; [exact Hr|].
  destruct (close_request_exact _ _ (str ":1.7")
    (public_object_path (str "request") (str ":1.7") (str "t")) 99 Hr) as (w' & E & _).
  by exists w'.
Defined.
