(* ===== verification/Json.v ===== *)
(** * JSON documents

    What the computer-use programs read and build with yyjson, a third-party
    library under [native/vendor/]: values, the accessors of [yyjson.h] they
    use, and the helpers around them in [native/scu_mcp.h].  Reading a text and
    writing one are the class [Json_text].

    A string value may hold a NUL byte, and a C string ends at the first one:
    [yyjson_get_str] gives what the string functions of C see. *)

From S2P Require Import Prelude.

(** ** Numbers *)

(** A finite double, [±m·2^e].  A text never yields another one: yyjson takes a
    number that does not fit for an error. *)
Record double := Double { negative : bool; mantissa : Z; exponent : Z }.

#[export] Instance double_eq_dec : EqDecision double.
Proof. solve_decision. Defined.

Definition signed (d : double) : Z := if d.(negative) then - d.(mantissa) else d.(mantissa).

(** The order of two doubles, after scaling both to the lower exponent. *)
Definition double_compare (a b : double) : comparison :=
  let e := Z.min a.(exponent) b.(exponent) in
  Z.compare (signed a * 2 ^ (a.(exponent) - e)) (signed b * 2 ^ (b.(exponent) - e)).

Definition double_lt (a b : double) : bool :=
  match double_compare a b with Lt => true | _ => false end.
Definition double_gt (a b : double) : bool := double_lt b a.

(** The conversion of an integer: 53 bits, ties to even. *)
Definition double_of_int (z : Z) : double :=
  let n := Z.abs z in
  let drop := Z.max 0 (Z.log2 n - 52) in
  let kept := Z.shiftr n drop in
  let rest := n - Z.shiftl kept drop in
  let half := if drop =? 0 then 1 else 2 ^ (drop - 1) in
  let up := (half <? rest) || ((half =? rest) && Z.odd kept) in
  Double (z <? 0) (if up then kept + 1 else kept) drop.

Lemma double_of_small_int z :
  Z.abs z < 2 ^ 53 → double_of_int z = Double (z <? 0) (Z.abs z) 0.
Proof.
  intros Hz. unfold double_of_int.
  assert (Hlog : Z.log2 (Z.abs z) ≤ 52).
  { destruct (decide (Z.abs z = 0)) as [->|]; [done|].
    assert (Z.log2 (Z.abs z) < 53) by (apply Z.log2_lt_pow2; lia). lia. }
  rewrite Z.max_l by lia. rewrite Z.shiftr_0_r, Z.shiftl_0_r, Z.sub_diag. done.
Qed.

Lemma log2_bit z : 0 < z → 2 ^ Z.log2 z ≤ z < 2 ^ (Z.log2 z + 1).
Proof. intros. pose proof (Z.log2_spec z ltac:(lia)). unfold Z.succ in *. lia. Qed.

(** A large integer stays as large. *)
Lemma double_of_large_int z :
  2 ^ 53 ≤ Z.abs z →
  ∃ m e, double_of_int z = Double (z <? 0) m e ∧ 0 ≤ e ∧ 2 ^ 53 ≤ m * 2 ^ e.
Proof.
  intros Hz. unfold double_of_int.
  set (n := Z.abs z) in *. set (drop := Z.max 0 (Z.log2 n - 52)).
  assert (Hlog : 53 ≤ Z.log2 n) by (change 53 with (Z.log2 (2 ^ 53)); by apply Z.log2_le_mono).
  assert (Hkept : 2 ^ 53 ≤ Z.shiftr n drop * 2 ^ drop).
  { rewrite Z.shiftr_div_pow2 by lia.
    assert (Hd : drop = Z.log2 n - 52) by lia.
    pose proof (log2_bit n ltac:(lia)) as [Hl _].
    assert (2 ^ 52 ≤ n / 2 ^ drop).
    { apply Z.div_le_lower_bound; [lia|]. rewrite <- Z.pow_add_r by lia.
      by replace (drop + 52) with (Z.log2 n) by lia. }
    assert (2 ≤ 2 ^ drop) by (change 2 with (2 ^ 1) at 1; apply Z.pow_le_mono_r; lia). nia. }
  eexists _, drop. split; [done|]. split; [lia|].
  pose proof (Z.pow_nonneg 2 drop ltac:(lia)). case_match; nia.
Qed.

(** An integer compares with a small one as it is. *)
Lemma double_compare_small a b :
  Z.abs b < 2 ^ 53 → double_compare (double_of_int a) (double_of_int b) = Z.compare a b.
Proof.
  intros Hb. rewrite (double_of_small_int b) by done.
  destruct (decide (Z.abs a < 2 ^ 53)) as [Ha|Ha].
  - rewrite double_of_small_int by done. unfold double_compare, signed. cbn [negative mantissa exponent].
    change (0 - Z.min 0 0) with 0. rewrite Z.pow_0_r, !Z.mul_1_r.
    f_equal; [destruct (Z.ltb_spec a 0)|destruct (Z.ltb_spec b 0)]; lia.
  - destruct (double_of_large_int a) as (m & e & -> & He & Hm); [lia|].
    unfold double_compare, signed. cbn [negative mantissa exponent].
    rewrite Z.min_r by lia. rewrite Z.sub_diag, Z.sub_0_r, Z.pow_0_r, Z.mul_1_r.
    destruct (Z.ltb_spec a 0), (Z.ltb_spec b 0), (Z.compare_spec a b); subst; try lia;
      first [apply Z.compare_lt_iff|apply Z.compare_gt_iff]; lia.
Qed.

Lemma double_compare_antisym a b : double_compare b a = CompOpp (double_compare a b).
Proof. unfold double_compare. rewrite Z.min_comm. apply Z.compare_antisym. Qed.

Lemma double_lt_small a b :
  Z.abs b < 2 ^ 53 → double_lt (double_of_int a) (double_of_int b) = (a <? b).
Proof. intros Hb. unfold double_lt. by rewrite double_compare_small. Qed.

Lemma double_gt_small a b :
  Z.abs b < 2 ^ 53 → double_gt (double_of_int a) (double_of_int b) = (b <? a).
Proof.
  intros Hb. unfold double_gt, double_lt. rewrite double_compare_antisym, double_compare_small by done.
  rewrite Z.ltb_antisym. unfold Z.leb. by destruct (a ?= b).
Qed.

(** ** Values *)

#[local] Unset Elimination Schemes.
Inductive json :=
  | JNull
  | JBool (b : bool)
  | JUint (n : Z)
  | JSint (n : Z)
  | JReal (d : double)
  | JString (s : text)
  | JArray (elements : list json)
  | JObject (members : list (text * json)).
#[local] Set Elimination Schemes.

Section induction.
Variable P : json → Prop.
Hypotheses (Pnull : P JNull) (Pbool : ∀ b, P (JBool b)) (Puint : ∀ n, P (JUint n))
  (Psint : ∀ n, P (JSint n)) (Preal : ∀ d, P (JReal d)) (Pstring : ∀ s, P (JString s))
  (Parray : ∀ l, Forall P l → P (JArray l))
  (Pobject : ∀ l, Forall (λ m, P m.2) l → P (JObject l)).

Fixpoint json_ind (v : json) : P v :=
  match v with
  | JNull => Pnull
  | JBool b => Pbool b
  | JUint n => Puint n
  | JSint n => Psint n
  | JReal d => Preal d
  | JString s => Pstring s
  | JArray l => Parray l
      ((fix elements l := match l return Forall P l with
        | [] => List.Forall_nil _
        | v :: l => List.Forall_cons _ _ _ (json_ind v) (elements l)
        end) l)
  | JObject l => Pobject l
      ((fix members l := match l return Forall (λ m, P m.2) l with
        | [] => List.Forall_nil _
        | (k, v) :: l => List.Forall_cons (λ m, P m.2) (k, v) _ (json_ind v) (members l)
        end) l)
  end.
End induction.

Definition json_dec : ∀ v w : json, {v = w} + {v ≠ w}.
Proof.
  fix json_dec 1. intros v w.
  destruct v as [|b|n|n|d|s|l|l], w as [|b'|n'|n'|d'|s'|l'|l'];
    try (right; discriminate); try (by left).
  - destruct (decide (b = b')); [left|right]; congruence.
  - destruct (decide (n = n')); [left|right]; congruence.
  - destruct (decide (n = n')); [left|right]; congruence.
  - destruct (decide (d = d')); [left|right]; congruence.
  - destruct (decide (s = s')); [left|right]; congruence.
  - assert (Hl : {l = l'} + {l ≠ l'}).
    { revert l'. induction l as [|x l IH]; intros [|y l']; [by left|by right|by right|].
      destruct (json_dec x y); [|right; congruence].
      destruct (IH l'); [left|right]; congruence. }
    destruct Hl; [left|right]; congruence.
  - assert (Hl : {l = l'} + {l ≠ l'}).
    { revert l'. induction l as [|[k x] l IH]; intros [|[k' y] l']; [by left|by right|by right|].
      destruct (json_dec x y); [|right; congruence].
      destruct (decide (k = k')); [|right; congruence].
      destruct (IH l'); [left|right]; congruence. }
    destruct Hl; [left|right]; congruence.
Defined.

#[export] Instance json_eq_dec : EqDecision json := json_dec.

(** ** Accessors *)

(** A pointer to a value is [NULL] or a value. *)
Abbreviation value := (option json).

Implicit Types v w : value.
Implicit Types k : text.

Definition yyjson_is_null v : bool := if v is Some JNull then true else false.
Definition yyjson_is_false v : bool := if v is Some (JBool false) then true else false.
Definition yyjson_is_true v : bool := if v is Some (JBool true) then true else false.
Definition yyjson_is_bool v : bool := if v is Some (JBool _) then true else false.
Definition yyjson_is_int v : bool :=
  match v with Some (JUint _) | Some (JSint _) => true | _ => false end.
Definition yyjson_is_num v : bool :=
  match v with Some (JUint _) | Some (JSint _) | Some (JReal _) => true | _ => false end.
Definition yyjson_is_str v : bool := if v is Some (JString _) then true else false.
Definition yyjson_is_arr v : bool := if v is Some (JArray _) then true else false.
Definition yyjson_is_obj v : bool := if v is Some (JObject _) then true else false.

(** The string as C sees it, and its whole length. *)
Definition yyjson_get_str v : option text :=
  if v is Some (JString s) then Some (cstring s) else None.
Definition yyjson_get_len v : Z := if v is Some (JString s) then Z.of_nat (length s) else 0.

Definition yyjson_get_num v : double :=
  match v with
  | Some (JUint n) | Some (JSint n) => double_of_int n
  | Some (JReal d) => d
  | _ => double_of_int 0
  end.

(** [yyjson_get_sint]: the bits of an integer, 0 for anything else. *)
Definition yyjson_get_sint v : Z :=
  match v with
  | Some (JUint n) => if decide (n < 2 ^ 63) then n else n - 2 ^ 64
  | Some (JSint n) => n
  | _ => 0
  end.

Definition elements v : list json := if v is Some (JArray l) then l else [].
Definition members v : list (text * json) := if v is Some (JObject l) then l else [].

(** The first member with a key. *)
Fixpoint lookup_member (l : list (text * json)) k : value :=
  match l with
  | [] => None
  | (k', x) :: l => if text_eqb k' k then Some x else lookup_member l k
  end.

Definition yyjson_obj_get v (key : option text) : value :=
  if key is Some k then lookup_member (members v) k else None.

(** The first member with the key gets the value, the others are removed; a new
    key goes to the end. *)
Fixpoint remove_members (l : list (text * json)) k : list (text * json) :=
  match l with
  | [] => []
  | (k', x) :: l => if text_eqb k' k then remove_members l k else (k', x) :: remove_members l k
  end.

Fixpoint put_member (l : list (text * json)) k (x : json) : list (text * json) :=
  match l with
  | [] => [(k, x)]
  | (k', y) :: l =>
      if text_eqb k' k then (k', x) :: remove_members l k else (k', y) :: put_member l k x
  end.

(** [unsafe_yyjson_equals]. *)
Definition number_equals (a b : json) : bool :=
  match a, b with
  | JUint m, JUint n | JSint m, JSint n => m =? n
  | JSint m, JUint n => (0 <=? m) && (m =? n)
  | JUint m, JSint n => (0 <=? n) && (m =? n)
  | JReal c, JReal d =>
      Bool.eqb c.(negative) d.(negative) &&
      match double_compare c d with Eq => true | _ => false end
  | _, _ => false
  end.

(** [yyjson_obj_iter_getn]: the search for a key starts where the last one
    ended, and wraps around. *)
Fixpoint index_of (l : list (text * json)) k : option (nat * json) :=
  match l with
  | [] => None
  | (k', x) :: l =>
      if text_eqb k' k then Some (O, x) else
      if index_of l k is Some (i, y) then Some (S i, y) else None
  end.

Definition iter_get (m : list (text * json)) (from : nat) k : option (nat * json) :=
  let from := if (from =? length m)%nat then O else from in
  if index_of (drop from m ++ take from m) k is Some (i, x)
  then Some (S ((from + i) mod length m), x)
  else None.

Fixpoint json_equals (a b : json) : bool :=
  match a, b with
  | JNull, JNull => true
  | JBool c, JBool d => Bool.eqb c d
  | JString s, JString t => text_eqb s t
  | JArray l, JArray m =>
      (fix both (l m : list json) := match l, m with
       | [], [] => true
       | x :: l, y :: m => json_equals x y && both l m
       | _, _ => false
       end) l m
  | JObject l, JObject m =>
      (length l =? length m)%nat &&
      (fix all (l : list (text * json)) (from : nat) := match l with
       | [] => true
       | (k, x) :: l =>
           match iter_get m from k with
           | Some (from, y) => json_equals x y && all l from
           | None => false
           end
       end) l O
  | _, _ => number_equals a b
  end.

Definition yyjson_equals v w : bool :=
  match v, w with Some a, Some b => json_equals a b | _, _ => false end.

(** ** Helpers of [scu_mcp.h] *)

Definition json_member v k : value := yyjson_obj_get v (Some k).
Definition json_string v k : option text := yyjson_get_str (json_member v k).
Definition json_number v k (fallback : double) : double :=
  let n := json_member v k in if yyjson_is_num n then yyjson_get_num n else fallback.
Definition json_boolean v k : bool := yyjson_is_true (json_member v k).

Definition result_object : json := JObject [].
Definition result_array : json := JArray [].

Definition result_member (o : json) k (x : json) : json :=
  if o is JObject l then JObject (put_member l (cstring k) x) else o.
Definition result_string (o : json) k (s : option text) : json :=
  result_member o k (if s is Some s then JString (cstring s) else JNull).
Definition result_integer (o : json) k (n : Z) : json := result_member o k (JSint n).
Definition result_number (o : json) k (d : double) : json := result_member o k (JReal d).
Definition result_boolean (o : json) k (b : bool) : json := result_member o k (JBool b).
Definition result_append (a x : json) : json :=
  if a is JArray l then JArray (l ++ [x]) else a.

(** ** Texts *)

(** Reading and writing, with the flags 0. *)
Class Json_text := {
  yyjson_read : text → option json;
  yyjson_write : json → option text;
}.
