(* ===== verification/Catalog.v ===== *)
(** * The tools of the computer-use server

    The catalog of [native/scu_mcp.h]: the arguments each tool takes, the JSON
    schema that a client is shown, and the check of a client's arguments against
    that same schema. *)

From S2P Require Import Prelude Json.

(** ** The texts of the catalog *)

Definition desktop_locked_warning : text := str
  "The screen is locked. Vision tools are unavailable. You need to use the accesibility tool or ask the user to unlock.".

Definition server_instructions : text :=
  str "Computer use MCP server. Control the host desktop: screenshots, mouse, " ++
  str "keyboard, and accessibility. Use `status` to inspect the desktop, " ++
  str "`vision` for pointer/keyboard actions and screenshots, and `accessibility` " ++
  str "for element actions and window trees. To launch an app, use " ++
  str "search_applications/launch_application.".

Definition no_vision_instructions : text :=
  str "Computer use MCP server. Control the host desktop through accessibility. " ++
  str "Start with status for canvas metadata and window IDs, " ++
  str "then use accessibility for element actions and window trees. " ++
  str "To launch an app, use search_applications/launch_application. " ++
  str "This MCP has no vision support.".

Definition status_description : text :=
  str "Run first for health checks, canvas metadata and apps/windows. " ++
  str "Set observation:true to return a desktop screenshot (default:false). " ++
  str "Window bounds, element frames and pixel actions share the full screenshot's coordinates.".

Definition no_vision_status_description : text := str
  "Run first for health checks, canvas metadata, apps and windows.".

Definition vision_description : text :=
  str "Execute up to 64 JSON steps shaped {tool,args}, in order and stop " ++
  str "on failure. Returns final observations. " ++
  str "Responses report status:ok/failed and the completed step count. " ++
  str "Insert {tool:delay_ms,args:{ms:500}} to pause anywhere, the final " ++
  str "observations wait for all steps including trailing delays (there are " ++
  str "some default delays if not provided). " ++
  str "Use observations:false to skip observation or observations:{window:window_id,refresh:false} " ++
  str "for screenshots and accessibility trees of a window. " ++
  str "Omit observations for a desktop screenshot. " ++
  str "When the tree provides the controls you need, prefer the accessibility tool. " ++
  str "I.e., working with a single application without the need for vision, especially browsers. " ++
  str "When possible, a zero-context unified diff against the last returned tree is provided. " ++
  str "Set refresh:true to force a full tree. " ++
  str "All pixel coordinates are global to the full overview. ".

Definition accessibility_description : text :=
  str "Execute up to 64 JSON steps shaped {tool,args}, in order and stop " ++
  str "on failure. Responses report status:ok/failed and the completed step count. " ++
  str "Insert {tool:delay_ms,args:{ms:500}} to pause anywhere. " ++
  str "Use observations:{window:window_id,refresh:false} for accessibility trees that also include text content " ++
  str "after all steps, including trailing delays. Omit observations to skip tree reads. " ++
  str "When possible, a zero-context unified diff against the last returned tree is provided. " ++
  str "Set refresh:true to force a full tree. " ++
  str "A different window or large diff returns a full tree. Set refresh:true for a full tree. " ++
  str "Element actions can target offscreen controls. ".

(** ** The tables *)

Inductive ArgumentType :=
  | ARG_STRING
  | ARG_NUMBER
  | ARG_INTEGER
  | ARG_BOOLEAN
  | ARG_STRING_ARRAY
  | ARG_OBJECT
  | ARG_OBJECT_ARRAY
  | ARG_NUMBER_ARRAY
  | ARG_INTEGER_ARRAY
  | ARG_OBSERVATION.

#[export] Instance ArgumentType_eq_dec : EqDecision ArgumentType.
Proof. solve_decision. Defined.

(** The bounds are whole numbers; a maximum of zero means no bound. *)
Record Argument := {
  arg_name : text;
  type : ArgumentType;
  choices : option (list text);
  minimum : Z;
  maximum : Z;
  arg_description : option text;
  allow_false : bool;
  allow_null : bool;
}.

Definition ELEMENT_CAPACITY : Z := 20000.

Definition ARGS_NONE : Z := 0.
Definition ARGS_ACTION : Z := 1.
Definition ARGS_POINT : Z := 2.

Definition BATCH_NONE : Z := 0.
Definition BATCH_VISION : Z := 1.
Definition BATCH_ACCESSIBILITY : Z := 2.

Record Tool := {
  name : text;
  description : text;
  groups : Z;
  arguments : list Argument;
  required : option (list text);
  action : bool;
  batch : Z;
  modes : Z;
  targeted_required : option (list text);
}.

(** An argument that leaves out what its initializer does. *)
Definition plain (n : string) (t : ArgumentType) : Argument := {|
  arg_name := str n; type := t; choices := None; minimum := 0; maximum := 0;
  arg_description := None; allow_false := false; allow_null := false |}.
Definition between (lo hi : Z) (a : Argument) : Argument := {|
  arg_name := a.(arg_name); type := a.(type); choices := a.(choices);
  minimum := lo; maximum := hi; arg_description := a.(arg_description);
  allow_false := a.(allow_false); allow_null := a.(allow_null) |}.
Definition among (c : list string) (a : Argument) : Argument := {|
  arg_name := a.(arg_name); type := a.(type); choices := Some (str <$> c);
  minimum := a.(minimum); maximum := a.(maximum); arg_description := a.(arg_description);
  allow_false := a.(allow_false); allow_null := a.(allow_null) |}.
Definition described (d : string) (a : Argument) : Argument := {|
  arg_name := a.(arg_name); type := a.(type); choices := a.(choices);
  minimum := a.(minimum); maximum := a.(maximum); arg_description := Some (str d);
  allow_false := a.(allow_false); allow_null := a.(allow_null) |}.
Definition or_false (a : Argument) : Argument := {|
  arg_name := a.(arg_name); type := a.(type); choices := a.(choices);
  minimum := a.(minimum); maximum := a.(maximum); arg_description := a.(arg_description);
  allow_false := true; allow_null := a.(allow_null) |}.
Definition or_null (a : Argument) : Argument := {|
  arg_name := a.(arg_name); type := a.(type); choices := a.(choices);
  minimum := a.(minimum); maximum := a.(maximum); arg_description := a.(arg_description);
  allow_false := a.(allow_false); allow_null := true |}.

Definition pointer_buttons : list string := ["left"; "right"; "middle"]%string.
Definition scroll_directions : list string := ["up"; "down"; "left"; "right"]%string.

Definition action_arguments : list Argument := [
  described "Element ID from any window tree. Rolls over after 20k elements. Remains valid while the element exists."
    (between 0 (ELEMENT_CAPACITY - 1) (plain "element_id" ARG_INTEGER))].
Definition point_arguments : list Argument := [
  plain "x" ARG_NUMBER;
  plain "y" ARG_NUMBER].
Definition click_arguments : list Argument := [
  among pointer_buttons (plain "button" ARG_STRING);
  between 1 3 (plain "count" ARG_INTEGER)].
Definition drag_arguments : list Argument := [
  plain "from_x" ARG_NUMBER;
  plain "from_y" ARG_NUMBER;
  plain "to_x" ARG_NUMBER;
  plain "to_y" ARG_NUMBER;
  between 0 10000 (plain "duration_ms" ARG_INTEGER);
  among pointer_buttons (plain "button" ARG_STRING)].
Definition scroll_arguments : list Argument := [
  among scroll_directions (plain "direction" ARG_STRING);
  between 1 700 (plain "amount" ARG_INTEGER)].
Definition text_arguments : list Argument := [plain "text" ARG_STRING].
Definition value_arguments : list Argument := [plain "value" ARG_STRING].
Definition key_arguments : list Argument := [between 1 5 (plain "keys" ARG_STRING_ARRAY)].
Definition delay_arguments : list Argument := [
  described "Milliseconds to wait." (between 0 30000 (plain "ms" ARG_INTEGER))].
Definition status_arguments : list Argument := [
  described "Return a desktop screenshot. Defaults to false." (plain "observation" ARG_BOOLEAN)].
Definition search_application_arguments : list Argument := [
  described "Case-insensitive regex over name:generic_name:description:application:keywords:categories:mime_types:executable:actions:defaults. Examples: browser, browser|editor, ^Firefox:. Omit to list all installed apps."
    (or_null (plain "pattern" ARG_STRING))].
Definition launch_application_arguments : list Argument := [
  described "Installed host desktop ID from search_applications, including .desktop."
    (plain "application" ARG_STRING);
  described "Absolute host path or URI to open. Cannot be combined with action. Omit for a normal launch."
    (or_null (plain "arg" ARG_STRING));
  described "Desktop action ID from search_applications, such as new-window."
    (or_null (plain "action" ARG_STRING))].
Definition require_application : list string := ["application"]%string.
Definition vision_arguments : list Argument := [
  described "Optional ordered {tool,args} actions. Omit or pass [] to observe without acting."
    (between 0 64 (plain "steps" ARG_OBJECT_ARRAY));
  described "Window for a screenshot and tree after acting. Optional. Set to false to skip observation or do not provide for a desktop screenshot."
    (or_false (plain "observations" ARG_OBSERVATION))].
Definition accessibility_arguments : list Argument := [
  described "Optional ordered {tool,args} actions."
    (between 0 64 (plain "steps" ARG_OBJECT_ARRAY));
  described "Window for a tree after acting. Omit to skip observation."
    (plain "observations" ARG_OBSERVATION)].
Definition require_point : list string := ["x"; "y"]%string.
Definition require_element : list string := ["element_id"]%string.
Definition require_drag : list string := ["from_x"; "from_y"; "to_x"; "to_y"]%string.
Definition require_scroll : list string := ["x"; "y"; "direction"]%string.
Definition require_text : list string := ["text"]%string.
Definition require_targeted_text : list string := ["element_id"; "text"]%string.
Definition require_value : list string := ["element_id"; "value"]%string.
Definition require_keys : list string := ["keys"]%string.
Definition require_delay : list string := ["ms"]%string.

Definition tools : list Tool := [
  {| name := str "status"; description := status_description; groups := ARGS_NONE;
     arguments := status_arguments; required := None; action := false;
     batch := BATCH_NONE; modes := BATCH_NONE; targeted_required := None |};
  {| name := str "vision"; description := vision_description; groups := ARGS_NONE;
     arguments := vision_arguments; required := None; action := true;
     batch := BATCH_VISION; modes := BATCH_NONE; targeted_required := None |};
  {| name := str "accessibility"; description := accessibility_description;
     groups := ARGS_NONE; arguments := accessibility_arguments; required := None;
     action := true; batch := BATCH_ACCESSIBILITY; modes := BATCH_NONE;
     targeted_required := None |};
  {| name := str "search_applications";
     description := str "Search installed host desktop applications. Returns desktop ID, name, role, additional actions, and File/URI argument support.";
     groups := ARGS_NONE; arguments := search_application_arguments; required := None;
     action := false; batch := BATCH_NONE; modes := BATCH_NONE; targeted_required := None |};
  {| name := str "launch_application";
     description := str "Launch an installed application on the host. If supported by the application, you can pass a file/URI or invoke a desktop action. Waits up to 5 seconds for a window and returns matching status-style windows, or all windows if unidentified.";
     groups := ARGS_NONE; arguments := launch_application_arguments;
     required := Some (str <$> require_application); action := true;
     batch := BATCH_NONE; modes := BATCH_NONE; targeted_required := None |}].

(** A step of a batch: what it takes, what it needs, and which batches have it. *)
Definition step_tool (n d : string) (groups : Z) (arguments : list Argument)
    (required : list string) (modes : Z) : Tool := {|
  name := str n; description := str d; groups := groups; arguments := arguments;
  required := Some (str <$> required); action := true; batch := BATCH_NONE;
  modes := modes; targeted_required := None |}.

Definition action_tools : list Tool := [
  step_tool "click" "Click desktop image coordinates."
    ARGS_POINT click_arguments require_point BATCH_VISION;
  step_tool "move_cursor" "Move the foreground pointer in desktop image coordinates."
    ARGS_POINT [] require_point BATCH_VISION;
  step_tool "drag" "Drag across the combined canvas using full-overview coordinates."
    ARGS_NONE drag_arguments require_drag BATCH_VISION;
  step_tool "scroll" "Scroll at desktop coordinates for a number of lines."
    ARGS_POINT scroll_arguments require_scroll BATCH_VISION;
  step_tool "press_keys" "Press keys in listed order and release in reverse; put modifiers first. Use keys:[meta] for a single key or keys:[ctrl,a] for a chord."
    ARGS_NONE key_arguments require_keys BATCH_VISION;
  step_tool "activate" "Perform an element's default action, such as following a link or pressing a button."
    ARGS_ACTION [] require_element BATCH_ACCESSIBILITY;
  step_tool "open_context_menu" "Open an element's context menu."
    ARGS_ACTION [] require_element BATCH_ACCESSIBILITY;
  {| name := str "type_text";
     description := str "Insert text at the caret without pressing Enter.";
     groups := ARGS_NONE; arguments := text_arguments;
     required := Some (str <$> require_text); action := true; batch := BATCH_NONE;
     modes := Z.lor BATCH_VISION BATCH_ACCESSIBILITY;
     targeted_required := Some (str <$> require_targeted_text) |};
  step_tool "set_value" "Replace a text field's contents or set a numeric control's value."
    ARGS_ACTION value_arguments require_value BATCH_ACCESSIBILITY;
  step_tool "delay_ms" "Wait 0-30000 milliseconds before continuing. Use a trailing delay to wait before the final observation."
    ARGS_NONE delay_arguments require_delay (Z.lor BATCH_VISION BATCH_ACCESSIBILITY)].

(** ** Looking up a tool *)

Definition has_flag (flags flag : Z) : bool := negb (Z.land flags flag =? 0).

(** [g_strcmp0(name, s) == 0] for a name that may be [NULL]. *)
Definition is_named (n : option text) (s : text) : bool :=
  if n is Some n then text_eqb n s else false.

Definition find_tool (no_vision : bool) (n : option text) : option Tool :=
  find (λ tool, is_named n tool.(name) &&
    negb (no_vision && (tool.(batch) =? BATCH_VISION))) tools.

(** The accessibility batch types into an element, which it must name. *)
Definition select_action (kind : Z) (tool : Tool) : Tool :=
  match tool.(targeted_required) with
  | Some targeted =>
      if kind =? BATCH_ACCESSIBILITY then {|
        name := tool.(name); description := tool.(description);
        groups := Z.lor tool.(groups) ARGS_ACTION; arguments := tool.(arguments);
        required := Some targeted; action := tool.(action); batch := tool.(batch);
        modes := tool.(modes); targeted_required := tool.(targeted_required) |}
      else tool
  | None => tool
  end.

Definition find_action (kind : Z) (n : option text) : option Tool :=
  select_action kind <$>
    find (λ tool, has_flag tool.(modes) kind && is_named n tool.(name)) action_tools.

(** ** The schema *)

Definition type_name (t : ArgumentType) : string :=
  match t with
  | ARG_STRING => "string"
  | ARG_NUMBER => "number"
  | ARG_INTEGER => "integer"
  | ARG_BOOLEAN => "boolean"
  | ARG_STRING_ARRAY | ARG_OBJECT_ARRAY | ARG_NUMBER_ARRAY | ARG_INTEGER_ARRAY => "array"
  | ARG_OBSERVATION | ARG_OBJECT => "object"
  end.

Definition item_name (t : ArgumentType) : string :=
  match t with
  | ARG_STRING_ARRAY => "string"
  | ARG_NUMBER_ARRAY => "number"
  | ARG_INTEGER_ARRAY => "integer"
  | _ => "object"
  end.

Definition is_array (t : ArgumentType) : bool :=
  match t with
  | ARG_STRING_ARRAY | ARG_OBJECT_ARRAY | ARG_NUMBER_ARRAY | ARG_INTEGER_ARRAY => true
  | _ => false
  end.

Definition when (b : bool) (f : json → json) (o : json) : json := if b then f o else o.

Definition member_text (k s : string) (o : json) : json :=
  result_string o (str k) (Some (str s)).

Definition array_schema (a : Argument) (property : json) : json :=
  let items := member_text "type" (item_name a.(type)) result_object in
  let property := result_member property (str "items") items in
  let property := when (negb (a.(minimum) =? 0))
    (λ o, result_integer o (str "minItems") a.(minimum)) property in
  when (negb (a.(maximum) =? 0)) (λ o, result_integer o (str "maxItems") a.(maximum)) property.

Definition range_schema (a : Argument) (property : json) : json :=
  when (negb (a.(maximum) =? 0)) (λ o,
    result_number (result_number o (str "minimum") (double_of_int a.(minimum)))
      (str "maximum") (double_of_int a.(maximum))) property.

Definition observation_schema (property : json) : json :=
  let window := member_text "description" "Window ID from status."
    (member_text "type" "integer" result_object) in
  let refresh := result_boolean (member_text "type" "boolean" result_object) (str "default") false in
  let fields := result_member (result_member result_object (str "window") window)
    (str "refresh") refresh in
  let required := result_append result_array (JString (str "window")) in
  let property := result_member property (str "properties") fields in
  let property := result_member property (str "required") required in
  result_boolean property (str "additionalProperties") false.

Definition or_off (a : Argument) (property : json) : json :=
  if a.(allow_false) || a.(allow_null) then
    let off := member_text "type" (if a.(allow_null) then "null" else "boolean") result_object in
    let off := when (negb a.(allow_null))
      (λ o, result_member o (str "enum") (result_append result_array (JBool false))) off in
    result_member result_object (str "anyOf")
      (result_append (result_append result_array property) off)
  else property.

Definition type_schema (a : Argument) (property : json) : json :=
  member_text "type" (type_name a.(type))
    (when (bool_decide (a.(type) = ARG_BOOLEAN))
      (λ o, result_boolean o (str "default") false) property).

Definition description_schema (a : Argument) (property : json) : json :=
  if a.(arg_description) is Some d then result_string property (str "description") (Some d)
  else property.

Definition choices_schema (a : Argument) (property : json) : json :=
  if a.(choices) is Some c then
    result_member property (str "enum")
      (foldl (λ l choice, result_append l (JString (cstring choice))) result_array c)
  else property.

Definition bare_schema (a : Argument) : json :=
  let property := choices_schema a (description_schema a (type_schema a result_object)) in
  let property := if is_array a.(type) then array_schema a property else range_schema a property in
  when (bool_decide (a.(type) = ARG_OBSERVATION)) observation_schema property.

Definition argument_schema (a : Argument) : json := or_off a (bare_schema a).

Definition add_argument_schemas (properties : json) (l : list Argument) : json :=
  foldl (λ ps a, result_member ps a.(arg_name) (argument_schema a)) properties l.

(** One step of a batch: its action's name, and the arguments of the action. *)
Definition step_schema (nested : Tool → json) (step : Tool) : json :=
  let named := result_string (member_text "type" "object" result_object)
    (str "description") (Some step.(description)) in
  let names := result_append result_array (JString (cstring step.(name))) in
  let name := result_member (member_text "type" "string" result_object) (str "enum") names in
  let named_properties := result_member (result_member result_object (str "tool") name)
    (str "args") (nested step) in
  let named := result_member named (str "properties") named_properties in
  let required_names := result_append (result_append result_array (JString (str "tool")))
    (JString (str "args")) in
  let named := result_member named (str "required") required_names in
  result_boolean named (str "additionalProperties") false.

(** The steps of a kind of batch, in the order of the table. *)
Definition batch_steps (kind : Z) : list Tool :=
  omap (λ tool, find_action kind (Some tool.(name))) action_tools.

Definition steps_schema (nested : Tool → json) (kind : Z) : json :=
  result_member result_object (str "anyOf")
    (foldl (λ l step, result_append l (step_schema nested step)) result_array (batch_steps kind)).

(** [result_member(yyjson_mut_obj_get(properties, "steps"), "items", items)]. *)
Definition with_items (properties items : json) : json :=
  if json_member (Some properties) (str "steps") is Some steps
  then result_member properties (str "steps") (result_member steps (str "items") items)
  else properties.

(** The required arguments come first. *)
Definition ordered_properties (required : list text) (properties : json) : json :=
  let ordered := foldl (λ o n,
    if json_member (Some properties) n is Some p then result_member o n p else o)
    result_object required in
  foldl (λ o m,
    let k := cstring m.1 in
    if json_member (Some o) k is Some _ then o else result_member o k m.2)
    ordered (members (Some properties)).

Definition tool_schema (nested : Tool → json) (no_vision : bool) (tool : Tool) : json :=
  let properties := when (negb (no_vision && text_eqb tool.(name) (str "status")))
    (λ o, add_argument_schemas o tool.(arguments)) result_object in
  let properties := when (has_flag tool.(groups) ARGS_ACTION)
    (λ o, add_argument_schemas o action_arguments) properties in
  let properties := when (has_flag tool.(groups) ARGS_POINT)
    (λ o, add_argument_schemas o point_arguments) properties in
  let properties := when (negb (tool.(batch) =? BATCH_NONE))
    (λ o, with_items o (steps_schema nested tool.(batch))) properties in
  let properties :=
    if tool.(required) is Some l then ordered_properties l properties else properties in
  let required :=
    foldl (λ l n, result_append l (JString (cstring n))) result_array
      (default [] tool.(required)) in
  let schema := member_text "type" "object" result_object in
  let schema := result_member schema (str "properties") properties in
  let schema := result_member schema (str "required") required in
  result_boolean schema (str "additionalProperties") false.

(** No step is a batch, so that the schemas of steps hold no others. *)
Definition build_tool_schema (no_vision : bool) (tool : Tool) : json :=
  tool_schema (tool_schema (λ _, JNull) no_vision) no_vision tool.

(** ** The check of a value against a schema *)

Fixpoint json_depth (v : json) : nat :=
  match v with
  | JArray l => S (list_max (json_depth <$> l))
  | JObject l => S (list_max ((λ m, json_depth m.2) <$> l))
  | _ => O
  end.

Definition strcmp (s : option text) (n : string) : bool := is_named s (str n).

Definition has_type (v : value) (type : option text) : bool :=
  (strcmp type "object" && yyjson_is_obj v) ||
  (strcmp type "null" && yyjson_is_null v) ||
  (strcmp type "array" && yyjson_is_arr v) ||
  (strcmp type "string" && yyjson_is_str v &&
    (Z.of_nat (length (default [] (yyjson_get_str v))) =? yyjson_get_len v)) ||
  (strcmp type "integer" && yyjson_is_int v) ||
  (strcmp type "number" && yyjson_is_num v) ||
  (strcmp type "boolean" && yyjson_is_bool v).

Definition in_enum (v s : value) : bool :=
  if json_member s (str "enum") is Some e
  then existsb (λ x, yyjson_equals v (Some x)) (elements (Some e))
  else true.

Definition in_range (v s : value) : bool :=
  negb (yyjson_is_num v &&
    (double_lt (yyjson_get_num v)
       (json_number s (str "minimum") (double_of_int (- 10 ^ 100))) ||
     double_gt (yyjson_get_num v)
       (json_number s (str "maximum") (double_of_int (10 ^ 100))))).

Definition schema_body (validate : value → value → bool) (v s : value) : bool :=
  match json_member s (str "anyOf") with
  | Some alternatives => existsb (λ option, validate v (Some option)) (elements (Some alternatives))
  | None =>
      has_type v (json_string s (str "type")) && in_enum v s && in_range v s &&
      (if yyjson_is_obj v then
         forallb (λ x, match yyjson_obj_get v (yyjson_get_str (Some x)) with
                       | Some _ => true | None => false end)
           (elements (json_member s (str "required"))) &&
         forallb (λ m,
           match json_member (json_member s (str "properties")) (cstring m.1) with
           | None => negb (yyjson_is_false (json_member s (str "additionalProperties")))
           | Some p => validate (Some m.2) (Some p)
           end) (members v)
       else true) &&
      (if yyjson_is_arr v then
         let n := double_of_int (Z.of_nat (length (elements v))) in
         negb (double_lt n (json_number s (str "minItems") (double_of_int 0)) ||
               double_gt n (json_number s (str "maxItems") (double_of_int (10 ^ 9)))) &&
         forallb (λ x, validate (Some x) (json_member s (str "items"))) (elements v)
       else true)
  end.

(** A call goes to a part of the schema: its depth bounds the recursion. *)
Fixpoint validate_within (depth : nat) (v s : value) : bool :=
  match depth with
  | O => false
  | S depth => schema_body (validate_within depth) v s
  end.

Definition validate_schema (v s : value) : bool :=
  validate_within (if s is Some s then S (S (json_depth s)) else 1) v s.

Definition validate_arguments (no_vision : bool) (tool : Tool) (args : value) : bool :=
  validate_schema args (Some (build_tool_schema no_vision tool)).
