(* ===== verification/CatalogProps.v ===== *)
(** * The check of a tool's arguments

    The recursion of [validate_schema] ends, and on the schemas that the catalog
    builds it accepts what the tables of arguments say. *)

From S2P Require Import Prelude Json Catalog.

Lemma text_eqb_sym s t : text_eqb s t = text_eqb t s.
Proof. unfold text_eqb. apply bool_decide_ext. naive_solver. Qed.

(** ** Members of objects *)

Lemma lookup_member_elem l k x : lookup_member l k = Some x → (k, x) ∈ l.
Proof.
  induction l as [|[k' y] l IH]; simpl; [done|].
  destruct (text_eqb k' k) eqn:E; [|by right; auto].
  intros [= ->]. apply text_eqb_spec in E as ->. by left.
Qed.

Lemma lookup_remove_members l k k' :
  lookup_member (remove_members l k) k' = if text_eqb k k' then None else lookup_member l k'.
Proof.
  induction l as [|[j x] l IH]; simpl; [by case_match|].
  destruct (text_eqb j k) eqn:E; simpl; rewrite IH.
  - apply text_eqb_spec in E as ->. by destruct (text_eqb k k').
  - destruct (text_eqb k k') eqn:E'; [|done].
    apply text_eqb_spec in E' as <-. by rewrite E.
Qed.

Lemma lookup_put_member l k x k' :
  lookup_member (put_member l k x) k' = if text_eqb k k' then Some x else lookup_member l k'.
Proof.
  induction l as [|[j y] l IH]; simpl; [done|].
  destruct (text_eqb j k) eqn:E; simpl.
  - apply text_eqb_spec in E as ->. rewrite lookup_remove_members.
    by destruct (text_eqb k k').
  - rewrite IH. destruct (text_eqb k k') eqn:E'; [|done].
    apply text_eqb_spec in E' as <-. by rewrite E.
Qed.

Lemma put_member_elem l k x m :
  m ∈ put_member l k x → m = (k, x) ∨ m ∈ l.
Proof.
  assert (Hremove : ∀ l, m ∈ remove_members l k → m ∈ l).
  { intros l'. induction l' as [|[j y] l' IH]; simpl; [done|]. case_match; set_solver. }
  induction l as [|[j y] l IH]; simpl; [set_solver|].
  destruct (text_eqb j k) eqn:E; [|set_solver].
  apply text_eqb_spec in E as ->. set_solver.
Qed.

Lemma json_member_result o k x k' :
  yyjson_is_obj (Some o) = true →
  json_member (Some (result_member o k x)) k' =
    if text_eqb (cstring k) k' then Some x else json_member (Some o) k'.
Proof. destruct o; try done. intros _. apply lookup_put_member. Qed.

Lemma is_obj_result o k x :
  yyjson_is_obj (Some o) = true → yyjson_is_obj (Some (result_member o k x)) = true.
Proof. by destruct o. Qed.

(** ** The recursion ends *)

Lemma depth_element x l : x ∈ l → (json_depth x < json_depth (JArray l))%nat.
Proof.
  intros Hx. simpl.
  pose proof (proj1 (list_max_le (json_depth <$> l) _) (le_n _)) as H.
  rewrite Forall_fmap in H. eapply Forall_forall in H; [|exact Hx]. simpl in H. lia.
Qed.

Lemma depth_member k x l : (k, x) ∈ l → (json_depth x < json_depth (JObject l))%nat.
Proof.
  intros Hx. simpl.
  pose proof (proj1 (list_max_le ((λ m, json_depth m.2) <$> l) _) (le_n _)) as H.
  rewrite Forall_fmap in H. eapply Forall_forall in H; [|exact Hx]. simpl in H. lia.
Qed.

Lemma depth_json_member s k x :
  json_member (Some s) k = Some x → (json_depth x < json_depth s)%nat.
Proof. destruct s; try done. intros H%lookup_member_elem. by eapply depth_member. Qed.

Lemma depth_elements s x : x ∈ elements (Some s) → (json_depth x < json_depth s)%nat.
Proof. destruct s; try (simpl; set_solver). apply depth_element. Qed.

(** What one call looks at in the schema. *)
Definition part (p : value) (s : json) : Prop :=
  match p with
  | None => True
  | Some p => (json_depth p < json_depth s)%nat
  end.

Lemma existsb_ext_in {A} (f g : A → bool) l :
  (∀ x, x ∈ l → f x = g x) → existsb f l = existsb g l.
Proof.
  induction l as [|x l IH]; simpl; [done|]. intros H.
  rewrite H, IH by set_solver. done.
Qed.

Lemma forallb_ext_in {A} (f g : A → bool) l :
  (∀ x, x ∈ l → f x = g x) → forallb f l = forallb g l.
Proof.
  induction l as [|x l IH]; simpl; [done|]. intros H.
  rewrite H, IH by set_solver. done.
Qed.

Lemma schema_body_ext f g v s :
  (∀ v p, part p s → f v p = g v p) → schema_body f v (Some s) = schema_body g v (Some s).
Proof.
  intros Hfg. unfold schema_body.
  destruct (json_member (Some s) (str "anyOf")) as [a|] eqn:Ha.
  - apply existsb_ext_in. intros x Hx%depth_elements. apply Hfg. simpl.
    apply depth_json_member in Ha. lia.
  - f_equal; [f_equal; destruct (yyjson_is_obj v); [|done]|destruct (yyjson_is_arr v); [|done]].
    + f_equal. apply forallb_ext_in. intros m _.
      destruct (json_member (Some s) (str "properties")) as [ps|] eqn:Hps; [|done].
      destruct (json_member (Some ps) (cstring m.1)) as [p|] eqn:Hp; [|done].
      apply Hfg. simpl. apply depth_json_member in Hp, Hps. lia.
    + f_equal. apply forallb_ext_in. intros x _. apply Hfg.
      destruct (json_member (Some s) (str "items")) as [i|] eqn:Hi; [|done].
      by apply depth_json_member in Hi.
Qed.

Lemma schema_body_null f v : schema_body f v None = false.
Proof. done. Qed.

Definition schema_bound (s : value) : nat := if s is Some s then S (S (json_depth s)) else 1.

Lemma validate_within_stable n m v s :
  (schema_bound s ≤ n)%nat → (schema_bound s ≤ m)%nat → validate_within n v s = validate_within m v s.
Proof.
  revert m v s. induction n as [|n IH]; intros [|m] v [s|] Hn Hm; simpl in *; try lia.
  - apply schema_body_ext. intros w p Hp. apply IH; destruct p; simpl in *; lia.
  - by rewrite !schema_body_null.
Qed.

(** The equation of [validate_schema] in C. *)
Lemma validate_schema_unfold v s : validate_schema v s = schema_body validate_schema v s.
Proof.
  unfold validate_schema. destruct s as [s|]; [|by rewrite schema_body_null].
  change (validate_within (S (S (json_depth s))) v (Some s))
    with (schema_body (validate_within (S (json_depth s))) v (Some s)).
  apply schema_body_ext. intros w p Hp.
  apply validate_within_stable; destruct p; simpl in *; lia.
Qed.

(** ** The members of the schemas *)

Lemma member_text_eq k s o : member_text k s o = result_member o (str k) (JString (cstring (str s))).
Proof. done. Qed.

(** [o'] is the object [o] with members of the keys [ks] put into it. *)
Definition grown (ks : list string) (o o' : json) : Prop :=
  yyjson_is_obj (Some o) = true →
  yyjson_is_obj (Some o') = true ∧
  ∀ k, k ∉ (str <$> ks) → json_member (Some o') k = json_member (Some o) k.

Lemma grown_refl ks o : grown ks o o.
Proof. done. Qed.

Lemma grown_trans ks o1 o2 o3 : grown ks o1 o2 → grown ks o2 o3 → grown ks o1 o3.
Proof.
  intros H12 H23 Ho. destruct (H12 Ho) as [Ho' Hk], (H23 Ho') as [? Hk'].
  split; [done|]. intros k Hks. by rewrite Hk', Hk.
Qed.

Lemma grown_member ks (k : string) o x :
  k ∈ ks → cstring (str k) = str k → grown ks o (result_member o (str k) x).
Proof.
  intros Hin Hk Ho. split; [by apply is_obj_result|]. intros k' Hk'.
  rewrite json_member_result by done. rewrite Hk. destruct (text_eqb _ _) eqn:E; [|done].
  apply text_eqb_spec in E as <-. set_solver.
Qed.

Lemma grown_when ks b f o : grown ks o (f o) → grown ks o (when b f o).
Proof. by destruct b. Qed.

Ltac grown := repeat first
  [ apply grown_refl
  | apply grown_when
  | eapply grown_trans; [|apply grown_member; [set_solver|reflexivity]] ].

Section bare.
Variable a : Argument.

Lemma type_grown o : grown ["default"; "type"]%string o (type_schema a o).
Proof. unfold type_schema. grown. Qed.

Lemma description_grown o : grown ["description"]%string o (description_schema a o).
Proof. unfold description_schema. destruct a.(arg_description); grown. Qed.

Lemma choices_grown o : grown ["enum"]%string o (choices_schema a o).
Proof. unfold choices_schema. destruct a.(choices); grown. Qed.

Lemma array_grown o : grown ["items"; "minItems"; "maxItems"]%string o (array_schema a o).
Proof. unfold array_schema, when. destruct (negb _), (negb _); grown. Qed.

Lemma range_grown o : grown ["minimum"; "maximum"]%string o (range_schema a o).
Proof. unfold range_schema. grown. Qed.

Lemma observation_grown o :
  grown ["properties"; "required"; "additionalProperties"]%string o (observation_schema o).
Proof. unfold observation_schema. cbv zeta. grown. Qed.

(** The layers of [bare_schema]. *)
Definition body_schema : json := choices_schema a (description_schema a (type_schema a result_object)).
Definition sized_schema : json :=
  if is_array a.(type) then array_schema a body_schema else range_schema a body_schema.

Lemma is_obj_type : yyjson_is_obj (Some (type_schema a result_object)) = true.
Proof. by apply type_grown. Qed.
Lemma is_obj_described : yyjson_is_obj (Some (description_schema a (type_schema a result_object))) = true.
Proof. apply description_grown, is_obj_type. Qed.
Lemma is_obj_body : yyjson_is_obj (Some body_schema) = true.
Proof. apply choices_grown, is_obj_described. Qed.
Lemma is_obj_sized : yyjson_is_obj (Some sized_schema) = true.
Proof.
  unfold sized_schema. case_match; [apply array_grown|apply range_grown]; apply is_obj_body.
Qed.
Lemma is_obj_bare : yyjson_is_obj (Some (bare_schema a)) = true.
Proof. eapply (grown_when _ _ _ _ (observation_grown _)), is_obj_sized. Qed.

Lemma bare_sized (k : text) :
  k ∉ (str <$> ["properties"; "required"; "additionalProperties"]%string) →
  json_member (Some (bare_schema a)) k = json_member (Some sized_schema) k.
Proof. apply (grown_when _ _ _ _ (observation_grown _)), is_obj_sized. Qed.

Lemma sized_body (k : text) :
  k ∉ (str <$> ["items"; "minItems"; "maxItems"; "minimum"; "maximum"]%string) →
  json_member (Some sized_schema) k = json_member (Some body_schema) k.
Proof.
  intros Hk. unfold sized_schema. pose proof is_obj_body as Ho.
  destruct (is_array _); [apply array_grown|apply range_grown]; set_solver.
Qed.

(** Passes by the layers that do not put a closed key. *)
Ltac not_among := by apply (bool_decide_unpack (_ ∉ _)); vm_compute.
Ltac pass_choices := rewrite (proj2 (choices_grown _ is_obj_described)) by not_among.
Ltac pass_description := rewrite (proj2 (description_grown _ is_obj_type)) by not_among.
Ltac pass_type := rewrite (proj2 (type_grown result_object eq_refl)) by not_among.

Lemma bare_anyOf : json_member (Some (bare_schema a)) (str "anyOf") = None.
Proof.
  rewrite bare_sized, sized_body by not_among. unfold body_schema.
  by pass_choices; pass_description; pass_type.
Qed.

Lemma bare_type :
  json_string (Some (bare_schema a)) (str "type") = Some (str (type_name a.(type))).
Proof.
  unfold json_string. rewrite bare_sized, sized_body by not_among. unfold body_schema.
  pass_choices; pass_description. unfold type_schema. rewrite member_text_eq.
  rewrite json_member_result by (by apply (grown_when ["default"%string]); [grown|]).
  by destruct a.(type).
Qed.

Definition choice_values (c : list text) : json := JArray ((λ s, JString (cstring s)) <$> c).

Lemma append_all {A} (f : A → json) l m :
  foldl (λ o x, result_append o (f x)) (JArray m) l = JArray (m ++ (f <$> l)).
Proof.
  revert m. induction l as [|x l IH]; intros m; simpl; [by rewrite app_nil_r|].
  by rewrite IH, <- app_assoc.
Qed.

Lemma bare_enum :
  json_member (Some (bare_schema a)) (str "enum") = choice_values <$> a.(choices).
Proof.
  rewrite bare_sized, sized_body by not_among. unfold body_schema, choices_schema.
  destruct a.(choices) as [c|]; simpl.
  - rewrite json_member_result by apply is_obj_described. simpl.
    unfold result_array. by rewrite append_all.
  - by pass_description; pass_type.
Qed.

Lemma body_fresh k :
  k ∉ (str <$> ["default"; "type"; "description"; "enum"]%string) →
  json_member (Some body_schema) k = None.
Proof.
  intros Hk. unfold body_schema.
  rewrite (proj2 (choices_grown _ is_obj_described)) by set_solver.
  rewrite (proj2 (description_grown _ is_obj_type)) by set_solver.
  by rewrite (proj2 (type_grown result_object eq_refl)) by set_solver.
Qed.

Lemma bare_range (k : string) (bound : Z) :
  (k, bound) = ("minimum"%string, a.(minimum)) ∨ (k, bound) = ("maximum"%string, a.(maximum)) →
  json_member (Some (bare_schema a)) (str k) =
    if is_array a.(type) || (a.(maximum) =? 0) then None else Some (JReal (double_of_int bound)).
Proof.
  intros Hk. assert (Hk' : k = "minimum"%string ∨ k = "maximum"%string) by naive_solver.
  rewrite bare_sized by (destruct Hk' as [->| ->]; not_among). unfold sized_schema.
  destruct (is_array _) eqn:E; simpl.
  - rewrite (proj2 (array_grown _ is_obj_body)) by (destruct Hk' as [->| ->]; not_among).
    apply body_fresh. destruct Hk' as [->| ->]; not_among.
  - pose proof is_obj_body as Ho. unfold range_schema, when.
    destruct (a.(maximum) =? 0); simpl.
    + apply body_fresh. destruct Hk' as [->| ->]; not_among.
    + unfold result_number. rewrite !json_member_result by (try apply is_obj_result; done).
      by destruct Hk as [[= -> ->]|[= -> ->]].
Qed.

Definition items_schema : json := member_text "type" (item_name a.(type)) result_object.

Definition count_member (n : Z) : value := if n =? 0 then None else Some (JSint n).

(** The members of an array's schema; another one has none of them. *)
Lemma bare_array (k : string) v :
  (k, v) ∈ [("items", Some items_schema); ("minItems", count_member a.(minimum));
            ("maxItems", count_member a.(maximum))]%string →
  json_member (Some (bare_schema a)) (str k) = if is_array a.(type) then v else None.
Proof.
  intros Hk.
  assert (Hin : k ∈ ["items"; "minItems"; "maxItems"]%string) by set_solver.
  assert (Hks : str k ∉ str <$> ["default"; "type"; "description"; "enum"]%string)
    by (clear Hk; set_unfold in Hin; destruct Hin as [->|[->|[->|[]]]]; not_among).
  rewrite bare_sized by (clear Hk; set_unfold in Hin; destruct Hin as [->|[->|[->|[]]]]; not_among).
  unfold sized_schema. destruct (is_array _).
  - pose proof is_obj_body as Ho. unfold array_schema, when, count_member in *.
    destruct (a.(minimum) =? 0), (a.(maximum) =? 0); simpl; unfold result_integer;
      rewrite !json_member_result by (repeat apply is_obj_result; done);
      set_unfold in Hk; destruct Hk as [[= -> ->]|[[= -> ->]|[[= -> ->]|[]]]];
      try reflexivity; apply (body_fresh _ Hks).
  - rewrite (proj2 (range_grown _ is_obj_body)); [by apply body_fresh|].
    clear Hk; set_unfold in Hin; destruct Hin as [->|[->|[->|[]]]]; not_among.
Qed.

Definition window_schema : json :=
  member_text "description" "Window ID from status." (member_text "type" "integer" result_object).
Definition refresh_schema : json :=
  result_boolean (member_text "type" "boolean" result_object) (str "default") false.

(** The members of an observation's schema. *)
Lemma bare_observation (k : string) v :
  (k, v) ∈ [("properties", JObject [(str "window", window_schema); (str "refresh", refresh_schema)]);
            ("required", JArray [JString (str "window")]);
            ("additionalProperties", JBool false)]%string →
  json_member (Some (bare_schema a)) (str k) =
    if bool_decide (a.(type) = ARG_OBSERVATION) then Some v else None.
Proof.
  intros Hk. unfold bare_schema. cbv zeta. fold body_schema sized_schema.
  assert (Hks : str k ∉ str <$> ["items"; "minItems"; "maxItems"; "minimum"; "maximum"]%string ∧
    str k ∉ str <$> ["default"; "type"; "description"; "enum"]%string)
    by (set_unfold in Hk; destruct Hk as [[= -> ->]|[[= -> ->]|[[= -> ->]|[]]]]; split; not_among).
  destruct Hks as [Hks Hks']. unfold when. case_bool_decide.
  - unfold observation_schema. cbv zeta. unfold result_boolean.
    rewrite !json_member_result by (repeat apply is_obj_result; apply is_obj_sized).
    set_unfold in Hk; destruct Hk as [[= -> ->]|[[= -> ->]|[[= -> ->]|[]]]]; reflexivity.
  - by rewrite sized_body, body_fresh.
Qed.

Lemma bare_plain (k : string) :
  k ∈ ["properties"; "required"; "additionalProperties"]%string → a.(type) ≠ ARG_OBSERVATION →
  json_member (Some (bare_schema a)) (str k) = None.
Proof.
  intros Hk Ht.
  assert (∃ v, (k, v) ∈ [
    ("properties", JObject [(str "window", window_schema); (str "refresh", refresh_schema)]);
    ("required", JArray [JString (str "window")]);
    ("additionalProperties", JBool false)]%string) as [v Hv] by set_solver.
  rewrite (bare_observation k v Hv). by rewrite bool_decide_false.
Qed.
End bare.

(** ** What the tables say *)

Definition no_nul (s : text) : bool := bool_decide (zero ∉ s).

(** The bounds of a number without bounds of its own. *)
Definition plausible (x : json) : bool :=
  negb (double_lt (yyjson_get_num (Some x)) (double_of_int (- 10 ^ 100)) ||
        double_gt (yyjson_get_num (Some x)) (double_of_int (10 ^ 100))).

Definition number_ok (a : Argument) (x : json) : bool :=
  if a.(maximum) =? 0 then plausible x
  else match x with
  | JUint n | JSint n => (a.(minimum) <=? n) && (n <=? a.(maximum))
  | JReal d =>
      negb (double_lt d (double_of_int a.(minimum)) || double_gt d (double_of_int a.(maximum)))
  | _ => false
  end.

Definition size_ok (a : Argument) (l : list json) : bool :=
  (a.(minimum) <=? Z.of_nat (length l)) &&
  (Z.of_nat (length l) <=? (if a.(maximum) =? 0 then 10 ^ 9 else a.(maximum))).

Definition item_ok (t : ArgumentType) (x : json) : bool :=
  match t, x with
  | ARG_STRING_ARRAY, JString s => no_nul s
  | ARG_STRING_ARRAY, _ => false
  | ARG_NUMBER_ARRAY, _ => yyjson_is_num (Some x) && plausible x
  | ARG_INTEGER_ARRAY, _ => yyjson_is_int (Some x) && plausible x
  | _, _ => yyjson_is_obj (Some x)
  end.

Definition has_member (l : list (text * json)) (k : text) : bool :=
  if lookup_member l k is Some _ then true else false.

(** An object with the members [needed], and no members but those of [known]; a
    key counts up to its first NUL. *)
Definition object_ok (needed : list text) (known : text → option (json → bool)) (x : json) : bool :=
  match x with
  | JObject l =>
      forallb (has_member l) needed &&
      forallb (λ m, if known (cstring m.1) is Some ok then ok m.2 else false) l
  | _ => false
  end.

Definition observation_known (k : text) : option (json → bool) :=
  if text_eqb k (str "window") then Some (λ x, yyjson_is_int (Some x) && plausible x)
  else if text_eqb k (str "refresh") then Some (λ x, yyjson_is_bool (Some x))
  else None.

Definition value_ok (item : json → bool) (a : Argument) (x : json) : bool :=
  match a.(type) with
  | ARG_STRING =>
      if x is JString s then
        no_nul s && (if a.(choices) is Some c then existsb (text_eqb s) c else true)
      else false
  | ARG_NUMBER => yyjson_is_num (Some x) && number_ok a x
  | ARG_INTEGER => yyjson_is_int (Some x) && number_ok a x
  | ARG_BOOLEAN => yyjson_is_bool (Some x)
  | ARG_OBJECT => yyjson_is_obj (Some x)
  | ARG_OBSERVATION => object_ok [str "window"] observation_known x
  | _ => if x is JArray l then size_ok a l && forallb item l else false
  end.

Definition argument_accepts (item : json → bool) (a : Argument) (x : json) : bool :=
  value_ok item a x ||
  (a.(allow_null) && yyjson_is_null (Some x)) ||
  (a.(allow_false) && negb a.(allow_null) && yyjson_is_false (Some x)).

(** The tables keep to this. *)
Record argument_wf (a : Argument) : Prop := {
  name_clean : zero ∉ a.(arg_name);
  choices_of_string : is_Some a.(choices) → a.(type) = ARG_STRING;
  choices_clean c : a.(choices) = Some c → Forall (λ s, zero ∉ s) c;
  bounds_small : Z.abs a.(minimum) < 2 ^ 53 ∧ Z.abs a.(maximum) < 2 ^ 53;
}.

(** ** The check of one argument *)

(** What [has_type] asks of a value. *)
Definition of_type (t : string) (x : json) : bool :=
  match x with
  | JObject _ => bool_decide (t = "object"%string)
  | JNull => bool_decide (t = "null"%string)
  | JArray _ => bool_decide (t = "array"%string)
  | JString s => bool_decide (t = "string"%string) && no_nul s
  | JUint _ | JSint _ => bool_decide (t ∈ ["integer"; "number"]%string)
  | JReal _ => bool_decide (t = "number"%string)
  | JBool _ => bool_decide (t = "boolean"%string)
  end.

Lemma length_cstring_no_nul s :
  (Z.of_nat (length (cstring s)) =? Z.of_nat (length s)) = no_nul s.
Proof.
  unfold no_nul. case_bool_decide as Hs.
  - rewrite cstring_id by done. apply Z.eqb_refl.
  - apply Z.eqb_neq. intros Hl%Nat2Z.inj. revert Hs Hl.
    induction s as [|c s IH]; simpl; [set_solver|]. intros Hs.
    pose proof (length_cstring s). case_decide; simpl; [lia|].
    intros [= Hl]. apply IH; [set_solver|done].
Qed.

Lemma has_type_spec t x :
  t ∈ ["object"; "null"; "array"; "string"; "integer"; "number"; "boolean"]%string →
  has_type (Some x) (Some (str t)) = of_type t x.
Proof.
  intros Ht. set_unfold in Ht.
  destruct Ht as [->|[->|[->|[->|[->|[->|[->|[]]]]]]]];
    destruct x as [| | | | |s| |]; try reflexivity.
  etransitivity; [|apply length_cstring_no_nul]. unfold has_type. cbn [yyjson_get_str default yyjson_get_len].
  by destruct (_ =? _).
Qed.

(** The value of a closed lookup. *)
Ltac closed_lookups :=
  repeat match goal with
  | |- context [json_member (Some ?o) (str ?k)] =>
      let r := eval vm_compute in (json_member (Some o) (str k)) in
      match r with Some _ => idtac | None => idtac end;
      change (json_member (Some o) (str k)) with r; cbv iota
  end.

(** A schema without [anyOf] for a type. *)
Lemma validate_typed (t : string) s v :
  t ∈ ["object"; "null"; "array"; "string"; "integer"; "number"; "boolean"]%string →
  json_member (Some s) (str "anyOf") = None →
  json_string (Some s) (str "type") = Some (str t) →
  validate_schema (Some v) (Some s) = of_type t v && in_enum (Some v) (Some s) &&
    in_range (Some v) (Some s) &&
    (if yyjson_is_obj (Some v) then
       forallb (λ x, match yyjson_obj_get (Some v) (yyjson_get_str (Some x)) with
                     | Some _ => true | None => false end)
         (elements (json_member (Some s) (str "required"))) &&
       forallb (λ m,
         match json_member (json_member (Some s) (str "properties")) (cstring m.1) with
         | None => negb (yyjson_is_false (json_member (Some s) (str "additionalProperties")))
         | Some p => validate_schema (Some m.2) (Some p)
         end) (members (Some v))
     else true) &&
    (if yyjson_is_arr (Some v) then
       let n := double_of_int (Z.of_nat (length (elements (Some v)))) in
       negb (double_lt n (json_number (Some s) (str "minItems") (double_of_int 0)) ||
             double_gt n (json_number (Some s) (str "maxItems") (double_of_int (10 ^ 9)))) &&
       forallb (λ x, validate_schema (Some x) (json_member (Some s) (str "items")))
         (elements (Some v))
     else true).
Proof.
  intros Ht Ha Hs. rewrite validate_schema_unfold at 1. unfold schema_body.
  by rewrite Ha, Hs, has_type_spec by done.
Qed.

(** A string, number or boolean. *)
Lemma validate_scalar (t : string) s v :
  t ∈ ["null"; "string"; "integer"; "number"; "boolean"]%string →
  json_member (Some s) (str "anyOf") = None →
  json_string (Some s) (str "type") = Some (str t) →
  validate_schema (Some v) (Some s) =
    of_type t v && in_enum (Some v) (Some s) && in_range (Some v) (Some s).
Proof.
  intros Ht Ha Hs. rewrite (validate_typed t) by (done || set_solver).
  set_unfold in Ht.
  destruct v; [by rewrite ?andb_true_r..| |];
    destruct Ht as [->|[->|[->|[->|[->|[]]]]]]; done.
Qed.

(** An array whose schema says what its items are. *)
Lemma validate_array s items v lo hi :
  json_member (Some s) (str "anyOf") = None →
  json_string (Some s) (str "type") = Some (str "array") →
  json_member (Some s) (str "enum") = None →
  json_member (Some s) (str "minItems") = count_member lo →
  json_member (Some s) (str "maxItems") = count_member hi →
  json_member (Some s) (str "items") = Some items →
  Z.abs lo < 2 ^ 53 → Z.abs hi < 2 ^ 53 →
  validate_schema (Some v) (Some s) =
    if v is JArray l then
      (lo <=? Z.of_nat (length l)) &&
      (Z.of_nat (length l) <=? (if hi =? 0 then 10 ^ 9 else hi)) &&
      forallb (λ x, validate_schema (Some x) (Some items)) l
    else false.
Proof.
  intros Ha Ht He Hlo Hhi Hi Hlo' Hhi'. rewrite (validate_typed "array") by (done || set_solver).
  destruct v as [| | | | | |l|]; try reflexivity.
  unfold in_enum, in_range, json_number. rewrite He, Hlo, Hhi, Hi. unfold count_member.
  cbn [yyjson_is_num yyjson_is_obj yyjson_is_arr elements andb negb of_type].
  rewrite bool_decide_true, !andb_true_l by done. f_equal.
  rewrite negb_orb. f_equal.
  - destruct (Z.eqb_spec lo 0) as [->|]; cbn [yyjson_is_num yyjson_get_num];
      rewrite double_lt_small by done; lia.
  - destruct (Z.eqb_spec hi 0) as [->|]; cbn [yyjson_is_num yyjson_get_num];
      rewrite double_gt_small by done; lia.
Qed.

(** An object with known members only. *)
Lemma validate_object s needed known v :
  json_member (Some s) (str "anyOf") = None →
  json_string (Some s) (str "type") = Some (str "object") →
  json_member (Some s) (str "enum") = None →
  elements (json_member (Some s) (str "required")) = JString <$> needed →
  Forall (λ n, zero ∉ n) needed →
  json_member (Some s) (str "additionalProperties") = Some (JBool false) →
  (∀ k, match json_member (json_member (Some s) (str "properties")) k, known k with
        | Some p, Some ok => ∀ x, validate_schema (Some x) (Some p) = ok x
        | None, None => True
        | _, _ => False
        end) →
  validate_schema (Some v) (Some s) = object_ok needed known v.
Proof.
  intros Ha Ht He Hneeded Hclean Hmore Hknown.
  rewrite (validate_typed "object") by (done || set_solver).
  destruct v as [| | | | | | |l]; try reflexivity.
  unfold in_enum, in_range. rewrite He, Hneeded, Hmore.
  cbn [yyjson_is_num yyjson_is_obj yyjson_is_arr members andb negb of_type].
  rewrite bool_decide_true, andb_true_r by done. cbn [andb]. unfold object_ok. f_equal.
  - clear Hneeded. induction Hclean as [|n needed Hn _ IH]; [done|].
    rewrite fmap_cons. cbn [forallb]. f_equal; [|exact IH].
    cbn [yyjson_obj_get yyjson_get_str members]. by rewrite cstring_id.
  - apply forallb_ext_in. intros m _. specialize (Hknown (cstring m.1)).
    destruct (json_member (json_member _ _) _), (known _); done.
Qed.

Lemma forallb_true {A} (l : list A) : forallb (λ _, true) l = true.
Proof. by induction l. Qed.

(** An object with no more said. *)
Lemma validate_any_object s v :
  json_member (Some s) (str "anyOf") = None →
  json_string (Some s) (str "type") = Some (str "object") →
  json_member (Some s) (str "enum") = None →
  json_member (Some s) (str "required") = None →
  json_member (Some s) (str "properties") = None →
  json_member (Some s) (str "additionalProperties") = None →
  validate_schema (Some v) (Some s) = yyjson_is_obj (Some v).
Proof.
  intros Ha Ht He Hr Hp Hm. rewrite (validate_typed "object") by (done || set_solver).
  destruct v as [| | | | | | |l]; try reflexivity.
  unfold in_enum, in_range. rewrite He, Hr, Hp, Hm.
  cbn [yyjson_is_num yyjson_is_obj yyjson_is_arr members andb negb of_type elements forallb].
  rewrite bool_decide_true by done. cbn. by rewrite forallb_true.
Qed.

Lemma plausible_free v s :
  json_member (Some s) (str "minimum") = None → json_member (Some s) (str "maximum") = None →
  in_range (Some v) (Some s) = negb (yyjson_is_num (Some v)) || plausible v.
Proof.
  intros Hlo Hhi. unfold in_range, json_number, plausible. rewrite Hlo, Hhi.
  by destruct (yyjson_is_num (Some v)).
Qed.

(** The schemas that the code writes out. *)
Lemma validate_items t v :
  is_array t = true →
  validate_schema (Some v) (Some (member_text "type" (item_name t) result_object)) = item_ok t v.
Proof.
  intros Ht. destruct (decide (item_name t = "object"%string)) as [E|E].
  { rewrite E. destruct t; try done; by apply validate_any_object. }
  rewrite (validate_scalar (item_name t)); [|by destruct t; set_solver|done|by destruct t].
  rewrite plausible_free by done.
  destruct t; try done; destruct v; cbn; by rewrite ?andb_true_r, ?andb_false_r.
Qed.

Lemma validate_window v :
  validate_schema (Some v) (Some window_schema) = yyjson_is_int (Some v) && plausible v.
Proof.
  rewrite (validate_scalar "integer"); [|by set_solver|done|reflexivity].
  rewrite plausible_free by done. by destruct v.
Qed.

Lemma validate_refresh v :
  validate_schema (Some v) (Some refresh_schema) = yyjson_is_bool (Some v).
Proof.
  rewrite (validate_scalar "boolean"); [|by set_solver|done|reflexivity]. by destruct v.
Qed.

Section argument.
Context (a : Argument) (Hwf : argument_wf a).

Lemma no_choices : a.(type) ≠ ARG_STRING → a.(choices) = None.
Proof.
  intros Ht. destruct a.(choices) eqn:E; [|done].
  exfalso. apply Ht, (choices_of_string a Hwf). by rewrite E.
Qed.

Lemma bare_no_enum :
  a.(type) ≠ ARG_STRING → json_member (Some (bare_schema a)) (str "enum") = None.
Proof. intros Ht. by rewrite bare_enum, no_choices. Qed.

Lemma in_range_number v :
  yyjson_is_num (Some v) = true → is_array a.(type) = false →
  in_range (Some v) (Some (bare_schema a)) = number_ok a v.
Proof.
  intros Hv Ha. destruct (bounds_small a Hwf) as [Hlo Hhi].
  unfold in_range, json_number, number_ok.
  rewrite (bare_range a "minimum" a.(minimum)), (bare_range a "maximum" a.(maximum)) by auto.
  rewrite Ha, Hv. cbn [orb andb]. destruct (a.(maximum) =? 0); [done|].
  cbn [yyjson_is_num yyjson_get_num].
  destruct v as [| |n|n| | | |]; try done; cbn [yyjson_get_num];
    rewrite double_lt_small, double_gt_small by done; lia.
Qed.

Lemma in_enum_string s :
  a.(type) = ARG_STRING →
  in_enum (Some (JString s)) (Some (bare_schema a)) =
    if a.(choices) is Some c then existsb (text_eqb s) c else true.
Proof.
  intros Ht. unfold in_enum. rewrite bare_enum.
  destruct a.(choices) as [c|] eqn:Hc; [|done]. cbn [fmap option_fmap option_map].
  pose proof (choices_clean a Hwf c Hc) as Hclean. clear Hc.
  unfold choice_values. cbn [elements].
  induction Hclean as [|d c Hd _ IH]; [done|]. rewrite fmap_cons. cbn [existsb].
  f_equal; [|exact IH]. cbn. by rewrite cstring_id.
Qed.

Lemma validate_bare_array items v :
  is_array a.(type) = true →
  validate_schema (Some v) (Some (result_member (bare_schema a) (str "items") items)) =
    if v is JArray l then size_ok a l && forallb (λ x, validate_schema (Some x) (Some items)) l
    else false.
Proof.
  intros Ha. pose proof (is_obj_bare a) as Ho. destruct (bounds_small a Hwf) as [Hlo Hhi].
  unfold size_ok. apply (validate_array _ items v a.(minimum) a.(maximum)); [..|done|done];
    unfold json_string; rewrite ?json_member_result by done.
  - apply bare_anyOf.
  - etransitivity; [apply bare_type|]. by destruct a.(type).
  - apply bare_no_enum. by destruct a.(type).
  - by rewrite (bare_array a "minItems" (count_member a.(minimum))), Ha by set_solver.
  - by rewrite (bare_array a "maxItems" (count_member a.(maximum))), Ha by set_solver.
  - done.
Qed.

Lemma validate_bare_items v :
  is_array a.(type) = true →
  validate_schema (Some v) (Some (bare_schema a)) =
    if v is JArray l then size_ok a l && forallb (item_ok a.(type)) l else false.
Proof.
  intros Ha. destruct (bounds_small a Hwf) as [Hlo Hhi]. unfold size_ok.
  rewrite (validate_array _ (items_schema a) v a.(minimum) a.(maximum)); [..|done|done].
  - destruct v; try done. f_equal. apply forallb_ext_in. intros x _. by apply validate_items.
  - apply bare_anyOf.
  - rewrite bare_type. by destruct a.(type).
  - apply bare_no_enum. by destruct a.(type).
  - by rewrite (bare_array a "minItems" (count_member a.(minimum))), Ha by set_solver.
  - by rewrite (bare_array a "maxItems" (count_member a.(maximum))), Ha by set_solver.
  - by rewrite (bare_array a "items" (Some (items_schema a))), Ha by set_solver.
Qed.

Lemma validate_bare_observation v :
  a.(type) = ARG_OBSERVATION →
  validate_schema (Some v) (Some (bare_schema a)) = object_ok [str "window"] observation_known v.
Proof.
  intros Ht. pose proof (bare_observation a) as Hm.
  apply validate_object; try (by rewrite bare_anyOf); try (rewrite bare_type, Ht; done).
  - apply bare_no_enum. by rewrite Ht.
  - rewrite (Hm "required"%string (JArray [JString (str "window")])) by set_solver. by rewrite Ht.
  - constructor; [|done]. by apply (bool_decide_unpack _); vm_compute.
  - rewrite (Hm "additionalProperties"%string (JBool false)) by set_solver. by rewrite Ht.
  - intros k. erewrite (Hm "properties"%string) by (apply elem_of_cons; by left). rewrite Ht.
    cbn [bool_decide decide_rel]. unfold observation_known.
    rewrite bool_decide_true by done. unfold json_member. cbn [yyjson_obj_get members lookup_member].
    rewrite (text_eqb_sym (str "window")), (text_eqb_sym (str "refresh")).
    destruct (text_eqb k (str "window")); [apply validate_window|].
    destruct (text_eqb k (str "refresh")); [apply validate_refresh|done].
Qed.

Lemma validate_bare v :
  validate_schema (Some v) (Some (bare_schema a)) = value_ok (item_ok a.(type)) a v.
Proof.
  unfold value_ok. destruct (is_array a.(type)) eqn:Ha.
  { rewrite validate_bare_items by done. by destruct a.(type). }
  destruct (decide (a.(type) = ARG_OBSERVATION)) as [Ht|Ht].
  { rewrite validate_bare_observation by done. by rewrite Ht. }
  destruct (decide (a.(type) = ARG_OBJECT)) as [Ho|Ho].
  { rewrite Ho. apply validate_any_object; rewrite ?bare_anyOf, ?bare_type, ?Ho; try done.
    { apply bare_no_enum. by rewrite Ho. }
    all: by apply bare_plain; [set_solver|]. }
  rewrite (validate_scalar (type_name a.(type))); [|by destruct a.(type); set_solver|
    apply bare_anyOf|apply bare_type].
  destruct (yyjson_is_num (Some v)) eqn:Hv.
  - rewrite in_range_number by done. unfold in_enum. 
    destruct (decide (a.(type) = ARG_STRING)) as [Hs|Hs].
    + rewrite Hs. by destruct v.
    + rewrite bare_no_enum by done. by destruct a.(type), v.
  - assert (in_range (Some v) (Some (bare_schema a)) = true) as -> by (unfold in_range; by rewrite Hv).
    destruct (decide (a.(type) = ARG_STRING)) as [Hs|Hs].
    + rewrite Hs. destruct v; try done. rewrite in_enum_string by done. by rewrite andb_true_r.
    + unfold in_enum. rewrite bare_no_enum by done. by destruct a.(type), v.
Qed.
End argument.

(** ** The properties of a tool's schema *)

Lemma validate_off_null v :
  validate_schema (Some v) (Some (member_text "type" "null" result_object)) = yyjson_is_null (Some v).
Proof.
  rewrite (validate_scalar "null"); [|by set_solver|done|reflexivity].
  rewrite plausible_free by done. by destruct v.
Qed.

Lemma validate_off_false v :
  validate_schema (Some v) (Some (result_member (member_text "type" "boolean" result_object)
    (str "enum") (result_append result_array (JBool false)))) = yyjson_is_false (Some v).
Proof.
  rewrite (validate_scalar "boolean"); [|by set_solver|done|reflexivity].
  rewrite plausible_free by done. by destruct v as [|[]| | | | | |].
Qed.

Lemma validate_any_of o off v :
  validate_schema (Some v) (Some (result_member result_object (str "anyOf")
    (result_append (result_append result_array o) off))) =
  validate_schema (Some v) (Some o) || validate_schema (Some v) (Some off).
Proof.
  rewrite validate_schema_unfold. unfold schema_body.
  rewrite json_member_result by done.
  change (text_eqb (cstring (str "anyOf")) (str "anyOf")) with true.
  cbn [result_append result_array app elements existsb]. by rewrite orb_false_r.
Qed.

Lemma validate_or_off a o v :
  validate_schema (Some v) (Some (or_off a o)) =
    validate_schema (Some v) (Some o) ||
    (a.(allow_null) && yyjson_is_null (Some v)) ||
    (a.(allow_false) && negb a.(allow_null) && yyjson_is_false (Some v)).
Proof.
  unfold or_off. destruct a.(allow_false), a.(allow_null); cbn [orb andb negb when];
    rewrite ?validate_any_of, ?validate_off_null, ?validate_off_false, ?orb_false_r; done.
Qed.

Lemma validate_argument a v :
  argument_wf a →
  validate_schema (Some v) (Some (argument_schema a)) = argument_accepts (item_ok a.(type)) a v.
Proof. intros Ha. unfold argument_schema. by rewrite validate_or_off, validate_bare. Qed.

Definition argument_named (l : list Argument) (k : text) : option Argument :=
  find (λ a, text_eqb a.(arg_name) k) l.

Lemma add_argument_schemas_lookup l o k :
  yyjson_is_obj (Some o) = true → NoDup (arg_name <$> l) → Forall (λ a, zero ∉ a.(arg_name)) l →
  yyjson_is_obj (Some (add_argument_schemas o l)) = true ∧
  json_member (Some (add_argument_schemas o l)) k =
    match argument_named l k with
    | Some a => Some (argument_schema a)
    | None => json_member (Some o) k
    end.
Proof.
  revert o. induction l as [|a l IH]; intros o Ho Hn Hc; [done|].
  rewrite fmap_cons in Hn. apply NoDup_cons in Hn as [Ha Hn]. apply Forall_cons in Hc as [Hac Hc].
  destruct (IH (result_member o a.(arg_name) (argument_schema a))) as [Ho' IH']; [by apply is_obj_result|done..|].
  split; [done|]. change (add_argument_schemas o (a :: l)) with
    (add_argument_schemas (result_member o a.(arg_name) (argument_schema a)) l).
  rewrite IH', json_member_result by done. unfold argument_named. cbn [find].
  rewrite cstring_id by done.
  destruct (text_eqb (arg_name a) k) eqn:E; [|done].
  apply text_eqb_spec in E as <-.
  destruct (find _ l) as [b|] eqn:Hb; [|done].
  apply find_some in Hb as [Hb E%text_eqb_spec]. exfalso. apply Ha. rewrite <- E.
  apply list_elem_of_fmap_2. by apply list_elem_of_In.
Qed.

Definition keys_clean (o : json) : Prop := Forall (λ m, zero ∉ m.1) (members (Some o)).

Lemma keys_clean_result o k x : keys_clean o → keys_clean (result_member o k x).
Proof.
  unfold keys_clean. destruct o as [| | | | | | |l]; try done. cbn [result_member members]. intros H.
  apply Forall_forall. intros m [->|Hm]%put_member_elem; [apply cstring_no_nul|].
  by eapply Forall_forall in H.
Qed.

Lemma keys_clean_add o l : keys_clean o → keys_clean (add_argument_schemas o l).
Proof.
  revert o. induction l as [|a l IH]; intros o Ho; [done|].
  by apply (IH (result_member _ _ _)), keys_clean_result.
Qed.

Lemma keys_clean_when b f o : keys_clean o → keys_clean (f o) → keys_clean (when b f o).
Proof. by destruct b. Qed.

Section ordered.
Context (ps : list (text * json)) (Hclean : Forall (λ m, zero ∉ m.1) ps).

(** [o] agrees with the properties where it has a member. *)
Definition agrees (o : json) : Prop :=
  yyjson_is_obj (Some o) = true ∧
  ∀ k x, json_member (Some o) k = Some x → lookup_member ps k = Some x.

Lemma ordered_first l o :
  agrees o → Forall (λ n, zero ∉ n) l →
  agrees (foldl (λ o n,
    if json_member (Some (JObject ps)) n is Some p then result_member o n p else o) o l).
Proof.
  intros Ho Hl. revert o Ho. induction Hl as [|n l Hn _ IH]; intros o [Ho Hk]; [done|].
  apply IH. destruct (json_member (Some (JObject ps)) n) as [p|] eqn:Hp; [|done].
  split; [by apply is_obj_result|]. intros k x. rewrite json_member_result by done.
  rewrite cstring_id by done. destruct (text_eqb n k) eqn:E; [|apply Hk].
  apply text_eqb_spec in E as <-. by intros [= <-].
Qed.

Lemma ordered_rest before rest o :
  ps = before ++ rest → agrees o →
  (∀ k, has_member before k = true → is_Some (json_member (Some o) k)) →
  let o' := foldl (λ o m,
    let k := cstring m.1 in
    if json_member (Some o) k is Some _ then o else result_member o k m.2) o rest in
  agrees o' ∧ ∀ k, has_member ps k = true → is_Some (json_member (Some o') k).
Proof.
  revert before o. induction rest as [|[k x] rest IH]; intros before o Hps Ho Hb o'.
  { rewrite app_nil_r in Hps. subst before. done. }
  assert (Hk : cstring k = k).
  { apply cstring_id. rewrite Hps in Hclean. apply Forall_app in Hclean as [_ H].
    by apply Forall_cons in H as [H _]. }
  assert (Hbefore : ∀ j, has_member (before ++ [(k, x)]) j =
    has_member before j || text_eqb k j).
  { intros j. clear. induction before as [|[i y] before IH]; cbn; unfold has_member in *; simpl.
    - by destruct (text_eqb k j).
    - by destruct (text_eqb i j). }
  assert (Hlook : has_member before k = false → lookup_member ps k = Some x).
  { rewrite Hps. clear. unfold has_member. induction before as [|[i y] before IH]; simpl.
    - by rewrite text_eqb_refl.
    - by destruct (text_eqb i k). }
  subst o'. cbn [foldl fst snd]. rewrite Hk. apply (IH (before ++ [(k, x)])).
  - by rewrite Hps, <- app_assoc.
  - destruct (json_member (Some o) k) as [y|] eqn:Hy; [done|].
    destruct Ho as [Ho Hag]. split; [by apply is_obj_result|].
    intros j z. rewrite json_member_result, Hk by done. destruct (text_eqb k j) eqn:E; [|apply Hag].
    apply text_eqb_spec in E as <-. intros [= <-]. apply Hlook.
    apply not_true_iff_false. intros Hm%Hb. rewrite Hy in Hm. by destruct Hm.
  - intros j. rewrite Hbefore. intros [Hj|Hj]%orb_true_iff.
    + destruct (json_member (Some o) k) as [y|] eqn:Hy; [by apply Hb|].
      rewrite json_member_result, Hk by apply Ho. case_match; [done|by apply Hb].
    + apply text_eqb_spec in Hj as <-.
      destruct (json_member (Some o) k) as [y|] eqn:Hy; [done|].
      rewrite json_member_result, Hk, text_eqb_refl by apply Ho. done.
Qed.

(** Putting the required arguments first changes no member. *)
Lemma ordered_lookup l k :
  Forall (λ n, zero ∉ n) l →
  json_member (Some (ordered_properties l (JObject ps))) k = lookup_member ps k.
Proof.
  intros Hl. unfold ordered_properties. cbn [members].
  destruct (ordered_rest [] ps (foldl (λ o n,
    if json_member (Some (JObject ps)) n is Some p then result_member o n p else o)
    result_object l)) as [[_ Hag] Hall]; [done|by apply ordered_first|done|].
  match goal with |- json_member (Some ?o) _ = _ => set (o' := o) in * end.
  destruct (json_member (Some o') k) as [x|] eqn:Hx; [by rewrite (Hag _ _ Hx)|].
  destruct (lookup_member ps k) as [y|] eqn:Hy; [|done].
  destruct (Hall k) as [z Hz]; [unfold has_member; by rewrite Hy|]. congruence.
Qed.
End ordered.

(** ** Steps and tools *)

Definition tool_arguments (no_vision : bool) (tool : Tool) : list Argument :=
  (if no_vision && text_eqb tool.(name) (str "status") then [] else tool.(arguments)) ++
  (if has_flag tool.(groups) ARGS_ACTION then action_arguments else []) ++
  (if has_flag tool.(groups) ARGS_POINT then point_arguments else []).

Definition known_arguments (item : Argument → json → bool) (l : list Argument) (k : text) :
    option (json → bool) :=
  (λ a, argument_accepts (item a) a) <$> argument_named l k.

(** The arguments of one action. *)
Definition action_accepts (no_vision : bool) (step : Tool) : json → bool :=
  object_ok (default [] step.(required))
    (known_arguments (λ a, item_ok a.(type)) (tool_arguments no_vision step)).

Definition step_known (no_vision : bool) (step : Tool) (k : text) : option (json → bool) :=
  if text_eqb k (str "tool") then
    Some (λ x, if x is JString s then text_eqb s step.(name) else false)
  else if text_eqb k (str "args") then Some (action_accepts no_vision step)
  else None.

(** A step names an action of its kind of batch, with that action's arguments. *)
Definition step_accepts (no_vision : bool) (kind : Z) (x : json) : bool :=
  existsb (λ step, object_ok [str "tool"; str "args"] (step_known no_vision step) x)
    (batch_steps kind).

Definition item_accepts (no_vision : bool) (tool : Tool) (a : Argument) : json → bool :=
  if negb (tool.(batch) =? BATCH_NONE) && text_eqb a.(arg_name) (str "steps")
  then step_accepts no_vision tool.(batch)
  else item_ok a.(type).

Definition tool_accepts (no_vision : bool) (tool : Tool) : json → bool :=
  object_ok (default [] tool.(required))
    (known_arguments (item_accepts no_vision tool) (tool_arguments no_vision tool)).

(** What the tables keep to. *)
Record tool_wf (no_vision : bool) (tool : Tool) : Prop := {
  arguments_wf : Forall argument_wf (tool_arguments no_vision tool);
  arguments_apart : NoDup (arg_name <$> tool_arguments no_vision tool);
  required_clean : Forall (λ n, zero ∉ n) (default [] tool.(required));
  tool_name_clean : zero ∉ tool.(name);
  steps_plain : tool.(batch) ≠ BATCH_NONE →
    ∃ a, argument_named (tool_arguments no_vision tool) (str "steps") = Some a ∧
      a.(type) = ARG_OBJECT_ARRAY ∧ a.(allow_false) = false ∧ a.(allow_null) = false;
}.

Section tool.
Context (nested : Tool → json) (no_vision : bool) (tool : Tool) (Hwf : tool_wf no_vision tool).

Definition plain_properties : json :=
  add_argument_schemas result_object (tool_arguments no_vision tool).

Lemma plain_properties_eq :
  plain_properties =
  when (has_flag tool.(groups) ARGS_POINT) (λ o, add_argument_schemas o point_arguments)
    (when (has_flag tool.(groups) ARGS_ACTION) (λ o, add_argument_schemas o action_arguments)
      (when (negb (no_vision && text_eqb tool.(name) (str "status")))
        (λ o, add_argument_schemas o tool.(arguments)) result_object)).
Proof.
  unfold plain_properties, tool_arguments, add_argument_schemas. rewrite !foldl_app.
  by destruct (no_vision && _), (has_flag _ ARGS_ACTION), (has_flag _ ARGS_POINT).
Qed.

Lemma plain_properties_lookup k :
  yyjson_is_obj (Some plain_properties) = true ∧
  json_member (Some plain_properties) k =
    argument_schema <$> argument_named (tool_arguments no_vision tool) k.
Proof.
  destruct (add_argument_schemas_lookup (tool_arguments no_vision tool) result_object k)
    as [Ho Hk]; [done|by apply Hwf| |].
  { eapply Forall_impl; [by apply Hwf|]. intros a Ha. apply Ha. }
  unfold plain_properties. split; [done|]. rewrite Hk. by destruct (argument_named _ k).
Qed.

(** The schema of an argument of the tool. *)
Definition tool_argument_schema (a : Argument) : json :=
  if negb (tool.(batch) =? BATCH_NONE) && text_eqb a.(arg_name) (str "steps")
  then result_member (argument_schema a) (str "items") (steps_schema nested tool.(batch))
  else argument_schema a.

Definition batch_properties : json :=
  when (negb (tool.(batch) =? BATCH_NONE))
    (λ o, with_items o (steps_schema nested tool.(batch))) plain_properties.

Lemma batch_properties_lookup k :
  yyjson_is_obj (Some batch_properties) = true ∧
  json_member (Some batch_properties) k =
    tool_argument_schema <$> argument_named (tool_arguments no_vision tool) k.
Proof.
  destruct (plain_properties_lookup k) as [Ho Hk].
  assert (Hname : ∀ a, argument_named (tool_arguments no_vision tool) k = Some a →
    a.(arg_name) = k).
  { intros a Ha. by apply find_some in Ha as [_ ?%text_eqb_spec]. }
  unfold batch_properties, tool_argument_schema, when, with_items.
  destruct (Z.eqb_spec tool.(batch) BATCH_NONE) as [Hb|Hb]; cbn [negb andb]; [done|].
  destruct (steps_plain _ _ Hwf Hb) as (a & Ha & _).
  destruct (plain_properties_lookup (str "steps")) as [_ Hsteps].
  rewrite Hsteps, Ha. cbn [fmap option_fmap option_map].
  split; [by apply is_obj_result|]. rewrite json_member_result by done.
  change (cstring (str "steps")) with (str "steps").
  destruct (text_eqb (str "steps") k) eqn:E.
  - apply text_eqb_spec in E as <-. rewrite Ha. cbn [fmap option_fmap option_map].
    rewrite (Hname a) by done. by rewrite text_eqb_refl.
  - rewrite Hk. destruct (argument_named _ k) as [b|] eqn:Hb'; [|done].
    cbn [fmap option_fmap option_map]. by rewrite (Hname b), text_eqb_sym, E.
Qed.

Lemma batch_properties_clean : keys_clean batch_properties.
Proof.
  assert (keys_clean plain_properties) by by apply keys_clean_add, List.Forall_nil.
  unfold batch_properties. apply keys_clean_when; [done|]. unfold with_items.
  case_match; [by apply keys_clean_result|done].
Qed.

Definition tool_properties : json :=
  if tool.(required) is Some l then ordered_properties l batch_properties else batch_properties.

Lemma tool_properties_lookup k :
  json_member (Some tool_properties) k =
    tool_argument_schema <$> argument_named (tool_arguments no_vision tool) k.
Proof.
  destruct (batch_properties_lookup k) as [Ho Hk]. rewrite <- Hk.
  pose proof batch_properties_clean as Hc. pose proof (required_clean _ _ Hwf) as Hr.
  unfold tool_properties. destruct tool.(required) as [l|]; [|done].
  destruct batch_properties as [| | | | | | |ps]; try done. by apply ordered_lookup.
Qed.

Lemma tool_schema_eq :
  tool_schema nested no_vision tool =
  result_boolean
    (result_member (result_member (member_text "type" "object" result_object)
       (str "properties") tool_properties)
       (str "required") (JArray ((λ n, JString (cstring n)) <$> default [] tool.(required))))
    (str "additionalProperties") false.
Proof.
  unfold tool_schema, tool_properties, batch_properties. rewrite plain_properties_eq. cbv zeta.
  unfold result_array. by rewrite (append_all (λ n, JString (cstring n))).
Qed.
(** The object that a schema of arguments describes. *)
Lemma validate_tool_schema (item : Argument → json → bool) v :
  (∀ a x, a ∈ tool_arguments no_vision tool →
    validate_schema (Some x) (Some (tool_argument_schema a)) = argument_accepts (item a) a x) →
  validate_schema (Some v) (Some (tool_schema nested no_vision tool)) =
    object_ok (default [] tool.(required))
      (known_arguments item (tool_arguments no_vision tool)) v.
Proof.
  intros Hitem. rewrite tool_schema_eq. unfold result_boolean.
  apply validate_object; unfold json_string; rewrite ?json_member_result by done; try done.
  - change (text_eqb (cstring (str "additionalProperties")) (str "required")) with false.
    change (text_eqb (cstring (str "required")) (str "required")) with true. cbv iota.
    cbn [elements]. pose proof (required_clean _ _ Hwf) as Hr.
    induction Hr as [|n l Hn _ IH]; [done|]. by rewrite !fmap_cons, IH, cstring_id.
  - apply Hwf.
  - intros k.
    change (text_eqb (cstring (str "additionalProperties")) (str "properties")) with false.
    change (text_eqb (cstring (str "required")) (str "properties")) with false.
    change (text_eqb (cstring (str "properties")) (str "properties")) with true. cbv iota.
    rewrite tool_properties_lookup. unfold known_arguments.
    destruct (argument_named _ k) as [a|] eqn:Ha; [|done]. cbn [fmap option_fmap option_map].
    intros x. apply Hitem. apply find_some in Ha as [Ha _]. by apply list_elem_of_In.
Qed.
End tool.

(** One alternative of the steps. *)
Lemma validate_step nested no_vision step v :
  zero ∉ step.(name) →
  (∀ x, validate_schema (Some x) (Some (nested step)) = action_accepts no_vision step x) →
  validate_schema (Some v) (Some (step_schema nested step)) =
    object_ok [str "tool"; str "args"] (step_known no_vision step) v.
Proof.
  intros Hname Hnested. unfold step_schema, result_boolean. cbv zeta.
  apply validate_object; unfold json_string, result_string; rewrite ?json_member_result by done;
    try done.
  - repeat constructor; by apply (bool_decide_unpack _); vm_compute.
  - intros k.
    change (text_eqb (cstring (str "additionalProperties")) (str "properties")) with false.
    change (text_eqb (cstring (str "required")) (str "properties")) with false.
    change (text_eqb (cstring (str "properties")) (str "properties")) with true. cbv iota.
    rewrite !json_member_result by done. unfold step_known.
    change (cstring (str "args")) with (str "args"). change (cstring (str "tool")) with (str "tool").
    rewrite (text_eqb_sym k (str "tool")), (text_eqb_sym k (str "args")).
    destruct (text_eqb (str "tool") k) eqn:E.
    + apply text_eqb_spec in E as <-.
      change (text_eqb (str "args") (str "tool")) with false. cbv iota. intros x.
      rewrite (validate_scalar "string"); [|by set_solver| |]; [|done|done].
      rewrite plausible_free by done. unfold in_enum. rewrite json_member_result by done.
      change (text_eqb (cstring (str "enum")) (str "enum")) with true.
      destruct x as [| | | | |s| |]; try done.
      cbn [of_type result_append result_array app elements existsb yyjson_equals json_equals].
      rewrite bool_decide_true, cstring_id, orb_false_r by done. cbn.
      rewrite andb_true_r. unfold no_nul. destruct (text_eqb s (name step)) eqn:E; [|apply andb_false_r].
      apply text_eqb_spec in E as ->. by rewrite bool_decide_true.
    + destruct (text_eqb (str "args") k); [apply Hnested|done].
Qed.

Lemma validate_steps nested no_vision kind v :
  (∀ step, step ∈ batch_steps kind → zero ∉ step.(name) ∧
    ∀ x, validate_schema (Some x) (Some (nested step)) = action_accepts no_vision step x) →
  validate_schema (Some v) (Some (steps_schema nested kind)) = step_accepts no_vision kind v.
Proof.
  intros Hsteps. rewrite validate_schema_unfold. unfold schema_body, steps_schema, step_accepts.
  rewrite json_member_result by done.
  change (text_eqb (cstring (str "anyOf")) (str "anyOf")) with true. cbv iota.
  unfold result_array. rewrite (append_all (step_schema nested)). cbn [elements app].
  induction (batch_steps kind) as [|step l IH]; [done|]. rewrite fmap_cons. cbn [existsb].
  f_equal; [|apply IH; set_solver].
  destruct (Hsteps step) as [Hn Hs]; [set_solver|]. by apply validate_step.
Qed.

(** ** The catalog *)

Definition argument_wfb (a : Argument) : bool :=
  no_nul a.(arg_name) &&
  (if a.(choices) is Some c
   then bool_decide (a.(type) = ARG_STRING) && forallb no_nul c else true) &&
  (Z.abs a.(minimum) <? 2 ^ 53) && (Z.abs a.(maximum) <? 2 ^ 53).

Lemma forallb_no_nul l : forallb no_nul l = true → Forall (λ s, zero ∉ s) l.
Proof.
  intros H. apply List.Forall_forall. intros s Hs.
  eapply forallb_forall in H; [|exact Hs]. by apply bool_decide_eq_true in H.
Qed.

Lemma argument_wfb_wf a : argument_wfb a = true → argument_wf a.
Proof.
  unfold argument_wfb. rewrite !andb_true_iff, !Z.ltb_lt.
  intros [[[Hn%bool_decide_eq_true Hc] Hlo] Hhi]. split; [done| | |done].
  - intros [c E]. rewrite E in Hc. apply andb_true_iff in Hc as [Hc _].
    by apply bool_decide_eq_true in Hc.
  - intros c E. rewrite E in Hc. apply andb_true_iff in Hc as [_ Hc]. by apply forallb_no_nul.
Qed.

Definition tool_wfb (no_vision : bool) (tool : Tool) : bool :=
  forallb argument_wfb (tool_arguments no_vision tool) &&
  bool_decide (NoDup (arg_name <$> tool_arguments no_vision tool)) &&
  forallb no_nul (default [] tool.(required)) && no_nul tool.(name) &&
  ((tool.(batch) =? BATCH_NONE) ||
   match argument_named (tool_arguments no_vision tool) (str "steps") with
   | Some a => bool_decide (a.(type) = ARG_OBJECT_ARRAY) && negb a.(allow_false) && negb a.(allow_null)
   | None => false
   end).

Lemma tool_wfb_wf no_vision tool : tool_wfb no_vision tool = true → tool_wf no_vision tool.
Proof.
  unfold tool_wfb. rewrite !andb_true_iff.
  intros [[[[Ha Hd%bool_decide_eq_true] Hr%forallb_no_nul] Hn%bool_decide_eq_true] Hb].
  split; try done.
  - apply List.Forall_forall. intros a Hin.
    eapply forallb_forall in Ha; [|exact Hin]. by apply argument_wfb_wf.
  - intros Hbatch. apply Z.eqb_neq in Hbatch. rewrite Hbatch in Hb. cbn [orb] in Hb.
    destruct (argument_named _ _) as [a|]; [|done]. exists a.
    rewrite !andb_true_iff, !negb_true_iff in Hb.
    by destruct Hb as [[?%bool_decide_eq_true ?] ?].
Qed.

Definition kinds : list Z := [BATCH_VISION; BATCH_ACCESSIBILITY].

Lemma all_true {A} (f : A → bool) l x : forallb f l = true → x ∈ l → f x = true.
Proof. rewrite forallb_forall. intros H Hx. apply H. by apply list_elem_of_In. Qed.

Lemma tools_wf no_vision tool : tool ∈ tools → tool_wf no_vision tool.
Proof.
  intros Ht. apply tool_wfb_wf. revert Ht. apply all_true. destruct no_vision; by vm_compute.
Qed.

Lemma steps_wf no_vision kind step :
  kind ∈ kinds → step ∈ batch_steps kind → tool_wf no_vision step ∧ step.(batch) = BATCH_NONE.
Proof.
  intros Hk Hs.
  assert (tool_wfb no_vision step && (step.(batch) =? BATCH_NONE) = true) as
    [? ?%Z.eqb_eq]%andb_true_iff; [|by split; [apply tool_wfb_wf|]].
  revert Hs. apply (all_true (λ step, tool_wfb no_vision step && (step.(batch) =? BATCH_NONE))).
  set_unfold in Hk. destruct Hk as [->|[->|[]]]; destruct no_vision; by vm_compute.
Qed.

Lemma tools_kinds tool : tool ∈ tools → tool.(batch) ≠ BATCH_NONE → tool.(batch) ∈ kinds.
Proof.
  intros Ht Hb. unfold tools in Ht. set_unfold in Ht. unfold kinds. set_unfold.
  destruct Ht as [->|[->|[->|[->|[->|[]]]]]]; cbn in *; auto.
Qed.

Lemma argument_by_name l (a b : Argument) :
  NoDup (arg_name <$> l) → a ∈ l → b ∈ l → a.(arg_name) = b.(arg_name) → a = b.
Proof.
  intros Hn. induction l as [|c l IH]; [set_solver|].
  rewrite fmap_cons in Hn. apply NoDup_cons in Hn as [Hc Hn].
  intros [->|Ha]%elem_of_cons [->|Hb]%elem_of_cons E; [done| | |by apply IH];
    exfalso; apply Hc; [rewrite E|rewrite <- E]; by apply list_elem_of_fmap_2.
Qed.

Lemma validate_action nested no_vision step v :
  tool_wf no_vision step → step.(batch) = BATCH_NONE →
  validate_schema (Some v) (Some (tool_schema nested no_vision step)) = action_accepts no_vision step v.
Proof.
  intros Hwf Hb. apply validate_tool_schema; [done|]. intros a x Ha.
  unfold tool_argument_schema. rewrite Hb. cbn [Z.eqb BATCH_NONE negb andb].
  apply validate_argument. by eapply Forall_forall in Ha; [|apply arguments_wf].
Qed.

(** The steps of a batch are checked as its own actions. *)
Lemma validate_documented no_vision tool x :
  tool ∈ tools → validate_arguments no_vision tool (Some x) = tool_accepts no_vision tool x.
Proof.
  intros Ht. pose proof (tools_wf no_vision tool Ht) as Hwf.
  unfold validate_arguments, tool_accepts, build_tool_schema.
  apply (validate_tool_schema _ _ _ Hwf (item_accepts no_vision tool)). intros a y Ha.
  pose proof (proj1 (Forall_forall _ _) (arguments_wf _ _ Hwf) a Ha) as Hawf.
  unfold tool_argument_schema, item_accepts.
  destruct (Z.eqb_spec tool.(batch) BATCH_NONE) as [Hb|Hb]; cbn [negb andb];
    [by apply validate_argument|].
  destruct (text_eqb a.(arg_name) (str "steps")) eqn:E; [|by apply validate_argument].
  destruct (steps_plain _ _ Hwf Hb) as (b & Hn & Htype & Hfalse & Hnull).
  assert (a = b) as ->.
  { apply text_eqb_spec in E. apply find_some in Hn as [Hb' E'%text_eqb_spec].
    apply (argument_by_name (tool_arguments no_vision tool)); [by apply Hwf|done| |congruence].
    by apply list_elem_of_In. }
  unfold argument_schema, or_off, argument_accepts, value_ok.
  rewrite Hfalse, Hnull, Htype. cbn [orb andb]. rewrite !orb_false_r.
  rewrite validate_bare_array by (rewrite ?Htype; done).
  destruct y as [| | | | | |l|]; try done. f_equal. apply forallb_ext_in. intros z _.
  apply validate_steps. intros step Hs.
  destruct (steps_wf no_vision _ _ (tools_kinds _ Ht Hb) Hs) as [Hswf Hsb].
  split; [by apply Hswf|]. intros w. by apply validate_action.
Qed.

(** C12: the server runs a tool on exactly the arguments that its table
    documents: an object that has the required members and no unknown one, each
    of its type and within its bounds, where the steps of a batch are calls of
    its own actions.  A key counts up to its first NUL. *)
Theorem arguments_as_documented no_vision tool x :
  tool ∈ tools → validate_arguments no_vision tool (Some x) = tool_accepts no_vision tool x.
Proof. apply validate_documented. Qed.

(** ** The recursion of [build_tool_schema] *)

Lemma tool_schema_plain nested nested' no_vision tool :
  tool.(batch) = BATCH_NONE → tool_schema nested no_vision tool = tool_schema nested' no_vision tool.
Proof. intros Hb. unfold tool_schema. by rewrite Hb. Qed.

Lemma tool_schema_ext nested nested' no_vision tool :
  steps_schema nested tool.(batch) = steps_schema nested' tool.(batch) →
  tool_schema nested no_vision tool = tool_schema nested' no_vision tool.
Proof. intros Hs. unfold tool_schema. by rewrite Hs. Qed.

(** The equation of [build_tool_schema] in C, which calls itself for the steps. *)
Lemma build_tool_schema_unfold no_vision tool :
  tool ∈ tools →
  build_tool_schema no_vision tool = tool_schema (build_tool_schema no_vision) no_vision tool.
Proof.
  intros Ht. unfold build_tool_schema at 1.
  destruct (decide (tool.(batch) = BATCH_NONE)) as [Hb|Hb]; [by apply tool_schema_plain|].
  pose proof (tools_kinds _ Ht Hb) as Hk.
  assert (Hs : steps_schema (tool_schema (λ _, JNull) no_vision) tool.(batch) =
    steps_schema (build_tool_schema no_vision) tool.(batch)).
  { unfold steps_schema, result_array.
    rewrite (append_all (step_schema (tool_schema (λ _, JNull) no_vision))).
    rewrite (append_all (step_schema (build_tool_schema no_vision))). cbn [app].
    enough (step_schema (tool_schema (λ _, JNull) no_vision) <$> batch_steps tool.(batch) =
      step_schema (build_tool_schema no_vision) <$> batch_steps tool.(batch)) as -> by done.
    apply list_fmap_ext. intros i step Hi%list_elem_of_lookup_2.
    destruct (steps_wf no_vision _ _ Hk Hi) as [_ Hsb].
    unfold step_schema, build_tool_schema.
    by rewrite (tool_schema_plain (λ _, JNull) (tool_schema (λ _, JNull) no_vision) _ step). }
  by apply tool_schema_ext.
Qed.
