(* ===== verification/Results.v ===== *)
(** * The texts of the computer-use server's results

    How [native/scu_mcp.h] renders what a tool returns: the readable text of a
    result, and the content blocks around it.  Only the host's program renders
    results that are not errors. *)

From S2P Require Import Prelude Json Catalog.

Definition newline : text := [char 10].

(** [printf]'s [%s] of a pointer that may be [NULL]. *)
Definition printed (s : option text) : text := default (str "(null)") s.

(** [printf]'s [%*s] of an empty string. *)
Definition padding (width : Z) : text := replicate (Z.to_nat (Z.abs width)) " "%char.

(** Rounds [±m·2^e] to 53 bits, ties to even. *)
Definition double_round (m e : Z) : double :=
  let d := double_of_int m in Double d.(negative) d.(mantissa) (d.(exponent) + e).

Definition double_add (a b : double) : double :=
  let e := Z.min a.(exponent) b.(exponent) in
  double_round (signed a * 2 ^ (a.(exponent) - e) + signed b * 2 ^ (b.(exponent) - e)) e.

(** The cast to an integer, towards zero, of a value that fits. *)
Definition truncate (d : double) : Z :=
  if 0 <=? d.(exponent) then signed d * 2 ^ d.(exponent)
  else Z.quot (signed d) (2 ^ (- d.(exponent))).

Definition half : double := Double false 1 (-1).
Definition minus_half : double := Double true 1 (-1).

(** [(gint64)(value < 0 ? value - 0.5 : value + 0.5)]. *)
Definition rounded (value : double) : Z :=
  truncate (double_add value (if double_lt value (double_of_int 0) then minus_half else half)).

Definition truth (v : value) (k : string) : bool := yyjson_is_true (json_member v (str k)).
Definition falsity (v : value) (k : string) : bool := yyjson_is_false (json_member v (str k)).
Definition number (v : value) (k : string) : text :=
  signed_decimal (yyjson_get_sint (json_member v (str k))).
Definition string_of (v : value) (k : string) : option text := json_string v (str k).

Definition joined (ts : list text) : text := concat ts.

Section results.
Context `{Json_text}.

Definition append_result_value (v : value) : text :=
  default [] (v ≫= yyjson_write).

Definition append_result_frame (frame : value) : text :=
  str "[" ++
  joined (imap (λ i field,
    (if (i =? 0)%nat then [] else str ",") ++
    signed_decimal (rounded (yyjson_get_num (json_member frame (str field)))))
    ["x"; "y"; "width"; "height"]%string) ++
  str "]".

Definition append_tree_row (row : value) (include_frame : bool) : text :=
  padding (int_of_u32 (u32 (yyjson_get_sint (json_member row (str "depth")))) * 2) ++
  (if json_member row (str "element_id") is Some _
   then str "[" ++ number row "element_id" ++ str "] " else []) ++
  default (str "unknown") (string_of row "role") ++ str " " ++
  append_result_value (json_member row (str "label")) ++
  joined ((λ k : string,
    if json_member row (str k) is Some v
    then str " " ++ str k ++ str "=" ++ append_result_value (Some v) else [])
    <$> ["value"; "minimum"; "maximum"]%string) ++
  joined ((λ action,
    let n := yyjson_get_str (Some action) in
    if strcmp n "type_text" || strcmp n "set_value" then str " " ++ default [] n else [])
    <$> elements (json_member row (str "actions"))) ++
  (if falsity row "enabled" then str " disabled" else []) ++
  joined ((λ flag : string, if truth row flag then str " " ++ str flag else [])
    <$> ["focused"; "selected"; "checked"; "protected"; "text_truncated"]%string) ++
  (if include_frame && yyjson_is_obj (json_member row (str "frame"))
   then str " frame=" ++ append_result_frame (json_member row (str "frame")) else []) ++
  newline.

Definition append_result_error (label : string) (error : value) : text :=
  match error with
  | None => []
  | Some _ =>
      str label ++ str ": " ++ default (str "error") (string_of error "code") ++
      (if json_member error (str "index") is Some _ then
         str " (step " ++ number error "index" ++ str ", " ++
         default (str "unknown") (string_of error "tool") ++ str ")"
       else []) ++
      (if string_of error "hint" is Some hint then str ": " ++ hint else []) ++
      newline
  end.

Definition append_window (window : value) : text :=
  str "    window_id=" ++ number window "window_id" ++ str " " ++
  append_result_value (json_member window (str "title")) ++
  (if truth window "active" then str " active" else []) ++
  (if falsity window "shown" then str " hidden" else []) ++
  str " bounds=" ++ append_result_frame (json_member window (str "bounds")) ++
  str " accessibility=" ++
  (if truth window "accessibility_available" then str "yes"
   else str "no" ++
     (if string_of (json_member window (str "accessibility_error")) "hint" is Some reason
      then str " (" ++ reason ++ str ")" else [])) ++
  newline.

Definition append_app (app : value) : text :=
  str "  " ++ append_result_value (json_member app (str "app_name")) ++ str ":" ++ newline ++
  joined ((λ window, append_window (Some window)) <$> elements (json_member app (str "windows"))).

Definition append_status_result (output : value) : text :=
  let canvas := json_member output (str "canvas") in
  str "Screen: " ++ (if truth output "locked" then str "locked" else str "unlocked") ++ newline ++
  str "Canvas: " ++ number canvas "width" ++ str " x " ++ number canvas "height" ++ newline ++
  str "Windows:" ++ newline ++
  joined ((λ app, append_app (Some app)) <$> elements (json_member output (str "apps"))).

Definition append_warning (warning : value) : text :=
  str "Warning (step " ++ number warning "index" ++ str ", " ++
  printed (string_of warning "tool") ++ str "): " ++ printed (string_of warning "warning") ++
  newline.

Definition append_observation (observation : value) : text :=
  let screenshot := json_member observation (str "screenshot") in
  newline ++
  (if json_member observation (str "window_id") is Some _
   then str "Window " ++ number observation "window_id"
   else str "Desktop" ++ str "; " ++ number observation "width" ++ str " x " ++
     number observation "height") ++
  newline ++
  (if screenshot is Some _ then
     str "Screenshot: " ++ number screenshot "width" ++ str " x " ++
     number screenshot "height" ++ str "; bounds=" ++
     append_result_frame (json_member screenshot (str "bounds")) ++ newline
   else []) ++
  append_result_error "Error" (json_member observation (str "error")) ++
  append_result_error "Accessibility" (json_member observation (str "accessibility_error")) ++
  append_result_error "Screenshot" (json_member observation (str "screenshot_error")) ++
  (if truth observation "truncated"
   then str "Tree truncated; listed element IDs remain usable." ++ newline else []) ++
  (if string_of observation "tree_markdown" is Some tree then
     (if falsity observation "tree_full" then str "Tree (diff):" else str "Tree (full):") ++
     newline ++ tree
   else []).

Definition append_batch_result (output : value) : text :=
  str "Status: " ++ default (str "ok") (string_of output "status") ++ str ". completed: " ++
  number output "completed" ++ newline ++
  append_result_error "Failed" (json_member output (str "failed")) ++
  joined ((λ w, append_warning (Some w)) <$> elements (json_member output (str "warnings"))) ++
  joined ((λ o, append_observation (Some o)) <$> elements (json_member output (str "observations"))).

Definition error_payload (code hint : option text) : json :=
  result_string
    (result_string result_object (str "code") (Some (default (str "operation_failed") code)))
    (str "hint") (Some (default (str "Inspect state before retrying.") hint)).

Definition tool_named (tool : option Tool) (n : string) : bool :=
  if tool is Some tool then text_eqb tool.(name) (str n) else false.

Definition tool_result_text (tool : option Tool) (output : value) (code hint : option text) : text :=
  match output with
  | None => append_result_error "Error" (Some (error_payload code hint))
  | Some _ =>
      if tool_named tool "search_applications" || tool_named tool "launch_application" then
        default [] (string_of output "text") ++
        (if string_of output "window_notice" is Some notice then notice ++ newline else []) ++
        append_result_error "Window listing unavailable" (json_member output (str "window_error")) ++
        (if json_member output (str "apps") is Some _ then append_status_result output else [])
      else if tool_named tool "status" then append_status_result output
      else append_batch_result output
  end.

Definition text_block (body : text) : json :=
  result_string (member_text "type" "text" result_object) (str "text") (Some body).

Definition batch_failed (tool : option Tool) (output : value) : bool :=
  match tool, output with
  | Some tool, Some _ =>
      negb (tool.(batch) =? BATCH_NONE) && strcmp (json_string output (str "status")) "failed"
  | _, _ => false
  end.

Definition add_tool_result (result : json) (tool : option Tool) (output : value)
    (images : list json) (code hint : option text) : json :=
  let content :=
    if tool_named tool "status" && truth output "locked"
    then result_append result_array (text_block desktop_locked_warning) else result_array in
  let content := result_append content (text_block (tool_result_text tool output code hint)) in
  let content := if output is Some _ then foldl result_append content images else content in
  let result := result_member result (str "content") content in
  result_boolean result (str "isError")
    (match output with None => true | Some _ => batch_failed tool output end).
End results.
