(* ===== verification/Mcp.v ===== *)
(** * The computer-use server's protocol ([native/scu_mcp.h])

    The Model Context Protocol over lines of JSON: a thread frames what comes in
    and notes cancellations ([read_requests]); the main thread takes one request
    at a time ([handle_request]) and may run a tool for it ([call_tool]).

    The same code is part of two programs, the space's [scu.c] and the host's
    [scu_host.c], which differ in how a tool runs and where an answer goes: this
    is the class [Program].  What runs beside the main thread, between two of its
    looks at the variables they share, is [pause]. *)

From S2P Require Import Prelude Json Catalog Results.
From S2P Require Export Effects.

(** ** The state *)

(** [struct Scu] and the variables of the file.  [own] are the program's own. *)
Record server {M : Type} := Server {
  images : list json;
  code : option text;
  hint : option text;
  vision_request : bool;
  lock_seen : bool;
  lock_monitor : bool;
  cancelled : bool;
  stopping : bool;
  deadline : Z;
  requests : list (option json);   (** [None] is a line that is no document *)
  active_id : option text;
  modern : bool;
  initialized : bool;
  no_vision : bool;
  cancelled_ids : gset text;
  own : M;
}.
Arguments server : clear implicits.

(** What the main thread does that others see: it answers a request, it runs a
    tool on the arguments it accepted, it ends a call and finds it cancelled or
    not, or its program asks something. *)
Inductive event {E : Type} :=
  | Answered (reply : json) (line : option text)
  | Called (tool : Tool) (id parameters arguments : value)
  | Ended (id : value) (cancelled : bool)
  | Asked (e : E).
Arguments event : clear implicits.

Section state.
Context {M : Type}.
Abbreviation server := (server M).

Definition set_error (c h : option text) (s : server) : server := {|
  images := s.(images); code := c; hint := h; vision_request := s.(vision_request);
  lock_seen := s.(lock_seen); lock_monitor := s.(lock_monitor); cancelled :=
  s.(cancelled); stopping := s.(stopping); deadline := s.(deadline); requests :=
  s.(requests); active_id := s.(active_id); modern := s.(modern); initialized :=
  s.(initialized); no_vision := s.(no_vision); cancelled_ids := s.(cancelled_ids); own
  := s.(own) |}.
Definition set_cancelled (b : bool) (s : server) : server := {|
  images := s.(images); code := s.(code); hint := s.(hint); vision_request :=
  s.(vision_request); lock_seen := s.(lock_seen); lock_monitor := s.(lock_monitor);
  cancelled := b; stopping := s.(stopping); deadline := s.(deadline); requests :=
  s.(requests); active_id := s.(active_id); modern := s.(modern); initialized :=
  s.(initialized); no_vision := s.(no_vision); cancelled_ids := s.(cancelled_ids); own
  := s.(own) |}.
Definition set_stopping (b : bool) (s : server) : server := {|
  images := s.(images); code := s.(code); hint := s.(hint); vision_request :=
  s.(vision_request); lock_seen := s.(lock_seen); lock_monitor := s.(lock_monitor);
  cancelled := s.(cancelled); stopping := b; deadline := s.(deadline); requests :=
  s.(requests); active_id := s.(active_id); modern := s.(modern); initialized :=
  s.(initialized); no_vision := s.(no_vision); cancelled_ids := s.(cancelled_ids); own
  := s.(own) |}.
Definition set_requests (l : list (option json)) (s : server) : server := {|
  images := s.(images); code := s.(code); hint := s.(hint); vision_request :=
  s.(vision_request); lock_seen := s.(lock_seen); lock_monitor := s.(lock_monitor);
  cancelled := s.(cancelled); stopping := s.(stopping); deadline := s.(deadline);
  requests := l; active_id := s.(active_id); modern := s.(modern); initialized :=
  s.(initialized); no_vision := s.(no_vision); cancelled_ids := s.(cancelled_ids); own
  := s.(own) |}.
Definition set_active (k : option text) (b : bool) (s : server) : server := {|
  images := s.(images); code := s.(code); hint := s.(hint); vision_request :=
  s.(vision_request); lock_seen := s.(lock_seen); lock_monitor := s.(lock_monitor);
  cancelled := b; stopping := s.(stopping); deadline := s.(deadline); requests :=
  s.(requests); active_id := k; modern := s.(modern); initialized := s.(initialized);
  no_vision := s.(no_vision); cancelled_ids := s.(cancelled_ids); own := s.(own) |}.
Definition set_initialized (m b : bool) (s : server) : server := {|
  images := s.(images); code := s.(code); hint := s.(hint); vision_request :=
  s.(vision_request); lock_seen := s.(lock_seen); lock_monitor := s.(lock_monitor);
  cancelled := s.(cancelled); stopping := s.(stopping); deadline := s.(deadline);
  requests := s.(requests); active_id := s.(active_id); modern := m; initialized := b;
  no_vision := s.(no_vision); cancelled_ids := s.(cancelled_ids); own := s.(own) |}.
Definition set_modern (m : bool) (s : server) : server := {|
  images := s.(images); code := s.(code); hint := s.(hint); vision_request :=
  s.(vision_request); lock_seen := s.(lock_seen); lock_monitor := s.(lock_monitor);
  cancelled := s.(cancelled); stopping := s.(stopping); deadline := s.(deadline);
  requests := s.(requests); active_id := s.(active_id); modern := m; initialized :=
  s.(initialized); no_vision := s.(no_vision); cancelled_ids := s.(cancelled_ids); own
  := s.(own) |}.
Definition set_cancelled_ids (c : gset text) (s : server) : server := {|
  images := s.(images); code := s.(code); hint := s.(hint); vision_request :=
  s.(vision_request); lock_seen := s.(lock_seen); lock_monitor := s.(lock_monitor);
  cancelled := s.(cancelled); stopping := s.(stopping); deadline := s.(deadline);
  requests := s.(requests); active_id := s.(active_id); modern := s.(modern);
  initialized := s.(initialized); no_vision := s.(no_vision); cancelled_ids := c; own :=
  s.(own) |}.
Definition set_own (m : M) (s : server) : server := {|
  images := s.(images); code := s.(code); hint := s.(hint); vision_request :=
  s.(vision_request); lock_seen := s.(lock_seen); lock_monitor := s.(lock_monitor);
  cancelled := s.(cancelled); stopping := s.(stopping); deadline := s.(deadline);
  requests := s.(requests); active_id := s.(active_id); modern := s.(modern);
  initialized := s.(initialized); no_vision := s.(no_vision); cancelled_ids :=
  s.(cancelled_ids); own := m |}.
Definition set_images (l : list json) (s : server) : server := {|
  images := l; code := s.(code); hint := s.(hint); vision_request := s.(vision_request);
  lock_seen := s.(lock_seen); lock_monitor := s.(lock_monitor); cancelled :=
  s.(cancelled); stopping := s.(stopping); deadline := s.(deadline); requests :=
  s.(requests); active_id := s.(active_id); modern := s.(modern); initialized :=
  s.(initialized); no_vision := s.(no_vision); cancelled_ids := s.(cancelled_ids); own
  := s.(own) |}.
Definition set_call (d : Z) (s : server) : server := {|
  images := []; code := None; hint := None; vision_request := false; lock_seen := false;
  lock_monitor := false; cancelled := s.(cancelled); stopping := s.(stopping); deadline
  := d; requests := s.(requests); active_id := s.(active_id); modern := s.(modern);
  initialized := s.(initialized); no_vision := s.(no_vision); cancelled_ids :=
  s.(cancelled_ids); own := s.(own) |}.
Definition set_idle  (s : server) : server := {|
  images := []; code := s.(code); hint := s.(hint); vision_request := false; lock_seen
  := false; lock_monitor := false; cancelled := s.(cancelled); stopping := s.(stopping);
  deadline := 0; requests := s.(requests); active_id := s.(active_id); modern :=
  s.(modern); initialized := s.(initialized); no_vision := s.(no_vision); cancelled_ids
  := s.(cancelled_ids); own := s.(own) |}.
End state.

Abbreviation mcp M E := (prog (server M) (event E)).

Class Program (M E : Type) := {
  (** [SCU_HOST] *)
  is_host : bool;
  (** [request_id_key] or [host_request_key] *)
  request_key : value → mcp M E (option text);
  (** [forward_tool] or [execute_tool] *)
  run_tool : Tool → value → value → value → mcp M E value;
  (** [puts] or [host_send_line] *)
  deliver : text → mcp M E unit;
  scu_invalidate : mcp M E unit;
  get_monotonic_time : mcp M E Z;
  pause : mcp M E unit;
  (** [poll_backend] and the main context *)
  poll_backend : mcp M E unit;
}.

Section operations.
Context {M E : Type}.
Implicit Types s : server M.

Definition get : mcp M E (server M) := act (λ s, (s, s)) (λ _, []).
Definition modify (f : server M → server M) : mcp M E unit :=
  act (λ s, (tt, f s)) (λ _, []).
Definition record (e : event E) : mcp M E unit := act (λ s, (tt, s)) (λ _, [e]).

Definition scu_fail (c h : text) : mcp M E value :=
  modify (λ s, if s.(code) is Some _ then s else set_error (Some c) (Some h) s) ≫= λ _, mret None.

Definition scu_text_cancelled : text :=
  str "Operation cancelled. Completed actions were not rolled back.".
Definition scu_text_timeout : text :=
  str "Operation exceeded its time limit; inspect state before retrying.".

(** ** Answers *)

Definition server_info : json :=
  member_text "version" "0.1.0" (member_text "name" "scu" result_object).

Definition version_data (message : text) : json :=
  let supported := JArray [JString (str "2026-07-28"); JString (str "2025-11-25");
    JString (str "2025-06-18")] in
  result_string (result_member result_object (str "supported") supported)
    (str "requested") (Some message).

Definition error_member (rpc_error : Z) (message : text) : json :=
  let e := result_string (result_integer result_object (str "code") rpc_error)
    (str "message") (Some message) in
  if rpc_error =? -32022 then
    member_text "message" "Unsupported protocol version"
      (result_member e (str "data") (version_data message))
  else e.

(** The answer of [send_response] that is no error: what a modern client gets
    says who answers. *)
Definition with_metadata (modern : bool) (payload : json) : json :=
  match modern, json_member (Some payload) (str "_meta") with
  | true, None =>
      result_member payload (str "_meta")
        (result_member result_object (str "io.modelcontextprotocol/serverInfo") server_info)
  | _, _ => payload
  end.

Definition reply_to (id : value) (k : string) (x : json) : json :=
  result_member
    (result_member (member_text "jsonrpc" "2.0" result_object) (str "id") (default JNull id))
    (str k) x.

End operations.

Section server_operations.
Context {M E : Type} `{Json_text} {program : Program M E}.
Implicit Types s : server M.

Definition request_id_key (id : value) : option text := id ≫= yyjson_write.

Definition send_reply (reply : json) : mcp M E unit :=
  record (Answered reply (yyjson_write reply)) ≫= λ _,
  if yyjson_write reply is Some line then deliver line else mret tt.

Definition send_response (id : value) (payload : json) : mcp M E unit :=
  s ← get;
  send_reply (reply_to id "result" (with_metadata s.(modern) payload)).

Definition send_error (id : value) (rpc_error : Z) (message : text) : mcp M E unit :=
  send_reply (reply_to id "error" (error_member rpc_error message)).

Definition add_server_info (modern no_vision : bool) (result : json) : json :=
  let result := result_string result (str "instructions")
    (Some (if no_vision then no_vision_instructions else server_instructions)) in
  let result := result_member result (str "capabilities")
    (result_member result_object (str "tools") result_object) in
  if modern then
    result_member result (str "_meta")
      (result_member result_object (str "io.modelcontextprotocol/serverInfo") server_info)
  else result_member result (str "serverInfo") server_info.

Definition tool_item (no_vision : bool) (tool : Tool) : json :=
  let annotations := result_boolean (result_boolean (result_boolean result_object
    (str "readOnlyHint") (negb tool.(action))) (str "idempotentHint") false)
    (str "openWorldHint") true in
  let item := result_string result_object (str "name") (Some tool.(name)) in
  let item := result_string item (str "description")
    (Some (if no_vision && text_eqb tool.(name) (str "status")
           then no_vision_status_description else tool.(description))) in
  let item := result_member item (str "inputSchema") (build_tool_schema no_vision tool) in
  result_member item (str "annotations") annotations.

Definition listed (no_vision : bool) (tool : Tool) : bool :=
  negb (no_vision && (tool.(batch) =? BATCH_VISION)).

Definition list_tools (no_vision : bool) (result : json) : json :=
  result_member result (str "tools")
    (foldl (λ l tool, if listed no_vision tool then result_append l (tool_item no_vision tool) else l)
      result_array tools).

(** ** The reader *)

(** What becomes of one line, under the lock. *)
Definition read_line (line : text) (oversized : bool) (s : server M) : server M :=
  let d := if oversized then None else yyjson_read line in
  if is_named (json_string d (str "method")) (str "notifications/cancelled") then
    match request_id_key (json_member (json_member d (str "params")) (str "requestId")) with
    | Some id =>
        let s := if decide (size s.(cancelled_ids) < 256)%nat
          then set_cancelled_ids ({[id]} ∪ s.(cancelled_ids)) s else s in
        if is_named s.(active_id) id then set_cancelled true s else s
    | None => s
    end
  else set_requests (s.(requests) ++ [d]) s.

Definition MAX_LINE : Z := 1024 * 1024.

Record reading := Reading { line : text; oversized : bool }.

(** One byte of [read_requests]. *)
Definition read_byte (c : ascii) (r : reading) (s : server M) : reading * server M :=
  if decide (c = char 10) then (Reading [] false, read_line r.(line) r.(oversized) s)
  else if decide (Z.of_nat (length r.(line)) < MAX_LINE) then (Reading (r.(line) ++ [c]) r.(oversized), s)
  else (Reading r.(line) true, s).

Fixpoint read_bytes (b : text) (r : reading) (s : server M) : reading * server M :=
  match b with
  | [] => (r, s)
  | c :: b => let '(r, s) := read_byte c r s in read_bytes b r s
  end.

(** ** Calls *)

Definition validate_call (tool : Tool) (arguments : value) : mcp M E bool :=
  s ← get;
  if validate_arguments s.(no_vision) tool arguments then mret true else
  scu_fail (str "invalid_arguments")
    (str "Arguments do not match this scu tool's advertised supported schema.") ≫= λ _, mret false.

(** [g_hash_table_contains] of a [NULL] key is undefined. *)
Definition begin_call (id : value) : mcp M E text :=
  key ← request_key id;
  pause ≫= λ _,
  match key with
  | Some key =>
      modify (λ s, set_active (Some key) (bool_decide (key ∈ s.(cancelled_ids))) s) ≫= λ _, mret key
  | None => undefined
  end.

Definition end_call (key : text) : mcp M E unit :=
  pause ≫= λ _,
  modify (λ s, set_cancelled_ids (s.(cancelled_ids) ∖ {[key]}) (set_active None s.(cancelled) s)).

Definition run_named (tool : option Tool) (id parameters arguments : value) : mcp M E value :=
  match tool with
  | None => scu_fail (str "unknown_tool") (str "Tool is not implemented by scu.")
  | Some tool =>
      ok ← validate_call tool arguments;
      if ok : bool then
        record (Called tool id parameters arguments) ≫= λ _, run_tool tool id parameters arguments
      else mret None
  end.

(** In a space without vision, [status] has no images. *)
Definition without_images (output : json) : json :=
  let filtered := foldl (λ l block,
    if is_named (json_string (Some block) (str "type")) (str "image") then l
    else result_append l block) result_array
    (elements (json_member (Some output) (str "content"))) in
  let output := if output is JObject l then JObject (remove_members l (str "content")) else output in
  result_member output (str "content") filtered.

Definition merge_result (result output : json) : json :=
  foldl (λ r m, result_member r (cstring m.1) m.2) result (members (Some output)).

Definition tool_result (tool : option Tool) (output : value) (result : json) (s : server M) : json :=
  match is_host, output with
  | false, Some output =>
      merge_result result
        (if s.(no_vision) && tool_named tool "status" then without_images output else output)
  | _, _ => add_tool_result result tool output s.(images) s.(code) s.(hint)
  end.

(** [inl] is a cancelled call, which gets no answer. *)
Definition call_tool (id parameters : value) (result : json) : mcp M E (unit + json) :=
  s ← get;
  let tool := find_tool s.(no_vision) (json_string parameters (str "name")) in
  let arguments := match json_member parameters (str "arguments") with
    | Some a => Some a | None => Some result_object end in
  key ← begin_call id;
  output ← run_named tool id parameters arguments;
  s ← get;
  let result := tool_result tool output result s in
  end_call key ≫= λ _,
  pause ≫= λ _,
  s ← get;
  record (Ended id s.(cancelled)) ≫= λ _,
  if s.(cancelled) then scu_invalidate ≫= λ _, mret (inl tt) else mret (inr result).

(** ** Requests *)

Definition valid_request (request id : value) (method : option text) : bool :=
  yyjson_is_obj request && strcmp (json_string request (str "jsonrpc")) "2.0" &&
  (if method is Some _ then true else false) &&
  match id with None => true | Some _ => yyjson_is_str id || yyjson_is_int id end.

Definition legacy_version (version : option text) : bool :=
  strcmp version "2025-06-18" || strcmp version "2025-11-25".

Definition meta_member (parameters : value) (k : string) : value :=
  json_member (json_member parameters (str "_meta")) (str k).

(** The part of [handle_request] after the checks. *)
Definition handle_method (id parameters : value) (method : option text) : mcp M E unit :=
  s ← get;
  let result := when s.(modern) (member_text "resultType" "complete") result_object in
  if strcmp method "initialize" then
    let version := json_string parameters (str "protocolVersion") in
    if legacy_version version then
      modify (set_initialized false true) ≫= λ _,
      send_response id (add_server_info false s.(no_vision)
        (result_string result (str "protocolVersion") version))
    else send_error id (-32602)
      (str "Supported legacy protocols: 2025-11-25, 2025-06-18; modern: 2026-07-28")
  else if strcmp method "server/discover" && s.(modern) then
    send_response id (add_server_info s.(modern) s.(no_vision)
      (result_member result (str "supportedVersions") (JArray [JString (str "2026-07-28")])))
  else if negb s.(initialized) && negb s.(modern) then
    send_error id (-32000) (str "Initialize scu first")
  else if strcmp method "tools/list" then send_response id (list_tools s.(no_vision) result)
  else if strcmp method "tools/call" then
    r ← call_tool id parameters result;
    match r with inl _ => mret tt | inr result => send_response id result end
  else if strcmp method "ping" then send_response id result
  else send_error id (-32601) (str "Method not found").

Definition handle_versioned (id parameters : value) (method : option text) : mcp M E unit :=
  s ← get;
  let version := yyjson_get_str (meta_member parameters "io.modelcontextprotocol/protocolVersion") in
  match version with
  | None =>
      if negb s.(initialized) && negb (strcmp method "initialize") then
        send_error id (-32602) (str "Modern requests require protocol metadata on every request.")
      else modify (set_modern false) ≫= λ _, handle_method id parameters method
  | Some v =>
      modify (set_modern true) ≫= λ _,
      if negb (strcmp version "2026-07-28") then send_error id (-32022) v
      else if negb (yyjson_is_obj (meta_member parameters "io.modelcontextprotocol/clientCapabilities"))
      then send_error id (-32602) (str "Modern requests require clientCapabilities metadata.")
      else handle_method id parameters method
  end.

Definition handle_valid (id parameters : value) (method : option text) : mcp M E unit :=
  if strcmp method "notifications/initialized" then modify (λ s, set_initialized s.(modern) true s)
  else if id is None then mret tt
  else handle_versioned id parameters method.

Definition handle_request (request : value) : mcp M E unit :=
  let id := json_member request (str "id") in
  let parameters := json_member request (str "params") in
  let method := json_string request (str "method") in
  t ← get_monotonic_time;
  modify (set_call (t + 60 * 1000000)) ≫= λ _,
  (if valid_request request id method then handle_valid id parameters method
   else send_error id (-32600) (str "Invalid JSON-RPC request")) ≫= λ _,
  modify set_idle.

(** ** The main loop *)

Definition malformed_message : text := str "Malformed or oversized JSON message".

Definition serve_turn : mcp M E unit :=
  s ← get;
  match s.(requests) with
  | [] => mret tt
  | r :: l =>
      modify (set_requests l) ≫= λ _,
      match r with
      | None => send_error None (-32700) malformed_message
      | Some d => handle_request (Some d)
      end
  end.

Fixpoint serve_loop (fuel : nat) : mcp M E unit :=
  match fuel with
  | O => out_of_fuel
  | S fuel =>
      pause ≫= λ _,
      s ← get;
      if s.(stopping) then scu_invalidate
      else serve_turn ≫= λ _, poll_backend ≫= λ _, serve_loop fuel
  end.
End server_operations.
