(* ===== verification/McpProps.v ===== *)
(** * The protocol's promises

    Of a request at most one answer, with its id; no tool runs but on arguments
    that its table documents, for a client that said who it is; and the reader's
    framing. *)

From S2P Require Import Prelude Json Catalog CatalogProps Results Mcp.

(** ** What a run adds *)

Record call := Call { tool : Tool; call_id : value; call_parameters : value; call_arguments : value }.

Section added.
Context {M E : Type}.
Implicit Types w : machine (server M) (event E).

Definition answer_of (e : event E) : option json :=
  if e is Answered reply _ then Some reply else None.
Definition call_of (e : event E) : option call :=
  if e is Called t i p a then Some (Call t i p a) else None.

Definition end_of (e : event E) : option (value * bool) :=
  if e is Ended id b then Some (id, b) else None.

Definition session (s : server M) : bool * bool * bool := (s.(modern), s.(initialized), s.(no_vision)).

(** A run's answers, calls and ends of calls, latest first. *)
Definition added w w' (answers : list json) (calls : list call) (ends : list (value * bool)) : Prop :=
  ∃ evs, w'.(trace) = evs ++ w.(trace) ∧
    omap answer_of evs = answers ∧ omap call_of evs = calls ∧ omap end_of evs = ends.

Abbreviation nothing w w' := (added w w' [] [] []).

Lemma added_nothing w : nothing w w.
Proof. by exists []. Qed.

Lemma added_state w s : nothing w (World s w.(trace)).
Proof. by exists []. Qed.

Lemma added_after w1 w2 w3 a c d : nothing w1 w2 → added w2 w3 a c d → added w1 w3 a c d.
Proof.
  intros (e1 & H1 & Ha & Hc & Hd) (e2 & H2 & <- & <- & <-). exists (e2 ++ e1).
  rewrite H2, H1, app_assoc. split; [done|]. rewrite !omap_app, Ha, Hc, Hd. by rewrite !app_nil_r.
Qed.

Lemma added_before w1 w2 w3 a c d : added w1 w2 a c d → nothing w2 w3 → added w1 w3 a c d.
Proof.
  intros (e1 & H1 & <- & <- & <-) (e2 & H2 & Ha & Hc & Hd). exists (e2 ++ e1).
  rewrite H2, H1, app_assoc. split; [done|]. by rewrite !omap_app, Ha, Hc, Hd.
Qed.

(** Answers, calls and ends in this order. *)
Lemma added_calls w1 w2 w3 a c d : added w1 w2 [] c [] → added w2 w3 a [] d → added w1 w3 a c d.
Proof.
  intros (e1 & H1 & Ha1 & <- & Hd1) (e2 & H2 & <- & Hc2 & <-). exists (e2 ++ e1).
  rewrite H2, H1, app_assoc. split; [done|]. rewrite !omap_app, Ha1, Hc2, Hd1. by rewrite !app_nil_r.
Qed.

Lemma added_answers w1 w2 w3 a c d : added w1 w2 [] c d → added w2 w3 a [] [] → added w1 w3 a c d.
Proof.
  intros (e1 & H1 & Ha1 & <- & <-) (e2 & H2 & <- & Hc2 & Hd2). exists (e2 ++ e1).
  rewrite H2, H1, app_assoc. split; [done|]. by rewrite !omap_app, Ha1, Hc2, Hd2, app_nil_r.
Qed.

(** A program that neither answers nor calls a tool, nor changes the session. *)
Definition quiet {A} (m : mcp M E A) : Prop := ∀ w x w', m w = Returned x w' →
  nothing w w' ∧ session w'.(now) = session w.(now).

Lemma quiet_ret {A} (x : A) : quiet (mret x).
Proof. intros w y w' [_ ->]%M_ret_returned. split; [apply added_nothing|done]. Qed.

Lemma quiet_bind {A B} (m : mcp M E A) (f : A → mcp M E B) :
  quiet m → (∀ x, quiet (f x)) → quiet (m ≫= f).
Proof.
  intros Hm Hf w y w2 (x & w1 & H1 & H2)%M_bind_returned.
  destruct (Hm _ _ _ H1) as [Ha1 Hs1], (Hf _ _ _ _ H2) as [Ha2 Hs2].
  split; [by eapply added_after|congruence].
Qed.

Lemma quiet_get : quiet (@get M E).
Proof.
  intros w x w'. unfold get. intros [_ ->]%act_returned. split; [apply added_state|done].
Qed.

Lemma quiet_modify (f : server M → server M) :
  (∀ s, session (f s) = session s) → quiet (@modify M E f).
Proof.
  intros Hf w x w'. unfold modify. intros [_ ->]%act_returned. split; [apply added_state|apply Hf].
Qed.

Lemma quiet_undefined {A} : quiet (undefined : mcp M E A).
Proof. by intros w x w'. Qed.

Lemma get_returned w s w' : @get M E w = Returned s w' → s = w.(now) ∧ w' = w.
Proof. unfold get. intros [-> ->]%act_returned. split; [done|]. by destruct w. Qed.

Lemma modify_returned (f : server M → server M) w x w' :
  @modify M E f w = Returned x w' → w' = World (f w.(now)) w.(trace).
Proof. unfold modify. by intros [_ ->]%act_returned. Qed.

Lemma record_returned e w x w' :
  @record M E e w = Returned x w' → w' = World w.(now) (e :: w.(trace)).
Proof. unfold record. by intros [_ ->]%act_returned. Qed.
End added.

Abbreviation nothing w w' := (added w w' [] [] []).

(** What the programs keep to: between the events that the protocol has of its
    own they only ask their system. *)
Class Program_laws {M E : Type} (program : Program M E) := {
  quiet_key id : quiet (request_key id);
  quiet_tool tool id parameters arguments : quiet (run_tool tool id parameters arguments);
  quiet_deliver line : quiet (deliver line);
  quiet_invalidate : quiet scu_invalidate;
  quiet_time : quiet get_monotonic_time;
  quiet_pause : quiet pause;
  quiet_poll : quiet poll_backend;
}.

#[export] Hint Resolve quiet_key quiet_tool quiet_deliver quiet_invalidate quiet_time
  quiet_pause quiet_poll quiet_get quiet_ret quiet_undefined : quiet.

(** ** Answers *)

(** An answer to a request with an id: a result or an error, not both. *)
Definition answers_id (id : value) (reply : json) : Prop :=
  json_member (Some reply) (str "jsonrpc") = Some (JString (str "2.0")) ∧
  json_member (Some reply) (str "id") = Some (default JNull id) ∧
  ((is_Some (json_member (Some reply) (str "result")) ∧ json_member (Some reply) (str "error") = None) ∨
   (is_Some (json_member (Some reply) (str "error")) ∧ json_member (Some reply) (str "result") = None)).

Lemma reply_to_answers id k x :
  k = "result"%string ∨ k = "error"%string → answers_id id (reply_to id k x).
Proof.
  intros Hk. unfold answers_id, reply_to, member_text, result_string.
  rewrite !json_member_result by done.
  destruct Hk as [-> | ->]; repeat split; eauto.
Qed.

Section protocol.
Context {M E : Type} `{Json_text} {program : Program M E} {laws : Program_laws program}.
Implicit Types w : machine (server M) (event E).

Lemma send_reply_added reply w x w' :
  send_reply reply w = Returned x w' →
  added w w' [reply] [] [] ∧ session w'.(now) = session w.(now).
Proof.
  unfold send_reply. intros (? & w1 & ->%record_returned & H2)%M_bind_returned.
  assert (Hq : quiet (if yyjson_write reply is Some line then deliver line else mret tt))
    by (case_match; auto with quiet).
  destruct (Hq _ _ _ H2) as [Ha Hs]. split; [|done].
  eapply (added_before _ _ _ [reply] [] []); [|exact Ha]. by exists [Answered reply (yyjson_write reply)].
Qed.

Lemma send_response_added id payload w x w' :
  send_response id payload w = Returned x w' →
  ∃ reply, answers_id id reply ∧ added w w' [reply] [] [] ∧ session w'.(now) = session w.(now).
Proof.
  unfold send_response. intros (s & w1 & [-> ->]%get_returned & H2)%M_bind_returned.
  apply send_reply_added in H2. eexists. split; [|exact H2]. apply reply_to_answers. auto.
Qed.

Lemma send_error_added id rpc_error message w x w' :
  send_error id rpc_error message w = Returned x w' →
  ∃ reply, answers_id id reply ∧ added w w' [reply] [] [] ∧ session w'.(now) = session w.(now).
Proof.
  intros H2%send_reply_added. eexists. split; [|exact H2]. apply reply_to_answers. auto.
Qed.

Lemma quiet_fail c h : quiet (@scu_fail M E c h).
Proof.
  apply quiet_bind; [|auto with quiet]. apply quiet_modify. intros s. by destruct (Mcp.code s).
Qed.

Lemma quiet_begin id : quiet (begin_call id).
Proof.
  apply quiet_bind; [auto with quiet|]. intros key. apply quiet_bind; [auto with quiet|].
  intros _. destruct key; [|auto with quiet]. by apply quiet_bind; [apply quiet_modify|auto with quiet].
Qed.

Lemma quiet_end key : quiet (end_call key).
Proof. apply quiet_bind; [auto with quiet|]. intros _. by apply quiet_modify. Qed.

(** ** Calls *)

(** The tool that a client asked for may run. *)
Definition permitted (no_vision : bool) (c : call) : Prop :=
  find_tool no_vision (json_string c.(call_parameters) (str "name")) = Some c.(tool) ∧
  c.(call_arguments) = Some (default result_object (json_member c.(call_parameters) (str "arguments"))) ∧
  ∃ x, c.(call_arguments) = Some x ∧ tool_accepts no_vision c.(tool) x = true.

Lemma find_tool_in no_vision n t : find_tool no_vision n = Some t → t ∈ tools.
Proof. intros [Ht _]%find_some. by apply list_elem_of_In. Qed.

Lemma run_named_added t id parameters arguments w x w' :
  (∀ tool, t = Some tool → tool ∈ tools) →
  run_named t id parameters (Some arguments) w = Returned x w' →
  session w'.(now) = session w.(now) ∧
  (nothing w w' ∨
   ∃ tool, t = Some tool ∧ tool_accepts w.(now).(no_vision) tool arguments = true ∧
     added w w' [] [Call tool id parameters (Some arguments)] []).
Proof.
  intros Htools. destruct t as [tool|]; simpl.
  - intros (ok & w1 & H1 & H2)%M_bind_returned.
    unfold validate_call in H1. apply M_bind_returned in H1 as (s & w0 & [-> ->]%get_returned & H1).
    destruct (validate_arguments _ tool _) eqn:Hv.
    + apply M_ret_returned in H1 as [-> ->].
      apply M_bind_returned in H2 as (? & w2 & ->%record_returned & H2).
      destruct (quiet_tool _ _ _ _ _ _ _ H2) as [Ha Hs]. split; [done|]. right. exists tool.
      split; [done|]. rewrite arguments_as_documented in Hv by auto. split; [done|].
      eapply (added_before _ _ _ [] [_] []); [|exact Ha].
      by exists [Called tool id parameters (Some arguments)].
    + apply M_bind_returned in H1 as (v & w2 & H1 & [-> ->]%M_ret_returned).
      apply M_ret_returned in H2 as [_ ->].
      destruct (quiet_fail _ _ _ _ _ H1) as [Ha Hs]. auto.
  - intros [Ha Hs]%quiet_fail. auto.
Qed.

Lemma call_tool_added id parameters result w r w' :
  call_tool id parameters result w = Returned r w' →
  session w'.(now) = session w.(now) ∧
  ∃ calls, added w w' [] calls [(id, if r then true else false)] ∧
    (calls = [] ∨ ∃ c, calls = [c] ∧ c.(call_id) = id ∧ c.(call_parameters) = parameters ∧
      permitted w.(now).(no_vision) c).
Proof.
  unfold call_tool.
  intros (s & w0 & [-> ->]%get_returned & H0)%M_bind_returned.
  apply M_bind_returned in H0 as (key & w1 & [Ha1 Hs1]%quiet_begin & H1).
  apply M_bind_returned in H1 as (output & w2 & H2 & H3).
  apply M_bind_returned in H3 as (s2 & w3 & [-> ->]%get_returned & H3).
  apply M_bind_returned in H3 as (? & w4 & [Ha4 Hs4]%quiet_end & H4).
  apply M_bind_returned in H4 as (? & w5 & [Ha5 Hs5]%quiet_pause & H5).
  apply M_bind_returned in H5 as (s5 & w6 & [-> ->]%get_returned & H6).
  apply M_bind_returned in H6 as (? & w7 & ->%record_returned & H7).
  assert (Hrest : added w5 w' [] [] [(id, if r then true else false)] ∧
    session w'.(now) = session w5.(now)).
  { assert (Hend : ∀ b, added w5 (World w5.(now) (Ended id b :: w5.(trace))) [] [] [(id, b)])
      by (intros b; by exists [Ended id b]).
    destruct (cancelled _).
    - apply M_bind_returned in H7 as (? & w7 & [Ha7 Hs7]%quiet_invalidate & [-> ->]%M_ret_returned).
      split; [|done]. by eapply added_before.
    - apply M_ret_returned in H7 as [-> ->]. by split. }
  destruct Hrest as [Ha6 Hs6].
  assert (Hafter : added w2 w' [] [] [(id, if r then true else false)]).
  { eapply added_after; [exact Ha4|]. by eapply added_after. }
  set (arguments := default result_object (json_member parameters (str "arguments"))) in *.
  assert (Hargs : match json_member parameters (str "arguments") with
    | Some a => Some a | None => Some result_object end = Some arguments)
    by (unfold arguments; by destruct (json_member _ _)).
  rewrite Hargs in H2. apply run_named_added in H2 as [Hs2 Hc]; [|intros t; apply find_tool_in].
  split; [congruence|].
  assert (Hnv : w1.(now).(no_vision) = w.(now).(no_vision)) by (unfold session in Hs1; congruence).
  destruct Hc as [Hc|(tool & Ht & Hok & Hc)].
  - exists []. split; [|by left]. eapply added_after; [exact Ha1|]. by eapply added_after.
  - eexists. split; [eapply added_after; [exact Ha1|]; by eapply added_calls|].
    right. eexists. split; [done|]. simpl. split; [done|]. split; [done|].
    rewrite Hnv in Hok. unfold permitted. simpl. eauto.
Qed.

(** ** Requests *)

Definition request_id (request : value) : value := json_member request (str "id").
Definition request_method (request : value) : option text := json_string request (str "method").
Definition request_valid (request : value) : bool :=
  valid_request request (request_id request) (request_method request).

(** A request that gets no answer by its kind. *)
Definition notification (request : value) : bool :=
  request_valid request &&
  (strcmp (request_method request) "notifications/initialized" ||
   match request_id request with None => true | Some _ => false end).

Definition protocol_version (request : value) : option text :=
  yyjson_get_str (meta_member (json_member request (str "params"))
    "io.modelcontextprotocol/protocolVersion").

(** The client said which protocol it speaks: once, or with the request. *)
Definition introduced (s : server M) (request : value) : Prop :=
  s.(initialized) = true ∧ protocol_version request = None ∨
  protocol_version request = Some (str "2026-07-28") ∧
  yyjson_is_obj (meta_member (json_member request (str "params"))
    "io.modelcontextprotocol/clientCapabilities") = true.

Definition may_call (s : server M) (request : value) (c : call) : Prop :=
  request_valid request = true ∧ notification request = false ∧
  strcmp (request_method request) "tools/call" = true ∧ introduced s request ∧
  c.(call_id) = request_id request ∧ c.(call_parameters) = json_member request (str "params") ∧
  permitted s.(no_vision) c.

(** What a request leads to: one answer after at most one call, or no answer to
    a notification or a cancelled call. *)
Inductive handled (s : server M) (request : value) : list json → list call → list (value * bool) → Prop :=
  | Handled reply : answers_id (request_id request) reply →
      notification request = false → handled s request [reply] [] []
  | Handled_notification : notification request = true → handled s request [] [] []
  | Handled_call answers calls cancelled :
      strcmp (request_method request) "tools/call" = true → notification request = false →
      (calls = [] ∨ ∃ c, calls = [c] ∧ may_call s request c) →
      (if cancelled : bool then answers = []
       else ∃ reply, answers = [reply] ∧ answers_id (request_id request) reply) →
      handled s request answers calls [(request_id request, cancelled)].

Section handling.
Context (request : value).
Let id := request_id request.
Let parameters := json_member request (str "params").
Let method := request_method request.

Definition version_known (m i : bool) (version : option text) : Prop :=
  m = (if version is Some _ then true else false) ∧
  (version = None ∧ (i = true ∨ strcmp method "initialize" = true) ∨
   version = Some (str "2026-07-28") ∧
   yyjson_is_obj (meta_member parameters "io.modelcontextprotocol/clientCapabilities") = true).

Lemma handle_method_handled s w x w' :
  request_valid request = true → notification request = false →
  version_known w.(now).(modern) w.(now).(initialized) (protocol_version request) →
  s.(initialized) = w.(now).(initialized) → s.(no_vision) = w.(now).(no_vision) →
  handle_method id parameters method w = Returned x w' →
  ∃ a c d, added w w' a c d ∧ handled s request a c d.
Proof.
  intros Hvalid Hnote Hversion Hinit Hvision. unfold handle_method.
  intros (s0 & w0 & [-> ->]%get_returned & H0)%M_bind_returned.
  assert (Hresponse : ∀ payload w1 x, nothing w w1 → send_response id payload w1 = Returned x w' →
    ∃ a c d, added w w' a c d ∧ handled s request a c d).
  { intros payload w1 y Hw (reply & Hr & Ha & _)%send_response_added.
    exists [reply], [], []. split; [by eapply added_after|by constructor]. }
  assert (Herror : ∀ e m x, send_error id e m w = Returned x w' →
    ∃ a c d, added w w' a c d ∧ handled s request a c d).
  { intros e m y (reply & Hr & Ha & _)%send_error_added.
    exists [reply], [], []. split; [done|by constructor]. }
  destruct (strcmp method "initialize") eqn:Hmi.
  { destruct (legacy_version _); [|by eapply Herror].
    apply M_bind_returned in H0 as (? & w1 & ->%modify_returned & H1).
    eapply Hresponse; [|exact H1]. apply added_state. }
  destruct (_ && modern _); [eapply Hresponse; [apply added_nothing|done]|].
  destruct (negb _ && negb _) eqn:Hni; [by eapply Herror|].
  destruct (strcmp method "tools/list"); [eapply Hresponse; [apply added_nothing|done]|].
  destruct (strcmp method "tools/call") eqn:Hcall.
  - apply M_bind_returned in H0 as (r & w1 & [Hs1 (calls & Ha1 & Hc)]%call_tool_added & H1).
    assert (Hcalls : calls = [] ∨ ∃ c, calls = [c] ∧ may_call s request c).
    { destruct Hc as [->|(c & -> & Hid & Hp & Hperm)]; [by left|right]. exists c. split; [done|].
      unfold may_call. rewrite Hvision.
      refine (conj Hvalid (conj Hnote (conj Hcall (conj _ (conj Hid (conj Hp Hperm)))))).
      destruct Hversion as [Hm [[Hv [Hi|Hi]]|[Hv Hcap]]].
      - left. by rewrite Hinit.
      - fold method in Hi. congruence.
      - by right. }
    destruct r as [[]|payload].
    + apply M_ret_returned in H1 as [_ ->]. exists [], calls, [(id, true)]. split; [done|].
      by apply Handled_call.
    + apply send_response_added in H1 as (reply & Hr & Ha & _).
      exists [reply], calls, [(id, false)]. split; [by eapply added_answers|].
      apply Handled_call; eauto.
  - destruct (strcmp method "ping"); [eapply Hresponse; [apply added_nothing|done]|by eapply Herror].
Qed.

Lemma handle_versioned_handled w x w' :
  request_valid request = true → notification request = false →
  handle_versioned id parameters method w = Returned x w' →
  ∃ a c d, added w w' a c d ∧ handled w.(now) request a c d.
Proof.
  intros Hvalid Hnote. unfold handle_versioned.
  intros (s0 & w0 & [-> ->]%get_returned & H0)%M_bind_returned.
  change (yyjson_get_str (meta_member parameters "io.modelcontextprotocol/protocolVersion"))
    with (protocol_version request) in H0.
  assert (Herror : ∀ w1 e m x, nothing w w1 → send_error id e m w1 = Returned x w' →
    ∃ a c d, added w w' a c d ∧ handled w.(now) request a c d).
  { intros w1 e m y Hw (reply & Hr & Ha & _)%send_error_added.
    exists [reply], [], []. split; [by eapply added_after|by constructor]. }
  assert (Hmethod : ∀ b, version_known b w.(now).(initialized) (protocol_version request) →
    handle_method id parameters method (World (set_modern b w.(now)) w.(trace)) = Returned x w' →
    ∃ a c d, added w w' a c d ∧ handled w.(now) request a c d).
  { intros b Hv Hr. apply (handle_method_handled w.(now)) in Hr as (a & c & d & Ha & Hh); [|done..].
    exists a, c, d. split; [|exact Hh]. eapply added_after; [|exact Ha]. apply added_state. }
  destruct (protocol_version request) as [v|] eqn:Hv.
  - apply M_bind_returned in H0 as (? & w1 & ->%modify_returned & H1).
    destruct (strcmp (Some v) "2026-07-28") eqn:Hs; cbn [negb] in H1;
      [|eapply Herror; [|exact H1]; apply added_state].
    apply text_eqb_spec in Hs as ->.
    destruct (yyjson_is_obj _) eqn:Hcap; cbn [negb] in H1;
      [|eapply Herror; [|exact H1]; apply added_state].
    eapply Hmethod; [|exact H1]. split; [done|]. by right.
  - destruct (negb _ && negb _) eqn:Hn; [eapply Herror; [|exact H0]; apply added_nothing|].
    apply M_bind_returned in H0 as (? & w1 & ->%modify_returned & H1).
    eapply Hmethod; [|exact H1]. split; [done|]. left. split; [done|].
    apply andb_false_iff in Hn as [Hn|Hn]; apply negb_false_iff in Hn; auto.
Qed.

Lemma handle_valid_handled w x w' :
  request_valid request = true → handle_valid id parameters method w = Returned x w' →
  ∃ a c d, added w w' a c d ∧ handled w.(now) request a c d.
Proof.
  intros Hvalid. unfold handle_valid.
  assert (Hnote : notification request =
    strcmp method "notifications/initialized" || match id with None => true | Some _ => false end)
    by (unfold notification; by rewrite Hvalid).
  destruct (strcmp method "notifications/initialized").
  - intros ->%modify_returned. exists [], [], []. split; [apply added_state|]. by constructor.
  - destruct id as [i|] eqn:Hid.
    + rewrite <- Hid. by apply handle_versioned_handled.
    + intros [_ ->]%M_ret_returned. exists [], [], []. split; [apply added_nothing|]. by constructor.
Qed.
End handling.

(** C6: a request is answered at most once, by a result or an error with its own
    id.  It is left without an answer only if it is a notification, or a call
    that was cancelled.  At most one tool runs for it: only for [tools/call], on
    arguments its table documents, when the client has initialized the session
    or says with the request that it speaks the protocol. *)
Theorem request_handled request w x w' :
  handle_request request w = Returned x w' →
  ∃ answers calls ends, added w w' answers calls ends ∧ handled w.(now) request answers calls ends.
Proof.
  unfold handle_request.
  intros (t & w1 & [Ha1 Hs1]%quiet_time & H1)%M_bind_returned.
  apply M_bind_returned in H1 as (? & w2 & ->%modify_returned & H2).
  apply M_bind_returned in H2 as (? & w3 & H3 & ->%modify_returned).
  set (w2 := World (set_call (t + 60 * 1000000) w1.(now)) w1.(trace)) in *.
  assert (Hw2 : nothing w w2) by (eapply added_after; [exact Ha1|apply added_state]).
  assert (Hs2 : ∀ a c d, handled w2.(now) request a c d → handled w.(now) request a c d).
  { unfold session in Hs1. injection Hs1 as Hm Hi Hn. intros a c d [reply Hr Hq|Hq|a' c' b Hm' Hq Hc Hb].
    - by constructor.
    - by constructor.
    - apply Handled_call; [done..| |done]. destruct Hc as [->|(k & -> & Hc)]; [by left|right].
      exists k. split; [done|]. unfold may_call, introduced in *. simpl in Hc.
      by rewrite <- Hi, <- Hn. }
  assert (Hend : ∀ a c d, added w2 w3 a c d → added w (World (set_idle w3.(now)) w3.(trace)) a c d).
  { intros a c d Ha. eapply added_before; [|apply added_state]. by eapply added_after. }
  destruct (valid_request _ _ _) eqn:Hvalid.
  - apply handle_valid_handled in H3 as (a & c & d & Ha & Hh); [|done].
    exists a, c, d. auto.
  - apply send_error_added in H3 as (reply & Hr & Ha & _).
    exists [reply], [], []. split; [by apply Hend|]. constructor; [done|].
    unfold notification. change (request_valid request) with
      (valid_request request (json_member request (str "id")) (json_string request (str "method"))).
    by rewrite Hvalid.
Qed.

(** ** A server without vision *)

Lemma put_member_absent l k x : lookup_member l k = None → put_member l k x = l ++ [(k, x)].
Proof.
  induction l as [|[j y] l IH]; simpl; [done|]. destruct (text_eqb j k); [done|].
  intros H'. by rewrite IH.
Qed.

Definition no_image (block : json) : bool :=
  negb (is_named (json_string (Some block) (str "type")) (str "image")).

Lemma without_images_eq l :
  ∃ l', without_images (JObject l) = JObject (l' ++ [(str "content", JArray (List.filter no_image
    (elements (json_member (Some (JObject l)) (str "content")))))]).
Proof.
  exists (remove_members l (str "content")). unfold without_images, result_member.
  change (cstring (str "content")) with (str "content").
  rewrite put_member_absent by (rewrite lookup_remove_members; by rewrite text_eqb_refl).
  do 4 f_equal.
  assert (Hfold : ∀ blocks acc, foldl (λ l block,
    if is_named (json_string (Some block) (str "type")) (str "image") then l
    else result_append l block) (JArray acc) blocks = JArray (acc ++ List.filter no_image blocks)).
  { induction blocks as [|b blocks IH]; intros acc; simpl; [by rewrite app_nil_r|].
    unfold no_image at 1. destruct (is_named _ _); simpl; rewrite IH; [done|]. by rewrite <- app_assoc. }
  apply Hfold.
Qed.

(** C24: a server without vision offers no tool for it, and what it returns for
    [status] holds no image, whatever its host answers. *)
Theorem no_vision_hides s n tool result l :
  s.(no_vision) = true → find_tool s.(no_vision) n = Some tool →
  is_host = false → yyjson_is_obj (Some result) = true →
  tool.(batch) ≠ BATCH_VISION ∧
  (tool_named (Some tool) "status" = true → ∀ block,
    block ∈ elements (json_member (Some (tool_result (Some tool) (Some (JObject l)) result s)) (str "content")) →
    no_image block = true).
Proof.
  intros Hn Hfind Hhost Hobj. rewrite Hn in Hfind. split.
  { apply find_some in Hfind as [_ [_ Hb]%andb_true_iff]. by apply negb_true_iff, Z.eqb_neq in Hb. }
  intros Hstatus block. unfold tool_result. rewrite Hhost, Hn, Hstatus. cbn [andb].
  destruct (without_images_eq l) as [l' ->]. unfold merge_result. cbn [members].
  rewrite foldl_app. cbn [foldl fst snd].
  rewrite json_member_result.
  2: { revert result Hobj. induction l' as [|m l' IH]; intros result Hobj; [done|].
       apply IH. by apply is_obj_result. }
  change (text_eqb (cstring (cstring (str "content"))) (str "content")) with true. cbv iota.
  cbn [elements]. intros Hb%list_elem_of_In. by apply filter_In in Hb as [_ Hb].
Qed.
End protocol.
