(* ===== verification/McpReader.v ===== *)
(** * The reader of requests

    [read_requests] takes its input a byte at a time.  Whatever the chunks, it
    handles the lines of the stream, in order, with a line beyond the limit as no
    document; and its memory is bounded. *)

From S2P Require Import Prelude Json Catalog Results Mcp.

(** The complete lines of a stream, and what comes after the last of them. *)
Fixpoint lines_of (b : text) : list text * text :=
  match b with
  | [] => ([], [])
  | c :: b =>
      let '(ls, rest) := lines_of b in
      if decide (c = char 10) then ([] :: ls, rest)
      else match ls with
           | [] => ([], c :: rest)
           | l :: ls => ((c :: l) :: ls, rest)
           end
  end.

Lemma lines_of_join b :
  b = concat ((λ l, l ++ [char 10]) <$> (lines_of b).1) ++ (lines_of b).2 ∧
  Forall (λ l, char 10 ∉ l) (lines_of b).1 ∧ char 10 ∉ (lines_of b).2.
Proof.
  induction b as [|c b (IH & Hls & Hrest)]; [by split; [|split; [constructor|set_solver]]|].
  simpl. destruct (lines_of b) as [ls rest]. simpl in *. case_decide as Hc; simpl.
  - subst c. split; [by rewrite IH at 1|]. split; [|done]. constructor; [set_solver|done].
  - destruct ls as [|l ls]; simpl in *; split; try (by rewrite IH at 1).
    + split; [done|]. set_solver.
    + apply Forall_cons in Hls as [Hl Hls]. split; [|done]. constructor; [set_solver|done].
Qed.

Section reader.
Context `{Json_text} {M : Type}.
Implicit Types s : server M.

Abbreviation limit := (Z.to_nat MAX_LINE).

(** What the reader keeps of a line of which it has read [p]. *)
Definition kept (p : text) : reading := Reading (take limit p) (bool_decide (limit < length p)%nat).

Definition take_line s (l : text) : server M :=
  read_line (take limit l) (bool_decide (limit < length l)%nat) s.

Lemma read_byte_kept c p s :
  read_byte c (kept p) s =
    if decide (c = char 10) then (kept [], take_line s p) else (kept (p ++ [c]), s).
Proof.
  unfold read_byte, kept, take_line. simpl. case_decide as Hc; [done|].
  rewrite length_take. destruct (decide (length p < limit)%nat) as [Hp|Hp].
  - rewrite decide_True by lia. f_equal. f_equal.
    + rewrite !take_ge; [done|rewrite length_app; simpl; lia|lia].
    + rewrite !bool_decide_false; [done|rewrite length_app; simpl; lia|lia].
  - rewrite decide_False by lia. f_equal. f_equal.
    + by rewrite take_app_le by lia.
    + rewrite bool_decide_true; [done|]. rewrite length_app. simpl. lia.
Qed.

Lemma read_bytes_kept b p s :
  read_bytes b (kept p) s =
    match lines_of b with
    | ([], rest) => (kept (p ++ rest), s)
    | (l :: ls, rest) => (kept rest, foldl take_line s ((p ++ l) :: ls))
    end.
Proof.
  revert p s. induction b as [|c b IH]; intros p s; [simpl; by rewrite app_nil_r|].
  change (read_bytes (c :: b) (kept p) s) with
    (let '(r, s) := read_byte c (kept p) s in read_bytes b r s).
  rewrite read_byte_kept. simpl. destruct (lines_of b) as [ls rest]. case_decide as Hc.
  - rewrite IH, app_nil_r. by destruct ls.
  - rewrite IH. by destruct ls; rewrite <- app_assoc.
Qed.

Lemma read_bytes_app b1 b2 r s :
  read_bytes (b1 ++ b2) r s = let '(r, s) := read_bytes b1 r s in read_bytes b2 r s.
Proof.
  revert r s. induction b1 as [|c b1 IH]; intros r s; [done|]. simpl.
  by destruct (read_byte c r s).
Qed.

(** C23: whatever the chunks its input comes in, the reader handles its complete
    lines in order: a cancellation at once, any other line as a request, and a
    line of more than 1 MiB as one that is no document. *)
Theorem reader_frames (chunks : list text) s :
  foldl (λ '(r, s) b, read_bytes b r s) (Reading [] false, s) chunks =
    (kept (lines_of (concat chunks)).2, foldl take_line s (lines_of (concat chunks)).1).
Proof.
  assert (Hchunks : ∀ r s, foldl (λ '(r, s) b, read_bytes b r s) (r, s) chunks =
    read_bytes (concat chunks) r s).
  { induction chunks as [|b chunks IH]; intros r s'; [done|]. simpl.
    rewrite read_bytes_app. destruct (read_bytes b r s'). apply IH. }
  rewrite Hchunks. change (Reading [] false) with (kept []). rewrite read_bytes_kept.
  by destruct (lines_of (concat chunks)) as [[|l ls] rest].
Qed.

(** ** Bounds *)

Definition bounded (r : reading) s : Prop :=
  Z.of_nat (length r.(line)) ≤ MAX_LINE ∧ (size s.(cancelled_ids) ≤ 256)%nat.

Lemma size_cancelled l o s :
  (size s.(cancelled_ids) ≤ 256 → size (read_line l o s).(cancelled_ids) ≤ 256)%nat.
Proof.
  intros Hs. unfold read_line. destruct (is_named _ _); [|done].
  destruct (request_id_key _) as [id|]; [|done].
  case_decide; destruct (is_named _ _); simpl; try done.
  all: pose proof (size_union_alt {[id]} s.(cancelled_ids)) as Hu.
  all: rewrite Hu, size_singleton.
  all: pose proof (subseteq_size (s.(cancelled_ids) ∖ {[id]}) s.(cancelled_ids) ltac:(set_solver)); lia.
Qed.

Lemma read_bytes_bounded b r s :
  bounded r s → bounded (read_bytes b r s).1 (read_bytes b r s).2.
Proof.
  revert r s. induction b as [|c b IH]; intros r s [Hl Hs]; [done|]. simpl. unfold read_byte.
  repeat case_decide; apply IH; (split; simpl; [|try apply size_cancelled; done]);
    rewrite ?length_app; simpl; unfold MAX_LINE in *; lia.
Qed.

(** ** The stream so far *)

Lemma lines_of_plain p : char 10 ∉ p → lines_of p = ([], p).
Proof.
  induction p as [|c p IH]; [done|]. intros Hp. simpl. rewrite IH by set_solver.
  rewrite decide_False by set_solver. done.
Qed.

Lemma lines_of_app b1 b2 :
  lines_of (b1 ++ b2) =
    ((lines_of b1).1 ++ (lines_of ((lines_of b1).2 ++ b2)).1, (lines_of ((lines_of b1).2 ++ b2)).2).
Proof.
  induction b1 as [|c b1 IH]; [simpl; by destruct (lines_of b2)|].
  change ((c :: b1) ++ b2) with (c :: b1 ++ b2). cbn [lines_of]. rewrite IH.
  destruct (lines_of b1) as [ls rest]. cbn [fst snd]. case_decide as Hc; [done|].
  destruct ls as [|l ls]; [|done]. simpl.
  destruct (lines_of (rest ++ b2)) as [ls rest']. rewrite decide_False by done. by destruct ls.
Qed.

Lemma lines_of_rest b : char 10 ∉ (lines_of b).2.
Proof. apply lines_of_join. Qed.

Lemma read_bytes_lines b p s :
  char 10 ∉ p →
  read_bytes b (kept p) s = (kept (lines_of (p ++ b)).2, foldl take_line s (lines_of (p ++ b)).1).
Proof.
  intros Hp. rewrite read_bytes_kept.
  assert (Hl : lines_of (p ++ b) = match lines_of b with
    | ([], rest) => ([], p ++ rest) | (l :: ls, rest) => ((p ++ l) :: ls, rest) end).
  { clear s. induction p as [|c p IH]; [simpl; by destruct (lines_of b) as [[|l ls] rest]|].
    change ((c :: p) ++ b) with (c :: p ++ b). cbn [lines_of]. rewrite IH by set_solver.
    assert (Hc : c ≠ char 10) by set_solver.
    destruct (lines_of b) as [[|l ls] rest]; by rewrite decide_False. }
  rewrite Hl. by destruct (lines_of b) as [[|l ls] rest].
Qed.

(** ** Cancellation *)

(** The call that a line cancels. *)
Definition cancels (key l : text) : bool :=
  let d := if bool_decide (limit < length l)%nat then None else yyjson_read (take limit l) in
  is_named (json_string d (str "method")) (str "notifications/cancelled") &&
  is_named (request_id_key (json_member (json_member d (str "params")) (str "requestId"))) key.

Lemma is_named_sym (a : option text) b key :
  a = Some key → is_named a b = is_named (Some b) key.
Proof. intros ->. unfold is_named, text_eqb. apply bool_decide_ext. naive_solver. Qed.

Lemma take_line_cancelled key s l :
  s.(active_id) = Some key →
  (take_line s l).(active_id) = Some key ∧
  (take_line s l).(cancelled) = s.(cancelled) || cancels key l.
Proof.
  intros Hk. unfold take_line, read_line, cancels.
  destruct (is_named (json_string _ _) _); cbn [andb]; [|by rewrite orb_false_r].
  destruct (request_id_key _) as [id|]; [|by rewrite orb_false_r].
  assert (Hid : is_named s.(active_id) id = is_named (Some id) key) by by apply is_named_sym.
  case_decide; cbn [set_cancelled_ids active_id]; rewrite Hid; destruct (is_named (Some id) key);
    simpl; by rewrite ?orb_true_r, ?orb_false_r.
Qed.

(** While a call is active, it is cancelled exactly by the lines that say so. *)
Lemma take_lines_cancelled key ls s :
  s.(active_id) = Some key →
  (foldl take_line s ls).(active_id) = Some key ∧
  (foldl take_line s ls).(cancelled) = s.(cancelled) || existsb (cancels key) ls.
Proof.
  revert s. induction ls as [|l ls IH]; intros s Hk; simpl; [by rewrite orb_false_r|].
  destruct (take_line_cancelled key s l Hk) as [Hk' Hc]. destruct (IH _ Hk') as [Hk'' Hc'].
  split; [done|]. by rewrite Hc', Hc, orb_assoc.
Qed.

(** Without an active call, nothing is. *)
Lemma take_line_inactive s l :
  s.(active_id) = None →
  (take_line s l).(active_id) = None ∧ (take_line s l).(cancelled) = s.(cancelled).
Proof.
  intros Hk. unfold take_line, read_line. destruct (is_named (json_string _ _) _); [|done].
  destruct (request_id_key _); [|done].
  case_decide; cbn [set_cancelled_ids active_id]; by rewrite Hk.
Qed.

Lemma take_lines_inactive ls s :
  s.(active_id) = None → (foldl take_line s ls).(cancelled) = s.(cancelled).
Proof.
  revert s. induction ls as [|l ls IH]; intros s Hk; [done|]. simpl.
  destruct (take_line_inactive s l Hk) as [Hk' <-]. by apply IH.
Qed.
End reader.
