(* ===== verification/Scu.v ===== *)
(** * The computer-use server in the space ([native/scu.c])

    It validates calls, and forwards them to the host's service over a socket
    that is mounted into the space.  A call goes out whole on a connection whose
    peer is checked, and its result is what the host answers to that call.

    The reader thread runs between any two of the main thread's requests: each
    look at the shared variables first takes what it has read ([Arrive]). *)

From S2P Require Import Prelude Json Catalog Results.
From S2P Require Export Mcp.

Record stat := Stat { st_mode : Z; st_uid : Z; st_dev : Z; st_ino : Z }.

Definition S_ISSOCK (mode : Z) : bool := Z.land mode 0xF000 =? 0xC000.
Definition EAGAIN : Z := 11.
Definition EINPROGRESS : Z := 115.
Definition POLLIN : Z := 1.
Definition POLLOUT : Z := 4.

(** [inl] is [-1] with [errno]. *)
Inductive request : Type → Type :=
  | Arrive : request (text * bool)        (** bytes read; end of input, or a signal *)
  | Time : request Z                      (** microseconds *)
  | StatPath (path : text) : request (option stat)   (** does not follow *)
  | Peek (fd : Z) : request (Z + Z)       (** one byte, without waiting *)
  | Poll (fd events timeout : Z) : request (Z + Z)   (** milliseconds *)
  | Socket : request (Z + Z)
  | Connect (fd : Z) (path : text) : request (Z + unit)
  | SocketError (fd : Z) : request (Z + Z)
  | PeerUid (fd : Z) : request (Z + Z)
  | Send (fd : Z) (data : text) : request (Z + nat)
  | Read (fd : Z) (size : Z) : request (Z + text)    (** nothing at the end *)
  | Close (fd : Z) : request unit
  (** [puts] and [fflush]: waits for as long as the client does not read. *)
  | Puts (line : text) : request unit.

(** The kernel, the host and the client. *)
Class Surroundings := {
  outside : Type;
  respond {A} : request A → outside → A * outside;
  getuid : Z;
  respond_send fd data h n : (respond (Send fd data) h).1 = inr n → (n ≤ length data)%nat;
  respond_read fd size h data :
    0 ≤ size → (respond (Read fd size) h).1 = inr data → Z.of_nat (length data) ≤ size;
}.

Section scu.
Context `{Json_text} {surroundings : Surroundings}.

Record connection := Connection {
  host_fd : option Z;
  endpoint : Z * Z;        (** device and inode *)
  disconnected : bool;
  reader : reading;
  around : outside;
}.

Definition set_host (fd : option Z) (c : connection) : connection :=
  Connection fd c.(endpoint) c.(disconnected) c.(reader) c.(around).
Definition set_endpoint (e : Z * Z) (c : connection) : connection :=
  Connection c.(host_fd) e c.(disconnected) c.(reader) c.(around).
Definition set_disconnected (b : bool) (c : connection) : connection :=
  Connection c.(host_fd) c.(endpoint) b c.(reader) c.(around).
Definition set_reader (r : reading) (c : connection) : connection :=
  Connection c.(host_fd) c.(endpoint) c.(disconnected) r c.(around).
Definition set_around (h : outside) (c : connection) : connection :=
  Connection c.(host_fd) c.(endpoint) c.(disconnected) c.(reader) h.

Abbreviation M := (mcp connection (did request)).

Definition ask {A} (r : request A) : M A :=
  act (λ s, let '(x, h) := respond r s.(own).(around) in (x, set_own (set_around h s.(own)) s))
    (λ x, [Asked (Did r x)]).

Definition connection_state : M connection := s ← get; mret s.(own).
Definition change (f : connection → connection) : M unit := modify (λ s, set_own (f s.(own)) s).

(** What the reader thread did since the last look. *)
Definition reader_thread : M unit :=
  a ← ask Arrive;
  let '(bytes, stop) := a in
  modify (λ s,
    let '(r, s) := read_bytes bytes s.(own).(reader) s in
    let s := set_own (set_reader r s.(own)) s in
    if stop : bool then set_stopping true s else s).

Definition invalidate : M unit :=
  c ← connection_state;
  (if c.(host_fd) is Some fd then ask (Close fd) else mret tt) ≫= λ _,
  change (set_host None).

Definition scu_text_host_service_disconnected : text :=
  str "The host computer-use service disconnected. Call status again.".
Definition scu_text_computer_use_not_forwarded : text :=
  str "Computer use is not forwarded. The user needs to run `sudo spaces configure <space>` on the host, select Customise, then enable Plus Accessibility and Agent computer use.".
Definition scu_text_socket_path_too_long : text := str "The host socket path is too long.".
Definition scu_text_host_connect_failed : text :=
  str "Cannot connect to the host computer-use service.".

Definition scu_tick : M bool :=
  reader_thread ≫= λ _,
  s ← get;
  if s.(cancelled) || s.(stopping) then
    scu_fail (str "cancelled") scu_text_cancelled ≫= λ _, mret false
  else if s.(deadline) =? 0 then mret true
  else
    t ← ask Time;
    if s.(deadline) <=? t then scu_fail (str "timeout") scu_text_timeout ≫= λ _, mret false
    else mret true.

Definition computer_socket_path : text :=
  str "/run/spaces/desktop/" ++ decimal getuid ++ str "/computer/bus".

(** The socket is the user's own, and nobody else's. *)
Definition safe_endpoint (st : stat) : bool :=
  S_ISSOCK st.(st_mode) && (st.(st_uid) =? getuid) && (Z.land st.(st_mode) 0x3F =? 0).

Definition endpoint_available : M (option stat) :=
  st ← ask (StatPath computer_socket_path);
  mret (match st with Some st => if safe_endpoint st then Some st else None | None => None end).

(** The errors after which a socket is still good. *)
Definition transient (errno : Z) : bool := (errno =? EAGAIN) || (errno =? EINTR).

Definition same_endpoint (e : Z * Z) (st : option stat) : bool :=
  match st with
  | Some st => (st.(st_dev) =? e.1) && (st.(st_ino) =? e.2)
  | None => false
  end.

Definition alive (n : Z + Z) : bool :=
  match n with inl errno => transient errno | inr n => negb (n =? 0) end.

Definition check_backend : M unit :=
  c ← connection_state;
  match c.(host_fd) with
  | None => mret tt
  | Some fd =>
      n ← ask (Peek fd);
      st ← endpoint_available;
      if same_endpoint c.(endpoint) st && alive n then mret tt
      else invalidate ≫= λ _, change (set_disconnected true)
  end.

(** The connection once it is ready, or nothing. *)
Fixpoint wait_host (fuel : nat) (events : Z) : M (option Z) :=
  match fuel with
  | O => out_of_fuel
  | S fuel =>
      ok ← scu_tick;
      if negb ok then mret None else
      check_backend ≫= λ _,
      c ← connection_state;
      match c.(host_fd) with
      | None => mret None
      | Some fd =>
          n ← ask (Poll fd events 10);
          match n with
          | inr n => if 0 <? n then mret (Some fd) else wait_host fuel events
          | inl errno => if errno =? EINTR then wait_host fuel events else mret None
          end
      end
  end.

(** The part of [connect_host] after the socket's path: [rc] is 0. *)
Definition connect_socket (fuel : nat) (path : text) : M (option Z) :=
  f ← ask Socket;
  match f with
  | inl _ => mret None
  | inr fd =>
      change (set_host (Some fd)) ≫= λ _,
      rc ← ask (Connect fd path);
      match rc with
      | inr _ => mret (Some fd)
      | inl errno =>
          if errno =? EINPROGRESS then
            ready ← wait_host fuel POLLOUT;
            match ready with
            | Some fd =>
                e ← ask (SocketError fd);
                mret (match e with inr 0 => Some fd | _ => None end)
            | None => mret None
            end
          else mret None
      end
  end.

Definition connect_host (fuel : nat) : M bool :=
  check_backend ≫= λ _,
  c ← connection_state;
  if c.(disconnected) then
    change (set_disconnected false) ≫= λ _,
    scu_fail (str "computer_use_disconnected") scu_text_host_service_disconnected ≫= λ _, mret false
  else if c.(host_fd) is Some _ then mret true
  else
    st ← endpoint_available;
    match st with
    | None =>
        scu_fail (str "accessibility_permission_required") scu_text_computer_use_not_forwarded
          ≫= λ _, mret false
    | Some st =>
        if 108 <=? Z.of_nat (length computer_socket_path) then
          scu_fail (str "computer_use_unavailable") scu_text_socket_path_too_long ≫= λ _, mret false
        else
          change (set_endpoint (st.(st_dev), st.(st_ino))) ≫= λ _,
          fd ← connect_socket fuel computer_socket_path;
          uid ← match fd with Some fd => ask (PeerUid fd) | None => mret (inl 0) end;
          if (match uid with inr uid => uid =? getuid | inl _ => false end) then mret true
          else
            scu_fail (str "computer_use_unavailable") scu_text_host_connect_failed ≫= λ _,
            invalidate ≫= λ _,
            change (set_disconnected false) ≫= λ _, mret false
    end.

Definition MAX_RESPONSE : Z := 512 * 1024 * 1024.

Definition ends_line (b : text) : bool := bool_decide (last b = Some (char 10)).

(** [Some] is a complete response. *)
Fixpoint exchange (fuel : nat) (rest response : text) : M (option text) :=
  match fuel with
  | O => out_of_fuel
  | S fuel' =>
      ok ← scu_tick;
      if negb ok then mret None else
      match rest with
      | _ :: _ =>
          ready ← wait_host fuel POLLOUT;
          match ready with
          | None => mret None
          | Some fd =>
              n ← ask (Send fd rest);
              match n with
              | inr O => mret None
              | inr n => exchange fuel' (drop n rest) response
              | inl errno => if transient errno then exchange fuel' rest response else mret None
              end
          end
      | [] =>
          ready ← wait_host fuel POLLIN;
          match ready with
          | None => mret None
          | Some fd =>
              data ← ask (Read fd 65536);
              match data with
              | inr [] => mret None
              | inr data =>
                  if MAX_RESPONSE <? Z.of_nat (length response + length data) then mret None
                  else if ends_line (response ++ data) then mret (Some (response ++ data))
                  else exchange fuel' [] (response ++ data)
              | inl errno => if transient errno then exchange fuel' [] response else mret None
              end
          end
      end
  end.

Definition forwarded (id parameters : value) : json :=
  JObject ([(str "jsonrpc", JString (str "2.0")); (str "method", JString (str "tools/call"))] ++
    (if id is Some id then [(str "id", id)] else []) ++
    (if parameters is Some p then [(str "params", p)] else [])).

Definition forwarded_line (id parameters : value) : text :=
  if yyjson_write (forwarded id parameters) is Some line then line ++ newline else [].

Definition forward_tool (fuel : nat) (id parameters : value) : M value :=
  ok ← connect_host fuel;
  if negb ok then mret None else
  response ← exchange fuel (forwarded_line id parameters) [];
  let reply := response ≫= yyjson_read in
  let result := json_member reply (str "result") in
  if yyjson_equals (json_member reply (str "id")) id && yyjson_is_obj result then mret result
  else
    scu_fail (str "computer_use_disconnected") scu_text_host_service_disconnected ≫= λ _,
    invalidate ≫= λ _,
    change (set_disconnected false) ≫= λ _, mret None.

(** [scu_mcp.h] in this program.  A call gives up within its deadline. *)
Context (fuel : nat).

#[export] Instance scu_program : Program connection (did request) := {
  is_host := false;
  request_key id := mret (request_id_key id);
  run_tool tool id parameters arguments := forward_tool fuel id parameters;
  deliver line := ask (Puts line);
  scu_invalidate := invalidate;
  get_monotonic_time := ask Time;
  pause := reader_thread;
  poll_backend := check_backend;
}.

(** ** [main] *)

Definition start (no_vision : bool) (h : outside) : server connection := {|
  images := []; code := None; hint := None; vision_request := false; lock_seen := false;
  lock_monitor := false; cancelled := false; stopping := false; deadline := 0; requests := [];
  active_id := None; modern := false; initialized := false; no_vision := no_vision;
  cancelled_ids := ∅;
  own := Connection None (0, 0) false (Reading [] false) h |}.

Definition serve (no_vision : bool) (h : outside) :=
  serve_loop fuel (World (start no_vision h) []).

Inductive command := Serve (no_vision : bool) | Help | Usage.

(** The arguments after the program's name; usage errors exit with 2. *)
Definition scu_arguments (argv : list text) : command :=
  match argv with
  | [] => Help
  | [a] =>
      if text_eqb a (str "--help") || text_eqb a (str "-h") then Help
      else if text_eqb a (str "mcp") then Serve false else Usage
  | [a; b] => if text_eqb b (str "--no-vision") && text_eqb a (str "mcp") then Serve true else Usage
  | _ => Usage
  end.
End scu.
