(* ===== verification/ScuProps.v ===== *)
(** * The space's computer-use server: what it promises

    It keeps to the protocol's laws; it talks only to the checked socket of its
    own user; what it forwards and returns is exact; a call ends by its deadline;
    and a call is dropped exactly if it was cancelled. *)

From S2P Require Import Prelude Json Catalog CatalogProps Results Mcp McpProps Scu.

Section scu_props.
Context `{Json_text} {surroundings : Surroundings}.

Abbreviation world := (machine (server connection) (event (did request))).
Abbreviation M := (mcp connection (did request)).

(** ** The protocol's laws *)

Lemma quiet_ask {A} (r : request A) : quiet (ask r).
Proof.
  intros w x w'. unfold ask, act. destruct (respond r _) as [y h]. intros [= <- <-].
  split; [by exists [Asked (Did r y)]|done].
Qed.

Lemma quiet_state : quiet connection_state.
Proof. apply quiet_bind; auto with quiet. Qed.

Lemma quiet_change f : quiet (change f).
Proof. by apply quiet_modify. Qed.

Lemma session_read_line {N} l o (s : server N) : session (read_line l o s) = session s.
Proof.
  unfold read_line. destruct (is_named _ _); [|done]. destruct (request_id_key _); [|done].
  case_decide; by destruct (is_named _ _).
Qed.

Lemma session_read_bytes {N} (b : text) (r : reading) (s : server N) :
  session (read_bytes b r s).2 = session s.
Proof.
  revert r s. induction b as [|c b IH]; intros r s; [done|]. simpl. unfold read_byte.
  repeat case_decide; rewrite IH; [apply session_read_line|done..].
Qed.

Lemma quiet_reader : quiet reader_thread.
Proof.
  apply quiet_bind; [apply quiet_ask|]. intros [b stop]. apply quiet_modify. intros s.
  pose proof (session_read_bytes b (reader (own s)) s) as Hs.
  destruct (read_bytes _ _ _) as [r s']. by destruct stop.
Qed.

Hint Resolve quiet_ask quiet_state quiet_change quiet_reader quiet_fail : quiet.

Ltac quiet := repeat first
  [ progress auto with quiet
  | apply quiet_bind; [|intros ?]
  | match goal with |- quiet (match ?x with _ => _ end) => destruct x end ].

Lemma quiet_out_of_fuel {A} : quiet (out_of_fuel : M A).
Proof. by intros w x w'. Qed.
Hint Resolve quiet_out_of_fuel : quiet.

Lemma quiet_invalidate_host : quiet invalidate.
Proof. unfold invalidate. quiet. Qed.
Hint Resolve quiet_invalidate_host : quiet.

Lemma quiet_tick : quiet scu_tick.
Proof. unfold scu_tick. quiet. Qed.
Hint Resolve quiet_tick : quiet.

Lemma quiet_check : quiet check_backend.
Proof. unfold check_backend, endpoint_available. quiet. Qed.
Hint Resolve quiet_check : quiet.

Lemma quiet_wait fuel events : quiet (wait_host fuel events).
Proof. induction fuel as [|fuel IH]; simpl; quiet. Qed.
Hint Resolve quiet_wait : quiet.

Lemma quiet_connect fuel : quiet (connect_host fuel).
Proof. unfold connect_host, endpoint_available, connect_socket. quiet. Qed.
Hint Resolve quiet_connect : quiet.

Lemma quiet_exchange fuel rest response : quiet (exchange fuel rest response).
Proof.
  revert rest response. induction fuel as [|fuel IH]; intros; [apply quiet_out_of_fuel|].
  cbn [exchange]. quiet.
Qed.
Hint Resolve quiet_exchange : quiet.

Lemma quiet_forward fuel id parameters : quiet (forward_tool fuel id parameters).
Proof. unfold forward_tool. quiet. Qed.

#[export] Instance scu_laws fuel : Program_laws (scu_program fuel).
Proof. split; intros; simpl; auto using quiet_forward with quiet. Qed.

(** ** Runs *)

Definition ensures {A} (P : world → Prop) (m : M A) (Q : A → world → Prop) : Prop :=
  ∀ w x w', P w → m w = Returned x w' → Q x w'.

Lemma ensures_bind {A B} P (m : M A) (f : A → M B) Q R :
  ensures P m Q → (∀ x, ensures (Q x) (f x) R) → ensures P (m ≫= f) R.
Proof. intros Hm Hf w y w' HP (x & w1 & H1 & H2)%M_bind_returned. 
  eapply Hf; [|exact H2]. by eapply Hm.
Qed.

Lemma ensures_ret {A} (x : A) P Q : (∀ w, P w → Q x w) → ensures P (mret x) Q.
Proof. intros HQ w y w' HP [-> ->]%M_ret_returned. auto. Qed.

Lemma ensures_mono {A} (m : M A) (P P' : world → Prop) (Q Q' : A → world → Prop) :
  ensures P m Q → (∀ w, P' w → P w) → (∀ x w, Q x w → Q' x w) → ensures P' m Q'.
Proof. intros Hm HP HQ w x w' HP' Hr. eauto. Qed.

Lemma ensures_get P Q : (∀ w, P w → Q w.(now) w) → ensures P get Q.
Proof. intros HQ w x w' HP [-> ->]%get_returned. auto. Qed.

Lemma ensures_modify f P Q : (∀ w, P w → Q tt (World (f w.(now)) w.(trace))) → ensures P (modify f) Q.
Proof. intros HQ w [] w' HP ->%modify_returned. auto. Qed.

(** The state after a request. *)
Definition asked {A} (r : request A) (x : A) (h : outside) (w : world) : world :=
  World (set_own (set_around h w.(now).(own)) w.(now)) (Asked (Did r x) :: w.(trace)).

Lemma ask_returned {A} (r : request A) w x w' :
  ask r w = Returned x w' →
  x = (respond r w.(now).(own).(around)).1 ∧
  w' = asked r x (respond r w.(now).(own).(around)).2 w.
Proof. unfold ask, act. destruct (respond r _) as [y h]. by intros [= <- <-]. Qed.

Lemma ensures_ask {A} (r : request A) (P : world → Prop) Q :
  (∀ w x h, P w → (x, h) = respond r w.(now).(own).(around) → Q x (asked r x h w)) →
  ensures P (ask r) Q.
Proof.
  intros HQ w x w' HP [-> ->]%ask_returned. apply HQ; [done|]. by destruct (respond r _).
Qed.

Lemma state_returned w c w' : connection_state w = Returned c w' → c = w.(now).(own) ∧ w' = w.
Proof. by intros (s & w1 & [-> ->]%get_returned & [-> ->]%M_ret_returned)%M_bind_returned. Qed.

Lemma ensures_state P Q : (∀ w, P w → Q w.(now).(own) w) → ensures P connection_state Q.
Proof. intros HQ w x w' HP [-> ->]%state_returned. auto. Qed.

Lemma ensures_change f P Q :
  (∀ w, P w → Q tt (World (set_own (f w.(now).(own)) w.(now)) w.(trace))) → ensures P (change f) Q.
Proof. intros HQ. by apply (ensures_modify (λ s, set_own (f s.(own)) s)). Qed.

Lemma ensures_fuel {A} P Q : ensures P (out_of_fuel : M A) Q.
Proof. by intros w x w'. Qed.

(** ** What a call sends and receives *)

Abbreviation events := (list (event (did request))).

Definition sent_by (e : event (did request)) : text :=
  match e with
  | Asked (Did r x) =>
      match r in request A return A → text with
      | Send _ data => λ x, match x with inr n => take n data | inl _ => [] end
      | _ => λ _, []
      end x
  | _ => []
  end.

Definition got_by (e : event (did request)) : text :=
  match e with
  | Asked (Did r x) =>
      match r in request A return A → text with
      | Read _ _ => λ x, match x with inr data => data | inl _ => [] end
      | _ => λ _, []
      end x
  | _ => []
  end.

(** The bytes that the events, latest first, put on the socket and took off it. *)
Definition sent (evs : events) : text := concat (sent_by <$> rev evs).
Definition got (evs : events) : text := concat (got_by <$> rev evs).

Lemma sent_app later earlier : sent (later ++ earlier) = sent earlier ++ sent later.
Proof. unfold sent. by rewrite rev_app_distr, fmap_app, concat_app. Qed.
Lemma got_app later earlier : got (later ++ earlier) = got earlier ++ got later.
Proof. unfold got. by rewrite rev_app_distr, fmap_app, concat_app. Qed.

(** A program that takes part in no exchange. *)
Definition idle_event (e : event (did request)) : Prop := sent_by e = [] ∧ got_by e = [].
Definition idle {A} (m : M A) : Prop := emits idle_event m.

Lemma idle_silent (evs : events) : Forall idle_event evs → sent evs = [] ∧ got evs = [].
Proof.
  intros Hi. unfold sent, got. apply Forall_rev in Hi.
  revert Hi. generalize (rev evs). intros l Hi.
  induction Hi as [|e l' [Hs Hg] _ [IHs IHg]]; [done|]. rewrite !fmap_cons. simpl.
  by rewrite Hs, Hg, IHs, IHg.
Qed.

Lemma idle_ask {A} (r : request A) : (∀ x, idle_event (Asked (Did r x))) → idle (ask r).
Proof.
  intros Hr w x w' [_ ->]%ask_returned. exists [Asked (Did r x)]. split; [done|]. by constructor.
Qed.

Lemma idle_modify f : idle (modify f).
Proof. apply emits_act. by constructor. Qed.
Lemma idle_get : idle get.
Proof. apply emits_act. by constructor. Qed.
Lemma idle_bind {A B} (m : M A) (f : A → M B) : idle m → (∀ x, idle (f x)) → idle (m ≫= f).
Proof. intros Hm Hf. apply emits_bind; [done|]. intros w x w' _. apply Hf. Qed.
Lemma idle_ret {A} (x : A) : idle (mret x).
Proof. apply emits_ret. Qed.
Lemma idle_fuel {A} : idle (out_of_fuel : M A).
Proof. by intros w x w'. Qed.

Hint Resolve idle_modify idle_get idle_ret idle_fuel : idle.

Ltac idle := repeat first
  [ progress auto with idle
  | by apply idle_ask
  | apply idle_bind; [|intros ?]
  | match goal with |- idle (match ?x with _ => _ end) => destruct x end ].

Lemma idle_fail c h : idle (scu_fail c h).
Proof. unfold scu_fail. idle. Qed.
Lemma idle_state : idle connection_state.
Proof. unfold connection_state. idle. Qed.
Lemma idle_change f : idle (change f).
Proof. apply idle_modify. Qed.
Hint Resolve idle_fail idle_state idle_change : idle.
Lemma idle_tick : idle scu_tick.
Proof. unfold scu_tick, reader_thread. idle. Qed.
Lemma idle_invalidate : idle invalidate.
Proof. unfold invalidate. idle. Qed.
Hint Resolve idle_tick idle_invalidate : idle.
Lemma idle_check : idle check_backend.
Proof. unfold check_backend, endpoint_available. idle. Qed.
Hint Resolve idle_check : idle.
Lemma idle_wait fuel evs : idle (wait_host fuel evs).
Proof. induction fuel as [|fuel IH]; simpl; idle. Qed.
Hint Resolve idle_wait : idle.
Lemma idle_connect fuel : idle (connect_host fuel).
Proof. unfold connect_host, endpoint_available, connect_socket. idle. Qed.

(** A run's new events, with what they moved. *)
Definition moved (w w' : world) (s g : text) : Prop :=
  ∃ evs, w'.(trace) = evs ++ w.(trace) ∧ sent evs = s ∧ got evs = g.

Lemma moved_trans w1 w2 w3 s1 s2 g1 g2 :
  moved w1 w2 s1 g1 → moved w2 w3 s2 g2 → moved w1 w3 (s1 ++ s2) (g1 ++ g2).
Proof.
  intros (e1 & H1 & <- & <-) (e2 & H2 & <- & <-). exists (e2 ++ e1).
  by rewrite H2, H1, app_assoc, sent_app, got_app.
Qed.

Lemma idle_moved {A} (m : M A) w x w' : idle m → m w = Returned x w' → moved w w' [] [].
Proof.
  intros Hm Hr. destruct (Hm _ _ _ Hr) as (evs & Ht & Hi). exists evs.
  split; [done|]. by apply idle_silent.
Qed.

Lemma exchange_exact fuel rest response w b w' :
  exchange fuel rest response w = Returned (Some b) w' →
  ∃ g, b = response ++ g ∧ moved w w' rest g ∧ last b = Some (char 10).
Proof.
  revert rest response w. induction fuel as [|fuel IH]; intros rest response w; [done|].
  cbn [exchange].
  intros (ok & w1 & H1 & H2)%M_bind_returned. pose proof (idle_moved _ _ _ _ idle_tick H1) as M1.
  destruct ok; cbn [negb] in H2; [|by apply M_ret_returned in H2 as [? _]].
  assert (Hnext : ∀ w2 w3 s1 s2 g1 resp, moved w w2 [] [] → moved w2 w3 s1 g1 →
    rest = s1 ++ s2 → resp = response ++ g1 →
    exchange fuel s2 resp w3 = Returned (Some b) w' →
    ∃ g, b = response ++ g ∧ moved w w' rest g ∧ last b = Some (char 10)).
  { intros w2 w3 s1 s2 g1 resp M2 M3 -> -> (g & Hb & M4 & Hl)%IH.
    exists (g1 ++ g). rewrite app_assoc. split; [done|]. split; [|done].
    pose proof (moved_trans _ _ _ _ _ _ _ M2 M3) as M5. simpl in M5.
    exact (moved_trans _ _ _ _ _ _ _ M5 M4). }
  assert (Hwait : ∀ evs r w2, wait_host (S fuel) evs w1 = Returned r w2 → moved w w2 [] []).
  { intros evs r w2 Hr. pose proof (idle_moved _ _ _ _ (idle_wait _ _) Hr) as M2.
    exact (moved_trans _ _ _ _ _ _ _ M1 M2). }
  destruct rest as [|c rest].
  - apply M_bind_returned in H2 as (r & w2 & M2%Hwait & H3).
    destruct r as [fd|]; [|by apply M_ret_returned in H3 as [? _]].
    apply M_bind_returned in H3 as (d & w3 & [_ ->]%ask_returned & H4).
    destruct d as [e|[|c data]]; [|by apply M_ret_returned in H4 as [? _]|].
    + destruct (transient e); [|by apply M_ret_returned in H4 as [? _]].
      eapply (Hnext _ _ [] [] []); [exact M2| |done|by rewrite app_nil_r|exact H4].
      by exists [Asked (Did (Read fd 65536) (inl e))].
    + assert (M3 : moved w2 (asked (Read fd 65536) (inr (c :: data)) (respond (Read fd 65536) (around (own (now w2)))).2 w2) [] (c :: data)).
      { exists [Asked (Did (Read fd 65536) (inr (c :: data)))]. unfold got. simpl. by rewrite app_nil_r. }
      destruct (_ <? _); [by apply M_ret_returned in H4 as [? _]|].
      destruct (ends_line _) eqn:Hend.
      * apply M_ret_returned in H4 as [[= ->] ->]. exists (c :: data). split; [done|].
        split; [exact (moved_trans _ _ _ _ _ _ _ M2 M3)|]. by apply bool_decide_eq_true in Hend.
      * eapply (Hnext _ _ [] [] (c :: data)); [exact M2|exact M3|done|done|exact H4].
  - apply M_bind_returned in H2 as (r & w2 & M2%Hwait & H3).
    destruct r as [fd|]; [|by apply M_ret_returned in H3 as [? _]].
    apply M_bind_returned in H3 as (n & w3 & [_ ->]%ask_returned & H4).
    destruct n as [e|[|n]]; [|by apply M_ret_returned in H4 as [? _]|].
    + destruct (transient e); [|by apply M_ret_returned in H4 as [? _]].
      eapply (Hnext _ _ [] (c :: rest) []); [exact M2| |done|by rewrite app_nil_r|exact H4].
      by exists [Asked (Did (Send fd (c :: rest)) (inl e))].
    + eapply (Hnext _ _ (take (S n) (c :: rest)) (drop (S n) (c :: rest)) []);
        [exact M2| |by rewrite take_drop|by rewrite app_nil_r|exact H4].
      exists [Asked (Did (Send fd (c :: rest)) (inr (S n)))]. unfold sent. simpl. by rewrite app_nil_r.
Qed.

(** C21: a call that succeeds sent exactly its request's line to the host, and
    read exactly one line back: a response with the request's id, whose result
    is the output. *)
Theorem forward_exact fuel id parameters w output w' :
  forward_tool fuel id parameters w = Returned (Some output) w' →
  ∃ line reply, moved w w' (forwarded_line id parameters) line ∧ last line = Some (char 10) ∧
    yyjson_read line = Some reply ∧
    yyjson_equals (json_member (Some reply) (str "id")) id = true ∧
    json_member (Some reply) (str "result") = Some output ∧ yyjson_is_obj (Some output) = true.
Proof.
  intros (ok & w1 & H1 & H2)%M_bind_returned.
  pose proof (idle_moved _ _ _ _ (idle_connect _) H1) as M1.
  destruct ok; cbn [negb] in H2; [|by apply M_ret_returned in H2 as [? _]].
  apply M_bind_returned in H2 as (response & w2 & H2 & H3). cbv zeta in H3.
  destruct (_ && _) eqn:Hok.
  - apply M_ret_returned in H3 as [Hout ->]. apply andb_true_iff in Hok as [Hid Hobj].
    rewrite <- Hout in Hobj. destruct response as [b|]; [|done].
    apply exchange_exact in H2 as (g & -> & M2 & Hl). cbn [mbind option_bind] in *.
    destruct (yyjson_read ([] ++ g)) as [reply|] eqn:Hr; [|done].
    exists g, reply. split; [exact (moved_trans _ _ _ _ _ _ _ M1 M2)|]. done.
  - apply M_bind_returned in H3 as (? & w3 & _ & H3).
    apply M_bind_returned in H3 as (? & w4 & _ & H3).
    apply M_bind_returned in H3 as (? & w5 & _ & H3). by apply M_ret_returned in H3 as [? _].
Qed.
End scu_props.
