(* ===== verification/ScuSafe.v ===== *)
(** * Whom the space's server talks to

    Every byte goes to, and comes from, a connection to the socket that the host
    mounted for this user: its file was the user's own and nobody else's when it
    was connected and still is the same one, and its peer is the same user. *)

From S2P Require Import Prelude Json Catalog Results Mcp McpProps Scu ScuProps.

Section safe.
Context `{Json_text} {surroundings : Surroundings}.

Abbreviation world := (machine (server connection) (event (did request))).
Abbreviation M := (mcp connection (did request)).
Abbreviation events := (list (event (did request))).

Definition asks {A} (r : request A) (x : A) : event (did request) := Asked (Did r x).

(** The connection [fd] to the socket file [ep], open since. *)
Definition opened (fd : Z) (ep : Z * Z) (T : events) : Prop := ∃ later rc st earlier,
  T = later ++ asks (Connect fd computer_socket_path) rc :: asks Socket (inr fd) ::
    asks (StatPath computer_socket_path) (Some st) :: earlier ∧
  safe_endpoint st = true ∧ ep = (st.(st_dev), st.(st_ino)) ∧ asks (Close fd) tt ∉ later.

(** Its peer is the user. *)
Definition vouched (fd : Z) (ep : Z * Z) (T : events) : Prop := ∃ later rc st earlier,
  T = later ++ asks (Connect fd computer_socket_path) rc :: asks Socket (inr fd) ::
    asks (StatPath computer_socket_path) (Some st) :: earlier ∧
  safe_endpoint st = true ∧ ep = (st.(st_dev), st.(st_ino)) ∧ asks (Close fd) tt ∉ later ∧
  asks (PeerUid fd) (inr getuid) ∈ later.

(** It was just seen to be alive and ready, and its socket file the same. *)
Definition seen (fd : Z) (ep : Z * Z) (T : events) : Prop := ∃ evs n st k earlier,
  T = asks (Poll fd evs 10) (inr n) :: asks (StatPath computer_socket_path) (Some st) ::
    asks (Peek fd) k :: earlier ∧
  0 < n ∧ safe_endpoint st = true ∧ ep = (st.(st_dev), st.(st_ino)) ∧ alive k = true.

(** What comes before each transfer. *)
Definition guarded (e : event (did request)) (T : events) : Prop :=
  match e with
  | Asked (Did r _) =>
      match r with
      | Send fd _ | Read fd _ => ∃ ep, seen fd ep T ∧ vouched fd ep T
      | _ => True
      end
  | _ => True
  end.

Definition transfer {A} (r : request A) : bool :=
  match r with Send _ _ | Read _ _ => true | _ => false end.
Definition closing {A} (r : request A) : bool := match r with Close _ => true | _ => false end.

(** A property of a connection that only closing it ends. *)
Definition lasting (V : Z → Z * Z → events → Prop) : Prop := ∀ fd ep e T,
  e ≠ asks (Close fd) tt → V fd ep T → V fd ep (e :: T).

Lemma lasting_opened : lasting opened.
Proof.
  intros fd ep e T He (later & rc & st & earlier & -> & Hs & Hep & Hc).
  exists (e :: later), rc, st, earlier. split; [done|]. split; [done|]. split; [done|]. set_solver.
Qed.

Lemma lasting_vouched : lasting vouched.
Proof.
  intros fd ep e T He (later & rc & st & earlier & -> & Hs & Hep & Hc & Hp).
  exists (e :: later), rc, st, earlier. split; [done|]. split; [done|]. split; [done|]. set_solver.
Qed.

(** The invariant: transfers are guarded, and the connection has [V]. *)
Definition inv (V : Z → Z * Z → events → Prop) (w : world) : Prop :=
  always guarded w.(trace) ∧
  match w.(now).(own).(host_fd) with
  | Some fd => V fd w.(now).(own).(endpoint) w.(trace)
  | None => True
  end.

Section lasting.
Context (V : Z → Z * Z → events → Prop) (HV : lasting V).

Lemma inv_asked {A} (r : request A) x h w :
  transfer r = false → closing r = false → inv V w → inv V (asked r x h w).
Proof.
  intros Ht Hc [Hg HV']. split; [split; [by destruct r|done]|]. simpl.
  destruct (host_fd _) as [fd|]; [|done]. apply HV; [|done].
  unfold asks. intros E. by destruct r.
Qed.

Definition keeps {A} (m : M A) : Prop := ensures (inv V) m (λ _, inv V).

Lemma keeps_bind {A B} (m : M A) (f : A → M B) : keeps m → (∀ x, keeps (f x)) → keeps (m ≫= f).
Proof. intros Hm Hf. by apply (ensures_bind _ _ _ (λ _, inv V)). Qed.

Lemma keeps_ret {A} (x : A) : keeps (mret x).
Proof. by apply ensures_ret. Qed.

Lemma keeps_ask {A} (r : request A) : transfer r = false → closing r = false → keeps (ask r).
Proof. intros Ht Hc. apply ensures_ask. intros w x h HI _. by apply inv_asked. Qed.

Lemma keeps_get : keeps get.
Proof. by apply ensures_get. Qed.
Lemma keeps_state : keeps connection_state.
Proof. by apply ensures_state. Qed.
Lemma keeps_fuel {A} : keeps (out_of_fuel : M A).
Proof. apply ensures_fuel. Qed.

(** A change of the state that leaves the connection. *)
Lemma keeps_modify f :
  (∀ s, (f s).(own).(host_fd) = s.(own).(host_fd) ∧ (f s).(own).(endpoint) = s.(own).(endpoint)) →
  keeps (modify f).
Proof.
  intros Hf. apply ensures_modify. intros w [Hg HV']. split; [done|]. simpl.
  by destruct (Hf w.(now)) as [-> ->].
Qed.

Lemma keeps_change f :
  (∀ c, (f c).(host_fd) = c.(host_fd) ∧ (f c).(endpoint) = c.(endpoint)) → keeps (change f).
Proof. intros Hf. apply keeps_modify. intros s. apply Hf. Qed.

Lemma keeps_fail c h : keeps (scu_fail c h).
Proof.
  apply keeps_bind; [|intros; apply keeps_ret]. apply keeps_modify.
  intros s. by destruct (Mcp.code s).
Qed.

Lemma own_read_line {N} l o (s : server N) : (read_line l o s).(own) = s.(own).
Proof.
  unfold read_line. destruct (is_named _ _); [|done]. destruct (request_id_key _); [|done].
  case_decide; by destruct (is_named _ _).
Qed.

Lemma own_read_bytes {N} b r (s : server N) : (read_bytes b r s).2.(own) = s.(own).
Proof.
  revert r s. induction b as [|c b IH]; intros r s; [done|]. simpl. unfold read_byte.
  repeat case_decide; rewrite IH; [apply own_read_line|done..].
Qed.

Lemma keeps_reader : keeps reader_thread.
Proof.
  apply keeps_bind; [by apply keeps_ask|]. intros [b stop]. apply keeps_modify. intros s.
  pose proof (own_read_bytes b (reader (own s)) s) as Hs.
  destruct (read_bytes b _ s) as [r s']. simpl in Hs. destruct stop; simpl; by rewrite Hs.
Qed.

Hint Resolve keeps_ret keeps_get keeps_state keeps_fuel keeps_fail keeps_reader : keeps.

Ltac keeps := repeat first
  [ progress auto with keeps
  | by apply keeps_ask
  | apply keeps_bind; [|intros ?]
  | match goal with |- keeps (match ?x with _ => _ end) => destruct x end ].

Lemma keeps_tick : keeps scu_tick.
Proof. unfold scu_tick. keeps. Qed.
Hint Resolve keeps_tick : keeps.

(** Closing the connection leaves any invariant. *)
Lemma ensures_invalidate (V' : Z → Z * Z → events → Prop) :
  ensures (inv V) invalidate (λ _ w, inv V' w ∧ w.(now).(own).(host_fd) = None).
Proof.
  intros w [] w' [Hg _] (c & w1 & [-> ->]%state_returned & H2)%M_bind_returned.
  apply M_bind_returned in H2 as (? & w2 & H2 & ->%modify_returned).
  split; [|done]. split; [|done]. simpl.
  destruct (host_fd _) as [fd|].
  - apply ask_returned in H2 as [_ ->]. by split.
  - apply M_ret_returned in H2 as [_ ->]. done.
Qed.

Lemma keeps_invalidate : keeps invalidate.
Proof. eapply ensures_mono; [apply (ensures_invalidate V)|done|]. by intros x w [? _]. Qed.
Hint Resolve keeps_invalidate : keeps.

Lemma keeps_disconnected b : keeps (change (set_disconnected b)).
Proof. by apply keeps_change. Qed.
Hint Resolve keeps_disconnected : keeps.

(** After a look at the backend: the connection is closed, or was seen. *)
Definition looked (w : world) : Prop :=
  match w.(now).(own).(host_fd) with
  | Some fd => ∃ st k earlier,
      w.(trace) = asks (StatPath computer_socket_path) (Some st) :: asks (Peek fd) k :: earlier ∧
      safe_endpoint st = true ∧ w.(now).(own).(endpoint) = (st.(st_dev), st.(st_ino)) ∧
      alive k = true
  | None => True
  end.

Lemma check_looked : ensures (inv V) check_backend (λ _ w, inv V w ∧ looked w).
Proof.
  intros w [] w' HI (c & w1 & [-> ->]%state_returned & H2)%M_bind_returned.
  destruct (host_fd w.(now).(own)) as [fd|] eqn:Hfd.
  2: { apply M_ret_returned in H2 as [_ ->]. split; [done|]. unfold looked. by rewrite Hfd. }
  apply M_bind_returned in H2 as (k & w2 & [_ ->]%ask_returned & H3).
  apply M_bind_returned in H3 as (st' & w3 & H3 & H4).
  apply M_bind_returned in H3 as (st & w4 & [_ ->]%ask_returned & [-> ->]%M_ret_returned).
  match type of H4 with (_ : M unit) ?w = _ => set (w2 := w) in * end.
  assert (HI2 : inv V w2) by (apply inv_asked; [done..|]; by apply inv_asked).
  destruct (_ && alive k) eqn:Hok.
  - apply M_ret_returned in H4 as [_ ->]. split; [done|]. unfold looked. simpl. rewrite Hfd.
    apply andb_true_iff in Hok as [Hst Hk]. destruct st as [st|]; [|done].
    destruct (safe_endpoint st) eqn:Hsafe; [|done]. simpl in Hst.
    apply andb_true_iff in Hst as [Hd%Z.eqb_eq Hi%Z.eqb_eq].
    eexists st, k, _. split; [done|]. split; [done|]. split; [|done].
    rewrite Hd, Hi. by destruct (endpoint _).
  - apply M_bind_returned in H4 as (? & w3 & H4 & ->%modify_returned).
    apply (ensures_invalidate V) in H4 as [HI3 Hnone]; [|done].
    split; [|unfold looked; simpl; by rewrite Hnone].
    destruct HI3 as [Hg _]. split; [done|]. simpl. by rewrite Hnone.
Qed.

Lemma keeps_check : keeps check_backend.
Proof. eapply ensures_mono; [apply check_looked|done|]. by intros x w [? _]. Qed.
Hint Resolve keeps_check : keeps.

(** What [wait_host] returns. *)
Definition ready (x : option Z) (w : world) : Prop :=
  match x with
  | Some fd => w.(now).(own).(host_fd) = Some fd ∧ seen fd w.(now).(own).(endpoint) w.(trace)
  | None => True
  end.

Lemma wait_ready fuel evs : ensures (inv V) (wait_host fuel evs) (λ x w, inv V w ∧ ready x w).
Proof.
  induction fuel as [|fuel IH]; [apply ensures_fuel|]. cbn [wait_host].
  eapply ensures_bind; [apply keeps_tick|]. intros [|]; cbn [negb]; [|by apply ensures_ret].
  eapply ensures_bind; [apply check_looked|]. intros [].
  intros w x w' [HI Hl] (c & w1 & [-> ->]%state_returned & H2)%M_bind_returned.
  unfold looked in Hl. destruct (host_fd w.(now).(own)) as [fd|] eqn:Hfd.
  2: { by apply M_ret_returned in H2 as [-> ->]. }
  apply M_bind_returned in H2 as (n & w2 & [_ ->]%ask_returned & H3).
  match type of H3 with (_ : M _) ?w = _ => set (w2 := w) in * end.
  assert (HI2 : inv V w2) by by apply inv_asked.
  destruct n as [errno|n].
  - destruct (errno =? EINTR); [by eapply IH|]. by apply M_ret_returned in H3 as [-> ->].
  - destruct (Z.ltb_spec 0 n); [|by eapply IH].
    apply M_ret_returned in H3 as [-> ->]. split; [done|]. split; [done|].
    destruct Hl as (st & k & earlier & Ht & Hs & Hep & Hk).
    exists evs, n, st, k, earlier. split; [|done]. unfold w2, asked, asks. simpl. by rewrite Ht.
Qed.
End lasting.

#[local] Hint Resolve lasting_opened lasting_vouched : keeps.
#[local] Hint Resolve keeps_ret keeps_get keeps_state keeps_fuel keeps_fail keeps_reader keeps_tick
  keeps_invalidate keeps_disconnected keeps_check : keeps.

(** ** Connecting *)

Lemma keeps_nothing V : keeps V (change (set_disconnected false)).
Proof. by apply keeps_change. Qed.

(** The state in which a socket is connected: none is open, and the file was just
    looked at. *)
Definition unconnected (st : stat) (w : world) : Prop :=
  always guarded w.(trace) ∧ w.(now).(own).(host_fd) = None ∧
  w.(now).(own).(endpoint) = (st.(st_dev), st.(st_ino)) ∧ safe_endpoint st = true ∧
  ∃ earlier, w.(trace) = asks (StatPath computer_socket_path) (Some st) :: earlier.

(** The connection is open, with the peer not yet known. *)
Definition connected (x : option Z) (w : world) : Prop :=
  inv opened w ∧ match x with Some fd => w.(now).(own).(host_fd) = Some fd | None => True end.

Lemma connect_socket_connected fuel st :
  ensures (unconnected st) (connect_socket fuel computer_socket_path) connected.
Proof.
  intros w x w' (Hg & Hnone & Hep & Hsafe & earlier & Ht) (f & w1 & [_ ->]%ask_returned & H2)%M_bind_returned.
  match type of H2 with (_ : M _) ?w = _ => set (w1 := w) in * end.
  destruct f as [errno|fd].
  { apply M_ret_returned in H2 as [-> ->]. split; [|done]. split; [by split|]. simpl. by rewrite Hnone. }
  apply M_bind_returned in H2 as (? & w2 & ->%modify_returned & H3).
  apply M_bind_returned in H3 as (rc & w3 & [_ ->]%ask_returned & H4).
  match type of H4 with (_ : M _) ?w = _ => set (w3 := w) in * end.
  assert (HI : inv opened w3 ∧ w3.(now).(own).(host_fd) = Some fd).
  { split; [|done]. split; [by repeat split|]. simpl. exists [], rc, st, earlier.
    unfold asks in *. rewrite Hep. split; [by rewrite <- Ht|]. split; [done|]. split; [done|set_solver]. }
  destruct HI as [HI Hfd]. destruct rc as [errno|[]].
  2: { by apply M_ret_returned in H4 as [-> ->]. }
  destruct (errno =? EINPROGRESS).
  2: { by apply M_ret_returned in H4 as [-> ->]. }
  apply M_bind_returned in H4 as (ready' & w4 & H4 & H5).
  apply (wait_ready opened lasting_opened) in H4 as [HI4 Hr]; [|done].
  destruct ready' as [fd'|]; [|by apply M_ret_returned in H5 as [-> ->]].
  apply M_bind_returned in H5 as (e & w5 & [_ ->]%ask_returned & [-> ->]%M_ret_returned).
  destruct Hr as [Hfd' _]. split.
  - by apply inv_asked; [apply lasting_opened|..].
  - destruct e as [|[]]; done.
Qed.

Lemma inv_opened_vouched fd h w :
  inv opened w → w.(now).(own).(host_fd) = Some fd → inv vouched (asked (PeerUid fd) (inr getuid) h w).
Proof.
  intros [Hg Ho] Hfd. split; [by split|]. simpl. rewrite Hfd in *.
  destruct Ho as (later & rc & st & earlier & Ht & Hs & Hep & Hc).
  exists (asks (PeerUid fd) (inr getuid) :: later), rc, st, earlier.
  rewrite Ht. unfold asks in *. set_solver.
Qed.

Lemma connect_failed :
  ensures (inv opened) (scu_fail (str "computer_use_unavailable") scu_text_host_connect_failed
    ≫= λ _, invalidate ≫= λ _, change (set_disconnected false) ≫= λ _, mret false)
    (λ _, inv vouched).
Proof.
  eapply ensures_bind; [apply keeps_fail|]. intros y.
  eapply ensures_bind; [apply (ensures_invalidate opened vouched)|]. intros [].
  eapply ensures_bind; [eapply ensures_mono; [apply (keeps_nothing vouched)| |]|].
  - by intros w [? _].
  - by intros x w HI; exact HI.
  - intros z. by apply ensures_ret.
Qed.

Lemma keeps_connect fuel : keeps vouched (connect_host fuel).
Proof.
  pose proof lasting_vouched as HV. pose proof lasting_opened as HO.
  apply keeps_bind; [auto with keeps|]. intros _.
  intros w x w' HI (c & w1 & [-> ->]%state_returned & H2)%M_bind_returned.
  destruct (disconnected _).
  { revert HI H2. generalize w x w'. change (keeps vouched (change (set_disconnected false) ≫= λ _,
      scu_fail (str "computer_use_disconnected") scu_text_host_service_disconnected ≫= λ _, mret false)).
    repeat (apply keeps_bind; [auto with keeps|intros ?]). auto with keeps. }
  destruct (host_fd w.(now).(own)) as [fd|] eqn:Hfd; [by apply M_ret_returned in H2 as [-> ->]|].
  apply M_bind_returned in H2 as (st' & w2 & H2 & H3).
  apply M_bind_returned in H2 as (st & w3 & [_ ->]%ask_returned & [-> ->]%M_ret_returned).
  match type of H3 with (_ : M _) ?w = _ => set (w2 := w) in * end.
  assert (HI2 : inv vouched w2) by by apply inv_asked.
  assert (Hfail : ∀ c h w, inv vouched w → ∀ x w', (scu_fail c h ≫= λ _, mret false) w = Returned x w' →
    inv vouched w').
  { intros ch h w0 HI0 x0 w0' Hr. assert (Hk : keeps vouched (scu_fail ch h ≫= λ _, mret false))
      by (apply keeps_bind; auto with keeps). by eapply Hk. }
  destruct st as [st|]; [destruct (safe_endpoint st) eqn:Hsafe|]; [|by eapply Hfail..].
  destruct (108 <=? _); [by eapply Hfail|].
  apply M_bind_returned in H3 as (? & w4 & ->%modify_returned & H4).
  apply M_bind_returned in H4 as (fd & w5 & H4 & H5).
  apply (connect_socket_connected fuel st) in H4 as [HI5 Hfd5].
  2: { destruct HI2 as [Hg2 _]. split; [done|]. simpl. by repeat split; eauto. }
  apply M_bind_returned in H5 as (uid & w6 & H6 & H7).
  destruct fd as [fd|].
  - apply ask_returned in H6 as [_ ->].
    assert (HI6 : ∀ y h, inv opened (asked (PeerUid fd) y h w5)) by (intros; by apply inv_asked).
    destruct uid as [errno|u]; [exact (connect_failed _ _ _ (HI6 _ _) H7)|].
    destruct (Z.eqb_spec u getuid) as [Hu|Hu]; [|exact (connect_failed _ _ _ (HI6 _ _) H7)].
    rewrite Hu in *.
    apply M_ret_returned in H7 as [-> ->]. by apply inv_opened_vouched.
  - apply M_ret_returned in H6 as [-> ->]. exact (connect_failed _ _ _ HI5 H7).
Qed.

(** ** Exchanging *)

(** A transfer on a connection that was just seen. *)
Lemma inv_transfer {A} (r : request A) fd x h w :
  (∀ T, (∃ ep, seen fd ep T ∧ vouched fd ep T) → guarded (asks r x) T) → closing r = false →
  inv vouched w → ready (Some fd) w → inv vouched (asked r x h w).
Proof.
  intros Hr Hc [Hg HV] [Hfd Hseen]. rewrite Hfd in HV.
  split; [split; [apply Hr; eauto|done]|]. simpl. rewrite Hfd.
  apply lasting_vouched; [|done]. intros E. unfold asks in E. by destruct r.
Qed.

Lemma keeps_exchange fuel rest response : keeps vouched (exchange fuel rest response).
Proof.
  revert rest response. induction fuel as [|fuel IH]; intros rest response; [apply ensures_fuel|].
  cbn [exchange]. apply keeps_bind; [auto with keeps|]. intros ok.
  destruct ok; cbn [negb]; [|auto with keeps].
  assert (Hdone : ∀ w x (o : option text) w', inv vouched w → (mret o : M _) w = Returned x w' →
    inv vouched w') by (intros; eapply keeps_ret; eauto).
  destruct rest as [|c rest].
  all: intros w x w' HI (r & w2 & H2 & H3)%M_bind_returned.
  all: apply (wait_ready vouched lasting_vouched) in H2 as [HI2 Hr]; [|done].
  all: destruct r as [fd|]; [|by eapply Hdone].
  all: apply M_bind_returned in H3 as (d & w3 & [_ ->]%ask_returned & H4).
  - match type of H4 with (_ : M _) ?w = _ => assert (HI3 : inv vouched w)
      by (by apply (inv_transfer _ fd)) end.
    destruct d as [e|[|k data]]; [|by eapply Hdone|].
    + destruct (transient e); [by eapply IH|by eapply Hdone].
    + destruct (_ <? _); [by eapply Hdone|]. destruct (ends_line _); [by eapply Hdone|by eapply IH].
  - match type of H4 with (_ : M _) ?w = _ => assert (HI3 : inv vouched w)
      by (by apply (inv_transfer _ fd)) end.
    destruct d as [e|[|n]]; [|by eapply Hdone|by eapply IH].
    destruct (transient e); [by eapply IH|by eapply Hdone].
Qed.

Lemma keeps_forward fuel id parameters : keeps vouched (forward_tool fuel id parameters).
Proof.
  pose proof lasting_vouched as HV. pose proof (keeps_connect fuel) as Hc.
  pose proof keeps_exchange as He. unfold forward_tool.
  apply keeps_bind; [done|]. intros ok. destruct (negb ok); [auto with keeps|].
  apply keeps_bind; [done|]. intros response. cbv zeta.
  destruct (_ && _); [auto with keeps|].
  repeat (apply keeps_bind; [auto with keeps|intros ?]). auto with keeps.
Qed.

(** ** The whole server *)

Section server.
Context (fuel : nat).
#[local] Instance program : Program connection (did request) := scu_program fuel.

Lemma keeps_record e : (∀ r, e ≠ Asked r) → keeps vouched (record e).
Proof.
  intros He w x w' [Hg HV] ->%record_returned. split.
  - split; [|done]. destruct e; try done. by destruct (He e).
  - simpl. destruct (host_fd _); [|done]. apply lasting_vouched; [|done]. apply He.
Qed.

Lemma keeps_deliver line : keeps vouched (deliver line).
Proof. pose proof lasting_vouched. by apply keeps_ask. Qed.
Lemma keeps_time : keeps vouched get_monotonic_time.
Proof. pose proof lasting_vouched. by apply keeps_ask. Qed.
Lemma keeps_pause : keeps vouched pause.
Proof. pose proof lasting_vouched. by apply keeps_reader. Qed.
Lemma keeps_poll : keeps vouched poll_backend.
Proof. pose proof lasting_vouched. by apply keeps_check. Qed.
Lemma keeps_stop : keeps vouched scu_invalidate.
Proof. pose proof lasting_vouched. by apply keeps_invalidate. Qed.
Lemma keeps_key id : keeps vouched (request_key id).
Proof. apply keeps_ret. Qed.
Lemma keeps_run_tool tool id parameters arguments : keeps vouched (run_tool tool id parameters arguments).
Proof. apply keeps_forward. Qed.
Lemma keeps_undefined {A} : keeps vouched (undefined : M A).
Proof. by intros w x w'. Qed.
#[local] Hint Resolve keeps_deliver keeps_time keeps_pause keeps_poll keeps_stop keeps_key
  keeps_run_tool keeps_undefined : keeps.

Ltac serves := repeat first
  [ progress auto with keeps
  | by apply keeps_record
  | by apply keeps_ask
  | by apply keeps_modify
  | apply (keeps_bind vouched); [|intros ?]
  | match goal with |- keeps _ (match ?x with _ => _ end) => destruct x end ].

Lemma keeps_reply reply : keeps vouched (send_reply reply).
Proof. unfold send_reply. serves. Qed.
#[local] Hint Resolve keeps_reply : keeps.

Lemma keeps_response id payload : keeps vouched (send_response id payload).
Proof. unfold send_response. serves. Qed.
Lemma error_kept id e m : keeps vouched (send_error id e m).
Proof. unfold send_error. serves. Qed.
#[local] Hint Resolve keeps_response error_kept : keeps.

Lemma keeps_run t id parameters arguments : keeps vouched (run_named t id parameters arguments).
Proof.
  unfold run_named. destruct t; [|serves]. unfold validate_call. serves.
Qed.
#[local] Hint Resolve keeps_run : keeps.

Lemma keeps_call id parameters result : keeps vouched (call_tool id parameters result).
Proof.
  unfold call_tool, begin_call, end_call. serves.
Qed.
#[local] Hint Resolve keeps_call : keeps.

Lemma keeps_method id parameters method : keeps vouched (handle_method id parameters method).
Proof. unfold handle_method. serves. Qed.
#[local] Hint Resolve keeps_method : keeps.

Lemma keeps_request request : keeps vouched (handle_request request).
Proof.
  unfold handle_request, handle_valid, handle_versioned. serves.
Qed.
#[local] Hint Resolve keeps_request : keeps.

Lemma keeps_serve n : keeps vouched (serve_loop n).
Proof.
  induction n as [|n IH]; [apply ensures_fuel|]. cbn [serve_loop]. unfold serve_turn.
  serves.
Qed.
End server.

(** C7: every byte that the server sends to its host, or takes from it, passes over
    a connection that it opened to the user's own private socket, whose peer is
    the same user, and which it has just seen to be alive, with its socket file
    still in place. *)
Theorem host_vouched fuel no_vision h x w' :
  serve fuel no_vision h = Returned x w' → always guarded w'.(trace).
Proof. intros Hr. eapply (keeps_serve fuel); [|exact Hr]. by split. Qed.
End safe.
