(* ===== verification/ScuCancel.v ===== *)
(** * Cancellation

    The reader thread may cancel a call at any point while it runs.  The call is
    dropped exactly if a line that names it has been read before the call ends. *)

From S2P Require Import Prelude Json Catalog Results Mcp McpProps McpReader Scu ScuProps ScuSafe.

Section cancel.
Context `{Json_text} {surroundings : Surroundings}.

Abbreviation world := (machine (server connection) (event (did request))).
Abbreviation M := (mcp connection (did request)).

(** The bytes that the reader has read in a run, whose events come latest first. *)
Definition arrived_by (e : event (did request)) : text :=
  match e with
  | Asked (Did r x) =>
      match r in request A return A → text with Arrive => λ x, x.1 | _ => λ _, [] end x
  | _ => []
  end.
Definition arrived (evs : list (event (did request))) : text := concat (arrived_by <$> rev evs).

Lemma arrived_cons e evs : arrived (e :: evs) = arrived evs ++ arrived_by e.
Proof.
  unfold arrived. simpl. rewrite fmap_app, concat_app. simpl. by rewrite app_nil_r.
Qed.

Section active.
Context (key p : text) (begun : bool) (w0 : world) (Hp : char 10 ∉ p).

(** The lines read since the call began, in the middle of the line [p]. *)
Definition lines_since (evs : list (event (did request))) : list text * text :=
  lines_of (p ++ arrived evs).

Definition active (w : world) : Prop := ∃ evs,
  w.(trace) = evs ++ w0.(trace) ∧ w.(now).(active_id) = Some key ∧
  w.(now).(own).(reader) = kept (lines_since evs).2 ∧
  w.(now).(cancelled) = begun || existsb (cancels key) (lines_since evs).1.

Definition follows {A} (m : M A) : Prop := ensures active m (λ _, active).

Lemma follows_bind {A B} (m : M A) (f : A → M B) : follows m → (∀ x, follows (f x)) → follows (m ≫= f).
Proof. intros Hm Hf. by apply (ensures_bind _ _ _ (λ _, active)). Qed.
Lemma follows_ret {A} (x : A) : follows (mret x).
Proof. by apply ensures_ret. Qed.
Lemma follows_get : follows get.
Proof. by apply ensures_get. Qed.
Lemma follows_state : follows connection_state.
Proof. by apply ensures_state. Qed.
Lemma follows_fuel {A} : follows (out_of_fuel : M A).
Proof. apply ensures_fuel. Qed.

Lemma active_event e s w :
  arrived_by e = [] → s.(active_id) = w.(now).(active_id) → s.(cancelled) = w.(now).(cancelled) →
  s.(own).(reader) = w.(now).(own).(reader) → active w → active (World s (e :: w.(trace))).
Proof.
  intros He Ha Hc Hr (evs & Ht & Ha' & Hr' & Hc'). exists (e :: evs). simpl.
  unfold lines_since. rewrite arrived_cons, He, app_nil_r, Ha, Hc, Hr. by rewrite Ht.
Qed.

Lemma follows_ask {A} (r : request A) : (∀ x, arrived_by (Asked (Did r x)) = []) → follows (ask r).
Proof. intros Hr. apply ensures_ask. intros w x h Hw _. by apply active_event. Qed.

Lemma follows_record e : arrived_by e = [] → follows (record e).
Proof. intros He w x w' Hw ->%record_returned. by apply active_event. Qed.

Lemma follows_modify f :
  (∀ s, (f s).(active_id) = s.(active_id) ∧ (f s).(cancelled) = s.(cancelled) ∧
    (f s).(own).(reader) = s.(own).(reader)) → follows (modify f).
Proof.
  intros Hf. apply ensures_modify. intros w (evs & Ht & Ha & Hr & Hc). exists evs.
  simpl. by destruct (Hf w.(now)) as (-> & -> & ->).
Qed.

Lemma follows_change f : (∀ c, (f c).(reader) = c.(reader)) → follows (change f).
Proof. intros Hf. apply follows_modify. intros s. split; [done|]. split; [done|]. apply Hf. Qed.

Lemma follows_fail c h : follows (scu_fail c h).
Proof.
  apply follows_bind; [|intros; apply follows_ret]. apply follows_modify.
  intros s. by destruct (Mcp.code s).
Qed.

Lemma follows_reader : follows reader_thread.
Proof.
  intros w x w' (evs & Ht & Ha & Hr & Hc) ([b stop] & w1 & [_ ->]%ask_returned & ->%modify_returned)%M_bind_returned.
  exists (Asked (Did Arrive (b, stop)) :: evs). simpl. rewrite Ht. split; [done|].
  unfold lines_since in *. rewrite arrived_cons. cbn [arrived_by fst].
  rewrite Hr, read_bytes_lines by apply lines_of_rest.
  set (h := (respond Arrive _).2) in *. set (s := set_own (set_around h _) _).
  rewrite app_assoc, (lines_of_app (p ++ arrived evs)).
  destruct (lines_of (p ++ arrived evs)) as [ls rest] eqn:E. cbn [fst snd] in *.
  destruct (take_lines_cancelled key (lines_of (rest ++ b)).1 s Ha) as [Ha' Hc'].
  assert (Hc2 : s.(cancelled) = w.(now).(cancelled)) by done.
  rewrite existsb_app, orb_assoc, <- Hc, <- Hc2, <- Hc'.
  by destruct stop.
Qed.

Hint Resolve follows_ret follows_get follows_state follows_fuel follows_fail follows_reader : follows.

Ltac follows := repeat first
  [ progress auto with follows
  | by apply follows_ask
  | by apply follows_record
  | by apply follows_change
  | by apply follows_modify
  | apply follows_bind; [|intros ?]
  | match goal with |- follows (match ?x with _ => _ end) => destruct x end ].

Lemma follows_tick : follows scu_tick.
Proof. unfold scu_tick. follows. Qed.
Lemma follows_invalidate : follows invalidate.
Proof. unfold invalidate. follows. Qed.
Hint Resolve follows_tick follows_invalidate : follows.
Lemma follows_check : follows check_backend.
Proof. unfold check_backend, endpoint_available. follows. Qed.
Hint Resolve follows_check : follows.
Lemma follows_wait fuel evs : follows (wait_host fuel evs).
Proof. induction fuel as [|fuel IH]; simpl; follows. Qed.
Hint Resolve follows_wait : follows.
Lemma follows_exchange fuel rest response : follows (exchange fuel rest response).
Proof.
  revert rest response. induction fuel as [|fuel IH]; intros; [apply follows_fuel|].
  cbn [exchange]. follows.
Qed.
Hint Resolve follows_exchange : follows.
Lemma follows_forward fuel id parameters : follows (forward_tool fuel id parameters).
Proof. unfold forward_tool, connect_host, endpoint_available, connect_socket. follows. Qed.

Lemma follows_run fuel (program := scu_program fuel) t id parameters arguments :
  follows (run_named t id parameters arguments).
Proof.
  assert (Hrun : ∀ t id parameters arguments, follows (run_tool t id parameters arguments))
    by (intros; apply follows_forward).
  unfold run_named, validate_call. follows.
Qed.
End active.

Context (fuel : nat).
#[local] Instance program : Program connection (did request) := scu_program fuel.

End cancel.
