(* ===== verification/ScuEnds.v ===== *)
(** * Requests end

    The space's server is done with every request by its deadline, whatever its
    host does: its loops read the clock each time around, and wait 10 ms at
    most.  Only the client can hold it up, by not reading the answer. *)

From S2P Require Import Prelude Json Catalog Results Mcp McpProps Scu ScuProps.

(** The requests that the kernel answers without waiting for anybody: the
    sockets do not block, and what the reader thread read is at hand. *)
Definition quick {A} (r : request A) : bool :=
  match r with Poll _ _ _ | Puts _ => false | _ => true end.

(** The clock, in microseconds, that [Time] reads.  A quick request takes
    [latency] at most, and [Poll] besides as long as it is told to; how long
    [Puts] takes is up to the client.  The clock comes to every time:
    [readings h t] bounds the readings that are still before [t]. *)
Class Ticking `{Surroundings} := {
  elapsed : outside → Z;
  latency : Z;
  readings : outside → Z → nat;
  latency_positive : 0 ≤ latency;
  elapsed_positive h : 0 ≤ elapsed h;
  elapsed_reading h : elapsed h ≤ (respond Time h).1 ≤ elapsed (respond Time h).2;
  elapsed_quick {A} (r : request A) h :
    quick r = true → elapsed (respond r h).2 ≤ elapsed h + latency;
  elapsed_poll fd events timeout h : 0 ≤ timeout →
    elapsed (respond (Poll fd events timeout) h).2 ≤ elapsed h + timeout * 1000 + latency;
  reading_counts h t : (respond Time h).1 < t → (readings (respond Time h).2 t < readings h t)%nat;
  readings_fall {A} (r : request A) h t : (readings (respond r h).2 t ≤ readings h t)%nat;
}.

Create HintDb steady.
Create HintDb by_then.

Section ends.
Context `{Json_text} {surroundings : Surroundings} {ticking : Ticking}.

Abbreviation world := (machine (server connection) (event (did request))).
Abbreviation M := (mcp connection (did request)).

(** Total correctness. *)
Definition total {A} (P : world → Prop) (m : M A) (Q : A → world → Prop) : Prop :=
  ∀ w, P w → ∃ x w', m w = Returned x w' ∧ Q x w'.

Lemma total_bind {A B} P (m : M A) (f : A → M B) Q R :
  total P m Q → (∀ x, total (Q x) (f x) R) → total P (m ≫= f) R.
Proof.
  intros Hm Hf w HP. destruct (Hm w HP) as (x & w1 & H1 & HQ).
  destruct (Hf x w1 HQ) as (y & w2 & H2 & HR). exists y, w2. split; [|done].
  apply M_bind_returned. eauto.
Qed.

Lemma total_mono {A} (m : M A) (P P' : world → Prop) (Q Q' : A → world → Prop) :
  total P m Q → (∀ w, P' w → P w) → (∀ x w, Q x w → Q' x w) → total P' m Q'.
Proof. intros Hm HP HQ w HP'. destruct (Hm w) as (x & w' & Hr & HQ'); eauto. Qed.

Lemma total_ret {A} (x : A) (P : world → Prop) (Q : A → world → Prop) :
  (∀ w, P w → Q x w) → total P (mret x) Q.
Proof. intros HQ w HP. exists x, w. eauto. Qed.

(** At most [n] more readings come before the deadline [d], and it is past by
    [b] at most. *)
Definition within (d : Z) (n : nat) (b : Z) (w : world) : Prop :=
  w.(now).(deadline) = d ∧ (readings w.(now).(own).(around) d ≤ n)%nat ∧
  elapsed w.(now).(own).(around) ≤ d + b.

Lemma within_le d n m b c w : (n ≤ m)%nat → b ≤ c → within d n b w → within d m c w.
Proof. intros Hn Hb (Hd & Hr & He). split; [done|]. split; lia. Qed.

(** A wait of 10 ms, and [k] quick requests. *)
Definition late (k : Z) : Z := 10000 + k * latency.

Lemma late_le j k : j ≤ k → late j ≤ late k.
Proof. intros Hj. pose proof latency_positive. unfold late. nia. Qed.

Section deadline.
Context (d : Z) (Hd : d ≠ 0).

(** Programs of at most [c] quick requests. *)
Definition steady {A} (c : Z) (m : M A) : Prop :=
  ∀ n b, total (within d n b) m (λ _, within d n (b + c * latency)).

Lemma steady_bind {A B} a c (m : M A) (f : A → M B) :
  steady a m → (∀ x, steady (c - a) (f x)) → steady c (m ≫= f).
Proof.
  intros Hm Hf n b. eapply total_bind; [apply Hm|]. intros x. eapply total_mono; [apply Hf|done|].
  intros y w. apply within_le; lia.
Qed.

Lemma steady_le {A} a c (m : M A) : steady a m → a ≤ c → steady c m.
Proof.
  intros Hm Ha n b. eapply total_mono; [apply Hm|done|]. intros x w. apply within_le; [lia|].
  pose proof latency_positive. nia.
Qed.

Lemma steady_ret {A} (x : A) : steady 0 (mret x).
Proof. intros n b. apply total_ret. intros w. apply within_le; lia. Qed.

Lemma ask_run {A} (r : request A) w :
  ask r w = Returned (respond r w.(now).(own).(around)).1
    (asked r (respond r w.(now).(own).(around)).1 (respond r w.(now).(own).(around)).2 w).
Proof. unfold ask, act. by destruct (respond r _). Qed.

Lemma steady_ask {A} (r : request A) : quick r = true → steady 1 (ask r).
Proof.
  intros Hq n b w (Hdl & Hr & He). eexists _, _. split; [apply ask_run|]. split; [done|]. simpl.
  pose proof (readings_fall r w.(now).(own).(around) d).
  pose proof (elapsed_quick r w.(now).(own).(around) Hq). split; lia.
Qed.

Lemma steady_modify f :
  (∀ s, (f s).(deadline) = s.(deadline) ∧ (f s).(own).(around) = s.(own).(around)) →
  steady 0 (modify f).
Proof.
  intros Hf n b w (Hdl & Hr & He). eexists _, _. split; [reflexivity|].
  destruct (Hf w.(now)) as [H1 H2]. unfold within. simpl. rewrite H1, H2.
  split; [done|]. split; lia.
Qed.

Lemma steady_get : steady 0 get.
Proof.
  intros n b w Hw. exists w.(now), w. split; [by destruct w|]. eapply within_le, Hw; lia.
Qed.

Lemma steady_record e : steady 0 (record e).
Proof.
  intros n b w Hw. eexists _, _. split; [done|].
  destruct Hw as (? & ? & ?). split; [done|]. simpl. split; lia.
Qed.

Lemma steady_state : steady 0 connection_state.
Proof. apply (steady_bind 0); [apply steady_get|]. intros. apply steady_ret. Qed.

Lemma steady_change f : (∀ c, (f c).(around) = c.(around)) → steady 0 (change f).
Proof. intros Hf. apply steady_modify. intros s. split; [done|]. apply Hf. Qed.

Lemma steady_fail c h : steady 0 (scu_fail c h).
Proof.
  apply (steady_bind 0); [|intros; apply steady_ret]. apply steady_modify.
  intros s. by destruct (Mcp.code s).
Qed.

Lemma read_bytes_steady {N} b r (s : server N) :
  (read_bytes b r s).2.(deadline) = s.(deadline) ∧ (read_bytes b r s).2.(own) = s.(own).
Proof.
  assert (Hline : ∀ l o (s : server N),
    (read_line l o s).(deadline) = s.(deadline) ∧ (read_line l o s).(own) = s.(own)).
  { intros l o s'. unfold read_line. destruct (is_named _ _); [|done].
    destruct (request_id_key _); [|done]. case_decide; by destruct (is_named _ _). }
  revert r s. induction b as [|c b IH]; intros r s; [done|]. simpl. unfold read_byte.
  repeat case_decide; [|apply IH..]. destruct (IH (Reading [] false) (read_line (line r) (oversized r) s))
    as [-> ->]. apply Hline.
Qed.

Lemma steady_reader : steady 1 reader_thread.
Proof.
  apply (steady_bind 1); [by apply steady_ask|]. intros [b stop]. apply steady_modify. intros s.
  pose proof (read_bytes_steady b (reader (own s)) s) as Hs.
  destruct (read_bytes b _ s) as [r s']. simpl in Hs. destruct Hs as [Hs Ho], stop; simpl; by rewrite Hs, Ho.
Qed.

Hint Resolve steady_ret steady_get steady_record steady_state steady_fail steady_reader : steady.
Hint Extern 1 (steady _ (ask _)) => by apply steady_ask : steady.
Hint Extern 1 (steady _ (change _)) => by apply steady_change : steady.
Hint Extern 1 (steady _ (modify _)) => by apply steady_modify : steady.

Ltac steady := repeat first
  [ eapply steady_le; [by eauto with steady nocore|lia]
  | eapply steady_bind; [by eauto with steady nocore|intros ?]
  | match goal with |- steady _ (match ?x with _ => _ end) => destruct x end ].

Lemma steady_invalidate : steady 1 invalidate.
Proof. unfold invalidate. apply (steady_bind 0); [steady|intros c]. apply (steady_bind 1); [|intros u]; steady. Qed.
Hint Resolve steady_invalidate : steady.

Lemma steady_endpoint : steady 1 endpoint_available.
Proof. unfold endpoint_available. steady. Qed.
Hint Resolve steady_endpoint : steady.

Lemma steady_check : steady 3 check_backend.
Proof. unfold check_backend. steady. Qed.
Hint Resolve steady_check : steady.

(** A tick that goes on used up a reading, and found the deadline ahead. *)
Definition ticked (n : nat) (b : Z) (ok : bool) (w : world) : Prop :=
  if ok then ∃ k, n = S k ∧ within d k latency w else within d n (b + 2 * latency) w.

Lemma fail_ticked n b c h : total (within d n b) (scu_fail c h ≫= λ _, mret false)
  (λ ok w, ok = false ∧ within d n b w).
Proof.
  eapply total_bind; [apply (steady_fail c h)|]. intros x. apply total_ret. intros w Hw.
  split; [done|]. eapply within_le, Hw; lia.
Qed.

Lemma tick_counts n b : total (within d n b) scu_tick (ticked n b).
Proof.
  eapply total_bind; [apply steady_reader|]. intros [].
  eapply (total_bind _ _ _ (λ s w, within d n (b + 1 * latency) w ∧ s = w.(now))).
  { intros w Hw. exists w.(now), w. split; [by destruct w|done]. }
  intros s. pose proof latency_positive as Hl. destruct (_ || _).
  { eapply total_mono; [apply (fail_ticked n)|by intros w []|].
    intros ok w [-> Hw]. eapply within_le, Hw; lia. }
  intros w [Hw ->]. pose proof Hw as (Hdl & Hr & He). rewrite Hdl. destruct (Z.eqb_spec d 0); [done|].
  eapply (total_bind (λ w', w' = w) _ _ (λ t w', within d n (b + 2 * latency) w' ∧
    (t < d → ∃ k, n = S k ∧ within d k latency w'))); [| |done].
  - intros w0 ->. eexists _, _. split; [apply ask_run|].
    set (h := w.(now).(own).(around)) in *.
    pose proof (readings_fall Time h d) as Hf. pose proof (reading_counts h d) as Hc.
    pose proof (elapsed_quick Time h eq_refl) as Hq. pose proof (elapsed_reading h) as He'.
    split; [split; [done|simpl; lia]|]. intros Ht. specialize (Hc Ht).
    destruct n as [|k]; [lia|]. exists k. split; [done|]. split; [done|]. simpl. lia.
  - intros t. destruct (Z.leb_spec d t) as [Ht|Ht].
    + eapply total_mono; [apply (fail_ticked n (b + 2 * latency))|by intros w' []|].
      by intros ok w' [-> Hw'].
    + apply total_ret. intros w' [Hw' Hk]. unfold ticked. auto.
Qed.

(** *** What is done by a time *)

(** Programs with fuel for their readings that end by [late k] if they are
    begun by [late j]. *)
Definition by_then {A} (fuel : nat) (j k : Z) (m : M A) : Prop := ∀ n, (n < fuel)%nat →
  total (within d n (late j)) m (λ _, within d n (late k)).

Lemma by_bind {A B} fuel j k l (m : M A) (f : A → M B) :
  by_then fuel j k m → (∀ x, by_then fuel k l (f x)) → by_then fuel j l (m ≫= f).
Proof. intros Hm Hf n Hn. eapply total_bind; [by apply Hm|]. intros x. by apply Hf. Qed.

Lemma by_le {A} fuel j j' k k' (m : M A) :
  by_then fuel j k m → j' ≤ j → k ≤ k' → by_then fuel j' k' m.
Proof.
  intros Hm Hj Hk n Hn. eapply total_mono; [by apply Hm| |].
  - intros w. apply within_le; [lia|by apply late_le].
  - intros x w. apply within_le; [lia|by apply late_le].
Qed.

Lemma by_steady {A} fuel j c (m : M A) : steady c m → by_then fuel j (j + c) m.
Proof.
  intros Hm n _. eapply total_mono; [apply Hm|done|]. intros x w. apply within_le; [lia|].
  unfold late. lia.
Qed.

Lemma by_ask {A} fuel j k c (m : M A) : steady c m → j + c ≤ k → by_then fuel j k m.
Proof. intros Hm Hc. eapply by_le; [by apply (by_steady _ j)|lia|done]. Qed.

Lemma by_ret {A} fuel j k (x : A) : j ≤ k → by_then fuel j k (mret x).
Proof. intros Hj. eapply by_le; [apply (by_steady _ j 0), steady_ret|lia..]. Qed.

Ltac by_step := repeat first
  [ by apply by_ret; lia
  | eapply by_bind; [apply by_steady; by eauto with steady nocore|intros ?]
  | eapply by_ask; [by eauto with steady nocore|lia]
  | match goal with |- by_then _ _ _ (match ?x with _ => _ end) => destruct x end ].

Lemma fresh_late n k w : 1 ≤ k → within d n latency w → within d n (late k) w.
Proof.
  intros Hk. pose proof latency_positive. apply within_le; [lia|]. unfold late. nia.
Qed.

Lemma wait_by n fuel evs : (n < fuel)%nat →
  total (within d n (late 10)) (wait_host fuel evs) (λ _, within d n (late 12)).
Proof.
  revert n. induction fuel as [|fuel IH]; intros n Hn; [lia|]. cbn [wait_host].
  eapply total_bind; [apply tick_counts|]. intros [|]; cbn [negb].
  2:{ apply total_ret. intros w. apply within_le; [lia|]. unfold late. lia. }
  intros w (k & -> & Hw). pose proof latency_positive as Hl.
  assert (Hback : ∀ (x : option Z) b w0, b ≤ late 12 → within d k b w0 →
    ∃ y w', (mret x : M _) w0 = Returned y w' ∧ within d (S k) (late 12) w').
  { intros x b w0 Hb Hw0. exists x, w0. split; [done|]. eapply within_le; [| |exact Hw0]; lia. }
  assert (Hagain : total (within d k (late 10)) (wait_host fuel evs) (λ _, within d (S k) (late 12))).
  { eapply total_mono; [apply (IH k); lia|done|]. intros x w0. apply within_le; lia. }
  revert w Hw. eapply total_bind; [apply steady_check|]. intros ?.
  eapply total_bind; [apply steady_state|]. intros c.
  destruct (host_fd c) as [fd|]; [|intros w; apply (Hback None); unfold late; lia].
  eapply (total_bind _ _ _ (λ _, within d k (late 10))).
  { intros w (Hdl & Hr & He). eexists _, _. split; [apply ask_run|]. split; [done|]. simpl.
    pose proof (readings_fall (Poll fd evs 10) w.(now).(own).(around) d).
    pose proof (elapsed_poll fd evs 10 w.(now).(own).(around)). unfold late. split; lia. }
  intros [errno|m].
  - destruct (errno =? EINTR); [done|]. intros w. apply (Hback None). apply late_le. lia.
  - destruct (0 <? m); [|done]. intros w. apply (Hback (Some fd)). apply late_le. lia.
Qed.

Lemma exchange_by n fuel rest response : (n < fuel)%nat →
  total (within d n (late 20)) (exchange fuel rest response) (λ _, within d n (late 22)).
Proof.
  revert n rest response. induction fuel as [|fuel IH]; intros n rest response Hn; [lia|].
  cbn [exchange]. eapply total_bind; [apply tick_counts|]. intros [|]; cbn [negb].
  2:{ apply total_ret. intros w. apply within_le; [lia|]. unfold late. lia. }
  intros w (k & -> & Hw).
  assert (Hback : ∀ (x : option text) j w0, j ≤ 22 → within d k (late j) w0 →
    ∃ y w', (mret x : M _) w0 = Returned y w' ∧ within d (S k) (late 22) w').
  { intros x j w0 Hj Hw0. exists x, w0. split; [done|].
    eapply within_le; [| |exact Hw0]; [lia|by apply late_le]. }
  assert (Hagain : ∀ rest response, total (within d k (late 13)) (exchange fuel rest response)
    (λ _, within d (S k) (late 22))).
  { intros. eapply total_mono; [apply (IH k); lia| |].
    - intros w0. apply within_le; [lia|apply late_le; lia].
    - intros x w0. apply within_le; lia. }
  assert (Hwait : ∀ evs, total (within d k (late 10)) (wait_host (S fuel) evs)
    (λ _, within d k (late 12))) by (intros; apply wait_by; lia).
  assert (Hask : ∀ X (r : request X), quick r = true →
    total (within d k (late 12)) (ask r) (λ _, within d k (late 13))).
  { intros X r Hq. eapply total_mono; [by apply steady_ask|done|]. intros x w0.
    apply within_le; [lia|unfold late; lia]. }
  apply (fresh_late _ 10) in Hw; [|lia]. revert w Hw.
  destruct rest as [|c rest].
  all: eapply total_bind; [apply Hwait|]; intros [fd|];
    [|intros w0; apply (Hback None); lia].
  all: eapply total_bind; [by apply Hask|].
  - intros [e|[|b data]].
    + destruct (transient e); [apply Hagain|intros w0; apply (Hback None); lia].
    + intros w0. apply (Hback None). lia.
    + destruct (_ <? _); [intros w0; apply (Hback None); lia|].
      destruct (ends_line _); [intros w0; apply (Hback (Some _)); lia|apply Hagain].
  - intros [e|[|m]].
    + destruct (transient e); [apply Hagain|intros w0; apply (Hback None); lia].
    + intros w0. apply (Hback None). lia.
    + apply Hagain.
Qed.

Lemma by_from {A} fuel i j k (m : M A) : by_then fuel j k m → i ≤ j → by_then fuel i k m.
Proof. intros Hm Hi. by eapply by_le. Qed.

Lemma connect_by fuel : by_then fuel 2 16 (connect_host fuel).
Proof.
  assert (Hwait : ∀ i evs, i ≤ 10 → by_then fuel i 12 (wait_host fuel evs)).
  { intros i evs Hi. eapply by_from; [|exact Hi]. intros n. apply wait_by. }
  unfold connect_host. by_step.
  apply (by_bind _ _ 13).
  - unfold connect_socket. by_step. eapply by_bind; [apply Hwait; lia|intros [fd|]]; by_step.
  - intros fd. apply (by_bind _ _ 14); [by_step|intros uid]. by_step.
Qed.

Lemma forward_by fuel id parameters : by_then fuel 2 24 (forward_tool fuel id parameters).
Proof.
  unfold forward_tool. eapply by_bind; [apply connect_by|intros [|]; cbn [negb]]; [|by_step].
  eapply by_bind; [eapply (by_from _ _ 20); [|lia]; intros n; apply exchange_by|intros response].
  by_step.
Qed.
End deadline.

(** ** Requests *)

Section request.
Context (fuel : nat).
#[local] Instance program : Program connection (did request) := scu_program fuel.

(** Done by a time, or handing the client its line by then. *)
Definition finished (t : Z) (w : world) : Prop :=
  elapsed w.(now).(own).(around) ≤ t ∨
  ∃ line before T, w.(now).(own).(around) = (respond (Puts line) before).2 ∧
    elapsed before ≤ t ∧ w.(trace) = Asked (Did (Puts line) tt) :: T.

Section handling.
Context (d : Z) (Hd : d ≠ 0).
Hint Resolve steady_ret steady_get steady_record steady_state steady_fail steady_reader
  steady_invalidate steady_check steady_endpoint : steady.
Hint Extern 1 (steady _ _ (modify _)) => by apply steady_modify : steady.

Ltac by_step := repeat first
  [ by apply by_ret; lia
  | eapply by_bind; [apply by_steady; by eauto with steady nocore|intros ?]
  | eapply by_ask; [by eauto with steady nocore|lia]
  | match goal with |- by_then _ _ _ _ (match ?x with _ => _ end) => destruct x end ].

(** Programs that end so, begun by [late j]. *)
Definition finishes (j : Z) (m : M unit) : Prop := ∀ n, (n < fuel)%nat →
  total (within d n (late j)) m (λ _, finished (d + late 30)).

Lemma finishes_bind {A} j k (m : M A) (f : A → M unit) :
  by_then d fuel j k m → (∀ x, finishes k (f x)) → finishes j (m ≫= f).
Proof. intros Hm Hf n Hn. eapply total_bind; [by apply Hm|]. intros x. by apply Hf. Qed.

Lemma finishes_by j (m : M unit) : by_then d fuel j 30 m → finishes j m.
Proof.
  intros Hm n Hn. eapply total_mono; [by apply Hm|done|]. intros x w (_ & _ & He). by left.
Qed.

Lemma deliver_finishes j line : j ≤ 30 → finishes j (deliver line).
Proof.
  intros Hj n _ w (Hdl & _ & He). eexists _, _. split; [apply ask_run|]. right.
  eexists line, _, _. split; [done|]. split; [|simpl; by destruct (respond (Puts line) _).1].
  pose proof (late_le j 30 Hj). lia.
Qed.

Lemma reply_finishes j reply : j ≤ 30 → finishes j (send_reply reply).
Proof.
  intros Hj. eapply finishes_bind; [apply by_steady, steady_record|intros u].
  destruct (yyjson_write reply); [apply deliver_finishes; lia|].
  apply finishes_by, by_ret. lia.
Qed.

Lemma response_finishes j id payload : j ≤ 30 → finishes j (send_response id payload).
Proof.
  intros Hj. eapply finishes_bind; [apply by_steady, steady_get|intros s].
  apply reply_finishes. lia.
Qed.

Lemma error_finishes j id e m : j ≤ 30 → finishes j (send_error id e m).
Proof. apply reply_finishes. Qed.

Lemma begin_by id : is_Some (request_id_key id) → by_then d fuel 1 2 (begin_call id).
Proof.
  intros [key Hkey] n Hn w Hw.
  assert (Hrun : begin_call id w = (pause ≫= λ _, modify (λ s,
    set_active (Some key) (bool_decide (key ∈ s.(cancelled_ids))) s) ≫= λ _, mret key) w).
  { unfold begin_call, request_key, program, scu_program. rewrite Hkey. done. }
  rewrite Hrun. revert n Hn w Hw Hrun.
  assert (Hby : by_then d fuel 1 2 (pause ≫= λ _, modify (λ s,
    set_active (Some key) (bool_decide (key ∈ s.(cancelled_ids))) s) ≫= λ _, mret key)).
  { change pause with reader_thread. by_step. }
  intros n Hn w Hw _. by apply (Hby n).
Qed.

Lemma run_by tool id parameters arguments :
  by_then d fuel 2 24 (run_named tool id parameters arguments).
Proof.
  unfold run_named, validate_call. destruct tool as [tool|]; [|by_step].
  eapply by_bind; [apply (by_bind _ _ _ 2 2); [by_step|intros s]; by_step|intros [|]; [|by_step]].
  eapply by_bind; [apply by_steady, steady_record|intros u]. by apply forward_by.
Qed.

Lemma call_by id parameters result :
  is_Some (request_id_key id) → by_then d fuel 1 28 (call_tool id parameters result).
Proof.
  intros Hid. unfold call_tool, end_call. eapply by_bind; [apply by_steady, steady_get|intros s].
  eapply by_bind; [by apply begin_by|intros key]. eapply by_bind; [apply run_by|intros output].
  change pause with reader_thread. change scu_invalidate with invalidate.
  eapply by_bind; [apply by_steady, steady_get|intros s2].
  apply (by_bind _ _ _ 25); [by_step|intros u]. by_step.
Qed.

Ltac finish_step := first
  [ by apply response_finishes; lia
  | by apply error_finishes; lia
  | by apply finishes_by; by_step
  | eapply finishes_bind; [apply by_steady; by eauto with steady nocore|intros ?]
  | match goal with |- finishes _ (match ?x with _ => _ end) => destruct x end ].
Ltac finish := repeat finish_step.

Lemma method_finishes id parameters method :
  is_Some (request_id_key id) → finishes 1 (handle_method id parameters method).
Proof.
  intros Hid. pose proof (λ p r, call_by id p r Hid) as Hc. unfold handle_method.
  eapply finishes_bind; [apply by_steady, steady_get|intros s]. cbv zeta.
  finish. eapply finishes_bind; [apply Hc|intros r]. finish.
Qed.

Lemma valid_finishes id parameters method :
  (is_Some id → is_Some (request_id_key id)) → finishes 1 (handle_valid id parameters method).
Proof.
  intros Hid. unfold handle_valid. destruct (strcmp _ _); [finish|].
  destruct id as [i|]; [|finish]. unfold handle_versioned.
  pose proof (λ p m, method_finishes (Some i) p m (Hid ltac:(eauto))) as Hm.
  eapply finishes_bind; [apply by_steady, steady_get|intros s]. cbv zeta.
  assert (∀ j p m, j ≤ 1 → finishes j (handle_method (Some i) p m)).
  { intros j p m Hj n Hn. eapply total_mono; [by apply (Hm p m)| |done].
    intros w. apply within_le; [lia|by apply late_le]. }
  repeat first [match goal with |- finishes _ (handle_method _ _ _) => solve [match goal with H : ∀ j p m, _ → finishes _ _ |- _ => apply H; lia end] end | progress finish_step].
Qed.
End handling.

(** The fuel for the request that comes next. *)
Definition enough (h : outside) : Prop :=
  (readings (respond Time h).2 ((respond Time h).1 + 60 * 1000000) < fuel)%nat.

(** C22: the server is done with every request in time, however its host and its
    reader behave.  By the deadline of 60 seconds after it began, and the 10 ms
    of a wait and 31 requests that the kernel answers at once later, either
    everything is done, or all that is left is to hand the client its line:
    that lasts for as long as the client does not read. *)
Theorem request_ends request w :
  enough w.(now).(own).(around) →
  (is_Some (request_id request) → is_Some (request_id_key (request_id request))) →
  ∃ w', handle_request request w = Returned tt w' ∧
    finished (elapsed w.(now).(own).(around) + 60 * 1000000 + 10 * 1000 + 31 * latency) w'.
Proof.
  intros Hfuel Hid. unfold handle_request.
  set (h := w.(now).(own).(around)) in *. set (t := (respond Time h).1).
  set (d := t + 60 * 1000000). pose proof (elapsed_reading h) as Ht. pose proof (elapsed_positive h) as He.
  pose proof (elapsed_quick Time h eq_refl) as Hq. pose proof latency_positive as Hl.
  assert (Hd : d ≠ 0) by (unfold d, t; lia).
  set (w2 := World (set_call d (asked Time t (respond Time h).2 w).(now)) (asked Time t (respond Time h).2 w).(trace)).
  assert (Hw2 : within d (readings (respond Time h).2 d) (late 1) w2).
  { split; [done|]. split; [done|]. simpl. unfold d, t, late. lia. }
  assert (Hbody : finishes d 1 (if valid_request request (json_member request (str "id"))
      (json_string request (str "method"))
    then handle_valid (json_member request (str "id")) (json_member request (str "params"))
      (json_string request (str "method"))
    else send_error (json_member request (str "id")) (-32600) (str "Invalid JSON-RPC request"))).
  { case_match; [by apply valid_finishes|apply error_finishes; lia]. }
  destruct (Hbody _ Hfuel w2 Hw2) as ([] & w3 & H3 & Hf).
  assert (Hbound : d + late 30 ≤ elapsed h + 60 * 1000000 + 10 * 1000 + 31 * latency)
    by (unfold d, t, late; lia).
  exists (World (set_idle w3.(now)) w3.(trace)). split.
  - apply M_bind_returned. exists t, (asked Time t (respond Time h).2 w). split; [apply ask_run|].
    apply M_bind_returned. exists tt, w2. split; [done|].
    apply M_bind_returned. exists tt, w3. by split.
  - destruct Hf as [Hf|(line & before & T & H1 & H2 & HT)]; [left|right; exists line, before, T];
      simpl in *; [lia|]. split; [done|]. split; [lia|done].
Qed.
End request.
End ends.
