(* ===== verification/ScuExamples.v ===== *)
(** * A system for the computer-use server to run on

    A reader and writer of JSON texts with whole numbers, and a kernel that plays a
    script: what the client writes and when, and what the host answers. *)

From S2P Require Import Prelude Json Catalog Results Mcp Scu ScuEnds CatalogProps McpProps McpReader ScuProps ScuSafe ScuCancel.

(** ** Texts *)

Definition quote : ascii := char 34.
Definition backslash : ascii := char 92.

Definition escaped (c : ascii) : text :=
  if decide (c = quote ∨ c = backslash) then [backslash; c]
  else if Prelude.code c =? 10 then [backslash; "n"%char]
  else [c].

Definition quoted (s : text) : text := [quote] ++ concat (escaped <$> s) ++ [quote].

Fixpoint separated (l : list text) : text :=
  match l with
  | [] => []
  | [s] => s
  | s :: l => s ++ str "," ++ separated l
  end.

(** Other numbers than whole ones have no text here. *)
Fixpoint write_json (v : json) : text :=
  match v with
  | JNull => str "null"
  | JBool true => str "true"
  | JBool false => str "false"
  | JUint n | JSint n => signed_decimal n
  | JReal _ => str "0.0"
  | JString s => quoted s
  | JArray l => str "[" ++ separated (write_json <$> l) ++ str "]"
  | JObject l =>
      str "{" ++ separated ((λ m, quoted m.1 ++ str ":" ++ write_json m.2) <$> l) ++ str "}"
  end.

Fixpoint read_string (s : text) : option (text * text) :=
  match s with
  | [] => None
  | c :: s =>
      if decide (c = quote) then Some ([], s)
      else if decide (c = backslash) then
        match s with
        | d :: s =>
            if read_string s is Some (t, s)
            then Some ((if decide (d = "n"%char) then char 10 else d) :: t, s) else None
        | [] => None
        end
      else if read_string s is Some (t, s) then Some (c :: t, s) else None
  end.

Definition starts (p : string) (s : text) : option text :=
  if text_eqb (take (length (str p)) s) (str p) then Some (drop (length (str p)) s) else None.

Fixpoint read_value (fuel : nat) (s : text) : option (json * text) :=
  match fuel with
  | O => None
  | S fuel =>
      let read_elements :=
        fix read_elements (n : nat) (s : text) : option (list json * text) :=
          match n with
          | O => None
          | S n =>
              if read_value fuel s is Some (v, s) then
                match s with
                | "," :: s => if read_elements n s is Some (l, s) then Some (v :: l, s) else None
                | "]" :: s => Some ([v], s)
                | _ => None
                end
              else None
          end%char in
      let read_members :=
        fix read_members (n : nat) (s : text) : option (list (text * json) * text) :=
          match n with
          | O => None
          | S n =>
              match s with
              | q :: s =>
                  if decide (q = quote) then
                    match read_string s with
                    | Some (k, ":" :: s) =>
                        if read_value fuel s is Some (v, s) then
                          match s with
                          | "," :: s =>
                              if read_members n s is Some (l, s) then Some ((k, v) :: l, s) else None
                          | "}" :: s => Some ([(k, v)], s)
                          | _ => None
                          end
                        else None
                    | _ => None
                    end
                  else None
              | [] => None
              end
          end%char in
      if starts "null" s is Some s then Some (JNull, s)
      else if starts "true" s is Some s then Some (JBool true, s)
      else if starts "false" s is Some s then Some (JBool false, s)
      else if starts "[]" s is Some s then Some (JArray [], s)
      else if starts "{}" s is Some s then Some (JObject [], s)
      else match s with
        | "[" :: s => if read_elements (length s) s is Some (l, s) then Some (JArray l, s) else None
        | "{" :: s => if read_members (length s) s is Some (l, s) then Some (JObject l, s) else None
        | "-" :: s =>
            let ds := take_while is_digit s in
            if ds is [] then None else Some (JSint (- digits_value ds), skip_while is_digit s)
        | c :: s' =>
            if decide (c = quote) then
              if read_string s' is Some (t, s) then Some (JString t, s) else None
            else
              let ds := take_while is_digit s in
              if ds is [] then None else Some (JUint (digits_value ds), skip_while is_digit s)
        | [] => None
        end%char
  end.

Definition read_json (s : text) : option json :=
  if read_value (length s) s is Some (v, rest)
  then if skip_while is_space rest is [] then Some v else None else None.

#[export] Instance sample_json : Json_text := {
  yyjson_read := read_json;
  yyjson_write v := Some (write_json v);
}.

(** ** The kernel *)

(** A socket takes and gives at most this many bytes at a time. *)
Definition piece : nat := 50.

Record script := Script {
  to_arrive : list (text * bool);   (** what the reader has read by each look *)
  clock : Z;
  answers : list text;              (** what the host writes *)
  received : text;                  (** what the host got *)
  printed_lines : list text;
}.

Definition sample_stat : stat := Stat 0xC180 1000 7 42.

Definition sample_respond {A} (r : request A) (h : script) : A * script :=
  match r in request A return A * script with
  | Arrive =>
      match h.(to_arrive) with
      | [] => (([], false), h)
      | a :: l => (a, Script l h.(clock) h.(answers) h.(received) h.(printed_lines))
      end
  | Time =>
      (Z.max 0 h.(clock),
       Script h.(to_arrive) (Z.max 0 h.(clock) + 1) h.(answers) h.(received) h.(printed_lines))
  | StatPath _ => (Some sample_stat, h)
  | Peek _ => (inl EAGAIN, h)
  | Poll _ _ _ => (inr 1, h)
  | Socket => (inr 5, h)
  | Connect _ _ => (inr tt, h)
  | SocketError _ => (inr 0, h)
  | PeerUid _ => (inr 1000, h)
  | Send _ data =>
      (inr (Nat.min piece (length data)),
       Script h.(to_arrive) h.(clock) h.(answers) (h.(received) ++ take piece data) h.(printed_lines))
  | Read _ size =>
      match h.(answers) with
      | [] => (inr [], h)
      | a :: l =>
          let n := Nat.min piece (Z.to_nat size) in
          (inr (take n a),
           Script h.(to_arrive) h.(clock)
             (if (length a <=? n)%nat then l else drop n a :: l) h.(received) h.(printed_lines))
      end
  | Close _ => (tt, h)
  | Puts line =>
      (tt, Script h.(to_arrive) h.(clock) h.(answers) h.(received) (h.(printed_lines) ++ [line]))
  end.

#[local] Obligation Tactic := idtac.

#[export] Program Instance sample_surroundings : Surroundings := {
  outside := script;
  respond _ r h := sample_respond r h;
  getuid := 1000;
}.
Next Obligation.
  intros fd data h n. cbn [sample_respond fst]. intros Hn.
  assert (n = Nat.min piece (length data)) as -> by congruence. apply Nat.le_min_r.
Qed.
Next Obligation.
  intros fd size h data Hs. cbn [sample_respond].
  destruct (answers h) as [|a l]; cbn [fst]; intros Hd; [by simplify_eq|].
  assert (data = take (Nat.min piece (Z.to_nat size)) a) as -> by congruence.
  rewrite length_take. lia.
Qed.

(** Every reading of the clock is later than the one before. *)
#[export] Program Instance sample_ticking : Ticking := {
  elapsed h := Z.max 0 (clock h);
  latency := 1;
  readings h t := Z.to_nat (t - Z.max 0 (clock h));
}.
Next Obligation. done. Qed.
Next Obligation. intros h. lia. Qed.
Next Obligation. intros h. simpl. lia. Qed.
Next Obligation.
  intros A r h _. destruct r; simpl; try lia; [destruct (to_arrive h)|destruct (answers h)]; simpl; lia.
Qed.
Next Obligation. intros fd events timeout h Ht. simpl. lia. Qed.
Next Obligation. intros h t. simpl. lia. Qed.
Next Obligation.
  intros A r h t. destruct r; simpl; try lia; [destruct (to_arrive h)|destruct (answers h)]; simpl; lia.
Qed.

(** * Sessions with the computer-use server

    Runs on the system of [ScuExamples], and the theorems at concrete inputs. *)

(** ** What the client and the host say *)

Definition obj (l : list (string * json)) : json := JObject ((λ m, (str m.1, m.2)) <$> l).
Definition S' (s : string) : json := JString (str s).
Definition line_of (v : json) : text := write_json v ++ [char 10].

Definition rpc (id : list (string * json)) (method : string) (params : list (string * json)) : json :=
  obj ([("jsonrpc"%string, S' "2.0")] ++ id ++
    [("method"%string, S' method); ("params"%string, obj params)]).

Definition initialize : json :=
  rpc [("id", JUint 1)]%string "initialize" [("protocolVersion", S' "2025-11-25")]%string.
Definition notified : json := rpc [] "notifications/initialized" [].
Definition call_status (id : Z) : json :=
  rpc [("id", JUint id)]%string "tools/call" [("name", S' "status"); ("arguments", obj [])]%string.
Definition cancel (id : Z) : json :=
  rpc [] "notifications/cancelled" [("requestId", JUint id)]%string.
Definition blocks : json := JArray
  [obj [("type", S' "text"); ("text", S' "Screen: unlocked")];
   obj [("type", S' "image"); ("data", S' "AA")]]%string.
Definition host_result : json := obj [("content", blocks); ("isError", JBool false)]%string.
Definition host_answer (id : Z) : text :=
  line_of (obj [("jsonrpc", S' "2.0"); ("id", JUint id); ("result", host_result)]%string).

(** The texts read back. *)
Example texts_read_back :
  Forall (λ v, read_json (write_json v) = Some v)
    [initialize; notified; call_status 2; cancel 2; host_result; JSint (-5); S' "x"].
Proof. repeat constructor; by vm_compute. Qed.

Definition conversation (looks : list text) (answers : list text) : script :=
  Script (((λ t, (t, false)) <$> looks) ++ [([], true)]) 5 answers [] [].

Definition quiet_looks (n : nat) : list text := replicate n [].

(** What the client sees. *)
Definition seen_by_client (o : ending (server connection) (event (did request)) unit) :
    option (list (option json)) :=
  match o with
  | Returned _ w => Some (read_json <$> w.(now).(own).(around).(printed_lines))
  | _ => None
  end.

Definition reply_ids (o : option (list (option json))) : option (list value) :=
  option_map (List.map (λ r, json_member r (str "id"))) o.

Definition fuel : nat := 300.

(** A session: the requests come in pieces, the host is asked, and each request is
    answered. *)
Definition whole_input : text := line_of initialize ++ line_of notified ++ line_of (call_status 2).
Definition session_script : script :=
  conversation ([take 30 whole_input; drop 30 whole_input] ++ quiet_looks 40) [host_answer 2].

Example session_answers :
  reply_ids (seen_by_client (serve fuel false session_script)) = Some [Some (JUint 1); Some (JUint 2)].
Proof. by vm_compute. Qed.

(** The cancellation of a call that runs: the call is not answered. *)
Definition cancelled_script : script :=
  conversation ([whole_input] ++ quiet_looks 6 ++ [take 9 (line_of (cancel 2)); drop 9 (line_of (cancel 2))]
    ++ quiet_looks 40) [host_answer 2].

Example cancelled_answers :
  reply_ids (seen_by_client (serve fuel false cancelled_script)) = Some [Some (JUint 1)].
Proof. by vm_compute. Qed.

(** The notice alone opens the session: no [initialize] has to come first. *)
Example notice_is_enough :
  reply_ids (seen_by_client (serve fuel false
    (conversation ([line_of notified ++ line_of (call_status 2)] ++ quiet_looks 40) [host_answer 2])))
  = Some [Some (JUint 2)].
Proof. by vm_compute. Qed.

(** A cancellation that comes after its call stays, and drops a later call with
    the same id. *)
Example late_cancellation_stays :
  reply_ids (seen_by_client (serve fuel false
    (conversation ([line_of notified ++ line_of (call_status 2)] ++ quiet_looks 30 ++
      [line_of (cancel 2)] ++ [line_of (call_status 2)] ++ quiet_looks 40)
      [host_answer 2; host_answer 2])))
  = Some [Some (JUint 2)].
Proof. by vm_compute. Qed.

(** ** The theorems at work *)

Definition status_tool : Tool := default (hd (step_tool "" "" 0 [] [] 0) tools)
  (find_tool false (Some (str "status"))).
Definition vision_tool : Tool := default status_tool (find_tool false (Some (str "vision"))).

Definition click_step : json :=
  obj [("tool", S' "click"); ("args", obj [("x", JUint 3); ("y", JReal (Double false 7 (-1)))])]%string.
Definition blind_step : json := obj [("tool", S' "click"); ("args", obj [("x", JUint 3)])]%string.

Lemma vision_in_tools : vision_tool ∈ tools.
Proof. unfold tools. right. left. Qed.

Lemma arguments_as_documented_witness :
  validate_arguments false vision_tool (Some (obj [("steps", JArray [click_step])]%string)) = true ∧
  validate_arguments false vision_tool (Some (obj [("steps", JArray [blind_step])]%string)) = false.
Proof.
  split; (etransitivity; [apply (arguments_as_documented false vision_tool); exact vision_in_tools|]);
    by vm_compute.
Defined.

#[local] Instance example_program : Program connection (did request) := scu_program fuel.

Definition ready_server (no_vision : bool) : server connection :=
  set_initialized false true (start no_vision (conversation (quiet_looks 40) [host_answer 2])).

Abbreviation handled_run := (handle_request (Some (call_status 2)) (World (ready_server false) [])).

Lemma handled_returned :
  handled_run = Returned tt (world_after (ready_server false) handled_run).
Proof. apply returned_world. by vm_compute. Qed.

Lemma request_handled_witness :
  ∃ answers calls ends,
    added (World (ready_server false) []) (world_after (ready_server false) handled_run) answers calls ends ∧
    handled (ready_server false) (Some (call_status 2)) answers calls ends.
Proof.
  exact (request_handled (Some (call_status 2)) (World (ready_server false) []) tt _ handled_returned).
Defined.

Definition parameters_2 : value := json_member (Some (call_status 2)) (str "params").

Abbreviation forward_run :=
  (forward_tool fuel (Some (JUint 2)) parameters_2 (World (ready_server false) [])).

Lemma forward_returned :
  forward_run = Returned (Some host_result) (world_after (ready_server false) forward_run).
Proof. apply returned_world. by vm_compute. Qed.

Lemma forward_exact_witness :
  ∃ line reply,
    moved (World (ready_server false) []) (world_after (ready_server false) forward_run)
      (forwarded_line (Some (JUint 2)) parameters_2) line ∧
    last line = Some (char 10) ∧ yyjson_read line = Some reply ∧
    yyjson_equals (json_member (Some reply) (str "id")) (Some (JUint 2)) = true ∧
    json_member (Some reply) (str "result") = Some host_result ∧
    yyjson_is_obj (Some host_result) = true.
Proof. exact (forward_exact _ _ _ _ _ _ forward_returned). Defined.

Abbreviation session_run := (serve fuel false session_script).

Lemma session_returned :
  session_run = Returned tt (world_after (start false session_script) session_run).
Proof. apply returned_world. by vm_compute. Qed.

Lemma host_vouched_witness :
  always guarded (world_after (start false session_script) session_run).(trace).
Proof. exact (host_vouched _ _ _ _ _ session_returned). Defined.

Definition long_fuel : nat := Z.to_nat 60000001.

Lemma request_ends_witness :
  ∃ w', handle_request (program := scu_program long_fuel) (Some (call_status 2))
    (World (ready_server false) []) = Returned tt w' ∧
    finished (elapsed (ready_server false).(own).(around) + 60 * 1000000 + 10 * 1000 + 31 * latency) w'.
Proof.
  apply (request_ends long_fuel (Some (call_status 2)) (World (ready_server false) [])).
  - unfold enough, long_fuel. simpl. lia.
  - intros _. eexists. reflexivity.
Defined.

(** A call that was cancelled while it ran. *)
Definition busy_server : server connection :=
  set_initialized false true (start false (conversation
    (quiet_looks 6 ++ [line_of (cancel 2)] ++ quiet_looks 40) [host_answer 2])).

Abbreviation begin_run := (begin_call (Some (JUint 2)) (World busy_server [])).
Abbreviation call_run :=
  (call_tool (Some (JUint 2)) parameters_2 result_object (World busy_server [])).

Lemma begin_returned : begin_run = Returned (str "2") (world_after busy_server begin_run).
Proof. apply returned_world. by vm_compute. Qed.

Lemma call_ended : call_run = Returned (inl tt) (world_after busy_server call_run).
Proof. apply returned_world. by vm_compute. Qed.


Lemma no_vision_hides_witness :
  batch status_tool ≠ BATCH_VISION ∧
  ∀ block, block ∈ elements (json_member (Some (tool_result (Some status_tool) (Some host_result)
    result_object (ready_server true))) (str "content")) → no_image block = true.
Proof.
  destruct (no_vision_hides (program := example_program) (ready_server true) (Some (str "status")) status_tool result_object
    (members (Some host_result)) eq_refl eq_refl eq_refl eq_refl) as [Hb Hi].
  split; [exact Hb|]. apply Hi. reflexivity.
Defined.
