(* ===== verification/ComputerState.v ===== *)
(** * The state of the host's computer-use program ([native/scu_host.c])

    One process of the host's user runs the tools for all spaces.  It keeps the
    clients and leases of [scu_service.h], the login session of [scu_desktop.h]
    and the input that it holds down.  Here are the records of the state, what
    the program asks of the system around it, and the operations that read and
    change one part.  [struct Scu] itself is [Mcp]'s [server], whose [own] part
    is [host]. *)

From S2P Require Import Prelude Json Catalog Results.
From S2P Require Export Mcp.

Record stat := Stat { st_mode : Z; st_uid : Z; st_dev : Z; st_ino : Z }.

Definition S_ISSOCK (mode : Z) : bool := Z.land mode 0xF000 =? 0xC000.
Definition S_ISDIR (mode : Z) : bool := Z.land mode 0xF000 =? 0x4000.
Definition EAGAIN : Z := 11.

(** The errors after which a socket is still good. *)
Definition transient (errno : Z) : bool := (errno =? EAGAIN) || (errno =? EINTR).

(** ** The objects *)

(** Addresses of clients and of leases. *)
Abbreviation cid := nat.
Abbreviation lid := nat.

(** [TreeBaseline] *)
Record baseline := Baseline { window : Z; tree : option text; truncated : bool }.
Definition no_baseline : baseline := Baseline 0 None false.

(** [HostClient].  A source is attached or not; the numbers GLib gives do not matter. *)
Record client := Client {
  c_lease : lid;
  c_serial : Z;
  c_fd : Z;
  c_source : bool;
  c_writer : bool;
  c_pending : Z;
  c_input : text;
  c_output : text;
  c_sent : nat;
  c_closed : bool;
  c_oversized : bool;
  c_vision : baseline;
  c_accessibility : baseline;
}.

Definition set_c_lease (x : lid) (r : client) : client := Client x r.(c_serial) r.(c_fd)
  r.(c_source) r.(c_writer) r.(c_pending) r.(c_input) r.(c_output) r.(c_sent) r.(c_closed)
  r.(c_oversized) r.(c_vision) r.(c_accessibility).
Definition set_c_serial (x : Z) (r : client) : client := Client r.(c_lease) x r.(c_fd)
  r.(c_source) r.(c_writer) r.(c_pending) r.(c_input) r.(c_output) r.(c_sent) r.(c_closed)
  r.(c_oversized) r.(c_vision) r.(c_accessibility).
Definition set_c_fd (x : Z) (r : client) : client := Client r.(c_lease) r.(c_serial) x
  r.(c_source) r.(c_writer) r.(c_pending) r.(c_input) r.(c_output) r.(c_sent) r.(c_closed)
  r.(c_oversized) r.(c_vision) r.(c_accessibility).
Definition set_c_source (x : bool) (r : client) : client := Client r.(c_lease) r.(c_serial)
  r.(c_fd) x r.(c_writer) r.(c_pending) r.(c_input) r.(c_output) r.(c_sent) r.(c_closed)
  r.(c_oversized) r.(c_vision) r.(c_accessibility).
Definition set_c_writer (x : bool) (r : client) : client := Client r.(c_lease) r.(c_serial)
  r.(c_fd) r.(c_source) x r.(c_pending) r.(c_input) r.(c_output) r.(c_sent) r.(c_closed)
  r.(c_oversized) r.(c_vision) r.(c_accessibility).
Definition set_c_pending (x : Z) (r : client) : client := Client r.(c_lease) r.(c_serial)
  r.(c_fd) r.(c_source) r.(c_writer) x r.(c_input) r.(c_output) r.(c_sent) r.(c_closed)
  r.(c_oversized) r.(c_vision) r.(c_accessibility).
Definition set_c_input (x : text) (r : client) : client := Client r.(c_lease) r.(c_serial)
  r.(c_fd) r.(c_source) r.(c_writer) r.(c_pending) x r.(c_output) r.(c_sent) r.(c_closed)
  r.(c_oversized) r.(c_vision) r.(c_accessibility).
Definition set_c_output (x : text) (r : client) : client := Client r.(c_lease) r.(c_serial)
  r.(c_fd) r.(c_source) r.(c_writer) r.(c_pending) r.(c_input) x r.(c_sent) r.(c_closed)
  r.(c_oversized) r.(c_vision) r.(c_accessibility).
Definition set_c_sent (x : nat) (r : client) : client := Client r.(c_lease) r.(c_serial)
  r.(c_fd) r.(c_source) r.(c_writer) r.(c_pending) r.(c_input) r.(c_output) x r.(c_closed)
  r.(c_oversized) r.(c_vision) r.(c_accessibility).
Definition set_c_closed (x : bool) (r : client) : client := Client r.(c_lease) r.(c_serial)
  r.(c_fd) r.(c_source) r.(c_writer) r.(c_pending) r.(c_input) r.(c_output) r.(c_sent) x
  r.(c_oversized) r.(c_vision) r.(c_accessibility).
Definition set_c_oversized (x : bool) (r : client) : client := Client r.(c_lease)
  r.(c_serial) r.(c_fd) r.(c_source) r.(c_writer) r.(c_pending) r.(c_input) r.(c_output)
  r.(c_sent) r.(c_closed) x r.(c_vision) r.(c_accessibility).
Definition set_c_vision (x : baseline) (r : client) : client := Client r.(c_lease)
  r.(c_serial) r.(c_fd) r.(c_source) r.(c_writer) r.(c_pending) r.(c_input) r.(c_output)
  r.(c_sent) r.(c_closed) r.(c_oversized) x r.(c_accessibility).
Definition set_c_accessibility (x : baseline) (r : client) : client := Client r.(c_lease)
  r.(c_serial) r.(c_fd) r.(c_source) r.(c_writer) r.(c_pending) r.(c_input) r.(c_output)
  r.(c_sent) r.(c_closed) r.(c_oversized) r.(c_vision) x.

(** [HostLease] *)
Record lease := Lease {
  l_control : Z;
  l_listener : Z;
  l_source : bool;
  l_accept_source : bool;
  l_received_fds : Z;
  l_input : text;
  l_registered : bool;
  l_revoked : bool;
  l_acknowledged : bool;
  l_used : bool;
  l_idle_since : Z;
  l_session : option text;
  l_wayland : option text;
}.

Definition set_l_control (x : Z) (r : lease) : lease := Lease x r.(l_listener) r.(l_source)
  r.(l_accept_source) r.(l_received_fds) r.(l_input) r.(l_registered) r.(l_revoked)
  r.(l_acknowledged) r.(l_used) r.(l_idle_since) r.(l_session) r.(l_wayland).
Definition set_l_listener (x : Z) (r : lease) : lease := Lease r.(l_control) x r.(l_source)
  r.(l_accept_source) r.(l_received_fds) r.(l_input) r.(l_registered) r.(l_revoked)
  r.(l_acknowledged) r.(l_used) r.(l_idle_since) r.(l_session) r.(l_wayland).
Definition set_l_source (x : bool) (r : lease) : lease := Lease r.(l_control) r.(l_listener)
  x r.(l_accept_source) r.(l_received_fds) r.(l_input) r.(l_registered) r.(l_revoked)
  r.(l_acknowledged) r.(l_used) r.(l_idle_since) r.(l_session) r.(l_wayland).
Definition set_l_accept_source (x : bool) (r : lease) : lease := Lease r.(l_control)
  r.(l_listener) r.(l_source) x r.(l_received_fds) r.(l_input) r.(l_registered)
  r.(l_revoked) r.(l_acknowledged) r.(l_used) r.(l_idle_since) r.(l_session) r.(l_wayland).
Definition set_l_received_fds (x : Z) (r : lease) : lease := Lease r.(l_control)
  r.(l_listener) r.(l_source) r.(l_accept_source) x r.(l_input) r.(l_registered)
  r.(l_revoked) r.(l_acknowledged) r.(l_used) r.(l_idle_since) r.(l_session) r.(l_wayland).
Definition set_l_input (x : text) (r : lease) : lease := Lease r.(l_control) r.(l_listener)
  r.(l_source) r.(l_accept_source) r.(l_received_fds) x r.(l_registered) r.(l_revoked)
  r.(l_acknowledged) r.(l_used) r.(l_idle_since) r.(l_session) r.(l_wayland).
Definition set_l_registered (x : bool) (r : lease) : lease := Lease r.(l_control)
  r.(l_listener) r.(l_source) r.(l_accept_source) r.(l_received_fds) r.(l_input) x
  r.(l_revoked) r.(l_acknowledged) r.(l_used) r.(l_idle_since) r.(l_session) r.(l_wayland).
Definition set_l_revoked (x : bool) (r : lease) : lease := Lease r.(l_control)
  r.(l_listener) r.(l_source) r.(l_accept_source) r.(l_received_fds) r.(l_input)
  r.(l_registered) x r.(l_acknowledged) r.(l_used) r.(l_idle_since) r.(l_session)
  r.(l_wayland).
Definition set_l_acknowledged (x : bool) (r : lease) : lease := Lease r.(l_control)
  r.(l_listener) r.(l_source) r.(l_accept_source) r.(l_received_fds) r.(l_input)
  r.(l_registered) r.(l_revoked) x r.(l_used) r.(l_idle_since) r.(l_session) r.(l_wayland).
Definition set_l_used (x : bool) (r : lease) : lease := Lease r.(l_control) r.(l_listener)
  r.(l_source) r.(l_accept_source) r.(l_received_fds) r.(l_input) r.(l_registered)
  r.(l_revoked) r.(l_acknowledged) x r.(l_idle_since) r.(l_session) r.(l_wayland).
Definition set_l_idle_since (x : Z) (r : lease) : lease := Lease r.(l_control)
  r.(l_listener) r.(l_source) r.(l_accept_source) r.(l_received_fds) r.(l_input)
  r.(l_registered) r.(l_revoked) r.(l_acknowledged) r.(l_used) x r.(l_session)
  r.(l_wayland).
Definition set_l_session (x : option text) (r : lease) : lease := Lease r.(l_control)
  r.(l_listener) r.(l_source) r.(l_accept_source) r.(l_received_fds) r.(l_input)
  r.(l_registered) r.(l_revoked) r.(l_acknowledged) r.(l_used) r.(l_idle_since) x
  r.(l_wayland).
Definition set_l_wayland (x : option text) (r : lease) : lease := Lease r.(l_control)
  r.(l_listener) r.(l_source) r.(l_accept_source) r.(l_received_fds) r.(l_input)
  r.(l_registered) r.(l_revoked) r.(l_acknowledged) r.(l_used) r.(l_idle_since)
  r.(l_session) x.

(** [HostEvent] *)
Inductive host_event :=
  | HOST_CALL (c : cid) (document : option json)
  | HOST_REGISTER (l : lid)
  | HOST_REVOKE (l : lid).

(** The sources attached to the main context. *)
Inductive watch := ReadOf (c : cid) | WriteOf (c : cid) | ControlOf (l : lid) | AcceptOf (l : lid) | Controllers.

#[export] Instance watch_dec : EqDecision watch.
Proof. solve_decision. Defined.

Definition watch_code (w : watch) : nat * nat :=
  match w with
  | ReadOf c => (0, c) | WriteOf c => (1, c) | ControlOf l => (2, l) | AcceptOf l => (3, l)
  | Controllers => (4, 0)
  end%nat.
Definition watch_of (p : nat * nat) : watch :=
  match p with
  | (0, c) => ReadOf c | (1, c) => WriteOf c | (2, l) => ControlOf l | (3, l) => AcceptOf l
  | _ => Controllers
  end%nat.
#[export] Instance watch_countable : Countable watch.
Proof. by apply (inj_countable' watch_code watch_of); intros []. Defined.

(** The variables of [scu_service.h].  The objects live in a heap, the arrays and
    the queue hold their addresses. *)
Record service := Service {
  clients : gmap cid client;
  leases : gmap lid lease;
  host_clients : list cid;
  host_leases : list lid;
  host_events : list host_event;
  host_current : option cid;
  host_serial : Z;
  registered_once : bool;
  attached : gset watch;
  fresh : nat;
}.

Definition set_clients (x : gmap cid client) (r : service) : service := Service x r.(leases)
  r.(host_clients) r.(host_leases) r.(host_events) r.(host_current) r.(host_serial)
  r.(registered_once) r.(attached) r.(fresh).
Definition set_leases (x : gmap lid lease) (r : service) : service := Service r.(clients) x
  r.(host_clients) r.(host_leases) r.(host_events) r.(host_current) r.(host_serial)
  r.(registered_once) r.(attached) r.(fresh).
Definition set_host_clients (x : list cid) (r : service) : service := Service r.(clients)
  r.(leases) x r.(host_leases) r.(host_events) r.(host_current) r.(host_serial)
  r.(registered_once) r.(attached) r.(fresh).
Definition set_host_leases (x : list lid) (r : service) : service := Service r.(clients)
  r.(leases) r.(host_clients) x r.(host_events) r.(host_current) r.(host_serial)
  r.(registered_once) r.(attached) r.(fresh).
Definition set_host_events (x : list host_event) (r : service) : service := Service
  r.(clients) r.(leases) r.(host_clients) r.(host_leases) x r.(host_current) r.(host_serial)
  r.(registered_once) r.(attached) r.(fresh).
Definition set_host_current (x : option cid) (r : service) : service := Service r.(clients)
  r.(leases) r.(host_clients) r.(host_leases) r.(host_events) x r.(host_serial)
  r.(registered_once) r.(attached) r.(fresh).
Definition set_host_serial (x : Z) (r : service) : service := Service r.(clients) r.(leases)
  r.(host_clients) r.(host_leases) r.(host_events) r.(host_current) x r.(registered_once)
  r.(attached) r.(fresh).
Definition set_registered_once (x : bool) (r : service) : service := Service r.(clients)
  r.(leases) r.(host_clients) r.(host_leases) r.(host_events) r.(host_current)
  r.(host_serial) x r.(attached) r.(fresh).
Definition set_attached (x : gset watch) (r : service) : service := Service r.(clients)
  r.(leases) r.(host_clients) r.(host_leases) r.(host_events) r.(host_current)
  r.(host_serial) r.(registered_once) x r.(fresh).
Definition set_fresh (x : nat) (r : service) : service := Service r.(clients) r.(leases)
  r.(host_clients) r.(host_leases) r.(host_events) r.(host_current) r.(host_serial)
  r.(registered_once) r.(attached) x.

(** [DesktopHost] *)
Record desktop := DesktopHost {
  session : option text;
  path : option text;
  wayland : text;
  output_name : text;
  display_error : option text;
  system : bool;
  watching : bool;
  timer : bool;
  locked : bool;
  lock_known : bool;
  screen_locked : bool;
  screen_known : bool;
  valid : bool;
  query_ready : bool;
  helper_stopping : bool;
  desktop_clients : Z;
  outputs : Z;
  physical_outputs : Z;
  query : option Z;
  helper : option Z;
  query_started : Z;
  queried : Z;
  helper_started : Z;
  helper_stop_started : Z;
}.

Definition set_session (x : option text) (r : desktop) : desktop := DesktopHost x r.(path)
  r.(wayland) r.(output_name) r.(display_error) r.(system) r.(watching) r.(timer) r.(locked)
  r.(lock_known) r.(screen_locked) r.(screen_known) r.(valid) r.(query_ready)
  r.(helper_stopping) r.(desktop_clients) r.(outputs) r.(physical_outputs) r.(query)
  r.(helper) r.(query_started) r.(queried) r.(helper_started) r.(helper_stop_started).
Definition set_path (x : option text) (r : desktop) : desktop := DesktopHost r.(session) x
  r.(wayland) r.(output_name) r.(display_error) r.(system) r.(watching) r.(timer) r.(locked)
  r.(lock_known) r.(screen_locked) r.(screen_known) r.(valid) r.(query_ready)
  r.(helper_stopping) r.(desktop_clients) r.(outputs) r.(physical_outputs) r.(query)
  r.(helper) r.(query_started) r.(queried) r.(helper_started) r.(helper_stop_started).
Definition set_wayland (x : text) (r : desktop) : desktop := DesktopHost r.(session)
  r.(path) x r.(output_name) r.(display_error) r.(system) r.(watching) r.(timer) r.(locked)
  r.(lock_known) r.(screen_locked) r.(screen_known) r.(valid) r.(query_ready)
  r.(helper_stopping) r.(desktop_clients) r.(outputs) r.(physical_outputs) r.(query)
  r.(helper) r.(query_started) r.(queried) r.(helper_started) r.(helper_stop_started).
Definition set_output_name (x : text) (r : desktop) : desktop := DesktopHost r.(session)
  r.(path) r.(wayland) x r.(display_error) r.(system) r.(watching) r.(timer) r.(locked)
  r.(lock_known) r.(screen_locked) r.(screen_known) r.(valid) r.(query_ready)
  r.(helper_stopping) r.(desktop_clients) r.(outputs) r.(physical_outputs) r.(query)
  r.(helper) r.(query_started) r.(queried) r.(helper_started) r.(helper_stop_started).
Definition set_display_error (x : option text) (r : desktop) : desktop := DesktopHost
  r.(session) r.(path) r.(wayland) r.(output_name) x r.(system) r.(watching) r.(timer)
  r.(locked) r.(lock_known) r.(screen_locked) r.(screen_known) r.(valid) r.(query_ready)
  r.(helper_stopping) r.(desktop_clients) r.(outputs) r.(physical_outputs) r.(query)
  r.(helper) r.(query_started) r.(queried) r.(helper_started) r.(helper_stop_started).
Definition set_system (x : bool) (r : desktop) : desktop := DesktopHost r.(session) r.(path)
  r.(wayland) r.(output_name) r.(display_error) x r.(watching) r.(timer) r.(locked)
  r.(lock_known) r.(screen_locked) r.(screen_known) r.(valid) r.(query_ready)
  r.(helper_stopping) r.(desktop_clients) r.(outputs) r.(physical_outputs) r.(query)
  r.(helper) r.(query_started) r.(queried) r.(helper_started) r.(helper_stop_started).
Definition set_watching (x : bool) (r : desktop) : desktop := DesktopHost r.(session)
  r.(path) r.(wayland) r.(output_name) r.(display_error) r.(system) x r.(timer) r.(locked)
  r.(lock_known) r.(screen_locked) r.(screen_known) r.(valid) r.(query_ready)
  r.(helper_stopping) r.(desktop_clients) r.(outputs) r.(physical_outputs) r.(query)
  r.(helper) r.(query_started) r.(queried) r.(helper_started) r.(helper_stop_started).
Definition set_timer (x : bool) (r : desktop) : desktop := DesktopHost r.(session) r.(path)
  r.(wayland) r.(output_name) r.(display_error) r.(system) r.(watching) x r.(locked)
  r.(lock_known) r.(screen_locked) r.(screen_known) r.(valid) r.(query_ready)
  r.(helper_stopping) r.(desktop_clients) r.(outputs) r.(physical_outputs) r.(query)
  r.(helper) r.(query_started) r.(queried) r.(helper_started) r.(helper_stop_started).
Definition set_locked (x : bool) (r : desktop) : desktop := DesktopHost r.(session) r.(path)
  r.(wayland) r.(output_name) r.(display_error) r.(system) r.(watching) r.(timer) x
  r.(lock_known) r.(screen_locked) r.(screen_known) r.(valid) r.(query_ready)
  r.(helper_stopping) r.(desktop_clients) r.(outputs) r.(physical_outputs) r.(query)
  r.(helper) r.(query_started) r.(queried) r.(helper_started) r.(helper_stop_started).
Definition set_lock_known (x : bool) (r : desktop) : desktop := DesktopHost r.(session)
  r.(path) r.(wayland) r.(output_name) r.(display_error) r.(system) r.(watching) r.(timer)
  r.(locked) x r.(screen_locked) r.(screen_known) r.(valid) r.(query_ready)
  r.(helper_stopping) r.(desktop_clients) r.(outputs) r.(physical_outputs) r.(query)
  r.(helper) r.(query_started) r.(queried) r.(helper_started) r.(helper_stop_started).
Definition set_screen_locked (x : bool) (r : desktop) : desktop := DesktopHost r.(session)
  r.(path) r.(wayland) r.(output_name) r.(display_error) r.(system) r.(watching) r.(timer)
  r.(locked) r.(lock_known) x r.(screen_known) r.(valid) r.(query_ready) r.(helper_stopping)
  r.(desktop_clients) r.(outputs) r.(physical_outputs) r.(query) r.(helper)
  r.(query_started) r.(queried) r.(helper_started) r.(helper_stop_started).
Definition set_screen_known (x : bool) (r : desktop) : desktop := DesktopHost r.(session)
  r.(path) r.(wayland) r.(output_name) r.(display_error) r.(system) r.(watching) r.(timer)
  r.(locked) r.(lock_known) r.(screen_locked) x r.(valid) r.(query_ready)
  r.(helper_stopping) r.(desktop_clients) r.(outputs) r.(physical_outputs) r.(query)
  r.(helper) r.(query_started) r.(queried) r.(helper_started) r.(helper_stop_started).
Definition set_valid (x : bool) (r : desktop) : desktop := DesktopHost r.(session) r.(path)
  r.(wayland) r.(output_name) r.(display_error) r.(system) r.(watching) r.(timer) r.(locked)
  r.(lock_known) r.(screen_locked) r.(screen_known) x r.(query_ready) r.(helper_stopping)
  r.(desktop_clients) r.(outputs) r.(physical_outputs) r.(query) r.(helper)
  r.(query_started) r.(queried) r.(helper_started) r.(helper_stop_started).
Definition set_query_ready (x : bool) (r : desktop) : desktop := DesktopHost r.(session)
  r.(path) r.(wayland) r.(output_name) r.(display_error) r.(system) r.(watching) r.(timer)
  r.(locked) r.(lock_known) r.(screen_locked) r.(screen_known) r.(valid) x
  r.(helper_stopping) r.(desktop_clients) r.(outputs) r.(physical_outputs) r.(query)
  r.(helper) r.(query_started) r.(queried) r.(helper_started) r.(helper_stop_started).
Definition set_helper_stopping (x : bool) (r : desktop) : desktop := DesktopHost r.(session)
  r.(path) r.(wayland) r.(output_name) r.(display_error) r.(system) r.(watching) r.(timer)
  r.(locked) r.(lock_known) r.(screen_locked) r.(screen_known) r.(valid) r.(query_ready) x
  r.(desktop_clients) r.(outputs) r.(physical_outputs) r.(query) r.(helper)
  r.(query_started) r.(queried) r.(helper_started) r.(helper_stop_started).
Definition set_desktop_clients (x : Z) (r : desktop) : desktop := DesktopHost r.(session)
  r.(path) r.(wayland) r.(output_name) r.(display_error) r.(system) r.(watching) r.(timer)
  r.(locked) r.(lock_known) r.(screen_locked) r.(screen_known) r.(valid) r.(query_ready)
  r.(helper_stopping) x r.(outputs) r.(physical_outputs) r.(query) r.(helper)
  r.(query_started) r.(queried) r.(helper_started) r.(helper_stop_started).
Definition set_outputs (x : Z) (r : desktop) : desktop := DesktopHost r.(session) r.(path)
  r.(wayland) r.(output_name) r.(display_error) r.(system) r.(watching) r.(timer) r.(locked)
  r.(lock_known) r.(screen_locked) r.(screen_known) r.(valid) r.(query_ready)
  r.(helper_stopping) r.(desktop_clients) x r.(physical_outputs) r.(query) r.(helper)
  r.(query_started) r.(queried) r.(helper_started) r.(helper_stop_started).
Definition set_physical_outputs (x : Z) (r : desktop) : desktop := DesktopHost r.(session)
  r.(path) r.(wayland) r.(output_name) r.(display_error) r.(system) r.(watching) r.(timer)
  r.(locked) r.(lock_known) r.(screen_locked) r.(screen_known) r.(valid) r.(query_ready)
  r.(helper_stopping) r.(desktop_clients) r.(outputs) x r.(query) r.(helper)
  r.(query_started) r.(queried) r.(helper_started) r.(helper_stop_started).
Definition set_query (x : option Z) (r : desktop) : desktop := DesktopHost r.(session)
  r.(path) r.(wayland) r.(output_name) r.(display_error) r.(system) r.(watching) r.(timer)
  r.(locked) r.(lock_known) r.(screen_locked) r.(screen_known) r.(valid) r.(query_ready)
  r.(helper_stopping) r.(desktop_clients) r.(outputs) r.(physical_outputs) x r.(helper)
  r.(query_started) r.(queried) r.(helper_started) r.(helper_stop_started).
Definition set_helper (x : option Z) (r : desktop) : desktop := DesktopHost r.(session)
  r.(path) r.(wayland) r.(output_name) r.(display_error) r.(system) r.(watching) r.(timer)
  r.(locked) r.(lock_known) r.(screen_locked) r.(screen_known) r.(valid) r.(query_ready)
  r.(helper_stopping) r.(desktop_clients) r.(outputs) r.(physical_outputs) r.(query) x
  r.(query_started) r.(queried) r.(helper_started) r.(helper_stop_started).
Definition set_query_started (x : Z) (r : desktop) : desktop := DesktopHost r.(session)
  r.(path) r.(wayland) r.(output_name) r.(display_error) r.(system) r.(watching) r.(timer)
  r.(locked) r.(lock_known) r.(screen_locked) r.(screen_known) r.(valid) r.(query_ready)
  r.(helper_stopping) r.(desktop_clients) r.(outputs) r.(physical_outputs) r.(query)
  r.(helper) x r.(queried) r.(helper_started) r.(helper_stop_started).
Definition set_queried (x : Z) (r : desktop) : desktop := DesktopHost r.(session) r.(path)
  r.(wayland) r.(output_name) r.(display_error) r.(system) r.(watching) r.(timer) r.(locked)
  r.(lock_known) r.(screen_locked) r.(screen_known) r.(valid) r.(query_ready)
  r.(helper_stopping) r.(desktop_clients) r.(outputs) r.(physical_outputs) r.(query)
  r.(helper) r.(query_started) x r.(helper_started) r.(helper_stop_started).
Definition set_helper_started (x : Z) (r : desktop) : desktop := DesktopHost r.(session)
  r.(path) r.(wayland) r.(output_name) r.(display_error) r.(system) r.(watching) r.(timer)
  r.(locked) r.(lock_known) r.(screen_locked) r.(screen_known) r.(valid) r.(query_ready)
  r.(helper_stopping) r.(desktop_clients) r.(outputs) r.(physical_outputs) r.(query)
  r.(helper) r.(query_started) r.(queried) x r.(helper_stop_started).
Definition set_helper_stop_started (x : Z) (r : desktop) : desktop := DesktopHost
  r.(session) r.(path) r.(wayland) r.(output_name) r.(display_error) r.(system) r.(watching)
  r.(timer) r.(locked) r.(lock_known) r.(screen_locked) r.(screen_known) r.(valid)
  r.(query_ready) r.(helper_stopping) r.(desktop_clients) r.(outputs) r.(physical_outputs)
  r.(query) r.(helper) r.(query_started) r.(queried) r.(helper_started) x.

(** [InputDevice], with the address libei gives it. *)
Record device := Device {
  raw : Z; resumed : bool; depressed : Z; latched : Z; mods_locked : Z; group : Z;
}.

(** What [Visual] has of the input that is held down. *)
Record visual := Visual {
  visual_bus : bool;
  visual_input : bool;
  broken : bool;
  devices : option (list device);
  mapping_revision : Z;
  emulation_sequence : Z;
  pending_ping : Z;
  ping_done : bool;
  held_device : option Z;
  held_button : Z;
  keyboard_device : option Z;
  held_keys : list Z;
  input_sequence : Z;
  last_input_time : Z;
}.

Definition set_visual_bus (x : bool) (r : visual) : visual := Visual x r.(visual_input)
  r.(broken) r.(devices) r.(mapping_revision) r.(emulation_sequence) r.(pending_ping)
  r.(ping_done) r.(held_device) r.(held_button) r.(keyboard_device) r.(held_keys)
  r.(input_sequence) r.(last_input_time).
Definition set_visual_input (x : bool) (r : visual) : visual := Visual r.(visual_bus) x
  r.(broken) r.(devices) r.(mapping_revision) r.(emulation_sequence) r.(pending_ping)
  r.(ping_done) r.(held_device) r.(held_button) r.(keyboard_device) r.(held_keys)
  r.(input_sequence) r.(last_input_time).
Definition set_broken (x : bool) (r : visual) : visual := Visual r.(visual_bus)
  r.(visual_input) x r.(devices) r.(mapping_revision) r.(emulation_sequence)
  r.(pending_ping) r.(ping_done) r.(held_device) r.(held_button) r.(keyboard_device)
  r.(held_keys) r.(input_sequence) r.(last_input_time).
Definition set_devices (x : option (list device)) (r : visual) : visual := Visual
  r.(visual_bus) r.(visual_input) r.(broken) x r.(mapping_revision) r.(emulation_sequence)
  r.(pending_ping) r.(ping_done) r.(held_device) r.(held_button) r.(keyboard_device)
  r.(held_keys) r.(input_sequence) r.(last_input_time).
Definition set_mapping_revision (x : Z) (r : visual) : visual := Visual r.(visual_bus)
  r.(visual_input) r.(broken) r.(devices) x r.(emulation_sequence) r.(pending_ping)
  r.(ping_done) r.(held_device) r.(held_button) r.(keyboard_device) r.(held_keys)
  r.(input_sequence) r.(last_input_time).
Definition set_emulation_sequence (x : Z) (r : visual) : visual := Visual r.(visual_bus)
  r.(visual_input) r.(broken) r.(devices) r.(mapping_revision) x r.(pending_ping)
  r.(ping_done) r.(held_device) r.(held_button) r.(keyboard_device) r.(held_keys)
  r.(input_sequence) r.(last_input_time).
Definition set_pending_ping (x : Z) (r : visual) : visual := Visual r.(visual_bus)
  r.(visual_input) r.(broken) r.(devices) r.(mapping_revision) r.(emulation_sequence) x
  r.(ping_done) r.(held_device) r.(held_button) r.(keyboard_device) r.(held_keys)
  r.(input_sequence) r.(last_input_time).
Definition set_ping_done (x : bool) (r : visual) : visual := Visual r.(visual_bus)
  r.(visual_input) r.(broken) r.(devices) r.(mapping_revision) r.(emulation_sequence)
  r.(pending_ping) x r.(held_device) r.(held_button) r.(keyboard_device) r.(held_keys)
  r.(input_sequence) r.(last_input_time).
Definition set_held_device (x : option Z) (r : visual) : visual := Visual r.(visual_bus)
  r.(visual_input) r.(broken) r.(devices) r.(mapping_revision) r.(emulation_sequence)
  r.(pending_ping) r.(ping_done) x r.(held_button) r.(keyboard_device) r.(held_keys)
  r.(input_sequence) r.(last_input_time).
Definition set_held_button (x : Z) (r : visual) : visual := Visual r.(visual_bus)
  r.(visual_input) r.(broken) r.(devices) r.(mapping_revision) r.(emulation_sequence)
  r.(pending_ping) r.(ping_done) r.(held_device) x r.(keyboard_device) r.(held_keys)
  r.(input_sequence) r.(last_input_time).
Definition set_keyboard_device (x : option Z) (r : visual) : visual := Visual r.(visual_bus)
  r.(visual_input) r.(broken) r.(devices) r.(mapping_revision) r.(emulation_sequence)
  r.(pending_ping) r.(ping_done) r.(held_device) r.(held_button) x r.(held_keys)
  r.(input_sequence) r.(last_input_time).
Definition set_held_keys (x : list Z) (r : visual) : visual := Visual r.(visual_bus)
  r.(visual_input) r.(broken) r.(devices) r.(mapping_revision) r.(emulation_sequence)
  r.(pending_ping) r.(ping_done) r.(held_device) r.(held_button) r.(keyboard_device) x
  r.(input_sequence) r.(last_input_time).
Definition set_input_sequence (x : Z) (r : visual) : visual := Visual r.(visual_bus)
  r.(visual_input) r.(broken) r.(devices) r.(mapping_revision) r.(emulation_sequence)
  r.(pending_ping) r.(ping_done) r.(held_device) r.(held_button) r.(keyboard_device)
  r.(held_keys) x r.(last_input_time).
Definition set_last_input_time (x : Z) (r : visual) : visual := Visual r.(visual_bus)
  r.(visual_input) r.(broken) r.(devices) r.(mapping_revision) r.(emulation_sequence)
  r.(pending_ping) r.(ping_done) r.(held_device) r.(held_button) r.(keyboard_device)
  r.(held_keys) r.(input_sequence) x.

(** [struct Scu]'s flags for the lock of the screen. *)
Section flags.
Context {O : Type}.

Definition set_lock_seen (b : bool) (s : server O) : server O := {| images := s.(images);
  code := s.(code); hint := s.(hint); vision_request := s.(vision_request); lock_seen := b;
  lock_monitor := s.(lock_monitor); cancelled := s.(cancelled); stopping := s.(stopping);
  deadline := s.(deadline); requests := s.(requests); active_id := s.(active_id); modern :=
  s.(modern); initialized := s.(initialized); no_vision := s.(no_vision); cancelled_ids :=
  s.(cancelled_ids); own := s.(own) |}.
Definition set_lock_monitor (b : bool) (s : server O) : server O := {| images := s.(images);
  code := s.(code); hint := s.(hint); vision_request := s.(vision_request); lock_seen :=
  s.(lock_seen); lock_monitor := b; cancelled := s.(cancelled); stopping := s.(stopping);
  deadline := s.(deadline); requests := s.(requests); active_id := s.(active_id); modern :=
  s.(modern); initialized := s.(initialized); no_vision := s.(no_vision); cancelled_ids :=
  s.(cancelled_ids); own := s.(own) |}.
Definition set_vision_request (b : bool) (s : server O) : server O := {| images :=
  s.(images); code := s.(code); hint := s.(hint); vision_request := b; lock_seen :=
  s.(lock_seen); lock_monitor := s.(lock_monitor); cancelled := s.(cancelled); stopping :=
  s.(stopping); deadline := s.(deadline); requests := s.(requests); active_id :=
  s.(active_id); modern := s.(modern); initialized := s.(initialized); no_vision :=
  s.(no_vision); cancelled_ids := s.(cancelled_ids); own := s.(own) |}.
Definition set_deadline (b : Z) (s : server O) : server O := {| images := s.(images); code
  := s.(code); hint := s.(hint); vision_request := s.(vision_request); lock_seen :=
  s.(lock_seen); lock_monitor := s.(lock_monitor); cancelled := s.(cancelled); stopping :=
  s.(stopping); deadline := b; requests := s.(requests); active_id := s.(active_id); modern
  := s.(modern); initialized := s.(initialized); no_vision := s.(no_vision); cancelled_ids
  := s.(cancelled_ids); own := s.(own) |}.
End flags.

(** The child that holds AT-SPI: its process and the pipes to it. *)
Record worker_process := Worker { worker_pid : Z; worker_input : Z; worker_output : Z }.

(** ** What the program asks *)

(** The properties of a login session that are there, with the right type. *)
Record session_properties := Properties {
  p_user : option Z; p_active : option bool; p_remote : option bool; p_type : option text;
  p_class : option text; p_locked : option bool;
}.

(** The calls on the system bus and the session bus, with what answers them. *)
Inductive bus_call : Type → Type :=
  | GetSession (session : text) : bus_call text
  | GetAll (path : text) : bus_call session_properties
  | GetActive : bus_call bool
  | ConnectToEis : bus_call Z.              (** a descriptor *)

(** What GLib may dispatch: a descriptor is ready, with whether its condition is
    an error that the handler looks for; a signal or a timer; a child is done. *)
Inductive ready :=
  | Fires (w : watch) (failed : bool)
  | SessionChanged (interface : text) (locked active : option bool) (invalidated : list text)
  | LockerChanged (active : bool)
  | LockerOwnerChanged
  | SessionRemoved (session : text)
  | OwnerChanged (old_owner : text)
  | TimerFires
  | QueryDone (output : text + text)    (** an error's message, or the output of a success *)
  | QueryFailed
  | HelperExited (process : Z).

Inductive ei_event :=
  | EiPong (ping : Z)
  | EiSeatAdded (seat : Z)
  | EiDeviceAdded (d : Z)
  | EiDisconnect
  | EiModifiers (d depressed latched locked group : Z)
  | EiResumed (d : Z)
  | EiPaused (d : Z)
  | EiRemoved (d : Z)
  | EiOther.

Inductive capability := POINTER_ABSOLUTE | BUTTON | SCROLL | KEYBOARD | TEXT.

(** What xkbcommon makes of a device's map of the keys: the index of Shift, the
    range of the codes, and the symbol of a code under modifiers and a group. *)
Record keymap := {
  shift_index : option Z;
  min_keycode : Z;
  max_keycode : Z;
  one_sym (modifiers latched locked group code : Z) : Z;
}.

(** What [recvmsg] stores. *)
Record message := Message { m_data : text; m_fds : list Z; m_truncated : bool }.

(** [inl] is [-1] with [errno]. *)
Inductive request : Type → Type :=
  | Ready : request (list ready * bool)     (** what was dispatched; a signal to stop *)
  | Time : request Z                        (** microseconds *)
  | Sleep (us : Z) : request unit
  | Send (fd : Z) (data : text) : request (Z + nat)
  | Recv (fd size : Z) : request (Z + text)       (** nothing at the end *)
  | Recvmsg (fd : Z) : request (Z + message)
  | Accept (fd : Z) : request (option Z)
  | PeerUid (fd : Z) : request (option Z)
  | Shutdown (fd : Z) : request unit
  | Close (fd : Z) : request unit
  | Fstat (fd : Z) : request (option stat)
  | Accepting (fd : Z) : request bool
  | Nonblocking (fd : Z) : request unit
  | ExecutableStat : request (option stat)
  | SystemBus : request (text + unit)
  | SystemBusClosed : request bool
  | SessionBusClosed : request bool
  | StartCall {A} (c : bus_call A) (milliseconds : Z) : request unit
  | Finished {A} (c : bus_call A) : request (option (text + A))
  | CancelCall : request unit
  | Subscribe : request unit                (** the five signals and the timer *)
  | Unsubscribe : request unit
  | Spawn (argv : list text) : request (text + Z)
  | Terminate (process : Z) : request unit
  | ForceExit (process : Z) : request unit
  | Wait (process : Z) : request unit
  | EiDispatch : request (list ei_event)
  | BindSeat (seat : Z) : request unit
  | StartEmulating (d sequence : Z) : request unit
  | Button (d code : Z) (pressed : bool) : request unit
  | Key (d code : Z) (pressed : bool) : request unit
  | Frame (d time : Z) : request unit
  | CloseInput : request unit               (** the connection to libei and KWin's side of it *)
  | DisconnectInput : request unit          (** KWin's side of it *)
  | Capable (d : Z) (capability : capability) : request bool
  | SameSeat (d d' : Z) : request bool
  | Keymap (d : Z) : request (option keymap)
  | Utf8 (d : Z) (chunk : text) : request unit
  | Motion (d : Z) : request unit
  | Scroll (d : Z) (dx dy : Z) : request unit
  | ScuLibrary (name : text) : request bool
  | LoadVisualLibraries : request bool
  | Allocates : request bool                (** memory for the table of [tree_diff] *)
  | NewSender : request unit
  | SetupBackend (fd : Z) : request bool
  | KillWorker (pid : Z) : request unit
  | PrintError (message : text) : request unit
  | Foreign (what : text) (arguments : list json) : request (list json).  (** what other tools ask *)

(** What a run records beside requests: what happens to clients and leases. *)
Inductive note :=
  | Asks (d : did request)
  | Opened (c : cid) (l : lid)
  | Closed (c : cid)
  | Line (c : cid) (d : option json)
  | Delivers (c : cid) (data : text)
  | Takes (e : host_event)
  | Freed (c : cid)
  | Released (l : lid)
  | Allowed                                 (** a check found input allowed *)
  | Verified                                (** the target of the input was found as it should be *)
  | Presses (d : Z) (allowed : bool).

(** The kernel, the buses, the compositor and the spaces. *)
Class Surroundings := {
  outside : Type;
  respond {A} : request A → outside → A * outside;
  getuid : Z;
  getpid : Z;
  (** xkbcommon; 0 is no symbol *)
  keysym_from_name (name : text) (any_case : bool) : Z;
  utf32_to_keysym (character : Z) : Z;
  (** [g_utf8_validate], [g_utf8_strlen] and [g_utf8_get_char] of a string that is one character *)
  utf8_character (s : text) : option Z;
  (** no more is transferred than was asked for *)
  respond_send fd data h n : (respond (Send fd data) h).1 = inr n → (n ≤ length data)%nat;
  respond_recv fd size h data :
    0 ≤ size → (respond (Recv fd size) h).1 = inr data → Z.of_nat (length data) ≤ size;
}.

Section host.
Context {surroundings : Surroundings}.

(** Everything but [struct Scu].  [target_input] is [target_input_arguments] and
    [target_input_window]. *)
Record host := Host {
  the_service : service;
  the_desktop : desktop;
  the_visual : visual;
  worker : option worker_process;
  keyboard_fallback : bool;
  target_input : option (value * value);
  around : outside;
}.

Definition set_the_service (x : service) (r : host) : host :=
  Host x r.(the_desktop) r.(the_visual) r.(worker) r.(keyboard_fallback) r.(target_input) r.(around).
Definition set_the_desktop (x : desktop) (r : host) : host :=
  Host r.(the_service) x r.(the_visual) r.(worker) r.(keyboard_fallback) r.(target_input) r.(around).
Definition set_the_visual (x : visual) (r : host) : host :=
  Host r.(the_service) r.(the_desktop) x r.(worker) r.(keyboard_fallback) r.(target_input) r.(around).
Definition set_worker (x : option worker_process) (r : host) : host :=
  Host r.(the_service) r.(the_desktop) r.(the_visual) x r.(keyboard_fallback) r.(target_input) r.(around).
Definition set_keyboard_fallback (x : bool) (r : host) : host :=
  Host r.(the_service) r.(the_desktop) r.(the_visual) r.(worker) x r.(target_input) r.(around).
Definition set_target_input (x : option (value * value)) (r : host) : host :=
  Host r.(the_service) r.(the_desktop) r.(the_visual) r.(worker) r.(keyboard_fallback) x r.(around).
Definition set_around (x : outside) (r : host) : host :=
  Host r.(the_service) r.(the_desktop) r.(the_visual) r.(worker) r.(keyboard_fallback) r.(target_input) x.

Abbreviation M := (mcp host note).

(** ** Parts of the state *)

Definition ask {A} (r : request A) : M A :=
  act (λ s, let '(x, h) := respond r s.(own).(around) in (x, set_own (set_around h s.(own)) s))
    (λ x, [Asked (Asks (Did r x))]).

Definition noted (n : note) : M unit := record (Asked n).

Definition host_state : M host := s ← get; mret s.(own).
Definition change (f : host → host) : M unit := modify (λ s, set_own (f s.(own)) s).

Definition the {A} (f : host → A) : M A := s ← get; mret (f s.(own)).
Definition in_service (f : service → service) : M unit :=
  change (λ h, set_the_service (f h.(the_service)) h).
Definition in_desktop (f : desktop → desktop) : M unit :=
  change (λ h, set_the_desktop (f h.(the_desktop)) h).
Definition in_visual (f : visual → visual) : M unit :=
  change (λ h, set_the_visual (f h.(the_visual)) h).

(** Reading and changing an object at an address.  A freed one has none. *)
Definition client_at (c : cid) : M client :=
  s ← the the_service; if s.(clients) !! c is Some x then mret x else undefined.
Definition lease_at (l : lid) : M lease :=
  s ← the the_service; if s.(leases) !! l is Some x then mret x else undefined.
Definition in_client (c : cid) (f : client → client) : M unit :=
  x ← client_at c; in_service (λ s, set_clients (<[c := f x]> s.(clients)) s).
Definition in_lease (l : lid) (f : lease → lease) : M unit :=
  x ← lease_at l; in_service (λ s, set_leases (<[l := f x]> s.(leases)) s).

Definition attach (w : watch) : M unit := in_service (λ s, set_attached ({[w]} ∪ s.(attached)) s).
Definition detach (w : watch) : M unit := in_service (λ s, set_attached (s.(attached) ∖ {[w]}) s).

(** The flags of [struct Scu]. *)
Definition see_lock {O E} : mcp O E unit :=
  modify (λ s, if s.(lock_monitor) then set_lock_seen true s else s).

Fixpoint each {A} (l : list A) (f : A → M unit) : M unit :=
  match l with
  | [] => mret tt
  | x :: l => f x ≫= λ _, each l f
  end.
End host.
