(* ===== verification/ComputerDesktop.v ===== *)
(** * The input that the host's program holds down ([native/scu_host.c])

    The program emulates a pointer and a keyboard through libei.  A button or key
    that it pressed stays in [visual] until it is released; the compositor may
    pause or remove a device at any time, which also ends what was held on it.
    A device is freed when it leaves the list: using it then is undefined. *)

From S2P Require Import Prelude Json Catalog Results.
From S2P Require Export ComputerState.

Section devices.
Context {surroundings : Surroundings}.
Abbreviation M := (mcp host note).

Definition is_listed (d : Z) (v : visual) : bool :=
  existsb (λ x, x.(raw) =? d) (default [] v.(devices)).

Definition on_device (d : Z) (r : request unit) : M unit :=
  v ← the the_visual; if is_listed d v then ask r else undefined.

Definition input_frame (d : Z) : M unit :=
  t ← ask Time;
  on_device d (Frame d t) ≫= λ _,
  in_visual (λ v, set_input_sequence (u64 (v.(input_sequence) + 1)) v) ≫= λ _,
  t ← ask Time;
  in_visual (set_last_input_time t).

(** The loop over [held_keys], last pressed first. *)
Fixpoint release_keys (d : Z) (keys : list Z) : M unit :=
  match keys with
  | [] => mret tt
  | k :: keys =>
      in_visual (set_held_keys keys) ≫= λ _,
      on_device d (Key d k false) ≫= λ _,
      input_frame d ≫= λ _,
      release_keys d keys
  end.

Definition release_input : M unit :=
  v ← the the_visual;
  (if v.(held_device) is Some d then
    on_device d (Button d v.(held_button) false) ≫= λ _,
    input_frame d ≫= λ _,
    in_visual (set_held_device None)
  else mret tt) ≫= λ _,
  v ← the the_visual;
  if v.(keyboard_device) is Some d then
    release_keys d v.(held_keys) ≫= λ _,
    in_visual (set_keyboard_device None)
  else mret tt.

(** ** What the compositor says *)

Definition set_resumed (b : bool) (d : device) : device :=
  Device d.(raw) b d.(depressed) d.(latched) d.(mods_locked) d.(group).
Definition set_modifiers (p l k g : Z) (d : device) : device := Device d.(raw) d.(resumed) p l k g.

(** The first device at the address, changed. *)
Fixpoint update_device (d : Z) (f : device → device) (l : list device) : list device :=
  match l with
  | [] => []
  | x :: l => if x.(raw) =? d then f x :: l else x :: update_device d f l
  end.

(** [g_ptr_array_remove_index] of the first device at the address. *)
Fixpoint remove_device (d : Z) (l : list device) : list device :=
  match l with
  | [] => []
  | x :: l => if x.(raw) =? d then l else x :: remove_device d l
  end.

Definition change_devices (f : list device → list device) (v : visual) : visual :=
  set_devices (f <$> v.(devices)) v.

Definition revised (v : visual) : visual := set_mapping_revision (u64 (v.(mapping_revision) + 1)) v.

(** What was held on a device that pauses or goes is not held any more. *)
Definition drop_device (d : Z) (v : visual) : visual :=
  let v := if bool_decide (v.(held_device) = Some d) then set_held_device None v else v in
  if bool_decide (v.(keyboard_device) = Some d) then set_held_keys [] (set_keyboard_device None v) else v.

Definition pause_device (d : Z) (v : visual) : visual :=
  drop_device d (change_devices (update_device d (set_resumed false)) (revised v)).

Definition backend_event (e : ei_event) : M unit :=
  v ← the the_visual;
  match e with
  | EiPong ping => if ping =? v.(pending_ping) then in_visual (set_ping_done true) else mret tt
  | EiSeatAdded seat => ask (BindSeat seat)
  | EiDeviceAdded d =>
      in_visual (λ v, change_devices (λ l, l ++ [Device d false 0 0 0 0]) (revised v))
  | EiDisconnect => in_visual (set_broken true)
  | EiModifiers d p l k g => in_visual (change_devices (update_device d (set_modifiers p l k g)))
  | EiResumed d =>
      if is_listed d v then
        in_visual (λ v, set_emulation_sequence (u32 (v.(emulation_sequence) + 1))
          (change_devices (update_device d (set_resumed true)) (revised v))) ≫= λ _,
        v ← the the_visual;
        ask (StartEmulating d v.(emulation_sequence))
      else mret tt
  | EiPaused d => if is_listed d v then in_visual (pause_device d) else mret tt
  | EiRemoved d =>
      if is_listed d v then in_visual (λ v, change_devices (remove_device d) (pause_device d v))
      else mret tt
  | EiOther => mret tt
  end.

Definition poll_backend : M unit :=
  v ← the the_visual;
  closed ← (if v.(visual_bus) then ask SessionBusClosed else mret false);
  (if closed : bool then in_visual (set_broken true) else mret tt) ≫= λ _,
  if v.(visual_input) && bool_decide (is_Some v.(devices)) then
    events ← ask EiDispatch;
    each events backend_event
  else mret tt.

(** ** The end of the backends *)

Definition no_visual : visual := Visual false false false None 0 0 0 false None 0 None [] 0 0.

Definition scu_visual_close : M unit :=
  release_input ≫= λ _,
  ask CloseInput ≫= λ _,
  in_visual (λ _, no_visual).

Definition host_clear_tree_baselines : M unit :=
  s ← the the_service;
  each s.(host_clients) (λ c, in_client c (λ x,
    set_c_accessibility (Baseline x.(c_accessibility).(window) None x.(c_accessibility).(truncated))
      (set_c_vision (Baseline x.(c_vision).(window) None x.(c_vision).(truncated)) x))).

Definition stop_atspi_worker : M unit :=
  host_clear_tree_baselines ≫= λ _,
  w ← the worker;
  match w with
  | None => mret tt
  | Some w =>
      ask (Close w.(worker_input)) ≫= λ _,
      ask (Close w.(worker_output)) ≫= λ _,
      ask (KillWorker w.(worker_pid)) ≫= λ _,
      change (set_worker None)
  end.

Definition scu_invalidate : M unit := scu_visual_close ≫= λ _, stop_atspi_worker.
End devices.

(** * The login session that the host's program serves ([native/scu_desktop.h])

    The program is bound to one login session.  Signals of logind and of the
    screen locker keep what it knows of the lock, and input is released at once
    when the screen locks.  While there are clients a query counts the outputs,
    and a virtual monitor stands in when there is none.  Here are the callbacks
    and the maintenance, which never wait; [ComputerMain] has what waits. *)

Section desktop.
Context `{Json_text} {surroundings : Surroundings}.
Abbreviation M := (mcp host note).

Definition USEC_PER_SEC : Z := 1000000.

Definition scu_text_desktop_session_required : text :=
  str "SCU requires the selected user's active local Wayland session.".
Definition scu_text_desktop_generation_changed : text :=
  str "The shared SCU host belongs to another desktop generation.".
Definition scu_text_desktop_login_inactive : text :=
  str "The selected graphical login is no longer active.".
Definition scu_text_session_lock_unavailable : text := str "Cannot inspect the host session lock.".
Definition scu_text_virtual_monitor_exited : text :=
  str "krfb-virtualmonitor exited before a usable fallback appeared.".
Definition scu_text_output_inventory_invalid : text :=
  str "kscreen-doctor did not return a valid output inventory.".
Definition scu_text_desktop_output_unavailable : text :=
  str "No usable desktop output became available.".
(** ** The lock *)

Definition locked_now (d : desktop) : bool := d.(locked) || d.(screen_locked).
Definition lock_unknown (d : desktop) : bool := negb d.(lock_known) || negb d.(screen_known).

Definition desktop_check_lock : M unit :=
  d ← the the_desktop;
  if d.(session) is None then mret tt else
  closed ← (if d.(valid) && d.(system) then ask SystemBusClosed else mret false);
  if negb d.(valid) || closed then modify (set_stopping true) ≫= λ _, release_input
  else if locked_now d then see_lock ≫= λ _, release_input
  else if lock_unknown d then release_input
  else mret tt.

Definition desktop_is_locked (d : desktop) : bool :=
  match d.(session) with Some _ => locked_now d | None => false end.

(** Whether [desktop_input_allowed] says yes. *)
Definition input_open (s : server host) : bool :=
  let d := s.(own).(the_desktop) in
  negb (desktop_is_locked d || s.(lock_seen)) && negb (bool_decide (is_Some d.(session)) && lock_unknown d).

Definition desktop_input_allowed : M bool :=
  s ← get;
  let d := s.(own).(the_desktop) in
  if desktop_is_locked d || s.(lock_seen) then
    scu_fail (str "desktop_locked") desktop_locked_warning ≫= λ _, mret false
  else if bool_decide (is_Some d.(session)) && lock_unknown d then
    scu_fail (str "desktop_session_unavailable") scu_text_session_lock_unavailable ≫= λ _, mret false
  else noted Allowed ≫= λ _, mret true.

(** ** The signals *)

Definition session_interface : text := str "org.freedesktop.login1.Session".

Definition invalidate_property (d : desktop) (name : text) : desktop :=
  let d := if text_eqb name (str "LockedHint") then set_lock_known false d else d in
  if text_eqb name (str "Active") then set_valid false d else d.

Definition desktop_properties (interface : text) (locked active : option bool) (invalidated : list text) : M unit :=
  if text_eqb interface session_interface then
    (if locked is Some b then
      in_desktop (set_locked b) ≫= λ _,
      (if b : bool then see_lock else mret tt) ≫= λ _,
      in_desktop (set_lock_known true)
    else mret tt) ≫= λ _,
    (if active is Some false then in_desktop (set_valid false) else mret tt) ≫= λ _,
    in_desktop (λ d, foldl invalidate_property d invalidated)
  else mret tt.

Definition desktop_locker_changed (active : bool) : M unit :=
  in_desktop (λ d, set_screen_known true (set_screen_locked active d)) ≫= λ _,
  (if active then see_lock else mret tt) ≫= λ _,
  desktop_check_lock.

Definition desktop_locker_owner_changed : M unit :=
  in_desktop (set_screen_known false) ≫= λ _, release_input.

Definition desktop_session_removed (gone : text) : M unit :=
  d ← the the_desktop;
  if is_named d.(session) gone then in_desktop (set_valid false) else mret tt.

Definition desktop_owner_changed (old_owner : text) : M unit :=
  if old_owner is [] then mret tt else in_desktop (set_valid false).

(** ** The processes *)

Definition desktop_stop_helper : M unit :=
  d ← the the_desktop;
  match d.(helper), d.(helper_stopping) with
  | Some p, false =>
      in_desktop (set_helper_stopping true) ≫= λ _,
      t ← ask Time;
      in_desktop (set_helper_stop_started t) ≫= λ _,
      ask (Terminate p)
  | _, _ => mret tt
  end.

Definition desktop_helper_exited (p : Z) : M unit :=
  d ← the the_desktop;
  if bool_decide (d.(helper) = Some p) then
    in_desktop (λ d, set_queried 0 (set_helper_stopping false (set_helper None d))) ≫= λ _,
    if d.(helper_stopping) then mret tt
    else in_desktop (set_display_error (Some scu_text_virtual_monitor_exited))
  else mret tt.

(** An output counts when it is connected and not disabled. *)
Definition output_enabled (item : json) : bool :=
  match json_string (Some item) (str "name") with
  | None => false
  | Some _ =>
      json_boolean (Some item) (str "connected") &&
      (negb (bool_decide (is_Some (json_member (Some item) (str "enabled")))) ||
       json_boolean (Some item) (str "enabled"))
  end.

Definition owned_output (d : desktop) : text := str "Virtual-" ++ d.(output_name).

Definition physical_output (owned : text) (item : json) : bool :=
  output_enabled item && negb (is_named (json_string (Some item) (str "name")) owned).

(** [desktop_query_done]; the last argument is what the query's process gave. *)
Definition desktop_query_done (result : option (text + text)) : M unit :=
  let output := match result with Some (inr o) => Some o | _ => None end in
  let doc := output ≫= λ o,
    if decide (Z.of_nat (length o) ≤ 1024 * 1024) then yyjson_read o else None in
  let found := json_member doc (str "outputs") in
  in_desktop (λ d, set_physical_outputs 0 (set_outputs 0 (set_query_ready (yyjson_is_arr found) d))) ≫= λ _,
  (if yyjson_is_arr found then
    in_desktop (λ d,
      let items := elements found in
      let d := set_physical_outputs (Z.of_nat (length (filter (λ i, physical_output (owned_output d) i = true) items)))
        (set_outputs (Z.of_nat (length (filter (λ i, output_enabled i = true) items))) d) in
      if d.(outputs) =? 0 then d else set_display_error None d)
  else
    in_desktop (set_display_error (Some
      (match result with Some (inl e) => e | _ => scu_text_output_inventory_invalid end)))) ≫= λ _,
  in_desktop (set_query None) ≫= λ _,
  t ← ask Time;
  in_desktop (set_queried t).

Definition query_command : list text := str <$> ["/usr/bin/kscreen-doctor"; "-j"]%string.
Definition monitor_command (name : text) : list text :=
  [str "/usr/bin/krfb-virtualmonitor"; str "--name"; name; str "--resolution"; str "1280x720";
   str "--scale"; str "1"].

Definition force_exit (p : option Z) : M unit :=
  if p is Some p then ask (ForceExit p) else mret tt.

Definition start_query (now : Z) : M unit :=
  p ← ask (Spawn query_command);
  match p with
  | inr p => in_desktop (λ d, set_query_started now (set_query (Some p) d))
  | inl e => in_desktop (λ d, set_queried now (set_display_error (Some e) (set_query_started now d)))
  end.

Definition start_helper (now : Z) : M unit :=
  d ← the the_desktop;
  p ← ask (Spawn (monitor_command d.(output_name)));
  in_desktop (set_helper_started now) ≫= λ _,
  match p with
  | inr p => in_desktop (set_helper (Some p))
  | inl e => in_desktop (set_display_error (Some e))
  end.

Definition desktop_maintain_bound (clients : Z) : M unit :=
  desktop_check_lock ≫= λ _,
  now ← ask Time;
  d ← the the_desktop;
  (if d.(helper_stopping) && (USEC_PER_SEC <? now - d.(helper_stop_started)) then
    match d.(helper) with Some p => ask (ForceExit p) | None => undefined end
  else mret tt) ≫= λ _,
  (if bool_decide (is_Some d.(query)) && (3 * USEC_PER_SEC <? now - d.(query_started)) then force_exit d.(query)
  else mret tt) ≫= λ _,
  if (clients =? 0) || negb d.(valid) then
    desktop_stop_helper ≫= λ _,
    force_exit d.(query) ≫= λ _,
    in_desktop (λ d, set_queried 0 (set_query_ready false d))
  else
    (if negb (bool_decide (is_Some d.(query))) && (USEC_PER_SEC <? now - d.(queried)) then start_query now
    else mret tt) ≫= λ _,
    d ← the the_desktop;
    if negb d.(query_ready) then mret tt
    else if negb (d.(physical_outputs) =? 0) then desktop_stop_helper
    else if (d.(outputs) =? 0) && negb (bool_decide (is_Some d.(helper))) &&
      (USEC_PER_SEC <? now - d.(helper_started)) then start_helper now
    else mret tt.

Definition desktop_maintain (clients : Z) : M unit :=
  in_desktop (set_desktop_clients clients) ≫= λ _,
  d ← the the_desktop;
  if d.(session) is None then mret tt else desktop_maintain_bound clients.

Definition desktop_timer : M unit :=
  d ← the the_desktop; desktop_maintain d.(desktop_clients).

Definition end_process (p : option Z) : M unit :=
  match p with Some p => ask (ForceExit p) ≫= λ _, ask (Wait p) | None => mret tt end.

Definition desktop_close : M unit :=
  d ← the the_desktop;
  in_desktop (set_timer false) ≫= λ _,
  end_process d.(helper) ≫= λ _,
  end_process d.(query) ≫= λ _,
  if d.(watching) then ask Unsubscribe ≫= λ _, in_desktop (set_watching false) else mret tt.
End desktop.
