(* ===== verification/ComputerService.v ===== *)
(** * The host's service ([native/scu_service.h])

    A controller on the host registers a listening socket for a space: a lease.
    The space's servers connect to it: they are clients.  A callback only frames
    what arrives and queues it; the main loop of [ComputerMain] takes one event
    at a time.  Revoking a lease closes its clients at once, and the main loop
    acknowledges it when everything queued before it is done. *)

From S2P Require Import Prelude Json Catalog Results.
From S2P Require Export ComputerDesktop.

Definition host_max_clients : nat := 32.
Definition host_max_pending : nat := 64.
Definition MAX_OUTPUT : Z := 128 * 1024 * 1024.

Section service.
Context `{Json_text} {surroundings : Surroundings}.
Abbreviation M := (mcp host note).

(** ** Clients *)

(** [client_request_key]: what stands before the colon is the client's. *)
Definition key_prefix (serial : Z) : text := decimal serial ++ str ":".
Definition request_key_of (serial : Z) (id : value) : text :=
  key_prefix serial ++ default (str "null") (id ≫= yyjson_write).

Definition client_request_key (c : option cid) (id : value) : M text :=
  match c with
  | Some c => x ← client_at c; mret (request_key_of x.(c_serial) id)
  | None => mret (request_key_of 0 id)
  end.

Definition host_request_key (id : value) : M text :=
  s ← the the_service; client_request_key s.(host_current) id.

Definition has_prefix (p k : text) : bool := text_eqb (take (length p) k) p.

Definition forget_keys (serial : Z) (s : server host) : server host :=
  set_cancelled_ids (filter (λ k, has_prefix (key_prefix serial) k = false) s.(cancelled_ids)) s.

Definition host_client_close (c : cid) : M unit :=
  x ← client_at c;
  if x.(c_closed) then mret tt else
  noted (Closed c) ≫= λ _,
  in_client c (set_c_closed true) ≫= λ _,
  s ← the the_service;
  (if bool_decide (s.(host_current) = Some c) then modify (set_cancelled true) else mret tt) ≫= λ _,
  (if x.(c_source) then detach (ReadOf c) else mret tt) ≫= λ _,
  (if x.(c_writer) then detach (WriteOf c) else mret tt) ≫= λ _,
  in_client c (λ x, set_c_writer false (set_c_source false x)) ≫= λ _,
  ask (Shutdown x.(c_fd)) ≫= λ _,
  ask (Close x.(c_fd)) ≫= λ _,
  in_client c (set_c_fd (-1)) ≫= λ _,
  modify (forget_keys x.(c_serial)).

(** One callback of the writer: [host_write]. *)
Definition host_write (c : cid) (failed : bool) : M unit :=
  x ← client_at c;
  if failed then host_client_close c else
  let rest := drop x.(c_sent) x.(c_output) in
  n ← ask (Send x.(c_fd) (take 65536 rest));
  match n with
  | inr 0%nat => host_client_close c
  | inl errno => if transient errno then mret tt else host_client_close c
  | inr n =>
      noted (Delivers c (take n rest)) ≫= λ _,
      in_client c (λ x, set_c_sent (x.(c_sent) + n) x) ≫= λ _,
      x ← client_at c;
      if decide (x.(c_sent) = length x.(c_output)) then
        detach (WriteOf c) ≫= λ _,
        in_client c (λ x, set_c_writer false (set_c_sent 0 (set_c_output [] x)))
      else mret tt
  end.

Definition host_send_line (line : text) : M unit :=
  s ← the the_service;
  match s.(host_current) with
  | None => mret tt
  | Some c =>
      x ← client_at c;
      if x.(c_closed) then mret tt
      else if MAX_OUTPUT <? Z.of_nat (length x.(c_output) + length line) then host_client_close c
      else
        in_client c (λ x, set_c_output (x.(c_output) ++ line ++ [char 10]) x) ≫= λ _,
        if x.(c_writer) then mret tt
        else in_client c (set_c_writer true) ≫= λ _, attach (WriteOf c)
  end.

Definition client_of (e : host_event) : option cid :=
  match e with HOST_CALL c _ => Some c | _ => None end.

Definition host_queue (e : host_event) : M unit :=
  (if client_of e is Some c then in_client c (λ x, set_c_pending (u32 (x.(c_pending) + 1)) x) else mret tt) ≫= λ _,
  in_service (λ s, set_host_events (s.(host_events) ++ [e]) s).

(** A notification that cancels, or a request. *)
Definition is_cancellation (d : option json) : bool :=
  is_named (json_string d (str "method")) (str "notifications/cancelled").
Definition cancelled_request (d : option json) : value :=
  json_member (json_member d (str "params")) (str "requestId").

Definition cancel_request (c : cid) (key : text) : M unit :=
  modify (λ s, if decide (size s.(cancelled_ids) < 256)%nat
    then set_cancelled_ids ({[key]} ∪ s.(cancelled_ids)) s else s) ≫= λ _,
  s ← get;
  if bool_decide (s.(own).(the_service).(host_current) = Some c) && is_named s.(active_id) key
  then modify (set_cancelled true) else mret tt.

Definition host_line (c : cid) : M unit :=
  x ← client_at c;
  let d := if x.(c_oversized) then None else yyjson_read x.(c_input) in
  noted (Line c d) ≫= λ _,
  (if is_cancellation d then
    key ← client_request_key (Some c) (cancelled_request d);
    cancel_request c key
  else
    s ← the the_service;
    if decide (length s.(host_events) < host_max_pending)%nat then host_queue (HOST_CALL c d)
    else host_client_close c) ≫= λ _,
  in_client c (λ x, set_c_oversized false (set_c_input [] x)).

Definition host_byte (c : cid) (b : ascii) : M unit :=
  x ← client_at c;
  if decide (b = char 10) then host_line c
  else if decide (Z.of_nat (length x.(c_input)) < MAX_LINE) then
    in_client c (λ x, set_c_input (x.(c_input) ++ [b]) x)
  else in_client c (set_c_oversized true).

Fixpoint host_bytes (c : cid) (data : text) : M unit :=
  match data with
  | [] => mret tt
  | b :: data =>
      x ← client_at c;
      if x.(c_closed) then mret tt else host_byte c b ≫= λ _, host_bytes c data
  end.

(** At most [turns] buffers: one busy peer cannot keep the others waiting. *)
Fixpoint host_read_turns (turns : nat) (c : cid) : M unit :=
  match turns with
  | O => mret tt
  | S turns =>
      x ← client_at c;
      if x.(c_closed) then mret tt else
      data ← ask (Recv x.(c_fd) 65536);
      match data with
      | inl errno => if transient errno then mret tt else host_client_close c
      | inr [] => host_client_close c
      | inr data => host_bytes c data ≫= λ _, host_read_turns turns c
      end
  end.

Definition host_read (c : cid) (failed : bool) : M unit :=
  host_read_turns 16 c ≫= λ _,
  x ← client_at c;
  if negb x.(c_closed) && failed then host_client_close c else mret tt.

(** ** Leases *)

Definition is_open (s : service) (c : cid) : bool :=
  match s.(clients) !! c with Some x => negb x.(c_closed) | None => false end.

Definition open_clients (s : service) : list cid := filter (λ c, is_open s c = true) s.(host_clients).

Definition host_client_count (s : service) : nat := length (open_clients s).

Definition new_client (l : lid) (serial fd : Z) : client := {|
  c_lease := l; c_serial := serial; c_fd := fd; c_source := true; c_writer := false; c_pending := 0;
  c_input := []; c_output := []; c_sent := 0; c_closed := false; c_oversized := false;
  c_vision := no_baseline; c_accessibility := no_baseline |}.

Definition new_lease (control listener : Z) (registered : bool) : lease := {|
  l_control := control; l_listener := listener; l_source := false; l_accept_source := false;
  l_received_fds := 0; l_input := []; l_registered := registered; l_revoked := false;
  l_acknowledged := false; l_used := false; l_idle_since := 0; l_session := None; l_wayland := None |}.

Definition allocate : M nat :=
  s ← the the_service;
  in_service (set_fresh (S s.(fresh))) ≫= λ _, mret s.(fresh).

Definition admit_client (l : lid) (fd : Z) : M unit :=
  c ← allocate;
  noted (Opened c l) ≫= λ _,
  in_service (λ s, let serial := u64 (s.(host_serial) + 1) in
    set_host_serial serial (set_host_clients (s.(host_clients) ++ [c])
      (set_clients (<[c := new_client l serial fd]> s.(clients)) s))) ≫= λ _,
  in_lease l (set_l_used true) ≫= λ _,
  attach (ReadOf c).

Fixpoint host_accept (fuel : nat) (l : lid) : M unit :=
  match fuel with
  | O => out_of_fuel
  | S fuel =>
      x ← lease_at l;
      peer ← ask (Accept x.(l_listener));
      match peer with
      | None => mret tt
      | Some fd =>
          s ← the the_service;
          uid ← (if x.(l_revoked) || bool_decide (host_max_clients ≤ host_client_count s)%nat then mret None
                 else ask (PeerUid fd));
          (if bool_decide (uid = Some getuid) then admit_client l fd else ask (Close fd)) ≫= λ _,
          host_accept fuel l
      end
  end.

Definition close_clients (l : lid) : M unit :=
  s ← the the_service;
  each s.(host_clients) (λ c,
    x ← client_at c; if decide (x.(c_lease) = l) then host_client_close c else mret tt).

Definition host_revoke (l : lid) : M unit :=
  x ← lease_at l;
  if x.(l_revoked) then mret tt else
  in_lease l (set_l_revoked true) ≫= λ _,
  (if x.(l_accept_source) then detach (AcceptOf l) else mret tt) ≫= λ _,
  (if 0 <=? x.(l_listener) then ask (Close x.(l_listener)) else mret tt) ≫= λ _,
  (if x.(l_source) then detach (ControlOf l) else mret tt) ≫= λ _,
  in_lease l (λ x, set_l_source false (set_l_listener (-1) (set_l_accept_source false x))) ≫= λ _,
  close_clients l ≫= λ _,
  host_queue (HOST_REVOKE l).

(** The descriptors of a message: the first is the listener. *)
Fixpoint receive_fds (l : lid) (fds : list Z) : M unit :=
  match fds with
  | [] => mret tt
  | fd :: fds =>
      x ← lease_at l;
      in_lease l (λ x, set_l_received_fds (u32 (x.(l_received_fds) + 1)) x) ≫= λ _,
      (if x.(l_received_fds) =? 0 then in_lease l (set_l_listener fd) else ask (Close fd)) ≫= λ _,
      receive_fds l fds
  end.

Definition is_text (v : option text) : bool := match v with Some (_ :: _) => true | _ => false end.

(** The socket is the user's own, and it listens. *)
Definition valid_listener (fd : Z) : M bool :=
  st ← ask (Fstat fd);
  match st with
  | Some st =>
      if S_ISSOCK st.(st_mode) && (st.(st_uid) =? getuid) then ask (Accepting fd) else mret false
  | None => mret false
  end.

Definition MAX_REGISTRATION : nat := 8192.

Definition register (l : lid) : M unit :=
  x ← lease_at l;
  let root := yyjson_read x.(l_input) in
  let session := json_string root (str "session") in
  let wayland := json_string root (str "wayland") in
  valid ← (if (x.(l_received_fds) =? 1) && is_text session && is_text wayland
           then valid_listener x.(l_listener) else mret false);
  if valid : bool then
    ask (Nonblocking x.(l_listener)) ≫= λ _,
    in_lease l (λ x, set_l_registered true (set_l_wayland wayland (set_l_session session x))) ≫= λ _,
    host_queue (HOST_REGISTER l)
  else host_revoke l.

Definition host_control_read (l : lid) : M unit :=
  x ← lease_at l;
  if x.(l_registered) then
    data ← ask (Recv x.(l_control) 1);
    match data with
    | inl errno => if transient errno then mret tt else host_revoke l
    | inr _ => host_revoke l
    end
  else
    m ← ask (Recvmsg x.(l_control));
    match m with
    | inl errno => if transient errno then mret tt else host_revoke l
    | inr m =>
        (if m.(m_data) is [] then mret tt else receive_fds l m.(m_fds)) ≫= λ _,
        if bool_decide (m.(m_data) = []) || m.(m_truncated) ||
          bool_decide (MAX_REGISTRATION < length x.(l_input) + length m.(m_data))%nat then host_revoke l
        else
          in_lease l (λ x, set_l_input (x.(l_input) ++ m.(m_data)) x) ≫= λ _,
          if bool_decide (char 10 ∈ x.(l_input) ++ m.(m_data)) then register l else mret tt
    end.

Definition admit_lease (fd : Z) : M unit :=
  l ← allocate;
  in_service (λ s, set_host_leases (s.(host_leases) ++ [l])
    (set_leases (<[l := set_l_source true (new_lease fd (-1) false)]> s.(leases)) s)) ≫= λ _,
  attach (ControlOf l).

Definition MAX_LEASES : nat := 64.

Fixpoint host_control_accept (fuel : nat) (control : Z) : M unit :=
  match fuel with
  | O => out_of_fuel
  | S fuel =>
      peer ← ask (Accept control);
      match peer with
      | None => mret tt
      | Some fd =>
          s ← the the_service;
          uid ← (if decide (MAX_LEASES ≤ length s.(host_leases))%nat then mret None else ask (PeerUid fd));
          (if bool_decide (uid = Some 0 ∨ uid = Some getuid) then admit_lease fd else ask (Close fd)) ≫= λ _,
          host_control_accept fuel control
      end
  end.

(** ** Freeing *)

(** [g_ptr_array_remove_index_fast]: the last one takes the place. *)
Definition remove_fast {A} (i : nat) (l : list A) : list A :=
  match last l with
  | Some x => take (length l - 1) (<[i := x]> l)
  | None => l
  end.

Definition collectable (s : service) (x : client) (c : cid) : bool :=
  x.(c_closed) && (x.(c_pending) =? 0) && negb (bool_decide (s.(host_current) = Some c)).

(** From the index [i - 1] down. *)
Fixpoint collect_clients (i : nat) : M unit :=
  match i with
  | O => mret tt
  | S i =>
      s ← the the_service;
      match s.(host_clients) !! i with
      | None => undefined
      | Some c =>
          x ← client_at c;
          (if collectable s x c then
            noted (Freed c) ≫= λ _,
            in_service (λ s, set_host_clients (remove_fast i s.(host_clients))
              (set_clients (delete c s.(clients)) s))
          else mret tt) ≫= λ _,
          collect_clients i
      end
  end.

Definition referenced (s : service) (l : lid) (cs : list cid) : M bool :=
  foldr (λ c m, x ← client_at c; r ← m; mret (bool_decide (x.(c_lease) = l) || r)) (mret false) cs.

Fixpoint collect_leases (i : nat) : M unit :=
  match i with
  | O => mret tt
  | S i =>
      s ← the the_service;
      match s.(host_leases) !! i with
      | None => undefined
      | Some l =>
          r ← referenced s l s.(host_clients);
          x ← lease_at l;
          (if x.(l_acknowledged) && negb r then
            (if 0 <=? x.(l_control) then ask (Close x.(l_control)) else mret tt) ≫= λ _,
            in_service (λ s, set_host_leases (remove_fast i s.(host_leases))
              (set_leases (delete l s.(leases)) s))
          else mret tt) ≫= λ _,
          collect_leases i
      end
  end.

Definition host_collect : M unit :=
  s ← the the_service;
  collect_clients (length s.(host_clients)) ≫= λ _,
  s ← the the_service;
  collect_leases (length s.(host_leases)).

(** ** What a batch remembers of a window *)

Inductive batch_kind := Vision | Accessibility.

Definition host_tree_baseline (k : batch_kind) : M (option baseline) :=
  s ← the the_service;
  match s.(host_current) with
  | None => mret None
  | Some c =>
      x ← client_at c;
      mret (if x.(c_closed) then None
            else Some (match k with Vision => x.(c_vision) | Accessibility => x.(c_accessibility) end))
  end.
End service.
