(* ===== verification/ComputerMain.v ===== *)
(** * How the host's program waits ([native/scu_host.c], [native/scu_desktop.h])

    Everything runs in one thread.  While an operation waits it ticks: the main
    context dispatches whatever is ready, so that clients may come, cancel or
    go, and the screen may lock, between any two steps of a tool.  Here are the
    dispatch of the callbacks, [scu_tick] with the waits made of it, and the
    operations of the desktop that wait. *)

From S2P Require Import Prelude Json Catalog Results.
From S2P Require Export ComputerService.

Section engine.
Context `{Json_text} {surroundings : Surroundings} (fuel : nat).
Abbreviation M := (mcp host note).

(** ** The main context *)

Definition fire_source (w : watch) (failed : bool) : M unit :=
  match w with
  | ReadOf c => host_read c failed
  | WriteOf c => host_write c failed
  | ControlOf l => host_control_read l
  | AcceptOf l => host_accept fuel l
  | Controllers => host_control_accept fuel 3
  end.

(** A callback runs when its source is attached, or its signal subscribed. *)
Definition fire (r : ready) : M unit :=
  h ← the id;
  let d := h.(the_desktop) in
  let when (b : bool) (m : M unit) := if b then m else mret tt in
  match r with
  | Fires w failed => when (bool_decide (w ∈ h.(the_service).(attached))) (fire_source w failed)
  | SessionChanged i l a inv => when d.(watching) (desktop_properties i l a inv)
  | LockerChanged b => when d.(watching) (desktop_locker_changed b)
  | LockerOwnerChanged => when d.(watching) desktop_locker_owner_changed
  | SessionRemoved s => when d.(watching) (desktop_session_removed s)
  | OwnerChanged o => when d.(watching) (desktop_owner_changed o)
  | TimerFires => when d.(timer) desktop_timer
  | QueryDone o => when (bool_decide (is_Some d.(query))) (desktop_query_done (Some o))
  | QueryFailed => when (bool_decide (is_Some d.(query))) (desktop_query_done None)
  | HelperExited p => desktop_helper_exited p
  end.

(** [while (g_main_context_iteration(NULL, FALSE)) {}] *)
Definition dispatch : M unit :=
  a ← ask Ready;
  let '(l, stop) := a in
  (if stop : bool then modify (set_stopping true) else mret tt) ≫= λ _,
  each l fire.

(** ** Waiting *)

Definition scu_tick : M bool :=
  poll_backend ≫= λ _,
  dispatch ≫= λ _,
  desktop_check_lock ≫= λ _,
  s ← get;
  allowed ← (if s.(vision_request) then desktop_input_allowed else mret true);
  if negb allowed then mret false else
  s ← get;
  if s.(cancelled) || s.(stopping) then
    scu_fail (str "cancelled") scu_text_cancelled ≫= λ _, mret false
  else if s.(deadline) =? 0 then mret true
  else
    t ← ask Time;
    if s.(deadline) <? t then scu_fail (str "timeout") scu_text_timeout ≫= λ _, mret false
    else mret true.

Fixpoint pause_until (n : nat) (until : Z) : M bool :=
  match n with
  | O => out_of_fuel
  | S n =>
      ok ← scu_tick;
      if negb ok then mret false else
      ask (Sleep 1000) ≫= λ _,
      t ← ask Time;
      if t <? until then pause_until n until else mret true
  end.

Definition scu_pause (ms : Z) : M bool :=
  t ← ask Time; pause_until fuel (t + ms * 1000).

(** Until the call is done: it is cancelled after its deadline, but its answer,
    which is then an error, is still waited for. *)
Fixpoint await {A} (n : nat) (c : bus_call A) (until : Z) : M (text + A) :=
  match n with
  | O => out_of_fuel
  | S n =>
      s ← get;
      late ← (if s.(stopping) then mret true else t ← ask Time; mret (until <=? t));
      stop ← (if late : bool then mret true else ok ← scu_tick; mret (negb ok));
      (if stop : bool then ask CancelCall else mret tt) ≫= λ _,
      dispatch ≫= λ _,
      r ← ask (Finished c);
      match r with
      | Some r => mret r
      | None => ask (Sleep 1000) ≫= λ _, await n c until
      end
  end.

Definition bounded_call {A} (c : bus_call A) : M (text + A) :=
  s ← get;
  t ← ask Time;
  let until := t + 30 * USEC_PER_SEC in
  let until := if s.(deadline) =? 0 then until else Z.min until s.(deadline) in
  t ← ask Time;
  ask (StartCall c (Z.max 1 (Z.quot (until - t) 1000))) ≫= λ _,
  await fuel c until.

(** ** The login session *)

Definition good_session (p : session_properties) : bool :=
  bool_decide (p.(p_user) = Some getuid) && bool_decide (p.(p_active) = Some true) &&
  bool_decide (p.(p_remote) = Some false) && bool_decide (is_Some p.(p_locked)) &&
  strcmp p.(p_type) "wayland" && strcmp p.(p_class) "user".

Definition desktop_read_session : M (text + unit) :=
  d ← the the_desktop;
  r ← bounded_call (GetAll (default [] d.(path)));
  match r with
  | inl e => mret (inl e)
  | inr p =>
      if good_session p then
        in_desktop (λ d, set_valid true (set_lock_known true
          (set_locked (default false p.(p_locked)) d))) ≫= λ _, mret (inr tt)
      else mret (inl scu_text_desktop_session_required)
  end.

Definition desktop_output_name : text := str "Spaces-SCU-" ++ decimal getpid.

Definition bind_session (session wayland : text) : M (text + unit) :=
  bus ← ask SystemBus;
  match bus with
  | inl e => mret (inl e)
  | inr _ =>
      in_desktop (set_system true) ≫= λ _,
      p ← bounded_call (GetSession session);
      match p with
      | inl e => in_desktop (set_system false) ≫= λ _, mret (inl e)
      | inr p =>
          in_desktop (set_path (Some p)) ≫= λ _,
          r ← desktop_read_session;
          match r with
          | inl e => in_desktop (λ d, set_system false (set_path None d)) ≫= λ _, mret (inl e)
          | inr _ =>
              in_desktop (λ d, set_output_name desktop_output_name
                (set_wayland wayland (set_session (Some session) d))) ≫= λ _,
              ask Subscribe ≫= λ _,
              in_desktop (λ d, set_timer true (set_watching true d)) ≫= λ _,
              mret (inr tt)
          end
      end
  end.

Definition desktop_bind (session wayland : text) : M (text + unit) :=
  d ← the the_desktop;
  match d.(ComputerState.session) with
  | Some s =>
      if negb d.(valid) || negb (text_eqb session s) || negb (text_eqb wayland d.(ComputerState.wayland))
      then mret (inl scu_text_desktop_generation_changed) else mret (inr tt)
  | None => bind_session session wayland
  end.

Definition lock_unavailable (e : text) : M bool :=
  release_input ≫= λ _,
  scu_fail (str "desktop_session_unavailable") e ≫= λ _, mret false.

Definition desktop_refresh_lock : M bool :=
  d ← the the_desktop;
  if d.(ComputerState.session) is None then mret true
  else if negb d.(valid) then
    scu_fail (str "desktop_session_unavailable") scu_text_desktop_login_inactive ≫= λ _, mret false
  else
    r ← desktop_read_session;
    match r with
    | inl e => lock_unavailable e
    | inr _ =>
        r ← bounded_call GetActive;
        match r with
        | inl e => in_desktop (set_screen_known false) ≫= λ _, lock_unavailable e
        | inr b =>
            in_desktop (λ d, set_screen_known true (set_screen_locked b d)) ≫= λ _,
            modify (set_lock_monitor true) ≫= λ _,
            desktop_check_lock ≫= λ _, mret true
        end
    end.

Definition desktop_foreground_ready : M bool :=
  ok ← desktop_refresh_lock; if ok : bool then desktop_input_allowed else mret false.

Fixpoint wait_desktop (n : nat) (until : Z) : M bool :=
  match n with
  | O => out_of_fuel
  | S n =>
      d ← the the_desktop;
      desktop_maintain (Z.max 1 d.(desktop_clients)) ≫= λ _,
      d ← the the_desktop;
      if d.(query_ready) && negb (d.(outputs) =? 0) && negb d.(helper_stopping) then mret true else
      ok ← scu_pause 10;
      if negb ok then mret false else
      t ← ask Time;
      if t <? until then wait_desktop n until else
      d ← the the_desktop;
      scu_fail (str "virtual_display_unavailable")
        (default scu_text_desktop_output_unavailable d.(display_error)) ≫= λ _, mret false
  end.

Definition desktop_ready : M bool :=
  d ← the the_desktop;
  if d.(ComputerState.session) is None then mret true
  else if negb d.(valid) then
    scu_fail (str "desktop_session_unavailable") scu_text_desktop_login_inactive ≫= λ _, mret false
  else
    ok ← desktop_refresh_lock;
    if negb ok then mret false else
    t ← ask Time;
    d ← the the_desktop;
    (if 200000 <? t - d.(queried) then in_desktop (λ d, set_queried 0 (set_query_ready false d))
     else mret tt) ≫= λ _,
    t ← ask Time;
    s ← get;
    wait_desktop fuel (Z.min s.(deadline) (t + 5 * USEC_PER_SEC)).
End engine.

(** * The main loop of the host's service ([run_shared_host])

    One event of the queue is taken at a time: a client's request, which
    [handle_request] answers, a lease to register, or a lease to release.  What
    executes a tool is a parameter, [execute]: [ComputerTools] has [execute_tool]. *)

Section main.
Context `{Json_text} {surroundings : Surroundings} (fuel : nat).
Abbreviation M := (mcp host note).
Context (execute : Tool → value → M value).

(** [scu_mcp.h] in this program *)
#[local] Instance host_program : Program host note := {
  is_host := true;
  request_key id := k ← host_request_key id; mret (Some k);
  run_tool tool id parameters arguments := execute tool arguments;
  deliver line := host_send_line line;
  scu_invalidate := ComputerDesktop.scu_invalidate;
  get_monotonic_time := ask Time;
  pause := mret tt;
  poll_backend := ComputerDesktop.poll_backend;
}.

(** ** One event *)

Definition serve_client (c : cid) (d : option json) : M unit :=
  x ← client_at c;
  if x.(c_closed) then mret tt
  else match d with
  | Some d => handle_request (Some d)
  | None => send_error None (-32700) malformed_message
  end.

Definition call_event (c : cid) (d : option json) : M unit :=
  in_service (set_host_current (Some c)) ≫= λ _,
  serve_client c d ≫= λ _,
  in_client c (λ x, set_c_pending (u32 (x.(c_pending) - 1)) x) ≫= λ _,
  in_service (set_host_current None).

Definition ready_reply (st : option stat) : text :=
  let st := default (Stat 0 0 0 0) st in
  str "{" ++ [char 34] ++ str "ready" ++ [char 34] ++ str ":true," ++
  [char 34] ++ str "pid" ++ [char 34] ++ str ":" ++ decimal getpid ++ str "," ++
  [char 34] ++ str "device" ++ [char 34] ++ str ":" ++ decimal st.(st_dev) ++ str "," ++
  [char 34] ++ str "inode" ++ [char 34] ++ str ":" ++ decimal st.(st_ino) ++ str "}" ++ [char 10].

Definition released_reply : text :=
  str "{" ++ [char 34] ++ str "released" ++ [char 34] ++ str ":true}" ++ [char 10].

Definition accept_clients (l : lid) : M unit :=
  st ← ask ExecutableStat;
  x ← lease_at l;
  n ← ask (Send x.(l_control) (ready_reply st));
  (match n with inl _ => host_revoke l | inr _ => mret tt end) ≫= λ _,
  x ← lease_at l;
  if x.(l_revoked) then mret tt else
  in_service (set_registered_once true) ≫= λ _,
  in_lease l (set_l_accept_source true) ≫= λ _,
  attach (AcceptOf l).

Definition registration_failed (e : text) : text := str "scu: registration failed: " ++ e ++ [char 10].

Definition register_event (l : lid) : M unit :=
  x ← lease_at l;
  if x.(l_revoked) then mret tt else
  modify (set_cancelled false) ≫= λ _,
  match x.(l_session), x.(l_wayland) with
  | Some session, Some wayland =>
      r ← desktop_bind fuel session wayland;
      match r with
      | inr _ => accept_clients l
      | inl e => ask (PrintError (registration_failed e)) ≫= λ _, host_revoke l
      end
  | _, _ => undefined
  end.

Definition revoke_event (l : lid) : M unit :=
  release_input ≫= λ _,
  x ← lease_at l;
  (if 0 <=? x.(l_control) then ask (Send x.(l_control) released_reply) ≫= λ _, mret tt else mret tt) ≫= λ _,
  in_lease l (set_l_acknowledged true) ≫= λ _,
  noted (Released l).

Definition host_event_done (e : host_event) : M unit :=
  noted (Takes e) ≫= λ _,
  match e with
  | HOST_CALL c d => call_event c d
  | HOST_REGISTER l => register_event l
  | HOST_REVOKE l => revoke_event l
  end.

Definition take_event : M (option host_event) :=
  s ← the the_service;
  match s.(host_events) with
  | [] => mret None
  | e :: l => in_service (set_host_events l) ≫= λ _, mret (Some e)
  end.

(** ** One turn *)

Definition connected (s : service) (l : lid) : bool :=
  existsb (λ c, match s.(clients) !! c with
    | Some x => bool_decide (x.(c_lease) = l) && negb x.(c_closed) | None => false end) s.(host_clients).

(** A lease whose clients have all gone for two seconds is given back. *)
Definition return_idle (l : lid) : M unit :=
  x ← lease_at l;
  if (x.(l_control) <? 0) || negb x.(l_used) || x.(l_revoked) then mret tt else
  s ← the the_service;
  if connected s l then in_lease l (set_l_idle_since 0)
  else if x.(l_idle_since) =? 0 then t ← ask Time; in_lease l (set_l_idle_since t)
  else
    t ← ask Time;
    if 2 * USEC_PER_SEC <=? t - x.(l_idle_since) then host_revoke l else mret tt.

(** Whether the loop goes on. *)
Definition finished (shared : bool) (startup : Z) : M bool :=
  s ← the the_service;
  if shared && bool_decide (s.(host_leases) = []) then
    if s.(registered_once) then mret true else t ← ask Time; mret (startup <=? t)
  else mret false.

Definition host_turn (shared : bool) (startup : Z) (previous : nat) : M (option nat) :=
  dispatch fuel ≫= λ _,
  e ← take_event;
  (if e is Some e then host_event_done e else mret tt) ≫= λ _,
  s ← the the_service;
  let n := host_client_count s in
  (if negb (bool_decide (previous = 0%nat)) && bool_decide (n = 0%nat)
   then ComputerDesktop.scu_invalidate else mret tt) ≫= λ _,
  desktop_maintain (Z.of_nat n) ≫= λ _,
  ComputerDesktop.poll_backend ≫= λ _,
  s ← the the_service;
  each s.(host_leases) return_idle ≫= λ _,
  host_collect ≫= λ _,
  f ← finished shared startup;
  if f : bool then mret None else
  (if e is Some _ then mret tt else ask (Sleep 1000)) ≫= λ _,
  mret (Some n).

Fixpoint host_loop (n : nat) (shared : bool) (startup : Z) (previous : nat) : M unit :=
  match n with
  | O => out_of_fuel
  | S n =>
      s ← get;
      if s.(stopping) then mret tt else
      r ← host_turn shared startup previous;
      match r with None => mret tt | Some previous => host_loop n shared startup previous end
  end.

(** ** The end *)

Definition close_lease (l : lid) : M unit :=
  x ← lease_at l;
  (if x.(l_source) then detach (ControlOf l) else mret tt) ≫= λ _,
  (if x.(l_accept_source) then detach (AcceptOf l) else mret tt) ≫= λ _,
  (if 0 <=? x.(l_listener) then ask (Close x.(l_listener)) else mret tt) ≫= λ _,
  (if 0 <=? x.(l_control) then ask (Close x.(l_control)) else mret tt).

Definition shut_down (shared : bool) : M unit :=
  s ← the the_service;
  each s.(host_clients) host_client_close ≫= λ _,
  ComputerDesktop.scu_invalidate ≫= λ _,
  desktop_close ≫= λ _,
  ask (Foreign (str "unload_geometry_script") []) ≫= λ _,
  (if shared then detach Controllers ≫= λ _, ask (Close 3) else mret tt) ≫= λ _,
  s ← the the_service;
  each s.(host_leases) close_lease.

(** ** The start *)

(** The program of one test, on the listener of [host_listener]. *)
Definition private_lease (listener : Z) : M unit :=
  l ← allocate;
  in_service (λ s, set_host_leases (s.(host_leases) ++ [l])
    (set_leases (<[l := set_l_accept_source true (new_lease (-1) listener true)]> s.(leases)) s)) ≫= λ _,
  attach (AcceptOf l).

(** Where clients come from: [listener] is for the program of one test. *)
Definition open_service (listener : option Z) : M unit :=
  match listener with Some fd => private_lease fd | None => attach Controllers end.

(** From [initialize_host] on. *)
Definition run_shared_host (listener : option Z) : M unit :=
  open_service listener ≫= λ _,
  t ← ask Time;
  let shared := match listener with None => true | Some _ => false end in
  host_loop fuel shared (t + 10 * USEC_PER_SEC) 0 ≫= λ _,
  shut_down shared.

Definition no_service : service := Service ∅ ∅ [] [] [] None 0 false ∅ 0.
Definition no_desktop : desktop := DesktopHost None None [] [] None false false false false false false
  false false false false 0 0 0 None None 0 0 0 0.

Definition start (h : outside) : server host := {|
  images := []; code := None; hint := None; vision_request := false; lock_seen := false;
  lock_monitor := false; cancelled := false; stopping := false; deadline := 0; requests := [];
  active_id := None; modern := false; initialized := true; no_vision := false;
  cancelled_ids := ∅;
  own := Host no_service no_desktop no_visual None false None h |}.
End main.
