(* ===== verification/ComputerInput.v ===== *)
(** * The pointer and the keyboard of the host's program ([native/scu_host.c])

    How a tool gets at the session bus and at the compositor's input devices,
    clicks, presses keys and waits.  Every step of it ticks first, so that a
    cancelled call, a locked screen or a device that went ends it; what was
    pressed is released on every way out. *)

From S2P Require Import Prelude Json Catalog Results.
From S2P Require Export ComputerMain.

Section input.
Context `{Json_text} {surroundings : Surroundings} (fuel : nat).
Abbreviation M := (mcp host note).

Definition scu_text_kwin_disconnected : text :=
  str "KWin computer use disconnected. Inspect status before continuing; no action was replayed.".
Definition scu_text_session_bus_unavailable : text := str "The host session bus is unavailable.".
Definition scu_text_input_device_removed : text :=
  str "The input device was removed or paused during the action.".
Definition scu_text_input_device_unavailable : text :=
  str "The granted EIS session has no resumed device for this input operation.".
Definition scu_text_pointer_seat_unavailable : text :=
  str "The pointer's input seat has no compatible resumed device.".
Definition scu_text_keyboard_map_unavailable : text :=
  str "The compositor did not supply a usable XKB keyboard map.".
Definition scu_text_key_unavailable : text :=
  str "A requested key is absent from the compositor's keyboard map. No key was pressed.".
Definition scu_text_shift_unavailable : text := str "Shift is unavailable in the keyboard map.".
Definition scu_text_key_chord_limit : text := str "Too many keys in this chord.".
Definition scu_text_input_dependencies : text :=
  str "Install host libei, libxkbcommon and GdkPixbuf libraries.".
Definition scu_text_kwin_eis_connect_failed : text := str "Could not connect to KWin EIS.".
Definition scu_text_kwin_pointer_unavailable : text := str "KWin EIS did not resume a pointer device.".
Definition scu_text_library_missing (library : text) : text :=
  str "Missing library " ++ library ++ str ". Install the package for it.".

(** [scu_fail], and [FALSE] or [NULL]. *)
Definition fail (c : string) (h : text) : M bool := scu_fail (str c) h ≫= λ _, mret false.

Definition scu_action (route : string) (confirmed : bool) (summary : text) : json :=
  let r := result_string result_object (str "route") (Some (str route)) in
  if confirmed then
    result_member r (str "evidence") (result_append result_array
      (result_string (result_string result_object (str "kind") (Some (str "value_readback")))
        (str "detail") (Some summary)))
  else r.

(** ** Access *)

Definition require_computer_access : M bool :=
  v ← the the_visual;
  if v.(broken) then
    ComputerDesktop.scu_invalidate ≫= λ _,
    fail "computer_use_disconnected" scu_text_kwin_disconnected
  else
    closed ← ask SessionBusClosed;
    if closed : bool then fail "computer_use_unavailable" scu_text_session_bus_unavailable else
    in_visual (set_visual_bus true) ≫= λ _, scu_tick fuel.

Definition visual_step : M bool :=
  ok ← scu_tick fuel;
  if negb ok then mret false else
  ok ← require_computer_access;
  if negb ok then mret false else
  v ← the the_visual;
  if v.(broken) then mret false else desktop_input_allowed.

(** It pauses at most 10 ms at a time. *)
Fixpoint delay_until (n : nat) (until : Z) : M bool :=
  match n with
  | O => out_of_fuel
  | S n =>
      t ← ask Time;
      if until <=? t then mret true else
      t ← ask Time;
      ok ← scu_pause fuel (Z.min 10 (Z.max 0 (Z.quot (until - t + 999) 1000)));
      if negb ok then mret false else
      ok ← require_computer_access;
      if negb ok then mret false else delay_until n until
  end.

Definition wait_for_delay (ms : Z) : M bool :=
  t ← ask Time; delay_until fuel (t + ms * 1000).

(** ** Devices *)

Definition resumed_now (d : Z) (v : visual) : bool :=
  existsb (λ x, (x.(raw) =? d) && x.(resumed)) (default [] v.(devices)).

Definition device_resumed (d : Z) : M bool :=
  v ← the the_visual;
  if v.(devices) is None then mret false
  else if resumed_now d v then mret true
  else fail "input_unavailable" scu_text_input_device_removed.

Fixpoint first_device (good : device → M bool) (l : list device) : M (option device) :=
  match l with
  | [] => mret None
  | x :: l => b ← good x; if b : bool then mret (Some x) else first_device good l
  end.

Definition capable_device (c : capability) : M (option device) :=
  v ← the the_visual;
  first_device (λ x, if x.(resumed) then ask (Capable x.(raw) c) else mret false) (default [] v.(devices)).

Fixpoint find_device (n : nat) (c : capability) (until : Z) : M (option device) :=
  match n with
  | O => out_of_fuel
  | S n =>
      x ← capable_device c;
      match x with
      | Some x => mret (Some x)
      | None =>
          t ← ask Time;
          if until <=? t then
            fail "input_unavailable" scu_text_input_device_unavailable ≫= λ _, mret None
          else
            ok ← visual_step;
            if negb ok then mret None else
            ok ← scu_pause fuel 5;
            if negb ok then mret None else find_device n c until
      end
  end.

Definition wait_for_device (c : capability) : M (option device) :=
  t ← ask Time; find_device fuel c (t + 3 * USEC_PER_SEC).

Definition seat_device (pointer : Z) (c : capability) : M (option device) :=
  v ← the the_visual;
  let l := default [] v.(devices) in
  x ← first_device (λ x, if (x.(raw) =? pointer) && x.(resumed) then ask (Capable pointer c) else mret false) l;
  if x is Some x then mret (Some x) else
  x ← first_device (λ x, if x.(resumed) then
    same ← ask (SameSeat x.(raw) pointer); if same : bool then ask (Capable x.(raw) c) else mret false
    else mret false) l;
  if x is Some x then mret (Some x) else
  fail "input_unavailable" scu_text_pointer_seat_unavailable ≫= λ _, mret None.

(** ** Pressing *)

(** What is pressed is recorded with whether input was allowed then. *)
Definition press (d : Z) (r : request unit) : M unit :=
  s ← get;
  noted (Presses d (input_open s)) ≫= λ _, on_device d r.

Definition hold_button (d button : Z) : M unit :=
  press d (Button d button true) ≫= λ _,
  input_frame d ≫= λ _,
  in_visual (λ v, set_held_button button (set_held_device (Some d) v)).

Fixpoint click_pointer (d button : Z) (count : nat) : M bool :=
  match count with
  | O => mret true
  | S count =>
      ok ← visual_step;
      if negb ok then mret false else
      ok ← device_resumed d;
      if negb ok then mret false else
      hold_button d button ≫= λ _,
      ok ← scu_pause fuel 20;
      if negb ok then release_input ≫= λ _, mret false else
      release_input ≫= λ _,
      ok ← (if (0 <? count)%nat then scu_pause fuel 60 else mret true);
      if negb ok then mret false else click_pointer d button count
  end.

(** The length of [held_keys]: what is written beyond it is undefined. *)
Definition HELD_KEYS : nat := 8.

Fixpoint press_keys (d : Z) (codes : list Z) : M unit :=
  match codes with
  | [] => mret tt
  | k :: codes =>
      press d (Key d k true) ≫= λ _,
      input_frame d ≫= λ _,
      v ← the the_visual;
      (if decide (length v.(held_keys) < HELD_KEYS)%nat
       then in_visual (λ v, set_held_keys (k :: v.(held_keys)) v) else undefined) ≫= λ _,
      press_keys d codes
  end.

(** [press_codes], where [verify] is [verify_target_input]. *)
Definition press_codes_with (verify : M bool) (d : Z) (codes : list Z) : M bool :=
  if bool_decide (codes = []) || bool_decide (HELD_KEYS < length codes)%nat then mret false else
  ok ← visual_step;
  if negb ok then mret false else
  ok ← device_resumed d;
  if negb ok then mret false else
  ok ← verify;
  if negb ok then mret false else
  in_visual (set_keyboard_device (Some d)) ≫= λ _,
  press_keys d codes ≫= λ _,
  ok ← scu_pause fuel 10;
  release_input ≫= λ _, mret ok.

(** One chunk of text, where the device takes text. *)
Definition submit_text (verify : M bool) (d : Z) (chunk : text) : M bool :=
  ok ← visual_step;
  if negb ok then mret false else
  ok ← device_resumed d;
  if negb ok then mret false else
  ok ← verify;
  if negb ok then mret false else
  press d (Utf8 d chunk) ≫= λ _, input_frame d ≫= λ _, mret true.

(** ** The session *)

Definition visual_libs : list text :=
  [str "libei.so.1"; str "libxkbcommon.so.0"; str "libgdk_pixbuf-2.0.so.0"].

Fixpoint load_libraries (l : list text) : M bool :=
  match l with
  | [] => mret true
  | x :: l =>
      ok ← ask (ScuLibrary x);
      if ok : bool then load_libraries l else fail "missing_dependency" (scu_text_library_missing x)
  end.

Fixpoint wait_pointer (n : nat) (until : Z) : M bool :=
  match n with
  | O => out_of_fuel
  | S n =>
      t ← ask Time;
      if until <=? t then fail "input_unavailable" scu_text_kwin_pointer_unavailable else
      ok ← scu_pause fuel 5;
      if negb ok then mret false else
      x ← capable_device POINTER_ABSOLUTE;
      if x is Some _ then scu_pause fuel 20 else wait_pointer n until
  end.

Definition open_input : M bool :=
  ask DisconnectInput ≫= λ _,
  r ← bounded_call fuel ConnectToEis;
  match r with
  | inl e => ask DisconnectInput ≫= λ _, fail "input_unavailable" e
  | inr fd =>
      ask NewSender ≫= λ _,
      in_visual (λ v, set_devices (Some []) (set_visual_input true v)) ≫= λ _,
      ok ← ask (SetupBackend fd);
      if ok : bool then t ← ask Time; wait_pointer fuel (t + 3 * USEC_PER_SEC)
      else ask (Close fd) ≫= λ _, fail "input_unavailable" scu_text_kwin_eis_connect_failed
  end.

(** [refresh_geometry] *)
Definition ensure_visual_session (refresh_geometry : M bool) : M bool :=
  ok ← require_computer_access;
  if negb ok then mret false else
  ok ← desktop_ready fuel;
  if negb ok then mret false else
  ok ← refresh_geometry;
  if negb ok then mret false else
  v ← the the_visual;
  if v.(visual_input) then mret true else
  ok ← load_libraries visual_libs;
  if negb ok then mret false else
  ok ← ask LoadVisualLibraries;
  if negb ok then fail "missing_dependency" scu_text_input_dependencies else open_input.
End input.

(** * Keys and text ([native/scu_host.c])

    Keys are looked up in the map that the compositor gives for its keyboard.  A
    chord becomes the codes to press, each of them once; text becomes chunks for
    a device that takes text, or one chord for each character. *)

(** ** The map *)

Record KeyStroke := { stroke_code : Z; stroke_shift : bool }.

Record KeyboardMap := { km : keymap; state : device }.

(** [for (code = from; code <= to; code++)], the first that has the symbol. *)
Fixpoint search_code (has : Z → bool) (n : nat) (from : Z) : option Z :=
  match n with
  | O => None
  | S n => if has from then Some from else search_code has n (from + 1)
  end.

Definition lookup_level (m : KeyboardMap) (symbol : Z) (level : bool) : option KeyStroke :=
  let k := m.(km) in
  let d := m.(ComputerInput.state) in
  let has mods code := one_sym k mods d.(latched) d.(mods_locked) d.(group) code =? symbol in
  let from := Z.max 8 k.(min_keycode) in
  let n := Z.to_nat (Z.min k.(max_keycode) 767 - from + 1) in
  match level, k.(shift_index) with
  | false, _ =>
      (λ code, {| stroke_code := code - 8; stroke_shift := false |}) <$>
        search_code (has d.(depressed)) n from
  | true, None => None
  | true, Some shift =>
      (λ code, {| stroke_code := code - 8; stroke_shift := true |}) <$>
        search_code (has (Z.lor d.(depressed) (u32 (Z.shiftl 1 shift)))) n from
  end.

Definition lookup_keysym (m : KeyboardMap) (symbol : Z) : option KeyStroke :=
  match lookup_level m symbol false with
  | Some s => Some s
  | None => lookup_level m symbol true
  end.

Definition XKB_KEY_NoSymbol : Z := 0.
Definition XKB_KEY_Shift_L : Z := 0xffe1.

Definition key_aliases : list (string * string) := [
  ("enter", "Return"); ("return", "Return"); ("esc", "Escape"); ("escape", "Escape");
  ("ctrl", "Control_L"); ("control", "Control_L"); ("shift", "Shift_L"); ("alt", "Alt_L");
  ("super", "Super_L"); ("meta", "Super_L"); ("win", "Super_L"); ("pageup", "Prior");
  ("pagedown", "Next"); ("space", "space")]%string.

(** [g_ascii_strcasecmp(a, b) == 0] *)
Definition lower (c : ascii) : ascii := if (65 <=? Prelude.code c) && (Prelude.code c <=? 90) then char (Prelude.code c + 32) else c.
Definition same_letters (a b : text) : bool := text_eqb (lower <$> a) (lower <$> b).

Section keys.
Context `{Json_text} {surroundings : Surroundings} (fuel : nat).
Abbreviation M := (mcp host note).

Definition named_keysym (name : text) : Z :=
  match find (λ a, same_letters name (str a.1)) key_aliases with
  | Some a => keysym_from_name (str a.2) false
  | None =>
      let symbol := keysym_from_name name true in
      if symbol =? XKB_KEY_NoSymbol then
        match utf8_character name with Some c => utf32_to_keysym c | None => symbol end
      else symbol
  end.

(** ** Chords *)

(** A code is pressed once. *)
Definition add_code (codes : list Z) (code : Z) : option (list Z) :=
  if decide (code ∈ codes) then Some codes
  else if decide (length codes < HELD_KEYS)%nat then Some (codes ++ [code]) else None.

Definition add_stroke (m : KeyboardMap) (codes : list Z) (s : KeyStroke) : text * text + list Z :=
  let limit r := match r with Some l => inr l | None => inl (str "invalid_arguments", scu_text_key_chord_limit) end in
  if s.(stroke_shift) then
    match lookup_keysym m XKB_KEY_Shift_L with
    | None => inl (str "unsupported_key", scu_text_shift_unavailable)
    | Some shift => limit (add_code codes shift.(stroke_code) ≫= λ l, add_code l s.(stroke_code))
    end
  else limit (add_code codes s.(stroke_code)).

Definition add_key (m : KeyboardMap) (codes : list Z) (name : text) : text * text + list Z :=
  let symbol := named_keysym name in
  match (if symbol =? XKB_KEY_NoSymbol then None else lookup_keysym m symbol) with
  | None => inl (str "unsupported_key", scu_text_key_unavailable)
  | Some s => add_stroke m codes s
  end.

Fixpoint chord (m : KeyboardMap) (codes : list Z) (names : list text) : text * text + list Z :=
  match names with
  | [] => inr codes
  | n :: names =>
      match add_key m codes n with
      | inl e => inl e
      | inr codes => chord m codes names
      end
  end.

Definition load_keyboard_map (d : Z) : M (option KeyboardMap) :=
  k ← ask (Keymap d);
  v ← the the_visual;
  mret (k ≫= λ k, Some {| km := k; state :=
    default (Device d false 0 0 0 0) (find (λ x, x.(raw) =? d) (default [] v.(devices))) |}).

(** [names] has room for six.  A name that is no string is [NULL], which
    [named_keysym] does not take.  The catalog's schema refuses both. *)
Definition MAX_NAMES : nat := 6.

Definition key_names (arguments : value) : option (list text) :=
  let l := elements (json_member arguments (str "keys")) in
  if decide (length l ≤ MAX_NAMES)%nat then mapM (λ x, yyjson_get_str (Some x)) l else None.

Section target.
Context (verify : M bool).

Definition keyboard_action (arguments : value) : M value :=
  x ← wait_for_device fuel KEYBOARD;
  match x with
  | None => mret None
  | Some x =>
      m ← load_keyboard_map x.(raw);
      match m, key_names arguments with
      | None, _ => scu_fail (str "keyboard_mapping_unavailable") scu_text_keyboard_map_unavailable
      | Some _, None => undefined
      | Some m, Some names =>
          match chord m [] names with
          | inl (c, h) => scu_fail c h
          | inr codes =>
              ok ← press_codes_with fuel verify x.(raw) codes;
              mret (if ok : bool then Some (scu_action "global_input" false []) else None)
          end
      end
  end.

(** ** Text *)

(** [g_utf8_next_char] of a character's first byte *)
Definition utf8_skip (c : ascii) : nat :=
  let c := Prelude.code c in
  if c <? 0xc0 then 1 else if c <? 0xe0 then 2 else if c <? 0xf0 then 3
  else if c <? 0xf8 then 4 else if c <? 0xfc then 5 else if c <? 0xfe then 6 else 1.

(** How many bytes the next chunk has: whole characters, at most [most] bytes. *)
Fixpoint chunk_length (n most : nat) (s : text) : nat :=
  match n, s with
  | S n, c :: _ =>
      let k := utf8_skip c in
      if decide (k ≤ most)%nat then (k + chunk_length n (most - k) (drop k s))%nat else O
  | _, _ => O
  end.

Definition CHUNK : nat := 240.

Definition next_chunk (s : text) : text := take (chunk_length (length s) CHUNK s) s.

Fixpoint submit_chunks (n : nat) (d : Z) (s : text) : M bool :=
  match n, s with
  | _, [] => mret true
  | O, _ => out_of_fuel
  | S n, _ =>
      ok ← submit_text fuel verify d (next_chunk s);
      if ok : bool then submit_chunks n d (drop (length (next_chunk s)) s) else mret false
  end.

Definition type_utf8 (d : Z) (s : text) : M value :=
  ok ← submit_chunks (length s) d s;
  mret (if ok : bool then Some (scu_action "global_input" false []) else None).
End target.
End keys.
