(* ===== verification/ComputerTools.v ===== *)
(** * The tools of the host's program ([native/scu_host.c])

    [execute_tool] with the batches of [vision] and [accessibility], and what
    they run: delays, the keyboard, text, and the check of the element that text
    goes to.  What a tool does with AT-SPI, with the compositor's geometry and its
    images, and the samples of the pointer's movements, is not modelled: such a
    tool is [work], any program of the steps that these tools take. *)

From S2P Require Import Prelude Glib TreeDiff Json Catalog Results.
From S2P Require Export ComputerInput.

(** ** What a tool does *)

Section work.
Context {surroundings : Surroundings}.

Inductive step : Type → Type :=
  | Tick : step bool                        (** [scu_tick] *)
  | Pause (ms : Z) : step bool
  | Delay (ms : Z) : step bool
  | Access : step bool                      (** [require_computer_access] *)
  | VisualStep : step bool
  | RefreshLock : step bool
  | InputAllowed : step bool
  | ForegroundReady : step bool
  | DesktopReady : step bool
  | EnsureSession : step bool               (** [ensure_visual_session] *)
  | Release : step unit
  | StopWorker : step unit
  | StartWorker (w : worker_process) : step unit
  | Break : step unit                       (** [visual.broken = TRUE] *)
  | Fail (c h : text) : step value
  | ClearError : step unit
  | SetImages (l : list json) : step unit
  | Look : step (server host)
  | Now : step Z
  | Query (what : text) (arguments : list json) : step (list json)
  | WaitDevice (c : capability) : step (option device)
  | SeatDevice (pointer : Z) (c : capability) : step (option device)
  | Move (d : Z) : step bool
  | ScrollBy (d dx dy : Z) : step bool
  | Hold (d button : Z) : step bool
  | Click (d button : Z) (count : nat) : step bool
  | PressCodes (d : Z) (codes : list Z) : step bool
  | SubmitText (d : Z) (chunk : text) : step bool
  | Target (t : option (value * value)) : step unit.   (** [target_input_arguments] and its window *)

Inductive work (A : Type) : Type :=
  | Done (x : A)
  | Then {B : Type} (s : step B) (k : B → work A).

(** The parts of [scu_host.c] that are not modelled. *)
Class Tools := {
  scu_status (observation : bool) : work value;
  search_applications (arguments : value) : work value;
  launch_application (arguments : value) : work value;
  scu_atspi (tool : text) (arguments : value) : work value;
  pointer_action (tool : text) (arguments : value) : work value;
  type_target_value (tool : text) (arguments : value) (numeric : bool) : work value;   (** after its first line *)
  paste_text (d : Z) (m : KeyboardMap) (s : text) : work bool;
  refresh_geometry : work bool;
  start_atspi_worker : work bool;
  worker_exchange (tool : text) (arguments : value) : work value;   (** a request to it and its answer *)
  target_window_active (window : value) : work bool;   (** the one window that matches it *)
  capture_desktop : work value;
  observe_window (arguments : value) (screenshot : bool) : work value;
}.
End work.
Arguments work {surroundings} A.
Arguments Done {surroundings A}.
Arguments Then {surroundings A B}.

Section tools.
Context `{Json_text} {G : GLib} {surroundings : Surroundings} {parts : Tools} (fuel : nat).
Abbreviation M := (mcp host note).

(** What follows [device_resumed]. *)
Definition when_resumed (d : Z) (m : M unit) : M bool :=
  ok ← device_resumed d;
  if negb ok then mret false else m ≫= λ _, mret true.

Definition clear_tool_error : M unit := modify (set_error None None).

(** [verify] is [verify_target_input] and [ensure] [ensure_visual_session]. *)
Definition do_step (verify ensure : M bool) {A} (s : step A) : M A :=
  match s with
  | Tick => scu_tick fuel
  | Pause ms => scu_pause fuel ms
  | Delay ms => wait_for_delay fuel ms
  | Access => require_computer_access fuel
  | VisualStep => visual_step fuel
  | RefreshLock => desktop_refresh_lock fuel
  | InputAllowed => desktop_input_allowed
  | ForegroundReady => desktop_foreground_ready fuel
  | DesktopReady => desktop_ready fuel
  | EnsureSession => ensure
  | Release => release_input
  | StopWorker => stop_atspi_worker
  | StartWorker w => change (set_worker (Some w))
  | Break => in_visual (set_broken true)
  | Fail c h => scu_fail c h
  | ClearError => clear_tool_error
  | SetImages l => modify (set_images l)
  | Look => get
  | Now => ask Time
  | Query what arguments => ask (Foreign what arguments)
  | WaitDevice c => wait_for_device fuel c
  | SeatDevice d c => seat_device d c
  | Move d => when_resumed d (on_device d (Motion d) ≫= λ _, input_frame d)
  | ScrollBy d dx dy => when_resumed d (on_device d (Scroll d dx dy) ≫= λ _, input_frame d)
  | Hold d button =>
      ok ← visual_step fuel;
      if negb ok then mret false else when_resumed d (hold_button d button)
  | Click d button count => click_pointer fuel d button count
  | PressCodes d codes => press_codes_with fuel verify d codes
  | SubmitText d chunk => submit_text fuel verify d chunk
  | Target t => change (set_target_input t)
  end.

Fixpoint do_with (verify ensure : M bool) {A} (w : work A) : M A :=
  match w with
  | Done x => mret x
  | Then s k => x ← do_step verify ensure s; do_with verify ensure (k x)
  end.

(** ** The element that text goes to *)

(** What gives no input to a target and opens no session itself. *)
Definition do_plain {A} : work A → M A := do_with (mret true) (mret true).

Definition atspi_worker_call (tool : text) (arguments : value) : M value :=
  ready ← (if text_eqb tool (str "target_input_prepare") || text_eqb tool (str "target_input_select")
           then desktop_foreground_ready fuel else mret true);
  if negb ready then mret None else
  ok ← do_plain start_atspi_worker;
  if negb ok then mret None else
  s ← get;
  modify (set_vision_request false) ≫= λ _,
  r ← do_plain (worker_exchange tool arguments);
  modify (set_vision_request s.(vision_request)) ≫= λ _,
  s' ← get;
  if s.(vision_request) && s'.(lock_seen)
  then scu_fail (str "desktop_locked") desktop_locked_warning else mret r.

Definition scu_text_target_window_inactive : text :=
  str "The target is not in the uniquely matched active window. No further keyboard input was sent.".

Definition verify_target_input : M bool :=
  t ← the target_input;
  match t with
  | None => mret true
  | Some (arguments, window) =>
      ok ← visual_step fuel;
      if negb ok then mret false else
      ok ← do_plain refresh_geometry;
      if negb ok then mret false else
      active ← do_plain (target_window_active window);
      if negb active then
        scu_fail (if json_boolean arguments (str "numeric") then str "value_focus_changed"
                  else str "text_focus_changed") scu_text_target_window_inactive ≫= λ _, mret false
      else
      r ← atspi_worker_call (str "target_input_verify") arguments;
      match r with Some _ => noted Verified ≫= λ _, mret true | None => mret false end
  end.

Definition do {A} : work A → M A :=
  do_with verify_target_input (ensure_visual_session fuel (do_plain refresh_geometry)).

Definition press_codes : Z → list Z → M bool := press_codes_with fuel verify_target_input.

(** ** Text *)

(** [g_utf8_get_char] *)
Fixpoint continuation (n : nat) (s : text) (value : Z) : Z :=
  match n, s with
  | O, _ => value
  | S n, c :: s =>
      if Z.land (Prelude.code c) 0xc0 =? 0x80
      then continuation n s (Z.lor (Z.shiftl value 6) (Z.land (Prelude.code c) 0x3f)) else u32 (-1)
  | S _, [] => u32 (-1)
  end.

Definition utf8_get_char (s : text) : Z :=
  match s with
  | [] => 0
  | c :: l =>
      let k := utf8_skip c in
      let c := Prelude.code c in
      if c <? 0x80 then c
      else if (c <? 0xc0) || (0xfe <=? c) then u32 (-1)
      else continuation (k - 1) l (Z.land c (2 ^ Z.of_nat (7 - k) - 1))
  end.

(** The strokes of a text whose characters the keyboard all has. *)
Fixpoint strokes (m : KeyboardMap) (n : nat) (s : text) : option (list KeyStroke) :=
  match n, s with
  | S n, c :: _ =>
      k ← lookup_keysym m (utf32_to_keysym (utf8_get_char s));
      l ← strokes m n (drop (utf8_skip c) s);
      Some (k :: l)
  | _, _ => Some []
  end.

Fixpoint press_strokes (d : Z) (shift : KeyStroke) (l : list KeyStroke) : M bool :=
  match l with
  | [] => mret true
  | k :: l =>
      let codes := if k.(stroke_shift) then [shift.(stroke_code); k.(stroke_code)] else [k.(stroke_code)] in
      ok ← press_codes d codes;
      if negb ok then mret false else press_strokes d shift l
  end.

Definition clipboard_replaced : text :=
  str "Clipboard and primary selection text replaced.".

Definition type_keys (d : Z) (s : text) : M value :=
  m ← load_keyboard_map d;
  match m with
  | None => scu_fail (str "keyboard_mapping_unavailable") scu_text_keyboard_map_unavailable
  | Some m =>
      match strokes m (length s) s, lookup_keysym m XKB_KEY_Shift_L with
      | Some l, Some shift =>
          ok ← press_strokes d shift l;
          mret (if ok : bool then Some (scu_action "global_input" false []) else None)
      | _, _ =>
          ok ← do (paste_text d m s);
          mret (if ok : bool then
            Some (result_string (result_string (scu_action "global_input" false []) (str "route")
              (Some (str "clipboard_paste"))) (str "warning") (Some clipboard_replaced))
            else None)
      end
  end.

Definition type_foreground_text (arguments : value) : M value :=
  match json_string arguments (str "text") with
  | None => undefined
  | Some [] => mret (Some (scu_action "global_input" false []))
  | Some s =>
      x ← capable_device TEXT;
      match x with
      | Some x => type_utf8 fuel verify_target_input x.(raw) s
      | None =>
          x ← wait_for_device fuel KEYBOARD;
          if x is Some x then type_keys x.(raw) s else mret None
      end
  end.

(** ** One tool *)

Definition scu_visual (tool : text) (arguments : value) : M value :=
  ok ← desktop_foreground_ready fuel;
  if negb ok then mret None else
  ok ← ensure_visual_session fuel (do_plain refresh_geometry);
  if negb ok then mret None else
  ok ← visual_step fuel;
  if negb ok then mret None else
  if text_eqb tool (str "press_keys") then keyboard_action fuel verify_target_input arguments
  else if text_eqb tool (str "type_text") then type_foreground_text arguments
  else
    r ← do (pointer_action tool arguments);
    (if r is None then release_input else mret tt) ≫= λ _, mret r.

Definition keyboard_locked_warning : text :=
  str "This control requires keyboard input, which is unavailable while the screen is locked.".

Definition element_tool (tool : text) (arguments : value) : M value :=
  r ← do (scu_atspi tool arguments);
  if truth r "keyboard_required" then
    change (set_keyboard_fallback true) ≫= λ _,
    r ← do (type_target_value tool arguments (truth r "numeric"));
    s ← get;
    (if bool_decide (r = None) && strcmp s.(code) "desktop_locked"
     then modify (set_error s.(code) (Some keyboard_locked_warning)) else mret tt) ≫= λ _,
    mret r
  else mret r.

Definition execute_with (batch : Tool → value → M value) (t : Tool) (arguments : value) : M value :=
  ok ← scu_tick fuel;
  if negb ok then mret None
  else if text_eqb t.(name) (str "status") then do (scu_status (json_boolean arguments (str "observation")))
  else if negb (t.(Catalog.batch) =? BATCH_NONE) then batch t arguments
  else
    ok ← require_computer_access fuel;
    if negb ok then mret None else
    ok ← desktop_refresh_lock fuel;
    if negb ok then mret None
    else if text_eqb t.(name) (str "search_applications") then do (search_applications arguments)
    else if text_eqb t.(name) (str "launch_application") then do (launch_application arguments)
    else if text_eqb t.(name) (str "delay_ms") then
      ok ← wait_for_delay fuel (u32 (truncate (json_number arguments (str "ms") (double_of_int 0))));
      mret (if ok : bool then Some result_object else None)
    else if text_eqb t.(name) (str "set_value") || bool_decide (is_Some (json_member arguments (str "element_id")))
    then element_tool t.(name) arguments
    else scu_visual t.(name) arguments.

(** A step of a batch is no batch. *)
Definition execute_step : Tool → value → M value := execute_with (λ _ _, undefined).
End tools.

(** * Batches of actions ([run_batch] of [native/scu_host.c])

    [vision] and [accessibility] take a list of steps.  All are checked before
    the first has an effect; they run in order up to the first that fails; an
    observation follows, which does not change what was counted; and nothing of
    a screen that locked meanwhile is given away. *)

Section batch.
Context `{Json_text} {G : GLib} {surroundings : Surroundings} {parts : Tools} (fuel : nat).
Abbreviation M := (mcp host note).

Definition scu_text_batch_step_invalid : text :=
  str "Each step must be {tool,args} naming an action supported by this batch tool.".
Definition scu_text_visual_session_closed : text := str "Visual session disconnected during the batch.".
Definition scu_text_tree_unchanged : text := str "No Changes." ++ [char 10].

(** ** Before the first step *)

Fixpoint preflight (kind : Z) (steps : list json) : M (option (list (Tool * value))) :=
  match steps with
  | [] => mret (Some [])
  | x :: steps =>
      let arguments := json_member (Some x) (str "args") in
      match find_action kind (json_string (Some x) (str "tool")) with
      | Some t =>
          if negb (bool_decide (length (members (Some x)) = 2%nat)) || negb (yyjson_is_obj arguments)
          then fail "invalid_arguments" scu_text_batch_step_invalid ≫= λ _, mret None else
          ok ← validate_call t arguments;
          if negb ok then mret None else
          l ← preflight kind steps;
          mret (cons (t, arguments) <$> l)
      | None => fail "invalid_arguments" scu_text_batch_step_invalid ≫= λ _, mret None
      end
  end.

(** ** The steps *)

Record progress := Progress {
  completed : Z; failed : bool; foreground : bool; previous_delay : bool;
  result : json; warnings : json;
}.

Definition batch_failure (code hint : option text) (index : Z) (t : Tool) : json :=
  result_string (result_integer (error_payload code hint) (str "index") index) (str "tool") (Some t.(name)).

Definition with_warning (warnings : json) (index : Z) (t : Tool) (v : value) : json :=
  match json_member v (str "warning") with
  | Some w =>
      result_append warnings (result_member (result_string (result_integer result_object (str "index") index)
        (str "tool") (Some t.(name))) (str "warning") w)
  | None => warnings
  end.

Fixpoint run_steps (l : list (Tool * value)) (index : Z) (p : progress) : M progress :=
  match l with
  | [] => mret p
  | (t, arguments) :: l =>
      let delay := text_eqb t.(name) (str "delay_ms") in
      let attempted := p.(foreground) ||
        (negb delay && bool_decide (json_member arguments (str "element_id") = None)) in
      change (set_keyboard_fallback false) ≫= λ _,
      go ← (if (index =? 0) || delay || p.(previous_delay) then mret true else wait_for_delay fuel 150);
      v ← (if go : bool then execute_step fuel t arguments else mret None);
      h ← the id;
      let attempted := attempted || h.(keyboard_fallback) in
      match v with
      | None =>
          release_input ≫= λ _,
          s ← get;
          clear_tool_error ≫= λ _,
          mret (Progress p.(completed) true attempted false
            (result_member p.(result) (str "failed") (batch_failure s.(code) s.(hint) index t)) p.(warnings))
      | Some v =>
          run_steps l (index + 1) (Progress (p.(completed) + 1) p.(failed) attempted delay p.(result)
            (with_warning p.(warnings) index t (Some v)))
      end
  end.

(** ** The observation *)

Definition compact_observation (observation : json) : json :=
  foldl (λ r k, match json_member (Some observation) (str k) with
    | Some v => result_member r (str k) v | None => r end) result_object ["width"; "height"]%string.

Definition current_error : M json := s ← get; mret (error_payload s.(code) s.(hint)).

(** [inl] ends the observation. *)
Definition failed_observation (item : json) : M json :=
  e ← current_error;
  clear_tool_error ≫= λ _, mret (result_append result_array (result_member item (str "error") e)).

Definition observe_desktop (requested : value) (p : progress) : M (json * bool + json * bool) :=
  late ← (if p.(previous_delay) then mret false else ok ← wait_for_delay fuel 300; mret (negb ok));
  ready ← (if late : bool then release_input ≫= λ _, mret false else
    v ← the the_visual;
    if v.(broken) || (p.(failed) && p.(foreground) && negb v.(visual_bus))
    then fail "visual_session_closed" scu_text_visual_session_closed
    else ensure_visual_session fuel (do_plain fuel refresh_geometry));
  if negb ready then
    let item := match yyjson_is_obj requested, json_member requested (str "window") with
      | true, Some w => result_member result_object (str "window_id") w | _, _ => result_object end in
    l ← failed_observation item; mret (inl (l, true))
  else match requested with
  | Some _ => mret (inr (result_array, p.(failed)))
  | None =>
      v ← do fuel capture_desktop;
      match v with
      | Some v => mret (inr (result_append result_array (compact_observation v), p.(failed)))
      | None => l ← failed_observation result_object; mret (inr (l, true))
      end
  end.

Definition window_item (id : Z) : json := result_integer result_object (str "window_id") id.

(** The disjunction of the checks before a window is read. *)
Definition window_ready (accessibility : bool) (p : progress) : M bool :=
  ok ← (if accessibility && negb (p.(completed) =? 0) && negb p.(previous_delay)
        then wait_for_delay fuel 300 else mret true);
  if negb ok then mret false else
  ok ← scu_tick fuel;
  if negb ok then mret false else
  ok ← require_computer_access fuel;
  if negb ok then mret false else desktop_refresh_lock fuel.

Definition observe_requested (accessibility : bool) (requested : value) (p : progress)
    (observations : json) (failed : bool) : M (json * bool) :=
  if negb (yyjson_is_obj requested) then mret (observations, failed) else
  let id := yyjson_get_sint (json_member requested (str "window")) in
  let append l := foldl result_append observations (elements (Some l)) in
  ok ← window_ready accessibility p;
  if negb ok then l ← failed_observation (window_item id); mret (append l, true) else
  ok ← do_plain fuel refresh_geometry;
  v ← (if ok : bool then do fuel (observe_window (Some (window_item id)) (negb accessibility)) else mret None);
  match v with
  | Some v =>
      mret (result_append observations v,
        failed || bool_decide (is_Some (json_member (Some v) (str "screenshot_error"))))
  | None => l ← failed_observation (window_item id); mret (append l, true)
  end.

(** [!accessibility && (scu.lock_seen || !desktop_foreground_ready())] *)
Definition screen_hidden (accessibility : bool) : M bool :=
  if accessibility then mret false else
  s ← get;
  if s.(lock_seen) then mret true else ok ← desktop_foreground_ready fuel; mret (negb ok).

Definition observe (accessibility : bool) (requested : value) (p : progress) : M (json * bool) :=
  hidden ← screen_hidden accessibility;
  if hidden || yyjson_is_false requested then mret (result_array, p.(failed)) else
  r ← (if accessibility then mret (inr (result_array, p.(failed))) else observe_desktop requested p);
  match r with
  | inl x => mret x
  | inr (l, failed) => observe_requested accessibility requested p l failed
  end.

(** ** After the observation *)

Definition locked_failure (lock_seen : bool) (result error : json) : json :=
  match json_member (Some result) (str "failed") with
  | None => result_member result (str "failed") error
  | Some failure =>
      if lock_seen then
        result_member result (str "failed") (result_string (result_string failure (str "code")
          (Some (str "desktop_locked"))) (str "hint") (Some desktop_locked_warning))
      else result
  end.

(** Nothing of a hidden screen is in the result. *)
Definition hide (accessibility : bool) (result : json) (failed : bool) : M (json * bool) :=
  hidden ← screen_hidden accessibility;
  if negb hidden then mret (result, failed) else
  release_input ≫= λ _,
  modify (set_images []) ≫= λ _,
  s ← get;
  (if s.(lock_seen) then scu_fail (str "desktop_locked") desktop_locked_warning ≫= λ _, mret tt
   else mret tt) ≫= λ _,
  e ← current_error;
  clear_tool_error ≫= λ _,
  mret (locked_failure s.(lock_seen) result e, true).

Definition set_baseline (k : batch_kind) (b : baseline) (x : client) : client :=
  match k with Vision => set_c_vision b x | Accessibility => set_c_accessibility b x end.

Definition change_baseline (k : batch_kind) (b : baseline) : M unit :=
  s ← the the_service;
  match s.(host_current) with Some c => in_client c (set_baseline k b) | None => mret tt end.

(** What the client gets instead of a tree that it has. *)
Definition shorter (b : baseline) (window : Z) (refresh truncated : bool) (tree : text) : M (option text) :=
  match b.(ComputerState.tree) with
  | Some old =>
      if (b.(ComputerState.window) =? window) && negb refresh && negb b.(ComputerState.truncated) && negb truncated
      then
        allocates ← ask Allocates;
        match tree_diff allocates old tree scu_text_tree_unchanged with Some d => mret d | None => undefined end
      else mret None
  | None => mret None
  end.

Definition shape_tree (k : batch_kind) (requested : value) (observations : json) : M json :=
  match elements (Some observations) with
  | [] => mret observations
  | observation :: rest =>
      b ← host_tree_baseline k;
      w ← the worker;
      match json_string (Some observation) (str "tree_markdown"), b, w with
      | Some tree, Some b, Some _ =>
          let window := yyjson_get_sint (json_member requested (str "window")) in
          let truncated := truth (Some observation) "truncated" in
          d ← shorter b window (json_boolean requested (str "refresh")) truncated tree;
          change_baseline k (Baseline window (Some tree) truncated) ≫= λ _,
          let o := result_boolean observation (str "tree_full") (bool_decide (d = None)) in
          mret (JArray ((if d is Some d then result_string o (str "tree_markdown") (Some d) else o) :: rest))
      | _, _, _ => mret observations
      end
  end.

Definition deliverable (accessibility : bool) (requested : value) (s : server host) : bool :=
  negb s.(cancelled) && negb s.(stopping) &&
  (accessibility || (negb s.(lock_seen) && s.(own).(the_visual).(visual_bus))) && yyjson_is_obj requested.

(** ** The batch *)

(** The result after the steps; [observations] is put in its place at the end. *)
Definition batch_result (p : progress) : json :=
  let r := result_integer p.(result) (str "completed") p.(completed) in
  let r := if p.(warnings) is JArray (_ :: _) then result_member r (str "warnings") p.(warnings) else r in
  result_member r (str "observations") result_array.

Definition finish_batch (accessibility : bool) (requested : value) (p : progress) : M value :=
  o ← observe accessibility requested p;
  r ← hide accessibility (batch_result p) o.2;
  s ← get;
  observations ← (if deliverable accessibility requested s
    then shape_tree (if accessibility then Accessibility else Vision) requested o.1 else mret o.1);
  mret (Some (result_string (result_member r.1 (str "observations") observations)
    (str "status") (Some (if r.2 : bool then str "failed" else str "ok")))).

(** The schema bounds the steps, for which there is room for 64. *)
Definition MAX_STEPS : nat := 64.

Definition run_batch (t : Tool) (arguments : value) : M value :=
  let accessibility := t.(batch) =? BATCH_ACCESSIBILITY in
  let steps := elements (json_member arguments (str "steps")) in
  if decide (MAX_STEPS < length steps)%nat then undefined else
  l ← preflight t.(batch) steps;
  match l with
  | None => mret None
  | Some l =>
      ok ← desktop_refresh_lock fuel;
      if negb ok then mret None else
      ok ← (if accessibility then mret true else
        modify (set_vision_request true) ≫= λ _, desktop_input_allowed);
      if negb ok then mret None else
      ok ← require_computer_access fuel;
      if negb ok then mret None else
      p ← run_steps l 0 (Progress 0 false false false result_object result_array);
      finish_batch accessibility (json_member arguments (str "observations")) p
  end.

Definition execute_tool : Tool → value → M value := execute_with fuel run_batch.
End batch.
