(* ===== verification/ComputerInv.v ===== *)
(** * Reasoning about the host's program

    [ghost] is what a trace says of the clients and leases: who was opened,
    closed and released, whose request is being served, and what was answered
    and delivered to each client.  [safe p m q] says that [m] never reads a freed
    object from a state with [p], but for an input device that was removed while a
    target was verified, and that it ends in a state with [q]. *)

From S2P Require Import Prelude Json Catalog Results.
From S2P Require Export ComputerMain.

Section logic.
Context {surroundings : Surroundings}.
Abbreviation M := (mcp host note).
Abbreviation world := (machine (server host) (event note)).

Record ghost := Ghost {
  g_leases : gmap cid lid;
  g_closed : gset cid;
  g_released : gset lid;
  g_serving : option cid;
  g_replies : cid → text;
  g_delivered : cid → text;
  g_fine : Prop;
  g_verified : bool;   (** since input was last found allowed *)
}.

Definition no_ghost : ghost := Ghost ∅ ∅ ∅ None (λ _, []) (λ _, []) True false.

Definition also (P : Prop) (g : ghost) : ghost :=
  Ghost g.(g_leases) g.(g_closed) g.(g_released) g.(g_serving) g.(g_replies) g.(g_delivered) (P ∧ g.(g_fine)) g.(g_verified).

Definition with_verified (b : bool) (g : ghost) : ghost :=
  Ghost g.(g_leases) g.(g_closed) g.(g_released) g.(g_serving) g.(g_replies) g.(g_delivered) g.(g_fine) b.

(** What is appended for one client. *)
Definition grown (c : cid) (t : text) (f : cid → text) (c' : cid) : text :=
  if decide (c' = c) then f c' ++ t else f c'.

(** An event of a lease that was not released. *)
Definition takes_fine (e : host_event) (g : ghost) : Prop :=
  match e with
  | HOST_CALL c _ => ∃ l, g.(g_leases) !! c = Some l ∧ l ∉ g.(g_released)
  | HOST_REGISTER l | HOST_REVOKE l => l ∉ g.(g_released)
  end.

Definition note_seen (n : note) (g : ghost) : ghost :=
  match n with
  | Opened c l => also (l ∉ g.(g_released) ∧ g.(g_leases) !! c = None)
      (Ghost (<[c := l]> g.(g_leases)) g.(g_closed) g.(g_released) g.(g_serving) g.(g_replies) g.(g_delivered) g.(g_fine) g.(g_verified))
  | Closed c => Ghost g.(g_leases) ({[c]} ∪ g.(g_closed)) g.(g_released) g.(g_serving) g.(g_replies) g.(g_delivered) g.(g_fine) g.(g_verified)
  | Delivers c t => Ghost g.(g_leases) g.(g_closed) g.(g_released) g.(g_serving) g.(g_replies)
      (grown c t g.(g_delivered)) g.(g_fine) g.(g_verified)
  | Takes e => also (takes_fine e g)
      (Ghost g.(g_leases) g.(g_closed) g.(g_released) (client_of e) g.(g_replies) g.(g_delivered) g.(g_fine) g.(g_verified))
  | Released l => Ghost g.(g_leases) g.(g_closed) ({[l]} ∪ g.(g_released)) g.(g_serving) g.(g_replies) g.(g_delivered) g.(g_fine) g.(g_verified)
  | Allowed => with_verified false g
  | Verified => with_verified true g
  | Presses _ b => also (b = true ∨ g.(g_verified) = true) g
  | _ => g
  end.

(** A tool runs for the client that is served, which is connected. *)
Definition serves_open (g : ghost) : Prop := ∃ c, g.(g_serving) = Some c ∧ c ∉ g.(g_closed).

Definition seen (e : event note) (g : ghost) : ghost :=
  match e with
  | Asked n => note_seen n g
  | Answered _ (Some line) =>
      match g.(g_serving) with
      | Some c => Ghost g.(g_leases) g.(g_closed) g.(g_released) g.(g_serving)
          (grown c (line ++ [char 10]) g.(g_replies)) g.(g_delivered) g.(g_fine) g.(g_verified)
      | None => g
      end
  | Called _ _ _ _ => also (serves_open g) g
  | _ => g
  end.

Definition ghost_of (T : list (event note)) : ghost := foldr seen no_ghost T.

Definition assertion : Type := server host → ghost → Prop.

(** A press after a target was verified, on a device that was removed meanwhile;
    nothing else uses what was freed. *)
Definition stale (w : world) : Prop :=
  ∃ d allowed T, w.(trace) = Asked (Presses d allowed) :: T ∧ g_verified (ghost_of T) = true ∧
    is_listed d w.(now).(own).(the_visual) = false.

Definition safe {A} (p : assertion) (m : M A) (q : A → assertion) : Prop :=
  ∀ w, p w.(now) (ghost_of w.(trace)) →
  match m w with
  | Returned x w' => q x w'.(now) (ghost_of w'.(trace))
  | OutOfFuel => True
  | Undefined w' => stale w'
  end.

Lemma safe_bind {A B} p (m : M A) (f : A → M B) q r :
  safe p m q → (∀ x, safe (q x) (f x) r) → safe p (m ≫= f) r.
Proof.
  intros Hm Hf w Hw. specialize (Hm w Hw). unfold mbind, M_bind.
  destruct (m w) as [x w'| |]; [|done..]. exact (Hf x w' Hm).
Qed.

Lemma safe_ret {A} (x : A) p q : (∀ s g, p s g → q x s g) → safe p (mret x) q.
Proof. intros Hq w Hw. by apply Hq. Qed.

Lemma safe_mono {A} (m : M A) p p' q q' :
  safe p m q → (∀ s g, p' s g → p s g) → (∀ x s g, q x s g → q' x s g) → safe p' m q'.
Proof.
  intros Hm Hp Hq w Hw. specialize (Hm w (Hp _ _ Hw)).
  destruct (m w); [by apply Hq|done..].
Qed.

(** A fact about the state where the run starts may be assumed as one of the logic. *)
Lemma safe_pre {A} (P : Prop) (m : M A) (p : assertion) q :
  (∀ s g, p s g → P) → (P → safe p m q) → safe p m q.
Proof. intros HP Hm w Hw. exact (Hm (HP _ _ Hw) w Hw). Qed.

Lemma safe_exists {A X} (m : M A) (p : X → assertion) q :
  (∀ x, safe (p x) m q) → safe (λ s g, ∃ x, p x s g) m q.
Proof. intros Hm w [x Hw]. exact (Hm x w Hw). Qed.

Lemma safe_fuel {A} p q : safe p (out_of_fuel : M A) q.
Proof. by intros w Hw. Qed.

Lemma safe_get p q : (∀ s g, p s g → q s s g) → safe p get q.
Proof. intros Hq w Hw. by apply Hq. Qed.

Lemma safe_the {A} (f : host → A) p q : (∀ s g, p s g → q (f s.(own)) s g) → safe p (the f) q.
Proof. intros Hq. apply (safe_bind _ _ _ (λ s s' g, s = s' ∧ p s g)).
  - by apply safe_get.
  - intros s. apply safe_ret. intros s' g [-> ?]. auto.
Qed.

Lemma safe_modify f p q : (∀ s g, p s g → q tt (f s) g) → safe p (modify f) q.
Proof. intros Hq w Hw. by apply Hq. Qed.

Lemma safe_record e p q : (∀ s g, p s g → q tt s (seen e g)) → safe p (record e) q.
Proof. intros Hq w Hw. by apply Hq. Qed.

Lemma safe_ask {A} (r : request A) p q :
  (∀ s g x o, p s g → q x (set_own (set_around o s.(own)) s) g) → safe p (ask r) q.
Proof. intros Hq w Hw. unfold ask, act. destruct (respond r _) as [x o]. by apply Hq. Qed.

Lemma safe_service f p q :
  (∀ s g, p s g → q tt (set_own (set_the_service (f s.(own).(the_service)) s.(own)) s) g) →
  safe p (in_service f) q.
Proof. apply safe_modify. Qed.

Lemma safe_desktop f p q :
  (∀ s g, p s g → q tt (set_own (set_the_desktop (f s.(own).(the_desktop)) s.(own)) s) g) →
  safe p (in_desktop f) q.
Proof. apply safe_modify. Qed.

Lemma safe_visual f p q :
  (∀ s g, p s g → q tt (set_own (set_the_visual (f s.(own).(the_visual)) s.(own)) s) g) →
  safe p (in_visual f) q.
Proof. apply safe_modify. Qed.

Lemma safe_client_at c p q :
  (∀ s g, p s g → ∃ x, s.(own).(the_service).(clients) !! c = Some x ∧ q x s g) →
  safe p (client_at c) q.
Proof.
  intros Hq w Hw. destruct (Hq _ _ Hw) as (x & Hx & HQ).
  unfold client_at, the, get, act, mbind, M_bind. simpl. by rewrite Hx.
Qed.

Lemma safe_lease_at l p q :
  (∀ s g, p s g → ∃ y, s.(own).(the_service).(leases) !! l = Some y ∧ q y s g) →
  safe p (lease_at l) q.
Proof.
  intros Hq w Hw. destruct (Hq _ _ Hw) as (x & Hx & HQ).
  unfold lease_at, the, get, act, mbind, M_bind. simpl. by rewrite Hx.
Qed.

Lemma safe_in_client c f p q :
  (∀ s g, p s g → ∃ x, s.(own).(the_service).(clients) !! c = Some x ∧
    q tt (set_own (set_the_service (set_clients (<[c := f x]> s.(own).(the_service).(clients))
      s.(own).(the_service)) s.(own)) s) g) →
  safe p (in_client c f) q.
Proof.
  intros Hq. apply (safe_bind _ _ _ (λ x s g, q tt (set_own (set_the_service (set_clients
    (<[c := f x]> s.(own).(the_service).(clients)) s.(own).(the_service)) s.(own)) s) g)).
  - by apply safe_client_at.
  - intros x. by apply safe_service.
Qed.

Lemma safe_in_lease l f p q :
  (∀ s g, p s g → ∃ y, s.(own).(the_service).(leases) !! l = Some y ∧
    q tt (set_own (set_the_service (set_leases (<[l := f y]> s.(own).(the_service).(leases))
      s.(own).(the_service)) s.(own)) s) g) →
  safe p (in_lease l f) q.
Proof.
  intros Hq. apply (safe_bind _ _ _ (λ x s g, q tt (set_own (set_the_service (set_leases
    (<[l := f x]> s.(own).(the_service).(leases)) s.(own).(the_service)) s.(own)) s) g)).
  - by apply safe_lease_at.
  - intros x. by apply safe_service.
Qed.

(** A loop over a list, with one invariant. *)
Lemma safe_each {A} (l : list A) f (p : assertion) :
  (∀ x, x ∈ l → safe p (f x) (λ _, p)) → safe p (each l f) (λ _, p).
Proof.
  induction l as [|x l IH]; intros Hf; [by apply safe_ret|]. cbn [each].
  apply (safe_bind _ _ _ (λ _, p)); [apply Hf; left|].
  intros _. apply IH. intros y Hy. apply Hf. by right.
Qed.
End logic.

(** * The invariant of the host's service

    Everything the service's arrays, queue and sources point to is alive; a client
    has as many pending calls as the queue holds for it; a revoked lease has no
    client that is connected, and its release is the last event that the queue
    holds of it; what a client was sent, with what still waits, is what it was
    answered.  Here is the invariant, and that each change of the state keeps it. *)

Arguments host_client_count : simpl never.

(** ** The queue *)

Definition queued (e : option host_event) (s : service) : list host_event :=
  from_option (λ x, [x]) [] e ++ s.(host_events).

Arguments queued : simpl never.

Definition is_call (e : host_event) : bool := match e with HOST_CALL _ _ => true | _ => false end.

Definition calls_of (c : cid) (q : list host_event) : nat :=
  length (filter (λ e, client_of e = Some c) q).

(** An event of the lease [l], or of one of its clients: [m] has their leases. *)
Definition about (m : gmap cid lid) (l : lid) (e : host_event) : Prop :=
  match e with
  | HOST_CALL c _ => m !! c = Some l
  | HOST_REGISTER l' | HOST_REVOKE l' => l' = l
  end.

(** Nothing of a lease comes after its release. *)
Fixpoint ordered (m : gmap cid lid) (q : list host_event) : Prop :=
  match q with
  | [] => True
  | e :: q => (if e is HOST_REVOKE l then ∀ x, x ∈ q → ¬ about m l x else True) ∧ ordered m q
  end.

(** ** The invariant

    [e] is the event that the main loop is busy with; [r] is a lease whose clients
    are just being closed. *)
Section invariant.
Context {surroundings : Surroundings}.
Implicit Types s : service.

Definition event_inv s (e : host_event) : Prop :=
  match e with
  | HOST_CALL c _ => ∃ x y, s.(clients) !! c = Some x ∧ s.(leases) !! x.(c_lease) = Some y ∧
      y.(l_acknowledged) = false
  | HOST_REGISTER l => ∃ y, s.(leases) !! l = Some y ∧ y.(l_acknowledged) = false ∧
      is_Some y.(l_session) ∧ is_Some y.(l_wayland)
  | HOST_REVOKE l => ∃ y, s.(leases) !! l = Some y ∧ y.(l_acknowledged) = false ∧ y.(l_revoked) = true
  end.

Definition watch_inv s (w : watch) : Prop :=
  match w with
  | ReadOf c => ∃ x, s.(clients) !! c = Some x ∧ x.(c_source) = true
  | WriteOf c => ∃ x, s.(clients) !! c = Some x ∧ x.(c_writer) = true
  | ControlOf l => ∃ y, s.(leases) !! l = Some y ∧ y.(l_source) = true
  | AcceptOf l => ∃ y, s.(leases) !! l = Some y ∧ y.(l_accept_source) = true
  | Controllers => True
  end.

Record client_inv (r : option lid) (e : option host_event) s (g : ghost) (c : cid) (x : client) : Prop := {
  ci_lease : is_Some (s.(leases) !! x.(c_lease));
  ci_ghost : g.(g_leases) !! c = Some x.(c_lease);
  ci_pending : x.(c_pending) = Z.of_nat (calls_of c (queued e s));
  ci_closed : x.(c_closed) = true → x.(c_source) = false ∧ x.(c_writer) = false;
  ci_seen : x.(c_closed) = true ↔ c ∈ g.(g_closed);
  ci_revoked y : s.(leases) !! x.(c_lease) = Some y → y.(l_revoked) = true → r ≠ Some x.(c_lease) →
    x.(c_closed) = true;
  ci_output : x.(c_closed) = false → g.(g_delivered) c ++ drop x.(c_sent) x.(c_output) = g.(g_replies) c;
  ci_idle : x.(c_writer) = false → x.(c_closed) = false → x.(c_output) = [] ∧ x.(c_sent) = 0%nat;
  ci_sent : (x.(c_sent) ≤ length x.(c_output))%nat;
  ci_input : Z.of_nat (length x.(c_input)) ≤ MAX_LINE;
  ci_length : Z.of_nat (length x.(c_output)) ≤ MAX_OUTPUT + 1;
}.

Record lease_inv (r : option lid) (e : option host_event) s (l : lid) (y : lease) : Prop := {
  li_revoked : y.(l_revoked) = true → y.(l_source) = false ∧ y.(l_accept_source) = false;
  li_acknowledged : y.(l_acknowledged) = true → y.(l_revoked) = true;
  li_kept : y.(l_revoked) = false → HOST_REVOKE l ∉ queued e s;
  li_unregistered : y.(l_registered) = false → HOST_REGISTER l ∉ queued e s;
  li_pending : y.(l_revoked) = true → y.(l_acknowledged) = false → r ≠ Some l →
    HOST_REVOKE l ∈ queued e s;
  li_input : (length y.(l_input) ≤ MAX_REGISTRATION)%nat;
}.

Record inv (r : option lid) (e : option host_event) s (g : ghost) : Prop := {
  inv_nodup : NoDup s.(host_clients);
  inv_listed c : c ∈ s.(host_clients) ↔ is_Some (s.(clients) !! c);
  inv_leases_nodup : NoDup s.(host_leases);
  inv_leases_listed l : l ∈ s.(host_leases) ↔ is_Some (s.(leases) !! l);
  inv_client c x : s.(clients) !! c = Some x → client_inv r e s g c x;
  inv_lease l y : s.(leases) !! l = Some y → lease_inv r e s l y;
  inv_event x : x ∈ queued e s → event_inv s x;
  inv_ordered : ordered g.(g_leases) (queued e s);
  inv_calls : (length (filter (λ e, is_call e = true) s.(host_events)) ≤ host_max_pending)%nat;
  inv_watch w : w ∈ s.(attached) → watch_inv s w;
  inv_current c : s.(host_current) = Some c → ∃ d, e = Some (HOST_CALL c d);
  inv_fresh_client c l : g.(g_leases) !! c = Some l → (c < s.(fresh))%nat;
  inv_fresh_closed c : c ∈ g.(g_closed) → (c < s.(fresh))%nat;
  inv_fresh_text c : (s.(fresh) ≤ c)%nat → g.(g_replies) c = [] ∧ g.(g_delivered) c = [];
  inv_fresh_lease l : is_Some (s.(leases) !! l) ∨ l ∈ g.(g_released) → (l < s.(fresh))%nat;
  inv_released l y : l ∈ g.(g_released) → s.(leases) !! l = Some y → y.(l_acknowledged) = true;
  inv_prefix c : g.(g_delivered) c `prefix_of` g.(g_replies) c;
  inv_few_clients : (host_client_count s ≤ host_max_clients)%nat;
  inv_few_leases : (length s.(host_leases) ≤ MAX_LEASES)%nat;
  inv_serving c d : e = Some (HOST_CALL c d) → g.(g_serving) = Some c;
  inv_fine : g.(g_fine);
}.

(** What an operation leaves as it was, for those who hold an address. *)
Record kept s0 s : Prop := {
  kept_client c x : s0.(clients) !! c = Some x → ∃ x', s.(clients) !! c = Some x' ∧
    x'.(c_lease) = x.(c_lease) ∧ x'.(c_serial) = x.(c_serial) ∧ (x.(c_closed) = true → x'.(c_closed) = true);
  kept_lease l y : s0.(leases) !! l = Some y → ∃ y', s.(leases) !! l = Some y' ∧
    (y.(l_revoked) = true → y'.(l_revoked) = true) ∧ (y.(l_registered) = true → y'.(l_registered) = true) ∧
    y'.(l_control) = y.(l_control) ∧ y'.(l_acknowledged) = y.(l_acknowledged);
  kept_current : s.(host_current) = s0.(host_current);
}.

Lemma kept_refl s : kept s s.
Proof. split; [naive_solver|naive_solver|done]. Qed.

Lemma kept_trans s0 s1 s2 : kept s0 s1 → kept s1 s2 → kept s0 s2.
Proof.
  intros [Hc Hl Hh] [Hc' Hl' Hh']. split; [| |congruence].
  - intros c x (x1 & (x2 & ? & ? & ? & ?)%Hc' & ? & ? & ?)%Hc. exists x2. split_and!; [done|congruence..|auto].
  - intros l y (y1 & (y2 & ? & ? & ? & ? & ?)%Hl' & ? & ? & ? & ?)%Hl. exists y2. split_and!; [done|auto|auto|congruence..].
Qed.

Lemma kept_same s0 s s' :
  kept s0 s → s'.(clients) = s.(clients) → s'.(leases) = s.(leases) →
  s'.(host_current) = s.(host_current) → kept s0 s'.
Proof. intros [Hc Hl Hh] E1 E2 E3. split; [by rewrite E1|by rewrite E2|congruence]. Qed.

(** ** Counting the open clients *)

Lemma open_le_in s s' l :
  (∀ c, c ∈ l → is_open s' c = true → is_open s c = true) →
  (length (filter (λ c, is_open s' c = true) l) ≤ length (filter (λ c, is_open s c = true) l))%nat.
Proof.
  induction l as [|c l IH]; intros Ho; [done|]. rewrite !filter_cons.
  assert (length (filter (λ c, is_open s' c = true) l) ≤ length (filter (λ c, is_open s c = true) l))%nat
    by (apply IH; intros c' Hc'; apply Ho; by right).
  assert (is_open s' c = true → is_open s c = true) by (apply Ho; left).
  repeat case_decide; simpl; [lia|naive_solver|lia|lia].
Qed.

Lemma open_le s s' :
  s'.(host_clients) = s.(host_clients) →
  (∀ c, is_open s' c = true → is_open s c = true) → (host_client_count s' ≤ host_client_count s)%nat.
Proof. unfold host_client_count, open_clients. intros -> Ho. apply open_le_in. auto. Qed.

(** ** A client changes *)

Lemma inv_set_client r e s g c x x' :
  inv r e s g → s.(clients) !! c = Some x → client_inv r e s g c x' →
  x'.(c_lease) = x.(c_lease) → x'.(c_closed) = x.(c_closed) →
  (x.(c_source) = true → x'.(c_source) = true) →
  (WriteOf c ∈ s.(attached) → x'.(c_writer) = true) →
  inv r e (set_clients (<[c := x']> s.(clients)) s) g.
Proof.
  intros I Hc Hx' Hl Ho Hs Hw.
  split; cbn; try apply I.
  - intros c'. rewrite (inv_listed _ _ _ _ I c'). rewrite lookup_insert_is_Some'. naive_solver.
  - intros c' z [[<- <-]|[? Hz]]%lookup_insert_Some.
    + by destruct Hx'.
    + by destruct (inv_client _ _ _ _ I c' z Hz).
  - intros l y Hy. by destruct (inv_lease _ _ _ _ I l y Hy).
  - intros [c' d|l|l] Hq%I; cbn in *; [|done..].
    destruct Hq as (z & y & Hz & Hy & Ha). destruct (decide (c' = c)) as [->|].
    + simplify_eq. exists x', y. rewrite lookup_insert_eq, Hl. done.
    + exists z, y. by rewrite lookup_insert_ne.
  - intros [c'|c'|l|l|] Hv; pose proof (inv_watch _ _ _ _ I _ Hv) as Hi; cbn in *; [| |done..].
    + destruct Hi as (z & Hz & ?). destruct (decide (c' = c)) as [->|].
      * simplify_eq. exists x'. rewrite lookup_insert_eq. auto.
      * exists z. by rewrite lookup_insert_ne.
    + destruct Hi as (z & Hz & ?). destruct (decide (c' = c)) as [->|].
      * simplify_eq. exists x'. rewrite lookup_insert_eq. auto.
      * exists z. by rewrite lookup_insert_ne.
  - eapply Nat.le_trans; [|apply (inv_few_clients _ _ _ _ I)].
    apply open_le; [done|]. intros c'. unfold is_open. cbn.
    destruct (decide (c' = c)) as [->|]; [rewrite lookup_insert_eq, Hc, Ho|rewrite lookup_insert_ne]; done.
Qed.

Lemma kept_set_client s c x x' :
  s.(clients) !! c = Some x → x'.(c_lease) = x.(c_lease) → x'.(c_serial) = x.(c_serial) →
  (x.(c_closed) = true → x'.(c_closed) = true) →
  kept s (set_clients (<[c := x']> s.(clients)) s).
Proof.
  intros Hc Hl Hs Ho. split; cbn; [|naive_solver|done].
  intros c' z Hz. destruct (decide (c' = c)) as [->|].
  - simplify_eq. exists x'. by rewrite lookup_insert_eq.
  - exists z. by rewrite lookup_insert_ne.
Qed.

(** ** A client is closed *)

Definition closed_client (x : client) : client :=
  set_c_fd (-1) (set_c_writer false (set_c_source false (set_c_closed true x))).

Lemma inv_close_client r e s g c x a :
  inv r e s g → s.(clients) !! c = Some x → x.(c_closed) = false →
  a ⊆ s.(attached) → ReadOf c ∉ a → WriteOf c ∉ a →
  inv r e (set_attached a (set_clients (<[c := closed_client x]> s.(clients)) s)) (note_seen (Closed c) g).
Proof.
  intros I Hc Ho Ha Hr Hw. pose proof (inv_client _ _ _ _ I c x Hc) as [].
  split; cbn; try apply I.
  - intros c'. rewrite (inv_listed _ _ _ _ I c'). rewrite lookup_insert_is_Some'. naive_solver.
  - intros c' z [[<- <-]|[? Hz]]%lookup_insert_Some.
    + split; cbn; try done. set_solver.
    + destruct (inv_client _ _ _ _ I c' z Hz). split; cbn; try done. set_solver.
  - intros l y Hy. by destruct (inv_lease _ _ _ _ I l y Hy).
  - intros [c' d|l|l] Hq%I; cbn in *; [|done..].
    destruct Hq as (z & y & Hz & Hy & ?). destruct (decide (c' = c)) as [->|].
    + simplify_eq. exists (closed_client x), y. by rewrite lookup_insert_eq.
    + exists z, y. by rewrite lookup_insert_ne.
  - intros [c'|c'|l|l|] Hv; pose proof (inv_watch _ _ _ _ I _ (Ha _ Hv)) as Hi; cbn in *; [| |done..].
    + destruct (decide (c' = c)) as [->|]; [done|]. by rewrite lookup_insert_ne.
    + destruct (decide (c' = c)) as [->|]; [done|]. by rewrite lookup_insert_ne.
  - intros c' [->%elem_of_singleton|Hc']%elem_of_union; [|by apply I].
    by apply (inv_fresh_client _ _ _ _ I _ x.(c_lease)).
  - eapply Nat.le_trans; [|apply (inv_few_clients _ _ _ _ I)].
    apply open_le; [done|]. intros c'. unfold is_open. cbn.
    destruct (decide (c' = c)) as [->|]; [by rewrite lookup_insert_eq|by rewrite lookup_insert_ne].
Qed.

(** ** A lease changes *)

Lemma inv_set_lease r e s g l y y' :
  inv r e s g → s.(leases) !! l = Some y → lease_inv r e s l y' →
  y'.(l_acknowledged) = y.(l_acknowledged) → y'.(l_revoked) = y.(l_revoked) →
  (HOST_REGISTER l ∈ queued e s → y'.(l_session) = y.(l_session) ∧ y'.(l_wayland) = y.(l_wayland)) →
  (y.(l_source) = true → y'.(l_source) = true) → (y.(l_accept_source) = true → y'.(l_accept_source) = true) →
  inv r e (set_leases (<[l := y']> s.(leases)) s) g.
Proof.
  intros I Hl Hy' Ha Hr Hs Hso Hac. split; cbn; try apply I.
  - intros l'. rewrite (inv_leases_listed _ _ _ _ I l'). rewrite lookup_insert_is_Some'. naive_solver.
  - intros c x Hx. destruct (inv_client _ _ _ _ I c x Hx). split; cbn; try done.
    + rewrite lookup_insert_is_Some'. by right.
    + intros z Hz Hz'. apply lookup_insert_Some in Hz as [[El <-]|[? Hz]]; [|by eauto].
      rewrite Hr in Hz'. rewrite <- El in *. eauto.
  - intros l' z [[<- <-]|[? Hz]]%lookup_insert_Some.
    + by destruct Hy'.
    + by destruct (inv_lease _ _ _ _ I l' z Hz).
  - intros [c d|l'|l'] Hq; pose proof (inv_event _ _ _ _ I _ Hq) as Hi; cbn in *.
    + destruct Hi as (x & z & Hx & Hz & ?). destruct (decide (x.(c_lease) = l)) as [<-|].
      * simplify_eq. exists x, y'. rewrite lookup_insert_eq. naive_solver congruence.
      * exists x, z. by rewrite lookup_insert_ne.
    + destruct Hi as (z & Hz & ? & ? & ?). destruct (decide (l' = l)) as [->|].
      * simplify_eq. exists y'. rewrite lookup_insert_eq. destruct Hs as [-> ->]; [done|]. naive_solver congruence.
      * exists z. by rewrite lookup_insert_ne.
    + destruct Hi as (z & Hz & ? & ?). destruct (decide (l' = l)) as [->|].
      * simplify_eq. exists y'. rewrite lookup_insert_eq. naive_solver congruence.
      * exists z. by rewrite lookup_insert_ne.
  - intros [c'|c'|l'|l'|] Hv; pose proof (inv_watch _ _ _ _ I _ Hv) as Hi; cbn in *; [done..| | |done].
    + destruct Hi as (z & Hz & ?). destruct (decide (l' = l)) as [->|].
      * simplify_eq. exists y'. rewrite lookup_insert_eq. auto.
      * exists z. by rewrite lookup_insert_ne.
    + destruct Hi as (z & Hz & ?). destruct (decide (l' = l)) as [->|].
      * simplify_eq. exists y'. rewrite lookup_insert_eq. auto.
      * exists z. by rewrite lookup_insert_ne.
  - intros l'. rewrite lookup_insert_is_Some'. intros [[El|?]|?]; apply (inv_fresh_lease _ _ _ _ I); [rewrite <- El|..]; eauto.
  - intros l' z Hg [[<- <-]|[? Hz]]%lookup_insert_Some; [rewrite Ha|]; eapply (inv_released _ _ _ _ I); eauto.
Qed.

Lemma kept_set_lease s l y y' :
  s.(leases) !! l = Some y → y'.(l_control) = y.(l_control) →
  y'.(l_acknowledged) = y.(l_acknowledged) →
  (y.(l_revoked) = true → y'.(l_revoked) = true) → (y.(l_registered) = true → y'.(l_registered) = true) →
  kept s (set_leases (<[l := y']> s.(leases)) s).
Proof.
  intros Hl Hc Ha Hr Hg. split; cbn; [naive_solver| |done].
  intros l' z Hz. destruct (decide (l' = l)) as [->|].
  - simplify_eq. exists y'. rewrite lookup_insert_eq. auto.
  - exists z. by rewrite lookup_insert_ne.
Qed.

(** ** An event is queued *)

Lemma ordered_snoc m q x :
  ordered m q → (∀ l, HOST_REVOKE l ∈ q → ¬ about m l x) → ordered m (q ++ [x]).
Proof.
  induction q as [|z q IH]; cbn; [by destruct x as [| |l']; set_solver|].
  intros [Hz Hq] Hx. split; [|apply IH; set_solver].
  destruct z as [| |l]; [done..|]. intros y [Hy| ->%list_elem_of_singleton]%elem_of_app; [auto|].
  apply Hx. by left.
Qed.

Lemma calls_of_app c q q' : calls_of c (q ++ q') = (calls_of c q + calls_of c q')%nat.
Proof. unfold calls_of. by rewrite filter_app, length_app. Qed.

Lemma calls_of_one c x : calls_of c [x] = if decide (client_of x = Some c) then 1%nat else 0%nat.
Proof. unfold calls_of. rewrite filter_cons. by case_decide. Qed.

Lemma calls_of_cons c x q :
  calls_of c (x :: q) = ((if decide (client_of x = Some c) then 1 else 0) + calls_of c q)%nat.
Proof. unfold calls_of. rewrite filter_cons. by case_decide. Qed.

Lemma calls_of_le c q : (calls_of c q ≤ length (filter (λ e, is_call e = true) q))%nat.
Proof.
  unfold calls_of. induction q as [|e q IH]; [done|]. rewrite !filter_cons.
  repeat case_decide; cbn; try lia. destruct e; naive_solver.
Qed.

Definition push (x : host_event) s : service := set_host_events (s.(host_events) ++ [x]) s.

Lemma queued_push e x s : queued e (push x s) = queued e s ++ [x].
Proof. unfold queued, push. cbn. by rewrite app_assoc. Qed.

(** [r'] may be what was [r] before its release was queued. *)
Lemma inv_push r r' e s g x :
  inv r e s g → client_of x = None → event_inv s x →
  (r' = r ∨ ∃ l, r = Some l ∧ r' = None ∧ x = HOST_REVOKE l ∧
    ∀ c z, s.(clients) !! c = Some z → z.(c_lease) = l → z.(c_closed) = true) →
  (∀ l, x = HOST_REGISTER l → ∃ y, s.(leases) !! l = Some y ∧ y.(l_revoked) = false ∧ y.(l_registered) = true) →
  (∀ l, x = HOST_REVOKE l → HOST_REVOKE l ∉ queued e s) →
  inv r' e (push x s) g.
Proof.
  intros I Hx Hi Hr Hreg Hrev. split; cbn; try apply I.
  - intros c z Hz. destruct (inv_client _ _ _ _ I c z Hz). split; cbn; try done.
    + rewrite queued_push, calls_of_app, calls_of_one, decide_False, Nat.add_0_r by congruence. done.
    + intros y Hy Hyr Hn. destruct Hr as [->|(l & -> & -> & -> & Hc)]; [by eauto|].
      destruct (decide (z.(c_lease) = l)); [by eapply Hc|]. apply (ci_revoked0 y Hy Hyr). congruence.
  - intros l y Hy. destruct (inv_lease _ _ _ _ I l y Hy). split; cbn; rewrite ?queued_push; try done.
    + intros Hn [?|Hn'%list_elem_of_singleton]%elem_of_app; [by apply li_kept0|].
      subst x. destruct Hi as (? & ? & ? & ?). simplify_eq. congruence.
    + intros Hn [?|Hn'%list_elem_of_singleton]%elem_of_app; [by apply li_unregistered0|].
      destruct (Hreg l) as (? & ? & ? & ?); [done|]. congruence.
    + intros Hv Ha Hn. apply elem_of_app. destruct Hr as [->|(l' & -> & -> & -> & Hc)]; [by auto|].
      destruct (decide (l = l')) as [->|]; [right; by left|left; apply li_pending0; congruence].
  - intros z. rewrite queued_push. intros [Hz|Hz%list_elem_of_singleton]%elem_of_app; [by apply I in Hz|by subst].
  - rewrite queued_push. apply ordered_snoc; [apply I|]. intros l Hl. destruct x as [| l'|l']; [done|..]; cbn.
    + intros ->. destruct (Hreg l) as (y & Hy & Hn & _); [done|].
      by apply (li_kept _ _ _ _ _ (inv_lease _ _ _ _ I l y Hy)) in Hn.
    + intros ->. by apply (Hrev l).
  - rewrite filter_app, length_app, filter_cons, decide_False by (by destruct x). cbn.
    rewrite Nat.add_0_r. apply I.
Qed.

Lemma calls_of_few e s c :
  (length s.(host_events) < host_max_pending)%nat → (calls_of c (queued e s) ≤ host_max_pending)%nat.
Proof.
  intros Hlen. unfold queued. rewrite calls_of_app. pose proof (calls_of_le c s.(host_events)).
  assert (calls_of c (from_option (λ x, [x]) [] e) ≤ 1)%nat.
  { unfold calls_of. etransitivity; [apply length_filter|]. by destruct e; cbn; lia. }
  pose proof (length_filter (λ e, is_call e = true) s.(host_events)). lia.
Qed.

Lemma inv_push_call e s g c x d :
  inv None e s g → s.(clients) !! c = Some x → x.(c_closed) = false →
  (length s.(host_events) < host_max_pending)%nat →
  inv None e (push (HOST_CALL c d)
    (set_clients (<[c := set_c_pending (u32 (x.(c_pending) + 1)) x]> s.(clients)) s)) g.
Proof.
  intros I Hc Ho Hlen. pose proof (inv_client _ _ _ _ I c x Hc) as [].
  destruct ci_lease0 as [y Hy].
  assert (Hn : y.(l_revoked) = false) by (apply not_true_iff_false; intros E; by rewrite (ci_revoked0 y Hy E) in Ho).
  assert (Ha : y.(l_acknowledged) = false).
  { apply not_true_iff_false. intros E. apply (li_acknowledged _ _ _ _ _ (inv_lease _ _ _ _ I _ y Hy)) in E. congruence. }
  set (x' := set_c_pending _ x).
  assert (Hp : x'.(c_pending) = Z.of_nat (calls_of c (queued e s) + 1)).
  { cbn. rewrite ci_pending0. pose proof (calls_of_few e s c Hlen). unfold host_max_pending in *. rewrite u32_small by lia. lia. }
  set (s' := set_clients _ s).
  assert (Hq : queued e (push (HOST_CALL c d) s') = queued e s ++ [HOST_CALL c d])
    by exact (queued_push e (HOST_CALL c d) s').
  split; cbn; try apply I.
  - intros c'. rewrite (inv_listed _ _ _ _ I c'). rewrite lookup_insert_is_Some'. naive_solver.
  - intros c' z [[<- <-]|[Hne Hz]]%lookup_insert_Some.
    + split; try done. rewrite Hq, calls_of_app, Hp, calls_of_one. by rewrite decide_True.
    + destruct (inv_client _ _ _ _ I c' z Hz). split; cbn; try done. rewrite Hq, calls_of_app, calls_of_one,
        decide_False, Nat.add_0_r by (cbn; congruence). done.
  - intros l z Hz. destruct (inv_lease _ _ _ _ I l z Hz). split; cbn; try done; rewrite Hq.
    + intros E [?|?%list_elem_of_singleton]%elem_of_app; [by apply li_kept0|done].
    + intros E [?|?%list_elem_of_singleton]%elem_of_app; [by apply li_unregistered0|done].
    + intros. apply elem_of_app. left. auto.
  - assert (Hev : ∀ x, event_inv s x → event_inv s' x).
    { intros [c' ?|l|l]; cbn; [|done..]. intros (z & v & Hz & ? & ?).
      destruct (decide (c' = c)) as [->|]; [simplify_eq; exists x'; rewrite lookup_insert_eq; by eauto|].
      exists z, v. by rewrite lookup_insert_ne. }
    intros z. rewrite Hq. intros [Hz|Hz%list_elem_of_singleton]%elem_of_app.
    + by apply (Hev z), I.
    + subst. apply (Hev (HOST_CALL c d)). exists x, y. done.
  - rewrite Hq. apply ordered_snoc; [apply I|]. intros l Hl. cbn. rewrite ci_ghost0. intros [= E].
    subst l. by apply (li_kept _ _ _ _ _ (inv_lease _ _ _ _ I _ y Hy)) in Hn.
  - rewrite filter_app, length_app, filter_cons, decide_True by done. cbn.
    pose proof (length_filter (λ e, is_call e = true) s.(host_events)). lia.
  - intros [c'|c'|l|l|] Hv; pose proof (inv_watch _ _ _ _ I _ Hv) as Hi; cbn in *; [| |done..].
    + destruct (decide (c' = c)) as [->|]; [simplify_eq; exists x'; rewrite lookup_insert_eq; naive_solver|by rewrite lookup_insert_ne].
    + destruct (decide (c' = c)) as [->|]; [simplify_eq; exists x'; rewrite lookup_insert_eq; naive_solver|by rewrite lookup_insert_ne].
  - eapply Nat.le_trans; [|apply (inv_few_clients _ _ _ _ I)].
    apply open_le; [done|]. intros c'. unfold is_open. cbn.
    destruct (decide (c' = c)) as [->|]; [by rewrite lookup_insert_eq, Hc|by rewrite lookup_insert_ne].
Qed.

(** ** Sources *)

Lemma inv_attach r e s g w :
  inv r e s g → watch_inv s w → inv r e (set_attached ({[w]} ∪ s.(attached)) s) g.
Proof.
  intros I Hw. split; cbn; try apply I.
  - intros c x Hx. by destruct (inv_client _ _ _ _ I c x Hx).
  - intros l y Hy. by destruct (inv_lease _ _ _ _ I l y Hy).
  - intros v [->%elem_of_singleton|Hv]%elem_of_union; [done|by apply I in Hv].
Qed.

Lemma inv_detach r e s g a : inv r e s g → a ⊆ s.(attached) → inv r e (set_attached a s) g.
Proof.
  intros I Ha. split; cbn; try apply I.
  - intros c x Hx. by destruct (inv_client _ _ _ _ I c x Hx).
  - intros l y Hy. by destruct (inv_lease _ _ _ _ I l y Hy).
  - intros v Hv. by apply Ha, I in Hv.
Qed.

(** ** New objects *)

Lemma event_alive r e s g x : inv r e s g → x ∈ queued e s → match x with
  | HOST_CALL c _ => ∃ z, s.(clients) !! c = Some z
  | HOST_REGISTER l | HOST_REVOKE l => ∃ y, s.(leases) !! l = Some y
  end.
Proof. intros I Hx%I. destruct x; naive_solver. Qed.

Lemma client_fresh r e s g c x : inv r e s g → s.(clients) !! c = Some x → (c < s.(fresh))%nat.
Proof. intros I Hx. eapply (inv_fresh_client _ _ _ _ I), (inv_client _ _ _ _ I c x Hx). Qed.

Lemma ordered_map m m' q :
  (∀ x l, x ∈ q → about m' l x → about m l x) → ordered m q → ordered m' q.
Proof.
  intros Hm. induction q as [|e q IH]; [done|]. cbn. intros [He Hq].
  split; [|apply IH; [|done]; intros; apply Hm; [by right|done]].
  destruct e; [done..|]. intros x Hx Ha. eapply He; [done|]. apply Hm; [by right|done].
Qed.

Definition with_client (l : lid) (serial fd : Z) s : service :=
  set_host_serial serial (set_host_clients (s.(host_clients) ++ [s.(fresh)])
    (set_clients (<[s.(fresh) := new_client l serial fd]> s.(clients)) (set_fresh (S s.(fresh)) s))).

Lemma count_with_client e s g l serial fd :
  inv None e s g → s.(clients) !! s.(fresh) = None →
  (host_client_count (with_client l serial fd s) ≤ host_client_count s + 1)%nat.
Proof.
  intros I Hnew. set (c := s.(fresh)) in *.
  unfold host_client_count, open_clients. cbn. rewrite filter_app, length_app.
  assert (length (filter (λ c', is_open (with_client l serial fd s) c' = true) [c]) ≤ 1)%nat
    by apply (length_filter _ [c]).
  assert (length (filter (λ c', is_open (with_client l serial fd s) c' = true) s.(host_clients)) ≤
    length (filter (λ c', is_open s c' = true) s.(host_clients)))%nat; [|unfold c in *; lia].
  apply open_le_in. intros c' Hc'%I. unfold is_open. cbn. rewrite lookup_insert_ne; [done|].
  intros <-. fold c in Hc'. rewrite Hnew in Hc'. by destruct Hc'.
Qed.

Lemma inv_admit_client e s g l y serial fd :
  inv None e s g → s.(leases) !! l = Some y → y.(l_revoked) = false →
  (host_client_count s < host_max_clients)%nat →
  inv None e (with_client l serial fd s) (note_seen (Opened s.(fresh) l) g).
Proof.
  intros I Hl Hr Hcount. set (c := s.(fresh)).
  assert (Hnew : s.(clients) !! c = None).
  { destruct (s.(clients) !! c) as [x|] eqn:E; [|done]. apply (client_fresh _ _ _ _ _ _ I) in E. unfold c in E. lia. }
  assert (Hold : ∀ c' z, s.(clients) !! c' = Some z → c ≠ c') by (intros c' z Hz <-; congruence).
  assert (Hl' : l ∉ g.(g_released)).
  { intros E. apply (inv_released _ _ _ _ I l y E) in Hl as Ha.
    apply (li_acknowledged _ _ _ _ _ (inv_lease _ _ _ _ I l y Hl)) in Ha. congruence. }
  assert (Hq : ∀ d, HOST_CALL c d ∉ queued e s).
  { intros d Hd. apply (event_alive _ _ _ _ _ I) in Hd as [x Hx]. cbn in Hx. by rewrite Hnew in Hx. }
  assert (Hcalls : calls_of c (queued e s) = 0%nat).
  { unfold calls_of. destruct (filter _ _) as [|x q] eqn:E; [done|]. exfalso.
    assert (x ∈ filter (λ e, client_of e = Some c) (queued e s)) as [Hx Hx']%list_elem_of_filter by (rewrite E; left).
    destruct x as [c' d| |]; naive_solver. }
  split; cbn; try apply I.
  - apply NoDup_app. split_and!; [apply I| |apply NoDup_singleton].
    intros z Hz%I ->%list_elem_of_singleton. fold c in Hz. rewrite Hnew in Hz. by destruct Hz.
  - intros z. rewrite elem_of_app, list_elem_of_singleton, lookup_insert_is_Some', (inv_listed _ _ _ _ I z). naive_solver.
  - intros c' x [[<- <-]|[Hne Hx]]%lookup_insert_Some.
    + destruct (inv_fresh_text _ _ _ _ I c (Nat.le_refl _)) as [E1 E2].
      split; cbn; try done.
      * by rewrite lookup_insert_eq.
      * fold c. change (queued e _) with (queued e s). by rewrite Hcalls.
      * split; [done|]. intros E%(inv_fresh_closed _ _ _ _ I). unfold c in E. lia.
      * intros y'. rewrite Hl. intros [= <-]. by rewrite Hr.
      * fold c. by rewrite E1, E2.
    + destruct (inv_client _ _ _ _ I c' x Hx). split; cbn; try done. by rewrite lookup_insert_ne.
  - intros l' z Hz. by destruct (inv_lease _ _ _ _ I l' z Hz).
  - intros x Hx. pose proof (inv_event _ _ _ _ I x Hx) as Hi. destruct x as [c' d|l'|l']; cbn in *; [|done..].
    destruct Hi as (z & v & Hz & ?). exists z, v. rewrite lookup_insert_ne; [done|]. by eapply Hold.
  - apply (ordered_map g.(g_leases)); [|apply I]. intros [c' d|l'|l'] l'' Hx; cbn; [|done..].
    rewrite lookup_insert_ne; [done|]. intros <-. by apply Hq in Hx.
  - intros [c'|c'|l'|l'|] Hv; pose proof (inv_watch _ _ _ _ I _ Hv) as Hi; cbn in *; [| |done..].
    + destruct Hi as (z & Hz & ?). exists z. rewrite lookup_insert_ne; [done|]. by eapply Hold.
    + destruct Hi as (z & Hz & ?). exists z. rewrite lookup_insert_ne; [done|]. by eapply Hold.
  - intros c' l' [[<- <-]|[? Hz]]%lookup_insert_Some; [unfold c; lia|].
    apply (inv_fresh_client _ _ _ _ I) in Hz. lia.
  - intros c' Hc'%(inv_fresh_closed _ _ _ _ I). lia.
  - intros c' Hc'. apply I. lia.
  - intros l' E%(inv_fresh_lease _ _ _ _ I). lia.
  - pose proof (count_with_client e s g l serial fd I Hnew). lia.
  - split; [split; [done|]|apply I]. destruct (g_leases g !! c) as [l'|] eqn:E; [|done].
    apply (inv_fresh_client _ _ _ _ I) in E. unfold c in E. lia.
Qed.

Definition with_lease (y : lease) s : service :=
  set_host_leases (s.(host_leases) ++ [s.(fresh)])
    (set_leases (<[s.(fresh) := y]> s.(leases)) (set_fresh (S s.(fresh)) s)).

Lemma inv_admit_lease e s g y :
  inv None e s g → (length s.(host_leases) < MAX_LEASES)%nat →
  y.(l_revoked) = false → y.(l_acknowledged) = false → y.(l_input) = [] →
  inv None e (with_lease y s) g.
Proof.
  intros I Hlen Hr Ha Hin. set (l := s.(fresh)).
  assert (Hnew : s.(leases) !! l = None).
  { destruct (s.(leases) !! l) as [x|] eqn:E; [|done].
    assert (l < s.(fresh))%nat by (apply (inv_fresh_lease _ _ _ _ I); left; by rewrite E). unfold l in *. lia. }
  assert (Hold : ∀ l' z, s.(leases) !! l' = Some z → l ≠ l') by (intros l' z Hz <-; congruence).
  assert (Hq : ∀ x, x ∈ queued e s → x ≠ HOST_REGISTER l ∧ x ≠ HOST_REVOKE l).
  { intros x Hx. apply (event_alive _ _ _ _ _ I) in Hx. split; intros ->; destruct Hx; congruence. }
  split; cbn; try apply I.
  - apply NoDup_app. split_and!; [apply I| |apply NoDup_singleton].
    intros z Hz%I ->%list_elem_of_singleton. fold l in Hz. rewrite Hnew in Hz. by destruct Hz.
  - intros z. rewrite elem_of_app, list_elem_of_singleton, lookup_insert_is_Some', (inv_leases_listed _ _ _ _ I z). naive_solver.
  - intros c x Hx. destruct (inv_client _ _ _ _ I c x Hx). split; cbn; try done.
    + rewrite lookup_insert_is_Some'. by right.
    + intros z. destruct ci_lease0 as [v Hv]. rewrite lookup_insert_ne by (by eapply Hold). apply ci_revoked0.
  - intros l' z [[<- <-]|[? Hz]]%lookup_insert_Some.
    + split; rewrite ?Hr, ?Ha, ?Hin; try done; [| |cbn; lia].
      * intros _ Hx%Hq. naive_solver.
      * intros _ Hx%Hq. naive_solver.
    + by destruct (inv_lease _ _ _ _ I l' z Hz).
  - intros x Hx. pose proof (inv_event _ _ _ _ I x Hx) as Hi. destruct x as [c' d|l'|l']; cbn in *.
    + destruct Hi as (z & v & Hz & Hv & ?). exists z, v. rewrite lookup_insert_ne; [done|]. by eapply Hold.
    + destruct Hi as (v & Hv & ?). exists v. rewrite lookup_insert_ne; [done|]. by eapply Hold.
    + destruct Hi as (v & Hv & ?). exists v. rewrite lookup_insert_ne; [done|]. by eapply Hold.
  - intros [c'|c'|l'|l'|] Hv; pose proof (inv_watch _ _ _ _ I _ Hv) as Hi; cbn in *; [done..| | |done].
    + destruct Hi as (z & Hz & ?). exists z. rewrite lookup_insert_ne; [done|]. by eapply Hold.
    + destruct Hi as (z & Hz & ?). exists z. rewrite lookup_insert_ne; [done|]. by eapply Hold.
  - intros c' l' Hc'%(inv_fresh_client _ _ _ _ I). lia.
  - intros c' Hc'%(inv_fresh_closed _ _ _ _ I). lia.
  - intros c' Hc'. apply I. lia.
  - intros l'. rewrite lookup_insert_is_Some'. intros [[<-|E]|E]; [unfold l; lia|..];
      apply Nat.lt_lt_succ_r, (inv_fresh_lease _ _ _ _ I); auto.
  - intros l' z Hg [[<- <-]|[? Hz]]%lookup_insert_Some; [|by eapply (inv_released _ _ _ _ I)].
    assert (l < s.(fresh))%nat by (apply (inv_fresh_lease _ _ _ _ I); by right). unfold l in *. lia.
  - rewrite length_app. cbn. lia.
Qed.

(** ** The main loop takes an event, and is done with it *)

Lemma inv_take s g x q :
  inv None None s g → s.(host_events) = x :: q →
  inv None (Some x) (set_host_events q s) (note_seen (Takes x) g).
Proof.
  intros I Hx.
  assert (Hq : queued (Some x) (set_host_events q s) = queued None s) by (unfold queued; cbn; by rewrite Hx).
  split; cbn; rewrite ?Hq; try apply I.
  - intros c z Hz. destruct (inv_client _ _ _ _ I c z Hz). split; cbn; rewrite ?Hq; done.
  - intros l y Hy. destruct (inv_lease _ _ _ _ I l y Hy). split; cbn; rewrite ?Hq; done.
  - eapply Nat.le_trans; [|apply (inv_calls _ _ _ _ I)]. rewrite Hx, filter_cons. case_decide; cbn; lia.
  - intros c Hc. by destruct (inv_current _ _ _ _ I c Hc).
  - by intros c d [= ->].
  - split; [|apply I].
    assert (Hi : event_inv s x) by (apply (inv_event _ _ _ _ I); unfold queued; cbn; rewrite Hx; left).
    destruct x as [c d|l|l]; cbn in *.
    + destruct Hi as (z & y & Hz & Hy & Ha). exists z.(c_lease). split; [apply (inv_client _ _ _ _ I c z Hz)|].
      intros Hg. by rewrite (inv_released _ _ _ _ I _ y Hg Hy) in Ha.
    + destruct Hi as (y & Hy & Ha & _). intros Hg. by rewrite (inv_released _ _ _ _ I _ y Hg Hy) in Ha.
    + destruct Hi as (y & Hy & Ha & _). intros Hg. by rewrite (inv_released _ _ _ _ I _ y Hg Hy) in Ha.
Qed.

Lemma inv_done_register s g l : inv None (Some (HOST_REGISTER l)) s g → inv None None s g.
Proof.
  intros I.
  assert (Hq : ∀ x, x ∈ queued None s → x ∈ queued (Some (HOST_REGISTER l)) s) by (intros; by right).
  split; try apply I.
  - intros c z Hz. destruct (inv_client _ _ _ _ I c z Hz). by split.
  - intros l' y Hy. destruct (inv_lease _ _ _ _ I l' y Hy). split; auto.
    + intros E Hn%Hq. by apply li_kept0.
    + intros E Hn%Hq. by apply li_unregistered0.
    + intros E E' Hn. specialize (li_pending0 E E' Hn). by apply elem_of_cons in li_pending0 as [|].
  - intros x Hx%Hq. by apply I.
  - intros c Hc. by destruct (inv_current _ _ _ _ I c Hc).
  - done.
Qed.

Lemma inv_done_call s g c d x :
  inv None (Some (HOST_CALL c d)) s g → s.(clients) !! c = Some x →
  inv None None (set_host_current None
    (set_clients (<[c := set_c_pending (u32 (x.(c_pending) - 1)) x]> s.(clients)) s)) g.
Proof.
  intros I Hc. set (x' := set_c_pending _ x).
  assert (Hq : ∀ z, z ∈ queued None s → z ∈ queued (Some (HOST_CALL c d)) s) by (intros; by right).
  pose proof (inv_client _ _ _ _ I c x Hc) as [].
  assert (Hp : x'.(c_pending) = Z.of_nat (calls_of c (queued None s))).
  { cbn. rewrite ci_pending0. unfold queued. simpl. pose proof (calls_of_le c s.(host_events)).
    pose proof (inv_calls _ _ _ _ I). unfold host_max_pending in *.
    rewrite calls_of_cons, decide_True by done. rewrite u32_small; lia. }
  split; cbn; try apply I.
  - intros c'. rewrite (inv_listed _ _ _ _ I c'). rewrite lookup_insert_is_Some'. naive_solver.
  - intros c' z [[<- <-]|[Hne Hz]]%lookup_insert_Some.
    + split; done.
    + destruct (inv_client _ _ _ _ I c' z Hz). split; try done. rewrite ci_pending1.
      unfold queued. simpl. by rewrite calls_of_cons, decide_False by (cbn; congruence).
  - intros l' y Hy. destruct (inv_lease _ _ _ _ I l' y Hy). split; auto.
    + intros E Hn%Hq. by apply li_kept0.
    + intros E Hn%Hq. by apply li_unregistered0.
    + intros E E' Hn. specialize (li_pending0 E E' Hn). by apply elem_of_cons in li_pending0 as [|].
  - intros z Hz%Hq%I. destruct z as [c' ?| |]; cbn in *; [|done..].
    destruct Hz as (v & y & Hv & ? & ?). destruct (decide (c' = c)) as [->|].
    + simplify_eq. exists x'. rewrite lookup_insert_eq. eauto.
    + exists v, y. by rewrite lookup_insert_ne.
  - intros [c'|c'|l|l|] Hv; pose proof (inv_watch _ _ _ _ I _ Hv) as Hi; cbn in *; [| |done..].
    + destruct (decide (c' = c)) as [->|]; [simplify_eq; exists x'; rewrite lookup_insert_eq; naive_solver|by rewrite lookup_insert_ne].
    + destruct (decide (c' = c)) as [->|]; [simplify_eq; exists x'; rewrite lookup_insert_eq; naive_solver|by rewrite lookup_insert_ne].
  - done.
  - eapply Nat.le_trans; [|apply (inv_few_clients _ _ _ _ I)].
    apply open_le; [done|]. intros c'. unfold is_open. cbn.
    destruct (decide (c' = c)) as [->|]; [by rewrite lookup_insert_eq, Hc|by rewrite lookup_insert_ne].
  - done.
Qed.

Lemma inv_current_set s g c d :
  inv None (Some (HOST_CALL c d)) s g → inv None (Some (HOST_CALL c d)) (set_host_current (Some c) s) g.
Proof.
  intros I. split; cbn; try apply I.
  - intros c' x Hx. by destruct (inv_client _ _ _ _ I c' x Hx).
  - intros l y Hy. by destruct (inv_lease _ _ _ _ I l y Hy).
  - intros c' [= ->]. eauto.
Qed.

Lemma inv_acknowledge s g l y :
  inv None (Some (HOST_REVOKE l)) s g → s.(leases) !! l = Some y →
  inv None None (set_leases (<[l := set_l_acknowledged true y]> s.(leases)) s) g.
Proof.
  intros I Hl. set (y' := set_l_acknowledged true y).
  assert (Hq : ∀ z, z ∈ queued None s → z ∈ queued (Some (HOST_REVOKE l)) s) by (intros; by right).
  pose proof (inv_ordered _ _ _ _ I) as [Hafter Hord].
  assert (Hr : y.(l_revoked) = true).
  { destruct (inv_event _ _ _ _ I (HOST_REVOKE l)) as (z & Hz & _ & ?); [left|congruence]. }
  split; cbn; try apply I.
  - intros l'. rewrite (inv_leases_listed _ _ _ _ I l'). rewrite lookup_insert_is_Some'. naive_solver.
  - intros c x Hx. destruct (inv_client _ _ _ _ I c x Hx). split; cbn; try done.
    + rewrite lookup_insert_is_Some'. by right.
    + intros z Hz Hz'. apply lookup_insert_Some in Hz as [[El <-]|[? Hz]]; [|by eauto].
      rewrite <- El in *. eauto.
  - intros l' z [[<- <-]|[Hne Hz]]%lookup_insert_Some.
    + destruct (inv_lease _ _ _ _ I l y Hl). split; cbn; try done.
      * congruence.
      * intros E Hn%Hq. by apply li_unregistered0.
    + destruct (inv_lease _ _ _ _ I l' z Hz). split; auto.
      * intros E Hn%Hq. by apply li_kept0.
      * intros E Hn%Hq. by apply li_unregistered0.
      * intros E E' Hn. specialize (li_pending0 E E' Hn). apply elem_of_cons in li_pending0 as [|]; [congruence|done].
  - intros z Hz. pose proof (Hafter z Hz) as Hna. pose proof (inv_event _ _ _ _ I z (Hq z Hz)) as Hi.
    destruct z as [c d|l'|l']; cbn in *.
    + destruct Hi as (x & v & Hx & Hv & ?). exists x, v. split_and!; [done| |done].
      rewrite lookup_insert_ne; [done|]. intros E. apply Hna. rewrite E. apply (inv_client _ _ _ _ I c x Hx).
    + destruct Hi as (v & Hv & ?). exists v. rewrite lookup_insert_ne; [done|congruence].
    + destruct Hi as (v & Hv & ?). exists v. rewrite lookup_insert_ne; [done|congruence].
  - intros [c'|c'|l'|l'|] Hv; pose proof (inv_watch _ _ _ _ I _ Hv) as Hi; cbn in *; [done..| | |done].
    + destruct Hi as (z & Hz & ?). destruct (decide (l' = l)) as [->|].
      * simplify_eq. exists y'. by rewrite lookup_insert_eq.
      * exists z. by rewrite lookup_insert_ne.
    + destruct Hi as (z & Hz & ?). destruct (decide (l' = l)) as [->|].
      * simplify_eq. exists y'. by rewrite lookup_insert_eq.
      * exists z. by rewrite lookup_insert_ne.
  - intros c Hc. by destruct (inv_current _ _ _ _ I c Hc).
  - intros l'. rewrite lookup_insert_is_Some'. intros [[El|?]|?]; apply (inv_fresh_lease _ _ _ _ I); [rewrite <- El|..]; eauto.
  - intros l' z Hg [[<- <-]|[? Hz]]%lookup_insert_Some; [done|]. eapply (inv_released _ _ _ _ I); eauto.
  - done.
Qed.

Lemma inv_note_released s g l y :
  inv None None s g → s.(leases) !! l = Some y → y.(l_acknowledged) = true →
  inv None None s (note_seen (Released l) g).
Proof.
  intros I Hl Ha. split; cbn; try apply I.
  - intros c x Hx. by destruct (inv_client _ _ _ _ I c x Hx).
  - intros l' [?|[->%elem_of_singleton|?]%elem_of_union]; apply (inv_fresh_lease _ _ _ _ I); eauto.
  - intros l' z [->%elem_of_singleton|Hg]%elem_of_union Hz; [congruence|]. by eapply (inv_released _ _ _ _ I).
Qed.

(** ** Freeing *)

Lemma remove_fast_perm {A} i (l : list A) x : l !! i = Some x → l ≡ₚ x :: remove_fast i l.
Proof.
  intros Hi. destruct l as [|z l _] using rev_ind; [done|].
  unfold remove_fast. rewrite last_snoc, length_app, Nat.add_sub. cbn.
  destruct (decide (i = length l)) as [->|Hn].
  - rewrite list_lookup_middle in Hi by done. injection Hi as <-.
    rewrite insert_app_r_alt, Nat.sub_diag by lia. cbn. rewrite take_app_length.
    by rewrite Permutation_app_comm.
  - assert (i < length l)%nat by (apply lookup_lt_Some in Hi; rewrite length_app in Hi; cbn in Hi; lia).
    rewrite lookup_app_l in Hi by done. rewrite insert_app_l by done.
    rewrite take_app_length' by (by rewrite length_insert).
    rewrite <- (take_drop_middle l i x Hi) at 1. rewrite insert_take_drop by done.
    rewrite <- !app_assoc. cbn. rewrite <- Permutation_middle. constructor.
    apply Permutation_app_head. by rewrite Permutation_app_comm.
Qed.

Lemma remove_fast_NoDup {A} i (l : list A) x :
  l !! i = Some x → NoDup l → NoDup (remove_fast i l) ∧ ∀ y, y ∈ remove_fast i l ↔ y ∈ l ∧ y ≠ x.
Proof.
  intros Hi Hl. pose proof (remove_fast_perm i l x Hi) as Hp.
  rewrite Hp in Hl. apply NoDup_cons in Hl as [Hx Hl]. split; [done|].
  intros y. rewrite (elem_of_Permutation_proper y _ _ Hp), elem_of_cons. naive_solver.
Qed.

Lemma inv_collect_client s g c x i :
  inv None None s g → s.(host_clients) !! i = Some c → s.(clients) !! c = Some x →
  collectable s x c = true →
  inv None None (set_host_clients (remove_fast i s.(host_clients)) (set_clients (delete c s.(clients)) s)) g.
Proof.
  intros I Hi Hc [[Hx Hp%Z.eqb_eq]%andb_true_iff _]%andb_true_iff.
  destruct (remove_fast_NoDup i _ c Hi (inv_nodup _ _ _ _ I)) as [Hnd Hel].
  pose proof (inv_client _ _ _ _ I c x Hc) as [].
  assert (Hq : ∀ d, HOST_CALL c d ∉ queued None s).
  { intros d Hd. rewrite Hp in ci_pending0. unfold calls_of in ci_pending0.
    assert (HOST_CALL c d ∈ filter (λ e, client_of e = Some c) (queued None s)) as Hf
      by (apply list_elem_of_filter; done).
    destruct (filter _ _); [by apply elem_of_nil in Hf|cbn in ci_pending0; lia]. }
  destruct (ci_closed0 Hx) as [Hs Hw].
  split; cbn; try apply I; try done.
  - intros c'. rewrite Hel, (inv_listed _ _ _ _ I c'), lookup_delete_is_Some. naive_solver.
  - intros c' z [? Hz]%lookup_delete_Some. by destruct (inv_client _ _ _ _ I c' z Hz).
  - intros l y Hy. by destruct (inv_lease _ _ _ _ I l y Hy).
  - intros [c' d|l|l] Hd; pose proof (inv_event _ _ _ _ I _ Hd) as Hv; cbn in *; [|done..].
    destruct Hv as (z & y & Hz & ?). exists z, y. rewrite lookup_delete_ne; [done|]. intros <-. by apply Hq in Hd.
  - intros [c'|c'|l|l|] Hv; pose proof (inv_watch _ _ _ _ I _ Hv) as Hw'; cbn in *; [| |done..].
    + destruct Hw' as (z & Hz & ?). exists z. rewrite lookup_delete_ne; [done|]. intros <-. congruence.
    + destruct Hw' as (z & Hz & ?). exists z. rewrite lookup_delete_ne; [done|]. intros <-. congruence.
  - eapply Nat.le_trans; [|apply (inv_few_clients _ _ _ _ I)].
    unfold host_client_count, open_clients. cbn.
    eapply Nat.le_trans; [apply (open_le_in s)|].
    + intros c' _. unfold is_open. cbn. destruct (decide (c' = c)) as [->|]; [by rewrite lookup_delete_eq|by rewrite lookup_delete_ne].
    + rewrite (remove_fast_perm i s.(host_clients) c Hi) at 2. rewrite filter_cons. case_decide; cbn; lia.
Qed.

Lemma inv_collect_lease s g l y i :
  inv None None s g → s.(host_leases) !! i = Some l → s.(leases) !! l = Some y →
  y.(l_acknowledged) = true → (∀ c x, s.(clients) !! c = Some x → x.(c_lease) ≠ l) →
  inv None None (set_host_leases (remove_fast i s.(host_leases)) (set_leases (delete l s.(leases)) s)) g.
Proof.
  intros I Hi Hl Ha Hn.
  destruct (remove_fast_NoDup i _ l Hi (inv_leases_nodup _ _ _ _ I)) as [Hnd Hel].
  destruct (inv_lease _ _ _ _ I l y Hl). destruct (li_revoked0 (li_acknowledged0 Ha)) as [Hs Hw].
  split; cbn; try apply I; try done.
  - intros l'. rewrite Hel, (inv_leases_listed _ _ _ _ I l'), lookup_delete_is_Some. naive_solver.
  - intros c x Hx. destruct (inv_client _ _ _ _ I c x Hx). specialize (Hn c x Hx). split; cbn; try done.
    + by rewrite lookup_delete_ne.
    + intros z [? Hz]%lookup_delete_Some. eauto.
  - intros l' z [? Hz]%lookup_delete_Some. by destruct (inv_lease _ _ _ _ I l' z Hz).
  - intros [c' d|l'|l'] Hd; pose proof (inv_event _ _ _ _ I _ Hd) as Hv; cbn in *.
    + destruct Hv as (z & v & Hz & Hv & ?). exists z, v. rewrite lookup_delete_ne; [done|]. intros E. by eapply Hn.
    + destruct Hv as (v & Hv & ?). exists v. rewrite lookup_delete_ne; [naive_solver|naive_solver congruence].
    + destruct Hv as (v & Hv & ?). exists v. rewrite lookup_delete_ne; [naive_solver|naive_solver congruence].
  - intros [c'|c'|l'|l'|] Hv; pose proof (inv_watch _ _ _ _ I _ Hv) as Hw'; cbn in *; [done..| | |done].
    + destruct Hw' as (z & Hz & ?). exists z. rewrite lookup_delete_ne; [done|]. intros <-. congruence.
    + destruct Hw' as (z & Hz & ?). exists z. rewrite lookup_delete_ne; [done|]. intros <-. congruence.
  - intros l' [[z [? Hz]%lookup_delete_Some]|?]; apply (inv_fresh_lease _ _ _ _ I); eauto.
  - intros l' z Hg [? Hz]%lookup_delete_Some. by eapply (inv_released _ _ _ _ I).
  - pose proof (inv_few_leases _ _ _ _ I) as Hf. rewrite (remove_fast_perm i s.(host_leases) l Hi) in Hf. cbn in Hf. lia.
Qed.

(** ** A lease is revoked *)

Definition revoked_lease (y : lease) : lease :=
  set_l_source false (set_l_listener (-1) (set_l_accept_source false (set_l_revoked true y))).

Lemma inv_revoke e s g l y a :
  inv None e s g → s.(leases) !! l = Some y → y.(l_revoked) = false →
  a ⊆ s.(attached) → ControlOf l ∉ a → AcceptOf l ∉ a →
  inv (Some l) e (set_attached a (set_leases (<[l := revoked_lease y]> s.(leases)) s)) g.
Proof.
  intros I Hl Hr Ha Hc Hac. set (y' := revoked_lease y). destruct (inv_lease _ _ _ _ I l y Hl).
  assert (Hn : y.(l_acknowledged) = false).
  { apply not_true_iff_false. intros E%li_acknowledged0. congruence. }
  split; cbn; try apply I.
  - intros l'. rewrite (inv_leases_listed _ _ _ _ I l'). rewrite lookup_insert_is_Some'. naive_solver.
  - intros c x Hx. destruct (inv_client _ _ _ _ I c x Hx). split; cbn; try done.
    + rewrite lookup_insert_is_Some'. by right.
    + intros z Hz Hz' Hne. apply lookup_insert_Some in Hz as [[El <-]|[? Hz]]; [congruence|]. by eapply ci_revoked0.
  - intros l' z [[<- <-]|[Hne Hz]]%lookup_insert_Some.
    + split; cbn; done.
    + destruct (inv_lease _ _ _ _ I l' z Hz). split; auto.
  - intros [c d|l'|l'] Hq; pose proof (inv_event _ _ _ _ I _ Hq) as Hi; cbn in *.
    + destruct Hi as (x & z & Hx & Hz & ?). destruct (decide (x.(c_lease) = l)) as [<-|].
      * simplify_eq. exists x, y'. rewrite lookup_insert_eq. done.
      * exists x, z. by rewrite lookup_insert_ne.
    + destruct Hi as (z & Hz & ? & ?). destruct (decide (l' = l)) as [->|].
      * simplify_eq. exists y'. by rewrite lookup_insert_eq.
      * exists z. by rewrite lookup_insert_ne.
    + destruct Hi as (z & Hz & ? & ?). destruct (decide (l' = l)) as [->|].
      * simplify_eq. exists y'. by rewrite lookup_insert_eq.
      * exists z. by rewrite lookup_insert_ne.
  - intros [c'|c'|l'|l'|] Hv; pose proof (inv_watch _ _ _ _ I _ (Ha _ Hv)) as Hi; cbn in *; [done..| | |done].
    + destruct (decide (l' = l)) as [->|]; [done|]. by rewrite lookup_insert_ne.
    + destruct (decide (l' = l)) as [->|]; [done|]. by rewrite lookup_insert_ne.
  - intros l'. rewrite lookup_insert_is_Some'. intros [[El|?]|?]; apply (inv_fresh_lease _ _ _ _ I); [rewrite <- El|..]; eauto.
  - intros l' z Hg [[<- <-]|[? Hz]]%lookup_insert_Some; [|by eapply (inv_released _ _ _ _ I)].
    by apply (inv_released _ _ _ _ I l y) in Hg.
Qed.

(** ** What a client is answered and sent *)

Lemma inv_replies_closed r e s g c rp line :
  inv r e s g → g.(g_serving) = Some c → c ∈ g.(g_closed) →
  inv r e s (seen (Answered rp (Some line)) g).
Proof.
  intros I Hs Hc. cbn. rewrite Hs.
  assert (Hlt : (c < s.(fresh))%nat) by by apply (inv_fresh_closed _ _ _ _ I).
  split; cbn; try apply I.
  - intros c' x Hx. destruct (inv_client _ _ _ _ I c' x Hx). split; cbn; try done.
    intros Ho. unfold grown. rewrite decide_False; [auto|]. intros ->. apply ci_seen0 in Hc. congruence.
  - intros c' Hc'. destruct (inv_fresh_text _ _ _ _ I c' Hc'). unfold grown. rewrite decide_False; [done|lia].
  - intros c'. unfold grown. case_decide; [apply prefix_app_r|]; apply I.
  - intros c' d E. rewrite <- Hs. by apply (inv_serving _ _ _ _ I c' d E).
Qed.

Lemma inv_deliver r e s g c x n :
  inv r e s g → s.(clients) !! c = Some x → x.(c_closed) = false →
  (n ≤ length (drop x.(c_sent) x.(c_output)))%nat →
  inv r e (set_clients (<[c := set_c_sent (x.(c_sent) + n) x]> s.(clients)) s)
    (note_seen (Delivers c (take n (drop x.(c_sent) x.(c_output)))) g).
Proof.
  intros I Hc Ho Hn. pose proof (inv_client _ _ _ _ I c x Hc) as []. rewrite length_drop in Hn.
  assert (Hout : g.(g_delivered) c ++ take n (drop x.(c_sent) x.(c_output)) ++ drop (x.(c_sent) + n) x.(c_output)
    = g.(g_replies) c).
  { rewrite <- ci_output0 by done. by rewrite <- drop_drop, take_drop. }
  split; cbn; try apply I.
  - intros c'. rewrite (inv_listed _ _ _ _ I c'). rewrite lookup_insert_is_Some'. naive_solver.
  - intros c' z [[<- <-]|[Hne Hz]]%lookup_insert_Some.
    + split; cbn; try done.
      * intros _. unfold grown. rewrite decide_True by done. by rewrite <- app_assoc.
      * intros Hw _. destruct (ci_idle0 Hw Ho) as [E E']. rewrite E, E' in *. cbn in Hn. split; [done|lia].
      * lia.
    + destruct (inv_client _ _ _ _ I c' z Hz). split; cbn; try done.
      unfold grown. by rewrite decide_False.
  - intros l y Hy. by destruct (inv_lease _ _ _ _ I l y Hy).
  - intros [c' d|l|l] Hq%I; cbn in *; [|done..].
    destruct Hq as (z & y & Hz & Hy & Ha). destruct (decide (c' = c)) as [->|].
    + simplify_eq. eexists _, y. by rewrite lookup_insert_eq.
    + exists z, y. by rewrite lookup_insert_ne.
  - intros [c'|c'|l|l|] Hv; pose proof (inv_watch _ _ _ _ I _ Hv) as Hi; cbn in *; [| |done..].
    + destruct (decide (c' = c)) as [->|]; [simplify_eq; eexists; rewrite lookup_insert_eq; naive_solver|by rewrite lookup_insert_ne].
    + destruct (decide (c' = c)) as [->|]; [simplify_eq; eexists; rewrite lookup_insert_eq; naive_solver|by rewrite lookup_insert_ne].
  - intros c' Hc'. destruct (inv_fresh_text _ _ _ _ I c' Hc'). unfold grown. rewrite decide_False; [done|].
    intros ->. apply (client_fresh _ _ _ _ _ _ I) in Hc. lia.
  - intros c'. unfold grown. case_decide as E; [|apply I]. subst c'. rewrite <- Hout, app_assoc. by apply prefix_app_r.
  - eapply Nat.le_trans; [|apply (inv_few_clients _ _ _ _ I)].
    apply open_le; [done|]. intros c'. unfold is_open. cbn.
    destruct (decide (c' = c)) as [->|]; [by rewrite lookup_insert_eq, Hc|by rewrite lookup_insert_ne].
Qed.

Lemma inv_answer r e s g c x rp line :
  inv r e s g → g.(g_serving) = Some c → s.(clients) !! c = Some x → x.(c_closed) = false →
  Z.of_nat (length x.(c_output) + length line) ≤ MAX_OUTPUT →
  inv r e (set_clients (<[c := set_c_writer true (set_c_output (x.(c_output) ++ line ++ [char 10]) x)]> s.(clients)) s)
    (seen (Answered rp (Some line)) g).
Proof.
  intros I Hs Hc Ho Hlen. cbn. rewrite Hs. pose proof (inv_client _ _ _ _ I c x Hc) as [].
  split; cbn; try apply I.
  - intros c'. rewrite (inv_listed _ _ _ _ I c'). rewrite lookup_insert_is_Some'. naive_solver.
  - intros c' z [[<- <-]|[Hne Hz]]%lookup_insert_Some.
    + split; cbn; try done.
      * intros E. congruence.
      * intros _. unfold grown. rewrite decide_True by done. rewrite drop_app_le, app_assoc by done.
        by rewrite ci_output0.
      * rewrite length_app. lia.
      * rewrite !length_app. cbn. lia.
    + destruct (inv_client _ _ _ _ I c' z Hz). split; cbn; try done.
      unfold grown. by rewrite decide_False.
  - intros l y Hy. by destruct (inv_lease _ _ _ _ I l y Hy).
  - intros [c' d|l|l] Hq%I; cbn in *; [|done..].
    destruct Hq as (z & y & Hz & Hy & Ha). destruct (decide (c' = c)) as [->|].
    + simplify_eq. eexists _, y. by rewrite lookup_insert_eq.
    + exists z, y. by rewrite lookup_insert_ne.
  - intros [c'|c'|l|l|] Hv; pose proof (inv_watch _ _ _ _ I _ Hv) as Hi; cbn in *; [| |done..].
    + destruct (decide (c' = c)) as [->|]; [simplify_eq; eexists; rewrite lookup_insert_eq; naive_solver|by rewrite lookup_insert_ne].
    + destruct (decide (c' = c)) as [->|]; [simplify_eq; eexists; rewrite lookup_insert_eq; naive_solver|by rewrite lookup_insert_ne].
  - intros c' Hc'. destruct (inv_fresh_text _ _ _ _ I c' Hc'). unfold grown. rewrite decide_False; [done|].
    intros ->. apply (client_fresh _ _ _ _ _ _ I) in Hc. lia.
  - intros c'. unfold grown. case_decide; [apply prefix_app_r|]; apply I.
  - eapply Nat.le_trans; [|apply (inv_few_clients _ _ _ _ I)].
    apply open_le; [done|]. intros c'. unfold is_open. cbn.
    destruct (decide (c' = c)) as [->|]; [by rewrite lookup_insert_eq, Hc|by rewrite lookup_insert_ne].
  - intros c' d E. rewrite <- Hs. by apply (inv_serving _ _ _ _ I c' d E).
Qed.

Lemma inv_registered_once r e s g b : inv r e s g → inv r e (set_registered_once b s) g.
Proof.
  intros I. split; cbn; try apply I.
  - intros c x Hx. by destruct (inv_client _ _ _ _ I c x Hx).
  - intros l y Hy. by destruct (inv_lease _ _ _ _ I l y Hy).
Qed.

Lemma inv_start : inv None None no_service no_ghost.
Proof.
  assert (Hn : ∀ l : list host_event, l = [] → ∀ x, x ∉ l) by (intros l -> x; apply not_elem_of_nil).
  split; cbn; try done; try set_solver.
  - apply NoDup_nil_2.
  - intros c. rewrite lookup_empty. split; [by intros ?%elem_of_nil|by intros []].
  - apply NoDup_nil_2.
  - intros l. rewrite lookup_empty. split; [by intros ?%elem_of_nil|by intros []].
  - apply Nat.le_0_l.
  - intros l [[y Hy]|?]; [by rewrite lookup_empty in Hy|set_solver].
  - apply Nat.le_0_l.
  - apply Nat.le_0_l.
Qed.
End invariant.
