(* ===== verification/ComputerKept.v ===== *)
(** * What the host's program keeps while it waits

    Every callback and every wait keeps the invariant of [ComputerInv], and that
    input is held on devices that are there, whatever the system answers: so none
    reads a client or a lease that was freed, sends to an input device that is
    gone, or ends the process of a helper that it does not have. *)

From S2P Require Import Prelude Json Catalog Results.
From S2P Require Export ComputerInv.

Section safe.
Context `{Json_text} {surroundings : Surroundings} {keys_held : nat} {opens : bool} {fuel : nat}.
Abbreviation M := (mcp host note).
Abbreviation sv s := s.(own).(the_service).

(** What is held is held on a device of the list; at most [keys_held] keys are.
    Without a connection there is no list, and where nothing [opens] one there is
    none. *)
Record visual_inv (v : visual) : Prop := {
  vi_held d : v.(held_device) = Some d → is_listed d v = true;
  vi_keyboard d : v.(keyboard_device) = Some d → is_listed d v = true;
  vi_keys : v.(keyboard_device) = None → v.(held_keys) = [];
  vi_few : (length v.(held_keys) ≤ keys_held)%nat;
  vi_input : v.(visual_input) = false → v.(devices) = None;
  vi_closed : opens = false → v.(visual_input) = false;
}.

Definition desktop_inv (d : desktop) : Prop := d.(helper_stopping) = true → is_Some d.(helper).

Definition MAX_CANCELLED : nat := 256.

Definition rest_inv (s : server host) : Prop :=
  visual_inv s.(own).(the_visual) ∧ desktop_inv s.(own).(the_desktop) ∧
  (size s.(cancelled_ids) ≤ MAX_CANCELLED)%nat.

(** The invariant, at a state that [s0] has led to. *)
Definition J (s0 : service) (r : option lid) (e : option host_event) : assertion := λ s g,
  inv r e (sv s) g ∧ kept s0 (sv s) ∧ rest_inv s.

(** A run that keeps the invariant. *)
Definition keeps {A} s0 r e (m : M A) : Prop := safe (J s0 r e) m (λ _, J s0 r e).

Lemma keeps_then {A B} s0 r e (m : M A) (f : A → M B) :
  keeps s0 r e m → (∀ x, keeps s0 r e (f x)) → keeps s0 r e (m ≫= f).
Proof. intros Hm Hf. eapply safe_bind; [exact Hm|done]. Qed.

Lemma keeps_from {A} s0 r e (m : M A) (p : assertion) :
  keeps s0 r e m → (∀ s g, p s g → J s0 r e s g) → safe p m (λ _, J s0 r e).
Proof. intros Hm Hp. by eapply safe_mono; [exact Hm| |]. Qed.

Lemma keeps_value {A} s0 r e (x : A) : keeps s0 r e (mret x).
Proof. by apply safe_ret. Qed.

Lemma keeps_no_fuel {A} s0 r e : keeps s0 r e (out_of_fuel : M A).
Proof. by apply safe_fuel. Qed.

Lemma keeps_look s0 r e : keeps s0 r e get.
Proof. by apply safe_get. Qed.

Lemma keeps_the {A} s0 r e (f : host → A) : keeps s0 r e (the f).
Proof. by apply safe_the. Qed.

Lemma keeps_asked {A} s0 r e (q : request A) : keeps s0 r e (ask q).
Proof. by apply safe_ask. Qed.

Lemma keeps_changed s0 r e f :
  (∀ s, (f s).(own) = s.(own)) → (∀ s, (f s).(cancelled_ids) = s.(cancelled_ids)) →
  keeps s0 r e (modify f).
Proof. intros Ho Hc. apply safe_modify. intros s g. unfold J, rest_inv. by rewrite Ho, Hc. Qed.

Lemma keeps_visual s0 r e f : (∀ v, visual_inv v → visual_inv (f v)) → keeps s0 r e (in_visual f).
Proof. intros Hf. apply safe_visual. intros s g (? & ? & Hv & ?). unfold J, rest_inv. cbn. auto. Qed.

Lemma keeps_desktop s0 r e f : (∀ d, desktop_inv d → desktop_inv (f d)) → keeps s0 r e (in_desktop f).
Proof. intros Hf. apply safe_desktop. intros s g (? & ? & ? & Hd & ?). unfold J, rest_inv. cbn. auto 6. Qed.

Lemma keeps_recorded s0 r e ev : (∀ g, seen ev g = g) → keeps s0 r e (record ev).
Proof. intros He. apply safe_record. intros s g. by rewrite He. Qed.

Lemma keeps_each {A} s0 r e (l : list A) f : (∀ x, x ∈ l → keeps s0 r e (f x)) → keeps s0 r e (each l f).
Proof. intros Hf. by apply safe_each. Qed.

Lemma keeps_scu_fail s0 r e c h : keeps s0 r e (scu_fail c h).
Proof.
  apply keeps_then; [|intros; apply keeps_value]. apply keeps_changed; intros s; by destruct (code s).
Qed.

Lemma keeps_see_lock s0 r e : keeps s0 r e see_lock.
Proof. apply keeps_changed; intros s; by destruct (lock_monitor s). Qed.

Hint Resolve keeps_value keeps_no_fuel keeps_look keeps_the keeps_asked keeps_scu_fail keeps_see_lock : keeps.

(** Steps through a program whose parts all keep the invariant. *)
Ltac keeps_step :=
  lazymatch goal with
  | |- keeps _ _ _ (_ ≫= _) => apply keeps_then; [|intros ?]
  | |- keeps _ _ _ (if ?b then _ else _) => destruct b
  | |- keeps _ _ _ (match ?x with _ => _ end) => destruct x
  | |- keeps _ _ _ (let '_ := ?x in _) => destruct x
  | |- keeps _ _ _ (modify (set_stopping _)) => by apply keeps_changed
  | |- keeps _ _ _ (modify (set_cancelled _)) => by apply keeps_changed
  | |- keeps _ _ _ (modify (set_lock_monitor _)) => by apply keeps_changed
  | |- keeps _ _ _ _ => solve [eauto with keeps]
  end.
Ltac keeps := repeat (cbv zeta; keeps_step).

(** ** Input *)

(** A device that the list has, and what is held on it. *)
Definition K s0 r e (d : Z) (P : visual → Prop) : assertion := λ s g,
  J s0 r e s g ∧ is_listed d s.(own).(the_visual) = true ∧ P s.(own).(the_visual).

Lemma safe_on_device s0 r e d P q : safe (K s0 r e d P) (on_device d q) (λ _, K s0 r e d P).
Proof.
  eapply (safe_bind _ _ _ (λ v s g, K s0 r e d P s g ∧ is_listed d v = true)).
  - apply safe_the. by intros s g (? & ? & ?).
  - intros v. destruct (is_listed d v); [|by intros w [_ ?]].
    apply safe_ask. by intros s g x o [? _].
Qed.

Lemma safe_keep_visual s0 r e d (P Q : visual → Prop) f :
  (∀ v, (f v).(devices) = v.(devices)) → (∀ v, visual_inv v → P v → visual_inv (f v) ∧ Q (f v)) →
  safe (K s0 r e d P) (in_visual f) (λ _, K s0 r e d Q).
Proof.
  intros Hd Hf. apply safe_visual. intros s g ((? & ? & Hv & ?) & Hl & HP). destruct (Hf _ Hv HP).
  split_and!; [unfold J, rest_inv; cbn; auto| |done]. unfold is_listed in *. cbn. by rewrite Hd.
Qed.

Lemma safe_input_frame s0 r e d P :
  (∀ v n t, P v → P (set_last_input_time t v) ∧ P (set_input_sequence n v)) →
  safe (K s0 r e d P) (input_frame d) (λ _, K s0 r e d P).
Proof.
  intros HP. unfold input_frame. eapply safe_bind; [by apply (safe_ask _ _ (λ _, K s0 r e d P))|intros t].
  eapply safe_bind; [apply safe_on_device|intros []].
  eapply safe_bind; [apply (safe_keep_visual s0 r e d P P); [done|]|intros []].
  { intros v [] ?. split; [by split|]. by apply (HP v _ 0). }
  eapply safe_bind; [by apply (safe_ask _ _ (λ _, K s0 r e d P))|intros t'].
  apply safe_keep_visual; [done|]. intros v [] ?. split; [by split|]. by apply (HP v 0 _).
Qed.

(** The keys that are still held on the keyboard. *)
Definition holding (d : Z) (ks : list Z) (v : visual) : Prop :=
  v.(keyboard_device) = Some d ∧ v.(held_keys) = ks.

Lemma safe_release_keys s0 r e d ks :
  safe (K s0 r e d (holding d ks)) (release_keys d ks) (λ _, K s0 r e d (holding d [])).
Proof.
  induction ks as [|k ks IH]; [by apply safe_ret|]. cbn [release_keys].
  eapply safe_bind; [apply (safe_keep_visual _ _ _ _ _ (holding d ks)); [done|]|intros []].
  { intros v [] [Hk Hs]. split; [|done]. split; cbn; [done|done|congruence| |done|done]. rewrite Hs in vi_few0. cbn in vi_few0. lia. }
  eapply safe_bind; [apply safe_on_device|intros []].
  eapply safe_bind; [apply safe_input_frame; done|intros []]. done.
Qed.

Lemma safe_the_visual s0 r e :
  safe (J s0 r e) (the the_visual) (λ v s g, J s0 r e s g ∧ visual_inv v ∧ v = s.(own).(the_visual)).
Proof. apply safe_the. intros s g (? & ? & ? & ? & ?). by split_and!. Qed.

(** Nothing is held after it. *)
Lemma safe_release_input s0 r e :
  safe (J s0 r e) release_input (λ _ s g, J s0 r e s g ∧ s.(own).(the_visual).(held_keys) = []).
Proof.
  unfold release_input. eapply safe_bind; [apply safe_the_visual|]. intros v.
  eapply (safe_bind _ _ _ (λ _, J s0 r e)).
  - destruct (held_device v) as [d|] eqn:E; [|apply safe_ret; naive_solver].
    apply (safe_mono _ (K s0 r e d (λ _, True)) _ (λ _, J s0 r e)); [|intros s g (HJ & Hv & ->)|done].
    + eapply safe_bind; [apply safe_on_device|intros []].
      eapply safe_bind; [apply safe_input_frame; done|intros []].
      eapply safe_mono; [apply keeps_visual|by intros s g [? _]|done]. intros v' []. by split.
    + split; [done|]. split; [|done]. by apply Hv.
  - intros []. eapply safe_bind; [apply safe_the_visual|]. intros v'.
    destruct (keyboard_device v') as [d|] eqn:E.
    + apply (safe_mono _ (K s0 r e d (holding d (held_keys v'))) _ (λ _ s g, J s0 r e s g ∧ s.(own).(the_visual).(held_keys) = []));
        [|intros s g (HJ & Hv & ->)|done].
      * eapply safe_bind; [apply safe_release_keys|intros []].
        apply safe_visual. intros s g ((I & Hk & Hv & Hr) & _ & _ & Hs). cbn. split; [|done].
        split; [done|split; [done|split; [|done]]]. destruct Hv. by split; cbn.
      * split; [done|split; [by apply (vi_keyboard _ Hv)|by split]].
    + apply safe_ret. intros s g (HJ & Hv & ->). split; [done|]. by apply Hv.
Qed.

Lemma keeps_release_input s0 r e : keeps s0 r e release_input.
Proof. eapply safe_mono; [apply safe_release_input|done|]. by intros [] s g [? _]. Qed.
Hint Resolve keeps_release_input : keeps.

Lemma listed_update d d' f v :
  (∀ x, (f x).(raw) = x.(raw)) → is_listed d' (change_devices (update_device d f) v) = is_listed d' v.
Proof.
  intros Hf. unfold is_listed, change_devices. cbn. destruct (devices v) as [l|]; [|done]. cbn.
  induction l as [|x l IH]; [done|]. cbn. case_match; cbn; [by rewrite Hf|by rewrite IH].
Qed.

Lemma listed_remove d d' v :
  d' ≠ d → is_listed d' (change_devices (remove_device d) v) = is_listed d' v.
Proof.
  intros Hd. unfold is_listed, change_devices. cbn. destruct (devices v) as [l|]; [|done]. cbn.
  induction l as [|x l IH]; [done|]. cbn. case_match eqn:E; cbn; [|by rewrite IH].
  apply Z.eqb_eq in E. rewrite (proj2 (Z.eqb_neq _ _)) by congruence. done.
Qed.

Lemma listed_added d d' v :
  is_listed d' v = true → is_listed d' (change_devices (λ l, l ++ [Device d false 0 0 0 0]) v) = true.
Proof.
  unfold is_listed, change_devices. cbn. destruct (devices v) as [l|]; [|done]. cbn.
  intros Hl. by rewrite existsb_app, Hl.
Qed.

(** What is held after a device is gone is held on another. *)
Lemma drop_device_held d v :
  (drop_device d v).(devices) = v.(devices) ∧
  (∀ d', (drop_device d v).(held_device) = Some d' → v.(held_device) = Some d' ∧ d' ≠ d) ∧
  (∀ d', (drop_device d v).(keyboard_device) = Some d' → v.(keyboard_device) = Some d' ∧ d' ≠ d).
Proof. unfold drop_device. repeat case_bool_decide; cbn; naive_solver congruence. Qed.

Lemma drop_device_input d v : (drop_device d v).(visual_input) = v.(visual_input).
Proof. unfold drop_device. by repeat case_bool_decide. Qed.

Lemma drop_device_keys d v :
  ((drop_device d v).(held_keys) = v.(held_keys) ∧ (drop_device d v).(keyboard_device) = v.(keyboard_device)) ∨
  ((drop_device d v).(held_keys) = [] ∧ (drop_device d v).(keyboard_device) = None).
Proof. unfold drop_device. repeat case_bool_decide; cbn; auto. Qed.

Lemma visual_pause d v : visual_inv v → visual_inv (pause_device d v).
Proof.
  intros [Hh Hk Hn Hf Hi Hc]. unfold pause_device. set (w := change_devices _ _).
  assert (Hw : ∀ d', is_listed d' w = is_listed d' v).
  { intros d'. unfold w. by rewrite listed_update. }
  destruct (drop_device_held d w) as (Hd & Hh' & Hk').
  assert (Hl : ∀ d', is_listed d' (drop_device d w) = is_listed d' v).
  { intros d'. rewrite <- Hw. unfold is_listed. by rewrite Hd. }
  split.
  - intros d'. rewrite Hl. intros [? _]%Hh'. auto.
  - intros d'. rewrite Hl. intros [? _]%Hk'. auto.
  - destruct (drop_device_keys d w) as [[-> ->]|[-> _]]; auto.
  - destruct (drop_device_keys d w) as [[-> _]|[-> _]]; [done|cbn; lia].
  - rewrite drop_device_input, Hd. intros E. unfold w. cbn. by rewrite Hi.
  - by rewrite drop_device_input.
Qed.

Lemma visual_remove d v : visual_inv v → visual_inv (change_devices (remove_device d) (pause_device d v)).
Proof.
  intros Hv. destruct (visual_pause d v Hv) as [Hh Hk Hn Hf Hi Hc].
  assert (Hd : ∀ d', (pause_device d v).(held_device) = Some d' ∨ (pause_device d v).(keyboard_device) = Some d' → d' ≠ d).
  { unfold pause_device. destruct (drop_device_held d (change_devices (update_device d (set_resumed false)) (revised v)))
      as (_ & Hh' & Hk'). intros d' [[_ ?]%Hh'|[_ ?]%Hk']; done. }
  split; [intros d' Hd'..|exact Hn|exact Hf|intros E; cbn; by rewrite Hi|exact Hc]; (rewrite listed_remove; [by auto|apply Hd; auto]).
Qed.

(** The list of devices changes, what is held does not. *)
Lemma visual_devices f v :
  (∀ d, is_listed d v = true → is_listed d (change_devices f v) = true) →
  visual_inv v → visual_inv (change_devices f v).
Proof. intros Hf []. split; [intros d Hd; by apply Hf, vi_held0|intros d Hd; by apply Hf, vi_keyboard0|done|done| |done].
  intros E. cbn. by rewrite vi_input0. Qed.

Lemma visual_revised v : visual_inv v → visual_inv (revised v).
Proof. intros []. by split. Qed.

Lemma keeps_backend_event s0 r e ev : keeps s0 r e (backend_event ev).
Proof.
  unfold backend_event. keeps.
  - apply keeps_visual. intros v []. by split.
  - apply keeps_visual. intros v Hv%visual_revised. apply visual_devices; [intros ?; apply listed_added|done].
  - apply keeps_visual. intros v []. by split.
  - apply keeps_visual. intros v. apply visual_devices. intros d'. by rewrite listed_update.
  - apply keeps_visual. intros v Hv%visual_revised.
    destruct (visual_devices (update_device d (set_resumed true)) (revised v)); [intros d'; by rewrite listed_update|done|].
    by split.
  - apply keeps_visual, visual_pause.
  - apply keeps_visual, visual_remove.
Qed.

Lemma keeps_poll_backend s0 r e : keeps s0 r e poll_backend.
Proof.
  unfold poll_backend. keeps; [apply keeps_visual; intros v []; by split|].
  apply keeps_each. intros ev _. apply keeps_backend_event.
Qed.

Lemma keeps_visual_close s0 r e : keeps s0 r e scu_visual_close.
Proof.
  unfold scu_visual_close. keeps. apply keeps_visual. intros v _. split; cbn; solve [done|lia].
Qed.
Hint Resolve keeps_poll_backend keeps_visual_close : keeps.

(** ** The desktop *)

Lemma keeps_check_lock s0 r e : keeps s0 r e desktop_check_lock.
Proof. unfold desktop_check_lock. keeps. Qed.

Lemma keeps_noted s0 r e n b :
  (∀ g, note_seen n g = with_verified b g) → keeps s0 r e (noted n).
Proof.
  intros Hn. apply safe_record. intros s g (I & ?). split; [|done]. cbn. rewrite Hn.
  destruct I. split; cbn; auto. intros c x Hx. by destruct (inv_client c x Hx).
Qed.

Lemma keeps_allowed s0 r e : keeps s0 r e (noted Allowed).
Proof. by apply (keeps_noted _ _ _ _ false). Qed.

Lemma keeps_verified s0 r e : keeps s0 r e (noted Verified).
Proof. by apply (keeps_noted _ _ _ _ true). Qed.
Hint Resolve keeps_allowed keeps_verified : keeps.

Lemma keeps_input_allowed s0 r e : keeps s0 r e desktop_input_allowed.
Proof. unfold desktop_input_allowed. keeps. Qed.
Hint Resolve keeps_check_lock keeps_input_allowed : keeps.

Lemma safe_the_desktop s0 r e :
  safe (J s0 r e) (the the_desktop) (λ d s g, J s0 r e s g ∧ desktop_inv d ∧ d = s.(own).(the_desktop)).
Proof. apply safe_the. intros s g (? & ? & ? & ? & ?). by split_and!. Qed.

Lemma keeps_properties s0 r e i l a inv : keeps s0 r e (desktop_properties i l a inv).
Proof.
  unfold desktop_properties. keeps; try (by apply keeps_desktop).
  apply keeps_desktop. induction inv as [|n inv IH]; intros d Hd; [done|]. cbn. apply IH.
  unfold invalidate_property. by repeat case_match.
Qed.

Lemma keeps_stop_helper s0 r e : keeps s0 r e desktop_stop_helper.
Proof.
  unfold desktop_stop_helper. eapply safe_bind; [apply safe_the_desktop|]. intros d.
  destruct (helper d) as [p|] eqn:E; [|by apply safe_ret; naive_solver].
  destruct (helper_stopping d); [by apply safe_ret; naive_solver|].
  eapply (safe_bind _ _ _ (λ _, J s0 r e)).
  - apply safe_desktop. intros s g (HJ & _ & ->). destruct HJ as (? & ? & ? & ? & ?).
    unfold J, rest_inv, desktop_inv. cbn. rewrite E. eauto 8.
  - intros []. change (keeps s0 r e (t ← ask Time; in_desktop (set_helper_stop_started t) ≫= λ _, ask (Terminate p))).
    keeps. by apply keeps_desktop.
Qed.
Hint Resolve keeps_properties keeps_stop_helper : keeps.

Lemma keeps_query_done s0 r e o : keeps s0 r e (desktop_query_done o).
Proof.
  unfold desktop_query_done. keeps; try (by apply keeps_desktop).
  apply keeps_desktop. intros d Hd. unfold desktop_inv. by case_match.
Qed.

Lemma keeps_helper_exited s0 r e p : keeps s0 r e (desktop_helper_exited p).
Proof. unfold desktop_helper_exited. keeps; by apply keeps_desktop. Qed.

Lemma keeps_start_query s0 r e t : keeps s0 r e (start_query t).
Proof. unfold start_query. keeps; by apply keeps_desktop. Qed.

Lemma keeps_start_helper s0 r e t : keeps s0 r e (start_helper t).
Proof.
  unfold start_helper. keeps; apply keeps_desktop; [done|done|]. intros d Hd. unfold desktop_inv. cbn. by eauto.
Qed.

Lemma keeps_force_exit s0 r e p : keeps s0 r e (force_exit p).
Proof. unfold force_exit. keeps. Qed.
Hint Resolve keeps_query_done keeps_helper_exited keeps_start_query keeps_start_helper keeps_force_exit : keeps.

Lemma keeps_maintain s0 r e n : keeps s0 r e (desktop_maintain n).
Proof.
  unfold desktop_maintain. keeps; [by apply keeps_desktop|]. unfold desktop_maintain_bound.
  keeps_step; [keeps|]. keeps_step; [keeps|].
  eapply safe_bind; [apply safe_the_desktop|]. intros d.
  eapply (safe_bind _ _ _ (λ _, J s0 r e)).
  - destruct (_ && _) eqn:E; [|apply safe_ret; naive_solver].
    apply andb_true_iff in E as [E _]. apply (safe_pre (is_Some d.(helper))); [naive_solver|].
    intros [p ->]. eapply safe_mono; [apply keeps_asked|naive_solver|done].
  - intros []. match goal with |- safe _ ?m _ => change (keeps s0 r e m) end.
    keeps; by apply keeps_desktop.
Qed.

Lemma keeps_desktop_close s0 r e : keeps s0 r e desktop_close.
Proof. unfold desktop_close, end_process. keeps; by apply keeps_desktop. Qed.
Hint Resolve keeps_maintain keeps_desktop_close : keeps.

(** ** Step by step

    Some operations break the invariant on their way: they are followed with the
    state of the service written out. *)
Definition at_state (S : service) (G : ghost) : assertion := λ s g, sv s = S ∧ g = G ∧ rest_inv s.

Lemma at_enter {A} s0 r e (m : M A) q :
  (∀ S G, inv r e S G → kept s0 S → safe (at_state S G) m q) → safe (J s0 r e) m q.
Proof. intros Hm w (Hi & Hk & Hr). by apply (Hm _ _ Hi Hk w). Qed.

Lemma at_leave {A} s0 r e (x : A) S G :
  inv r e S G → kept s0 S → safe (at_state S G) (mret x) (λ _, J s0 r e).
Proof. intros Hi Hk. apply safe_ret. by intros s g (<- & -> & Hr). Qed.

Lemma at_then {A} s0 r e (m : M A) S G :
  inv r e S G → kept s0 S → keeps s0 r e m → safe (at_state S G) m (λ _, J s0 r e).
Proof. intros Hi Hk Hm. eapply safe_mono; [exact Hm| |done]. by intros s g (<- & -> & Hr). Qed.

Lemma at_ask {A} S G (q : request A) : safe (at_state S G) (ask q) (λ _, at_state S G).
Proof. by apply safe_ask. Qed.

Lemma at_noted S G n : safe (at_state S G) (noted n) (λ _, at_state S (note_seen n G)).
Proof. apply safe_record. by intros s g (<- & -> & Hr). Qed.

Lemma at_service f S G : safe (at_state S G) (in_service f) (λ _, at_state (f S) G).
Proof. apply safe_service. by intros s g (<- & -> & Hr). Qed.

Lemma at_client c x S G :
  S.(clients) !! c = Some x → safe (at_state S G) (client_at c) (λ z s g, z = x ∧ at_state S G s g).
Proof. intros Hx. apply safe_client_at. intros s g (<- & -> & Hr). by exists x. Qed.

Lemma at_lease l y S G :
  S.(leases) !! l = Some y → safe (at_state S G) (lease_at l) (λ z s g, z = y ∧ at_state S G s g).
Proof. intros Hy. apply safe_lease_at. intros s g (<- & -> & Hr). by exists y. Qed.

Lemma at_in_client c f x S G :
  S.(clients) !! c = Some x →
  safe (at_state S G) (in_client c f) (λ _, at_state (set_clients (<[c := f x]> S.(clients)) S) G).
Proof. intros Hx. apply safe_in_client. intros s g (<- & -> & Hr). by exists x. Qed.

Lemma at_in_lease l f y S G :
  S.(leases) !! l = Some y →
  safe (at_state S G) (in_lease l f) (λ _, at_state (set_leases (<[l := f y]> S.(leases)) S) G).
Proof. intros Hy. apply safe_in_lease. intros s g (<- & -> & Hr). by exists y. Qed.

Lemma at_the_service S G :
  safe (at_state S G) (the the_service) (λ z s g, z = S ∧ at_state S G s g).
Proof. apply safe_the. by intros s g (<- & -> & Hr). Qed.

Lemma at_cancel b S G : safe (at_state S G) (modify (set_cancelled b)) (λ _, at_state S G).
Proof. apply safe_modify. by intros s g (<- & -> & Hr). Qed.

Lemma at_forget n S G : safe (at_state S G) (modify (forget_keys n)) (λ _, at_state S G).
Proof.
  apply safe_modify. intros s g (<- & -> & ? & ? & Hn). split_and!; cbn; [done..|].
  unfold rest_inv. cbn. split_and!; [done..|]. etransitivity; [|exact Hn]. apply subseteq_size. set_solver.
Qed.

(** A branch that changes nothing but, at most, the attached sources. *)
Lemma at_detach_if (b : bool) w S G :
  safe (at_state S G) (if b then detach w else mret tt)
    (λ _, at_state (set_attached (if b then S.(attached) ∖ {[w]} else S.(attached)) S) G).
Proof.
  destruct b; [exact (at_service (λ s, set_attached (s.(attached) ∖ {[w]}) s) S G)|]. apply safe_ret. intros s g (<- & -> & ?). split_and!; [|done..].
  by destruct (the_service (own s)).
Qed.

Lemma at_value {A B} (x : A) S G (f : A → M B) q :
  safe (at_state S G) (f x) q → ∀ z, safe (λ s g, z = x ∧ at_state S G s g) (f z) q.
Proof. intros Hf z w [-> Hw]. exact (Hf w Hw). Qed.

(** An address that was good is good. *)
Lemma client_alive s0 S c x0 : kept s0 S → s0.(clients) !! c = Some x0 → ∃ x, S.(clients) !! c = Some x.
Proof. intros Hk (x & Hx & _)%(kept_client _ _ Hk). eauto. Qed.
Lemma lease_alive s0 S l y0 : kept s0 S → s0.(leases) !! l = Some y0 → ∃ y, S.(leases) !! l = Some y.
Proof. intros Hk (x & Hx & _)%(kept_lease _ _ Hk). eauto. Qed.

(** The run, whatever the trace says so far. *)
Lemma at_client_close r e S G G' c x :
  inv r e S G → S.(clients) !! c = Some x → x.(c_closed) = false →
  safe (at_state S G') (host_client_close c) (λ _ s g, ∃ a, a ⊆ S.(attached) ∧ ReadOf c ∉ a ∧ WriteOf c ∉ a ∧
    at_state (set_attached a (set_clients (<[c := closed_client x]> S.(clients)) S)) (note_seen (Closed c) G') s g).
Proof.
  intros Hi Hx Ho. unfold host_client_close. eapply safe_bind; [by apply at_client|]. apply at_value.
  rewrite Ho. eapply safe_bind; [apply at_noted|intros []].
  eapply safe_bind; [by apply at_in_client|intros []].
  eapply safe_bind; [apply at_the_service|]. apply at_value.
  set (S1 := set_clients _ S). set (G1 := note_seen _ G').
  eapply (safe_bind _ _ _ (λ _, at_state S1 G1)); [case_bool_decide; [apply at_cancel|by apply safe_ret]|intros []].
  eapply safe_bind; [apply at_detach_if|intros []].
  eapply safe_bind; [apply at_detach_if|intros []].
  eapply safe_bind; [apply at_in_client; cbn; by rewrite lookup_insert_eq|intros []].
  eapply safe_bind; [apply at_ask|intros []].
  eapply safe_bind; [apply at_ask|intros []].
  eapply safe_bind; [apply at_in_client; cbn; by rewrite lookup_insert_eq|intros []].
  eapply safe_mono; [apply at_forget|done|]. intros [] s g (Hs & -> & Hr).
  cbn in Hs. rewrite !insert_insert_eq in Hs.
  assert (HR : ReadOf c ∈ S.(attached) → c_source x = true).
  { intros Hw. apply (inv_watch _ _ _ _ Hi) in Hw as (z & Hz & ?). congruence. }
  assert (HW : WriteOf c ∈ S.(attached) → c_writer x = true).
  { intros Hw. apply (inv_watch _ _ _ _ Hi) in Hw as (z & Hz & ?). congruence. }
  eexists. split_and!; [| | |split; [exact Hs|done]].
  - repeat case_match; set_solver.
  - repeat case_match; set_solver.
  - repeat case_match; set_solver.
Qed.

(** A client is closed, and the queue is as it was. *)
Lemma safe_client_close r e S G c x :
  inv r e S G → S.(clients) !! c = Some x →
  safe (at_state S G) (host_client_close c) (λ _ s g, J S r e s g ∧
    (sv s).(host_events) = S.(host_events) ∧ (sv s).(host_clients) = S.(host_clients) ∧
    ∃ x', (sv s).(clients) !! c = Some x' ∧ x'.(c_lease) = x.(c_lease) ∧ x'.(c_closed) = true).
Proof.
  intros Hi Hx. destruct (c_closed x) eqn:Ho.
  { unfold host_client_close. eapply safe_bind; [by apply at_client|]. apply at_value. rewrite Ho.
    apply safe_ret. intros s g (<- & -> & Hr). split_and!; [by split; [|split; [apply kept_refl|]]|done|done|by exists x]. }
  eapply safe_mono; [by apply (at_client_close r e S G G c x)|done|].
  intros [] s g (a & Ha & HR & HW & Hs & -> & Hr).
  split_and!; [split; [|split; [|done]]| | |]; rewrite Hs.
  - by apply inv_close_client.
  - eapply kept_same; [by apply (kept_set_client S c x (closed_client x))|done..].
  - done.
  - done.
  - eexists. cbn. by rewrite lookup_insert_eq.
Qed.

Lemma keeps_client_close s0 r e c x0 : s0.(clients) !! c = Some x0 → keeps s0 r e (host_client_close c).
Proof.
  intros Hc. apply at_enter. intros S G Hi Hk. destruct (client_alive _ _ _ _ Hk Hc) as [x Hx].
  eapply safe_mono; [by apply (safe_client_close r e S G c x)|done|].
  intros [] s g ((I & K' & Hr) & _). split_and!; [done|by eapply kept_trans|done].
Qed.

(** ** Callbacks of a client *)

Lemma safe_update_client s0 r e c x f :
  (f x).(c_lease) = x.(c_lease) ∧ (f x).(c_serial) = x.(c_serial) ∧ (f x).(c_closed) = x.(c_closed) ∧
    (f x).(c_source) = x.(c_source) ∧ (f x).(c_writer) = x.(c_writer) →
  (∀ S G, client_inv r e S G c x → client_inv r e S G c (f x)) →
  safe (λ s g, J s0 r e s g ∧ (sv s).(clients) !! c = Some x) (in_client c f) (λ _, J s0 r e).
Proof.
  intros (El & Es & Eo & Er & Ew) Hi. apply safe_in_client. intros s g ((I & Hk & Hr) & Hx).
  exists x. split; [done|]. split; [|split; [|done]]; cbn.
  - apply (inv_set_client r e (sv s) g c x); [done|done|by apply Hi, (inv_client _ _ _ _ I)|congruence..|].
    intros Hw. apply (inv_watch _ _ _ _ I) in Hw as (z & Hz & ?). congruence.
  - apply (kept_trans _ (sv s)); [done|]. apply (kept_set_client _ c x); [done|congruence..].
Qed.

Lemma safe_alive s0 r e c x0 :
  s0.(clients) !! c = Some x0 → safe (J s0 r e) (client_at c) (λ x s g, J s0 r e s g ∧ (sv s).(clients) !! c = Some x).
Proof.
  intros Hc. apply safe_client_at. intros s g HJ.
  destruct (client_alive s0 (sv s) c x0) as [x Hx]; [apply HJ|done|eauto].
Qed.

Lemma keeps_in_client s0 r e c x0 f :
  s0.(clients) !! c = Some x0 →
  (∀ x, (f x).(c_lease) = x.(c_lease) ∧ (f x).(c_serial) = x.(c_serial) ∧ (f x).(c_closed) = x.(c_closed) ∧
    (f x).(c_source) = x.(c_source) ∧ (f x).(c_writer) = x.(c_writer)) →
  (∀ S G x, client_inv r e S G c x → client_inv r e S G c (f x)) →
  keeps s0 r e (in_client c f).
Proof.
  intros Hc Hf Hi w HJ. destruct (client_alive s0 (sv w.(now)) c x0) as [x Hx]; [apply HJ|done|].
  exact (safe_update_client s0 r e c x f (Hf x) (λ S G, Hi S G x) w (conj HJ Hx)).
Qed.

Lemma keeps_client_at {A} s0 r e c x0 (f : client → M A) :
  s0.(clients) !! c = Some x0 → (∀ x, keeps s0 r e (f x)) → keeps s0 r e (x ← client_at c; f x).
Proof.
  intros Hc Hf. eapply safe_bind; [by eapply safe_alive|].
  intros x. eapply safe_mono; [apply Hf|naive_solver|done].
Qed.

Lemma keeps_cancel_request s0 r e c key : keeps s0 r e (cancel_request c key).
Proof.
  unfold cancel_request. keeps. apply safe_modify. intros s g (? & ? & ? & ? & Hn).
  unfold J, rest_inv. case_decide; [|auto 6]. cbn. split_and!; [done..|].
  rewrite size_union_alt, size_singleton.
  assert (size (cancelled_ids s ∖ {[key]}) ≤ size (cancelled_ids s))%nat by (apply subseteq_size; set_solver).
  unfold MAX_CANCELLED. lia.
Qed.

Lemma keeps_queue_call s0 e c x0 d :
  s0.(clients) !! c = Some x0 →
  safe (λ s g, J s0 None e s g ∧ (length (sv s).(host_events) < host_max_pending)%nat ∧
      ∃ x, (sv s).(clients) !! c = Some x ∧ x.(c_closed) = false)
    (host_queue (HOST_CALL c d)) (λ _, J s0 None e).
Proof.
  intros Hc w ((Hi & Hk & Hr) & Hlen & x & Hx & Ho).
  assert (Hm : safe (at_state (sv w.(now)) (ghost_of w.(trace))) (host_queue (HOST_CALL c d)) (λ _, J s0 None e)).
  - unfold host_queue. cbn [client_of]. eapply safe_bind; [by apply at_in_client|intros []].
    eapply safe_mono; [apply at_service|done|]. intros [] s g (Hs & -> & Hr').
    split; [|split; [|done]]; rewrite Hs.
    + by apply inv_push_call.
    + apply (kept_trans _ (sv w.(now))); [done|].
      eapply kept_same; [by apply (kept_set_client _ c x (set_c_pending (u32 (c_pending x + 1)) x))|done..].
  - by apply (Hm w).
Qed.

Lemma keeps_client_key s0 r e c x0 id : s0.(clients) !! c = Some x0 → keeps s0 r e (client_request_key (Some c) id).
Proof. intros Hc. cbn. by eapply keeps_client_at; [|intros; keeps]. Qed.

(** The input of a client, which the bytes of a line only fill. *)
Lemma keeps_input s0 r e c x0 f :
  s0.(clients) !! c = Some x0 →
  (∀ x, ∃ i b, f x = set_c_oversized b (set_c_input i x) ∧
    (Z.of_nat (length x.(c_input)) ≤ MAX_LINE → Z.of_nat (length i) ≤ MAX_LINE)) →
  keeps s0 r e (in_client c f).
Proof.
  intros Hc Hf. eapply keeps_in_client; [done|..].
  - intros x. by destruct (Hf x) as (i & b & -> & _).
  - intros S G x []. destruct (Hf x) as (i & b & -> & Hi). split; auto.
Qed.

Lemma keeps_line s0 e c x0 : s0.(clients) !! c = Some x0 →
  safe (λ s g, J s0 None e s g ∧ ∃ x, (sv s).(clients) !! c = Some x ∧ x.(c_closed) = false)
    (host_line c) (λ _, J s0 None e).
Proof.
  intros Hc. unfold host_line.
  eapply (safe_bind _ _ _ (λ x s g, J s0 None e s g ∧ (sv s).(clients) !! c = Some x ∧ x.(c_closed) = false)).
  - apply safe_client_at. intros s g (? & x & ? & ?). by exists x.
  - intros x. cbv zeta. set (d := if c_oversized x then None else _).
    eapply (safe_bind _ _ _ (λ _ s g, J s0 None e s g ∧ (sv s).(clients) !! c = Some x ∧ x.(c_closed) = false)).
    + by apply safe_record.
    + intros []. apply (safe_bind _ _ _ (λ _, J s0 None e)).
      * destruct (is_cancellation d).
        -- apply (safe_mono _ (J s0 None e) _ (λ _, J s0 None e)); [|naive_solver|done].
           apply keeps_then; [by eapply keeps_client_key|]. intros. apply keeps_cancel_request.
        -- eapply safe_bind; [apply (safe_the _ _ (λ v s g, J s0 None e s g ∧ v = sv s ∧
             (sv s).(clients) !! c = Some x ∧ x.(c_closed) = false)); naive_solver|].
           intros v. cbv beta. case_decide as Hlen.
           ++ eapply safe_mono; [exact (keeps_queue_call s0 e c x0 d Hc)| |done]. intros s g (? & -> & ? & ?). eauto.
           ++ eapply safe_mono; [by eapply keeps_client_close|naive_solver|done].
      * intros []. eapply keeps_input; [done|]. intros z. by exists [], false.
Qed.

Lemma safe_known {A} s0 r e c x (f : client → M A) q :
  safe (λ s g, J s0 r e s g ∧ (sv s).(clients) !! c = Some x) (f x) q →
  safe (λ s g, J s0 r e s g ∧ (sv s).(clients) !! c = Some x) (y ← client_at c; f y) q.
Proof.
  intros Hf. apply (safe_bind _ _ _ (λ z s g, z = x ∧ J s0 r e s g ∧ (sv s).(clients) !! c = Some x)).
  - apply safe_client_at. intros s g [? ?]. by exists x.
  - intros z w [-> Hw]. exact (Hf w Hw).
Qed.

Lemma keeps_bytes s0 e c x0 data : s0.(clients) !! c = Some x0 → keeps s0 None e (host_bytes c data).
Proof.
  intros Hc. induction data as [|b data IH]; [apply keeps_value|]. cbn [host_bytes].
  eapply safe_bind; [by eapply safe_alive|]. intros x.
  destruct (c_closed x) eqn:Ho; [apply safe_ret; naive_solver|].
  eapply (safe_bind _ _ _ (λ _, J s0 None e)); [|intros []; exact IH]. apply safe_known. case_decide.
  - eapply safe_mono; [exact (keeps_line s0 e c x0 Hc)| |done]. intros s g (? & ?). eauto.
  - case_decide.
    + apply safe_update_client; [done|]. intros S G []. split; cbn; auto. rewrite length_app. cbn. lia.
    + apply safe_update_client; [done|]. intros S G []. by split.
Qed.

Lemma keeps_host_read s0 e c x0 failed : s0.(clients) !! c = Some x0 → keeps s0 None e (host_read c failed).
Proof.
  intros Hc. unfold host_read. apply keeps_then.
  - generalize 16%nat. intros n. induction n as [|n IH]; [apply keeps_value|]. cbn [host_read_turns].
    eapply keeps_client_at; [done|]. intros x. keeps; try (by eapply keeps_client_close).
    by eapply keeps_bytes.
  - intros []. eapply keeps_client_at; [done|]. intros x. keeps. by eapply keeps_client_close.
Qed.

(** The output of a client is all sent. *)
Lemma safe_all_sent s0 e c y :
  c_sent y = length (c_output y) →
  safe (λ s g, J s0 None e s g ∧ (sv s).(clients) !! c = Some y)
    (detach (WriteOf c) ≫= λ _, in_client c (λ x, set_c_writer false (set_c_sent 0 (set_c_output [] x))))
    (λ _, J s0 None e).
Proof.
  intros Hs w ((I & Hk & Hr) & Hy). revert w I Hk Hr Hy.
  assert (Hf : ∀ S G, inv None e S G → kept s0 S → S.(clients) !! c = Some y →
    safe (at_state S G) (detach (WriteOf c) ≫= λ _, in_client c (λ x, set_c_writer false (set_c_sent 0 (set_c_output [] x))))
      (λ _, J s0 None e)); [|intros w I Hk Hr Hy; by apply (Hf _ _ I Hk Hy w)].
  intros S G I Hk Hy. eapply safe_bind; [apply at_service|intros []]. set (S1 := set_attached _ S).
  assert (I' : inv None e S1 G) by (apply inv_detach; [done|set_solver]).
  eapply safe_mono; [exact (at_in_client c _ y S1 G Hy)|done|]. intros [] s g (Es & -> & Hr').
  split; [|split; [|done]]; rewrite Es.
  - apply (inv_set_client None e S1 G c y); [done|done| |done|done|done|cbn; set_solver].
    destruct (inv_client _ _ _ _ I' c y Hy). split; cbn; auto; [naive_solver| |unfold MAX_OUTPUT; lia].
    intros Hyo. rewrite <- ci_output by done. by rewrite Hs, drop_all.
  - apply (kept_trans _ S); [done|].
    eapply kept_same; [by apply (kept_set_client _ c y (set_c_writer false (set_c_sent 0 (set_c_output [] y))))|done..].
Qed.

Lemma keeps_write s0 e c x0 failed :
  s0.(clients) !! c = Some x0 →
  safe (λ s g, J s0 None e s g ∧ ∃ x, (sv s).(clients) !! c = Some x ∧ x.(c_closed) = false)
    (host_write c failed) (λ _, J s0 None e).
Proof.
  intros Hc w (HJ & x & Hx & Ho).
  assert (Hm : safe (λ s g, J s0 None e s g ∧ (sv s).(clients) !! c = Some x) (host_write c failed) (λ _, J s0 None e));
    [|by apply (Hm w)].
  clear w HJ Hx. unfold host_write. apply safe_known.
  destruct failed; [apply keeps_from; [by eapply keeps_client_close|naive_solver]|]. cbv zeta.
  set (rest := drop (c_sent x) (c_output x)).
  eapply (safe_bind _ _ _ (λ n s g, J s0 None e s g ∧ (sv s).(clients) !! c = Some x ∧
    match n with inr n => (n ≤ length rest)%nat | inl _ => True end)).
  - intros v [HJ Hx]. unfold ask, act.
    pose proof (respond_send (c_fd x) (take 65536 rest) v.(now).(own).(around)) as Hn.
    destruct (respond _ _) as [n o]. cbn [fst] in Hn. lazy beta iota zeta. split_and!; [exact HJ|exact Hx|].
    destruct n as [|n]; [done|]. specialize (Hn n eq_refl). rewrite length_take in Hn.
    revert Hn. generalize 65536%nat. lia.
  - intros [errno|n].
    + apply keeps_from; [keeps; by eapply keeps_client_close|naive_solver].
    + destruct n as [|n]; [apply keeps_from; [by eapply keeps_client_close|naive_solver]|].
      set (k := S n).
      eapply (safe_bind _ _ _ (λ _ s g, ∃ G, g = note_seen (Delivers c (take k rest)) G ∧ J s0 None e s G ∧
        (sv s).(clients) !! c = Some x ∧ (k ≤ length rest)%nat)).
      { apply safe_record. intros s g (? & ? & ?). eauto. }
      intros [].
      eapply (safe_bind _ _ _ (λ _, J s0 None e)).
      { apply safe_in_client. intros s g (G & -> & (I & Hk & Hr) & Hx & Hlen). exists x. split; [done|].
        split; [|split; [|done]]; cbn [own set_own the_service set_the_service].
        - by apply inv_deliver.
        - apply (kept_trans _ (sv s)); [done|]. by apply (kept_set_client _ c x). }
      intros []. eapply safe_bind; [by eapply safe_alive|]. intros y. case_decide as Hs; [|apply safe_ret; naive_solver].
      by apply safe_all_sent.
Qed.

(** ** Callbacks of a lease *)

(** An assertion on the service, of one state of it. *)
Lemma at_assert {A} s0 r e (P : service → Prop) (m : M A) q :
  (∀ S G, inv r e S G → kept s0 S → P S → safe (at_state S G) m q) →
  safe (λ s g, J s0 r e s g ∧ P (sv s)) m q.
Proof. intros Hm w ((Hi & Hk & Hr) & HP). by apply (Hm _ _ Hi Hk HP w). Qed.

Lemma at_end {A} s0 r e (m : M A) S G S' G' :
  safe (at_state S G) m (λ _, at_state S' G') → inv r e S' G' → kept s0 S' →
  safe (at_state S G) m (λ _, J s0 r e).
Proof.
  intros Hm Hi Hk. eapply safe_mono; [exact Hm|done|]. by intros x s g (Hs & -> & Hr); split; rewrite ?Hs.
Qed.

Lemma kept_new s x y : s.(clients) !! s.(fresh) = None → s.(leases) !! s.(fresh) = None →
  kept s (set_clients (<[s.(fresh) := x]> s.(clients)) s) ∧ kept s (set_leases (<[s.(fresh) := y]> s.(leases)) s).
Proof.
  intros Hc Hl. split; split; cbn; try naive_solver.
  - intros c z Hz. exists z. rewrite lookup_insert_ne; [done|congruence].
  - intros l z Hz. exists z. rewrite lookup_insert_ne; [done|congruence].
Qed.

Lemma fresh_unused r e s g : inv r e s g → s.(clients) !! s.(fresh) = None ∧ s.(leases) !! s.(fresh) = None.
Proof.
  intros I. split.
  - destruct (clients s !! fresh s) eqn:E; [|done]. apply (client_fresh _ _ _ _ _ _ I) in E. lia.
  - destruct (leases s !! fresh s) eqn:E; [|done].
    assert (fresh s < fresh s)%nat by (apply (inv_fresh_lease _ _ _ _ I); left; by rewrite E). lia.
Qed.

Lemma safe_admit_client s0 e l fd :
  safe (λ s g, J s0 None e s g ∧ ((∃ y, (sv s).(leases) !! l = Some y ∧ y.(l_revoked) = false) ∧
      (host_client_count (sv s) < host_max_clients)%nat))
    (admit_client l fd) (λ _, J s0 None e).
Proof.
  apply (at_assert s0 None e (λ S, (∃ y, S.(leases) !! l = Some y ∧ y.(l_revoked) = false) ∧
    (host_client_count S < host_max_clients)%nat)).
  intros S G I Hk [(y & Hy & Hr) Hn]. unfold admit_client.
  destruct (fresh_unused _ _ _ _ I) as [Hc Hl].
  assert (Hne : l ≠ S.(fresh)) by (intros ->; congruence).
  eapply (safe_bind _ _ _ (λ c s g, c = S.(fresh) ∧ at_state (set_fresh (Datatypes.S S.(fresh)) S) G s g)).
  { unfold allocate. eapply safe_bind; [apply at_the_service|]. apply at_value.
    eapply safe_bind; [apply at_service|intros []]. by apply safe_ret. }
  apply at_value. eapply safe_bind; [apply at_noted|intros []].
  eapply safe_bind; [apply at_service|intros []].
  eapply safe_bind; [apply (at_in_lease l _ y); exact Hy|intros []].
  set (serial := u64 (host_serial S + 1)).
  pose proof (inv_admit_client e S G l y serial fd I Hy Hr Hn) as I1.
  assert (I2 : inv None e (set_leases (<[l := set_l_used true y]> (leases (with_client l serial fd S))) (with_client l serial fd S))
    (note_seen (Opened (fresh S) l) G)).
  { apply (inv_set_lease None e _ _ l y); [done|done| |done..].
    by destruct (inv_lease _ _ _ _ I1 l y Hy). }
  eapply at_end; [apply at_service| |].
  - cbv beta. apply (inv_attach None e (set_leases (<[l := set_l_used true y]> (leases (with_client l serial fd S))) (with_client l serial fd S))); [done|].
    cbn. eexists. by rewrite lookup_insert_eq.
  - apply (kept_trans _ S); [done|]. destruct (kept_new S (new_client l serial fd) y Hc Hl) as [K1 _].
    eapply kept_same; [apply (kept_trans _ _ _ K1), (kept_set_lease _ l y (set_l_used true y)); done|done..].
Qed.

Lemma keeps_accept s0 e l y0 n : s0.(leases) !! l = Some y0 → keeps s0 None e (host_accept n l).
Proof.
  intros Hl. induction n as [|n IH]; [apply keeps_no_fuel|]. cbn [host_accept].
  eapply (safe_bind _ _ _ (λ y s g, J s0 None e s g ∧ (sv s).(leases) !! l = Some y)).
  { apply safe_lease_at. intros s g HJ. destruct (lease_alive s0 (sv s) l y0) as [y Hy]; [apply HJ|done|eauto]. }
  intros y. eapply safe_bind; [by apply (safe_ask _ _ (λ _ s g, J s0 None e s g ∧ (sv s).(leases) !! l = Some y))|].
  intros [fd|]; [|apply safe_ret; naive_solver].
  eapply safe_bind; [apply (safe_the _ _ (λ v s g, v = sv s ∧ J s0 None e s g ∧ (sv s).(leases) !! l = Some y)); naive_solver|].
  intros v.
  eapply (safe_bind _ _ _ (λ uid s g, J s0 None e s g ∧ (is_Some uid → y.(l_revoked) = false ∧
    (host_client_count (sv s) < host_max_clients)%nat ∧ (sv s).(leases) !! l = Some y))).
  { destruct (l_revoked y || _) eqn:E.
    - apply safe_ret. intros s g (_ & ? & _). split; [done|]. by intros [].
    - apply orb_false_iff in E as [Er Ec%bool_decide_eq_false].
      apply safe_ask. intros s g x o (-> & HJ & Hy). split; [done|]. intros _. split_and!; [done|cbn; lia|done]. }
  intros uid. eapply (safe_bind _ _ _ (λ _, J s0 None e)); [|intros []; exact IH].
  case_bool_decide as Hu.
  - subst uid. eapply safe_mono; [exact (safe_admit_client s0 e l fd)| |done].
    intros s g [HJ Hs]. destruct Hs as (? & ? & ?); [done|]. split; [done|]. eauto.
  - apply keeps_from; [keeps|naive_solver].
Qed.

Lemma safe_admit_lease s0 e fd :
  safe (λ s g, J s0 None e s g ∧ (length (sv s).(host_leases) < MAX_LEASES)%nat)
    (admit_lease fd) (λ _, J s0 None e).
Proof.
  apply (at_assert s0 None e (λ S, (length S.(host_leases) < MAX_LEASES)%nat)).
  intros S G I Hk Hn. unfold admit_lease. destruct (fresh_unused _ _ _ _ I) as [Hc Hl].
  eapply (safe_bind _ _ _ (λ c s g, c = S.(fresh) ∧ at_state (set_fresh (Datatypes.S S.(fresh)) S) G s g)).
  { unfold allocate. eapply safe_bind; [apply at_the_service|]. apply at_value.
    eapply safe_bind; [apply at_service|intros []]. by apply safe_ret. }
  apply at_value. eapply safe_bind; [apply at_service|intros []].
  set (y := set_l_source true (new_lease fd (-1) false)).
  pose proof (inv_admit_lease e S G y I Hn eq_refl eq_refl eq_refl) as I1.
  eapply at_end; [apply at_service| |].
  - cbv beta. apply (inv_attach None e (with_lease y S)); [done|]. cbn. eexists. by rewrite lookup_insert_eq.
  - apply (kept_trans _ S); [done|]. destruct (kept_new S (new_client 0 0 0) y Hc Hl) as [_ K1].
    eapply kept_same; [exact K1|done..].
Qed.

Lemma keeps_control_accept s0 e control n : keeps s0 None e (host_control_accept n control).
Proof.
  induction n as [|n IH]; [apply keeps_no_fuel|]. cbn [host_control_accept].
  keeps_step; [keeps|]. destruct x as [fd|]; [|keeps].
  eapply safe_bind; [apply (safe_the _ _ (λ v s g, v = sv s ∧ J s0 None e s g)); naive_solver|]. intros v.
  eapply (safe_bind _ _ _ (λ uid s g, J s0 None e s g ∧ (is_Some uid → (length (sv s).(host_leases) < MAX_LEASES)%nat))).
  { case_decide.
    - apply safe_ret. intros s g [_ ?]. split; [done|]. by intros [].
    - apply safe_ask. intros s g x o (-> & HJ). split; [done|]. intros _. cbn. lia. }
  intros uid. eapply (safe_bind _ _ _ (λ _, J s0 None e)); [|intros []; exact IH].
  case_bool_decide as Hu.
  - eapply safe_mono; [exact (safe_admit_lease s0 e fd)| |done]. intros s g [HJ Hs]. split; [done|].
    apply Hs. destruct Hu as [->| ->]; eauto.
  - apply keeps_from; [keeps|naive_solver].
Qed.

Definition close_of (l : lid) (c : cid) : M unit :=
  x ← client_at c; if decide (x.(c_lease) = l) then host_client_close c else mret tt.

Lemma safe_close_all r e l cs S G :
  inv r e S G → (∀ c, c ∈ cs → is_Some (S.(clients) !! c)) →
  safe (at_state S G) (each cs (close_of l)) (λ _ s g, J S r e s g ∧
    (sv s).(host_events) = S.(host_events) ∧ (sv s).(host_clients) = S.(host_clients) ∧
    ∀ c x, c ∈ cs → (sv s).(clients) !! c = Some x → x.(c_lease) = l → x.(c_closed) = true).
Proof.
  revert S G. induction cs as [|c cs IH]; intros S G I Hal.
  { apply safe_ret. intros s g (<- & -> & Hr). split_and!; [by split; [|split; [apply kept_refl|]]|done|done|].
    by intros c x ?%elem_of_nil. }
  destruct (Hal c) as [x Hx]; [left|]. cbn [each].
  eapply (safe_bind _ _ _ (λ _ s g, J S r e s g ∧ (sv s).(host_events) = S.(host_events) ∧ (sv s).(host_clients) = S.(host_clients) ∧
    ∃ x', (sv s).(clients) !! c = Some x' ∧ (x'.(c_lease) = l → x'.(c_closed) = true))).
  - unfold close_of. eapply safe_bind; [by apply at_client|]. apply at_value. case_decide as Hl.
    + eapply safe_mono; [by apply (safe_client_close r e S G c x)|done|].
      intros [] s g (? & ? & ? & x' & ? & ? & ?). split_and!; [done..|]. by exists x'.
    + apply safe_ret. intros s g (<- & -> & Hr). split_and!; [by split; [|split; [apply kept_refl|]]|done|done|].
      by exists x.
  - intros [] w ((I1 & K1 & Hr1) & He1 & Hl1 & x' & Hx' & Hc').
    assert (Hal' : ∀ c, c ∈ cs → is_Some ((sv w.(now)).(clients) !! c)).
    { intros c' Hin. destruct (Hal c') as [z Hz]; [by right|]. destruct (client_alive _ _ _ _ K1 Hz). eauto. }
    specialize (IH _ _ I1 Hal' w (conj eq_refl (conj eq_refl Hr1))).
    destruct (each cs _ w) as [[] w'| |]; [|done..].
    destruct IH as ((I2 & K2 & Hr2) & He2 & Hl2 & Hc2).
    split_and!; [split_and!; [done|by eapply kept_trans|done]|congruence..|].
    intros c' y [->|Hin]%elem_of_cons Hy Hly; [|by eapply Hc2].
    destruct (kept_client _ _ K2 c x' Hx') as (y' & ? & El & _ & Eo). simplify_eq.
    apply Eo, Hc'. congruence.
Qed.

Lemma keeps_revoke s0 e l y0 : s0.(leases) !! l = Some y0 → keeps s0 None e (host_revoke l).
Proof.
  intros Hl. apply at_enter. intros S G I Hk. destruct (lease_alive _ _ _ _ Hk Hl) as [y Hy].
  unfold host_revoke. eapply safe_bind; [by apply at_lease|]. apply at_value.
  destruct (l_revoked y) eqn:Hr; [by apply at_leave|].
  eapply safe_bind; [by apply at_in_lease|intros []].
  eapply safe_bind; [apply at_detach_if|intros []].
  match goal with |- safe (at_state ?S1 ?G1) _ _ =>
    eapply (safe_bind _ _ _ (λ _, at_state S1 G1)); [destruct (0 <=? l_listener y); [apply at_ask|by apply safe_ret]|intros []] end.
  eapply safe_bind; [apply at_detach_if|intros []].
  eapply safe_bind; [apply at_in_lease; cbn; by rewrite lookup_insert_eq|intros []].
  match goal with |- safe (at_state ?S1 _) _ _ => set (S1' := S1) end.
  assert (HC : ControlOf l ∈ S.(attached) → l_source y = true).
  { intros Hw. apply (inv_watch _ _ _ _ I) in Hw as (z & Hz & ?). congruence. }
  assert (HA : AcceptOf l ∈ S.(attached) → l_accept_source y = true).
  { intros Hw. apply (inv_watch _ _ _ _ I) in Hw as (z & Hz & ?). congruence. }
  assert (I1 : inv (Some l) e S1' G).
  { assert (E : S1' = set_attached (attached S1') (set_leases (<[l := revoked_lease y]> S.(leases)) S)).
    { unfold S1'. cbn. by rewrite insert_insert_eq. }
    rewrite E. apply inv_revoke; [done..| | |]; unfold S1'; cbn; repeat case_match; set_solver. }
  assert (K1 : kept S S1').
  { eapply kept_same; [apply (kept_set_lease S l y (revoked_lease y)); [done..|]; done| |unfold S1'; cbn; by rewrite insert_insert_eq|]; done. }
  assert (Hq : HOST_REVOKE l ∉ queued e S1').
  { change (queued e S1') with (queued e S). by apply (li_kept _ _ _ _ _ (inv_lease _ _ _ _ I l y Hy)). }
  assert (Hy1 : S1'.(leases) !! l = Some (revoked_lease y)) by (unfold S1'; cbn; by rewrite lookup_insert_eq).
  clearbody S1'. eapply (safe_bind _ _ _ (λ _ s g, J S1' (Some l) e s g ∧ (sv s).(host_events) = S1'.(host_events) ∧ (sv s).(host_clients) = S1'.(host_clients) ∧
    ∀ c x, c ∈ S1'.(host_clients) → (sv s).(clients) !! c = Some x → x.(c_lease) = l → x.(c_closed) = true)).
  - unfold close_clients. eapply safe_bind; [apply at_the_service|]. apply at_value.
    apply (safe_close_all (Some l) e l); [done|]. intros c. apply I1.
  - intros [] w ((I2 & K2 & Hr2) & He2 & Hl2 & Hc2).
    assert (Hf : safe (at_state (sv w.(now)) (ghost_of w.(trace))) (host_queue (HOST_REVOKE l)) (λ _, J s0 None e));
      [|by apply (Hf w)].
    unfold host_queue. cbn [client_of]. eapply (safe_bind _ _ _ (λ _, at_state _ _)); [by apply safe_ret|intros []].
    eapply at_end; [apply at_service| |].
    + apply (inv_push (Some l) None); [done|done| |right| |].
      * destruct (kept_lease _ _ K2 l _ Hy1) as (y' & Hy' & Hr' & _ & _ & Ha'). exists y'. split_and!; [done| |by apply Hr'].
        rewrite Ha'. cbn. apply not_true_iff_false.
        intros Ha%(li_acknowledged _ _ _ _ _ (inv_lease _ _ _ _ I l y Hy)). congruence.
      * exists l. split_and!; [done..|]. intros c z Hz. eapply Hc2; [|done]. rewrite <- Hl2. apply I2. by rewrite Hz.
      * done.
      * intros l' [= <-]. unfold queued. by rewrite He2.
    + apply (kept_trans _ S); [done|]. apply (kept_trans _ S1'); [done|].
      apply (kept_trans _ (sv w.(now))); [done|]. eapply kept_same; [apply kept_refl|done..].
Qed.

Lemma keeps_lease_at {A} s0 r e l y0 (f : lease → M A) :
  s0.(leases) !! l = Some y0 → (∀ y, keeps s0 r e (f y)) → keeps s0 r e (y ← lease_at l; f y).
Proof.
  intros Hl Hf. apply (safe_bind _ _ _ (λ _, J s0 r e)); [|done].
  apply safe_lease_at. intros s g HJ. destruct (lease_alive s0 (sv s) l y0) as [y Hy]; [apply HJ|done|eauto].
Qed.

(** A lease whose registration is being read. *)
Definition reading_lease s0 e l (P : lease → Prop) : assertion := λ s g,
  J s0 None e s g ∧ ∃ y, (sv s).(leases) !! l = Some y ∧ y.(l_revoked) = false ∧ P y.

Lemma safe_update_lease s0 e l (P Q : lease → Prop) f :
  (∀ y, (f y).(l_acknowledged) = y.(l_acknowledged) ∧ (f y).(l_revoked) = y.(l_revoked) ∧
    (f y).(l_source) = y.(l_source) ∧ (f y).(l_accept_source) = y.(l_accept_source) ∧
    (f y).(l_control) = y.(l_control) ∧ (y.(l_registered) = true → (f y).(l_registered) = true)) →
  (∀ S y, P y → lease_inv None e S l y → lease_inv None e S l (f y) ∧
    (HOST_REGISTER l ∈ queued e S → (f y).(l_session) = y.(l_session) ∧ (f y).(l_wayland) = y.(l_wayland))) →
  (∀ y, P y → Q (f y)) →
  safe (reading_lease s0 e l P) (in_lease l f) (λ _, reading_lease s0 e l Q).
Proof.
  intros Hf Hi HQ. apply safe_in_lease. intros s g ((I & Hk & Hr) & y & Hy & Hv & HP).
  exists y. split; [done|]. destruct (Hf y) as (Ea & Er & Es & Eac & Ec & Eg).
  destruct (Hi (sv s) y HP (inv_lease _ _ _ _ I l y Hy)) as [Hl Hs]. split.
  - split; [|split; [|done]]; cbn.
    + apply (inv_set_lease None e (sv s) g l y); [done..|congruence|congruence].
    + apply (kept_trans _ (sv s)); [done|]. apply (kept_set_lease _ l y); [done..|congruence|done].
  - exists (f y). cbn. rewrite lookup_insert_eq. split_and!; [done|congruence|auto].
Qed.

Lemma safe_reading_ask {A} s0 e l P (q : request A) :
  safe (reading_lease s0 e l P) (ask q) (λ _, reading_lease s0 e l P).
Proof. apply safe_ask. intros s g x o HR. exact HR. Qed.

Lemma safe_reading_at {A} s0 e l P (f : lease → M A) q :
  (∀ y, P y → safe (reading_lease s0 e l (λ z, z = y)) (f y) q) →
  safe (reading_lease s0 e l P) (y ← lease_at l; f y) q.
Proof.
  intros Hf. eapply (safe_bind _ _ _ (λ y s g, P y ∧ reading_lease s0 e l (λ z, z = y) s g)).
  - apply safe_lease_at. intros s g (HJ & y & Hy & Hv & HP). exists y. split; [done|]. split; [done|]. split; [done|]. by exists y.
  - intros y w [HP Hw]. exact (Hf y HP w Hw).
Qed.

Lemma safe_receive_fds s0 e l fds i :
  safe (reading_lease s0 e l (λ y, y.(l_input) = i ∧ y.(l_registered) = false)) (receive_fds l fds)
    (λ _, reading_lease s0 e l (λ y, y.(l_input) = i ∧ y.(l_registered) = false)).
Proof.
  induction fds as [|fd fds IH]; [by apply safe_ret|]. cbn [receive_fds].
  apply safe_reading_at. intros y [Hi Hg]. set (P y := l_input y = i ∧ l_registered y = false).
  eapply (safe_bind _ _ _ (λ _, reading_lease s0 e l P)).
  { apply (safe_update_lease s0 e l (λ z, z = y) P); [done| |by intros z ->].
    intros S z -> []. split; [by split|done]. }
  intros []. eapply (safe_bind _ _ _ (λ _, reading_lease s0 e l P)); [|intros []; exact IH].
  destruct (_ =? _); [|apply safe_reading_ask].
  apply (safe_update_lease s0 e l P P); [done| |done]. intros S z _ []. split; [by split|done].
Qed.

Lemma keeps_reading {A} s0 e l P y0 (m : M A) :
  s0.(leases) !! l = Some y0 → keeps s0 None e m → safe (reading_lease s0 e l P) m (λ _, J s0 None e).
Proof. intros Hl Hm. apply keeps_from; [done|]. by intros s g [? _]. Qed.

Lemma safe_register s0 e l y0 :
  s0.(leases) !! l = Some y0 →
  safe (reading_lease s0 e l (λ y, y.(l_registered) = false)) (register l) (λ _, J s0 None e).
Proof.
  intros Hl. unfold register. apply safe_reading_at. intros y Hg. cbv zeta.
  set (session := json_string _ (str "session")). set (wayland := json_string _ (str "wayland")).
  set (P z := z = y).
  eapply (safe_bind _ _ _ (λ b s g, reading_lease s0 e l P s g ∧ (b = true → is_text session = true ∧ is_text wayland = true))).
  - destruct (_ && is_text wayland) eqn:E; [|by apply safe_ret].
    rewrite !andb_true_iff in E. destruct E as [[_ E1] E2]. unfold valid_listener.
    eapply safe_bind; [apply safe_reading_ask|]. intros [st|]; [|by apply safe_ret].
    destruct (_ && _); [|by apply safe_ret]. eapply safe_mono; [apply safe_reading_ask|done|]. done.
  - intros [|]; [|apply (keeps_from s0 None e); [by eapply keeps_revoke|by intros s g [[? _] _]]].
    eapply (safe_bind _ _ _ (λ _ s g, reading_lease s0 e l P s g ∧ is_Some session ∧ is_Some wayland)).
    { apply safe_ask. intros s g x o [HR Ht]. split; [exact HR|]. destruct Ht as [E1 E2]; [done|].
      by destruct session, wayland. }
    intros []. apply (safe_pre (is_Some session ∧ is_Some wayland)); [naive_solver|]. intros [Hs Hw].
    set (Q z := l_registered z = true ∧ is_Some (l_session z) ∧ is_Some (l_wayland z) ∧ l_acknowledged z = false).
    eapply (safe_bind _ _ _ (λ _, reading_lease s0 e l Q)).
    + eapply safe_mono; [apply (safe_update_lease s0 e l (λ z, z = y ∧ l_acknowledged y = false) Q)| |done].
      * done.
      * intros S z [-> _] []. split; [by split|]. by intros ?%li_unregistered.
      * intros z [-> Ha]. by split_and!.
      * intros s g [[HJ (z & Hz & Hv & ->)] _]. split; [done|]. exists y. split_and!; [done..|].
        apply not_true_iff_false. intros Ha%(li_acknowledged _ _ _ _ _ (inv_lease _ _ _ _ (proj1 HJ) l y Hz)). congruence.
    + intros [] w ((I & Hk & Hr) & z & Hz & Hv & Hg' & Hs' & Hw' & Ha).
      assert (Hf : safe (at_state (sv w.(now)) (ghost_of w.(trace))) (host_queue (HOST_REGISTER l)) (λ _, J s0 None e));
        [|by apply (Hf w)].
      unfold host_queue. cbn [client_of]. eapply (safe_bind _ _ _ (λ _, at_state _ _)); [by apply safe_ret|intros []].
      eapply at_end; [apply at_service| |].
      * apply (inv_push None None); [done|done|by exists z|by left| |done]. intros l' [= <-]. by exists z.
      * eapply kept_same; [exact Hk|done..].
Qed.

Lemma keeps_control_read s0 e l y0 :
  s0.(leases) !! l = Some y0 →
  safe (reading_lease s0 e l (λ _, True)) (host_control_read l) (λ _, J s0 None e).
Proof.
  intros Hl. unfold host_control_read. apply safe_reading_at. intros y _.
  destruct (l_registered y) eqn:Hg.
  { eapply keeps_reading; [done|]. keeps; by eapply keeps_revoke. }
  eapply safe_bind; [apply safe_reading_ask|]. intros [errno|m].
  { eapply keeps_reading; [done|]. keeps; by eapply keeps_revoke. }
  set (P z := l_input z = l_input y ∧ l_registered z = false).
  eapply (safe_bind _ _ _ (λ _, reading_lease s0 e l P)).
  { destruct (m_data m) as [|b d].
    - apply safe_ret. intros s g (HJ & z & Hz & Hv & ->). split; [done|]. by exists y.
    - eapply safe_mono; [apply (safe_receive_fds s0 e l (m_fds m) (l_input y))| |done].
      intros s g (HJ & z & Hz & Hv & ->). split; [done|]. by exists y. }
  intros []. destruct (_ || bool_decide _) eqn:E.
  { eapply keeps_reading; [done|]. by eapply keeps_revoke. }
  apply orb_false_iff in E as [_ E%bool_decide_eq_false].
  eapply (safe_bind _ _ _ (λ _, reading_lease s0 e l (λ z, l_registered z = false))).
  - apply safe_update_lease; [done| |by intros z [_ ?]].
    intros S z [Hi _] []. split; [|done]. split; auto. cbn [l_input set_l_input]. rewrite length_app, Hi. lia.
  - intros []. case_bool_decide; [by eapply safe_register|].
    apply safe_ret. by intros s g [? _].
Qed.

(** ** The backends *)

(** From the state where the run starts. *)
Lemma safe_rebase {A} s0 r e (m : M A) (P : service → Prop) :
  (∀ S, P S → safe (λ s g, J S r e s g ∧ P (sv s)) m (λ _, J S r e)) →
  safe (λ s g, J s0 r e s g ∧ P (sv s)) m (λ _, J s0 r e).
Proof.
  intros Hm w ((I & Hk & Hr) & HP). specialize (Hm _ HP w (conj (conj I (conj (kept_refl _) Hr)) HP)).
  destruct (m w) as [x w'| |]; [|done..]. destruct Hm as (I' & Hk' & Hr').
  split_and!; [done|by eapply kept_trans|done].
Qed.

Lemma keeps_rebase {A} s0 r e (m : M A) (P : service → Prop) :
  (∀ S, P S → keeps S r e m) → safe (λ s g, J s0 r e s g ∧ P (sv s)) m (λ _, J s0 r e).
Proof. intros Hm. apply safe_rebase. intros S HP. apply keeps_from; [by apply Hm|by intros s g [? _]]. Qed.

Lemma keeps_each_client s0 r e (f : cid → M unit) :
  (∀ S c x, S.(clients) !! c = Some x → keeps S r e (f c)) →
  keeps s0 r e (s ← the the_service; each s.(host_clients) f).
Proof.
  intros Hf. eapply (safe_bind _ _ _ (λ v s g, J s0 r e s g ∧ ∀ c, c ∈ v.(host_clients) → is_Some ((sv s).(clients) !! c))).
  - apply safe_the. intros s g HJ. split; [done|]. intros c. apply (inv_listed _ _ _ _ (proj1 HJ)).
  - intros v. apply (keeps_rebase s0 r e _ (λ S, ∀ c, c ∈ v.(host_clients) → is_Some (S.(clients) !! c))).
    intros S HS. apply keeps_each. intros c [x Hx]%HS. by eapply Hf.
Qed.

Lemma keeps_clear_baselines s0 r e : keeps s0 r e host_clear_tree_baselines.
Proof.
  unfold host_clear_tree_baselines. apply keeps_each_client. intros S c x Hx.
  eapply keeps_in_client; [done|done|]. intros S' G z []. by split.
Qed.
Hint Resolve keeps_clear_baselines : keeps.

Lemma keeps_worker s0 r e w : keeps s0 r e (change (set_worker w)).
Proof. by apply safe_modify. Qed.
Hint Resolve keeps_worker : keeps.

Lemma keeps_scu_invalidate s0 r e : keeps s0 r e ComputerDesktop.scu_invalidate.
Proof. unfold ComputerDesktop.scu_invalidate, stop_atspi_worker. keeps. Qed.
Hint Resolve keeps_scu_invalidate : keeps.

(** ** The main context *)

Lemma keeps_fire_source s0 e w failed :
  safe (λ s g, J s0 None e s g ∧ w ∈ (sv s).(attached)) (fire_source fuel w failed) (λ _, J s0 None e).
Proof.
  destruct w as [c|c|l|l|].
  - eapply safe_mono; [apply (keeps_rebase s0 None e _ (λ S, is_Some (S.(clients) !! c)))| |done].
    + intros S [x Hx]. by eapply keeps_host_read.
    + intros s g [HJ Hw]. split; [done|]. apply (inv_watch _ _ _ _ (proj1 HJ)) in Hw as (x & -> & _). done.
  - eapply safe_mono; [apply (safe_rebase s0 None e _ (λ S, ∃ x, S.(clients) !! c = Some x ∧ x.(c_closed) = false))| |done].
    + intros S (x & Hx & _). by eapply keeps_write.
    + intros s g [HJ Hw]. split; [done|]. apply (inv_watch _ _ _ _ (proj1 HJ)) in Hw as (x & Hx & Ho).
      exists x. split; [done|]. apply not_true_iff_false. intros E.
      destruct (ci_closed _ _ _ _ _ _ (inv_client _ _ _ _ (proj1 HJ) c x Hx) E). congruence.
  - eapply safe_mono; [apply (safe_rebase s0 None e _ (λ S, ∃ y, S.(leases) !! l = Some y ∧ y.(l_revoked) = false))| |done].
    + intros S (y & Hy & _). eapply safe_mono; [by apply (keeps_control_read S e l y)| |done].
      intros s g (HJ & z & Hz & Hv). split; [done|]. by exists z.
    + intros s g [HJ Hw]. split; [done|]. apply (inv_watch _ _ _ _ (proj1 HJ)) in Hw as (y & Hy & Ho).
      exists y. split; [done|]. apply not_true_iff_false. intros E.
      destruct (li_revoked _ _ _ _ _ (inv_lease _ _ _ _ (proj1 HJ) l y Hy) E). congruence.
  - eapply safe_mono; [apply (keeps_rebase s0 None e _ (λ S, is_Some (S.(leases) !! l)))| |done].
    + intros S [y Hy]. by eapply keeps_accept.
    + intros s g [HJ Hw]. split; [done|]. apply (inv_watch _ _ _ _ (proj1 HJ)) in Hw as (y & -> & _). done.
  - apply keeps_from; [apply keeps_control_accept|by intros s g [? _]].
Qed.

Lemma keeps_fire s0 e rd : keeps s0 None e (fire fuel rd).
Proof.
  unfold fire. eapply (safe_bind _ _ _ (λ h s g, J s0 None e s g ∧ h = s.(own))); [by apply safe_the|].
  intros h. destruct rd as [w failed|i l a inv|b| |gone|o| |o| |p]; cbv zeta.
  { case_bool_decide; [|apply safe_ret; naive_solver].
    eapply safe_mono; [exact (keeps_fire_source s0 e w failed)| |done]. by intros s g [? ->]. }
  all: apply keeps_from; [|by intros s g [? _]].
  - destruct (watching _); keeps.
  - destruct (watching _); [unfold desktop_locker_changed|]; keeps. by apply keeps_desktop.
  - destruct (watching _); [unfold desktop_locker_owner_changed|]; keeps. by apply keeps_desktop.
  - destruct (watching _); [unfold desktop_session_removed|]; keeps. by apply keeps_desktop.
  - destruct (watching _); [unfold desktop_owner_changed|]; keeps. by apply keeps_desktop.
  - destruct (ComputerState.timer _); [unfold desktop_timer|]; keeps.
  - case_bool_decide; keeps.
  - case_bool_decide; keeps.
  - keeps.
Qed.

Lemma keeps_dispatch s0 e : keeps s0 None e (dispatch fuel).
Proof. unfold dispatch. keeps. apply keeps_each. intros rd _. apply keeps_fire. Qed.
Hint Resolve keeps_dispatch : keeps.

(** ** Waiting *)

Lemma keeps_scu_tick s0 e : keeps s0 None e (scu_tick fuel).
Proof. unfold scu_tick. keeps. Qed.
Hint Resolve keeps_scu_tick : keeps.

Lemma keeps_pause_until s0 e n t : keeps s0 None e (pause_until fuel n t).
Proof. induction n as [|n IH]; cbn [pause_until]; keeps. Qed.
Hint Resolve keeps_pause_until : keeps.

Lemma keeps_scu_pause s0 e ms : keeps s0 None e (scu_pause fuel ms).
Proof. unfold scu_pause. keeps. Qed.

Lemma keeps_await {A} s0 e n (c : bus_call A) t : keeps s0 None e (await fuel n c t).
Proof. induction n as [|n IH]; cbn [await]; keeps. Qed.
Hint Resolve keeps_scu_pause @keeps_await : keeps.

Lemma keeps_bounded_call {A} s0 e (c : bus_call A) : keeps s0 None e (bounded_call fuel c).
Proof. unfold bounded_call. keeps. Qed.
Hint Resolve @keeps_bounded_call : keeps.

Lemma keeps_read_session s0 e : keeps s0 None e (desktop_read_session fuel).
Proof. unfold desktop_read_session. keeps. by apply keeps_desktop. Qed.
Hint Resolve keeps_read_session : keeps.

Lemma keeps_bind_desktop s0 e session wayland : keeps s0 None e (desktop_bind fuel session wayland).
Proof. unfold desktop_bind, bind_session. keeps; by apply keeps_desktop. Qed.

Lemma keeps_refresh_lock s0 e : keeps s0 None e (desktop_refresh_lock fuel).
Proof. unfold desktop_refresh_lock, lock_unavailable. keeps; by apply keeps_desktop. Qed.
Hint Resolve keeps_bind_desktop keeps_refresh_lock : keeps.

Lemma keeps_foreground_ready s0 e : keeps s0 None e (desktop_foreground_ready fuel).
Proof. unfold desktop_foreground_ready. keeps. Qed.

Lemma keeps_wait_desktop s0 e n t : keeps s0 None e (wait_desktop fuel n t).
Proof. induction n as [|n IH]; cbn [wait_desktop]; keeps. Qed.
Hint Resolve keeps_foreground_ready keeps_wait_desktop : keeps.

Lemma keeps_desktop_ready s0 e : keeps s0 None e (desktop_ready fuel).
Proof. unfold desktop_ready. keeps. by apply keeps_desktop. Qed.
Hint Resolve keeps_desktop_ready : keeps.
End safe.

#[export] Hint Resolve
  keeps_value keeps_no_fuel keeps_look keeps_the keeps_asked keeps_scu_fail keeps_see_lock
  keeps_release_input keeps_poll_backend keeps_visual_close keeps_check_lock
  keeps_allowed keeps_verified keeps_input_allowed keeps_properties keeps_stop_helper keeps_query_done
  keeps_helper_exited keeps_start_query keeps_start_helper keeps_force_exit
  keeps_maintain keeps_desktop_close keeps_clear_baselines keeps_worker
  keeps_scu_invalidate keeps_dispatch keeps_scu_tick keeps_pause_until keeps_scu_pause keeps_await
  keeps_bounded_call keeps_read_session keeps_bind_desktop keeps_refresh_lock
  keeps_foreground_ready keeps_wait_desktop keeps_desktop_ready : keeps.

(** Steps through a program whose parts all keep the invariant. *)
Ltac keeps_step :=
  lazymatch goal with
  | |- keeps _ _ _ (_ ≫= _) => apply keeps_then; [|intros ?]
  | |- keeps _ _ _ (if ?b then _ else _) => destruct b
  | |- keeps _ _ _ (match ?x with _ => _ end) => destruct x
  | |- keeps _ _ _ (let '_ := ?x in _) => destruct x
  | |- keeps _ _ _ (modify (set_stopping _)) => by apply keeps_changed
  | |- keeps _ _ _ (modify (set_cancelled _)) => by apply keeps_changed
  | |- keeps _ _ _ (modify (set_lock_monitor _)) => by apply keeps_changed
  | |- keeps _ _ _ _ => solve [eauto with keeps]
  end.
Ltac keeps := repeat (cbv zeta; keeps_step).
