(* ===== verification/ComputerActions.v ===== *)
(** * The tools keep what the host's program keeps

    A key or a button is pressed only where input is allowed, on a device that is
    there; no more keys are held than there is room for, and none is when a tool
    is done.  A target of text is the exception: it is verified after the lock and
    the device were looked at, and verifying it takes turns of the main loop. *)

From S2P Require Import Prelude Glib TreeDiff Json Catalog CatalogProps Results.
From S2P Require Export ComputerTools ComputerKept.

(** ** What is not changed on the way *)

Section frame.
Context {surroundings : Surroundings}.
Abbreviation M := (mcp host note).

Definition preserves {A} (F : assertion) (m : M A) : Prop :=
  ∀ w, F w.(now) (ghost_of w.(trace)) →
  match m w with Returned _ w' => F w'.(now) (ghost_of w'.(trace)) | _ => True end.

Lemma safe_frame {A} (F : assertion) (m : M A) p q :
  preserves F m → safe p m q → safe (λ s g, p s g ∧ F s g) m (λ x s g, q x s g ∧ F s g).
Proof.
  intros HF Hm w [Hp Hw]. specialize (HF w Hw). specialize (Hm w Hp). by destruct (m w).
Qed.

Lemma preserves_bind {A B} F (m : M A) (f : A → M B) :
  preserves F m → (∀ x, preserves F (f x)) → preserves F (m ≫= f).
Proof.
  intros Hm Hf w Hw. specialize (Hm w Hw). unfold mbind, M_bind. destruct (m w) as [x w'| |]; [|done..].
  exact (Hf x w' Hm).
Qed.

Lemma preserves_ret {A} F (x : A) : preserves F (mret x).
Proof. by intros w Hw. Qed.

Lemma preserves_undefined {A} F : preserves F (undefined : M A).
Proof. by intros w Hw. Qed.

(** A part of the state that neither the system's answers nor what is held is. *)
Definition apart (F : assertion) : Prop :=
  (∀ s g o, F s g → F (set_own (set_around o s.(own)) s) g) ∧
  (∀ s g v, F s g → F (set_own (set_the_visual v s.(own)) s) g).

Lemma preserves_ask {A} F (r : request A) : apart F → preserves F (ask r).
Proof. intros [HF _] w Hw. unfold ask, act. destruct (respond r _). by apply HF. Qed.

Lemma preserves_visual F f : apart F → preserves F (in_visual f).
Proof. intros [_ HF] w Hw. apply (HF w.(now) (ghost_of w.(trace))), Hw. Qed.

Lemma preserves_input_frame F d : apart F → preserves F (input_frame d).
Proof.
  intros HF. unfold input_frame. apply preserves_bind; [by apply preserves_ask|]. intros t.
  apply preserves_bind.
  { unfold on_device. apply preserves_bind; [by intros w Hw|]. intros v.
    destruct (is_listed d v); [by apply preserves_ask|apply preserves_undefined]. }
  intros []. apply preserves_bind; [by apply preserves_visual|]. intros [].
  apply preserves_bind; [by apply preserves_ask|]. intros t'. by apply preserves_visual.
Qed.

(** Where a press may come: input is allowed, or a target was verified since it
    was found to be. *)
Definition may_press : assertion := λ s g, input_open s = true ∨ g.(g_verified) = true.

Lemma may_press_apart : apart may_press.
Proof. done. Qed.
End frame.

Section actions.
Context `{Json_text} {G : GLib} {surroundings : Surroundings} {parts : Tools} {fuel : nat}.
Abbreviation M := (mcp host note).
Abbreviation sv s := s.(own).(the_service).

(** ** Pressing *)

Section held.
Context {keys_held : nat} {opens : bool}.
Abbreviation keeps := (ComputerKept.keeps (keys_held:=keys_held) (opens:=opens)).
Abbreviation J := (ComputerKept.J (keys_held:=keys_held) (opens:=opens)).
Abbreviation safe_on_device := (ComputerKept.safe_on_device (keys_held:=keys_held) (opens:=opens)).
Abbreviation keeps_scu_fail := (ComputerKept.keeps_scu_fail (keys_held:=keys_held) (opens:=opens)).
Abbreviation safe_input_frame := (ComputerKept.safe_input_frame (keys_held:=keys_held) (opens:=opens)).
Abbreviation K := (ComputerKept.K (keys_held:=keys_held) (opens:=opens)).

Lemma keeps_failure s0 r e c h : keeps s0 r e (fail c h).
Proof. unfold fail. keeps. Qed.
Hint Resolve keeps_failure : keeps.

Lemma inv_also (P : Prop) r e s g : P → inv r e s g → inv r e s (also P g).
Proof.
  intros HP []. split; cbn; auto. intros c' x' Hx'. by destruct (inv_client c' x' Hx').
Qed.

Lemma safe_press s0 r e d P q :
  safe (λ s g, K s0 r e d P s g ∧ may_press s g) (press d q) (λ _ s g, K s0 r e d P s g ∧ may_press s g).
Proof.
  unfold press. eapply (safe_bind _ _ _ (λ s1 s g, s1 = s ∧ K s0 r e d P s g ∧ may_press s g)); [by apply safe_get|].
  intros s1. eapply (safe_bind _ _ _ (λ _ s g, K s0 r e d P s g ∧ may_press s g)).
  - apply safe_record. intros s g (-> & ((I & Hk & Hr) & Hl & HP) & Ho). split; [|done].
    split; [split; [|split; [done|done]]|done]. cbn. by apply inv_also.
  - intros []. apply (safe_frame may_press _ (K s0 r e d P) (λ _, K s0 r e d P)); [|apply safe_on_device].
    unfold on_device. apply preserves_bind; [by intros w Hw|]. intros v.
    destruct (is_listed d v); [by apply preserves_ask|apply preserves_undefined].
Qed.

Lemma safe_framed s0 r e d P :
  (∀ v n t, P v → P (set_last_input_time t v) ∧ P (set_input_sequence n v)) →
  safe (λ s g, K s0 r e d P s g ∧ may_press s g) (input_frame d) (λ _ s g, K s0 r e d P s g ∧ may_press s g).
Proof.
  intros HP. apply (safe_frame may_press _ (K s0 r e d P) (λ _, K s0 r e d P));
    [by apply preserves_input_frame|by apply safe_input_frame].
Qed.

(** Input is allowed where the check says so. *)
Lemma safe_input_allowed s0 r e :
  safe (J s0 r e) desktop_input_allowed (λ ok s g, J s0 r e s g ∧ (ok = true → may_press s g)).
Proof.
  unfold desktop_input_allowed. eapply (safe_bind _ _ _ (λ s1 s g, s1 = s ∧ J s0 r e s g)); [by apply safe_get|].
  intros s1. cbv zeta.
  destruct (desktop_is_locked _ || _) eqn:E1; [|destruct (_ && _) eqn:E2].
  3: { eapply safe_bind.
       - eapply safe_mono; [apply (safe_frame (λ s _, s1 = s) _ (J s0 r e) (λ _, J s0 r e));
           [by intros w Hw|apply keeps_allowed]|by intros s g [-> ?]|intros x s g Hq; exact Hq].
       - intros []. apply safe_ret. intros s g [HJ ->]. split; [done|]. intros _. left. unfold input_open. by rewrite E1, E2. }
  all: eapply safe_bind; [eapply safe_mono; [apply (keeps_scu_fail s0 r e)|by intros s g [_ ?]|done]|].
  all: intros x; apply safe_ret; intros s g ?; by split.
Qed.

Lemma listed_resumed d v : resumed_now d v = true → is_listed d v = true.
Proof.
  unfold resumed_now, is_listed. rewrite !existsb_exists. intros (x & Hx & [Hd _]%andb_true_iff). eauto.
Qed.

Lemma safe_resumed s0 r e (F : assertion) d :
  safe (λ s g, J s0 r e s g ∧ F s g) (device_resumed d)
    (λ ok s g, J s0 r e s g ∧ (ok = true → F s g ∧ is_listed d s.(own).(the_visual) = true)).
Proof.
  unfold device_resumed. eapply (safe_bind _ _ _ (λ v s g, v = s.(own).(the_visual) ∧ J s0 r e s g ∧ F s g)); [by apply safe_the|].
  intros v. destruct (devices v); [|apply safe_ret; naive_solver].
  destruct (resumed_now d v) eqn:E.
  - apply safe_ret. intros s g (-> & HJ & HF). split; [done|]. intros _. split; [done|]. by apply listed_resumed.
  - unfold fail. eapply safe_bind; [eapply safe_mono; [apply (keeps_scu_fail s0 r e)|by intros s g (_ & ? & _)|done]|].
    intros x. apply safe_ret. intros s g ?. by split.
Qed.

Lemma safe_on_fresh s0 r e d :
  safe (λ s g, J s0 r e s g ∧ True) (device_resumed d)
    (λ ok s g, J s0 r e s g ∧ (ok = true → K s0 r e d (λ _, True) s g)).
Proof.
  eapply safe_mono; [apply (safe_resumed s0 r e (λ _ _, True))|naive_solver|].
  intros ok s g [HJ Hok]. split; [done|]. intros E. destruct (Hok E). by split_and!.
Qed.

Lemma keeps_hold s0 r e d button :
  safe (λ s g, K s0 r e d (λ _, True) s g ∧ may_press s g) (hold_button d button) (λ _, J s0 r e).
Proof.
  unfold hold_button. eapply safe_bind; [apply safe_press|]. intros [].
  eapply safe_bind; [by apply safe_framed|]. intros [].
  apply safe_visual. intros s g [((I & Hk & Hv & Hd & Hc) & Hl & _) _].
  split; [done|split; [done|split; [|done]]]. destruct Hv. split; cbn; try done. intros d' [= <-]. exact Hl.
Qed.

(** ** Access *)

Lemma keeps_access s0 e : keeps s0 None e (require_computer_access fuel).
Proof. unfold require_computer_access. keeps. apply keeps_visual. intros v []. by split. Qed.
Hint Resolve keeps_access : keeps.

Lemma safe_step s0 e :
  safe (J s0 None e) (visual_step fuel) (λ ok s g, J s0 None e s g ∧ (ok = true → may_press s g)).
Proof.
  unfold visual_step. eapply safe_bind; [apply keeps_scu_tick|]. intros [|]; [|by apply safe_ret].
  eapply safe_bind; [apply keeps_access|]. intros [|]; [|by apply safe_ret].
  eapply safe_bind; [apply keeps_the|]. intros v.
  destruct (broken v); [by apply safe_ret|apply safe_input_allowed].
Qed.

Lemma keeps_visual_step s0 e : keeps s0 None e (visual_step fuel).
Proof. eapply safe_mono; [apply safe_step|done|]. by intros ok s g [? _]. Qed.
Hint Resolve keeps_visual_step : keeps.

Lemma keeps_delay_until s0 e n t : keeps s0 None e (delay_until fuel n t).
Proof. induction n as [|n IH]; cbn [delay_until]; keeps. Qed.
Hint Resolve keeps_delay_until : keeps.

Lemma keeps_wait_for_delay s0 e ms : keeps s0 None e (wait_for_delay fuel ms).
Proof. unfold wait_for_delay. keeps. Qed.
Hint Resolve keeps_wait_for_delay : keeps.

(** ** Devices *)

Lemma keeps_first_device s0 r e good l :
  (∀ x, keeps s0 r e (good x)) → keeps s0 r e (first_device good l).
Proof. intros Hg. induction l as [|x l IH]; cbn [first_device]; keeps. Qed.

Lemma keeps_capable s0 r e c : keeps s0 r e (capable_device c).
Proof. unfold capable_device. keeps. apply keeps_first_device. intros ?. keeps. Qed.
Hint Resolve keeps_capable : keeps.

Lemma keeps_find_device s0 e n c t : keeps s0 None e (find_device fuel n c t).
Proof. induction n as [|n IH]; cbn [find_device]; keeps. Qed.
Hint Resolve keeps_find_device : keeps.

Lemma keeps_wait_for_device s0 e c : keeps s0 None e (wait_for_device fuel c).
Proof. unfold wait_for_device. keeps. Qed.

Lemma keeps_seat_device s0 r e d c : keeps s0 r e (seat_device d c).
Proof. unfold seat_device. keeps; apply keeps_first_device; intros ?; keeps. Qed.
Hint Resolve keeps_wait_for_device keeps_seat_device : keeps.

Lemma keeps_libraries s0 r e l : keeps s0 r e (load_libraries l).
Proof. induction l as [|x l IH]; cbn [load_libraries]; keeps. Qed.

Lemma keeps_wait_pointer s0 e n t : keeps s0 None e (wait_pointer fuel n t).
Proof. induction n as [|n IH]; cbn [wait_pointer]; keeps. Qed.
(** What is done to a device that was just seen. *)
Lemma keeps_when_resumed s0 r e d (m : M unit) :
  safe (K s0 r e d (λ _, True)) m (λ _, J s0 r e) → keeps s0 r e (when_resumed d m).
Proof.
  intros Hm. unfold when_resumed.
  eapply safe_bind; [eapply safe_mono; [apply safe_on_fresh|intros s g HJ; by split|done]|].
  intros [|]; [|apply safe_ret; naive_solver].
  apply (safe_mono _ (K s0 r e d (λ _, True)) _ (λ _, J s0 r e)); [|naive_solver|done].
  eapply safe_bind; [exact Hm|]. intros []. by apply safe_ret.
Qed.

Lemma keeps_sent s0 r e d q :
  safe (K s0 r e d (λ _, True)) (on_device d q ≫= λ _, input_frame d) (λ _, J s0 r e).
Proof.
  eapply safe_bind; [apply safe_on_device|]. intros [].
  apply (safe_mono _ (K s0 r e d (λ _, True)) _ (λ _, K s0 r e d (λ _, True)));
    [by apply safe_input_frame|done|]. by intros [] s g [? _].
Qed.

(** What is pressed on a device that was just seen, where input is allowed. *)
Lemma safe_checked {A} s0 e d (m : M A) (x0 : A) :
  safe (λ s g, K s0 None e d (λ _, True) s g ∧ may_press s g) m (λ _, J s0 None e) →
  keeps s0 None e (ok ← visual_step fuel; if negb ok then mret x0 else
    ok ← device_resumed d; if negb ok then mret x0 else m).
Proof.
  intros Hm. eapply safe_bind; [apply safe_step|]. intros [|]; cbn [negb]; [|apply safe_ret; naive_solver].
  eapply safe_bind; [eapply safe_mono; [apply (safe_resumed s0 None e may_press d)|naive_solver|done]|].
  intros [|]; cbn [negb]; [|apply safe_ret; naive_solver].
  eapply safe_mono; [exact Hm| |done]. intros s g [HJ Hok]. destruct Hok; [done|]. by split_and!.
Qed.

Lemma keeps_click s0 e d button n : keeps s0 None e (click_pointer fuel d button n).
Proof.
  induction n as [|n IH]; cbn [click_pointer]; [keeps|]. apply safe_checked.
  eapply safe_bind; [apply keeps_hold|]. intros [].
  match goal with |- safe _ ?m _ => change (keeps s0 None e m) end. keeps.
Qed.

(** ** Where a target is verified *)

(** The target is as it should be, and the device may have gone meanwhile. *)
Definition device_gone (d : Z) : assertion := λ s g,
  g.(g_verified) = true ∧ is_listed d s.(own).(the_visual) = false.

Definition ready_for s0 e (d : Z) : assertion := λ s g, K s0 None e d (λ _, True) s g ∧ may_press s g.

(** A check before input is given: the input is as it was, or a target was
    verified. *)
Definition checks s0 e (verify : M bool) : Prop := ∀ d,
  safe (ready_for s0 e d) verify (λ ok s g, J s0 None e s g ∧
    (ok = true → may_press s g ∧ (is_listed d s.(own).(the_visual) = true ∨ g.(g_verified) = true))).

Lemma checks_none s0 e : checks s0 e (mret true).
Proof. intros d. apply safe_ret. intros s g [(? & ? & ?) ?]. split_and!; [done|]. intros _. split; [done|by left]. Qed.

Lemma safe_or {A} p p' (m : M A) q : safe p m q → safe p' m q → safe (λ s g, p s g ∨ p' s g) m q.
Proof. intros H1 H2 w [Hw|Hw]; [exact (H1 w Hw)|exact (H2 w Hw)]. Qed.

Lemma safe_verified {A} s0 e d verify (m : M A) (x0 : A) :
  checks s0 e verify → safe (ready_for s0 e d) m (λ _, J s0 None e) → safe (device_gone d) m (λ _, J s0 None e) →
  safe (ready_for s0 e d) (ok ← verify; if negb ok then mret x0 else m) (λ _, J s0 None e).
Proof.
  intros Hv Hm Hg. eapply safe_bind; [apply Hv|]. intros [|]; cbn [negb]; [|apply safe_ret; naive_solver].
  eapply safe_mono; [exact (safe_or _ _ _ _ Hm Hg)| |done]. intros s g [HJ Hok]. destruct Hok as [Hp Hl]; [done|].
  destruct (is_listed d _) eqn:E; [by left|right]. split; [naive_solver|done].
Qed.

(** A press on a device that is gone ends there. *)
Lemma safe_press_gone {A} d r (f : unit → M A) q : safe (device_gone d) (press d r ≫= f) q.
Proof.
  intros w [Hv Hd]. unfold press, on_device, the. unfold mbind, M_bind, get, noted, record, act. cbn.
  rewrite Hd. eexists d, _, _. cbn. done.
Qed.

Lemma keeps_submit_text s0 e verify d chunk :
  checks s0 e verify → keeps s0 None e (submit_text fuel verify d chunk).
Proof.
  intros Hv. apply safe_checked, safe_verified; [done| |apply safe_press_gone].
  eapply safe_bind; [apply safe_press|]. intros [].
  eapply safe_bind; [by apply safe_framed|]. intros []. apply safe_ret. by intros s g [[? _] _].
Qed.
End held.

(** ** Keys

    Between two tools no key is held; while a chord is down at most eight are. *)

Abbreviation keeps := (ComputerKept.keeps (keys_held:=0) (opens:=true)).
Abbreviation J := (ComputerKept.J (keys_held:=0) (opens:=true)).
Abbreviation verifies := (checks (keys_held:=0) (opens:=true)).
Abbreviation pressing := (ComputerKept.J (keys_held:=HELD_KEYS) (opens:=true)).
Abbreviation on_keyboard s0 e d ks := (ComputerKept.K (keys_held:=HELD_KEYS) (opens:=true) s0 None e d (holding d ks)).

Lemma J_visual k o k' o' s0 r e s g :
  (visual_inv (keys_held:=k) (opens:=o) s.(own).(the_visual) →
   visual_inv (keys_held:=k') (opens:=o') s.(own).(the_visual)) →
  ComputerKept.J (keys_held:=k) (opens:=o) s0 r e s g → ComputerKept.J (keys_held:=k') (opens:=o') s0 r e s g.
Proof. intros Hv (? & ? & ? & ?). split_and!; [done|done|split; auto]. Qed.

Lemma safe_start_keys s0 e d :
  safe (λ s g, ComputerKept.K (keys_held:=0) (opens:=true) s0 None e d (λ _, True) s g ∧ may_press s g)
    (in_visual (set_keyboard_device (Some d))) (λ _ s g, on_keyboard s0 e d [] s g ∧ may_press s g).
Proof.
  apply safe_visual. intros s g [((I & Hk & Hv & Hr) & Hl & _) Ho]. split; [|exact Ho].
  assert (Hn : held_keys (the_visual (own s)) = []).
  { apply nil_length_inv. pose proof (vi_few _ Hv). lia. }
  split; [|split; [exact Hl|by split]].
  split; [done|split; [done|split; [|done]]]. destruct Hv. split; cbn; try done.
  - intros d' [= <-]. exact Hl.
  - rewrite Hn. cbn. lia.
Qed.

Lemma safe_press_keys s0 e d codes ks :
  (length ks + length codes ≤ HELD_KEYS)%nat →
  safe (λ s g, on_keyboard s0 e d ks s g ∧ may_press s g) (press_keys d codes) (λ _, pressing s0 None e).
Proof.
  revert ks. induction codes as [|k codes IH]; intros ks Hlen; cbn [press_keys].
  { apply safe_ret. by intros s g [[? _] _]. }
  eapply safe_bind; [apply safe_press|]. intros [].
  eapply safe_bind; [by apply safe_framed|]. intros [].
  eapply (safe_bind _ _ _ (λ v s g, v = s.(own).(the_visual) ∧ on_keyboard s0 e d ks s g ∧ may_press s g)); [by apply safe_the|].
  intros v. cbn in Hlen. apply (safe_pre (held_keys v = ks)).
  { by intros s g (-> & (_ & _ & _ & ?) & _). }
  intros Hv. rewrite Hv. rewrite decide_True by lia.
  eapply (safe_bind _ _ _ (λ _ s g, on_keyboard s0 e d (k :: ks) s g ∧ may_press s g)); [|intros []; apply IH; cbn; lia].
  apply safe_visual. intros s g (-> & ((I & Hk & Hi & Hr) & Hl & Hd & _) & Ho). split; [|exact Ho].
  split; [|split; [exact Hl|split; [exact Hd|cbn; by rewrite Hv]]].
  split; [done|split; [done|split; [|done]]]. destruct Hi. split; cbn; try done.
  - congruence.
  - rewrite Hv. cbn. lia.
Qed.

Lemma safe_release_chord s0 e (ok : bool) :
  safe (pressing s0 None e) (release_input ≫= λ _, mret ok) (λ _, J s0 None e).
Proof.
  eapply safe_bind; [apply safe_release_input|]. intros []. apply safe_ret. intros s g [HJ Hn].
  eapply J_visual; [|exact HJ]. intros []. split; try done. rewrite Hn. cbn. lia.
Qed.

(** Every key that is pressed is released, and none is pressed without a check that
    its device is there. *)
Lemma keeps_press_codes s0 e verify d codes :
  verifies s0 e verify → keeps s0 None e (press_codes_with fuel verify d codes).
Proof.
  intros Hv. unfold press_codes_with.
  case_bool_decide; [apply keeps_value|]. case_bool_decide; [apply keeps_value|]. cbn [orb].
  apply safe_checked, safe_verified; [exact Hv| |].
  - eapply safe_bind; [apply safe_start_keys|]. intros [].
    eapply safe_bind; [apply safe_press_keys; cbn; lia|]. intros [].
    eapply safe_bind; [apply (keeps_scu_pause (keys_held:=HELD_KEYS) (opens:=true))|]. intros ok.
    apply safe_release_chord.
  - destruct codes as [|k codes]; [done|].
    eapply (safe_bind _ _ _ (λ _, device_gone d)); [by apply safe_visual|]. intros [].
    eapply (safe_bind _ _ _ (λ _ _ _, False)); [apply safe_press_gone|]. by intros x w [].
Qed.
Hint Resolve keeps_press_codes : keeps.
Hint Resolve keeps_failure keeps_access keeps_visual_step keeps_delay_until keeps_wait_for_delay keeps_first_device
  keeps_capable keeps_find_device keeps_wait_for_device keeps_seat_device keeps_libraries
  keeps_wait_pointer keeps_click keeps_submit_text : keeps.

(** ** The session *)

Section closed.
Abbreviation closed s0 e := (ComputerKept.J (keys_held:=0) (opens:=false) s0 None e).

Lemma closed_open s0 e s g : closed s0 e s g → J s0 None e s g.
Proof. apply J_visual. intros []. by split. Qed.

Lemma safe_open_input s0 e : safe (closed s0 e) (open_input fuel) (λ _, J s0 None e).
Proof.
  unfold open_input. eapply (safe_bind _ _ _ (λ _, closed s0 e)); [by apply safe_ask|]. intros [].
  eapply safe_bind; [apply (keeps_bounded_call (keys_held:=0) (opens:=false))|]. intros [t|fd].
  - apply keeps_from; [keeps|apply closed_open].
  - eapply (safe_bind _ _ _ (λ _, closed s0 e)); [by apply safe_ask|]. intros [].
    eapply (safe_bind _ _ _ (λ _, J s0 None e));
      [|intros []; match goal with |- safe _ ?m _ => change (keeps s0 None e m) end; keeps].
    apply safe_visual. intros s g (I & Hk & Hv & Hr).
    split; [done|split; [done|split; [|done]]]. destruct Hv as [Hh Hb Hn Hf Hi Hc]. specialize (Hi (Hc eq_refl)).
    assert (Hno : ∀ d, is_listed d (the_visual (own s)) = false) by (intros d; unfold is_listed; by rewrite Hi).
    split; cbn; try done.
    + intros d Hd. apply Hh in Hd. by rewrite Hno in Hd.
    + intros d Hd. apply Hb in Hd. by rewrite Hno in Hd.
Qed.

Lemma keeps_ensure s0 e m : keeps s0 None e m → keeps s0 None e (ensure_visual_session fuel m).
Proof.
  intros Hm. unfold ensure_visual_session.
  keeps_step; [keeps|]. keeps_step; [keeps|]. keeps_step; [keeps|]. keeps_step; [keeps|].
  keeps_step; [exact Hm|]. keeps_step; [keeps|].
  eapply safe_bind; [apply safe_the_visual|]. intros v. destruct (visual_input v) eqn:E; [by apply safe_ret; naive_solver|].
  apply (safe_mono _ (closed s0 e) _ (λ _, J s0 None e)); [| |done].
  - eapply safe_bind; [apply keeps_libraries|]. intros [|]; cbn [negb]; [|apply safe_ret, closed_open].
    eapply (safe_bind _ _ _ (λ _, closed s0 e)); [by apply safe_ask|]. intros [|]; cbn [negb]; [apply safe_open_input|].
    apply keeps_from; [keeps|apply closed_open].
  - intros s g (HJ & _ & ->). eapply J_visual; [|exact HJ]. intros []. by split.
Qed.
End closed.
Hint Resolve keeps_ensure : keeps.

(** ** Tools *)

Lemma keeps_do_step {A} s0 e verify ensure (q : step A) :
  verifies s0 e verify → keeps s0 None e ensure → keeps s0 None e (do_step fuel verify ensure q).
Proof.
  intros Hv He. destruct q; cbn [do_step]; try solve [keeps].
  - unfold stop_atspi_worker. keeps.
  - apply keeps_visual. intros v []. by split.
  - unfold clear_tool_error. by apply keeps_changed.
  - by apply keeps_changed.
  - apply keeps_when_resumed, keeps_sent.
  - apply keeps_when_resumed, keeps_sent.
  - unfold when_resumed. apply safe_checked. eapply safe_bind; [apply keeps_hold|]. intros []. apply keeps_value.
  - by apply safe_modify.
Qed.

Lemma keeps_do_with {A} s0 e verify ensure (w : work A) :
  verifies s0 e verify → keeps s0 None e ensure → keeps s0 None e (do_with fuel verify ensure w).
Proof.
  intros Hv He. induction w as [x|B q k IH]; cbn [do_with]; [apply keeps_value|].
  apply keeps_then; [by apply keeps_do_step|done].
Qed.

Lemma keeps_do_plain {A} s0 e (w : work A) : keeps s0 None e (do_plain fuel w).
Proof. apply keeps_do_with; [apply checks_none|apply keeps_value]. Qed.
Hint Resolve @keeps_do_plain : keeps.

Lemma keeps_worker_call s0 e tool arguments : keeps s0 None e (atspi_worker_call fuel tool arguments).
Proof. unfold atspi_worker_call. keeps; by apply keeps_changed. Qed.
Hint Resolve keeps_worker_call : keeps.

(** Verifying a target may take turns of the main loop; what it ends with is
    either no target or one that was verified. *)
Lemma checks_target s0 e : verifies s0 e (verify_target_input fuel).
Proof.
  intros d. unfold verify_target_input. eapply safe_bind; [by apply (safe_the _ _ (λ _, ready_for (keys_held:=0) (opens:=true) s0 e d))|].
  intros [[arguments window]|]; [|apply checks_none].
  assert (Hno : ∀ c h, safe (J s0 None e) (scu_fail c h ≫= λ _, mret false)
    (λ ok s g, J s0 None e s g ∧ (ok = true → may_press s g ∧
      (is_listed d s.(own).(the_visual) = true ∨ g.(g_verified) = true)))).
  { intros c h. eapply safe_bind; [apply (keeps_scu_fail (keys_held:=0) (opens:=true))|].
    intros x. apply safe_ret. naive_solver. }
  eapply (safe_mono _ (J s0 None e)); [|intros s g [[? _] _]; done|intros ? ? ? Hq; exact Hq].
  eapply safe_bind; [apply keeps_visual_step|]. intros [|]; cbn [negb]; [|apply safe_ret; naive_solver].
  eapply safe_bind; [apply keeps_do_plain|]. intros [|]; cbn [negb]; [|apply safe_ret; naive_solver].
  eapply safe_bind; [apply keeps_do_plain|]. intros [|]; cbn [negb]; [|apply Hno].
  eapply safe_bind; [apply keeps_worker_call|]. intros [r|]; [|apply safe_ret; naive_solver].
  eapply (safe_bind _ _ _ (λ _ s g, J s0 None e s g ∧ g_verified g = true)).
  - intros w HJ. split; [exact (keeps_verified (keys_held:=0) (opens:=true) s0 None e w HJ)|done].
  - intros []. apply safe_ret. intros s g [HJ Hv]. split; [done|]. intros _. split; by right.
Qed.
Hint Resolve checks_target : keeps.

Lemma keeps_do {A} s0 e (w : work A) : keeps s0 None e (do fuel w).
Proof. apply keeps_do_with; [apply checks_target|]. apply keeps_ensure. keeps. Qed.

Lemma keeps_codes s0 e d codes : keeps s0 None e (press_codes fuel d codes).
Proof. apply keeps_press_codes, checks_target. Qed.
Hint Resolve @keeps_do keeps_codes : keeps.
End actions.
