(* ===== verification/ComputerTyping.v ===== *)
(** * What the catalog promises the tools

    A tool runs on arguments that its schema accepts: what the code takes for
    granted of them is here. *)

From S2P Require Import Prelude Json Catalog CatalogProps Results Glib TreeDiff.
From S2P Require Export ComputerTools ComputerActions.

(** A member that is there is of its kind. *)
Lemma accepted_member needed known l k x ok :
  object_ok needed known (JObject l) = true → lookup_member l k = Some x → zero ∉ k →
  known k = Some ok → ok x = true.
Proof.
  intros [_ Ha]%andb_true_iff Hx Hk Hok. rewrite forallb_forall in Ha.
  specialize (Ha (k, x) (proj1 (list_elem_of_In _ _) (lookup_member_elem _ _ _ Hx))).
  cbn in Ha. by rewrite cstring_id, Hok in Ha.
Qed.

Lemma needed_member needed known l k :
  object_ok needed known (JObject l) = true → k ∈ needed → is_Some (lookup_member l k).
Proof.
  intros [Hn _]%andb_true_iff Hk. rewrite forallb_forall in Hn. specialize (Hn k (proj1 (list_elem_of_In _ _) Hk)).
  unfold has_member in Hn. by destruct (lookup_member l k).
Qed.

Lemma accepted_object needed known x : object_ok needed known x = true → ∃ l, x = JObject l.
Proof. destruct x; try done. eauto. Qed.

(** ** Actions *)

Definition actions_of (kind : Z) : list Tool := select_action kind <$> action_tools.

Lemma find_action_elem kind n t :
  find_action kind n = Some t → t ∈ actions_of kind ∧ is_named n t.(name) = true.
Proof.
  unfold find_action, actions_of. destruct (find _ action_tools) as [a|] eqn:E; [|done].
  apply find_some in E as [Hin [_ Hn]%andb_true_iff]. intros [= <-]. split.
  - apply list_elem_of_fmap_2. by apply list_elem_of_In.
  - unfold select_action. by repeat case_match.
Qed.

Lemma actions_plain kind t : kind ∈ kinds → t ∈ actions_of kind →
  (∀ nv, tool_wf nv t) ∧ t.(batch) = BATCH_NONE.
Proof.
  intros Hk Ht.
  assert (tool_wfb true t && tool_wfb false t && (t.(batch) =? BATCH_NONE) = true) as
    [[Hw Hw']%andb_true_iff ?%Z.eqb_eq]%andb_true_iff.
  { revert Ht. apply (all_true (λ t, tool_wfb true t && tool_wfb false t && (t.(batch) =? BATCH_NONE))).
    set_unfold in Hk. destruct Hk as [->|[->|[]]]; by vm_compute. }
  split; [|done]. intros []; by apply tool_wfb_wf.
Qed.

(** The arguments of an action, by its name. *)
Lemma action_argument kind nv t x k (f : Argument → bool) :
  kind ∈ kinds → t ∈ actions_of kind → validate_arguments nv t (Some x) = true → zero ∉ k →
  forallb (λ u, implb (text_eqb u.(name) t.(name))
    (existsb (text_eqb k) (default [] u.(required)) &&
     if argument_named (tool_arguments nv u) k is Some a then f a else false)) (actions_of kind) = true →
  ∃ a y, f a = true ∧ json_member (Some x) k = Some y ∧ argument_accepts (item_ok a.(type)) a y = true.
Proof.
  intros Hk Ht Hv Hz Hf. destruct (actions_plain kind t Hk Ht) as [Hw Hb].
  unfold validate_arguments, build_tool_schema in Hv. rewrite validate_action in Hv by done.
  apply (all_true _ _ _ Hf) in Ht. cbn in Ht. rewrite text_eqb_refl in Ht. cbn [implb] in Ht.
  apply andb_true_iff in Ht as [Hr Ha].
  destruct (argument_named (tool_arguments nv t) k) as [a|] eqn:Hn; [|done].
  destruct (accepted_object _ _ _ Hv) as [l ->].
  destruct (needed_member _ _ _ k Hv) as [y Hy].
  { apply existsb_exists in Hr as (z & Hz' & E%text_eqb_spec). subst z. by apply list_elem_of_In. }
  exists a, y. split_and!; [done|exact Hy|].
  apply (accepted_member _ _ _ _ _ _ Hv Hy Hz). unfold known_arguments. by rewrite Hn.
Qed.

(** [press_keys] gets names for which there is room, [type_text] a text. *)
Definition good_call (tool : text) (arguments : value) : Prop :=
  (tool = str "press_keys" → is_Some (key_names arguments)) ∧
  (tool = str "type_text" → is_Some (json_string arguments (str "text"))).

Definition is_keys (a : Argument) : bool :=
  bool_decide (a.(type) = ARG_STRING_ARRAY) && (a.(minimum) =? 1) && (a.(maximum) =? 5) &&
  negb a.(allow_null) && negb a.(allow_false).

Definition is_string (a : Argument) : bool :=
  bool_decide (a.(type) = ARG_STRING) && negb a.(allow_null) && negb a.(allow_false).

Lemma keys_accepted a y :
  is_keys a = true → argument_accepts (item_ok a.(type)) a y = true →
  ∃ l, y = JArray l ∧ (length l ≤ MAX_NAMES)%nat ∧ Forall (λ x, is_Some (yyjson_get_str (Some x))) l.
Proof.
  unfold is_keys, argument_accepts, value_ok, size_ok. rewrite !andb_true_iff, !negb_true_iff.
  intros [[[[Ht%bool_decide_eq_true _] Hm%Z.eqb_eq] Hn] Hf]. rewrite Ht, Hm, Hn, Hf. cbn [andb orb negb Z.eqb].
  rewrite !orb_false_r. destruct y as [| | | | | |l|]; try done. rewrite !andb_true_iff.
  intros [[_ Hl%Z.leb_le] Hi]. exists l. split_and!; [done|unfold MAX_NAMES; lia|].
  apply List.Forall_forall. intros x Hx. rewrite forallb_forall in Hi. specialize (Hi x Hx).
  by destruct x.
Qed.

Lemma string_accepted a y :
  is_string a = true → argument_accepts (item_ok a.(type)) a y = true → is_Some (yyjson_get_str (Some y)).
Proof.
  unfold is_string, argument_accepts, value_ok. rewrite !andb_true_iff, !negb_true_iff.
  intros [[Ht%bool_decide_eq_true Hn] Hf]. rewrite Ht, Hn, Hf. cbn [andb orb]. rewrite !orb_false_r.
  by destruct y.
Qed.

Lemma action_good kind n nv t arguments :
  kind ∈ kinds → find_action kind n = Some t → yyjson_is_obj arguments = true →
  validate_arguments nv t arguments = true → good_call t.(name) arguments.
Proof.
  intros Hk [Ht _]%find_action_elem Ho Hv. destruct arguments as [x|]; [|done]. split; intros E.
  - destruct (action_argument kind nv t x (str "keys") is_keys) as (a & y & Ha & Hy & Hacc); [done|done|done| | |].
    + by apply (bool_decide_unpack _); vm_compute.
    + rewrite E. clear - Hk. set_unfold in Hk. destruct Hk as [->|[->|[]]]; destruct nv; by vm_compute.
    + destruct (keys_accepted a y Ha Hacc) as (l & -> & Hl & Hs). unfold key_names. rewrite Hy. cbn [elements].
      rewrite decide_True by done. apply mapM_is_Some_2. exact Hs.
  - destruct (action_argument kind nv t x (str "text") is_string) as (a & y & Ha & Hy & Hacc); [done|done|done| | |].
    + by apply (bool_decide_unpack _); vm_compute.
    + rewrite E. clear - Hk. set_unfold in Hk. destruct Hk as [->|[->|[]]]; destruct nv; by vm_compute.
    + unfold json_string. rewrite Hy. by eapply string_accepted.
Qed.

(** ** Batches *)

Definition is_steps (a : Argument) : bool :=
  bool_decide (a.(type) = ARG_OBJECT_ARRAY) && (a.(maximum) =? 64).

Lemma batch_steps_few nv t arguments :
  t ∈ tools → t.(batch) ≠ BATCH_NONE → validate_arguments nv t arguments = true →
  (length (elements (json_member arguments (str "steps"))) ≤ MAX_STEPS)%nat.
Proof.
  intros Ht Hb Hv. destruct (json_member arguments (str "steps")) as [y|] eqn:Hy; [|cbn; lia].
  destruct arguments as [x|]; [|done]. rewrite validate_documented in Hv by done.
  destruct (accepted_object _ _ _ Hv) as [l ->].
  assert (Ha : match argument_named (tool_arguments nv t) (str "steps") with Some a => is_steps a | None => false end = true).
  { apply (all_true (λ t, (t.(batch) =? BATCH_NONE) ||
      match argument_named (tool_arguments nv t) (str "steps") with Some a => is_steps a | None => false end)) in Ht;
      [|destruct nv; by vm_compute].
    apply orb_true_iff in Ht as [?%Z.eqb_eq|?]; done. }
  destruct (argument_named _ (str "steps")) as [a|] eqn:Hn; [|done].
  assert (Hacc : argument_accepts (item_accepts nv t a) a y = true).
  { apply (accepted_member _ _ _ (str "steps") _ _ Hv Hy); [by apply (bool_decide_unpack _); vm_compute|].
    unfold known_arguments. by rewrite Hn. }
  apply andb_true_iff in Ha as [Hty%bool_decide_eq_true Hm%Z.eqb_eq].
  unfold argument_accepts, value_ok, size_ok in Hacc. rewrite Hty, Hm in Hacc. cbn [Z.eqb] in Hacc.
  destruct y as [| | | | | |m|]; cbn [elements length]; try (unfold MAX_STEPS; lia).
  cbn [yyjson_is_null yyjson_is_false] in Hacc. rewrite !andb_false_r, !orb_false_r in Hacc.
  apply andb_true_iff in Hacc as [[_ Hl%Z.leb_le]%andb_true_iff _]. unfold MAX_STEPS. lia.
Qed.

(** * The tools and the batches keep what the host's program keeps

    From the steps of [ComputerActions] to [execute_tool]: a call that the
    catalog's schema accepts never writes beyond an array, and a batch answers
    the client that it was made for. *)

Section typing.
Context `{Json_text} {G : GLib} {surroundings : Surroundings} {parts : Tools} {fuel : nat}.
Abbreviation M := (mcp host note).
Abbreviation sv s := s.(own).(the_service).
Abbreviation keeps := (ComputerKept.keeps (keys_held:=0) (opens:=true)).
Abbreviation J := (ComputerKept.J (keys_held:=0) (opens:=true)).

#[local] Hint Resolve keeps_codes keeps_press_codes checks_target keeps_failure keeps_access keeps_visual_step keeps_delay_until
  keeps_wait_for_delay keeps_capable keeps_find_device keeps_wait_for_device keeps_seat_device
  keeps_click keeps_submit_text keeps_ensure @keeps_do @keeps_do_plain : keeps.

Lemma keeps_load_map s0 r e d : keeps s0 r e (load_keyboard_map d).
Proof. unfold load_keyboard_map. keeps. Qed.
Hint Resolve keeps_load_map : keeps.

Lemma keeps_keyboard_action s0 e arguments :
  is_Some (key_names arguments) → keeps s0 None e (keyboard_action fuel (verify_target_input fuel) arguments).
Proof.
  intros [names Hn]. unfold keyboard_action. rewrite Hn. keeps.
Qed.

Lemma keeps_submit_chunks s0 e n d t : keeps s0 None e (submit_chunks fuel (verify_target_input fuel) n d t).
Proof. revert t. induction n as [|n IH]; intros [|c t]; cbn [submit_chunks]; keeps. Qed.

Lemma keeps_press_strokes s0 e d shift l : keeps s0 None e (press_strokes fuel d shift l).
Proof.
  induction l as [|k l IH]; cbn [press_strokes]; keeps.
Qed.
Hint Resolve keeps_keyboard_action keeps_submit_chunks keeps_press_strokes : keeps.

Lemma keeps_type_text s0 e arguments :
  is_Some (json_string arguments (str "text")) →
  keeps s0 None e (type_foreground_text fuel arguments).
Proof. intros [t Ht]. unfold type_foreground_text, type_utf8, type_keys. rewrite Ht. keeps. Qed.

Lemma keeps_scu_visual s0 e tool arguments :
  good_call tool arguments → keeps s0 None e (scu_visual fuel tool arguments).
Proof.
  intros [Hk Ht]. unfold scu_visual.
  keeps_step; [keeps|]. keeps_step; [keeps|]. keeps_step; [keeps|]. keeps_step; [keeps|].
  keeps_step; [keeps|]. keeps_step; [keeps|].
  destruct (text_eqb tool (str "press_keys")) eqn:Ek.
  { apply text_eqb_spec in Ek. by apply keeps_keyboard_action, Hk. }
  destruct (text_eqb tool (str "type_text")) eqn:Et.
  { apply text_eqb_spec in Et. by apply keeps_type_text, Ht. }
  keeps.
Qed.
Hint Resolve keeps_scu_visual : keeps.

(** ** One tool *)

Lemma keeps_fallback s0 r e b : keeps s0 r e (change (set_keyboard_fallback b)).
Proof. by apply safe_modify. Qed.
Hint Resolve keeps_fallback : keeps.

Lemma keeps_element_tool s0 e tool arguments :
  keeps s0 None e (element_tool fuel tool arguments).
Proof.
  unfold element_tool. keeps_step; [keeps|]. keeps_step; [|keeps].
  keeps_step; [keeps|]. keeps_step; [keeps|]. keeps_step; [keeps|].
  keeps_step; [|keeps]. keeps_step; [|keeps]. by apply keeps_changed.
Qed.
Hint Resolve keeps_element_tool : keeps.

Lemma keeps_execute_with s0 e batch t arguments :
  (t.(Catalog.batch) ≠ BATCH_NONE → keeps s0 None e (batch t arguments)) →
  good_call t.(name) arguments → keeps s0 None e (execute_with fuel batch t arguments).
Proof.
  intros Hb Hg. unfold execute_with. keeps_step; [keeps|].
  keeps_step; [keeps|]. keeps_step; [keeps|].
  destruct (Z.eqb_spec t.(Catalog.batch) BATCH_NONE) as [E|E]; cbn [negb]; [|by apply Hb]. keeps.
Qed.

(** ** Batches *)

Lemma keeps_validate_call s0 e t arguments :
  safe (J s0 None e) (validate_call t arguments) (λ ok s g, J s0 None e s g ∧
    (ok = true → ∃ nv, validate_arguments nv t arguments = true)).
Proof.
  unfold validate_call. eapply safe_bind; [apply (keeps_look (keys_held:=0) (opens:=true))|]. intros s.
  destruct (validate_arguments _ _ _) eqn:E; [apply safe_ret; eauto|].
  eapply safe_bind; [apply (keeps_scu_fail (keys_held:=0) (opens:=true))|]. intros x. by apply safe_ret.
Qed.

(** What the steps of a batch are checked for. *)
Definition good_step (x : Tool * value) : Prop := good_call x.1.(name) x.2 ∧ x.1.(Catalog.batch) = BATCH_NONE.

Lemma safe_preflight s0 e kind steps :
  kind ∈ kinds →
  safe (J s0 None e) (preflight kind steps) (λ l s g, J s0 None e s g ∧
    match l with Some l => Forall good_step l | None => True end).
Proof.
  intros Hk. induction steps as [|x steps IH]; cbn [preflight]; [by apply safe_ret|].
  assert (Hfail : ∀ c h, safe (J s0 None e) (fail c h ≫= λ _, mret None : M (option (list (Tool * value))))
    (λ l s g, J s0 None e s g ∧ match l with Some l => Forall good_step l | None => True end)).
  { intros c h. eapply safe_bind; [apply (keeps_failure (keys_held:=0) (opens:=true))|]. intros y. by apply safe_ret. }
  destruct (find_action _ _) as [t|] eqn:Ht; [|apply Hfail].
  destruct (negb _ || _) eqn:Eo; [apply Hfail|].
  apply orb_false_iff in Eo as [_ Eo%negb_false_iff].
  eapply safe_bind; [apply keeps_validate_call|]. intros ok.
  apply (safe_pre (ok = true → ∃ nv, validate_arguments nv t (json_member (Some x) (str "args")) = true)); [naive_solver|].
  intros Hok. eapply (safe_mono _ (J s0 None e)); [|naive_solver|intros ? ? ? Hq; exact Hq].
  destruct ok; cbn [negb]; [|by apply safe_ret]. destruct Hok as [nv Hv]; [done|].
  eapply safe_bind; [exact IH|]. intros l.
  apply safe_ret. intros s g [HJ Hl]. split; [done|]. destruct l as [l|]; [|done]. cbn.
  constructor; [|done]. split; cbn [fst snd]; [by eapply action_good|].
  apply find_action_elem in Ht as [Hin _]. by eapply actions_plain.
Qed.

Lemma keeps_run_steps s0 e l i p :
  Forall good_step l → keeps s0 None e (run_steps fuel l i p).
Proof.
  intros Hl. revert i p. induction Hl as [|[t arguments] l [Hg Hb] Hl IH]; intros i p; cbn [run_steps]; [keeps|].
  keeps_step; [keeps|]. keeps_step; [keeps|]. keeps_step.
  { keeps_step; [|keeps]. apply keeps_execute_with; [intros E; exact (False_ind _ (E Hb))|exact Hg]. }
  keeps_step; [keeps|]. cbv zeta. keeps_step; [apply IH|].
  keeps_step; [keeps|]. keeps_step; [keeps|]. keeps_step; [|keeps]. by apply keeps_changed.
Qed.

Lemma keeps_failed_observation s0 r e item : keeps s0 r e (failed_observation item).
Proof. unfold failed_observation, current_error. keeps. by apply keeps_changed. Qed.
Hint Resolve keeps_failed_observation : keeps.

Lemma keeps_screen_hidden s0 e b : keeps s0 None e (screen_hidden fuel b).
Proof. unfold screen_hidden. keeps. Qed.
Hint Resolve keeps_screen_hidden : keeps.

Lemma keeps_observe s0 e b requested p : keeps s0 None e (observe fuel b requested p).
Proof. unfold observe, observe_desktop, observe_requested, window_ready. keeps. Qed.

Lemma keeps_hide s0 e b r f : keeps s0 None e (hide fuel b r f).
Proof. unfold hide, current_error. keeps; by apply keeps_changed. Qed.
Hint Resolve keeps_observe keeps_hide : keeps.

(** ** Trees *)

(** The client whose request is served is there. *)
Lemma current_there s0 e s g c :
  J s0 None e s g → (sv s).(host_current) = Some c → is_Some ((sv s).(clients) !! c).
Proof.
  intros (I & _) Hc. destruct (inv_current _ _ _ _ I c Hc) as [d ->].
  destruct (inv_event _ _ _ _ I (HOST_CALL c d)) as (x & ? & Hx & _); [left|by exists x].
Qed.

Lemma keeps_current {A} s0 e (f : service → M A) :
  (∀ S v, (∀ c, v.(host_current) = Some c → is_Some (S.(clients) !! c)) → keeps S None e (f v)) →
  keeps s0 None e (v ← the the_service; f v).
Proof.
  intros Hf.
  eapply (safe_bind _ _ _ (λ v s g, J s0 None e s g ∧ ∀ c, v.(host_current) = Some c → is_Some ((sv s).(clients) !! c))).
  - apply safe_the. intros s g HJ. split; [done|]. intros c. by apply (current_there s0 e s g).
  - intros v. apply (keeps_rebase s0 None e _ (λ S, ∀ c, v.(host_current) = Some c → is_Some (S.(clients) !! c))).
    intros S HS. by apply Hf.
Qed.

Lemma keeps_tree_baseline s0 e k : keeps s0 None e (host_tree_baseline k).
Proof.
  apply keeps_current. intros S v Hv. destruct (host_current v) as [c|]; [|keeps].
  destruct (Hv c eq_refl) as [x Hx]. eapply keeps_client_at; [exact Hx|]. intros z. keeps.
Qed.

Lemma keeps_change_baseline s0 e k b : keeps s0 None e (change_baseline k b).
Proof.
  apply keeps_current. intros S v Hv. destruct (host_current v) as [c|]; [|keeps].
  destruct (Hv c eq_refl) as [x Hx]. eapply keeps_in_client; [exact Hx|by destruct k|].
  intros S' G' z []. destruct k; by split.
Qed.

Lemma keeps_shorter s0 r e b w refresh truncated tree : keeps s0 r e (shorter b w refresh truncated tree).
Proof.
  unfold shorter. destruct (ComputerState.tree b) as [old|]; [|keeps]. keeps_step; [|keeps].
  keeps_step; [keeps|]. destruct (tree_diff_total x old tree scu_text_tree_unchanged) as [d ->]. keeps.
Qed.
Hint Resolve keeps_tree_baseline keeps_change_baseline keeps_shorter : keeps.

Lemma keeps_shape_tree s0 e k requested o : keeps s0 None e (shape_tree k requested o).
Proof. unfold shape_tree. keeps. destruct x; keeps. Qed.
Hint Resolve keeps_shape_tree : keeps.

Lemma keeps_finish s0 e b requested p : keeps s0 None e (finish_batch fuel b requested p).
Proof. unfold finish_batch. keeps. Qed.

Lemma keeps_run_batch s0 e nv t arguments :
  t ∈ tools → t.(Catalog.batch) ≠ BATCH_NONE → validate_arguments nv t arguments = true →
  keeps s0 None e (run_batch fuel t arguments).
Proof.
  intros Ht Hb Hv. unfold run_batch. pose proof (batch_steps_few nv t arguments Ht Hb Hv).
  rewrite decide_False by lia.
  eapply safe_bind; [by apply safe_preflight, tools_kinds|]. intros l.
  apply (safe_pre (match l with Some l => Forall good_step l | None => True end)); [naive_solver|]. intros Hl.
  apply keeps_from; [|naive_solver]. destruct l as [l|]; [|keeps].
  keeps_step; [keeps|]. keeps_step; [keeps|]. keeps_step.
  { keeps_step; [keeps|]. keeps_step; [by apply keeps_changed|keeps]. }
  keeps_step; [keeps|]. keeps_step; [keeps|]. keeps_step; [keeps|].
  keeps_step; [by apply keeps_run_steps|apply keeps_finish].
Qed.

(** No tool of the catalog is an action of a batch. *)
Lemma tools_no_action t arguments : t ∈ tools → good_call t.(name) arguments.
Proof.
  intros Ht.
  assert (negb (text_eqb t.(name) (str "press_keys")) && negb (text_eqb t.(name) (str "type_text")) = true) as
    [Hk%negb_true_iff Hx%negb_true_iff]%andb_true_iff.
  { revert Ht. apply (all_true (λ t, negb (text_eqb t.(name) (str "press_keys")) && negb (text_eqb t.(name) (str "type_text")))).
    by vm_compute. }
  split; intros E; [rewrite E in Hk|rewrite E in Hx]; by rewrite text_eqb_refl in *.
Qed.

Lemma keeps_execute_tool s0 e nv t arguments :
  t ∈ tools → validate_arguments nv t arguments = true →
  keeps s0 None e (execute_tool fuel t arguments).
Proof.
  intros Ht Hv. apply keeps_execute_with; [intros Hb; by eapply keeps_run_batch|by apply tools_no_action].
Qed.
End typing.
