(* ===== verification/ComputerSafe.v ===== *)
(** * The host's program never reads what was freed

    The requests that a client makes, the events of the queue, what collects
    freed clients and leases, and the loop keep the invariant of [ComputerInv],
    where the tools do. *)

From S2P Require Import Prelude Json Catalog Results.
From S2P Require Export ComputerKept.

Section safe.
Context `{Json_text} {surroundings : Surroundings} (keys_held : nat) (opens : bool) (fuel : nat).
Abbreviation M := (mcp host note).
Abbreviation sv s := s.(own).(the_service).
Abbreviation keeps := (ComputerKept.keeps (keys_held:=keys_held) (opens:=opens)).
Abbreviation J := (ComputerKept.J (keys_held:=keys_held) (opens:=opens)).
Abbreviation at_state := (ComputerKept.at_state (keys_held:=keys_held) (opens:=opens)).
Abbreviation at_client_close := (ComputerKept.at_client_close (keys_held:=keys_held) (opens:=opens)).
Abbreviation at_service := (ComputerKept.at_service (keys_held:=keys_held) (opens:=opens)).
Abbreviation at_noted := (ComputerKept.at_noted (keys_held:=keys_held) (opens:=opens)).
Abbreviation rest_inv := (ComputerKept.rest_inv (keys_held:=keys_held) (opens:=opens)).

(** ** Requests *)

Section requests.
Context (execute : Tool → value → M value).
Context (execute_keeps : ∀ s0 e nv tool arguments,
  tool ∈ tools → validate_arguments nv tool arguments = true → keeps s0 None e (execute tool arguments)).
#[local] Instance program : Program host note := host_program execute.

Section serving.
Context (s0 : service) (c : cid) (d : option json).
Context (current : s0.(host_current) = Some c).
Let e := Some (HOST_CALL c d).

(** The client whose request is served is connected. *)
Definition connected_client : assertion := λ s g, J s0 None e s g ∧ g.(g_serving) = Some c ∧ c ∉ g.(g_closed).

Lemma current_alive s g : J s0 None e s g →
  (sv s).(host_current) = Some c ∧ ∃ x, (sv s).(clients) !! c = Some x.
Proof.
  intros (I & Hk & _). rewrite (kept_current _ _ Hk). split; [done|].
  destruct (inv_event _ _ _ _ I (HOST_CALL c d)) as (x & ? & Hx & _); [left|eauto].
Qed.

Lemma keeps_send_reply rp : keeps s0 None e (send_reply rp).
Proof.
  unfold send_reply. destruct (yyjson_write rp) as [line|].
  2: { eapply safe_bind; [by apply (safe_record _ _ (λ _, J s0 None e))|]. intros []. apply keeps_value. }
  apply at_enter. intros S G I Hk.
  assert (HS : S.(host_current) = Some c) by (by rewrite (kept_current _ _ Hk)).
  destruct (inv_event _ _ _ _ I (HOST_CALL c d)) as (x & y & Hx & _); [left|].
  pose proof (inv_serving _ _ _ _ I c d eq_refl) as Hserv.
  eapply (safe_bind _ _ _ (λ _, at_state S (seen (Answered rp (Some line)) G))).
  { apply safe_record. by intros s g (? & -> & ?). }
  intros []. change (deliver line) with (host_send_line line). unfold host_send_line.
  eapply safe_bind; [apply at_the_service|]. apply at_value. rewrite HS.
  eapply safe_bind; [by apply at_client|]. apply at_value.
  destruct (c_closed x) eqn:Ho.
  { eapply at_end; [by apply safe_ret| |done]. eapply inv_replies_closed; [done..|].
    by apply (ci_seen _ _ _ _ _ _ (inv_client _ _ _ _ I c x Hx)). }
  destruct (_ <? _) eqn:Hlen.
  - eapply safe_mono; [by apply (at_client_close None e S G (seen (Answered rp (Some line)) G) c x)|done|].
    intros [] s g (a & Ha & HR & HW & Hs & -> & Hr).
    split; [|split; [|done]]; rewrite Hs.
    + pose proof (inv_close_client _ _ _ _ _ _ _ I Hx Ho Ha HR HW) as I1.
      assert (E : note_seen (Closed c) (seen (Answered rp (Some line)) G) =
        seen (Answered rp (Some line)) (note_seen (Closed c) G)) by (cbn; by rewrite Hserv).
      rewrite E. apply (inv_replies_closed _ _ _ _ c); [done|done|]. cbn. set_solver.
    + apply (kept_trans _ S); [done|]. eapply kept_same; [by apply (kept_set_client S c x (closed_client x))|done..].
  - apply Z.ltb_ge in Hlen.
    pose proof (inv_answer None e S G c x rp line I Hserv Hx Ho Hlen) as I1.
    set (x1 := set_c_writer true (set_c_output (c_output x ++ line ++ [char 10]) x)) in *.
    assert (K1 : kept s0 (set_clients (<[c := x1]> S.(clients)) S)).
    { apply (kept_trans _ S); [done|]. by apply (kept_set_client S c x x1). }
    eapply safe_bind; [by apply at_in_client|intros []].
    destruct (c_writer x) eqn:Hw.
    + assert (Ex : x1 = set_c_output (c_output x ++ line ++ [char 10]) x) by (unfold x1; clear - Hw; destruct x; cbn in Hw; by subst).
      rewrite <- Ex. eapply at_end; [by apply safe_ret|exact I1|exact K1].
    + eapply safe_bind; [apply at_in_client; cbn; by rewrite lookup_insert_eq|intros []]. cbn [clients set_clients].
      rewrite insert_insert_eq.
      eapply at_end; [apply at_service| |].
      * apply (inv_attach None e (set_clients (<[c := x1]> S.(clients)) S)); [done|].
        exists x1. cbn. by rewrite lookup_insert_eq.
      * eapply kept_same; [exact K1|done..].
Qed.

Lemma keeps_send_error id n t : keeps s0 None e (send_error id n t).
Proof. apply keeps_send_reply. Qed.

Lemma keeps_send_response id p : keeps s0 None e (send_response id p).
Proof. unfold send_response. keeps. apply keeps_send_reply. Qed.

Lemma connected_from {A} (m : M A) : keeps s0 None e m → safe connected_client m (λ _, J s0 None e).
Proof. intros Hm. apply keeps_from; [done|by intros s g [? _]]. Qed.

Lemma connected_get : safe connected_client get (λ _, connected_client).
Proof. by apply safe_get. Qed.

Lemma connected_modify f :
  (∀ s, (f s).(own) = s.(own)) → (∀ s, (f s).(cancelled_ids) = s.(cancelled_ids)) →
  safe connected_client (modify f) (λ _, connected_client).
Proof.
  intros Ho Hc. apply safe_modify. intros s g. unfold connected_client, J, rest_inv. by rewrite Ho, Hc.
Qed.

Lemma connected_key id : safe connected_client (host_request_key id) (λ _, connected_client).
Proof.
  unfold host_request_key. eapply safe_bind; [apply (safe_the _ _ (λ v s g, v = sv s ∧ connected_client s g)); naive_solver|].
  intros v. apply (safe_pre (v.(host_current) = Some c)).
  { intros s g [-> [HJ _]]. apply (current_alive s g HJ). }
  intros ->. cbn. eapply (safe_bind _ _ _ (λ _, connected_client)); [|intros x; by apply safe_ret].
  apply safe_client_at. intros s g [-> Hc]. destruct (current_alive s g (proj1 Hc)) as [_ [x Hx]]. eauto.
Qed.

Lemma safe_validate_call tool arguments :
  safe connected_client (validate_call tool arguments) (λ ok s g, connected_client s g ∧
    (ok = true → ∃ nv, validate_arguments nv tool arguments = true)).
Proof.
  unfold validate_call. eapply safe_bind; [apply connected_get|]. intros s.
  destruct (validate_arguments _ _ _) eqn:E; [apply safe_ret; eauto|].
  eapply (safe_bind _ _ _ (λ _, connected_client)); [|intros; by apply safe_ret].
  unfold scu_fail. eapply safe_bind; [apply connected_modify; intros s'; by destruct (code s')|].
  intros []. by apply safe_ret.
Qed.

Lemma safe_run_named nv n id parameters arguments :
  safe connected_client (run_named (find_tool nv n) id parameters arguments) (λ _, J s0 None e).
Proof.
  unfold run_named. destruct (find_tool nv n) as [tool|] eqn:Ht; [|apply connected_from; keeps].
  assert (Hin : tool ∈ tools) by (unfold find_tool in Ht; apply find_some in Ht as [? _]; by apply list_elem_of_In).
  eapply safe_bind; [apply safe_validate_call|]. intros ok.
  apply (safe_pre (ok = true → ∃ nv, validate_arguments nv tool arguments = true)); [naive_solver|]. intros Hok.
  eapply (safe_mono _ connected_client _ (λ _, J s0 None e)); [|naive_solver|done].
  destruct ok; [|apply connected_from; keeps]. destruct Hok as [nv' Hv]; [done|].
  eapply (safe_bind _ _ _ (λ _, J s0 None e)); [|intros []; by eapply execute_keeps].
  apply safe_record. intros s g ((I & Hk & Hr) & Hs & Hc). split_and!; [|done..].
  destruct I. split; cbn; auto; [intros c' x' Hx'; by destruct (inv_client c' x' Hx')|].
  split; [|done]. by exists c.
Qed.

Lemma safe_call_tool id parameters result :
  safe connected_client (call_tool id parameters result) (λ _, J s0 None e).
Proof.
  unfold call_tool. eapply safe_bind; [apply connected_get|]. intros s. cbv zeta.
  eapply (safe_bind _ _ _ (λ _, connected_client)).
  { unfold begin_call. eapply (safe_bind _ _ _ (λ k s g, is_Some k ∧ connected_client s g)).
    - change (request_key id) with (k ← host_request_key id; mret (Some k) : M (option text)).
      eapply safe_bind; [apply connected_key|]. intros k. apply safe_ret. eauto.
    - intros [k|]; [|by intros w [[? ?] _]]. eapply (safe_bind _ _ _ (λ _, connected_client)); [apply safe_ret; naive_solver|].
      intros []. eapply safe_bind; [by apply connected_modify|]. intros []. by apply safe_ret. }
  intros key. eapply safe_bind; [apply safe_run_named|]. intros output.
  match goal with |- safe _ ?m _ => change (keeps s0 None e m) end. cbv zeta.
  keeps_step; [keeps|]. cbv zeta. keeps_step.
  { unfold end_call. keeps_step; [apply keeps_value|]. apply safe_modify.
    intros s2 g (I & Hk & Hv & Hd & Hn). split_and!; [done..|]. split_and!; [done..|]. cbn.
    etransitivity; [|exact Hn]. apply subseteq_size. set_solver. }
  keeps_step; [apply keeps_value|]. keeps_step; [keeps|]. keeps_step; [by apply keeps_recorded|].
  keeps.
Qed.

Lemma safe_handle_method id parameters method :
  safe connected_client (handle_method id parameters method) (λ _, J s0 None e).
Proof.
  unfold handle_method. eapply safe_bind; [apply connected_get|]. intros s. cbv zeta.
  repeat match goal with |- safe _ (if ?b then _ else _) _ => destruct b end.
  - eapply safe_bind; [by apply connected_modify|]. intros []. apply connected_from, keeps_send_response.
  - apply connected_from, keeps_send_error.
  - apply connected_from, keeps_send_response.
  - apply connected_from, keeps_send_error.
  - apply connected_from, keeps_send_response.
  - eapply safe_bind; [apply safe_call_tool|]. intros [[]|r]; [apply keeps_value|apply keeps_send_response].
  - apply connected_from, keeps_send_response.
  - apply connected_from, keeps_send_error.
Qed.

Lemma safe_handle_request r : safe connected_client (handle_request r) (λ _, J s0 None e).
Proof.
  unfold handle_request. eapply (safe_bind _ _ _ (λ _, connected_client)).
  { apply safe_ask. intros s g x o Hc. exact Hc. }
  intros t. eapply safe_bind; [by apply connected_modify|]. intros [].
  eapply (safe_bind _ _ _ (λ _, J s0 None e)); [|intros []; by apply keeps_changed].
  destruct (valid_request _ _ _); [|apply connected_from, keeps_send_error].
  unfold handle_valid. destruct (strcmp _ _).
  { apply connected_from. by apply keeps_changed. }
  destruct (json_member r (str "id")); [|apply connected_from; keeps].
  unfold handle_versioned. eapply safe_bind; [apply connected_get|]. intros s. cbv zeta.
  destruct (yyjson_get_str _) as [v|].
  - eapply safe_bind; [by apply connected_modify|]. intros [].
    destruct (negb (strcmp _ _)); [apply connected_from, keeps_send_error|].
    destruct (negb (yyjson_is_obj _)); [apply connected_from, keeps_send_error|]. apply safe_handle_method.
  - destruct (_ && _); [apply connected_from, keeps_send_error|].
    eapply safe_bind; [by apply connected_modify|]. intros []. apply safe_handle_method.
Qed.
End serving.

(** ** Events *)

(** Between two events. *)
Definition idle : assertion := λ s g, inv None None (sv s) g ∧ rest_inv s.

Definition taken (e : host_event) : assertion := λ s g,
  inv None (Some e) (sv s) (note_seen (Takes e) g) ∧ rest_inv s.

Lemma idle_from {A} (m : M A) : (∀ S, keeps S None None m) → safe idle m (λ _, idle).
Proof.
  intros Hm w (I & Hr). specialize (Hm _ w (conj I (conj (kept_refl _) Hr))).
  destruct (m w); [|done..]. by destruct Hm as (? & ? & ?).
Qed.

(** A run over the state and the trace that it starts from. *)
Lemma at_idle {A} (m : M A) q :
  (∀ S G, inv None None S G → safe (at_state S G) m q) → safe idle m q.
Proof. intros Hm w (I & Hr). by apply (Hm _ _ I w). Qed.

Lemma safe_call_event c d :
  safe (λ s g, inv None (Some (HOST_CALL c d)) (sv s) g ∧ rest_inv s) (call_event execute c d) (λ _, idle).
Proof.
  set (e := Some (HOST_CALL c d)). intros w (I & Hr).
  assert (Hf : safe (at_state (sv w.(now)) (ghost_of w.(trace))) (call_event execute c d) (λ _, idle));
    [|by apply (Hf w)].
  revert I. generalize (sv (now w)) (ghost_of (trace w)). clear w Hr. intros S G I. unfold call_event.
  eapply safe_bind; [apply at_service|intros []]. apply (inv_current_set S G c d) in I.
  set (S1 := set_host_current _ S) in *. change (at_state _ G) with (at_state S1 G).
  assert (Hcur : S1.(host_current) = Some c) by done. clearbody S1. clear S.
  destruct (inv_event _ _ _ _ I (HOST_CALL c d)) as (x & y & Hx & _); [left|].
  eapply (safe_bind _ _ _ (λ _, J S1 None e)).
  - unfold serve_client. eapply safe_bind; [by apply at_client|]. apply at_value.
    destruct (c_closed x) eqn:Ho; [apply at_leave; [done|apply kept_refl]|].
    destruct d as [d|].
    + eapply safe_mono; [by apply (safe_handle_request S1 c (Some d) Hcur)| |done].
      intros s g (<- & -> & Hr). split_and!; [by split; [|split; [apply kept_refl|]]|by apply (inv_serving _ _ _ _ I c (Some d))|].
      intros Hin. apply (ci_seen _ _ _ _ _ _ (inv_client _ _ _ _ I c x Hx)) in Hin. congruence.
    + apply at_then; [done|apply kept_refl|]. by apply keeps_send_error.
  - intros [] v (I2 & K2 & Hr2).
    assert (Hf : safe (at_state (sv v.(now)) (ghost_of v.(trace))) (in_client c (λ x, set_c_pending (u32 (x.(c_pending) - 1)) x)
      ≫= λ _, in_service (set_host_current None)) (λ _, idle)); [|by apply (Hf v)].
    destruct (client_alive _ _ _ _ K2 Hx) as [z Hz].
    eapply safe_bind; [by apply at_in_client|intros []].
    eapply safe_mono; [apply at_service|done|]. intros [] s g (Hs & -> & Hr). split; [|done]. rewrite Hs.
    by apply (inv_done_call _ _ c d).
Qed.

Lemma keeps_accept_clients S e l y : S.(leases) !! l = Some y → keeps S None e (accept_clients l).
Proof.
  intros Hl. unfold accept_clients. keeps_step; [keeps|].
  eapply keeps_lease_at; [done|]. intros z. keeps_step; [keeps|].
  keeps_step; [destruct x0; [by eapply keeps_revoke|keeps]|].
  eapply (safe_bind _ _ _ (λ z s g, J S None e s g ∧ (sv s).(leases) !! l = Some z)).
  { apply safe_lease_at. intros s g HJ. destruct (lease_alive S (sv s) l y) as [z' Hz]; [apply HJ|done|eauto]. }
  intros z'. destruct (l_revoked z') eqn:Hv; [apply safe_ret; naive_solver|].
  eapply (safe_bind _ _ _ (λ _ s g, J S None e s g ∧ (sv s).(leases) !! l = Some z')).
  { apply safe_service. intros s g ((I & Hk & Hr) & Hz). split; [|done]. split_and!; [|by eapply kept_same; [exact Hk|..]|done].
    by apply inv_registered_once. }
  intros [] w ((I & Hk & Hr) & Hz).
  assert (Hf : safe (at_state (sv w.(now)) (ghost_of w.(trace))) (in_lease l (set_l_accept_source true) ≫= λ _, attach (AcceptOf l))
    (λ _, J S None e)); [|by apply (Hf w)].
  eapply safe_bind; [by apply at_in_lease|intros []].
  assert (I' : inv None e (set_leases (<[l := set_l_accept_source true z']> (leases (sv (now w)))) (sv (now w))) (ghost_of (trace w))).
  { apply (inv_set_lease None e _ _ l z'); [done|done| |done..]. destruct (inv_lease _ _ _ _ I l z' Hz).
    split; cbn; auto. congruence. }
  eapply at_end; [apply at_service| |].
  - apply (inv_attach None e (set_leases (<[l := set_l_accept_source true z']> (leases (sv (now w)))) (sv (now w)))); [done|].
    cbn. eexists. by rewrite lookup_insert_eq.
  - apply (kept_trans _ (sv w.(now))); [done|].
    eapply kept_same; [by apply (kept_set_lease _ l z' (set_l_accept_source true z'))|done..].
Qed.

Lemma safe_register_event l :
  safe (λ s g, inv None (Some (HOST_REGISTER l)) (sv s) g ∧ rest_inv s) (register_event fuel l) (λ _, idle).
Proof.
  set (e := Some (HOST_REGISTER l)). intros w (I & Hr).
  destruct (inv_event _ _ _ _ I (HOST_REGISTER l)) as (y & Hy & _ & [session Hs] & [wayland Hw]); [left|].
  assert (Hf : keeps (sv w.(now)) None e (register_event fuel l)).
  - unfold register_event.
    eapply (safe_bind _ _ _ (λ z s g, J (sv w.(now)) None e s g ∧ is_Some z.(l_session) ∧ is_Some z.(l_wayland))).
    + apply safe_lease_at. intros s g (I' & Hk & Hr').
      destruct (inv_event _ _ _ _ I' (HOST_REGISTER l)) as (z & Hz & _ & ? & ?); [left|].
      exists z. split; [done|]. by split_and!.
    + intros z. destruct (l_revoked z); [apply safe_ret; naive_solver|].
      apply (safe_pre (is_Some z.(l_session) ∧ is_Some z.(l_wayland))); [naive_solver|].
      intros [[session' ->] [wayland' ->]].
      apply keeps_from; [|by intros s g [? _]]. keeps_step; [by apply keeps_changed|]. keeps_step; [keeps|].
      destruct x0; [|by eapply keeps_accept_clients]. keeps. by eapply keeps_revoke.
  - specialize (Hf w (conj I (conj (kept_refl _) Hr))). destruct (register_event fuel l w); [|done..].
    destruct Hf as (I' & _ & Hr'). split; [by eapply inv_done_register|done].
Qed.

Lemma safe_revoke_event l :
  safe (λ s g, inv None (Some (HOST_REVOKE l)) (sv s) g ∧ rest_inv s) (revoke_event l) (λ _, idle).
Proof.
  set (e := Some (HOST_REVOKE l)). unfold revoke_event.
  eapply (safe_bind _ _ _ (λ _ s g, inv None e (sv s) g ∧ rest_inv s)).
  { intros w (I & Hr). pose proof (keeps_release_input (sv w.(now)) None e w (conj I (conj (kept_refl _) Hr))) as Hf.
    destruct (release_input w); [|done..]. by destruct Hf as (? & _ & ?). }
  intros [] w (I & Hr).
  destruct (inv_event _ _ _ _ I (HOST_REVOKE l)) as (y & Hy & _); [left|].
  match goal with |- match ?m w with _ => _ end => assert (Hf : safe (at_state (sv w.(now)) (ghost_of w.(trace))) m (λ _, idle)); [|by apply (Hf w)] end.
  eapply safe_bind; [by apply at_lease|]. apply at_value.
  eapply (safe_bind _ _ _ (λ _, at_state (sv w.(now)) (ghost_of w.(trace)))).
  { destruct (0 <=? l_control y); [|by apply safe_ret]. eapply safe_bind; [apply at_ask|intros ?]. by apply safe_ret. }
  intros []. eapply safe_bind; [by apply at_in_lease|intros []].
  eapply safe_mono; [apply at_noted|done|]. intros [] s g (Hs & -> & Hr'). split; [|done]. rewrite Hs.
  apply (inv_note_released _ _ l (set_l_acknowledged true y)); [by apply inv_acknowledge|cbn; by rewrite lookup_insert_eq|done].
Qed.

Lemma safe_event e : safe (taken e) (host_event_done fuel execute e) (λ _, idle).
Proof.
  unfold host_event_done.
  eapply (safe_bind _ _ _ (λ _ s g, inv None (Some e) (sv s) g ∧ rest_inv s)).
  { by apply safe_record. }
  intros []. destruct e; [apply safe_call_event|apply safe_register_event|apply safe_revoke_event].
Qed.

Lemma safe_take : safe idle take_event (λ e, match e with Some e => taken e | None => idle end).
Proof.
  unfold take_event. eapply (safe_bind _ _ _ (λ v s g, v = sv s ∧ idle s g)); [by apply safe_the|].
  intros v. destruct (host_events v) as [|x q] eqn:E; [apply safe_ret; naive_solver|].
  eapply (safe_bind _ _ _ (λ _, taken x)); [|intros []; by apply safe_ret].
  apply safe_service. intros s g (-> & I & Hr). split; [|done]. cbn. by apply inv_take.
Qed.

(** ** Freeing *)

Lemma length_remove_fast {A} i (l : list A) x : l !! i = Some x → length (remove_fast i l) = (length l - 1)%nat.
Proof. intros Hi. pose proof (Permutation_length (remove_fast_perm i l x Hi)) as E. cbn in E. lia. Qed.

Lemma safe_collect_clients i :
  safe (λ s g, idle s g ∧ (i ≤ length (sv s).(host_clients))%nat) (collect_clients i) (λ _, idle).
Proof.
  induction i as [|i IH]; [apply safe_ret; naive_solver|]. cbn [collect_clients].
  intros w ((I & Hr) & Hlen).
  match goal with |- match ?m w with _ => _ end => assert (Hf : safe (at_state (sv w.(now)) (ghost_of w.(trace))) m (λ _, idle)); [|by apply (Hf w)] end.
  revert I Hlen. generalize (sv w.(now)) (ghost_of w.(trace)). clear w Hr. intros S G I Hlen.
  eapply safe_bind; [apply at_the_service|]. apply at_value.
  destruct (lookup_lt_is_Some_2 S.(host_clients) i) as [c Hc]; [lia|]. rewrite Hc.
  assert (is_Some (S.(clients) !! c)) as [x Hx] by (apply I; by eapply list_elem_of_lookup_2).
  eapply safe_bind; [by apply at_client|]. apply at_value.
  eapply (safe_bind _ _ _ (λ _ s g, idle s g ∧ (i ≤ length (sv s).(host_clients))%nat)); [|intros []; exact IH].
  destruct (collectable S x c) eqn:Hcol.
  - eapply safe_bind; [apply at_noted|intros []]. eapply safe_mono; [apply at_service|done|].
    intros [] s g (Hs & -> & Hr). unfold idle. rewrite Hs. split; [split; [|done]|].
    + by apply (inv_collect_client _ _ c x).
    + cbn. rewrite (length_remove_fast _ _ c) by done. lia.
  - apply safe_ret. intros s g (<- & -> & Hr). split; [done|lia].
Qed.

Lemma safe_referenced S G l cs :
  (∀ c, c ∈ cs → is_Some (S.(clients) !! c)) →
  safe (at_state S G) (referenced S l cs) (λ b s g, at_state S G s g ∧
    (b = false → ∀ c x, c ∈ cs → S.(clients) !! c = Some x → x.(c_lease) ≠ l)).
Proof.
  induction cs as [|c cs IH]; intros Hal.
  { apply safe_ret. intros s g Hat. split; [done|]. by intros _ c x ?%elem_of_nil. }
  destruct (Hal c) as [x Hx]; [left|]. cbn. eapply safe_bind; [by apply at_client|]. apply at_value.
  eapply safe_bind; [apply IH; intros c' ?; apply Hal; by right|].
  intros b. apply safe_ret. intros s g [Hat Hb]. split; [done|].
  intros [Hn%bool_decide_eq_false Hb']%orb_false_iff c' z [->|Hin]%elem_of_cons Hz; [congruence|by eapply Hb].
Qed.

Lemma safe_collect_leases i :
  safe (λ s g, idle s g ∧ (i ≤ length (sv s).(host_leases))%nat) (collect_leases i) (λ _, idle).
Proof.
  induction i as [|i IH]; [apply safe_ret; naive_solver|]. cbn [collect_leases].
  intros w ((I & Hr) & Hlen).
  match goal with |- match ?m w with _ => _ end => assert (Hf : safe (at_state (sv w.(now)) (ghost_of w.(trace))) m (λ _, idle)); [|by apply (Hf w)] end.
  revert I Hlen. generalize (sv w.(now)) (ghost_of w.(trace)). clear w Hr. intros S G I Hlen.
  eapply safe_bind; [apply at_the_service|]. apply at_value.
  destruct (lookup_lt_is_Some_2 S.(host_leases) i) as [l Hl]; [lia|]. rewrite Hl.
  assert (is_Some (S.(leases) !! l)) as [y Hy] by (apply I; by eapply list_elem_of_lookup_2).
  eapply safe_bind; [apply safe_referenced; intros c; apply I|]. intros b.
  apply (safe_pre (b = false → ∀ c x, c ∈ S.(host_clients) → S.(clients) !! c = Some x → x.(c_lease) ≠ l)); [naive_solver|].
  intros Hb. eapply (safe_mono _ (at_state S G) _ (λ _, idle)); [|intros s g [Hat _]; exact Hat|done].
  eapply safe_bind; [by apply at_lease|]. apply at_value.
  eapply (safe_bind _ _ _ (λ _ s g, idle s g ∧ (i ≤ length (sv s).(host_leases))%nat)); [|intros []; exact IH].
  destruct (l_acknowledged y && negb b) eqn:E.
  - apply andb_true_iff in E as [Ha Hnb%negb_true_iff].
    eapply (safe_bind _ _ _ (λ _, at_state S G)); [destruct (0 <=? l_control y); [apply at_ask|by apply safe_ret]|intros []].
    eapply safe_mono; [apply at_service|done|].
    intros [] s g (Hs & -> & Hr). unfold idle. rewrite Hs. split; [split; [|done]|].
    + apply (inv_collect_lease _ _ l y); [done..|]. intros c x Hx. apply (Hb Hnb c x); [|done].
      apply I. by rewrite Hx.
    + cbn. rewrite (length_remove_fast _ _ l) by done. lia.
  - apply safe_ret. intros s g (<- & -> & Hr). split; [done|lia].
Qed.

Lemma safe_collect : safe idle host_collect (λ _, idle).
Proof.
  unfold host_collect. eapply (safe_bind _ _ _ (λ v s g, v = sv s ∧ idle s g)); [by apply safe_the|]. intros v.
  eapply safe_bind; [eapply safe_mono; [apply safe_collect_clients|intros s g [-> ?]; by split|done]|]. intros [].
  eapply (safe_bind _ _ _ (λ v s g, v = sv s ∧ idle s g)); [by apply safe_the|]. intros v'.
  eapply safe_mono; [apply safe_collect_leases|intros s g [-> ?]; by split|done].
Qed.

(** ** The loop *)

Lemma keeps_idle_since s0 r e l y0 t : s0.(leases) !! l = Some y0 → keeps s0 r e (in_lease l (set_l_idle_since t)).
Proof.
  intros Hl. apply at_enter. intros S G I Hk. destruct (lease_alive _ _ _ _ Hk Hl) as [y Hy].
  eapply at_end; [by apply at_in_lease| |].
  - apply (inv_set_lease r e S G l y); [done|done| |done..]. by destruct (inv_lease _ _ _ _ I l y Hy).
  - apply (kept_trans _ S); [done|]. by apply (kept_set_lease _ l y).
Qed.

Lemma keeps_return_idle s0 e l y0 : s0.(leases) !! l = Some y0 → keeps s0 None e (return_idle l).
Proof.
  intros Hl. unfold return_idle. eapply keeps_lease_at; [done|]. intros y. keeps;
    first [by eapply keeps_idle_since|by eapply keeps_revoke].
Qed.

Lemma idle_each_lease (f : lid → M unit) :
  (∀ S l y, S.(leases) !! l = Some y → keeps S None None (f l)) →
  safe idle (s ← the the_service; each s.(host_leases) f) (λ _, idle).
Proof.
  intros Hf. apply idle_from. intros S0.
  eapply (safe_bind _ _ _ (λ v s g, J S0 None None s g ∧ ∀ l, l ∈ v.(host_leases) → is_Some ((sv s).(leases) !! l))).
  - apply safe_the. intros s g HJ. split; [done|]. intros l. apply (inv_leases_listed _ _ _ _ (proj1 HJ)).
  - intros v. apply (keeps_rebase S0 None None _ (λ S, ∀ l, l ∈ v.(host_leases) → is_Some (S.(leases) !! l))).
    intros S HS. apply keeps_each. intros l [y Hy]%HS. by eapply Hf.
Qed.

Lemma idle_then {A B} (m : M A) (f : A → M B) :
  safe idle m (λ _, idle) → (∀ x, safe idle (f x) (λ _, idle)) → safe idle (m ≫= f) (λ _, idle).
Proof. intros Hm Hf. eapply safe_bind; [exact Hm|done]. Qed.

Lemma safe_turn shared startup previous :
  safe idle (host_turn fuel execute shared startup previous) (λ _, idle).
Proof.
  unfold host_turn. apply idle_then; [apply idle_from; intros; keeps|]. intros [].
  eapply safe_bind; [apply safe_take|]. intros ev. apply (safe_bind _ _ _ (λ _, idle)).
  { destruct ev; [apply safe_event|by apply safe_ret]. }
  intros []. apply idle_then; [by apply safe_the|]. intros v. cbv zeta.
  apply idle_then; [apply idle_from; intros; keeps|]. intros [].
  apply idle_then; [apply idle_from; intros; keeps|]. intros [].
  apply idle_then; [apply idle_from; intros; keeps|]. intros [].
  eapply (safe_mono _ idle _ (λ _, idle)); [|done|done].
  match goal with |- safe _ (s ← the the_service; each s.(host_leases) return_idle ≫= ?k) _ =>
    change (safe idle (s ← the the_service; each s.(host_leases) return_idle ≫= k) (λ _, idle)) end.
  eapply (safe_bind _ _ _ (λ v s g, idle s g ∧ ∀ l, l ∈ v.(host_leases) → is_Some ((sv s).(leases) !! l))).
  { apply safe_the. intros s g [I Hr]. split; [done|]. intros l. apply (inv_leases_listed _ _ _ _ I). }
  intros v'. apply (safe_bind _ _ _ (λ _, idle)).
  { intros w ((I & Hr) & Hal).
    pose proof (keeps_each (sv w.(now)) None None v'.(host_leases) return_idle
      (λ l Hin, let '(ex_intro _ y Hy) := Hal l Hin in keeps_return_idle _ None l y Hy) w (conj I (conj (kept_refl _) Hr))) as Hf.
    destruct (each _ return_idle w); [|done..]. by destruct Hf as (? & _ & ?). }
  intros []. apply idle_then; [apply safe_collect|]. intros [].
  apply idle_then; [apply idle_from; intros; unfold finished; keeps|]. intros [|]; [by apply safe_ret|].
  apply idle_then; [destruct ev; apply idle_from; intros; keeps|]. intros []. by apply safe_ret.
Qed.

Lemma safe_loop n shared startup previous :
  safe idle (host_loop fuel execute n shared startup previous) (λ _, idle).
Proof.
  revert previous. induction n as [|n IH]; intros previous; [apply safe_fuel|]. cbn [host_loop].
  apply idle_then; [by apply safe_get|]. intros s. destruct (stopping s); [by apply safe_ret|].
  apply idle_then; [apply safe_turn|]. intros [p|]; [apply IH|by apply safe_ret].
Qed.

Lemma keeps_detach s0 r e w : keeps s0 r e (detach w).
Proof.
  apply at_enter. intros S G I Hk. eapply at_end; [apply at_service| |].
  - apply inv_detach; [done|set_solver].
  - by eapply kept_same; [exact Hk|..].
Qed.

Lemma keeps_close_lease s0 e l y0 : s0.(leases) !! l = Some y0 → keeps s0 None e (close_lease l).
Proof.
  intros Hl. unfold close_lease. eapply keeps_lease_at; [done|]. intros y. keeps; apply keeps_detach.
Qed.

Lemma safe_shut_down shared : safe idle (shut_down shared) (λ _, idle).
Proof.
  unfold shut_down. 
  eapply (safe_bind _ _ _ (λ v s g, idle s g ∧ ∀ c, c ∈ v.(host_clients) → is_Some ((sv s).(clients) !! c))).
  { apply safe_the. intros s g [I Hr]. split; [done|]. intros c. apply (inv_listed _ _ _ _ I). }
  intros v. apply (safe_bind _ _ _ (λ _, idle)).
  { intros w ((I & Hr) & Hal).
    pose proof (keeps_each (sv w.(now)) None None v.(host_clients) host_client_close
      (λ c Hin, let '(ex_intro _ x Hx) := Hal c Hin in keeps_client_close _ None None c x Hx) w (conj I (conj (kept_refl _) Hr))) as Hf.
    destruct (each _ host_client_close w); [|done..]. by destruct Hf as (? & _ & ?). }
  intros []. apply idle_then; [apply idle_from; intros; keeps|]. intros [].
  apply idle_then; [apply idle_from; intros; keeps|]. intros [].
  apply idle_then; [apply idle_from; intros; keeps|]. intros ?.
  apply idle_then; [apply idle_from; intros; keeps; apply keeps_detach|]. intros [].
  apply idle_each_lease. intros S l y Hy. by eapply keeps_close_lease.
Qed.

Lemma safe_private_lease fd :
  safe (λ s g, idle s g ∧ (sv s).(host_leases) = []) (private_lease fd) (λ _, idle).
Proof.
  intros w ((I & Hr) & Hn).
  match goal with |- match ?m w with _ => _ end => assert (Hf : safe (at_state (sv w.(now)) (ghost_of w.(trace))) m (λ _, idle)); [|by apply (Hf w)] end.
  revert I Hn. generalize (sv w.(now)) (ghost_of w.(trace)). clear w Hr. intros S G I Hn.
  eapply (safe_bind _ _ _ (λ c s g, c = S.(fresh) ∧ at_state (set_fresh (Datatypes.S S.(fresh)) S) G s g)).
  { unfold allocate. eapply safe_bind; [apply at_the_service|]. apply at_value.
    eapply safe_bind; [apply at_service|intros []]. by apply safe_ret. }
  apply at_value. eapply safe_bind; [apply at_service|intros []].
  set (y := set_l_accept_source true (new_lease (-1) fd true)).
  assert (I1 : inv None None (with_lease y S) G).
  { apply inv_admit_lease; [done| |done..]. rewrite Hn. cbn. unfold MAX_LEASES. lia. }
  eapply safe_mono; [apply at_service|done|]. intros [] s g (Hs & -> & Hr). split; [|done]. rewrite Hs.
  apply (inv_attach None None (with_lease y S)); [done|]. cbn. eexists. by rewrite lookup_insert_eq.
Qed.

Lemma safe_open_service listener :
  safe (λ s g, idle s g ∧ (sv s).(host_leases) = []) (open_service listener) (λ _, idle).
Proof.
  destruct listener; [apply safe_private_lease|].
  apply (safe_mono _ idle _ (λ _, idle)); [|by intros s g [Hi _]|done]. apply idle_from. intros S. apply at_enter.
  intros S' G I Hk. eapply at_end; [apply at_service|by apply (inv_attach None None S')|by eapply kept_same; [exact Hk|..]].
Qed.

Lemma safe_run listener :
  safe (λ s g, idle s g ∧ (sv s).(host_leases) = []) (run_shared_host fuel execute listener) (λ _, idle).
Proof.
  unfold run_shared_host. apply (safe_bind _ _ _ (λ _, idle)); [apply safe_open_service|].
  intros []. apply idle_then; [apply idle_from; intros; keeps|]. intros t. cbv zeta.
  apply idle_then; [apply safe_loop|]. intros []. apply safe_shut_down.
Qed.

Lemma start_idle h : idle (start h) no_ghost.
Proof.
  split; [apply inv_start|]. split; [split; cbn; solve [done|lia]|split; [done|]].
  cbn. rewrite size_empty. unfold MAX_CANCELLED. lia.
Qed.
End requests.
End safe.
