(* ===== verification/ComputerProps.v ===== *)
(** * What the host's computer-use program guarantees

    Whatever the kernel, the buses, the compositor and the spaces answer, and
    whatever the parts of the tools do that are not modelled: what is freed is
    not used, what is revoked is over, every answer reaches its own client, and
    input is only given where it is allowed. *)

From S2P Require Import Prelude Glib TreeDiff Json Catalog CatalogProps Results.
From S2P Require Export ComputerSafe ComputerTyping.

(** ** What a trace tells

    The newest event is the first. *)

(** The event of the queue that is being served. *)
Fixpoint taken_last (T : list (event note)) : option host_event :=
  match T with
  | [] => None
  | Asked (Takes e) :: _ => Some e
  | _ :: T => taken_last T
  end.

Definition served (T : list (event note)) : option cid := taken_last T ≫= client_of.

(** The bytes that a client was answered, and those that it was sent. *)
Fixpoint answered_to (c : cid) (T : list (event note)) : text :=
  match T with
  | [] => []
  | Answered _ (Some line) :: T =>
      answered_to c T ++ (if decide (served T = Some c) then line ++ [char 10] else [])
  | _ :: T => answered_to c T
  end.

Fixpoint sent_to (c : cid) (T : list (event note)) : text :=
  match T with
  | [] => []
  | Asked (Delivers c' data) :: T => sent_to c T ++ (if decide (c' = c) then data else [])
  | _ :: T => sent_to c T
  end.

Arguments ghost_of : simpl never.

Lemma ghost_of_cons e T : ghost_of (e :: T) = seen e (ghost_of T).
Proof. done. Qed.

Lemma serving_served T : g_serving (ghost_of T) = served T.
Proof.
  unfold served. induction T as [|e T IH]; [done|]. rewrite ghost_of_cons.
  destruct e as [r o| | |n]; [destruct o; cbn; [destruct (g_serving (ghost_of T)) eqn:E|]| | |destruct n];
    cbn; solve [done|congruence].
Qed.

Lemma replies_answered c T : g_replies (ghost_of T) c = answered_to c T.
Proof.
  induction T as [|e T IH]; [done|]. rewrite ghost_of_cons.
  destruct e as [r o| | |n]; [destruct o as [line|]|done|done|by destruct n]; [|done].
  cbn [seen answered_to]. rewrite <- IH, <- serving_served. destruct (g_serving (ghost_of T)) as [c'|]; cbn.
  - unfold grown. repeat case_decide; solve [done|congruence|by rewrite app_nil_r].
  - by rewrite app_nil_r.
Qed.

Lemma delivered_sent c T : g_delivered (ghost_of T) c = sent_to c T.
Proof.
  induction T as [|e T IH]; [done|]. rewrite ghost_of_cons.
  destruct e as [r o| | |n]; [destruct o; cbn; [by destruct (g_serving (ghost_of T))|done]|done|done|].
  destruct n; try done. cbn. unfold grown. rewrite <- IH.
  repeat case_decide; solve [done|congruence|by rewrite app_nil_r].
Qed.

Lemma closed_seen c T : c ∈ g_closed (ghost_of T) ↔ Asked (Closed c) ∈ T.
Proof.
  induction T as [|e T IH]; [set_solver|]. rewrite ghost_of_cons.
  destruct e as [r o| | |n]; [destruct o; cbn; [destruct (g_serving (ghost_of T))|]| | |destruct n]; cbn; set_solver.
Qed.

Lemma released_seen l T : l ∈ g_released (ghost_of T) ↔ Asked (Released l) ∈ T.
Proof.
  induction T as [|e T IH]; [set_solver|]. rewrite ghost_of_cons.
  destruct e as [r o| | |n]; [destruct o; cbn; [destruct (g_serving (ghost_of T))|]| | |destruct n]; cbn; set_solver.
Qed.

(** An element was verified since input was last found allowed. *)
Definition verified_since (T : list (event note)) : Prop :=
  ∃ Ta Tb, T = Ta ++ Asked Verified :: Tb ∧ Asked Allowed ∉ Ta.

Lemma verified_split T : g_verified (ghost_of T) = true → verified_since T.
Proof.
  induction T as [|e T IH]; [done|]. rewrite ghost_of_cons. intros Hv.
  assert (e = Asked Verified ∨ e ≠ Asked Verified) as [->|He]; [destruct e as [| | |[]]; first [by left|by right]| |].
  { exists [], T. split; [done|apply not_elem_of_nil]. }
  assert (e ≠ Asked Allowed) as Ha by (by intros ->).
  destruct IH as (Ta & Tb & -> & Hn).
  - destruct e as [r o| | |n]; [destruct o; cbn in Hv; [by destruct (g_serving (ghost_of T))|done]|done|done|by destruct n].
  - exists (e :: Ta), Tb. split; [done|]. set_solver.
Qed.

(** All that was noted is fine at every earlier point. *)
Lemma fine_tail T1 T0 : g_fine (ghost_of (T1 ++ T0)) → g_fine (ghost_of T0).
Proof.
  induction T1 as [|e T IH]; [done|]. cbn [app]. rewrite ghost_of_cons.
  destruct e as [r o| | |n]; [destruct o; cbn; [destruct (g_serving (ghost_of (T ++ T0)))|]| | |destruct n]; cbn; naive_solver.
Qed.

Lemma opened_lease c l T :
  g_fine (ghost_of T) → Asked (Opened c l) ∈ T → g_leases (ghost_of T) !! c = Some l.
Proof.
  intros Hf. induction T as [|e T IH]; [set_solver|].
  pose proof (fine_tail [e] T Hf) as Hf'. specialize (IH Hf').
  intros [<-|Hin]%elem_of_cons; [rewrite ghost_of_cons; cbn; by rewrite lookup_insert_eq|].
  specialize (IH Hin). rewrite ghost_of_cons in Hf |- *.
  destruct e as [r o| | |n]; [destruct o; cbn; [by destruct (g_serving (ghost_of T))|done]|done|done|].
  destruct n; try done. cbn in *. destruct Hf as [[_ Hn] _]. rewrite lookup_insert_ne; [done|intros ->; congruence].
Qed.

Lemma lease_stays c l T1 T0 :
  g_fine (ghost_of (T1 ++ T0)) → g_leases (ghost_of T0) !! c = Some l →
  g_leases (ghost_of (T1 ++ T0)) !! c = Some l.
Proof.
  intros Hf Hl. induction T1 as [|e T IH]; [done|]. specialize (IH (fine_tail [e] _ Hf)).
  cbn [app] in Hf |- *. rewrite ghost_of_cons in Hf |- *.
  destruct e as [r o| | |n]; [destruct o; cbn; [by destruct (g_serving (ghost_of (T ++ T0)))|done]|done|done|].
  destruct n; try done. cbn in *. destruct Hf as [[_ Hn] _]. rewrite lookup_insert_ne; [done|intros ->; congruence].
Qed.

(** ** Runs *)

Section runs.
Context `{Json_text} {G : GLib} {surroundings : Surroundings} {parts : Tools} (fuel : nat).
Abbreviation M := (mcp host note).
Abbreviation world := (machine (server host) (event note)).

(** The states of the service between two turns of its loop. *)
Inductive reached (listener : option Z) (h : outside) : world → Prop :=
  | reached_open w :
      open_service listener (World (start h) []) = Returned tt w → reached listener h w
  | reached_turn shared startup previous r w w' :
      reached listener h w →
      host_turn fuel (execute_tool fuel) shared startup previous w = Returned r w' → reached listener h w'.

Abbreviation idle := (ComputerSafe.idle 0 true).

Lemma execute_keeps s0 e nv tool arguments :
  tool ∈ tools → validate_arguments nv tool arguments = true →
  ComputerKept.keeps (keys_held:=0) (opens:=true) s0 None e (execute_tool fuel tool arguments).
Proof. apply keeps_execute_tool. Qed.

Lemma reached_idle listener h w : reached listener h w → idle w.(now) (ghost_of w.(trace)).
Proof.
  induction 1 as [w Hw|shared startup previous r w w' _ IH Hw].
  - pose proof (safe_open_service 0 true listener (World (start h) [])) as Hs.
    rewrite Hw in Hs. apply Hs. split; [apply start_idle|done].
  - pose proof (safe_turn 0 true fuel (execute_tool fuel) execute_keeps shared startup previous w IH) as Hs.
    by rewrite Hw in Hs.
Qed.

Lemma reached_fine listener h w : reached listener h w → g_fine (ghost_of w.(trace)).
Proof. intros [I _]%reached_idle. apply I. Qed.

(** C8: whatever the kernel, the buses, the compositor and the clients do, a run
    of the service never uses a client or a lease after it was freed, writes beyond
    the held keys, the names of a chord or the steps of a batch, or ends a helper
    that it does not have.  It sends to an input device that the compositor removed
    only in one way: the device went while the element that text goes to was being
    verified, after the check that it is there and before the press. *)
Theorem host_uses_nothing_freed listener h w :
  run_shared_host fuel (execute_tool fuel) listener (World (start h) []) = Undefined w →
  ∃ d allowed T, w.(trace) = Asked (Presses d allowed) :: T ∧ verified_since T ∧
    is_listed d w.(now).(own).(the_visual) = false.
Proof.
  intros E. pose proof (safe_run 0 true fuel (execute_tool fuel) execute_keeps listener (World (start h) [])) as Hs.
  rewrite E in Hs. destruct Hs as (d & b & T & HT & Hv & Hd); [split; [apply start_idle|done]|].
  exists d, b, T. split_and!; [done|by apply verified_split|done].
Qed.

(** C9: once a lease was given back to its controller, it is over: no client is
    admitted for it, no request of one of its clients is taken up, and it is
    neither registered nor given back again. *)
Theorem nothing_after_release listener h w l T1 T0 :
  reached listener h w → w.(trace) = T1 ++ Asked (Released l) :: T0 →
  (∀ c, Asked (Opened c l) ∉ T1) ∧
  (∀ e, Asked (Takes e) ∈ T1 →
    match e with
    | HOST_CALL c _ => Asked (Opened c l) ∉ w.(trace)
    | HOST_REGISTER l' | HOST_REVOKE l' => l' ≠ l
    end).
Proof.
  intros Hw HT. apply reached_fine in Hw as Hf. rewrite HT in Hf |- *.
  assert (Hrel : ∀ T, l ∈ g_released (ghost_of (T ++ Asked (Released l) :: T0))).
  { intros T. apply released_seen. apply elem_of_app. right. left. }
  split.
  - intros c (Ta & Tb & ->)%list_elem_of_split. rewrite <- app_assoc in Hf. apply fine_tail in Hf. cbn [app] in Hf.
    rewrite ghost_of_cons in Hf. cbn in Hf. destruct Hf as [[Hn _] _]. by apply Hn.
  - intros e (Ta & Tb & ->)%list_elem_of_split. pose proof Hf as Hf2. rewrite <- app_assoc in Hf2.
    apply fine_tail in Hf2. cbn [app] in Hf2. rewrite ghost_of_cons in Hf2.
    assert (Ht : takes_fine e (ghost_of (Tb ++ Asked (Released l) :: T0))) by (destruct e; cbn in Hf2; apply Hf2).
    destruct e as [c d|l'|l']; cbn in Ht.
    + destruct Ht as (l' & Hl' & Hn). intros Ho. apply (opened_lease _ _ _ Hf) in Ho.
      apply (lease_stays c l' (Ta ++ [Asked (Takes (HOST_CALL c d))])) in Hl'; rewrite <- ?app_assoc in *; cbn [app] in *;
        [|done].
      assert (l' = l) as -> by congruence. by apply Hn.
    + intros ->. by apply Ht.
    + intros ->. by apply Ht.
Qed.

(** C18: a tool only runs for a request of a client that is being served and that
    is still connected. *)
Theorem tools_for_connected listener h w tool id parameters arguments T1 T0 :
  reached listener h w → w.(trace) = T1 ++ Called tool id parameters arguments :: T0 →
  ∃ c d, taken_last T0 = Some (HOST_CALL c d) ∧ Asked (Closed c) ∉ T0.
Proof.
  intros Hw HT. apply reached_fine in Hw as Hf. rewrite HT in Hf.
  apply fine_tail in Hf. rewrite ghost_of_cons in Hf. destruct Hf as [(c & Hc & Ho) _].
  rewrite serving_served in Hc. rewrite closed_seen in Ho. unfold served in Hc.
  destruct (taken_last T0) as [[c' d| |]|]; try done. injection Hc as ->. eauto.
Qed.

(** C11: what a client is sent is a prefix of the answers to its own requests, in
    their order: nothing of another client's, nothing twice and nothing else. *)
Theorem answers_to_their_client listener h w c :
  reached listener h w → sent_to c w.(trace) `prefix_of` answered_to c w.(trace).
Proof.
  intros [I _]%reached_idle. rewrite <- delivered_sent, <- replies_answered. apply I.
Qed.

(** C10: a key or a button is only pressed, and text only submitted, where input is
    allowed: the screen is not locked, as far as is known, and was not seen locked
    during the request.  The one exception is text for an element: input was found
    allowed before the element was verified, and is not asked for again after. *)
Theorem pressed_where_allowed listener h w d allowed T1 T0 :
  reached listener h w → w.(trace) = T1 ++ Asked (Presses d allowed) :: T0 →
  allowed = true ∨ verified_since T0.
Proof.
  intros Hw HT. apply reached_fine in Hw as Hf. rewrite HT in Hf.
  apply fine_tail in Hf. rewrite ghost_of_cons in Hf. destruct Hf as [[?|Hv] _]; [by left|right].
  by apply verified_split.
Qed.

(** C20: between two turns no key is held down, what a button is held on is there,
    and nothing that a peer can make grow exceeds its limit: connected clients,
    leases, queued requests, cancelled requests, and the input and the output of
    each client. *)
Theorem host_bounded listener h w :
  reached listener h w →
  let s := w.(now) in
  let service := s.(own).(the_service) in
  let visual := s.(own).(the_visual) in
  visual.(held_keys) = [] ∧
  (∀ d, visual.(held_device) = Some d → is_listed d visual = true) ∧
  (host_client_count service ≤ 32)%nat ∧ (length service.(host_leases) ≤ 64)%nat ∧
  (length (filter (λ e, is_call e = true) service.(host_events)) ≤ 64)%nat ∧
  (size s.(cancelled_ids) ≤ 256)%nat ∧
  (∀ c x, service.(clients) !! c = Some x →
    Z.of_nat (length x.(c_input)) ≤ 1024 * 1024 ∧
    Z.of_nat (length x.(c_output)) ≤ 128 * 1024 * 1024 + 1).
Proof.
  intros (I & Hv & _ & Hn)%reached_idle. cbv zeta. split_and!.
  - apply nil_length_inv. pose proof (vi_few _ Hv). lia.
  - apply Hv.
  - apply I.
  - apply I.
  - apply I.
  - exact Hn.
  - intros c x Hx. destruct (inv_client _ _ _ _ I c x Hx). by split.
Qed.
End runs.

(** ** Keys of requests *)

Lemma digits_apart a b x y :
  Forall (λ c, is_digit c = true) a → Forall (λ c, is_digit c = true) b →
  a ++ ":"%char :: x = b ++ ":"%char :: y → a = b.
Proof.
  intros Ha. revert b. induction Ha as [|c a Hc Ha IH]; intros b Hb.
  - destruct Hb as [|d b Hd]; [done|]. intros [= <- _]. done.
  - destruct Hb as [|d b Hd Hb]; [intros [= -> _]; done|]. intros [= -> E]. f_equal. by apply IH.
Qed.

Section keys.
Context `{Json_text} {surroundings : Surroundings}.

Lemma key_of_prefix serial serial' id :
  0 ≤ serial → 0 ≤ serial' →
  has_prefix (key_prefix serial) (request_key_of serial' id) = true ↔ serial = serial'.
Proof.
  intros Hs Hs'. destruct (decimal_value serial Hs) as [Hv Hd]. destruct (decimal_value serial' Hs') as [Hv' Hd'].
  unfold has_prefix. rewrite text_eqb_spec. split.
  - intros E. unfold request_key_of in E.
    rewrite <- Hv, <- Hv'. f_equal. set (k := key_prefix serial' ++ _) in E.
    apply (digits_apart _ _ (drop (length (key_prefix serial)) k) (default (str "null") (id ≫= yyjson_write)) Hd Hd').
    unfold key_prefix in E. change (str ":") with [":"%char] in E.
    change (decimal serial ++ ":"%char :: drop (length (key_prefix serial)) k) with
      (decimal serial ++ [":"%char] ++ drop (length (key_prefix serial)) k).
    rewrite app_assoc. unfold key_prefix at 1. change (str ":") with [":"%char].
    rewrite <- E at 1. rewrite take_drop. unfold k, key_prefix. change (str ":") with [":"%char].
    by rewrite <- app_assoc.
  - intros ->. unfold request_key_of. by rewrite take_app_length.
Qed.

(** C27: a client only cancels requests of its own: the keys of two clients differ,
    whatever their ids are, and when a client goes, the cancellations of the
    others stay. *)
Theorem cancellations_apart serial serial' id id' (s : server host) :
  0 ≤ serial → 0 ≤ serial' →
  (request_key_of serial id = request_key_of serial' id' → serial = serial') ∧
  (request_key_of serial' id ∈ (forget_keys serial s).(cancelled_ids) ↔
   request_key_of serial' id ∈ s.(cancelled_ids) ∧ serial ≠ serial').
Proof.
  intros Hs Hs'. split.
  - intros E. apply (key_of_prefix serial serial' id'); [done|done|]. rewrite <- E.
    by apply key_of_prefix.
  - unfold forget_keys. cbn [cancelled_ids set_cancelled_ids]. rewrite elem_of_filter.
    rewrite <- (key_of_prefix serial serial' id Hs Hs'). rewrite not_true_iff_false. naive_solver.
Qed.

(** ** Chords *)

Definition has_code (codes : list Z) (s : KeyStroke) : Prop := s.(stroke_code) ∈ codes.

Lemma add_code_spec codes code codes' :
  add_code codes code = Some codes' → NoDup codes → (length codes ≤ HELD_KEYS)%nat →
  NoDup codes' ∧ (length codes' ≤ HELD_KEYS)%nat ∧ code ∈ codes' ∧ codes ⊆ codes'.
Proof.
  unfold add_code. case_decide as Hin; [intros [= <-]; done|]. case_decide; [|done]. intros [= <-] Hn Hl.
  split_and!; [|rewrite length_app; cbn; lia|set_solver|set_solver].
  apply NoDup_app. split_and!; [done| |apply NoDup_singleton]. intros x Hx ->%list_elem_of_singleton. done.
Qed.

(** What a key of a chord stands for: its code, with Shift where it needs it. *)
Definition stands_for (m : KeyboardMap) (codes : list Z) (name : text) : Prop :=
  ∃ s, lookup_keysym m (named_keysym name) = Some s ∧ s.(stroke_code) ∈ codes ∧
    (s.(stroke_shift) = true → ∃ shift, lookup_keysym m XKB_KEY_Shift_L = Some shift ∧ shift.(stroke_code) ∈ codes).

Lemma stands_for_more m codes codes' name : codes ⊆ codes' → stands_for m codes name → stands_for m codes' name.
Proof.
  intros Hs (k & Hk & Hc & Hsh). exists k. split_and!; [done|by apply Hs|].
  intros E. destruct (Hsh E) as (shift & ? & ?). exists shift. split; [done|by apply Hs].
Qed.

Lemma add_key_spec m codes name codes' :
  add_key m codes name = inr codes' → NoDup codes → (length codes ≤ HELD_KEYS)%nat →
  NoDup codes' ∧ (length codes' ≤ HELD_KEYS)%nat ∧ codes ⊆ codes' ∧ stands_for m codes' name.
Proof.
  unfold add_key. intros E Hn Hl.
  destruct (named_keysym name =? XKB_KEY_NoSymbol); [done|].
  destruct (lookup_keysym m (named_keysym name)) as [k|] eqn:Hk; [|done].
  unfold add_stroke in E. destruct (stroke_shift k) eqn:Hsh.
  - destruct (lookup_keysym m XKB_KEY_Shift_L) as [shift|] eqn:Hshift; [|done].
    destruct (add_code codes (stroke_code shift)) as [l|] eqn:E1; [|done]. cbn in E.
    destruct (add_code l (stroke_code k)) as [l'|] eqn:E2; [|done]. injection E as <-.
    destruct (add_code_spec _ _ _ E1 Hn Hl) as (Hn1 & Hl1 & Hc1 & Hs1).
    destruct (add_code_spec _ _ _ E2 Hn1 Hl1) as (Hn2 & Hl2 & Hc2 & Hs2).
    split_and!; [done|done|by transitivity l|]. exists k. split_and!; [done|done|]. intros _. exists shift. auto.
  - destruct (add_code codes (stroke_code k)) as [l|] eqn:E1; [|done]. injection E as <-.
    destruct (add_code_spec _ _ _ E1 Hn Hl) as (Hn1 & Hl1 & Hc1 & Hs1).
    split_and!; [done|done|done|]. exists k. split_and!; [done|done|congruence].
Qed.

Lemma chord_spec m names codes codes' :
  chord m codes names = inr codes' → NoDup codes → (length codes ≤ HELD_KEYS)%nat →
  NoDup codes' ∧ (length codes' ≤ HELD_KEYS)%nat ∧ codes ⊆ codes' ∧ Forall (stands_for m codes') names.
Proof.
  revert codes. induction names as [|n names IH]; intros codes; cbn [chord]; [by intros [= <-]|].
  destruct (add_key m codes n) as [?|l] eqn:E; [done|]. intros Hc Hn Hl.
  destruct (add_key_spec _ _ _ _ E Hn Hl) as (Hn1 & Hl1 & Hs1 & Hf1).
  destruct (IH l Hc Hn1 Hl1) as (Hn2 & Hl2 & Hs2 & Hf2).
  split_and!; [done|done|by transitivity l|]. constructor; [by eapply stands_for_more|done].
Qed.

(** C26: a chord presses each key once, at most as many as there is room for, and
    every name that was given is among them, with Shift where its symbol needs it. *)
Theorem chord_presses m names codes :
  chord m [] names = inr codes →
  NoDup codes ∧ (length codes ≤ 8)%nat ∧ Forall (stands_for m codes) names.
Proof.
  intros E. destruct (chord_spec m names [] codes E) as (? & ? & _ & ?); [constructor|cbn; lia|done].
Qed.
End keys.

(** ** Batches *)

Section batches.
Context `{Json_text} {G : GLib} {surroundings : Surroundings} {parts : Tools} (fuel : nat).
Abbreviation M := (mcp host note).

Lemma bind_returned {A B} (m : M A) (f : A → M B) w y w' :
  (m ≫= f) w = Returned y w' → ∃ x w1, m w = Returned x w1 ∧ f x w1 = Returned y w'.
Proof. unfold mbind, M_bind. destruct (m w) as [x w1| |]; [eauto|done..]. Qed.

(** a batch runs its steps in order up to the first that fails.  Its result
    counts those that were done, and says of the one that failed at which index
    it is and which tool it is; after all were done nothing says so. *)
Theorem steps_counted l i p w p' w' :
  run_steps fuel l i p w = Returned p' w' →
  ∃ n : nat, p'.(completed) = p.(completed) + Z.of_nat n ∧
    ((n = length l ∧ p'.(failed) = p.(failed) ∧ p'.(result) = p.(result)) ∨
     (p'.(failed) = true ∧ ∃ t arguments code hint, l !! n = Some (t, arguments) ∧
       p'.(result) = result_member p.(result) (str "failed") (batch_failure code hint (i + Z.of_nat n) t))).
Proof.
  revert i p w. induction l as [|[t arguments] l IH]; intros i p w; cbn [run_steps].
  { intros [= <- <-]. exists 0%nat. split; [lia|]. by left. }
  intros ([] & w1 & _ & E)%bind_returned. apply bind_returned in E as (go & w2 & _ & E).
  apply bind_returned in E as (v & w3 & _ & E). apply bind_returned in E as (h & w4 & _ & E).
  cbv zeta in E. destruct v as [v|].
  - apply IH in E as (n & Hc & Hn). exists (S n). cbn [completed failed result] in *. split; [lia|].
    destruct Hn as [(-> & ? & ?)|(? & t' & a' & c & hint & Hl & Hr)]; [by left|right].
    split; [done|]. exists t', a', c, hint. split; [done|]. rewrite Hr. do 2 f_equal. lia.
  - apply bind_returned in E as ([] & w5 & _ & E). apply bind_returned in E as (s & w6 & _ & E).
    apply bind_returned in E as ([] & w7 & _ & E). injection E as <- <-. exists 0%nat. cbn [completed failed result].
    split; [lia|]. right. split; [done|]. exists t, arguments, s.(code), s.(hint). split; [done|]. by rewrite Z.add_0_r.
Qed.

(** Shaping a tree leaves all but what the client has as it was. *)
Section shape.
Context (F : assertion) (HF : apart F)
  (Hservice : ∀ s g v, F s g → F (set_own (set_the_service v s.(own)) s) g).

Lemma preserves_at_client c : preserves F (client_at c).
Proof.
  unfold client_at. apply preserves_bind; [by intros w Hw|]. intros s.
  destruct (clients s !! c); [apply preserves_ret|apply preserves_undefined].
Qed.

Lemma preserves_shape_tree k requested o : preserves F (shape_tree k requested o).
Proof.
  unfold shape_tree. destruct (elements _) as [|x l]; [apply preserves_ret|].
  apply preserves_bind.
  { unfold host_tree_baseline. apply preserves_bind; [by intros w Hw|]. intros s.
    destruct (host_current s); [|apply preserves_ret].
    apply preserves_bind; [apply preserves_at_client|]. intros z. apply preserves_ret. }
  intros b. apply preserves_bind; [by intros w Hw|]. intros w.
  destruct (json_string _ _) as [tree|], b as [b|], w as [w|]; try apply preserves_ret.
  apply preserves_bind.
  { unfold shorter. destruct (ComputerState.tree b); [|apply preserves_ret].
    destruct (_ && _); [|apply preserves_ret]. apply preserves_bind; [by apply preserves_ask|]. intros a.
    destruct (tree_diff _ _ _ _); [apply preserves_ret|apply preserves_undefined]. }
  intros d. apply preserves_bind; [|intros []; apply preserves_ret].
  unfold change_baseline. apply preserves_bind; [by intros v Hv|]. intros s.
  destruct (host_current s); [|apply preserves_ret].
  apply preserves_bind; [apply preserves_at_client|]. intros z. intros v Hv. by apply Hservice.
Qed.
End shape.

Lemma input_allowed_open w w' : desktop_input_allowed w = Returned true w' → input_open w'.(now) = true.
Proof.
  unfold desktop_input_allowed. intros (s & w1 & E & Ha)%bind_returned. injection E as <- <-. cbv zeta in Ha.
  destruct (desktop_is_locked _ || _) eqn:E1.
  { by apply bind_returned in Ha as (? & ? & _ & ?). }
  destruct (bool_decide _ && _) eqn:E2.
  { by apply bind_returned in Ha as (? & ? & _ & ?). }
  injection Ha as <-. unfold input_open. cbn. by rewrite E1, E2.
Qed.

Lemma screen_shown w w' : screen_hidden fuel false w = Returned false w' → input_open w'.(now) = true.
Proof.
  unfold screen_hidden. intros (s & w1 & _ & E)%bind_returned. destruct (lock_seen s); [done|].
  apply bind_returned in E as (ok & w2 & Hok & E). injection E as E <-. apply negb_false_iff in E as ->.
  unfold desktop_foreground_ready in Hok. apply bind_returned in Hok as (b & w3 & _ & Hb).
  destruct b; [by eapply input_allowed_open|done].
Qed.

Lemma hide_withholds r f w x w' :
  hide fuel false r f w = Returned x w' → input_open w'.(now) = true ∨ (w'.(now).(images) = [] ∧ x.2 = true).
Proof.
  unfold hide. intros (hidden & w1 & Hh & E)%bind_returned. destruct hidden; cbn [negb] in E.
  - right. apply bind_returned in E as ([] & w2 & _ & E). apply bind_returned in E as ([] & w3 & E3 & E).
    apply bind_returned in E as (s & w4 & E4 & E). apply bind_returned in E as ([] & w5 & E5 & E).
    apply bind_returned in E as (e & w6 & E6 & E). apply bind_returned in E as ([] & w7 & E7 & E).
    injection E as <- <-. split; [|done].
    injection E3 as <-. injection E4 as <- <-. injection E6 as <- <-. injection E7 as <-. cbn [now].
    change (images w5.(now) = []). destruct (lock_seen _) in E5.
    + apply bind_returned in E5 as (y & w8 & E8 & E5). injection E5 as <-.
      apply bind_returned in E8 as ([] & w9 & E9 & E8). injection E8 as _ <-. injection E9 as <-. cbn.
      by destruct (code (now w2)).
    + injection E5 as <-. done.
  - left. injection E as _ <-. by eapply screen_shown.
Qed.

Lemma finish_withholds requested p w o w' :
  finish_batch fuel false requested p w = Returned (Some o) w' →
  input_open w'.(now) = true ∨
  (w'.(now).(images) = [] ∧ ∃ r, o = result_string r (str "status") (Some (str "failed"))).
Proof.
  unfold finish_batch. intros (x & w1 & _ & E)%bind_returned. apply bind_returned in E as (r & w2 & Hr & E).
  apply hide_withholds in Hr. apply bind_returned in E as (s & w3 & E3 & E). injection E3 as <- <-.
  apply bind_returned in E as (l & w4 & E4 & E). injection E as <- <-. destruct w2 as [s2 T2]. cbn in *.
  assert (Hkeep : ∀ F : server host → Prop, apart (λ s _, F s) →
    (∀ s (_ : ghost) v, F s → F (set_own (set_the_service v s.(own)) s)) → F s2 → F w4.(now)).
  { intros F HF Hs H2. revert E4. destruct (deliverable _ _ _); [|by intros [= _ <-]].
    intros E4. pose proof (preserves_shape_tree (λ s _, F s) HF Hs Vision requested x.1 (World s2 T2) H2) as Hp.
    by rewrite E4 in Hp. }
  destruct Hr as [Ho|[Hi Hf]].
  - left. by apply (Hkeep (λ s, input_open s = true)).
  - right. split; [by apply (Hkeep (λ s, s.(images) = []))|]. rewrite Hf. eauto.
Qed.

(** C19: a batch that acted on the screen and answers while the screen is locked,
    or while that is not known, carries no image and says that it failed. *)
Theorem vision_withholds t arguments w o w' :
  t.(batch) = BATCH_VISION → run_batch fuel t arguments w = Returned (Some o) w' →
  input_open w'.(now) = true ∨
  (w'.(now).(images) = [] ∧ ∃ r, o = result_string r (str "status") (Some (str "failed"))).
Proof.
  intros Ht. unfold run_batch. rewrite Ht. change (BATCH_VISION =? BATCH_ACCESSIBILITY) with false. cbv zeta.
  case_decide; [done|]. intros (l & w1 & _ & E)%bind_returned. destruct l as [l|]; [|done].
  apply bind_returned in E as ([] & w2 & _ & E); [|done]. apply bind_returned in E as ([] & w3 & _ & E); [|done].
  apply bind_returned in E as ([] & w4 & _ & E); [|done]. apply bind_returned in E as (p & w5 & _ & E).
  by eapply finish_withholds.
Qed.
End batches.
