(* ===== verification/ComputerExamples.v ===== *)
(** * A desktop for the host's computer-use program to run on

    A kernel, buses and a compositor that play a script: what is ready at each
    look, who connects, what the peers write and what the compositor says.  The
    parts of the tools that are not modelled do little here: a value is set by
    pressing one key for the element. *)

From S2P Require Import Prelude Glib TreeDiff Json Catalog Results ScuExamples CatalogProps.
From S2P Require Export ComputerProps.

Record stage := Stage {
  looks : list (list ready);       (** a signal stops the program after them *)
  input_events : list (list ei_event);
  peers : list (option Z);
  messages : list message;
  incoming : list text;
  clock : Z;
}.

Definition set_clock (t : Z) (s : stage) : stage :=
  Stage s.(looks) s.(input_events) s.(peers) s.(messages) s.(incoming) t.

Definition sample_session : session_properties := Properties (Some 1000) (Some true) (Some false)
  (Some (str "wayland")) (Some (str "user")) (Some false).

(** The letters are where a keyboard of the United States has them; Shift is 50. *)
Definition sample_keymap : keymap := {|
  shift_index := Some 0;
  min_keycode := 8;
  max_keycode := 255;
  one_sym modifiers latched locked group code :=
    if code =? 50 then XKB_KEY_Shift_L
    else if code =? 38 then (if modifiers =? 0 then 97 else 65)
    else if code =? 36 then 0xff0d else 0;
|}.

Definition bus_answer {A} (c : bus_call A) : text + A :=
  match c with
  | GetSession _ => inr (str "/org/freedesktop/login1/session/_32")
  | GetAll _ => inr sample_session
  | GetActive => inr false
  | ConnectToEis => inr 9
  end.

Definition socket_stat : stat := Stat 0xC1FF 1000 1 2.

(** The rest of a script, and the head of it if there is one. *)
Definition sample_respond {A} (q : request A) (s : stage) : A * stage :=
  match q with
  | Ready =>
      match s.(looks) with
      | [] => (([], true), s)
      | l :: r => ((l, false), Stage r s.(input_events) s.(peers) s.(messages) s.(incoming) s.(clock))
      end
  | Time => (s.(clock), set_clock (s.(clock) + 10) s)
  | Sleep us => (tt, set_clock (s.(clock) + us) s)
  | Send fd data => (inr (Nat.min piece (length data)), s)
  | Recv fd size =>
      if fd =? 4 then (inr [], s) else    (** the controller goes *)
      match s.(incoming) with
      | [] => (inl EAGAIN, s)
      | t :: r => (inr (take (Z.to_nat size) t), Stage s.(looks) s.(input_events) s.(peers) s.(messages) r s.(clock))
      end
  | Recvmsg fd =>
      match s.(messages) with
      | [] => (inl EAGAIN, s)
      | m :: r => (inr m, Stage s.(looks) s.(input_events) s.(peers) r s.(incoming) s.(clock))
      end
  | Accept fd =>
      match s.(peers) with
      | [] => (None, s)
      | p :: r => (p, Stage s.(looks) s.(input_events) r s.(messages) s.(incoming) s.(clock))
      end
  | PeerUid _ => (Some 1000, s)
  | Shutdown _ => (tt, s)
  | Close _ => (tt, s)
  | Fstat _ => (Some socket_stat, s)
  | Accepting _ => (true, s)
  | Nonblocking _ => (tt, s)
  | ExecutableStat => (Some (Stat 0x81ED 0 3 4), s)
  | SystemBus => (inr tt, s)
  | SystemBusClosed => (false, s)
  | SessionBusClosed => (false, s)
  | StartCall _ _ => (tt, s)
  | Finished c => (Some (bus_answer c), s)
  | CancelCall => (tt, s)
  | Subscribe => (tt, s)
  | Unsubscribe => (tt, s)
  | Spawn _ => (inr 500, s)
  | Terminate _ => (tt, s)
  | ForceExit _ => (tt, s)
  | Wait _ => (tt, s)
  | EiDispatch =>
      match s.(input_events) with
      | [] => ([], s)
      | l :: r => (l, Stage s.(looks) r s.(peers) s.(messages) s.(incoming) s.(clock))
      end
  | BindSeat _ => (tt, s)
  | StartEmulating _ _ => (tt, s)
  | Button _ _ _ => (tt, s)
  | Key _ _ _ => (tt, s)
  | Frame _ _ => (tt, s)
  | CloseInput => (tt, s)
  | DisconnectInput => (tt, s)
  | Capable _ _ => (true, s)
  | SameSeat _ _ => (true, s)
  | Keymap _ => (Some sample_keymap, s)
  | Utf8 _ _ => (tt, s)
  | Motion _ => (tt, s)
  | Scroll _ _ _ => (tt, s)
  | ScuLibrary _ => (true, s)
  | LoadVisualLibraries => (true, s)
  | Allocates => (true, s)
  | NewSender => (tt, s)
  | SetupBackend _ => (true, s)
  | KillWorker _ => (tt, s)
  | PrintError _ => (tt, s)
  | Foreign _ _ => ([], s)
  end.

#[export] Instance sample_surroundings : Surroundings.
Proof.
  refine {| outside := stage; respond := @sample_respond; getuid := 1000; getpid := 77;
    keysym_from_name name any_case := if text_eqb name (str "a") then 97
      else if text_eqb name (str "A") then 65 else if text_eqb name (str "Return") then 0xff0d
      else if text_eqb name (str "Shift_L") then XKB_KEY_Shift_L else 0;
    utf32_to_keysym c := c;
    utf8_character s := match s with [c] => Some (Prelude.code c) | _ => None end |}.
  - intros fd data h n. change (@inr Z nat (Nat.min piece (length data)) = inr n → (n ≤ length data)%nat).
    generalize piece. intros k E. assert (Nat.min k (length data) = n) as <- by congruence. apply Nat.le_min_r.
  - intros fd size h data Hs. cbn. destruct (fd =? 4); [intros [= <-]; cbn; lia|]. destruct (incoming h) as [|t r]; [done|]. intros [= <-].
    rewrite length_take. lia.
Defined.

#[export] Instance sample_tools : Tools := {
  scu_status observation := Done (Some result_object);
  search_applications arguments := Done None;
  launch_application arguments := Done None;
  scu_atspi tool arguments := Done (if text_eqb tool (str "set_value")
    then Some (result_boolean result_object (str "keyboard_required") true) else None);
  pointer_action tool arguments := Done None;
  type_target_value tool arguments numeric :=
    Then EnsureSession (λ _, Then (WaitDevice KEYBOARD) (λ x,
      Then (Target (Some (arguments, None))) (λ _,
      Then (PressCodes (match x with Some x => x.(raw) | None => 0 end) [30]) (λ ok,
      Then (Target None) (λ _, Done (if ok then Some result_object else None))))));
  paste_text d m s := Done false;
  refresh_geometry := Done true;
  start_atspi_worker := Done true;
  worker_exchange tool arguments := Then Tick (λ ok, Done (if ok then Some result_object else None));
  target_window_active window := Done true;
  capture_desktop := Done None;
  observe_window arguments screenshot := Done None;
}.

(** * A session of the host's computer-use program

    A controller registers a lease, a space's server connects, and its batch
    presses a chord; the controller goes, and the lease is given back.  The
    theorems of [ComputerProps] at this run. *)

Definition object (l : list (string * json)) : json := JObject ((λ m, (str m.1, m.2)) <$> l).
Definition string_value (s : string) : json := JString (str s).
Definition text_line (v : json) : text := write_json v ++ [char 10].
Definition rpc_request (id : Z) (method : string) (params : list (string * json)) : json :=
  object [("jsonrpc", string_value "2.0"); ("id", JUint id); ("method", string_value method);
    ("params", object params)]%string.

Definition registration : text :=
  text_line (object [("session", string_value "2"); ("wayland", string_value "wayland-0")])%string.
Definition initialize_request : json :=
  rpc_request 1 "initialize" [("protocolVersion", string_value "2025-11-25")]%string.
Definition press_step : json :=
  object [("tool", string_value "press_keys"); ("args", object [("keys", JArray [string_value "A"])])]%string.
Definition press_request : json := rpc_request 2 "tools/call" [("name", string_value "vision");
  ("arguments", object [("steps", JArray [press_step]); ("observations", JBool false)])]%string.
Definition inventory : text := write_json (object [("outputs", JArray
  [object [("name", string_value "DP-1"); ("connected", JBool true)]])])%string.

Definition quiet : list ready := [QueryDone (inr inventory)].

Definition session_stage : stage := {|
  looks := [[Fires Controllers false]; [Fires (ControlOf 0) false]] ++ replicate 30 [] ++
    [[Fires (AcceptOf 0) false]; quiet; [Fires (ReadOf 1) false]] ++ replicate 240 quiet ++
    [[Fires (WriteOf 1) false]; [Fires (WriteOf 1) false]; [Fires (ControlOf 0) false]] ++ replicate 30 [];
  input_events := replicate 60 [] ++ [[EiSeatAdded 1; EiDeviceAdded 5]; [EiResumed 5]];
  peers := [Some 4; None; Some 8; None];
  messages := [Message registration [7] false];
  incoming := [text_line initialize_request ++ text_line press_request];
  clock := 10000000;
|}.

Definition session_outside : outside := session_stage.

Definition fuel : nat := 300.

(** So many turns of the loop. *)
Fixpoint turns (n previous : nat) : mcp host note unit :=
  match n with
  | O => mret tt
  | S n =>
      r ← host_turn fuel (execute_tool fuel) true 20000000 previous;
      match r with Some previous => turns n previous | None => mret tt end
  end.

Lemma reached_turns h n previous w w' :
  reached fuel None h w → turns n previous w = Returned tt w' → reached fuel None h w'.
Proof.
  revert previous w. induction n as [|n IH]; intros previous w Hw; cbn [turns]; [by intros [= <-]|].
  intros (r & w1 & E & Ht)%bind_returned.
  pose proof (reached_turn _ _ _ _ _ _ _ _ _ Hw E) as H1.
  destruct r as [p|]; [by eapply IH|by injection Ht as <-].
Qed.

(** ** The session *)

Abbreviation opened_run := (open_service None (World (start session_outside) [])).
Abbreviation opened_world := (world_after (start session_outside) opened_run).
Abbreviation session_run := (turns 270 0 opened_world).
Abbreviation session_world := (world_after (start session_outside) session_run).

Lemma session_reached : reached fuel None session_outside session_world.
Proof.
  apply (reached_turns session_outside 270 0 opened_world).
  - apply reached_open. apply returned_world. by vm_compute.
  - apply returned_world. by vm_compute.
Qed.

(** What was asked of the keyboard. *)
Definition key_of (e : event note) : option (Z * bool) :=
  match e with Asked (Asks (Did (Key d code pressed) _)) => Some (code, pressed) | _ => None end.

(** The chord goes down in order and comes up in reverse; the client is answered
    twice, and the lease is given back. *)
Example session_presses :
  omap key_of (rev session_world.(trace)) = [(42, true); (30, true); (30, false); (42, false)].
Proof. by vm_compute. Qed.

Lemma split_at (T : list (event note)) n e : T !! n = Some e → T = take n T ++ e :: drop (S n) T.
Proof. intros Hn. by rewrite take_drop_middle. Qed.

Lemma nothing_after_release_witness :
  (∀ c, Asked (Opened c 0%nat) ∉ take 5 session_world.(trace)) ∧
  (∀ e, Asked (Takes e) ∈ take 5 session_world.(trace) →
    match e with
    | HOST_CALL c _ => Asked (Opened c 0%nat) ∉ session_world.(trace)
    | HOST_REGISTER l' | HOST_REVOKE l' => l' ≠ 0%nat
    end).
Proof.
  apply (nothing_after_release fuel None session_outside session_world 0%nat _ (drop 6 session_world.(trace))).
  - exact session_reached.
  - apply split_at. by vm_compute.
Defined.

Definition no_tool : Tool := hd {| name := []; description := []; groups := 0; arguments := []; required := None;
  action := false; batch := 0; modes := 0; targeted_required := None |} action_tools.
Definition vision_tool : Tool := default no_tool (find_tool false (Some (str "vision"))).
Definition press_parameters : value := json_member (Some press_request) (str "params").
Definition press_arguments : value := json_member press_parameters (str "arguments").

Lemma tools_for_connected_witness :
  ∃ c d, taken_last (drop 1722 session_world.(trace)) = Some (HOST_CALL c d) ∧
    Asked (Closed c) ∉ drop 1722 session_world.(trace).
Proof.
  apply (tools_for_connected fuel None session_outside session_world vision_tool (Some (JUint 2))
    press_parameters press_arguments (take 1721 session_world.(trace))).
  - exact session_reached.
  - apply split_at. by vm_compute.
Defined.

Lemma host_bounded_witness :
  let s := session_world.(now) in
  let service := s.(own).(the_service) in
  let visual := s.(own).(the_visual) in
  visual.(held_keys) = [] ∧
  (∀ d, visual.(held_device) = Some d → is_listed d visual = true) ∧
  (host_client_count service ≤ 32)%nat ∧ (length service.(host_leases) ≤ 64)%nat ∧
  (length (filter (λ e, is_call e = true) service.(host_events)) ≤ 64)%nat ∧
  (size s.(cancelled_ids) ≤ 256)%nat ∧
  (∀ c x, service.(clients) !! c = Some x →
    Z.of_nat (length x.(c_input)) ≤ 1024 * 1024 ∧
    Z.of_nat (length x.(c_output)) ≤ 128 * 1024 * 1024 + 1).
Proof. apply (host_bounded fuel None session_outside session_world). exact session_reached. Defined.

Lemma answers_to_their_client_witness :
  sent_to 1%nat session_world.(trace) `prefix_of` answered_to 1%nat session_world.(trace) ∧
  length (sent_to 1%nat session_world.(trace)) = 100%nat.
Proof.
  split; [|by vm_compute].
  apply (answers_to_their_client fuel None session_outside). exact session_reached.
Defined.

(** ** Parts *)

Definition busy_state : server host :=
  set_cancelled_ids {[request_key_of 1 (Some (JUint 7)); request_key_of 2 (Some (JUint 7))]} (start session_outside).

Lemma cancellations_apart_witness :
  (request_key_of 1 (Some (JUint 7)) = request_key_of 2 (Some (JUint 7)) → 1 = 2) ∧
  (request_key_of 2 (Some (JUint 7)) ∈ (forget_keys 1 busy_state).(cancelled_ids) ↔
   request_key_of 2 (Some (JUint 7)) ∈ busy_state.(cancelled_ids) ∧ 1 ≠ 2).
Proof. apply (cancellations_apart 1 2 (Some (JUint 7)) (Some (JUint 7)) busy_state); done. Defined.

Definition sample_map : KeyboardMap := {| km := sample_keymap; ComputerInput.state := Device 5 true 0 0 0 0 |}.

Lemma chord_presses_witness :
  NoDup [42; 30; 28] ∧ (length [42; 30; 28] ≤ 8)%nat ∧
  Forall (stands_for sample_map [42; 30; 28]) [str "shift"; str "A"; str "a"; str "Enter"].
Proof. apply chord_presses. by vm_compute. Defined.

(** A batch whose second step fails. *)
Definition delay_step : Tool * value := (default no_tool (find_action BATCH_VISION (Some (str "delay_ms"))),
  Some (object [("ms", JUint 5)])%string).
Definition click_step : Tool * value := (default no_tool (find_action BATCH_VISION (Some (str "click"))),
  Some (object [("x", JUint 5); ("y", JUint 5)])%string).

Definition quiet_outside : outside := ({|
  looks := replicate 200 [];
  input_events := [[]; [EiSeatAdded 1; EiDeviceAdded 5]; [EiResumed 5]];
  peers := []; messages := []; incoming := []; clock := 10000000 |} : stage).

Definition no_progress : progress := Progress 0 false false false result_object result_array.

Abbreviation steps_run := (run_steps fuel [delay_step; click_step; delay_step] 0 no_progress (World (start quiet_outside) [])).

Definition steps_progress : progress :=
  match steps_run with Returned p _ => p | _ => no_progress end.

Lemma steps_counted_witness :
  steps_progress.(completed) = 1 ∧
  ∃ n : nat, steps_progress.(completed) = 0 + Z.of_nat n ∧
    ((n = length [delay_step; click_step; delay_step] ∧ steps_progress.(failed) = false ∧
      steps_progress.(result) = result_object) ∨
     (steps_progress.(failed) = true ∧ ∃ t arguments code hint,
       [delay_step; click_step; delay_step] !! n = Some (t, arguments) ∧
       steps_progress.(result) = result_member result_object (str "failed") (batch_failure code hint (0 + Z.of_nat n) t))).
Proof.
  split; [by vm_compute|].
  apply (steps_counted fuel _ 0 no_progress (World (start quiet_outside) []) steps_progress
    (world_after (start quiet_outside) steps_run)).
  by vm_compute.
Defined.

(** The screen locks before the observation. *)
Definition locking_outside : outside := ({|
  looks := replicate 6 [] ++ [[LockerChanged true]] ++ replicate 20 []; input_events := []; peers := []; messages := []; incoming := []; clock := 10000000 |} : stage).
Definition locked_state : server host :=
  set_own (set_the_desktop (set_session (Some (str "2")) (set_valid true (set_lock_known true
    (set_screen_known true (set_watching true no_desktop)))))
    (start locking_outside).(own)) (start locking_outside).
Definition observe_arguments : value := Some (object [("steps", JArray []); ("observations", JBool false)]%string).
Abbreviation batch_run := (run_batch fuel vision_tool observe_arguments (World locked_state [])).
Definition batch_output : json := match batch_run with Returned (Some o) _ => o | _ => JNull end.
Abbreviation batch_world := (world_after locked_state batch_run).

Example screen_locked_meanwhile :
  input_open locked_state = true ∧ input_open batch_world.(now) = false.
Proof. by vm_compute. Qed.

Lemma vision_withholds_witness :
  input_open batch_world.(now) = true ∨
  (batch_world.(now).(images) = [] ∧ ∃ r, batch_output = result_string r (str "status") (Some (str "failed"))).
Proof.
  apply (vision_withholds fuel vision_tool observe_arguments (World locked_state [])); by vm_compute.
Defined.

(** ** Text for an element *)

Definition element_step : json :=
  object [("tool", string_value "set_value"); ("args", object [("element_id", JUint 1); ("value", string_value "a")])]%string.
Definition element_request : json := rpc_request 2 "tools/call" [("name", string_value "accessibility");
  ("arguments", object [("steps", JArray [element_step])])]%string.

Definition element_stage (looks : list (list ready)) (input_events : list (list ei_event)) : outside := ({|
  looks := looks; input_events := input_events; peers := session_stage.(peers); messages := session_stage.(messages);
  incoming := [text_line initialize_request ++ text_line element_request]; clock := 10000000 |} : stage).

(** The compositor removes the keyboard while the element is verified: the keys go
    to a device that was freed. *)
Definition removing_outside : outside :=
  element_stage session_stage.(looks) (session_stage.(input_events) ++ replicate 26 [] ++ [[EiRemoved 5]]).

Abbreviation removed_run := (run_shared_host fuel (execute_tool fuel) None (World (start removing_outside) [])).
Definition removed_world : machine (server host) (event note) :=
  match removed_run with Undefined w => w | _ => World (start removing_outside) [] end.

Lemma host_uses_nothing_freed_witness :
  removed_run = Undefined removed_world ∧
  ∃ d allowed T, removed_world.(trace) = Asked (Presses d allowed) :: T ∧ verified_since T ∧
    is_listed d removed_world.(now).(own).(the_visual) = false.
Proof.
  assert (E : removed_run = Undefined removed_world).
  { unfold removed_world. assert (Hu : match removed_run with Undefined _ => true | _ => false end = true) by (by vm_compute).
    destruct removed_run; [done..|reflexivity]. }
  split; [exact E|]. exact (host_uses_nothing_freed fuel None removing_outside removed_world E).
Defined.

(** The screen locks while the element is verified: the key is pressed all the
    same. *)
Definition locked_outside : outside :=
  element_stage (take 144 session_stage.(looks) ++ [LockerChanged true] :: drop 145 session_stage.(looks))
    session_stage.(input_events).

Abbreviation locked_opened := (world_after (start locked_outside) (open_service None (World (start locked_outside) []))).
Abbreviation locked_world := (world_after (start locked_outside) (turns 270 0 locked_opened)).

Lemma locked_reached : reached fuel None locked_outside locked_world.
Proof.
  apply (reached_turns locked_outside 270 0 locked_opened).
  - apply reached_open. apply returned_world. by vm_compute.
  - apply returned_world. by vm_compute.
Qed.

Lemma pressed_where_allowed_witness :
  locked_world.(trace) !! 835%nat = Some (Asked (Presses 5 false)) ∧
  (false = true ∨ verified_since (drop (836) locked_world.(trace))).
Proof.
  split; [by vm_compute|].
  apply (pressed_where_allowed fuel None locked_outside locked_world 5 false (take 835 locked_world.(trace))).
  - exact locked_reached.
  - apply split_at. by vm_compute.
Defined.
